(* ===== verification/_CoqProject ===== *)
-Q . S2P
Prelude.v
Encoding.v
VectorClock.v
Crdt.v
Counters.v
CrdtSets.v
CrdtMaps.v
SignedSum.v
Convergence.v
Replication.v
Replicator.v
Address.v
Membership.v
Sbr.v
Daemon.v
Heartbeat.v
Queues.v
Supervision.v
ActorCell.v
Patterns.v
Journal.v
Eventsourced.v
EventDrivers.v
Endpoint.v
Association.v
Chunking.v
Sharding.v
ShardRegions.v
Routing.v
ClusterTools.v
KillSwitch.v
FixMessage.v
FixSession.v
Outbox.v
Saga.v
Config.v
Hocon.v
Streams.v
TimedStreams.v
Framing.v
StreamBuffers.v
AtLeastOnce.v
Determinism.v
Scheduler.v
Cqrs.v
CqrsRead.v
LruCache.v
RemoteSystem.v
ActorSystem.v
SystemRuns.v
Buses.v
SqlJournal.v
SqlFacts.v
SqlChain.v
SqlSetup.v
StoreJournals.v
KeyValueJournals.v
ClusterNet.v
Conformance.v
SerialLink.v
DocumentStores.v
AzureTables.v
TestTime.v
Telemetry.v
Probes.v
Dashboard.v
SnapshotStores.v
StreamHubs.v
FloatRules.v
Transports.v
