(* ===== verification/Prelude.v ===== *)
(** * atomr: a verification library

    atomr is an actor toolkit written in Rust.  A node runs an actor system
    (crate [atomr-core]): every actor is a cell with a system mailbox and a
    user mailbox, supervised by its parent.  Nodes form a cluster
    ([atomr-cluster]): each keeps a membership state with a vector clock,
    gossips it, measures the reachability of its peers by heartbeats, elects a
    leader that moves members through their life cycle, and resolves network
    partitions.  On top of the membership, [atomr-distributed-data]
    replicates conflict-free data types, [atomr-cluster-sharding] spreads
    entities over the nodes and [atomr-cluster-tools] runs singletons,
    publish-subscribe and a kill switch; [atomr-remote] carries messages
    between nodes, [atomr-persistence] journals the events of entities, and
    [atomr-patterns], [atomr-streams], [atomr-config] and [atomr-fix] build on
    these.  This library is a shallow embedding of those crates: the Rust
    functions are translated, one by one, into Rocq functions on records that
    have the fields of the Rust structs, and the theorems are about those
    functions.

    ** Conventions

    - [u64] and [u32] are [N] with the wrap-around of release builds written
      out ([u64_add], [wrap32]); [usize] is [nat]; [i128] is [Z] with the
      saturating operations the code calls; an [as] cast is its own function
      ([u64_as_i64]).
    - [HashMap]/[BTreeMap]/[DashMap] are stdpp's [gmap], sets are [gset];
      where iteration order or duplicates matter the model has a list.
      "For each entry of other, merge into self" is [merge_entries];
      [entry(k).or_insert(d)] followed by a mutation is [entry_update].
    - [Duration] and [Instant] are [N] nanoseconds;
      [saturating_duration_since] is subtraction on [N].
    - A [Result] or [Option] of the code is a sum or [option]; an operation
      that panics (an [expect], an index out of range, a wrapping guard) is an
      [option] whose [None] is the panic.
    - [&mut self] methods return the new state; a method with a result returns
      the pair.  Callbacks, channels and timers appear as a trace of events or
      a list of emitted messages, in the order of the code.
    - What the code gets from outside its own text (an actor's behaviour, a
      random pick, a clock reading, a remote reply, a user closure) is an
      argument of the definition, never a guess.
    - A definition is called [Type_method] after the Rust type and method.

    ** Files

    Shared:
    - [Prelude]: machine integers, the association and merge operations of
      maps, list and string lemmas, the tactics and the hint database.

    Replicated data, crate [atomr-distributed-data]:
    - [VectorClock] ([atomr-cluster/vector_clock.rs]): the clock, [tick],
      [merge] and [compare], which decides the causal order.
    - [Crdt] ([traits.rs]): the interface [CrdtMerge]/[DeltaCrdt] as a class
      with its semilattice laws ([CrdtLaws], up to an equivalence), and the
      convergence theorem that every instance inherits.
    - [Counters] ([counters.rs], [flag.rs], [register.rs]), [CrdtSets]
      ([sets.rs]), [CrdtMaps] ([maps.rs]), [SignedSum] ([signed_sum.rs]): the
      data types, their instances of the interface, what their values mean,
      and the deltas.
    - [Convergence]: what replicas of these types read after merging.
    - [Replication] ([pruning.rs], the consistency levels of
      [replicator.rs]): pruning states, read and write aggregators and the
      quorum arithmetic.
    - [Replicator] ([replicator.rs], [replicator_actor.rs], [durable.rs]): the
      keyed store, its subscribers, the durable stores and the actor that
      combines them.

    Cluster, crate [atomr-cluster]:
    - [Address] ([atomr-core/actor/address.rs], [path.rs]): parsing and
      printing of node addresses and actor paths; the rest of the cluster
      files use addresses as keys.
    - [Membership] ([member.rs], [reachability.rs], [membership.rs],
      [leader.rs], [events.rs]): members, statuses, the reachability matrix,
      the state and its operations, leader election and leader actions.
    - [Sbr] ([sbr.rs], [sbr_runtime.rs]): the split-brain strategies and the
      runtime that waits for stability and acts on the decision.
    - [Daemon] ([gossip.rs], [gossip_pdu.rs], [cluster_daemon.rs]): the gossip
      messages and the daemon, as a state machine with a step relation for
      several daemons exchanging messages.
    - [Heartbeat] ([heartbeat_sender.rs], [multi_dc.rs]).

    Actors, crate [atomr-core]:
    - [Queues] ([util/bounded_queue.rs], [dispatch/mailbox.rs],
      [dispatch/message_queues.rs], [actor/stash.rs]).
    - [Supervision] ([supervision.rs]): deciders, strategies and the restart
      tracker with its time window.
    - [ActorCell] ([actor/actor_cell.rs], [actor/context.rs],
      [actor/traits.rs], [actor/sender.rs]): the receive loop of one cell, its
      children, watchers, timeouts and stash, as a step function that emits
      effects.  The actor's code is the class [Actor].
    - [Patterns] ([pattern/retry.rs], [pattern/circuit_breaker.rs],
      [actor/fsm.rs], [actor/coordinated_shutdown.rs]), a module each.

    Persistence, crates [atomr-persistence] and [atomr-persistence-query]:
    - [Journal] ([journal.rs], [snapshot.rs], [async_snapshot.rs]): the journal
      interface with its specification, the in-memory journal, snapshots.
    - [Eventsourced] ([eventsourced.rs]) and [EventDrivers]
      ([persistent_actor.rs], [receive_persistent.rs], [persistent_fsm.rs]):
      the driver of an event-sourced entity over any journal, and the other
      drivers, shown to follow it.
    - [AtLeastOnce] ([alod.rs]): numbered deliveries that are repeated until
      they are confirmed.
    - [Determinism] ([determinism.rs]): the seeded generator with snapshots,
      provenance tags and the replay of a recording.

    Remoting, crate [atomr-remote]:
    - [Encoding]: little-endian numbers, UTF-8 and trimming, shared by the
      codecs.
    - [Endpoint] ([acked_delivery.rs] and the writer and reader): buffers of
      acknowledged delivery and the two ends of a connection.
    - [Association] (the handshake and the endpoint manager).
    - [Chunking] ([chunking.rs]): the wire form of chunks and reassembly.

    Sharding, crate [atomr-cluster-sharding]:
    - [Sharding]: allocation strategies, coordinator, hand-off, rebalancing.
    - [ShardRegions]: regions, remembered entities, passivation, the
      event-sourced and the replicated coordinator.

    Routers, tools and coordination:
    - [Routing] ([atomr-core/routing]): selection logic of every router.
    - [ClusterTools] ([atomr-cluster-tools], [atomr-coordination]): singleton,
      publish-subscribe, client, leases.
    - [KillSwitch] ([kill_switch.rs]): the replicated kill switch.

    FIX, crate [atomr-fix]: [FixMessage] (message, framing, checksum, parser),
    [FixSession] (the session state machine and the sequence store).

    Patterns, crate [atomr-patterns]: [Outbox] (relay, offset stores, inbox),
    [Saga] (saga runner, state stores, process manager), [Cqrs]
    (command gateway, shard repository, the traits of aggregates), [CqrsRead]
    (readers, codecs, audit, projections and the runners that poll a journal).

    Configuration, crate [atomr-config]: [Config] (values, layers, paths,
    durations) and [Hocon] (the reader, with substitutions and includes).

    Streams, crate [atomr-streams]: [Streams] (operators that are functions of
    their input), [TimedStreams] (operators that wait), [Framing] (byte
    frames), [StreamBuffers] (the buffers two tasks share).

    Whole systems:
    - [ActorSystem] ([atomr-core/actor/actor_system.rs], [actor_ref.rs]): the
      cells of [ActorCell] side by side, with channels, references, names,
      observers and termination; [SystemRuns] proves what holds of its runs.
    - [Buses] ([event_stream.rs], [dead_letters.rs], [extensions.rs], and
      [bus], [acl], [reactor], [specification] of [atomr-patterns]).
    Timers and the rest of remoting:
    - [Scheduler] ([atomr-core/actor/scheduler]): the hashed timer wheel and
      the scheduler interface over it.
    - [LruCache] ([atomr-remote/cache.rs]): the bounded cache of resolved
      references.
    - [RemoteSystem] ([codec.rs], [send_queue.rs], [failure_detector.rs],
      [remote_watcher.rs], [serialization], [system_daemon.rs], [router.rs] and
      the inbound dispatch of [system.rs]), a module each.
    - [ClusterNet] ([atomr-cluster/transport.rs], [remote_adapter.rs]): the
      cluster's transports, in one process and over TCP, and the gossip actor.
    Journals on databases, the crates [atomr-persistence-*]; a database is a
    class with one operation per statement of the code and a class of its laws,
    with a table that satisfies them:
    - [SqlJournal], [SqlFacts], [SqlChain] ([sql/journal.rs], [worm.rs]): the
      SQL journal, its refinement of one stream per entity, the hash chain
      over any hash function.
    - [SqlSetup] ([config.rs], [dialect.rs], [schema.rs], [snapshot.rs],
      [query.rs] of the same crate).
    - [StoreJournals]: the partitioned Cassandra journal, and the sort keys of
      DynamoDB and Azure tables; [KeyValueJournals]: the DynamoDB and Redis
      journals; [DocumentStores]: the MongoDB journal; [AzureTables]: the
      keys, the escaping and the entities of Azure tables, and its journal.
    - [Conformance] ([atomr-persistence-tck], and [outbox/tx.rs] of
      [atomr-patterns]): the conformance suites as programs over any journal,
      their runs, and the transactional outbox.
    Links and tests:
    - [SerialLink] ([atomr-remote-serial]): the transport over a serial line,
      as steps of its reader, its writer and its callers.
    - [Transports] ([atomr-remote/transport], [reader_writer.rs], [error.rs],
      [remote_ref.rs], [remote_props.rs]): the TCP transport, with calls that
      suspend, the transport for tests, the adapters, remote references.
    - [TestTime] ([atomr-testkit/test_scheduler.rs]): the virtual clock.
    Observation:
    - [Telemetry] ([atomr-telemetry]: [dto.rs], [bus.rs], [actor_registry.rs]):
      the event bus with its lagging receivers and forwarder tasks, and the
      tree of actors; [Probes]: the other probes, which adopt the states of
      the components modelled above, and the extension that holds them.
    - [Dashboard] ([atomr-dashboard]: [ws.rs], [aggregator.rs] and the routes
      over a whole cluster).
    More stores and streams, and numbers in double precision:
    - [SnapshotStores]: the snapshot stores of the five databases, over the
      same kind of classes as their journals.
    - [StreamHubs] ([hub.rs], [stream_ref.rs], [queue.rs] of [atomr-streams]):
      tasks that pump sources into channels, as turns in any order.
    - [FloatRules]: what the code decides in [f64], over the standard library's
      executable IEEE 754 operations: pool resizing, back-off delays, cluster
      metrics with both adaptive routers, and the phi-accrual detector.  Its
      exponential and logarithm are parameters.

    ** What the theorems show

    - Replicated data: each type but the last-writer-wins ones is a
      join-semilattice up to its observational equivalence, so replicas that
      have merged the same states read the same, whatever the order and the
      duplication ([Convergence.crdts_converge]); the
      operations mean what their names say in sequential use; deltas carry
      the same information as full states; add-wins, last-write-wins and
      put-wins behaviour; a read quorum meets a write quorum.
    - Cluster: the leader is the least eligible member and all nodes with the
      same view agree; leader actions move a member only along the life cycle
      and only on convergence; a leaving member is removed; two
      status exchanges bring two daemons to the join of their version
      vectors, with at most three messages each; what a daemon knows is always
      a merge of what some daemon knew; two nodes on the two sides of a
      partition never both down the other side, under the condition that each
      strategy needs of its configuration, which the theorem lists.
    - Actors: the life cycle of a cell is pre-start, handling, post-stop in
      this order for every run; system messages go before user messages; a
      stopped actor notifies each watcher and parent, unless a hook other than
      [handle] panics, which ends the task where it is (the theorems on whole
      systems assume that these hooks return); the supervisor's
      directive determines the effect on the child; the restart budget is
      respected within every window; the stable priority queue refines a
      sorted list.
    - Patterns: the number and the timing of retries, the breaker's states
      against its abstract specification, phases of shutdown in dependency
      order, the FSM's call sequence as a path of its transition function.
    - Persistence: recovery rebuilds the state that the events of the journal
      determine, whatever the crashes; at-least-once delivery refines a list
      of outstanding messages; a restored generator continues the saved one.
    - Remoting: acknowledged delivery hands over each message once and in
      order over a lossy connection; the handshake associates both ends or
      neither; chunking is inverted by reassembly.
    - Sharding: every message is handled once, at the region that owned its
      shard when it asked, or is under way or lost, with forwarders that delay
      and lose; hand-off follows its life cycle.
    - Tools: in a handover a message is delivered once or buffered, in every
      interleaving of sends and activations; the
      kill switch latches and refines its specification; a consistent-hashing
      router moves only the keys of the node that left.
    - FIX: print and parse are inverse, corruption is detected, two sessions
      that do not reset their numbers deliver everything in order, and a gap is
      repaired.
    - Patterns: the outbox publishes every event in order, with an inbox
      exactly once; a saga restarted from its store goes on as if it had not
      stopped.
    - Configuration: the last layer that defines a path wins; the HOCON reader
      ends on every input, and reads back what a reference printer (which the
      code does not have) writes.
    - Streams: framing by a length field does not depend on the chunks and
      inverts the encoder; a buffer keeps its capacity and the order, and
      loses nothing under back-pressure; time windows are emitted in time.
    - Systems: a name is taken while its actor lives, no child outlives its
      parent without a stop on its way; in a fair run a stop reaches every
      descendant and the end of an actor its watchers; a bus gives each
      receiver the events of its time.
    - Timers: in every interleaving of its critical sections the hashed wheel
      fires every timer on the tick that a list of delays says, a turn late or
      early in the races that the code admits.
    - Commands and queries: a command gateway with its cache of identifiers
      refines a function from the log of accepted commands; a reader applies
      every event of its tag once and in order across restarts.
    - Remote system: frames are read back whatever their split, the send queue
      keeps its bound and order, a watched address is reported once; a cluster
      transport writes no frame twice or to another node.
    - Journals on databases: SQL and Cassandra refine one stream per entity
      whatever statements fail, for numbers below 2^63 (the casts of larger
      ones are findings), a commit with an error taken as rolled back; the hash chain verifies after every run and
      binds its rows while the hash does not collide on them; sort keys order
      as their numbers; every journal that meets the specification passes the
      whole conformance kit; the texts of Azure tables are read back.
    - Links and tests: a serial line delivers the frames of its peer in order
      and attributed to it; advancing the virtual clock runs what is due, in the
      order of its time, with the calls that the callbacks make, and nothing
      else; a TCP connection writes what was
      sent to its peer, each frame once and in order, and stamps what it reads.
    - Observation: a client that starts from a snapshot and applies the events
      of the bus has the state of every probe; each actor is once in the tree
      while parents are above their children; a refresh leaves exactly what
      the component has; merged views have every member and actor.
    - Snapshot stores: what was saved last under the highest number is what a
      load returns, for each database under its laws.
    - Hubs: every element of a producer arrives once and in order, and a line
      whose handles are gone ends after finitely many turns, having delivered
      all; a consumer of a broadcast misses only what it was too slow for.
    - Double precision: a resized pool stays in its bounds, a pick is one of
      the candidates, the detector keeps a window of intervals and a fresh
      beat is available.

    ** Bounds and fuel

    Every definition is total.  Where the code loops without a structural
    argument the model has fuel and the theorems fix it: [retry_loop] gets the
    attempts the code allows, the drain loops of the cell and the shutdown
    phases get the length of the queue they empty, the printer of decimal
    numbers the bits of the number; [advance_watermark] the size of the map
    plus one, the chunker the length of the message, [establish] the attempts,
    the HOCON parser three times the bytes plus one (and the include depth),
    the framings the bytes of
    the stream plus two, [grouped_within] three times the elements plus three,
    [merge_sorted] the elements plus one, the
    walk over Cassandra partitions the partitions of the stream plus one, an
    advance of the virtual clock the weight of the pending callbacks plus one,
    for a weight that exceeds that of the callbacks each schedules.  Theorems about
    counters that count in
    [u32] or [u64] carry the hypothesis that the true value is in range where
    a wrap would change the answer; the wrap itself is in the definitions.

    ** Not modelled

    Byte transports (TCP, QUIC, the device of a serial line), the Tokio runtime
    and its thread interleavings below the level of one message,
    the HTTP and signing layers of the database clients and of the dashboard,
    and the bindings to Python.  The
    remaining crates with logic of their own are the plan for the next steps:
    the start-up of the remote system, asking with a timeout, the
    exporters of telemetry, the rest of the test kit, and money amounts (a
    decimal library underneath). *)

From stdpp Require Import gmap strings list fin_maps sorting.
From Stdlib Require Import NArith ZArith Lia.

Declare Scope atomr_scope.
Delimit Scope atomr_scope with atomr.

(** ** Machine integers *)

(** [u64] values are [N] below [2^64]; release-profile arithmetic wraps. *)
Definition u64_modulus : N := (2 ^ 64)%N.
Definition u64_max : N := (2 ^ 64 - 1)%N.
Definition wrap64 (n : N) : N := (n mod u64_modulus)%N.
Definition u64_add (a b : N) : N := wrap64 (a + b).
Definition u64_sat_mul (a b : N) : N := N.min (a * b) u64_max.

Definition u32_modulus : N := (2 ^ 32)%N.
Definition wrap32 (n : N) : N := (n mod u32_modulus)%N.
Definition u32_add (a b : N) : N := wrap32 (a + b).

(** A [Vec<u8>]. *)
Abbreviation Bytes := (list Byte.byte).
#[export] Instance byte_eq_decision : EqDecision Byte.byte := Byte.byte_eq_dec.

(** [i128] values are [Z]; the code that uses them saturates. *)
Definition i128_max : Z := (2 ^ 127 - 1)%Z.
Definition i128_min : Z := (- 2 ^ 127)%Z.
Definition i128_clamp (z : Z) : Z := Z.max i128_min (Z.min i128_max z).
Definition i128_sat_add (a b : Z) : Z := i128_clamp (a + b).
Definition i128_sat_sub (a b : Z) : Z := i128_clamp (a - b).

(** [as i64] of a [u64]: reinterpret the low 64 bits as two's complement. *)
Definition u64_as_i64 (n : N) : Z :=
  let z := Z.of_N (wrap64 n) in
  if (z <? 2 ^ 63)%Z then z else (z - 2 ^ 64)%Z.

(** Wrapping subtraction of [i64]. *)
Definition i64_wrap (z : Z) : Z :=
  let m := (z mod 2 ^ 64)%Z in
  if (m <? 2 ^ 63)%Z then m else (m - 2 ^ 64)%Z.
Definition i64_sub (a b : Z) : Z := i64_wrap (a - b).

(** ** Maps updated entry by entry

    [for (k, w) in other { self.entry(k) = f(self.get(k), w) }], the loop every
    map-shaped merge of the code is written as. *)
Definition merge_entries {K V W} `{Countable K}
    (f : option V → W → V) (self : gmap K V) (other : gmap K W) : gmap K V :=
  map_fold (λ k w acc, <[k := f (acc !! k) w]> acc) self other.

(** [entry(k).or_default()] followed by an in-place update. *)
Definition entry_update {K V} `{Countable K}
    (d : V) (f : V → V) (k : K) (m : gmap K V) : gmap K V :=
  <[k := f (default d (m !! k))]> m.

(** The sum of the values of a map, in an unbounded integer. *)
Definition map_sum {K} `{Countable K} (m : gmap K N) : N :=
  map_fold (λ _ v acc, (v + acc)%N) 0%N m.

(** ** Tactics and hint database *)

Create HintDb atomr.
Create Rewrite HintDb atomr.

(** Case on every [decide], [match] and [if] in sight, keeping equations. *)
Ltac split_matches :=
  repeat first
    [ case_decide
    | match goal with
      | |- context [match ?x with _ => _ end] => destruct x eqn:?
      | H : context [match ?x with _ => _ end] |- _ => destruct x eqn:?
      end ]; simplify_eq/=.

Ltac bool_to_prop :=
  repeat match goal with
  | H : andb _ _ = true |- _ => apply andb_prop in H as [? ?]
  | H : negb _ = true |- _ => apply negb_true_iff in H
  | H : (_ <? _)%N = true |- _ => apply N.ltb_lt in H
  | H : (_ <? _)%N = false |- _ => apply N.ltb_ge in H
  | H : (_ <=? _)%N = true |- _ => apply N.leb_le in H
  | H : (_ <=? _)%N = false |- _ => apply N.leb_gt in H
  | H : (_ =? _)%N = true |- _ => apply N.eqb_eq in H
  | H : (_ =? _)%N = false |- _ => apply N.eqb_neq in H
  | H : (_ <? _) = true |- _ => apply Nat.ltb_lt in H
  | H : (_ <? _) = false |- _ => apply Nat.ltb_ge in H
  | H : (_ <=? _) = true |- _ => apply Nat.leb_le in H
  | H : (_ <=? _) = false |- _ => apply Nat.leb_gt in H
  | H : bool_decide _ = true |- _ => apply bool_decide_eq_true in H
  | H : bool_decide _ = false |- _ => apply bool_decide_eq_false in H
  end.

(** ** Lemmas on machine integers *)

Lemma wrap64_small n : (n < u64_modulus)%N → wrap64 n = n.
Proof. apply N.mod_small. Qed.

Lemma wrap64_bound n : (wrap64 n < u64_modulus)%N.
Proof. by apply N.mod_lt. Qed.

Lemma u64_add_small a b : (a + b < u64_modulus)%N → u64_add a b = (a + b)%N.
Proof. apply wrap64_small. Qed.

Lemma u64_add_bound a b : (u64_add a b < u64_modulus)%N.
Proof. apply wrap64_bound. Qed.

Lemma wrap64_add_l a b : wrap64 (wrap64 a + b) = wrap64 (a + b).
Proof. unfold wrap64. by rewrite N.Div0.add_mod_idemp_l. Qed.

Lemma u32_add_small a b : (a + b < u32_modulus)%N → u32_add a b = (a + b)%N.
Proof. apply N.mod_small. Qed.

Lemma u64_as_i64_small n : (n < 2 ^ 63)%N → u64_as_i64 n = Z.of_N n.
Proof.
  intros Hn. unfold u64_as_i64. rewrite wrap64_small by (unfold u64_modulus; lia).
  destruct (Z.ltb_spec (Z.of_N n) (2 ^ 63)); lia.
Qed.

Lemma i64_sub_small a b :
  (- 2 ^ 63 ≤ a - b < 2 ^ 63)%Z → i64_sub a b = (a - b)%Z.
Proof.
  intros Hab. unfold i64_sub, i64_wrap. destruct (Z.ltb_spec (a - b) 0).
  - replace ((a - b) mod 2 ^ 64)%Z with (a - b + 2 ^ 64)%Z.
    + destruct (Z.ltb_spec (a - b + 2 ^ 64) (2 ^ 63)); lia.
    + rewrite <- (Z.mod_add (a - b) 1), Z.mod_small; lia.
  - rewrite Z.mod_small by lia. destruct (Z.ltb_spec (a - b) (2 ^ 63)); lia.
Qed.

Lemma i128_clamp_range z : (i128_min ≤ i128_clamp z ≤ i128_max)%Z.
Proof. unfold i128_clamp, i128_min, i128_max. lia. Qed.

Lemma i128_clamp_id z : (i128_min ≤ z ≤ i128_max)%Z → i128_clamp z = z.
Proof. unfold i128_clamp. lia. Qed.

#[export] Hint Resolve wrap64_bound u64_add_bound : atomr.
#[export] Hint Rewrite wrap64_add_l : atomr.

(** ** Lemmas on entry-wise map loops *)

Section merge_entries.
Context {K V W : Type} `{Countable K} (f : option V → W → V).
Implicit Types (self : gmap K V) (other : gmap K W).

(** The loop's result does not depend on the iteration order: at each key it
    applies [f] once, to the value before the loop. *)
Lemma lookup_merge_entries self other k :
  merge_entries f self other !! k =
  match other !! k with
  | None => self !! k
  | Some w => Some (f (self !! k) w)
  end.
Proof.
  unfold merge_entries.
  apply (map_fold_weak_ind
    (λ acc m, acc !! k = match m !! k with
                         | None => self !! k | Some w => Some (f (self !! k) w) end)).
  - by rewrite lookup_empty.
  - intros i w m acc Hi IH. destruct (decide (i = k)) as [->|Hne].
    + rewrite !lookup_insert_eq. rewrite Hi in IH. by rewrite IH.
    + by rewrite !lookup_insert_ne.
Qed.

Lemma merge_entries_empty_r self : merge_entries f self ∅ = self.
Proof.
  apply map_eq. intros k. by rewrite lookup_merge_entries, lookup_empty.
Qed.

Lemma dom_merge_entries self other :
  dom (merge_entries f self other) = dom self ∪ dom other.
Proof.
  apply set_eq. intros k. rewrite elem_of_union, !elem_of_dom, lookup_merge_entries.
  destruct (other !! k); split; intros ?; eauto; naive_solver.
Qed.

Lemma merge_entries_Forall (P : V → Prop) self other :
  (∀ o w, (∀ v, o = Some v → P v) → (∃ k, other !! k = Some w) → P (f o w)) →
  map_Forall (λ _, P) self → map_Forall (λ _, P) (merge_entries f self other).
Proof.
  intros Hf Hself k v. rewrite lookup_merge_entries.
  destruct (other !! k) eqn:E; intros; simplify_eq; eauto.
Qed.
End merge_entries.

#[export] Hint Rewrite @lookup_merge_entries : atomr.

Lemma lookup_entry_update {K V} `{Countable K} (d : V) f (k j : K) m :
  entry_update d f k m !! j =
  if decide (k = j) then Some (f (default d (m !! k))) else m !! j.
Proof. unfold entry_update. apply lookup_insert. Qed.

(** Pointwise join of two maps: commutative, associative and idempotent as soon as
    the entry function is a join with a unit for missing entries. *)
Section merge_entries_join.
Context {K V : Type} `{Countable K} (j : V → V → V) (unit : V).
Context (j_comm : ∀ a b, j a b = j b a) (j_assoc : ∀ a b c, j a (j b c) = j (j a b) c)
        (j_idem : ∀ a, j a a = a) (j_unit : ∀ a, j unit a = a).

Definition join_entry (o : option V) (w : V) : V := j (default unit o) w.
Abbreviation jm := (merge_entries (K:=K) join_entry).

Lemma merge_entries_comm m1 m2 : jm m1 m2 = jm m2 m1.
Proof.
  apply map_eq. intros k. rewrite !lookup_merge_entries. unfold join_entry.
  destruct (m1 !! k), (m2 !! k); simpl; f_equal; rewrite ?j_unit; auto.
Qed.

Lemma merge_entries_assoc m1 m2 m3 : jm m1 (jm m2 m3) = jm (jm m1 m2) m3.
Proof.
  apply map_eq. intros k. rewrite !lookup_merge_entries. unfold join_entry.
  destruct (m1 !! k), (m2 !! k), (m3 !! k); simpl; f_equal; rewrite ?j_unit; auto.
Qed.

Lemma merge_entries_idem m : jm m m = m.
Proof.
  apply map_eq. intros k. rewrite lookup_merge_entries. unfold join_entry.
  destruct (m !! k) eqn:E; simpl; rewrite ?j_idem; auto.
Qed.
End merge_entries_join.

(** ** Lemmas on sums of map values *)

Section map_sum.
Context {K : Type} `{Countable K}.
Implicit Types m : gmap K N.

Lemma map_sum_empty : map_sum (∅ : gmap K N) = 0%N.
Proof. apply map_fold_empty. Qed.

Lemma map_sum_insert m k v :
  m !! k = None → map_sum (<[k := v]> m) = (v + map_sum m)%N.
Proof.
  intros Hk. unfold map_sum. rewrite map_fold_insert_L; auto.
  intros. lia.
Qed.

Lemma map_sum_delete m k :
  map_sum m = (default 0 (m !! k) + map_sum (delete k m))%N.
Proof.
  destruct (m !! k) as [v|] eqn:E; simpl.
  - rewrite <- (insert_delete_id m k v E) at 1.
    rewrite map_sum_insert; [done|]. by rewrite lookup_delete_eq.
  - by rewrite delete_id.
Qed.

Lemma map_sum_entry_add m k d :
  map_sum (entry_update 0%N (λ v, (v + d)%N) k m) = (map_sum m + d)%N.
Proof.
  unfold entry_update.
  rewrite (map_sum_delete _ k), (map_sum_delete m k), lookup_insert_eq, delete_insert_eq.
  simpl. lia.
Qed.

Lemma map_sum_mono m1 m2 :
  (∀ k, (default 0 (m1 !! k) ≤ default 0 (m2 !! k))%N) → (map_sum m1 ≤ map_sum m2)%N.
Proof.
  revert m2. induction m1 as [|k v m Hk IH] using map_ind; intros m2 Hle.
  - rewrite map_sum_empty. lia.
  - rewrite map_sum_insert by done. rewrite (map_sum_delete m2 k).
    specialize (IH (delete k m2)).
    assert (v ≤ default 0 (m2 !! k))%N as Hv.
    { specialize (Hle k). by rewrite lookup_insert_eq in Hle. }
    assert (map_sum m ≤ map_sum (delete k m2))%N; [|lia].
    apply IH. intros i. destruct (decide (k = i)) as [->|Hne].
    + rewrite Hk. simpl. lia.
    + specialize (Hle i). by rewrite lookup_insert_ne, lookup_delete_ne in *.
Qed.
End map_sum.

(** ** Lemmas on the order of strings *)

(** [String.ltb] (Rust's [<] on strings) is the strict part of [String.le]. *)
Lemma string_ltb_spec s1 s2 : String.ltb s1 s2 = bool_decide (¬ String.le s2 s1).
Proof.
  unfold String.ltb, String.le, String.leb. rewrite (String.compare_antisym s2 s1).
  destruct (String.compare s1 s2); case_bool_decide; naive_solver.
Qed.

(** [String.leb] is [String.le]. *)
Lemma string_leb_spec s1 s2 : String.leb s1 s2 = bool_decide (String.le s1 s2).
Proof.
  unfold String.le. case_bool_decide; destruct (String.leb s1 s2); naive_solver.
Qed.

Lemma length_string_app (a b : string) : String.length (a +:+ b) = String.length a + String.length b.
Proof. induction a as [|c a IH]; simpl; [done|]. by rewrite IH. Qed.

(** ** Stable sorting by a string key ([slice::sort_by_key]) *)

Section sort_by_key.
Context {A : Type} (key : A → string).

(** [x] goes in front of the elements with an equal key, which follow it in the input. *)
Fixpoint insert_by_key (x : A) (l : list A) : list A :=
  match l with
  | [] => [x]
  | y :: l' => if String.leb (key x) (key y) then x :: l else y :: insert_by_key x l'
  end.

Definition sort_by_key (l : list A) : list A := foldr insert_by_key [] l.

Lemma insert_by_key_perm x l : insert_by_key x l ≡ₚ x :: l.
Proof.
  induction l as [|y l IH]; simpl; [done|]. destruct (String.leb _ _); [done|].
  rewrite IH. apply Permutation_swap.
Qed.

Lemma sort_by_key_perm l : sort_by_key l ≡ₚ l.
Proof. induction l as [|x l IH]; simpl; [done|]. by rewrite insert_by_key_perm, IH. Qed.

(** The head of a sorted list has a key below every other key. *)
Lemma sort_by_key_head l x y :
  head (sort_by_key l) = Some x → y ∈ l → String.le (key x) (key y).
Proof.
  revert x. induction l as [|z l IH]; intros x; simpl; [done|].
  destruct (sort_by_key l) as [|w l'] eqn:E; simpl.
  - intros [= <-]. apply (f_equal length) in E. rewrite sort_by_key_perm in E.
    destruct l; [|done]. intros ->%list_elem_of_singleton. done.
  - rewrite string_leb_spec. case_bool_decide as Hle; simpl; intros [= <-] Hy;
      apply elem_of_cons in Hy as [->|Hy].
    + done.
    + transitivity (key w); [done|]. by apply IH.
    + by destruct (total String.le (key z) (key w)).
    + by apply IH.
Qed.

Lemma sort_by_key_head_is_Some l : l ≠ [] → is_Some (head (sort_by_key l)).
Proof.
  intros Hl. destruct (sort_by_key l) eqn:E; [|by eauto].
  apply (f_equal length) in E. rewrite sort_by_key_perm in E. by destruct l.
Qed.

Lemma sort_by_key_head_elem l x : head (sort_by_key l) = Some x → x ∈ l.
Proof.
  intros Hx. rewrite <- (sort_by_key_perm l). destruct (sort_by_key l); simplify_eq/=.
  by left.
Qed.
End sort_by_key.

Lemma filter_all {A} (P : A → Prop) `{!∀ x, Decision (P x)} (l : list A) :
  Forall P l → filter P l = l.
Proof. induction 1 as [|x l Hx Hl IH]; [done|]. by rewrite filter_cons_True, IH. Qed.

Lemma filter_none {A} (P : A → Prop) `{!∀ x, Decision (P x)} (l : list A) :
  (∀ x, x ∈ l → ¬ P x) → filter P l = [].
Proof.
  induction l as [|x l IH]; intros HP; [done|]. rewrite filter_cons_False by (apply HP; left).
  apply IH. intros y Hy. apply HP. by right.
Qed.

Lemma filter_length_all {A} (P : A → Prop) `{!∀ x, Decision (P x)} (l : list A) :
  length (filter P l) = length l → Forall P l.
Proof.
  induction l as [|x l IH]; [by constructor|]. rewrite filter_cons.
  pose proof (length_filter P l). case_decide; cbn; intros Hlen; [|lia].
  constructor; [done|]. apply IH. lia.
Qed.

(** Inserting the entries of a map one by one, in any order. *)
Lemma foldl_insert_perm {K V} `{Countable K} (l : list (K * V)) (m : gmap K V) :
  l ≡ₚ map_to_list m → foldl (λ m kv, <[kv.1 := kv.2]> m) ∅ l = m.
Proof.
  intros Hl. assert (Hnd : NoDup l.*1) by (rewrite Hl; apply NoDup_fst_map_to_list).
  rewrite <- (list_to_map_to_list m), <- (list_to_map_proper l _ Hnd Hl). clear Hl m.
  transitivity (list_to_map l ∪ ∅ : gmap K V); [|apply (right_id_L ∅ (∪))].
  generalize (∅ : gmap K V). induction l as [|[k v] l IH]; intros m; [cbn; by rewrite (left_id_L ∅ (∪))|].
  cbn [fmap list_fmap fst] in Hnd. apply NoDup_cons in Hnd as [Hk Hnd].
  cbn [foldl fst snd list_to_map foldr uncurry]. rewrite IH by done.
  rewrite <- insert_union_l. symmetry. apply insert_union_r. by apply not_elem_of_list_to_map.
Qed.

Lemma sorted_filter {A} (R : relation A) (P : A → Prop) `{!∀ x, Decision (P x)} l :
  StronglySorted R l → StronglySorted R (filter P l).
Proof.
  induction 1 as [|a l Hl IH Ha]; [constructor|]. rewrite filter_cons. case_decide; [|done].
  constructor; [done|]. apply Forall_forall. intros x [_ Hx]%list_elem_of_filter.
  by eapply Forall_forall in Ha.
Qed.

(** ** Runs *)

(** A property that every step keeps holds along a run. *)
Lemma rtc_preserve {A} (P : A → Prop) {R : relation A} {x y : A} :
  (∀ x y, P x → R x y → P y) → rtc R x y → P x → P y.
Proof. intros HP. induction 1 as [|x y z Hs _ IH]; [done|]. intros Hx. apply IH. by eapply HP. Qed.
