(* ===== verification/Encoding.v ===== *)
(** * Bytes on the wire

    The functions of the Rust standard library that the codecs of several crates share:
    little-endian integers ([to_le_bytes], [from_le_bytes]), the UTF-8 check of
    [std::str::from_utf8], and the bytes of a string. *)

From stdpp Require Import gmap strings list.
From Stdlib Require Import NArith Lia Ascii.
From S2P Require Import Prelude.

(** ** Little-endian integers *)

(** The low eight bits of [n]. *)
Definition byte_of (n : N) : Byte.byte :=
  match Byte.of_N (n mod 256) with Some b => b | None => Byte.x00 end.

Fixpoint to_le_bytes (width : nat) (n : N) : Bytes :=
  match width with
  | O => []
  | S w => byte_of n :: to_le_bytes w (n / 256)
  end.

Fixpoint from_le_bytes (bs : Bytes) : N :=
  match bs with
  | [] => 0
  | b :: bs' => Byte.to_N b + 256 * from_le_bytes bs'
  end.

(** ** Text *)

(** [std::str::from_utf8]. *)
Definition byte_in (lo hi : N) (c : ascii) : bool :=
  ((lo <=? N_of_ascii c) && (N_of_ascii c <=? hi))%N.

Definition cont_byte : ascii → bool := byte_in 128 191.

(** The range of the second byte of a sequence of three or four. *)
Definition second_ok (c d : ascii) : bool :=
  let n := N_of_ascii c in
  if (n =? 224)%N then byte_in 160 191 d
  else if (n =? 237)%N then byte_in 128 159 d
  else if (n =? 240)%N then byte_in 144 191 d
  else if (n =? 244)%N then byte_in 128 143 d
  else cont_byte d.

Fixpoint valid_utf8 (s : string) : bool :=
  match s with
  | EmptyString => true
  | String c s1 =>
      if byte_in 0 127 c then valid_utf8 s1
      else match s1 with
           | EmptyString => false
           | String d s2 =>
               if byte_in 194 223 c then cont_byte d && valid_utf8 s2
               else match s2 with
                    | EmptyString => false
                    | String e s3 =>
                        if byte_in 224 239 c then second_ok c d && cont_byte e && valid_utf8 s3
                        else match s3 with
                             | EmptyString => false
                             | String f s4 =>
                                 byte_in 240 244 c && second_ok c d && cont_byte e && cont_byte f &&
                                 valid_utf8 s4
                             end
                    end
           end
  end.

(** [str::trim]: the white space of Unicode, on the bytes of a valid string. *)
Definition ascii_ws (c : ascii) : bool := byte_in 9 13 c || byte_in 32 32 c.
Definition ws2 (c d : ascii) : bool := byte_in 194 194 c && (byte_in 133 133 d || byte_in 160 160 d).
Definition ws3 (c d e : ascii) : bool :=
  (byte_in 225 225 c && byte_in 154 154 d && byte_in 128 128 e) ||
  (byte_in 226 226 c && byte_in 128 128 d &&
     (byte_in 128 138 e || byte_in 168 169 e || byte_in 175 175 e)) ||
  (byte_in 226 226 c && byte_in 129 129 d && byte_in 159 159 e) ||
  (byte_in 227 227 c && byte_in 128 128 d && byte_in 128 128 e).

(** Drops white space at the front of a list of bytes; [w2] and [w3] recognize a character of
    two or three bytes, given in the order of the list. *)
Fixpoint drop_ws (w2 : ascii → ascii → bool) (w3 : ascii → ascii → ascii → bool) (l : list ascii)
    : list ascii :=
  match l with
  | [] => []
  | c :: l1 =>
      if ascii_ws c then drop_ws w2 w3 l1
      else match l1 with
           | [] => l
           | d :: l2 =>
               if w2 c d then drop_ws w2 w3 l2
               else match l2 with
                    | [] => l
                    | e :: l3 => if w3 c d e then drop_ws w2 w3 l3 else l
                    end
           end
  end.
Definition trim (s : string) : string :=
  let l := drop_ws ws2 ws3 (String.list_ascii_of_string s) in
  String.string_of_list_ascii
    (reverse (drop_ws (λ d c, ws2 c d) (λ e d c, ws3 c d e) (reverse l))).

(** [String::push(c as char)] for a byte [c]: the character with that code, in UTF-8. *)
Definition push_byte_as_char (c : ascii) : string :=
  let n := N_of_ascii c in
  if (n <? 128)%N then String c EmptyString
  else String (ascii_of_N (192 + n / 64)) (String (ascii_of_N (128 + n mod 64)) EmptyString).

(** Only decimal digits. *)
Fixpoint all_digits (s : string) : bool :=
  match s with
  | EmptyString => true
  | String c s' => byte_in 48 57 c && all_digits s'
  end.

(** ** Lemmas *)

Lemma byte_of_to_N n : Byte.to_N (byte_of n) = (n mod 256)%N.
Proof.
  unfold byte_of. destruct (Byte.of_N (n mod 256)) as [b|] eqn:E.
  - by apply Byte.to_of_N.
  - apply Byte.of_N_None_iff in E. pose proof (N.mod_lt n 256 ltac:(done)). lia.
Qed.

Lemma byte_of_add_N b n : byte_of (Byte.to_N b + 256 * n) = b.
Proof.
  unfold byte_of. rewrite N.mul_comm, N.Div0.mod_add. rewrite N.mod_small.
  - by rewrite Byte.of_to_N.
  - pose proof (Byte.to_N_bounded b). lia.
Qed.

Lemma to_le_bytes_length w n : length (to_le_bytes w n) = w.
Proof. revert n; induction w; intros; cbn; auto. Qed.

Lemma from_to_le_bytes w n : (n < 256 ^ N.of_nat w)%N → from_le_bytes (to_le_bytes w n) = n.
Proof.
  revert n; induction w as [|w IH]; intros n Hn; cbn [to_le_bytes from_le_bytes].
  { cbn in Hn. lia. }
  rewrite byte_of_to_N, IH.
  - rewrite (N.div_mod' n 256) at 3. lia.
  - apply N.Div0.div_lt_upper_bound. rewrite Nat2N.inj_succ, N.pow_succ_r' in Hn. lia.
Qed.

Lemma to_from_le_bytes w bs : length bs = w → to_le_bytes w (from_le_bytes bs) = bs.
Proof.
  intros <-. induction bs as [|b bs IH]; [done|]. cbn [length to_le_bytes from_le_bytes].
  rewrite byte_of_add_N. f_equal.
  replace ((Byte.to_N b + 256 * from_le_bytes bs) / 256)%N with (from_le_bytes bs); [done|].
  rewrite N.mul_comm, N.div_add by done. rewrite N.div_small; [done|].
  pose proof (Byte.to_N_bounded b). lia.
Qed.

Lemma from_le_bytes_bound bs : (from_le_bytes bs < 256 ^ N.of_nat (length bs))%N.
Proof.
  induction bs as [|b bs IH]; cbn [length from_le_bytes]; [done|].
  rewrite Nat2N.inj_succ, N.pow_succ_r'. pose proof (Byte.to_N_bounded b). lia.
Qed.

Lemma pow_256_8 : (256 ^ N.of_nat 8 = u64_modulus)%N.
Proof. reflexivity. Qed.
Lemma pow_256_4 : (256 ^ N.of_nat 4 = u32_modulus)%N.
Proof. reflexivity. Qed.

Fixpoint ascii_only (s : string) : bool :=
  match s with
  | EmptyString => true
  | String c s' => byte_in 0 127 c && ascii_only s'
  end.

Lemma valid_utf8_ascii a s : ascii_only a = true → valid_utf8 (a +:+ s) = valid_utf8 s.
Proof.
  induction a as [|c a IH]; [done|]. intros [Hc Ha]%andb_true_iff.
  change (valid_utf8 (String c (a +:+ s)) = valid_utf8 s). cbn [valid_utf8]. rewrite Hc. by apply IH.
Qed.
