(* ===== verification/VectorClock.v ===== *)
(** * Vector clocks ([crates/atomr-cluster/src/vector_clock.rs])

    [versions : BTreeMap<String, u64>] is a [gmap string N]; [tick] wraps at [2^64].
    The file proves that [compare] decides the pointwise order, that [merge] is the
    least upper bound and that [tick] moves a clock strictly forward. *)

From stdpp Require Import gmap strings.
From Stdlib Require Import NArith Lia.
From S2P Require Import Prelude.

Record VectorClock := mkVectorClock { versions : gmap string N }.

Inductive VectorRelation := Before | After | Same | Concurrent.

#[export] Instance VectorRelation_eq_dec : EqDecision VectorRelation.
Proof. solve_decision. Defined.

Definition VectorClock_new : VectorClock := mkVectorClock ∅.

(** [self.versions.get(k).copied().unwrap_or(0)] *)
Definition version_of (c : VectorClock) (k : string) : N := default 0%N (versions c !! k).

Definition VectorClock_tick (node : string) (c : VectorClock) : VectorClock :=
  mkVectorClock (entry_update 0%N (λ v, u64_add v 1) node (versions c)).

Definition VectorClock_merge (self other : VectorClock) : VectorClock :=
  mkVectorClock (merge_entries
    (λ o v, let entry := default 0%N o in if (entry <? v)%N then v else entry)
    (versions self) (versions other)).

(** One iteration of the loop of [compare] over the keys of both clocks. *)
Definition compare_step (self other : VectorClock) (acc : bool * bool) (k : string)
    : bool * bool :=
  match (version_of self k ?= version_of other k)%N with
  | Lt => (acc.1, false)
  | Gt => (false, acc.2)
  | Eq => acc
  end.

Definition VectorClock_compare (self other : VectorClock) : VectorRelation :=
  let keys := elements (dom (versions self) ∪ dom (versions other)) in
  match foldl (compare_step self other) (true, true) keys with
  | (true, true) => Same
  | (true, false) => Before
  | (false, true) => After
  | (false, false) => Concurrent
  end.

(** ** Specification: the pointwise order *)

Definition clock_le (a b : VectorClock) : Prop := ∀ k, (version_of a k ≤ version_of b k)%N.
Definition clock_equiv (a b : VectorClock) : Prop := ∀ k, version_of a k = version_of b k.

#[export] Instance clock_le_preorder : PreOrder clock_le.
Proof.
  split; [intros a k; lia|]. intros a b c H1 H2 k. specialize (H1 k). specialize (H2 k). lia.
Qed.

#[export] Instance clock_equiv_equivalence : Equivalence clock_equiv.
Proof.
  split; [by intros a k|intros a b H k; by rewrite H|].
  intros a b c H1 H2 k. by rewrite H1.
Qed.

#[export] Instance clock_le_antisymm : AntiSymm clock_equiv clock_le.
Proof. intros a b H1 H2 k. specialize (H1 k). specialize (H2 k). lia. Qed.

(** ** Lemmas *)

Lemma version_of_merge a b k :
  version_of (VectorClock_merge a b) k = N.max (version_of a k) (version_of b k).
Proof.
  unfold version_of, VectorClock_merge. simpl. rewrite lookup_merge_entries.
  destruct (versions b !! k) as [v|]; simpl; [|lia].
  destruct (N.ltb_spec (default 0%N (versions a !! k)) v); lia.
Qed.

Lemma version_of_tick node c k :
  version_of (VectorClock_tick node c) k =
  if decide (node = k) then u64_add (version_of c k) 1 else version_of c k.
Proof.
  unfold version_of, VectorClock_tick. simpl. rewrite lookup_entry_update.
  by case_decide; subst.
Qed.

#[export] Hint Rewrite version_of_merge version_of_tick : atomr.

#[export] Instance VectorClock_merge_proper :
  Proper (clock_equiv ==> clock_equiv ==> clock_equiv) VectorClock_merge.
Proof. intros a a' Ha b b' Hb k. rewrite !version_of_merge. by rewrite Ha, Hb. Qed.

Lemma version_of_not_dom c k : k ∉ dom (versions c) → version_of c k = 0%N.
Proof. intros H. unfold version_of. by rewrite (not_elem_of_dom_1 _ _ H). Qed.

(** The two accumulators of the loop decide the two directions of the order on the
    keys visited. *)
Lemma compare_fold a b ks al bl :
  foldl (compare_step a b) (al, bl) ks =
  (al && bool_decide (Forall (λ k, version_of a k ≤ version_of b k)%N ks),
   bl && bool_decide (Forall (λ k, version_of b k ≤ version_of a k)%N ks)).
Proof.
  revert al bl. induction ks as [|k ks IH]; intros al bl; cbn [foldl].
  - by rewrite !bool_decide_eq_true_2, !andb_true_r by constructor.
  - unfold compare_step at 2. cbn [fst snd]. destruct (N.compare_spec (version_of a k) (version_of b k));
      rewrite IH; f_equal; rewrite ?andb_false_l;
      match goal with
      | |- (?x && bool_decide ?P) = (?x && bool_decide ?Q) =>
          f_equal; apply bool_decide_ext; rewrite Forall_cons; split; [|tauto];
          intros; split; auto; lia
      | |- false = _ =>
          symmetry; apply andb_false_iff; right; apply bool_decide_eq_false_2;
          rewrite Forall_cons; lia
      end.
Qed.

Lemma clock_le_keys a b :
  clock_le a b ↔
  Forall (λ k, version_of a k ≤ version_of b k)%N
    (elements (dom (versions a) ∪ dom (versions b))).
Proof.
  rewrite Forall_forall. split; [intros H k _; apply H|].
  intros H k. destruct (decide (k ∈ dom (versions a) ∪ dom (versions b))) as [Hk|Hk].
  - apply H. by apply elem_of_elements.
  - rewrite (version_of_not_dom a k) by set_solver. lia.
Qed.

#[export] Instance clock_le_dec a b : Decision (clock_le a b).
Proof.
  refine (cast_if (decide (Forall (λ k, version_of a k ≤ version_of b k)%N
    (elements (dom (versions a) ∪ dom (versions b)))))); by rewrite clock_le_keys.
Defined.

Lemma compare_spec a b :
  VectorClock_compare a b =
  match bool_decide (clock_le a b), bool_decide (clock_le b a) with
  | true, true => Same
  | true, false => Before
  | false, true => After
  | false, false => Concurrent
  end.
Proof.
  unfold VectorClock_compare. rewrite compare_fold. rewrite !andb_true_l.
  rewrite (bool_decide_ext _ _ (clock_le_keys a b)).
  rewrite (bool_decide_ext _ _ (clock_le_keys b a)).
  by rewrite (union_comm_L (dom (versions b))).
Qed.

Lemma merge_le_l a b : clock_le a (VectorClock_merge a b).
Proof. intros k. rewrite version_of_merge. lia. Qed.

Lemma merge_le_r a b : clock_le b (VectorClock_merge a b).
Proof. intros k. rewrite version_of_merge. lia. Qed.

Lemma merge_lub a b c : clock_le a c → clock_le b c → clock_le (VectorClock_merge a b) c.
Proof.
  intros H1 H2 k. rewrite version_of_merge. specialize (H1 k). specialize (H2 k). lia.
Qed.

Lemma tick_le node c :
  (version_of c node < u64_max)%N → clock_le c (VectorClock_tick node c).
Proof.
  intros Hb k. rewrite version_of_tick. case_decide as Hk; subst; [|lia].
  unfold u64_max in Hb. rewrite u64_add_small; unfold u64_modulus; lia.
Qed.

Lemma tick_not_le node c :
  (version_of c node < u64_max)%N → ¬ clock_le (VectorClock_tick node c) c.
Proof.
  intros Hb Hle. specialize (Hle node). rewrite version_of_tick, decide_True in Hle by done.
  unfold u64_max in Hb. rewrite u64_add_small in Hle; unfold u64_modulus; lia.
Qed.

#[export] Hint Resolve merge_le_l merge_le_r merge_lub tick_le tick_not_le : atomr.

(** ** Properties *)

(** [compare] decides the pointwise (happened-before) order of two clocks: it
    answers [Same] exactly for clocks with equal versions at every node, [Before]
    and [After] exactly for strictly ordered clocks, and [Concurrent] exactly for
    incomparable ones. *)
Theorem compare_decides_order a b :
  (VectorClock_compare a b = Same ↔ clock_equiv a b) ∧
  (VectorClock_compare a b = Before ↔ clock_le a b ∧ ¬ clock_le b a) ∧
  (VectorClock_compare a b = After ↔ clock_le b a ∧ ¬ clock_le a b) ∧
  (VectorClock_compare a b = Concurrent ↔ ¬ clock_le a b ∧ ¬ clock_le b a).
Proof.
  assert (clock_equiv a b ↔ clock_le a b ∧ clock_le b a) as Heq.
  { split.
    - intros H. split; intros k; rewrite (H k); lia.
    - intros [? ?]. by apply (anti_symm clock_le). }
  rewrite Heq, compare_spec.
  destruct (bool_decide_reflect (clock_le a b)), (bool_decide_reflect (clock_le b a));
    repeat split; intros; tauto || discriminate.
Qed.

(** [merge] computes the least upper bound of two clocks, so comparing a clock
    with a merge it took part in never answers [After] or [Concurrent], and merging
    is commutative, associative and idempotent up to equal versions. *)
Theorem merge_least_upper_bound a b c :
  (clock_le (VectorClock_merge a b) c ↔ clock_le a c ∧ clock_le b c) ∧
  (VectorClock_compare a (VectorClock_merge a b) = Same ∨
   VectorClock_compare a (VectorClock_merge a b) = Before) ∧
  clock_equiv (VectorClock_merge a b) (VectorClock_merge b a) ∧
  clock_equiv (VectorClock_merge a (VectorClock_merge b c))
              (VectorClock_merge (VectorClock_merge a b) c) ∧
  clock_equiv (VectorClock_merge a a) a.
Proof.
  repeat split.
  - etrans; [apply merge_le_l|done].
  - etrans; [apply merge_le_r|done].
  - intros [? ?]. by apply merge_lub.
  - rewrite compare_spec, bool_decide_eq_true_2 by apply merge_le_l.
    case_match; auto.
  - intros k. rewrite !version_of_merge. lia.
  - intros k. rewrite !version_of_merge. lia.
  - intros k. rewrite !version_of_merge. lia.
Qed.

(** A [tick] that does not overflow moves the clock strictly forward, and two
    replicas that each tick their own node from a common clock become concurrent. *)
Theorem tick_advances c n m :
  n ≠ m → (version_of c n < u64_max)%N → (version_of c m < u64_max)%N →
  VectorClock_compare c (VectorClock_tick n c) = Before ∧
  VectorClock_compare (VectorClock_tick n c) (VectorClock_tick m c) = Concurrent.
Proof.
  intros Hnm Hn Hm. unfold u64_max in *. rewrite !compare_spec. split.
  - rewrite bool_decide_eq_true_2, bool_decide_eq_false_2; auto with atomr.
  - rewrite !bool_decide_eq_false_2; auto.
    + intros H. specialize (H m). rewrite !version_of_tick in H.
      rewrite decide_True, decide_False in H by done.
      rewrite u64_add_small in H; unfold u64_modulus; lia.
    + intros H. specialize (H n). rewrite !version_of_tick in H.
      rewrite decide_True, decide_False in H by done.
      rewrite u64_add_small in H; unfold u64_modulus; lia.
Qed.

Lemma tick_advances_witness :
  VectorClock_compare VectorClock_new (VectorClock_tick "A" VectorClock_new) = Before ∧
  VectorClock_compare (VectorClock_tick "A" VectorClock_new)
                      (VectorClock_tick "B" VectorClock_new) = Concurrent.
Proof. apply (tick_advances VectorClock_new "A" "B"); [done|reflexivity|reflexivity]. Defined.
