(* ===== verification/Crdt.v ===== *)
(** * The CRDT interface ([crates/atomr-distributed-data/src/traits.rs])

    [CrdtMerge] is the trait of the same name; [CrdtLaws] is the contract its
    documentation states (a join-semilattice), relative to a well-formedness
    predicate of the states and to the equality a reader can observe (pending
    deltas, which are never replicated, are ignored by it).  The instances are
    declared beside each data type; the theorem proved here against the interface is
    that replicas converge whatever the order and the multiplicity of the merges. *)

From stdpp Require Import gmap list.
From S2P Require Import Prelude.

(** [trait CrdtMerge { fn merge(&mut self, other: &Self); }] *)
Class CrdtMerge (A : Type) := crdt_merge : A → A → A.

(** [trait DeltaCrdt: CrdtMerge]: [take_delta] also returns the state it leaves. *)
Class DeltaCrdt (A D : Type) `{CrdtMerge A} := {
  take_delta : A → option D * A;
  merge_delta : A → D → A;
}.

Class CrdtLaws (A : Type) `{CrdtMerge A} := {
  crdt_wf : A → Prop;
  crdt_equiv : relation A;
  crdt_equiv_equivalence :: Equivalence crdt_equiv;
  crdt_merge_proper :: Proper (crdt_equiv ==> crdt_equiv ==> crdt_equiv) crdt_merge;
  crdt_merge_wf a b : crdt_wf a → crdt_wf b → crdt_wf (crdt_merge a b);
  crdt_merge_comm a b : crdt_wf a → crdt_wf b →
    crdt_equiv (crdt_merge a b) (crdt_merge b a);
  crdt_merge_assoc a b c : crdt_wf a → crdt_wf b → crdt_wf c →
    crdt_equiv (crdt_merge a (crdt_merge b c)) (crdt_merge (crdt_merge a b) c);
  crdt_merge_idem a : crdt_wf a → crdt_equiv (crdt_merge a a) a;
}.

(** A replica that starts from [x] and merges the states of [l] one after another. *)
Definition merge_all {A} `{CrdtMerge A} (x : A) (l : list A) : A := foldl crdt_merge x l.

Section convergence.
Context {A : Type} `{CrdtLaws A}.
Implicit Types (x y z : A) (l : list A).

(** The order of the semilattice. *)
Definition crdt_le x y : Prop := crdt_equiv (crdt_merge x y) y.

#[local] Instance crdt_le_proper : Proper (crdt_equiv ==> crdt_equiv ==> iff) crdt_le.
Proof. intros x x' Hx y y' Hy. unfold crdt_le. by rewrite Hx, Hy. Qed.

Lemma crdt_le_refl x : crdt_wf x → crdt_le x x.
Proof. apply crdt_merge_idem. Qed.

Lemma crdt_le_antisymm x y : crdt_wf x → crdt_wf y →
  crdt_le x y → crdt_le y x → crdt_equiv x y.
Proof.
  intros Hx Hy Hxy Hyx. unfold crdt_le in *.
  by rewrite <- Hyx, crdt_merge_comm, Hxy.
Qed.

Lemma crdt_le_trans x y z : crdt_wf x → crdt_wf y → crdt_wf z →
  crdt_le x y → crdt_le y z → crdt_le x z.
Proof.
  intros Hx Hy Hz Hxy Hyz. unfold crdt_le in *.
  by rewrite <- Hyz, crdt_merge_assoc, Hxy by done.
Qed.

Lemma crdt_le_merge_l x y : crdt_wf x → crdt_wf y → crdt_le x (crdt_merge x y).
Proof. intros. unfold crdt_le. by rewrite crdt_merge_assoc, crdt_merge_idem by done. Qed.

Lemma crdt_le_merge_r x y : crdt_wf x → crdt_wf y → crdt_le y (crdt_merge x y).
Proof. intros. rewrite crdt_merge_comm by done. by apply crdt_le_merge_l. Qed.

Lemma crdt_le_lub x y z : crdt_wf x → crdt_wf y → crdt_wf z →
  crdt_le x z → crdt_le y z → crdt_le (crdt_merge x y) z.
Proof.
  intros Hx Hy Hz Hxz Hyz. unfold crdt_le in *.
  by rewrite <- crdt_merge_assoc, Hyz, Hxz by done.
Qed.

Lemma merge_all_wf x l : crdt_wf x → Forall crdt_wf l → crdt_wf (merge_all x l).
Proof.
  intros Hx Hl. revert x Hx. induction Hl as [|y l Hy Hl IH]; intros x Hx; simpl; [done|].
  by apply IH, crdt_merge_wf.
Qed.

Lemma merge_all_lub x l z : crdt_wf x → crdt_wf z → Forall crdt_wf l →
  crdt_le x z → Forall (λ y, crdt_le y z) l → crdt_le (merge_all x l) z.
Proof.
  intros Hx Hz Hl. revert x Hx. induction Hl as [|y l Hy Hl IH]; intros x Hx Hxz; simpl; [done|].
  intros [? ?]%Forall_cons. apply IH; auto using crdt_merge_wf, crdt_le_lub.
Qed.

Lemma merge_all_upper_head x l : crdt_wf x → Forall crdt_wf l → crdt_le x (merge_all x l).
Proof.
  intros Hx Hl. revert x Hx. induction Hl as [|y l Hy Hl IH]; intros x Hx; simpl.
  - by apply crdt_le_refl.
  - eapply (crdt_le_trans _ (crdt_merge x y)); auto using crdt_merge_wf, crdt_le_merge_l.
    apply (merge_all_wf (crdt_merge x y) l); auto using crdt_merge_wf.
Qed.

Lemma merge_all_upper x l y : crdt_wf x → Forall crdt_wf l → y ∈ x :: l →
  crdt_le y (merge_all x l).
Proof.
  intros Hx Hl. revert x Hx. induction Hl as [|z l Hz Hl IH]; intros x Hx Hin.
  - apply list_elem_of_singleton in Hin as ->. by apply crdt_le_refl.
  - apply elem_of_cons in Hin as [->|Hin]; [apply merge_all_upper_head; auto|].
    simpl. destruct (proj1 (elem_of_cons _ _ _) Hin) as [->|Hl'].
    + eapply (crdt_le_trans _ (crdt_merge x z)); auto using crdt_merge_wf, crdt_le_merge_r,
        merge_all_upper_head.
      apply (merge_all_wf (crdt_merge x z) l); auto using crdt_merge_wf.
    + apply IH; auto using crdt_merge_wf. by right.
Qed.

(** Strong eventual consistency, proved against the interface: two replicas
    that have merged the same set of well-formed states, in any order and any
    number of times each, hold observably equal states. *)
Theorem crdt_converges (x1 x2 : A) (l1 l2 : list A) :
  Forall crdt_wf (x1 :: l1) → Forall crdt_wf (x2 :: l2) →
  (∀ y, y ∈ x1 :: l1 ↔ y ∈ x2 :: l2) →
  crdt_equiv (merge_all x1 l1) (merge_all x2 l2).
Proof.
  intros [Hx1 Hl1]%Forall_cons [Hx2 Hl2]%Forall_cons Hsame.
  assert (∀ x l x' l', crdt_wf x → Forall crdt_wf l → crdt_wf x' → Forall crdt_wf l' →
    (∀ y, y ∈ x :: l → y ∈ x' :: l') → crdt_le (merge_all x l) (merge_all x' l')) as Hle.
  { intros x l x' l' Hx Hl Hx' Hl' Hsub.
    apply merge_all_lub; auto using merge_all_wf.
    - apply merge_all_upper; auto. apply Hsub. by left.
    - apply Forall_forall. intros y Hy. apply merge_all_upper; auto. apply Hsub. by right. }
  apply crdt_le_antisymm; auto using merge_all_wf; apply Hle; auto; naive_solver.
Qed.
End convergence.

(** ** Maps whose values are CRDTs

    Every map-shaped CRDT of the code merges entry by entry: a missing entry takes the
    other side's value (possibly by merging it into a default), a present one is
    merged.  The laws of the values carry over to the maps. *)
Section map_of_crdts.
Context {K V : Type} `{Countable K} `{CrdtLaws V} (f : option V → V → V).
Implicit Types m : gmap K V.

(** Pointwise observable equality. *)
Definition map_equiv m1 m2 : Prop := ∀ k, option_Forall2 crdt_equiv (m1 !! k) (m2 !! k).
Definition map_wf m : Prop := map_Forall (λ _, crdt_wf) m.

#[export] Instance map_equiv_equivalence : Equivalence map_equiv.
Proof.
  split.
  - intros m k. reflexivity.
  - intros m1 m2 Hm k. symmetry. apply Hm.
  - intros m1 m2 m3 H12 H23 k. etrans; [apply H12|apply H23].
Qed.

(** The equality of a wrapper type that is read through its map. *)
Lemma map_equiv_pullback {A} (g : A → gmap K V) : Equivalence (λ a b, map_equiv (g a) (g b)).
Proof.
  split; repeat intro; [reflexivity|symmetry|etrans]; eauto.
Qed.

Context (f_proper : ∀ o o' w w', option_Forall2 crdt_equiv o o' → crdt_equiv w w' →
  crdt_equiv (f o w) (f o' w')).
Context (f_some : ∀ v w, crdt_equiv (f (Some v) w) (crdt_merge v w)).
Context (f_none : ∀ w, crdt_wf w → crdt_equiv (f None w) w).
Context (f_wf : ∀ o w, (∀ v, o = Some v → crdt_wf v) → crdt_wf w → crdt_wf (f o w)).
#[local] Abbreviation mm := (merge_entries (K:=K) f).

(** What the loop leaves at one key, up to observable equality. *)
Lemma lookup_map_merge m1 m2 k :
  map_wf m2 →
  option_Forall2 crdt_equiv (mm m1 m2 !! k)
    (match m1 !! k, m2 !! k with
     | Some v, Some w => Some (crdt_merge v w)
     | Some v, None => Some v
     | None, o => o
     end).
Proof.
  intros W2. rewrite lookup_merge_entries. specialize (W2 k).
  destruct (m1 !! k), (m2 !! k); try constructor; auto; reflexivity.
Qed.

Lemma map_merge_wf m1 m2 : map_wf m1 → map_wf m2 → map_wf (mm m1 m2).
Proof.
  intros H1' H2'. apply merge_entries_Forall; [|done].
  intros o w Ho [k Hk]. apply f_wf; eauto.
Qed.

Lemma map_merge_proper m1 m1' m2 m2' :
  map_equiv m1 m1' → map_equiv m2 m2' → map_equiv (mm m1 m2) (mm m1' m2').
Proof.
  intros E1 E2 k. rewrite !lookup_merge_entries. specialize (E1 k). specialize (E2 k).
  inversion E2; subst; [constructor; by apply f_proper|done].
Qed.

Lemma map_merge_comm m1 m2 : map_wf m1 → map_wf m2 → map_equiv (mm m1 m2) (mm m2 m1).
Proof.
  intros W1 W2 k. rewrite (lookup_map_merge m1 m2 k), (lookup_map_merge m2 m1 k) by done.
  specialize (W1 k). specialize (W2 k).
  destruct (m1 !! k), (m2 !! k); try constructor; try reflexivity.
  apply crdt_merge_comm; eauto.
Qed.

Lemma map_merge_assoc m1 m2 m3 : map_wf m1 → map_wf m2 → map_wf m3 →
  map_equiv (mm m1 (mm m2 m3)) (mm (mm m1 m2) m3).
Proof.
  intros W1 W2 W3 k.
  rewrite (lookup_map_merge m1 (mm m2 m3) k), (lookup_map_merge (mm m1 m2) m3 k)
    by auto using map_merge_wf.
  pose proof (lookup_map_merge m1 m2 k W2) as E12.
  pose proof (lookup_map_merge m2 m3 k W3) as E23.
  specialize (W1 k). specialize (W2 k). specialize (W3 k).
  destruct (m1 !! k) as [v1|], (m2 !! k) as [v2|], (m3 !! k) as [v3|];
    inversion E12 as [? ? Ev12|]; inversion E23 as [? ? Ev23|]; subst; try constructor;
    try rewrite Ev12; try rewrite Ev23;
    try reflexivity; apply crdt_merge_assoc; eauto.
Qed.

Lemma map_merge_idem m : map_wf m → map_equiv (mm m m) m.
Proof.
  intros W k. rewrite (lookup_map_merge m m k) by done. specialize (W k).
  destruct (m !! k); constructor. apply crdt_merge_idem; eauto.
Qed.
End map_of_crdts.

(** Maps that merge into a default value: [entry(k).or_default().merge(v)]. *)
Section map_with_default.
Context {K V : Type} `{Countable K} `{CrdtLaws V} (d : V).
Context (d_wf : crdt_wf d) (d_unit : ∀ w, crdt_wf w → crdt_equiv (crdt_merge d w) w).

Definition default_entry (o : option V) (w : V) : V := crdt_merge (default d o) w.

Lemma default_entry_proper o o' w w' :
  option_Forall2 crdt_equiv o o' → crdt_equiv w w' →
  crdt_equiv (default_entry o w) (default_entry o' w').
Proof. intros [x y Hxy|] Hw; unfold default_entry; simpl; by f_equiv. Qed.

Lemma default_entry_some v w : crdt_equiv (default_entry (Some v) w) (crdt_merge v w).
Proof. reflexivity. Qed.

Lemma default_entry_wf o w :
  (∀ v, o = Some v → crdt_wf v) → crdt_wf w → crdt_wf (default_entry o w).
Proof.
  intros Ho Hw. refine (crdt_merge_wf (default d o) w _ Hw). destruct o; simpl; auto.
Qed.

(** The laws of a wrapper type read through such a map. *)
Context {A : Type} (g : A → gmap K V) (mk : gmap K V → A) (gmk : ∀ m, g (mk m) = m).
#[local] Instance wrapper_merge : CrdtMerge A := λ a b,
  mk (merge_entries default_entry (g a) (g b)).

Definition wrapper_equiv (a b : A) : Prop := map_equiv (g a) (g b).
Definition wrapper_wf (a : A) : Prop := map_wf (g a).

Definition default_map_laws : CrdtLaws A.
Proof.
  refine {| crdt_wf := wrapper_wf; crdt_equiv := wrapper_equiv |};
    unfold wrapper_equiv, wrapper_wf, crdt_merge, wrapper_merge.
  - apply map_equiv_pullback.
  - intros a a' Ha b b' Hb. rewrite !gmk. apply map_merge_proper; auto.
    apply default_entry_proper.
  - intros a b Ha Hb. rewrite !gmk. apply map_merge_wf; auto. apply default_entry_wf.
  - intros a b Ha Hb. rewrite !gmk. apply map_merge_comm; auto using default_entry_some.
  - intros a b c Ha Hb Hc. rewrite !gmk.
    apply map_merge_assoc; auto using default_entry_some, default_entry_wf.
  - intros a Ha. rewrite !gmk. apply map_merge_idem; auto using default_entry_some.
Defined.
End map_with_default.
