(* ===== verification/Counters.v ===== *)
(** * Counters, flag and last-writer-wins register
    ([crates/atomr-distributed-data/src/counters.rs], [flag.rs], [register.rs])

    [HashMap<String, u64>] is a [gmap string N]; additions wrap at [2^64], as the
    release profile compiles them.  Each data type comes with its [CrdtMerge]
    instance; the counters and the flag with their [CrdtLaws] instance, the register
    with the coherence condition under which its merge is a join. *)

From stdpp Require Import gmap strings.
From Stdlib Require Import NArith ZArith Lia.
From S2P Require Import Prelude Crdt.

(** ** GCounter *)

Record GCounter := mkGCounter {
  gc_state : gmap string N;
  gc_pending_delta : gmap string N;
}.

Definition GCounter_new : GCounter := mkGCounter ∅ ∅.

Definition GCounter_increment (node : string) (delta : N) (c : GCounter) : GCounter :=
  mkGCounter (entry_update 0%N (λ v, u64_add v delta) node (gc_state c))
             (entry_update 0%N (λ v, u64_add v delta) node (gc_pending_delta c)).

(** [self.state.values().copied().sum()] *)
Definition GCounter_value (c : GCounter) : N :=
  map_fold (λ _ v acc, u64_add acc v) 0%N (gc_state c).

#[export] Instance GCounter_merge : CrdtMerge GCounter := λ self other,
  mkGCounter (merge_entries (join_entry N.max 0%N) (gc_state self) (gc_state other))
             (gc_pending_delta self).

Definition GCounter_take_delta (c : GCounter) : option (gmap string N) * GCounter :=
  if decide (gc_pending_delta c = ∅) then (None, c)
  else (Some (gc_pending_delta c), mkGCounter (gc_state c) ∅).

Definition GCounter_merge_delta (c : GCounter) (delta : gmap string N) : GCounter :=
  mkGCounter (merge_entries (λ o v, u64_add (default 0%N o) v) (gc_state c) delta)
             (gc_pending_delta c).

#[export] Instance GCounter_delta : DeltaCrdt GCounter (gmap string N) :=
  {| take_delta := GCounter_take_delta; merge_delta := GCounter_merge_delta |}.

(** ** PNCounter *)

Record PNCounter := mkPNCounter { inc : GCounter; dec : GCounter }.

Definition PNCounter_new : PNCounter := mkPNCounter GCounter_new GCounter_new.

Definition PNCounter_increment (node : string) (delta : N) (c : PNCounter) : PNCounter :=
  mkPNCounter (GCounter_increment node delta (inc c)) (dec c).

Definition PNCounter_decrement (node : string) (delta : N) (c : PNCounter) : PNCounter :=
  mkPNCounter (inc c) (GCounter_increment node delta (dec c)).

(** [self.inc.value() as i64 - self.dec.value() as i64] *)
Definition PNCounter_value (c : PNCounter) : Z :=
  i64_sub (u64_as_i64 (GCounter_value (inc c))) (u64_as_i64 (GCounter_value (dec c))).

#[export] Instance PNCounter_merge : CrdtMerge PNCounter := λ self other,
  mkPNCounter (crdt_merge (inc self) (inc other)) (crdt_merge (dec self) (dec other)).

(** ** Flag *)

Record Flag := mkFlag { enabled : bool }.

Definition Flag_new : Flag := mkFlag false.
Definition Flag_switch_on (f : Flag) : Flag := mkFlag true.

#[export] Instance Flag_merge : CrdtMerge Flag := λ self other,
  mkFlag (enabled self || enabled other).

(** ** LwwRegister *)

Record LwwRegister (T : Type) := mkLwwRegister {
  lww_value : T;
  lww_timestamp : N;
  lww_node : string;
}.
Arguments mkLwwRegister {T}.
Arguments lww_value {T}.
Arguments lww_timestamp {T}.
Arguments lww_node {T}.

Definition LwwRegister_new {T} (node : string) (value : T) (timestamp : N) : LwwRegister T :=
  mkLwwRegister value timestamp node.

Definition LwwRegister_set {T} (value : T) (timestamp : N) (node : string)
    (r : LwwRegister T) : LwwRegister T :=
  if (lww_timestamp r <? timestamp)%N then mkLwwRegister value timestamp node else r.

#[export] Instance LwwRegister_merge T : CrdtMerge (LwwRegister T) := λ self other,
  if (lww_timestamp self <? lww_timestamp other)%N
     || ((lww_timestamp other =? lww_timestamp self)%N
         && String.ltb (lww_node self) (lww_node other))
  then other else self.

(** ** Specification *)

(** The count a replica attributes to a node. *)
Definition gcount (c : GCounter) (k : string) : N := default 0%N (gc_state c !! k).
Definition gpending (c : GCounter) (k : string) : N := default 0%N (gc_pending_delta c !! k).

(** What is replicated of a counter: its [state], not its [pending_delta], which is
    skipped on serialization. *)
Definition gcounter_equiv (a b : GCounter) : Prop := gc_state a = gc_state b.

Definition pncounter_equiv (a b : PNCounter) : Prop :=
  gcounter_equiv (inc a) (inc b) ∧ gcounter_equiv (dec a) (dec b).

(** A sequence of local increments. *)
Definition increments (ops : list (string * N)) (c : GCounter) : GCounter :=
  foldl (λ c op, GCounter_increment op.1 op.2 c) c ops.

(** The total a sequence of increments adds to one node. *)
Definition total_for (k : string) (ops : list (string * N)) : N :=
  foldr (λ op acc, if decide (op.1 = k) then (op.2 + acc)%N else acc) 0%N ops.

(** Two registers are coherent when equal stamps carry equal values. *)
Definition coherent {T} (a b : LwwRegister T) : Prop :=
  lww_timestamp a = lww_timestamp b → lww_node a = lww_node b → a = b.

(** ** GCounter: lemmas *)

Lemma sum_wrapping (m : gmap string N) :
  map_fold (λ _ v acc, u64_add acc v) 0%N m = wrap64 (map_sum m).
Proof.
  induction m as [|k v m Hk IH] using map_ind.
  - rewrite map_fold_empty. unfold map_sum. by rewrite map_fold_empty.
  - rewrite (map_fold_insert_L (M:=gmap string)), IH, map_sum_insert; auto.
    + unfold u64_add. rewrite wrap64_add_l. f_equal. lia.
    + intros. unfold u64_add. rewrite !wrap64_add_l. f_equal. lia.
Qed.

Lemma GCounter_value_spec c : GCounter_value c = wrap64 (map_sum (gc_state c)).
Proof. apply sum_wrapping. Qed.

Lemma gcount_increment n d c k :
  gcount (GCounter_increment n d c) k =
  if decide (n = k) then u64_add (gcount c k) d else gcount c k.
Proof.
  unfold gcount. simpl. rewrite lookup_entry_update. by case_decide; subst.
Qed.

Lemma gcount_merge a b k : gcount (crdt_merge a b) k = N.max (gcount a k) (gcount b k).
Proof.
  unfold gcount. simpl. rewrite lookup_merge_entries. unfold join_entry.
  destruct (gc_state b !! k); simpl; lia.
Qed.

Lemma gcount_merge_delta c delta k :
  gcount (GCounter_merge_delta c delta) k =
  match delta !! k with Some v => u64_add (gcount c k) v | None => gcount c k end.
Proof.
  unfold gcount. simpl. rewrite lookup_merge_entries. by destruct (delta !! k).
Qed.

#[export] Hint Rewrite gcount_increment gcount_merge gcount_merge_delta : atomr.

#[export] Instance gcounter_equiv_equivalence : Equivalence gcounter_equiv.
Proof. unfold gcounter_equiv. split; repeat intro; congruence. Qed.

#[export] Instance GCounter_merge_proper :
  Proper (gcounter_equiv ==> gcounter_equiv ==> gcounter_equiv) (@crdt_merge GCounter _).
Proof. unfold gcounter_equiv. intros a a' Ha b b' Hb. simpl. by rewrite Ha, Hb. Qed.

#[export] Instance GCounter_laws : CrdtLaws GCounter.
Proof.
  refine {| crdt_wf := λ _, True; crdt_equiv := gcounter_equiv |}.
  - done.
  - intros a b _ _. apply merge_entries_comm; intros; lia.
  - intros a b c _ _ _. apply merge_entries_assoc; intros; lia.
  - intros a _. apply merge_entries_idem; intros; lia.
Defined.

Lemma map_sum_increment n d (m : gmap string N) :
  wrap64 (map_sum (entry_update 0%N (λ v, u64_add v d) n m)) = wrap64 (map_sum m + d).
Proof.
  unfold entry_update.
  rewrite (map_sum_delete _ n), (map_sum_delete m n), lookup_insert_eq, delete_insert_eq.
  simpl. unfold u64_add. rewrite wrap64_add_l. f_equal. lia.
Qed.

Lemma total_for_cons k n d ops :
  total_for k ((n, d) :: ops) = ((if decide (n = k) then d else 0) + total_for k ops)%N.
Proof. simpl. case_decide; lia. Qed.

(** Increments that do not overflow accumulate, in the state and in the pending
    delta alike. *)
Lemma increments_count ops c k :
  (gcount c k + total_for k ops < u64_modulus)%N →
  gcount (increments ops c) k = (gcount c k + total_for k ops)%N.
Proof.
  revert c. induction ops as [|[n d] ops IH]; intros c Hb; [cbn; lia|].
  rewrite total_for_cons in *. cbn [increments foldl fst snd].
  fold (increments ops (GCounter_increment n d c)).
  assert (gcount (GCounter_increment n d c) k =
    (gcount c k + if decide (n = k) then d else 0))%N as Hc.
  { rewrite gcount_increment. case_decide; [rewrite u64_add_small|]; lia. }
  rewrite IH; rewrite Hc; lia.
Qed.

Lemma increments_pending ops c k :
  (gpending c k + total_for k ops < u64_modulus)%N →
  gpending (increments ops c) k = (gpending c k + total_for k ops)%N.
Proof.
  revert c. induction ops as [|[n d] ops IH]; intros c Hb; [cbn; lia|].
  rewrite total_for_cons in *. cbn [increments foldl fst snd].
  fold (increments ops (GCounter_increment n d c)).
  assert (gpending (GCounter_increment n d c) k =
    (gpending c k + if decide (n = k) then d else 0))%N as Hc.
  { unfold gpending. simpl. rewrite lookup_entry_update.
    case_decide; subst; simpl; [rewrite u64_add_small|]; unfold gpending in *; lia. }
  rewrite IH; rewrite Hc; lia.
Qed.

(** ** PNCounter and Flag: laws *)

#[export] Instance pncounter_equiv_equivalence : Equivalence pncounter_equiv.
Proof.
  unfold pncounter_equiv. split.
  - intros a. by split.
  - intros a b [? ?]. by split.
  - intros a b c [H1 H2] [H3 H4]. split; etrans; eauto.
Qed.

#[export] Instance PNCounter_laws : CrdtLaws PNCounter.
Proof.
  refine {| crdt_wf := λ _, True; crdt_equiv := pncounter_equiv |}.
  - intros a a' [Ha1 Ha2] b b' [Hb1 Hb2]. split; simpl; by apply GCounter_merge_proper.
  - done.
  - intros a b _ _. split.
    + exact (crdt_merge_comm (inc a) (inc b) I I).
    + exact (crdt_merge_comm (dec a) (dec b) I I).
  - intros a b c _ _ _. split.
    + exact (crdt_merge_assoc (inc a) (inc b) (inc c) I I I).
    + exact (crdt_merge_assoc (dec a) (dec b) (dec c) I I I).
  - intros a _. split.
    + exact (crdt_merge_idem (inc a) I).
    + exact (crdt_merge_idem (dec a) I).
Defined.

#[export] Instance Flag_laws : CrdtLaws Flag.
Proof.
  refine {| crdt_wf := λ _, True; crdt_equiv := (=) |}; unfold crdt_merge, Flag_merge;
    repeat intros []; repeat intros ?; simpl; f_equal;
    rewrite ?orb_assoc, ?orb_diag; auto using orb_comm.
Defined.

(** ** LwwRegister: lemmas *)

(** The order of write stamps: timestamp first, then node. *)
Definition stamp_le {T} (a b : LwwRegister T) : Prop :=
  (lww_timestamp a < lww_timestamp b)%N ∨
  (lww_timestamp a = lww_timestamp b ∧ String.le (lww_node a) (lww_node b)).

#[export] Instance stamp_le_dec {T} (a b : LwwRegister T) : Decision (stamp_le a b).
Proof. unfold stamp_le. apply _. Defined.

#[export] Instance stamp_le_total {T} : Total (@stamp_le T).
Proof.
  intros a b. unfold stamp_le. destruct (total String.le (lww_node a) (lww_node b));
    destruct (N.lt_total (lww_timestamp a) (lww_timestamp b)) as [|[|]]; auto.
Qed.

#[export] Instance stamp_le_preorder {T} : PreOrder (@stamp_le T).
Proof.
  split; [intros a; right; split; reflexivity|].
  intros a b c [|[? ?]] [|[? ?]]; [left; lia..|right]. split; [congruence|by etrans].
Qed.

Lemma LwwRegister_merge_spec {T} (a b : LwwRegister T) :
  crdt_merge a b = if decide (stamp_le b a) then a else b.
Proof.
  unfold crdt_merge, LwwRegister_merge, stamp_le. rewrite string_ltb_spec.
  destruct (N.ltb_spec (lww_timestamp a) (lww_timestamp b)); simpl.
  - rewrite decide_False by lia. done.
  - destruct (N.eqb_spec (lww_timestamp b) (lww_timestamp a)); simpl.
    + case_bool_decide; case_decide; tauto || (exfalso; intuition lia).
    + rewrite decide_True by lia. done.
Qed.

Lemma coherent_stamp_le {T} (a b : LwwRegister T) :
  coherent a b → stamp_le a b → stamp_le b a → a = b.
Proof.
  intros Hc [|[Ht Hn]] [|[Ht' Hn']]; [lia..|]. apply Hc; [done|].
  by apply (anti_symm String.le).
Qed.

Lemma LwwRegister_merge_assoc {T} (a b c : LwwRegister T) :
  crdt_merge a (crdt_merge b c) = crdt_merge (crdt_merge a b) c.
Proof.
  rewrite !LwwRegister_merge_spec.
  pose proof (total stamp_le a b). pose proof (total stamp_le b c).
  assert (∀ x y z : LwwRegister T, stamp_le x y → stamp_le y z → stamp_le x z) as Htr
    by (intros; by etrans).
  repeat case_decide; try done; exfalso; naive_solver.
Qed.

(** ** Properties *)

(** An increment adds exactly its amount to the value modulo [2^64], whatever
    the state; the pending delta accumulates the same amounts as the state, and
    [take_delta] hands them over once and leaves nothing pending. *)
Theorem GCounter_increment_value n d c :
  GCounter_value (GCounter_increment n d c) = u64_add (GCounter_value c) d ∧
  gc_pending_delta (GCounter_increment n d c) =
    entry_update 0%N (λ v, u64_add v d) n (gc_pending_delta c) ∧
  (take_delta (GCounter_increment n d c)).1 =
    Some (gc_pending_delta (GCounter_increment n d c)) ∧
  (take_delta (take_delta c).2).1 = None ∧
  gc_state (take_delta c).2 = gc_state c.
Proof.
  repeat split.
  - rewrite !GCounter_value_spec. simpl. rewrite map_sum_increment.
    unfold u64_add. by rewrite wrap64_add_l.
  - unfold take_delta. simpl. unfold GCounter_take_delta. simpl.
    rewrite decide_False; [done|]. apply insert_non_empty.
  - simpl. unfold GCounter_take_delta. case_decide; simpl; by case_decide.
  - simpl. unfold GCounter_take_delta. by case_decide.
Qed.

(** Delta replication agrees with full-state replication: let a counter with no
    pending delta perform increments that do not overflow, and ship its delta to a
    remote that has seen the counts of the touched nodes as they were before and at
    least the earlier counts elsewhere; then applying the delta gives the same counts
    as merging the full state. *)
Theorem GCounter_delta_matches_merge base ops remote delta :
  gc_pending_delta base = ∅ →
  (∀ k, gcount base k + total_for k ops < u64_modulus)%N →
  (take_delta (increments ops base)).1 = Some delta →
  (∀ k, k ∈ dom delta → gcount remote k = gcount base k) →
  (∀ k, gcount base k ≤ gcount remote k)%N →
  ∀ k, gcount (merge_delta remote delta) k
       = gcount (crdt_merge remote (increments ops base)) k.
Proof.
  intros Hpend Hbound Htake Hsame Hle k. specialize (Hbound k).
  assert (delta = gc_pending_delta (increments ops base)) as ->.
  { simpl in Htake. unfold GCounter_take_delta in Htake. by case_decide; simplify_eq/=. }
  assert (gpending base k = 0%N) as Hp0.
  { unfold gpending. by rewrite Hpend, lookup_empty. }
  pose proof (increments_pending ops base k ltac:(lia)) as Hp.
  rewrite gcount_merge, increments_count by lia. simpl. rewrite gcount_merge_delta.
  unfold gpending in Hp at 1. specialize (Hle k).
  destruct (gc_pending_delta (increments ops base) !! k) as [v|] eqn:E; simpl in Hp.
  - rewrite Hsame by (apply elem_of_dom; eauto). rewrite u64_add_small; lia.
  - lia.
Qed.

Lemma GCounter_delta_matches_merge_witness :
  gcount (merge_delta GCounter_new {["n1" := 8%N]}) "n1" =
  gcount (crdt_merge GCounter_new (increments [("n1", 5%N); ("n1", 3%N)] GCounter_new)) "n1".
Proof.
  apply (GCounter_delta_matches_merge GCounter_new [("n1", 5%N); ("n1", 3%N)] GCounter_new).
  - reflexivity.
  - intros k. cbn. unfold gcount. cbn. repeat case_decide; reflexivity.
  - vm_compute. reflexivity.
  - intros k _. reflexivity.
  - intros k. reflexivity.
Defined.

(** The value of a PN-counter is the sum of its increments minus the sum of its
    decrements whenever both sums fit an [i64]. *)
Theorem PNCounter_value_exact c :
  (map_sum (gc_state (inc c)) < 2 ^ 63)%N → (map_sum (gc_state (dec c)) < 2 ^ 63)%N →
  PNCounter_value c =
  (Z.of_N (map_sum (gc_state (inc c))) - Z.of_N (map_sum (gc_state (dec c))))%Z.
Proof.
  intros Hi Hd. unfold PNCounter_value. rewrite !GCounter_value_spec.
  rewrite !wrap64_small by (unfold u64_modulus; lia).
  rewrite !u64_as_i64_small, i64_sub_small by lia. done.
Qed.

Lemma PNCounter_value_exact_witness :
  PNCounter_value (PNCounter_decrement "n1" 3 (PNCounter_increment "n1" 10 PNCounter_new))
  = 7%Z.
Proof.
  rewrite (PNCounter_value_exact
    (PNCounter_decrement "n1" 3 (PNCounter_increment "n1" 10 PNCounter_new)));
    vm_compute; reflexivity.
Defined.

(** Merging last-writer-wins registers keeps the greatest write stamp (timestamp,
    then node); it is associative and idempotent, and commutative on registers whose
    equal stamps carry equal values, and it never loses to an older [set]. *)
Theorem LwwRegister_merge_join {T} (a b c : LwwRegister T) :
  (crdt_merge a b = a ∨ crdt_merge a b = b) ∧
  stamp_le a (crdt_merge a b) ∧ stamp_le b (crdt_merge a b) ∧
  crdt_merge a (crdt_merge b c) = crdt_merge (crdt_merge a b) c ∧
  crdt_merge a a = a ∧
  (coherent a b → crdt_merge a b = crdt_merge b a).
Proof.
  repeat split.
  - rewrite LwwRegister_merge_spec. case_decide; auto.
  - rewrite LwwRegister_merge_spec. case_decide; [reflexivity|].
    destruct (total stamp_le a b); tauto.
  - rewrite LwwRegister_merge_spec. case_decide; [done|reflexivity].
  - apply LwwRegister_merge_assoc.
  - rewrite LwwRegister_merge_spec. by case_decide.
  - intros Hc. rewrite !LwwRegister_merge_spec.
    case_decide as H1; case_decide as H2; auto.
    + by apply coherent_stamp_le.
    + destruct (total stamp_le a b); tauto.
Qed.

(** Without the coherence condition the merge of registers is not commutative:
    two writes of one node with the same timestamp make the two merge orders keep
    different values, so the replicas do not converge. *)
Theorem LwwRegister_merge_not_commutative :
  ∃ a b : LwwRegister string,
    lww_value (crdt_merge a b) ≠ lww_value (crdt_merge b a).
Proof.
  exists (LwwRegister_new "n1" "alpha" 1), (LwwRegister_new "n1" "beta" 1). by vm_compute.
Qed.
