(* ===== verification/CrdtSets.v ===== *)
(** * Grow-only and observed-remove sets
    ([crates/atomr-distributed-data/src/sets.rs])

    [HashSet<T>] is a [gset T] and [HashMap<T, HashSet<u64>>] a [gmap T (gset N)].
    The observed-remove set draws its tags from one counter per replica copy; the
    theorems say what that guarantees (a removal removes, a merge is a join, an add
    whose tag the remover has not seen survives) and what it does not (two replicas
    can draw the same tag for concurrent adds). *)

From stdpp Require Import gmap strings.
From Stdlib Require Import NArith Lia.
From S2P Require Import Prelude Crdt.

(** ** GSet *)

Record GSet (T : Type) `{Countable T} := mkGSet { gs_items : gset T }.
Arguments mkGSet {T _ _}.
Arguments gs_items {T _ _}.

(** ** OrSet *)

Record OrSet (T : Type) `{Countable T} := mkOrSet {
  os_adds : gmap T (gset N);
  os_removes : gmap T (gset N);
  os_counter : N;
}.
Arguments mkOrSet {T _ _}.
Arguments os_adds {T _ _}.
Arguments os_removes {T _ _}.
Arguments os_counter {T _ _}.

Section operations.
Context {T : Type} `{Countable T}.
Implicit Types (x : T).

Definition GSet_new : GSet T := mkGSet ∅.
Definition GSet_add (x : T) (s : GSet T) : GSet T := mkGSet ({[x]} ∪ gs_items s).
Definition GSet_contains (x : T) (s : GSet T) : bool := bool_decide (x ∈ gs_items s).
Definition GSet_len (s : GSet T) : nat := size (gs_items s).

(** [for item in &other.items { self.items.insert(item.clone()); }] *)
#[export] Instance GSet_merge : CrdtMerge (GSet T) := λ self other,
  mkGSet (set_fold (λ item acc, {[item]} ∪ acc) (gs_items self) (gs_items other)).

Definition OrSet_new : OrSet T := mkOrSet ∅ ∅ 0.

Definition OrSet_add (x : T) (s : OrSet T) : OrSet T :=
  let counter := u64_add (os_counter s) 1 in
  mkOrSet (entry_update ∅ (λ tags, {[counter]} ∪ tags) x (os_adds s)) (os_removes s) counter.

Definition OrSet_remove (x : T) (s : OrSet T) : OrSet T :=
  match os_adds s !! x with
  | Some tags =>
      mkOrSet (os_adds s) (entry_update ∅ (λ r, r ∪ tags) x (os_removes s)) (os_counter s)
  | None => s
  end.

Definition OrSet_contains (x : T) (s : OrSet T) : bool :=
  match os_adds s !! x, os_removes s !! x with
  | Some a, Some r => negb (bool_decide (a ∖ r = ∅))
  | Some a, None => negb (bool_decide (a = ∅))
  | None, _ => false
  end.

(** The test of [iter]: some add tag is not among the removed ones. *)
Definition OrSet_kept (s : OrSet T) (k : T) (add_tags : gset N) : bool :=
  match os_removes s !! k with
  | Some rem_tags => negb (bool_decide (add_tags ∖ rem_tags = ∅))
  | None => negb (bool_decide (add_tags = ∅))
  end.

(** [iter]: the keys of [adds] kept by the filter. *)
Definition OrSet_iter (s : OrSet T) : list T :=
  omap (λ '(k, add_tags), if OrSet_kept s k add_tags then Some k else None)
    (map_to_list (os_adds s)).

Definition OrSet_len (s : OrSet T) : nat := length (OrSet_iter s).

#[export] Instance OrSet_merge : CrdtMerge (OrSet T) := λ self other,
  mkOrSet (merge_entries (join_entry (∪) ∅) (os_adds self) (os_adds other))
          (merge_entries (join_entry (∪) ∅) (os_removes self) (os_removes other))
          (N.max (os_counter self) (os_counter other)).

(** ** Specification *)

(** The tags an element was added with, and those observed by a removal. *)
Definition add_tags (s : OrSet T) (x : T) : gset N := default ∅ (os_adds s !! x).
Definition rem_tags (s : OrSet T) (x : T) : gset N := default ∅ (os_removes s !! x).

(** The element is present when some tag of it was not removed. *)
Definition os_member (s : OrSet T) (x : T) : Prop := ∃ t, t ∈ add_tags s x ∧ t ∉ rem_tags s x.

(** Removed tags were added, and no tag is beyond the counter. *)
Record orset_wf (s : OrSet T) : Prop := {
  wf_rem x : rem_tags s x ⊆ add_tags s x;
  wf_tags x t : t ∈ add_tags s x → (t ≤ os_counter s)%N;
}.

(** ** Lemmas *)

Lemma GSet_merge_items (a b : GSet T) :
  gs_items (crdt_merge a b) = gs_items a ∪ gs_items b.
Proof.
  simpl. apply (set_fold_ind_L (λ acc X, acc = gs_items a ∪ X)); set_solver.
Qed.

Lemma OrSet_contains_spec s x : OrSet_contains x s = true ↔ os_member s x.
Proof.
  unfold OrSet_contains, os_member, add_tags, rem_tags.
  destruct (os_adds s !! x) as [a|], (os_removes s !! x) as [r|]; simpl;
    rewrite ?negb_true_iff, ?bool_decide_eq_false; try set_solver.
  - split.
    + intros Hne. apply set_choose_L in Hne as [t Ht]. set_solver.
    + set_solver.
  - split.
    + intros Hne. apply set_choose_L in Hne as [t Ht]. set_solver.
    + set_solver.
Qed.

Lemma OrSet_iter_spec s x : x ∈ OrSet_iter s ↔ os_member s x.
Proof.
  rewrite <- OrSet_contains_spec. unfold OrSet_iter, OrSet_contains.
  rewrite list_elem_of_omap. split.
  - intros [[k a] [Hin Hk]]. apply elem_of_map_to_list in Hin.
    destruct (OrSet_kept s k a) eqn:E; simplify_eq/=. rewrite Hin.
    unfold OrSet_kept in E. by destruct (os_removes s !! x).
  - destruct (os_adds s !! x) as [a|] eqn:Ea; [|by destruct (os_removes s !! x)].
    intros Hc. exists (x, a). rewrite elem_of_map_to_list. split; [done|].
    unfold OrSet_kept. destruct (os_removes s !! x); by rewrite Hc.
Qed.

Lemma OrSet_iter_NoDup s : NoDup (OrSet_iter s).
Proof.
  unfold OrSet_iter. pose proof (NoDup_fst_map_to_list (os_adds s)) as Hnd.
  induction (map_to_list (os_adds s)) as [|[k a] l IH]; simpl in *; [constructor|].
  apply NoDup_cons in Hnd as [Hk Hl]. specialize (IH Hl).
  destruct (OrSet_kept s k a); [|done]. constructor; [|done].
  rewrite list_elem_of_omap. intros [[k' a'] [Hin Heq]]. apply Hk.
  apply list_elem_of_fmap. exists (k', a').
  destruct (OrSet_kept s k' a'); by simplify_eq/=.
Qed.

Lemma add_tags_add s x y :
  add_tags (OrSet_add x s) y =
  if decide (x = y) then {[u64_add (os_counter s) 1]} ∪ add_tags s y else add_tags s y.
Proof. unfold add_tags. simpl. rewrite lookup_entry_update. by case_decide; subst. Qed.

Lemma add_tags_remove s x y : add_tags (OrSet_remove x s) y = add_tags s y.
Proof. unfold OrSet_remove, add_tags. by destruct (os_adds s !! x). Qed.

Lemma rem_tags_add s x y : rem_tags (OrSet_add x s) y = rem_tags s y.
Proof. done. Qed.

Lemma rem_tags_remove s x y :
  rem_tags (OrSet_remove x s) y =
  if decide (x = y) then rem_tags s y ∪ add_tags s y else rem_tags s y.
Proof.
  unfold OrSet_remove, rem_tags, add_tags. destruct (os_adds s !! x) as [t|] eqn:E; simpl.
  - rewrite lookup_entry_update. case_decide; subst; [|done]. by rewrite E.
  - case_decide; subst; [|done]. rewrite E. simpl. set_solver.
Qed.

Lemma tags_merge (j : gmap T (gset N)) (k : gmap T (gset N)) x :
  default ∅ (merge_entries (join_entry (∪) ∅) j k !! x) =
  default ∅ (j !! x) ∪ default ∅ (k !! x).
Proof.
  rewrite lookup_merge_entries. unfold join_entry. destruct (k !! x); simpl; set_solver.
Qed.

Lemma add_tags_merge a b x :
  add_tags (crdt_merge a b) x = add_tags a x ∪ add_tags b x.
Proof. apply tags_merge. Qed.

Lemma rem_tags_merge a b x :
  rem_tags (crdt_merge a b) x = rem_tags a x ∪ rem_tags b x.
Proof. apply tags_merge. Qed.

#[export] Instance GSet_laws : CrdtLaws (GSet T).
Proof.
  refine {| crdt_wf := λ _, True; crdt_equiv := (=) |}.
  - done.
  - intros [a] [b] _ _. pose proof (GSet_merge_items (mkGSet a) (mkGSet b)).
    pose proof (GSet_merge_items (mkGSet b) (mkGSet a)).
    unfold crdt_merge, GSet_merge in *. simpl in *. f_equal. set_solver.
  - intros a b c _ _ _. set (l := crdt_merge a _). set (r := crdt_merge _ c).
    enough (gs_items l = gs_items r) as Heq by (destruct l, r; simpl in *; by f_equal).
    subst l r. rewrite !GSet_merge_items. set_solver.
  - intros a _. pose proof (GSet_merge_items a a) as Ha.
    destruct a as [a], (crdt_merge _ _) as [b]. simpl in *. f_equal. set_solver.
Defined.

#[export] Instance OrSet_laws : CrdtLaws (OrSet T).
Proof.
  refine {| crdt_wf := orset_wf; crdt_equiv := (=) |}.
  - intros a b Ha Hb. split.
    + intros x. rewrite rem_tags_merge, add_tags_merge.
      pose proof (wf_rem a Ha x). pose proof (wf_rem b Hb x). set_solver.
    + intros x t. rewrite add_tags_merge, elem_of_union. simpl.
      intros [?%(wf_tags a Ha)|?%(wf_tags b Hb)]; lia.
  - intros a b _ _. unfold crdt_merge, OrSet_merge.
    f_equal; [apply merge_entries_comm|apply merge_entries_comm|lia]; set_solver.
  - intros a b c _ _ _. unfold crdt_merge, OrSet_merge. simpl.
    f_equal; [apply merge_entries_assoc|apply merge_entries_assoc|lia]; set_solver.
  - intros [a r n] _. unfold crdt_merge, OrSet_merge. simpl.
    f_equal; [apply merge_entries_idem|apply merge_entries_idem|lia]; set_solver.
Defined.

Lemma orset_wf_new : orset_wf OrSet_new.
Proof. split; intros x; unfold rem_tags, add_tags; simpl; set_solver. Qed.

Lemma orset_wf_add x s : (os_counter s < u64_max)%N → orset_wf s → orset_wf (OrSet_add x s).
Proof.
  intros Hb Hs. unfold u64_max in Hb. split.
  - intros y. rewrite rem_tags_add, add_tags_add. pose proof (wf_rem s Hs y).
    case_decide; set_solver.
  - intros y t. rewrite add_tags_add. simpl. rewrite u64_add_small by (unfold u64_modulus; lia).
    pose proof (wf_tags s Hs y t) as Ht.
    case_decide; rewrite ?elem_of_union, ?elem_of_singleton; intros Hin.
    + destruct Hin as [->|Hin]; [lia|]. specialize (Ht Hin). lia.
    + specialize (Ht Hin). lia.
Qed.

Lemma orset_wf_remove x s : orset_wf s → orset_wf (OrSet_remove x s).
Proof.
  intros Hs. split.
  - intros y. rewrite add_tags_remove, rem_tags_remove. pose proof (wf_rem s Hs y).
    case_decide; set_solver.
  - intros y t. rewrite add_tags_remove. intros Ht%(wf_tags s Hs).
    unfold OrSet_remove. by destruct (os_adds s !! x).
Qed.

(** A fresh tag is in no add or remove set of a well-formed state with a counter not
    beyond the adder's. *)
Lemma fresh_tag (s r : OrSet T) x :
  (os_counter s < u64_max)%N → orset_wf r → (os_counter r ≤ os_counter s)%N →
  u64_add (os_counter s) 1 ∉ rem_tags r x.
Proof.
  intros Hb Hr Hle Hin. unfold u64_max in Hb. apply (wf_rem r Hr), (wf_tags r Hr) in Hin.
  rewrite u64_add_small in Hin; unfold u64_modulus; lia.
Qed.

#[local] Hint Resolve orset_wf_add orset_wf_remove orset_wf_new : atomr.

(** ** Properties *)

(** On one replica the observed-remove set behaves as a set: [add] makes exactly
    its element present, [remove] makes exactly its element absent, a re-add after a
    remove makes it present again, and [iter] lists each present element once, so
    [len] is their number. *)
Theorem OrSet_sequential (s : OrSet T) (x y : T) :
  orset_wf s → (os_counter s < u64_max)%N →
  (os_member (OrSet_add x s) y ↔ y = x ∨ os_member s y) ∧
  (os_member (OrSet_remove x s) y ↔ y ≠ x ∧ os_member s y) ∧
  OrSet_contains x (OrSet_add x (OrSet_remove x s)) = true ∧
  orset_wf (OrSet_add x s) ∧ orset_wf (OrSet_remove x s) ∧
  NoDup (OrSet_iter s) ∧ (y ∈ OrSet_iter s ↔ OrSet_contains y s = true).
Proof.
  intros Hs Hb. split_and!; auto with atomr.
  - unfold os_member. rewrite rem_tags_add, add_tags_add. case_decide as Hxy; subst.
    + split; [auto|]. intros _. exists (u64_add (os_counter s) 1).
      split; [set_solver|]. by apply fresh_tag.
    + naive_solver.
  - unfold os_member. rewrite rem_tags_remove, add_tags_remove. case_decide; set_solver.
  - apply OrSet_contains_spec. exists (u64_add (os_counter s) 1).
    assert (os_counter (OrSet_remove x s) = os_counter s) as Hc
      by (unfold OrSet_remove; by destruct (os_adds s !! x)).
    rewrite rem_tags_add, add_tags_add, decide_True, Hc by done. split; [set_solver|].
    apply fresh_tag; auto with atomr. by rewrite Hc.
  - apply OrSet_iter_NoDup.
  - by rewrite OrSet_iter_spec, OrSet_contains_spec.
Qed.

(** An add wins over a concurrent removal: when the adding replica's counter is
    not behind the remover's, the element is present after the merge, in either merge
    order, whatever the remover removed. *)
Theorem OrSet_add_wins (a b : OrSet T) (x : T) :
  orset_wf a → orset_wf b → (os_counter a < u64_max)%N → (os_counter b ≤ os_counter a)%N →
  OrSet_contains x (crdt_merge (OrSet_add x a) b) = true ∧
  OrSet_contains x (crdt_merge b (OrSet_add x a)) = true.
Proof.
  intros Ha Hb Hc Hle. rewrite !OrSet_contains_spec.
  assert (u64_add (os_counter a) 1 ∉ rem_tags b x) by by apply fresh_tag.
  assert (u64_add (os_counter a) 1 ∉ rem_tags a x) by by apply fresh_tag.
  split; exists (u64_add (os_counter a) 1);
    rewrite add_tags_merge, rem_tags_merge, add_tags_add, rem_tags_add, decide_True by done;
    set_solver.
Qed.
End operations.

Lemma OrSet_sequential_witness :
  OrSet_contains "x" (OrSet_add "x" (OrSet_remove "x" (OrSet_add "x" OrSet_new))) = true.
Proof.
  assert (orset_wf (OrSet_add "x" OrSet_new)) as Hwf
    by (apply orset_wf_add; [reflexivity|apply orset_wf_new]).
  exact (proj1 (proj2 (proj2 (OrSet_sequential (OrSet_add "x" OrSet_new) "x" "y" Hwf eq_refl)))).
Defined.

Lemma OrSet_add_wins_witness :
  OrSet_contains "x"
    (crdt_merge (OrSet_add "x" (OrSet_add "x" OrSet_new))
                (OrSet_remove "x" (OrSet_add "x" OrSet_new))) = true.
Proof.
  assert (orset_wf (OrSet_add "x" OrSet_new)) as Hwf
    by (apply orset_wf_add; [reflexivity|apply orset_wf_new]).
  assert (os_counter (OrSet_remove "x" (OrSet_add "x" OrSet_new))
          ≤ os_counter (OrSet_add "x" OrSet_new))%N as Hle by (vm_compute; discriminate).
  exact (proj1 (OrSet_add_wins (OrSet_add "x" OrSet_new)
    (OrSet_remove "x" (OrSet_add "x" OrSet_new)) "x" Hwf
    (orset_wf_remove "x" _ Hwf) eq_refl Hle)).
Defined.

(** Tags are not unique across replicas: two replicas that start empty and add
    the same element draw the same tag, so one replica's removal of its own add also
    erases the other's concurrent add. *)
Theorem OrSet_concurrent_add_lost :
  let a := OrSet_add "x" OrSet_new in
  let b := OrSet_remove "x" (OrSet_add "x" OrSet_new) in
  add_tags a "x" = add_tags b "x" ∧
  OrSet_contains "x" a = true ∧
  OrSet_contains "x" (crdt_merge a b) = false.
Proof. by vm_compute. Qed.
