(* ===== verification/CrdtMaps.v ===== *)
(** * Map-shaped CRDTs ([crates/atomr-distributed-data/src/maps.rs])

    [ORMap], [LWWMap], [PNCounterMap] and [ORMultiMap].  The value type of [ORMap] is
    any type with the [CrdtMerge] interface; its laws are proved from the laws of the
    values.  [u128] timestamps are unbounded [N] (they are only compared). *)

From stdpp Require Import gmap strings.
From Stdlib Require Import NArith ZArith Lia.
From S2P Require Import Prelude Crdt Counters CrdtSets.

(** ** ORMap *)

Record ORMap (K V : Type) `{Countable K} := mkORMap {
  om_entries : gmap K (N * V);
  om_tombstones : gmap K N;
  om_counter : N;
}.
Arguments mkORMap {K V _ _}.
Arguments om_entries {K V _ _}.
Arguments om_tombstones {K V _ _}.
Arguments om_counter {K V _ _}.

Section ormap.
Context {K V : Type} `{Countable K} `{CrdtMerge V}.

Definition ORMap_new : ORMap K V := mkORMap ∅ ∅ 0.

Definition ORMap_put (key : K) (value : V) (m : ORMap K V) : ORMap K V :=
  let counter := u64_add (om_counter m) 1 in
  mkORMap (<[key := (counter, value)]> (om_entries m)) (om_tombstones m) counter.

Definition ORMap_update (key : K) (value : V) (m : ORMap K V) : ORMap K V :=
  let counter := u64_add (om_counter m) 1 in
  mkORMap
    (match om_entries m !! key with
     | Some (_, existing) => <[key := (counter, crdt_merge existing value)]> (om_entries m)
     | None => <[key := (counter, value)]> (om_entries m)
     end) (om_tombstones m) counter.

Definition ORMap_remove (key : K) (m : ORMap K V) : ORMap K V :=
  match om_entries m !! key with
  | Some (tag, _) => mkORMap (om_entries m) (<[key := tag]> (om_tombstones m)) (om_counter m)
  | None => m
  end.

(** The visibility test shared by [get] and [iter]. *)
Definition ORMap_visible (m : ORMap K V) (key : K) (add_tag : N) (v : V) : option V :=
  match om_tombstones m !! key with
  | Some tomb => if (add_tag <=? tomb)%N then None else Some v
  | None => Some v
  end.

Definition ORMap_get (key : K) (m : ORMap K V) : option V :=
  '(add_tag, v) ← om_entries m !! key; ORMap_visible m key add_tag v.

Definition ORMap_iter (m : ORMap K V) : list (K * V) :=
  omap (λ '(k, (add, v)), v' ← ORMap_visible m k add v; Some (k, v'))
    (map_to_list (om_entries m)).

(** The merge of two entries present on both sides. *)
Definition tagged_merge : CrdtMerge (N * V) := λ a b, (N.max a.1 b.1, crdt_merge a.2 b.2).

Definition ORMap_entry (o : option (N * V)) (w : N * V) : N * V :=
  match o with Some v => tagged_merge v w | None => w end.

#[export] Instance ORMap_merge : CrdtMerge (ORMap K V) := λ self other,
  mkORMap (merge_entries ORMap_entry (om_entries self) (om_entries other))
          (merge_entries (join_entry N.max 0%N) (om_tombstones self) (om_tombstones other))
          (N.max (om_counter self) (om_counter other)).
End ormap.

(** ** LWWMap *)

Record LWWMap (K V : Type) `{Countable K} := mkLWWMap { lm_entries : gmap K (N * V) }.
Arguments mkLWWMap {K V _ _}.
Arguments lm_entries {K V _ _}.

Section lwwmap.
Context {K V : Type} `{Countable K}.

Definition LWWMap_new : LWWMap K V := mkLWWMap ∅.

Definition LWWMap_put (key : K) (value : V) (timestamp : N) (m : LWWMap K V) : LWWMap K V :=
  match lm_entries m !! key with
  | Some (ts, _) =>
      if (timestamp <=? ts)%N then m else mkLWWMap (<[key := (timestamp, value)]> (lm_entries m))
  | None => mkLWWMap (<[key := (timestamp, value)]> (lm_entries m))
  end.

Definition LWWMap_get (key : K) (m : LWWMap K V) : option V := snd <$> lm_entries m !! key.

(** The merge of one entry: keep ours unless theirs is strictly later. *)
Definition LWWMap_entry (o : option (N * V)) (w : N * V) : N * V :=
  match o with
  | Some mine => if (w.1 <=? mine.1)%N then mine else w
  | None => w
  end.

#[export] Instance LWWMap_merge : CrdtMerge (LWWMap K V) := λ self other,
  mkLWWMap (merge_entries LWWMap_entry (lm_entries self) (lm_entries other)).
End lwwmap.

(** ** PNCounterMap *)

Record PNCounterMap (K : Type) `{Countable K} := mkPNCounterMap { pm_entries : gmap K PNCounter }.
Arguments mkPNCounterMap {K _ _}.
Arguments pm_entries {K _ _}.

(** ** ORMultiMap *)

Record ORMultiMap (K V : Type) `{Countable K} `{Countable V} := mkORMultiMap {
  mm_entries : gmap K (OrSet V)
}.
Arguments mkORMultiMap {K V _ _ _ _}.
Arguments mm_entries {K V _ _ _ _}.

Section nested.
Context {K V : Type} `{Countable K} `{Countable V}.

Definition PNCounterMap_new : PNCounterMap K := mkPNCounterMap ∅.

Definition PNCounterMap_increment (key : K) (node : string) (delta : N) (m : PNCounterMap K)
    : PNCounterMap K :=
  mkPNCounterMap (entry_update PNCounter_new (PNCounter_increment node delta) key (pm_entries m)).

Definition PNCounterMap_decrement (key : K) (node : string) (delta : N) (m : PNCounterMap K)
    : PNCounterMap K :=
  mkPNCounterMap (entry_update PNCounter_new (PNCounter_decrement node delta) key (pm_entries m)).

Definition PNCounterMap_value (key : K) (m : PNCounterMap K) : Z :=
  default 0%Z (PNCounter_value <$> pm_entries m !! key).

#[export] Instance PNCounterMap_merge : CrdtMerge (PNCounterMap K) := λ self other,
  mkPNCounterMap (merge_entries (default_entry PNCounter_new) (pm_entries self) (pm_entries other)).

Definition ORMultiMap_new : ORMultiMap K V := mkORMultiMap ∅.

Definition ORMultiMap_add (key : K) (value : V) (m : ORMultiMap K V) : ORMultiMap K V :=
  mkORMultiMap (entry_update OrSet_new (OrSet_add value) key (mm_entries m)).

Definition ORMultiMap_remove (key : K) (value : V) (m : ORMultiMap K V) : ORMultiMap K V :=
  match mm_entries m !! key with
  | Some set => mkORMultiMap (<[key := OrSet_remove value set]> (mm_entries m))
  | None => m
  end.

Definition ORMultiMap_contains (key : K) (value : V) (m : ORMultiMap K V) : bool :=
  default false (OrSet_contains value <$> mm_entries m !! key).

Definition ORMultiMap_key_count (m : ORMultiMap K V) : nat := size (mm_entries m).

#[export] Instance ORMultiMap_merge : CrdtMerge (ORMultiMap K V) := λ self other,
  mkORMultiMap (merge_entries (default_entry OrSet_new) (mm_entries self) (mm_entries other)).
End nested.

(** ** Laws of ORMap, from the laws of its values *)

Section ormap_laws.
Context {K V : Type} `{Countable K} `{CrdtLaws V}.

Definition tagged_equiv : relation (N * V) := λ a b, a.1 = b.1 ∧ crdt_equiv a.2 b.2.

#[local] Instance tagged_equiv_equivalence : Equivalence tagged_equiv.
Proof.
  split.
  - intros a. by split.
  - intros a b [? ?]. by split.
  - intros a b c [? ?] [? ?]. split; by etrans.
Qed.

#[local] Existing Instance tagged_merge.
#[local] Instance tagged_laws : CrdtLaws (N * V).
Proof.
  refine {| crdt_wf := λ a, crdt_wf a.2; crdt_equiv := tagged_equiv |}.
  - intros a a' [Ha1 Ha2] b b' [Hb1 Hb2]. split; simpl; [lia|by f_equiv].
  - intros a b. apply crdt_merge_wf.
  - intros a b Ha Hb. split; simpl; [lia|by apply crdt_merge_comm].
  - intros a b c Ha Hb Hc. split; simpl; [lia|by apply crdt_merge_assoc].
  - intros a Ha. split; simpl; [lia|by apply crdt_merge_idem].
Defined.

(** Same tags and tombstones, observably equal values. *)
Definition ormap_equiv (a b : ORMap K V) : Prop :=
  map_equiv (om_entries a) (om_entries b) ∧
  om_tombstones a = om_tombstones b ∧ om_counter a = om_counter b.

(** Every stored value is well formed. *)
Definition ormap_values_wf (m : ORMap K V) : Prop := map_wf (om_entries m).

#[local] Instance ormap_equiv_equivalence : Equivalence ormap_equiv.
Proof.
  split.
  - intros a. by split_and!.
  - intros a b (? & ? & ?). by split_and!.
  - intros a b c (? & ? & ?) (? & ? & ?). split_and!; by etrans.
Qed.

Lemma ORMap_entry_wf o (w : N * V) :
  (∀ v, o = Some v → crdt_wf v) → crdt_wf w → crdt_wf (ORMap_entry o w).
Proof.
  destruct o as [v|]; [|done]. intros Hv Hw. exact (crdt_merge_wf v w (Hv v eq_refl) Hw).
Qed.

#[export] Instance ORMap_laws : CrdtLaws (ORMap K V).
Proof.
  refine {| crdt_wf := ormap_values_wf; crdt_equiv := ormap_equiv |}.
  - intros a a' (Ha1 & Ha2 & Ha3) b b' (Hb1 & Hb2 & Hb3). split_and!; simpl; [|congruence..].
    apply map_merge_proper; auto. intros ? ? w w' [[? ?] [? ?] [? ?]|] [? ?]; split; simpl in *;
      [lia|by f_equiv|done|done].
  - intros a b Ha Hb. apply map_merge_wf; auto. apply ORMap_entry_wf.
  - intros a b Ha Hb. split_and!; simpl; [|apply merge_entries_comm; intros; lia|lia].
    apply map_merge_comm; auto; intros; reflexivity.
  - intros a b c Ha Hb Hc. split_and!; simpl; [|apply merge_entries_assoc; intros; lia|lia].
    apply map_merge_assoc; auto using ORMap_entry_wf; intros; reflexivity.
  - intros a Ha. split_and!; simpl; [|apply merge_entries_idem; intros; lia|lia].
    apply map_merge_idem; auto; intros; reflexivity.
Defined.
End ormap_laws.

(** ** Laws of the maps with default values *)

Section nested_laws.
Context {K V : Type} `{Countable K} `{Countable V}.

Lemma PNCounter_merge_new w : pncounter_equiv (crdt_merge PNCounter_new w) w.
Proof.
  split; apply map_eq; intros k; simpl; rewrite lookup_merge_entries; unfold join_entry;
    rewrite lookup_empty; destruct (_ !! k); simpl; f_equal; lia.
Qed.

Lemma OrSet_merge_new (w : OrSet V) : crdt_merge OrSet_new w = w.
Proof.
  destruct w as [a r n]. unfold crdt_merge, OrSet_merge. simpl. f_equal; [..|lia];
    apply map_eq; intros k; rewrite lookup_merge_entries; unfold join_entry;
    rewrite lookup_empty; destruct (_ !! k); simpl; f_equal; set_solver.
Qed.

#[export] Instance PNCounterMap_laws : CrdtLaws (PNCounterMap K) :=
  default_map_laws PNCounter_new I (λ w _, PNCounter_merge_new w) pm_entries mkPNCounterMap
    (λ _, eq_refl).

Lemma OrSet_merge_new_equiv (w : OrSet V) :
  crdt_wf w → crdt_equiv (crdt_merge OrSet_new w) w.
Proof. intros _. by rewrite OrSet_merge_new. Qed.

#[export] Instance ORMultiMap_laws : CrdtLaws (ORMultiMap K V) :=
  default_map_laws OrSet_new orset_wf_new OrSet_merge_new_equiv mm_entries mkORMultiMap
    (λ _, eq_refl).
End nested_laws.

(** ** ORMap: the operations *)

Section ormap_ops.
Context {K V : Type} `{Countable K} `{CrdtMerge V}.
Implicit Types (m a b : ORMap K V) (v : V).

(** No tag or tombstone is beyond the counter. *)
Record ormap_wf m : Prop := {
  om_wf_entry k t v : om_entries m !! k = Some (t, v) → (t ≤ om_counter m)%N;
  om_wf_tomb k t : om_tombstones m !! k = Some t → (t ≤ om_counter m)%N;
}.

Lemma ORMap_get_visible m k t v :
  om_entries m !! k = Some (t, v) →
  (∀ tomb, om_tombstones m !! k = Some tomb → (tomb < t)%N) → ORMap_get k m = Some v.
Proof.
  intros He Ht. unfold ORMap_get, ORMap_visible. rewrite He. simpl.
  destruct (om_tombstones m !! k) as [tomb|]; [|done].
  specialize (Ht tomb eq_refl). destruct (N.leb_spec t tomb); [lia|done].
Qed.

Lemma ORMap_tag_fresh m :
  (om_counter m < u64_max)%N → u64_add (om_counter m) 1 = (om_counter m + 1)%N.
Proof. intros. unfold u64_max in *. apply u64_add_small. unfold u64_modulus. lia. Qed.

Lemma ormap_wf_put k v m : (om_counter m < u64_max)%N → ormap_wf m → ormap_wf (ORMap_put k v m).
Proof.
  intros Hb Hm. split; intros j t; simpl; rewrite ORMap_tag_fresh by done.
  - intros w. rewrite lookup_insert. case_decide; intros; simplify_eq/=; [lia|].
    pose proof (om_wf_entry m Hm j t w). lia || (etrans; [by eapply om_wf_entry|lia]).
  - intros Ht. etrans; [by eapply om_wf_tomb|lia].
Qed.

Lemma ormap_wf_remove k m : ormap_wf m → ormap_wf (ORMap_remove k m).
Proof.
  intros Hm. unfold ORMap_remove. destruct (om_entries m !! k) as [[t v]|] eqn:E; [|done].
  split; intros j t'; simpl; [by apply om_wf_entry|].
  rewrite lookup_insert. case_decide; intros; simplify_eq/=.
  - by eapply om_wf_entry.
  - by eapply om_wf_tomb.
Qed.

Lemma ormap_wf_merge a b : ormap_wf a → ormap_wf b → ormap_wf (crdt_merge a b).
Proof.
  intros Ha Hb. split; intros k t; simpl.
  - intros v. rewrite lookup_merge_entries. unfold ORMap_entry, tagged_merge.
    destruct (om_entries b !! k) as [[tb vb]|] eqn:Eb,
             (om_entries a !! k) as [[ta va]|] eqn:Ea; intros; simplify_eq/=;
      try (apply (om_wf_entry a Ha) in Ea); try (apply (om_wf_entry b Hb) in Eb); lia.
  - rewrite lookup_merge_entries. unfold join_entry.
    destruct (om_tombstones b !! k) eqn:Eb, (om_tombstones a !! k) eqn:Ea;
      intros; simplify_eq/=;
      try (apply (om_wf_tomb a Ha) in Ea); try (apply (om_wf_tomb b Hb) in Eb); lia.
Qed.

(** On one replica the observed-remove map behaves as a map: [put] makes its
    value readable, [remove] makes its key unreadable, both leave the other keys as
    they were, and [update] reads as the merge of the stored and the given value. *)
Theorem ORMap_sequential m k j v :
  ormap_wf m → (om_counter m < u64_max)%N →
  ORMap_get k (ORMap_put k v m) = Some v ∧
  ORMap_get k (ORMap_remove k m) = None ∧
  ORMap_get k (ORMap_update k v m) =
    Some (match om_entries m !! k with Some (_, w) => crdt_merge w v | None => v end) ∧
  (j ≠ k → ORMap_get j (ORMap_put k v m) = ORMap_get j m ∧
           ORMap_get j (ORMap_remove k m) = ORMap_get j m ∧
           ORMap_get j (ORMap_update k v m) = ORMap_get j m) ∧
  ormap_wf (ORMap_put k v m) ∧ ormap_wf (ORMap_remove k m).
Proof.
  intros Hm Hb.
  assert (∀ tomb, om_tombstones m !! k = Some tomb → (tomb < om_counter m + 1)%N) as Hlt
    by (intros tomb Ht; apply (om_wf_tomb m Hm) in Ht; lia).
  split_and!; auto using ormap_wf_put, ormap_wf_remove.
  - apply (ORMap_get_visible _ k (om_counter m + 1)); simpl; [|done].
    by rewrite ORMap_tag_fresh, lookup_insert_eq.
  - unfold ORMap_get, ORMap_remove.
    destruct (om_entries m !! k) as [[t w]|] eqn:E; simpl; rewrite E; [|done].
    unfold ORMap_visible. simpl. by rewrite lookup_insert_eq, N.leb_refl.
  - apply (ORMap_get_visible _ k (om_counter m + 1)); simpl; [|done].
    rewrite ORMap_tag_fresh by done.
    destruct (om_entries m !! k) as [[t w]|]; by rewrite lookup_insert_eq.
  - intros Hne. unfold ORMap_get, ORMap_remove, ORMap_update, ORMap_visible. split_and!.
    + simpl. by rewrite lookup_insert_ne.
    + destruct (om_entries m !! k) as [[t w]|]; simpl; [|done]. by rewrite lookup_insert_ne.
    + simpl. destruct (om_entries m !! k) as [[t w]|]; simpl; by rewrite lookup_insert_ne.
Qed.

(** A [put] wins over a removal made at a replica whose counter is not ahead:
    after the merge the key is readable, its value being the merge of the put value
    with what the remover still stores for the key. *)
Theorem ORMap_put_wins a b k v :
  ormap_wf a → ormap_wf b → (om_counter a < u64_max)%N → (om_counter b ≤ om_counter a)%N →
  ORMap_get k (crdt_merge (ORMap_put k v a) (ORMap_remove k b)) =
    Some (match om_entries b !! k with Some (_, w) => crdt_merge v w | None => v end).
Proof.
  intros Ha Hb Hc Hle.
  pose proof (ormap_wf_remove k b Hb) as Hb'.
  assert (om_counter (ORMap_remove k b) = om_counter b) as Hcb.
  { unfold ORMap_remove. by destruct (om_entries b !! k) as [[? ?]|]. }
  assert (om_entries (ORMap_remove k b) = om_entries b) as Heb.
  { unfold ORMap_remove. by destruct (om_entries b !! k) as [[? ?]|]. }
  apply (ORMap_get_visible _ k (om_counter a + 1)).
  - simpl. rewrite lookup_merge_entries, lookup_insert_eq, ORMap_tag_fresh, Heb by done.
    destruct (om_entries b !! k) as [[t w]|] eqn:E; simpl; [|done].
    apply (om_wf_entry b Hb) in E. unfold tagged_merge. simpl. do 2 f_equal. lia.
  - intros tomb. simpl. rewrite lookup_merge_entries. unfold join_entry.
    destruct (om_tombstones (ORMap_remove k b) !! k) eqn:E1, (om_tombstones a !! k) eqn:E2;
      intros; simplify_eq/=;
      try (apply (om_wf_tomb _ Hb') in E1); try (apply (om_wf_tomb a Ha) in E2); lia.
Qed.
End ormap_ops.

Lemma ORMap_wf_new K V `{Countable K} : ormap_wf (ORMap_new (K:=K) (V:=V)).
Proof. split; intros; simpl in *; simplify_map_eq. Qed.

Lemma ORMap_sequential_witness :
  ORMap_get "k" (ORMap_remove "k" (ORMap_put "k" (Flag_switch_on Flag_new) ORMap_new)) = None.
Proof.
  refine (proj1 (proj2 (ORMap_sequential (ORMap_put "k" (Flag_switch_on Flag_new) ORMap_new)
    "k" "j" Flag_new _ eq_refl))).
  apply ormap_wf_put; [reflexivity|apply ORMap_wf_new].
Defined.

Lemma ORMap_put_wins_witness :
  ORMap_get "k" (crdt_merge (ORMap_put "k" Flag_new (ORMap_put "k" Flag_new ORMap_new))
    (ORMap_remove "k" (ORMap_put "k" Flag_new ORMap_new))) = Some Flag_new.
Proof.
  assert (ormap_wf (ORMap_put "k" Flag_new ORMap_new)) as Hwf
    by (apply ormap_wf_put; [reflexivity|apply ORMap_wf_new]).
  exact (ORMap_put_wins (ORMap_put "k" Flag_new ORMap_new) (ORMap_put "k" Flag_new ORMap_new)
    "k" Flag_new Hwf Hwf eq_refl (N.le_refl _)).
Defined.

(** ** LWWMap: lemmas and properties *)

Section lwwmap_ops.
Context {K V : Type} `{Countable K}.
Implicit Types (m a b c : LWWMap K V).

(** Equal timestamps at a key carry equal values. *)
Definition lwwmap_coherent a b : Prop :=
  ∀ k t v w, lm_entries a !! k = Some (t, v) → lm_entries b !! k = Some (t, w) → v = w.

(** The timestamp of the last write a replica knows for a key. *)
Definition lww_stamp m (k : K) : option N := fst <$> lm_entries m !! k.

Lemma LWWMap_merge_assoc a b c :
  crdt_merge a (crdt_merge b c) = crdt_merge (crdt_merge a b) c.
Proof.
  unfold crdt_merge, LWWMap_merge. simpl. f_equal. apply map_eq. intros k.
  rewrite !lookup_merge_entries. unfold LWWMap_entry.
  destruct (lm_entries a !! k) as [[ta va]|], (lm_entries b !! k) as [[tb vb]|],
           (lm_entries c !! k) as [[tc vc]|]; simpl; try done;
    repeat (case_match; simpl in * ); bool_to_prop; done || lia.
Qed.

Lemma LWWMap_merge_idem a : crdt_merge a a = a.
Proof.
  destruct a as [e]. unfold crdt_merge, LWWMap_merge. simpl. f_equal. apply map_eq. intros k.
  rewrite lookup_merge_entries. unfold LWWMap_entry.
  destruct (e !! k) as [[t v]|] eqn:E; [|done]. simpl. by rewrite N.leb_refl.
Qed.

Lemma LWWMap_merge_comm a b : lwwmap_coherent a b → crdt_merge a b = crdt_merge b a.
Proof.
  intros Hc. unfold crdt_merge, LWWMap_merge. f_equal. apply map_eq. intros k.
  rewrite !lookup_merge_entries. unfold LWWMap_entry.
  destruct (lm_entries a !! k) as [[ta va]|] eqn:Ea,
           (lm_entries b !! k) as [[tb vb]|] eqn:Eb; simpl; try done.
  destruct (N.leb_spec tb ta), (N.leb_spec ta tb); try done; [|lia].
  assert (ta = tb) as -> by lia. by rewrite (Hc k tb va vb).
Qed.

(** The last-writer-wins map keeps, at every key, the value of the greatest
    timestamp: an older or equal [put] is dropped and a newer one takes effect, a
    merge takes the later entry of the two sides, and merging is associative,
    idempotent and, when equal timestamps carry equal values, commutative. *)
Theorem LWWMap_last_write_wins a b c k v t :
  (∀ t', lww_stamp a k = Some t' → (t ≤ t')%N → LWWMap_put k v t a = a) ∧
  ((∀ t', lww_stamp a k = Some t' → (t' < t)%N) →
     LWWMap_get k (LWWMap_put k v t a) = Some v ∧
     lww_stamp (LWWMap_put k v t a) k = Some t) ∧
  (∀ ta tb, lww_stamp a k = Some ta → lww_stamp b k = Some tb →
     LWWMap_get k (crdt_merge a b) = LWWMap_get k (if (tb <=? ta)%N then a else b) ∧
     lww_stamp (crdt_merge a b) k = Some (N.max ta tb)) ∧
  crdt_merge a (crdt_merge b c) = crdt_merge (crdt_merge a b) c ∧
  crdt_merge a a = a ∧
  (lwwmap_coherent a b → crdt_merge a b = crdt_merge b a).
Proof.
  split_and!; auto using LWWMap_merge_assoc, LWWMap_merge_idem, LWWMap_merge_comm.
  - unfold LWWMap_put, lww_stamp. intros t' Ht' Hle.
    destruct (lm_entries a !! k) as [[t'' w]|]; simplify_eq/=.
    by rewrite (proj2 (N.leb_le t t')).
  - unfold LWWMap_put, LWWMap_get, lww_stamp. intros Hlt.
    destruct (lm_entries a !! k) as [[t' w]|]; simpl in *;
      [destruct (N.leb_spec t t'); [specialize (Hlt t' eq_refl); lia|]|]; simpl;
      by rewrite lookup_insert_eq.
  - unfold LWWMap_get, lww_stamp. intros ta tb Ha Hb. simpl. rewrite lookup_merge_entries.
    destruct (lm_entries a !! k) as [[ta' va]|] eqn:Ea; simplify_eq/=.
    destruct (lm_entries b !! k) as [[tb' vb]|] eqn:Eb; simplify_eq/=.
    destruct (N.leb_spec tb ta); simpl; rewrite ?Ea, ?Eb; split; simpl; f_equal; lia || done.
Qed.
End lwwmap_ops.

Lemma LWWMap_last_write_wins_witness :
  let a := LWWMap_put "k" 1 200%N LWWMap_new in
  let b := LWWMap_put "k" 2 100%N LWWMap_new in
  crdt_merge a b = crdt_merge b a.
Proof.
  refine (proj2 (proj2 (proj2 (proj2 (proj2 (LWWMap_last_write_wins
    (LWWMap_put "k" 1 200%N LWWMap_new) (LWWMap_put "k" 2 100%N LWWMap_new)
    LWWMap_new "k" 0 0%N))))) _).
  intros k t v w.
  change (lm_entries (LWWMap_put "k" 1 200%N LWWMap_new)) with ({["k" := (200%N, 1)]} : gmap string (N * nat)).
  change (lm_entries (LWWMap_put "k" 2 100%N LWWMap_new)) with ({["k" := (100%N, 2)]} : gmap string (N * nat)).
  intros [_ ?]%lookup_singleton_Some [_ ?]%lookup_singleton_Some. congruence.
Defined.

(** Two writes with one timestamp make the two merge orders keep different values:
    the map has no node to break the tie. *)
Lemma LWWMap_merge_not_commutative :
  let a := LWWMap_put "k" 1 7%N LWWMap_new in
  let b := LWWMap_put "k" 2 7%N LWWMap_new in
  LWWMap_get "k" (crdt_merge a b) ≠ LWWMap_get "k" (crdt_merge b a).
Proof. by vm_compute. Qed.

(** An [update] of a removed key merges into the value the removal left stored, so
    the removed contributions become readable again. *)
Lemma ORMap_update_resurrects :
  let m := ORMap_remove "k" (ORMap_put "k" (GCounter_increment "n" 5 GCounter_new) ORMap_new) in
  ORMap_get "k" m = None ∧
  (GCounter_value <$> ORMap_get "k" (ORMap_update "k" (GCounter_increment "m" 1 GCounter_new) m))
  = Some 6%N.
Proof. by vm_compute. Qed.

(** ** The semilattice laws of the maps *)

(** The observed-remove map of any lawful value type, the map of PN-counters and
    the observed-remove multimap are join-semilattices: merging well-formed states is
    commutative, associative and idempotent up to observable equality, and keeps them
    well formed. *)
Theorem maps_semilattice {K V W} `{Countable K} `{CrdtLaws V} `{Countable W} :
  (∀ a b c : ORMap K V, crdt_wf a → crdt_wf b → crdt_wf c →
     crdt_wf (crdt_merge a b) ∧
     crdt_equiv (crdt_merge a b) (crdt_merge b a) ∧
     crdt_equiv (crdt_merge a (crdt_merge b c)) (crdt_merge (crdt_merge a b) c) ∧
     crdt_equiv (crdt_merge a a) a) ∧
  (∀ a b c : PNCounterMap K,
     crdt_equiv (crdt_merge a b) (crdt_merge b a) ∧
     crdt_equiv (crdt_merge a (crdt_merge b c)) (crdt_merge (crdt_merge a b) c) ∧
     crdt_equiv (crdt_merge a a) a) ∧
  (∀ a b c : ORMultiMap K W, crdt_wf a → crdt_wf b → crdt_wf c →
     crdt_wf (crdt_merge a b) ∧
     crdt_equiv (crdt_merge a b) (crdt_merge b a) ∧
     crdt_equiv (crdt_merge a (crdt_merge b c)) (crdt_merge (crdt_merge a b) c) ∧
     crdt_equiv (crdt_merge a a) a).
Proof.
  split_and!; intros; split_and!;
    auto using crdt_merge_wf, crdt_merge_comm, crdt_merge_assoc, crdt_merge_idem;
    first [by apply (crdt_merge_comm (A := PNCounterMap K))
          |by apply (crdt_merge_assoc (A := PNCounterMap K))
          |by apply (crdt_merge_idem (A := PNCounterMap K))].
Qed.

Lemma maps_semilattice_witness :
  let a : ORMap string Flag := ORMap_put "k" Flag_new ORMap_new in
  let b : ORMap string Flag := ORMap_put "j" (Flag_switch_on Flag_new) ORMap_new in
  crdt_equiv (crdt_merge a b) (crdt_merge b a).
Proof.
  intros a b.
  assert (∀ m : ORMap string Flag, crdt_wf m) as Hwf by (intros m k v _; exact I).
  exact (proj1 (proj2 (proj1 (maps_semilattice (K:=string) (V:=Flag) (W:=string))
    a b b (Hwf a) (Hwf b) (Hwf b)))).
Defined.

(** ** Nested maps: the operations *)

Lemma PNCounterMap_value_other {K} `{Countable K} (m : PNCounterMap K) k j node d :
  j ≠ k →
  PNCounterMap_value j (PNCounterMap_increment k node d m) = PNCounterMap_value j m ∧
  PNCounterMap_value j (PNCounterMap_decrement k node d m) = PNCounterMap_value j m.
Proof.
  intros Hne. unfold PNCounterMap_value. simpl.
  rewrite !lookup_entry_update, !decide_False by congruence. done.
Qed.

Lemma ORMultiMap_contains_spec {K V} `{Countable K} `{Countable V}
    (m : ORMultiMap K V) k v :
  ORMultiMap_contains k v m = true ↔
  ∃ s, mm_entries m !! k = Some s ∧ os_member s v.
Proof.
  unfold ORMultiMap_contains. destruct (mm_entries m !! k) as [s|]; simpl.
  - rewrite OrSet_contains_spec. naive_solver.
  - naive_solver.
Qed.
