(* ===== verification/SignedSum.v ===== *)
(** * Signed exposure sums ([crates/atomr-distributed-data/src/signed_sum.rs])

    [HashMap<String, i128>] is a [gmap string Z]; accumulation and the final reduction
    saturate at the [i128] bounds, as in the code.  The accumulators stay in
    [[0, i128::MAX]]; under that invariant the merge is a join, the saturating sums do
    not depend on the iteration order of the hash map, and the value is the exact
    difference of the two saturated sums. *)

From stdpp Require Import gmap strings.
From Stdlib Require Import ZArith Lia.
From S2P Require Import Prelude Crdt.
Local Open Scope Z_scope.

Record SignedSum := mkSignedSum {
  ss_pos : gmap string Z;
  ss_neg : gmap string Z;
  ss_pending_pos : gmap string Z;
  ss_pending_neg : gmap string Z;
}.

Definition SignedSum_new : SignedSum := mkSignedSum ∅ ∅ ∅ ∅.

(** [let slot = map.entry(key).or_default(); *slot = slot.saturating_add(amount);] *)
Definition add_into (m : gmap string Z) (key : string) (amount : Z) : gmap string Z :=
  entry_update 0 (λ slot, i128_sat_add slot amount) key m.

(** [delta.checked_neg().unwrap_or(i128::MAX)] *)
Definition neg_magnitude (delta : Z) : Z :=
  if (delta =? i128_min) then i128_max else - delta.

Definition SignedSum_add (node : string) (delta : Z) (s : SignedSum) : SignedSum :=
  if (0 <=? delta) then
    mkSignedSum (add_into (ss_pos s) node delta) (ss_neg s)
                (add_into (ss_pending_pos s) node delta) (ss_pending_neg s)
  else
    let mag := neg_magnitude delta in
    mkSignedSum (ss_pos s) (add_into (ss_neg s) node mag)
                (ss_pending_pos s) (add_into (ss_pending_neg s) node mag).

(** [map.values().fold(0i128, |acc, &v| acc.saturating_add(v))] *)
Definition saturating_sum (m : gmap string Z) : Z :=
  map_fold (λ _ v acc, i128_sat_add acc v) 0 m.

Definition SignedSum_value (s : SignedSum) : Z :=
  i128_sat_sub (saturating_sum (ss_pos s)) (saturating_sum (ss_neg s)).

#[export] Instance SignedSum_merge : CrdtMerge SignedSum := λ self other,
  mkSignedSum (merge_entries (join_entry Z.max 0) (ss_pos self) (ss_pos other))
              (merge_entries (join_entry Z.max 0) (ss_neg self) (ss_neg other))
              (ss_pending_pos self) (ss_pending_neg self).

Record SignedSumDelta := mkSignedSumDelta { sd_pos : gmap string Z; sd_neg : gmap string Z }.

Definition SignedSum_take_delta (s : SignedSum) : option SignedSumDelta * SignedSum :=
  if decide (ss_pending_pos s = ∅ ∧ ss_pending_neg s = ∅) then (None, s)
  else (Some (mkSignedSumDelta (ss_pending_pos s) (ss_pending_neg s)),
        mkSignedSum (ss_pos s) (ss_neg s) ∅ ∅).

Definition SignedSum_merge_delta (s : SignedSum) (d : SignedSumDelta) : SignedSum :=
  mkSignedSum (merge_entries (λ o v, i128_sat_add (default 0 o) v) (ss_pos s) (sd_pos d))
              (merge_entries (λ o v, i128_sat_add (default 0 o) v) (ss_neg s) (sd_neg d))
              (ss_pending_pos s) (ss_pending_neg s).

#[export] Instance SignedSum_delta : DeltaCrdt SignedSum SignedSumDelta :=
  {| take_delta := SignedSum_take_delta; merge_delta := SignedSum_merge_delta |}.

(** ** SignedSumMap *)

Record SignedSumMap (K : Type) `{Countable K} := mkSignedSumMap { sm_entries : gmap K SignedSum }.
Arguments mkSignedSumMap {K _ _}.
Arguments sm_entries {K _ _}.

Section signed_sum_map.
Context {K : Type} `{Countable K}.

Definition SignedSumMap_new : SignedSumMap K := mkSignedSumMap ∅.

Definition SignedSumMap_add (key : K) (node : string) (delta : Z) (m : SignedSumMap K)
    : SignedSumMap K :=
  mkSignedSumMap (entry_update SignedSum_new (SignedSum_add node delta) key (sm_entries m)).

Definition SignedSumMap_get (key : K) (m : SignedSumMap K) : Z :=
  default 0 (SignedSum_value <$> sm_entries m !! key).

#[export] Instance SignedSumMap_merge : CrdtMerge (SignedSumMap K) := λ self other,
  mkSignedSumMap (merge_entries (default_entry SignedSum_new) (sm_entries self) (sm_entries other)).
End signed_sum_map.

(** ** Specification *)

(** Accumulators are magnitudes that fit an [i128]. *)
Definition acc_ok (v : Z) : Prop := 0 ≤ v ≤ i128_max.

Record signed_sum_wf (s : SignedSum) : Prop := {
  wf_pos : map_Forall (λ _, acc_ok) (ss_pos s);
  wf_neg : map_Forall (λ _, acc_ok) (ss_neg s);
}.

(** What is replicated: the accumulators, not the pending deltas. *)
Definition signed_sum_equiv (a b : SignedSum) : Prop := ss_pos a = ss_pos b ∧ ss_neg a = ss_neg b.

(** The exact sum of a map's values. *)
Definition exact_sum (m : gmap string Z) : Z := map_fold (λ _ v acc, v + acc) 0 m.

(** ** Lemmas on saturating sums *)

Definition list_sum (l : list Z) : Z := foldr Z.add 0 l.

Lemma list_sum_nonneg l : Forall acc_ok l → 0 ≤ list_sum l.
Proof. induction 1 as [|v l Hv Hl IH]; simpl; unfold acc_ok in *; lia. Qed.

#[export] Instance list_sum_perm : Proper ((≡ₚ) ==> (=)) list_sum.
Proof. induction 1; simpl; lia. Qed.

(** Saturating addition of non-negative numbers, in either fold direction, is the
    exact sum capped at the top. *)
Lemma sat_foldl l a :
  acc_ok a → Forall acc_ok l →
  foldl i128_sat_add a l = Z.min i128_max (a + list_sum l).
Proof.
  intros Ha Hl. revert a Ha. induction Hl as [|v l Hv Hl IH]; intros a Ha; simpl.
  - unfold acc_ok in *. lia.
  - pose proof (list_sum_nonneg l Hl). unfold acc_ok in *.
    rewrite IH; unfold i128_sat_add, i128_clamp, i128_min, i128_max in *; lia.
Qed.

Lemma sat_foldr l :
  Forall acc_ok l → foldr (λ v acc, i128_sat_add acc v) 0 l = Z.min i128_max (list_sum l).
Proof.
  induction 1 as [|v l Hv Hl IH]; simpl.
  - unfold i128_max. lia.
  - pose proof (list_sum_nonneg l Hl). unfold acc_ok in *.
    rewrite IH. unfold i128_sat_add, i128_clamp, i128_min, i128_max in *. lia.
Qed.

Lemma map_values_ok (m : gmap string Z) :
  map_Forall (λ _, acc_ok) m ↔ Forall acc_ok (map_to_list m).*2.
Proof.
  rewrite map_Forall_to_list, Forall_fmap. apply Forall_iff. by intros [].
Qed.

Lemma exact_sum_list m : exact_sum m = list_sum (map_to_list m).*2.
Proof.
  unfold exact_sum. rewrite map_fold_foldr. unfold list_sum.
  induction (map_to_list m) as [|[k v] l IH]; simpl; [done|]. by rewrite IH.
Qed.

Lemma saturating_sum_spec m :
  map_Forall (λ _, acc_ok) m → saturating_sum m = Z.min i128_max (exact_sum m).
Proof.
  intros Hm%map_values_ok. unfold saturating_sum. rewrite exact_sum_list, map_fold_foldr.
  rewrite <- sat_foldr by done.
  induction (map_to_list m) as [|[k v] l IH]; [done|]. simpl in *.
  apply Forall_cons in Hm as [? ?]. by rewrite IH.
Qed.

Lemma exact_sum_nonneg m : map_Forall (λ _, acc_ok) m → 0 ≤ exact_sum m.
Proof. intros Hm%map_values_ok. rewrite exact_sum_list. by apply list_sum_nonneg. Qed.

Lemma exact_sum_insert m k v : m !! k = None → exact_sum (<[k := v]> m) = v + exact_sum m.
Proof.
  intros Hk. unfold exact_sum. rewrite (map_fold_insert_L (M:=gmap string)); auto.
  intros. lia.
Qed.

Lemma exact_sum_delete m k : exact_sum m = default 0 (m !! k) + exact_sum (delete k m).
Proof.
  destruct (m !! k) as [v|] eqn:E; simpl.
  - rewrite <- (insert_delete_id m k v E) at 1.
    rewrite exact_sum_insert; [done|]. by rewrite lookup_delete_eq.
  - by rewrite delete_id.
Qed.

Lemma exact_sum_add_into m k d :
  exact_sum (add_into m k d) = exact_sum m - default 0 (m !! k) + i128_sat_add (default 0 (m !! k)) d.
Proof.
  unfold add_into, entry_update.
  rewrite (exact_sum_delete _ k), (exact_sum_delete m k), lookup_insert_eq, delete_insert_eq.
  simpl. lia.
Qed.

Lemma add_into_ok m k d :
  0 ≤ d → map_Forall (λ _, acc_ok) m → map_Forall (λ _, acc_ok) (add_into m k d).
Proof.
  intros Hd Hm. apply map_Forall_insert_2; [|done].
  assert (acc_ok (default 0 (m !! k))) as Hs.
  { destruct (m !! k) eqn:E; simpl; [by eapply Hm|]. unfold acc_ok, i128_max. lia. }
  unfold acc_ok, i128_sat_add, i128_clamp, i128_min, i128_max in *. lia.
Qed.

Lemma neg_magnitude_ok d : i128_min ≤ d < 0 → acc_ok (neg_magnitude d).
Proof.
  unfold neg_magnitude, acc_ok, i128_min, i128_max. intros. destruct (Z.eqb_spec d (- 2 ^ 127)); lia.
Qed.

Lemma signed_sum_wf_add node d s :
  i128_min ≤ d ≤ i128_max → signed_sum_wf s → signed_sum_wf (SignedSum_add node d s).
Proof.
  intros Hd [Hp Hn]. unfold SignedSum_add. destruct (Z.leb_spec 0 d); split; simpl; auto.
  - by apply add_into_ok.
  - apply add_into_ok; [|done]. apply neg_magnitude_ok. lia.
Qed.

Lemma signed_sum_wf_new : signed_sum_wf SignedSum_new.
Proof. split; apply map_Forall_empty. Qed.

(** ** Laws *)

#[export] Instance signed_sum_equiv_equivalence : Equivalence signed_sum_equiv.
Proof.
  split.
  - intros a. by split.
  - intros a b [? ?]. by split.
  - intros a b c [? ?] [? ?]. split; by etrans.
Qed.

(** The join of non-negative accumulators. *)
Lemma join_lookup (m1 m2 : gmap string Z) k :
  map_Forall (λ _, acc_ok) m1 → map_Forall (λ _, acc_ok) m2 →
  merge_entries (join_entry Z.max 0) m1 m2 !! k =
  union_with (λ a b, Some (Z.max a b)) (m1 !! k) (m2 !! k).
Proof.
  intros H1 H2. rewrite lookup_merge_entries. unfold join_entry.
  destruct (m2 !! k) as [v|] eqn:E2, (m1 !! k) as [w|] eqn:E1; simpl; try done.
  apply H2 in E2. unfold acc_ok in E2. f_equal. lia.
Qed.

Lemma join_ok (m1 m2 : gmap string Z) :
  map_Forall (λ _, acc_ok) m1 → map_Forall (λ _, acc_ok) m2 →
  map_Forall (λ _, acc_ok) (merge_entries (join_entry Z.max 0) m1 m2).
Proof.
  intros H1 H2. apply merge_entries_Forall; [|done]. intros o w Ho [k Hk].
  apply H2 in Hk. unfold join_entry, acc_ok in *.
  destruct o as [v|]; simpl; [specialize (Ho v eq_refl)|]; lia.
Qed.

Lemma join_comm (m1 m2 : gmap string Z) :
  map_Forall (λ _, acc_ok) m1 → map_Forall (λ _, acc_ok) m2 →
  merge_entries (join_entry Z.max 0) m1 m2 = merge_entries (join_entry Z.max 0) m2 m1.
Proof.
  intros. apply map_eq. intros k. rewrite !join_lookup by done.
  destruct (m1 !! k), (m2 !! k); simpl; f_equal; lia.
Qed.

Lemma join_assoc (m1 m2 m3 : gmap string Z) :
  map_Forall (λ _, acc_ok) m1 → map_Forall (λ _, acc_ok) m2 → map_Forall (λ _, acc_ok) m3 →
  merge_entries (join_entry Z.max 0) m1 (merge_entries (join_entry Z.max 0) m2 m3) =
  merge_entries (join_entry Z.max 0) (merge_entries (join_entry Z.max 0) m1 m2) m3.
Proof.
  intros. apply map_eq. intros k. rewrite !join_lookup by auto using join_ok.
  destruct (m1 !! k), (m2 !! k), (m3 !! k); simpl; f_equal; lia.
Qed.

Lemma join_idem (m : gmap string Z) : merge_entries (join_entry Z.max 0) m m = m.
Proof.
  apply map_eq. intros k. rewrite lookup_merge_entries. unfold join_entry.
  destruct (m !! k) eqn:E; simpl; [|done]. f_equal. lia.
Qed.

#[export] Instance SignedSum_laws : CrdtLaws SignedSum.
Proof.
  refine {| crdt_wf := signed_sum_wf; crdt_equiv := signed_sum_equiv |}.
  - intros a a' [Ha1 Ha2] b b' [Hb1 Hb2]. split; simpl; congruence.
  - intros a b [? ?] [? ?]. split; by apply join_ok.
  - intros a b [? ?] [? ?]. split; by apply join_comm.
  - intros a b c [? ?] [? ?] [? ?]. split; by apply join_assoc.
  - intros a _. split; apply join_idem.
Defined.

Lemma SignedSum_merge_new w : signed_sum_wf w → signed_sum_equiv (crdt_merge SignedSum_new w) w.
Proof.
  intros [Hp Hn]. split; apply map_eq; intros k; simpl;
    rewrite join_lookup by (done || apply map_Forall_empty);
    rewrite lookup_empty; by destruct (_ !! k).
Qed.

#[export] Instance SignedSumMap_laws {K} `{Countable K} : CrdtLaws (SignedSumMap K) :=
  default_map_laws SignedSum_new signed_sum_wf_new SignedSum_merge_new sm_entries mkSignedSumMap
    (λ _, eq_refl).

(** ** Properties *)

Lemma slot_le_sum m k : map_Forall (λ _, acc_ok) m → 0 ≤ default 0 (m !! k) ≤ exact_sum m.
Proof.
  intros Hm. rewrite (exact_sum_delete m k).
  assert (0 ≤ exact_sum (delete k m)).
  { apply exact_sum_nonneg. by apply map_Forall_delete. }
  destruct (m !! k) as [v|] eqn:E; simpl; [|lia]. apply Hm in E. unfold acc_ok in E. lia.
Qed.

(** An addition that stays in range is exact. *)
Lemma exact_sum_add_into_small m k d :
  map_Forall (λ _, acc_ok) m → 0 ≤ d → exact_sum m + d ≤ i128_max →
  exact_sum (add_into m k d) = exact_sum m + d.
Proof.
  intros Hm Hd Hb. rewrite exact_sum_add_into. pose proof (slot_le_sum m k Hm).
  unfold i128_sat_add. rewrite i128_clamp_id; [lia|]. unfold i128_min, i128_max in *. lia.
Qed.

Lemma join_add_into m k d :
  map_Forall (λ _, acc_ok) m → 0 ≤ d →
  merge_entries (join_entry Z.max 0) m (add_into m k d) = add_into m k d.
Proof.
  intros Hm Hd. apply map_eq. intros j. rewrite join_lookup by auto using add_into_ok.
  unfold add_into. rewrite lookup_entry_update. case_decide; subst;
    [|destruct (m !! j); simpl; f_equal; lia].
  destruct (m !! j) as [v|] eqn:E; simpl; [|done]. apply Hm in E.
  unfold acc_ok, i128_sat_add, i128_clamp, i128_min, i128_max in *. f_equal. lia.
Qed.

(** The net exposure is the exact difference of the two per-sign totals, each
    capped at [i128::MAX]; it never wraps, never reaches [i128::MIN], and does not
    depend on the order in which the hash map yields its values. *)
Theorem SignedSum_value_exact s :
  signed_sum_wf s →
  SignedSum_value s = Z.min i128_max (exact_sum (ss_pos s)) - Z.min i128_max (exact_sum (ss_neg s)) ∧
  i128_min < SignedSum_value s ≤ i128_max ∧
  (∀ l, l ≡ₚ (map_to_list (ss_pos s)).*2 →
     foldl i128_sat_add 0 l = saturating_sum (ss_pos s)).
Proof.
  intros [Hp Hn]. pose proof (exact_sum_nonneg _ Hp). pose proof (exact_sum_nonneg _ Hn).
  assert (SignedSum_value s =
    Z.min i128_max (exact_sum (ss_pos s)) - Z.min i128_max (exact_sum (ss_neg s))) as Hv.
  { unfold SignedSum_value. rewrite !saturating_sum_spec by done. unfold i128_sat_sub.
    apply i128_clamp_id. unfold i128_min, i128_max in *. lia. }
  split_and!; [done|rewrite Hv; unfold i128_min, i128_max in *; lia..|].
  intros l Hl. rewrite saturating_sum_spec, exact_sum_list by done.
  rewrite sat_foldl, Hl; [done|unfold acc_ok, i128_max; lia|].
  rewrite Hl. by apply map_values_ok.
Qed.

Lemma SignedSum_value_exact_witness :
  i128_min < SignedSum_value (SignedSum_add "n1" i128_min SignedSum_new) ≤ i128_max.
Proof.
  refine (proj1 (proj2 (SignedSum_value_exact (SignedSum_add "n1" i128_min SignedSum_new) _))).
  apply signed_sum_wf_add; [split; vm_compute; discriminate|apply signed_sum_wf_new].
Defined.

(** [add] keeps the accumulators well formed and moves the state up in the merge
    order for every [i128] amount, and changes the value by exactly the amount as long
    as the running totals fit an [i128]. *)
Theorem SignedSum_add_effect s node d :
  signed_sum_wf s → i128_min ≤ d ≤ i128_max →
  signed_sum_wf (SignedSum_add node d s) ∧
  crdt_le s (SignedSum_add node d s) ∧
  (exact_sum (ss_pos s) + Z.max 0 d ≤ i128_max →
   exact_sum (ss_neg s) + Z.max 0 (- d) ≤ i128_max →
   SignedSum_value (SignedSum_add node d s) = SignedSum_value s + d).
Proof.
  intros Hs Hd. split_and!; [by apply signed_sum_wf_add|..].
  - destruct Hs as [Hp Hn]. unfold SignedSum_add. destruct (Z.leb_spec 0 d);
      split; simpl; auto using join_idem, join_add_into.
    apply join_add_into; [done|]. apply neg_magnitude_ok. lia.
  - intros Hbp Hbn. pose proof (signed_sum_wf_add node d s Hd Hs) as [Hp' Hn'].
    destruct Hs as [Hp Hn]. unfold SignedSum_value. rewrite !saturating_sum_spec by done.
    pose proof (exact_sum_nonneg _ Hp). pose proof (exact_sum_nonneg _ Hn).
    unfold i128_sat_sub. clear Hp' Hn'. unfold SignedSum_add. destruct (Z.leb_spec 0 d); simpl.
    + rewrite exact_sum_add_into_small by lia || done.
      rewrite !i128_clamp_id; unfold i128_min, i128_max in *; lia.
    + unfold neg_magnitude. destruct (Z.eqb_spec d i128_min).
      { unfold i128_min, i128_max in *. lia. }
      rewrite exact_sum_add_into_small by lia || done.
      rewrite !i128_clamp_id; unfold i128_min, i128_max in *; lia.
Qed.

Lemma SignedSum_add_effect_witness :
  SignedSum_value (SignedSum_add "n1" (-30) (SignedSum_add "n1" 100 SignedSum_new)) =
  SignedSum_value (SignedSum_add "n1" 100 SignedSum_new) + -30.
Proof.
  refine (proj2 (proj2 (SignedSum_add_effect (SignedSum_add "n1" 100 SignedSum_new) "n1" (-30)
    _ _)) _ _).
  - apply signed_sum_wf_add; [split; vm_compute; discriminate|apply signed_sum_wf_new].
  - split; vm_compute; discriminate.
  - vm_compute. discriminate.
  - vm_compute. discriminate.
Defined.

(** Signed sums and the maps of them are join-semilattices on well-formed states,
    so replicas of net exposures converge. *)
Theorem SignedSum_semilattice {K} `{Countable K} :
  (∀ a b c : SignedSum, signed_sum_wf a → signed_sum_wf b → signed_sum_wf c →
     signed_sum_wf (crdt_merge a b) ∧
     signed_sum_equiv (crdt_merge a b) (crdt_merge b a) ∧
     signed_sum_equiv (crdt_merge a (crdt_merge b c)) (crdt_merge (crdt_merge a b) c) ∧
     signed_sum_equiv (crdt_merge a a) a) ∧
  (∀ a b c : SignedSumMap K, crdt_wf a → crdt_wf b → crdt_wf c →
     crdt_wf (crdt_merge a b) ∧
     crdt_equiv (crdt_merge a b) (crdt_merge b a) ∧
     crdt_equiv (crdt_merge a (crdt_merge b c)) (crdt_merge (crdt_merge a b) c) ∧
     crdt_equiv (crdt_merge a a) a).
Proof.
  split; intros a b c Ha Hb Hc.
  - exact (conj (crdt_merge_wf a b Ha Hb) (conj (crdt_merge_comm a b Ha Hb)
      (conj (crdt_merge_assoc a b c Ha Hb Hc) (crdt_merge_idem a Ha)))).
  - exact (conj (crdt_merge_wf a b Ha Hb) (conj (crdt_merge_comm a b Ha Hb)
      (conj (crdt_merge_assoc a b c Ha Hb Hc) (crdt_merge_idem a Ha)))).
Qed.

Lemma SignedSum_semilattice_witness :
  signed_sum_equiv (crdt_merge SignedSum_new (SignedSum_add "n1" 5 SignedSum_new))
                   (crdt_merge (SignedSum_add "n1" 5 SignedSum_new) SignedSum_new).
Proof.
  assert (signed_sum_wf (SignedSum_add "n1" 5 SignedSum_new)) as Hwf.
  { apply signed_sum_wf_add; [split; vm_compute; discriminate|apply signed_sum_wf_new]. }
  exact (proj1 (proj2 (proj1 (SignedSum_semilattice (K:=string))
    SignedSum_new (SignedSum_add "n1" 5 SignedSum_new) SignedSum_new
    signed_sum_wf_new Hwf signed_sum_wf_new))).
Defined.
