(* ===== verification/Convergence.v ===== *)
(** * Convergence of the replicated data types ([crates/atomr-distributed-data/src])

    The laws of [Crdt.CrdtLaws], proved for the counters, the sets, the flag, the maps
    and the signed sums beside their definitions, are put together here into what a
    reader of the library sees: replicas that have merged the same states read the same
    values, and those values are determined by the states merged.  [LwwRegister] and
    [LWWMap] are not in the list: two writes of one node under one timestamp make their
    merges depend on the order ([Counters.LwwRegister_merge_not_commutative]). *)

From stdpp Require Import gmap strings.
From Stdlib Require Import NArith ZArith Lia.
From S2P Require Import Prelude Crdt Counters CrdtSets CrdtMaps SignedSum.

(** Two replicas that have merged the same set of states, each in its own order and any
    number of times. *)
Definition merged_alike {A} (x1 : A) (l1 : list A) (x2 : A) (l2 : list A) : Prop :=
  ∀ y, y ∈ x1 :: l1 ↔ y ∈ x2 :: l2.

(** ** The laws of the observed-remove sets hold of every state *)

Definition OrSet_all_laws {T} `{Countable T} : CrdtLaws (OrSet T).
Proof.
  refine {| crdt_wf := λ _, True; crdt_equiv := (=) |}; [done|..].
  - intros a b _ _. unfold crdt_merge, OrSet_merge.
    f_equal; [apply merge_entries_comm|apply merge_entries_comm|lia]; set_solver.
  - intros a b c _ _ _. unfold crdt_merge, OrSet_merge. simpl.
    f_equal; [apply merge_entries_assoc|apply merge_entries_assoc|lia]; set_solver.
  - intros [a r n] _. unfold crdt_merge, OrSet_merge. simpl.
    f_equal; [apply merge_entries_idem|apply merge_entries_idem|lia]; set_solver.
Defined.

Definition ORMultiMap_all_laws {K V} `{Countable K} `{Countable V} : CrdtLaws (ORMultiMap K V) :=
  default_map_laws (H0 := OrSet_merge) (H1 := OrSet_all_laws) OrSet_new I
    (λ w _, OrSet_merge_new w) mm_entries mkORMultiMap (λ _, eq_refl).

(** ** What a merge of several states reads as *)

(** A reader of the merged state that is a fold over the readers of the merged ones. *)
Lemma merge_all_read {A B} `{CrdtMerge A} (r : A → B) (op : B → B → B) (x : A) (l : list A) :
  (∀ a b, r (crdt_merge a b) = op (r a) (r b)) →
  r (merge_all x l) = foldl op (r x) (r <$> l).
Proof.
  intros Hop. revert x. induction l as [|y l IH]; intros x; simpl; [done|].
  by rewrite IH, Hop.
Qed.

(** A reader that answers yes or no, where merging is disjunction. *)
Lemma merge_all_some {A} `{CrdtMerge A} (P : A → Prop) (x : A) (l : list A) :
  (∀ a b, P (crdt_merge a b) ↔ P a ∨ P b) →
  P (merge_all x l) ↔ ∃ y, y ∈ x :: l ∧ P y.
Proof.
  intros Hor. revert x. induction l as [|z l IH]; intros x; simpl.
  - split; [by exists x; rewrite list_elem_of_singleton|].
    by intros (y & ->%list_elem_of_singleton & ?).
  - rewrite IH. pose proof (Hor x z). set_unfold. naive_solver.
Qed.

(** An upper bound that is attained. *)
Lemma merge_all_max {A} `{CrdtMerge A} (r : A → N) (x : A) (l : list A) :
  (∀ a b, r (crdt_merge a b) = N.max (r a) (r b)) →
  (∀ y, y ∈ x :: l → (r y ≤ r (merge_all x l))%N) ∧
  (∃ y, y ∈ x :: l ∧ r (merge_all x l) = r y).
Proof.
  intros Hmax. revert x. induction l as [|z l IH]; intros x; simpl.
  - split; [by intros y ->%list_elem_of_singleton|by exists x; rewrite list_elem_of_singleton].
  - destruct (IH (crdt_merge x z)) as [Hle (y & Hy & Heq)].
    pose proof (Hle (crdt_merge x z) ltac:(by left)) as Hhd. rewrite Hmax in Hhd.
    split.
    + intros w [->|[->|Hw]%elem_of_cons]%elem_of_cons; [lia..|]. apply Hle. by right.
    + apply elem_of_cons in Hy as [->|Hy]; [|exists y; split; [by do 2 right|done]].
      rewrite Hmax in Heq. destruct (N.max_dec (r x) (r z)) as [E|E].
      * exists x. split; [by left|]. lia.
      * exists z. split; [right; by left|]. lia.
Qed.

(** A counter's merge holds, for each node, the greatest count any merged state has. *)
Lemma GCounter_merge_all_max x l k :
  (∀ y, y ∈ x :: l → (gcount y k ≤ gcount (merge_all x l) k)%N) ∧
  (∃ y, y ∈ x :: l ∧ gcount (merge_all x l) k = gcount y k).
Proof. apply (merge_all_max (λ c, gcount c k)). intros. apply gcount_merge. Qed.

Lemma Flag_merge_all_some (x : Flag) l :
  enabled (merge_all x l) = true ↔ ∃ y, y ∈ x :: l ∧ enabled y = true.
Proof.
  apply (merge_all_some (λ f, enabled f = true)). intros a b. simpl. apply orb_true_iff.
Qed.

Lemma GSet_merge_all_some {T} `{Countable T} (x : GSet T) l t :
  GSet_contains t (merge_all x l) = true ↔ ∃ y, y ∈ x :: l ∧ GSet_contains t y = true.
Proof.
  apply (merge_all_some (λ s, GSet_contains t s = true)). intros a b.
  unfold GSet_contains. rewrite !bool_decide_eq_true, GSet_merge_items. set_solver.
Qed.

(** An element is present when some merged state has a tag of it that no merged state
    has removed. *)
Lemma OrSet_merge_all_member {T} `{Countable T} (x : OrSet T) l t :
  OrSet_contains t (merge_all x l) = true ↔
  ∃ tag, (∃ y, y ∈ x :: l ∧ tag ∈ add_tags y t) ∧ (∀ y, y ∈ x :: l → tag ∉ rem_tags y t).
Proof.
  rewrite OrSet_contains_spec. unfold os_member.
  assert (∀ tag, tag ∈ add_tags (merge_all x l) t ↔ ∃ y, y ∈ x :: l ∧ tag ∈ add_tags y t) as Ha.
  { intros tag. apply (merge_all_some (λ s, tag ∈ add_tags s t)). intros.
    rewrite add_tags_merge. set_solver. }
  assert (∀ tag, tag ∈ rem_tags (merge_all x l) t ↔ ∃ y, y ∈ x :: l ∧ tag ∈ rem_tags y t) as Hr.
  { intros tag. apply (merge_all_some (λ s, tag ∈ rem_tags s t)). intros.
    rewrite rem_tags_merge. set_solver. }
  setoid_rewrite Ha. setoid_rewrite Hr. naive_solver.
Qed.

(** ** Replicas agree *)

(** Observably equal states of the wrapper maps read the same at each key. *)
Lemma map_equiv_read {K V B} `{Countable K} `{CrdtLaws V} (r : V → B) (m1 m2 : gmap K V) k :
  (∀ a b, crdt_equiv a b → r a = r b) → map_equiv m1 m2 → r <$> m1 !! k = r <$> m2 !! k.
Proof. intros Hr Hm. destruct (Hm k); simpl; f_equal; auto. Qed.

Lemma PNCounter_value_equiv a b : pncounter_equiv a b → PNCounter_value a = PNCounter_value b.
Proof.
  intros [Hi Hd]. unfold gcounter_equiv in *. unfold PNCounter_value, GCounter_value.
  by rewrite Hi, Hd.
Qed.

Lemma SignedSum_value_equiv a b : signed_sum_equiv a b → SignedSum_value a = SignedSum_value b.
Proof. intros [Hp Hn]. unfold SignedSum_value. by rewrite Hp, Hn. Qed.

(** Where every state is well formed, [crdt_converges] needs no condition on the states. *)
Lemma replicas_agree {A} `{CrdtLaws A} (x1 x2 : A) (l1 l2 : list A) :
  (∀ x : A, crdt_wf x) → merged_alike x1 l1 x2 l2 →
  crdt_equiv (merge_all x1 l1) (merge_all x2 l2).
Proof. intros Hw Hs. by apply crdt_converges; [apply Forall_true..|]. Qed.

Lemma GCounter_agree x1 l1 x2 l2 :
  merged_alike x1 l1 x2 l2 → GCounter_value (merge_all x1 l1) = GCounter_value (merge_all x2 l2).
Proof.
  intros Hs. pose proof (replicas_agree x1 x2 l1 l2 (λ _, I) Hs) as E.
  unfold GCounter_value. by rewrite E.
Qed.

Lemma PNCounter_agree x1 l1 x2 l2 :
  merged_alike x1 l1 x2 l2 → PNCounter_value (merge_all x1 l1) = PNCounter_value (merge_all x2 l2).
Proof.
  intros Hs. apply PNCounter_value_equiv. exact (replicas_agree x1 x2 l1 l2 (λ _, I) Hs).
Qed.

Lemma OrSet_agree {T} `{Countable T} (x1 x2 : OrSet T) l1 l2 :
  merged_alike x1 l1 x2 l2 → merge_all x1 l1 = merge_all x2 l2.
Proof.
  exact (replicas_agree (H0 := OrSet_all_laws) x1 x2 l1 l2 (λ _, I)).
Qed.

Lemma PNCounterMap_agree {K} `{Countable K} (x1 x2 : PNCounterMap K) l1 l2 k :
  merged_alike x1 l1 x2 l2 →
  PNCounterMap_value k (merge_all x1 l1) = PNCounterMap_value k (merge_all x2 l2).
Proof.
  intros Hs. unfold PNCounterMap_value. f_equal.
  apply map_equiv_read; [apply PNCounter_value_equiv|].
  exact (replicas_agree x1 x2 l1 l2 (λ _ _ _ _, I) Hs).
Qed.

Lemma ORMultiMap_agree {K V} `{Countable K} `{Countable V} (x1 x2 : ORMultiMap K V) l1 l2 k v :
  merged_alike x1 l1 x2 l2 →
  ORMultiMap_contains k v (merge_all x1 l1) = ORMultiMap_contains k v (merge_all x2 l2).
Proof.
  intros Hs. unfold ORMultiMap_contains. f_equal.
  apply (map_equiv_read (H1 := OrSet_all_laws)); [by intros ? ? ->|].
  exact (replicas_agree (H0 := ORMultiMap_all_laws) x1 x2 l1 l2 (λ _ _ _ _, I) Hs).
Qed.

(** A map of counters that merge entry by entry under its tags and tombstones. *)
Lemma ORMap_agree {K} `{Countable K} (x1 x2 : ORMap K PNCounter) l1 l2 k :
  merged_alike x1 l1 x2 l2 →
  PNCounter_value <$> ORMap_get k (merge_all x1 l1) =
  PNCounter_value <$> ORMap_get k (merge_all x2 l2).
Proof.
  intros Hs.
  assert (∀ m : ORMap K PNCounter, crdt_wf m) as Hw by (by intros m j v ?).
  destruct (replicas_agree x1 x2 l1 l2 Hw Hs) as (He & Ht & _).
  unfold ORMap_get, ORMap_visible. rewrite Ht.
  destruct (He k) as [[t1 v1] [t2 v2] [Et Ev]|]; [|done]. simpl in *. subst t2.
  apply PNCounter_value_equiv in Ev.
  destruct (om_tombstones _ !! k); simpl; [case_match; simpl|]; congruence.
Qed.

Lemma SignedSum_agree x1 l1 x2 l2 :
  Forall signed_sum_wf (x1 :: l1) → merged_alike x1 l1 x2 l2 →
  SignedSum_value (merge_all x1 l1) = SignedSum_value (merge_all x2 l2).
Proof.
  intros Hw Hs. apply SignedSum_value_equiv. refine (crdt_converges x1 x2 l1 l2 Hw _ Hs).
  apply Forall_forall. intros y Hy. apply Hs in Hy. by eapply Forall_forall in Hy.
Qed.

(** C8: strong eventual consistency of the data types.  Two replicas that have merged the
    same states, each in its own order and any number of times, read the same: the value of
    a grow-only counter, of an up-down counter, of a signed sum (of accumulators in range),
    the flag, the members of a grow-only and of an observed-remove set, the counters of a
    [PNCounterMap] and of an [ORMap], the values of an [ORMultiMap].  And what they read is
    given by the merged states: a counter has, for each node, the greatest count among
    them; a flag is on, an element is in a grow-only set, when one of them says so; an
    element is in an observed-remove set when one of them holds a tag of it that none of
    them has removed. *)
Theorem crdts_converge {K T : Type} `{Countable K} `{Countable T} :
  (∀ x l k, (∀ y, y ∈ x :: l → (gcount y k ≤ gcount (merge_all x l) k)%N) ∧
            (∃ y, y ∈ x :: l ∧ gcount (merge_all x l) k = gcount y k)) ∧
  (∀ (x : Flag) l, enabled (merge_all x l) = true ↔ ∃ y, y ∈ x :: l ∧ enabled y = true) ∧
  (∀ (x : GSet T) l t,
     GSet_contains t (merge_all x l) = true ↔ ∃ y, y ∈ x :: l ∧ GSet_contains t y = true) ∧
  (∀ (x : OrSet T) l t,
     OrSet_contains t (merge_all x l) = true ↔
     ∃ tag, (∃ y, y ∈ x :: l ∧ tag ∈ add_tags y t) ∧ (∀ y, y ∈ x :: l → tag ∉ rem_tags y t)) ∧
  (∀ (x1 x2 : GCounter) l1 l2, merged_alike x1 l1 x2 l2 →
     GCounter_value (merge_all x1 l1) = GCounter_value (merge_all x2 l2)) ∧
  (∀ (x1 x2 : PNCounter) l1 l2, merged_alike x1 l1 x2 l2 →
     PNCounter_value (merge_all x1 l1) = PNCounter_value (merge_all x2 l2)) ∧
  (∀ (x1 x2 : SignedSum) l1 l2, Forall signed_sum_wf (x1 :: l1) → merged_alike x1 l1 x2 l2 →
     SignedSum_value (merge_all x1 l1) = SignedSum_value (merge_all x2 l2)) ∧
  (∀ (x1 x2 : OrSet T) l1 l2, merged_alike x1 l1 x2 l2 → merge_all x1 l1 = merge_all x2 l2) ∧
  (∀ (x1 x2 : PNCounterMap K) l1 l2 k, merged_alike x1 l1 x2 l2 →
     PNCounterMap_value k (merge_all x1 l1) = PNCounterMap_value k (merge_all x2 l2)) ∧
  (∀ (x1 x2 : ORMultiMap K T) l1 l2 k t, merged_alike x1 l1 x2 l2 →
     ORMultiMap_contains k t (merge_all x1 l1) = ORMultiMap_contains k t (merge_all x2 l2)) ∧
  (∀ (x1 x2 : ORMap K PNCounter) l1 l2 k, merged_alike x1 l1 x2 l2 →
     PNCounter_value <$> ORMap_get k (merge_all x1 l1) =
     PNCounter_value <$> ORMap_get k (merge_all x2 l2)).
Proof.
  split_and!; intros; auto using GCounter_agree, PNCounter_agree, SignedSum_agree, OrSet_agree,
    PNCounterMap_agree, ORMultiMap_agree, ORMap_agree.
  - apply GCounter_merge_all_max.
  - apply Flag_merge_all_some.
  - apply GSet_merge_all_some.
  - apply OrSet_merge_all_member.
Qed.

(** Three replicas: one set of states merged in two orders, once with a repetition. *)
Lemma crdts_converge_witness :
  let a := GCounter_increment "a" 1 GCounter_new in
  let b := GCounter_increment "b" 2 GCounter_new in
  let s := SignedSum_add "a" 5 SignedSum_new in
  let t := SignedSum_add "b" (-7) SignedSum_new in
  GCounter_value (merge_all a [b; a]) = GCounter_value (merge_all b [a]) ∧
  GCounter_value (merge_all b [a]) = 3%N ∧
  SignedSum_value (merge_all s [t; s]) = SignedSum_value (merge_all t [s]) ∧
  SignedSum_value (merge_all t [s]) = (-2)%Z.
Proof.
  intros a b s t.
  destruct (crdts_converge (K := string) (T := string)) as (_ & _ & _ & _ & Hg & _ & Hs & _).
  assert (∀ A (x y : A), merged_alike x [y; x] y [x]) as Hm
    by (intros A x y z; rewrite !elem_of_cons, elem_of_nil; tauto).
  split_and!.
  - by apply Hg.
  - reflexivity.
  - apply Hs; [|done]. repeat apply Forall_cons_2; try apply Forall_nil_2;
      (apply signed_sum_wf_add; [done|apply signed_sum_wf_new]).
  - reflexivity.
Defined.
