(* ===== verification/Replication.v ===== *)
(** * Consistency levels, aggregators and pruning
    ([crates/atomr-distributed-data/src/replicator.rs] (consistency levels),
    [pruning.rs])

    [usize] counts are [nat] ([saturating_sub] is truncated subtraction), rounds are
    [N], a [BTreeMap<String, PruningPhase>] is a [gmap]. *)

From stdpp Require Import gmap strings.
From Stdlib Require Import NArith Lia.
From S2P Require Import Prelude.

(** ** Consistency levels *)

(** [Duration], in nanoseconds. *)
Abbreviation Duration := N.

Inductive WriteConsistency :=
  | WLocal
  | WAll (timeout : Duration)
  | WMajority (timeout : Duration)
  | WFrom (n : nat) (timeout : Duration).

Inductive ReadConsistency :=
  | RLocal
  | RAll (timeout : Duration)
  | RMajority (timeout : Duration)
  | RFrom (n : nat) (timeout : Duration).

Definition required_acks (w : WriteConsistency) (cluster_size : nat) : nat :=
  match w with
  | WLocal => 1
  | WAll _ => cluster_size `max` 1
  | WMajority _ => cluster_size / 2 + 1
  | WFrom n _ => n `min` (cluster_size `max` 1)
  end.

Definition required_replies (r : ReadConsistency) (cluster_size : nat) : nat :=
  match r with
  | RLocal => 1
  | RAll _ => cluster_size `max` 1
  | RMajority _ => cluster_size / 2 + 1
  | RFrom n _ => n `min` (cluster_size `max` 1)
  end.

Definition write_timeout (w : WriteConsistency) : option Duration :=
  match w with
  | WLocal => None
  | WAll t | WMajority t | WFrom _ t => Some t
  end.

Definition read_timeout (r : ReadConsistency) : option Duration :=
  match r with
  | RLocal => None
  | RAll t | RMajority t | RFrom _ t => Some t
  end.

(** ** Aggregators *)

Record WriteAggregator := mkWriteAggregator {
  wa_target : nat; wa_received : nat; wa_nacks : nat
}.

Definition WriteAggregator_new (target : nat) : WriteAggregator :=
  mkWriteAggregator (target `max` 1) 0 0.
Definition WriteAggregator_ack (a : WriteAggregator) : WriteAggregator :=
  mkWriteAggregator (wa_target a) (S (wa_received a)) (wa_nacks a).
Definition WriteAggregator_nack (a : WriteAggregator) : WriteAggregator :=
  mkWriteAggregator (wa_target a) (wa_received a) (S (wa_nacks a)).
Definition WriteAggregator_is_satisfied (a : WriteAggregator) : bool :=
  wa_target a <=? wa_received a.
Definition WriteAggregator_is_failed (cluster_size : nat) (a : WriteAggregator) : bool :=
  cluster_size - wa_target a <? wa_nacks a.

Record ReadAggregator := mkReadAggregator { ra_target : nat; ra_received : nat }.

Definition ReadAggregator_new (target : nat) : ReadAggregator :=
  mkReadAggregator (target `max` 1) 0.
Definition ReadAggregator_reply (a : ReadAggregator) : ReadAggregator :=
  mkReadAggregator (ra_target a) (S (ra_received a)).
Definition ReadAggregator_is_satisfied (a : ReadAggregator) : bool :=
  ra_target a <=? ra_received a.

(** One reply of a replica to a write: [true] an ack, [false] a nack. *)
Definition write_reply (a : WriteAggregator) (ok : bool) : WriteAggregator :=
  if ok then WriteAggregator_ack a else WriteAggregator_nack a.

(** ** Pruning *)

Inductive PruningPhase :=
  | Initialized (owner : string)
  | Performed (owner : string) (obsolete_at : N).

Record PruningState := mkPruningState { markers : gmap string PruningPhase }.

Definition PruningState_new : PruningState := mkPruningState ∅.

Definition PruningState_initialize (removed owner : string) (p : PruningState) : PruningState :=
  match markers p !! removed with
  | Some _ => p
  | None => mkPruningState (<[removed := Initialized owner]> (markers p))
  end.

Definition PruningState_mark_performed (removed : string) (obsolete_at : N) (p : PruningState)
    : bool * PruningState :=
  match markers p !! removed with
  | Some (Initialized owner) =>
      (true, mkPruningState (<[removed := Performed owner obsolete_at]> (markers p)))
  | _ => (false, p)
  end.

Definition PruningState_is_pruned (removed : string) (p : PruningState) : bool :=
  bool_decide (is_Some (markers p !! removed)).

Definition phase_owner (ph : PruningPhase) : string :=
  match ph with Initialized owner | Performed owner _ => owner end.

Definition PruningState_owner (removed : string) (p : PruningState) : option string :=
  phase_owner <$> markers p !! removed.

(** The closure given to [retain]. *)
Definition gc_keep (current_round : N) (ph : PruningPhase) : bool :=
  match ph with
  | Initialized _ => true
  | Performed _ obsolete_at => (current_round <? obsolete_at)%N
  end.

Definition PruningState_gc (current_round : N) (p : PruningState) : nat * PruningState :=
  let before := size (markers p) in
  let kept := filter (λ kv, gc_keep current_round kv.2 = true) (markers p) in
  (before - size kept, mkPruningState kept).

Definition merge_phase (o : option PruningPhase) (v : PruningPhase) : PruningPhase :=
  match o, v with
  | None, _ => v
  | Some (Initialized _), Performed _ _ => v
  | Some (Performed ow lhs), Performed _ rhs =>
      if (lhs <? rhs)%N then v else Performed ow lhs
  | Some ph, _ => ph
  end.

Definition PruningState_merge (self other : PruningState) : PruningState :=
  mkPruningState (merge_entries merge_phase (markers self) (markers other)).

(** ** Specification *)

(** The progress of a marker: announced below performed, later rounds higher. *)
Definition phase_rank (ph : PruningPhase) : N :=
  match ph with Initialized _ => 0 | Performed _ r => r + 1 end.

(** Two states agree on who takes over each node both know to be removed. *)
Definition owners_agree (a b : PruningState) : Prop :=
  ∀ k x y, markers a !! k = Some x → markers b !! k = Some y → phase_owner x = phase_owner y.

(** The reply counts after a list of replies. *)
Definition after_replies (target : nat) (rs : list bool) : WriteAggregator :=
  foldl write_reply (WriteAggregator_new target) rs.

(** The pairs of levels for which a read sees every write: both majorities, or one side
    "all" and the other at least one node. *)
Definition overlapping (w : WriteConsistency) (r : ReadConsistency) : Prop :=
  match w, r with
  | WMajority _, RMajority _ => True
  | WAll _, RFrom n _ => 0 < n
  | WFrom n _, RAll _ => 0 < n
  | WAll _, _ | _, RAll _ => True
  | _, _ => False
  end.

(** ** Lemmas *)

Lemma required_acks_le w n : 0 < n → required_acks w n ≤ n.
Proof.
  intros Hn. pose proof (Nat.div_lt n 2). destruct w; cbn -[Nat.div]; lia.
Qed.

Lemma required_replies_le r n : 0 < n → required_replies r n ≤ n.
Proof.
  intros Hn. pose proof (Nat.div_lt n 2). destruct r; cbn -[Nat.div]; lia.
Qed.

Lemma overlapping_sum w r n :
  0 < n → overlapping w r → n < required_acks w n + required_replies r n.
Proof.
  intros Hn. pose proof (Nat.div_mod_eq n 2). pose proof (Nat.mod_upper_bound n 2).
  destruct w, r; cbn -[Nat.div]; lia.
Qed.

(** Two subsets too large to be disjoint share an element. *)
Lemma subseteq_overlap (X A B : gset string) :
  A ⊆ X → B ⊆ X → size X < size A + size B → ∃ x, x ∈ A ∧ x ∈ B.
Proof.
  intros HA HB Hsize. destruct (decide (A ## B)) as [Hd|Hd].
  - pose proof (size_union A B Hd). assert (A ∪ B ⊆ X) as Hsub by set_solver.
    apply subseteq_size in Hsub. lia.
  - assert (¬ (A ∩ B ≡ ∅)) as Hne by set_solver.
    destruct (set_choose_or_empty (A ∩ B)) as [[x Hx]|Hx]; [|done].
    exists x. set_solver.
Qed.

Lemma after_replies_counts target rs :
  wa_target (after_replies target rs) = target `max` 1 ∧
  wa_received (after_replies target rs) = length (filter (λ b, b = true) rs) ∧
  wa_nacks (after_replies target rs) = length (filter (λ b, b = false) rs).
Proof.
  unfold after_replies.
  assert (∀ a, wa_target (foldl write_reply a rs) = wa_target a ∧
    wa_received (foldl write_reply a rs) = wa_received a + length (filter (λ b, b = true) rs) ∧
    wa_nacks (foldl write_reply a rs) = wa_nacks a + length (filter (λ b, b = false) rs)) as Hg.
  { induction rs as [|ok rs IH]; intros a; [simpl; lia|].
    destruct (IH (write_reply a ok)) as (Ht & Hr & Hn). simpl foldl. rewrite Ht, Hr, Hn.
    destruct ok; rewrite !filter_cons; repeat case_decide; simplify_eq; simpl; lia. }
  apply Hg.
Qed.

Lemma length_replies_split (rs : list bool) :
  length (filter (λ b, b = true) rs) + length (filter (λ b, b = false) rs) = length rs.
Proof.
  induction rs as [|[] rs IH]; [done|..]; rewrite !filter_cons; repeat case_decide;
    simplify_eq; simpl; lia.
Qed.

Lemma phase_eq x y : phase_rank x = phase_rank y → phase_owner x = phase_owner y → x = y.
Proof. destruct x, y; simpl; intros; subst; auto with f_equal lia; f_equal; lia. Qed.

Lemma merge_phase_spec x y :
  merge_phase (Some x) y = if (phase_rank x <? phase_rank y)%N then y else x.
Proof.
  destruct x as [|o r], y as [|o' r']; simpl; try done.
  - destruct (N.ltb_spec 0 (r' + 1)); [done|lia].
  - destruct (N.ltb_spec (r + 1) 0); [lia|done].
  - destruct (N.ltb_spec r r'), (N.ltb_spec (r + 1) (r' + 1)); done || lia.
Qed.

Lemma merge_phase_assoc x y z :
  merge_phase (Some x) (merge_phase (Some y) z) = merge_phase (Some (merge_phase (Some x) y)) z.
Proof.
  rewrite !merge_phase_spec.
  repeat match goal with
  | |- context [(phase_rank ?a <? phase_rank ?b)%N] => is_var a; is_var b;
      destruct (N.ltb_spec (phase_rank a) (phase_rank b)); simpl
  end; done || lia.
Qed.

Lemma PruningState_merge_assoc a b c :
  PruningState_merge a (PruningState_merge b c) = PruningState_merge (PruningState_merge a b) c.
Proof.
  unfold PruningState_merge. simpl. f_equal. apply map_eq. intros k.
  rewrite !lookup_merge_entries.
  destruct (markers a !! k), (markers b !! k), (markers c !! k); try done.
  by rewrite merge_phase_assoc.
Qed.

Lemma PruningState_merge_idem a : PruningState_merge a a = a.
Proof.
  destruct a as [m]. unfold PruningState_merge. simpl. f_equal. apply map_eq. intros k.
  rewrite lookup_merge_entries. destruct (m !! k) as [x|]; [|done].
  rewrite merge_phase_spec. by destruct (N.ltb_spec (phase_rank x) (phase_rank x)).
Qed.

Lemma PruningState_merge_comm a b :
  owners_agree a b → PruningState_merge a b = PruningState_merge b a.
Proof.
  intros Hown. unfold PruningState_merge. f_equal. apply map_eq. intros k.
  rewrite !lookup_merge_entries.
  destruct (markers a !! k) as [x|] eqn:Ea, (markers b !! k) as [y|] eqn:Eb; try done.
  rewrite !merge_phase_spec.
  destruct (N.ltb_spec (phase_rank x) (phase_rank y)),
           (N.ltb_spec (phase_rank y) (phase_rank x)); try done; [lia|].
  f_equal. apply phase_eq; [lia|]. by eapply Hown.
Qed.

(** ** Properties *)

(** The consistency levels give quorum intersection: whenever a write was
    acknowledged by as many of the cluster's nodes as its level requires and a read was
    answered by as many as its level requires, some node did both, if both levels are
    majorities or if one is "all" and the other asks for at least one node; and no level
    asks for more nodes than a non-empty cluster has. *)
Theorem quorum_overlap (nodes W R : gset string) w r :
  W ⊆ nodes → R ⊆ nodes → nodes ≠ ∅ →
  required_acks w (size nodes) ≤ size W → required_replies r (size nodes) ≤ size R →
  overlapping w r →
  (∃ node, node ∈ W ∧ node ∈ R) ∧
  required_acks w (size nodes) ≤ size nodes ∧ required_replies r (size nodes) ≤ size nodes.
Proof.
  intros HW HR Hne Hw Hr Hov.
  assert (0 < size nodes) as Hpos by (apply Nat.neq_0_lt_0; by intros ?%size_empty_inv%leibniz_equiv).
  split_and!; [|auto using required_acks_le, required_replies_le..].
  apply (subseteq_overlap nodes); [done..|].
  pose proof (overlapping_sum w r (size nodes) Hpos Hov). lia.
Qed.

Lemma quorum_overlap_witness :
  ∃ node : string, node ∈ ({["a"; "b"]} : gset string) ∧ node ∈ ({["b"; "c"]} : gset string).
Proof.
  exact (proj1 (quorum_overlap {["a"; "b"; "c"]} {["a"; "b"]} {["b"; "c"]}
    (WMajority 1) (RMajority 1) ltac:(set_solver) ltac:(set_solver) ltac:(set_solver)
    ltac:(apply Nat.leb_le; reflexivity) ltac:(apply Nat.leb_le; reflexivity) I)).
Defined.

(** The write aggregator decides the outcome of a quorum write: after any
    sequence of replies from distinct nodes it is satisfied exactly when enough acks
    arrived, it is failed exactly when the nodes that did not refuse are too few, and
    it is never both when each of the cluster's nodes replies at most once. *)
Theorem WriteAggregator_outcome target n rs :
  target `max` 1 ≤ n → length rs ≤ n →
  let a := after_replies target rs in
  let acks := length (filter (λ b, b = true) rs) in
  let nacks := length (filter (λ b, b = false) rs) in
  (WriteAggregator_is_satisfied a = true ↔ target `max` 1 ≤ acks) ∧
  (WriteAggregator_is_failed n a = true ↔ n - nacks < target `max` 1) ∧
  ¬ (WriteAggregator_is_satisfied a = true ∧ WriteAggregator_is_failed n a = true).
Proof.
  intros Hn Hlen a acks nacks. destruct (after_replies_counts target rs) as (Ht & Hr & Hk).
  pose proof (length_replies_split rs).
  unfold WriteAggregator_is_satisfied, WriteAggregator_is_failed. subst a acks nacks.
  rewrite Ht, Hr, Hk, Nat.leb_le, Nat.ltb_lt. lia.
Qed.

Lemma WriteAggregator_outcome_witness :
  WriteAggregator_is_failed 4 (after_replies 3 [false; true; false]) = true ↔
  4 - 2 < 3 `max` 1.
Proof.
  exact (proj1 (proj2 (WriteAggregator_outcome 3 4 [false; true; false]
    ltac:(simpl; lia) ltac:(simpl; lia)))).
Defined.

(** Pruning markers only move forward: merging keeps the more advanced of two
    markers (performed over announced, later rounds over earlier), is associative and
    idempotent, and commutative as long as both sides agree on the new owner of each
    removed node. *)
Theorem PruningState_merge_join a b c :
  (∀ k x, markers a !! k = Some x → ∃ z, markers (PruningState_merge a b) !! k = Some z ∧
     (phase_rank x ≤ phase_rank z)%N) ∧
  (∀ k y, markers b !! k = Some y → ∃ z, markers (PruningState_merge a b) !! k = Some z ∧
     (phase_rank y ≤ phase_rank z)%N) ∧
  PruningState_merge a (PruningState_merge b c) = PruningState_merge (PruningState_merge a b) c ∧
  PruningState_merge a a = a ∧
  (owners_agree a b → PruningState_merge a b = PruningState_merge b a).
Proof.
  split_and!; auto using PruningState_merge_assoc, PruningState_merge_idem,
    PruningState_merge_comm.
  - intros k x Hx. unfold PruningState_merge. simpl. rewrite lookup_merge_entries, Hx.
    destruct (markers b !! k) as [y|]; eexists; (split; [done|]); [|lia].
    rewrite merge_phase_spec. destruct (N.ltb_spec (phase_rank x) (phase_rank y)); lia.
  - intros k y Hy. unfold PruningState_merge. simpl. rewrite lookup_merge_entries, Hy.
    eexists; (split; [done|]). destruct (markers a !! k) as [x|]; [|simpl; lia].
    rewrite merge_phase_spec. destruct (N.ltb_spec (phase_rank x) (phase_rank y)); lia.
Qed.

Lemma PruningState_merge_join_witness :
  let a := PruningState_initialize "dead" "alive" PruningState_new in
  let b := (PruningState_mark_performed "dead" 50 a).2 in
  PruningState_merge a b = PruningState_merge b a.
Proof.
  intros a b. refine (proj2 (proj2 (proj2 (proj2 (PruningState_merge_join a b a)))) _).
  intros k x y Hx Hy.
  change (({["dead" := Initialized "alive"]} : gmap string PruningPhase) !! k = Some x) in Hx.
  change (({["dead" := Performed "alive" 50]} : gmap string PruningPhase) !! k = Some y) in Hy.
  apply lookup_singleton_Some in Hx as [<- <-]. apply lookup_singleton_Some in Hy as [_ <-].
  reflexivity.
Defined.

(** Without agreement on the owner the merge order decides who takes over. *)
Lemma PruningState_merge_not_commutative :
  let a := PruningState_initialize "dead" "n1" PruningState_new in
  let b := PruningState_initialize "dead" "n2" PruningState_new in
  PruningState_owner "dead" (PruningState_merge a b) ≠
  PruningState_owner "dead" (PruningState_merge b a).
Proof. by vm_compute. Qed.

(** The pruning life cycle of one removed node: the first announcement fixes the
    owner, performing happens once and only after an announcement and keeps the owner,
    and garbage collection removes exactly the performed markers whose round has
    passed and reports how many it removed. *)
Theorem PruningState_lifecycle p k o o' r round :
  PruningState_owner k (PruningState_initialize k o' (PruningState_initialize k o p)) =
    PruningState_owner k (PruningState_initialize k o p) ∧
  ((PruningState_mark_performed k r p).1 = true ↔
     ∃ own, markers p !! k = Some (Initialized own)) ∧
  PruningState_owner k (PruningState_mark_performed k r p).2 = PruningState_owner k p ∧
  (PruningState_mark_performed k r (PruningState_mark_performed k r p).2).1 = false ∧
  (∀ j ph, markers (PruningState_gc round p).2 !! j = Some ph ↔
     markers p !! j = Some ph ∧ gc_keep round ph = true) ∧
  (PruningState_gc round p).1 + size (markers (PruningState_gc round p).2) = size (markers p).
Proof.
  split_and!.
  - unfold PruningState_initialize. destruct (markers p !! k) eqn:E; simpl; [by rewrite E|].
    by rewrite lookup_insert_eq.
  - unfold PruningState_mark_performed. destruct (markers p !! k) as [[]|]; naive_solver.
  - unfold PruningState_mark_performed, PruningState_owner.
    destruct (markers p !! k) as [[]|] eqn:E; simpl; rewrite ?lookup_insert_eq, ?E; done.
  - unfold PruningState_mark_performed.
    destruct (markers p !! k) as [[]|] eqn:E; simpl; rewrite ?lookup_insert_eq, ?E; done.
  - intros j ph. simpl. by rewrite map_lookup_filter_Some.
  - simpl. assert (size (filter (λ kv, gc_keep round kv.2 = true) (markers p)) ≤ size (markers p)).
    { apply map_subseteq_size, map_filter_subseteq. }
    lia.
Qed.
