(* ===== verification/Replicator.v ===== *)
(** * The local replicator, its actor and its durable stores
    ([crates/atomr-distributed-data/src/replicator.rs], [replicator_actor.rs],
    [durable.rs])

    The replicator stores values of several CRDT types behind [dyn Any].  The model is
    parametric in the types in use: a decidable set of type ids [Tag], the type
    [Val t] each stands for and its merge; an [Entry] is a value with its type id and
    a downcast compares ids.  The callbacks of subscribers are the user's code: an
    operation returns the list of the calls it makes, in order.

    [FileDurableStore] is a model over the contents of its directory (file name to
    bytes).  Each call that touches the disk takes the fault that hits it, if any. *)

From stdpp Require Import gmap strings list.
From Stdlib Require Import NArith Lia Ascii.
From S2P Require Import Prelude Crdt.

(** ** The replicator *)

Section replicator.
Context {Tag : Type} `{!EqDecision Tag} {Val : Tag → Type} `{!∀ t, CrdtMerge (Val t)}.

Definition Entry : Type := sigT Val.

(** [downcast_ref::<T>] and [downcast_mut::<T>]. *)
Definition downcast (t : Tag) (e : Entry) : option (Val t) :=
  match decide (projT1 e = t) with
  | left eq => Some (eq_rect _ Val (projT2 e) _ eq)
  | right _ => None
  end.

(** [subscribers]: key to the ids of its callbacks, in the order they registered. *)
Record Replicator := mkReplicator {
  store : gmap string Entry;
  subscribers : gmap string (list N);
  next_sub_id : N;
}.

Definition Replicator_new : Replicator := mkReplicator ∅ ∅ 0.

(** The calls [cb(key)] made by [notify], in order. *)
Definition Replicator_notify (key : string) (r : Replicator) : list (N * string) :=
  match subscribers r !! key with
  | Some l => (λ id, (id, key)) <$> l
  | None => []
  end.

(** The new content of the slot of [key]. *)
Definition update_slot (slot : option Entry) (t : Tag) (value : Val t) : Entry :=
  match slot with
  | Some existing =>
      match downcast t existing with
      | Some current => existT t (crdt_merge current value)
      | None => existT t value
      end
  | None => existT t value
  end.

Definition Replicator_update (key : string) (t : Tag) (value : Val t) (r : Replicator)
    : Replicator * list (N * string) :=
  let r' := mkReplicator (<[key := update_slot (store r !! key) t value]> (store r))
              (subscribers r) (next_sub_id r) in
  (r', Replicator_notify key r').

Definition Replicator_delete (key : string) (r : Replicator) : Replicator * list (N * string) :=
  let r' := mkReplicator (delete key (store r)) (subscribers r) (next_sub_id r) in
  (r', Replicator_notify key r').

Definition Replicator_get (key : string) (t : Tag) (r : Replicator) : option (Val t) :=
  store r !! key ≫= downcast t.

(** [fetch_add] wraps at 2^64. *)
Definition Replicator_subscribe (key : string) (r : Replicator) : N * Replicator :=
  let id := next_sub_id r in
  (id, mkReplicator (store r)
         (<[key := default [] (subscribers r !! key) ++ [id]]> (subscribers r))
         (u64_add (next_sub_id r) 1)).

(** The body of [SubscriptionToken::drop]. *)
Definition Replicator_unsubscribe_by_id (key : string) (id : N) (r : Replicator) : Replicator :=
  match subscribers r !! key with
  | Some l =>
      let l' := filter (λ i, i ≠ id) l in
      mkReplicator (store r)
        (match l' with [] => delete key (subscribers r) | _ => <[key := l']> (subscribers r) end)
        (next_sub_id r)
  | None => r
  end.

Definition Replicator_subscriber_count (key : string) (r : Replicator) : nat :=
  default 0 (length <$> subscribers r !! key).

(** ** The operations as a trace, and its reference meaning *)

Inductive ReplicatorOp :=
  | OpUpdate (key : string) (t : Tag) (value : Val t)
  | OpDelete (key : string)
  | OpSubscribe (key : string)
  | OpUnsubscribe (key : string) (id : N).

Definition replicator_step (s : Replicator * list (N * string)) (op : ReplicatorOp)
    : Replicator * list (N * string) :=
  let '(r, log) := s in
  match op with
  | OpUpdate key t value => let '(r', l) := Replicator_update key t value r in (r', log ++ l)
  | OpDelete key => let '(r', l) := Replicator_delete key r in (r', log ++ l)
  | OpSubscribe key => ((Replicator_subscribe key r).2, log)
  | OpUnsubscribe key id => (Replicator_unsubscribe_by_id key id r, log)
  end.

Definition replicator_run (ops : list ReplicatorOp) : Replicator * list (N * string) :=
  foldl replicator_step (Replicator_new, []) ops.

(** Reference: the slot of [key] is a function of the operations on [key] alone. *)
Definition slot_step (key : string) (slot : option Entry) (op : ReplicatorOp) : option Entry :=
  match op with
  | OpUpdate k t v => if decide (k = key) then Some (update_slot slot t v) else slot
  | OpDelete k => if decide (k = key) then None else slot
  | _ => slot
  end.

Lemma downcast_existT t (v : Val t) : downcast t (existT t v) = Some v.
Proof.
  unfold downcast. simpl. destruct (decide (t = t)) as [e|]; [|done].
  by rewrite (proof_irrel e eq_refl).
Qed.

Lemma downcast_other t t' (v : Val t) : t ≠ t' → downcast t' (existT t v) = None.
Proof. intros. unfold downcast. simpl. by destruct (decide (t = t')). Qed.

Lemma replicator_run_snoc ops op :
  replicator_run (ops ++ [op]) = replicator_step (replicator_run ops) op.
Proof. unfold replicator_run. by rewrite foldl_app. Qed.

Lemma replicator_step_store key s op :
  store (replicator_step s op).1 !! key = slot_step key (store s.1 !! key) op.
Proof.
  destruct s as [r log], op as [k t v|k|k|k id]; simpl.
  - destruct (decide (k = key)) as [->|]; [by rewrite lookup_insert_eq|by rewrite lookup_insert_ne].
  - destruct (decide (k = key)) as [->|]; [by rewrite lookup_delete_eq|by rewrite lookup_delete_ne].
  - done.
  - unfold Replicator_unsubscribe_by_id. by destruct (subscribers r !! k).
Qed.

Lemma replicator_run_store key ops :
  store (replicator_run ops).1 !! key = foldl (slot_step key) None ops.
Proof.
  induction ops as [|op ops IH] using rev_ind; [done|].
  by rewrite replicator_run_snoc, replicator_step_store, IH, foldl_app.
Qed.

Lemma update_slot_downcast slot t v :
  downcast t (update_slot slot t v) =
  Some (match slot ≫= downcast t with Some c => crdt_merge c v | None => v end).
Proof.
  unfold update_slot. destruct slot as [e|]; simpl; [|apply downcast_existT].
  destruct (downcast t e); apply downcast_existT.
Qed.

(** Reference for the values: of the operations, the newest first, the updates of [key] with
    the type [t] up to the first delete of the key or update with another type. *)
Fixpoint current_run (key : string) (t : Tag) (newest_first : list ReplicatorOp) : list (Val t) :=
  match newest_first with
  | [] => []
  | OpUpdate k t' v :: older =>
      if decide (k = key)
      then match downcast t (existT t' v) with Some v => v :: current_run key t older | None => [] end
      else current_run key t older
  | OpDelete k :: older => if decide (k = key) then [] else current_run key t older
  | _ :: older => current_run key t older
  end.

(** The merge of a run of values, the oldest first. *)
Definition merged {t} (run : list (Val t)) : option (Val t) :=
  match run with [] => None | v :: vs => Some (merge_all v vs) end.

Lemma merged_snoc {t} (run : list (Val t)) v :
  merged (run ++ [v]) = Some (match merged run with Some c => crdt_merge c v | None => v end).
Proof. destruct run as [|w run]; [done|]. simpl. unfold merge_all. by rewrite foldl_app. Qed.

Lemma update_slot_other slot t t' v : t' ≠ t → downcast t (update_slot slot t' v) = None.
Proof.
  intros Ht. unfold update_slot. destruct slot as [e|]; [destruct (downcast t' e)|]; by apply downcast_other.
Qed.

Lemma Replicator_get_run ops key t :
  Replicator_get key t (replicator_run ops).1 = merged (reverse (current_run key t (reverse ops))).
Proof.
  unfold Replicator_get. rewrite replicator_run_store.
  induction ops as [|op ops IH] using rev_ind; [done|]. rewrite foldl_app, reverse_snoc. simpl.
  destruct op as [k t' v|k|k|k id]; simpl; [| |done..].
  - destruct (decide (k = key)) as [->|]; [|done]. simpl. destruct (decide (t' = t)) as [->|Ht].
    + rewrite downcast_existT, reverse_cons, merged_snoc, update_slot_downcast. by rewrite IH.
    + by rewrite (downcast_other t' t v Ht), update_slot_other.
  - by destruct (decide (k = key)).
Qed.

(** The subscriber ids of [key] are the ones subscribed and not dropped since. *)
Definition subs_of (key : string) (r : Replicator) : list N := default [] (subscribers r !! key).

Lemma subs_of_unsubscribe key k id r :
  subs_of key (Replicator_unsubscribe_by_id k id r) =
  if decide (k = key) then filter (λ i, i ≠ id) (subs_of key r) else subs_of key r.
Proof.
  unfold subs_of, Replicator_unsubscribe_by_id. case_decide as Hk.
  - subst k. destruct (subscribers r !! key) as [l|] eqn:E; simpl; [|by rewrite E].
    destruct (filter _ l) eqn:El; simpl; [by rewrite lookup_delete_eq|by rewrite lookup_insert_eq].
  - destruct (subscribers r !! k) as [l|]; [|done]. simpl.
    destruct (filter _ l); [by rewrite lookup_delete_ne|by rewrite lookup_insert_ne].
Qed.

Lemma notify_subs key r : Replicator_notify key r = (λ id, (id, key)) <$> subs_of key r.
Proof. unfold Replicator_notify, subs_of. by destruct (subscribers r !! key). Qed.

(** Reference for the notifications: the subscriptions as one list in the order they were made,
    the number made so far, and the calls. *)
Definition notify_step (s : list (string * N) * N * list (N * string)) (op : ReplicatorOp)
    : list (string * N) * N * list (N * string) :=
  let '(subs, n, log) := s in
  match op with
  | OpSubscribe k => (subs ++ [(k, n)], u64_add n 1, log)
  | OpUnsubscribe k id => (filter (λ x, x ≠ (k, id)) subs, n, log)
  | OpUpdate k _ _ | OpDelete k => (subs, n, log ++ ((λ x, (x.2, k)) <$> filter (λ x, x.1 = k) subs))
  end.
Definition notified (ops : list ReplicatorOp) : list (N * string) := (foldl notify_step ([], 0%N, []) ops).2.

Lemma filter_unsubscribe key k id (subs : list (string * N)) :
  (filter (λ x, x.1 = key) (filter (λ x, x ≠ (k, id)) subs)).*2 =
  if decide (k = key) then filter (λ i, i ≠ id) (filter (λ x, x.1 = key) subs).*2
  else (filter (λ x, x.1 = key) subs).*2.
Proof.
  induction subs as [|[k' i'] subs IH]; [by case_decide|]. rewrite !filter_cons. cbn [fst snd].
  destruct (decide (k' = key)) as [->|Hk'].
  - destruct (decide ((key, i') ≠ (k, id))) as [Hne|Heq].
    + rewrite filter_cons. cbn [fst snd]. rewrite decide_True by done. rewrite !fmap_cons, IH. cbn [fst snd].
      destruct (decide (k = key)) as [->|]; [|done]. rewrite filter_cons, decide_True by congruence. done.
    + apply dec_stable in Heq. injection Heq as -> ->. rewrite IH, !(decide_True (P := k = k)) by done.
      rewrite fmap_cons, filter_cons, decide_False by tauto. done.
  - destruct (decide ((k', i') ≠ (k, id))); [|done]. rewrite filter_cons. cbn [fst snd].
    by rewrite decide_False.
Qed.

(** The map of subscribers holds, for each key, the list's part of it. *)
Lemma notify_refines ops :
  let '(subs, n, log) := foldl notify_step ([], 0%N, []) ops in
  (replicator_run ops).2 = log ∧ next_sub_id (replicator_run ops).1 = n ∧
  ∀ key, subs_of key (replicator_run ops).1 = (filter (λ x, x.1 = key) subs).*2.
Proof.
  induction ops as [|op ops IH] using rev_ind; [by split_and!|].
  rewrite foldl_app, replicator_run_snoc. simpl.
  destruct (foldl notify_step _ ops) as [[subs n] log], (replicator_run ops) as [r l].
  destruct IH as (IH1 & IH2 & IH3). simpl in IH1, IH2, IH3. subst l n.
  assert (∀ k, Replicator_notify k r = (λ x, (x.2, k)) <$> filter (λ x, x.1 = k) subs) as Hn.
  { intros k. rewrite notify_subs, IH3, <- list_fmap_compose. done. }
  destruct op as [k t v|k|k|k id]; simpl.
  - rewrite <- Hn. done.
  - rewrite <- Hn. done.
  - split_and!; [done..|]. intros key. rewrite filter_app, fmap_app, <- IH3. unfold subs_of. simpl.
    rewrite filter_cons. simpl. destruct (decide (k = key)) as [->|].
    + by rewrite lookup_insert_eq.
    + by rewrite lookup_insert_ne, app_nil_r.
  - split_and!; [done| |].
    + unfold Replicator_unsubscribe_by_id. by destruct (subscribers r !! k).
    + intros key. by rewrite subs_of_unsubscribe, filter_unsubscribe, IH3.
Qed.

(** C39: what the replicator shows after any sequence of updates, deletes, subscriptions and
    dropped subscriptions, whatever the keys and types of the updates.  Reading a key with a type
    gives the merge, in order, of the updates of that key with that type that came after its last
    delete and after its last update with another type (such an update discards what the key
    held), and nothing when there is none.  The callbacks called, with the keys they are called
    for, are, for each update and each delete of a key in order, those subscribed to the key and
    not dropped until then, in the order of subscription. *)
Theorem Replicator_refines_slots ops :
  (∀ key t, Replicator_get key t (replicator_run ops).1 =
     merged (reverse (current_run key t (reverse ops)))) ∧
  (replicator_run ops).2 = notified ops.
Proof.
  split; [intros key t; apply Replicator_get_run|].
  pose proof (notify_refines ops) as Hn. unfold notified.
  destruct (foldl notify_step _ ops) as [[subs n] log]. by destruct Hn.
Qed.

(** Subscriptions: an update or a delete of a key calls exactly the callbacks
    registered for that key and not dropped since, in registration order; dropping a
    token stops its callback and leaves the callbacks of the other keys alone. *)
Lemma Replicator_notifies_subscribers r key key' t (v : Val t) id :
  key' ≠ key →
  let '(new, r') := Replicator_subscribe key r in
  (Replicator_update key t v r').2 = (λ i, (i, key)) <$> (subs_of key r ++ [new]) ∧
  (Replicator_delete key r').2 = (λ i, (i, key)) <$> (subs_of key r ++ [new]) ∧
  (Replicator_update key' t v r').2 = (λ i, (i, key')) <$> subs_of key' r ∧
  (Replicator_update key t v (Replicator_unsubscribe_by_id key id r)).2 =
    (λ i, (i, key)) <$> filter (λ i, i ≠ id) (subs_of key r) ∧
  (Replicator_update key' t v (Replicator_unsubscribe_by_id key id r)).2 =
    (λ i, (i, key')) <$> subs_of key' r.
Proof.
  intros Hne. simpl. rewrite !notify_subs. unfold subs_of. simpl.
  rewrite !lookup_insert_eq, lookup_insert_ne by done. split_and!; [done..| |].
  - pose proof (subs_of_unsubscribe key key id r) as Hu. unfold subs_of in Hu.
    rewrite Hu. by destruct (decide (key = key)).
  - pose proof (subs_of_unsubscribe key' key id r) as Hu. unfold subs_of in Hu.
    rewrite Hu. by destruct (decide (key = key')).
Qed.
End replicator.
Arguments Replicator {_} _.
Arguments ReplicatorOp {_} _.
Arguments Entry {_} _.

(** ** Durable stores *)

(** The trait [DurableStore]: a call returns [io::Result] ([None] for an error, whose
    payload no caller inspects) and the state the store is left in.  [F] is the
    fault the environment injects into the call. *)
Class DurableStore (St F : Type) := {
  ds_persist : F → string → Bytes → St → option unit * St;
  ds_delete_marker : F → string → St → option unit * St;
  ds_load : F → string → St → option (option Bytes);
  ds_keys : St → option (gset string);
}.

(** The provided method. *)
Definition ds_persist_marker `{DurableStore St F} (f : F) (key : string) (s : St)
    : option unit * St := ds_persist f key [] s.

(** [NoopDurableStore] has no state and no fault. *)
#[export] Instance NoopDurableStore : DurableStore unit unit := {
  ds_persist _ _ _ s := (Some tt, s);
  ds_delete_marker _ _ s := (Some tt, s);
  ds_load _ _ _ := Some None;
  ds_keys _ := Some ∅;
}.

Definition is_ascii_alphanumeric (c : ascii) : bool :=
  let n := N_of_ascii c in
  ((48 <=? n) && (n <=? 57) || (65 <=? n) && (n <=? 90) || (97 <=? n) && (n <=? 122))%N.

Definition sanitize_char (c : ascii) : ascii :=
  if is_ascii_alphanumeric c || Ascii.eqb c "-" || Ascii.eqb c "_" then c else "_"%char.

Fixpoint sanitize (key : string) : string :=
  match key with
  | EmptyString => EmptyString
  | String c key' => String (sanitize_char c) (sanitize key')
  end.

Definition unsanitize (name : string) : string := name.

(** [str::strip_suffix]. *)
Fixpoint strip_suffix (suffix s : string) : option string :=
  if decide (s = suffix) then Some EmptyString
  else match s with
       | EmptyString => None
       | String c s' => String c <$> strip_suffix suffix s'
       end.

(** The contents of the directory, and the in-memory key set of the open store. *)
Record FileDurableStore := mkFileDurableStore {
  dir : gmap string Bytes;
  fds_keys : gset string;
}.

(** What can go wrong in one call: the file cannot be opened or removed, or the write
    or the sync fails after some prefix reached the file. *)
Inductive IoFault :=
  | NoFault
  | OpenFails
  | WriteFails (written : nat).

Definition path_for (key : string) : string := sanitize key +:+ ".bin".

Definition FileDurableStore_open (files : gmap string Bytes) : FileDurableStore :=
  mkFileDurableStore files
    (list_to_set (omap (λ name, unsanitize <$> strip_suffix ".bin" name)
       (elements (dom files)))).

Definition FileDurableStore_contains (key : string) (s : FileDurableStore) : bool :=
  bool_decide (key ∈ fds_keys s).

Definition FileDurableStore_persist (f : IoFault) (key : string) (blob : Bytes)
    (s : FileDurableStore) : option unit * FileDurableStore :=
  let path := path_for key in
  match f with
  | OpenFails => (None, s)
  | WriteFails n =>
      (None, mkFileDurableStore (<[path := take n blob]> (dir s)) (fds_keys s))
  | NoFault =>
      (Some tt, mkFileDurableStore (<[path := blob]> (dir s)) ({[key]} ∪ fds_keys s))
  end.

Definition FileDurableStore_delete_marker (f : IoFault) (key : string) (s : FileDurableStore)
    : option unit * FileDurableStore :=
  let path := path_for key in
  match dir s !! path, f with
  | Some _, OpenFails | Some _, WriteFails _ => (None, s)
  | _, _ => (Some tt, mkFileDurableStore (delete path (dir s)) (fds_keys s ∖ {[key]}))
  end.

Definition FileDurableStore_load (f : IoFault) (key : string) (s : FileDurableStore)
    : option (option Bytes) :=
  match dir s !! path_for key, f with
  | None, _ => Some None
  | Some _, OpenFails | Some _, WriteFails _ => None
  | Some buf, NoFault => Some (Some buf)
  end.

#[export] Instance FileDurableStore_store : DurableStore FileDurableStore IoFault := {
  ds_persist := FileDurableStore_persist;
  ds_delete_marker := FileDurableStore_delete_marker;
  ds_load := FileDurableStore_load;
  ds_keys s := Some (fds_keys s);
}.

(** ** The replicator actor *)

Inductive ReplicatorAck := AckOk | AckKeyNotFound | AckTimeout.

Section actor.
Context {Tag : Type} `{!EqDecision Tag} {Val : Tag → Type} `{!∀ t, CrdtMerge (Val t)}.
Context {St F : Type} `{DS : !DurableStore St F}.
Abbreviation Repl := (Replicator Val).

(** [Update] carries the closure [op] (its [Err] payload is dropped by the loop). *)
Inductive Cmd :=
  | CmdUpdate (key : string) (op : Repl → option unit * Repl)
  | CmdQuery (op : Repl → unit)
  | CmdDelete (key : string)
  | CmdShutdown.

(** The state of the task: the shared replicator, the store and whether the loop still
    runs; [acks] are the answers sent so far. *)
Record ReplicatorActor := mkReplicatorActor {
  inner : Repl; ra_store : St; ra_running : bool; ra_acks : list ReplicatorAck;
}.

Definition ReplicatorActor_spawn_with (s : St) : ReplicatorActor :=
  mkReplicatorActor Replicator_new s true [].

(** One iteration of the receive loop, with the store fault of the iteration. *)
Definition handle_cmd (a : ReplicatorActor) (fc : F * Cmd) : ReplicatorActor :=
  if ra_running a then
    let '(f, cmd) := fc in
    match cmd with
    | CmdUpdate key op =>
        let '(res, r') := op (inner a) in
        match res with
        | Some _ => mkReplicatorActor r' (ds_persist_marker f key (ra_store a)).2 true
                      (ra_acks a ++ [AckOk])
        | None => mkReplicatorActor r' (ra_store a) true (ra_acks a ++ [AckKeyNotFound])
        end
    | CmdQuery op => a
    | CmdDelete key =>
        mkReplicatorActor (Replicator_delete key (inner a)).1
          (ds_delete_marker f key (ra_store a)).2 true (ra_acks a ++ [AckOk])
    | CmdShutdown => mkReplicatorActor (inner a) (ra_store a) false (ra_acks a)
    end
  else a.

(** The command that [ReplicatorActor::update] sends. *)
Definition update_cmd (key : string) (t : Tag) (value : Val t) : Cmd :=
  CmdUpdate key (λ r, (Some tt, (Replicator_update key t value r).1)).

Definition ReplicatorActor_run (s : St) (cmds : list (F * Cmd)) : ReplicatorActor :=
  foldl handle_cmd (ReplicatorActor_spawn_with s) cmds.

(** The commands a handle can send through its public methods. *)
Inductive api_cmd : Cmd → Prop :=
  | api_update key t value : api_cmd (update_cmd key t value)
  | api_query op : api_cmd (CmdQuery op)
  | api_delete key : api_cmd (CmdDelete key)
  | api_shutdown : api_cmd CmdShutdown.
End actor.
Arguments Cmd {_} _.
Arguments ReplicatorActor {_} _ _.

(** ** Lemmas *)

Lemma string_app_inj_r (a b c : string) : a +:+ c = b +:+ c → a = b.
Proof.
  revert b. induction a as [|x a IH]; intros [|y b] H; simpl in *; [done|..].
  - apply (f_equal String.length) in H. simpl in H. rewrite !length_string_app in H. simpl in H. lia.
  - apply (f_equal String.length) in H. simpl in H. rewrite !length_string_app in H. simpl in H. lia.
  - simplify_eq. f_equal. auto.
Qed.

Lemma strip_suffix_app suffix s : strip_suffix suffix (s +:+ suffix) = Some s.
Proof.
  induction s as [|c s IH].
  - change ("" +:+ suffix) with suffix. destruct suffix; cbn [strip_suffix]; by case_decide.
  - change (String c s +:+ suffix) with (String c (s +:+ suffix)). cbn [strip_suffix].
    case_decide as H; [|by rewrite IH].
    apply (f_equal String.length) in H. simpl in H. rewrite length_string_app in H. lia.
Qed.

Lemma path_for_plain_inj k k' :
  sanitize k = k → sanitize k' = k' → path_for k = path_for k' → k = k'.
Proof. unfold path_for. intros -> -> ?. by eapply string_app_inj_r. Qed.

(** An open store is in step with its directory: the files are those of its keys. *)
Definition fds_inv (s : FileDurableStore) : Prop :=
  (∀ k, k ∈ fds_keys s → sanitize k = k) ∧ dom (dir s) = set_map path_for (fds_keys s).

Lemma fds_inv_persist k blob s :
  sanitize k = k → fds_inv s → fds_inv (FileDurableStore_persist NoFault k blob s).2.
Proof.
  intros Hk [Hs Hd]. split; simpl.
  - intros k'. rewrite elem_of_union, elem_of_singleton. intros [->|?]; auto.
  - rewrite dom_insert_L, Hd, set_map_union_L, set_map_singleton_L. done.
Qed.

Lemma fds_delete_NoFault k s :
  FileDurableStore_delete_marker NoFault k s =
  (Some tt, mkFileDurableStore (delete (path_for k) (dir s)) (fds_keys s ∖ {[k]})).
Proof. unfold FileDurableStore_delete_marker. by destruct (dir s !! path_for k). Qed.

Lemma fds_inv_delete k s :
  sanitize k = k → fds_inv s → fds_inv (FileDurableStore_delete_marker NoFault k s).2.
Proof.
  intros Hk [Hs Hd]. rewrite fds_delete_NoFault. split; simpl.
  - intros k'. set_solver.
  - rewrite dom_delete_L, Hd. apply set_eq. intros p.
    rewrite elem_of_difference, elem_of_singleton, !elem_of_map. split.
    + intros [(k' & -> & Hk') Hp]. exists k'. set_solver.
    + intros (k' & -> & [Hk' Hne]%elem_of_difference). split; [by eauto|].
      intros Hp. apply Hne, elem_of_singleton. apply path_for_plain_inj; auto.
Qed.

(** Reopening a directory recovers exactly the plain keys stored in it. *)
Lemma fds_reopen_keys s : fds_inv s → fds_keys (FileDurableStore_open (dir s)) = fds_keys s.
Proof.
  intros [Hs Hd]. simpl. apply set_eq. intros k.
  rewrite elem_of_list_to_set, list_elem_of_omap. split.
  - intros (p & Hp & Hk). rewrite elem_of_elements, Hd, elem_of_map in Hp.
    destruct Hp as (k' & -> & Hk'). unfold path_for in Hk. rewrite strip_suffix_app in Hk.
    simpl in Hk. unfold unsanitize in Hk. rewrite Hs in Hk by done. by simplify_eq.
  - intros Hk. exists (path_for k). rewrite elem_of_elements, Hd, elem_of_map.
    split; [by eauto|]. unfold path_for. rewrite strip_suffix_app. simpl.
    unfold unsanitize. by rewrite Hs.
Qed.

Section write_through.
Context {Tag : Type} `{!EqDecision Tag} {Val : Tag → Type} `{!∀ t, CrdtMerge (Val t)}.
Abbreviation Actor := (ReplicatorActor Val FileDurableStore).

(** The keys a command writes are their own file names. *)
Definition cmd_plain (c : Cmd Val) : Prop :=
  match c with CmdUpdate k _ | CmdDelete k => sanitize k = k | _ => True end.

Definition in_step (a : Actor) : Prop :=
  fds_inv (ra_store a) ∧ fds_keys (ra_store a) = dom (store (inner a)).

Lemma handle_cmd_in_step (a : Actor) c :
  api_cmd c → cmd_plain c → in_step a → in_step (handle_cmd a (NoFault, c)).
Proof.
  intros Hapi Hplain [Hi Hk]. unfold handle_cmd. destruct (ra_running a); [|done].
  destruct Hapi as [key t v|op|key|]; simpl in *; [|done| |done].
  - split; [by apply fds_inv_persist|]. simpl. rewrite dom_insert_L, Hk. done.
  - split; simpl; [by apply fds_inv_delete|].
    rewrite fds_delete_NoFault. simpl. by rewrite dom_delete_L, Hk.
Qed.

Lemma in_step_spawn : in_step (ReplicatorActor_spawn_with (FileDurableStore_open ∅)).
Proof. repeat split; simpl; set_solver. Qed.

(** Write-through durability: as long as the disk does not fail and the keys are
    made of the characters file names keep, after any sequence of commands of its
    public interface the durable store of a replicator actor tracks exactly the keys
    the replicator holds, and so does a store reopened later on the same directory;
    every update or delete before a shutdown was acknowledged. *)
Theorem ReplicatorActor_write_through (cmds : list (Cmd Val)) :
  Forall api_cmd cmds → Forall cmd_plain cmds →
  let a := ReplicatorActor_run (FileDurableStore_open ∅) ((NoFault,.) <$> cmds) in
  fds_keys (ra_store a) = dom (store (inner a)) ∧
  fds_keys (FileDurableStore_open (dir (ra_store a))) = dom (store (inner a)) ∧
  Forall (.= AckOk) (ra_acks a).
Proof.
  intros Hapi Hplain.
  assert (∀ a : Actor, in_step a → Forall (.= AckOk) (ra_acks a) →
    in_step (foldl handle_cmd a ((NoFault,.) <$> cmds)) ∧
    Forall (.= AckOk) (ra_acks (foldl handle_cmd a ((NoFault,.) <$> cmds)))) as Hrun.
  { revert Hplain. induction Hapi as [|c cmds Hc Hapi IH]; intros Hplain a Ha Hacks; [done|].
    apply Forall_cons in Hplain as [Hpc Hplain]. apply IH; [done|by apply handle_cmd_in_step|].
    unfold handle_cmd. destruct (ra_running a); [|done].
    destruct Hc; simpl; try done; apply Forall_app_2; by repeat constructor. }
  destruct (Hrun _ in_step_spawn (Forall_nil_2 _)) as [[Hi Hk] Hacks].
  intros a. subst a. unfold ReplicatorActor_run. rewrite fds_reopen_keys by done. done.
Qed.
End write_through.

Lemma ReplicatorActor_write_through_witness :
  let V := (λ _ : unit, gset string) in
  let _ : ∀ t, CrdtMerge (V t) := λ _ a b, a ∪ b in
  let cmds := [update_cmd (Val:=V) "k1" tt {["x"]}; update_cmd "k2" tt ∅; CmdDelete "k2"] in
  fds_keys (ra_store (ReplicatorActor_run (FileDurableStore_open ∅) ((NoFault,.) <$> cmds))) =
    {["k1"]}.
Proof.
  intros V M cmds.
  transitivity (dom (store (inner (ReplicatorActor_run (FileDurableStore_open ∅)
    ((NoFault,.) <$> cmds))))).
  - exact (proj1 (ReplicatorActor_write_through cmds
      ltac:(repeat constructor) ltac:(repeat constructor))).
  - vm_compute. reflexivity.
Defined.

(** Distinct keys with the same sanitized name share a file: writing one replaces the
    snapshot of the other. *)
Lemma FileDurableStore_collision :
  let s := (FileDurableStore_persist NoFault "a.b" [Byte.x01] (FileDurableStore_open ∅)).2 in
  let s' := (FileDurableStore_persist NoFault "a_b" [Byte.x02] s).2 in
  FileDurableStore_load NoFault "a.b" s' = Some (Some [Byte.x02]) ∧
  FileDurableStore_contains "a.b" (FileDurableStore_open (dir s')) = false.
Proof. by vm_compute. Qed.
