(* ===== verification/Address.v ===== *)
(** * Addresses and actor paths
    ([crates/atomr-core/src/actor/address.rs], [path.rs])

    Strings are byte strings ([string]); a [u16] port is an [N] below [2^16].
    [Display] and [parse] are modelled down to the decimal digits of the port, with the
    overflow check and the optional plus sign of [str::parse::<u16>]. *)

From stdpp Require Import strings list gmap.
From Stdlib Require Import NArith Ascii Lia.
From S2P Require Import Prelude Encoding.

(** ** Strings: the standard-library functions the parser uses *)

(** [&s[n..]]. *)
Fixpoint string_drop (n : nat) (s : string) : string :=
  match n, s with
  | S n, String _ s' => string_drop n s'
  | _, _ => s
  end.

(** [str::strip_prefix]. *)
Definition strip_prefix (pre s : string) : option string :=
  if String.prefix pre s then Some (string_drop (String.length pre) s) else None.

(** [str::split_once]: the parts before and after the first occurrence of [pat]. *)
Fixpoint split_once (pat s : string) : option (string * string) :=
  if String.prefix pat s
  then Some (EmptyString, string_drop (String.length pat) s)
  else match s with
       | EmptyString => None
       | String c s' => (λ ab, (String c ab.1, ab.2)) <$> split_once pat s'
       end.

Fixpoint string_has (c : ascii) (s : string) : bool :=
  match s with
  | EmptyString => false
  | String d s' => Ascii.eqb c d || string_has c s'
  end.

Definition digit_of (c : ascii) : option N :=
  let n := N_of_ascii c in
  if ((48 <=? n) && (n <=? 57))%N then Some (n - 48)%N else None.

(** The digits of an unsigned decimal number, overflow above [max] being an error. *)
Fixpoint parse_digits (max acc : N) (s : string) : option N :=
  match s with
  | EmptyString => Some acc
  | String c s' =>
      d ← digit_of c;
      let acc' := (acc * 10 + d)%N in
      if (acc' <=? max)%N then parse_digits max acc' s' else None
  end.

(** [str::parse] for an unsigned type: an optional plus sign, then at least one digit. *)
Definition parse_uint (max : N) (s : string) : option N :=
  match s with
  | EmptyString => None
  | String c s' =>
      if Ascii.eqb c "+" then
        match s' with EmptyString => None | _ => parse_digits max 0 s' end
      else parse_digits max 0 s
  end.

Definition digit_char (d : N) : ascii := ascii_of_N (48 + d).

(** [Display] for unsigned integers; [fuel] bounds the number of digits. *)
Fixpoint uint_digits (fuel : nat) (n : N) (acc : string) : string :=
  match fuel with
  | O => acc
  | S fuel =>
      let acc' := String (digit_char (n mod 10)) acc in
      if (n <? 10)%N then acc' else uint_digits fuel (n / 10) acc'
  end.

Definition uint_to_string (n : N) : string := uint_digits (S (N.size_nat n)) n EmptyString.

(** ** Addresses *)

Record Address := mkAddress {
  protocol : string;
  system : string;
  host : option string;
  port : option N;
}.

#[export] Instance Address_eq_dec : EqDecision Address.
Proof. solve_decision. Defined.

#[export] Instance Address_countable : Countable Address.
Proof.
  refine (inj_countable' (λ a, (protocol a, system a, host a, port a))
    (λ '(p, s, h, q), mkAddress p s h q) _). by intros [].
Defined.

Definition Address_local (sys : string) : Address := mkAddress "akka" sys None None.

Definition Address_remote (proto sys h : string) (p : N) : Address :=
  mkAddress proto sys (Some h) (Some p).

Definition has_local_scope (a : Address) : bool := bool_decide (host a = None).
Definition has_global_scope (a : Address) : bool := bool_decide (is_Some (host a)).

Definition with_protocol (a : Address) (p : string) : Address :=
  mkAddress p (system a) (host a) (port a).

Definition u16_max : N := 65535.

Definition Address_parse (s : string) : option Address :=
  '(proto, rest) ← split_once "://" s;
  match split_once "@" rest with
  | Some (sys, host_port) =>
      '(h, p) ← split_once ":" host_port;
      n ← parse_uint u16_max p;
      Some (Address_remote proto sys h n)
  | None => Some (with_protocol (Address_local rest) proto)
  end.

(** [impl Display for Address]. *)
Definition Address_to_string (a : Address) : string :=
  match host a, port a with
  | Some h, Some p =>
      protocol a +:+ "://" +:+ system a +:+ "@" +:+ h +:+ ":" +:+ uint_to_string p
  | _, _ => protocol a +:+ "://" +:+ system a
  end.

(** ** Actor paths *)

Record ActorPath := mkActorPath {
  ap_address : Address;
  ap_elements : list string;
  ap_uid : N;
}.

#[export] Instance ActorPath_eq_dec : EqDecision ActorPath.
Proof. solve_decision. Defined.

#[export] Instance ActorPath_countable : Countable ActorPath.
Proof.
  refine (inj_countable' (λ p, (ap_address p, ap_elements p, ap_uid p))
    (λ '(a, e, u), mkActorPath a e u) _). by intros [].
Defined.

Definition ActorPath_root (a : Address) : ActorPath := mkActorPath a [] 0.

Definition ActorPath_child (name : string) (p : ActorPath) : ActorPath :=
  mkActorPath (ap_address p) (ap_elements p ++ [name]) 0.

Definition ActorPath_with_uid (uid : N) (p : ActorPath) : ActorPath :=
  mkActorPath (ap_address p) (ap_elements p) uid.

Definition ActorPath_name (p : ActorPath) : string := default "/" (last (ap_elements p)).

(** [pop] drops the last element. *)
Definition ActorPath_parent (p : ActorPath) : option ActorPath :=
  match ap_elements p with
  | [] => None
  | _ => Some (mkActorPath (ap_address p) (removelast (ap_elements p)) 0)
  end.

Definition ActorPath_depth (p : ActorPath) : nat := length (ap_elements p).

(** The loop of [to_string_without_address]: a separator before every element but the
    first. *)
Definition path_push (i : nat) (s el : string) : string :=
  (if 0 <? i then s +:+ "/" else s) +:+ el.

Definition to_string_without_address (p : ActorPath) : string :=
  (foldl (λ '(i, s) el, (S i, path_push i s el)) (0, "/") (ap_elements p)).2.

Definition ActorPath_to_string (p : ActorPath) : string :=
  Address_to_string (ap_address p) +:+ to_string_without_address p.

(** ** Lemmas on strings *)

Lemma string_app_assoc (a b c : string) : (a +:+ b) +:+ c = a +:+ b +:+ c.
Proof. induction a as [|x a IH]; [done|]. exact (f_equal (String x) IH). Qed.

Lemma string_app_cancel_l (a b c : string) : a +:+ b = a +:+ c → b = c.
Proof. induction a as [|x a IH]; cbn; [done|]. intros [=]. auto. Qed.

Lemma string_drop_app (a b : string) : string_drop (String.length a) (a +:+ b) = b.
Proof. induction a; simpl; done. Qed.

Lemma prefix_app (pat s : string) : String.prefix pat (pat +:+ s) = true.
Proof. induction pat as [|c pat IH]; simpl; [by destruct s|]. by destruct (ascii_dec c c). Qed.

Lemma prefix_inv (pat s : string) :
  String.prefix pat s = true → s = pat +:+ string_drop (String.length pat) s.
Proof.
  revert s. induction pat as [|c pat IH]; intros [|d s]; simpl; try done.
  destruct (ascii_dec c d) as [->|]; [|done]. intros Hp. exact (f_equal (String d) (IH s Hp)).
Qed.

(** Whether [pat] starts a string depends on the first characters alone. *)
Lemma prefix_app_ext (pat a r r' : string) :
  String.length pat ≤ String.length a →
  String.prefix pat (a +:+ r) = String.prefix pat (a +:+ r').
Proof.
  revert a. induction pat as [|c pat IH]; intros [|d a]; simpl; intros Hlen.
  - by destruct r, r'.
  - done.
  - lia.
  - destruct (ascii_dec c d); [|done]. apply IH. lia.
Qed.

Lemma string_app_nil_r (s : string) : s +:+ "" = s.
Proof.
  induction s as [|c s IH]; [done|]. change (String c s +:+ "") with (String c (s +:+ "")).
  by rewrite IH.
Qed.

Lemma string_has_app c a b : string_has c (a +:+ b) = string_has c a || string_has c b.
Proof.
  induction a as [|d a IH]; [done|]. change (String d a +:+ b) with (String d (a +:+ b)).
  cbn. by rewrite IH, orb_assoc.
Qed.

Lemma split_once_equation (pat s : string) :
  split_once pat s =
  if String.prefix pat s then Some (EmptyString, string_drop (String.length pat) s)
  else match s with
       | EmptyString => None
       | String c s' => (λ ab, (String c ab.1, ab.2)) <$> split_once pat s'
       end.
Proof. by destruct s. Qed.

(** The text before a split is split at the same place whatever follows. *)
Lemma split_once_stable pat s p r r' :
  split_once pat s = Some (p, r) →
  s = p +:+ pat +:+ r ∧ split_once pat (p +:+ pat +:+ r') = Some (p, r').
Proof.
  revert p r. induction s as [|c s IH]; intros p r; rewrite split_once_equation.
  - destruct (String.prefix pat "") eqn:E; [|done]. intros [= <- <-].
    split; [by apply prefix_inv in E|]. change ("" +:+ ?x) with x.
    by rewrite split_once_equation, prefix_app, string_drop_app.
  - destruct (String.prefix pat (String c s)) eqn:E.
    + intros [= <- <-]. split; [by apply prefix_inv in E|]. change ("" +:+ ?x) with x.
      by rewrite split_once_equation, prefix_app, string_drop_app.
    + destruct (split_once pat s) as [[p' r'']|] eqn:Es; [|done]. intros [= <- <-].
      destruct (IH p' r'' eq_refl) as [-> Hs]. split; [done|].
      change (String c p' +:+ ?x) with (String c (p' +:+ x)).
      rewrite split_once_equation.
      assert (String.prefix pat (String c (p' +:+ pat +:+ r')) = false) as ->; [|by rewrite Hs].
      rewrite <- E. change (String c (p' +:+ pat +:+ ?x)) with (String c p' +:+ pat +:+ x).
      rewrite <- !string_app_assoc. apply prefix_app_ext. rewrite length_string_app. lia.
Qed.

Lemma split_once_first c pat p r :
  string_has c p = false →
  split_once (String c pat) (p +:+ String c pat +:+ r) = Some (p, r).
Proof.
  induction p as [|d p IH]; simpl string_has; intros Hp.
  - change ("" +:+ ?x) with x. by rewrite split_once_equation, prefix_app, string_drop_app.
  - apply orb_false_iff in Hp as [Hd Hp]. change (String d p +:+ ?x) with (String d (p +:+ x)).
    rewrite split_once_equation. cbn [String.prefix].
    destruct (ascii_dec c d) as [->|]; [by rewrite Ascii.eqb_refl in Hd|]. by rewrite IH.
Qed.

Lemma split_once_none c pat s :
  string_has c s = false → split_once (String c pat) s = None.
Proof.
  induction s as [|d s IH]; simpl; intros Hs; [done|].
  apply orb_false_iff in Hs as [Hd Hs].
  destruct (ascii_dec c d) as [->|]; [by rewrite Ascii.eqb_refl in Hd|]. by rewrite IH.
Qed.

(** ** Decimal numbers *)

Lemma digit_of_char d : (d < 10)%N → digit_of (digit_char d) = Some d.
Proof.
  intros Hd. unfold digit_of, digit_char. rewrite N_ascii_embedding by lia.
  destruct (N.leb_spec 48 (48 + d)), (N.leb_spec (48 + d) 57); simpl; try lia.
  f_equal. lia.
Qed.

(** Parsing the digits of [n] in front of [tail] continues with [n] accumulated. *)
Lemma parse_uint_digits max fuel n tail :
  (n ≤ max)%N → (n < 10 ^ N.of_nat fuel)%N →
  parse_digits max 0 (uint_digits fuel n tail) = parse_digits max n tail.
Proof.
  revert n tail. induction fuel as [|fuel IH]; intros n tail Hmax Hfuel.
  { change (10 ^ N.of_nat 0)%N with 1%N in Hfuel. by replace n with 0%N by lia. }
  simpl uint_digits. pose proof (N.mod_lt n 10). pose proof (N.div_mod n 10).
  destruct (N.ltb_spec n 10) as [Hn|Hn].
  - cbn [parse_digits]. rewrite digit_of_char by lia. simpl.
    rewrite N.mod_small, N.mul_0_l, N.add_0_l by lia. destruct (N.leb_spec n max); [done|lia].
  - rewrite IH.
    + cbn [parse_digits]. rewrite digit_of_char by lia. simpl.
      replace (n / 10 * 10 + n mod 10)%N with n by lia. destruct (N.leb_spec n max); [done|lia].
    + pose proof (N.Div0.div_le_upper_bound n 10 n). lia.
    + apply N.Div0.div_lt_upper_bound. rewrite <- N.pow_succ_r', <- Nnat.Nat2N.inj_succ. done.
Qed.

Lemma of_nat_size_nat n : N.of_nat (N.size_nat n) = N.size n.
Proof.
  destruct n as [|p]; [done|]. simpl N.size_nat. simpl N.size.
  induction p as [p IH|p IH|]; cbn [Pos.size_nat Pos.size]; lia.
Qed.

Lemma uint_fuel n : (n < 10 ^ N.of_nat (S (N.size_nat n)))%N.
Proof.
  apply N.lt_le_trans with (2 ^ N.of_nat (S (N.size_nat n)))%N.
  - rewrite Nnat.Nat2N.inj_succ, N.pow_succ_r'. pose proof (N.size_gt n).
    rewrite of_nat_size_nat. lia.
  - apply N.pow_le_mono_l. lia.
Qed.

(** The first character printed is a digit, never a plus sign. *)
Lemma uint_digits_head fuel n tail :
  ∃ d s, uint_digits (S fuel) n tail = String (digit_char d) s ∧ (d < 10)%N.
Proof.
  revert n tail. induction fuel as [|fuel IH]; intros n tail.
  - exists (n mod 10)%N, tail. split; [simpl; by destruct (n <? 10)%N|]. by apply N.mod_lt.
  - change (uint_digits (S (S fuel)) n tail) with
      (if (n <? 10)%N then String (digit_char (n mod 10)) tail
       else uint_digits (S fuel) (n / 10) (String (digit_char (n mod 10)) tail)).
    destruct (n <? 10)%N; [|apply IH].
    exists (n mod 10)%N, tail. split; [done|]. by apply N.mod_lt.
Qed.

Lemma byte_in_digit d : (d < 10)%N → byte_in 48 57 (digit_char d) = true.
Proof.
  intros Hd. unfold byte_in, digit_char. rewrite N_ascii_embedding by lia.
  destruct (N.leb_spec 48 (48 + d)), (N.leb_spec (48 + d) 57); cbn; lia.
Qed.

Lemma all_digits_uint_digits fuel n tail :
  all_digits tail = true → all_digits (uint_digits fuel n tail) = true.
Proof.
  revert n tail; induction fuel as [|fuel IH]; intros n tail Ht; [done|]. cbn [uint_digits].
  assert (all_digits (String (digit_char (n mod 10)) tail) = true).
  { cbn. rewrite byte_in_digit by (by apply N.mod_lt). done. }
  destruct (n <? 10)%N; [done|]. by apply IH.
Qed.

Lemma all_digits_uint n : all_digits (uint_to_string n) = true.
Proof. by apply all_digits_uint_digits. Qed.

Lemma digits_without c s : byte_in 48 57 c = false → all_digits s = true → string_has c s = false.
Proof.
  intros Hc. induction s as [|d s IH]; [done|]. cbn [all_digits string_has]. intros [Hd Hs]%andb_prop.
  rewrite (IH Hs), orb_false_r. apply Ascii.eqb_neq. intros <-. congruence.
Qed.

Lemma parse_uint_to_string max n : (n ≤ max)%N → parse_uint max (uint_to_string n) = Some n.
Proof.
  intros Hn. unfold uint_to_string.
  pose proof (parse_uint_digits max _ n EmptyString Hn (uint_fuel n)) as Hp.
  destruct (uint_digits_head (N.size_nat n) n EmptyString) as (d & s & Hs & Hd).
  rewrite Hs in *. unfold parse_uint.
  destruct (Ascii.eqb_spec (digit_char d) "+") as [He|]; [|done].
  apply digit_of_char in Hd. by rewrite He in Hd.
Qed.

(** What [parse_uint] accepts is in range. *)
Lemma parse_digits_le max acc s n : (acc ≤ max)%N → parse_digits max acc s = Some n → (n ≤ max)%N.
Proof.
  revert acc. induction s as [|c s IH]; intros acc Hacc; simpl; [by intros [= <-]|].
  destruct (digit_of c) as [d|]; simpl; [|done].
  destruct (N.leb_spec (acc * 10 + d) max); [by apply IH|done].
Qed.

Lemma parse_uint_le max s n : parse_uint max s = Some n → (n ≤ max)%N.
Proof.
  unfold parse_uint. destruct s as [|c s]; [done|]. destruct (Ascii.eqb c "+").
  - destruct s; [done|]. apply parse_digits_le. lia.
  - apply parse_digits_le. lia.
Qed.

(** ** Round trips *)

(** The addresses the textual form can represent: local or remote (never a host
    without a port), no separator inside a field, a port that fits. *)
Definition address_ok (a : Address) : Prop :=
  string_has ":" (protocol a) = false ∧ string_has "@" (system a) = false ∧
  match host a, port a with
  | Some h, Some p => string_has ":" h = false ∧ (p ≤ u16_max)%N
  | None, None => True
  | _, _ => False
  end.

Lemma Address_parse_to_string a :
  address_ok a → Address_parse (Address_to_string a) = Some a.
Proof.
  destruct a as [proto sys [h|] [p|]]; intros (Hp & Hs & Hh); simpl in *; try done;
    unfold Address_parse, Address_to_string; cbn [protocol system host port].
  - destruct Hh as [Hh Hport]. rewrite split_once_first by done. simpl mbind.
    rewrite split_once_first by done. simpl mbind. rewrite split_once_first by done.
    simpl. by rewrite parse_uint_to_string.
  - rewrite split_once_first by done. simpl. by rewrite split_once_none.
Qed.

Lemma Address_to_string_inj a b :
  address_ok a → address_ok b → Address_to_string a = Address_to_string b → a = b.
Proof.
  intros Ha%Address_parse_to_string Hb%Address_parse_to_string Heq. rewrite Heq in Ha. congruence.
Qed.


(** A child knows its name, its parent and its depth. *)
Lemma ActorPath_child_parent n p :
  ActorPath_parent (ActorPath_child n p) = Some (ActorPath_with_uid 0 p) ∧
  ActorPath_name (ActorPath_child n p) = n ∧
  ActorPath_depth (ActorPath_child n p) = S (ActorPath_depth p).
Proof.
  split_and!.
  - unfold ActorPath_parent, ActorPath_child, ActorPath_with_uid. simpl. rewrite removelast_last.
    by destruct (ap_elements p).
  - unfold ActorPath_name. simpl. by rewrite last_snoc.
  - unfold ActorPath_depth. simpl. rewrite length_app. simpl. lia.
Qed.

Example Address_to_string_example :
  Address_to_string (Address_remote "akka.tcp" "Sys" "host" 1234) = "akka.tcp://Sys@host:1234" ∧
  Address_parse "akka.tcp://Sys@host:+01234" = Some (Address_remote "akka.tcp" "Sys" "host" 1234) ∧
  Address_parse "akka.tcp://Sys@host:65536" = None ∧
  ActorPath_to_string (ActorPath_child "foo" (ActorPath_child "user"
    (ActorPath_root (Address_local "S")))) = "akka://S/user/foo".
Proof. by vm_compute. Qed.
