(* ===== verification/Membership.v ===== *)
(** * Cluster membership and leader election
    ([crates/atomr-cluster/src/member.rs], [reachability.rs], [events.rs],
    [membership.rs], [leader.rs])

    [Vec<Member>] is a list, [HashMap<(Address, Address), ReachabilityStatus>] a [gmap];
    an [i32] up number is a [Z] (it is only compared).  The loops of the source
    ([iter_mut().find], [retain], the two passes of [apply_leader_actions], the early
    return of [status]) are written out; the theorems relate them to direct
    definitions. *)

From stdpp Require Import gmap strings list sorting.
From Stdlib Require Import ZArith Lia.
From S2P Require Import Prelude Address.

(** ** Members *)

Inductive MemberStatus := Joining | WeaklyUp | Up | Leaving | Exiting | Down | Removed.

#[export] Instance MemberStatus_eq_dec : EqDecision MemberStatus.
Proof. solve_decision. Defined.

Record Member := mkMember {
  m_address : Address;
  up_number : Z;
  m_status : MemberStatus;
  m_roles : list string;
}.

#[export] Instance Member_eq_dec : EqDecision Member.
Proof. solve_decision. Defined.

Definition Member_new (a : Address) (roles : list string) : Member := mkMember a 0 Joining roles.

Definition copy_with_status (st : MemberStatus) (m : Member) : Member :=
  mkMember (m_address m) (up_number m) st (m_roles m).

(** [Ordering::then_with]. *)
Definition then_with (c d : comparison) : comparison := match c with Eq => d | _ => c end.

(** The derived order of [Option]: [None] below [Some]. *)
Definition option_cmp {A} (cmp : A → A → comparison) (x y : option A) : comparison :=
  match x, y with
  | None, None => Eq
  | None, Some _ => Lt
  | Some _, None => Gt
  | Some a, Some b => cmp a b
  end.

Definition age_ordering (a b : Member) : comparison :=
  then_with (Z.compare (up_number a) (up_number b))
    (then_with (String.compare (protocol (m_address a)) (protocol (m_address b)))
       (then_with (option_cmp String.compare (host (m_address a)) (host (m_address b)))
          (option_cmp N.compare (port (m_address a)) (port (m_address b))))).

(** [Iterator::min_by]: the first of the minimal elements. *)
Definition min_by {A} (cmp : A → A → comparison) (l : list A) : option A :=
  match l with
  | [] => None
  | x :: l => Some (foldl (λ best y, match cmp best y with Gt => y | _ => best end) x l)
  end.

Definition Member_oldest (l : list Member) : option Member := min_by age_ordering l.

(** ** Reachability *)

Inductive ReachabilityStatus := Reachable | Unreachable | Terminated.

#[export] Instance ReachabilityStatus_eq_dec : EqDecision ReachabilityStatus.
Proof. solve_decision. Defined.

(** Keys are (observer, subject). *)
Record Reachability := mkReachability { records : gmap (Address * Address) ReachabilityStatus }.

Definition Reachability_new : Reachability := mkReachability ∅.

Definition Reachability_unreachable (observer subject : Address) (r : Reachability) : Reachability :=
  match records r !! (observer, subject) with
  | Some Terminated => r
  | _ => mkReachability (<[(observer, subject) := Unreachable]> (records r))
  end.

Definition Reachability_reachable (observer subject : Address) (r : Reachability) : Reachability :=
  match records r !! (observer, subject) with
  | Some Terminated => r
  | _ => mkReachability (<[(observer, subject) := Reachable]> (records r))
  end.

Definition Reachability_terminated (observer subject : Address) (r : Reachability) : Reachability :=
  mkReachability (<[(observer, subject) := Terminated]> (records r)).

(** The loop of [status], in some iteration order of the map. *)
Fixpoint status_loop (subject : Address) (any_unreachable : bool)
    (l : list ((Address * Address) * ReachabilityStatus)) : ReachabilityStatus :=
  match l with
  | [] => if any_unreachable then Unreachable else Reachable
  | ((_, s), st) :: l' =>
      if decide (s = subject) then
        match st with
        | Terminated => Terminated
        | Unreachable => status_loop subject true l'
        | Reachable => status_loop subject any_unreachable l'
        end
      else status_loop subject any_unreachable l'
  end.

Definition Reachability_status (subject : Address) (r : Reachability) : ReachabilityStatus :=
  status_loop subject false (map_to_list (records r)).

Definition is_reachable (subject : Address) (r : Reachability) : bool :=
  bool_decide (Reachability_status subject r = Reachable).

(** ** Events *)

Inductive ClusterEvent :=
  | MemberJoined (m : Member)
  | MemberWeaklyUp (m : Member)
  | MemberUp (m : Member)
  | MemberLeft (m : Member)
  | MemberExited (m : Member)
  | MemberDowned (m : Member)
  | MemberRemoved (m : Member) (prev : MemberStatus)
  | UnreachableMember (m : Member)
  | ReachableMember (m : Member)
  | LeaderChanged (from to : option Address)
  | ClusterShuttingDown
  | Convergence (b : bool).

#[export] Instance ClusterEvent_eq_dec : EqDecision ClusterEvent.
Proof. solve_decision. Defined.

Definition from_status_transition (m : Member) (old : MemberStatus) : option ClusterEvent :=
  let new := m_status m in
  if decide (old = new) then None
  else Some (match new with
             | Joining => MemberJoined m
             | WeaklyUp => MemberWeaklyUp m
             | Up => MemberUp m
             | Leaving => MemberLeft m
             | Exiting => MemberExited m
             | Down => MemberDowned m
             | Removed => MemberRemoved m old
             end).

(** ** Membership state *)

Record MembershipState := mkMembershipState {
  members : list Member;
  reachability : Reachability;
}.

Definition MembershipState_new : MembershipState := mkMembershipState [] Reachability_new.

(** [iter_mut().find(p)] followed by an assignment [f] to the element found: the
    element as it was and the list after the assignment, [None] if nothing is found. *)
Fixpoint find_assign (p : Member → bool) (f : Member → Member) (l : list Member)
    : option (Member * list Member) :=
  match l with
  | [] => None
  | m :: l' =>
      if p m then Some (m, f m :: l')
      else '(old, l'') ← find_assign p f l'; Some (old, m :: l'')
  end.

Definition has_address (a : Address) (m : Member) : bool := bool_decide (m_address m = a).

Definition with_members (l : list Member) (s : MembershipState) : MembershipState :=
  mkMembershipState l (reachability s).

Definition add_or_update (m : Member) (s : MembershipState) : MembershipState :=
  match find_assign (has_address (m_address m)) (λ _, m) (members s) with
  | Some (_, l) => with_members l s
  | None => with_members (members s ++ [m]) s
  end.

Definition MembershipState_remove (a : Address) (s : MembershipState) : MembershipState :=
  with_members (filter (λ m, m_address m ≠ a) (members s)) s.

Definition up_members (s : MembershipState) : list Member :=
  filter (λ m, m_status m = Up) (members s).

Definition unreachable_addresses (s : MembershipState) : gset string :=
  list_to_set ((λ m, Address_to_string (m_address m)) <$>
    filter (λ m, is_reachable (m_address m) (reachability s) = false) (members s)).

Definition member_count (s : MembershipState) : nat := length (members s).

(** [leader::next_status]. *)
Definition next_status (current : MemberStatus) (converged : bool) : option MemberStatus :=
  match current, converged with
  | Joining, true => Some Up
  | Leaving, true => Some Exiting
  | Exiting, true => Some Removed
  | Down, _ => Some Removed
  | _, _ => None
  end.

(** [leader::is_converged]. *)
Definition is_converged (s : MembershipState) : bool :=
  forallb (λ m, match m_status m with
                | Down | Removed => true
                | _ => is_reachable (m_address m) (reachability s)
                end) (members s).

(** The first pass of [apply_leader_actions]. *)
Definition transitions (converged : bool) (l : list Member) : list (Address * MemberStatus) :=
  omap (λ m, (λ next, (m_address m, next)) <$> next_status (m_status m) converged) l.

(** The event of one applied transition; [None] is the [continue] of the loop. *)
Definition transition_event (updated : Member) (prev next : MemberStatus) : option ClusterEvent :=
  match next with
  | Up => Some (MemberUp updated)
  | Exiting => Some (MemberExited updated)
  | Removed => Some (MemberRemoved updated prev)
  | _ => None
  end.

(** One iteration of the second pass. *)
Definition apply_transition (acc : list Member * list ClusterEvent)
    (t : Address * MemberStatus) : list Member * list ClusterEvent :=
  let '(ms, events) := acc in
  let '(addr, next) := t in
  match find_assign (has_address addr) (copy_with_status next) ms with
  | Some (m, ms') =>
      (ms', events ++ option_list (transition_event (copy_with_status next m) (m_status m) next))
  | None => (ms, events)
  end.

Definition apply_leader_actions (s : MembershipState) : MembershipState * list ClusterEvent :=
  let converged := is_converged s in
  let '(ms, events) := foldl apply_transition (members s, []) (transitions converged (members s)) in
  (with_members (filter (λ m, m_status m ≠ Removed) ms) s,
   events ++ if converged then [Convergence true] else []).

Definition MembershipState_join (m : Member) (s : MembershipState) : MembershipState * ClusterEvent :=
  (add_or_update m s, MemberJoined m).

Definition MembershipState_leave (a : Address) (s : MembershipState)
    : MembershipState * option ClusterEvent :=
  match find_assign (has_address a)
          (λ m, match m_status m with Up | WeaklyUp => copy_with_status Leaving m | _ => m end)
          (members s) with
  | None => (s, None)
  | Some (m, l) =>
      match m_status m with
      | Up | WeaklyUp => (with_members l s, Some (MemberLeft (copy_with_status Leaving m)))
      | _ => (s, None)
      end
  end.

Definition MembershipState_down (a : Address) (s : MembershipState)
    : MembershipState * option ClusterEvent :=
  match find_assign (has_address a)
          (λ m, match m_status m with
                | Up | WeaklyUp | Leaving => copy_with_status Down m | _ => m end)
          (members s) with
  | None => (s, None)
  | Some (m, l) =>
      match m_status m with
      | Up | WeaklyUp | Leaving => (with_members l s, Some (MemberDowned (copy_with_status Down m)))
      | _ => (s, None)
      end
  end.

(** ** Leader election *)

Definition eligible (s : MembershipState) (m : Member) : bool :=
  match m_status m with Up | Leaving => true | _ => false end &&
  is_reachable (m_address m) (reachability s).

Definition elect_leader (s : MembershipState) : option Address :=
  m_address <$> head (sort_by_key (λ m, Address_to_string (m_address m))
    (filter (λ m, eligible s m = true) (members s))).

Record LeaderHandoverEvent := mkLeaderHandoverEvent { he_from : option Address; he_to : option Address }.

Record LeaderHandover := mkLeaderHandover { lh_previous : option Address }.

Definition LeaderHandover_new : LeaderHandover := mkLeaderHandover None.

Definition LeaderHandover_observe (s : MembershipState) (h : LeaderHandover)
    : option LeaderHandoverEvent * LeaderHandover :=
  let next := elect_leader s in
  if decide (lh_previous h = next) then (None, h)
  else (Some (mkLeaderHandoverEvent (lh_previous h) next), mkLeaderHandover next).

Definition LeaderHandover_current (h : LeaderHandover) : option Address := lh_previous h.

(** ** Reference definitions *)

(** Every address occurs once. *)
Definition unique_addresses (l : list Member) : Prop := NoDup (m_address <$> l).

(** The direct form of the leader's transition of one member. *)
Definition advance (converged : bool) (m : Member) : Member :=
  match next_status (m_status m) converged with
  | Some next => copy_with_status next m
  | None => m
  end.

Definition advance_event (converged : bool) (m : Member) : option ClusterEvent :=
  next ← next_status (m_status m) converged;
  transition_event (copy_with_status next m) (m_status m) next.

(** The life cycle of a member as a step relation: what [leave], [down] and the
    leader's tick may do to the status of a member that stays in the list. *)
Inductive status_step : MemberStatus → MemberStatus → Prop :=
  | step_up : status_step Joining Up
  | step_leave st : st = Up ∨ st = WeaklyUp → status_step st Leaving
  | step_down st : st = Up ∨ st = WeaklyUp ∨ st = Leaving → status_step st Down
  | step_exit : status_step Leaving Exiting.

(** The operations on a member's reachability record. *)
Inductive ReachabilityOp :=
  | OpUnreachable (observer subject : Address)
  | OpReachable (observer subject : Address)
  | OpTerminated (observer subject : Address).

Definition reachability_step (r : Reachability) (op : ReachabilityOp) : Reachability :=
  match op with
  | OpUnreachable o s => Reachability_unreachable o s r
  | OpReachable o s => Reachability_reachable o s r
  | OpTerminated o s => Reachability_terminated o s r
  end.

(** ** Reachability lemmas *)

Lemma status_loop_spec subject b l :
  status_loop subject b l =
  if existsb (λ e, bool_decide (e.1.2 = subject ∧ e.2 = Terminated)) l then Terminated
  else if b || existsb (λ e, bool_decide (e.1.2 = subject ∧ e.2 = Unreachable)) l
       then Unreachable else Reachable.
Proof.
  revert b. induction l as [|[[o s] st] l IH]; intros b; simpl; [by destruct b|].
  case_decide as Hs.
  - destruct st; rewrite ?IH; repeat case_bool_decide; naive_solver (by destruct b).
  - rewrite IH. by rewrite !bool_decide_eq_false_2 by naive_solver.
Qed.

Lemma existsb_records subject st r :
  existsb (λ e, bool_decide (e.1.2 = subject ∧ e.2 = st)) (map_to_list (records r)) = true ↔
  ∃ o, records r !! (o, subject) = Some st.
Proof.
  rewrite existsb_exists. split.
  - intros ([[o s] st'] & Hin & [Hs Hst]%bool_decide_eq_true). simpl in *. subst.
    exists o. apply elem_of_map_to_list. by apply list_elem_of_In.
  - intros [o Ho]. exists ((o, subject), st).
    split; [by apply list_elem_of_In, elem_of_map_to_list|]. by apply bool_decide_eq_true.
Qed.

Lemma status_terminated subject r :
  Reachability_status subject r = Terminated ↔ ∃ o, records r !! (o, subject) = Some Terminated.
Proof.
  unfold Reachability_status. rewrite status_loop_spec, <- existsb_records.
  destruct (existsb _ _); simpl; [done|]. by destruct (existsb _ _).
Qed.

Lemma status_reachable subject r :
  Reachability_status subject r = Reachable ↔
  ∀ o st, records r !! (o, subject) = Some st → st = Reachable.
Proof.
  unfold Reachability_status. rewrite status_loop_spec.
  pose proof (existsb_records subject Terminated r) as Ht.
  pose proof (existsb_records subject Unreachable r) as Hu.
  destruct (existsb _ _); simpl.
  - split; [done|]. intros H. destruct (proj1 Ht eq_refl) as [o Ho]. by specialize (H o _ Ho).
  - destruct (existsb _ _).
    + split; [done|]. intros H. destruct (proj1 Hu eq_refl) as [o Ho]. by specialize (H o _ Ho).
    + split; [|done]. intros _ o [] Ho; [done|..].
      * by assert (false = true) by (apply Hu; eauto).
      * by assert (false = true) by (apply Ht; eauto).
Qed.

Lemma is_reachable_spec subject r :
  is_reachable subject r = true ↔ ∀ o st, records r !! (o, subject) = Some st → st = Reachable.
Proof. unfold is_reachable. by rewrite bool_decide_eq_true, status_reachable. Qed.

(** The record of a pair after an operation on some pair. *)
Lemma reachability_step_records r op k :
  records (reachability_step r op) !! k =
  match op with
  | OpUnreachable o s => if decide (k = (o, s) ∧ records r !! k ≠ Some Terminated)
                         then Some Unreachable else records r !! k
  | OpReachable o s => if decide (k = (o, s) ∧ records r !! k ≠ Some Terminated)
                       then Some Reachable else records r !! k
  | OpTerminated o s => if decide (k = (o, s)) then Some Terminated else records r !! k
  end.
Proof.
  assert (∀ o s st, (if decide (k = (o, s) ∧ records r !! k ≠ Some Terminated)
      then Some st else records r !! k) =
    match records r !! (o, s) with
    | Some Terminated => records r !! k
    | _ => <[(o, s) := st]> (records r) !! k
    end) as Hgen.
  { intros o s st. destruct (decide (k = (o, s))) as [->|Hne].
    - rewrite lookup_insert_eq.
      destruct (records r !! (o, s)) as [[]|] eqn:E; case_decide; naive_solver.
    - rewrite lookup_insert_ne by done.
      destruct (records r !! (o, s)) as [[]|] eqn:E; case_decide; naive_solver. }
  destruct op as [o s|o s|o s]; simpl; rewrite ?Hgen.
  - unfold Reachability_unreachable. by destruct (records r !! (o, s)) as [[]|].
  - unfold Reachability_reachable. by destruct (records r !! (o, s)) as [[]|].
  - destruct (decide (k = (o, s))) as [->|]; [by rewrite lookup_insert_eq|by rewrite lookup_insert_ne].
Qed.

Lemma terminated_final r ops k :
  records r !! k = Some Terminated →
  records (foldl reachability_step r ops) !! k = Some Terminated.
Proof.
  revert r. induction ops as [|op ops IH]; intros r Hk; simpl; [done|].
  apply IH. rewrite reachability_step_records, Hk. destruct op; repeat case_decide; naive_solver.
Qed.

(** ** Lemmas on the member list *)

Lemma find_assign_app f l1 m l2 :
  m_address m ∉ m_address <$> l1 →
  find_assign (has_address (m_address m)) f (l1 ++ m :: l2) = Some (m, l1 ++ f m :: l2).
Proof.
  induction l1 as [|x l1 IH]; simpl; intros Hm.
  - unfold has_address. by rewrite bool_decide_eq_true_2.
  - apply not_elem_of_cons in Hm as [Hx Hm]. unfold has_address at 1.
    rewrite bool_decide_eq_false_2 by congruence. by rewrite IH.
Qed.

Lemma find_assign_None a f l :
  find_assign (has_address a) f l = None ↔ a ∉ m_address <$> l.
Proof.
  induction l as [|x l IH]; simpl; [set_solver|].
  rewrite not_elem_of_cons. unfold has_address at 1. case_bool_decide as Hx.
  - naive_solver.
  - destruct (find_assign _ f l) as [[]|]; simpl; naive_solver.
Qed.

Lemma find_assign_Some a f l old l' :
  find_assign (has_address a) f l = Some (old, l') →
  ∃ l1 l2, l = l1 ++ old :: l2 ∧ l' = l1 ++ f old :: l2 ∧ m_address old = a ∧
    a ∉ m_address <$> l1.
Proof.
  revert l'. induction l as [|x l IH]; intros l'; simpl; [done|].
  unfold has_address at 1. case_bool_decide as Hx.
  - intros [= <- <-]. exists [], l. set_solver.
  - destruct (find_assign _ f l) as [[m l'']|]; simpl; [|done]. intros [= <- <-].
    destruct (IH l'' eq_refl) as (l1 & l2 & -> & -> & Ha & Hn).
    exists (x :: l1), l2. simpl. rewrite not_elem_of_cons. naive_solver.
Qed.

(** Replacing a member by one with the same address keeps the addresses. *)
Lemma find_assign_addresses a f l old l' :
  (∀ m, m_address m = a → m_address (f m) = a) →
  find_assign (has_address a) f l = Some (old, l') → m_address <$> l' = m_address <$> l.
Proof.
  intros Hf (l1 & l2 & -> & -> & Ha & _)%find_assign_Some.
  rewrite !fmap_app, !fmap_cons. by rewrite Hf, Ha.
Qed.

Lemma advance_address c m : m_address (advance c m) = m_address m.
Proof. unfold advance. by destruct (next_status _ _). Qed.

Lemma addresses_advance c (l : list Member) : m_address <$> (advance c <$> l) = m_address <$> l.
Proof. rewrite <- list_fmap_compose. apply list_fmap_ext. intros. apply advance_address. Qed.

Lemma apply_transitions_spec c pre suf evs :
  unique_addresses (pre ++ suf) →
  foldl apply_transition ((advance c <$> pre) ++ suf, evs) (transitions c suf) =
  (advance c <$> (pre ++ suf), evs ++ omap (advance_event c) suf).
Proof.
  revert pre evs. induction suf as [|m suf IH]; intros pre evs Hu; simpl.
  - by rewrite !app_nil_r.
  - assert (m_address m ∉ m_address <$> (advance c <$> pre)) as Hm.
    { rewrite addresses_advance. unfold unique_addresses in Hu. rewrite fmap_app in Hu.
      apply NoDup_app in Hu as (_ & Hd & _). intros Hin. apply (Hd _ Hin). by left. }
    unfold unique_addresses in *. specialize (IH (pre ++ [m])).
    rewrite <- app_assoc in IH. specialize (λ evs', IH evs' Hu).
    rewrite fmap_app in IH. simpl in IH. rewrite <- !app_assoc in IH. simpl in IH.
    unfold advance_event at 1. unfold advance in IH at 2.
    destruct (next_status (m_status m) c) as [next|] eqn:En; simpl.
    + rewrite find_assign_app by done. rewrite IH. f_equal.
      rewrite <- app_assoc. f_equal. by destruct (transition_event _ _ _).
    + rewrite IH. done.
Qed.

(** The two passes compute the direct form. *)
Lemma apply_leader_actions_spec s :
  unique_addresses (members s) →
  apply_leader_actions s =
  (with_members (filter (λ m, m_status m ≠ Removed) (advance (is_converged s) <$> members s)) s,
   omap (advance_event (is_converged s)) (members s) ++
     if is_converged s then [Convergence true] else []).
Proof.
  intros Hu. unfold apply_leader_actions.
  pose proof (apply_transitions_spec (is_converged s) [] (members s) [] Hu) as H.
  simpl in H. by rewrite H.
Qed.

Lemma unique_sublist l l' : l' `sublist_of` l → unique_addresses l → unique_addresses l'.
Proof.
  intros Hs Hu. unfold unique_addresses in *. apply (sublist_NoDup _ (m_address <$> l)); [done|].
  by apply fmap_sublist.
Qed.

Lemma unique_same_addresses l l' :
  m_address <$> l' = m_address <$> l → unique_addresses l → unique_addresses l'.
Proof. unfold unique_addresses. by intros ->. Qed.

Lemma add_or_update_unique m s :
  unique_addresses (members s) → unique_addresses (members (add_or_update m s)).
Proof.
  intros Hu. unfold add_or_update. destruct (find_assign _ _ _) as [[old l]|] eqn:E; simpl.
  - eapply unique_same_addresses; [|done]. eapply find_assign_addresses; [|done]. done.
  - apply find_assign_None in E. unfold unique_addresses. rewrite fmap_app.
    apply NoDup_app. split_and!; [done| |apply NoDup_singleton]. set_solver.
Qed.

(** The member an address refers to. *)
Definition lookup_member (a : Address) (l : list Member) : option Member :=
  list_find (λ m, m_address m = a) l ≫= λ '(_, m), Some m.

Lemma lookup_member_unique l m :
  unique_addresses l → m ∈ l → lookup_member (m_address m) l = Some m.
Proof.
  intros Hu (l1 & l2 & ->)%list_elem_of_split. unfold lookup_member.
  assert (m_address m ∉ m_address <$> l1) as Hm.
  { unfold unique_addresses in Hu. rewrite fmap_app in Hu.
    apply NoDup_app in Hu as (_ & Hd & _). intros Hin. apply (Hd _ Hin). by left. }
  rewrite list_find_app_r.
  - simpl. by case_decide.
  - apply list_find_None. apply Forall_forall. intros x Hx Heq. apply Hm.
    apply list_elem_of_fmap. eauto.
Qed.

(** ** Operations as a trace *)

Inductive MembershipOp :=
  | OpJoin (m : Member)
  | OpLeave (a : Address)
  | OpDown (a : Address)
  | OpLeaderTick
  | OpRemove (a : Address).

Definition membership_step (s : MembershipState) (op : MembershipOp) : MembershipState :=
  match op with
  | OpJoin m => (MembershipState_join m s).1
  | OpLeave a => (MembershipState_leave a s).1
  | OpDown a => (MembershipState_down a s).1
  | OpLeaderTick => (apply_leader_actions s).1
  | OpRemove a => MembershipState_remove a s
  end.

(** [m'] is [m], or [m] moved to [st] from a status in [from]. *)
Definition moved (from : MemberStatus → Prop) (st : MemberStatus) (a : Address) (m m' : Member) : Prop :=
  m' = m ∨ (m_address m = a ∧ m' = copy_with_status st m ∧ from (m_status m)).

Lemma moved_refl from st a l : Forall2 (moved from st a) l l.
Proof. apply Forall_Forall2_diag, Forall_forall. intros. by left. Qed.

Lemma find_assign_moved (from : MemberStatus → Prop) st a f l old l' :
  find_assign (has_address a) f l = Some (old, l') →
  from (m_status old) → f old = copy_with_status st old →
  Forall2 (moved from st a) l l'.
Proof.
  intros (l1 & l2 & -> & -> & Ha & _)%find_assign_Some Hf ->.
  apply Forall2_app; [apply moved_refl|]. constructor; [by right|apply moved_refl].
Qed.

Lemma Forall2_elem_r {A B} (R : A → B → Prop) l k y :
  Forall2 R l k → y ∈ k → ∃ x, x ∈ l ∧ R x y.
Proof.
  induction 1 as [|x z l k Hxz Hlk IH]; intros Hy; [by apply not_elem_of_nil in Hy|].
  apply elem_of_cons in Hy as [->|Hy]; [exists x; by split; [left|]|].
  destruct (IH Hy) as (w & Hw & HR). exists w. split; [by right|done].
Qed.

(** [leave] and [down] move at most one member, along the life cycle. *)
Lemma leave_members a s :
  Forall2 (moved (λ st, st = Up ∨ st = WeaklyUp) Leaving a)
    (members s) (members (MembershipState_leave a s).1).
Proof.
  unfold MembershipState_leave.
  destruct (find_assign _ _ _) as [[old l]|] eqn:E; [|apply moved_refl].
  destruct (m_status old) eqn:Es; simpl; try apply moved_refl;
    (eapply find_assign_moved; [done|auto|by simpl; rewrite Es]).
Qed.

Lemma down_members a s :
  Forall2 (moved (λ st, st = Up ∨ st = WeaklyUp ∨ st = Leaving) Down a)
    (members s) (members (MembershipState_down a s).1).
Proof.
  unfold MembershipState_down.
  destruct (find_assign _ _ _) as [[old l]|] eqn:E; [|apply moved_refl].
  destruct (m_status old) eqn:Es; simpl; try apply moved_refl;
    (eapply find_assign_moved; [done|auto|by simpl; rewrite Es]).
Qed.

Lemma moved_addresses from st a l l' :
  Forall2 (moved from st a) l l' → m_address <$> l' = m_address <$> l.
Proof.
  induction 1 as [|m m' l l' Hm Hl IH]; [done|]. rewrite !fmap_cons, IH. f_equal.
  by destruct Hm as [->|(_ & -> & _)].
Qed.

Lemma membership_step_unique s op :
  unique_addresses (members s) → unique_addresses (members (membership_step s op)).
Proof.
  intros Hu. destruct op as [m|a|a| |a]; simpl.
  - by apply add_or_update_unique.
  - eapply unique_same_addresses; [|done]. eapply moved_addresses, leave_members.
  - eapply unique_same_addresses; [|done]. eapply moved_addresses, down_members.
  - rewrite apply_leader_actions_spec by done. simpl.
    eapply unique_sublist; [apply sublist_filter|].
    eapply unique_same_addresses; [apply addresses_advance|done].
  - eapply unique_sublist; [apply sublist_filter|done].
Qed.

(** One operation other than a join moves each surviving member by at most one step of
    the life cycle. *)
Lemma membership_step_status s op m' :
  unique_addresses (members s) → (∀ m, op ≠ OpJoin m) →
  m' ∈ members (membership_step s op) →
  ∃ m, m ∈ members s ∧ m_address m = m_address m' ∧
    (m = m' ∨ status_step (m_status m) (m_status m')).
Proof.
  intros Hu Hop Hin. destruct op as [m|a|a| |a]; simpl in *.
  - by destruct (Hop m).
  - destruct (Forall2_elem_r _ _ _ _ (leave_members a s) Hin) as (m & Hm & [->|(Ha & -> & Hst)]);
      exists m; [by auto|]. split_and!; [done..|]. right. by constructor.
  - destruct (Forall2_elem_r _ _ _ _ (down_members a s) Hin) as (m & Hm & [->|(Ha & -> & Hst)]);
      exists m; [by auto|]. split_and!; [done..|]. right. by constructor.
  - rewrite apply_leader_actions_spec in Hin by done. simpl in Hin.
    apply list_elem_of_filter in Hin as [Hne (m & -> & Hm)%list_elem_of_fmap].
    exists m. rewrite advance_address. split_and!; [done..|]. unfold advance in *.
    destruct (m_status m) eqn:Es, (is_converged s); simpl in *; try done; auto; right; by constructor.
  - apply list_elem_of_filter in Hin as [_ Hm]. eauto.
Qed.

Lemma is_converged_spec s :
  is_converged s = true ↔
  ∀ m, m ∈ members s → m_status m ≠ Down → m_status m ≠ Removed →
    is_reachable (m_address m) (reachability s) = true.
Proof.
  unfold is_converged. rewrite forallb_forall. setoid_rewrite <- list_elem_of_In.
  apply forall_proper. intros m. destruct (m_status m) eqn:E; naive_solver.
Qed.

(** A leader tick keeps convergence: it changes no reachability and revives no one. *)
Lemma leader_tick_converged s :
  unique_addresses (members s) → is_converged s = true →
  is_converged (apply_leader_actions s).1 = true.
Proof.
  intros Hu Hc. rewrite is_converged_spec. intros m' Hin Hd Hr.
  destruct (membership_step_status s OpLeaderTick m' Hu ltac:(done) Hin) as (m & Hm & Ha & Hst).
  rewrite apply_leader_actions_spec by done. simpl. rewrite <- Ha.
  apply (proj1 (is_converged_spec s) Hc); [done|..]; destruct Hst as [->|Hst]; try done;
    inversion Hst; naive_solver congruence.
Qed.

Lemma leave_effect s m :
  unique_addresses (members s) → m ∈ members s → m_status m = Up →
  copy_with_status Leaving m ∈ members (MembershipState_leave (m_address m) s).1 ∧
  (MembershipState_leave (m_address m) s).2 = Some (MemberLeft (copy_with_status Leaving m)).
Proof.
  intros Hu (l1 & l2 & Hl)%list_elem_of_split Hst. unfold MembershipState_leave.
  assert (m_address m ∉ m_address <$> l1) as Hm.
  { unfold unique_addresses in Hu. rewrite Hl, fmap_app in Hu.
    apply NoDup_app in Hu as (_ & Hd & _). intros Hin. apply (Hd _ Hin). by left. }
  rewrite Hl, find_assign_app by done. rewrite Hst. simpl. split; [set_solver|done].
Qed.

Lemma leave_converged a s :
  is_converged s = true → is_converged (MembershipState_leave a s).1 = true.
Proof.
  rewrite !is_converged_spec. intros Hc m' Hin Hd Hr.
  destruct (Forall2_elem_r _ _ _ _ (leave_members a s) Hin) as (m & Hm & Hmv).
  assert (reachability (MembershipState_leave a s).1 = reachability s) as ->.
  { unfold MembershipState_leave. destruct (find_assign _ _ _) as [[old l]|]; [|done].
    by destruct (m_status old). }
  destruct Hmv as [->|(Ha & -> & [Hst|Hst])]; [by apply Hc|..]; simpl; apply Hc; by rewrite ?Hst.
Qed.

(** A tick advances a member of a converged cluster, or drops it. *)
Lemma leader_tick_member s m :
  unique_addresses (members s) → m ∈ members s →
  let s' := (apply_leader_actions s).1 in
  let evs := (apply_leader_actions s).2 in
  match next_status (m_status m) (is_converged s) with
  | Some Removed => (m_address m ∉ (m_address <$> members s')) ∧
                    MemberRemoved (copy_with_status Removed m) (m_status m) ∈ evs
  | Some next => copy_with_status next m ∈ members s'
  | None => m_status m ≠ Removed → m ∈ members s'
  end.
Proof.
  intros Hu Hm. rewrite apply_leader_actions_spec by done. simpl.
  assert (Hadv : advance (is_converged s) m ∈ (advance (is_converged s) <$> members s))
    by (apply list_elem_of_fmap; eauto).
  destruct (next_status (m_status m) (is_converged s)) as [next|] eqn:En.
  - destruct (decide (next = Removed)) as [->|Hne].
    + split.
      * intros (x & Hx & Hin)%list_elem_of_fmap.
        apply list_elem_of_filter in Hin as [Hne Hin].
        apply unique_same_addresses with (l' := advance (is_converged s) <$> members s) in Hu;
          [|apply addresses_advance].
        pose proof (lookup_member_unique _ _ Hu Hadv) as H1.
        pose proof (lookup_member_unique _ _ Hu Hin) as H2.
        rewrite advance_address, Hx, H2 in H1. simplify_eq. apply Hne. unfold advance. by rewrite En.
      * apply elem_of_app. left. apply list_elem_of_omap. exists m. split; [done|].
        unfold advance_event. by rewrite En.
    + assert (copy_with_status next m ∈ filter (λ m, m_status m ≠ Removed)
        (advance (is_converged s) <$> members s)); [|by destruct next].
      apply list_elem_of_filter. split; [done|]. unfold advance in Hadv at 1. by rewrite En in Hadv.
  - intros Hr. apply list_elem_of_filter. split; [done|].
    unfold advance in Hadv at 1. by rewrite En in Hadv.
Qed.

Lemma eligible_filter s m :
  m ∈ filter (λ m, eligible s m = true) (members s) ↔ m ∈ members s ∧ eligible s m = true.
Proof. rewrite list_elem_of_filter. naive_solver. Qed.

Lemma elect_leader_Some s a :
  elect_leader s = Some a →
  ∃ m, m ∈ members s ∧ m_address m = a ∧ eligible s m = true ∧
    ∀ m', m' ∈ members s → eligible s m' = true →
      String.le (Address_to_string a) (Address_to_string (m_address m')).
Proof.
  unfold elect_leader. intros (m & Hh & ->)%fmap_Some.
  pose proof (sort_by_key_head_elem _ _ _ Hh) as [Hm He]%eligible_filter.
  exists m. split_and!; [done..|]. intros m' Hm' He'.
  apply (sort_by_key_head (λ m, Address_to_string (m_address m)) _ _ _ Hh).
  by apply eligible_filter.
Qed.

Lemma elect_leader_None s :
  elect_leader s = None ↔ ∀ m, m ∈ members s → eligible s m = false.
Proof.
  unfold elect_leader. rewrite fmap_None. split.
  - intros Hh m Hm. apply not_true_iff_false. intros He.
    destruct (sort_by_key_head_is_Some (λ m, Address_to_string (m_address m))
      (filter (λ m, eligible s m = true) (members s))) as [x Hx]; [|congruence].
    intros Hnil. assert (m ∈ filter (λ m, eligible s m = true) (members s)) as Hin
      by by apply eligible_filter. rewrite Hnil in Hin. set_solver.
  - intros Hall. destruct (head _) as [x|] eqn:Hh; [|done].
    apply sort_by_key_head_elem, eligible_filter in Hh as [Hm He]. rewrite Hall in He; done.
Qed.

(** Equal members and reachability, in any order, elect the same leader. *)
Lemma elect_leader_order s s' :
  members s' ≡ₚ members s → reachability s' = reachability s →
  Forall (λ m, address_ok (m_address m)) (members s) →
  elect_leader s' = elect_leader s.
Proof.
  intros Hp Hr Hok. rewrite Forall_forall in Hok.
  assert (∀ m, eligible s' m = eligible s m) as He by (intros; unfold eligible; by rewrite Hr).
  destruct (elect_leader s) as [a|] eqn:E.
  - destruct (elect_leader s') as [a'|] eqn:E'.
    + apply elect_leader_Some in E as (m & Hm & <- & Hel & Hle).
      apply elect_leader_Some in E' as (m' & Hm' & <- & Hel' & Hle').
      rewrite Hp in Hm'. rewrite He in Hel'. f_equal.
      apply Address_to_string_inj; [by apply Hok..|]. apply (anti_symm String.le).
      * apply Hle'; [by rewrite Hp|by rewrite He].
      * by apply Hle.
    + rewrite elect_leader_None in E'. apply elect_leader_Some in E as (m & Hm & _ & Hel & _).
      rewrite <- Hp in Hm. apply E' in Hm. rewrite He in Hm. congruence.
  - rewrite elect_leader_None in E. apply elect_leader_None. intros m. rewrite Hp, He. apply E.
Qed.

(** ** Properties *)

(** Leader election is correct and deterministic: the leader is an eligible member
    (up or leaving, and reachable) with the least printed address, there is none
    exactly when nobody is eligible, and nodes that hold the same members (in whatever
    order) and the same reachability elect the same leader; a handover is reported
    exactly when the elected leader changed, and then remembered. *)
Theorem elect_leader_correct s h :
  (∀ a, elect_leader s = Some a →
     ∃ m, m ∈ members s ∧ m_address m = a ∧ eligible s m = true ∧
       ∀ m', m' ∈ members s → eligible s m' = true →
         String.le (Address_to_string a) (Address_to_string (m_address m'))) ∧
  (elect_leader s = None ↔ ∀ m, m ∈ members s → eligible s m = false) ∧
  (∀ s', members s' ≡ₚ members s → reachability s' = reachability s →
     Forall (λ m, address_ok (m_address m)) (members s) →
     elect_leader s' = elect_leader s) ∧
  ((LeaderHandover_observe s h).1 = None ↔ LeaderHandover_current h = elect_leader s) ∧
  LeaderHandover_current (LeaderHandover_observe s h).2 = elect_leader s.
Proof.
  split_and!; [apply elect_leader_Some|apply elect_leader_None|apply elect_leader_order|..];
    unfold LeaderHandover_observe, LeaderHandover_current; by case_decide.
Qed.

(** C22: the two-pass leader action is the direct one: on a state with unique addresses
    every member advances by [next_status] under the convergence of the state before
    the action, removed members are dropped, the events are those of the members that
    moved, in member order, followed by the convergence event. *)
Theorem apply_leader_actions_correct s :
  unique_addresses (members s) →
  let c := is_converged s in
  let '(s', evs) := apply_leader_actions s in
  members s' = filter (λ m, m_status m ≠ Removed) (advance c <$> members s) ∧
  reachability s' = reachability s ∧
  evs = omap (advance_event c) (members s) ++ (if c then [Convergence true] else []) ∧
  unique_addresses (members s') ∧
  (c = true → is_converged s' = true).
Proof.
  intros Hu c. pose proof (membership_step_unique s OpLeaderTick Hu) as Hu'.
  pose proof (leader_tick_converged s Hu) as Hc'. simpl in Hu'.
  rewrite apply_leader_actions_spec in * by done. subst c. simpl in *. naive_solver.
Qed.

Lemma apply_leader_actions_correct_witness :
  let m a st := copy_with_status st (Member_new (Address_local a) []) in
  let s := mkMembershipState [m "a" Up; m "b" Joining; m "c" Exiting] Reachability_new in
  (apply_leader_actions s).2 =
    [MemberUp (m "b" Up); MemberRemoved (m "c" Removed) Exiting; Convergence true].
Proof.
  intros m s.
  transitivity (omap (advance_event (is_converged s)) (members s) ++
    (if is_converged s then [Convergence true] else [])); [|by vm_compute].
  assert (unique_addresses (members s)) as Hu.
  { apply (bool_decide_unpack _). by vm_compute. }
  pose proof (apply_leader_actions_correct s Hu) as H.
  destruct (apply_leader_actions s) as [s' evs]. exact (proj1 (proj2 (proj2 H))).
Defined.

(** Along every sequence of operations addresses stay unique, and a member that is
    not re-joined only moves forward through the life cycle
    (joining, up, leaving or down, exiting): its status after the operations is
    reachable from its status before by the steps of the life cycle. *)
Theorem membership_lifecycle s ops m' :
  unique_addresses (members s) → Forall (λ op, ∀ m, op ≠ OpJoin m) ops →
  m' ∈ members (foldl membership_step s ops) →
  unique_addresses (members (foldl membership_step s ops)) ∧
  ∃ m, m ∈ members s ∧ m_address m = m_address m' ∧ rtc status_step (m_status m) (m_status m').
Proof.
  intros Hu Hops. revert m'. induction ops as [|op ops IH] using rev_ind; intros m' Hin.
  - simpl in *. split; [done|]. exists m'. by split_and!; [| |apply rtc_refl].
  - apply Forall_app in Hops as [Hops Hop]. inversion Hop as [|? ? Hop' _]; subst. clear Hop.
    rewrite foldl_app in *. simpl in *.
    assert (unique_addresses (members (foldl membership_step s ops))) as Hu'.
    { clear -Hu. revert s Hu. induction ops as [|op ops IH]; intros s Hu; [done|].
      simpl. by apply IH, membership_step_unique. }
    split; [by apply membership_step_unique|].
    destruct (membership_step_status _ op m' Hu' Hop' Hin) as (m1 & Hm1 & Ha1 & Hst).
    destruct (IH Hops m1 Hm1) as (_ & m & Hm & Ha & Hrtc).
    exists m. split_and!; [done|congruence|]. destruct Hst as [->|Hst]; [done|].
    by eapply rtc_r.
Qed.

Lemma membership_lifecycle_witness :
  let a := Address_local "a" in
  let s := mkMembershipState [copy_with_status Up (Member_new a [])] Reachability_new in
  ∃ m, m ∈ members s ∧ m_address m = a ∧ rtc status_step (m_status m) Exiting.
Proof.
  intros a s.
  pose (m' := copy_with_status Exiting (Member_new a [])).
  assert (unique_addresses (members s)) as Hu by (apply (bool_decide_unpack _); by vm_compute).
  assert (Forall (λ op, ∀ m, op ≠ OpJoin m) [OpLeave a; OpLeaderTick]) as Hops
    by (repeat constructor; done).
  assert (m' ∈ members (foldl membership_step s [OpLeave a; OpLeaderTick])) as Hin
    by (apply (bool_decide_unpack _); by vm_compute).
  exact (proj2 (membership_lifecycle s [OpLeave a; OpLeaderTick] m' Hu Hops Hin)).
Defined.

(** A graceful leave completes: in a converged cluster an up member that leaves is
    announced, becomes exiting at the next leader tick and is gone, with a removal
    event, after the one after that; the cluster stays converged throughout.  A downed
    member is gone after one tick whether or not the cluster is converged. *)
Theorem leave_completes s m :
  unique_addresses (members s) → m ∈ members s →
  (m_status m = Up → is_converged s = true →
     let s1 := (MembershipState_leave (m_address m) s).1 in
     let s2 := (apply_leader_actions s1).1 in
     let s3 := (apply_leader_actions s2).1 in
     (MembershipState_leave (m_address m) s).2 = Some (MemberLeft (copy_with_status Leaving m)) ∧
     copy_with_status Exiting m ∈ members s2 ∧
     (m_address m ∉ (m_address <$> members s3)) ∧
     MemberRemoved (copy_with_status Removed m) Exiting ∈ (apply_leader_actions s2).2 ∧
     is_converged s3 = true) ∧
  (m_status m = Down → m_address m ∉ (m_address <$> members (apply_leader_actions s).1)).
Proof.
  intros Hu Hm. split.
  - intros Hst Hc s1 s2 s3. destruct (leave_effect s m Hu Hm Hst) as [Hm1 Hev].
    pose proof (membership_step_unique s (OpLeave (m_address m)) Hu
      : unique_addresses (members s1)) as Hu1.
    pose proof (leave_converged (m_address m) s Hc : is_converged s1 = true) as Hc1.
    pose proof (leader_tick_member s1 _ Hu1 Hm1) as Hm2. simpl in Hm2. rewrite Hc1 in Hm2.
    change (copy_with_status Exiting m ∈ members s2) in Hm2.
    pose proof (membership_step_unique s1 OpLeaderTick Hu1 : unique_addresses (members s2)) as Hu2.
    pose proof (leader_tick_converged s1 Hu1 Hc1 : is_converged s2 = true) as Hc2.
    pose proof (leader_tick_member s2 _ Hu2 Hm2) as Hm3. simpl in Hm3. rewrite Hc2 in Hm3.
    pose proof (leader_tick_converged s2 Hu2 Hc2 : is_converged s3 = true) as Hc3.
    naive_solver.
  - intros Hst. pose proof (leader_tick_member s m Hu Hm) as Hd. rewrite Hst in Hd. apply Hd.
Qed.

Lemma leave_completes_witness :
  let m a st := copy_with_status st (Member_new (Address_local a) []) in
  let s := mkMembershipState [m "a" Up; m "b" Down] Reachability_new in
  Address_local "b" ∉ (m_address <$> members (apply_leader_actions s).1).
Proof.
  intros m s.
  assert (unique_addresses (members s)) as Hu by (apply (bool_decide_unpack _); by vm_compute).
  assert (m "b" Down ∈ members s) as Hm by (apply (bool_decide_unpack _); by vm_compute).
  exact (proj2 (leave_completes s (m "b" Down) Hu Hm) eq_refl).
Defined.

(** Reachability records: a subject is reachable exactly when no observer says
    otherwise, terminated exactly when some observer terminated it, whatever the
    iteration order of the map; and a terminated record stays terminated under every
    sequence of later observations. *)
Theorem Reachability_correct r ops o s :
  (is_reachable s r = true ↔ ∀ o st, records r !! (o, s) = Some st → st = Reachable) ∧
  (Reachability_status s r = Terminated ↔ ∃ o, records r !! (o, s) = Some Terminated) ∧
  Reachability_status s
    (foldl reachability_step (Reachability_terminated o s r) ops) = Terminated.
Proof.
  split_and!; [apply is_reachable_spec|apply status_terminated|].
  apply status_terminated. exists o. apply terminated_final. simpl. by rewrite lookup_insert_eq.
Qed.
