(* ===== verification/Sbr.v ===== *)
(** * Split-brain resolution
    ([crates/atomr-cluster/src/sbr.rs], [sbr_runtime.rs])

    The trait [DowningStrategy] is a class, each strategy an instance.  Counts are
    [nat]; role weights are [u32] ([N]), summed with wrap-around as in the release
    profile.  [Instant] and [Duration] are nanoseconds ([N]), [duration_since] saturates
    at zero.  A tick of the runtime also returns the calls it makes to the quorum
    observer, in order. *)

From stdpp Require Import gmap strings list.
From Stdlib Require Import NArith ZArith Lia.
From S2P Require Import Prelude Address Membership.

(** ** Strategies *)

Inductive DowningDecision := DownUnreachable | DownAll | DownSelf | Stay.

#[export] Instance DowningDecision_eq_dec : EqDecision DowningDecision.
Proof. solve_decision. Defined.

(** [trait DowningStrategy]. *)
Class DowningStrategy (S : Type) := sbr_decide : S → list Member → list Member → DowningDecision.

Definition count_up (ms : list Member) : nat := length (filter (λ m, m_status m = Up) ms).

Record KeepMajorityStrategy := mkKeepMajority {}.

#[export] Instance KeepMajority_decide : DowningStrategy KeepMajorityStrategy := λ _ r u,
  let rn := count_up r in
  let un := count_up u in
  if un <? rn then DownUnreachable
  else if rn <? un then DownSelf
  else DownAll.

Record StaticQuorumStrategy := mkStaticQuorum { quorum_size : nat }.

#[export] Instance StaticQuorum_decide : DowningStrategy StaticQuorumStrategy := λ self r _,
  if quorum_size self <=? length r then DownUnreachable else DownSelf.

Record KeepOldestStrategy := mkKeepOldest { down_if_alone : bool }.

(** [min_by_key(up_number)]. *)
Definition oldest_number (ms : list Member) : option Member :=
  min_by (λ a b, Z.compare (up_number a) (up_number b)) ms.

#[export] Instance KeepOldest_decide : DowningStrategy KeepOldestStrategy := λ self r u,
  match oldest_number r, oldest_number u with
  | Some ro, Some uo =>
      if (up_number ro <=? up_number uo)%Z then
        if (length r =? 1) && down_if_alone self then DownAll else DownUnreachable
      else DownSelf
  | Some _, None => DownUnreachable
  | None, Some _ => DownSelf
  | None, None => Stay
  end.

Record KeepReferee := mkKeepReferee { referee : string; down_all_if_less_than : nat }.

#[export] Instance KeepReferee_decide : DowningStrategy KeepReferee := λ self r _,
  if negb (existsb (λ m, bool_decide (Address_to_string (m_address m) = referee self)) r)
  then DownSelf
  else if length r <? down_all_if_less_than self then DownAll
  else DownUnreachable.

Record DownAllStrategy := mkDownAll {}.

#[export] Instance DownAll_decide : DowningStrategy DownAllStrategy := λ _ _ u,
  match u with [] => Stay | _ => DownAll end.

Record LeaseMajorityStrategy := mkLeaseMajority { lease_acquired : bool }.

#[export] Instance LeaseMajority_decide : DowningStrategy LeaseMajorityStrategy := λ self r u,
  match KeepMajority_decide mkKeepMajority r u with
  | DownAll => if lease_acquired self then DownUnreachable else DownAll
  | other => other
  end.

Record RoleWeightedQuorum := mkRoleWeightedQuorum {
  weights : gmap string N; min_quorum_weight : N
}.

Definition u32_add (a b : N) : N := ((a + b) mod 2 ^ 32)%N.

(** [filter_map(weights.get).max().unwrap_or(0)]. *)
Definition member_weight (self : RoleWeightedQuorum) (m : Member) : N :=
  foldr N.max 0%N (omap (λ r, weights self !! r) (m_roles m)).

Definition reachable_weight (self : RoleWeightedQuorum) (r : list Member) : N :=
  foldl u32_add 0%N (member_weight self <$> filter (λ m, m_status m = Up) r).

#[export] Instance RoleWeighted_decide : DowningStrategy RoleWeightedQuorum := λ self r _,
  if (min_quorum_weight self <=? reachable_weight self r)%N then DownUnreachable else DownSelf.

(** The marker strategy of [cluster_daemon.rs] used when no resolver is installed. *)
Record NoSbr := mkNoSbr {}.

#[export] Instance NoSbr_decide : DowningStrategy NoSbr := λ _ _ _, Stay.

(** ** The runtime *)

Inductive SbrAction :=
  | ActNone
  | ActDownUnreachable (addrs : list string)
  | ActDownAll (addrs : list string)
  | ActDownSelf.

#[export] Instance SbrAction_eq_dec : EqDecision SbrAction.
Proof. solve_decision. Defined.

Inductive QuorumCall := on_quorum_lost | on_quorum_regained.

Section runtime.
Context {S : Type} `{!DowningStrategy S}.

(** [observer] says whether one is attached. *)
Record SbrRuntime := mkSbrRuntime {
  strategy : S;
  stable_after : N;
  unstable_since : option N;
  observer : bool;
  quorum_lost : bool;
}.

Definition SbrRuntime_new (s : S) (after : N) : SbrRuntime := mkSbrRuntime s after None false false.

Definition SbrRuntime_with_observer (rt : SbrRuntime) : SbrRuntime :=
  mkSbrRuntime (strategy rt) (stable_after rt) (unstable_since rt) true (quorum_lost rt).

Definition set_unstable_since (t : option N) (rt : SbrRuntime) : SbrRuntime :=
  mkSbrRuntime (strategy rt) (stable_after rt) t (observer rt) (quorum_lost rt).

Definition set_quorum_lost (b : bool) (rt : SbrRuntime) : SbrRuntime :=
  mkSbrRuntime (strategy rt) (stable_after rt) (unstable_since rt) (observer rt) b.

Definition note_quorum_lost (rt : SbrRuntime) : SbrRuntime * list QuorumCall :=
  if quorum_lost rt then (rt, [])
  else (set_quorum_lost true rt, if observer rt then [on_quorum_lost] else []).

Definition note_quorum_regained (rt : SbrRuntime) : SbrRuntime * list QuorumCall :=
  if quorum_lost rt
  then (set_quorum_lost false rt, if observer rt then [on_quorum_regained] else [])
  else (rt, []).

(** The partition of the members by reachability, [Down] and [Removed] ones skipped. *)
Definition sbr_partition (s : MembershipState) : list Member * list Member :=
  let live := filter (λ m, m_status m ≠ Down ∧ m_status m ≠ Removed) (members s) in
  (filter (λ m, is_reachable (m_address m) (reachability s) = true) live,
   filter (λ m, is_reachable (m_address m) (reachability s) = false) live).

Definition address_strings (l : list Member) : list string :=
  (λ m, Address_to_string (m_address m)) <$> l.

Definition SbrRuntime_tick (s : MembershipState) (now : N) (rt : SbrRuntime)
    : SbrAction * SbrRuntime * list QuorumCall :=
  let '(reachable, unreachable) := sbr_partition s in
  match unreachable with
  | [] =>
      let '(rt', calls) := note_quorum_regained (set_unstable_since None rt) in
      (ActNone, rt', calls)
  | _ =>
      let since := default now (unstable_since rt) in
      let rt := set_unstable_since (Some since) rt in
      if (now - since <? stable_after rt)%N then (ActNone, rt, [])
      else
        match sbr_decide (strategy rt) reachable unreachable with
        | Stay => (ActNone, rt, [])
        | DownUnreachable => (ActDownUnreachable (address_strings unreachable), rt, [])
        | DownAll => (ActDownAll (address_strings (members s)), rt, [])
        | DownSelf =>
            let '(rt', calls) := note_quorum_lost rt in (ActDownSelf, rt', calls)
        end
  end.

Definition SbrRuntime_is_stable (now : N) (rt : SbrRuntime) : bool :=
  match unstable_since rt with
  | Some t => (stable_after rt <=? now - t)%N
  | None => true
  end.
End runtime.
Arguments SbrRuntime _ : clear implicits.

(** ** Interface: what a strategy promises to the cluster *)

(** [sbr_safe s1 s2 r u] is the configuration under which two nodes with strategies
    [s1] and [s2] on the two sides [r] and [u] of a partition must not both survive. *)
Class SplitBrainSafe (S : Type) `{DowningStrategy S} := {
  sbr_safe : S → S → list Member → list Member → Prop;
  sbr_not_both s1 s2 r u :
    sbr_safe s1 s2 r u →
    sbr_decide s1 r u = DownUnreachable → sbr_decide s2 u r = DownUnreachable → False;
}.

(** *** Lemmas on the oldest member *)

Lemma min_by_Z_spec (key : Member → Z) l x :
  min_by (λ a b, Z.compare (key a) (key b)) l = Some x →
  x ∈ l ∧ ∀ y, y ∈ l → (key x ≤ key y)%Z.
Proof.
  destruct l as [|z l]; simpl; [done|]. intros [= <-]. revert z.
  induction l as [|y l IH]; intros z; simpl.
  - split; [by left|]. intros y ->%list_elem_of_singleton. done.
  - destruct (Z.compare_spec (key z) (key y)) as [Heq|Hlt|Hgt].
    + destruct (IH z) as [Hin Hle]. split; [set_solver|]. intros w Hw.
      apply elem_of_cons in Hw as [->|[->|Hw]%elem_of_cons].
      * apply Hle. by left.
      * rewrite <- Heq. apply Hle. by left.
      * apply Hle. by right.
    + destruct (IH z) as [Hin Hle]. split; [set_solver|]. intros w Hw.
      apply elem_of_cons in Hw as [->|[->|Hw]%elem_of_cons].
      * apply Hle. by left.
      * transitivity (key z); [apply Hle; by left|lia].
      * apply Hle. by right.
    + destruct (IH y) as [Hin Hle]. split; [set_solver|]. intros w Hw.
      apply elem_of_cons in Hw as [->|[->|Hw]%elem_of_cons].
      * transitivity (key y); [apply Hle; by left|lia].
      * apply Hle. by left.
      * apply Hle. by right.
Qed.

Lemma min_by_None {A} (cmp : A → A → comparison) l : min_by cmp l = None ↔ l = [].
Proof. by destruct l. Qed.

(** *** Lemmas on weights *)

Definition exact_weight (self : RoleWeightedQuorum) (ms : list Member) : N :=
  foldr (λ m acc, (member_weight self m + acc)%N) 0%N (filter (λ m, m_status m = Up) ms).

Lemma foldl_u32_add_le l acc : (foldl u32_add acc l ≤ acc + foldr N.add 0 l)%N.
Proof.
  revert acc. induction l as [|x l IH]; intros acc; simpl; [lia|].
  specialize (IH (u32_add acc x)).
  assert (u32_add acc x ≤ acc + x)%N by apply N.Div0.mod_le. lia.
Qed.

Lemma reachable_weight_le self r : (reachable_weight self r ≤ exact_weight self r)%N.
Proof.
  unfold reachable_weight, exact_weight. etransitivity; [apply foldl_u32_add_le|].
  rewrite N.add_0_l. generalize (filter (λ m, m_status m = Up) r). intros l.
  induction l as [|m l IH]; [done|]. rewrite fmap_cons. cbn [foldr]. lia.
Qed.

(** *** The strategies discharge the interface *)

#[export] Instance KeepMajority_safe : SplitBrainSafe KeepMajorityStrategy.
Proof.
  refine {| sbr_safe := λ _ _ _ _, True |}.
  intros s1 s2 r u _. unfold sbr_decide, KeepMajority_decide.
  destruct (Nat.ltb_spec (count_up u) (count_up r)), (Nat.ltb_spec (count_up r) (count_up u));
    done || lia.
Defined.

#[export] Instance StaticQuorum_safe : SplitBrainSafe StaticQuorumStrategy.
Proof.
  refine {| sbr_safe := λ s1 s2 r u, length r + length u < quorum_size s1 + quorum_size s2 |}.
  intros s1 s2 r u Hq. unfold sbr_decide, StaticQuorum_decide.
  destruct (Nat.leb_spec (quorum_size s1) (length r)),
           (Nat.leb_spec (quorum_size s2) (length u)); done || lia.
Defined.

#[export] Instance KeepOldest_safe : SplitBrainSafe KeepOldestStrategy.
Proof.
  refine {| sbr_safe := λ _ _ r u, r ≠ [] ∧ u ≠ [] ∧
    ∀ m m', m ∈ r → m' ∈ u → up_number m ≠ up_number m' |}.
  intros s1 s2 r u (Hr & Hu & Hne). unfold sbr_decide, KeepOldest_decide.
  destruct (oldest_number r) as [ro|] eqn:Er; [|by apply min_by_None in Er].
  destruct (oldest_number u) as [uo|] eqn:Eu; [|by apply min_by_None in Eu].
  apply min_by_Z_spec in Er as [Hro _]. apply min_by_Z_spec in Eu as [Huo _].
  specialize (Hne ro uo Hro Huo).
  destruct (Z.leb_spec (up_number ro) (up_number uo)), (Z.leb_spec (up_number uo) (up_number ro));
    done || lia.
Defined.

#[export] Instance KeepReferee_safe : SplitBrainSafe KeepReferee.
Proof.
  refine {| sbr_safe := λ s1 s2 r u, referee s1 = referee s2 ∧
    ∀ m m', m ∈ r → m' ∈ u → Address_to_string (m_address m) ≠ Address_to_string (m_address m') |}.
  intros s1 s2 r u [Href Hdis]. unfold sbr_decide, KeepReferee_decide.
  destruct (existsb _ r) eqn:Er; simpl; [|done]. destruct (existsb _ u) eqn:Eu; simpl; [|done].
  apply existsb_exists in Er as (m & Hm%list_elem_of_In & Hmr%bool_decide_eq_true).
  apply existsb_exists in Eu as (m' & Hm'%list_elem_of_In & Hmu%bool_decide_eq_true).
  destruct (Hdis m m' Hm Hm'). congruence.
Defined.

#[export] Instance DownAll_safe : SplitBrainSafe DownAllStrategy.
Proof. refine {| sbr_safe := λ _ _ _ _, True |}. by intros s1 s2 r [|]. Defined.

#[export] Instance LeaseMajority_safe : SplitBrainSafe LeaseMajorityStrategy.
Proof.
  refine {| sbr_safe := λ s1 s2 _ _, lease_acquired s1 && lease_acquired s2 = false |}.
  intros s1 s2 r u Hl. unfold sbr_decide, LeaseMajority_decide, KeepMajority_decide.
  destruct (Nat.ltb_spec (count_up u) (count_up r)), (Nat.ltb_spec (count_up r) (count_up u));
    destruct (lease_acquired s1), (lease_acquired s2); done || lia.
Defined.

#[export] Instance RoleWeighted_safe : SplitBrainSafe RoleWeightedQuorum.
Proof.
  refine {| sbr_safe := λ s1 s2 r u,
    (exact_weight s1 r + exact_weight s2 u < min_quorum_weight s1 + min_quorum_weight s2)%N |}.
  intros s1 s2 r u Hw. unfold sbr_decide, RoleWeighted_decide.
  pose proof (reachable_weight_le s1 r). pose proof (reachable_weight_le s2 u).
  destruct (N.leb_spec (min_quorum_weight s1) (reachable_weight s1 r)),
           (N.leb_spec (min_quorum_weight s2) (reachable_weight s2 u)); done || lia.
Defined.

#[export] Instance NoSbr_safe : SplitBrainSafe NoSbr.
Proof. refine {| sbr_safe := λ _ _ _ _, True |}. done. Defined.

(** ** Traces of ticks *)

Section traces.
Context {S : Type} `{!DowningStrategy S}.
Implicit Types (rt : SbrRuntime S) (s : MembershipState) (now : N).

(** [true] when the tick sees an unreachable member. *)
Definition partitioned (s : MembershipState) : bool :=
  match (sbr_partition s).2 with [] => false | _ => true end.

Definition sbr_step (acc : SbrRuntime S * list QuorumCall * list SbrAction) (t : MembershipState * N)
    : SbrRuntime S * list QuorumCall * list SbrAction :=
  let '(rt, calls, acts) := acc in
  let '(act, rt', calls') := SbrRuntime_tick t.1 t.2 rt in
  (rt', calls ++ calls', acts ++ [act]).

Definition sbr_run (rt : SbrRuntime S) (ts : list (MembershipState * N))
    : SbrRuntime S * list QuorumCall * list SbrAction :=
  foldl sbr_step (rt, [], []) ts.

(** The calls alternate, a loss first; [b] says whether a loss is pending. *)
Fixpoint alternating (b : bool) (calls : list QuorumCall) : bool :=
  match calls with
  | [] => true
  | on_quorum_lost :: l => negb b && alternating true l
  | on_quorum_regained :: l => b && alternating false l
  end.

(** The last call says whether quorum is lost. *)
Definition pending_loss (calls : list QuorumCall) : bool :=
  match last calls with Some on_quorum_lost => true | _ => false end.

Lemma alternating_snoc b l c :
  alternating b (l ++ [c]) =
  alternating b l && Bool.eqb (match last l with Some on_quorum_lost => true
                                | Some on_quorum_regained => false | None => b end)
                       (match c with on_quorum_lost => false | on_quorum_regained => true end).
Proof.
  revert b. induction l as [|x l IH]; intros b; [by destruct b, c|].
  rewrite last_cons. destruct x; simpl; rewrite IH, andb_assoc; f_equal;
    destruct (last l) as [[]|]; done.
Qed.

Lemma tick_config s now rt :
  strategy (SbrRuntime_tick s now rt).1.2 = strategy rt ∧
  stable_after (SbrRuntime_tick s now rt).1.2 = stable_after rt ∧
  observer (SbrRuntime_tick s now rt).1.2 = observer rt.
Proof.
  unfold SbrRuntime_tick, note_quorum_regained, note_quorum_lost.
  destruct (sbr_partition s) as [r [|m u]]; simpl; [by destruct (quorum_lost rt)|].
  destruct (_ <? _)%N; [done|]. destruct (sbr_decide _ _ _); try done.
  by destruct (quorum_lost rt).
Qed.

(** One tick: the call made, if any, is the change of the flag. *)
Lemma tick_calls s now rt :
  observer rt = true →
  let '(act, rt', calls) := SbrRuntime_tick s now rt in
  match calls with
  | [] => quorum_lost rt' = quorum_lost rt
  | [on_quorum_lost] => quorum_lost rt = false ∧ quorum_lost rt' = true
  | [on_quorum_regained] => quorum_lost rt = true ∧ quorum_lost rt' = false
  | _ => False
  end ∧
  (act = ActDownSelf → quorum_lost rt' = true) ∧
  (partitioned s = false → quorum_lost rt' = false).
Proof.
  intros Hobs. unfold SbrRuntime_tick, note_quorum_regained, note_quorum_lost, partitioned.
  destruct (sbr_partition s) as [r [|m u]]; simpl.
  - destruct (quorum_lost rt) eqn:E; simpl; rewrite ?Hobs; naive_solver.
  - destruct (_ <? _)%N; [done|]. destruct (sbr_decide _ _ _); try done.
    destruct (quorum_lost rt) eqn:E; simpl; rewrite ?Hobs; naive_solver.
Qed.

(** One tick and the stability clock. *)
Lemma tick_clock s now rt :
  let '(act, rt', _) := SbrRuntime_tick s now rt in
  unstable_since rt' = (if partitioned s then Some (default now (unstable_since rt)) else None) ∧
  (act ≠ ActNone →
     partitioned s = true ∧ (stable_after rt ≤ now - default now (unstable_since rt))%N).
Proof.
  unfold SbrRuntime_tick, note_quorum_regained, note_quorum_lost, partitioned.
  destruct (sbr_partition s) as [r [|m u]]; simpl.
  - by destruct (quorum_lost rt).
  - destruct (N.ltb_spec (now - default now (unstable_since rt)) (stable_after rt));
      [done|]. destruct (sbr_decide _ _ _); try done. by destruct (quorum_lost rt).
Qed.

Lemma sbr_run_snoc rt ts t : sbr_run rt (ts ++ [t]) = sbr_step (sbr_run rt ts) t.
Proof. unfold sbr_run. by rewrite foldl_app. Qed.

Lemma sbr_run_config rt ts :
  strategy (sbr_run rt ts).1.1 = strategy rt ∧
  stable_after (sbr_run rt ts).1.1 = stable_after rt ∧
  observer (sbr_run rt ts).1.1 = observer rt.
Proof.
  induction ts as [|[s now] ts IH] using rev_ind; [done|]. rewrite sbr_run_snoc.
  destruct (sbr_run rt ts) as [[rt' calls] acts]. simpl in *.
  pose proof (tick_config s now rt') as Hc.
  destruct (SbrRuntime_tick s now rt') as [[act rt''] calls']. simpl in *. naive_solver congruence.
Qed.

(** The clock of a run: it shows the time of the first tick of the current partition. *)
Lemma sbr_run_clock st after ts t0 :
  unstable_since (sbr_run (SbrRuntime_new st after) ts).1.1 = Some t0 →
  ∃ pre s ts', ts = pre ++ (s, t0) :: ts' ∧
    Forall (λ t, partitioned t.1 = true) ((s, t0) :: ts').
Proof.
  induction ts as [|[s now] ts IH] using rev_ind; [done|]. rewrite sbr_run_snoc.
  destruct (sbr_run _ ts) as [[rt calls] acts]. simpl in *.
  pose proof (tick_clock s now rt) as Hc.
  destruct (SbrRuntime_tick s now rt) as [[act rt'] calls']. simpl in *.
  destruct Hc as [-> _]. destruct (partitioned s) eqn:Hp; [|done].
  destruct (unstable_since rt) as [t|]; simpl; intros [= <-].
  - destruct (IH eq_refl) as (pre & s0 & ts' & -> & Hall).
    exists pre, s0, (ts' ++ [(s, now)]). split; [by rewrite <- app_assoc|].
    apply (Forall_app_2 _ ((s0, t) :: ts')); [done|]. by constructor.
  - exists ts, s, []. split; [done|]. by repeat constructor.
Qed.
End traces.

(** ** Properties *)

(** *** The strategies of the crate in one type ([Box<dyn DowningStrategy>]) *)

Inductive Strategy :=
  | SKeepMajority (s : KeepMajorityStrategy)
  | SStaticQuorum (s : StaticQuorumStrategy)
  | SKeepOldest (s : KeepOldestStrategy)
  | SKeepReferee (s : KeepReferee)
  | SDownAll (s : DownAllStrategy)
  | SLeaseMajority (s : LeaseMajorityStrategy)
  | SRoleWeighted (s : RoleWeightedQuorum)
  | SNone (s : NoSbr).

#[export] Instance Strategy_decide : DowningStrategy Strategy := λ s,
  match s with
  | SKeepMajority s => sbr_decide s
  | SStaticQuorum s => sbr_decide s
  | SKeepOldest s => sbr_decide s
  | SKeepReferee s => sbr_decide s
  | SDownAll s => sbr_decide s
  | SLeaseMajority s => sbr_decide s
  | SRoleWeighted s => sbr_decide s
  | SNone s => sbr_decide s
  end.

(** Two nodes on the sides [r] and [u] of a partition, with the same kind of strategy: two
    quorums do not fit in the cluster, the referee is the same and on one side only, the lease is
    held by one node at most, the oldest members have different numbers. *)
Definition well_configured (s1 s2 : Strategy) (r u : list Member) : Prop :=
  match s1, s2 with
  | SKeepMajority _, SKeepMajority _ | SDownAll _, SDownAll _ | SNone _, SNone _ => True
  | SStaticQuorum a, SStaticQuorum b => length r + length u < quorum_size a + quorum_size b
  | SKeepOldest _, SKeepOldest _ => r ≠ [] ∧ u ≠ [] ∧ ∀ m m', m ∈ r → m' ∈ u → up_number m ≠ up_number m'
  | SKeepReferee a, SKeepReferee b => referee a = referee b ∧
      ∀ m m', m ∈ r → m' ∈ u → Address_to_string (m_address m) ≠ Address_to_string (m_address m')
  | SLeaseMajority a, SLeaseMajority b => lease_acquired a && lease_acquired b = false
  | SRoleWeighted a, SRoleWeighted b =>
      (exact_weight a r + exact_weight b u < min_quorum_weight a + min_quorum_weight b)%N
  | _, _ => False
  end.

Lemma well_configured_safe s1 s2 r u :
  well_configured s1 s2 r u → sbr_decide s1 r u = DownUnreachable → sbr_decide s2 u r = DownUnreachable → False.
Proof. destruct s1 as [s|s|s|s|s|s|s|s], s2 as [t|t|t|t|t|t|t|t]; try done; exact (sbr_not_both s t r u). Qed.

Lemma tick_downs {S} `{!DowningStrategy S} (rt : SbrRuntime S) s now a :
  (SbrRuntime_tick s now rt).1.1 = ActDownUnreachable a →
  sbr_decide (strategy rt) (sbr_partition s).1 (sbr_partition s).2 = DownUnreachable ∧
  a = address_strings (sbr_partition s).2.
Proof.
  unfold SbrRuntime_tick, note_quorum_regained, note_quorum_lost.
  destruct (sbr_partition s) as [r [|m u]]; simpl; [by destruct (quorum_lost rt)|].
  destruct (_ <? _)%N; [done|]. destruct (sbr_decide _ _ _); try done; [naive_solver|].
  by destruct (quorum_lost rt).
Qed.



(** What the strategies decide on the two sides of a partition: with keep-majority
    exactly one side survives unless the up members are tied, and then both sides go
    down; with a lease held by one side a tie is won by that side; with keep-referee at
    most the side of the referee survives and the other one leaves; a static quorum lets
    both sides survive exactly when both reach it. *)
Theorem strategies_decide r u ref n q (l : bool) :
  (count_up r ≠ count_up u →
     (sbr_decide mkKeepMajority r u = DownUnreachable ∧ sbr_decide mkKeepMajority u r = DownSelf) ∨
     (sbr_decide mkKeepMajority r u = DownSelf ∧ sbr_decide mkKeepMajority u r = DownUnreachable)) ∧
  (count_up r = count_up u →
     sbr_decide mkKeepMajority r u = DownAll ∧ sbr_decide mkKeepMajority u r = DownAll ∧
     sbr_decide (mkLeaseMajority true) r u = DownUnreachable ∧
     sbr_decide (mkLeaseMajority false) u r = DownAll) ∧
  (Forall (λ m, Address_to_string (m_address m) ≠ ref) u →
     sbr_decide (mkKeepReferee ref n) u r = DownSelf) ∧
  (sbr_decide (mkStaticQuorum q) r u = DownUnreachable ∧
   sbr_decide (mkStaticQuorum q) u r = DownUnreachable ↔ q ≤ length r ∧ q ≤ length u).
Proof.
  unfold sbr_decide, LeaseMajority_decide, KeepMajority_decide, StaticQuorum_decide,
    KeepReferee_decide. simpl. split_and!.
  - intros Hne. destruct (Nat.ltb_spec (count_up u) (count_up r)),
      (Nat.ltb_spec (count_up r) (count_up u)); auto; lia.
  - intros ->. rewrite Nat.ltb_irrefl. done.
  - intros Hall. destruct (existsb _ u) eqn:E; [|done].
    apply existsb_exists in E as (m & Hm%list_elem_of_In & Hr%bool_decide_eq_true).
    rewrite Forall_forall in Hall. by apply Hall in Hm.
  - destruct (Nat.leb_spec q (length r)), (Nat.leb_spec q (length u)); naive_solver lia.
Qed.

(** The runtime over any sequence of ticks: an observer is told of losses and
    recoveries of quorum alternately, a loss first, its last call says whether quorum
    is lost now, a tick that steps this node down leaves quorum lost and a healthy tick
    leaves it regained; and a tick acts only when a run of consecutive partitioned
    ticks up to it has lasted for the stability window. *)
Theorem SbrRuntime_runs {S} `{!DowningStrategy S} (st : S) after ts s now :
  let '(rt, calls, acts) :=
    sbr_run (SbrRuntime_with_observer (SbrRuntime_new st after)) ts in
  alternating false calls = true ∧ pending_loss calls = quorum_lost rt ∧
  let '(rt0, _, _) := sbr_run (SbrRuntime_new st after) ts in
  let '(act, rt', _) := SbrRuntime_tick s now rt0 in
  (act ≠ ActNone → partitioned s = true ∧
     (after = 0%N ∨ ∃ pre s0 t0 ts', ts = pre ++ (s0, t0) :: ts' ∧
        Forall (λ t, partitioned t.1 = true) ((s0, t0) :: ts') ∧ (t0 + after ≤ now)%N)).
Proof.
  pose proof (sbr_run_clock st after ts) as Hclock.
  pose proof (sbr_run_config (SbrRuntime_new st after) ts) as (_ & Hafter & _).
  destruct (sbr_run (SbrRuntime_new st after) ts) as [[rt0 c0] a0]. simpl in *.
  assert (∀ ts0, let '(rt, calls, acts) :=
      sbr_run (SbrRuntime_with_observer (SbrRuntime_new st after)) ts0 in
    alternating false calls = true ∧ pending_loss calls = quorum_lost rt) as Hcalls.
  { clear. intros ts. induction ts as [|[s now] ts IH] using rev_ind; [done|].
    pose proof (sbr_run_config (SbrRuntime_with_observer (SbrRuntime_new st after)) ts)
      as (_ & _ & Hobs). rewrite sbr_run_snoc.
    destruct (sbr_run _ ts) as [[rt calls] acts]. destruct IH as [Halt Hpend]. simpl in *.
    pose proof (tick_calls s now rt Hobs) as Ht.
    destruct (SbrRuntime_tick s now rt) as [[act rt'] calls']. destruct Ht as [Ht _].
    unfold pending_loss in *.
    destruct calls' as [|[] [|]]; try done; rewrite ?app_nil_r; [by rewrite Ht|..];
      rewrite alternating_snoc, last_snoc, Halt; destruct Ht as [Ht ->]; rewrite Ht in Hpend;
      destruct (last calls) as [[]|]; done. }
  specialize (Hcalls ts). destruct (sbr_run _ ts) as [[rt calls] acts].
  destruct Hcalls as [Halt Hpend]. split_and!; [done..|].
  pose proof (tick_clock s now rt0) as Ht.
  destruct (SbrRuntime_tick s now rt0) as [[act rt'] calls']. destruct Ht as [_ Ht].
  intros Hact. destruct (Ht Hact) as [Hp Hle]. split; [done|]. rewrite Hafter in Hle.
  destruct (unstable_since rt0) as [t0|]; simpl in Hle; [|left; lia].
  destruct (Hclock t0 eq_refl) as (pre & s0 & ts' & -> & Hall).
  destruct (decide (after = 0%N)) as [->|]; [by left|right]. exists pre, s0, t0, ts'.
  split_and!; [done..|]. lia.
Qed.

(** Up numbers are never assigned: all members have number 0, and then keep-oldest lets
    both sides of every partition survive. *)
Lemma KeepOldest_both_survive r u d :
  2 ≤ length r → 2 ≤ length u →
  Forall (λ m, up_number m = 0%Z) r → Forall (λ m, up_number m = 0%Z) u →
  sbr_decide (mkKeepOldest d) r u = DownUnreachable ∧
  sbr_decide (mkKeepOldest d) u r = DownUnreachable.
Proof.
  rewrite !Forall_forall. intros Hr Hu Zr Zu. unfold sbr_decide, KeepOldest_decide.
  destruct (oldest_number r) as [ro|] eqn:Er; [|apply min_by_None in Er; subst; simpl in *; lia].
  destruct (oldest_number u) as [uo|] eqn:Eu; [|apply min_by_None in Eu; subst; simpl in *; lia].
  apply min_by_Z_spec in Er as [Hro%Zr _]. apply min_by_Z_spec in Eu as [Huo%Zu _].
  rewrite Hro, Huo. simpl.
  destruct (Nat.eqb_spec (length r) 1), (Nat.eqb_spec (length u) 1); done || lia.
Qed.
