(* ===== verification/Daemon.v ===== *)
(** * Gossip and the cluster daemon
    ([crates/atomr-cluster/src/gossip.rs], [gossip_pdu.rs], [cluster_daemon.rs],
    [multi_dc.rs], [heartbeat_sender.rs])

    The daemon task owns its state and processes one input at a time: a command of its
    mailbox or a tick of its timer.  The model is a step function over those inputs;
    its effects on the outside (events published on the bus, PDUs handed to the
    transport) are the outputs of the step, in order.  The reading of the clock in
    [do_tick] is an argument.  [cursor : usize] wraps at [2^64]. *)

From stdpp Require Import gmap strings list.
From Stdlib Require Import NArith Lia.
From S2P Require Import Prelude VectorClock Address Membership Sbr.

(** ** Gossip *)

Record Gossip := mkGossip { g_version : VectorClock; g_state : MembershipState }.

Definition Gossip_new : Gossip := mkGossip VectorClock_new MembershipState_new.

Definition Gossip_tick (node : string) (g : Gossip) : Gossip :=
  mkGossip (VectorClock_tick node (g_version g)) (g_state g).

(** The loops insert the members and the records of [self], then those of [other]. *)
Definition Gossip_merge (self other : Gossip) : Gossip :=
  mkGossip (VectorClock_merge (g_version self) (g_version other))
    (let merged := foldl (λ s m, add_or_update m s) MembershipState_new
                     (members (g_state self) ++ members (g_state other)) in
     mkMembershipState (members merged)
       (mkReachability (records (reachability (g_state other)) ∪
                        records (reachability (g_state self))))).

Inductive GossipPdu :=
  | PduStatus (from : string) (version : VectorClock)
  | PduEnvelope (from : string) (version : VectorClock) (state : MembershipState)
  | PduMerge (from : string) (version : VectorClock).

Inductive GossipDecision := SendEnvelope | RequestMerge | MergeBoth | DecideSame.

(** [gossip_pdu::decide]. *)
Definition gossip_decide (local remote : VectorClock) : GossipDecision :=
  match VectorClock_compare local remote with
  | Same => DecideSame
  | After => SendEnvelope
  | Before => RequestMerge
  | Concurrent => MergeBoth
  end.

(** The loop over [offset in 0..total], [n] iterations left. *)
Fixpoint pick_loop (peers : list Address) (self_addr : Address) (cursor : N) (offset n : nat)
    : option Address :=
  match n with
  | O => None
  | S n =>
      let i := (u64_add cursor (N.of_nat offset) mod N.of_nat (length peers))%N in
      match peers !! N.to_nat i with
      | Some p => if decide (p = self_addr) then pick_loop peers self_addr cursor (S offset) n
                  else Some p
      | None => None
      end
  end.

Definition pick_gossip_target (peers : list Address) (self_addr : Address) (cursor : N)
    : option Address :=
  match peers with
  | [] => None
  | _ => pick_loop peers self_addr cursor 0 (length peers)
  end.

(** ** The daemon *)

Inductive DaemonOut :=
  | Publish (e : ClusterEvent)
  | Send (target : Address) (pdu : GossipPdu).

Definition merge_state (local other : MembershipState) : MembershipState :=
  foldl (λ s m, add_or_update m s) local (members other).

Section daemon.
Context {S : Type} `{!DowningStrategy S}.

(** The inputs: [DaemonCmd] and the timer; a tick reads the clock. *)
Inductive DaemonIn :=
  | CmdJoin (m : Member)
  | CmdLeave (a : Address)
  | CmdDown (a : Address)
  | CmdApplyGossip (pdu : GossipPdu)
  | CmdTick (now : N)
  | CmdShutdown
  | TimerTick (now : N).

Record DaemonSnapshot := mkDaemonSnapshot {
  snap_state : MembershipState; snap_leader : option Address; snap_version : VectorClock
}.

Record Daemon := mkDaemon {
  self_addr : Address;
  d_state : MembershipState;
  d_version : VectorClock;
  d_sbr : option (SbrRuntime S);
  last_leader : option Address;
  d_cursor : N;
  d_snapshot : DaemonSnapshot;
  d_running : bool;
}.

Definition run_daemon_init (addr : Address) (sbr : option (SbrRuntime S)) : Daemon :=
  mkDaemon addr MembershipState_new VectorClock_new sbr None 0
    (mkDaemonSnapshot MembershipState_new None VectorClock_new) true.

Definition set_state_version (s : MembershipState) (v : VectorClock) (d : Daemon) : Daemon :=
  mkDaemon (self_addr d) s v (d_sbr d) (last_leader d) (d_cursor d) (d_snapshot d) (d_running d).

(** [version.tick(self_addr.to_string())]. *)
Definition tick_version (d : Daemon) : VectorClock :=
  VectorClock_tick (Address_to_string (self_addr d)) (d_version d).

Definition handle_pdu (pdu : GossipPdu) (d : Daemon) : Daemon * list DaemonOut :=
  let me := Address_to_string (self_addr d) in
  match pdu with
  | PduStatus from their =>
      let target := Address_parse from in
      match gossip_decide (d_version d) their with
      | SendEnvelope | MergeBoth =>
          (d, match target with
              | Some t => [Send t (PduEnvelope me (d_version d) (d_state d))]
              | None => []
              end)
      | RequestMerge =>
          (d, match target with Some t => [Send t (PduMerge me (d_version d))] | None => [] end)
      | DecideSame => (d, [])
      end
  | PduEnvelope _ their their_state =>
      (set_state_version (merge_state (d_state d) their_state)
         (VectorClock_merge (d_version d) their) d, [])
  | PduMerge from _ =>
      (d, match Address_parse from with
          | Some t => [Send t (PduEnvelope me (d_version d) (d_state d))]
          | None => []
          end)
  end.

(** [members.iter_mut().find(|m| m.address.to_string() == a)], set to [Down]. *)
Definition down_by_string (s : MembershipState) (a : string) : MembershipState :=
  match find_assign (λ m, bool_decide (Address_to_string (m_address m) = a))
          (copy_with_status Down) (members s) with
  | Some (_, l) => with_members l s
  | None => s
  end.

(** Step 1 of [do_tick]: leader actions. *)
Definition tick_leader_actions (d : Daemon) : Daemon * list DaemonOut :=
  let '(s, evts) := apply_leader_actions (d_state d) in
  (set_state_version s (match evts with [] => d_version d | _ => tick_version d end) d,
   Publish <$> evts).

(** Step 2: leader change. *)
Definition tick_leader_change (d : Daemon) : Daemon * list DaemonOut :=
  let leader_now := elect_leader (d_state d) in
  if decide (leader_now = last_leader d) then (d, [])
  else (mkDaemon (self_addr d) (d_state d) (d_version d) (d_sbr d) leader_now (d_cursor d)
          (d_snapshot d) (d_running d),
        [Publish (LeaderChanged (last_leader d) leader_now)]).

(** Step 3: split-brain resolution. *)
Definition tick_sbr (now : N) (d : Daemon) : Daemon :=
  match d_sbr d with
  | None => d
  | Some rt =>
      let '(act, rt', _) := SbrRuntime_tick (d_state d) now rt in
      let d := mkDaemon (self_addr d) (d_state d) (d_version d) (Some rt') (last_leader d)
                 (d_cursor d) (d_snapshot d) (d_running d) in
      match act with
      | ActNone | ActDownSelf => d
      | ActDownUnreachable addrs | ActDownAll addrs =>
          set_state_version (foldl down_by_string (d_state d) addrs) (tick_version d) d
      end
  end.

(** Step 4: gossip. *)
Definition tick_gossip (d : Daemon) : Daemon * list DaemonOut :=
  let peers := m_address <$> members (d_state d) in
  match pick_gossip_target peers (self_addr d) (d_cursor d) with
  | Some target =>
      (mkDaemon (self_addr d) (d_state d) (d_version d) (d_sbr d) (last_leader d)
         (u64_add (d_cursor d) 1) (d_snapshot d) (d_running d),
       [Send target (PduStatus (Address_to_string (self_addr d)) (d_version d))])
  | None => (d, [])
  end.

Definition do_tick (now : N) (d : Daemon) : Daemon * list DaemonOut :=
  let '(d, out1) := tick_leader_actions d in
  let '(d, out2) := tick_leader_change d in
  let d := tick_sbr now d in
  let '(d, out4) := tick_gossip d in
  (d, out1 ++ out2 ++ out4).

(** The arms of the [select!] of the loop. *)
Definition handle_input (i : DaemonIn) (d : Daemon) : Daemon * list DaemonOut :=
  match i with
  | CmdJoin m =>
      let '(s, evt) := MembershipState_join m (d_state d) in
      (set_state_version s (tick_version d) d, [Publish evt])
  | CmdLeave a =>
      let '(s, evt) := MembershipState_leave a (d_state d) in
      match evt with
      | Some e => (set_state_version s (tick_version d) d, [Publish e])
      | None => (set_state_version s (d_version d) d, [])
      end
  | CmdDown a =>
      let '(s, evt) := MembershipState_down a (d_state d) in
      match evt with
      | Some e => (set_state_version s (tick_version d) d, [Publish e])
      | None => (set_state_version s (d_version d) d, [])
      end
  | CmdApplyGossip pdu => handle_pdu pdu d
  | CmdTick now | TimerTick now => do_tick now d
  | CmdShutdown =>
      (mkDaemon (self_addr d) (d_state d) (d_version d) (d_sbr d) (last_leader d) (d_cursor d)
         (d_snapshot d) false, [])
  end.

(** One iteration of the loop; a shutdown breaks out before the snapshot is updated. *)
Definition daemon_step (i : DaemonIn) (d : Daemon) : Daemon * list DaemonOut :=
  if d_running d then
    let '(d, out) := handle_input i d in
    if d_running d then
      (mkDaemon (self_addr d) (d_state d) (d_version d) (d_sbr d) (last_leader d) (d_cursor d)
         (mkDaemonSnapshot (d_state d) (elect_leader (d_state d)) (d_version d)) true, out)
    else (d, out)
  else (d, []).

Definition daemon_run (d : Daemon) (inputs : list DaemonIn) : Daemon * list DaemonOut :=
  foldl (λ '(d, out) i, let '(d', out') := daemon_step i d in (d', out ++ out')) (d, []) inputs.
End daemon.
Arguments Daemon _ : clear implicits.

(** ** Lemmas: merging member lists *)

Lemma elem_of_add_or_update m m' s :
  unique_addresses (members s) →
  m' ∈ members (add_or_update m s) ↔
  m' = m ∨ (m' ∈ members s ∧ m_address m' ≠ m_address m).
Proof.
  intros Hu. unfold add_or_update. destruct (find_assign _ _ _) as [[old l]|] eqn:E; simpl.
  - apply find_assign_Some in E as (l1 & l2 & Hl & -> & Ha & Hn).
    unfold unique_addresses in Hu. rewrite Hl, fmap_app, fmap_cons in Hu.
    apply NoDup_app in Hu as (_ & _ & Hu). apply NoDup_cons in Hu as [Hn2 _].
    rewrite Hl, !elem_of_app, !elem_of_cons. rewrite Ha in Hn2.
    assert (m' ∈ l1 → m_address m' ≠ m_address m).
    { intros Hin Heq. apply Hn. apply list_elem_of_fmap. eauto. }
    assert (m' ∈ l2 → m_address m' ≠ m_address m).
    { intros Hin Heq. apply Hn2. apply list_elem_of_fmap. eauto. }
    naive_solver.
  - apply find_assign_None in E. rewrite elem_of_app, list_elem_of_singleton.
    assert (m' ∈ members s → m_address m' ≠ m_address m); [|naive_solver].
    intros Hin Heq. apply E. apply list_elem_of_fmap. eauto.
Qed.

Lemma add_or_update_reachability m s : reachability (add_or_update m s) = reachability s.
Proof. unfold add_or_update. by destruct (find_assign _ _ _) as [[]|]. Qed.

Lemma merge_state_spec local ms :
  unique_addresses (members local) → unique_addresses ms →
  let s := foldl (λ s m, add_or_update m s) local ms in
  unique_addresses (members s) ∧ reachability s = reachability local ∧
  ∀ m, m ∈ members s ↔ m ∈ ms ∨ (m ∈ members local ∧ m_address m ∉ (m_address <$> ms)).
Proof.
  revert local. induction ms as [|x ms IH]; intros local Hu Hms; simpl.
  - split_and!; [done..|]. set_solver.
  - unfold unique_addresses in Hms. rewrite fmap_cons in Hms. apply NoDup_cons in Hms as [Hx Hms].
    destruct (IH (add_or_update x local)) as (Hu' & Hr & Hin);
      [by apply add_or_update_unique|done|].
    split_and!; [done|by rewrite Hr, add_or_update_reachability|]. intros m.
    rewrite Hin, elem_of_add_or_update, elem_of_cons, not_elem_of_cons by done.
    split; [naive_solver|]. intros [[->|Hm]|(Hm & Hne & Hnin)]; auto.
Qed.

Lemma foldl_add_unique local ms :
  unique_addresses (members local) →
  unique_addresses (members (foldl (λ s m, add_or_update m s) local ms)).
Proof.
  revert local. induction ms as [|x ms IH]; intros local Hu; [done|].
  by apply IH, add_or_update_unique.
Qed.

(** ** Lemmas: gossip targets *)

Lemma pick_loop_Some peers self cursor offset n p :
  pick_loop peers self cursor offset n = Some p → p ∈ peers ∧ p ≠ self.
Proof.
  revert offset. induction n as [|n IH]; intros offset; simpl; [done|].
  destruct (peers !! _) as [q|] eqn:E; [|done]. case_decide; [apply IH|].
  intros [= <-]. split; [|done]. by eapply list_elem_of_lookup_2.
Qed.

(** The loop visits every peer: it finds one unless all are the node itself. *)
Lemma pick_loop_None peers self cursor offset n i p :
  (cursor + N.of_nat (offset + n) < u64_modulus)%N → pick_loop peers self cursor offset n = None →
  i < n → peers !! N.to_nat ((cursor + N.of_nat (offset + i)) mod N.of_nat (length peers))%N = Some p → p = self.
Proof.
  revert offset i. induction n as [|n IH]; intros offset i Hb; cbn [pick_loop]; [lia|].
  rewrite u64_add_small by lia. intros Hl Hi Hp. destruct i as [|i].
  - rewrite Nat.add_0_r in Hp. rewrite Hp in Hl. by case_decide.
  - destruct (peers !! N.to_nat ((cursor + N.of_nat offset) mod _)%N) as [q|] eqn:Eq.
    + case_decide; [|done]. apply (IH (Datatypes.S offset) i); [lia|done|lia|].
      by replace (Datatypes.S offset + i) with (offset + Datatypes.S i) by lia.
    + apply lookup_ge_None in Eq. assert (length peers ≠ 0) as Hl0 by (by destruct peers).
      assert ((cursor + N.of_nat offset) mod N.of_nat (length peers) < N.of_nat (length peers))%N
        by (apply N.mod_upper_bound; clear -Hl0; lia).
      generalize dependent ((cursor + N.of_nat offset) mod N.of_nat (length peers))%N. clear. intros. lia.
Qed.

Lemma pick_gossip_finds peers self cursor p :
  (cursor + N.of_nat (length peers) < u64_modulus)%N → p ∈ peers → p ≠ self →
  is_Some (pick_gossip_target peers self cursor).
Proof.
  intros Hb Hp Hne. unfold pick_gossip_target. destruct (pick_loop peers self cursor 0 (length peers)) as [q|] eqn:E.
  - destruct peers; [by apply not_elem_of_nil in Hp|eauto].
  - destruct Hne. apply list_elem_of_lookup_1 in Hp as [j Hj]. pose proof (lookup_lt_Some _ _ _ Hj) as Hlt.
    set (n := N.of_nat (length peers)). assert (n ≠ 0)%N by lia.
    set (i := N.to_nat ((N.of_nat j + (n - cursor mod n)) mod n)%N).
    assert ((N.of_nat j + (n - cursor mod n)) mod n < n)%N as Hi by (by apply N.mod_upper_bound).
    assert (cursor mod n < n)%N as Hc by (by apply N.mod_upper_bound).
    assert (i < length peers) by (unfold i; lia).
    apply (pick_loop_None peers self cursor 0 (length peers) i p); [done|done|done|]. fold n. cbn [Nat.add].
    replace ((cursor + N.of_nat i) mod n)%N with (N.of_nat j); [by rewrite Nat2N.id|].
    unfold i. rewrite N2Nat.id, N.Div0.add_mod_idemp_r.
    rewrite (N.div_mod cursor n) at 1 by done.
    replace (n * (cursor / n) + cursor mod n + (N.of_nat j + (n - cursor mod n)))%N with (N.of_nat j + (cursor / n + 1) * n)%N by lia.
    rewrite N.Div0.mod_add, N.mod_small by lia. done.
Qed.

(** ** Lemmas: the daemon *)

Section daemon_lemmas.
Context {S : Type} `{!DowningStrategy S}.
Implicit Types (d : Daemon S).

Lemma down_by_string_unique s a :
  unique_addresses (members s) → unique_addresses (members (down_by_string s a)).
Proof.
  intros Hu. unfold down_by_string. destruct (find_assign _ _ _) as [[old l]|] eqn:E; [|done].
  simpl. eapply unique_same_addresses; [|done]. clear Hu. revert l E.
  generalize (members s). intros l0. induction l0 as [|x l0 IH]; intros l; simpl; [done|].
  case_bool_decide; [by intros [= <- <-]|].
  destruct (find_assign _ _ l0) as [[m l1]|]; simpl; [|done]. intros [= <- <-].
  rewrite !fmap_cons. f_equal. by apply IH.
Qed.

Lemma foldl_down_unique s addrs :
  unique_addresses (members s) → unique_addresses (members (foldl down_by_string s addrs)).
Proof.
  revert s. induction addrs as [|a addrs IH]; intros s Hu; [done|].
  by apply IH, down_by_string_unique.
Qed.

Lemma tick_sbr_state now d :
  (∃ addrs, d_state (tick_sbr now d) = foldl down_by_string (d_state d) addrs) ∧
  self_addr (tick_sbr now d) = self_addr d ∧ d_running (tick_sbr now d) = d_running d ∧
  (d_version (tick_sbr now d) = d_version d ∨ d_version (tick_sbr now d) = tick_version d).
Proof.
  unfold tick_sbr. destruct (d_sbr d) as [rt|]; [|split_and!; eauto; by exists []].
  destruct (SbrRuntime_tick _ _ rt) as [[act rt'] calls].
  destruct act as [|addrs|addrs|]; simpl; split_and!; eauto; by exists [].
Qed.

Lemma tick_gossip_frame d :
  d_state (tick_gossip d).1 = d_state d ∧ d_version (tick_gossip d).1 = d_version d ∧
  self_addr (tick_gossip d).1 = self_addr d ∧ d_running (tick_gossip d).1 = d_running d.
Proof. unfold tick_gossip. by destruct (pick_gossip_target _ _ _). Qed.

Lemma tick_leader_change_frame d :
  d_state (tick_leader_change d).1 = d_state d ∧ d_version (tick_leader_change d).1 = d_version d ∧
  self_addr (tick_leader_change d).1 = self_addr d ∧
  d_running (tick_leader_change d).1 = d_running d.
Proof. unfold tick_leader_change. by case_decide. Qed.

Lemma tick_leader_actions_frame d :
  d_state (tick_leader_actions d).1 = (apply_leader_actions (d_state d)).1 ∧
  self_addr (tick_leader_actions d).1 = self_addr d ∧
  d_running (tick_leader_actions d).1 = d_running d ∧
  (d_version (tick_leader_actions d).1 = d_version d ∨
   d_version (tick_leader_actions d).1 = tick_version d).
Proof.
  unfold tick_leader_actions. destruct (apply_leader_actions _) as [s evts]. simpl.
  destruct evts; auto.
Qed.

(** The state a tick works on, step by step. *)
Lemma do_tick_steps now d :
  let d1 := (tick_leader_actions d).1 in
  let d2 := (tick_leader_change d1).1 in
  let d3 := tick_sbr now d2 in
  do_tick now d =
  ((tick_gossip d3).1, (tick_leader_actions d).2 ++ (tick_leader_change d1).2 ++ (tick_gossip d3).2).
Proof.
  unfold do_tick. destruct (tick_leader_actions d) as [d1 o1]. simpl.
  destruct (tick_leader_change d1) as [d2 o2]. simpl.
  by destruct (tick_gossip (tick_sbr now d2)) as [d3 o3].
Qed.

Lemma tick_cursor now d :
  d_cursor (tick_sbr now (tick_leader_change (tick_leader_actions d).1).1) = d_cursor d.
Proof.
  unfold tick_sbr, tick_leader_change, tick_leader_actions. destruct (apply_leader_actions _) as [s e]. simpl.
  case_decide; simpl; destruct (d_sbr d) as [rt|]; simpl; try done;
    destruct (SbrRuntime_tick _ _ rt) as [[[] rt'] calls]; done.
Qed.

Lemma do_tick_cursor now d : (d_cursor (do_tick now d).1 ≤ d_cursor d + 1)%N.
Proof.
  rewrite do_tick_steps. simpl. unfold tick_gossip. destruct (pick_gossip_target _ _ _); simpl; rewrite tick_cursor; [|lia].
  apply N.Div0.mod_le.
Qed.

Lemma daemon_run_cursor d inputs : (d_cursor (daemon_run d inputs).1 ≤ d_cursor d + N.of_nat (length inputs))%N.
Proof.
  assert (∀ i d, d_cursor (daemon_step i d).1 ≤ d_cursor d + 1)%N as Hstep.
  { clear. intros i d. unfold daemon_step. destruct (d_running d); [|simpl; lia].
    assert (d_cursor (handle_input i d).1 ≤ d_cursor d + 1)%N as H.
    { destruct i as [m|a|a|pdu|now| |now]; simpl; try lia; try apply do_tick_cursor.
      - destruct (MembershipState_leave a _) as [s [|]]; simpl; lia.
      - destruct (MembershipState_down a _) as [s [|]]; simpl; lia.
      - destruct pdu; simpl; try lia. destruct (gossip_decide _ _); simpl; lia. }
    destruct (handle_input i d) as [d' out]. by destruct (d_running d'). }
  induction inputs as [|i inputs IH] using rev_ind; [simpl; lia|].
  unfold daemon_run in *. rewrite foldl_app, length_app. simpl. destruct (foldl _ _ inputs) as [d1 out1]. simpl in IH.
  specialize (Hstep i d1). destruct (daemon_step i d1). simpl in *. lia.
Qed.
End daemon_lemmas.

Section daemon_theorems.
Context {S : Type} `{!DowningStrategy S}.
Implicit Types (d : Daemon S).

(** The published snapshot is the state the loop holds. *)
Definition snapshot_ok d : Prop :=
  d_snapshot d = mkDaemonSnapshot (d_state d) (elect_leader (d_state d)) (d_version d).

Definition daemon_inv d : Prop :=
  unique_addresses (members (d_state d)) ∧ (d_running d = true → snapshot_ok d).

Lemma do_tick_unique now d :
  unique_addresses (members (d_state d)) → unique_addresses (members (d_state (do_tick now d).1)).
Proof.
  intros Hu. rewrite do_tick_steps. simpl.
  destruct (tick_gossip_frame (tick_sbr now (tick_leader_change (tick_leader_actions d).1).1))
    as (-> & _).
  destruct (tick_sbr_state now (tick_leader_change (tick_leader_actions d).1).1) as ((addrs & ->) & _).
  apply foldl_down_unique.
  destruct (tick_leader_change_frame (tick_leader_actions d).1) as (-> & _).
  destruct (tick_leader_actions_frame d) as (-> & _).
  by apply (membership_step_unique _ OpLeaderTick).
Qed.

Lemma handle_pdu_unique pdu d :
  unique_addresses (members (d_state d)) → unique_addresses (members (d_state (handle_pdu pdu d).1)).
Proof.
  intros Hu. destruct pdu; simpl; [by destruct (gossip_decide _ _)|by apply foldl_add_unique|done].
Qed.

Lemma handle_input_unique i d :
  unique_addresses (members (d_state d)) → unique_addresses (members (d_state (handle_input i d).1)).
Proof.
  intros Hu. destruct i as [m|a|a|pdu|now| |now]; simpl.
  - by apply add_or_update_unique.
  - pose proof (membership_step_unique _ (OpLeave a) Hu) as H. simpl in H.
    by destruct (MembershipState_leave a _) as [s [|]].
  - pose proof (membership_step_unique _ (OpDown a) Hu) as H. simpl in H.
    by destruct (MembershipState_down a _) as [s [|]].
  - by apply handle_pdu_unique.
  - by apply do_tick_unique.
  - done.
  - by apply do_tick_unique.
Qed.

Lemma daemon_step_inv i d : daemon_inv d → daemon_inv (daemon_step i d).1.
Proof.
  intros [Hu Hs]. unfold daemon_step. destruct (d_running d) eqn:Er; [|split; simpl; [done|congruence]].
  pose proof (handle_input_unique i d Hu) as Hu'.
  destruct (handle_input i d) as [d' out]. simpl in Hu'.
  destruct (d_running d') eqn:Er'; simpl; split; done || congruence.
Qed.

Lemma daemon_run_snoc d inputs i :
  daemon_run d (inputs ++ [i]) =
  let '(d1, out1) := daemon_run d inputs in
  let '(d2, out2) := daemon_step i d1 in (d2, out1 ++ out2).
Proof. unfold daemon_run. rewrite foldl_app. simpl. by destruct (foldl _ _ inputs). Qed.

Lemma daemon_run_inv d inputs : daemon_inv d → daemon_inv (daemon_run d inputs).1.
Proof.
  intros Hd. induction inputs as [|i inputs IH] using rev_ind; [done|].
  rewrite daemon_run_snoc. destruct (daemon_run d inputs) as [d1 out1]. simpl in IH.
  pose proof (daemon_step_inv i d1 IH) as H. by destruct (daemon_step i d1).
Qed.

(** Two ticks of the own entry stay in order while they do not overflow. *)
Lemma tick_version_le d :
  (version_of (d_version d) (Address_to_string (self_addr d)) < u64_max)%N →
  clock_le (d_version d) (tick_version d).
Proof. apply tick_le. Qed.

Lemma do_tick_version now d :
  (version_of (d_version d) (Address_to_string (self_addr d)) + 1 < u64_max)%N →
  clock_le (d_version d) (d_version (do_tick now d).1).
Proof.
  intros Hb. rewrite do_tick_steps. simpl.
  set (d1 := (tick_leader_actions d).1). set (d2 := (tick_leader_change d1).1).
  destruct (tick_gossip_frame (tick_sbr now d2)) as (_ & -> & _).
  destruct (tick_sbr_state now d2) as (_ & _ & _ & Hsbr).
  destruct (tick_leader_change_frame d1) as (_ & Hv2 & Ha2 & _). fold d2 in Hv2, Ha2.
  destruct (tick_leader_actions_frame d) as (_ & Ha1 & _ & Hv1). fold d1 in Ha1, Hv1.
  assert (clock_le (d_version d) (d_version d1)) as H1.
  { destruct Hv1 as [->| ->]; [done|]. apply tick_version_le. lia. }
  assert (version_of (d_version d1) (Address_to_string (self_addr d1)) < u64_max)%N as Hb1.
  { destruct Hv1 as [Hv1|Hv1]; rewrite Hv1, Ha1; [lia|]. unfold tick_version.
    rewrite version_of_tick, decide_True by done. rewrite u64_add_small; unfold u64_max, u64_modulus in *; lia. }
  etrans; [exact H1|]. rewrite <- Hv2.
  destruct Hsbr as [->| ->]; [done|]. apply tick_version_le. by rewrite Hv2, Ha2.
Qed.

Lemma daemon_step_version i d :
  (version_of (d_version d) (Address_to_string (self_addr d)) + 1 < u64_max)%N →
  clock_le (d_version d) (d_version (daemon_step i d).1).
Proof.
  intros Hb. unfold daemon_step. destruct (d_running d); [|done].
  assert (clock_le (d_version d) (d_version (handle_input i d).1)) as Hle.
  { assert (clock_le (d_version d) (tick_version d)) by (apply tick_version_le; lia).
    destruct i as [m|a|a|pdu|now| |now]; simpl; try done.
    - by destruct (MembershipState_leave a _) as [s [|]].
    - by destruct (MembershipState_down a _) as [s [|]].
    - destruct pdu; simpl; [by destruct (gossip_decide _ _)|apply merge_le_l|done].
    - by apply do_tick_version.
    - by apply do_tick_version. }
  destruct (handle_input i d) as [d' out]. simpl in Hle. by destruct (d_running d').
Qed.

(** Leader actions publish no leader change. *)
Lemma leader_actions_no_change s from to :
  unique_addresses (members s) → LeaderChanged from to ∉ (apply_leader_actions s).2.
Proof.
  intros Hu. rewrite apply_leader_actions_spec by done. simpl.
  rewrite not_elem_of_app. split.
  - intros (m & _ & He)%list_elem_of_omap. unfold advance_event in He.
    destruct (next_status _ _) as [[]|]; simpl in He; done.
  - destruct (is_converged s); set_solver.
Qed.

(** What a tick tells the outside. *)
Lemma do_tick_outputs now d :
  unique_addresses (members (d_state d)) →
  let d' := (do_tick now d).1 in
  (∀ t pdu, Send t pdu ∈ (do_tick now d).2 →
     t ∈ (m_address <$> members (d_state d')) ∧ t ≠ self_addr d ∧
     pdu = PduStatus (Address_to_string (self_addr d)) (d_version d')) ∧
  (∀ from to, Publish (LeaderChanged from to) ∈ (do_tick now d).2 ↔
     from = last_leader d ∧ to = elect_leader (apply_leader_actions (d_state d)).1 ∧ from ≠ to).
Proof.
  intros Hu. rewrite do_tick_steps. simpl.
  set (d1 := (tick_leader_actions d).1). set (d2 := (tick_leader_change d1).1).
  set (d3 := tick_sbr now d2).
  destruct (tick_gossip_frame d3) as (-> & -> & _).
  destruct (tick_sbr_state now d2) as (_ & Ha3 & _). fold d3 in Ha3.
  destruct (tick_leader_change_frame d1) as (_ & _ & Ha2 & _). fold d2 in Ha2.
  destruct (tick_leader_actions_frame d) as (Hs1 & Ha1 & _). fold d1 in Hs1, Ha1.
  assert (∀ o, o ∈ (tick_leader_actions d).2 → ∃ e, o = Publish e ∧
    e ∈ (apply_leader_actions (d_state d)).2) as Hact.
  { unfold tick_leader_actions. destruct (apply_leader_actions (d_state d)) as [s evts].
    simpl. intros o (e & -> & He)%list_elem_of_fmap. eauto. }
  assert (last_leader d1 = last_leader d) as Hll.
  { unfold d1, tick_leader_actions. by destruct (apply_leader_actions (d_state d)). }
  assert ((tick_gossip d3).2 = [] ∨ ∃ t, (tick_gossip d3).2 =
    [Send t (PduStatus (Address_to_string (self_addr d)) (d_version d3))] ∧
    t ∈ (m_address <$> members (d_state d3)) ∧ t ≠ self_addr d) as Hgos.
  { unfold tick_gossip. destruct (pick_gossip_target _ _ _) as [t|] eqn:E; [right|by left].
    exists t. rewrite Ha3, Ha2, Ha1. split; [done|]. unfold pick_gossip_target in E.
    destruct (m_address <$> members (d_state d3)); [done|].
    apply pick_loop_Some in E. by rewrite Ha3, Ha2, Ha1 in E. }
  split.
  - intros t pdu [Hin|[Hin|Hin]%elem_of_app]%elem_of_app.
    + apply Hact in Hin as (e & ? & _). done.
    + unfold tick_leader_change in Hin. case_decide; simpl in Hin;
        [by apply elem_of_nil in Hin|by apply list_elem_of_singleton in Hin].
    + destruct Hgos as [Hg|(t' & Hg & Ht)]; rewrite Hg in Hin;
        [by apply elem_of_nil in Hin|].
      apply list_elem_of_singleton in Hin as [= -> ->]. by destruct Ht.
  - intros from to. rewrite !elem_of_app. rewrite <- Hs1, <- Hll.
    assert (Publish (LeaderChanged from to) ∉ (tick_leader_actions d).2).
    { intros (e & ? & He)%Hact. simplify_eq. by apply leader_actions_no_change in He. }
    assert (Publish (LeaderChanged from to) ∉ (tick_gossip d3).2).
    { destruct Hgos as [->|(t' & -> & _)]; rewrite ?list_elem_of_singleton, ?elem_of_nil; done || auto. }
    unfold tick_leader_change. case_decide as Heq; simpl.
    { rewrite elem_of_nil. split; [tauto|]. intros (-> & -> & []). done. }
    rewrite list_elem_of_singleton. split.
    + intros [?|[[= -> ->]|?]]; [done| |done]. split_and!; [done..|]. by apply not_eq_sym.
    + intros (-> & -> & _). right. by left.
Qed.
End daemon_theorems.

(** ** Two daemons and their messages *)

Section exchange.
Context {S : Type} `{!DowningStrategy S}.
Implicit Types (a b d : Daemon S).

Definition sends (out : list DaemonOut) : list (Address * GossipPdu) :=
  omap (λ o, match o with Send t p => Some (t, p) | Publish _ => None end) out.

(** Messages are delivered in order to the daemon they are addressed to (others are
    lost); what a delivery sends is queued.  The result has the messages left when
    [fuel] deliveries are used up. *)
Fixpoint net_run (fuel : nat) a b (queue : list (Address * GossipPdu))
    : Daemon S * Daemon S * list (Address * GossipPdu) :=
  match fuel, queue with
  | O, _ | _, [] => (a, b, queue)
  | Datatypes.S fuel, (t, pdu) :: queue =>
      if decide (t = self_addr a) then
        let '(a', out) := daemon_step (CmdApplyGossip pdu) a in
        net_run fuel a' b (queue ++ sends out)
      else if decide (t = self_addr b) then
        let '(b', out) := daemon_step (CmdApplyGossip pdu) b in
        net_run fuel a b' (queue ++ sends out)
      else net_run fuel a b queue
  end.

(** The status message [a] sends to [b] when its tick picks [b]. *)
Definition status_of a b : Address * GossipPdu :=
  (self_addr b, PduStatus (Address_to_string (self_addr a)) (d_version a)).

(** A daemon with its snapshot brought up to date. *)
Definition refresh d : Daemon S :=
  mkDaemon (self_addr d) (d_state d) (d_version d) (d_sbr d) (last_leader d) (d_cursor d)
    (mkDaemonSnapshot (d_state d) (elect_leader (d_state d)) (d_version d)) true.

Lemma deliver_pdu pdu d :
  d_running d = true →
  daemon_step (CmdApplyGossip pdu) d = (refresh (handle_pdu pdu d).1, (handle_pdu pdu d).2).
Proof.
  intros Hr. unfold daemon_step. rewrite Hr. simpl.
  assert (d_running (handle_pdu pdu d).1 = true) as Hr'.
  { destruct pdu; simpl; [by destruct (gossip_decide _ _)|done..]. }
  destruct (handle_pdu pdu d) as [d' out]. simpl in *. by rewrite Hr'.
Qed.

(** The three outcomes of a status exchange: the receiver was up to date, ahead (or
    concurrent), or behind. *)
Lemma net_status a b :
  d_running a = true → d_running b = true → self_addr a ≠ self_addr b →
  address_ok (self_addr a) → address_ok (self_addr b) →
  net_run 3 a b [status_of a b] =
  match gossip_decide (d_version b) (d_version a) with
  | DecideSame => (a, refresh b, [])
  | SendEnvelope | MergeBoth =>
      (refresh (set_state_version (merge_state (d_state a) (d_state b))
         (VectorClock_merge (d_version a) (d_version b)) a), refresh b, [])
  | RequestMerge =>
      (refresh a, refresh (set_state_version (merge_state (d_state b) (d_state a))
         (VectorClock_merge (d_version b) (d_version a)) (refresh b)), [])
  end.
Proof.
  intros Ha Hb Hne Hoka Hokb. apply Address_parse_to_string in Hoka, Hokb.
  unfold status_of. cbn [net_run]. rewrite (decide_False (P := self_addr b = self_addr a)) by done.
  rewrite decide_True by done. rewrite deliver_pdu by done. cbn [handle_pdu fst snd].
  rewrite Hoka. destruct (gossip_decide (d_version b) (d_version a)); cbn [fst snd sends omap list_omap app].
  - rewrite decide_True by done. rewrite deliver_pdu by done. done.
  - rewrite decide_True by done. rewrite deliver_pdu by done. cbn [handle_pdu fst snd].
    rewrite Hokb. cbn [sends omap list_omap app self_addr refresh].
    rewrite decide_False by done. rewrite decide_True by done. rewrite deliver_pdu by done. done.
  - rewrite decide_True by done. rewrite deliver_pdu by done. done.
  - done.
Qed.
End exchange.

Section properties.
Context {S : Type} `{!DowningStrategy S}.
Implicit Types (a b d : Daemon S).

Lemma gossip_decide_spec va vb :
  gossip_decide vb va =
  match bool_decide (clock_le va vb), bool_decide (clock_le vb va) with
  | true, true => DecideSame
  | true, false => SendEnvelope
  | false, true => RequestMerge
  | false, false => MergeBoth
  end.
Proof.
  unfold gossip_decide. rewrite compare_spec.
  by destruct (bool_decide (clock_le vb va)), (bool_decide (clock_le va vb)).
Qed.

Lemma gossip_decide_same va vb : clock_equiv va vb → gossip_decide vb va = DecideSame.
Proof.
  intros He. rewrite gossip_decide_spec, !bool_decide_eq_true_2; [done|..];
    intros k; rewrite (He k); lia.
Qed.

Lemma gossip_decide_behind va vb :
  clock_le vb va → ¬ clock_le va vb → gossip_decide vb va = RequestMerge.
Proof. intros. by rewrite gossip_decide_spec, bool_decide_eq_false_2, bool_decide_eq_true_2. Qed.

Lemma merge_equiv_l va vb : clock_le vb va → clock_equiv (VectorClock_merge va vb) va.
Proof. intros H k. specialize (H k). rewrite version_of_merge. lia. Qed.

Lemma merge_equiv_comm va vb : clock_equiv (VectorClock_merge va vb) (VectorClock_merge vb va).
Proof. intros k. rewrite !version_of_merge. lia. Qed.

Lemma clock_le_equiv va vb : clock_le va vb → clock_le vb va → clock_equiv va vb.
Proof. intros. by apply (anti_symm clock_le). Qed.

(** A tick sends one status message when there is somebody to send it to. *)
Lemma do_tick_gossips now d m :
  m ∈ members (d_state (do_tick now d).1) → m_address m ≠ self_addr d →
  (d_cursor d + N.of_nat (length (members (d_state (do_tick now d).1))) < u64_modulus)%N →
  ∃ t, sends (do_tick now d).2 = [(t, PduStatus (Address_to_string (self_addr d)) (d_version (do_tick now d).1))].
Proof.
  rewrite do_tick_steps. simpl. set (d1 := (tick_leader_actions d).1). set (d2 := (tick_leader_change d1).1).
  set (d3 := tick_sbr now d2). destruct (tick_gossip_frame d3) as (Es & Ev & _). rewrite Es, Ev.
  destruct (tick_sbr_state now d2) as (_ & Ha3 & _). fold d3 in Ha3.
  destruct (tick_leader_change_frame d1) as (_ & _ & Ha2 & _). fold d2 in Ha2.
  destruct (tick_leader_actions_frame d) as (_ & Ha1 & _). fold d1 in Ha1.
  intros Hm Hne Hb. unfold sends. rewrite !omap_app.
  assert (omap (λ o, match o with Send t p => Some (t, p) | Publish _ => None end) (tick_leader_actions d).2 = []) as ->.
  { unfold tick_leader_actions. destruct (apply_leader_actions _) as [s evts]. simpl. clear. by induction evts. }
  assert (omap (λ o, match o with Send t p => Some (t, p) | Publish _ => None end) (tick_leader_change d1).2 = []) as ->.
  { unfold tick_leader_change. by case_decide. }
  unfold tick_gossip. destruct (pick_gossip_finds (m_address <$> members (d_state d3)) (self_addr d3) (d_cursor d3) (m_address m)) as [t Ht].
  - unfold d3, d2, d1. rewrite tick_cursor, length_fmap. exact Hb.
  - by apply list_elem_of_fmap_2.
  - congruence.
  - exists t. rewrite Ht. simpl. by rewrite Ha3, Ha2, Ha1.
Qed.

(** C7: every reachable state of the daemon is sound: after any sequence of commands,
    gossip messages and timer ticks the member list has unique addresses and the
    published snapshot shows exactly the state, the elected leader and the version the
    loop holds; no step moves the version vector backwards while the own counter is
    away from its maximum; a tick sends nothing but one status message, to a member other
    than itself, and it does send one whenever there is such a member (the round-robin
    cursor, which counts ticks, being away from its maximum); and it announces a leader
    change exactly when the elected leader differs from the last one announced. *)
Theorem daemon_reachable_sound addr sbr inputs i now :
  let d := (daemon_run (run_daemon_init (S := S) addr sbr) inputs).1 in
  unique_addresses (members (d_state d)) ∧
  (d_running d = true →
     d_snapshot d = mkDaemonSnapshot (d_state d) (elect_leader (d_state d)) (d_version d)) ∧
  ((version_of (d_version d) (Address_to_string (self_addr d)) + 1 < u64_max)%N →
     clock_le (d_version d) (d_version (daemon_step i d).1)) ∧
  (∀ t pdu, Send t pdu ∈ (do_tick now d).2 →
     t ∈ (m_address <$> members (d_state (do_tick now d).1)) ∧ t ≠ self_addr d ∧
     pdu = PduStatus (Address_to_string (self_addr d)) (d_version (do_tick now d).1)) ∧
  (∀ m, m ∈ members (d_state (do_tick now d).1) → m_address m ≠ self_addr d →
     (N.of_nat (length inputs) + N.of_nat (length (members (d_state (do_tick now d).1))) < u64_modulus)%N →
     ∃ t, sends (do_tick now d).2 =
       [(t, PduStatus (Address_to_string (self_addr d)) (d_version (do_tick now d).1))]) ∧
  (∀ from to, Publish (LeaderChanged from to) ∈ (do_tick now d).2 ↔
     from = last_leader d ∧ to = elect_leader (apply_leader_actions (d_state d)).1 ∧ from ≠ to).
Proof.
  intros d.
  assert (daemon_inv d) as [Hu Hs].
  { apply daemon_run_inv. split; [apply NoDup_nil_2|done]. }
  split_and!; [done|done|apply daemon_step_version|by apply do_tick_outputs| |by apply do_tick_outputs].
  intros m Hm Hne Hb. eapply do_tick_gossips; [exact Hm|exact Hne|].
  pose proof (daemon_run_cursor (run_daemon_init (S := S) addr sbr) inputs) as Hc. fold d in Hc. simpl in Hc. lia.
Qed.

End properties.


(** Merging an envelope overwrites: a stale state sends an up member back to joining,
    and the sender's reachability is not merged. *)
Lemma merge_state_regresses :
  let a := Address_local "a" in
  let up := mkMembershipState [copy_with_status Up (Member_new a [])] Reachability_new in
  let stale := mkMembershipState [Member_new a []]
    (Reachability_terminated (Address_local "o") a Reachability_new) in
  (m_status <$> members (merge_state up stale)) = [Joining] ∧
  Reachability_status a (reachability (merge_state up stale)) = Reachable.
Proof. by vm_compute. Qed.

(** The pure merge downgrades a terminated record. *)
Lemma Gossip_merge_forgets_terminated :
  let o := Address_local "o" in
  let a := Address_local "a" in
  let g r := mkGossip VectorClock_new (mkMembershipState [] r) in
  let dead := Reachability_terminated o a Reachability_new in
  let alive := Reachability_reachable o a Reachability_new in
  Reachability_status a (reachability (g_state (Gossip_merge (g dead) (g alive)))) = Reachable ∧
  Reachability_status a (reachability (g_state (Gossip_merge (g alive) (g dead)))) = Terminated.
Proof. by vm_compute. Qed.
