(* ===== verification/Heartbeat.v ===== *)
(** * Heartbeat scheduling and data centers
    ([crates/atomr-cluster/src/heartbeat_sender.rs], [multi_dc.rs])

    [Instant] and [Duration] are nanoseconds ([N]); [duration_since] saturates at zero
    and subtracting a duration from an earlier instant panics ([None]).  The helper
    [_addr_round_trip] finds the key of a record by pointer identity: it is the key the
    record is stored under. *)

From stdpp Require Import gmap strings list.
From Stdlib Require Import NArith Lia.
From S2P Require Import Prelude Address Membership.

Record PeerHeartbeat := mkPeerHeartbeat { last_tick : N; hb_ticks : N }.

Record HeartbeatSender := mkHeartbeatSender {
  hs_interval : N;
  hs_peers : gmap string PeerHeartbeat;
}.

(** The assertion that the interval is positive. *)
Definition HeartbeatSender_new (interval : N) : option HeartbeatSender :=
  if (interval =? 0)%N then None else Some (mkHeartbeatSender interval ∅).

Definition HeartbeatSender_add_peer (addr : Address) (now : N) (h : HeartbeatSender)
    : option HeartbeatSender :=
  if (now <? hs_interval h)%N then None
  else Some (mkHeartbeatSender (hs_interval h)
    (<[Address_to_string addr := mkPeerHeartbeat (now - hs_interval h) 0]> (hs_peers h))).

Definition HeartbeatSender_remove_peer (addr : Address) (h : HeartbeatSender) : HeartbeatSender :=
  mkHeartbeatSender (hs_interval h) (delete (Address_to_string addr) (hs_peers h)).

Definition HeartbeatSender_peer_count (h : HeartbeatSender) : nat := size (hs_peers h).

Definition HeartbeatSender_due_peers (now : N) (h : HeartbeatSender) : list Address :=
  omap (λ '(k, hb), if (hs_interval h <=? now - last_tick hb)%N then Address_parse k else None)
    (map_to_list (hs_peers h)).

Definition HeartbeatSender_record_tick (addr : Address) (now : N) (h : HeartbeatSender)
    : HeartbeatSender :=
  match hs_peers h !! Address_to_string addr with
  | Some hb => mkHeartbeatSender (hs_interval h)
      (<[Address_to_string addr := mkPeerHeartbeat now (u64_add (hb_ticks hb) 1)]> (hs_peers h))
  | None => h
  end.

(** ** Data centers *)

Definition DC_ROLE_PREFIX : string := "dc-".
Definition DEFAULT_DC : string := "default".

Fixpoint roles_dc (roles : list string) : string :=
  match roles with
  | [] => DEFAULT_DC
  | role :: roles =>
      match strip_prefix DC_ROLE_PREFIX role with
      | Some rest => rest
      | None => roles_dc roles
      end
  end.

Definition member_dc (m : Member) : string := roles_dc (m_roles m).

Definition same_dc (a b : Member) : bool := bool_decide (member_dc a = member_dc b).

Record CrossDcSettings := mkCrossDcSettings {
  cross_heartbeat_interval : N;
  acceptable_pause : N;
  max_monitored_peers : nat;
}.

(** 5 s, 30 s, 5 peers. *)
Definition CrossDcSettings_default : CrossDcSettings :=
  mkCrossDcSettings 5000000000 30000000000 5.

Definition heartbeat_interval_for (local peer : Member) (local_interval : N)
    (cross : CrossDcSettings) : N :=
  if same_dc local peer then local_interval else cross_heartbeat_interval cross.

(** The loop of [partition_by_dc]: two output lists, in input order. *)
Definition partition_by_dc (local : Member) (peers : list Member) : list Member * list Member :=
  foldl (λ '(in_dc, cross) p,
    if same_dc local p then (in_dc ++ [p], cross) else (in_dc, cross ++ [p])) ([], []) peers.

(** ** Lemmas *)

Lemma partition_by_dc_spec local peers :
  partition_by_dc local peers =
  (filter (λ p, same_dc local p = true) peers, filter (λ p, same_dc local p = false) peers).
Proof.
  unfold partition_by_dc.
  assert (∀ a b, foldl (λ '(in_dc, cross) p,
    if same_dc local p then (in_dc ++ [p], cross) else (in_dc, cross ++ [p])) (a, b) peers =
    (a ++ filter (λ p, same_dc local p = true) peers,
     b ++ filter (λ p, same_dc local p = false) peers)) as H; [|apply (H [] [])].
  induction peers as [|p peers IH]; intros a b; [by rewrite !app_nil_r|].
  cbn [foldl]. rewrite !filter_cons.
  destruct (same_dc local p); repeat case_decide; try done; rewrite IH, <- app_assoc; done.
Qed.

(** An address is due exactly when its own record is old enough. *)
Lemma elem_of_due_peers now h a :
  address_ok a → (∀ k, k ∈ dom (hs_peers h) → ∃ b, address_ok b ∧ k = Address_to_string b) →
  a ∈ HeartbeatSender_due_peers now h ↔
  ∃ hb, hs_peers h !! Address_to_string a = Some hb ∧ (hs_interval h ≤ now - last_tick hb)%N.
Proof.
  intros Ha Hk. unfold HeartbeatSender_due_peers. rewrite list_elem_of_omap. split.
  - intros ([k hb] & Hin & Hp). apply elem_of_map_to_list in Hin.
    destruct (N.leb_spec (hs_interval h) (now - last_tick hb)); [|done].
    destruct (Hk k) as (b & Hb & ->); [by apply elem_of_dom|].
    rewrite Address_parse_to_string in Hp by done. simplify_eq. eauto.
  - intros (hb & Hl & Hle). exists (Address_to_string a, hb).
    split; [by apply elem_of_map_to_list|].
    destruct (N.leb_spec (hs_interval h) (now - last_tick hb)); [|lia].
    by apply Address_parse_to_string.
Qed.

(** Keys are printed addresses. *)
Definition keys_ok (h : HeartbeatSender) : Prop :=
  ∀ k, k ∈ dom (hs_peers h) → ∃ b, address_ok b ∧ k = Address_to_string b.

(** Heartbeat scheduling: a peer that was just added is due at once, a peer that
    was ticked at some time is due again exactly from one interval later on and not
    before, ticking one peer does not change whether another is due, and a removed
    peer is never due. *)
Theorem HeartbeatSender_schedule h h' a b now t :
  address_ok a → address_ok b → a ≠ b → keys_ok h →
  HeartbeatSender_add_peer a now h = Some h' →
  a ∈ HeartbeatSender_due_peers now h' ∧
  (a ∈ HeartbeatSender_due_peers t (HeartbeatSender_record_tick a now h') ↔
     (hs_interval h ≤ t - now)%N) ∧
  (b ∈ HeartbeatSender_due_peers t (HeartbeatSender_record_tick a now h') ↔
     b ∈ HeartbeatSender_due_peers t h) ∧
  a ∉ HeartbeatSender_due_peers t (HeartbeatSender_remove_peer a h').
Proof.
  intros Ha Hb Hne Hk. unfold HeartbeatSender_add_peer.
  destruct (N.ltb_spec now (hs_interval h)) as [|Hnow]; [done|]. intros [= <-].
  assert (Address_to_string a ≠ Address_to_string b) as Hs
    by (intros ?; apply Hne; by apply Address_to_string_inj).
  unfold HeartbeatSender_record_tick. simpl. rewrite lookup_insert_eq. simpl.
  rewrite !elem_of_due_peers; simpl; rewrite ?lookup_insert_eq, ?lookup_delete_eq;
    rewrite ?dom_insert_L, ?dom_delete_L; try done; try set_solver.
  rewrite !lookup_insert_ne by done. split_and!.
  - eexists. split; [done|]. simpl. lia.
  - split; [intros (hb & [= <-] & ?); done|eauto].
  - done.
  - naive_solver.
Qed.

Lemma HeartbeatSender_schedule_witness :
  let a := Address_local "a" in
  ∃ h h', HeartbeatSender_new 10 = Some h ∧ HeartbeatSender_add_peer a 100 h = Some h' ∧
  a ∈ HeartbeatSender_due_peers 100 h'.
Proof.
  intros a. eexists _, _. split; [reflexivity|]. split; [reflexivity|].
  refine (proj1 (HeartbeatSender_schedule (mkHeartbeatSender 10 ∅) _ a (Address_local "b") 100 0
    _ _ _ _ eq_refl)); [by vm_compute|by vm_compute|done|].
  intros k Hk. simpl in Hk. by rewrite dom_empty_L in Hk.
Defined.
