(* ===== verification/Queues.v ===== *)
(** * Mailbox queues and stash
    ([crates/atomr-core/src/util/bounded_queue.rs], [dispatch/message_queues.rs],
    [dispatch/mailbox.rs] (overflow strategies), [actor/stash.rs])

    A [VecDeque] is a list, front first; operations return the queue they leave.  A
    [BinaryHeap] is the bag of its elements as a list: [pop] removes a greatest one (which
    one, among equal elements, is not specified by the standard library; the theorem on
    the stable queue shows that there the choice does not arise). *)

From stdpp Require Import list sorting.
From Stdlib Require Import NArith ZArith Lia.
From S2P Require Import Prelude Membership.

(** ** Bounded FIFO queue *)

Record BoundedQueue (T : Type) := mkBoundedQueue { bq_cap : nat; bq_inner : list T }.
Arguments mkBoundedQueue {_} _ _.
Arguments bq_cap {_} _.
Arguments bq_inner {_} _.

Section bounded.
Context {T : Type}.
Implicit Types (q : BoundedQueue T) (msg : T).

Definition BoundedQueue_new (cap : nat) : BoundedQueue T := mkBoundedQueue cap [].
Definition BoundedQueue_len q : nat := length (bq_inner q).
Definition BoundedQueue_is_full q : bool := bq_cap q <=? length (bq_inner q).

(** [Err(item)] is [inl item]. *)
Definition BoundedQueue_push msg q : (T + unit) * BoundedQueue T :=
  if BoundedQueue_is_full q then (inl msg, q)
  else (inr tt, mkBoundedQueue (bq_cap q) (bq_inner q ++ [msg])).

Definition BoundedQueue_pop q : option T * BoundedQueue T :=
  match bq_inner q with
  | [] => (None, q)
  | x :: l => (Some x, mkBoundedQueue (bq_cap q) l)
  end.

Definition BoundedQueue_pop_back q : option T * BoundedQueue T :=
  match last (bq_inner q) with
  | None => (None, q)
  | Some x => (Some x, mkBoundedQueue (bq_cap q) (removelast (bq_inner q)))
  end.

Definition BoundedQueue_push_front msg q : (T + unit) * BoundedQueue T :=
  if BoundedQueue_is_full q then (inl msg, q)
  else (inr tt, mkBoundedQueue (bq_cap q) (msg :: bq_inner q)).

(** ** Message queues *)

Inductive OverflowStrategy := DropNew | DropHead | DropTail | OverflowFail.

Inductive PushOutcome :=
  | Accepted
  | Dropped (dropped : T)
  | PushRejected (msg : T).

Record BoundedMsgQueue := mkBoundedMsgQueue { mq_inner : BoundedQueue T; mq_overflow : OverflowStrategy }.

Definition BoundedMsgQueue_with_overflow (cap : nat) (o : OverflowStrategy) : BoundedMsgQueue :=
  mkBoundedMsgQueue (BoundedQueue_new cap) o.

(** [inner.push(msg)] with the outcome for each result. *)
Definition push_outcome (ok : PushOutcome) msg q : PushOutcome * BoundedQueue T :=
  match BoundedQueue_push msg q with
  | (inr _, q') => (ok, q')
  | (inl m, q') => (PushRejected m, q')
  end.

Definition push_with_strategy msg (mq : BoundedMsgQueue) : PushOutcome * BoundedMsgQueue :=
  let q := mq_inner mq in
  let '(out, q') :=
    if negb (BoundedQueue_is_full q) then push_outcome Accepted msg q
    else match mq_overflow mq with
         | OverflowFail | DropNew => (PushRejected msg, q)
         | DropHead =>
             match BoundedQueue_pop q with
             | (Some dropped, q') => push_outcome (Dropped dropped) msg q'
             | (None, q') => (PushRejected msg, q')
             end
         | DropTail =>
             match BoundedQueue_pop_back q with
             | (Some dropped, q') => push_outcome (Dropped dropped) msg q'
             | (None, q') => (PushRejected msg, q')
             end
         end in
  (out, mkBoundedMsgQueue q' (mq_overflow mq)).

Definition BoundedMsgQueue_push msg (mq : BoundedMsgQueue) : (T + unit) * BoundedMsgQueue :=
  match push_with_strategy msg mq with
  | (Accepted, mq') => (inr tt, mq')
  | (Dropped dropped, mq') => (inl dropped, mq')
  | (PushRejected m, mq') => (inl m, mq')
  end.

Definition BoundedMsgQueue_pop (mq : BoundedMsgQueue) : option T * BoundedMsgQueue :=
  let '(x, q) := BoundedQueue_pop (mq_inner mq) in (x, mkBoundedMsgQueue q (mq_overflow mq)).

(** *** Control-aware queue *)

Inductive ControlAware := Control (m : T) | User (m : T).

Record ControlAwareQueue := mkControlAwareQueue { ca_control : list T; ca_user : list T }.

Definition ControlAwareQueue_new : ControlAwareQueue := mkControlAwareQueue [] [].

Definition ControlAwareQueue_push (msg : ControlAware) (q : ControlAwareQueue) : ControlAwareQueue :=
  match msg with
  | Control m => mkControlAwareQueue (ca_control q ++ [m]) (ca_user q)
  | User m => mkControlAwareQueue (ca_control q) (ca_user q ++ [m])
  end.

Definition ControlAwareQueue_pop (q : ControlAwareQueue) : option T * ControlAwareQueue :=
  match ca_control q with
  | m :: l => (Some m, mkControlAwareQueue l (ca_user q))
  | [] => match ca_user q with
          | m :: l => (Some m, mkControlAwareQueue [] l)
          | [] => (None, q)
          end
  end.

Definition ControlAwareQueue_len (q : ControlAwareQueue) : nat :=
  length (ca_control q) + length (ca_user q).

(** *** Stash *)

Inductive StashOverflow := DropOldest | DropNewest | Reject.

Inductive StashResult :=
  | Stashed (depth : nat)
  | StashRejected (m : T)
  | DroppedOldest (m : T)
  | DroppedNewest.

Record BoundedStash := mkBoundedStash { bs_capacity : nat; bs_policy : StashOverflow; bs_buf : list T }.

(** The assertion that the capacity is at least one. *)
Definition BoundedStash_new (capacity : nat) (policy : StashOverflow) : option BoundedStash :=
  if 1 <=? capacity then Some (mkBoundedStash capacity policy []) else None.

Definition BoundedStash_is_full (s : BoundedStash) : bool := bs_capacity s <=? length (bs_buf s).

Definition with_buf (l : list T) (s : BoundedStash) : BoundedStash :=
  mkBoundedStash (bs_capacity s) (bs_policy s) l.

Definition BoundedStash_stash (msg : T) (s : BoundedStash) : StashResult * BoundedStash :=
  if negb (BoundedStash_is_full s) then
    let s' := with_buf (bs_buf s ++ [msg]) s in (Stashed (length (bs_buf s')), s')
  else
    match bs_policy s with
    | DropOldest =>
        let s' := with_buf (tail (bs_buf s) ++ [msg]) s in
        match head (bs_buf s) with
        | Some old => (DroppedOldest old, s')
        | None => (Stashed (length (bs_buf s')), s')
        end
    | DropNewest => (DroppedNewest, s)
    | Reject => (StashRejected msg, s)
    end.

Definition BoundedStash_unstash_all (s : BoundedStash) : list T * BoundedStash :=
  (bs_buf s, with_buf [] s).

Definition BoundedStash_pop (s : BoundedStash) : option T * BoundedStash :=
  match bs_buf s with
  | [] => (None, s)
  | m :: l => (Some m, with_buf l s)
  end.
End bounded.
Arguments BoundedMsgQueue _ : clear implicits.
Arguments ControlAwareQueue _ : clear implicits.
Arguments ControlAware _ : clear implicits.
Arguments PushOutcome _ : clear implicits.
Arguments BoundedStash _ : clear implicits.
Arguments StashResult _ : clear implicits.

(** ** Priority queues *)

(** [BinaryHeap::pop]: a greatest element and the rest of the bag. *)
Fixpoint heap_pop {A} (cmp : A → A → comparison) (l : list A) : option (A * list A) :=
  match l with
  | [] => None
  | x :: l =>
      match heap_pop cmp l with
      | None => Some (x, [])
      | Some (y, r) => match cmp x y with Lt => Some (y, x :: r) | _ => Some (x, y :: r) end
      end
  end.

(** [trait Prioritized]. *)
Class Prioritized (T : Type) := priority : T → Z.

Section priority.
Context {T : Type} `{!Prioritized T}.

Record PriItem := mkPriItem { pi_prio : Z; pi_inner : T }.

Definition PriItem_cmp (a b : PriItem) : comparison := Z.compare (pi_prio a) (pi_prio b).

Record PriorityQueue := mkPriorityQueue { pq_heap : list PriItem }.

Definition PriorityQueue_push (msg : T) (q : PriorityQueue) : PriorityQueue :=
  mkPriorityQueue (mkPriItem (priority msg) msg :: pq_heap q).

Definition PriorityQueue_pop (q : PriorityQueue) : option T * PriorityQueue :=
  match heap_pop PriItem_cmp (pq_heap q) with
  | None => (None, q)
  | Some (i, r) => (Some (pi_inner i), mkPriorityQueue r)
  end.

Record StableItem := mkStableItem { si_prio : Z; si_seq : N; si_inner : T }.

Definition StableItem_cmp (a b : StableItem) : comparison :=
  then_with (Z.compare (si_prio a) (si_prio b)) (N.compare (si_seq b) (si_seq a)).

Record StablePriorityQueue := mkStablePriorityQueue { sq_heap : list StableItem; sq_seq : N }.

Definition StablePriorityQueue_new : StablePriorityQueue := mkStablePriorityQueue [] 0.

Definition StablePriorityQueue_push (msg : T) (q : StablePriorityQueue) : StablePriorityQueue :=
  mkStablePriorityQueue (mkStableItem (priority msg) (sq_seq q) msg :: sq_heap q)
    (u64_add (sq_seq q) 1).

Definition StablePriorityQueue_pop (q : StablePriorityQueue) : option T * StablePriorityQueue :=
  match heap_pop StableItem_cmp (sq_heap q) with
  | None => (None, q)
  | Some (i, r) => (Some (si_inner i), mkStablePriorityQueue r (sq_seq q))
  end.
End priority.
Arguments StablePriorityQueue _ : clear implicits.
Arguments StableItem _ : clear implicits.
Arguments PriorityQueue _ : clear implicits.
Arguments PriItem _ : clear implicits.

(** ** Generic lemmas on sublists *)

Lemma Forall_sublist {A} (P : A → Prop) l l' : l' `sublist_of` l → Forall P l → Forall P l'.
Proof.
  intros Hs. rewrite !Forall_forall. intros Hall x Hx. apply Hall.
  eapply elem_of_submseteq; [done|]. by apply sublist_submseteq.
Qed.

Lemma StronglySorted_sublist {A} (R : relation A) l l' :
  l' `sublist_of` l → StronglySorted R l → StronglySorted R l'.
Proof.
  induction 1 as [|x l1 l2 Hs IH|x l1 l2 Hs IH]; intros Hl; [done|..];
    apply StronglySorted_inv in Hl as [Hl Hx]; [|by apply IH].
  constructor; [by apply IH|by eapply Forall_sublist].
Qed.

(** ** Lemmas on heaps *)

Section heap.
Context {A : Type} (cmp : A → A → comparison).
(** The order is given by a relation that [cmp] decides. *)
Context (le : relation A) `{!PreOrder le} `{!Total le}
  (cmp_Lt : ∀ x y, cmp x y = Lt → le x y) (cmp_not_Lt : ∀ x y, cmp x y ≠ Lt → le y x).

Lemma heap_pop_spec l :
  match heap_pop cmp l with
  | None => l = []
  | Some (x, r) => l ≡ₚ x :: r ∧ ∀ y, y ∈ r → le y x
  end.
Proof.
  induction l as [|x l IH]; simpl; [done|].
  destruct (heap_pop cmp l) as [[y r]|].
  - destruct IH as [Hp Hle]. destruct (cmp x y) eqn:E.
    + assert (le y x) by (apply cmp_not_Lt; by rewrite E). rewrite Hp. split; [done|].
      intros z [->|Hz]%elem_of_cons; [done|]. etrans; [by apply Hle|done].
    + rewrite Hp. split; [apply Permutation_swap|].
      intros z [->|Hz]%elem_of_cons; [by apply cmp_Lt|by apply Hle].
    + assert (le y x) by (apply cmp_not_Lt; by rewrite E). rewrite Hp. split; [done|].
      intros z [->|Hz]%elem_of_cons; [done|]. etrans; [by apply Hle|done].
  - subst. split; [done|]. intros z Hz. by apply elem_of_nil in Hz.
Qed.
End heap.

Section stable.
Context {T : Type} `{!Prioritized T}.
Implicit Types (q : StablePriorityQueue T) (l : list T).

(** Higher priority first, then the lower sequence number. *)
Definition item_le (a b : StableItem T) : Prop :=
  (si_prio a < si_prio b)%Z ∨ (si_prio a = si_prio b ∧ (si_seq b ≤ si_seq a)%N).

#[local] Instance item_le_preorder : PreOrder item_le.
Proof. split; [intros a; right; lia|]. intros a b c. unfold item_le. lia. Qed.

#[local] Instance item_le_total : Total item_le.
Proof. intros a b. unfold item_le. lia. Qed.

Lemma StableItem_cmp_Lt (a b : StableItem T) : StableItem_cmp a b = Lt → item_le a b.
Proof.
  unfold StableItem_cmp, item_le.
  destruct (Z.compare_spec (si_prio a) (si_prio b)); simpl; try lia; [|done].
  destruct (N.compare_spec (si_seq b) (si_seq a)); try done; lia.
Qed.

Lemma StableItem_cmp_not_Lt (a b : StableItem T) : StableItem_cmp a b ≠ Lt → item_le b a.
Proof.
  unfold StableItem_cmp, item_le.
  destruct (Z.compare_spec (si_prio a) (si_prio b)); simpl; try lia; [|done].
  destruct (N.compare_spec (si_seq b) (si_seq a)); try done; lia.
Qed.

(** ** Specification: the messages waiting, in arrival order *)

(** The first of the messages with the highest priority, and the others. *)
Fixpoint stable_pop (l : list T) : option (T * list T) :=
  match l with
  | [] => None
  | x :: l' =>
      match stable_pop l' with
      | None => Some (x, [])
      | Some (y, r) => if (priority y <=? priority x)%Z then Some (x, l') else Some (y, x :: r)
      end
  end.

Inductive PQOp := PQPush (msg : T) | PQPop.

Definition pq_step (s : StablePriorityQueue T * list (option T)) (op : PQOp)
    : StablePriorityQueue T * list (option T) :=
  match op with
  | PQPush msg => (StablePriorityQueue_push msg s.1, s.2)
  | PQPop => let '(x, q) := StablePriorityQueue_pop s.1 in (q, s.2 ++ [x])
  end.

Definition ref_step (s : list T * list (option T)) (op : PQOp) : list T * list (option T) :=
  match op with
  | PQPush msg => (s.1 ++ [msg], s.2)
  | PQPop => match stable_pop s.1 with
             | Some (x, l) => (l, s.2 ++ [Some x])
             | None => (s.1, s.2 ++ [None])
             end
  end.

(** The simulation relation: the heap holds the waiting messages, numbered in arrival
    order below the next number. *)
Definition pq_rel q l : Prop :=
  ∃ items, sq_heap q ≡ₚ items ∧ si_inner <$> items = l ∧
    StronglySorted (λ a b, si_seq a < si_seq b)%N items ∧
    Forall (λ i, si_seq i < sq_seq q)%N items ∧ Forall (λ i, si_prio i = priority (si_inner i)) items.

(** On numbered items the specification takes the greatest one. *)
Lemma stable_pop_items (items : list (StableItem T)) :
  StronglySorted (λ a b, si_seq a < si_seq b)%N items →
  Forall (λ i, si_prio i = priority (si_inner i)) items →
  match stable_pop (si_inner <$> items) with
  | None => items = []
  | Some (x, l) => ∃ i r, x = si_inner i ∧ l = si_inner <$> r ∧ items ≡ₚ i :: r ∧
      r `sublist_of` items ∧ ∀ j, j ∈ r → item_le j i
  end.
Proof.
  induction items as [|i items IH]; intros Hs Hp; [done|]. rewrite fmap_cons. cbn [stable_pop].
  apply StronglySorted_inv in Hs as [Hs Hlt]. apply Forall_cons in Hp as [Hpi Hp].
  specialize (IH Hs Hp). destruct (stable_pop (si_inner <$> items)) as [[y l]|].
  - destruct IH as (j & r & -> & -> & Hperm & Hsub & Hle).
    assert (j ∈ items) as Hj by (rewrite Hperm; by left).
    rewrite Forall_forall in Hlt, Hp. pose proof (Hlt j Hj). pose proof (Hp j Hj).
    destruct (Z.leb_spec (priority (si_inner j)) (priority (si_inner i))); simpl.
        + exists i, items. split_and!; [done..|by constructor|].
      intros k Hk. assert (item_le k j) as Hkj.
      { rewrite Hperm in Hk. apply elem_of_cons in Hk as [->|Hk]; [done|by apply Hle]. }
      pose proof (Hlt k Hk). unfold item_le in *. lia.
    + exists j, (i :: r). split_and!; [done|done| |by constructor|].
      * rewrite Hperm. apply Permutation_swap.
      * intros k [->|Hk]%elem_of_cons; [unfold item_le; lia|by apply Hle].
  - subst. exists i, []. split_and!; [done..|by repeat constructor|].
    intros k Hk. by apply elem_of_nil in Hk.
Qed.

(** A greatest element of a numbered bag is unique. *)
Lemma greatest_unique (items r r' : list (StableItem T)) i i' :
  StronglySorted (λ a b, si_seq a < si_seq b)%N items →
  items ≡ₚ i :: r → items ≡ₚ i' :: r' →
  (∀ j, j ∈ r → item_le j i) → (∀ j, j ∈ r' → item_le j i') →
  i = i'.
Proof.
  intros Hs Hp Hp' Hle Hle'.
  assert (∀ a b, a ∈ items → b ∈ items → si_seq a = si_seq b → a = b) as Hinj.
  { clear -Hs. induction Hs as [|x l Hs IH Hlt]; intros a b Ha Hb Heq;
      [by apply elem_of_nil in Ha|]. rewrite Forall_forall in Hlt.
    apply elem_of_cons in Ha as [Ha|Ha]; apply elem_of_cons in Hb as [Hb|Hb]; subst; [done|..].
    - pose proof (Hlt _ Hb). lia.
    - pose proof (Hlt _ Ha). lia.
    - by apply IH. }
  assert (i ∈ items) as Hi by (rewrite Hp; by left).
  assert (i' ∈ items) as Hi' by (rewrite Hp'; by left).
  assert (item_le i i').
  { rewrite Hp' in Hi. apply elem_of_cons in Hi as [->|Hi]; [done|by apply Hle']. }
  assert (item_le i' i).
  { rewrite Hp in Hi'. apply elem_of_cons in Hi' as [->|Hi']; [done|by apply Hle]. }
  apply Hinj; [done..|]. unfold item_le in *. lia.
Qed.

Lemma pq_rel_push q l msg :
  (sq_seq q < u64_max)%N → pq_rel q l → pq_rel (StablePriorityQueue_push msg q) (l ++ [msg]).
Proof.
  intros Hb (items & Hp & <- & Hs & Hlt & Hpr).
  exists (items ++ [mkStableItem (priority msg) (sq_seq q) msg]). simpl.
  rewrite u64_add_small by (unfold u64_max, u64_modulus in *; lia). split_and!.
  - rewrite Hp. apply Permutation_cons_append.
  - by rewrite fmap_app.
  - apply StronglySorted_app_2; [|done|by repeat constructor].
    rewrite Forall_forall in Hlt. intros a b Ha ->%list_elem_of_singleton. by apply Hlt.
  - apply Forall_app_2; [|by repeat constructor; simpl; lia].
    eapply Forall_impl; [exact Hlt|]. simpl. lia.
  - apply Forall_app_2; [done|by repeat constructor].
Qed.

Lemma pq_rel_pop q l :
  pq_rel q l →
  match stable_pop l with
  | Some (x, l') => (StablePriorityQueue_pop q).1 = Some x ∧ pq_rel (StablePriorityQueue_pop q).2 l'
  | None => StablePriorityQueue_pop q = (None, q)
  end.
Proof.
  intros (items & Hp & <- & Hs & Hlt & Hpr). unfold StablePriorityQueue_pop.
  pose proof (heap_pop_spec StableItem_cmp item_le StableItem_cmp_Lt StableItem_cmp_not_Lt (sq_heap q)) as Hh.
  pose proof (stable_pop_items items Hs Hpr) as Hr.
  destruct (stable_pop (si_inner <$> items)) as [[x l']|].
  - destruct Hr as (i & r & -> & -> & Hperm & Hsub & Hle).
    destruct (heap_pop _ _) as [[i' r']|].
    + destruct Hh as [Hp' Hle']. simpl.
      assert (i = i') as <-.
      { eapply (greatest_unique items); [done|exact Hperm|by rewrite <- Hp|done|done]. }
      split; [done|]. exists r. simpl. split_and!.
      * apply (Permutation_cons_inv (a := i)). by rewrite <- Hp', Hp.
      * done.
      * by eapply StronglySorted_sublist.
      * by eapply Forall_sublist.
      * by eapply Forall_sublist.
    + rewrite Hh in Hp. apply Permutation_nil in Hp. subst. by apply Permutation_nil_cons in Hperm.
  - subst. destruct (heap_pop _ _) as [[i' r']|]; [|done].
    destruct Hh as [Hp' _]. rewrite Hp' in Hp. symmetry in Hp. by apply Permutation_nil_cons in Hp.
Qed.

(** C24: the stable priority queue refines its specification: for any sequence of
    fewer than 2^64 pushes and pops, the pops return exactly what the list of waiting
    messages gives when each pop takes the earliest message of the highest priority
    (so messages of equal priority come out in arrival order), whatever element of
    equal rank the heap would prefer. *)
Theorem StablePriorityQueue_refines (ops : list PQOp) :
  (N.of_nat (length ops) < u64_max)%N →
  let '(q, outs) := foldl pq_step (StablePriorityQueue_new, []) ops in
  let '(l, ref_outs) := foldl ref_step ([], []) ops in
  outs = ref_outs ∧ length (sq_heap q) = length l.
Proof.
  intros Hlen.
  assert (∀ ops', (N.of_nat (length ops') ≤ N.of_nat (length ops))%N →
    let '(q, outs) := foldl pq_step (StablePriorityQueue_new, []) ops' in
    let '(l, ref_outs) := foldl ref_step ([], []) ops' in
    outs = ref_outs ∧ pq_rel q l ∧ (sq_seq q ≤ N.of_nat (length ops'))%N) as Hinv.
  { intros ops'. induction ops' as [|op ops' IH] using rev_ind; intros Hl.
    - simpl. split_and!; [done| |lia]. exists []. by repeat constructor.
    - rewrite length_app in *. simpl in *. rewrite !foldl_app. simpl.
      specialize (IH ltac:(lia)).
      destruct (foldl pq_step _ ops') as [q outs], (foldl ref_step _ ops') as [l refs].
      destruct IH as (-> & Hrel & Hseq). destruct op as [msg|]; simpl.
      + split_and!; [done|apply pq_rel_push; [lia|done]|].
        rewrite u64_add_small; unfold u64_modulus, u64_max in *; lia.
      + pose proof (pq_rel_pop q l Hrel) as Hpop.
        destruct (stable_pop l) as [[x l']|].
        * destruct Hpop as [Hx Hq]. unfold StablePriorityQueue_pop in *.
          destruct (heap_pop _ _) as [[i r]|]; simpl in *; simplify_eq. split_and!; [done..|lia].
        * rewrite Hpop. split_and!; [done..|lia]. }
  specialize (Hinv ops ltac:(lia)).
  destruct (foldl pq_step _ ops) as [q outs], (foldl ref_step _ ops) as [l refs].
  destruct Hinv as (-> & (items & Hp & <- & _) & _). split; [done|].
  by rewrite Hp, length_fmap.
Qed.
End stable.

Lemma StablePriorityQueue_refines_witness :
  let _ : Prioritized (Z * nat) := fst in
  let ops := [PQPush (1%Z, 0); PQPush (5%Z, 1); PQPush (5%Z, 2); PQPop; PQPop; PQPop; PQPop] in
  (foldl pq_step (StablePriorityQueue_new, []) ops).2 =
    [Some (5%Z, 1); Some (5%Z, 2); Some (1%Z, 0); None].
Proof.
  intros P ops.
  transitivity ((foldl ref_step ([], []) ops).2); [|by vm_compute].
  pose proof (StablePriorityQueue_refines ops ltac:(by vm_compute)) as H.
  destruct (foldl pq_step _ ops) as [q outs], (foldl ref_step _ ops) as [l refs].
  exact (proj1 H).
Defined.

(** ** Bounded queues *)

Section bounded_properties.
Context {T : Type}.

(** What an outcome gives back to the caller. *)
Definition returned (o : PushOutcome T) : list T :=
  match o with Accepted => [] | Dropped m | PushRejected m => [m] end.

Lemma removelast_last_app (l : list T) x : last l = Some x → removelast l ++ [x] = l.
Proof.
  intros Hl. apply last_Some in Hl as [l' ->]. by rewrite removelast_last.
Qed.

Lemma length_removelast (l : list T) : length (removelast l) = length l - 1.
Proof.
  destruct l as [|x l] using rev_ind; [done|]. rewrite removelast_last, length_app. simpl. lia.
Qed.

Lemma push_outcome_room ok (msg : T) q :
  length (bq_inner q) < bq_cap q →
  push_outcome ok msg q = (ok, mkBoundedQueue (bq_cap q) (bq_inner q ++ [msg])).
Proof.
  intros H. unfold push_outcome, BoundedQueue_push, BoundedQueue_is_full.
  destruct (Nat.leb_spec (bq_cap q) (length (bq_inner q))); [lia|done].
Qed.

(** A bounded mailbox never holds more than its capacity and never loses a message
    silently: the messages waiting after a push together with what the push gives back
    are those waiting before plus the new one; with room the message goes to the back,
    and when full the strategy decides: drop-new and fail refuse the message,
    drop-head gives back the oldest, drop-tail the newest, and the new message is last
    in line. *)
Theorem push_with_strategy_correct (msg : T) mq :
  length (bq_inner (mq_inner mq)) ≤ bq_cap (mq_inner mq) →
  let q := mq_inner mq in
  let '(out, mq') := push_with_strategy msg mq in
  let q' := mq_inner mq' in
  bq_cap q' = bq_cap q ∧ mq_overflow mq' = mq_overflow mq ∧
  length (bq_inner q') ≤ bq_cap q ∧
  bq_inner q' ++ returned out ≡ₚ bq_inner q ++ [msg] ∧
  (length (bq_inner q) < bq_cap q → out = Accepted ∧ bq_inner q' = bq_inner q ++ [msg]) ∧
  (length (bq_inner q) = bq_cap q →
     match mq_overflow mq, bq_inner q with
     | DropHead, x :: l => out = Dropped x ∧ bq_inner q' = l ++ [msg]
     | DropTail, x :: l => ∃ y, last (x :: l) = Some y ∧ out = Dropped y ∧
                           bq_inner q' = removelast (x :: l) ++ [msg]
     | _, _ => out = PushRejected msg ∧ q' = q
     end).
Proof.
  unfold push_with_strategy, BoundedQueue_is_full. destruct mq as [[cap l] o].
  cbn [mq_inner mq_overflow bq_cap bq_inner]. intros Hinv.
  destruct (Nat.leb_spec cap (length l)) as [Hfull|Hroom]; cbn [negb].
  - destruct o; cbn [mq_inner mq_overflow bq_cap bq_inner returned BoundedQueue_pop];
      [split_and!; done || lia| | |split_and!; done || lia].
    + destruct l as [|x l]; cbn in *; [split_and!; done || lia|].
      rewrite push_outcome_room by (simpl; lia). cbn. rewrite length_app. cbn.
      split_and!; try done; try lia. rewrite Permutation_app_comm. done.
    + unfold BoundedQueue_pop_back. cbn [bq_inner bq_cap].
      destruct (last l) as [y|] eqn:Hy.
      * pose proof (length_removelast l) as Hrl.
        assert (0 < length l) by (destruct l; [done|simpl; lia]).
        rewrite push_outcome_room by (cbn [bq_inner bq_cap]; lia). cbn [mq_inner mq_overflow bq_cap bq_inner returned].
        rewrite length_app. cbn [length]. split_and!; [done|done|lia| |lia|].
        -- rewrite <- (removelast_last_app l y Hy) at 2. rewrite <- !app_assoc.
           apply Permutation_app_head, Permutation_app_comm.
        -- destruct l as [|x l]; [done|]. intros _. by exists y.
      * apply last_None in Hy. subst l. cbn in *. split_and!; done || lia.
  - rewrite push_outcome_room by done. cbn [mq_inner mq_overflow bq_cap bq_inner returned].
    rewrite length_app, app_nil_r. cbn [length]. split_and!; done || lia.
Qed.

(** A bounded stash keeps at most its capacity, in arrival order; what it cannot
    keep is the oldest message (given back), the new one (given back or discarded,
    depending on the policy), and unstashing returns everything kept, oldest first. *)
Lemma BoundedStash_correct (msg : T) s :
  length (bs_buf s) ≤ bs_capacity s → 1 ≤ bs_capacity s →
  let '(res, s') := BoundedStash_stash msg s in
  length (bs_buf s') ≤ bs_capacity s' ∧ bs_capacity s' = bs_capacity s ∧
  (length (bs_buf s) < bs_capacity s →
     res = Stashed (S (length (bs_buf s))) ∧ bs_buf s' = bs_buf s ++ [msg]) ∧
  (length (bs_buf s) = bs_capacity s →
     match bs_policy s, bs_buf s with
     | DropOldest, old :: l => res = DroppedOldest old ∧ bs_buf s' = l ++ [msg]
     | DropNewest, _ => res = DroppedNewest ∧ s' = s
     | Reject, _ => res = StashRejected msg ∧ s' = s
     | DropOldest, [] => False
     end) ∧
  (BoundedStash_unstash_all s').1 = bs_buf s' ∧ bs_buf (BoundedStash_unstash_all s').2 = [].
Proof.
  intros Hlen Hcap. unfold BoundedStash_stash, BoundedStash_is_full, with_buf.
  destruct (Nat.leb_spec (bs_capacity s) (length (bs_buf s))); cbn [negb].
  - destruct s as [cap [] buf]; cbn in *; [|split_and!; done || lia..].
    destruct buf as [|old l]; cbn in *; [lia|]. rewrite length_app. cbn.
    split_and!; done || lia.
  - cbn. rewrite length_app. cbn. split_and!; try done; try lia.
    intros _. split; [|done]. f_equal. lia.
Qed.

(** Popping a control-aware queue until it is empty. *)
Fixpoint control_drain (fuel : nat) (q : ControlAwareQueue T) : list T :=
  match fuel with
  | 0 => []
  | S fuel => match ControlAwareQueue_pop q with
              | (Some m, q') => m :: control_drain fuel q'
              | (None, _) => []
              end
  end.

Definition is_control (m : ControlAware T) : option T :=
  match m with Control x => Some x | User _ => None end.
Definition is_user (m : ControlAware T) : option T :=
  match m with User x => Some x | Control _ => None end.

(** Control messages come out before user messages, each kind in arrival order. *)
Lemma ControlAwareQueue_order msgs :
  let q := foldl (λ q m, ControlAwareQueue_push m q) ControlAwareQueue_new msgs in
  control_drain (ControlAwareQueue_len q) q = omap is_control msgs ++ omap is_user msgs.
Proof.
  assert (∀ cs us, control_drain (length cs + length us) (mkControlAwareQueue cs us) = cs ++ us) as Hd.
  { intros cs us. induction cs as [|c cs IH]; simpl; [|by rewrite IH].
    induction us as [|u us IH]; simpl; [done|]. by rewrite IH. }
  assert (∀ cs us, foldl (λ q m, ControlAwareQueue_push m q) (mkControlAwareQueue cs us) msgs =
    mkControlAwareQueue (cs ++ omap is_control msgs) (us ++ omap is_user msgs)) as Hp.
  { induction msgs as [|[m|m] msgs IH]; intros cs us; simpl; [by rewrite !app_nil_r|..];
      rewrite IH; simpl; by rewrite <- app_assoc. }
  simpl. unfold ControlAwareQueue_new. rewrite Hp. apply Hd.
Qed.
End bounded_properties.

Lemma push_with_strategy_correct_witness :
  let mq := mkBoundedMsgQueue (mkBoundedQueue 2 [1; 2]) DropHead in
  let '(_, mq') := push_with_strategy 3 mq in length (bq_inner (mq_inner mq')) ≤ 2.
Proof.
  pose proof (push_with_strategy_correct 3 (mkBoundedMsgQueue (mkBoundedQueue 2 [1; 2]) DropHead)
    ltac:(simpl; lia)) as H.
  exact (proj1 (proj2 (proj2 H))).
Defined.

