(* ===== verification/Supervision.v ===== *)
(** * Supervision ([crates/atomr-core/src/supervision.rs])

    A decider is a function of the panic message.  The [f32] factor of a throttle is
    only carried around: it is kept as its bit pattern. *)

From stdpp Require Import strings list sorting.
From Stdlib Require Import NArith Lia.
From S2P Require Import Prelude.

Record PanicPayload := mkPanicPayload { pp_module : string; pp_qualname : string; pp_repr : string }.

Definition class_path (p : PanicPayload) : string :=
  match pp_module p with
  | EmptyString => pp_qualname p
  | _ => pp_module p +:+ "." +:+ pp_qualname p
  end.

Definition to_wire (p : PanicPayload) : string := class_path p +:+ ": " +:+ pp_repr p.

Inductive SuspendMode := FlatOnly | RiskReducingOnly | FullHalt.

#[export] Instance SuspendMode_eq_dec : EqDecision SuspendMode.
Proof. solve_decision. Defined.

Inductive Directive :=
  | Resume
  | Restart
  | DStop
  | Escalate
  | Throttle (factor_bits : N) (window : N)
  | Suspend (mode : SuspendMode)
  | ResumeFrom (mode : SuspendMode).

#[export] Instance Directive_eq_dec : EqDecision Directive.
Proof. solve_decision. Defined.

Inductive StrategyKind := OneForOne | AllForOne.

(** Durations are nanoseconds; [max_retries] is a [u32]. *)
Record SupervisorStrategy := mkSupervisorStrategy {
  ss_kind : StrategyKind;
  max_retries : option N;
  within : option N;
  decider : string → Directive;
}.

Definition strategy_decide (s : SupervisorStrategy) (err : string) : Directive := decider s err.

Definition on_max_retries (s : SupervisorStrategy) : Directive := Escalate.

(** Ten restarts a minute, always restart. *)
Definition OneForOneStrategy_default : SupervisorStrategy :=
  mkSupervisorStrategy OneForOne (Some 10%N) (Some 60000000000%N) (λ _, Restart).

Definition AllForOneStrategy_default : SupervisorStrategy :=
  mkSupervisorStrategy AllForOne (Some 10%N) (Some 60000000000%N) (λ _, Restart).

Definition with_max_retries (n : N) (s : SupervisorStrategy) : SupervisorStrategy :=
  mkSupervisorStrategy (ss_kind s) (Some n) (within s) (decider s).

Definition with_within (d : N) (s : SupervisorStrategy) : SupervisorStrategy :=
  mkSupervisorStrategy (ss_kind s) (max_retries s) (Some d) (decider s).

Definition with_decider (f : string → Directive) (s : SupervisorStrategy) : SupervisorStrategy :=
  mkSupervisorStrategy (ss_kind s) (max_retries s) (within s) f.

(** ** The restart budget of a cell ([actor_cell.rs], the [Restart] arm)

    [history] is the sliding window of admitted restarts, oldest first. *)

(** The [while let Some(front)] loop. *)
Fixpoint prune_history (w now : N) (history : list N) : list N :=
  match history with
  | [] => []
  | front :: rest => if (w <? now - front)%N then prune_history w now rest else history
  end.

(** [(restart_history.len() as u32) + 1], wrapping. *)
Definition next_count (history : list N) : N :=
  ((N.of_nat (length history) mod 2 ^ 32 + 1) mod 2 ^ 32)%N.

(** The decision on one restart: [None] when the budget is exceeded, otherwise the
    history afterwards. *)
Definition admit_restart (strategy : option SupervisorStrategy) (now : N) (history : list N)
    : option (list N) :=
  match strategy ≫= max_retries with
  | None => Some history
  | Some max =>
      let history := match strategy ≫= within with
                     | Some w => prune_history w now history
                     | None => history
                     end in
      if (max <? next_count history)%N then None else Some (history ++ [now])
  end.

(** A run of restart requests at the given times: the admitted ones and the window, up
    to the first one refused. *)
Fixpoint restart_run (s : option SupervisorStrategy) (times : list N) (history : list N)
    : list N * list N * bool :=
  match times with
  | [] => ([], history, true)
  | now :: times =>
      match admit_restart s now history with
      | None => ([], history, false)
      | Some history' =>
          let '(adm, h, ok) := restart_run s times history' in (now :: adm, h, ok)
      end
  end.

(** ** Lemmas *)

Lemma prune_history_suffix w now history :
  ∃ old, history = old ++ prune_history w now history ∧
    Forall (λ t, w < now - t)%N old.
Proof.
  induction history as [|t h IH]; simpl; [by exists []|].
  destruct (N.ltb_spec w (now - t)).
  - destruct IH as (old & Heq & Hall). exists (t :: old). simpl. rewrite Heq at 1. by split; [|constructor].
  - by exists [].
Qed.

(** In a window sorted by time, pruning keeps exactly the recent restarts. *)
Lemma prune_history_recent w now history t :
  StronglySorted N.le history → Forall (λ t, t ≤ now)%N history →
  t ∈ prune_history w now history → (now - t ≤ w)%N.
Proof.
  induction history as [|x h IH]; intros Hs Hn; simpl; [by intros ?%elem_of_nil|].
  apply StronglySorted_inv in Hs as [Hs Hx]. apply Forall_cons in Hn as [Hxn Hn].
  destruct (N.ltb_spec w (now - x)) as [|Hw]; [by apply IH|].
  intros [->|Ht]%elem_of_cons; [done|]. rewrite Forall_forall in Hx. specialize (Hx t Ht). lia.
Qed.

Lemma next_count_small history :
  (N.of_nat (length history) + 1 < 2 ^ 32)%N →
  next_count history = (N.of_nat (length history) + 1)%N.
Proof. intros H. unfold next_count. rewrite (N.mod_small (N.of_nat _)) by lia. by apply N.mod_small. Qed.

(** The window holds the restarts admitted so far that are not yet too old. *)
Record window_ok (w max now : N) (past history : list N) : Prop := {
  wo_split : ∃ old, past = old ++ history ∧ Forall (λ t, w < now - t)%N old;
  wo_sorted : StronglySorted N.le past;
  wo_before : Forall (λ t, t ≤ now)%N past;
  wo_length : (N.of_nat (length history) ≤ max)%N;
}.

Lemma StronglySorted_snoc (l : list N) x :
  StronglySorted N.le l → Forall (λ t, t ≤ x)%N l → StronglySorted N.le (l ++ [x]).
Proof.
  intros Hl Hx. induction Hl as [|y l Hl IH Hy]; simpl; [by repeat constructor|].
  apply Forall_cons in Hx as [Hyx Hx]. constructor; [by apply IH|].
  apply Forall_app_2; [done|by repeat constructor].
Qed.

(** One admitted restart keeps the invariant, and is more than [w] after the restart
    [max] places before it. *)
Lemma window_ok_admit s w max now0 now past history history' :
  max_retries s = Some max → within s = Some w → (max + 1 < 2 ^ 32)%N → (now0 ≤ now)%N →
  window_ok w max now0 past history →
  admit_restart (Some s) now history = Some history' →
  window_ok w max now (past ++ [now]) history' ∧
  (∀ i a, past !! i = Some a → i + N.to_nat max = length past → (w < now - a)%N).
Proof.
  intros Hmax Hw Hsmall Hnow [(old & -> & Hold) Hsort Hbef Hlen]. unfold admit_restart. simpl.
  rewrite Hmax, Hw. destruct (prune_history_suffix w now history) as (old' & Heq & Hold').
  set (kept := prune_history w now history) in *.
  assert (length history = length old' + length kept) as Hhl by (rewrite Heq; apply length_app).
  rewrite next_count_small by lia.
  destruct (N.ltb_spec max (N.of_nat (length kept) + 1)) as [|Hfit]; [done|]. intros [= <-].
  assert (Forall (λ t, w < now - t)%N (old ++ old')) as Hall.
  { apply Forall_app_2; [|done]. eapply Forall_impl; [exact Hold|]. simpl. lia. }
  assert (Forall (λ t, t ≤ now)%N (old ++ history)) as Hbef'.
  { eapply Forall_impl; [exact Hbef|]. simpl. lia. }
  split.
  - split.
    + exists (old ++ old'). split; [|done]. rewrite Heq at 1. by rewrite <- !app_assoc.
    + by apply StronglySorted_snoc.
    + apply Forall_app_2; [done|by repeat constructor].
    + rewrite length_app. simpl. lia.
  - intros i a Hi Hidx. rewrite length_app in Hidx.
    rewrite Heq, app_assoc, lookup_app_l in Hi by (rewrite length_app; lia).
    rewrite Forall_lookup in Hall. by eapply Hall.
Qed.

(** A refused restart comes after [max] restarts in its window. *)
Lemma window_ok_refuse s w max now0 now past history :
  max_retries s = Some max → within s = Some w → (max + 1 < 2 ^ 32)%N → (now0 ≤ now)%N →
  window_ok w max now0 past history →
  admit_restart (Some s) now history = None →
  (max ≤ N.of_nat (length (filter (λ t, now - t ≤ w)%N past)))%N.
Proof.
  intros Hmax Hw Hsmall Hnow [(old & -> & Hold) Hsort Hbef Hlen]. unfold admit_restart. simpl.
  rewrite Hmax, Hw. destruct (prune_history_suffix w now history) as (old' & Heq & Hold').
  pose proof (prune_history_recent w now history) as Hrec.
  set (kept := prune_history w now history) in *.
  assert (length history = length old' + length kept) as Hhl by (rewrite Heq; apply length_app).
  rewrite next_count_small by lia.
  destruct (N.ltb_spec max (N.of_nat (length kept) + 1)) as [Hover|]; [|done]. intros _.
  apply StronglySorted_app in Hsort as (_ & _ & Hsort). apply Forall_app in Hbef as [_ Hbef].
  assert (Forall (λ t, now - t ≤ w)%N kept) as Hkept.
  { rewrite Forall_forall. intros t Ht. apply Hrec; [done| |done].
    eapply Forall_impl; [exact Hbef|]. simpl. lia. }
  rewrite filter_app, length_app, Heq, filter_app, length_app.
  rewrite (filter_all _ kept Hkept). lia.
Qed.

Lemma restart_run_window s w max times now0 past history :
  max_retries s = Some max → within s = Some w → (max + 1 < 2 ^ 32)%N →
  window_ok w max now0 past history → StronglySorted N.le (now0 :: times) →
  (∀ i a b, past !! i = Some a → past !! (i + N.to_nat max) = Some b → (w < b - a)%N) →
  let '(adm, h, ok) := restart_run (Some s) times history in
  (∀ i a b, (past ++ adm) !! i = Some a → (past ++ adm) !! (i + N.to_nat max) = Some b →
     (w < b - a)%N) ∧
  (ok = false → ∃ now, times !! length adm = Some now ∧
     (max ≤ N.of_nat (length (filter (λ t, now - t ≤ w)%N (past ++ adm))))%N) ∧
  (ok = true → adm = times).
Proof.
  intros Hmax Hw Hsmall. revert now0 past history.
  induction times as [|now times IH]; intros now0 past history Hok Hsort Hpast; simpl.
  - rewrite app_nil_r. done.
  - apply StronglySorted_inv in Hsort as [Hsort Hnow]. apply Forall_cons in Hnow as [Hnow _].
    destruct (admit_restart (Some s) now history) as [history'|] eqn:E.
    + destruct (window_ok_admit s w max now0 now past history history') as [Hok' Hgap]; try done.
      specialize (IH now (past ++ [now]) history' Hok' Hsort).
      destruct (restart_run (Some s) times history') as [[adm h] ok].
      rewrite <- app_assoc in IH. simpl in IH. destruct IH as (Hgaps & Href & Hall).
      { intros i a b Ha Hb. apply lookup_app_Some in Hb as [Hb|[Hlen Hb]].
        - rewrite lookup_app_l in Ha by (apply lookup_lt_Some in Hb; lia). by eapply Hpast.
        - apply list_lookup_singleton_Some in Hb as [Hz <-].
          destruct (decide (N.to_nat max = 0)) as [Hm|Hm].
          + exfalso. unfold admit_restart in E. simpl in E. rewrite Hmax, Hw in E.
            assert (max = 0%N) as -> by lia. rewrite next_count_small in E.
            * destruct (N.ltb_spec 0 (N.of_nat (length (prune_history w now history)) + 1)); [done|lia].
            * destruct Hok as [_ _ _ Hl]. destruct (prune_history_suffix w now history) as (o & Ho & _).
              apply (f_equal length) in Ho. rewrite length_app in Ho. lia.
          + rewrite lookup_app_l in Ha by lia. eapply Hgap; [done|lia]. }
      split_and!; [done| |by intros ->%Hall].
      intros ->. destruct (Href eq_refl) as (t & Ht & Hle). by exists t.
    + rewrite app_nil_r. split_and!; [done| |done]. intros _. exists now. split; [done|].
      by eapply window_ok_refuse.
Qed.

(** C23: the restart budget is a sliding window: when a strategy allows [max] restarts
    within [w], no [max + 1] consecutive restarts ever happen within [w], and a restart
    is refused (the actor is stopped) only if [max] restarts lie in the window before
    it; without a refusal every requested restart happens. *)
Theorem restart_budget s max w times :
  max_retries s = Some max → within s = Some w → (max + 1 < 2 ^ 32)%N →
  StronglySorted N.le times →
  let '(adm, h, ok) := restart_run (Some s) times [] in
  (∀ i a b, adm !! i = Some a → adm !! (i + N.to_nat max) = Some b → (w < b - a)%N) ∧
  (ok = false → ∃ now, times !! length adm = Some now ∧
     (max ≤ N.of_nat (length (filter (λ t, now - t ≤ w)%N adm)))%N) ∧
  (ok = true → adm = times).
Proof.
  intros Hmax Hw Hsmall Hsort.
  apply (restart_run_window s w max times 0 []); try done.
  - split; [by exists []|constructor|constructor|simpl; lia].
  - constructor; [done|]. apply Forall_forall. intros. lia.
Qed.

Lemma restart_budget_witness :
  let s := with_max_retries 2 (with_within 10 OneForOneStrategy_default) in
  let '(adm, h, ok) := restart_run (Some s) [1; 5; 12; 13; 14]%N [] in
  ∃ now, [1; 5; 12; 13; 14]%N !! length adm = Some now ∧
    (2 ≤ N.of_nat (length (filter (λ t, now - t ≤ 10)%N adm)))%N.
Proof.
  intros s.
  assert (StronglySorted N.le [1; 5; 12; 13; 14]%N) as Hs by (apply (bool_decide_unpack _); by vm_compute).
  pose proof (restart_budget s 2 10 [1; 5; 12; 13; 14]%N eq_refl eq_refl eq_refl Hs) as H.
  exact (proj1 (proj2 H) eq_refl).
Defined.
