(* ===== verification/ActorCell.v ===== *)
(** * Actor contexts and cells
    ([crates/atomr-core/src/actor/context.rs], [actor_cell.rs], [metadata.rs])

    An actor is user code: the class [Actor] has its hooks as functions of the actor's
    state and its context, a panic of [handle] being an error value.  User code reaches
    the context only through its public methods, which is the law [ActorLaws] asks for.

    The cell is a step function over its two mailboxes.  What a cell does that others
    can see (hooks it runs, tasks it spawns, messages it sends, observers and
    interceptors it calls, the name slot it frees) is recorded in the trace of the
    context, in order.  The actors of a system have one type of states and one of
    messages, which stands for the sum of the types of the program. *)

From stdpp Require Import gmap strings list.
From Stdlib Require Import NArith Lia.
From S2P Require Import Prelude Address Supervision.

(** ** References *)

(** The two channels of an actor are made together when it is spawned.  They are named
    by the place of the spawn: the [n]-th actor that the owner of [ch] spawns gets
    [ch ++ [n]], so that no two spawns share a name. *)
Abbreviation Chan := (list nat).

(** A local reference has the path and the channels of an actor, a remote one has a
    handle, which delivers to its path. *)
Inductive UntypedActorRef := ULocal (path : ActorPath) (chan : Chan) | URemote (path : ActorPath).

Definition ref_path (r : UntypedActorRef) : ActorPath :=
  match r with ULocal p _ => p | URemote p => p end.

Definition is_remote_ref (r : UntypedActorRef) : bool :=
  match r with ULocal _ _ => false | URemote _ => true end.

(** Where a message to a reference goes. *)
Definition ref_dest (r : UntypedActorRef) : Chan + ActorPath :=
  match r with ULocal _ ch => inl ch | URemote p => inr p end.

Record ChildEntry := mkChild { ce_path : ActorPath; ce_chan : Chan }.

#[export] Instance ChildEntry_eq_dec : EqDecision ChildEntry.
Proof. solve_decision. Defined.

(** ** Messages and trace *)

Inductive LifecyclePhase := PhaseStarting | PhaseRunning | PhaseStopping.

Inductive Sender := SenderLocal (r : UntypedActorRef) | SenderRemote (p : ActorPath) | SenderNone.

Definition sender_path (s : Sender) : option ActorPath :=
  match s with
  | SenderLocal r => Some (ref_path r)
  | SenderRemote p => Some p
  | SenderNone => None
  end.

Record Metadata := mkMetadata {
  trace_id : option string;
  span_id : option string;
  baggage : gmap string string;
}.
Definition metadata_new : Metadata := mkMetadata None None ∅.

Inductive SystemMsg :=
  | SysStop
  | SysRestart (err : string)
  | SysTerminated (path : ActorPath)
  | SysWatch (subscriber : UntypedActorRef)
  | SysUnwatch (path : ActorPath)
  | SysReceiveTimeout
  | SysChildFailed (name error : string)
  | SysDirective (d : Directive).

Inductive RemoteSystemMsg :=
  | RsStop
  | RsWatch (watcher : ActorPath)
  | RsUnwatch (watcher : ActorPath)
  | RsTerminated (actor : ActorPath).

Inductive SpawnError := NameTaken (name : string) | SystemTerminated.

(** What a cell sees of its system through its weak reference. *)
Record SystemView := mkView {
  v_guardian : gmap string ChildEntry;
  v_observed : bool;  (** whether a spawn observer is installed *)
}.

Section cell.
Context {A Msg : Type}.

(** The parts of [Props] a cell uses; [p_intercepted]: an interceptor is installed. *)
Record Props := mkProps {
  new_actor : A;
  p_supervisor : option SupervisorStrategy;
  p_intercepted : bool;
}.

Record Envelope := mkEnvelope { e_message : Msg; e_sender : Sender; e_metadata : Metadata }.

Inductive Hook :=
  | HPreStart
  | HHandle (m : Msg)
  | HPreRestart (err : string)
  | HPostRestart (err : string)
  | HOnTerminated (path : ActorPath)
  | HOnDirective (d : Directive)
  | HPostStop.

Inductive CellOut :=
  | OHook (h : Hook)
  | OSys (target : Chan) (m : SystemMsg)
  | ORemote (target : ActorPath) (m : RemoteSystemMsg)
  | OTell (target : UntypedActorRef) (env : Envelope)
  | OSpawn (child : Chan) (path : ActorPath) (props : Props)
  | OOnSpawn (path parent : ActorPath)
  | OOnStop (path : ActorPath)
  | OSpan (meta : Metadata)
  | OSpanEnd
  | OFreeSlot (name : string).

(** ** Contexts *)

(** [c_spawned] counts the spawns, to name their channels; [c_system] is what upgrading
    the weak reference gives. *)
Record Ctx := mkCtx {
  c_path : ActorPath;
  c_self : Chan;
  c_system : option SystemView;
  c_children : gmap string ChildEntry;
  c_spawned : nat;
  c_watching : gset ActorPath;
  c_watched_by : gmap ActorPath UntypedActorRef;
  c_stash : list Msg;
  c_receive_timeout : option N;
  c_sender : Sender;
  c_metadata : Metadata;
  c_stopping : bool;
  c_phase : LifecyclePhase;
  c_trace : list CellOut;
}.

Definition Context_new (path : ActorPath) (self : Chan) (sys : option SystemView) : Ctx :=
  mkCtx path self sys ∅ 0 ∅ ∅ [] None SenderNone metadata_new false PhaseStarting [].

Definition emit (o : list CellOut) (c : Ctx) : Ctx :=
  mkCtx (c_path c) (c_self c) (c_system c) (c_children c) (c_spawned c) (c_watching c)
    (c_watched_by c) (c_stash c) (c_receive_timeout c) (c_sender c) (c_metadata c)
    (c_stopping c) (c_phase c) (c_trace c ++ o).

Definition set_system (v : option SystemView) (c : Ctx) : Ctx :=
  mkCtx (c_path c) (c_self c) v (c_children c) (c_spawned c) (c_watching c)
    (c_watched_by c) (c_stash c) (c_receive_timeout c) (c_sender c) (c_metadata c)
    (c_stopping c) (c_phase c) (c_trace c).

Definition set_children (m : gmap string ChildEntry) (c : Ctx) : Ctx :=
  mkCtx (c_path c) (c_self c) (c_system c) m (c_spawned c) (c_watching c)
    (c_watched_by c) (c_stash c) (c_receive_timeout c) (c_sender c) (c_metadata c)
    (c_stopping c) (c_phase c) (c_trace c).

Definition count_spawn (c : Ctx) : Ctx :=
  mkCtx (c_path c) (c_self c) (c_system c) (c_children c) (S (c_spawned c)) (c_watching c)
    (c_watched_by c) (c_stash c) (c_receive_timeout c) (c_sender c) (c_metadata c)
    (c_stopping c) (c_phase c) (c_trace c).

Definition set_watching (w : gset ActorPath) (c : Ctx) : Ctx :=
  mkCtx (c_path c) (c_self c) (c_system c) (c_children c) (c_spawned c) w
    (c_watched_by c) (c_stash c) (c_receive_timeout c) (c_sender c) (c_metadata c)
    (c_stopping c) (c_phase c) (c_trace c).

Definition set_watched_by (w : gmap ActorPath UntypedActorRef) (c : Ctx) : Ctx :=
  mkCtx (c_path c) (c_self c) (c_system c) (c_children c) (c_spawned c) (c_watching c)
    w (c_stash c) (c_receive_timeout c) (c_sender c) (c_metadata c)
    (c_stopping c) (c_phase c) (c_trace c).

Definition set_stash (l : list Msg) (c : Ctx) : Ctx :=
  mkCtx (c_path c) (c_self c) (c_system c) (c_children c) (c_spawned c) (c_watching c)
    (c_watched_by c) l (c_receive_timeout c) (c_sender c) (c_metadata c)
    (c_stopping c) (c_phase c) (c_trace c).

Definition set_phase (p : LifecyclePhase) (c : Ctx) : Ctx :=
  mkCtx (c_path c) (c_self c) (c_system c) (c_children c) (c_spawned c) (c_watching c)
    (c_watched_by c) (c_stash c) (c_receive_timeout c) (c_sender c) (c_metadata c)
    (c_stopping c) p (c_trace c).

(** Sender and metadata of the message in hand. *)
Definition set_current (s : Sender) (m : Metadata) (c : Ctx) : Ctx :=
  mkCtx (c_path c) (c_self c) (c_system c) (c_children c) (c_spawned c) (c_watching c)
    (c_watched_by c) (c_stash c) (c_receive_timeout c) s m
    (c_stopping c) (c_phase c) (c_trace c).

Definition self_ref (c : Ctx) : UntypedActorRef := ULocal (c_path c) (c_self c).

(** The task is spawned, the observer told, the entry made. *)
Definition Context_spawn (props : Props) (name : string) (c : Ctx)
    : (SpawnError + UntypedActorRef) * Ctx :=
  match c_children c !! name with
  | Some _ => (inl (NameTaken name), c)
  | None =>
      match c_system c with
      | None => (inl SystemTerminated, c)
      | Some v =>
          let child := ActorPath_child name (c_path c) in
          let ch := c_self c ++ [c_spawned c] in
          let c := emit [OSpawn ch child props] (count_spawn c) in
          let c := if v_observed v then emit [OOnSpawn child (c_path c)] c else c in
          (inr (ULocal child ch), set_children (<[name := mkChild child ch]> (c_children c)) c)
      end
  end.

Definition Context_stop_child (name : string) (c : Ctx) : Ctx :=
  match c_children c !! name with
  | Some child => emit [OSys (ce_chan child) SysStop] c
  | None => c
  end.

(** [system_sender]: the system channel of a reference; for a remote one a channel that
    nobody reads. *)
Definition system_send (target : UntypedActorRef) (m : SystemMsg) (c : Ctx) : Ctx :=
  match target with
  | ULocal _ ch => emit [OSys ch m] c
  | URemote _ => c
  end.

(** [HashSet::insert] returns whether the value was new. *)
Definition Context_watch (target : UntypedActorRef) (c : Ctx) : Ctx :=
  if decide (ref_path target ∈ c_watching c) then c
  else system_send target (SysWatch (self_ref c))
         (set_watching ({[ref_path target]} ∪ c_watching c) c).

Definition Context_unwatch (target : UntypedActorRef) (c : Ctx) : Ctx :=
  if decide (ref_path target ∈ c_watching c)
  then system_send target (SysUnwatch (c_path c))
         (set_watching (c_watching c ∖ {[ref_path target]}) c)
  else c.

Definition Context_stash (m : Msg) (c : Ctx) : Ctx := set_stash (c_stash c ++ [m]) c.

Definition Context_unstash_all (c : Ctx) : list Msg * Ctx := (c_stash c, set_stash [] c).

Definition Context_stop_self (c : Ctx) : Ctx :=
  mkCtx (c_path c) (c_self c) (c_system c) (c_children c) (c_spawned c) (c_watching c)
    (c_watched_by c) (c_stash c) (c_receive_timeout c) (c_sender c) (c_metadata c)
    true (c_phase c) (c_trace c).

Definition Context_set_receive_timeout (d : option N) (c : Ctx) : Ctx :=
  mkCtx (c_path c) (c_self c) (c_system c) (c_children c) (c_spawned c) (c_watching c)
    (c_watched_by c) (c_stash c) d (c_sender c) (c_metadata c)
    (c_stopping c) (c_phase c) (c_trace c).

(** [UntypedActorRef::stop] and [ActorRef::stop]. *)
Definition ref_stop (r : UntypedActorRef) : CellOut :=
  match r with
  | ULocal _ ch => OSys ch SysStop
  | URemote p => ORemote p RsStop
  end.

(** [UntypedActorRef::notify_watchers]. *)
Definition notify_watchers (sender : ActorPath) (r : UntypedActorRef) : CellOut :=
  match r with
  | ULocal _ ch => OSys ch (SysTerminated sender)
  | URemote p => ORemote p (RsTerminated sender)
  end.

(** What user code can do to its context, and send with the references it has. *)
Inductive ctx_step : Ctx → Ctx → Prop :=
  | step_spawn props name c : ctx_step c (Context_spawn props name c).2
  | step_stop_child name c : ctx_step c (Context_stop_child name c)
  | step_watch target c : ctx_step c (Context_watch target c)
  | step_unwatch target c : ctx_step c (Context_unwatch target c)
  | step_stash m c : ctx_step c (Context_stash m c)
  | step_unstash c : ctx_step c (Context_unstash_all c).2
  | step_stop_self c : ctx_step c (Context_stop_self c)
  | step_timeout d c : ctx_step c (Context_set_receive_timeout d c)
  | step_tell target env c : ctx_step c (emit [OTell target env] c)
  | step_ref_stop target c : ctx_step c (emit [ref_stop target] c)
  | step_directive target d c : ctx_step c (system_send target (SysDirective d) c).

(** ** Actors

    [a_handle] may panic, which is its left result: the cell catches it.  The other hooks are
    given by what they do when they return; a panic of one of them, which nothing catches, is a
    step of the life of a task of its own ([life_step]). *)

Class Actor := {
  a_handle : A → Ctx → Msg → (string + unit) * (A * Ctx);
  a_pre_start : A → Ctx → A * Ctx;
  a_post_stop : A → Ctx → A * Ctx;
  a_pre_restart : string → A → Ctx → A * Ctx;
  a_post_restart : string → A → Ctx → A * Ctx;
  a_on_terminated : ActorPath → A → Ctx → A * Ctx;
  a_on_directive : Directive → A → Ctx → A * Ctx;
}.

Class ActorLaws `{Actor} : Prop := {
  law_handle a c m : rtc ctx_step c (a_handle a c m).2.2;
  law_pre_start a c : rtc ctx_step c (a_pre_start a c).2;
  law_post_stop a c : rtc ctx_step c (a_post_stop a c).2;
  law_pre_restart e a c : rtc ctx_step c (a_pre_restart e a c).2;
  law_post_restart e a c : rtc ctx_step c (a_post_restart e a c).2;
  law_on_terminated p a c : rtc ctx_step c (a_on_terminated p a c).2;
  law_on_directive d a c : rtc ctx_step c (a_on_directive d a c).2;
}.

Context `{!Actor}.

(** ** The cell *)

(** A hook is recorded, then run. *)
Definition run_hook (h : Hook) (f : A → Ctx → A * Ctx) (s : A * Ctx) : A * Ctx :=
  f s.1 (emit [OHook h] s.2).

(** References are compared and hashed by their paths, and inserting an equal one keeps
    the old. *)
Definition add_watcher (w : UntypedActorRef) (m : gmap ActorPath UntypedActorRef)
    : gmap ActorPath UntypedActorRef :=
  match m !! ref_path w with
  | Some _ => m
  | None => <[ref_path w := w]> m
  end.

(** [true]: the actor must stop. *)
Definition handle_system (m : SystemMsg) (s : A * Ctx) : bool * (A * Ctx) :=
  match m with
  | SysStop => (true, s)
  | SysRestart err =>
      (false, run_hook (HPostRestart err) (a_post_restart err)
                (run_hook (HPreRestart err) (a_pre_restart err) s))
  | SysTerminated path =>
      (false, run_hook (HOnTerminated path) (a_on_terminated path)
                (s.1, set_watching (c_watching s.2 ∖ {[path]}) s.2))
  | SysWatch w => (false, (s.1, set_watched_by (add_watcher w (c_watched_by s.2)) s.2))
  | SysUnwatch p =>
      (false, (s.1, set_watched_by (filter (λ kw, ref_path kw.2 ≠ p) (c_watched_by s.2)) s.2))
  | SysReceiveTimeout => (false, s)
  | SysChildFailed _ _ => (false, s)
  | SysDirective d => (false, run_hook (HOnDirective d) (a_on_directive d) s)
  end.

(** The slot of a top-level user actor, freed if it still belongs to this actor. *)
Definition free_slot (path : ActorPath) (guardian : gmap string ChildEntry)
    : gmap string ChildEntry * list CellOut :=
  match ap_elements path with
  | [root; name] =>
      if decide (root = "user" ∧ ce_path <$> guardian !! name = Some path)
      then (delete name guardian, [OFreeSlot name])
      else (guardian, [])
  | _ => (guardian, [])
  end.

(** The block of [finalize] that needs the system. *)
Definition leave_system (c : Ctx) : Ctx :=
  match c_system c with
  | None => c
  | Some v =>
      let '(g, freed) := free_slot (c_path c) (v_guardian v) in
      let c := emit freed (set_system (Some (mkView g (v_observed v))) c) in
      if v_observed v then emit [OOnStop (c_path c)] c else c
  end.

(** What follows [post_stop] in [finalize]. *)
Definition end_life (c : Ctx) : Ctx :=
  let stops := (λ kc, OSys (ce_chan kc.2) SysStop) <$> map_to_list (c_children c) in
  let c := leave_system (emit stops (set_children ∅ c)) in
  let dead := (λ kw, notify_watchers (c_path c) kw.2) <$> map_to_list (c_watched_by c) in
  emit dead (set_watched_by ∅ c).

Definition finalize (s : A * Ctx) : A * Ctx :=
  let '(a, c) := run_hook HPostStop a_post_stop (s.1, set_phase PhaseStopping s.2) in
  (a, end_life c).

Record Cell := mkCell {
  cl_actor : A;
  cl_ctx : Ctx;
  cl_history : list N;
  cl_sysq : list SystemMsg;
  cl_userq : list Envelope;
  cl_sys_closed : bool;
  cl_user_closed : bool;
  cl_done : bool;
}.

Definition set_actor (s : A * Ctx) (c : Cell) : Cell :=
  mkCell s.1 s.2 (cl_history c) (cl_sysq c) (cl_userq c) (cl_sys_closed c) (cl_user_closed c)
    (cl_done c).

Definition set_history (h : list N) (c : Cell) : Cell :=
  mkCell (cl_actor c) (cl_ctx c) h (cl_sysq c) (cl_userq c) (cl_sys_closed c) (cl_user_closed c)
    (cl_done c).

(** [finalize(actor, ctx).await; return]. *)
Definition finish (c : Cell) : Cell :=
  let '(a, ctx) := finalize (cl_actor c, cl_ctx c) in
  mkCell a ctx (cl_history c) (cl_sysq c) (cl_userq c) (cl_sys_closed c) (cl_user_closed c) true.

(** [spawn_cell]: the channels exist from now on, the task has not run yet. *)
Definition spawn_cell (props : Props) (path : ActorPath) (self : Chan) (sys : option SystemView)
    : Cell :=
  mkCell (new_actor props) (Context_new path self sys) [] [] [] false false false.

(** The start of [run_cell]. *)
Definition start_cell (c : Cell) : Cell :=
  let '(a, ctx) := run_hook HPreStart a_pre_start (cl_actor c, set_phase PhaseStarting (cl_ctx c)) in
  set_actor (a, set_phase PhaseRunning ctx) c.

(** A system message taken from the channel. *)
Definition take_system (m : SystemMsg) (c : Cell) : Cell :=
  let '(stop, s) := handle_system m (cl_actor c, cl_ctx c) in
  let c := set_actor s c in
  if stop then finish c else c.

(** The arm of a directive other than stopping ones, then the end of the user arm. *)
Definition supervise (props : Props) (now : N) (err : string) (c : Cell) : Cell :=
  let directive := match p_supervisor props with
                   | Some s => strategy_decide s err
                   | None => Restart
                   end in
  match directive with
  | Resume => c
  | Throttle _ _ | Suspend _ | ResumeFrom _ =>
      set_actor (run_hook (HOnDirective directive) (a_on_directive directive)
        (cl_actor c, cl_ctx c)) c
  | Restart =>
      match admit_restart (p_supervisor props) now (cl_history c) with
      | None => finish c
      | Some h =>
          let '(_, ctx) := run_hook (HPreRestart err) (a_pre_restart err) (cl_actor c, cl_ctx c) in
          set_actor (run_hook (HPostRestart err) (a_post_restart err) (new_actor props, ctx))
            (set_history h c)
      end
  | DStop | Escalate => finish c
  end.

(** [run_handle] between the two ends of the interceptor's span. *)
Definition run_handle (props : Props) (m : Msg) (s : A * Ctx) : (string + unit) * (A * Ctx) :=
  let c := if p_intercepted props then emit [OSpan (c_metadata s.2)] s.2 else s.2 in
  let '(res, (a, c)) := a_handle s.1 (emit [OHook (HHandle m)] c) m in
  (res, (a, if p_intercepted props then emit [OSpanEnd] c else c)).

Definition take_user (props : Props) (now : N) (env : Envelope) (c : Cell) : Cell :=
  let ctx := set_current (e_sender env) (e_metadata env) (cl_ctx c) in
  let '(res, s) := run_handle props (e_message env) (cl_actor c, ctx) in
  let c := set_actor s c in
  let c := match res with inl err => supervise props now err c | inr _ => c end in
  if cl_done c then c
  else set_actor (cl_actor c, set_current SenderNone metadata_new (cl_ctx c)) c.

Definition pop_sys (c : Cell) : Cell :=
  mkCell (cl_actor c) (cl_ctx c) (cl_history c) (tail (cl_sysq c)) (cl_userq c) (cl_sys_closed c)
    (cl_user_closed c) (cl_done c).

Definition pop_user (c : Cell) : Cell :=
  mkCell (cl_actor c) (cl_ctx c) (cl_history c) (cl_sysq c) (tail (cl_userq c)) (cl_sys_closed c)
    (cl_user_closed c) (cl_done c).

(** One turn of the loop: the system channel is drained first, then the stop flag is
    looked at, then the biased [select!] takes what is ready ([timed_out]: the receive
    timer fired); a turn with nothing ready waits. *)
Definition cell_turn (props : Props) (now : N) (timed_out : bool) (c : Cell) : Cell :=
  if cl_done c then c else
  match cl_sysq c with
  | m :: _ => take_system m (pop_sys c)
  | [] =>
      if c_stopping (cl_ctx c) then finish c
      else if cl_sys_closed c then finish c
      else match cl_userq c with
           | env :: _ => take_user props now env (pop_user c)
           | [] =>
               if cl_user_closed c then finish c
               else match c_receive_timeout (cl_ctx c) with
                    | Some _ => if timed_out then take_system SysReceiveTimeout c else c
                    | None => c
                    end
           end
  end.

(** Deliveries by others. *)
Definition deliver_sys (m : SystemMsg) (c : Cell) : Cell :=
  mkCell (cl_actor c) (cl_ctx c) (cl_history c) (cl_sysq c ++ [m]) (cl_userq c) (cl_sys_closed c)
    (cl_user_closed c) (cl_done c).

Definition deliver_user (env : Envelope) (c : Cell) : Cell :=
  mkCell (cl_actor c) (cl_ctx c) (cl_history c) (cl_sysq c) (cl_userq c ++ [env]) (cl_sys_closed c)
    (cl_user_closed c) (cl_done c).

(** The system as others have left it. *)
Definition sync_system (v : option SystemView) (c : Cell) : Cell :=
  set_actor (cl_actor c, set_system v (cl_ctx c)) c.

(** Everything that can happen to a cell, as a step relation; the flag says whether its
    task has started. *)
Inductive cell_step (props : Props) : bool * Cell → bool * Cell → Prop :=
  | cs_start c : cell_step props (false, c) (true, start_cell c)
  | cs_turn now timed_out c : cell_step props (true, c) (true, cell_turn props now timed_out c)
  | cs_sys m b c : cell_step props (b, c) (b, deliver_sys m c)
  | cs_user env b c : cell_step props (b, c) (b, deliver_user env c)
  | cs_system v b c : cell_step props (b, c) (b, sync_system v c).
End cell.
Arguments Ctx _ _ : clear implicits.
Arguments Cell _ _ : clear implicits.
Arguments Actor _ _ : clear implicits.
Arguments ActorLaws _ _ {_}.
Arguments Props _ : clear implicits.
Arguments Hook _ : clear implicits.
Arguments CellOut _ _ : clear implicits.
Arguments Envelope _ : clear implicits.

(** ** Lemmas *)

Section lemmas.
Context {A Msg : Type} `{!Actor A Msg} `{!ActorLaws A Msg}.
Implicit Types (c : Ctx A Msg) (cl : Cell A Msg) (props : Props A).

(** The hooks of a trace. *)
Definition hooks_of (tr : list (CellOut A Msg)) : list (Hook Msg) :=
  omap (λ o, match o with OHook h => Some h | _ => None end) tr.

(** The termination notices of a trace. *)
Definition notice_of (o : CellOut A Msg) : option ((Chan + ActorPath) * ActorPath) :=
  match o with
  | OSys w (SysTerminated p) => Some (inl w, p)
  | ORemote w (RsTerminated p) => Some (inr w, p)
  | _ => None
  end.
Definition notices_of (tr : list (CellOut A Msg)) : list ((Chan + ActorPath) * ActorPath) :=
  omap notice_of tr.

(** A context after user code ran on it: the cell's own fields are untouched, and the
    trace grew by messages that are no termination notices. *)
Definition user_ext c c' : Prop :=
  c_path c' = c_path c ∧ c_watched_by c' = c_watched_by c ∧ c_phase c' = c_phase c ∧
  c_self c' = c_self c ∧ c_system c' = c_system c ∧
  ∃ o, c_trace c' = c_trace c ++ o ∧ hooks_of o = [] ∧ notices_of o = [].

#[local] Instance user_ext_preorder : PreOrder user_ext.
Proof.
  split.
  - intros c. split_and!; [done..|]. exists []. by rewrite app_nil_r.
  - intros c1 c2 c3 (Hp & Hw & Hph & Hs & Hv & o & Ho & Hh & Hn)
      (Hp' & Hw' & Hph' & Hs' & Hv' & o' & Ho' & Hh' & Hn').
    split_and!; [congruence..|]. exists (o ++ o'). unfold hooks_of, notices_of in *.
    rewrite Ho', Ho, !omap_app, Hh, Hh', Hn, Hn'. by rewrite <- app_assoc.
Qed.

Lemma user_ext_same c c' :
  c_path c' = c_path c → c_watched_by c' = c_watched_by c → c_phase c' = c_phase c →
  c_self c' = c_self c → c_system c' = c_system c → c_trace c' = c_trace c → user_ext c c'.
Proof. intros. split_and!; [done..|]. exists []. by rewrite app_nil_r. Qed.

Lemma ctx_step_ext c c' : ctx_step c c' → user_ext c c'.
Proof.
  destruct 1; unfold Context_spawn, Context_stop_child, Context_watch, Context_unwatch, system_send;
    repeat case_match; cbn; try (by apply user_ext_same);
    try (split_and!; try done; by eexists [_]).
  - split_and!; try done. exists [OSpawn (c_self c ++ [c_spawned c])
      (ActorPath_child name (c_path c)) props; OOnSpawn (ActorPath_child name (c_path c)) (c_path c)].
    split; [|done]. cbn. by rewrite <- app_assoc.
  - destruct target; split_and!; try done; by eexists [_].
Qed.

Lemma ctx_steps_ext c c' : rtc ctx_step c c' → user_ext c c'.
Proof. induction 1 as [|c1 c2 c3 Hs _ IH]; [done|]. etrans; [by apply ctx_step_ext|done]. Qed.

(** A hook run by the cell. *)
Lemma run_hook_ext h f (s : A * Ctx A Msg) :
  (∀ a c, rtc ctx_step c (f a c).2) →
  let c' := (run_hook h f s).2 in
  c_path c' = c_path s.2 ∧ c_watched_by c' = c_watched_by s.2 ∧ c_phase c' = c_phase s.2 ∧
  hooks_of (c_trace c') = hooks_of (c_trace s.2) ++ [h] ∧
  notices_of (c_trace c') = notices_of (c_trace s.2) ∧ c_system c' = c_system s.2.
Proof.
  intros Hf. unfold run_hook. simpl.
  destruct (ctx_steps_ext _ _ (Hf s.1 (emit [OHook h] s.2))) as (Hp & Hw & Hph & _ & Hv & o & Ho & Hh & Hn).
  simpl in *. split_and!; try done.
  - rewrite Ho. unfold hooks_of in *. rewrite !omap_app, Hh. simpl. by rewrite app_nil_r.
  - rewrite Ho. unfold notices_of in *. rewrite !omap_app, Hn. simpl. by rewrite !app_nil_r.
Qed.

(** Middle hooks: neither the first nor the last of a life. *)
Definition middle (h : Hook Msg) : Prop := h ≠ HPreStart ∧ h ≠ HPostStop.

Lemma handle_system_ext m (s : A * Ctx A Msg) :
  let '(stop, s') := handle_system m s in
  c_path s'.2 = c_path s.2 ∧ (stop = true ↔ m = SysStop) ∧
  ∃ hs, Forall middle hs ∧ (∀ msg, HHandle msg ∉ hs) ∧
    hooks_of (c_trace s'.2) = hooks_of (c_trace s.2) ++ hs ∧
    notices_of (c_trace s'.2) = notices_of (c_trace s.2).
Proof.
  assert (∃ hs : list (Hook Msg), Forall middle hs ∧ (∀ msg, HHandle msg ∉ hs) ∧
    hooks_of (c_trace s.2) = hooks_of (c_trace s.2) ++ hs ∧
    notices_of (c_trace s.2) = notices_of (c_trace s.2)) as Hnil.
  { exists []. rewrite app_nil_r. split_and!; [done| |done..]. intros msg. apply not_elem_of_nil. }
  destruct m as [|err|path|w|p| |name e|d]; simpl; try done.
  - pose proof (run_hook_ext (HPreRestart err) (a_pre_restart err) s (law_pre_restart err)) as H1.
    pose proof (run_hook_ext (HPostRestart err) (a_post_restart err)
      (run_hook (HPreRestart err) (a_pre_restart err) s) (law_post_restart err)) as H2.
    simpl in *. destruct H1 as (Hp1 & _ & _ & Hh1 & Hn1 & _), H2 as (Hp2 & _ & _ & Hh2 & Hn2 & _).
    split_and!; [congruence|done|]. exists [HPreRestart err; HPostRestart err].
    split_and!; [by repeat constructor| |rewrite Hh2, Hh1; by rewrite <- app_assoc|congruence].
    intros msg. rewrite !elem_of_cons, elem_of_nil. naive_solver.
  - destruct (run_hook_ext (HOnTerminated path) (a_on_terminated path)
      (s.1, set_watching (c_watching s.2 ∖ {[path]}) s.2) (law_on_terminated path))
      as (Hp & _ & _ & Hh & Hn & _). simpl in *.
    split_and!; [done|done|]. exists [HOnTerminated path].
    split_and!; [by repeat constructor| |done|done].
    intros msg. rewrite list_elem_of_singleton. done.
  - destruct (run_hook_ext (HOnDirective d) (a_on_directive d) s (law_on_directive d))
      as (Hp & _ & _ & Hh & Hn & _). simpl in *.
    split_and!; [done|done|]. exists [HOnDirective d].
    split_and!; [by repeat constructor| |done|done].
    intros msg. rewrite list_elem_of_singleton. done.
Qed.

Lemma hooks_of_app l l' : hooks_of (l ++ l') = hooks_of l ++ hooks_of l'.
Proof. apply omap_app. Qed.

Lemma notices_of_app l l' : notices_of (l ++ l') = notices_of l ++ notices_of l'.
Proof. apply omap_app. Qed.

Lemma hooks_of_stops (l : list (string * ChildEntry)) :
  hooks_of ((λ kc, OSys (ce_chan kc.2) SysStop) <$> l) = [] ∧
  notices_of ((λ kc, OSys (ce_chan kc.2) SysStop) <$> l) = [].
Proof. by induction l as [|x l [IH IH']]. Qed.

Lemma notices_of_dead p (l : list (ActorPath * UntypedActorRef)) :
  hooks_of ((λ kw, notify_watchers p kw.2) <$> l) = [] ∧
  notices_of ((λ kw, notify_watchers p kw.2) <$> l) = (λ kw, (ref_dest kw.2, p)) <$> l.
Proof.
  induction l as [|[k [w ch|w]] l [IH IH']]; [done| |]; (split; [exact IH|]); cbn; f_equal; exact IH'.
Qed.

(** What a cell leaves in the system. *)
Definition left_view (p : ActorPath) (v : SystemView) : SystemView :=
  mkView (free_slot (A := A) (Msg := Msg) p (v_guardian v)).1 (v_observed v).

Lemma leave_system_ext c :
  let c' := leave_system c in
  c_path c' = c_path c ∧ c_watched_by c' = c_watched_by c ∧ c_children c' = c_children c ∧
  c_phase c' = c_phase c ∧ hooks_of (c_trace c') = hooks_of (c_trace c) ∧
  notices_of (c_trace c') = notices_of (c_trace c) ∧
  c_system c' = left_view (c_path c) <$> c_system c.
Proof.
  unfold leave_system. destruct (c_system c) as [[g ob]|] eqn:Es; [|by rewrite Es].
  unfold left_view. cbn [v_guardian v_observed fmap option_fmap option_map].
  assert (hooks_of (free_slot (A := A) (Msg := Msg) (c_path c) g).2 = [] ∧
    notices_of (free_slot (A := A) (Msg := Msg) (c_path c) g).2 = []) as [Hh Hn]
    by (unfold free_slot; by repeat case_match).
  destruct (free_slot (c_path c) g) as [g' fr]. cbn in Hh, Hn.
  destruct ob; cbn; unfold hooks_of, notices_of in *;
    rewrite !omap_app, Hh, Hn; cbn; rewrite ?app_nil_r; by split_and!.
Qed.

(** What [finalize] adds to the trace. *)
Lemma finalize_ext (s : A * Ctx A Msg) :
  let '(a', c') := finalize s in
  c_path c' = c_path s.2 ∧ c_watched_by c' = ∅ ∧ c_children c' = ∅ ∧ c_phase c' = PhaseStopping ∧
  hooks_of (c_trace c') = hooks_of (c_trace s.2) ++ [HPostStop] ∧
  notices_of (c_trace c') = notices_of (c_trace s.2) ++
    ((λ kw, (ref_dest kw.2, c_path s.2)) <$> map_to_list (c_watched_by s.2)) ∧
  c_system c' = left_view (c_path s.2) <$> c_system s.2.
Proof.
  unfold finalize, end_life.
  destruct (run_hook_ext HPostStop a_post_stop (s.1, set_phase PhaseStopping s.2) law_post_stop)
    as (Hp & Hw & Hph & Hh & Hn & Hv).
  destruct (run_hook _ _ _) as [a c]. simpl in Hp, Hw, Hph, Hh, Hn, Hv.
  set (c1 := emit _ (set_children ∅ c)).
  destruct (leave_system_ext c1) as (Hp1 & Hw1 & Hc1 & Hph1 & Hh1 & Hn1 & Hv1).
  cbn in Hp1, Hw1, Hc1, Hph1, Hv1. destruct (hooks_of_stops (map_to_list (c_children c))) as [Hs1 Hs2].
  destruct (notices_of_dead (c_path (leave_system c1)) (map_to_list (c_watched_by (leave_system c1)))) as [Hd1 Hd2].
  cbn. rewrite hooks_of_app, notices_of_app, Hd1, Hd2, Hh1, Hn1, Hv1, Hp1, Hw1, Hc1, Hph1.
  unfold c1. cbn. rewrite hooks_of_app, notices_of_app, Hs1, Hs2, !app_nil_r, Hh, Hn, Hp, Hw, Hv, Hph.
  by split_and!.
Qed.

Lemma finish_ext cl :
  c_path (cl_ctx (finish cl)) = c_path (cl_ctx cl) ∧ cl_done (finish cl) = true ∧
  c_watched_by (cl_ctx (finish cl)) = ∅ ∧ c_children (cl_ctx (finish cl)) = ∅ ∧
  hooks_of (c_trace (cl_ctx (finish cl))) = hooks_of (c_trace (cl_ctx cl)) ++ [HPostStop] ∧
  notices_of (c_trace (cl_ctx (finish cl))) = notices_of (c_trace (cl_ctx cl)) ++
    ((λ kw, (ref_dest kw.2, c_path (cl_ctx cl))) <$> map_to_list (c_watched_by (cl_ctx cl))) ∧
  c_system (cl_ctx (finish cl)) = left_view (c_path (cl_ctx cl)) <$> c_system (cl_ctx cl).
Proof.
  unfold finish. pose proof (finalize_ext (cl_actor cl, cl_ctx cl)) as H.
  destruct (finalize _) as [a c]. simpl in *. naive_solver.
Qed.

(** The life-cycle invariant of a cell on path [p]. *)
Record cell_inv (p : ActorPath) cl : Prop := {
  ci_path : c_path (cl_ctx cl) = p;
  ci_hooks : ∃ mid, Forall middle mid ∧
    hooks_of (c_trace (cl_ctx cl)) = HPreStart :: mid ++ (if cl_done cl then [HPostStop] else []);
  ci_notices : ∃ W : gmap ActorPath UntypedActorRef,
    notices_of (c_trace (cl_ctx cl)) = (λ kw, (ref_dest kw.2, p)) <$> map_to_list W ∧
    (cl_done cl = false → W = ∅);
}.

(** A step that runs middle hooks and sends no notice keeps the invariant. *)
Lemma cell_inv_middle p cl cl' hs :
  cell_inv p cl → cl_done cl = false → cl_done cl' = false →
  c_path (cl_ctx cl') = c_path (cl_ctx cl) → Forall middle hs →
  hooks_of (c_trace (cl_ctx cl')) = hooks_of (c_trace (cl_ctx cl)) ++ hs →
  notices_of (c_trace (cl_ctx cl')) = notices_of (c_trace (cl_ctx cl)) →
  cell_inv p cl'.
Proof.
  intros [Hp (mid & Hm & Hh) (W & Hn & HW)] Hd Hd' Hp' Hhs Hh' Hn'. rewrite Hd, app_nil_r in Hh.
  split; [congruence| |].
  - exists (mid ++ hs). rewrite Hh', Hh, Hd', app_nil_r. split; [by apply Forall_app_2|done].
  - exists W. rewrite Hn'. auto.
Qed.

Lemma cell_inv_finish p cl : cell_inv p cl → cl_done cl = false → cell_inv p (finish cl).
Proof.
  intros [Hp (mid & Hm & Hh) (W & Hn & HW)] Hd. rewrite Hd, app_nil_r in Hh.
  destruct (finish_ext cl) as (Hp' & Hd' & _ & _ & Hh' & Hn' & _). split; [congruence| |].
  - exists mid. by rewrite Hh', Hh, Hd'.
  - exists (c_watched_by (cl_ctx cl)). rewrite Hn', Hn, HW, map_to_list_empty, Hp by done.
    split; [done|congruence].
Qed.

Lemma take_system_inv p m cl :
  cell_inv p cl → cl_done cl = false → cell_inv p (take_system m cl).
Proof.
  intros Hi Hd. unfold take_system.
  pose proof (handle_system_ext m (cl_actor cl, cl_ctx cl)) as H.
  destruct (handle_system _ _) as [stop s]. destruct H as (Hp & _ & hs & Hm & _ & Hh & Hn).
  assert (cell_inv p (set_actor s cl)) as Hi' by (by apply (cell_inv_middle p cl _ hs)).
  destruct stop; [by apply cell_inv_finish|done].
Qed.

Lemma supervise_inv p props now err cl :
  cell_inv p cl → cl_done cl = false → cell_inv p (supervise props now err cl).
Proof.
  intros Hi Hd. unfold supervise.
  assert (∀ d, cell_inv p (set_actor (run_hook (HOnDirective d) (a_on_directive d)
    (cl_actor cl, cl_ctx cl)) cl)) as Hdir.
  { intros d. destruct (run_hook_ext (HOnDirective d) (a_on_directive d) (cl_actor cl, cl_ctx cl)
      (law_on_directive d)) as (Hp & _ & _ & Hh & Hn & _).
    by apply (cell_inv_middle p cl _ [HOnDirective d]); try done; repeat constructor. }
  destruct (match p_supervisor props with Some s => strategy_decide s err | None => Restart end);
    [done| |by apply cell_inv_finish..|apply Hdir|apply Hdir|apply Hdir].
  destruct (admit_restart _ _ _) as [h|]; [|by apply cell_inv_finish].
  destruct (run_hook_ext (HPreRestart err) (a_pre_restart err) (cl_actor cl, cl_ctx cl)
    (law_pre_restart err)) as (Hp1 & _ & _ & Hh1 & Hn1 & _).
  destruct (run_hook (HPreRestart err) _ _) as [a1 c1]. simpl in *.
  destruct (run_hook_ext (HPostRestart err) (a_post_restart err) (new_actor props, c1)
    (law_post_restart err)) as (Hp2 & _ & _ & Hh2 & Hn2 & _). simpl in *.
  apply (cell_inv_middle p cl _ [HPreRestart err; HPostRestart err]); try done; simpl.
  - congruence.
  - by repeat constructor.
  - rewrite Hh2, Hh1. by rewrite <- app_assoc.
  - congruence.
Qed.

Lemma run_handle_ext props m (s : A * Ctx A Msg) :
  let '(_, s') := run_handle props m s in
  c_path s'.2 = c_path s.2 ∧
  hooks_of (c_trace s'.2) = hooks_of (c_trace s.2) ++ [HHandle m] ∧
  notices_of (c_trace s'.2) = notices_of (c_trace s.2).
Proof.
  unfold run_handle. destruct s as [a c]. cbn [fst snd].
  set (c0 := if p_intercepted props then _ else _).
  assert (c_path c0 = c_path c ∧ hooks_of (c_trace c0) = hooks_of (c_trace c) ∧
    notices_of (c_trace c0) = notices_of (c_trace c)) as (Hp0 & Hh0 & Hn0).
  { unfold c0. destruct (p_intercepted props); [|done]. cbn.
    by rewrite hooks_of_app, notices_of_app, !app_nil_r. }
  destruct (ctx_steps_ext _ _ (law_handle a (emit [OHook (HHandle m)] c0) m))
    as (Hp & _ & _ & _ & _ & o & Ho & Hh & Hn).
  destruct (a_handle a _ m) as [res [a' c']]. cbn in *.
  destruct (p_intercepted props); cbn;
    rewrite ?(hooks_of_app _ [OSpanEnd]), ?(notices_of_app _ [OSpanEnd]), Ho, !hooks_of_app,
      !notices_of_app, Hh, Hn, Hh0, Hn0; cbn; rewrite !app_nil_r; split_and!; congruence.
Qed.

Lemma run_handle_watch props m (s : A * Ctx A Msg) :
  c_watched_by (run_handle props m s).2.2 = c_watched_by s.2.
Proof.
  unfold run_handle. destruct s as [a c]. cbn [fst snd]. set (c0 := if p_intercepted props then _ else _).
  assert (c_watched_by c0 = c_watched_by c) as E by (unfold c0; by destruct (p_intercepted props)).
  destruct (ctx_steps_ext _ _ (law_handle a (emit [OHook (HHandle m)] c0) m)) as (_ & Hw & _).
  destruct (a_handle a _ m) as [res [a' c']]. cbn in *. destruct (p_intercepted props); cbn; congruence.
Qed.

Lemma take_user_inv p props now env cl :
  cell_inv p cl → cl_done cl = false → cell_inv p (take_user props now env cl).
Proof.
  intros Hi Hd. unfold take_user.
  pose proof (run_handle_ext props (e_message env)
    (cl_actor cl, set_current (e_sender env) (e_metadata env) (cl_ctx cl))) as H.
  destruct (run_handle _ _ _) as [res s]. destruct H as (Hp & Hh & Hn). simpl in Hp, Hh, Hn.
  assert (cell_inv p (set_actor s cl)) as Hi1.
  { apply (cell_inv_middle p cl _ [HHandle (e_message env)]); try done. by repeat constructor. }
  set (cl2 := match res with inl err => supervise props now err (set_actor s cl) | inr _ => _ end).
  assert (cell_inv p cl2) as Hi2 by (unfold cl2; destruct res; [by apply supervise_inv|done]).
  destruct (cl_done cl2) eqn:Hd2; [done|].
  apply (cell_inv_middle p cl2 _ []); simpl; try done; by rewrite app_nil_r.
Qed.

(** The invariant only speaks of the path, the trace and the end of the cell. *)
Lemma cell_inv_same p cl cl' :
  c_path (cl_ctx cl') = c_path (cl_ctx cl) → c_trace (cl_ctx cl') = c_trace (cl_ctx cl) →
  cl_done cl' = cl_done cl → cell_inv p cl → cell_inv p cl'.
Proof. intros Hc Ht Hd [H1 H2 H3]. split; rewrite ?Hc, ?Ht, ?Hd; done. Qed.

(** Before the task runs. *)
Definition task_inv (p : ActorPath) (t : bool * Cell A Msg) : Prop :=
  if t.1 then cell_inv p t.2
  else c_path (cl_ctx t.2) = p ∧ c_trace (cl_ctx t.2) = [] ∧ cl_done t.2 = false.

Lemma start_cell_inv p cl :
  c_path (cl_ctx cl) = p → c_trace (cl_ctx cl) = [] → cl_done cl = false → cell_inv p (start_cell cl).
Proof.
  intros Hp Ht Hd. unfold start_cell.
  destruct (run_hook_ext HPreStart a_pre_start (cl_actor cl, set_phase PhaseStarting (cl_ctx cl)) law_pre_start)
    as (Hp' & _ & _ & Hh & Hn & _).
  destruct (run_hook _ _ _) as [a c]. simpl in *. rewrite Ht in Hh, Hn. split; simpl; [congruence| |].
  - exists []. by rewrite Hh, Hd.
  - exists ∅. by rewrite Hn, map_to_list_empty.
Qed.

Lemma cell_step_inv p props t t' : task_inv p t → cell_step props t t' → task_inv p t'.
Proof.
  intros Hi Hstep. destruct Hstep as [cl|now timed_out cl|m b cl|env b cl|v b cl]; cbn in *.
  - destruct Hi as (Hp & Ht & Hd). by apply start_cell_inv.
  - unfold cell_turn. destruct (cl_done cl) eqn:Hd; [done|].
    destruct (cl_sysq cl); [|apply take_system_inv; [by apply (cell_inv_same p cl)|done]].
    destruct (c_stopping _); [by apply cell_inv_finish|].
    destruct (cl_sys_closed cl); [by apply cell_inv_finish|].
    destruct (cl_userq cl); [|apply take_user_inv; [by apply (cell_inv_same p cl)|done]].
    destruct (cl_user_closed cl); [by apply cell_inv_finish|].
    destruct (c_receive_timeout _), timed_out; try done. by apply take_system_inv.
  - destruct b; [by apply (cell_inv_same p cl)|done].
  - destruct b; [by apply (cell_inv_same p cl)|done].
  - destruct b; [by apply (cell_inv_same p cl)|done].
Qed.

(** ** Properties *)

(** *** Lives *)

(** A hook other than [handle] that panics ends the task on the spot: nothing catches it, so
    there is no [finalize].  What the hook had done by then is any output of user code. *)
Inductive TaskPhase := Waiting | Live | Panicked.

Definition set_trace (tr : list (CellOut A Msg)) cl : Cell A Msg :=
  let c := cl_ctx cl in
  mkCell (cl_actor cl)
    (mkCtx (c_path c) (c_self c) (c_system c) (c_children c) (c_spawned c) (c_watching c)
       (c_watched_by c) (c_stash c) (c_receive_timeout c) (c_sender c) (c_metadata c)
       (c_stopping c) (c_phase c) tr)
    (cl_history cl) (cl_sysq cl) (cl_userq cl) (cl_sys_closed cl) (cl_user_closed cl) (cl_done cl).

(** The system message that the next turn takes. *)
Definition taken cl : list SystemMsg := if cl_done cl then [] else take 1 (cl_sysq cl).

Definition is_handle (h : Hook Msg) : bool := match h with HHandle _ => true | _ => false end.

(** The life of a task, with the system messages it took. *)
Inductive life_step props : TaskPhase * list SystemMsg * Cell A Msg → TaskPhase * list SystemMsg * Cell A Msg → Prop :=
  | ls_start log cl : life_step props (Waiting, log, cl) (Live, log, start_cell cl)
  | ls_turn now timed_out log cl :
      life_step props (Live, log, cl) (Live, log ++ taken cl, cell_turn props now timed_out cl)
  | ls_sys m ph log cl : ph ≠ Panicked → life_step props (ph, log, cl) (ph, log, deliver_sys m cl)
  | ls_user env ph log cl : ph ≠ Panicked → life_step props (ph, log, cl) (ph, log, deliver_user env cl)
  | ls_system v ph log cl : ph ≠ Panicked → life_step props (ph, log, cl) (ph, log, sync_system v cl)
  | ls_panic_start log cl o :
      hooks_of o = [] → notices_of o = [] →
      life_step props (Waiting, log, cl) (Panicked, log, set_trace (c_trace (cl_ctx cl) ++ OHook HPreStart :: o) cl)
  | ls_panic now timed_out log cl pre h post tr :
      cl_done cl = false → is_handle h = false →
      hooks_of (c_trace (cl_ctx (cell_turn props now timed_out cl))) = hooks_of (c_trace (cl_ctx cl)) ++ pre ++ h :: post →
      hooks_of tr = hooks_of (c_trace (cl_ctx cl)) ++ pre ++ [h] → notices_of tr = notices_of (c_trace (cl_ctx cl)) →
      life_step props (Live, log, cl) (Panicked, log ++ taken cl, set_trace tr cl).

(** The paths that watch, by the requests taken: the last one of a path decides. *)
Definition watch_request (s : gset ActorPath) (m : SystemMsg) : gset ActorPath :=
  match m with SysWatch w => {[ref_path w]} ∪ s | SysUnwatch p => s ∖ {[p]} | _ => s end.
Definition watchers_of (log : list SystemMsg) : gset ActorPath := foldl watch_request ∅ log.

Definition watched_ok (m : gmap ActorPath UntypedActorRef) (s : gset ActorPath) : Prop :=
  dom m = s ∧ ∀ p w, m !! p = Some w → ref_path w = p.

Lemma handle_system_watch m (s : A * Ctx A Msg) watchers :
  watched_ok (c_watched_by s.2) watchers → watched_ok (c_watched_by (handle_system m s).2.2) (watch_request watchers m).
Proof.
  intros [Hd Hk]. destruct m as [|err|path|w|p| |name e|d]; cbn; try done.
  - pose proof (run_hook_ext (HPreRestart err) (a_pre_restart err) s (law_pre_restart err)) as (_ & H1 & _).
    pose proof (run_hook_ext (HPostRestart err) (a_post_restart err)
      (run_hook (HPreRestart err) (a_pre_restart err) s) (law_post_restart err)) as (_ & H2 & _).
    cbn in H1, H2. by rewrite H2, H1.
  - pose proof (run_hook_ext (HOnTerminated path) (a_on_terminated path)
      (s.1, set_watching (c_watching s.2 ∖ {[path]}) s.2) (law_on_terminated path)) as (_ & H1 & _). by rewrite H1.
  - unfold add_watcher. destruct (c_watched_by s.2 !! ref_path w) eqn:E; split; try done.
    + assert (ref_path w ∈ dom (c_watched_by s.2)) by by apply elem_of_dom. set_solver.
    + rewrite dom_insert_L. by rewrite Hd.
    + intros q x [[<- <-]|[_ Hx]]%lookup_insert_Some; [done|by apply Hk].
  - split; [|intros q x [Hx _]%map_lookup_filter_Some; by apply Hk].
    rewrite <- Hd. apply set_eq. intros q. rewrite elem_of_difference, !elem_of_dom, elem_of_singleton. split.
    + intros [x [Hx Hne]%map_lookup_filter_Some]. split; [eauto|]. intros ->. apply Hne. cbn. by apply Hk.
    + intros [[x Hx] Hne]. exists x. apply map_lookup_filter_Some. split; [done|]. cbn. by rewrite (Hk _ _ Hx).
  - pose proof (run_hook_ext (HOnDirective d) (a_on_directive d) s (law_on_directive d)) as (_ & H1 & _). by rewrite H1.
Qed.

(** A step either goes on with the same watchers and no notice, or ends and tells them. *)
Definition keeps_or_tells (W : gmap ActorPath UntypedActorRef) cl cl' : Prop :=
  c_path (cl_ctx cl') = c_path (cl_ctx cl) ∧
  if cl_done cl'
  then notices_of (c_trace (cl_ctx cl')) = notices_of (c_trace (cl_ctx cl)) ++ ((λ kw, (ref_dest kw.2, c_path (cl_ctx cl))) <$> map_to_list W)
  else notices_of (c_trace (cl_ctx cl')) = notices_of (c_trace (cl_ctx cl)) ∧ c_watched_by (cl_ctx cl') = W.

Lemma finish_tells cl : keeps_or_tells (c_watched_by (cl_ctx cl)) cl (finish cl).
Proof. destruct (finish_ext cl) as (Hp & Hd & _ & _ & _ & Hn & _). split; [done|]. by rewrite Hd. Qed.

Lemma keeps_or_tells_trans cl cl1 cl2 :
  cl_done cl1 = false → keeps_or_tells (c_watched_by (cl_ctx cl)) cl cl1 →
  keeps_or_tells (c_watched_by (cl_ctx cl1)) cl1 cl2 → keeps_or_tells (c_watched_by (cl_ctx cl)) cl cl2.
Proof.
  intros Hd [Hp H1] [Hp2 H2]. rewrite Hd in H1. destruct H1 as [Hn Hw]. rewrite Hn, Hp, Hw in H2. split; [congruence|done].
Qed.

Lemma supervise_tells props now err cl :
  cl_done cl = false → keeps_or_tells (c_watched_by (cl_ctx cl)) cl (supervise props now err cl).
Proof.
  intros Hd. unfold supervise.
  assert (∀ d, keeps_or_tells (c_watched_by (cl_ctx cl)) cl
    (set_actor (run_hook (HOnDirective d) (a_on_directive d) (cl_actor cl, cl_ctx cl)) cl)) as Hdir.
  { intros d. destruct (run_hook_ext (HOnDirective d) (a_on_directive d) (cl_actor cl, cl_ctx cl)
      (law_on_directive d)) as (Hp & Hw & _ & _ & Hn & _). split; [done|]. cbn. by rewrite Hd. }
  destruct (match p_supervisor props with Some s => strategy_decide s err | None => Restart end);
    [split; [done|]; by rewrite Hd| |apply finish_tells..|apply Hdir|apply Hdir|apply Hdir].
  destruct (admit_restart _ _ _) as [h|]; [|apply finish_tells].
  destruct (run_hook_ext (HPreRestart err) (a_pre_restart err) (cl_actor cl, cl_ctx cl)
    (law_pre_restart err)) as (Hp1 & Hw1 & _ & _ & Hn1 & _).
  destruct (run_hook (HPreRestart err) _ _) as [a1 c1]. cbn in *.
  destruct (run_hook_ext (HPostRestart err) (a_post_restart err) (new_actor props, c1)
    (law_post_restart err)) as (Hp2 & Hw2 & _ & _ & Hn2 & _). split; cbn in *; [congruence|]. rewrite Hd. split; congruence.
Qed.

Lemma take_user_tells props now env cl :
  cl_done cl = false → keeps_or_tells (c_watched_by (cl_ctx cl)) cl (take_user props now env cl).
Proof.
  intros Hd. unfold take_user.
  pose proof (run_handle_ext props (e_message env)
    (cl_actor cl, set_current (e_sender env) (e_metadata env) (cl_ctx cl))) as H.
  pose proof (run_handle_watch props (e_message env)
    (cl_actor cl, set_current (e_sender env) (e_metadata env) (cl_ctx cl))) as Hw.
  destruct (run_handle _ _ _) as [res s]. destruct H as (Hp & _ & Hn). cbn in Hp, Hn, Hw.
  assert (keeps_or_tells (c_watched_by (cl_ctx cl)) cl (set_actor s cl)) as H1 by (split; [done|]; cbn; by rewrite Hd).
  set (cl2 := match res with inl err => supervise props now err (set_actor s cl) | inr _ => _ end).
  assert (keeps_or_tells (c_watched_by (cl_ctx cl)) cl cl2) as H2.
  { unfold cl2. destruct res; [|done]. eapply keeps_or_tells_trans; [|exact H1|by apply supervise_tells]. done. }
  destruct (cl_done cl2) eqn:Hd2; [done|]. destruct H2 as [Hp2 H2]. split; [done|]. cbn. by rewrite Hd2 in H2 |- *.
Qed.

(** What a turn does to the watchers and the notices. *)
Lemma turn_tells props now timed_out cl watchers :
  cl_done cl = false → watched_ok (c_watched_by (cl_ctx cl)) watchers →
  ∃ W, watched_ok W (foldl watch_request watchers (taken cl)) ∧ keeps_or_tells W cl (cell_turn props now timed_out cl).
Proof.
  intros Hd Hw. unfold cell_turn, taken. rewrite Hd. destruct (cl_sysq cl) as [|m q]; cbn [take foldl].
  - exists (c_watched_by (cl_ctx cl)). split; [done|].
    destruct (c_stopping _); [apply finish_tells|]. destruct (cl_sys_closed cl); [apply finish_tells|].
    destruct (cl_userq cl); [|by apply (take_user_tells props now _ (pop_user cl))].
    destruct (cl_user_closed cl); [apply finish_tells|].
    assert (keeps_or_tells (c_watched_by (cl_ctx cl)) cl cl) by (split; [done|]; by rewrite Hd).
    destruct (c_receive_timeout _), timed_out; done.
  - exists (c_watched_by (handle_system m (cl_actor cl, cl_ctx cl)).2.2). split; [by apply (handle_system_watch m (cl_actor cl, cl_ctx cl))|].
    unfold take_system. pose proof (handle_system_ext m (cl_actor (pop_sys cl), cl_ctx (pop_sys cl))) as H. cbn in *.
    destruct (handle_system _ _) as [stop s]. destruct H as (Hp & _ & hs & _ & _ & _ & Hn). cbn in *.
    destruct stop; [|split; [done|]; cbn; by rewrite Hd].
    destruct (finish_tells (set_actor s (pop_sys cl))) as [Hp' H]. cbn in Hp', H. split; [congruence|]. by rewrite Hp, Hn in H.
Qed.

(** The invariant of a life. *)
Definition life_inv (p : ActorPath) (l : TaskPhase * list SystemMsg * Cell A Msg) : Prop :=
  let '(ph, log, cl) := l in
  match ph with
  | Waiting => c_path (cl_ctx cl) = p ∧ c_trace (cl_ctx cl) = [] ∧ cl_done cl = false ∧ log = [] ∧ c_watched_by (cl_ctx cl) = ∅
  | Live =>
      cell_inv p cl ∧
      if cl_done cl
      then ∃ W, watched_ok W (watchers_of log) ∧ notices_of (c_trace (cl_ctx cl)) = (λ kw, (ref_dest kw.2, p)) <$> map_to_list W
      else notices_of (c_trace (cl_ctx cl)) = [] ∧ watched_ok (c_watched_by (cl_ctx cl)) (watchers_of log)
  | Panicked =>
      notices_of (c_trace (cl_ctx cl)) = [] ∧ ∃ mid h, Forall middle mid ∧ is_handle h = false ∧
      ((mid = [] ∧ h = HPreStart ∧ hooks_of (c_trace (cl_ctx cl)) = [h]) ∨
       (h ≠ HPreStart ∧ hooks_of (c_trace (cl_ctx cl)) = HPreStart :: mid ++ [h]))
  end.

(** The hooks before the one that panics are middle ones. *)
Lemma cut_hooks (mid pre mid' fin : list (Hook Msg)) h post :
  Forall middle mid' → (fin = [] ∨ fin = [HPostStop]) → mid ++ pre ++ h :: post = mid' ++ fin →
  Forall middle (mid ++ pre) ∧ h ≠ HPreStart.
Proof.
  intros Hm Hfin E. rewrite (assoc_L (++)) in E. set (l := mid ++ pre) in *. clearbody l.
  assert (h ∈ mid' ++ fin) as Hh by (rewrite <- E; apply elem_of_app; right; by left).
  split.
  - destruct Hfin as [-> | ->]; [rewrite app_nil_r in E; rewrite <- E in Hm; by apply Forall_app in Hm as [? _]|].
    destruct post as [|x post _] using rev_ind.
    + apply app_inj_tail in E as [-> _]. done.
    + rewrite app_comm_cons, (assoc_L (++)) in E. apply app_inj_tail in E as [<- _]. by apply Forall_app in Hm as [? _].
  - intros ->. apply elem_of_app in Hh as [Hh|Hh]; [by destruct (proj1 (Forall_forall _ _) Hm _ Hh)|].
    destruct Hfin as [-> | ->]; [by apply not_elem_of_nil in Hh|by apply list_elem_of_singleton in Hh].
Qed.

Lemma life_step_inv p props l l' : life_inv p l → life_step props l l' → life_inv p l'.
Proof.
  intros Hi Hs. destruct Hs as [log cl|now t log cl|m ph log cl Hph|env ph log cl Hph|v ph log cl Hph|log cl o Ho Hn|now t log cl pre h post tr Hd Hh Hturn Htr Hntr]; simpl in *.
  - destruct Hi as (Hp & Ht & Hd & -> & Hw). split; [by apply start_cell_inv|]. unfold start_cell.
    destruct (run_hook_ext HPreStart a_pre_start (cl_actor cl, set_phase PhaseStarting (cl_ctx cl)) law_pre_start)
      as (_ & Hw' & _ & _ & Hn & _). destruct (run_hook _ _ _) as [a c]. simpl in *. rewrite Ht in Hn. rewrite Hd.
    split; [exact Hn|]. rewrite Hw', Hw. split; [by rewrite dom_empty_L|]. by intros q x Hx.
  - destruct Hi as [Hc Hrest]. split; [exact (cell_step_inv p props (true, cl) (true, _) Hc (cs_turn props now t cl))|].
    destruct (cl_done cl) eqn:Hd.
    + unfold cell_turn, taken. rewrite Hd, app_nil_r. by rewrite Hd.
    + destruct Hrest as [Hn Hw]. destruct (turn_tells props now t cl _ Hd Hw) as (W & HW & Hp & H).
      unfold watchers_of. rewrite foldl_app. rewrite Hn, (ci_path _ _ Hc) in H.
      destruct (cl_done (cell_turn _ _ _ _)); [by exists W|]. destruct H as [H ->]. done.
  - destruct ph; [done| |done]. destruct Hi as [Hc Hi]. split; [by apply (cell_inv_same p cl)|done].
  - destruct ph; [done| |done]. destruct Hi as [Hc Hi]. split; [by apply (cell_inv_same p cl)|done].
  - destruct ph; [done| |done]. destruct Hi as [Hc Hi]. split; [by apply (cell_inv_same p cl)|done].
  - destruct Hi as (_ & Ht & _). rewrite Ht. cbn. unfold notices_of, hooks_of in *. cbn. rewrite Ho, Hn. split; [done|].
    exists [], HPreStart. split; [done|]. split; [done|]. by left.
  - destruct Hi as [Hc Hi]. rewrite Hd in Hi. destruct Hi as [Hn _]. rewrite Hntr. split; [done|].
    assert (cell_inv p (cell_turn props now t cl)) as [_ (mid' & Hm' & Hh') _] by exact (cell_step_inv p props (true, cl) (true, _) Hc (cs_turn props now t cl)).
    destruct Hc as [_ (mid & Hm & Hhk) _]. rewrite Hd, app_nil_r in Hhk. rewrite Hturn, Hhk in Hh'. cbn in Hh'. injection Hh' as Hh'.
    destruct (cut_hooks mid pre mid' (if cl_done (cell_turn props now t cl) then [HPostStop] else []) h post) as [Hpre Hne];
      [done|destruct (cl_done (cell_turn props now t cl)); auto|exact Hh'|].
    exists (mid ++ pre), h. split; [done|]. split; [done|]. right. split; [done|]. rewrite Htr, Hhk. cbn. by rewrite (assoc_L (++)).
Qed.


(** Stopping a cell: it tells every watcher (exactly the
    actors watching it at that time, each once) that it terminated, forgets them and its
    children, frees its name in the user guardian if and only if the slot is still its own,
    and stays stopped whatever is delivered later. *)
Theorem finish_notifies props cl t :
  let p := c_path (cl_ctx cl) in
  let fin := finish cl in
  notices_of (c_trace (cl_ctx fin)) = notices_of (c_trace (cl_ctx cl)) ++
    ((λ kw, (ref_dest kw.2, p)) <$> map_to_list (c_watched_by (cl_ctx cl))) ∧
  c_watched_by (cl_ctx fin) = ∅ ∧ c_children (cl_ctx fin) = ∅ ∧
  (∀ v name root, c_system (cl_ctx cl) = Some v → ap_elements p = [root; name] →
     v_guardian <$> c_system (cl_ctx fin) =
       Some (if decide (root = "user" ∧ ce_path <$> v_guardian v !! name = Some p)
             then delete name (v_guardian v) else v_guardian v)) ∧
  (rtc (cell_step props) (true, fin) t →
     t.1 = true ∧ cl_done t.2 = true ∧ c_trace (cl_ctx t.2) = c_trace (cl_ctx fin)).
Proof.
  intros p fin. destruct (finish_ext cl) as (Hp & Hd & Hw & Hc & Hh & Hn & Hv).
  split_and!; [done..| |].
  - intros v name root Hgu Hel. unfold fin. rewrite Hv, Hgu. cbn. f_equal.
    unfold free_slot. fold p. rewrite Hel. by case_decide.
  - intros Hrtc. eapply (rtc_preserve (λ t, t.1 = true ∧ cl_done t.2 = true ∧
      c_trace (cl_ctx t.2) = c_trace (cl_ctx fin))); [|exact Hrtc|done].
    intros t1 t2 (Hb & Hd1 & Ht) Hs.
    destruct Hs as [cl1|now timed_out cl1|m b cl1|env b cl1|v b cl1]; cbn in *; try done.
    unfold cell_turn. by rewrite Hd1.
Qed.

Fixpoint cell_turns props (ts : list (N * bool)) cl : Cell A Msg :=
  match ts with
  | [] => cl
  | (now, t) :: ts => cell_turns props ts (cell_turn props now t cl)
  end.

Lemma take_system_spec m cl :
  m ≠ SysStop →
  let cl' := take_system m cl in
  cl_done cl' = cl_done cl ∧ cl_sysq cl' = cl_sysq cl ∧ cl_userq cl' = cl_userq cl ∧
  ∃ hs, (∀ msg, HHandle msg ∉ hs) ∧
    hooks_of (c_trace (cl_ctx cl')) = hooks_of (c_trace (cl_ctx cl)) ++ hs.
Proof.
  intros Hm. unfold take_system.
  pose proof (handle_system_ext m (cl_actor cl, cl_ctx cl)) as H.
  destruct (handle_system _ _) as [stop s]. destruct H as (_ & Hstop & hs & _ & Hno & Hh & _).
  destruct stop; [naive_solver|]. split_and!; [done..|]. by exists hs.
Qed.

(** Stopping has priority: once a stop is in the system channel behind [n] other
    system messages, the cell ends within [n + 1] turns, no user message is handled in
    these turns however many are waiting, and they are still waiting at the end. *)
Theorem stop_has_priority props cl pre rest ts :
  cl_done cl = false → cl_sysq cl = pre ++ SysStop :: rest → SysStop ∉ pre →
  length ts = S (length pre) →
  let cl' := cell_turns props ts cl in
  cl_done cl' = true ∧ cl_userq cl' = cl_userq cl ∧
  ∃ hs, (∀ msg, HHandle msg ∉ hs) ∧
    hooks_of (c_trace (cl_ctx cl')) = hooks_of (c_trace (cl_ctx cl)) ++ hs.
Proof.
  revert cl ts. induction pre as [|m pre IH]; intros cl ts Hd Hq Hpre Hts.
  - destruct ts as [|[now t] [|]]; try done. simpl in *.
    unfold cell_turn. rewrite Hd, Hq. unfold take_system. simpl.
    destruct (finish_ext (set_actor (cl_actor cl, cl_ctx cl) (pop_sys cl)))
      as (_ & -> & _ & _ & Hh & _). split_and!; [done| |].
    + unfold finish. by destruct (finalize _) as [? ?].
    + exists [HPostStop]. split; [|exact Hh]. intros msg. rewrite list_elem_of_singleton. done.
  - destruct ts as [|[now t] ts]; [done|]. simpl in *. apply not_elem_of_cons in Hpre as [Hm Hpre].
    assert (cell_turn props now t cl = take_system m (pop_sys cl)) as ->.
    { unfold cell_turn. by rewrite Hd, Hq. }
    destruct (take_system_spec m (pop_sys cl) (not_eq_sym Hm)) as (Hd' & Hq' & Hu' & hs & Hno & Hh).
    simpl in *. rewrite Hq in Hq'. simpl in Hq'.
    destruct (IH (take_system m (pop_sys cl)) ts) as (Hd2 & Hu2 & hs2 & Hno2 & Hh2);
      [congruence|done|done|congruence|].
    split_and!; [done|congruence|]. exists (hs ++ hs2). split.
    + intros msg. rewrite not_elem_of_app. auto.
    + rewrite Hh2, Hh. by rewrite app_assoc.
Qed.

(** What a panic of a message handler leads to, per directive of the supervisor:
    resuming keeps the state the handler left; a restart the budget admits replaces the
    actor by a fresh one, with [pre_restart] run on the old and [post_restart] on the
    new one and the context kept; stopping, escalating, or a refused restart ends the
    cell; a graded directive is handed to the running actor. *)
Theorem supervise_directives props now err cl :
  let d := match p_supervisor props with Some s => strategy_decide s err | None => Restart end in
  let cl' := supervise props now err cl in
  match d with
  | Resume => cl' = cl
  | Restart =>
      match admit_restart (p_supervisor props) now (cl_history cl) with
      | Some h =>
          cl_history cl' = h ∧ cl_done cl' = cl_done cl ∧
          hooks_of (c_trace (cl_ctx cl')) =
            hooks_of (c_trace (cl_ctx cl)) ++ [HPreRestart err; HPostRestart err] ∧
          ∃ c, (cl_actor cl', cl_ctx cl') = a_post_restart err (new_actor props) c
      | None => cl' = finish cl
      end
  | DStop | Escalate => cl' = finish cl
  | Throttle _ _ | Suspend _ | ResumeFrom _ =>
      cl_history cl' = cl_history cl ∧ cl_done cl' = cl_done cl ∧
      (cl_actor cl', cl_ctx cl') =
        a_on_directive d (cl_actor cl) (emit [OHook (HOnDirective d)] (cl_ctx cl))
  end.
Proof.
  intros d cl'. subst cl'. unfold supervise. fold d. destruct d eqn:Ed; try done.
  - destruct (admit_restart _ _ _) as [h|]; [|done].
    pose proof (run_hook_ext (HPreRestart err) (a_pre_restart err) (cl_actor cl, cl_ctx cl)
      (law_pre_restart err)) as (_ & _ & _ & Hh1 & _ & _).
    destruct (run_hook (HPreRestart err) _ _) as [a1 c1]. simpl in Hh1.
    pose proof (run_hook_ext (HPostRestart err) (a_post_restart err) (new_actor props, c1)
      (law_post_restart err)) as (_ & _ & _ & Hh2 & _ & _). simpl in *.
    split_and!; [done..| |].
    + rewrite Hh2, Hh1. by rewrite <- app_assoc.
    + exists (emit [OHook (HPostRestart err)] c1). unfold run_hook. simpl.
      by destruct (a_post_restart _ _ _).
  - unfold run_hook. simpl. split_and!; [done..|]. by destruct (a_on_directive _ _ _).
  - unfold run_hook. simpl. split_and!; [done..|]. by destruct (a_on_directive _ _ _).
  - unfold run_hook. simpl. split_and!; [done..|]. by destruct (a_on_directive _ _ _).
Qed.
End lemmas.

(** ** A concrete actor: a counter that panics on zero and stops itself on 99 *)

Section counter_actor.
#[local] Instance counter_actor : Actor nat nat := {|
  a_handle a c m :=
    if m =? 0 then (inl "zero", (a, c))
    else if m =? 99 then (inr tt, (a, Context_stop_self c))
    else (inr tt, (a + m, c));
  a_pre_start a c := (a, c); a_post_stop a c := (a, c);
  a_pre_restart _ a c := (a, c); a_post_restart _ a c := (a, c);
  a_on_terminated _ a c := (a, c); a_on_directive _ a c := (a, c);
|}.

#[local] Instance counter_laws : ActorLaws nat nat.
Proof.
  split; intros; try apply rtc_refl. unfold a_handle, counter_actor.
  repeat case_match; simpl; try apply rtc_refl. apply rtc_once. constructor.
Qed.

Let path := ActorPath_child "a" (ActorPath_child "user" (ActorPath_root (Address_local "S"))).
Let watcher := ULocal (ActorPath_child "w" path) [1].
Let props := mkProps 7 (Some OneForOneStrategy_default) false.
Let view := Some (mkView {["a" := mkChild path [0]]} false).
Let start : Cell nat nat := start_cell (spawn_cell props path [0] view).


(** When [post_stop] panics the watcher is never told. *)
Lemma panic_in_post_stop_silent :
  let cl := start_cell (deliver_sys SysStop (deliver_sys (SysWatch watcher) (spawn_cell props path [0] view))) in
  let cl1 := cell_turn props 0 false cl in
  life_step props (Live, [SysWatch watcher], cl1) (Panicked, [SysWatch watcher; SysStop], set_trace [OHook HPreStart; OHook HPostStop] cl1).
Proof. intros cl cl1. apply (ls_panic props 0 false [SysWatch watcher] cl1 [] HPostStop []); reflexivity. Qed.

Lemma stop_has_priority_witness :
  let cl := deliver_user (mkEnvelope 5 SenderNone metadata_new) (deliver_sys SysStop start) in
  cl_done (cell_turns props [(0%N, false)] cl) = true.
Proof.
  intros cl.
  exact (proj1 (stop_has_priority props cl [] [] [(0%N, false)] eq_refl eq_refl
    (not_elem_of_nil _) eq_refl)).
Defined.

Lemma finish_notifies_witness :
  let cl := cell_turn props 0 false (deliver_sys (SysWatch watcher) start) in
  c_watched_by (cl_ctx (finish cl)) = ∅.
Proof. intros cl. exact (proj1 (proj2 (finish_notifies props cl (true, cl)))). Defined.

Lemma supervise_directives_witness :
  let cl := start in
  cl_history (supervise props 3 "boom" cl) = [3%N].
Proof. intros cl. exact (proj1 (supervise_directives props 3 "boom" cl)). Defined.

(** A child's name is not freed when the child terminates: spawning under the same name
    is refused for the rest of the parent's life. *)
Lemma child_name_not_freed :
  let c := (Context_spawn props "x" (Context_new (Msg := nat) path [0] view)).2 in
  let child := ActorPath_child "x" path in
  let '(_, (_, c')) := handle_system (SysTerminated child) (7, c) in
  (Context_spawn props "x" c').1 = inl (NameTaken "x").
Proof. by vm_compute. Qed.

(** Watching through a remote reference sends nothing: the message goes to a channel
    made on the spot, whose receiver is gone. *)
Lemma remote_watch_lost p (c : Ctx nat nat) :
  p ∉ c_watching c →
  Context_watch (URemote p) c = set_watching ({[p]} ∪ c_watching c) c.
Proof. intros Hp. unfold Context_watch. cbn [ref_path]. by rewrite decide_False. Qed.
End counter_actor.
