(* ===== verification/Patterns.v ===== *)
(** * Retry, circuit breaker, finite state machine and coordinated shutdown
    ([crates/atomr-core/src/pattern/retry.rs], [pattern/circuit_breaker.rs],
    [actor/fsm.rs], [actor/coordinated_shutdown.rs])

    The operations these wrap are the user's code: an asynchronous call is the outcome
    it has, a hook the time it takes.  Durations are nanoseconds ([N]); [u32] and [u64]
    arithmetic is as in the release profile. *)

From stdpp Require Import gmap strings list sorting.
From Stdlib Require Import NArith Lia.
From S2P Require Import Prelude.

(** ** Retry *)

Module Retry.

Inductive RetrySchedule :=
  | Fixed (d : N)
  | Exponential (min max : N).

(** [1u64.checked_shl(attempt).unwrap_or(u64::MAX)]. *)
Definition shl_factor (attempt : N) : N :=
  if (attempt <? 64)%N then (2 ^ attempt)%N else u64_max.

Definition u64_saturating_mul (a b : N) : N := N.min (a * b) u64_max.

(** [as_nanos() as u64] truncates. *)
Definition delay_for (s : RetrySchedule) (attempt : N) : N :=
  match s with
  | Fixed d => d
  | Exponential min max =>
      N.min (u64_saturating_mul (wrap64 min) (shl_factor attempt)) (wrap64 max)
  end.

Section retry.
Context {T E : Type}.

(** The loop from [attempt] on, with [fuel] attempts left; [op k] is the outcome of the
    [k]-th call.  The result, the calls made and the delays slept, in order. *)
Fixpoint retry_loop (op : N → E + T) (schedule : RetrySchedule) (max_attempts : N)
    (fuel : nat) (attempt : N) (last_err : option E)
    : (option E + T) * nat * list N :=
  match fuel with
  | O => (inl last_err, 0, [])
  | S fuel =>
      match op attempt with
      | inr v => (inr v, 1, [])
      | inl e =>
          let '(r, calls, delays) :=
            retry_loop op schedule max_attempts fuel (attempt + 1) (Some e) in
          (r, S calls,
           if (attempt + 1 <? max_attempts)%N then delay_for schedule attempt :: delays else delays)
      end
  end.

(** The assertion on [max_attempts]; [None] is a panic (of it, or of the [expect]). *)
Definition retry (op : N → E + T) (max_attempts : N) (schedule : RetrySchedule)
    : option ((E + T) * nat * list N) :=
  if (max_attempts =? 0)%N then None
  else match retry_loop op schedule max_attempts (N.to_nat max_attempts) 0 None with
       | (inr v, calls, delays) => Some (inr v, calls, delays)
       | (inl (Some e), calls, delays) => Some (inl e, calls, delays)
       | (inl None, _, _) => None
       end.

(** *** Lemmas *)

Lemma delay_exponential_bounded min max a :
  (max < u64_modulus)%N → (delay_for (Exponential min max) a ≤ max)%N.
Proof. intros H. simpl. unfold wrap64. rewrite (N.mod_small max) by done. lia. Qed.

Lemma delay_exponential_mono min max a b :
  (a ≤ b)%N → (delay_for (Exponential min max) a ≤ delay_for (Exponential min max) b)%N.
Proof.
  intros Hab. simpl. apply N.min_le_compat_r. unfold u64_saturating_mul.
  apply N.min_le_compat_r, N.mul_le_mono_l. unfold shl_factor.
  destruct (N.ltb_spec a 64), (N.ltb_spec b 64); [by apply N.pow_le_mono_r| |lia|done].
  assert (2 ^ a ≤ 2 ^ 63)%N by (apply N.pow_le_mono_r; lia).
  assert (2 ^ 63 ≤ u64_max)%N by done. lia.
Qed.

(** The calls all fail: every attempt is made, every delay but the last slept. *)
Lemma retry_loop_fail op s max fuel a err :
  (∀ k, (a ≤ k < a + N.of_nat fuel)%N → ∃ e, op k = inl e) →
  (N.of_nat fuel + a = max)%N → 0 < fuel →
  ∃ e, op (max - 1)%N = inl e ∧
    retry_loop op s max fuel a err =
    (inl (Some e), fuel, (λ k, delay_for s (a + N.of_nat k)) <$> seq 0 (fuel - 1)).
Proof.
  revert a err. induction fuel as [|fuel IH]; intros a err Hall Hmax Hpos; [lia|].
  destruct (Hall a) as [e He]; [lia|]. simpl. rewrite He.
  destruct (decide (fuel = 0)) as [->|Hf].
  - exists e. replace (max - 1)%N with a by lia. split; [done|]. simpl.
    destruct (N.ltb_spec (a + 1) max); [lia|done].
  - destruct (IH (a + 1)%N (Some e)) as (e' & He' & Hrun); [|lia|lia|].
    { intros k Hk. apply Hall. lia. }
    exists e'. split; [done|]. rewrite Hrun.
    destruct (N.ltb_spec (a + 1) max); [|lia]. do 2 f_equal.
    destruct fuel as [|fuel]; [lia|]. simpl. rewrite N.add_0_r. f_equal.
    rewrite Nat.sub_0_r, <- fmap_S_seq, <- list_fmap_compose. apply list_fmap_ext.
    intros i x _. simpl. f_equal. lia.
Qed.

(** The first success at attempt [n]: the calls before it fail. *)
Lemma retry_loop_ok op s max fuel a err n v :
  (∀ k, (a ≤ k < a + N.of_nat n)%N → ∃ e, op k = inl e) → op (a + N.of_nat n)%N = inr v →
  n < fuel → (N.of_nat fuel + a = max)%N →
  retry_loop op s max fuel a err =
  (inr v, S n, (λ k, delay_for s (a + N.of_nat k)) <$> seq 0 n).
Proof.
  revert a err fuel. induction n as [|n IH]; intros a err fuel Hall Hv Hlt Hmax;
    (destruct fuel as [|fuel]; [lia|]); simpl.
  - rewrite N.add_0_r in Hv. by rewrite Hv.
  - destruct (Hall a) as [e He]; [lia|]. rewrite He.
    rewrite (IH (a + 1)%N); [|intros k Hk; apply Hall; lia| |lia|lia].
    + destruct (N.ltb_spec (a + 1) max); [|lia]. do 2 f_equal. rewrite N.add_0_r. f_equal.
      rewrite <- fmap_S_seq, <- list_fmap_compose. apply list_fmap_ext.
      intros i x _. simpl. f_equal. lia.
    + rewrite <- Hv. f_equal. lia.
Qed.

(** A retried operation is called once per attempt until its first success, at
    most [max_attempts] times; the first success is returned, otherwise the error of
    the last attempt; between two calls exactly the scheduled delay is slept, and none
    after the last one; exponential delays never decrease and never exceed the cap. *)
Theorem retry_correct (op : N → E + T) max s :
  (0 < max)%N →
  (∀ n v, (n < max)%N → (∀ k, (k < n)%N → ∃ e, op k = inl e) → op n = inr v →
     retry op max s = Some (inr v, S (N.to_nat n), delay_for s <$> (N.of_nat <$> seq 0 (N.to_nat n)))) ∧
  ((∀ k, (k < max)%N → ∃ e, op k = inl e) →
     ∃ e, op (max - 1)%N = inl e ∧
       retry op max s = Some (inl e, N.to_nat max,
         delay_for s <$> (N.of_nat <$> seq 0 (N.to_nat max - 1)))) ∧
  (∀ lo hi a b, (hi < u64_modulus)%N → (a ≤ b)%N →
     (delay_for (Exponential lo hi) a ≤ delay_for (Exponential lo hi) b ≤ hi)%N).
Proof.
  intros Hpos. unfold retry. destruct (N.eqb_spec max 0) as [|Hne]; [lia|]. split_and!.
  - intros n v Hn Hall Hv.
    rewrite (retry_loop_ok op s max (N.to_nat max) 0 None (N.to_nat n) v);
      [|intros k Hk; apply Hall; lia|by rewrite N.add_0_l, N2Nat.id|lia|lia].
    do 2 f_equal. by rewrite <- list_fmap_compose.
  - intros Hall.
    destruct (retry_loop_fail op s max (N.to_nat max) 0 None) as (e & He & ->);
      [intros k Hk; apply Hall; lia|lia|lia|].
    exists e. split; [done|]. do 2 f_equal. by rewrite <- list_fmap_compose.
  - intros lo hi a b Hhi Hab. split; [by apply delay_exponential_mono|by apply delay_exponential_bounded].
Qed.
End retry.

Lemma retry_correct_witness :
  retry (λ k, if (k =? 2)%N then inr 42 else inl k) 5 (Exponential 10 25) =
    Some (inr 42, 3, [10; 20]%N).
Proof.
  refine (eq_trans (proj1 (retry_correct (λ k, if (k =? 2)%N then inr 42 else inl k) 5
    (Exponential 10 25) eq_refl) 2%N 42 eq_refl _ eq_refl) _); [|by vm_compute].
  intros k Hk. exists k. by destruct (N.eqb_spec k 2); [lia|].
Defined.

End Retry.

(** ** Circuit breaker *)

Module Breaker.

Inductive CircuitBreakerState := Closed | Open | HalfOpen.

(** [state]: 0 closed, 1 open, 2 half-open. *)
Record CircuitBreaker := mkCircuitBreaker {
  max_failures : N;
  call_timeout : N;
  reset_timeout : N;
  failures : N;
  opened_at_ns : N;
  cb_state : N;
}.

Definition CircuitBreaker_new (max_f call_t reset_t : N) : CircuitBreaker :=
  mkCircuitBreaker max_f call_t reset_t 0 0 0.

(** [now_ns] is [elapsed_ns()]. *)
Definition CircuitBreaker_state (now_ns : N) (cb : CircuitBreaker) : CircuitBreakerState :=
  if (cb_state cb =? 0)%N then Closed
  else if (cb_state cb =? 1)%N then
    if ((0 <? opened_at_ns cb) && (wrap64 (reset_timeout cb) <=? now_ns - opened_at_ns cb))%N
    then HalfOpen else Open
  else HalfOpen.

Definition record_failure (now_ns : N) (cb : CircuitBreaker) : CircuitBreaker :=
  let n := ((failures cb + 1) mod 2 ^ 32)%N in
  let cb' := mkCircuitBreaker (max_failures cb) (call_timeout cb) (reset_timeout cb) n
               (opened_at_ns cb) (cb_state cb) in
  if (max_failures cb <=? n)%N
  then mkCircuitBreaker (max_failures cb) (call_timeout cb) (reset_timeout cb) n now_ns 1
  else cb'.

(** The outcome of the wrapped call, within the timeout or not. *)
Inductive Attempt (T E : Type) := Success (v : T) | Failure (e : E) | TimedOut.
Arguments Success {_ _} _.
Arguments Failure {_ _} _.
Arguments TimedOut {_ _}.

Inductive CircuitBreakerError (E : Type) := ErrOpen | ErrTimeout | ErrInner (e : E).
Arguments ErrOpen {_}.
Arguments ErrTimeout {_}.
Arguments ErrInner {_} _.

(** One call; calls are made one after another. *)
Definition CircuitBreaker_call {T E} (now_ns : N) (f : Attempt T E) (cb : CircuitBreaker)
    : (CircuitBreakerError E + T) * CircuitBreaker :=
  if (cb_state cb =? 1)%N then (inl ErrOpen, cb)
  else match f with
       | Success v =>
           (inr v, mkCircuitBreaker (max_failures cb) (call_timeout cb) (reset_timeout cb) 0
                     (opened_at_ns cb) 0)
       | Failure e => (inl (ErrInner e), record_failure now_ns cb)
       | TimedOut => (inl ErrTimeout, record_failure now_ns cb)
       end.

Section runs.
Context {T E : Type}.

Fixpoint breaker_run (calls : list (N * Attempt T E)) (cb : CircuitBreaker)
    : list (CircuitBreakerError E + T) * CircuitBreaker :=
  match calls with
  | [] => ([], cb)
  | (now, f) :: calls =>
      let '(r, cb) := CircuitBreaker_call now f cb in
      let '(rs, cb) := breaker_run calls cb in (r :: rs, cb)
  end.

Definition is_failure (f : Attempt T E) : bool := match f with Success _ => false | _ => true end.

(** What a closed breaker returns for an outcome. *)
Definition pass (f : Attempt T E) : CircuitBreakerError E + T :=
  match f with Success v => inr v | Failure e => inl (ErrInner e) | TimedOut => inl ErrTimeout end.

(** Reference: pass the calls through, counting consecutive failures, until [max] of
    them; reject everything after that. *)
Fixpoint spec_run (max n : N) (calls : list (Attempt T E)) : list (CircuitBreakerError E + T) :=
  match calls with
  | [] => []
  | f :: calls =>
      pass f ::
      (if is_failure f then
         if (max <=? n + 1)%N then (λ _, inl ErrOpen) <$> calls else spec_run max (n + 1) calls
       else spec_run max 0 calls)
  end.

Lemma open_absorbing calls cb :
  cb_state cb = 1%N → breaker_run calls cb = ((λ _, inl ErrOpen) <$> calls, cb).
Proof.
  intros Ho. induction calls as [|[now f] calls IH]; [done|]. simpl.
  unfold CircuitBreaker_call. rewrite Ho. simpl. by rewrite IH.
Qed.

Lemma breaker_run_closed calls cb :
  cb_state cb = 0%N → (failures cb + N.of_nat (length calls) < 2 ^ 32)%N →
  (breaker_run calls cb).1 = spec_run (max_failures cb) (failures cb) (snd <$> calls).
Proof.
  revert cb. induction calls as [|[now f] calls IH]; intros cb Hc Hb; [done|].
  simpl length in Hb. rewrite fmap_cons. cbn [breaker_run spec_run snd].
  unfold CircuitBreaker_call. rewrite Hc. cbn [N.eqb].
  destruct f as [v|e|]; cbn [is_failure pass].
  - specialize (IH (mkCircuitBreaker (max_failures cb) (call_timeout cb) (reset_timeout cb) 0
      (opened_at_ns cb) 0) eq_refl). simpl in IH.
    destruct (breaker_run _ _) as [rs cb']. simpl in *. f_equal. apply IH. lia.
  - unfold record_failure. rewrite N.mod_small by lia.
    destruct (N.leb_spec (max_failures cb) (failures cb + 1)).
    + rewrite open_absorbing by done. simpl. f_equal. by rewrite <- list_fmap_compose.
    + specialize (IH (mkCircuitBreaker (max_failures cb) (call_timeout cb) (reset_timeout cb)
        (failures cb + 1) (opened_at_ns cb) (cb_state cb)) Hc). simpl in IH.
      destruct (breaker_run _ _) as [rs cb']. simpl in *. f_equal. apply IH. lia.
  - unfold record_failure. rewrite N.mod_small by lia.
    destruct (N.leb_spec (max_failures cb) (failures cb + 1)).
    + rewrite open_absorbing by done. simpl. f_equal. by rewrite <- list_fmap_compose.
    + specialize (IH (mkCircuitBreaker (max_failures cb) (call_timeout cb) (reset_timeout cb)
        (failures cb + 1) (opened_at_ns cb) (cb_state cb)) Hc). simpl in IH.
      destruct (breaker_run _ _) as [rs cb']. simpl in *. f_equal. apply IH. lia.
Qed.

(** A fresh circuit breaker passes calls through until [max_failures] of them fail
    in a row (a success resets the count), and from then on rejects every call without
    running it, whatever time passes. *)
Theorem breaker_refines_spec max_f call_t reset_t (calls : list (N * Attempt T E)) :
  (N.of_nat (length calls) < 2 ^ 32)%N →
  (breaker_run calls (CircuitBreaker_new max_f call_t reset_t)).1 =
    spec_run max_f 0 (snd <$> calls).
Proof. intros H. by apply breaker_run_closed. Qed.
End runs.

Lemma breaker_refines_spec_witness :
  let calls := [(1%N, Failure 1); (2%N, Success 2); (3%N, Failure 3); (4%N, TimedOut);
                (1000000%N, Success 5)] in
  (breaker_run calls (CircuitBreaker_new 2 10 10)).1 =
    [inl (ErrInner 1); inr 2; inl (ErrInner 3); inl ErrTimeout; inl ErrOpen].
Proof.
  intros calls.
  exact (breaker_refines_spec 2 10 10 calls eq_refl).
Defined.

(** The state a breaker reports and what a call does disagree: after the reset timeout
    it reports half-open, and still rejects. *)
Lemma breaker_half_open_rejects :
  let cb := (breaker_run [(5%N, Failure (T := nat) 1)] (CircuitBreaker_new 1 10 10)).2 in
  CircuitBreaker_state 1000 cb = HalfOpen ∧
  (CircuitBreaker_call 1000 (Success (T := nat) (E := nat) 1) cb).1 = inl ErrOpen.
Proof. by vm_compute. Qed.
End Breaker.

(** ** Finite state machine *)

Module FsmModel.
Section fsm.
Context {St D M : Type} `{Countable St}.

Record FsmTransition := mkFsmTransition { t_next : St; t_data : D; t_timeout : option N }.

Definition StateHandler : Type := St → D → M → option FsmTransition.

(** [fallback] is the [whenever] handler; hooks are the calls recorded. *)
Record Fsm := mkFsm {
  current_state : St;
  current_data : D;
  initial_state : St;
  handlers : gmap St StateHandler;
  fallback : option StateHandler;
  has_on_transition : bool;
  has_on_termination : bool;
  terminated : bool;
}.

Inductive FsmCall := OnTransition (from to : St) | OnTermination (s : St) (d : D).

Record FsmBuilder := mkFsmBuilder {
  b_initial : option (St * D);
  b_handlers : gmap St StateHandler;
  b_fallback : option StateHandler;
  b_on_transition : bool;
  b_on_termination : bool;
}.

Definition FsmBuilder_new : FsmBuilder := mkFsmBuilder None ∅ None false false.
Definition start_with (s : St) (d : D) (b : FsmBuilder) : FsmBuilder :=
  mkFsmBuilder (Some (s, d)) (b_handlers b) (b_fallback b) (b_on_transition b) (b_on_termination b).
Definition when_state (s : St) (h : StateHandler) (b : FsmBuilder) : FsmBuilder :=
  mkFsmBuilder (b_initial b) (<[s := h]> (b_handlers b)) (b_fallback b) (b_on_transition b)
    (b_on_termination b).
Definition whenever (h : StateHandler) (b : FsmBuilder) : FsmBuilder :=
  mkFsmBuilder (b_initial b) (b_handlers b) (Some h) (b_on_transition b) (b_on_termination b).
Definition on_transition (b : FsmBuilder) : FsmBuilder :=
  mkFsmBuilder (b_initial b) (b_handlers b) (b_fallback b) true (b_on_termination b).
Definition on_termination (b : FsmBuilder) : FsmBuilder :=
  mkFsmBuilder (b_initial b) (b_handlers b) (b_fallback b) (b_on_transition b) true.

(** [None]: the [expect] panics. *)
Definition FsmBuilder_build (b : FsmBuilder) : option Fsm :=
  '(s, d) ← b_initial b;
  Some (mkFsm s d s (b_handlers b) (b_fallback b) (b_on_transition b) (b_on_termination b) false).

Definition set_current (s : St) (d : D) (f : Fsm) : Fsm :=
  mkFsm s d (initial_state f) (handlers f) (fallback f) (has_on_transition f)
    (has_on_termination f) (terminated f).

(** The fallback branch is inactive: it always gives [None]. *)
Definition Fsm_handle (msg : M) (f : Fsm) : option St * Fsm * list FsmCall :=
  if terminated f then (None, f, []) else
  let attempted := match handlers f !! current_state f with
                   | Some h => h (current_state f) (current_data f) msg
                   | None => None
                   end in
  let transition := match attempted with
                    | Some t => Some t
                    | None => fallback f ≫= λ _, None
                    end in
  match transition with
  | Some t =>
      let calls := if decide (current_state f = t_next t) then []
                   else if has_on_transition f then [OnTransition (current_state f) (t_next t)] else [] in
      let f' := set_current (t_next t) (t_data t) f in
      (Some (current_state f'), f', calls)
  | None => (Some (current_state f), f, [])
  end.

Definition Fsm_terminate (f : Fsm) : Fsm * list FsmCall :=
  if terminated f then (f, []) else
  (mkFsm (current_state f) (current_data f) (initial_state f) (handlers f) (fallback f)
     (has_on_transition f) (has_on_termination f) true,
   if has_on_termination f then [OnTermination (current_state f) (current_data f)] else []).

Inductive FsmInput := FMsg (m : M) | FTerminate.

Definition fsm_step (acc : Fsm * list FsmCall) (i : FsmInput) : Fsm * list FsmCall :=
  match i with
  | FMsg m => let '(_, f, c) := Fsm_handle m acc.1 in (f, acc.2 ++ c)
  | FTerminate => let '(f, c) := Fsm_terminate acc.1 in (f, acc.2 ++ c)
  end.

(** The recorded calls form a path of real changes from [s] to [s'], ended by the
    termination call, if any. *)
Fixpoint call_path (s : St) (calls : list FsmCall) (s' : St) (ended : bool) : Prop :=
  match calls with
  | [] => s = s' ∧ ended = false
  | OnTransition a b :: calls => a = s ∧ a ≠ b ∧ call_path b calls s' ended
  | [OnTermination a _] => a = s ∧ s = s' ∧ ended = true
  | OnTermination _ _ :: _ => False
  end.

Lemma call_path_snoc_transition s calls a b :
  call_path s calls a false → a ≠ b → call_path s (calls ++ [OnTransition a b]) b false.
Proof.
  revert s. induction calls as [|[x y|x d] calls IH]; intros s; simpl.
  - naive_solver.
  - naive_solver.
  - destruct calls; naive_solver.
Qed.

Lemma call_path_snoc_termination s calls a d :
  call_path s calls a false → call_path s (calls ++ [OnTermination a d]) a true.
Proof.
  revert s. induction calls as [|[x y|x d'] calls IH]; intros s; simpl.
  - naive_solver.
  - naive_solver.
  - destruct calls; naive_solver.
Qed.

(** A built state machine runs as declared: over any inputs the transition hook is
    called for exactly the changes of state, so the calls form a path from the initial
    to the current state, the termination hook is called once, last, and only by the
    first termination; and after termination nothing changes any more. *)
Theorem fsm_calls_path b f0 inputs m :
  FsmBuilder_build (on_transition (on_termination b)) = Some f0 →
  let '(f, calls) := foldl fsm_step (f0, []) inputs in
  call_path (initial_state f0) calls (current_state f) (terminated f) ∧
  (terminated f = true → Fsm_handle m f = (None, f, []) ∧ Fsm_terminate f = (f, [])).
Proof.
  intros Hb.
  assert (∀ inputs, let '(f, calls) := foldl fsm_step (f0, []) inputs in
    call_path (initial_state f0) calls (current_state f) (terminated f) ∧
    has_on_transition f = true ∧ has_on_termination f = true) as Hinv.
  { unfold FsmBuilder_build in Hb. simpl in Hb. destruct (b_initial b) as [[s d]|]; simplify_eq/=.
    clear inputs. intros inputs. induction inputs as [|i inputs IH] using rev_ind; [done|].
    rewrite foldl_app. simpl. destruct (foldl fsm_step _ inputs) as [f calls].
    destruct IH as (Hp & Ht & He). destruct i as [msg|]; simpl.
    - unfold Fsm_handle. destruct (terminated f) eqn:Hte;
        [simpl; rewrite app_nil_r, Hte; done|].
      set (t := match match handlers f !! current_state f with Some h => _ | None => None end with
                | Some t => Some t | None => _ end).
      destruct t as [t|]; [|simpl; rewrite app_nil_r, Hte; done].
      rewrite Ht. simpl. rewrite Hte. case_decide as Hs; [rewrite app_nil_r, <- Hs|]; split_and!; try done.
      by apply call_path_snoc_transition.
    - unfold Fsm_terminate. destruct (terminated f) eqn:Hte;
        [simpl; rewrite app_nil_r, Hte; done|]. simpl.
      rewrite He. split_and!; try done. by apply call_path_snoc_termination. }
  specialize (Hinv inputs). destruct (foldl fsm_step _ inputs) as [f calls].
  destruct Hinv as [Hp _]. split; [done|]. intros Hte. unfold Fsm_handle, Fsm_terminate.
  by rewrite Hte.
Qed.

(** The fallback handler has no influence on any run. *)
Lemma fallback_never_runs f m h :
  let f' := mkFsm (current_state f) (current_data f) (initial_state f) (handlers f) h
              (has_on_transition f) (has_on_termination f) (terminated f) in
  (Fsm_handle m f').1.1 = (Fsm_handle m f).1.1 ∧ (Fsm_handle m f').2 = (Fsm_handle m f).2.
Proof.
  unfold Fsm_handle. simpl. destruct (terminated f); [done|].
  destruct (handlers f !! current_state f) as [g|];
    [destruct (g _ _ m) as [t|]; [done|]|]; by destruct h, (fallback f).
Qed.
End fsm.

Lemma fsm_calls_path_witness :
  let h : StateHandler (St := bool) (D := nat) (M := nat) :=
    λ s d m, Some (mkFsmTransition (negb s) (d + m) None) in
  let b := start_with false 0 (when_state false h FsmBuilder_new) in
  ∃ f0, FsmBuilder_build (on_transition (on_termination b)) = Some f0 ∧
  let '(f, calls) := foldl fsm_step (f0, []) [FMsg 3; FMsg 4; FTerminate] in
  call_path (initial_state f0) calls (current_state f) (terminated f).
Proof.
  intros h b. eexists. split; [reflexivity|].
  exact (proj1 (fsm_calls_path b _ [FMsg 3; FMsg 4; FTerminate] 0 eq_refl)).
Defined.
End FsmModel.

(** ** Coordinated shutdown *)

Module Shutdown.

Inductive Phase :=
  | BeforeServiceUnbind | ServiceUnbind | ServiceRequestsDone | ServiceStop
  | BeforeClusterShutdown | ClusterShardingShutdownRegion | ClusterLeave | ClusterExiting
  | ClusterExitingDone | ClusterShutdown | BeforeActorSystemTerminate | ActorSystemTerminate.

#[export] Instance Phase_eq_dec : EqDecision Phase.
Proof. solve_decision. Defined.

Definition Phase_ALL : list Phase :=
  [BeforeServiceUnbind; ServiceUnbind; ServiceRequestsDone; ServiceStop;
   BeforeClusterShutdown; ClusterShardingShutdownRegion; ClusterLeave; ClusterExiting;
   ClusterExitingDone; ClusterShutdown; BeforeActorSystemTerminate; ActorSystemTerminate].

(** The discriminant, which is the derived order. *)
Definition phase_index (p : Phase) : nat :=
  match p with
  | BeforeServiceUnbind => 0 | ServiceUnbind => 1 | ServiceRequestsDone => 2 | ServiceStop => 3
  | BeforeClusterShutdown => 4 | ClusterShardingShutdownRegion => 5 | ClusterLeave => 6
  | ClusterExiting => 7 | ClusterExitingDone => 8 | ClusterShutdown => 9
  | BeforeActorSystemTerminate => 10 | ActorSystemTerminate => 11
  end.

Record PhaseConfig := mkPhaseConfig { pc_timeout : N; pc_recover : bool }.

(** 5 s, recover. *)
Definition PhaseConfig_default : PhaseConfig := mkPhaseConfig 5000000000 true.

(** A hook with the time it takes; [None] never completes. *)
Record Task := mkTask { task_name : string; task_time : option N }.

(** A [BTreeMap] keyed by phase: a phase without entry has no hooks. *)
Record CoordinatedShutdown := mkCoordinatedShutdown {
  cs_hooks : Phase → list Task;
  cs_configs : Phase → option PhaseConfig;
  cs_started : bool;
}.

Definition CoordinatedShutdown_new : CoordinatedShutdown :=
  mkCoordinatedShutdown (λ _, []) (λ _, None) false.

Definition add_task (p : Phase) (t : Task) (cs : CoordinatedShutdown) : CoordinatedShutdown :=
  mkCoordinatedShutdown (λ q, if decide (q = p) then cs_hooks cs q ++ [t] else cs_hooks cs q)
    (cs_configs cs) (cs_started cs).

Definition configure_phase (p : Phase) (c : PhaseConfig) (cs : CoordinatedShutdown)
    : CoordinatedShutdown :=
  mkCoordinatedShutdown (cs_hooks cs)
    (λ q, if decide (q = p) then Some c else cs_configs cs q) (cs_started cs).

(** The hooks of a phase under [timeout]: those started and whether all completed in
    time.  [spent] is the time used so far. *)
Fixpoint phase_run (timeout spent : N) (hooks : list Task) : list string * bool :=
  match hooks with
  | [] => ([], true)
  | t :: hooks =>
      match task_time t with
      | Some d =>
          if (spent + d <=? timeout)%N then
            let '(started, ok) := phase_run timeout (spent + d) hooks in
            (task_name t :: started, ok)
          else ([task_name t], false)
      | None => ([task_name t], false)
      end
  end.

(** The loop over the phases; a timeout without [recover] ends it. *)
Fixpoint phases_run (cs : CoordinatedShutdown) (phases : list Phase) : list (Phase * string) :=
  match phases with
  | [] => []
  | p :: phases =>
      let cfg := default PhaseConfig_default (cs_configs cs p) in
      let '(started, ok) := phase_run (pc_timeout cfg) 0 (cs_hooks cs p) in
      ((p,.) <$> started) ++ (if ok || pc_recover cfg then phases_run cs phases else [])
  end.

(** The hooks started, in order, and the state afterwards. *)
Definition run_from (start : Phase) (cs : CoordinatedShutdown)
    : list (Phase * string) * CoordinatedShutdown :=
  if cs_started cs then ([], cs)
  else (phases_run cs (filter (λ p, phase_index start ≤ phase_index p) Phase_ALL),
        mkCoordinatedShutdown (cs_hooks cs) (cs_configs cs) true).

Definition run (cs : CoordinatedShutdown) : list (Phase * string) * CoordinatedShutdown :=
  run_from BeforeServiceUnbind cs.

Definition is_running (cs : CoordinatedShutdown) : bool := cs_started cs.

(** *** Lemmas *)

Lemma phase_run_prefix timeout spent hooks :
  ∃ n, (phase_run timeout spent hooks).1 = task_name <$> take n hooks.
Proof.
  revert spent. induction hooks as [|t hooks IH]; intros spent; simpl; [by exists 0|].
  destruct (task_time t) as [d|]; [|by exists 1].
  destruct (_ <=? _)%N; [|by exists 1].
  destruct (IH (spent + d)%N) as [n Hn]. destruct (phase_run _ _ hooks) as [started ok].
  exists (S n). simpl in *. by rewrite Hn.
Qed.

(** The total time of hooks that all complete. *)
Definition total_time (hooks : list Task) : option N :=
  foldr (λ t acc, d ← task_time t; a ← acc; Some (d + a)%N) (Some 0%N) hooks.

Lemma phase_run_complete timeout spent hooks total :
  total_time hooks = Some total → (spent + total ≤ timeout)%N →
  phase_run timeout spent hooks = (task_name <$> hooks, true).
Proof.
  revert spent total. induction hooks as [|t hooks IH]; intros spent total; simpl; [done|].
  destruct (task_time t) as [d|]; simpl; [|done].
  destruct (total_time hooks) as [a|]; simpl; [|done]. intros [= <-] Hle.
  destruct (N.leb_spec (spent + d) timeout); [|lia].
  rewrite (IH (spent + d)%N a) by (done || lia). done.
Qed.

Lemma phases_run_sorted cs phases :
  StronglySorted (λ p q, phase_index p < phase_index q) phases →
  StronglySorted (λ x y, phase_index x.1 ≤ phase_index y.1) (phases_run cs phases) ∧
  ∀ x, x ∈ phases_run cs phases → x.1 ∈ phases.
Proof.
  induction 1 as [|p phases Hs IH Hp]; simpl; [split; [constructor|set_solver]|].
  destruct (phase_run _ _ (cs_hooks cs p)) as [started ok]. destruct IH as [IHs IHin].
  assert (∀ x, x ∈ (if ok || pc_recover (default PhaseConfig_default (cs_configs cs p))
    then phases_run cs phases else []) → x.1 ∈ phases) as Hin.
  { intros x. destruct (_ || _); [apply IHin|by intros ?%elem_of_nil]. }
  split.
  - apply StronglySorted_app_2.
    + intros x y (n & -> & _)%list_elem_of_fmap Hy%Hin. simpl.
      rewrite Forall_forall in Hp. apply Hp in Hy. lia.
    + induction started as [|n started IHst]; [constructor|]. rewrite fmap_cons. constructor; [done|].
      apply Forall_forall. intros x (m & -> & _)%list_elem_of_fmap. done.
    + destruct (_ || _); [done|constructor].
  - intros x [(n & -> & _)%list_elem_of_fmap|Hx%Hin]%elem_of_app; [by left|by right].
Qed.

Lemma phases_sorted start :
  StronglySorted (λ p q, phase_index p < phase_index q)
    (filter (λ p, phase_index start ≤ phase_index p) Phase_ALL).
Proof. apply (bool_decide_unpack _). by destruct start; vm_compute. Qed.

(** Coordinated shutdown: the hooks start in ascending order of their phases, only
    phases at or after the requested one run, and within a phase a prefix of the hooks
    in registration order starts; if every phase completes within its timeout all hooks
    of those phases run; a second run does nothing. *)
Theorem shutdown_correct cs start :
  cs_started cs = false →
  let '(log, cs') := run_from start cs in
  StronglySorted (λ x y, phase_index x.1 ≤ phase_index y.1) log ∧
  (∀ p n, (p, n) ∈ log → phase_index start ≤ phase_index p ∧ n ∈ (task_name <$> cs_hooks cs p)) ∧
  ((∀ p, phase_index start ≤ phase_index p → ∃ total, total_time (cs_hooks cs p) = Some total ∧
      (total ≤ pc_timeout (default PhaseConfig_default (cs_configs cs p)))%N) →
   log = filter (λ p, phase_index start ≤ phase_index p) Phase_ALL ≫=
           λ p, (p,.) <$> (task_name <$> cs_hooks cs p)) ∧
  is_running cs' = true ∧ run_from start cs' = ([], cs').
Proof.
  intros Hs. unfold run_from. rewrite Hs.
  destruct (phases_run_sorted cs _ (phases_sorted start)) as [Hsort Hin].
  split_and!; [done| | |done|done].
  - intros p n Hlog. split; [by apply Hin, list_elem_of_filter in Hlog as [? _]|].
    revert Hlog. generalize (filter (λ p, phase_index start ≤ phase_index p) Phase_ALL).
    intros phases. induction phases as [|q phases IH]; simpl; [by intros ?%elem_of_nil|].
    destruct (phase_run_prefix (pc_timeout (default PhaseConfig_default (cs_configs cs q))) 0
      (cs_hooks cs q)) as [k Hk].
    destruct (phase_run _ _ _) as [started ok]. simpl in Hk.
    intros [(m & [= -> ->] & Hm)%list_elem_of_fmap|Hx]%elem_of_app.
    + rewrite Hk in Hm. apply list_elem_of_fmap in Hm as (t & -> & Ht).
      apply list_elem_of_fmap. exists t. split; [done|].
      apply elem_of_take in Ht as (i & Hi & _). by eapply list_elem_of_lookup_2.
    + apply IH. destruct (_ || _); [done|by apply elem_of_nil in Hx].
  - intros Hall.
    assert (∀ p, p ∈ filter (λ p, phase_index start ≤ phase_index p) Phase_ALL →
      phase_index start ≤ phase_index p) as Hge by (intros p [? _]%list_elem_of_filter; done).
    revert Hge. generalize (filter (λ p, phase_index start ≤ phase_index p) Phase_ALL).
    intros phases. induction phases as [|q phases IH]; intros Hge; [done|]. simpl.
    destruct (Hall q) as (total & Ht & Hle); [apply Hge; by left|].
    rewrite (phase_run_complete _ 0 _ total) by (done || lia). simpl. f_equal.
    apply IH. intros p Hp. apply Hge. by right.
Qed.

Lemma shutdown_correct_witness :
  let cs := add_task ActorSystemTerminate (mkTask "b" (Some 1%N))
              (add_task ServiceStop (mkTask "a" (Some 1%N)) CoordinatedShutdown_new) in
  StronglySorted (λ x y, phase_index x.1 ≤ phase_index y.1) (run_from BeforeServiceUnbind cs).1.
Proof. intros cs. exact (proj1 (shutdown_correct cs BeforeServiceUnbind eq_refl)). Defined.
End Shutdown.
