(* ===== verification/Journal.v ===== *)
(** * Journals and snapshot stores
    ([crates/atomr-persistence/src/journal.rs], [snapshot.rs], [async_snapshot.rs])

    The trait [Journal] is a class of operations; [JournalSpec] states what its clients
    rely on, as a view of the journal that gives each persistence id its stream of
    records.  [InMemoryJournal] implements it.  The snapshot store and the retention
    policy of [AsyncSnapshotter] follow. *)

From stdpp Require Import gmap strings list.
From Stdlib Require Import NArith Lia.
From S2P Require Import Prelude.

(** ** Records and errors *)

Record PersistentRepr := mkPersistentRepr {
  persistence_id : string;
  sequence_nr : N;
  payload : Bytes;
  manifest : string;
  writer_uuid : string;
  deleted : bool;
  tags : list string;
}.

Inductive JournalError :=
  | SequenceOutOfOrder (expected got : N)
  | JournalNotFound (pid : string)
  | JournalBackend (msg : string).

(** ** The interface *)

Class Journal (J : Type) := {
  write_messages : list PersistentRepr → J → J * (JournalError + unit);
  delete_messages_to : string → N → J → J * (JournalError + unit);
  replay_messages : string → N → N → N → J → JournalError + list PersistentRepr;
  highest_sequence_nr : string → N → J → JournalError + N;
  events_by_tag : string → N → N → J → JournalError + list PersistentRepr;
  all_persistence_ids : J → JournalError + list string;
}.

(** The number the next record of a stream must have. *)
Definition expected_nr (l : list PersistentRepr) : N :=
  match last l with
  | Some r => u64_add (sequence_nr r) 1
  | None => 1
  end.

Definition last_nr (l : list PersistentRepr) : N :=
  match last l with
  | Some r => sequence_nr r
  | None => 0
  end.

(** [iter().take(max as usize)] on a list. *)
Fixpoint take_N {A} (n : N) (l : list A) : list A :=
  match l with
  | [] => []
  | x :: l' => if (n =? 0)%N then [] else x :: take_N (n - 1) l'
  end.

(** The records a replay of [from..=to] may return. *)
Definition replayable (from to : N) (r : PersistentRepr) : Prop :=
  deleted r = false ∧ (from ≤ sequence_nr r)%N ∧ (sequence_nr r ≤ to)%N.
#[export] Instance replayable_dec from to r : Decision (replayable from to r) := _.

Definition mark_deleted (to : N) (r : PersistentRepr) : PersistentRepr :=
  if (sequence_nr r <=? to)%N
  then mkPersistentRepr (persistence_id r) (sequence_nr r) (payload r) (manifest r)
         (writer_uuid r) true (tags r)
  else r.

(** [ms] are records of [pid] numbered consecutively from [n]. *)
Fixpoint numbered (pid : string) (n : N) (ms : list PersistentRepr) : Prop :=
  match ms with
  | [] => True
  | m :: ms' => persistence_id m = pid ∧ sequence_nr m = n ∧ numbered pid (u64_add n 1) ms'
  end.

(** What a client may rely on: a batch that continues its stream is appended whole, a
    batch whose first record is out of order changes nothing, the other streams are
    untouched, and the reads agree with the streams. *)
Class JournalSpec (J : Type) `{Journal J} := {
  journal_view : J → string → list PersistentRepr;
  journal_write_ok j pid ms :
    numbered pid (expected_nr (journal_view j pid)) ms →
    ∃ j', write_messages ms j = (j', inr tt) ∧
      journal_view j' pid = journal_view j pid ++ ms;
  journal_write_rejected j m ms :
    sequence_nr m ≠ expected_nr (journal_view j (persistence_id m)) →
    ∃ j', write_messages (m :: ms) j =
        (j', inl (SequenceOutOfOrder (expected_nr (journal_view j (persistence_id m)))
                    (sequence_nr m))) ∧
      ∀ q, journal_view j' q = journal_view j q;
  journal_write_other j ms q :
    Forall (λ m, persistence_id m ≠ q) ms →
    journal_view (write_messages ms j).1 q = journal_view j q;
  journal_delete j pid to q :
    journal_view (delete_messages_to pid to j).1 q =
      if decide (q = pid) then mark_deleted to <$> journal_view j q else journal_view j q;
  journal_replay j pid from to max :
    replay_messages pid from to max j =
      inr (take_N max (filter (replayable from to) (journal_view j pid)));
  journal_highest j pid from :
    highest_sequence_nr pid from j = inr (last_nr (journal_view j pid));
}.

(** ** The in-memory journal *)

Record InMemoryJournal := mkInMemoryJournal {
  streams : gmap string (list PersistentRepr);
}.

Definition InMemoryJournal_new : InMemoryJournal := mkInMemoryJournal ∅.

(** The loop of [write_messages]: an error stops it and keeps what was pushed. *)
Fixpoint write_loop (ms : list PersistentRepr) (map : gmap string (list PersistentRepr))
    : gmap string (list PersistentRepr) * (JournalError + unit) :=
  match ms with
  | [] => (map, inr tt)
  | msg :: rest =>
      let entry := default [] (map !! persistence_id msg) in
      let expected := expected_nr entry in
      if (sequence_nr msg =? expected)%N
      then write_loop rest (<[persistence_id msg := entry ++ [msg]]> map)
      else (<[persistence_id msg := entry]> map,
            inl (SequenceOutOfOrder expected (sequence_nr msg)))
  end.

Definition InMemoryJournal_write_messages (ms : list PersistentRepr) (j : InMemoryJournal)
    : InMemoryJournal * (JournalError + unit) :=
  let '(map, res) := write_loop ms (streams j) in (mkInMemoryJournal map, res).

Definition InMemoryJournal_delete_messages_to (pid : string) (to : N) (j : InMemoryJournal)
    : InMemoryJournal * (JournalError + unit) :=
  (mkInMemoryJournal
     (match streams j !! pid with
      | Some stream => <[pid := mark_deleted to <$> stream]> (streams j)
      | None => streams j
      end), inr tt).

Definition InMemoryJournal_replay_messages (pid : string) (from to max : N)
    (j : InMemoryJournal) : JournalError + list PersistentRepr :=
  inr (match streams j !! pid with
       | Some v => take_N max (filter (replayable from to) v)
       | None => []
       end).

Definition InMemoryJournal_highest_sequence_nr (pid : string) (_from : N)
    (j : InMemoryJournal) : JournalError + N :=
  inr (match streams j !! pid with
       | Some v => last_nr v
       | None => 0%N
       end).

Definition InMemoryJournal_list_persistence_ids (j : InMemoryJournal) : list string :=
  (map_to_list (streams j)).*1.

Definition InMemoryJournal_all_persistence_ids (j : InMemoryJournal)
    : JournalError + list string :=
  inr (InMemoryJournal_list_persistence_ids j).

(** One stream of [events_by_tag], with the records found so far; the flag says that the
    scan returned early. *)
Fixpoint tag_scan (tag : string) (from_offset max : N) (out stream : list PersistentRepr)
    : list PersistentRepr * bool :=
  match stream with
  | [] => (out, false)
  | r :: stream' =>
      if deleted r then tag_scan tag from_offset max out stream'
      else if (sequence_nr r <? from_offset)%N then tag_scan tag from_offset max out stream'
      else if bool_decide (tag ∈ tags r)
      then let out' := out ++ [r] in
           if (max <=? N.of_nat (length out'))%N then (out', true)
           else tag_scan tag from_offset max out' stream'
      else tag_scan tag from_offset max out stream'
  end.

Fixpoint tag_scan_streams (tag : string) (from_offset max : N) (out : list PersistentRepr)
    (ss : list (list PersistentRepr)) : list PersistentRepr :=
  match ss with
  | [] => out
  | s :: ss' =>
      match tag_scan tag from_offset max out s with
      | (out', true) => out'
      | (out', false) => tag_scan_streams tag from_offset max out' ss'
      end
  end.

(** The iteration order of the map is that of [map_to_list]. *)
Definition InMemoryJournal_events_by_tag (tag : string) (from_offset max : N)
    (j : InMemoryJournal) : JournalError + list PersistentRepr :=
  inr (tag_scan_streams tag from_offset max [] (map_to_list (streams j)).*2).

Definition InMemoryJournal_event_count (pid : string) (j : InMemoryJournal) : N :=
  match streams j !! pid with
  | Some v => N.of_nat (length (filter (λ r, deleted r = false) v))
  | None => 0
  end.

#[export] Instance InMemoryJournal_Journal : Journal InMemoryJournal := {
  write_messages := InMemoryJournal_write_messages;
  delete_messages_to := InMemoryJournal_delete_messages_to;
  replay_messages := InMemoryJournal_replay_messages;
  highest_sequence_nr := InMemoryJournal_highest_sequence_nr;
  events_by_tag := InMemoryJournal_events_by_tag;
  all_persistence_ids := InMemoryJournal_all_persistence_ids;
}.

(** ** The in-memory journal meets the specification *)

Lemma take_N_all {A} (n : N) (l : list A) : (N.of_nat (length l) ≤ n)%N → take_N n l = l.
Proof.
  revert n; induction l as [|x l IH]; intros n; cbn [take_N length]; [done|].
  intros Hn. destruct (N.eqb_spec n 0); [lia|]. rewrite IH; [done|lia].
Qed.

Lemma take_N_take {A} (n : N) (l : list A) : take_N n l = take (N.to_nat n) l.
Proof.
  revert n; induction l as [|x l IH]; intros n; cbn [take_N]; [by rewrite take_nil|].
  destruct (N.eqb_spec n 0) as [->|]; [done|].
  replace (N.to_nat n) with (S (N.to_nat (n - 1))) by lia. cbn. by rewrite IH.
Qed.

Lemma expected_nr_snoc l m : expected_nr (l ++ [m]) = u64_add (sequence_nr m) 1.
Proof. unfold expected_nr. by rewrite last_snoc. Qed.

Definition mem_view (j : InMemoryJournal) (pid : string) : list PersistentRepr :=
  default [] (streams j !! pid).

Lemma write_loop_ok pid ms map :
  numbered pid (expected_nr (default [] (map !! pid))) ms →
  ∃ map', write_loop ms map = (map', inr tt) ∧
    default [] (map' !! pid) = default [] (map !! pid) ++ ms.
Proof.
  revert map; induction ms as [|m ms IH]; intros map; cbn [numbered write_loop].
  { intros _. exists map. by rewrite app_nil_r. }
  intros (<- & Hn & Hms). rewrite Hn, N.eqb_refl.
  destruct (IH (<[persistence_id m := default [] (map !! persistence_id m) ++ [m]]> map))
    as (map' & Hw & Hv).
  { rewrite lookup_insert_eq. cbn [default from_option id].
    by rewrite expected_nr_snoc, Hn. }
  exists map'. split; [exact Hw|].
  rewrite Hv, lookup_insert_eq. cbn. by rewrite <- app_assoc.
Qed.

Lemma default_insert_same (map : gmap string (list PersistentRepr)) k q :
  default [] (<[k := default [] (map !! k)]> map !! q) = default [] (map !! q).
Proof.
  destruct (decide (q = k)) as [->|Hq].
  - by rewrite lookup_insert_eq.
  - by rewrite lookup_insert_ne.
Qed.

Lemma write_loop_other ms map q :
  Forall (λ m, persistence_id m ≠ q) ms →
  default [] ((write_loop ms map).1 !! q) = default [] (map !! q).
Proof.
  intros Hms; revert map; induction Hms as [|m ms Hm Hms IH]; intros map; cbn [write_loop];
    [done|].
  case_match; [by rewrite IH, lookup_insert_ne|]. apply default_insert_same.
Qed.

#[export] Program Instance InMemoryJournal_Spec : JournalSpec InMemoryJournal := {
  journal_view := mem_view;
}.
Next Obligation.
  intros j pid ms Hms. destruct (write_loop_ok _ _ _ Hms) as (map' & Hw & Hv).
  exists (mkInMemoryJournal map'). cbn. unfold InMemoryJournal_write_messages. by rewrite Hw.
Qed.
Next Obligation.
  intros j m ms Hm. cbn. unfold InMemoryJournal_write_messages. cbn.
  destruct (N.eqb_spec (sequence_nr m) (expected_nr (default [] (streams j !! persistence_id m))))
    as [He|He]; [by destruct Hm|].
  eexists; split; [done|]. intros q. apply default_insert_same.
Qed.
Next Obligation.
  intros j ms q Hms. cbn. unfold InMemoryJournal_write_messages, mem_view.
  rewrite (surjective_pairing (write_loop _ _)). cbn. by apply write_loop_other.
Qed.
Next Obligation.
  intros j pid to q. unfold mem_view. cbn.
  destruct (streams j !! pid) as [v|] eqn:E; case_decide as Hq; subst.
  - by rewrite lookup_insert_eq, E.
  - by rewrite lookup_insert_ne.
  - by rewrite E.
  - done.
Qed.
Next Obligation.
  intros j pid from to max. unfold mem_view. cbn. unfold InMemoryJournal_replay_messages.
  by destruct (streams j !! pid).
Qed.
Next Obligation.
  intros j pid from. unfold mem_view. cbn. unfold InMemoryJournal_highest_sequence_nr.
  by destruct (streams j !! pid).
Qed.

(** ** Snapshot stores *)

Record SnapshotMetadata := mkSnapshotMetadata {
  snap_persistence_id : string;
  snap_sequence_nr : N;
  timestamp : N;
}.

Class SnapshotStore (S : Type) := {
  snapshot_save : SnapshotMetadata → Bytes → S → S;
  snapshot_load : string → S → option (SnapshotMetadata * Bytes);
  snapshot_delete : string → N → S → S;
}.

Record InMemorySnapshotStore := mkInMemorySnapshotStore {
  snapshots : gmap string (list (SnapshotMetadata * Bytes));
}.

Definition InMemorySnapshotStore_new : InMemorySnapshotStore := mkInMemorySnapshotStore ∅.

Definition InMemorySnapshotStore_save (meta : SnapshotMetadata) (data : Bytes)
    (s : InMemorySnapshotStore) : InMemorySnapshotStore :=
  mkInMemorySnapshotStore
    (entry_update [] (λ v, v ++ [(meta, data)]) (snap_persistence_id meta) (snapshots s)).

Definition InMemorySnapshotStore_load (pid : string) (s : InMemorySnapshotStore)
    : option (SnapshotMetadata * Bytes) :=
  v ← snapshots s !! pid; last v.

Definition InMemorySnapshotStore_delete (pid : string) (to : N) (s : InMemorySnapshotStore)
    : InMemorySnapshotStore :=
  mkInMemorySnapshotStore
    (match snapshots s !! pid with
     | Some v => <[pid := filter (λ e, (to < snap_sequence_nr e.1)%N) v]> (snapshots s)
     | None => snapshots s
     end).

#[export] Instance InMemorySnapshotStore_SnapshotStore
    : SnapshotStore InMemorySnapshotStore := {
  snapshot_save := InMemorySnapshotStore_save;
  snapshot_load := InMemorySnapshotStore_load;
  snapshot_delete := InMemorySnapshotStore_delete;
}.

(** *** Periodic snapshots *)

Inductive SnapshotPolicy :=
  | Periodic (every : N)
  | Manual.

Definition SnapshotPolicy_default : SnapshotPolicy := Periodic 100.

Section snapshotter.
Context {S : Type} `{SnapshotStore S}.

Record AsyncSnapshotter := mkAsyncSnapshotter {
  snap_store : S;
  policy : SnapshotPolicy;
  keep_last : N;
}.

Definition AsyncSnapshotter_new (s : S) (p : SnapshotPolicy) : AsyncSnapshotter :=
  mkAsyncSnapshotter s p 1.

(** [None] is the failed assertion. *)
Definition with_keep_last (n : N) (a : AsyncSnapshotter) : option AsyncSnapshotter :=
  if (1 <=? n)%N then Some (mkAsyncSnapshotter (snap_store a) (policy a) n) else None.

Definition should_snapshot (nr : N) (a : AsyncSnapshotter) : bool :=
  match policy a with
  | Manual => false
  | Periodic every =>
      if (every =? 0)%N then false else (0 <? nr)%N && (nr mod every =? 0)%N
  end.

(** [now] is the wall clock in milliseconds. *)
Definition AsyncSnapshotter_save (now : N) (pid : string) (nr : N) (data : Bytes)
    (a : AsyncSnapshotter) : AsyncSnapshotter :=
  let s1 := snapshot_save (mkSnapshotMetadata pid nr now) data (snap_store a) in
  let s2 :=
    if (1 <=? keep_last a)%N && (keep_last a <=? nr)%N
    then let prune_to := (nr - keep_last a)%N in
         if (0 <? prune_to)%N then snapshot_delete pid prune_to s1 else s1
    else s1 in
  mkAsyncSnapshotter s2 (policy a) (keep_last a).
End snapshotter.
Arguments AsyncSnapshotter : clear implicits.

Definition snapshots_of (pid : string) (s : InMemorySnapshotStore)
    : list (SnapshotMetadata * Bytes) := default [] (snapshots s !! pid).

Lemma snapshots_of_save meta data s q :
  snapshots_of q (InMemorySnapshotStore_save meta data s) =
    if decide (q = snap_persistence_id meta)
    then snapshots_of q s ++ [(meta, data)] else snapshots_of q s.
Proof.
  unfold snapshots_of, InMemorySnapshotStore_save. cbn. rewrite lookup_entry_update.
  case_decide as Hq; subst; [rewrite decide_True by done|rewrite decide_False by congruence];
    done.
Qed.

Lemma snapshots_of_delete pid to s q :
  snapshots_of q (InMemorySnapshotStore_delete pid to s) =
    if decide (q = pid)
    then filter (λ e, (to < snap_sequence_nr e.1)%N) (snapshots_of q s)
    else snapshots_of q s.
Proof.
  unfold snapshots_of, InMemorySnapshotStore_delete. cbn.
  case_decide as Hq; subst; destruct (snapshots s !! pid) as [v|] eqn:E; cbn.
  - by rewrite lookup_insert_eq.
  - by rewrite E.
  - by rewrite lookup_insert_ne.
  - done.
Qed.

Lemma load_last pid s : snapshot_load pid s = last (snapshots_of pid s).
Proof. unfold snapshots_of. cbn. unfold InMemorySnapshotStore_load. by destruct (_ !! _). Qed.

(** A save with retention keeps the snapshots above [nr - keep_last] and always the new
    one, which is the one a load returns. *)
Lemma AsyncSnapshotter_retention now pid nr data (a : AsyncSnapshotter InMemorySnapshotStore) :
  (1 ≤ keep_last a)%N →
  let a' := AsyncSnapshotter_save now pid nr data a in
  let new := (mkSnapshotMetadata pid nr now, data) in
  snapshots_of pid (snap_store a') =
    (if (nr - keep_last a =? 0)%N then snapshots_of pid (snap_store a)
     else filter (λ e, (nr - keep_last a < snap_sequence_nr e.1)%N)
            (snapshots_of pid (snap_store a))) ++ [new] ∧
  snapshot_load pid (snap_store a') = Some new ∧
  ∀ q, q ≠ pid → snapshots_of q (snap_store a') = snapshots_of q (snap_store a).
Proof.
  intros Hk a' new.
  assert (Hs : ∀ q, snapshots_of q (snap_store a') =
    if decide (q = pid) then
      (if (nr - keep_last a =? 0)%N then snapshots_of pid (snap_store a)
       else filter (λ e, (nr - keep_last a < snap_sequence_nr e.1)%N)
              (snapshots_of pid (snap_store a))) ++ [new]
    else snapshots_of q (snap_store a)).
  { intros q. unfold a', AsyncSnapshotter_save. cbn [snap_store snapshot_delete snapshot_save
      InMemorySnapshotStore_SnapshotStore].
    destruct (N.eqb_spec (nr - keep_last a) 0) as [Hz|Hz].
    - replace (0 <? nr - keep_last a)%N with false by (symmetry; apply N.ltb_ge; lia).
      replace (if _ && _ then _ else _) with
        (InMemorySnapshotStore_save (mkSnapshotMetadata pid nr now) data (snap_store a))
        by (by destruct (_ && _)).
      rewrite snapshots_of_save. cbn. by case_decide as Hq; subst.
    - replace (0 <? nr - keep_last a)%N with true by (symmetry; apply N.ltb_lt; lia).
      replace ((1 <=? keep_last a)%N && (keep_last a <=? nr)%N) with true
        by (symmetry; apply andb_true_intro; split; apply N.leb_le; lia).
      rewrite snapshots_of_delete, snapshots_of_save. cbn. case_decide as Hq; subst; [|done].
      rewrite filter_app. f_equal. rewrite filter_cons_True; [done|]. cbn. lia. }
  split; [by rewrite Hs, decide_True|split].
  - rewrite load_last, Hs, decide_True by done. by rewrite last_snoc.
  - intros q Hq. by rewrite Hs, decide_False.
Qed.

(** With periodic snapshots at least [keep_last] apart only the newest one survives:
    [keep_last] counts sequence numbers, not snapshots. *)
Lemma AsyncSnapshotter_keeps_one :
  let a := mkAsyncSnapshotter InMemorySnapshotStore_new (Periodic 100) 3 in
  let a := AsyncSnapshotter_save 0 "p" 100 [] a in
  let a := AsyncSnapshotter_save 1 "p" 200 [] a in
  let a := AsyncSnapshotter_save 2 "p" 300 [] a in
  (λ e, snap_sequence_nr e.1) <$> snapshots_of "p" (snap_store a) = [300%N].
Proof. vm_compute. reflexivity. Qed.
