(* ===== verification/Eventsourced.v ===== *)
(** * Event sourcing ([crates/atomr-persistence/src/eventsourced.rs])

    The trait [Eventsourced] is a class; its driver methods [recover] and
    [handle_command] are functions over any [Journal].  The theorems are proved against
    [JournalSpec] and the law that the codec of the actor decodes what it encodes, so
    they hold for every journal that meets it and for every actor.

    The permit that [recover] waits for comes from a semaphore: the flag [permit] says
    whether it was granted or the permitter is closed. *)

From stdpp Require Import gmap strings list.
From Stdlib Require Import NArith Lia.
From S2P Require Import Prelude Journal.

(** ** The trait *)

Class Eventsourced (A Command Event State Error : Type) := {
  es_persistence_id : A → string;
  event_manifest : A → string;
  command_to_events : A → State → Command → Error + list Event;
  apply_event : State → Event → State;
  encode_event : Event → string + Bytes;
  decode_event : Bytes → string + Event;
  recovery_completed : A → State → N → A;
  state_default : State;
}.

(** The documented symmetry of [encode_event] and [decode_event]. *)
Class CodecLaws (A Command Event State Error : Type)
    `{E : Eventsourced A Command Event State Error} : Prop := {
  decode_encode : ∀ e b, encode_event e = inr b → decode_event b = inr e;
}.

Inductive EventsourcedError (DomainErr : Type) :=
  | EsJournal (e : JournalError)
  | EsCodec (msg : string)
  | PermitDenied
  | Domain (e : DomainErr).
Arguments EsJournal {_} _.
Arguments EsCodec {_} _.
Arguments PermitDenied {_}.
Arguments Domain {_} _.

(** ** The driver *)

Section driver.
Context {A Command Event State Error : Type} `{E : Eventsourced A Command Event State Error}.
Context {J : Type} `{HJ : Journal J}.

(** The loop of [recover]: the state at the end or at the first undecodable record. *)
Fixpoint replay_events (events : list PersistentRepr) (state : State)
    : State * option string :=
  match events with
  | [] => (state, None)
  | e :: events' =>
      match decode_event (payload e) with
      | inl c => (state, Some c)
      | inr evt => replay_events events' (apply_event state evt)
      end
  end.

Definition recover (permit : bool) (self : A) (journal : J) (state : State)
    : A * State * (EventsourcedError Error + N) :=
  if permit then
    let pid := es_persistence_id self in
    match highest_sequence_nr pid 0 journal with
    | inl e => (self, state, inl (EsJournal e))
    | inr highest =>
        match replay_messages pid 1 highest u64_max journal with
        | inl e => (self, state, inl (EsJournal e))
        | inr events =>
            match replay_events events state with
            | (state', Some c) => (self, state', inl (EsCodec c))
            | (state', None) => (recovery_completed self state' highest, state', inr highest)
            end
        end
    end
  else (self, state, inl PermitDenied).

Definition event_repr (self : A) (writer : string) (nr : N) (data : Bytes) : PersistentRepr :=
  mkPersistentRepr (es_persistence_id self) nr data (event_manifest self) writer false [].

(** The loop that numbers and encodes the events; the counter has moved on also when an
    event cannot be encoded. *)
Fixpoint build_reprs (self : A) (writer : string) (events : list Event) (next_seq : N)
    : N * (string + list PersistentRepr) :=
  match events with
  | [] => (next_seq, inr [])
  | e :: events' =>
      let nr := u64_add next_seq 1 in
      match encode_event e with
      | inl c => (nr, inl c)
      | inr data =>
          match build_reprs self writer events' nr with
          | (n, inl c) => (n, inl c)
          | (n, inr reprs) => (n, inr (event_repr self writer nr data :: reprs))
          end
      end
  end.

Definition handle_command (self : A) (journal : J) (state : State) (next_seq : N)
    (writer : string) (cmd : Command)
    : J * State * N * (EventsourcedError Error + unit) :=
  match command_to_events self state cmd with
  | inl err => (journal, state, next_seq, inl (Domain err))
  | inr [] => (journal, state, next_seq, inr tt)
  | inr events =>
      match build_reprs self writer events next_seq with
      | (n, inl c) => (journal, state, n, inl (EsCodec c))
      | (n, inr reprs) =>
          match write_messages reprs journal with
          | (journal', inl e) => (journal', state, n, inl (EsJournal e))
          | (journal', inr _) => (journal', foldl apply_event state events, n, inr tt)
          end
      end
  end.

Definition save_snapshot {S : Type} `{SnapshotStore S} (self : A) (nr : N) (data : Bytes)
    (store : S) : S :=
  snapshot_save (mkSnapshotMetadata (es_persistence_id self) nr 0) data store.

(** ** Runs

    An actor handles commands while other actors use the same journal. *)
Inductive EsStep :=
  | EsCommand (writer : string) (cmd : Command)
  | EsOtherWrite (ms : list PersistentRepr)
  | EsOtherDelete (pid : string) (to : N).

(** [run_attempted] counts the events the commands produced, without wrapping. *)
Record EsRun := mkEsRun {
  run_journal : J;
  run_state : State;
  run_seq : N;
  run_attempted : N;
  run_results : list (EventsourcedError Error + unit);
}.

Definition produced (self : A) (state : State) (cmd : Command) : N :=
  match command_to_events self state cmd with
  | inl _ => 0
  | inr events => N.of_nat (length events)
  end.

Definition es_step (self : A) (r : EsRun) (s : EsStep) : EsRun :=
  match s with
  | EsCommand writer cmd =>
      let '(j, st, n, res) :=
        handle_command self (run_journal r) (run_state r) (run_seq r) writer cmd in
      mkEsRun j st n (run_attempted r + produced self (run_state r) cmd) (run_results r ++ [res])
  | EsOtherWrite ms =>
      mkEsRun (write_messages ms (run_journal r)).1 (run_state r) (run_seq r)
        (run_attempted r) (run_results r)
  | EsOtherDelete pid to =>
      mkEsRun (delete_messages_to pid to (run_journal r)).1 (run_state r) (run_seq r)
        (run_attempted r) (run_results r)
  end.

Definition es_start (j : J) : EsRun := mkEsRun j state_default 0 0 [].

Definition es_run (self : A) (j : J) (steps : list EsStep) : EsRun :=
  foldl (es_step self) (es_start j) steps.

(** The other actors have other persistence ids. *)
Definition foreign (pid : string) (s : EsStep) : Prop :=
  match s with
  | EsCommand _ _ => True
  | EsOtherWrite ms => Forall (λ m, persistence_id m ≠ pid) ms
  | EsOtherDelete p _ => p ≠ pid
  end.
End driver.
Arguments EsStep : clear implicits.
Arguments EsRun : clear implicits.

(** ** Numbered streams *)

Lemma numbered_lookup pid n l i m :
  numbered pid n l → (n + N.of_nat (length l) ≤ u64_modulus)%N → l !! i = Some m →
  sequence_nr m = (n + N.of_nat i)%N.
Proof.
  revert n i; induction l as [|x l IH]; intros n i; [done|].
  cbn [numbered length]. intros (_ & Hx & Hl) Hb Hi. destruct i as [|i]; cbn in Hi.
  - simplify_eq. lia.
  - apply lookup_lt_Some in Hi as Hlt.
    rewrite (IH _ _ Hl) with (2 := Hi); rewrite u64_add_small; lia.
Qed.

Lemma numbered_app pid n l1 l2 :
  (n + N.of_nat (length l1) < u64_modulus)%N →
  numbered pid n l1 → numbered pid (n + N.of_nat (length l1)) l2 → numbered pid n (l1 ++ l2).
Proof.
  revert n; induction l1 as [|x l1 IH]; intros n; cbn [numbered length app].
  - intros _ _. by rewrite N.add_0_r.
  - intros Hb (Hp & Hx & Hl1) Hl2. split_and!; [done|done|].
    rewrite u64_add_small in Hl1 |- * by lia. apply IH; [lia|done|].
    replace (n + 1 + N.of_nat (length l1))%N with (n + N.of_nat (S (length l1)))%N by lia. done.
Qed.

Lemma numbered_last pid l :
  numbered pid 1 l → (N.of_nat (length l) < u64_modulus)%N →
  last_nr l = N.of_nat (length l) ∧ expected_nr l = u64_add (N.of_nat (length l)) 1.
Proof.
  intros Hl Hb. unfold last_nr, expected_nr.
  destruct (last l) as [m|] eqn:E; [|by apply last_None in E as ->].
  rewrite last_lookup in E. apply lookup_lt_Some in E as Hlt.
  rewrite (numbered_lookup _ _ _ _ _ Hl) with (2 := E) by lia.
  split; [lia|]. f_equal. lia.
Qed.

Lemma numbered_replayable pid l :
  numbered pid 1 l → (N.of_nat (length l) < u64_modulus)%N →
  Forall (λ r, deleted r = false) l →
  filter (replayable 1 (N.of_nat (length l))) l = l.
Proof.
  intros Hl Hb Hd. apply filter_all. apply Forall_lookup_2. intros i m Hi.
  unfold replayable. rewrite (numbered_lookup _ _ _ _ _ Hl) with (2 := Hi) by lia.
  apply lookup_lt_Some in Hi as Hlt. rewrite Forall_lookup in Hd. split; [eauto|lia].
Qed.

(** ** Recovery reproduces the state *)

Section recovery.
Context {A Command Event State Error : Type} `{E : Eventsourced A Command Event State Error}.
Context `{HC : !CodecLaws A Command Event State Error}.
Context {J : Type} `{HS : JournalSpec J}.

Lemma replay_events_app l1 l2 st :
  replay_events (l1 ++ l2) st =
    match replay_events l1 st with
    | (st', None) => replay_events l2 st'
    | err => err
    end.
Proof.
  revert st; induction l1 as [|r l1 IH]; intros st; cbn; [done|].
  destruct (decode_event _); [done|]. apply IH.
Qed.

Lemma build_reprs_counter self writer events n :
  (n + N.of_nat (length events) < u64_modulus)%N →
  (n ≤ (build_reprs self writer events n).1 ≤ n + N.of_nat (length events))%N.
Proof.
  revert n; induction events as [|e events IH]; intros n Hb; cbn [build_reprs length] in *.
  { cbn. lia. }
  rewrite u64_add_small by lia. specialize (IH (n + 1)%N ltac:(lia)).
  destruct (encode_event e); cbn [fst]; [lia|].
  destruct (build_reprs self writer events (n + 1)) as [n' [c|rs]]; cbn [fst] in IH |- *; lia.
Qed.

Lemma build_reprs_ok self writer events n n' reprs st :
  (n + N.of_nat (length events) < u64_modulus)%N →
  build_reprs self writer events n = (n', inr reprs) →
  n' = (n + N.of_nat (length events))%N ∧ length reprs = length events ∧
  numbered (es_persistence_id self) (u64_add n 1) reprs ∧
  Forall (λ r, deleted r = false) reprs ∧
  replay_events reprs st = (foldl apply_event st events, None).
Proof.
  revert n n' reprs st; induction events as [|e events IH]; intros n n' reprs st Hb;
    cbn [build_reprs length foldl] in *; intros Hbuild.
  { simplify_eq. split_and!; [lia|done|done|constructor|done]. }
  destruct (encode_event e) as [c|data] eqn:Henc; [done|].
  rewrite u64_add_small in Hbuild by lia.
  destruct (build_reprs self writer events (n + 1)) as [n1 [c|rs]] eqn:Hrest; [done|].
  simplify_eq. destruct (IH (n + 1)%N n' rs (apply_event st e) ltac:(lia) Hrest)
    as (-> & Hlen & Hnum & Hdel & Hrep).
  cbn [numbered length replay_events event_repr payload persistence_id sequence_nr].
  rewrite (decode_encode _ _ Henc), Hlen, (u64_add_small n 1) by lia.
  split_and!; [lia|done|done|done|done|constructor; done|done].
Qed.

Lemma build_reprs_total self writer events n :
  (∀ e, ∃ b, encode_event e = inr b) →
  ∃ n' reprs, build_reprs self writer events n = (n', inr reprs).
Proof.
  intros Henc. revert n; induction events as [|e events IH]; intros n; cbn; [by eauto|].
  destruct (Henc e) as [b ->]. destruct (IH (u64_add n 1)) as (n' & rs & ->). by eauto.
Qed.

(** The stream of the actor is numbered from 1 without deletions, replaying it gives the
    state of the actor, and the counter of the actor is never behind it. *)
Definition es_inv (self : A) (r : EsRun State Error J) : Prop :=
  let l := journal_view (run_journal r) (es_persistence_id self) in
  numbered (es_persistence_id self) 1 l ∧ Forall (λ m, deleted m = false) l ∧
  replay_events l state_default = (run_state r, None) ∧
  (N.of_nat (length l) ≤ run_seq r)%N ∧ (run_seq r ≤ run_attempted r)%N.

Lemma es_inv_command self r writer cmd :
  es_inv self r →
  (run_attempted (es_step self r (EsCommand writer cmd)) < u64_modulus)%N →
  es_inv self (es_step self r (EsCommand writer cmd)).
Proof.
  intros (Hnum & Hdel & Hrep & Hle & Hatt). cbn [es_step]. unfold handle_command, produced.
  destruct (command_to_events self (run_state r) cmd) as [err|[|e events]] eqn:Hc.
  1, 2: cbn; intros _; split_and!; cbn; done || lia.
  remember (e :: events) as evs eqn:Hevs.
  assert (Hne : (0 < N.of_nat (length evs))%N) by (subst; cbn; lia). clear Hc.
  intros Hb.
  assert (Hb' : (run_seq r + N.of_nat (length evs) < u64_modulus)%N).
  { revert Hb. repeat case_match; cbn; lia. }
  pose proof (build_reprs_counter self writer evs (run_seq r) Hb') as Hcnt. clear Hb.
  destruct (build_reprs self writer evs (run_seq r)) as [n [c|reprs]] eqn:Hbuild; cbn in Hcnt.
  { split_and!; cbn; done || lia. }
  destruct (build_reprs_ok _ _ _ _ _ _ (run_state r) Hb' Hbuild)
    as (-> & Hlen & Hrnum & Hrdel & Hrrep).
  destruct (numbered_last _ _ Hnum ltac:(lia)) as [_ Hexp].
  set (l := journal_view (run_journal r) (es_persistence_id self)) in *.
  destruct (decide (run_seq r = N.of_nat (length l))) as [Heq|Hneq].
  - destruct (journal_write_ok (run_journal r) (es_persistence_id self) reprs)
      as (j' & -> & Hview).
    { fold l. by rewrite Hexp, <- Heq. }
    fold l in Hview. split_and!; cbn; rewrite ?Hview.
    + apply numbered_app; [lia|done|].
      rewrite u64_add_small in Hrnum by lia. by rewrite N.add_comm, <- Heq.
    + by apply Forall_app.
    + by rewrite replay_events_app, Hrep.
    + rewrite length_app. lia.
    + lia.
  - destruct reprs as [|m reprs]; [cbn in Hlen; lia|].
    destruct Hrnum as (Hpid & Hseq & _).
    destruct (journal_write_rejected (run_journal r) m reprs) as (j' & -> & Hview).
    { rewrite Hpid. fold l. rewrite Hexp, Hseq, !u64_add_small by lia. lia. }
    split_and!; cbn; rewrite ?Hview; fold l; done || lia.
Qed.

Lemma es_step_attempted self r s : (run_attempted r ≤ run_attempted (es_step self r s))%N.
Proof. destruct s; cbn; [|lia|lia]. destruct (handle_command _ _ _ _ _ _) as [[[]]]. cbn. lia. Qed.

Lemma es_inv_step self r s :
  foreign (es_persistence_id self) s → (run_attempted (es_step self r s) < u64_modulus)%N →
  es_inv self r → es_inv self (es_step self r s).
Proof.
  intros Hs Hb Hr. destruct s as [writer cmd|ms|pid to]; [by apply es_inv_command| |].
  - unfold es_inv. cbn. rewrite journal_write_other by done. exact Hr.
  - unfold es_inv. cbn. rewrite journal_delete, decide_False by congruence. exact Hr.
Qed.

Lemma es_run_snoc self j steps s :
  es_run self j (steps ++ [s]) = es_step self (es_run self j steps) s.
Proof. unfold es_run. by rewrite foldl_app. Qed.

Lemma es_inv_run self j steps :
  journal_view j (es_persistence_id self) = [] →
  Forall (foreign (es_persistence_id self)) steps →
  (run_attempted (es_run self j steps) < u64_modulus)%N →
  es_inv self (es_run self j steps).
Proof.
  intros Hj. induction steps as [|s steps IH] using rev_ind; intros Hf Hb.
  { unfold es_inv. cbn. rewrite Hj. split_and!; (done || constructor || (cbn; lia)). }
  rewrite es_run_snoc in Hb |- *. apply Forall_app in Hf as [Hf Hs].
  apply Forall_inv in Hs.
  pose proof (es_step_attempted self (es_run self j steps) s).
  apply es_inv_step; [done|done|]. apply IH; [done|lia].
Qed.

Lemma recover_inv self r :
  es_inv self r → (run_attempted r < u64_modulus)%N →
  let h := N.of_nat (length (journal_view (run_journal r) (es_persistence_id self))) in
  recover true self (run_journal r) state_default =
    (recovery_completed self (run_state r) h, run_state r, inr h).
Proof.
  intros (Hnum & Hdel & Hrep & Hle & Hatt) Hb h. unfold recover.
  destruct (numbered_last _ _ Hnum ltac:(lia)) as [Hlast _].
  rewrite journal_highest, Hlast, journal_replay, (numbered_replayable (es_persistence_id self)) by (done || lia).
  rewrite take_N_all by (unfold u64_max, u64_modulus in *; lia). by rewrite Hrep.
Qed.

(** With an encoder that never fails the counter is exactly the number of records, and a
    command fails only for a domain reason. *)
Lemma es_step_sound self r s :
  (∀ e, ∃ b, encode_event e = inr b) → foreign (es_persistence_id self) s →
  (run_attempted (es_step self r s) < u64_modulus)%N → es_inv self r →
  let len r := N.of_nat (length (journal_view (run_journal r) (es_persistence_id self))) in
  let fine res := res = inr tt ∨ ∃ d, res = inl (Domain d) in
  run_seq r = len r → Forall fine (run_results r) →
  run_seq (es_step self r s) = len (es_step self r s) ∧
  Forall fine (run_results (es_step self r s)).
Proof.
  intros Henc Hs Hb (Hnum & Hdel & Hrep & Hle & Hatt) len fine Hseq Hres. unfold len in *.
  destruct s as [writer cmd|ms|pid to]; cbn in Hs |- *.
  2: by rewrite journal_write_other.
  2: by rewrite journal_delete, decide_False by congruence.
  cbn in Hb. unfold handle_command, produced in *.
  destruct (command_to_events self (run_state r) cmd) as [err|[|e events]].
  1, 2: cbn; split; [done|]; apply Forall_app; split; [done|]; constructor; [|done];
    unfold fine; eauto.
  remember (e :: events) as evs eqn:Hevs.
  assert (Hb' : (run_seq r + N.of_nat (length evs) < u64_modulus)%N).
  { revert Hb. repeat case_match; cbn; lia. }
  destruct (build_reprs_total self writer evs (run_seq r) Henc) as (n & reprs & Hbuild).
  rewrite Hbuild in Hb |- *.
  destruct (build_reprs_ok _ _ _ _ _ _ (run_state r) Hb' Hbuild)
    as (-> & Hlen & Hrnum & _).
  destruct (numbered_last _ _ Hnum ltac:(lia)) as [_ Hexp].
  destruct (journal_write_ok (run_journal r) (es_persistence_id self) reprs)
    as (j' & -> & Hview).
  { by rewrite Hexp, <- Hseq. }
  cbn. rewrite Hview, length_app, Hlen. split; [lia|].
  apply Forall_app; split; [done|]. constructor; [by left|done].
Qed.

Lemma es_run_sound self j steps :
  (∀ e, ∃ b, encode_event e = inr b) →
  journal_view j (es_persistence_id self) = [] →
  Forall (foreign (es_persistence_id self)) steps →
  (run_attempted (es_run self j steps) < u64_modulus)%N →
  run_seq (es_run self j steps) =
    N.of_nat (length (journal_view (run_journal (es_run self j steps)) (es_persistence_id self))) ∧
  Forall (λ res, res = inr tt ∨ ∃ d, res = inl (Domain d)) (run_results (es_run self j steps)).
Proof.
  intros Henc Hj. induction steps as [|s steps IH] using rev_ind; intros Hf Hb.
  { cbn. rewrite Hj. split; [done|constructor]. }
  pose proof Hf as [Hf1 Hs]%Forall_app. apply Forall_inv in Hs.
  rewrite es_run_snoc in Hb |- *.
  pose proof (es_step_attempted self (es_run self j steps) s).
  destruct (IH Hf1 ltac:(lia)) as [Hseq Hres].
  apply es_step_sound; try done. apply es_inv_run; [done|done|lia].
Qed.

(** With such an encoder a command means its events. *)
Definition command_effect (self : A) (st : State) (cmd : Command) : State :=
  match command_to_events self st cmd with
  | inl _ => st
  | inr events => foldl apply_event st events
  end.

Lemma es_run_state self j cmds writer :
  (∀ e, ∃ b, encode_event e = inr b) →
  journal_view j (es_persistence_id self) = [] →
  (run_attempted (es_run self j (EsCommand writer <$> cmds)) < u64_modulus)%N →
  run_state (es_run self j (EsCommand writer <$> cmds)) =
    foldl (command_effect self) state_default cmds.
Proof.
  intros Henc Hj. induction cmds as [|cmd cmds IH] using rev_ind; [done|]. intros Hb.
  assert (Hf : ∀ l : list Command, Forall (foreign (es_persistence_id self)) (EsCommand writer <$> l))
    by (intros; apply Forall_fmap, Forall_true; done).
  pose proof (es_run_sound self j _ Henc Hj (Hf (cmds ++ [cmd])) Hb) as [_ Hres].
  rewrite fmap_app in Hb, Hres |- *. cbn [fmap list_fmap] in Hb, Hres |- *.
  rewrite es_run_snoc in Hb, Hres |- *. rewrite foldl_app. cbn [foldl].
  pose proof (es_step_attempted self (es_run self j (EsCommand writer <$> cmds))
                (EsCommand writer cmd)).
  rewrite <- IH by lia. clear IH Hb. set (r := es_run self j (EsCommand writer <$> cmds)) in *.
  cbn [es_step] in Hres |- *. unfold command_effect. revert Hres. unfold handle_command.
  destruct (command_to_events self (run_state r) cmd) as [err|[|e events]]; [done..|].
  destruct (build_reprs self writer (e :: events) (run_seq r)) as [n [c|reprs]];
    [|destruct (write_messages reprs (run_journal r)) as [j' [e'|]]]; cbn [run_state]; [| |done].
  all: cbn [run_results]; intros [_ Hlast]%Forall_app; apply Forall_inv in Hlast as [|[]]; done.
Qed.

(** C9: whatever commands an actor has handled, interleaved with any use of the journal by
    other actors, recovering from the journal into a fresh state succeeds and gives
    exactly the state the actor has, with the number of persisted events, although
    commands may have failed for domain, codec or ordering reasons.  If the encoder never
    fails, that number is the counter of the actor, so it can go on where it stopped, and
    commands fail only for domain reasons. *)
Theorem recovery_reproduces_state (self : A) (j : J) (steps : list (EsStep Command)) :
  journal_view j (es_persistence_id self) = [] →
  Forall (foreign (es_persistence_id self)) steps →
  (run_attempted (es_run self j steps) < u64_modulus)%N →
  let r := es_run self j steps in
  let h := N.of_nat (length (journal_view (run_journal r) (es_persistence_id self))) in
  recover true self (run_journal r) state_default =
    (recovery_completed self (run_state r) h, run_state r, inr h) ∧
  (h ≤ run_seq r)%N ∧
  ((∀ e, ∃ b, encode_event e = inr b) →
   run_seq r = h ∧
   Forall (λ res, res = inr tt ∨ ∃ d, res = inl (Domain d)) (run_results r)).
Proof.
  intros Hj Hf Hb r h. pose proof (es_inv_run self j steps Hj Hf Hb) as Hinv.
  split; [by apply recover_inv|split; [by apply Hinv|]].
  intros Henc. by apply es_run_sound.
Qed.
End recovery.

(** *** A concrete actor *)

(** A running total: commands and events are numbers, [0] is refused and an event above
    255 cannot be encoded. *)
#[local] Instance totals : Eventsourced unit N N N string := {
  es_persistence_id _ := "total";
  event_manifest _ := "evt";
  command_to_events _ _ n := if (n =? 0)%N then inl "zero" else inr [n];
  apply_event st n := (st + n)%N;
  encode_event n := match Byte.of_N n with Some b => inr [b] | None => inl "too large" end;
  decode_event b := match b with [x] => inr (Byte.to_N x) | _ => inl "length" end;
  recovery_completed u _ _ := u;
  state_default := 0%N;
}.

#[local] Instance totals_codec : CodecLaws unit N N N string.
Proof.
  constructor. intros e b Hb. cbn in Hb |- *. destruct (Byte.of_N e) as [x|] eqn:Hx; simplify_eq.
  f_equal. by apply Byte.to_of_N.
Qed.

Definition totals_steps : list (EsStep N) :=
  [EsCommand "w" 3%N; EsOtherWrite [mkPersistentRepr "other" 1 [] "evt" "v" false []];
   EsCommand "w" 0%N; EsCommand "w" 7%N; EsOtherDelete "other" 1; EsCommand "w" 300%N].

Lemma recovery_reproduces_state_witness :
  recover true tt (run_journal (es_run tt InMemoryJournal_new totals_steps)) 0%N
    = (tt, 10%N, inr 2%N).
Proof.
  refine (proj1 (recovery_reproduces_state tt InMemoryJournal_new totals_steps _ _ _));
    [reflexivity| |reflexivity].
  repeat constructor; cbn; discriminate.
Defined.

(** *** A failed encoding *)

Section stuck.
Context {A Command Event State Error : Type} `{E : Eventsourced A Command Event State Error}.
Context `{HC : !CodecLaws A Command Event State Error}.
Context {J : Type} `{HS : JournalSpec J}.

(** Once the counter is ahead of the journal no command persists an event again. *)
Lemma ahead_is_stuck self (r : EsRun State Error J) writer cmd e events :
  es_inv self r →
  (N.of_nat (length (journal_view (run_journal r) (es_persistence_id self))) < run_seq r)%N →
  command_to_events self (run_state r) cmd = inr (e :: events) →
  (run_seq r + N.of_nat (length (e :: events)) < u64_modulus)%N →
  ∃ j' n err,
    handle_command self (run_journal r) (run_state r) (run_seq r) writer cmd =
      (j', run_state r, n, inl err) ∧
    (run_seq r ≤ n)%N ∧
    journal_view j' (es_persistence_id self) =
      journal_view (run_journal r) (es_persistence_id self).
Proof.
  intros (Hnum & Hdel & Hrep & Hle & Hatt) Hahead Hc Hb. unfold handle_command. rewrite Hc.
  pose proof (build_reprs_counter self writer (e :: events) (run_seq r) Hb) as Hcnt.
  destruct (build_reprs self writer (e :: events) (run_seq r)) as [n [c|reprs]] eqn:Hbuild.
  { do 3 eexists. split; [done|]. split; [exact (proj1 Hcnt)|done]. }
  destruct (build_reprs_ok _ _ _ _ _ _ (run_state r) Hb Hbuild) as (-> & Hlen & Hrnum & _).
  destruct reprs as [|m reprs]; [done|]. destruct Hrnum as (Hpid & Hseq & _).
  cbn [length] in Hb. destruct (numbered_last _ _ Hnum ltac:(lia)) as [_ Hexp].
  destruct (journal_write_rejected (run_journal r) m reprs) as (j' & -> & Hview).
  { rewrite Hpid, Hexp, Hseq, !u64_add_small by lia. lia. }
  do 3 eexists. split; [done|]. split; [exact (proj1 Hcnt)|]. apply Hview.
Qed.
End stuck.

(** One event that cannot be encoded disables the actor: the counter stays ahead. *)
Lemma codec_error_sticks :
  let r := es_run tt InMemoryJournal_new
             [EsCommand "w" 3%N; EsCommand "w" 300%N; EsCommand "w" 4%N; EsCommand "w" 5%N] in
  run_results r =
    [inr tt; inl (EsCodec "too large"); inl (EsJournal (SequenceOutOfOrder 2 3));
     inl (EsJournal (SequenceOutOfOrder 2 4))].
Proof. vm_compute. reflexivity. Qed.
