(* ===== verification/EventDrivers.v ===== *)
(** * Other drivers of event-sourced actors ([crates/atomr-persistence/src/
      persistent_actor.rs], [receive_persistent.rs], [persistent_fsm.rs])

    The legacy trait [PersistentActor], the closure-based [ReceivePersistent] and the
    state machine [PersistentFSM] have drivers of their own.  Each is translated from its
    source and shown to do what the driver of [Eventsourced] does on the actor made of
    its handlers, which carries the recovery theorem over to them.  Handlers are pure
    functions of their arguments. *)

From stdpp Require Import gmap strings list.
From Stdlib Require Import NArith Lia.
From S2P Require Import Prelude Journal Eventsourced.

(** ** The legacy trait [PersistentActor] *)

Class PersistentActor (A Command Event State : Type) := {
  pa_persistence_id : A → string;
  pa_command_to_events : A → State → Command → list Event;
  pa_apply_event : State → Event → State;
  pa_encode_event : Event → Bytes;
  pa_decode_event : Bytes → Event;
  pa_state_default : State;
}.

Section persistent_actor.
Context {A Command Event State : Type} `{P : PersistentActor A Command Event State}.
Context {J : Type} `{HJ : Journal J}.

Definition PersistentActor_recover (self : A) (journal : J) (state : State)
    : State * (JournalError + N) :=
  match highest_sequence_nr (pa_persistence_id self) 0 journal with
  | inl e => (state, inl e)
  | inr highest =>
      match replay_messages (pa_persistence_id self) 1 highest u64_max journal with
      | inl e => (state, inl e)
      | inr events =>
          (foldl (λ st e, pa_apply_event st (pa_decode_event (payload e))) state events,
           inr highest)
      end
  end.

Fixpoint PersistentActor_reprs (self : A) (writer : string) (events : list Event)
    (next_seq : N) : N * list PersistentRepr :=
  match events with
  | [] => (next_seq, [])
  | e :: events' =>
      let nr := u64_add next_seq 1 in
      let '(n, reprs) := PersistentActor_reprs self writer events' nr in
      (n, mkPersistentRepr (pa_persistence_id self) nr (pa_encode_event e) "evt" writer
            false [] :: reprs)
  end.

Definition PersistentActor_handle_command (self : A) (journal : J) (state : State)
    (next_seq : N) (writer : string) (cmd : Command) : J * State * N * (JournalError + unit) :=
  let events := pa_command_to_events self state cmd in
  let '(n, reprs) := PersistentActor_reprs self writer events next_seq in
  match write_messages reprs journal with
  | (journal', inl e) => (journal', state, n, inl e)
  | (journal', inr _) => (journal', foldl pa_apply_event state events, n, inr tt)
  end.

(** The actor as an [Eventsourced] one whose codec and commands never fail. *)
Definition PersistentActor_Eventsourced : Eventsourced A Command Event State Empty_set := {|
  es_persistence_id := pa_persistence_id;
  event_manifest _ := "evt";
  command_to_events self st cmd := inr (pa_command_to_events self st cmd);
  apply_event := pa_apply_event;
  encode_event e := inr (pa_encode_event e);
  decode_event b := inr (pa_decode_event b);
  recovery_completed self _ _ := self;
  state_default := pa_state_default;
|}.
Existing Instance PersistentActor_Eventsourced.

Definition lift_journal_error {X} (res : JournalError + X) : EventsourcedError Empty_set + X :=
  match res with inl e => inl (EsJournal e) | inr x => inr x end.

Lemma PersistentActor_replay events st :
  replay_events events st =
    (foldl (λ st e, pa_apply_event st (pa_decode_event (payload e))) st events, None).
Proof. revert st; induction events; intros st; cbn; auto. Qed.

Lemma PersistentActor_build self writer events n :
  build_reprs self writer events n =
    ((PersistentActor_reprs self writer events n).1,
     inr (PersistentActor_reprs self writer events n).2).
Proof.
  revert n; induction events as [|e events IH]; intros n; cbn; [done|]. rewrite IH.
  by destruct (PersistentActor_reprs self writer events (u64_add n 1)).
Qed.

Lemma PersistentActor_recover_refines self j st :
  recover true self j st =
    (self, (PersistentActor_recover self j st).1,
     lift_journal_error (PersistentActor_recover self j st).2).
Proof.
  unfold recover, PersistentActor_recover. cbn.
  destruct (highest_sequence_nr _ _ _); [done|]. destruct (replay_messages _ _ _ _ _); [done|].
  by rewrite PersistentActor_replay.
Qed.

Lemma PersistentActor_handle_refines self j st n writer cmd :
  pa_command_to_events self st cmd ≠ [] →
  handle_command self j st n writer cmd =
    let '(j', st', n', res) := PersistentActor_handle_command self j st n writer cmd in
    (j', st', n', lift_journal_error res).
Proof.
  intros Hne. unfold handle_command, PersistentActor_handle_command. cbn.
  destruct (pa_command_to_events self st cmd) as [|e events]; [done|].
  rewrite PersistentActor_build.
  destruct (PersistentActor_reprs self writer (e :: events) n) as [n' reprs]. cbn [fst snd].
  by destruct (write_messages reprs j) as [j' [e'|[]]].
Qed.
End persistent_actor.

(** ** Closures: [ReceivePersistent] *)

Section receive_persistent.
Context {S E Err : Type} {J : Type} `{HJ : Journal J}.

Record ReceivePersistent := mkReceivePersistent {
  rp_persistence_id : string;
  rp_state : S;
  rp_next_seq : N;
  rp_writer_uuid : string;
  rp_on_command : option (S → E → Err + list E);
  rp_on_event : option (S → E → S);
  rp_encode : option (E → string + Bytes);
  rp_decode : option (Bytes → string + E);
}.

(** [uuid] is the writer id generated at construction, [s0] the default state. *)
Definition ReceivePersistent_new (s0 : S) (uuid pid : string) : ReceivePersistent :=
  mkReceivePersistent pid s0 0 uuid None None None None.

Definition rp_with_on_command (f : S → E → Err + list E) (rp : ReceivePersistent)
    : ReceivePersistent :=
  mkReceivePersistent (rp_persistence_id rp) (rp_state rp) (rp_next_seq rp) (rp_writer_uuid rp)
    (Some f) (rp_on_event rp) (rp_encode rp) (rp_decode rp).

Definition rp_with_on_event (f : S → E → S) (rp : ReceivePersistent) : ReceivePersistent :=
  mkReceivePersistent (rp_persistence_id rp) (rp_state rp) (rp_next_seq rp) (rp_writer_uuid rp)
    (rp_on_command rp) (Some f) (rp_encode rp) (rp_decode rp).

Definition rp_with_codec (enc : E → string + Bytes) (dec : Bytes → string + E)
    (rp : ReceivePersistent) : ReceivePersistent :=
  mkReceivePersistent (rp_persistence_id rp) (rp_state rp) (rp_next_seq rp) (rp_writer_uuid rp)
    (rp_on_command rp) (rp_on_event rp) (Some enc) (Some dec).

Definition rp_set (st : S) (n : N) (rp : ReceivePersistent) : ReceivePersistent :=
  mkReceivePersistent (rp_persistence_id rp) st n (rp_writer_uuid rp) (rp_on_command rp)
    (rp_on_event rp) (rp_encode rp) (rp_decode rp).

Fixpoint rp_replay (on_event : S → E → S) (decode : Bytes → string + E)
    (events : list PersistentRepr) (st : S) : S * option string :=
  match events with
  | [] => (st, None)
  | e :: events' =>
      match decode (payload e) with
      | inl c => (st, Some c)
      | inr evt => rp_replay on_event decode events' (on_event st evt)
      end
  end.

Definition ReceivePersistent_recover (permit : bool) (journal : J) (rp : ReceivePersistent)
    : ReceivePersistent * (EventsourcedError Err + N) :=
  if permit then
    match rp_on_event rp with
    | None => (rp, inl (EsCodec "on_event handler not registered"))
    | Some on_event =>
        match rp_decode rp with
        | None => (rp, inl (EsCodec "decoder not registered"))
        | Some decode =>
            match highest_sequence_nr (rp_persistence_id rp) 0 journal with
            | inl e => (rp, inl (EsJournal e))
            | inr highest =>
                match replay_messages (rp_persistence_id rp) 1 highest u64_max journal with
                | inl e => (rp, inl (EsJournal e))
                | inr events =>
                    match rp_replay on_event decode events (rp_state rp) with
                    | (st, Some c) => (rp_set st (rp_next_seq rp) rp, inl (EsCodec c))
                    | (st, None) => (rp_set st highest rp, inr highest)
                    end
                end
            end
        end
    end
  else (rp, inl PermitDenied).

Fixpoint rp_reprs (pid writer mani : string) (encode : E → string + Bytes) (events : list E)
    (next_seq : N) : N * (string + list PersistentRepr) :=
  match events with
  | [] => (next_seq, inr [])
  | e :: events' =>
      let nr := u64_add next_seq 1 in
      match encode e with
      | inl c => (nr, inl c)
      | inr data =>
          match rp_reprs pid writer mani encode events' nr with
          | (n, inl c) => (n, inl c)
          | (n, inr reprs) =>
              (n, inr (mkPersistentRepr pid nr data mani writer false [] :: reprs))
          end
      end
  end.

Definition ReceivePersistent_handle (journal : J) (cmd : E) (rp : ReceivePersistent)
    : J * ReceivePersistent * (EventsourcedError Err + unit) :=
  match rp_on_command rp with
  | None => (journal, rp, inl (EsCodec "on_command handler not registered"))
  | Some on_cmd =>
      match on_cmd (rp_state rp) cmd with
      | inl err => (journal, rp, inl (Domain err))
      | inr [] => (journal, rp, inr tt)
      | inr events =>
          match rp_on_event rp with
          | None => (journal, rp, inl (EsCodec "on_event handler not registered"))
          | Some on_event =>
              match rp_encode rp with
              | None => (journal, rp, inl (EsCodec "encoder not registered"))
              | Some encode =>
                  match rp_reprs (rp_persistence_id rp) (rp_writer_uuid rp) "evt" encode events
                          (rp_next_seq rp) with
                  | (n, inl c) => (journal, rp_set (rp_state rp) n rp, inl (EsCodec c))
                  | (n, inr reprs) =>
                      match write_messages reprs journal with
                      | (journal', inl e) =>
                          (journal', rp_set (rp_state rp) n rp, inl (EsJournal e))
                      | (journal', inr _) =>
                          (journal', rp_set (foldl on_event (rp_state rp) events) n rp, inr tt)
                      end
                  end
              end
          end
      end
  end.
End receive_persistent.
Arguments ReceivePersistent : clear implicits.

(** The closures of a helper as an [Eventsourced] actor. *)
Definition closures {C E S Err : Type} (pid mani : string) (on_command : S → C → Err + list E)
    (on_event : S → E → S) (encode : E → string + Bytes) (decode : Bytes → string + E)
    (s0 : S) : Eventsourced unit C E S Err := {|
  es_persistence_id _ := pid;
  event_manifest _ := mani;
  command_to_events _ := on_command;
  apply_event := on_event;
  encode_event := encode;
  decode_event := decode;
  recovery_completed u _ _ := u;
  state_default := s0;
|}.

Section receive_persistent_refines.
Context {S E Err : Type} {J : Type} `{HJ : Journal J}.
Context (on_command : S → E → Err + list E) (on_event : S → E → S)
        (encode : E → string + Bytes) (decode : Bytes → string + E).

Definition rp_registered (rp : ReceivePersistent S E Err) : Prop :=
  rp_on_command rp = Some on_command ∧ rp_on_event rp = Some on_event ∧
  rp_encode rp = Some encode ∧ rp_decode rp = Some decode.

Definition rp_es (rp : ReceivePersistent S E Err) : Eventsourced unit E E S Err :=
  closures (rp_persistence_id rp) "evt" on_command on_event encode decode (rp_state rp).

Lemma rp_replay_refines rp events st :
  rp_replay on_event decode events st = replay_events (E := rp_es rp) events st.
Proof. revert st; induction events; intros st; cbn; [done|]. by case_match. Qed.

Lemma rp_reprs_refines rp events n :
  rp_reprs (rp_persistence_id rp) (rp_writer_uuid rp) "evt" encode events n =
    build_reprs (E := rp_es rp) tt (rp_writer_uuid rp) events n.
Proof.
  revert n; induction events as [|e events IH]; intros n; cbn; [done|].
  by destruct (encode e); [|rewrite IH].
Qed.

Lemma rp_set_id (rp : ReceivePersistent S E Err) : rp_set (rp_state rp) (rp_next_seq rp) rp = rp.
Proof. by destruct rp. Qed.

Lemma rp_recover_refines (j : J) permit rp :
  rp_registered rp →
  ReceivePersistent_recover permit j rp =
    match recover (E := rp_es rp) permit tt j (rp_state rp) with
    | (_, st, inl e) => (rp_set st (rp_next_seq rp) rp, inl e)
    | (_, st, inr h) => (rp_set st h rp, inr h)
    end.
Proof.
  intros (_ & Hev & _ & Hdec). unfold ReceivePersistent_recover, recover.
  destruct permit; [|by rewrite rp_set_id]. rewrite Hev, Hdec. cbn [es_persistence_id rp_es closures].
  destruct (highest_sequence_nr _ _ _); [by rewrite rp_set_id|].
  destruct (replay_messages _ _ _ _ _); [by rewrite rp_set_id|].
  rewrite (rp_replay_refines rp). by destruct (replay_events _ _) as [st [c|]].
Qed.

Lemma rp_handle_refines (j : J) cmd rp :
  rp_registered rp →
  ReceivePersistent_handle j cmd rp =
    let '(j', st, n, res) :=
      handle_command (E := rp_es rp) tt j (rp_state rp) (rp_next_seq rp) (rp_writer_uuid rp) cmd in
    (j', rp_set st n rp, res).
Proof.
  intros (Hcmd & Hev & Henc & _). unfold ReceivePersistent_handle, handle_command.
  rewrite Hcmd. cbn [command_to_events rp_es closures].
  destruct (on_command (rp_state rp) cmd) as [err|[|e events]]; [by rewrite rp_set_id..|].
  rewrite Hev, Henc, rp_reprs_refines. cbn [apply_event rp_es closures].
  destruct (build_reprs _ _ _ _) as [n [c|reprs]]; [done|].
  by destruct (write_messages reprs j) as [j' [e'|[]]].
Qed.
End receive_persistent_refines.

(** ** Event-sourced state machines: [PersistentFSM] *)

Section persistent_fsm.
Context {S D C E Err : Type} `{!EqDecision S} {J : Type} `{HJ : Journal J}.

Record PersistentFSM := mkPersistentFSM {
  pf_persistence_id : string;
  pf_state : option S;
  pf_data : option D;
  pf_next_seq : N;
  pf_on_command : option (S → D → C → Err + list E);
  pf_on_event : option (S → D → E → S * D);
  pf_encode : option (E → string + Bytes);
  pf_decode : option (Bytes → string + E);
  pf_transitions : list (S * S);
}.

Definition PersistentFSM_new (pid : string) : PersistentFSM :=
  mkPersistentFSM pid None None 0 None None None None [].

Definition pf_with_initial (s : S) (d : D) (f : PersistentFSM) : PersistentFSM :=
  mkPersistentFSM (pf_persistence_id f) (Some s) (Some d) (pf_next_seq f) (pf_on_command f)
    (pf_on_event f) (pf_encode f) (pf_decode f) (pf_transitions f).

Definition pf_with_on_command (h : S → D → C → Err + list E) (f : PersistentFSM)
    : PersistentFSM :=
  mkPersistentFSM (pf_persistence_id f) (pf_state f) (pf_data f) (pf_next_seq f) (Some h)
    (pf_on_event f) (pf_encode f) (pf_decode f) (pf_transitions f).

Definition pf_with_on_event (h : S → D → E → S * D) (f : PersistentFSM) : PersistentFSM :=
  mkPersistentFSM (pf_persistence_id f) (pf_state f) (pf_data f) (pf_next_seq f)
    (pf_on_command f) (Some h) (pf_encode f) (pf_decode f) (pf_transitions f).

Definition pf_with_codec (enc : E → string + Bytes) (dec : Bytes → string + E)
    (f : PersistentFSM) : PersistentFSM :=
  mkPersistentFSM (pf_persistence_id f) (pf_state f) (pf_data f) (pf_next_seq f)
    (pf_on_command f) (pf_on_event f) (Some enc) (Some dec) (pf_transitions f).

Definition pf_set (so : option S) (d : option D) (n : N) (tr : list (S * S)) (f : PersistentFSM)
    : PersistentFSM :=
  mkPersistentFSM (pf_persistence_id f) so d n (pf_on_command f) (pf_on_event f)
    (pf_encode f) (pf_decode f) tr.

(** One event on the machine: run the handler and log a change of state. [None] is the
    panic of [expect] on a machine without an initial state. *)
Definition pf_apply (on_event : S → D → E → S * D) (evt : E)
    (m : option S * option D * list (S * S)) : option (option S * option D * list (S * S)) :=
  match m with
  | (Some s, Some d, tr) =>
      let '(s', d') := on_event s d evt in
      Some (Some s', Some d', if decide (s = s') then tr else tr ++ [(s, s')])
  | _ => None
  end.

Fixpoint pf_replay (on_event : S → D → E → S * D) (decode : Bytes → string + E)
    (events : list PersistentRepr) (m : option S * option D * list (S * S))
    : option (option S * option D * list (S * S) * option string) :=
  match events with
  | [] => Some (m, None)
  | e :: events' =>
      match decode (payload e) with
      | inl c => Some (m, Some c)
      | inr evt =>
          match pf_apply on_event evt m with
          | None => None
          | Some m' => pf_replay on_event decode events' m'
          end
      end
  end.

Definition PersistentFSM_recover (permit : bool) (journal : J) (f : PersistentFSM)
    : option (PersistentFSM * (EventsourcedError Err + N)) :=
  if permit then
    match pf_on_event f with
    | None => Some (f, inl (EsCodec "on_event not registered"))
    | Some on_event =>
        match pf_decode f with
        | None => Some (f, inl (EsCodec "decoder not registered"))
        | Some decode =>
            match highest_sequence_nr (pf_persistence_id f) 0 journal with
            | inl e => Some (f, inl (EsJournal e))
            | inr highest =>
                match replay_messages (pf_persistence_id f) 1 highest u64_max journal with
                | inl e => Some (f, inl (EsJournal e))
                | inr events =>
                    match pf_replay on_event decode events
                            (pf_state f, pf_data f, pf_transitions f) with
                    | None => None
                    | Some (s, d, tr, Some c) =>
                        Some (pf_set s d (pf_next_seq f) tr f, inl (EsCodec c))
                    | Some (s, d, tr, None) => Some (pf_set s d highest tr f, inr highest)
                    end
                end
            end
        end
    end
  else Some (f, inl PermitDenied).

Fixpoint pf_apply_all (on_event : S → D → E → S * D) (events : list E)
    (m : option S * option D * list (S * S)) : option (option S * option D * list (S * S)) :=
  match events with
  | [] => Some m
  | e :: events' => m' ← pf_apply on_event e m; pf_apply_all on_event events' m'
  end.

Definition PersistentFSM_handle (journal : J) (cmd : C) (f : PersistentFSM)
    : option (J * PersistentFSM * (EventsourcedError Err + unit)) :=
  let fail msg := Some (journal, f, inl (EsCodec msg)) in
  match pf_on_command f, pf_on_event f, pf_encode f, pf_state f, pf_data f with
  | None, _, _, _, _ => fail "on_command not registered"
  | _, None, _, _, _ => fail "on_event not registered"
  | _, _, None, _, _ => fail "encoder not registered"
  | _, _, _, None, _ => fail "initial state not set"
  | _, _, _, _, None => fail "initial data not set"
  | Some on_cmd, Some on_event, Some encode, Some s, Some d =>
      match on_cmd s d cmd with
      | inl err => Some (journal, f, inl (Domain err))
      | inr [] => Some (journal, f, inr tt)
      | inr events =>
          match rp_reprs (pf_persistence_id f) "fsm" "fsm" encode events (pf_next_seq f) with
          | (n, inl c) =>
              Some (journal, pf_set (Some s) (Some d) n (pf_transitions f) f, inl (EsCodec c))
          | (n, inr reprs) =>
              match write_messages reprs journal with
              | (journal', inl e) =>
                  Some (journal', pf_set (Some s) (Some d) n (pf_transitions f) f,
                        inl (EsJournal e))
              | (journal', inr _) =>
                  '(so, d', tr) ← pf_apply_all on_event events (Some s, Some d, pf_transitions f);
                  Some (journal', pf_set so d' n tr f, inr tt)
              end
          end
      end
  end.

(** Commands one after another. *)
Fixpoint pf_run (journal : J) (cmds : list C) (f : PersistentFSM) : option (J * PersistentFSM) :=
  match cmds with
  | [] => Some (journal, f)
  | cmd :: cmds' =>
      '(journal', f', _) ← PersistentFSM_handle journal cmd f; pf_run journal' cmds' f'
  end.
End persistent_fsm.
Arguments PersistentFSM : clear implicits.

Section persistent_fsm_refines.
Context {S D C E Err : Type} `{!EqDecision S} {J : Type} `{HS : JournalSpec J}.
Context (on_command : S → D → C → Err + list E) (on_event : S → D → E → S * D)
        (encode : E → string + Bytes) (decode : Bytes → string + E).
Context (Hcodec : ∀ e b, encode e = inr b → decode b = inr e).
Context (pid : string) (s0 : S) (d0 : D).

(** The machine with its log as the state of an [Eventsourced] actor. *)
Definition fsm_apply (m : S * D * list (S * S)) (evt : E) : S * D * list (S * S) :=
  let '(s, d, tr) := m in
  let '(s', d') := on_event s d evt in
  (s', d', if decide (s = s') then tr else tr ++ [(s, s')]).

#[local] Instance fsm_es : Eventsourced unit C E (S * D * list (S * S)) Err :=
  closures pid "fsm" (λ m cmd, on_command m.1.1 m.1.2 cmd) fsm_apply encode decode
    (s0, d0, []).

#[local] Instance fsm_codec : CodecLaws unit C E (S * D * list (S * S)) Err.
Proof. constructor. exact Hcodec. Qed.

(** The machine after the builder calls, in state [m] with counter [n]. *)
Definition fsm_at (m : S * D * list (S * S)) (n : N) : PersistentFSM S D C E Err :=
  mkPersistentFSM pid (Some m.1.1) (Some m.1.2) n (Some on_command) (Some on_event)
    (Some encode) (Some decode) m.2.

Definition fsm_opt (m : S * D * list (S * S)) : option S * option D * list (S * S) :=
  (Some m.1.1, Some m.1.2, m.2).

Lemma pf_apply_fsm evt m : pf_apply on_event evt (fsm_opt m) = Some (fsm_opt (fsm_apply m evt)).
Proof. destruct m as [[s d] tr]. cbn. by destruct (on_event s d evt). Qed.

Lemma pf_apply_all_fsm events m :
  pf_apply_all on_event events (fsm_opt m) = Some (fsm_opt (foldl fsm_apply m events)).
Proof.
  revert m; induction events as [|e events IH]; intros m; [done|].
  cbn [pf_apply_all foldl]. rewrite pf_apply_fsm. cbn. apply IH.
Qed.

Lemma pf_replay_fsm events m :
  pf_replay on_event decode events (fsm_opt m) =
    Some (fsm_opt (replay_events events m).1, (replay_events events m).2).
Proof.
  revert m; induction events as [|e events IH]; intros m; [done|].
  cbn [pf_replay replay_events decode_event fsm_es closures].
  destruct (decode (payload e)) as [c|evt]; [done|]. by rewrite pf_apply_fsm, IH.
Qed.

Lemma fsm_reprs events n :
  rp_reprs pid "fsm" "fsm" encode events n = build_reprs tt "fsm" events n.
Proof.
  revert n; induction events as [|e events IH]; intros n; cbn; [done|].
  by destruct (encode e); [|rewrite IH].
Qed.

Lemma fsm_handle_refines (j : J) cmd m n :
  PersistentFSM_handle j cmd (fsm_at m n) =
    let '(j', m', n', res) := handle_command tt j m n "fsm" cmd in
    Some (j', fsm_at m' n', res).
Proof.
  unfold PersistentFSM_handle, handle_command.
  cbn [fsm_at pf_on_command pf_on_event pf_encode pf_state pf_data pf_persistence_id
       pf_next_seq pf_transitions command_to_events fsm_es closures].
  destruct (on_command m.1.1 m.1.2 cmd) as [err|[|e events]]; [done..|].
  rewrite fsm_reprs. destruct (build_reprs tt "fsm" (e :: events) n) as [n' [c|reprs]]; [done|].
  destruct (write_messages reprs j) as [j' [e'|[]]]; [done|].
  change (Some m.1.1, Some m.1.2, m.2) with (fsm_opt m). by rewrite pf_apply_all_fsm.
Qed.

Lemma fsm_recover_refines (j : J) permit m n :
  PersistentFSM_recover permit j (fsm_at m n) =
    match recover permit tt j m with
    | (_, m', inl e) => Some (fsm_at m' n, inl e)
    | (_, m', inr h) => Some (fsm_at m' h, inr h)
    end.
Proof.
  unfold PersistentFSM_recover, recover. destruct permit; [|done].
  cbn [fsm_at pf_on_event pf_decode pf_state pf_data pf_persistence_id pf_next_seq
       pf_transitions es_persistence_id fsm_es closures].
  destruct (highest_sequence_nr pid 0 j); [done|].
  destruct (replay_messages pid 1 _ u64_max j) as [|events]; [done|].
  change (Some m.1.1, Some m.1.2, m.2) with (fsm_opt m). rewrite pf_replay_fsm.
  by destruct (replay_events events m) as [m' [c|]].
Qed.

Lemma pf_run_refines cmds (r : EsRun (S * D * list (S * S)) Err J) :
  let r' := foldl (es_step tt) r (EsCommand "fsm" <$> cmds) in
  pf_run (run_journal r) cmds (fsm_at (run_state r) (run_seq r)) =
    Some (run_journal r', fsm_at (run_state r') (run_seq r')).
Proof.
  revert r; induction cmds as [|cmd cmds IH]; intros r; [done|].
  cbn [pf_run fmap list_fmap foldl es_step]. rewrite fsm_handle_refines.
  destruct (handle_command tt (run_journal r) (run_state r) (run_seq r) "fsm" cmd)
    as [[[j' m'] n'] res]. exact (IH (mkEsRun j' m' n' _ _)).
Qed.

(** The machine as the builder leaves it. *)
Definition fsm_built : PersistentFSM S D C E Err :=
  pf_with_codec encode decode (pf_with_on_event on_event (pf_with_on_command on_command
    (pf_with_initial s0 d0 (PersistentFSM_new pid)))).

(** A persistent state machine that has handled any sequence of commands and a new one
    that recovers from its journal have the same state, the same data and the same log of
    transitions; neither panics.  With an encoder that never fails they also have the
    same sequence counter, so the two are equal. *)
Theorem fsm_recovery_reproduces (j : J) (cmds : list C) :
  journal_view j pid = [] →
  (run_attempted (es_run tt j (EsCommand "fsm" <$> cmds)) < u64_modulus)%N →
  ∃ j' f h rec,
    pf_run j cmds fsm_built = Some (j', f) ∧
    PersistentFSM_recover true j' fsm_built = Some (rec, inr h) ∧
    pf_state rec = pf_state f ∧ pf_data rec = pf_data f ∧
    pf_transitions rec = pf_transitions f ∧ pf_next_seq rec = h ∧
    ((∀ e, ∃ b, encode e = inr b) → rec = f).
Proof.
  intros Hj Hb. set (steps := EsCommand "fsm" <$> cmds).
  assert (Hf : Forall (foreign pid) steps)
    by (apply Forall_fmap, Forall_true; done).
  change fsm_built with (fsm_at (s0, d0, []) 0).
  pose proof (pf_run_refines cmds (es_start j)) as Hrun. cbn zeta in Hrun.
  change (foldl (es_step tt) (es_start j) (EsCommand "fsm" <$> cmds)) with (es_run tt j steps)
    in Hrun. cbn [es_start run_journal run_state run_seq] in Hrun.
  pose proof (recover_inv tt (es_run tt j steps) (es_inv_run tt j steps Hj Hf Hb) Hb) as Hrec.
  cbn zeta in Hrec.
  do 4 eexists. split; [exact Hrun|]. rewrite fsm_recover_refines.
  change (s0, d0, []) with (state_default (Eventsourced := fsm_es)) in Hrec |- *. rewrite Hrec.
  split_and!; try reflexivity. intros Henc.
  by destruct (es_run_sound (E := fsm_es) tt j steps Henc Hj Hf Hb) as [-> _].
Qed.
End persistent_fsm_refines.

(** *** A door that counts how often it was opened *)

Definition door_command (isopen : bool) (n : N) (open_it : bool) : string + list bool :=
  if Bool.eqb isopen open_it then inl "no change" else inr [open_it].
Definition door_event (isopen : bool) (n : N) (evt : bool) : bool * N :=
  (evt, if evt then (n + 1)%N else n).
Definition door_encode (evt : bool) : string + Bytes := inr [if evt then Byte.x01 else Byte.x00].
Definition door_decode (b : Bytes) : string + bool :=
  match b with
  | [Byte.x00] => inr false
  | [Byte.x01] => inr true
  | _ => inl "bad byte"
  end.

Lemma fsm_recovery_reproduces_witness :
  ∃ (j' : InMemoryJournal) (f : PersistentFSM bool N bool bool string) h rec,
    pf_run InMemoryJournal_new [true; true; false; true]
      (fsm_built door_command door_event door_encode door_decode "door" false 0%N) =
      Some (j', f) ∧
    PersistentFSM_recover true j'
      (fsm_built door_command door_event door_encode door_decode "door" false 0%N) =
      Some (rec, inr h) ∧
    pf_transitions rec = pf_transitions f ∧ pf_state rec = Some true ∧ pf_data rec = Some 2%N.
Proof.
  destruct (fsm_recovery_reproduces door_command door_event door_encode door_decode
              ltac:(intros [] b [= <-]; reflexivity) "door" false 0%N InMemoryJournal_new
              [true; true; false; true] eq_refl ltac:(vm_compute; reflexivity))
    as (j' & f & h & rec & Hrun & Hrec & Hs & Hd & Ht & _).
  exists j', f, h, rec. split; [exact Hrun|]. split; [exact Hrec|]. split; [exact Ht|].
  rewrite Hs, Hd. vm_compute in Hrun. injection Hrun as _ <-. split; reflexivity.
Defined.
