(* ===== verification/Endpoint.v ===== *)
(** * Acknowledged delivery between two endpoints
    ([crates/atomr-remote/src/acked_delivery.rs], [endpoint/mod.rs], [envelope.rs],
    [pdu.rs])

    The send and receive buffers, and the writer and reader halves of an endpoint as
    handlers of their [select!] branches.  A link is the writer of one node and the
    reader of its peer over a network that may lose, repeat and reorder: every frame ever
    sent may arrive at any time, any number of times, or never.  Heartbeats and the
    shutdown branches carry no payload and are not part of a link. *)

From stdpp Require Import gmap strings list sorting.
From Stdlib Require Import NArith Lia.
From S2P Require Import Prelude.

(** ** Frames *)

Record RemoteEnvelope := mkRemoteEnvelope {
  recipient_path : string;
  sender_path : option string;
  sender_uid : N;
  recipient_uid : N;
  seq_no : N;
  serializer_id : N;
  env_manifest : string;
  env_system : bool;
  env_payload : Bytes;
}.

Definition set_seq_no (n : N) (e : RemoteEnvelope) : RemoteEnvelope :=
  mkRemoteEnvelope (recipient_path e) (sender_path e) (sender_uid e) (recipient_uid e) n
    (serializer_id e) (env_manifest e) (env_system e) (env_payload e).

Record AckInfo := mkAckInfo {
  cumulative_ack : N;
  ack_nacks : list N;
}.

(** ** The send buffer *)

(** [SeqNo::advance]: the new value of the counter, which is also returned. *)
Definition SeqNo_advance (n : N) : N := u64_add n 1.

Record AckedSendBuffer := mkAckedSendBuffer {
  sb_capacity : N;
  sb_pending : gmap N RemoteEnvelope;
  sb_nacks : gset N;
}.

Definition AckedSendBuffer_new (cap : N) : AckedSendBuffer := mkAckedSendBuffer cap ∅ ∅.

Definition AckedSendBuffer_is_full (b : AckedSendBuffer) : bool :=
  (sb_capacity b <=? N.of_nat (size (sb_pending b)))%N.

(** The flag says whether the envelope was taken. *)
Definition AckedSendBuffer_push (env : RemoteEnvelope) (b : AckedSendBuffer)
    : AckedSendBuffer * bool :=
  if AckedSendBuffer_is_full b then (b, false)
  else (mkAckedSendBuffer (sb_capacity b) (<[seq_no env := env]> (sb_pending b)) (sb_nacks b),
        true).

Definition AckedSendBuffer_apply_ack (ack : AckInfo) (b : AckedSendBuffer) : AckedSendBuffer :=
  mkAckedSendBuffer (sb_capacity b)
    (filter (λ p, (cumulative_ack ack < p.1)%N) (sb_pending b))
    (sb_nacks b ∪ list_to_set (ack_nacks ack)).

(** The nacked sequence numbers in ascending order, as [BTreeSet] iterates. *)
Definition AckedSendBuffer_drain_resend (b : AckedSendBuffer)
    : AckedSendBuffer * list RemoteEnvelope :=
  (mkAckedSendBuffer (sb_capacity b) (sb_pending b) ∅,
   omap (λ n, sb_pending b !! n) (merge_sort N.le (elements (sb_nacks b)))).

(** ** The receive buffer *)

Record AckedReceiveBuffer := mkAckedReceiveBuffer {
  rb_cumulative : N;
  rb_delivered : gset N;
}.

Definition AckedReceiveBuffer_new : AckedReceiveBuffer := mkAckedReceiveBuffer 0 ∅.

(** The loop over the contiguous run above the watermark; each round removes an element
    of [delivered], so [size delivered + 1] rounds are enough. *)
Fixpoint advance_watermark (fuel : nat) (c : N) (d : gset N) : AckedReceiveBuffer :=
  match fuel with
  | O => mkAckedReceiveBuffer c d
  | S fuel' =>
      let next := u64_add c 1 in
      if decide (next ∈ d) then advance_watermark fuel' next (d ∖ {[next]})
      else mkAckedReceiveBuffer c d
  end.

Definition AckedReceiveBuffer_observe (n : N) (b : AckedReceiveBuffer)
    : AckedReceiveBuffer * bool :=
  if (n <=? rb_cumulative b)%N then (b, false)
  else if decide (n ∈ rb_delivered b) then (b, false)
  else
    let d := {[n]} ∪ rb_delivered b in
    (advance_watermark (S (size d)) (rb_cumulative b) d, true).

Definition missing_below (_cumulative : N) (_delivered_above : list N) : list N := [].

Definition AckedReceiveBuffer_ack (b : AckedReceiveBuffer) : AckInfo :=
  let nacks := merge_sort N.le (elements (rb_delivered b)) in
  mkAckInfo (rb_cumulative b) (missing_below (rb_cumulative b) nacks).

(** ** The halves of an endpoint *)

Record EndpointWriter := mkEndpointWriter {
  ew_seq : N;
  ew_send_buf : AckedSendBuffer;
}.

Definition EndpointWriter_new (ack_window : N) : EndpointWriter :=
  mkEndpointWriter 0 (AckedSendBuffer_new ack_window).

(** [EndpointCmd::Send] and [SendSystem]: the envelope is sent whether or not the buffer
    took it. *)
Definition EndpointWriter_send (env : RemoteEnvelope) (w : EndpointWriter)
    : EndpointWriter * RemoteEnvelope :=
  let n := SeqNo_advance (ew_seq w) in
  let env' := set_seq_no n env in
  (mkEndpointWriter n (AckedSendBuffer_push env' (ew_send_buf w)).1, env').

Definition EndpointWriter_apply_ack (ack : AckInfo) (w : EndpointWriter) : EndpointWriter :=
  mkEndpointWriter (ew_seq w) (AckedSendBuffer_apply_ack ack (ew_send_buf w)).

(** [EndpointCmd::ResendBuffer], with the frames it sends. *)
Definition EndpointWriter_resend (w : EndpointWriter)
    : EndpointWriter * list RemoteEnvelope :=
  let '(b, envs) := AckedSendBuffer_drain_resend (ew_send_buf w) in
  (mkEndpointWriter (ew_seq w) b, envs).

Record EndpointReader := mkEndpointReader {
  er_recv_buf : AckedReceiveBuffer;
  er_inbound : list RemoteEnvelope;
}.

Definition EndpointReader_new : EndpointReader := mkEndpointReader AckedReceiveBuffer_new [].

(** [InboundPdu::Payload]: new envelopes go to the inbound sink. *)
Definition EndpointReader_payload (env : RemoteEnvelope) (r : EndpointReader) : EndpointReader :=
  let '(b, isnew) := AckedReceiveBuffer_observe (seq_no env) (er_recv_buf r) in
  mkEndpointReader b (if isnew then er_inbound r ++ [env] else er_inbound r).

(** The acknowledgement tick, with the frame it sends. *)
Definition EndpointReader_ack_tick (r : EndpointReader) : option AckInfo :=
  let ack := AckedReceiveBuffer_ack (er_recv_buf r) in
  if (0 <? cumulative_ack ack)%N then Some ack else None.

(** ** A link *)

(** [l_payloads] and [l_acks] are the frames ever sent; [l_accepted] are the envelopes
    given to the writer, with their numbers, in order. *)
Record Link := mkLink {
  l_writer : EndpointWriter;
  l_reader : EndpointReader;
  l_payloads : list RemoteEnvelope;
  l_acks : list AckInfo;
  l_accepted : list RemoteEnvelope;
}.

Definition Link_new (ack_window : N) : Link :=
  mkLink (EndpointWriter_new ack_window) EndpointReader_new [] [] [].

Definition Link_send (env : RemoteEnvelope) (l : Link) : Link :=
  let '(w, e) := EndpointWriter_send env (l_writer l) in
  mkLink w (l_reader l) (l_payloads l ++ [e]) (l_acks l) (l_accepted l ++ [e]).

Definition Link_resend (l : Link) : Link :=
  let '(w, es) := EndpointWriter_resend (l_writer l) in
  mkLink w (l_reader l) (l_payloads l ++ es) (l_acks l) (l_accepted l).

Definition Link_payload (env : RemoteEnvelope) (l : Link) : Link :=
  mkLink (l_writer l) (EndpointReader_payload env (l_reader l)) (l_payloads l) (l_acks l)
    (l_accepted l).

Definition Link_ack_tick (l : Link) : Link :=
  mkLink (l_writer l) (l_reader l) (l_payloads l)
    (match EndpointReader_ack_tick (l_reader l) with
     | Some ack => l_acks l ++ [ack]
     | None => l_acks l
     end) (l_accepted l).

Definition Link_apply_ack (ack : AckInfo) (l : Link) : Link :=
  mkLink (EndpointWriter_apply_ack ack (l_writer l)) (l_reader l) (l_payloads l) (l_acks l)
    (l_accepted l).

Inductive link_step : Link → Link → Prop :=
  | link_send env l : link_step l (Link_send env l)
  | link_resend l : link_step l (Link_resend l)
  | link_payload env l : env ∈ l_payloads l → link_step l (Link_payload env l)
  | link_ack_tick l : link_step l (Link_ack_tick l)
  | link_apply_ack ack l : ack ∈ l_acks l → link_step l (Link_apply_ack ack l).

Definition link_reachable (ack_window : N) : Link → Prop := rtc link_step (Link_new ack_window).

(** ** The receive buffer represents the numbers seen *)

(** [seen n]: the number [n] has been observed. *)
Definition rb_inv (b : AckedReceiveBuffer) (seen : N → Prop) : Prop :=
  (∀ n, seen n ↔ (1 ≤ n ≤ rb_cumulative b)%N ∨ n ∈ rb_delivered b) ∧
  (∀ n, n ∈ rb_delivered b → (rb_cumulative b + 1 < n)%N).

Lemma advance_watermark_spec fuel c d :
  size d < fuel → (∀ n, n ∈ d → (c < n < u64_modulus)%N) →
  let b := advance_watermark fuel c d in
  (c ≤ rb_cumulative b)%N ∧
  (∀ n, (1 ≤ n ≤ rb_cumulative b)%N ∨ n ∈ rb_delivered b ↔ (1 ≤ n ≤ c)%N ∨ n ∈ d) ∧
  (∀ n, n ∈ rb_delivered b → (rb_cumulative b + 1 < n)%N).
Proof.
  revert c d; induction fuel as [|fuel IH]; intros c d Hf Hd; [lia|].
  cbn [advance_watermark]. destruct (decide (u64_add c 1 ∈ d)) as [Hin|Hout].
  - pose proof (Hd _ Hin) as Hb. unfold u64_add, wrap64 in Hb.
    assert (Hc : (c + 1 < u64_modulus)%N).
    { destruct (N.lt_ge_cases (c + 1) u64_modulus) as [|Hge]; [done|].
      pose proof (N.mod_lt (c + 1) u64_modulus ltac:(done)).
      assert (c + 1 = u64_modulus)%N as Heq by (unfold u64_modulus in *; lia).
      rewrite Heq, N.Div0.mod_same in Hb. lia. }
    rewrite u64_add_small in Hin |- * by done.
    assert (Hsz : size d = S (size (d ∖ {[(c + 1)%N]}))).
    { rewrite size_difference by set_solver. rewrite size_singleton.
      assert (size d ≠ 0) by (apply size_non_empty_iff; set_solver). lia. }
    destruct (IH (c + 1)%N (d ∖ {[(c + 1)%N]})) as (Hle & Hiff & Hgap); [lia| |].
    { intros n Hn. assert (n ∈ d ∧ n ≠ (c + 1)%N) as [Hnd Hne] by set_solver.
      pose proof (Hd n Hnd). lia. }
    split; [lia|]. split; [|done]. intros n. rewrite Hiff, elem_of_difference, elem_of_singleton.
    destruct (decide (n = c + 1)%N) as [->|Hne].
    + split; [by right|]. intros _. left. lia.
    + split; intros [Hn|Hn]; try tauto; [left|left]; lia.
  - cbn. split; [lia|]. split; [done|]. intros n Hn. pose proof (Hd n Hn) as Hb.
    assert (n ≠ c + 1)%N; [|lia]. intros ->. apply Hout. by rewrite u64_add_small by lia.
Qed.

Lemma observe_spec n b seen :
  rb_inv b seen → (n < u64_modulus)%N → (∀ k, seen k → (k < u64_modulus)%N) →
  let '(b', isnew) := AckedReceiveBuffer_observe n b in
  (isnew = true ↔ n ≠ 0%N ∧ ¬ seen n) ∧
  rb_inv b' (λ k, seen k ∨ (k = n ∧ n ≠ 0%N)) ∧
  (rb_cumulative b ≤ rb_cumulative b')%N.
Proof.
  intros [Hseen Hgap] Hn Hbound. unfold AckedReceiveBuffer_observe.
  destruct (N.leb_spec n (rb_cumulative b)) as [Hle|Hlt].
  { split; [|split; [split|lia]; [|done]].
    - split; [done|]. intros [Hz Hns]. destruct Hns. apply Hseen. left. lia.
    - intros k. rewrite Hseen. split; [|tauto]. intros [?|[-> ?]]; [done|]. left. lia. }
  destruct (decide (n ∈ rb_delivered b)) as [Hin|Hout].
  { split; [|split; [split|lia]; [|done]].
    - split; [done|]. intros [_ Hns]. destruct Hns. apply Hseen. by right.
    - intros k. rewrite Hseen. split; [|tauto]. intros [?|[-> ?]]; [done|]. by right. }
  destruct (advance_watermark_spec (S (size ({[n]} ∪ rb_delivered b))) (rb_cumulative b)
              ({[n]} ∪ rb_delivered b)) as (Hc & Hiff & Hgap'); [lia| |].
  { intros k [->%elem_of_singleton|Hk]%elem_of_union; [lia|].
    pose proof (Hgap k Hk). pose proof (Hbound k ltac:(apply Hseen; by right)). lia. }
  split; [|split; [split|]; [|done..]].
  - split; [|done]. intros _. split; [lia|]. rewrite Hseen. intros [?|?]; [lia|done].
  - intros k. rewrite Hiff, Hseen, elem_of_union, elem_of_singleton. split.
    + intros [[?|?]|[-> ?]]; auto.
    + intros [?|[->|?]]; [auto| |auto]. right. split; [done|lia].
Qed.

(** ** The invariant of a link *)

Definition inbound_seqs (l : Link) (n : N) : Prop :=
  ∃ e, e ∈ er_inbound (l_reader l) ∧ seq_no e = n.

Record link_inv (l : Link) : Prop := {
  li_seq : ew_seq (l_writer l) = N.of_nat (length (l_accepted l));
  li_numbered : ∀ i e, l_accepted l !! i = Some e → seq_no e = N.of_nat (S i);
  li_payloads : ∀ e, e ∈ l_payloads l → e ∈ l_accepted l;
  li_nacks : sb_nacks (ew_send_buf (l_writer l)) = ∅;
  li_acks : ∀ a, a ∈ l_acks l →
    ack_nacks a = [] ∧ (cumulative_ack a ≤ rb_cumulative (er_recv_buf (l_reader l)))%N;
  li_recv : rb_inv (er_recv_buf (l_reader l)) (inbound_seqs l);
  li_nodup : NoDup (seq_no <$> er_inbound (l_reader l));
  li_inbound : ∀ e, e ∈ er_inbound (l_reader l) → e ∈ l_accepted l;
  li_pending : ∀ n e, sb_pending (ew_send_buf (l_writer l)) !! n = Some e →
    e ∈ l_accepted l ∧ seq_no e = n;
}.

Lemma accepted_unique l e1 e2 :
  link_inv l → e1 ∈ l_accepted l → e2 ∈ l_accepted l → seq_no e1 = seq_no e2 → e1 = e2.
Proof.
  intros Hl [i1 H1]%list_elem_of_lookup [i2 H2]%list_elem_of_lookup Heq.
  rewrite (li_numbered _ Hl _ _ H1), (li_numbered _ Hl _ _ H2) in Heq.
  assert (i1 = i2) as -> by lia. congruence.
Qed.

Lemma accepted_seq_bound l e :
  link_inv l → e ∈ l_accepted l → (1 ≤ seq_no e ≤ N.of_nat (length (l_accepted l)))%N.
Proof.
  intros Hl [i Hi]%list_elem_of_lookup. rewrite (li_numbered _ Hl _ _ Hi).
  apply lookup_lt_Some in Hi. lia.
Qed.

(** What has a number up to the watermark has been handed to the inbound sink. *)
Lemma watermark_delivered l e :
  link_inv l → e ∈ l_accepted l →
  (seq_no e ≤ rb_cumulative (er_recv_buf (l_reader l)))%N → e ∈ er_inbound (l_reader l).
Proof.
  intros Hl He Hle. pose proof (accepted_seq_bound l e Hl He).
  destruct (li_recv _ Hl) as [Hseen _].
  destruct (proj2 (Hseen (seq_no e)) ltac:(left; lia)) as (e' & He' & Heq).
  by rewrite <- (accepted_unique l e' e Hl (li_inbound _ Hl _ He') He Heq).
Qed.

Lemma link_new_inv w : link_inv (Link_new w).
Proof.
  split; cbn; try done; try (intros ? Hx; by apply elem_of_nil in Hx); [|constructor].
  split; cbn; [|intros n Hn; set_solver].
  intros n. split; [intros (e & He & _); by apply elem_of_nil in He|].
  intros [?|?]; [lia|set_solver].
Qed.

Lemma link_send_inv env l :
  (N.of_nat (length (l_accepted l)) + 1 < u64_modulus)%N → link_inv l → link_inv (Link_send env l).
Proof.
  intros Hb Hl. destruct Hl. unfold Link_send, EndpointWriter_send, SeqNo_advance.
  rewrite li_seq0, u64_add_small by done.
  assert (Hpush : ∀ e b, sb_nacks (AckedSendBuffer_push e b).1 = sb_nacks b).
  { intros e b. unfold AckedSendBuffer_push. by destruct (AckedSendBuffer_is_full b). }
  split; cbn [l_writer l_reader l_payloads l_acks l_accepted ew_seq ew_send_buf]; try done.
  - rewrite length_app. cbn. lia.
  - intros i e Hi. apply lookup_app_Some in Hi as [Hi|[Hle Hi]]; [eauto|].
    apply list_lookup_singleton_Some in Hi as [Hz <-]. cbn. lia.
  - intros e [He|He]%elem_of_app; apply elem_of_app; auto.
  - by rewrite Hpush.
  - intros e He. apply elem_of_app. auto.
  - intros n e. unfold AckedSendBuffer_push.
    destruct (AckedSendBuffer_is_full _); cbn [fst sb_pending].
    + intros Hn. destruct (li_pending0 n e Hn). split; [apply elem_of_app; auto|done].
    + intros [[<- <-]|[Hne Hn]]%lookup_insert_Some.
      * split; [apply elem_of_app; right; apply list_elem_of_singleton; done|done].
      * destruct (li_pending0 n e Hn). split; [apply elem_of_app; auto|done].
Qed.

Lemma link_resend_silent l :
  link_inv l → (EndpointWriter_resend (l_writer l)).2 = [].
Proof.
  intros Hl. unfold EndpointWriter_resend. cbn. rewrite (li_nacks _ Hl), elements_empty. done.
Qed.

Lemma link_resend_inv l : link_inv l → link_inv (Link_resend l).
Proof.
  intros Hl. pose proof (link_resend_silent l Hl) as Hs. unfold Link_resend.
  destruct (EndpointWriter_resend (l_writer l)) as [w es] eqn:Hw. cbn in Hs. subst es.
  unfold EndpointWriter_resend in Hw. cbn in Hw. simplify_eq.
  destruct Hl. split; cbn; try done. intros e He. rewrite app_nil_r in He. auto.
Qed.

Lemma link_payload_inv env l :
  (N.of_nat (length (l_accepted l)) < u64_modulus)%N →
  env ∈ l_payloads l → link_inv l → link_inv (Link_payload env l).
Proof.
  intros Hb Henv Hl. pose proof (li_payloads _ Hl _ Henv) as Hacc.
  pose proof (accepted_seq_bound _ _ Hl Hacc) as Hseq.
  pose proof (observe_spec (seq_no env) (er_recv_buf (l_reader l)) (inbound_seqs l)
                (li_recv _ Hl) ltac:(lia)) as Hobs.
  unfold Link_payload, EndpointReader_payload.
  destruct (AckedReceiveBuffer_observe _ _) as [b isnew].
  destruct Hobs as (Hnew & Hinv & Hc).
  { intros k (e & He & <-). pose proof (accepted_seq_bound l e Hl (li_inbound _ Hl _ He)). lia. }
  destruct Hl. split; cbn [l_writer l_reader l_payloads l_acks l_accepted er_recv_buf er_inbound];
    try done.
  - intros a Ha. destruct (li_acks0 a Ha). split; [done|lia].
  - destruct Hinv as [Hseen Hgap]. split; [|done]. intros n. rewrite <- Hseen.
    unfold inbound_seqs. cbn. destruct isnew.
    + split.
      * intros (e & [He|He]%elem_of_app & <-); [left; eauto|].
        apply list_elem_of_singleton in He as ->. right. split; [done|lia].
      * intros [(e & He & <-)|[-> _]]; eexists; (split; [apply elem_of_app|done]);
          [by left|right; by apply list_elem_of_singleton].
    + split; [tauto|]. intros [?|[-> Hz]]; [done|].
      destruct (decide (seq_no env ∈ seq_no <$> er_inbound (l_reader l))) as [Hin|Hout].
      * apply list_elem_of_fmap in Hin as (e & He & Hin). eauto.
      * assert (false = true); [|done]. apply Hnew. split; [done|].
        intros (e & He & Hin). apply Hout, list_elem_of_fmap. eauto.
  - destruct isnew; [|done]. rewrite fmap_app. apply NoDup_app. split; [done|].
    split; [|apply NoDup_singleton]. intros n (e & -> & He)%list_elem_of_fmap Hn.
    apply list_elem_of_singleton in Hn. apply (proj1 Hnew); [done|]. exists e. done.
  - intros e He. destruct isnew; [|auto]. apply elem_of_app in He as [He|He]; [auto|].
    by apply list_elem_of_singleton in He as ->.
Qed.

Lemma link_ack_tick_inv l : link_inv l → link_inv (Link_ack_tick l).
Proof.
  intros Hl. destruct Hl. split; cbn; try done. intros a. unfold EndpointReader_ack_tick.
  destruct (0 <? _)%N; [|auto]. intros [Ha|Ha]%elem_of_app; [auto|].
  apply list_elem_of_singleton in Ha as ->. cbn. split; [done|lia].
Qed.

Lemma link_apply_ack_inv ack l : ack ∈ l_acks l → link_inv l → link_inv (Link_apply_ack ack l).
Proof.
  intros Ha Hl. destruct (li_acks _ Hl _ Ha) as [Hnone _]. destruct Hl.
  split; cbn; try done.
  - rewrite li_nacks0, Hnone. set_solver.
  - intros n e [Hn _]%map_lookup_filter_Some. auto.
Qed.

Lemma link_step_accepted l l' : link_step l l' → length (l_accepted l) ≤ length (l_accepted l').
Proof.
  destruct 1; unfold Link_send, Link_resend; cbn; try lia.
  rewrite length_app. lia.
Qed.

Lemma link_reachable_inv w l :
  link_reachable w l → (N.of_nat (length (l_accepted l)) < u64_modulus)%N → link_inv l.
Proof.
  revert l. refine (rtc_ind_r _ _ _ _); [intros _; apply link_new_inv|].
  intros l1 l2 Hr Hstep IH Hb. pose proof (link_step_accepted _ _ Hstep). specialize (IH ltac:(lia)).
  destruct Hstep as [env l|l|env l Henv|l|ack l Hack].
  - apply link_send_inv; [|done]. unfold Link_send in Hb. cbn in Hb.
    rewrite length_app in Hb. cbn in Hb. lia.
  - by apply link_resend_inv.
  - by apply link_payload_inv.
  - by apply link_ack_tick_inv.
  - by apply link_apply_ack_inv.
Qed.

(** ** The guarantees *)

Lemma reader_in_order es r :
  (∀ i e, es !! i = Some e →
     seq_no e = (rb_cumulative (er_recv_buf r) + N.of_nat (S i))%N) →
  (rb_cumulative (er_recv_buf r) + N.of_nat (length es) < u64_modulus)%N →
  rb_delivered (er_recv_buf r) = ∅ →
  let r' := foldl (λ r e, EndpointReader_payload e r) r es in
  er_inbound r' = er_inbound r ++ es ∧ rb_delivered (er_recv_buf r') = ∅ ∧
  rb_cumulative (er_recv_buf r') = (rb_cumulative (er_recv_buf r) + N.of_nat (length es))%N.
Proof.
  revert r; induction es as [|e es IH]; intros r Hnum Hb Hd; cbn [foldl length] in *.
  { rewrite app_nil_r. split_and!; [done|done|lia]. }
  set (c := rb_cumulative (er_recv_buf r)) in *.
  assert (He : seq_no e = (c + 1)%N) by (rewrite (Hnum 0 e eq_refl); lia).
  assert (Hobs : AckedReceiveBuffer_observe (seq_no e) (er_recv_buf r) =
                   (mkAckedReceiveBuffer (c + 1) ∅, true)).
  { unfold AckedReceiveBuffer_observe. fold c. rewrite He, Hd.
    destruct (N.leb_spec (c + 1) c); [lia|]. rewrite decide_False by set_solver.
    rewrite union_empty_r_L, size_singleton. cbn [advance_watermark].
    rewrite u64_add_small by lia. rewrite decide_True by set_solver.
    rewrite difference_diag_L, decide_False by set_solver. done. }
  assert (Hpay : EndpointReader_payload e r =
            mkEndpointReader (mkAckedReceiveBuffer (c + 1) ∅) (er_inbound r ++ [e]))
    by (unfold EndpointReader_payload; by rewrite Hobs).
  rewrite Hpay.
  destruct (IH (mkEndpointReader (mkAckedReceiveBuffer (c + 1) ∅) (er_inbound r ++ [e])))
    as (Hin & Hdel & Hcum); [|cbn; lia|done|].
  { intros i e' Hi. cbn. rewrite (Hnum (S i) e' Hi). lia. }
  cbn in Hin, Hdel, Hcum |- *. rewrite Hin, Hdel, Hcum, <- app_assoc. split_and!; [done|done|lia].
Qed.

(** C14: on a network that loses, repeats and reorders frames, at most once and nothing
    invented: every envelope is handed over at most once and was sent; an
    acknowledgement covers only envelopes that have been handed over, and the sender
    forgets an envelope only when it has been.  On a network that keeps the order and
    loses nothing the receiver hands over exactly what was sent, in order. *)
Theorem endpoint_delivery (ack_window : N) (l : Link) :
  link_reachable ack_window l →
  (N.of_nat (length (l_accepted l)) < u64_modulus)%N →
  NoDup (er_inbound (l_reader l)) ∧
  (∀ e, e ∈ er_inbound (l_reader l) → e ∈ l_accepted l) ∧
  (∀ a e, a ∈ l_acks l → e ∈ l_accepted l → (seq_no e ≤ cumulative_ack a)%N →
     e ∈ er_inbound (l_reader l)) ∧
  (∀ l' n e, link_step l l' →
     sb_pending (ew_send_buf (l_writer l)) !! n = Some e →
     sb_pending (ew_send_buf (l_writer l')) !! n = None →
     e ∈ er_inbound (l_reader l)) ∧
  er_inbound (foldl (λ r e, EndpointReader_payload e r) EndpointReader_new (l_accepted l)) =
    l_accepted l.
Proof.
  intros Hr Hb. pose proof (link_reachable_inv _ _ Hr Hb) as Hl. split_and!.
  - apply (NoDup_fmap_1 seq_no), Hl.
  - apply Hl.
  - intros a e Ha He Hle. destruct (li_acks _ Hl a Ha). apply watermark_delivered; [done..|lia].
  - intros l' n e Hstep Hn Hn'. destruct Hstep as [env l|l|env l Henv|l|ack l Hack].
    + revert Hn'. unfold Link_send, EndpointWriter_send, AckedSendBuffer_push. cbn.
      destruct (AckedSendBuffer_is_full _); cbn; [congruence|].
      intros [? _]%lookup_insert_None. congruence.
    + revert Hn'. unfold Link_resend, EndpointWriter_resend. cbn. congruence.
    + cbn in Hn'. congruence.
    + cbn in Hn'. congruence.
    + cbn in Hn'. destruct (li_pending _ Hl n e Hn) as [Hacc Hseq].
      destruct (li_acks _ Hl ack Hack). apply watermark_delivered; [done..|].
      apply map_lookup_filter_None in Hn' as [?|Hn']; [congruence|].
      specialize (Hn' e Hn). cbn in Hn'. lia.
  - apply (reader_in_order (l_accepted l) EndpointReader_new); cbn; [|lia|done].
    intros i e Hi. rewrite (li_numbered _ Hl i e Hi). lia.
Qed.

(** A resend after a reconnect sends nothing, whatever is pending: no receiver ever
    produces the nacks that [drain_resend] looks at. *)
Lemma resend_sends_nothing ack_window l :
  link_reachable ack_window l → (N.of_nat (length (l_accepted l)) < u64_modulus)%N →
  (EndpointWriter_resend (l_writer l)).2 = [].
Proof. intros Hr Hb. apply link_resend_silent. by apply (link_reachable_inv ack_window). Qed.

(** *** A concrete exchange: the second envelope overtakes the first and arrives twice. *)

Definition ping (body : Bytes) : RemoteEnvelope :=
  mkRemoteEnvelope "akka://b/user/x" None 1 2 0 4 "u32" false body.
Definition link_sent : Link :=
  Link_send (ping [Byte.x02]) (Link_send (ping [Byte.x01]) (Link_new 8)).
Definition ping1 : RemoteEnvelope := set_seq_no 1 (ping [Byte.x01]).
Definition ping2 : RemoteEnvelope := set_seq_no 2 (ping [Byte.x02]).
Definition link_done : Link :=
  Link_apply_ack (mkAckInfo 2 [])
    (Link_ack_tick (Link_payload ping2 (Link_payload ping1 (Link_payload ping2 link_sent)))).

Lemma endpoint_delivery_witness :
  NoDup (er_inbound (l_reader link_done)) ∧
  er_inbound (l_reader link_done) = [ping2; ping1] ∧
  sb_pending (ew_send_buf (l_writer link_done)) = ∅.
Proof.
  assert (Hr : link_reachable 8 link_done).
  { eapply rtc_l; [apply link_send|]. eapply rtc_l; [apply link_send|].
    eapply rtc_l; [apply link_payload; right; left|].
    eapply rtc_l; [apply link_payload; left|].
    eapply rtc_l; [apply link_payload; right; left|].
    eapply rtc_l; [apply link_ack_tick|].
    eapply rtc_l; [|apply rtc_refl]. apply (link_apply_ack (mkAckInfo 2 [])). left. }
  split; [exact (proj1 (endpoint_delivery 8 link_done Hr eq_refl))|].
  split; vm_compute; reflexivity.
Defined.
