(* ===== verification/Association.v ===== *)
(** * Associations between nodes
    ([crates/atomr-remote/src/transport/akka_protocol.rs], [endpoint_manager.rs], [pdu.rs])

    The protocol layer answers handshakes and turns frames into events; the endpoint
    manager keeps a state and possibly an endpoint per peer.  A step takes the reading of
    the clock; what is sent and what is called on endpoints, failure detectors and
    metrics is returned as a list.  [endpoint_for] waits for other events: its part before
    the wait and one round of its polling loop are two functions.  A node is a protocol
    layer with its manager, and two nodes exchange frames through a queue. *)

From stdpp Require Import gmap strings list.
From Stdlib Require Import NArith Lia.
From S2P Require Import Prelude Address Endpoint.

(** ** Frames *)

Record AssociateInfo := mkAssociateInfo {
  ai_origin : Address;
  ai_uid : N;
  ai_cookie : option string;
  ai_protocol_version : N;
}.

Inductive DisassociateReason :=
  | DrNormal
  | DrHandshakeFailure (msg : string)
  | DrQuarantined
  | DrOther (msg : string).

Inductive AkkaPdu :=
  | PduAssociate (info : AssociateInfo)
  | PduDisassociate (reason : DisassociateReason)
  | PduHeartbeat
  | PduPayload (env : RemoteEnvelope)
  | PduAck (ack : AckInfo).

Definition PROTOCOL_VERSION : N := 1.

Inductive TransportError :=
  | TeIo (msg : string)
  | TeCodec (msg : string)
  | TeNotAssociated (key : string)
  | TeClosed
  | TeHandshakeRejected (msg : string)
  | TeOther (msg : string).

(** ** The protocol layer *)

Inductive ProtocolEvent :=
  | Associated (address : Address) (uid : N)
  | Disassociated (peer : Address) (reason : DisassociateReason)
  | PayloadFrom (from : Address) (pdu : AkkaPdu).

Record AkkaProtocol := mkAkkaProtocol {
  pt_local_uid : N;
  pt_require_cookie : option string;
  pt_local_address : option Address;
  pt_peer_uids : gmap string N;
  pt_associated : gset string;
  pt_replied : gset string;
}.

Definition AkkaProtocol_new (cookie : option string) (uid : N) : AkkaProtocol :=
  mkAkkaProtocol uid cookie None ∅ ∅ ∅.

(** [start]: [address] is what the transport listens on. *)
Definition AkkaProtocol_start (address : Address) (p : AkkaProtocol) : AkkaProtocol :=
  mkAkkaProtocol (pt_local_uid p) (pt_require_cookie p) (Some address) (pt_peer_uids p)
    (pt_associated p) (pt_replied p).

Definition local_info (local : Address) (p : AkkaProtocol) : AssociateInfo :=
  mkAssociateInfo local (pt_local_uid p) (pt_require_cookie p) PROTOCOL_VERSION.

(** The frames sent and the events raised. *)
Definition dispatch_frame (from : Address) (pdu : AkkaPdu) (p : AkkaProtocol)
    : AkkaProtocol * list (Address * AkkaPdu) * list ProtocolEvent :=
  match pdu with
  | PduAssociate info =>
      if negb (ai_protocol_version info =? PROTOCOL_VERSION)%N then
        (p, [(ai_origin info, PduDisassociate (DrHandshakeFailure
               ("protocol version mismatch: peer=" +:+ uint_to_string (ai_protocol_version info)
                +:+ ", local=" +:+ uint_to_string PROTOCOL_VERSION)))], [])
      else if bool_decide (is_Some (pt_require_cookie p)) &&
              negb (bool_decide (pt_require_cookie p = ai_cookie info)) then
        (p, [(ai_origin info, PduDisassociate (DrHandshakeFailure "cookie mismatch"))], [])
      else
        let key := Address_to_string (ai_origin info) in
        let changed :=
          match pt_peer_uids p !! key with
          | Some prev =>
              if negb (prev =? ai_uid info)%N && negb (ai_uid info =? 0)%N
              then [Disassociated (ai_origin info) DrQuarantined] else []
          | None => []
          end in
        let p' := mkAkkaProtocol (pt_local_uid p) (pt_require_cookie p) (pt_local_address p)
                    (<[key := ai_uid info]> (pt_peer_uids p)) ({[key]} ∪ pt_associated p)
                    ({[key]} ∪ pt_replied p) in
        let reply :=
          if bool_decide (key ∈ pt_replied p) then []
          else match pt_local_address p with
               | Some local => [(ai_origin info, PduAssociate (local_info local p))]
               | None => []
               end in
        (p', reply, changed ++ [Associated (ai_origin info) (ai_uid info)])
  | PduDisassociate reason =>
      let key := Address_to_string from in
      (mkAkkaProtocol (pt_local_uid p) (pt_require_cookie p) (pt_local_address p)
         (delete key (pt_peer_uids p)) (pt_associated p ∖ {[key]}) (pt_replied p),
       [], [Disassociated from reason])
  | PduHeartbeat => (p, [], [])
  | other => (p, [], [PayloadFrom from other])
  end.

(** [conn] and [sent] are the results of opening the transport and of sending. *)
Definition AkkaProtocol_associate (conn sent : TransportError + unit) (target local : Address)
    (p : AkkaProtocol) : list (Address * AkkaPdu) * (TransportError + unit) :=
  match conn with
  | inl e => ([], inl e)
  | inr _ => ([(target, PduAssociate (local_info local p))], sent)
  end.

Definition AkkaProtocol_disassociate (target : Address) (reason : DisassociateReason)
    (p : AkkaProtocol) : AkkaProtocol * list (Address * AkkaPdu) :=
  let key := Address_to_string target in
  (mkAkkaProtocol (pt_local_uid p) (pt_require_cookie p) (pt_local_address p)
     (delete key (pt_peer_uids p)) (pt_associated p ∖ {[key]}) (pt_replied p),
   [(target, PduDisassociate reason)]).

Definition is_associated (a : Address) (p : AkkaProtocol) : bool :=
  bool_decide (Address_to_string a ∈ pt_associated p).

(** ** The endpoint manager *)

Inductive AssociationState := Idle | PendingAssoc | Connected | Quarantined | Tombstoned.

#[export] Instance AssociationState_eq_dec : EqDecision AssociationState.
Proof. solve_decision. Defined.

Record PeerEntry := mkPeerEntry {
  pe_state : AssociationState;
  pe_since : N;
  pe_attempt : N;
}.

Definition PeerEntry_new (now : N) : PeerEntry := mkPeerEntry Idle now 0.

Definition PeerEntry_transition (now : N) (next : AssociationState) (e : PeerEntry) : PeerEntry :=
  mkPeerEntry next now (if decide (next = Connected) then 0 else pe_attempt e)%N.

(** [u32::saturating_add(1)]. *)
Definition u32_saturating_succ (n : N) : N := N.min (n + 1) (2 ^ 32 - 1).

Record EndpointHandle := mkEndpointHandle {
  eh_remote : Address;
  eh_remote_uid : N;
}.

Record EndpointManager := mkEndpointManager {
  em_local_address : option Address;
  em_endpoints : gmap string EndpointHandle;
  em_peers : gmap string PeerEntry;
}.

Definition EndpointManager_new : EndpointManager := mkEndpointManager None ∅ ∅.

Definition EndpointManager_start (address : Address) (m : EndpointManager) : EndpointManager :=
  mkEndpointManager (Some address) (em_endpoints m) (em_peers m).

(** Calls on endpoints, failure detectors and metrics. *)
Inductive ManagerEffect :=
  | FdHeartbeat (a : Address)
  | FdRemove (a : Address)
  | RecordReceive (a : Address)
  | SpawnEndpoint (key : string) (h : EndpointHandle)
  | ResendEndpoint (key : string)
  | ShutdownEndpoint (key : string) (reason : DisassociateReason)
  | DeliverEndpoint (key : string) (pdu : AkkaPdu).

(** [entry(key).or_insert_with(PeerEntry::new)] followed by a transition. *)
Definition enter (now : N) (key : string) (next : AssociationState) (m : EndpointManager)
    : EndpointManager :=
  mkEndpointManager (em_local_address m) (em_endpoints m)
    (entry_update (PeerEntry_new now) (PeerEntry_transition now next) key (em_peers m)).

(** [endpoints.remove(key)] with the shutdown of what was there. *)
Definition drop_endpoint (key : string) (reason : DisassociateReason) (m : EndpointManager)
    : EndpointManager * list ManagerEffect :=
  (mkEndpointManager (em_local_address m) (delete key (em_endpoints m)) (em_peers m),
   match em_endpoints m !! key with
   | Some _ => [ShutdownEndpoint key reason]
   | None => []
   end).

Definition dispatch_event (now : N) (ev : ProtocolEvent) (m : EndpointManager)
    : EndpointManager * list ManagerEffect :=
  match ev with
  | Associated address uid =>
      let key := Address_to_string address in
      let m1 := enter now key Connected m in
      match em_endpoints m !! key with
      | None =>
          let h := mkEndpointHandle address uid in
          (mkEndpointManager (em_local_address m1) (<[key := h]> (em_endpoints m1)) (em_peers m1),
           [FdHeartbeat address; SpawnEndpoint key h])
      | Some _ => (m1, [FdHeartbeat address; ResendEndpoint key])
      end
  | Disassociated peer reason =>
      let key := Address_to_string peer in
      let '(m1, eff) := drop_endpoint key reason m in
      (enter now key (match reason with DrQuarantined => Quarantined | _ => Idle end) m1,
       FdRemove peer :: eff)
  | PayloadFrom from pdu =>
      let key := Address_to_string from in
      (m, FdHeartbeat from :: RecordReceive from ::
          match pdu with
          | PduPayload _ | PduAck _ =>
              match em_endpoints m !! key with
              | Some _ => [DeliverEndpoint key pdu]
              | None => []
              end
          | _ => []
          end)
  end.

(** The outcome of the part of [endpoint_for] before the wait. *)
Inductive EndpointFor :=
  | EfReady (h : EndpointHandle)
  | EfFailed (e : TransportError)
  | EfHandshake (local : Address).

Definition endpoint_for_start (quarantine_duration now : N) (target : Address)
    (m : EndpointManager) : EndpointManager * EndpointFor :=
  let key := Address_to_string target in
  match em_endpoints m !! key with
  | Some h => (m, EfReady h)
  | None =>
      let rejected :=
        match em_peers m !! key with
        | Some p =>
            if bool_decide (pe_state p = Quarantined) && (now - pe_since p <? quarantine_duration)%N
            then Some (key +:+ " is quarantined")
            else if bool_decide (pe_state p = Tombstoned) then Some (key +:+ " is tombstoned")
            else None
        | None => None
        end in
      match rejected with
      | Some msg => (m, EfFailed (TeHandshakeRejected msg))
      | None =>
          let m1 := mkEndpointManager (em_local_address m) (em_endpoints m)
            (entry_update (PeerEntry_new now)
               (λ e, let e' := PeerEntry_transition now PendingAssoc e in
                     mkPeerEntry (pe_state e') (pe_since e') (u32_saturating_succ (pe_attempt e')))
               key (em_peers m)) in
          match em_local_address m with
          | None => (m1, EfFailed TeClosed)
          | Some local => (m1, EfHandshake local)
          end
      end
  end.

(** One round of the polling loop; [None] keeps waiting. *)
Definition endpoint_for_poll (deadline now : N) (target : Address) (m : EndpointManager)
    : EndpointManager * option (TransportError + EndpointHandle) :=
  let key := Address_to_string target in
  match em_endpoints m !! key with
  | Some h => (m, Some (inr h))
  | None =>
      if (deadline <? now)%N then
        (mkEndpointManager (em_local_address m) (em_endpoints m)
           (alter (PeerEntry_transition now Idle) key (em_peers m)),
         Some (inl (TeHandshakeRejected ("handshake timeout to " +:+ key))))
      else (m, None)
  end.

(** The protocol layer disassociates as well, see [AkkaProtocol_disassociate]. *)
Definition EndpointManager_quarantine (now : N) (target : Address) (m : EndpointManager)
    : EndpointManager * list ManagerEffect :=
  let key := Address_to_string target in
  let '(m1, eff) := drop_endpoint key DrQuarantined m in (enter now key Quarantined m1, eff).

Definition EndpointManager_tombstone (now : N) (target : Address) (m : EndpointManager)
    : EndpointManager * list ManagerEffect :=
  let key := Address_to_string target in
  let '(m1, eff) := drop_endpoint key (DrOther "tombstoned") m in
  (enter now key Tombstoned m1, eff).

Definition purge_tombstones (older_than now : N) (m : EndpointManager) : EndpointManager * nat :=
  let kept := filter (λ p : string * PeerEntry,
      ¬ (pe_state p.2 = Tombstoned ∧ (older_than ≤ now - pe_since p.2)%N)) (em_peers m) in
  (mkEndpointManager (em_local_address m) (em_endpoints m) kept, size (em_peers m) - size kept).

Definition peer_state (target : Address) (m : EndpointManager) : option AssociationState :=
  pe_state <$> em_peers m !! Address_to_string target.

Definition state_name (s : AssociationState) : string :=
  match s with
  | Idle => "idle" | PendingAssoc => "pending" | Connected => "connected"
  | Quarantined => "quarantined" | Tombstoned => "tombstoned"
  end.

Definition peer_states (m : EndpointManager) : list (string * string * N) :=
  (λ p : string * PeerEntry, (p.1, state_name (pe_state p.2), pe_attempt p.2)) <$>
    map_to_list (em_peers m).

Definition EndpointManager_shutdown (m : EndpointManager) : EndpointManager * list ManagerEffect :=
  (mkEndpointManager (em_local_address m) ∅ (em_peers m),
   (λ p : string * EndpointHandle, ShutdownEndpoint p.1 DrNormal) <$>
     map_to_list (em_endpoints m)).

(** ** Runs of a manager *)

Inductive ManagerOp :=
  | MoStart (address : Address)
  | MoEvent (ev : ProtocolEvent)
  | MoEndpointFor (target : Address)
  | MoPoll (deadline : N) (target : Address)
  | MoQuarantine (target : Address)
  | MoTombstone (target : Address)
  | MoPurge (older_than : N)
  | MoShutdown.

Definition manager_op (qd now : N) (op : ManagerOp) (m : EndpointManager) : EndpointManager :=
  match op with
  | MoStart a => EndpointManager_start a m
  | MoEvent ev => (dispatch_event now ev m).1
  | MoEndpointFor t => (endpoint_for_start qd now t m).1
  | MoPoll d t => (endpoint_for_poll d now t m).1
  | MoQuarantine t => (EndpointManager_quarantine now t m).1
  | MoTombstone t => (EndpointManager_tombstone now t m).1
  | MoPurge o => (purge_tombstones o now m).1
  | MoShutdown => (EndpointManager_shutdown m).1
  end.

Definition manager_run (qd : N) (ops : list (N * ManagerOp)) (m : EndpointManager)
    : EndpointManager := foldl (λ m x, manager_op qd x.1 x.2 m) m ops.

(** Every endpoint belongs to a connected peer. *)
Definition manager_inv (m : EndpointManager) : Prop :=
  ∀ k, is_Some (em_endpoints m !! k) → pe_state <$> em_peers m !! k = Some Connected.

Lemma lookup_enter now key next m k :
  em_peers (enter now key next m) !! k =
    if decide (key = k)
    then Some (PeerEntry_transition now next (default (PeerEntry_new now) (em_peers m !! key)))
    else em_peers m !! k.
Proof. apply lookup_entry_update. Qed.

Lemma drop_enter_inv now key reason next m :
  manager_inv m → manager_inv (enter now key next (drop_endpoint key reason m).1).
Proof.
  intros Hm k. cbn [drop_endpoint fst]. rewrite lookup_enter. cbn. case_decide as Hk.
  - subst k. rewrite lookup_delete_eq. by intros [??].
  - rewrite lookup_delete_ne by done. apply Hm.
Qed.

Lemma manager_op_inv qd now op m : manager_inv m → manager_inv (manager_op qd now op m).
Proof.
  intros Hm. destruct op as [a|ev|t|d t|t|t|o|]; cbn [manager_op].
  - exact Hm.
  - destruct ev as [a uid|peer reason|from pdu]; cbn [dispatch_event].
    + destruct (em_endpoints m !! Address_to_string a) as [h|] eqn:E; cbn [fst].
      * intros k Hk. rewrite lookup_enter. case_decide; [done|]. by apply Hm.
      * intros k Hk. change (pe_state <$> em_peers (enter now (Address_to_string a) Connected m)
          !! k = Some Connected). rewrite lookup_enter. case_decide as Hka; [done|].
        cbn in Hk. rewrite lookup_insert_ne in Hk by done. by apply Hm.
    + rewrite (surjective_pairing (drop_endpoint _ _ _)). by apply drop_enter_inv.
    + exact Hm.
  - unfold endpoint_for_start. destruct (em_endpoints m !! Address_to_string t) eqn:E; [exact Hm|].
    destruct (match em_peers m !! _ with Some _ => _ | None => _ end); [exact Hm|].
    assert (Hp : manager_inv (mkEndpointManager (em_local_address m) (em_endpoints m)
      (entry_update (PeerEntry_new now)
         (λ e, let e' := PeerEntry_transition now PendingAssoc e in
               mkPeerEntry (pe_state e') (pe_since e') (u32_saturating_succ (pe_attempt e')))
         (Address_to_string t) (em_peers m)))).
    { intros k Hk. cbn in Hk |- *. rewrite lookup_entry_update.
      case_decide as Hkt; [|by apply Hm]. subst k. rewrite E in Hk. by destruct Hk. }
    by destruct (em_local_address m).
  - unfold endpoint_for_poll. destruct (em_endpoints m !! Address_to_string t) eqn:E; [exact Hm|].
    destruct (d <? now)%N; [|exact Hm]. intros k Hk. cbn in Hk |- *.
    rewrite lookup_alter_ne; [by apply Hm|]. intros <-. rewrite E in Hk. by destruct Hk.
  - unfold EndpointManager_quarantine. rewrite (surjective_pairing (drop_endpoint _ _ _)).
    by apply drop_enter_inv.
  - unfold EndpointManager_tombstone. rewrite (surjective_pairing (drop_endpoint _ _ _)).
    by apply drop_enter_inv.
  - intros k Hk. specialize (Hm k Hk). cbn.
    destruct (em_peers m !! k) as [e|] eqn:E; [|done]. cbn in Hm.
    rewrite (map_lookup_filter_Some_2 _ _ _ e); [done|done|]. cbn. intros [Ht _]. congruence.
  - intros k [h Hh]. cbn in Hh. by rewrite lookup_empty in Hh.
Qed.

Lemma manager_run_inv qd ops m : manager_inv m → manager_inv (manager_run qd ops m).
Proof.
  revert m; induction ops as [|[now op] ops IH]; intros m Hm; [done|].
  apply IH. by apply manager_op_inv.
Qed.

Lemma manager_new_inv : manager_inv EndpointManager_new.
Proof. intros k [h Hh]. cbn in Hh. by rewrite lookup_empty in Hh. Qed.

(** The operation does not concern the peer, or is one that a gated peer survives. *)
Definition keeps_gate (key : string) (op : ManagerOp) : Prop :=
  match op with
  | MoEvent (Associated a _) => Address_to_string a ≠ key
  | MoEvent (Disassociated a _) => Address_to_string a ≠ key
  | MoQuarantine a | MoTombstone a => Address_to_string a ≠ key
  | MoPoll _ a => Address_to_string a ≠ key
  | MoPurge _ => False
  | _ => True
  end.

(** The peer is refused at time [now]. *)
Definition gated (qd now : N) (e : PeerEntry) : Prop :=
  pe_state e = Tombstoned ∨ (pe_state e = Quarantined ∧ (now - pe_since e < qd)%N).

Lemma endpoint_for_gated qd now target m e :
  em_endpoints m !! Address_to_string target = None →
  em_peers m !! Address_to_string target = Some e → gated qd now e →
  ∃ msg, endpoint_for_start qd now target m = (m, EfFailed (TeHandshakeRejected msg)).
Proof.
  intros He Hp Hg. unfold endpoint_for_start. rewrite He, Hp.
  destruct (bool_decide (pe_state e = Quarantined) && (now - pe_since e <? qd)%N) eqn:Hq;
    [by eauto|].
  destruct Hg as [Ht|[Hs Hlt]].
  - rewrite bool_decide_true by done. by eauto.
  - rewrite Hs in Hq. cbn in Hq. apply N.ltb_ge in Hq. lia.
Qed.

Lemma manager_op_gate qd now op m key e :
  keeps_gate key op → em_endpoints m !! key = None → em_peers m !! key = Some e →
  gated qd now e →
  em_endpoints (manager_op qd now op m) !! key = None ∧
  em_peers (manager_op qd now op m) !! key = Some e.
Proof.
  intros Hop He Hp Hg. destruct op as [a|ev|t|d t|t|t|o|]; cbn [manager_op].
  - done.
  - destruct ev as [a uid|peer reason|from pdu]; cbn [dispatch_event keeps_gate] in *.
    + destruct (em_endpoints m !! Address_to_string a); cbn [fst em_endpoints em_peers enter].
      all: rewrite ?lookup_insert_ne, lookup_entry_update, decide_False by done; done.
    + rewrite (surjective_pairing (drop_endpoint _ _ _)). cbn.
      by rewrite lookup_delete_ne, lookup_entry_update, decide_False.
    + done.
  - destruct (decide (Address_to_string t = key)) as [<-|Hne].
    { by destruct (endpoint_for_gated qd now t m e He Hp Hg) as [msg ->]. }
    unfold endpoint_for_start.
    destruct (em_endpoints m !! Address_to_string t); [done|].
    destruct (match em_peers m !! Address_to_string t with Some _ => _ | None => _ end); [done|].
    destruct (em_local_address m); cbn; rewrite lookup_entry_update, decide_False by done; done.
  - unfold endpoint_for_poll. destruct (em_endpoints m !! Address_to_string t); [done|].
    destruct (d <? now)%N; [|done]. cbn in *. by rewrite lookup_alter_ne.
  - cbn. by rewrite lookup_delete_ne, lookup_entry_update, decide_False.
  - cbn. by rewrite lookup_delete_ne, lookup_entry_update, decide_False.
  - done.
  - cbn. by rewrite lookup_empty.
Qed.

Lemma manager_run_gate qd ops m key e :
  Forall (λ x, keeps_gate key x.2 ∧ gated qd x.1 e) ops →
  em_endpoints m !! key = None → em_peers m !! key = Some e →
  em_endpoints (manager_run qd ops m) !! key = None ∧
  em_peers (manager_run qd ops m) !! key = Some e.
Proof.
  intros Hops. revert m; induction Hops as [|[now op] ops [Hop Hg] Hops IH]; intros m He Hp; [done|].
  cbn. destruct (manager_op_gate qd now op m key e Hop He Hp Hg). by apply IH.
Qed.

(** An endpoint exists only for a connected peer, whatever happens; and quarantining
    or tombstoning a peer removes its endpoint and refuses every later request for one
    until the quarantine expires, respectively for as long as the tombstone is not purged,
    provided the peer raises no protocol event itself. *)
Theorem association_gates (qd t0 : N) (target : Address) (before after : list (N * ManagerOp))
    (tomb : bool) :
  let m := manager_run qd before EndpointManager_new in
  let gate := if tomb then MoTombstone target else MoQuarantine target in
  let m1 := manager_op qd t0 gate m in
  let m2 := manager_run qd after m1 in
  Forall (λ x, keeps_gate (Address_to_string target) x.2 ∧
               (tomb = true ∨ (x.1 - t0 < qd)%N)) after →
  manager_inv m2 ∧
  em_endpoints m2 !! Address_to_string target = None ∧
  peer_state target m2 = Some (if tomb then Tombstoned else Quarantined) ∧
  (∀ now, tomb = true ∨ (now - t0 < qd)%N →
     ∃ msg, endpoint_for_start qd now target m2 = (m2, EfFailed (TeHandshakeRejected msg))).
Proof.
  intros m gate m1 m2 Hafter.
  assert (Hinv : manager_inv m) by (apply manager_run_inv, manager_new_inv).
  assert (∃ e, em_endpoints m1 !! Address_to_string target = None ∧
    em_peers m1 !! Address_to_string target = Some e ∧
    pe_state e = (if tomb then Tombstoned else Quarantined) ∧ pe_since e = t0)
    as (e & He & Hp & Hst & Hs).
  { unfold m1, gate. destruct tomb; cbn; rewrite lookup_delete_eq, lookup_entry_update, decide_True
      by done; eexists; repeat split; done. }
  assert (Hg : ∀ now, tomb = true ∨ (now - t0 < qd)%N → gated qd now e).
  { intros now Hn. unfold gated. rewrite Hst, Hs.
    destruct tomb; [by left|]. right. destruct Hn; done. }
  destruct (manager_run_gate qd after m1 (Address_to_string target) e) as [He2 Hp2]; [|done..|].
  { eapply Forall_impl; [exact Hafter|]. intros [now op] [Hk Hn]. split; [done|]. by apply Hg. }
  split; [by apply manager_run_inv, manager_op_inv|]. split; [exact He2|]. split.
  { unfold peer_state. fold m2 in Hp2. rewrite Hp2. cbn. by rewrite Hst. }
  intros now Hn. by eapply endpoint_for_gated; [exact He2|exact Hp2|apply Hg].
Qed.

(** Two requests for a tombstoned peer, with a purge in between. *)
Lemma association_gates_witness :
  let a := mkAddress "akka.tcp" "peer" (Some "host") (Some 2552%N) in
  let before := [(0%N, MoStart (Address_local "local")); (1%N, MoEvent (Associated a 7))] in
  let m := manager_op 10 5 (MoQuarantine a) (manager_run 10 before EndpointManager_new) in
  let m2 := manager_run 10 [(6%N, MoEndpointFor a); (14%N, MoShutdown)] m in
  is_Some (em_endpoints (manager_run 10 before EndpointManager_new) !! Address_to_string a) ∧
  peer_state a m2 = Some Quarantined ∧
  ∃ msg, endpoint_for_start 10 14 a m2 = (m2, EfFailed (TeHandshakeRejected msg)).
Proof.
  intros a before m m2. split; [by vm_compute; eexists|].
  destruct (association_gates 10 5 a before [(6%N, MoEndpointFor a); (14%N, MoShutdown)] false)
    as (_ & _ & Hst & Hq).
  { repeat constructor; try done; right; cbn; lia. }
  split; [exact Hst|]. apply Hq. right. lia.
Defined.

(** A peer that associates itself is let in even through a tombstone. *)
Lemma tombstone_readmits now uid target m :
  let m1 := (EndpointManager_tombstone now target m).1 in
  let m2 := (dispatch_event now (Associated target uid) m1).1 in
  peer_state target m1 = Some Tombstoned ∧ peer_state target m2 = Some Connected ∧
  em_endpoints m2 !! Address_to_string target = Some (mkEndpointHandle target uid).
Proof.
  unfold EndpointManager_tombstone, peer_state, dispatch_event. cbn.
  rewrite lookup_entry_update, decide_True by done. split; [done|].
  rewrite lookup_delete_eq. cbn. rewrite lookup_insert_eq, lookup_entry_update, decide_True by done.
  done.
Qed.

(** ** Two nodes *)

Record Node := mkNode {
  nd_address : Address;
  nd_protocol : AkkaProtocol;
  nd_manager : EndpointManager;
}.

(** A frame on its way. *)
Record Wire := mkWire { wi_from : Address; wi_to : Address; wi_pdu : AkkaPdu }.

(** A node receives a frame: the protocol layer's pump, then the manager's. *)
Definition node_receive (now : N) (w : Wire) (n : Node) : Node * list Wire :=
  let '(p, sent, events) := dispatch_frame (wi_from w) (wi_pdu w) (nd_protocol n) in
  (mkNode (nd_address n) p (foldl (λ m ev, (dispatch_event now ev m).1) (nd_manager n) events),
   (λ x : Address * AkkaPdu, mkWire (nd_address n) x.1 x.2) <$> sent).

(** [endpoint_for] up to its wait: the connection opens and the frame leaves. *)
Definition node_connect (qd now : N) (target : Address) (n : Node)
    : Node * list Wire * EndpointFor :=
  match endpoint_for_start qd now target (nd_manager n) with
  | (m, EfHandshake local) =>
      (mkNode (nd_address n) (nd_protocol n) m,
       (λ x : Address * AkkaPdu, mkWire (nd_address n) x.1 x.2) <$>
         (AkkaProtocol_associate (inr tt) (inr tt) target local (nd_protocol n)).1,
       EfHandshake local)
  | (m, r) => (mkNode (nd_address n) (nd_protocol n) m, [], r)
  end.

(** The wire is a queue; a frame for neither node is lost. *)
Fixpoint pump (fuel : nat) (now : N) (a b : Node) (wire : list Wire) : Node * Node * list Wire :=
  match fuel, wire with
  | S fuel, w :: wire =>
      if decide (wi_to w = nd_address a) then
        let '(a', out) := node_receive now w a in pump fuel now a' b (wire ++ out)
      else if decide (wi_to w = nd_address b) then
        let '(b', out) := node_receive now w b in pump fuel now a b' (wire ++ out)
      else pump fuel now a b wire
  | _, _ => (a, b, wire)
  end.

(** The node listens, and has no history with the peer. *)
Definition node_fresh (n : Node) (peer : Address) : Prop :=
  pt_local_address (nd_protocol n) = Some (nd_address n) ∧
  em_local_address (nd_manager n) = Some (nd_address n) ∧
  pt_peer_uids (nd_protocol n) !! Address_to_string peer = None ∧
  (Address_to_string peer ∉ pt_replied (nd_protocol n)) ∧
  em_endpoints (nd_manager n) !! Address_to_string peer = None ∧
  em_peers (nd_manager n) !! Address_to_string peer = None.

(** [n] accepts the cookie of [peer]. *)
Definition accepts (n peer : Node) : Prop :=
  pt_require_cookie (nd_protocol n) = None ∨
  pt_require_cookie (nd_protocol n) = pt_require_cookie (nd_protocol peer).

Definition node_connected (n peer : Node) : Prop :=
  is_associated (nd_address peer) (nd_protocol n) = true ∧
  peer_state (nd_address peer) (nd_manager n) = Some Connected ∧
  em_endpoints (nd_manager n) !! Address_to_string (nd_address peer) =
    Some (mkEndpointHandle (nd_address peer) (pt_local_uid (nd_protocol peer))).

(** What [n] knows of the peer is consistent with the handshake; [r]: it has replied. *)
Definition handshake_ok (r : bool) (n : Node) (peer : Address) (uid : N) : Prop :=
  let key := Address_to_string peer in
  pt_local_address (nd_protocol n) = Some (nd_address n) ∧
  (pt_peer_uids (nd_protocol n) !! key = None ∨ pt_peer_uids (nd_protocol n) !! key = Some uid) ∧
  (em_endpoints (nd_manager n) !! key = None ∨
   em_endpoints (nd_manager n) !! key = Some (mkEndpointHandle peer uid)) ∧
  bool_decide (key ∈ pt_replied (nd_protocol n)) = r.

Definition same_identity (n n' : Node) : Prop :=
  nd_address n' = nd_address n ∧
  pt_local_uid (nd_protocol n') = pt_local_uid (nd_protocol n) ∧
  pt_require_cookie (nd_protocol n') = pt_require_cookie (nd_protocol n) ∧
  em_local_address (nd_manager n') = em_local_address (nd_manager n).

(** The frame a node opens or answers a handshake with. *)
Definition hello (n : Node) (to : Address) : Wire :=
  mkWire (nd_address n) to (PduAssociate (local_info (nd_address n) (nd_protocol n))).

Lemma receive_hello now r n peer :
  accepts n peer →
  handshake_ok r n (nd_address peer) (pt_local_uid (nd_protocol peer)) →
  let '(n', out) := node_receive now (hello peer (nd_address n)) n in
  same_identity n n' ∧ node_connected n' peer ∧
  handshake_ok true n' (nd_address peer) (pt_local_uid (nd_protocol peer)) ∧
  out = if r then [] else [hello n (nd_address peer)].
Proof.
  intros Hacc (Hl & Hu & He & Hr). set (u := pt_local_uid (nd_protocol peer)) in *.
  unfold node_receive, hello, dispatch_frame. cbn [wi_pdu wi_from ai_protocol_version local_info].
  rewrite N.eqb_refl. cbn [negb local_info ai_cookie ai_origin ai_uid].
  replace (bool_decide (is_Some (pt_require_cookie (nd_protocol n))) &&
    negb (bool_decide (pt_require_cookie (nd_protocol n) = pt_require_cookie (nd_protocol peer))))
    with false.
  2:{ destruct Hacc as [->| ->]; [done|]. rewrite (bool_decide_true (_ = _)) by done.
      by rewrite andb_false_r. }
  rewrite Hl, Hr.
  replace (match pt_peer_uids (nd_protocol n) !! Address_to_string (nd_address peer) with
           | Some prev => if negb (prev =? u)%N && negb (u =? 0)%N
               then [Disassociated (nd_address peer) DrQuarantined] else []
           | None => [] end) with (@nil ProtocolEvent).
  2:{ destruct Hu as [->| ->]; [done|]. by rewrite N.eqb_refl. }
  cbn [app foldl dispatch_event nd_address]. fold u.
  assert (Hin : ∀ key (X : gset string), key ∈ {[key]} ∪ X) by set_solver.
  destruct He as [He|He]; rewrite He; cbn [fst]; (split; [done|]); (split; [|split]);
    try (by destruct r).
  all: unfold node_connected, handshake_ok, is_associated, peer_state; cbn.
  all: rewrite ?lookup_entry_update, ?decide_True, ?lookup_insert_eq, ?bool_decide_true by done.
  all: repeat split; try done; by right.
Qed.

Lemma fresh_handshake n peer uid : node_fresh n peer → handshake_ok false n peer uid.
Proof.
  intros (Hl & _ & Hu & Hr & He & _). repeat split; [done|by left|by left|].
  by apply bool_decide_false.
Qed.

(** Opening: a request that is not gated and finds no endpoint sends a hello. *)
Lemma node_connect_fresh qd now n peer :
  node_fresh n peer →
  let '(n', out, r) := node_connect qd now peer n in
  out = [hello n peer] ∧ r = EfHandshake (nd_address n) ∧ same_identity n n' ∧
  peer_state peer (nd_manager n') = Some PendingAssoc ∧
  ∀ uid, handshake_ok false n' peer uid.
Proof.
  intros Hf. assert (Hok : ∀ uid, handshake_ok false n peer uid) by eauto using fresh_handshake.
  destruct Hf as (Hl & Hm & Hu & Hr & He & Hp).
  unfold node_connect, endpoint_for_start. rewrite He, Hp, Hm. cbn.
  split; [done|]. split; [done|]. split; [done|]. split; [|exact Hok].
  unfold peer_state. cbn. by rewrite lookup_entry_update, decide_True.
Qed.

Lemma connected_identity n peer peer' :
  same_identity peer peer' → node_connected n peer → node_connected n peer'.
Proof. unfold same_identity, node_connected. by intros (-> & -> & _ & _). Qed.

Lemma accepts_identity n n' peer peer' :
  same_identity n n' → same_identity peer peer' → accepts n peer → accepts n' peer'.
Proof. unfold same_identity, accepts. intros (_ & _ & -> & _) (_ & _ & -> & _). done. Qed.

Lemma hello_identity n n' to : same_identity n n' → hello n' to = hello n to.
Proof. unfold hello, local_info. by intros (-> & -> & -> & _). Qed.

Lemma self_identity n : same_identity n n.
Proof. done. Qed.

(** C21: a request for an endpoint completes: when each node accepts the other's cookie and
    they have no history, three frames empty the wire and both nodes hold a connected
    endpoint for the other with its uid, so the next poll of [endpoint_for] returns it. *)
Theorem handshake_completes (qd now deadline : N) (a b : Node) :
  nd_address a ≠ nd_address b →
  node_fresh a (nd_address b) → node_fresh b (nd_address a) → accepts a b → accepts b a →
  let '(a1, wire, r) := node_connect qd now (nd_address b) a in
  let '(a2, b2, rest) := pump 3 now a1 b wire in
  r = EfHandshake (nd_address a) ∧ rest = [] ∧
  node_connected a2 b ∧ node_connected b2 a ∧
  endpoint_for_poll deadline now (nd_address b) (nd_manager a2) =
    (nd_manager a2, Some (inr (mkEndpointHandle (nd_address b) (pt_local_uid (nd_protocol b))))).
Proof.
  intros Hne Ha Hb Hab Hba.
  pose proof (node_connect_fresh qd now a (nd_address b) Ha) as H1.
  destruct (node_connect qd now (nd_address b) a) as [[a1 wire] r].
  destruct H1 as (-> & -> & Hia & _ & Hoka). cbn [pump hello wi_to].
  rewrite decide_False by (destruct Hia as (-> & _); congruence). rewrite decide_True by done.
  pose proof (receive_hello now false b a Hba (fresh_handshake b _ _ Hb)) as H2.
  fold (hello a (nd_address b)).
  destruct (node_receive now (hello a (nd_address b)) b) as [b1 out1].
  destruct H2 as (Hib & Hcb & Hokb & ->). cbn [app pump hello wi_to]. fold (hello b (nd_address a)).
  assert (Haa : nd_address a1 = nd_address a) by apply Hia.
  rewrite decide_True by done.
  pose proof (receive_hello now false a1 b) as H3. rewrite Haa in H3.
  specialize (H3 (accepts_identity _ _ _ _ Hia (self_identity _) Hab)
    (Hoka _)).
  destruct (node_receive now (hello b (nd_address a)) a1) as [a2 out2].
  destruct H3 as (Hia2 & Hca & _ & ->). rewrite (hello_identity a a1) by done.
  cbn [app pump hello wi_to]. fold (hello a (nd_address b)).
  assert (Haa2 : nd_address a2 = nd_address a) by (destruct Hia2 as (-> & _); done).
  assert (Hbb : nd_address b1 = nd_address b) by apply Hib.
  rewrite decide_False by congruence. rewrite decide_True by done.
  pose proof (receive_hello now true b1 a
    (accepts_identity _ _ _ _ Hib (self_identity _) Hba) Hokb) as H4.
  rewrite Hbb in H4. destruct (node_receive now (hello a (nd_address b)) b1) as [b2 out3].
  destruct H4 as (_ & Hcb2 & _ & ->). split; [done|]. split; [done|]. split; [done|]. split; [done|].
  unfold endpoint_for_poll. destruct Hca as (_ & _ & He). by rewrite He.
Qed.

Definition cookie_node (cookie : option string) (uid : N) (name : string) : Node :=
  let addr := mkAddress "akka.tcp" name (Some "host") (Some 2552%N) in
  mkNode addr (AkkaProtocol_start addr (AkkaProtocol_new cookie uid))
    (EndpointManager_start addr EndpointManager_new).

Lemma cookie_node_fresh cookie uid name peer : node_fresh (cookie_node cookie uid name) peer.
Proof. repeat split; set_solver. Qed.

Lemma handshake_completes_witness :
  let a := cookie_node None 1 "a" in
  let b := cookie_node None 2 "b" in
  let '(a1, wire, r) := node_connect 5 0 (nd_address b) a in
  let '(a2, b2, rest) := pump 3 0 a1 b wire in
  rest = [] ∧ node_connected a2 b ∧ node_connected b2 a.
Proof.
  intros a b.
  pose proof (handshake_completes 5 0 20 a b ltac:(done) (cookie_node_fresh _ _ _ _)
    (cookie_node_fresh _ _ _ _) (or_introl eq_refl) (or_introl eq_refl)) as H.
  destruct (node_connect 5 0 (nd_address b) a) as [[a1 wire] r].
  destruct (pump 3 0 a1 b wire) as [[a2 b2] rest]. tauto.
Defined.

Lemma receive_reject now n peer to :
  ~ accepts n peer →
  node_receive now (hello peer to) n =
    (n, [mkWire (nd_address n) (nd_address peer)
           (PduDisassociate (DrHandshakeFailure "cookie mismatch"))]).
Proof.
  intros Hrej. unfold node_receive, hello, dispatch_frame.
  cbn [wi_pdu wi_from ai_protocol_version local_info].
  rewrite N.eqb_refl. cbn [negb local_info ai_cookie ai_origin].
  replace (bool_decide (is_Some (pt_require_cookie (nd_protocol n))) &&
    negb (bool_decide (pt_require_cookie (nd_protocol n) = pt_require_cookie (nd_protocol peer))))
    with true; [by destruct n|].
  unfold accepts in Hrej. destruct (pt_require_cookie (nd_protocol n)) as [c|]; [|tauto].
  rewrite (bool_decide_true (is_Some _)) by eauto. rewrite bool_decide_false by tauto. done.
Qed.

(** A node that requires a cookie turns a peer with another cookie away: the peer learns
    of it by one frame, ends with no endpoint and an idle entry, and its request fails when
    the deadline has passed and not before; the rejecting node's state is unchanged. *)
Theorem handshake_rejected (qd now deadline : N) (a b : Node) :
  nd_address a ≠ nd_address b →
  node_fresh a (nd_address b) → ~ accepts b a →
  let '(a1, wire, _) := node_connect qd now (nd_address b) a in
  let '(a2, b2, rest) := pump 2 now a1 b wire in
  rest = [] ∧ b2 = b ∧
  is_associated (nd_address b) (nd_protocol a2) = false ∧
  peer_state (nd_address b) (nd_manager a2) = Some Idle ∧
  (∀ t, (t ≤ deadline)%N →
     endpoint_for_poll deadline t (nd_address b) (nd_manager a2) = (nd_manager a2, None)) ∧
  (∀ t, (deadline < t)%N → ∃ msg,
     (endpoint_for_poll deadline t (nd_address b) (nd_manager a2)).2 =
       Some (inl (TeHandshakeRejected msg))).
Proof.
  intros Hne Ha Hrej.
  pose proof (node_connect_fresh qd now a (nd_address b) Ha) as H1.
  destruct (node_connect qd now (nd_address b) a) as [[a1 wire] r].
  destruct H1 as (-> & -> & (Haa & Hua & Hca & Hla) & Hst & Hok).
  destruct (Hok 0%N) as (_ & _ & He & _).
  assert (Hnone : em_endpoints (nd_manager (node_receive now (mkWire (nd_address b) (nd_address a)
    (PduDisassociate (DrHandshakeFailure "cookie mismatch"))) a1).1)
      !! Address_to_string (nd_address b) = None) by (cbn; by rewrite lookup_delete_eq).
  cbn [pump hello wi_to]. rewrite decide_False by congruence. rewrite decide_True by done.
  fold (hello a (nd_address b)). rewrite receive_reject by done.
  cbn [app pump wi_to]. rewrite decide_True by done.
  rewrite (surjective_pairing (node_receive now _ a1)).
  set (a2 := (node_receive now _ a1).1) in *. cbn [pump node_receive snd].
  split; [done|]. split; [done|].
  assert (Hst2 : peer_state (nd_address b) (nd_manager a2) = Some Idle).
  { unfold a2, peer_state. cbn. by rewrite lookup_entry_update, decide_True. }
  split; [unfold a2, is_associated; cbn; apply bool_decide_false; set_solver|].
  split; [done|]. unfold endpoint_for_poll. rewrite Hnone. split; intros t Ht.
  - by rewrite (proj2 (N.ltb_ge _ _)).
  - rewrite (proj2 (N.ltb_lt _ _)) by done. by eexists.
Qed.

Lemma handshake_rejected_witness :
  let a := cookie_node (Some "wrong") 1 "a" in
  let b := cookie_node (Some "secret") 2 "b" in
  let '(a1, wire, _) := node_connect 5 0 (nd_address b) a in
  let '(a2, b2, rest) := pump 2 0 a1 b wire in
  b2 = b ∧ peer_state (nd_address b) (nd_manager a2) = Some Idle.
Proof.
  intros a b.
  pose proof (handshake_rejected 5 0 20 a b ltac:(done) (cookie_node_fresh _ _ _ _)
    ltac:(intros [?|?]; discriminate)) as H.
  destruct (node_connect 5 0 (nd_address b) a) as [[a1 wire] r].
  destruct (pump 2 0 a1 b wire) as [[a2 b2] rest]. tauto.
Defined.

(** A peer that restarts with a new uid is connected on one side only: the other side has
    replied to its address before and stays silent, so its request times out. *)
Lemma restart_unanswered :
  let a := cookie_node None 1 "a" in
  let b := cookie_node None 2 "b" in
  let '(a1, wire, _) := node_connect 5 0 (nd_address b) a in
  let '(_, b2, _) := pump 3 0 a1 b wire in
  let a' := cookie_node None 3 "a" in
  let '(a1', wire', _) := node_connect 5 100 (nd_address b) a' in
  let '(a3, b3, rest) := pump 3 100 a1' b2 wire' in
  rest = [] ∧ peer_state (nd_address a) (nd_manager b3) = Some Connected ∧
  peer_state (nd_address b) (nd_manager a3) = Some PendingAssoc ∧
  em_endpoints (nd_manager a3) !! Address_to_string (nd_address b) = None.
Proof. by vm_compute. Qed.
