(* ===== verification/Chunking.v ===== *)
(** * Chunking of large messages ([crates/atomr-remote/src/chunking.rs])

    The wire form of a chunk, the chunker of the sender and the reassembler of the
    receiver.  A [usize] length is a [nat]; an index out of range is a panic, the [None]
    of [Reassembler_push]. *)

From stdpp Require Import gmap strings list.
From Stdlib Require Import NArith Lia.
From S2P Require Import Prelude Encoding.

(** ** Chunks *)

Inductive ChunkError :=
  | InvalidIndex (idx total : N)
  | SizeMismatch (msg previous now : N).

Record Chunk := mkChunk {
  message_id : N;
  chunk_idx : N;
  total_chunks : N;
  chunk_payload : Bytes;
}.

#[export] Instance Chunk_eq_dec : EqDecision Chunk.
Proof. solve_decision. Defined.

Definition Chunk_to_wire (c : Chunk) : Bytes :=
  to_le_bytes 8 (message_id c) ++ to_le_bytes 4 (chunk_idx c) ++
  to_le_bytes 4 (total_chunks c) ++ chunk_payload c.

Definition Chunk_from_wire (bs : Bytes) : option Chunk :=
  if length bs <? 16 then None
  else Some (mkChunk (from_le_bytes (take 8 bs)) (from_le_bytes (take 4 (drop 8 bs)))
               (from_le_bytes (take 4 (drop 12 bs))) (drop 16 bs)).

(** ** The sender *)

(** [payload.chunks(n)]; a round takes at least one byte when [n >= 1]. *)
Fixpoint chunks_fuel (fuel n : nat) (l : Bytes) : list Bytes :=
  match fuel with
  | O => []
  | S fuel' =>
      match l with
      | [] => []
      | _ => take n l :: chunks_fuel fuel' n (drop n l)
      end
  end.
Definition chunks (n : nat) (l : Bytes) : list Bytes := chunks_fuel (length l) n l.

Definition div_ceil (a b : nat) : nat := if a mod b =? 0 then a / b else a / b + 1.

Record Chunker := mkChunker { chunk_size : nat }.

(** [None] is the failed assertion. *)
Definition Chunker_new (n : nat) : option Chunker := if 1 <=? n then Some (mkChunker n) else None.

Definition Chunker_split (k : Chunker) (id : N) (data : Bytes) : list Chunk :=
  match data with
  | [] => [mkChunk id 0 1 []]
  | _ =>
      let total := div_ceil (length data) (chunk_size k) in
      imap (λ i p, mkChunk id (wrap32 (N.of_nat i)) (wrap32 (N.of_nat total)) p)
        (chunks (chunk_size k) data)
  end.

(** ** The receiver *)

Record Pending := mkPending {
  p_total : N;
  p_chunks : list (option Bytes);
  p_received : N;
  p_started_at : N;
}.

Record Reassembler := mkReassembler { r_pending : gmap N Pending }.

Definition Reassembler_new : Reassembler := mkReassembler ∅.

Definition Pending_new (now total : N) : Pending :=
  mkPending total (replicate (N.to_nat total) None) 0 now.

(** [pending.chunks.into_iter().flatten()], concatenated. *)
Definition flatten_chunks (cs : list (option Bytes)) : Bytes := mjoin (omap id cs).

Definition Reassembler_push (now : N) (c : Chunk) (r : Reassembler)
    : option (Reassembler * (ChunkError + option Bytes)) :=
  if (total_chunks c =? 0)%N || (total_chunks c <=? chunk_idx c)%N
  then Some (r, inl (InvalidIndex (chunk_idx c) (total_chunks c)))
  else
    let entry := default (Pending_new now (total_chunks c)) (r_pending r !! message_id c) in
    let r1 := mkReassembler (<[message_id c := entry]> (r_pending r)) in
    if negb (p_total entry =? total_chunks c)%N
    then Some (r1, inl (SizeMismatch (message_id c) (p_total entry) (total_chunks c)))
    else
      let i := N.to_nat (chunk_idx c) in
      match p_chunks entry !! i with
      | None => None
      | Some slot =>
          let entry' :=
            match slot with
            | Some _ => entry
            | None => mkPending (p_total entry) (<[i := Some (chunk_payload c)]> (p_chunks entry))
                        (u32_add (p_received entry) 1) (p_started_at entry)
            end in
          if (p_received entry' <? p_total entry')%N
          then Some (mkReassembler (<[message_id c := entry']> (r_pending r)), inr None)
          else Some (mkReassembler (delete (message_id c) (r_pending r)),
                     inr (Some (flatten_chunks (p_chunks entry'))))
      end.

Definition pending_message_count (r : Reassembler) : nat := size (r_pending r).

(** Returns the number of entries swept. *)
Definition gc_expired (now older_than : N) (r : Reassembler) : Reassembler * nat :=
  let kept := filter (λ p, (now - p_started_at p.2 < older_than)%N) (r_pending r) in
  (mkReassembler kept, size (r_pending r) - size kept).

(** Chunks pushed one after another, each with its arrival time; [None] is a panic. *)
Fixpoint push_all (cs : list (N * Chunk)) (r : Reassembler)
    : option (Reassembler * list (N * (ChunkError + option Bytes))) :=
  match cs with
  | [] => Some (r, [])
  | (now, c) :: cs' =>
      '(r1, res) ← Reassembler_push now c r;
      '(r2, out) ← push_all cs' r1;
      Some (r2, (message_id c, res) :: out)
  end.

(** ** The wire form *)

(** The fields are within their widths. *)
Definition Chunk_ok (c : Chunk) : Prop :=
  (message_id c < u64_modulus)%N ∧ (chunk_idx c < u32_modulus)%N ∧
  (total_chunks c < u32_modulus)%N.

Lemma Chunk_from_to_wire c : Chunk_ok c → Chunk_from_wire (Chunk_to_wire c) = Some c.
Proof.
  intros (Hm & Hi & Ht). unfold Chunk_from_wire, Chunk_to_wire.
  set (a := to_le_bytes 8 (message_id c)). set (b := to_le_bytes 4 (chunk_idx c)).
  set (d := to_le_bytes 4 (total_chunks c)).
  assert (length a = 8) as La by apply to_le_bytes_length.
  assert (length b = 4) as Lb by apply to_le_bytes_length.
  assert (length d = 4) as Ld by apply to_le_bytes_length.
  rewrite !length_app, La, Lb, Ld. cbn [Nat.ltb Nat.leb Nat.add].
  rewrite take_app_length' by done.
  rewrite (drop_app_length' a) by done. rewrite take_app_length' by done.
  replace 12 with (length (a ++ b)) by (rewrite length_app; lia).
  rewrite (app_assoc a b), drop_app_length, take_app_length' by done.
  rewrite (app_assoc (a ++ b) d). rewrite drop_app_length' by (rewrite !length_app; lia).
  unfold a, b, d.
  rewrite !from_to_le_bytes by (rewrite ?pow_256_8, ?pow_256_4; assumption).
  by destruct c.
Qed.

Lemma Chunk_to_from_wire bs c :
  Chunk_from_wire bs = Some c → Chunk_ok c ∧ Chunk_to_wire c = bs.
Proof.
  unfold Chunk_from_wire. destruct (Nat.ltb_spec (length bs) 16) as [|Hlen]; [done|].
  intros [= <-].
  assert (L8 : length (take 8 bs) = 8) by (rewrite length_take; lia).
  assert (L12 : length (take 4 (drop 8 bs)) = 4) by (rewrite length_take, length_drop; lia).
  assert (L16 : length (take 4 (drop 12 bs)) = 4) by (rewrite length_take, length_drop; lia).
  split.
  - unfold Chunk_ok. cbn. pose proof (from_le_bytes_bound (take 8 bs)) as H1.
    pose proof (from_le_bytes_bound (take 4 (drop 8 bs))) as H2.
    pose proof (from_le_bytes_bound (take 4 (drop 12 bs))) as H3.
    rewrite L8, pow_256_8 in H1. rewrite L12, pow_256_4 in H2. rewrite L16, pow_256_4 in H3.
    auto.
  - unfold Chunk_to_wire. cbn [message_id chunk_idx total_chunks chunk_payload].
    rewrite (to_from_le_bytes 8), !(to_from_le_bytes 4) by done.
    replace (drop 16 bs) with (drop 4 (drop 12 bs)) by (by rewrite drop_drop).
    rewrite take_drop. replace (drop 12 bs) with (drop 4 (drop 8 bs)) by (by rewrite drop_drop).
    by rewrite take_drop, take_drop.
Qed.

(** ** The fragments of a message *)

Record fragments (id : N) (cs : list Chunk) : Prop := {
  fr_chunk : ∀ i c, cs !! i = Some c →
    message_id c = id ∧ chunk_idx c = N.of_nat i ∧ total_chunks c = N.of_nat (length cs);
  fr_nonempty : cs ≠ [];
  fr_bound : (N.of_nat (length cs) < u32_modulus)%N;
}.

Lemma chunks_fuel_join fuel n l :
  1 ≤ n → length l ≤ fuel → mjoin (chunks_fuel fuel n l) = l.
Proof.
  intros Hn. revert l; induction fuel as [|fuel IH]; intros l Hl; cbn [chunks_fuel].
  { by destruct l; [|cbn in Hl; lia]. }
  destruct l as [|b l]; [done|].
  change (take n (b :: l) ++ mjoin (chunks_fuel fuel n (drop n (b :: l))) = b :: l).
  rewrite IH; [apply take_drop|]. rewrite length_drop. cbn in Hl |- *. lia.
Qed.

Lemma div_ceil_step a n : 1 ≤ n → n < a → div_ceil a n = S (div_ceil (a - n) n).
Proof.
  intros Hn Ha. unfold div_ceil.
  assert (∃ m, a - n = m ∧ a = m + 1 * n) as (m & -> & ->) by (exists (a - n); lia).
  rewrite Nat.Div0.mod_add, Nat.div_add by lia. case_match; lia.
Qed.

Lemma div_ceil_small a n : 1 ≤ a → a ≤ n → div_ceil a n = 1.
Proof.
  intros Ha Hn. unfold div_ceil. destruct (decide (a = n)) as [->|Hne].
  - rewrite Nat.Div0.mod_same, Nat.div_same by lia. done.
  - rewrite Nat.mod_small, Nat.div_small by lia. destruct a; [lia|done].
Qed.

Lemma chunks_fuel_length fuel n l :
  1 ≤ n → length l ≤ fuel → length (chunks_fuel fuel n l) = div_ceil (length l) n.
Proof.
  intros Hn. revert l; induction fuel as [|fuel IH]; intros l Hl; cbn [chunks_fuel].
  { destruct l; [|cbn in Hl; lia]. unfold div_ceil. cbn [length].
    by rewrite Nat.Div0.mod_0_l, Nat.Div0.div_0_l. }
  destruct l as [|b l].
  { unfold div_ceil. cbn [length]. by rewrite Nat.Div0.mod_0_l, Nat.Div0.div_0_l. }
  cbn [length]. rewrite IH by (rewrite length_drop; cbn in Hl |- *; lia).
  rewrite length_drop. cbn [length]. destruct (decide (S (length l) ≤ n)) as [Hle|Hlt].
  - rewrite (div_ceil_small (S (length l))) by lia.
    replace (S (length l) - n) with 0 by lia. unfold div_ceil.
    by rewrite Nat.Div0.mod_0_l, Nat.Div0.div_0_l.
  - rewrite (div_ceil_step (S (length l))) by lia. done.
Qed.

Lemma Chunker_split_fragments k id data :
  1 ≤ chunk_size k → (N.of_nat (div_ceil (length data) (chunk_size k)) < u32_modulus)%N →
  fragments id (Chunker_split k id data) ∧
  mjoin (chunk_payload <$> Chunker_split k id data) = data.
Proof.
  intros Hk Hb. unfold Chunker_split. destruct data as [|b data].
  { split; [|done]. split; [|done|cbn; unfold u32_modulus; lia].
    intros i c Hi. apply list_lookup_singleton_Some in Hi as [-> <-]. done. }
  remember (b :: data) as l eqn:Hl.
  pose proof (chunks_fuel_length (length l) (chunk_size k) l Hk ltac:(lia)) as Hlen.
  fold (chunks (chunk_size k) l) in Hlen.
  assert (Hpos : 1 ≤ length (chunks (chunk_size k) l)) by (subst l; cbn; lia).
  split; [split|].
  - intros i c Hi. rewrite list_lookup_imap in Hi.
    destruct (chunks (chunk_size k) l !! i) as [p|] eqn:Hp; [|done]. clear Hl.
    injection Hi as <-. apply lookup_lt_Some in Hp.
    cbn [message_id chunk_idx total_chunks]. rewrite length_imap, Hlen. unfold wrap32.
    rewrite !N.mod_small by lia. done.
  - intros Hnil. apply (f_equal length) in Hnil. rewrite length_imap in Hnil. cbn in Hnil. lia.
  - rewrite length_imap, Hlen. done.
  - rewrite fmap_imap. etrans; [|apply (chunks_fuel_join (length l) (chunk_size k)); lia].
    f_equal. unfold chunks. apply list_eq. intros i. rewrite list_lookup_imap. cbn.
    by destruct (chunks_fuel _ _ _ !! i).
Qed.

(** ** Reassembly *)

(** Every entry has as many slots as its total. *)
Definition Reassembler_wf (r : Reassembler) : Prop :=
  ∀ id p, r_pending r !! id = Some p → length (p_chunks p) = N.to_nat (p_total p).

Lemma Reassembler_push_wf now c r :
  Reassembler_wf r →
  ∃ r' res, Reassembler_push now c r = Some (r', res) ∧ Reassembler_wf r' ∧
    (∀ id, id ≠ message_id c → r_pending r' !! id = r_pending r !! id).
Proof.
  intros Hwf. unfold Reassembler_push.
  destruct ((total_chunks c =? 0)%N || (total_chunks c <=? chunk_idx c)%N) eqn:Hidx.
  { do 2 eexists. split; [done|]. auto. }
  apply orb_false_iff in Hidx as [_ Hidx%N.leb_gt].
  set (entry := default _ _).
  assert (He : length (p_chunks entry) = N.to_nat (p_total entry)).
  { unfold entry. destruct (r_pending r !! message_id c) eqn:E; cbn; [eauto|].
    apply length_replicate. }
  assert (Hins : ∀ p, length (p_chunks p) = N.to_nat (p_total p) →
            Reassembler_wf (mkReassembler (<[message_id c := p]> (r_pending r)))).
  { intros p Hp id q. cbn. intros [[<- <-]|[_ Hq]]%lookup_insert_Some; [done|eauto]. }
  destruct (N.eqb_spec (p_total entry) (total_chunks c)) as [Ht|Ht]; cbn [negb].
  2: { do 2 eexists. split; [done|]. split; [by apply Hins|]. intros id Hne. cbn.
       by rewrite lookup_insert_ne. }
  destruct (lookup_lt_is_Some_2 (p_chunks entry) (N.to_nat (chunk_idx c))) as [slot ->]; [lia|].
  set (entry' := match slot with Some _ => _ | None => _ end).
  assert (He' : length (p_chunks entry') = N.to_nat (p_total entry')).
  { unfold entry'. destruct slot; cbn; [done|]. by rewrite length_insert. }
  destruct (p_received entry' <? p_total entry')%N; do 2 eexists; (split; [done|]).
  - split; [by apply Hins|]. intros id Hne. cbn. by rewrite lookup_insert_ne.
  - split; [|intros id Hne; cbn; by rewrite lookup_delete_ne].
    intros id q. cbn. intros [_ Hq]%lookup_delete_Some. eauto.
Qed.

Section reassembly.
Context (id : N) (cs : list Chunk) (Hcs : fragments id cs).

(** The slots after the chunks [pre] have arrived, and how many are filled. *)
Definition slot_of (pre : list Chunk) (c : Chunk) : option Bytes :=
  if decide (c ∈ pre) then Some (chunk_payload c) else None.
Definition slots (pre : list Chunk) : list (option Bytes) := slot_of pre <$> cs.
Definition got (pre : list Chunk) : nat := length (filter (λ c, c ∈ pre) cs).

Definition collecting (pre : list Chunk) (r : Reassembler) : Prop :=
  ∃ t, r_pending r !! id =
    if decide (got pre = 0) then None
    else Some (mkPending (N.of_nat (length cs)) (slots pre) (N.of_nat (got pre)) t).

Lemma fragments_unique i j c : cs !! i = Some c → cs !! j = Some c → i = j.
Proof.
  intros Hi Hj. destruct (fr_chunk _ _ Hcs _ _ Hi) as (_ & Hi' & _).
  destruct (fr_chunk _ _ Hcs _ _ Hj) as (_ & Hj' & _). lia.
Qed.

Lemma fragments_NoDup : NoDup cs.
Proof. apply NoDup_alt. intros i j c. apply fragments_unique. Qed.

Lemma got_le pre : got pre ≤ length cs.
Proof. apply length_filter. Qed.

Lemma got_all pre : got pre = length cs ↔ Forall (λ c, c ∈ pre) cs.
Proof.
  unfold got. split.
  - apply filter_length_all.
  - intros Hall. by rewrite filter_all.
Qed.

Lemma got_snoc_old pre c : c ∈ pre → got (pre ++ [c]) = got pre ∧ slots (pre ++ [c]) = slots pre.
Proof.
  intros Hc.
  assert (Hiff : ∀ d, d ∈ pre ++ [c] ↔ d ∈ pre).
  { intros d. rewrite elem_of_app, list_elem_of_singleton. split; [intros [?| ->]|]; auto. }
  split.
  - unfold got. f_equal. by apply list_filter_iff.
  - unfold slots. apply list_fmap_ext. intros i d _. unfold slot_of.
    by destruct (decide (d ∈ pre ++ [c])) as [?%Hiff|Hn], (decide (d ∈ pre)) as [?|?];
      try done; destruct Hn; apply Hiff.
Qed.

Lemma slots_snoc_new pre c i :
  cs !! i = Some c → c ∉ pre → slots (pre ++ [c]) = <[i := Some (chunk_payload c)]> (slots pre).
Proof.
  intros Hi Hc. apply lookup_lt_Some in Hi as Hlt. unfold slots. apply list_eq. intros j.
  rewrite list_lookup_fmap. destruct (decide (j = i)) as [->|Hj].
  - rewrite list_lookup_insert_eq by (by rewrite length_fmap). rewrite Hi. cbn. f_equal.
    unfold slot_of. rewrite decide_True; [done|]. apply elem_of_app. right. by left.
  - rewrite list_lookup_insert_ne, list_lookup_fmap by done.
    destruct (cs !! j) as [d|] eqn:Hd; [|done]. cbn. f_equal. unfold slot_of.
    assert (Hne : d ≠ c) by (intros ->; by apply Hj, (fragments_unique j i c)).
    destruct (decide (d ∈ pre)) as [Hin|Hout].
    + rewrite decide_True; [done|]. apply elem_of_app. by left.
    + rewrite decide_False; [done|]. intros [?|?%list_elem_of_singleton]%elem_of_app; done.
Qed.

Lemma got_snoc_new pre c : c ∈ cs → c ∉ pre → got (pre ++ [c]) = S (got pre).
Proof.
  intros Hc Hpre. unfold got. pose proof fragments_NoDup as Hnd.
  apply list_elem_of_split in Hc as (l1 & l2 & Heq). rewrite Heq in Hnd |- *.
  apply NoDup_app in Hnd as (_ & Hn1 & [Hn2 _]%NoDup_cons).
  assert (Hsame : ∀ l : list Chunk, c ∉ l → filter (λ d, d ∈ pre ++ [c]) l = filter (λ d, d ∈ pre) l).
  { intros l. induction l as [|d l IH]; [done|]. intros [Hd Hl]%not_elem_of_cons.
    rewrite !filter_cons, IH by done.
    destruct (decide (d ∈ pre)) as [Hin|Hout].
    - rewrite decide_True; [done|]. apply elem_of_app. by left.
    - rewrite decide_False; [done|]. by intros [?|?%list_elem_of_singleton]%elem_of_app. }
  rewrite !filter_app, !length_app, !filter_cons, !Hsame; [|done|].
  2: { intros Hin. apply (Hn1 c Hin). by left. }
  rewrite decide_True by (apply elem_of_app; right; by left).
  rewrite decide_False by done. cbn. lia.
Qed.

Lemma slots_none pre : got pre = 0 → slots pre = replicate (length cs) None.
Proof.
  unfold got, slots. clear Hcs. induction cs as [|c l IH]; [done|]. rewrite filter_cons.
  cbn [fmap list_fmap length replicate]. destruct (decide (c ∈ pre)) as [|Hc]; [done|].
  intros Hl. f_equal; [|by apply IH]. unfold slot_of. by rewrite decide_False.
Qed.

Lemma slots_all pre :
  Forall (λ c, c ∈ pre) cs → flatten_chunks (slots pre) = mjoin (chunk_payload <$> cs).
Proof.
  intros Hall. unfold flatten_chunks, slots. f_equal. clear Hcs. induction Hall as [|c l Hc Hl IH]; [done|].
  cbn [fmap list_fmap]. assert (slot_of pre c = Some (chunk_payload c)) as ->
    by (unfold slot_of; by rewrite decide_True).
  exact (f_equal (cons (chunk_payload c)) IH).
Qed.

Lemma collecting_entry now pre r :
  collecting pre r →
  ∃ t, default (Pending_new now (N.of_nat (length cs))) (r_pending r !! id) =
    mkPending (N.of_nat (length cs)) (slots pre) (N.of_nat (got pre)) t.
Proof.
  intros [t ->]. case_decide as Hz; [|by exists t]. exists now. cbn. unfold Pending_new.
  by rewrite slots_none, Hz, Nat2N.id.
Qed.

Definition complete (pre : list Chunk) : Prop := Forall (λ c, c ∈ pre) cs.
#[local] Instance complete_dec pre : Decision (complete pre).
Proof. unfold complete. apply _. Defined.

(** A chunk of the message arrives: the payload comes out with the last missing one. *)
Lemma push_fragment now c pre r :
  collecting pre r → c ∈ cs → ¬ complete pre →
  ∃ r', Reassembler_push now c r =
      Some (r', inr (if decide (complete (pre ++ [c]))
                     then Some (mjoin (chunk_payload <$> cs)) else None)) ∧
    if decide (complete (pre ++ [c])) then r_pending r' !! id = None
    else collecting (pre ++ [c]) r'.
Proof.
  intros Hr Hc Hnot. destruct (proj1 (list_elem_of_lookup _ _) Hc) as [i Hi].
  destruct (fr_chunk _ _ Hcs _ _ Hi) as (Hid & Hidx & Htot). apply lookup_lt_Some in Hi as Hlt.
  destruct (collecting_entry now pre r Hr) as [t Ht]. pose proof (got_le pre) as Hgle.
  assert (Hg : got pre < length cs).
  { destruct (decide (got pre = length cs)) as [?%got_all|]; [done|lia]. }
  pose proof (fr_bound _ _ Hcs) as Hb.
  unfold Reassembler_push. rewrite Hid, Hidx, Htot, Ht.
  destruct (N.eqb_spec (N.of_nat (length cs)) 0); [lia|].
  destruct (N.leb_spec (N.of_nat (length cs)) (N.of_nat i)); [lia|]. cbn [orb].
  cbn [p_total p_chunks p_received p_started_at]. rewrite N.eqb_refl, Nat2N.id. cbn [negb].
  assert (Hslot : slots pre !! i = Some (slot_of pre c))
    by (unfold slots; by rewrite list_lookup_fmap, Hi).
  rewrite Hslot. set (e := match slot_of pre c with Some _ => _ | None => _ end).
  assert (Hent : e = mkPending (N.of_nat (length cs)) (slots (pre ++ [c]))
                       (N.of_nat (got (pre ++ [c]))) t).
  { unfold e, slot_of. destruct (decide (c ∈ pre)) as [Hin|Hout].
    - by destruct (got_snoc_old pre c Hin) as [-> ->].
    - rewrite (slots_snoc_new pre c i) by done. rewrite got_snoc_new by done.
      f_equal. rewrite u32_add_small; lia. }
  rewrite Hent. clear e Hent. cbn [p_received p_total p_chunks].
  pose proof (got_all (pre ++ [c])) as Hall. pose proof (got_le (pre ++ [c])).
  destruct (N.ltb_spec (N.of_nat (got (pre ++ [c]))) (N.of_nat (length cs))) as [Hlt'|Hge].
  - destruct (decide (complete (pre ++ [c]))) as [Hc'|_]; [apply Hall in Hc'; lia|].
    eexists. split; [done|]. exists t. cbn. rewrite lookup_insert_eq, decide_False; [done|].
    destruct (decide (c ∈ pre)) as [Hin|Hout]; [|by rewrite got_snoc_new].
    intros Hz. unfold got in Hz. apply length_zero_iff_nil in Hz.
    assert (c ∈ filter (λ d, d ∈ pre ++ [c]) cs) as Hmem.
    { apply list_elem_of_filter. split; [|done]. apply elem_of_app. by left. }
    rewrite Hz in Hmem. by apply elem_of_nil in Hmem.
  - destruct (decide (complete (pre ++ [c]))) as [Hc'|Hc']; [|destruct Hc'; apply Hall; lia].
    rewrite slots_all by done.
    eexists. split; [done|]. apply lookup_delete_eq.
Qed.

Lemma push_all_snoc l now c r :
  push_all (l ++ [(now, c)]) r =
    '(r1, out) ← push_all l r;
    '(r2, res) ← Reassembler_push now c r1;
    Some (r2, out ++ [(message_id c, res)]).
Proof.
  revert r; induction l as [|[now' c'] l IH]; intros r; cbn [app push_all].
  - cbn. by destruct (Reassembler_push now c r) as [[r2 res]|].
  - destruct (Reassembler_push now' c' r) as [[r1 res1]|]; [|done]. cbn. rewrite IH.
    destruct (push_all l r1) as [[r2 out]|]; [|done]. cbn.
    by destruct (Reassembler_push now c r2) as [[r3 res3]|].
Qed.

(** Before the message is complete its chunks give nothing; chunks of other messages do
    not matter. *)
Lemma push_all_collecting (arr : list (N * Chunk)) :
  Forall (λ x, message_id x.2 = id → x.2 ∈ cs) arr → ¬ complete arr.*2 →
  ∃ r out, push_all arr Reassembler_new = Some (r, out) ∧ Reassembler_wf r ∧
    collecting arr.*2 r ∧ (∀ res, (id, res) ∈ out → res = inr None).
Proof.
  induction arr as [|[now c] arr IH] using rev_ind; intros Hin Hnot.
  { exists Reassembler_new, []. split; [done|]. split; [by intros ? ?|]. split.
    - exists 0%N. rewrite decide_True; [done|]. unfold got.
      rewrite (list_filter_iff _ (λ _, False)); [|intros ?; by rewrite elem_of_nil].
      clear. by induction cs.
    - intros res Hres. by apply elem_of_nil in Hres. }
  apply Forall_app in Hin as [Hin Hlast%Forall_inv]. cbn in Hlast.
  rewrite fmap_app in Hnot |- *. cbn in Hnot |- *.
  destruct IH as (r & out & Hpush & Hwf & Hcol & Hout); [done| |].
  { intros Hc. apply Hnot. unfold complete in *. rewrite Forall_forall in Hc |- *.
    intros d Hd. apply elem_of_app. left. by apply Hc. }
  destruct (Reassembler_push_wf now c r Hwf) as (r' & res & Hp & Hwf' & Hother).
  rewrite push_all_snoc, Hpush. cbn. rewrite Hp. cbn.
  exists r', (out ++ [(message_id c, res)]). split; [done|]. split; [done|].
  destruct (decide (message_id c = id)) as [Hid|Hid].
  - destruct (push_fragment now c arr.*2 r Hcol (Hlast Hid)) as (r2 & Hp2 & Hres).
    { intros Hc. apply Hnot. unfold complete in *. rewrite Forall_forall in Hc |- *.
      intros d Hd. apply elem_of_app. left. by apply Hc. }
    rewrite Hp in Hp2. destruct (decide (complete (arr.*2 ++ [c]))); [done|]. simplify_eq.
    split; [done|]. intros res [?|Heq%list_elem_of_singleton]%elem_of_app; [auto|]. congruence.
  - split.
    + destruct Hcol as [t Ht]. exists t. rewrite Hother by congruence. rewrite Ht.
      assert (Hsame : ∀ d, d ∈ cs → d ∈ arr.*2 ++ [c] ↔ d ∈ arr.*2).
      { intros d Hd. rewrite elem_of_app, list_elem_of_singleton. split; [|tauto].
        intros [?| ->]; [done|]. destruct Hid.
        apply list_elem_of_lookup in Hd as [j Hj]. by destruct (fr_chunk _ _ Hcs _ _ Hj). }
      assert (got (arr.*2 ++ [c]) = got arr.*2) as ->.
      { unfold got. f_equal. clear -Hsame. induction cs as [|d l IH]; [done|].
        rewrite !filter_cons, IH by (intros; apply Hsame; by right).
        specialize (Hsame d ltac:(by left)).
        destruct (decide (d ∈ arr.*2 ++ [c])), (decide (d ∈ arr.*2)); tauto. }
      assert (slots (arr.*2 ++ [c]) = slots arr.*2) as ->; [|done].
      unfold slots. apply list_fmap_ext. intros j d Hj. unfold slot_of.
      apply list_elem_of_lookup_2 in Hj. specialize (Hsame d Hj).
      destruct (decide (d ∈ arr.*2 ++ [c])), (decide (d ∈ arr.*2)); tauto.
    + intros res' [?|Heq%list_elem_of_singleton]%elem_of_app; [auto|]. congruence.
Qed.
End reassembly.

(** C25: A message split by the sender is reassembled by the receiver whatever the order in
    which its chunks arrive and however often each is repeated, among any chunks of other
    messages: nothing comes out until the last missing chunk, which yields exactly the
    original bytes and frees the entry, and no push panics.  Every chunk survives its
    trip over the wire, and the wire form has no other reading. *)
Theorem chunk_roundtrip (k : Chunker) (mid : N) (data : Bytes) (arr : list (N * Chunk))
    (now : N) (c : Chunk) :
  1 ≤ chunk_size k → (mid < u64_modulus)%N →
  (N.of_nat (div_ceil (length data) (chunk_size k)) < u32_modulus)%N →
  Forall (λ x, message_id x.2 = mid → x.2 ∈ Chunker_split k mid data) arr →
  c ∈ Chunker_split k mid data →
  ¬ complete (Chunker_split k mid data) arr.*2 →
  complete (Chunker_split k mid data) (arr.*2 ++ [c]) →
  (∃ r out,
     push_all (arr ++ [(now, c)]) Reassembler_new = Some (r, out ++ [(mid, inr (Some data))]) ∧
     (∀ res, (mid, res) ∈ out → res = inr None) ∧ r_pending r !! mid = None) ∧
  (∀ d, d ∈ Chunker_split k mid data → Chunk_from_wire (Chunk_to_wire d) = Some d) ∧
  (∀ bs d, Chunk_from_wire bs = Some d → Chunk_to_wire d = bs).
Proof.
  intros Hk Hm Hb Harr Hc Hnot Hall.
  destruct (Chunker_split_fragments k mid data Hk Hb) as [Hfr Hjoin]. split_and!.
  - destruct (push_all_collecting mid _ Hfr arr Harr Hnot) as (r & out & Hpush & _ & Hcol & Hout).
    destruct (push_fragment mid _ Hfr now c arr.*2 r Hcol Hc Hnot) as (r' & Hp & Hr').
    destruct (decide (complete _ _)) as [_|]; [|done].
    assert (Hid : message_id c = mid).
    { apply list_elem_of_lookup in Hc as [i Hi]. by destruct (fr_chunk _ _ Hfr _ _ Hi). }
    exists r', out. rewrite push_all_snoc, Hpush. cbn. rewrite Hp. cbn. by rewrite Hid, Hjoin.
  - intros d [i Hi]%list_elem_of_lookup. destruct (fr_chunk _ _ Hfr _ _ Hi) as (H1 & H2 & H3).
    apply lookup_lt_Some in Hi as Hlt. pose proof (fr_bound _ _ Hfr).
    apply Chunk_from_to_wire. unfold Chunk_ok. rewrite H1, H2, H3. split_and!; [done|lia|done].
  - intros bs d Hd. by apply Chunk_to_from_wire.
Qed.

Lemma chunk_roundtrip_witness :
  let data := [Byte.x01; Byte.x02; Byte.x03; Byte.x04; Byte.x05] in
  let cs := Chunker_split (mkChunker 2) 7 data in
  let c0 := mkChunk 7 0 3 [Byte.x01; Byte.x02] in
  let c1 := mkChunk 7 1 3 [Byte.x03; Byte.x04] in
  let c2 := mkChunk 7 2 3 [Byte.x05] in
  let other := mkChunk 8 0 0 [] in
  cs = [c0; c1; c2] ∧
  ∃ r out,
    push_all ([(0%N, c2); (1%N, other); (2%N, c0); (3%N, c2)] ++ [(4%N, c1)]) Reassembler_new =
      Some (r, out ++ [(7%N, inr (Some data))]).
Proof.
  intros data cs c0 c1 c2 other. split; [reflexivity|].
  destruct (chunk_roundtrip (mkChunker 2) 7 data
    [(0%N, c2); (1%N, other); (2%N, c0); (3%N, c2)] 4 c1) as [(r & out & H & _) _].
  - cbn. lia.
  - reflexivity.
  - reflexivity.
  - repeat (constructor; [intros Hid; try discriminate Hid; vm_compute|]); [| | |constructor].
    + right; right; left.
    + left.
    + right; right; left.
  - vm_compute. right; left.
  - intros Hc. apply Forall_inv_tail, Forall_inv in Hc. vm_compute in Hc.
    repeat (apply elem_of_cons in Hc as [Hc|Hc]; [discriminate Hc|]). by apply elem_of_nil in Hc.
  - vm_compute. repeat constructor.
  - exists r, out. exact H.
Defined.
