(* ===== verification/Sharding.v ===== *)
(** * Shard allocation and rebalancing
    ([crates/atomr-cluster-sharding/src/allocation.rs], [coordinator.rs], [handoff.rs],
    [rebalance.rs])

    A coordinator keeps the table shard to region; a strategy places new shards and picks
    the ones to move; the hand-off state machine drains a shard at its old region before
    it starts at the new one; the runner combines the three. *)

From stdpp Require Import gmap strings list sorting.
From Stdlib Require Import NArith Lia.
From S2P Require Import Prelude.

(** ** Strategies *)

(** The trait; [None] of [allocate_shard] means that there is no region. *)
Class ShardAllocationStrategy (S : Type) := {
  allocate_shard : S → string → gmap string nat → option string;
  strategy_rebalance : S → gmap string string → gmap string nat → list string;
}.

(** Fewest shards first, then the lesser name. *)
Definition entry_le (a b : string * nat) : Prop :=
  a.2 < b.2 ∨ (a.2 = b.2 ∧ String.le a.1 b.1).
#[export] Instance entry_le_dec a b : Decision (entry_le a b).
Proof. unfold entry_le. apply _. Defined.

Record LeastShardAllocationStrategy := mkLeastShard {
  max_simultaneous_rebalance : nat;
  rebalance_threshold : nat;
}.

Definition LeastShard_default : LeastShardAllocationStrategy := mkLeastShard 3 1.

Definition LeastShard_allocate_shard (s : LeastShardAllocationStrategy) (_shard : string)
    (regions : gmap string nat) : option string :=
  fst <$> head (merge_sort entry_le (map_to_list regions)).

(** [values().max()] and [values().min()], [0] for no values. *)
Definition values_max (regions : gmap string nat) : nat := foldr max 0 (map_to_list regions).*2.
Definition values_min (regions : gmap string nat) : nat :=
  match (map_to_list regions).*2 with
  | [] => 0
  | x :: l => foldr min x l
  end.

(** The most loaded regions, and the shards that live on them. *)
Definition max_regions (regions : gmap string nat) : list string :=
  merge_sort String.le (filter (λ p, p.2 = values_max regions) (map_to_list regions)).*1.
Definition candidates (current : gmap string string) (regions : gmap string nat) : list string :=
  (filter (λ p, p.2 ∈ max_regions regions) (map_to_list current)).*1.

Definition LeastShard_rebalance (s : LeastShardAllocationStrategy)
    (current : gmap string string) (regions : gmap string nat) : list string :=
  if size regions <? 2 then []
  else
    let mx := values_max regions in
    let mn := values_min regions in
    if mx - mn <? rebalance_threshold s then []
    else take (max_simultaneous_rebalance s) (merge_sort String.le (candidates current regions)).

#[export] Instance LeastShard_Strategy
    : ShardAllocationStrategy LeastShardAllocationStrategy := {
  allocate_shard := LeastShard_allocate_shard;
  strategy_rebalance := LeastShard_rebalance;
}.

Record PinnedAllocationStrategy := mkPinned { pinned_region : string }.

#[export] Instance Pinned_Strategy : ShardAllocationStrategy PinnedAllocationStrategy := {
  allocate_shard s _ _ := Some (pinned_region s);
  strategy_rebalance _ _ _ := [];
}.

(** ** The coordinator *)

Record ShardCoordinator := mkShardCoordinator { allocation : gmap string string }.

Definition ShardCoordinator_new : ShardCoordinator := mkShardCoordinator ∅.

Definition region_shard_counts (allocations : gmap string string) : gmap string nat :=
  map_fold (λ _ region out, entry_update 0 S region out) ∅ allocations.

Definition ShardCoordinator_allocate (shard default_region : string) (c : ShardCoordinator)
    : ShardCoordinator * string :=
  let region := default default_region (allocation c !! shard) in
  (mkShardCoordinator (<[shard := region]> (allocation c)), region).

Definition ShardCoordinator_allocate_with_strategy {S} `{ShardAllocationStrategy S}
    (shard : string) (strategy : S) (c : ShardCoordinator) : ShardCoordinator * option string :=
  match allocate_shard strategy shard (region_shard_counts (allocation c)) with
  | None => (c, None)
  | Some chosen => (mkShardCoordinator (<[shard := chosen]> (allocation c)), Some chosen)
  end.

Definition ShardCoordinator_rebalance_with_strategy {S} `{ShardAllocationStrategy S}
    (strategy : S) (c : ShardCoordinator) : list string :=
  strategy_rebalance strategy (allocation c) (region_shard_counts (allocation c)).

Definition ShardCoordinator_region_for (shard : string) (c : ShardCoordinator) : option string :=
  allocation c !! shard.

Definition ShardCoordinator_rebalance (shard to_region : string) (c : ShardCoordinator)
    : ShardCoordinator :=
  mkShardCoordinator (<[shard := to_region]> (allocation c)).

Definition ShardCoordinator_shard_count (c : ShardCoordinator) : nat := size (allocation c).

Definition ShardCoordinator_allocations (c : ShardCoordinator) : list (string * string) :=
  map_to_list (allocation c).

(** ** Hand-off *)

Inductive HandoffState :=
  | HIdle
  | HBeginning (source_region : string)
  | HHandingOff (source_region : string) (remaining_entities : nat)
  | HStopped (source_region : string)
  | HStarted (source_region target_region : string).

Inductive HandoffError := InvalidTransition (shard : string).

Record HandoffCoordinator := mkHandoffCoordinator { h_states : gmap string HandoffState }.

Definition HandoffCoordinator_new : HandoffCoordinator := mkHandoffCoordinator ∅.

Definition HandoffCoordinator_state (shard : string) (h : HandoffCoordinator) : HandoffState :=
  default HIdle (h_states h !! shard).

Definition h_set (shard : string) (st : HandoffState) (h : HandoffCoordinator)
    : HandoffCoordinator := mkHandoffCoordinator (<[shard := st]> (h_states h)).

Definition HandoffCoordinator_begin (shard source_region : string) (h : HandoffCoordinator)
    : HandoffCoordinator * (HandoffError + unit) :=
  let cur := HandoffCoordinator_state shard h in
  let h1 := h_set shard cur h in
  match cur with
  | HIdle | HStarted _ _ => (h_set shard (HBeginning source_region) h1, inr tt)
  | _ => (h1, inl (InvalidTransition shard))
  end.

Definition HandoffCoordinator_ack_begin (shard : string) (entity_count : nat)
    (h : HandoffCoordinator) : HandoffCoordinator * (HandoffError + unit) :=
  match HandoffCoordinator_state shard h with
  | HBeginning src => (h_set shard (HHandingOff src entity_count) h, inr tt)
  | _ => (h, inl (InvalidTransition shard))
  end.

Definition HandoffCoordinator_entity_stopped (shard : string) (h : HandoffCoordinator)
    : HandoffCoordinator * (HandoffError + unit) :=
  match HandoffCoordinator_state shard h with
  | HHandingOff src remaining =>
      let next := if remaining <=? 1 then HStopped src else HHandingOff src (remaining - 1) in
      (h_set shard next h, inr tt)
  | _ => (h, inl (InvalidTransition shard))
  end.

Definition HandoffCoordinator_start_elsewhere (shard target_region : string)
    (h : HandoffCoordinator) : HandoffCoordinator * (HandoffError + unit) :=
  match HandoffCoordinator_state shard h with
  | HStopped src => (h_set shard (HStarted src target_region) h, inr tt)
  | _ => (h, inl (InvalidTransition shard))
  end.

Definition HandoffCoordinator_forget (shard : string) (h : HandoffCoordinator)
    : HandoffCoordinator := mkHandoffCoordinator (delete shard (h_states h)).

Definition key_le (a b : string * HandoffState) : Prop := String.le a.1 b.1.
#[export] Instance key_le_dec a b : Decision (key_le a b).
Proof. unfold key_le. apply _. Defined.

Definition HandoffCoordinator_snapshot (h : HandoffCoordinator) : list (string * HandoffState) :=
  merge_sort key_le (map_to_list (h_states h)).

(** ** The runner *)

Inductive RebalanceAction :=
  | BeginHandoff (shard source_region : string)
  | Allocate (shard target_region : string).

Section runner.
Context {S : Type} `{ShardAllocationStrategy S}.

Definition runner_allocates (strategy : S) (c : ShardCoordinator) (h : HandoffCoordinator)
    : list RebalanceAction :=
  omap (λ p : string * HandoffState,
          match p.2 with
          | HStopped _ =>
              Allocate p.1 <$> allocate_shard strategy p.1 (region_shard_counts (allocation c))
          | _ => None
          end) (HandoffCoordinator_snapshot h).

Definition runner_begins (strategy : S) (c : ShardCoordinator) (h : HandoffCoordinator)
    : list RebalanceAction :=
  omap (λ shard,
          match HandoffCoordinator_state shard h with
          | HIdle | HStarted _ _ => BeginHandoff shard <$> ShardCoordinator_region_for shard c
          | _ => None
          end) (ShardCoordinator_rebalance_with_strategy strategy c).

Definition RebalanceRunner_step (strategy : S) (c : ShardCoordinator) (h : HandoffCoordinator)
    : list RebalanceAction :=
  runner_allocates strategy c h ++ runner_begins strategy c h.
End runner.

(** What the caller does with an action, with the result of the hand-off call. *)
Definition perform (a : RebalanceAction) (c : ShardCoordinator) (h : HandoffCoordinator)
    : ShardCoordinator * HandoffCoordinator * (HandoffError + unit) :=
  match a with
  | BeginHandoff shard src =>
      let '(h', res) := HandoffCoordinator_begin shard src h in (c, h', res)
  | Allocate shard target =>
      let '(h', res) := HandoffCoordinator_start_elsewhere shard target h in
      (ShardCoordinator_rebalance shard target c, h', res)
  end.

Fixpoint perform_all (actions : list RebalanceAction) (c : ShardCoordinator)
    (h : HandoffCoordinator)
    : ShardCoordinator * HandoffCoordinator * list (HandoffError + unit) :=
  match actions with
  | [] => (c, h, [])
  | a :: actions' =>
      let '(c1, h1, res) := perform a c h in
      let '(c2, h2, out) := perform_all actions' c1 h1 in
      (c2, h2, res :: out)
  end.

(** ** Placement *)

#[export] Instance entry_le_total : Total entry_le.
Proof.
  intros a b. unfold entry_le. destruct (total String.le a.1 b.1); lia || tauto || idtac;
    destruct (decide (a.2 < b.2)), (decide (b.2 < a.2)); auto; [left|right]; right; (split; [lia|done]).
Qed.

#[export] Instance entry_le_trans : Transitive entry_le.
Proof.
  intros a b c [Hab|[Hab Sab]] [Hbc|[Hbc Sbc]]; unfold entry_le; [lia..|].
  right. split; [lia|]. by transitivity b.1.
Qed.

Lemma merge_sort_head {A} (R : A → A → Prop) `{!∀ x y, Decision (R x y)} `{!Total R}
    `{!Transitive R} l x : head (merge_sort R l) = Some x → x ∈ l ∧ ∀ y, y ∈ l → R x y ∨ x = y.
Proof.
  intros Hx. pose proof (merge_sort_Permutation R l) as Hp.
  pose proof (StronglySorted_merge_sort R l) as Hs.
  destruct (merge_sort R l) as [|x' l']; simplify_eq/=. split.
  - rewrite <- Hp. by left.
  - intros y. rewrite <- Hp. intros [->|Hy]%elem_of_cons; [by right|left].
    apply StronglySorted_inv in Hs as [_ Hs]. rewrite Forall_forall in Hs. by apply Hs.
Qed.

Lemma merge_sort_nil {A} (R : A → A → Prop) `{!∀ x y, Decision (R x y)} l :
  head (merge_sort R l) = None → l = [].
Proof.
  intros Hx. pose proof (merge_sort_Permutation R l) as Hp.
  destruct (merge_sort R l); [|done]. by apply Permutation_nil_l in Hp.
Qed.

Lemma LeastShard_allocate_None s shard regions :
  LeastShard_allocate_shard s shard regions = None → regions = ∅.
Proof.
  unfold LeastShard_allocate_shard. destruct (head _) eqn:E; [done|]. intros _.
  apply merge_sort_nil in E. by apply map_to_list_empty_iff in E.
Qed.

Lemma LeastShard_allocate_Some s shard regions r :
  LeastShard_allocate_shard s shard regions = Some r →
  ∃ c, regions !! r = Some c ∧
    ∀ r' c', regions !! r' = Some c' → entry_le (r, c) (r', c').
Proof.
  unfold LeastShard_allocate_shard. destruct (head _) as [[r0 c]|] eqn:E; [|done].
  intros [= <-]. apply merge_sort_head in E as [Hin Hmin]; [|apply _..].
  exists c. split; [by apply elem_of_map_to_list in Hin|]. intros r' c' Hr'.
  destruct (Hmin (r', c')) as [|Heq]; [by apply elem_of_map_to_list|done|].
  simplify_eq. right. cbn. split; done.
Qed.

(** ** Loads *)

(** The number of shards on a region. *)
Definition load (t : gmap string string) (r : string) : nat :=
  size (filter (λ p : string * string, p.2 = r) t).

Lemma load_insert t s r x :
  t !! s = None → load (<[s := r]> t) x = (if decide (r = x) then S (load t x) else load t x).
Proof.
  intros Hs. unfold load. rewrite map_filter_insert. cbn. case_decide as Hx.
  - rewrite map_size_insert_None; [done|]. apply map_lookup_filter_None. by left.
  - rewrite map_filter_delete, delete_id; [done|]. apply map_lookup_filter_None. by left.
Qed.

Lemma lookup_region_shard_counts t r :
  region_shard_counts t !! r = if load t r =? 0 then None else Some (load t r).
Proof.
  unfold region_shard_counts.
  apply (map_fold_weak_ind (λ out (t : gmap string string),
    out !! r = if load t r =? 0 then None else Some (load t r))).
  - unfold load. by rewrite map_filter_empty, map_size_empty.
  - intros s x t' out Hs IH. rewrite lookup_entry_update, load_insert by done.
    destruct (decide (x = r)) as [->|Hne]; [|done]. rewrite IH. by destruct (load t' r).
Qed.

Lemma counts_Some t r c :
  region_shard_counts t !! r = Some c ↔ c = load t r ∧ c ≠ 0.
Proof.
  rewrite lookup_region_shard_counts. destruct (Nat.eqb_spec (load t r) 0); split.
  - done.
  - intros [-> ?]. done.
  - intros [= <-]. done.
  - by intros [-> _].
Qed.

Lemma load_pos t s r : t !! s = Some r → load t r ≠ 0.
Proof.
  intros Hs. unfold load. rewrite map_size_non_empty_iff. intros Hz.
  assert (filter (λ p : string * string, p.2 = r) t !! s = Some r) as Hf
    by (by apply map_lookup_filter_Some).
  rewrite Hz in Hf. by rewrite lookup_empty in Hf.
Qed.

Lemma values_max_ge m r c : m !! r = Some c → c ≤ values_max m.
Proof.
  intros Hr%elem_of_map_to_list. unfold values_max. induction (map_to_list m) as [|[r' c'] l IH].
  - by apply elem_of_nil in Hr.
  - cbn. apply elem_of_cons in Hr as [[= <- <-]|Hr]; [lia|]. specialize (IH Hr). lia.
Qed.

Lemma values_min_le m r c : m !! r = Some c → values_min m ≤ c.
Proof.
  intros Hr%elem_of_map_to_list. unfold values_min.
  destruct (map_to_list m) as [|[r0 c0] l]; [by apply elem_of_nil in Hr|]. cbn.
  assert (Hle : ∀ l, foldr min c0 l ≤ c0) by (induction l0; cbn; lia).
  apply elem_of_cons in Hr as [[= <- <-]|Hr]; [apply Hle|].
  induction l as [|[r' c'] l IH]; [by apply elem_of_nil in Hr|]. cbn.
  apply elem_of_cons in Hr as [[= <- <-]|Hr]; [lia|]. specialize (IH Hr). lia.
Qed.

Lemma foldr_max_elem (l : list nat) : l ≠ [] → foldr max 0 l ∈ l.
Proof.
  induction l as [|x l IH]; [done|]. intros _. cbn.
  destruct (Nat.max_spec x (foldr max 0 l)) as [[Hlt ->]|[Hle ->]]; [|by left].
  right. apply IH. intros ->. cbn in Hlt. lia.
Qed.

Lemma foldr_min_elem (x : nat) (l : list nat) : foldr min x l ∈ x :: l.
Proof.
  induction l as [|y l IH]; [by left|]. cbn.
  destruct (Nat.min_spec y (foldr min x l)) as [[_ ->]|[_ ->]]; [right; by left|].
  apply elem_of_cons in IH as [->|?]; [by left|by right; right].
Qed.

Lemma values_attained (m : gmap string nat) :
  m ≠ ∅ → (∃ r, m !! r = Some (values_max m)) ∧ (∃ r, m !! r = Some (values_min m)).
Proof.
  intros Hm. assert (Hl : (map_to_list m).*2 ≠ []).
  { intros Hnil. apply Hm, map_to_list_empty_iff. by destruct (map_to_list m). }
  assert (Hin : ∀ c, c ∈ (map_to_list m).*2 → ∃ r, m !! r = Some c).
  { intros c ([r c'] & -> & Hr)%list_elem_of_fmap. exists r. by apply elem_of_map_to_list. }
  split; apply Hin; [by apply foldr_max_elem|]. unfold values_min.
  destruct ((map_to_list m).*2) as [|x l]; [done|]. apply foldr_min_elem.
Qed.

Lemma NoDup_fst_filter {A B} (P : A * B → Prop) `{!∀ x, Decision (P x)} (l : list (A * B)) :
  NoDup l.*1 → NoDup (filter P l).*1.
Proof.
  induction l as [|x l IH]; [done|]. rewrite filter_cons. cbn [fmap list_fmap].
  intros [Hx Hl]%NoDup_cons.
  case_decide; [|auto]. apply NoDup_cons. split; [|auto]. intros Hin. apply Hx.
  apply list_elem_of_fmap in Hin as (y & -> & [_ Hy]%list_elem_of_filter).
  apply list_elem_of_fmap. eauto.
Qed.

Lemma elem_of_candidates t m x :
  x ∈ candidates t m ↔ ∃ r, t !! x = Some r ∧ m !! r = Some (values_max m).
Proof.
  assert (Hmr : ∀ r, r ∈ max_regions m ↔ m !! r = Some (values_max m)).
  { intros r. unfold max_regions. rewrite merge_sort_Permutation, list_elem_of_fmap. split.
    - intros ([r' c] & -> & [Hc Hin]%list_elem_of_filter). cbn in Hc. subst c.
      by apply elem_of_map_to_list in Hin.
    - intros Hr. exists (r, values_max m). split; [done|]. apply list_elem_of_filter.
      split; [done|]. by apply elem_of_map_to_list. }
  unfold candidates. rewrite list_elem_of_fmap. split.
  - intros ([x' r] & -> & [Hr Hin]%list_elem_of_filter). exists r.
    split; [by apply elem_of_map_to_list in Hin|]. by apply Hmr.
  - intros (r & Hx & Hr). exists (x, r). split; [done|]. apply list_elem_of_filter.
    split; [by apply Hmr|]. by apply elem_of_map_to_list.
Qed.

(** The shards picked for a move: sorted, distinct, not too many, all on a region with the
    highest load, and none when the loads are close. *)
Lemma LeastShard_rebalance_spec s (t : gmap string string) :
  let out := LeastShard_rebalance s t (region_shard_counts t) in
  NoDup out ∧ Sorted String.le out ∧ length out ≤ max_simultaneous_rebalance s ∧
  (∀ x, x ∈ out → ∃ a b,
     t !! x = Some a ∧ load t b ≠ 0 ∧ load t b + rebalance_threshold s ≤ load t a ∧
     ∀ r, load t r ≤ load t a ∧ (load t r ≠ 0 → load t b ≤ load t r)).
Proof.
  cbn zeta. unfold LeastShard_rebalance. set (m := region_shard_counts t).
  destruct (Nat.ltb_spec (size m) 2) as [|Hsz].
  { split_and!; [constructor|constructor|cbn; lia|]. intros x Hx. by apply elem_of_nil in Hx. }
  destruct (Nat.ltb_spec (values_max m - values_min m) (rebalance_threshold s)) as [|Hdiff].
  { split_and!; [constructor|constructor|cbn; lia|]. intros x Hx. by apply elem_of_nil in Hx. }
  set (l := candidates t m).
  assert (Hm : m ≠ ∅) by (intros ->; rewrite map_size_empty in Hsz; lia).
  destruct (values_attained m Hm) as [_ [b Hb]]. pose proof (values_max_ge _ _ _ Hb).
  apply counts_Some in Hb as [Hb Hb0].
  assert (Hnd : NoDup (merge_sort String.le l)).
  { rewrite merge_sort_Permutation. unfold l.
    apply NoDup_fst_filter, NoDup_fst_map_to_list. }
  split_and!.
  - by apply (sublist_NoDup _ (merge_sort String.le l)), sublist_take.
  - apply StronglySorted_Sorted, (StronglySorted_app_1_l _ _ (drop (max_simultaneous_rebalance s)
      (merge_sort String.le l))). rewrite take_drop. apply StronglySorted_merge_sort; apply _.
  - rewrite length_take. lia.
  - intros x Hx. assert (Hxl : x ∈ l).
    { rewrite <- (merge_sort_Permutation String.le l). by apply elem_of_take in Hx as (i & ? & ?);
        eapply list_elem_of_lookup_2. }
    apply elem_of_candidates in Hxl as (a & Hin & [Ha Ha0]%counts_Some).
    exists a, b. split; [done|]. rewrite <- Hb, <- Ha. split; [done|]. split; [lia|].
    intros r. split.
    + destruct (decide (load t r = 0)); [lia|]. apply (values_max_ge m r). by apply counts_Some.
    + intros Hr. apply (values_min_le m r). by apply counts_Some.
Qed.

(** Some shard is picked when two regions are apart and moves are allowed. *)
Lemma LeastShard_rebalance_progress s (t : gmap string string) a b :
  1 ≤ max_simultaneous_rebalance s → 1 ≤ rebalance_threshold s →
  load t b ≠ 0 → load t b + rebalance_threshold s ≤ load t a →
  LeastShard_rebalance s t (region_shard_counts t) ≠ [].
Proof.
  intros Hmx Hth Hb Hab. unfold LeastShard_rebalance. set (m := region_shard_counts t).
  assert (Ha : m !! a = Some (load t a)) by (apply counts_Some; split; [done|lia]).
  assert (Hbm : m !! b = Some (load t b)) by (by apply counts_Some).
  destruct (Nat.ltb_spec (size m) 2) as [Hsz|_].
  { exfalso. assert (Hab' : a ≠ b) by (intros ->; lia).
    pose proof (map_size_insert_None _ (load t a) _ (lookup_delete_eq m a)) as H1.
    rewrite insert_delete_id in H1 by done.
    assert (size (delete a m) ≠ 0); [|lia].
    apply map_size_non_empty_iff. intros Hz.
    assert (delete a m !! b = Some (load t b)) as H2 by (by rewrite lookup_delete_ne).
    rewrite Hz in H2. by rewrite lookup_empty in H2. }
  pose proof (values_max_ge _ _ _ Ha). pose proof (values_min_le _ _ _ Hbm).
  destruct (Nat.ltb_spec (values_max m - values_min m) (rebalance_threshold s)) as [|_]; [lia|].
  set (l := candidates t m).
  assert (Hl : l ≠ []).
  { assert (m ≠ ∅) as Hm by (intros Hm; rewrite Hm in Ha; by rewrite lookup_empty in Ha).
    destruct (values_attained m Hm) as [[r Hr] _]. pose proof Hr as [Hload Hne]%counts_Some.
    assert (filter (λ p : string * string, p.2 = r) t ≠ ∅) as Hex.
    { intros Hz. apply Hne. rewrite Hload. unfold load. by rewrite Hz, map_size_empty. }
    apply map_choose in Hex as (x & r' & [Hx Hr']%map_lookup_filter_Some). cbn in Hr'. subst r'.
    assert (x ∈ l) as Hin by (apply elem_of_candidates; eauto).
    intros Hn. rewrite Hn in Hin. by apply elem_of_nil in Hin. }
  intros Hnil. apply Hl. pose proof (merge_sort_Permutation String.le l) as Hp.
  destruct (max_simultaneous_rebalance s) as [|n]; [lia|].
  destruct (merge_sort String.le l); [|done]. by apply Permutation_nil_l in Hp.
Qed.

Definition crowded : ShardCoordinator :=
  mkShardCoordinator (list_to_map
    [("s1", "r1"); ("s2", "r1"); ("s3", "r1"); ("s4", "r1"); ("s5", "r1"); ("s6", "r2")]).

(** With the default threshold of one a shard that is picked and put where the strategy puts it is
    picked again: two regions exchange it forever. *)
Lemma rebalance_default_oscillates :
  let c := mkShardCoordinator (list_to_map [("s1", "r1"); ("s2", "r1"); ("s3", "r2")]) in
  let s := mkLeastShard 1 1 in
  let c1 := (ShardCoordinator_allocate_with_strategy "s1" s c).1 in
  let c2 := (ShardCoordinator_allocate_with_strategy "s1" s c1).1 in
  ShardCoordinator_rebalance_with_strategy s c = ["s1"] ∧
  ShardCoordinator_rebalance_with_strategy s c1 = ["s1"] ∧ allocation c2 = allocation c.
Proof. vm_compute. auto. Qed.

(** ** The hand-off state machine *)

Inductive HandoffOp :=
  | OpBegin (source_region : string)
  | OpAck (entity_count : nat)
  | OpEntityStopped
  | OpStart (target_region : string).

Definition handoff_op (op : HandoffOp) (shard : string) (h : HandoffCoordinator)
    : HandoffCoordinator * (HandoffError + unit) :=
  match op with
  | OpBegin src => HandoffCoordinator_begin shard src h
  | OpAck n => HandoffCoordinator_ack_begin shard n h
  | OpEntityStopped => HandoffCoordinator_entity_stopped shard h
  | OpStart target => HandoffCoordinator_start_elsewhere shard target h
  end.

(** The machine of one shard; [None] is a refused operation. *)
Definition handoff_next (op : HandoffOp) (st : HandoffState) : option HandoffState :=
  match op, st with
  | OpBegin src, (HIdle | HStarted _ _) => Some (HBeginning src)
  | OpAck n, HBeginning src => Some (HHandingOff src n)
  | OpEntityStopped, HHandingOff src n =>
      Some (if n <=? 1 then HStopped src else HHandingOff src (n - 1))
  | OpStart target, HStopped src => Some (HStarted src target)
  | _, _ => None
  end.

Lemma state_h_set shard st h q :
  HandoffCoordinator_state q (h_set shard st h) =
    if decide (q = shard) then st else HandoffCoordinator_state q h.
Proof.
  unfold HandoffCoordinator_state, h_set. cbn. case_decide as Hq; subst.
  - by rewrite lookup_insert_eq.
  - by rewrite lookup_insert_ne.
Qed.

(** The table implements the machine of each shard, and refused operations change nothing. *)
Lemma handoff_op_refines op shard h q :
  let '(h', res) := handoff_op op shard h in
  match handoff_next op (HandoffCoordinator_state shard h) with
  | Some st => res = inr tt ∧
      HandoffCoordinator_state q h' = if decide (q = shard) then st else HandoffCoordinator_state q h
  | None => res = inl (InvalidTransition shard) ∧
      HandoffCoordinator_state q h' = HandoffCoordinator_state q h
  end.
Proof.
  destruct op as [src|n| |target]; cbn;
    unfold HandoffCoordinator_begin, HandoffCoordinator_ack_begin,
      HandoffCoordinator_entity_stopped, HandoffCoordinator_start_elsewhere;
    destruct (HandoffCoordinator_state shard h) eqn:Hst; cbn; split; try done;
    rewrite ?state_h_set; case_decide; subst; congruence.
Qed.

(** A run with the log of the operations accepted for each shard since its last begin. *)
Record HandoffRun := mkHandoffRun {
  hr_table : HandoffCoordinator;
  hr_log : gmap string (list HandoffOp);
}.

Definition handoff_step (r : HandoffRun) (x : string * option HandoffOp) : HandoffRun :=
  let '(shard, o) := x in
  match o with
  | None => mkHandoffRun (HandoffCoordinator_forget shard (hr_table r)) (delete shard (hr_log r))
  | Some op =>
      let '(h, res) := handoff_op op shard (hr_table r) in
      mkHandoffRun h
        (match res with
         | inl _ => hr_log r
         | inr _ =>
             <[shard := match op with
                        | OpBegin _ => [op]
                        | _ => default [] (hr_log r !! shard) ++ [op]
                        end]> (hr_log r)
         end)
  end.

Definition handoff_run (xs : list (string * option HandoffOp)) : HandoffRun :=
  foldl handoff_step (mkHandoffRun HandoffCoordinator_new ∅) xs.

(** The accepted operations that lead to a state. *)
Inductive cycle : HandoffState → list HandoffOp → Prop :=
  | cycle_idle : cycle HIdle []
  | cycle_beginning src : cycle (HBeginning src) [OpBegin src]
  | cycle_handing src n k :
      k < max 1 n →
      cycle (HHandingOff src (n - k)) ([OpBegin src; OpAck n] ++ replicate k OpEntityStopped)
  | cycle_stopped src n :
      cycle (HStopped src) ([OpBegin src; OpAck n] ++ replicate (max 1 n) OpEntityStopped)
  | cycle_started src n target :
      cycle (HStarted src target)
        ([OpBegin src; OpAck n] ++ replicate (max 1 n) OpEntityStopped ++ [OpStart target]).

Lemma cycle_step op st st' log :
  cycle st log → handoff_next op st = Some st' →
  cycle st' (match op with OpBegin _ => [op] | _ => log ++ [op] end).
Proof.
  destruct 1; destruct op; cbn; intros [= <-]; try constructor.
  - rewrite <- (Nat.sub_0_r entity_count) at 1.
    apply (cycle_handing _ entity_count 0). lia.
  - rewrite <- replicate_S_end. destruct (Nat.leb_spec (n - k) 1).
    + replace (S k) with (max 1 n) by lia. constructor.
    + replace (n - k - 1) with (n - S k) by lia. apply (cycle_handing _ n (S k)). lia.
Qed.

(** C34: over every sequence of hand-off calls, refused ones included, the state of a shard
    is what its accepted calls since the last begin say: it is stopped only when its
    source region was told to drain, acknowledged with a number of entities and reported
    that many stopped (once if the number was zero), and it is started elsewhere only
    after that.  A refused call changes nothing. *)
Theorem handoff_lifecycle (xs : list (string * option HandoffOp)) (shard : string) :
  cycle (HandoffCoordinator_state shard (hr_table (handoff_run xs)))
    (default [] (hr_log (handoff_run xs) !! shard)) ∧
  ∀ op q, let '(h', res) := handoff_op op q (hr_table (handoff_run xs)) in
    (res = inr tt ↔
       is_Some (handoff_next op (HandoffCoordinator_state q (hr_table (handoff_run xs))))) ∧
    (res ≠ inr tt →
       HandoffCoordinator_state shard h' =
         HandoffCoordinator_state shard (hr_table (handoff_run xs))).
Proof.
  split.
  - unfold handoff_run. induction xs as [|[q o] xs IH] using rev_ind; [constructor|].
    rewrite foldl_app. cbn [foldl]. set (r := foldl handoff_step _ xs) in *.
    destruct o as [op|]; cbn [handoff_step].
    + pose proof (handoff_op_refines op q (hr_table r) shard) as Href.
      destruct (handoff_op op q (hr_table r)) as [h res].
      destruct (handoff_next op (HandoffCoordinator_state q (hr_table r))) as [st|] eqn:Hn.
      * destruct Href as [-> Hst]. cbn. rewrite Hst. case_decide as Hq.
        -- subst q. rewrite lookup_insert_eq. exact (cycle_step _ _ _ _ IH Hn).
        -- by rewrite lookup_insert_ne.
      * destruct Href as [-> Hst]. cbn. by rewrite Hst.
    + cbn. unfold HandoffCoordinator_state, HandoffCoordinator_forget. cbn.
      destruct (decide (q = shard)) as [->|Hq].
      * rewrite !lookup_delete_eq. constructor.
      * by rewrite !lookup_delete_ne.
  - intros op q. pose proof (handoff_op_refines op q (hr_table (handoff_run xs)) shard) as Href.
    destruct (handoff_op op q _) as [h res]. destruct (handoff_next op _) as [st|].
    + destruct Href as [-> _]. split; [split; eauto|done].
    + destruct Href as [-> Hst]. split; [|done]. split; [done|]. by intros [??].
Qed.

(** A shard without entities never becomes stopped by itself: after the acknowledgement
    it waits for a report that no entity will send. *)
Lemma empty_shard_waits :
  let r := handoff_run [("s1", Some (OpBegin "r1")); ("s1", Some (OpAck 0))] in
  HandoffCoordinator_state "s1" (hr_table r) = HHandingOff "r1" 0 ∧
  (HandoffCoordinator_start_elsewhere "s1" "r2" (hr_table r)).2 = inl (InvalidTransition "s1").
Proof. vm_compute. auto. Qed.

(** ** The runner's actions *)

(** A strategy names a shard at most once. *)
Class StrategyLaws (S : Type) `{ShardAllocationStrategy S} : Prop := {
  law_rebalance_nodup (s : S) t m : NoDup (strategy_rebalance s t m);
}.

Lemma candidates_NoDup t m : NoDup (candidates t m).
Proof. apply NoDup_fst_filter, NoDup_fst_map_to_list. Qed.

#[export] Instance LeastShard_Laws : StrategyLaws LeastShardAllocationStrategy.
Proof.
  split. intros s t m. cbn. unfold LeastShard_rebalance. repeat case_match; try constructor.
  apply (sublist_NoDup _ (merge_sort String.le (candidates t m))); [|apply sublist_take].
  rewrite merge_sort_Permutation. apply candidates_NoDup.
Qed.

#[export] Instance Pinned_Laws : StrategyLaws PinnedAllocationStrategy.
Proof. split. intros. constructor. Qed.

Definition action_shard (a : RebalanceAction) : string :=
  match a with BeginHandoff s _ | Allocate s _ => s end.

(** The hand-off call of the action is in order. *)
Definition action_enabled (h : HandoffCoordinator) (a : RebalanceAction) : Prop :=
  match a with
  | BeginHandoff s src => is_Some (handoff_next (OpBegin src) (HandoffCoordinator_state s h))
  | Allocate s target => is_Some (handoff_next (OpStart target) (HandoffCoordinator_state s h))
  end.

Lemma perform_enabled a c h :
  action_enabled h a →
  ∃ c' h', perform a c h = (c', h', inr tt) ∧
    ∀ q, q ≠ action_shard a → HandoffCoordinator_state q h' = HandoffCoordinator_state q h.
Proof.
  destruct a as [s src|s target]; cbn [action_enabled perform action_shard]; intros [st Hst].
  - pose proof (handoff_op_refines (OpBegin src) s h) as Href. cbn [handoff_op] in Href.
    rewrite Hst in Href. destruct (HandoffCoordinator_begin s src h) as [h' res].
    destruct (Href s) as [-> _]. do 2 eexists. split; [done|]. intros q Hq.
    destruct (Href q) as [_ ->]. by rewrite decide_False.
  - pose proof (handoff_op_refines (OpStart target) s h) as Href. cbn [handoff_op] in Href.
    rewrite Hst in Href. destruct (HandoffCoordinator_start_elsewhere s target h) as [h' res].
    destruct (Href s) as [-> _]. do 2 eexists. split; [done|]. intros q Hq.
    destruct (Href q) as [_ ->]. by rewrite decide_False.
Qed.

Lemma perform_all_enabled actions c h :
  NoDup (action_shard <$> actions) → Forall (action_enabled h) actions →
  Forall (λ res, res = inr tt) (perform_all actions c h).2.
Proof.
  revert c h; induction actions as [|a actions IH]; intros c h; cbn [perform_all fmap list_fmap];
    [constructor|]. intros [Ha Hnd]%NoDup_cons [Hen Hrest]%Forall_cons.
  destruct (perform_enabled a c h Hen) as (c1 & h1 & -> & Hother).
  specialize (IH c1 h1 Hnd). destruct (perform_all actions c1 h1) as [[c2 h2] out].
  cbn in IH |- *. constructor; [done|]. apply IH. rewrite Forall_forall in Hrest |- *.
  intros b Hb. assert (Hne : action_shard b ≠ action_shard a).
  { intros Heq. apply Ha. rewrite <- Heq. apply list_elem_of_fmap. eauto. }
  specialize (Hrest b Hb). destruct b; cbn [action_enabled action_shard] in *;
    by rewrite Hother.
Qed.

Section runner_valid.
Context {S : Type} `{!ShardAllocationStrategy S, !StrategyLaws S}.
Context (strategy : S) (c : ShardCoordinator) (h : HandoffCoordinator).

Lemma elem_of_runner_allocates a :
  a ∈ runner_allocates strategy c h ↔
  ∃ s src target, a = Allocate s target ∧ h_states h !! s = Some (HStopped src) ∧
    allocate_shard strategy s (region_shard_counts (allocation c)) = Some target.
Proof.
  unfold runner_allocates. rewrite list_elem_of_omap. split.
  - intros ([s st] & Hin & Ha). unfold HandoffCoordinator_snapshot in Hin.
    rewrite merge_sort_Permutation in Hin. apply elem_of_map_to_list in Hin. cbn in Ha.
    destruct st; try done. destruct (allocate_shard _ _ _) as [target|] eqn:Ht; [|done].
    cbn in Ha. simplify_eq. eauto 10.
  - intros (s & src & target & -> & Hs & Ht). exists (s, HStopped src). cbn. rewrite Ht.
    split; [|done]. unfold HandoffCoordinator_snapshot. rewrite merge_sort_Permutation.
    by apply elem_of_map_to_list.
Qed.

Lemma elem_of_runner_begins a :
  a ∈ runner_begins strategy c h ↔
  ∃ s src, a = BeginHandoff s src ∧
    s ∈ ShardCoordinator_rebalance_with_strategy strategy c ∧
    ShardCoordinator_region_for s c = Some src ∧
    is_Some (handoff_next (OpBegin src) (HandoffCoordinator_state s h)).
Proof.
  unfold runner_begins. rewrite list_elem_of_omap. split.
  - intros (s & Hin & Ha). destruct (ShardCoordinator_region_for s c) as [src|] eqn:Hr.
    + exists s, src. destruct (HandoffCoordinator_state s h); cbn in Ha; simplify_eq;
        (split; [done|]; split; [done|]; split; [done|]; cbn; eauto).
    + by destruct (HandoffCoordinator_state s h).
  - intros (s & src & -> & Hin & Hr & [st Hst]). exists s. split; [done|]. rewrite Hr.
    by destruct (HandoffCoordinator_state s h).
Qed.

Lemma omap_NoDup_key {A B} (key : A → string) (key' : B → string) (f : A → option B) l :
  (∀ x y, f x = Some y → key' y = key x) → NoDup (key <$> l) → NoDup (key' <$> omap f l).
Proof.
  intros Hf. induction l as [|x l IH]; [done|]. cbn. intros [Hx Hl]%NoDup_cons.
  destruct (f x) as [y|] eqn:Hy; [|auto]. cbn. apply NoDup_cons. split; [|auto].
  rewrite (Hf x y Hy). intros Hin. apply Hx.
  apply list_elem_of_fmap in Hin as (z & Hz & Hin).
  apply list_elem_of_omap in Hin as (w & Hw & Hfw). rewrite Hz, (Hf w z Hfw).
  apply list_elem_of_fmap. eauto.
Qed.

Lemma runner_step_NoDup : NoDup (action_shard <$> RebalanceRunner_step strategy c h).
Proof.
  unfold RebalanceRunner_step. rewrite fmap_app. apply NoDup_app. split_and!.
  - apply (omap_NoDup_key fst).
    + intros [s st] a. cbn. destruct st; try done. by intros (t & _ & ->)%fmap_Some.
    + unfold HandoffCoordinator_snapshot. rewrite merge_sort_Permutation.
      apply NoDup_fst_map_to_list.
  - intros s (a & -> & Ha)%list_elem_of_fmap (b & Heq & Hb)%list_elem_of_fmap.
    apply elem_of_runner_allocates in Ha as (s & src & target & -> & Hs & _).
    apply elem_of_runner_begins in Hb as (s' & src' & -> & _ & _ & [st Hst]).
    cbn in Heq. subst s'. unfold HandoffCoordinator_state in Hst. by rewrite Hs in Hst.
  - apply (omap_NoDup_key id).
    + intros s a. destruct (HandoffCoordinator_state s h); try done;
        by intros (t & _ & ->)%fmap_Some.
    + rewrite list_fmap_id. apply law_rebalance_nodup.
Qed.

(** The actions of one scheduling tick can all be executed, in order: none of the
    hand-off calls is refused.  A shard is reallocated only when its hand-off has
    stopped it, to the region the strategy chooses; a hand-off begins only for a shard
    the strategy wants moved, from the region it is on, and only if none is under way;
    and no shard has two actions. *)
Theorem runner_step_valid :
  let actions := RebalanceRunner_step strategy c h in
  Forall (λ res, res = inr tt) (perform_all actions c h).2 ∧
  NoDup (action_shard <$> actions) ∧
  (∀ s target, Allocate s target ∈ actions ↔
     (∃ src, h_states h !! s = Some (HStopped src)) ∧
     allocate_shard strategy s (region_shard_counts (allocation c)) = Some target) ∧
  (∀ s src, BeginHandoff s src ∈ actions ↔
     s ∈ ShardCoordinator_rebalance_with_strategy strategy c ∧
     ShardCoordinator_region_for s c = Some src ∧
     is_Some (handoff_next (OpBegin src) (HandoffCoordinator_state s h))).
Proof.
  intros actions. unfold actions. split_and!.
  - apply perform_all_enabled; [apply runner_step_NoDup|]. apply Forall_forall.
    intros a [Ha|Ha]%elem_of_app.
    + apply elem_of_runner_allocates in Ha as (s & src & target & -> & Hs & _).
      cbn [action_enabled]. unfold HandoffCoordinator_state. rewrite Hs. cbn. eauto.
    + by apply elem_of_runner_begins in Ha as (s & src & -> & _ & _ & Hst).
  - apply runner_step_NoDup.
  - intros s target. unfold RebalanceRunner_step.
    rewrite elem_of_app, elem_of_runner_allocates, elem_of_runner_begins. split.
    + intros [(s' & src & t' & Heq & Hs & Ht)|(? & ? & ? & _)]; [|done]. simplify_eq. eauto.
    + intros [[src Hs] Ht]. left. eauto 10.
  - intros s src. unfold RebalanceRunner_step.
    rewrite elem_of_app, elem_of_runner_allocates, elem_of_runner_begins. split.
    + intros [(? & ? & ? & ? & _)|(s' & src' & Heq & Hs)]; [done|]. by simplify_eq.
    + intros Hs. right. eauto.
Qed.
End runner_valid.

Lemma runner_step_valid_witness :
  let h := hr_table (handoff_run [("s6", Some (OpBegin "r2")); ("s6", Some (OpAck 1));
                                  ("s6", Some OpEntityStopped)]) in
  RebalanceRunner_step (mkLeastShard 2 2) crowded h =
    [Allocate "s6" "r2"; BeginHandoff "s1" "r1"; BeginHandoff "s2" "r1"] ∧
  Forall (λ res, res = inr tt)
    (perform_all (RebalanceRunner_step (mkLeastShard 2 2) crowded h) crowded h).2.
Proof.
  intros h. split; [reflexivity|].
  exact (proj1 (runner_step_valid (mkLeastShard 2 2) crowded h)).
Defined.
