(* ===== verification/ShardRegions.v ===== *)
(** * Regions, entities and replicated coordinators
    ([crates/atomr-cluster-sharding/src/shard.rs], [shard_region.rs], [entity_ref.rs],
    [extractor.rs], [remember_entities.rs], [passivation.rs], [persistent_coordinator.rs],
    [ddata_coordinator.rs])

    A region routes a message to its shard here or to the region that owns the shard.
    The handler of an entity is the user's code: a delivery returns the call made.  The
    forwarder is the user's code too: a message handed to it is under way to the region it
    names, for any time and in any order, and arrives there or is lost.  [PersistentShardCoordinator] is an event-sourced actor and
    inherits the recovery theorem; its codec is a library, a parameter with the round trip
    it documents. *)

From stdpp Require Import gmap strings list sorting.
From Stdlib Require Import NArith Lia.
From S2P Require Import Prelude Crdt CrdtMaps Journal Eventsourced Sharding.

(** ** Shards and regions *)

Class MessageExtractor (M : Type) := {
  entity_id : M → string;
  shard_id : M → string;
}.

Record Shard := mkShard {
  sh_id : string;
  sh_entities : gset string;
}.

Definition Shard_new (id : string) : Shard := mkShard id ∅.

(** The call of the handler is the pair of the entity and the message. *)
Definition Shard_deliver {M} (entity : string) (msg : M) (s : Shard) : Shard * (string * M) :=
  (mkShard (sh_id s) ({[entity]} ∪ sh_entities s), (entity, msg)).

Definition Shard_passivate (entity : string) (s : Shard) : Shard :=
  mkShard (sh_id s) (sh_entities s ∖ {[entity]}).

Definition Shard_entity_count (s : Shard) : nat := size (sh_entities s).

Record ShardRegion := mkShardRegion {
  region_id : string;
  rg_shards : gmap string Shard;
  rg_forwarder : bool;
}.

Definition ShardRegion_new (id : string) : ShardRegion := mkShardRegion id ∅ false.
Definition set_remote_forwarder (r : ShardRegion) : ShardRegion :=
  mkShardRegion (region_id r) (rg_shards r) true.
Definition ShardRegion_shard_count (r : ShardRegion) : nat := size (rg_shards r).
Definition ShardRegion_shard_ids (r : ShardRegion) : list string := (map_to_list (rg_shards r)).*1.

(** What happened to a message at a region. *)
Inductive RegionOutcome (M : Type) :=
  | Handled (shard entity : string) (msg : M)
  | Forwarded (owner : string) (msg : M)
  | Dropped.
Arguments Handled {_} _ _ _.
Arguments Forwarded {_} _ _.
Arguments Dropped {_}.

Section region.
Context {M : Type} `{!MessageExtractor M}.

Definition ShardRegion_deliver (msg : M) (c : ShardCoordinator) (r : ShardRegion)
    : ShardCoordinator * ShardRegion * RegionOutcome M :=
  let sid := shard_id msg in
  let eid := entity_id msg in
  let '(c', owner) := ShardCoordinator_allocate sid (region_id r) c in
  if decide (owner = region_id r) then
    let shard := default (Shard_new sid) (rg_shards r !! sid) in
    let '(shard', (e, m)) := Shard_deliver eid msg shard in
    (c', mkShardRegion (region_id r) (<[sid := shard']> (rg_shards r)) (rg_forwarder r),
     Handled sid e m)
  else (c', r, if rg_forwarder r then Forwarded owner msg else Dropped).

(** [EntityRef::tell]: the message goes to the region; the id of the handle is not used. *)
Definition EntityRef_tell (_entity : string) (msg : M) (c : ShardCoordinator) (r : ShardRegion)
    : ShardCoordinator * ShardRegion * RegionOutcome M := ShardRegion_deliver msg c r.

(** *** Several regions that share a coordinator *)

Record ShardingSystem := mkShardingSystem {
  ss_coordinator : ShardCoordinator;
  ss_regions : gmap string ShardRegion;
  ss_handled : list (string * string * string * M);
  ss_in_flight : list (string * M);
  ss_lost : list M;
}.

(** [SysArrive] and [SysLose] name a message by its place among those under way. *)
Inductive SystemOp :=
  | SysInstall (region : string)
  | SysDeliver (at_region : string) (msg : M)
  | SysArrive (i : nat)
  | SysLose (i : nat)
  | SysRebalance (shard to_region : string).

(** A delivery at a region: the message is handled, given to the forwarder or dropped. *)
Definition deliver_at (rid : string) (msg : M) (s : ShardingSystem) : ShardingSystem :=
  match ss_regions s !! rid with
  | None =>
      mkShardingSystem (ss_coordinator s) (ss_regions s) (ss_handled s) (ss_in_flight s) (ss_lost s ++ [msg])
  | Some r =>
      let '(c, r', out) := ShardRegion_deliver msg (ss_coordinator s) r in
      let regions := <[rid := r']> (ss_regions s) in
      match out with
      | Handled sid e m => mkShardingSystem c regions (ss_handled s ++ [(rid, sid, e, m)]) (ss_in_flight s) (ss_lost s)
      | Forwarded owner m => mkShardingSystem c regions (ss_handled s) (ss_in_flight s ++ [(owner, m)]) (ss_lost s)
      | Dropped => mkShardingSystem c regions (ss_handled s) (ss_in_flight s) (ss_lost s ++ [msg])
      end
  end.

Definition set_in_flight (l : list (string * M)) (s : ShardingSystem) : ShardingSystem :=
  mkShardingSystem (ss_coordinator s) (ss_regions s) (ss_handled s) l (ss_lost s).

Definition system_step (s : ShardingSystem) (op : SystemOp) : ShardingSystem :=
  match op with
  | SysInstall rid =>
      mkShardingSystem (ss_coordinator s) (alter set_remote_forwarder rid (ss_regions s)) (ss_handled s)
        (ss_in_flight s) (ss_lost s)
  | SysDeliver rid msg => deliver_at rid msg s
  | SysArrive i =>
      match ss_in_flight s !! i with
      | Some (rid, msg) => deliver_at rid msg (set_in_flight (delete i (ss_in_flight s)) s)
      | None => s
      end
  | SysLose i =>
      match ss_in_flight s !! i with
      | Some (_, msg) =>
          mkShardingSystem (ss_coordinator s) (ss_regions s) (ss_handled s) (delete i (ss_in_flight s)) (ss_lost s ++ [msg])
      | None => s
      end
  | SysRebalance shard to =>
      mkShardingSystem (ShardCoordinator_rebalance shard to (ss_coordinator s)) (ss_regions s)
        (ss_handled s) (ss_in_flight s) (ss_lost s)
  end.

Definition system_start (ids : list string) : ShardingSystem :=
  mkShardingSystem ShardCoordinator_new (list_to_map ((λ id, (id, ShardRegion_new id)) <$> ids)) [] [] [].

Definition system_run (ids : list string) (ops : list SystemOp) : ShardingSystem :=
  foldl system_step (system_start ids) ops.

(** The messages that users deliver. *)
Definition sent (ops : list SystemOp) : list M :=
  omap (λ op, match op with SysDeliver _ m => Some m | _ => None end) ops.

Lemma run_snoc ids ops op : system_run ids (ops ++ [op]) = system_step (system_run ids ops) op.
Proof. unfold system_run. by rewrite foldl_app. Qed.

Lemma sent_snoc ops op :
  sent (ops ++ [op]) = sent ops ++ match op with SysDeliver _ m => [m] | _ => [] end.
Proof. unfold sent. rewrite omap_app. by destruct op. Qed.

(** Regions are registered under their own ids. *)
Definition regions_named (s : ShardingSystem) : Prop :=
  ∀ id r, ss_regions s !! id = Some r → region_id r = id.

(** What a delivery does: the owner of the shard is looked up, or is the region itself. *)
Lemma deliver_at_cases rid msg s :
  regions_named s →
  let t := allocation (ss_coordinator s) in
  let owner := default rid (t !! shard_id msg) in
  let s' := deliver_at rid msg s in
  regions_named s' ∧ dom (ss_regions s') = dom (ss_regions s) ∧
  (∀ id, rg_forwarder <$> ss_regions s' !! id = rg_forwarder <$> ss_regions s !! id) ∧
  ((ss_regions s !! rid = None ∧ ss_coordinator s' = ss_coordinator s ∧ ss_handled s' = ss_handled s ∧
      ss_in_flight s' = ss_in_flight s ∧ ss_lost s' = ss_lost s ++ [msg]) ∨
   (is_Some (ss_regions s !! rid) ∧ allocation (ss_coordinator s') = <[shard_id msg := owner]> t ∧
      ((owner = rid ∧ ss_handled s' = ss_handled s ++ [(rid, shard_id msg, entity_id msg, msg)] ∧
          ss_in_flight s' = ss_in_flight s ∧ ss_lost s' = ss_lost s) ∨
       (owner ≠ rid ∧ rg_forwarder <$> ss_regions s !! rid = Some true ∧ ss_handled s' = ss_handled s ∧
          ss_in_flight s' = ss_in_flight s ++ [(owner, msg)] ∧ ss_lost s' = ss_lost s) ∨
       (owner ≠ rid ∧ rg_forwarder <$> ss_regions s !! rid = Some false ∧ ss_handled s' = ss_handled s ∧
          ss_in_flight s' = ss_in_flight s ∧ ss_lost s' = ss_lost s ++ [msg])))).
Proof.
  intros Hid t owner s'. unfold s', deliver_at. destruct (ss_regions s !! rid) as [r|] eqn:Hr.
  2: { split_and!; [done..|]. by left. }
  pose proof (Hid _ _ Hr) as Hrr.
  assert (Hdom : ∀ r' : ShardRegion, dom (<[rid := r']> (ss_regions s)) = dom (ss_regions s)).
  { intros r'. rewrite dom_insert_L. apply subseteq_union_1_L, singleton_subseteq_l, elem_of_dom. by exists r. }
  assert (Hnamed : ∀ r' : ShardRegion, region_id r' = rid → ∀ id r0,
    <[rid := r']> (ss_regions s) !! id = Some r0 → region_id r0 = id).
  { intros r' H1 id r0 [[<- <-]|[_ Hr0]]%lookup_insert_Some; [done|exact (Hid _ _ Hr0)]. }
  assert (Hfwd : ∀ r' : ShardRegion, rg_forwarder r' = rg_forwarder r → ∀ id,
    rg_forwarder <$> <[rid := r']> (ss_regions s) !! id = rg_forwarder <$> ss_regions s !! id).
  { intros r' H1 id. destruct (decide (rid = id)) as [<-|]; [by rewrite lookup_insert_eq, Hr; cbn; rewrite H1|].
    by rewrite lookup_insert_ne. }
  unfold ShardRegion_deliver. cbn [ShardCoordinator_allocate]. rewrite Hrr. fold t. fold owner.
  destruct (decide (owner = rid)) as [E|E]; cbn.
  - split_and!; [intros id r0; by apply Hnamed|apply Hdom|intros id; by apply Hfwd|]. right.
    split_and!; [by eexists|done|]. by left.
  - destruct (rg_forwarder r) eqn:Ef; cbn;
      (split_and!; [intros id r0; by apply Hnamed|apply Hdom|intros id; by apply Hfwd|]); right;
      (split_and!; [by eexists|done|]); right; [left|right]; split_and!; try done; by rewrite Ef.
Qed.

(** Every message is in one place. *)
Definition accounted (s : ShardingSystem) : list M := (ss_handled s).*2 ++ (ss_in_flight s).*2 ++ ss_lost s.

Lemma deliver_at_accounted rid msg s :
  regions_named s → accounted (deliver_at rid msg s) ≡ₚ msg :: accounted s.
Proof.
  intros Hn. unfold accounted. destruct (deliver_at_cases rid msg s Hn) as (_ & _ & _ & [(_ & _ & -> & -> & ->)|(_ & _ & [H|[H|H]])]).
  - solve_Permutation.
  - destruct H as (_ & -> & -> & ->). rewrite fmap_app. cbn. solve_Permutation.
  - destruct H as (_ & _ & -> & -> & ->). rewrite fmap_app. cbn. solve_Permutation.
  - destruct H as (_ & _ & -> & -> & ->). solve_Permutation.
Qed.

Lemma delete_in_flight i x s :
  ss_in_flight s !! i = Some x → accounted s ≡ₚ x.2 :: accounted (set_in_flight (delete i (ss_in_flight s)) s).
Proof.
  intros Hi. unfold accounted. cbn. rewrite (delete_Permutation _ _ _ Hi) at 1. cbn. solve_Permutation.
Qed.

Lemma system_run_accounted ids ops :
  regions_named (system_run ids ops) ∧ accounted (system_run ids ops) ≡ₚ sent ops.
Proof.
  induction ops as [|op ops [IHn IHa]] using rev_ind.
  { split; [|done]. intros id r Hr. apply elem_of_list_to_map_2, list_elem_of_fmap in Hr as (x & Heq & _). by simplify_eq. }
  rewrite run_snoc, sent_snoc. set (s := system_run ids ops) in *. destruct op as [rid|rid msg|i|i|sh to]; cbn.
  - split; [|by rewrite app_nil_r]. intros id r Hr. cbn in Hr. destruct (decide (rid = id)) as [<-|Hne].
    + rewrite lookup_alter_eq in Hr. apply fmap_Some in Hr as (r0 & Hr0 & ->). cbn. by apply IHn.
    + rewrite lookup_alter_ne in Hr by done. by apply IHn.
  - split; [by apply deliver_at_cases|]. rewrite deliver_at_accounted, IHa by done. solve_Permutation.
  - rewrite app_nil_r. destruct (ss_in_flight s !! i) as [[rid msg]|] eqn:Hi; [|done].
    set (s0 := set_in_flight _ s). assert (regions_named s0) as Hn0 by done. split; [by apply deliver_at_cases|].
    rewrite deliver_at_accounted by done. unfold s0. by rewrite <- (delete_in_flight i (rid, msg) s Hi).
  - rewrite app_nil_r. destruct (ss_in_flight s !! i) as [[rid msg]|] eqn:Hi; [|done]. split; [done|].
    rewrite <- IHa, (delete_in_flight i (rid, msg) s Hi). unfold accounted. cbn. solve_Permutation.
  - by rewrite app_nil_r.
Qed.

(** Where a message is handled. *)
Lemma step_handles s op :
  regions_named s →
  ∃ new, ss_handled (system_step s op) = ss_handled s ++ new ∧
    ∀ r sh e m, (r, sh, e, m) ∈ new →
      sh = shard_id m ∧ e = entity_id m ∧ allocation (ss_coordinator (system_step s op)) !! sh = Some r ∧
      (op = SysDeliver r m ∨ ∃ i, op = SysArrive i ∧ ss_in_flight s !! i = Some (r, m)).
Proof.
  intros Hn.
  assert (∀ rid msg s0, regions_named s0 → ss_handled s0 = ss_handled s →
    (op = SysDeliver rid msg ∨ ∃ i, op = SysArrive i ∧ ss_in_flight s !! i = Some (rid, msg)) →
    ∃ new, ss_handled (deliver_at rid msg s0) = ss_handled s ++ new ∧
    ∀ r sh e m, (r, sh, e, m) ∈ new →
      sh = shard_id m ∧ e = entity_id m ∧ allocation (ss_coordinator (deliver_at rid msg s0)) !! sh = Some r ∧
      (op = SysDeliver r m ∨ ∃ i, op = SysArrive i ∧ ss_in_flight s !! i = Some (r, m))) as Hd.
  { intros rid msg s0 Hn0 Eh Hop.
    destruct (deliver_at_cases rid msg s0 Hn0) as (_ & _ & _ & [(_ & _ & -> & _)|(_ & Hal & [H|[H|H]])]).
    - exists []. rewrite app_nil_r. split; [done|]. by intros ? ? ? ? ?%not_elem_of_nil.
    - destruct H as (Ho & -> & _). rewrite Eh. eexists. split; [done|].
      intros r sh e m [= -> -> -> ->]%list_elem_of_singleton. split_and!; [done..| |done].
      by rewrite Hal, lookup_insert_eq, Ho.
    - destruct H as (_ & _ & -> & _). exists []. rewrite app_nil_r. split; [done|]. by intros ? ? ? ? ?%not_elem_of_nil.
    - destruct H as (_ & _ & -> & _). exists []. rewrite app_nil_r. split; [done|]. by intros ? ? ? ? ?%not_elem_of_nil. }
  assert (∀ s1, ss_handled s1 = ss_handled s → ∃ new, ss_handled s1 = ss_handled s ++ new ∧
    ∀ r sh e m, (r, sh, e, m) ∈ new → sh = shard_id m ∧ e = entity_id m ∧ allocation (ss_coordinator s1) !! sh = Some r ∧
      (op = SysDeliver r m ∨ ∃ i, op = SysArrive i ∧ ss_in_flight s !! i = Some (r, m))) as Hq.
  { intros s1 ->. exists []. rewrite app_nil_r. split; [done|]. by intros ? ? ? ? ?%not_elem_of_nil. }
  destruct op as [rid|rid msg|i|i|sh to]; cbn [system_step]; [by apply Hq|by apply Hd; auto| | |by apply Hq].
  - destruct (ss_in_flight s !! i) as [[rid msg]|] eqn:Hi; [|by apply Hq]. apply Hd; eauto.
  - destruct (ss_in_flight s !! i) as [[rid msg]|] eqn:Hi; by apply Hq.
Qed.

(** *** Without losses *)

Definition op_ok (ids : list string) (op : SystemOp) : Prop :=
  match op with
  | SysInstall _ | SysArrive _ => True
  | SysDeliver rid _ => rid ∈ ids
  | SysRebalance _ to => to ∈ ids
  | SysLose _ => False
  end.

(** Every region of the system has a forwarder, and messages go to regions of the system. *)
Record connected (ids : list string) (s : ShardingSystem) : Prop := {
  co_named : regions_named s;
  co_forward id : id ∈ ids → rg_forwarder <$> ss_regions s !! id = Some true;
  co_table sh r : allocation (ss_coordinator s) !! sh = Some r → r ∈ ids;
  co_flight x : x ∈ ss_in_flight s → x.1 ∈ ids;
  co_lost : ss_lost s = [];
}.

Lemma deliver_at_connected ids rid msg s : rid ∈ ids → connected ids s → connected ids (deliver_at rid msg s).
Proof.
  intros Hrid [H1 H2 H3 H4 H5]. destruct (deliver_at_cases rid msg s H1) as (N1 & N2 & N3 & Hc). pose proof (H2 _ Hrid) as Hf.
  assert (default rid (allocation (ss_coordinator s) !! shard_id msg) ∈ ids) as Hown.
  { destruct (allocation (ss_coordinator s) !! shard_id msg) eqn:E; [exact (H3 _ _ E)|done]. }
  destruct Hc as [(Hr & _)|(_ & Hal & Hc)]; [by rewrite Hr in Hf|].
  assert (∀ sh r, allocation (ss_coordinator (deliver_at rid msg s)) !! sh = Some r → r ∈ ids) as Hal'.
  { rewrite Hal. intros sh r [[_ <-]|[_ Hr]]%lookup_insert_Some; [done|exact (H3 _ _ Hr)]. }
  destruct Hc as [(_ & _ & Hfl & Hlo)|[(_ & _ & _ & Hfl & Hlo)|(_ & Hff & _)]]; [..|congruence];
    (split; [done|intros; rewrite N3; auto|done| |by rewrite Hlo]); rewrite Hfl; [done|].
  intros x [Hx|[= ->]%list_elem_of_singleton]%elem_of_app; [by apply H4|done].
Qed.

Lemma step_connected ids s op : op_ok ids op → connected ids s → connected ids (system_step s op).
Proof.
  intros Hop Hc. destruct op as [rid|rid msg|i|i|sh to]; cbn in Hop |- *; [..|done|].
  - destruct Hc as [H1 H2 H3 H4 H5]. split; cbn; try done.
    + intros id r Hr. cbn in Hr. destruct (decide (rid = id)) as [<-|Hne]; [|rewrite lookup_alter_ne in Hr by done; by apply H1].
      rewrite lookup_alter_eq in Hr. apply fmap_Some in Hr as (r0 & Hr0 & ->). cbn. by apply H1.
    + intros id Hin. destruct (decide (rid = id)) as [<-|Hne]; [|rewrite lookup_alter_ne by done; by apply H2].
      rewrite lookup_alter_eq. specialize (H2 _ Hin). by destruct (ss_regions s !! rid).
  - by apply deliver_at_connected.
  - destruct (ss_in_flight s !! i) as [[rid msg]|] eqn:Hi; [|done]. destruct Hc as [H1 H2 H3 H4 H5].
    apply deliver_at_connected; [by apply (H4 (rid, msg)), (list_elem_of_lookup_2 _ i)|]. split; try done. cbn.
    intros x Hx. apply H4. rewrite (delete_Permutation _ _ _ Hi). by right.
  - destruct Hc as [H1 H2 H3 H4 H5]. split; cbn; try done.
    intros sh' r [[_ <-]|[_ Hr]]%lookup_insert_Some; [done|exact (H3 _ _ Hr)].
Qed.

(** Installing a forwarder in every region. *)
Lemma install_connected ids : connected ids (system_run ids (SysInstall <$> ids)).
Proof.
  assert (∀ l s, (∀ id, id ∈ ids → is_Some (ss_regions s !! id)) → regions_named s → allocation (ss_coordinator s) = ∅ →
    ss_in_flight s = [] → ss_lost s = [] → (∀ id, id ∈ ids → id ∉ l → rg_forwarder <$> ss_regions s !! id = Some true) →
    connected ids (foldl system_step s (SysInstall <$> l))) as Hl.
  { induction l as [|x l IH]; intros s Hs Hn Ha Hf Hlo Hfw; cbn.
    - split; [done| | |by rewrite Hf; intros x ?%not_elem_of_nil|done].
      + intros id Hid. apply Hfw; [done|]. apply not_elem_of_nil.
      + intros sh r. by rewrite Ha.
    - apply IH; cbn; try done.
      + intros id Hid. destruct (decide (x = id)) as [<-|]; [rewrite lookup_alter_eq, fmap_is_Some; auto|].
        rewrite lookup_alter_ne by done. auto.
      + intros id r Hr. cbn in Hr. destruct (decide (x = id)) as [<-|Hne]; [|rewrite lookup_alter_ne in Hr by done; by apply Hn].
        rewrite lookup_alter_eq in Hr. apply fmap_Some in Hr as (r0 & Hr0 & ->). cbn. by apply Hn.
      + intros id Hid Hnl. destruct (decide (x = id)) as [<-|Hne].
        * rewrite lookup_alter_eq. by destruct (Hs x Hid) as [r ->].
        * rewrite lookup_alter_ne by done. apply Hfw; [done|]. apply not_elem_of_cons. by split. }
  apply Hl; try done.
  - intros id Hid. cbn. rewrite <- elem_of_dom, dom_list_to_map_L, <- list_fmap_compose, elem_of_list_to_set.
    cbn. by rewrite list_fmap_id.
  - intros id r Hr. apply elem_of_list_to_map_2, list_elem_of_fmap in Hr as (x & Heq & _). by simplify_eq.
Qed.

Lemma connected_run ids ops :
  Forall (op_ok ids) ops → connected ids (system_run ids ((SysInstall <$> ids) ++ ops)).
Proof.
  intros Hops. unfold system_run. rewrite foldl_app. pose proof (install_connected ids) as H0. unfold system_run in H0.
  revert H0. generalize (foldl system_step (system_start ids) (SysInstall <$> ids)).
  induction Hops as [|op ops Hop Hops IH]; intros s Hs; [done|]. cbn. by apply IH, step_connected.
Qed.

(** *** Without moves *)

Definition moves (op : SystemOp) : Prop := match op with SysRebalance _ _ => True | _ => False end.

(** What is under way goes to the owner, and what was handled was handled there. *)
Definition settled (s : ShardingSystem) : Prop :=
  (∀ to m, (to, m) ∈ ss_in_flight s → allocation (ss_coordinator s) !! shard_id m = Some to) ∧
  (∀ r sh e m, (r, sh, e, m) ∈ ss_handled s → allocation (ss_coordinator s) !! sh = Some r).

Lemma deliver_at_settled rid msg s : regions_named s → settled s → settled (deliver_at rid msg s).
Proof.
  intros Hn [S1 S2]. destruct (deliver_at_cases rid msg s Hn) as (_ & _ & _ & [(_ & Hc & Hh & Hf & _)|(_ & Hal & Hc)]).
  { unfold settled. by rewrite Hc, Hh, Hf. }
  assert (∀ sh r, allocation (ss_coordinator s) !! sh = Some r →
    allocation (ss_coordinator (deliver_at rid msg s)) !! sh = Some r) as Hkeep.
  { intros sh r Hr. rewrite Hal. destruct (decide (shard_id msg = sh)) as [<-|]; [|by rewrite lookup_insert_ne].
    by rewrite lookup_insert_eq, Hr. }
  destruct Hc as [(Ho & Hh & Hf & _)|[(Ho & _ & Hh & Hf & _)|(_ & _ & Hh & Hf & _)]]; split; rewrite ?Hh, ?Hf; eauto.
  - intros r sh e m [Hin|[= -> -> -> ->]%list_elem_of_singleton]%elem_of_app; [eauto|].
    by rewrite Hal, lookup_insert_eq, Ho.
  - intros to m [Hin|[= -> ->]%list_elem_of_singleton]%elem_of_app; [eauto|]. by rewrite Hal, lookup_insert_eq.
Qed.

Lemma settled_run ids ops : Forall (λ op, ¬ moves op) ops → settled (system_run ids ops).
Proof.
  induction ops as [|op ops IH] using rev_ind; intros Hops.
  { split; [intros to m Hin|intros r sh e m Hin]; by apply not_elem_of_nil in Hin. }
  apply Forall_app in Hops as [Hops [Hop _]%Forall_cons]. specialize (IH Hops).
  pose proof (proj1 (system_run_accounted ids ops)) as Hn. rewrite run_snoc. set (s := system_run ids ops) in *.
  assert (∀ i x, ss_in_flight s !! i = Some x → settled (set_in_flight (delete i (ss_in_flight s)) s)) as Hdel.
  { intros i x Hi. destruct IH as [S1 S2]. split; [|done]. intros to m Hin. apply S1.
    rewrite (delete_Permutation _ _ _ Hi). by right. }
  destruct op as [rid|rid msg|i|i|sh to]; cbn; [done|by apply deliver_at_settled| | |by destruct Hop].
  - destruct (ss_in_flight s !! i) as [[rid msg]|] eqn:Hi; [|done]. apply deliver_at_settled; [done|]. by eapply Hdel.
  - destruct (ss_in_flight s !! i) as [[rid msg]|] eqn:Hi; [|done]. exact (Hdel i (rid, msg) Hi).
Qed.

(** C33: several regions that share a coordinator, with forwarders that take any time, reorder and may
    lose messages, while shards are moved at any time.  Every message that was delivered is, once, handled,
    under way or lost; it is handled by the entity and in the shard it names, at the region that owned the
    shard when it asked for the owner.  No message is lost when every region has a forwarder, messages
    and moves name regions of the system and no forwarder loses one (a region without a forwarder drops
    what it does not own).  Without moves, what is under way goes to the owner and is handled on
    arrival, and all messages of a shard are handled at one region. *)
Theorem shard_routing (ids : list string) (ops : list SystemOp) (op : SystemOp) :
  let s := system_run ids ops in
  (ss_handled s).*2 ++ (ss_in_flight s).*2 ++ ss_lost s ≡ₚ sent ops ∧
  (∃ new, ss_handled (system_step s op) = ss_handled s ++ new ∧
     ∀ r sh e m, (r, sh, e, m) ∈ new →
       sh = shard_id m ∧ e = entity_id m ∧ allocation (ss_coordinator (system_step s op)) !! sh = Some r ∧
       (op = SysDeliver r m ∨ ∃ i, op = SysArrive i ∧ ss_in_flight s !! i = Some (r, m))) ∧
  (∀ ops', ops = (SysInstall <$> ids) ++ ops' → Forall (op_ok ids) ops' → ss_lost s = []) ∧
  (Forall (λ o, ¬ moves o) ops →
     (∀ i to m, ss_in_flight s !! i = Some (to, m) → is_Some (ss_regions s !! to) →
        ss_handled (system_step s (SysArrive i)) = ss_handled s ++ [(to, shard_id m, entity_id m, m)]) ∧
     (∀ r1 r2 sh e1 e2 m1 m2, (r1, sh, e1, m1) ∈ ss_handled s → (r2, sh, e2, m2) ∈ ss_handled s → r1 = r2)).
Proof.
  intros s. destruct (system_run_accounted ids ops) as [Hn Ha]. fold s in Hn, Ha. split_and!.
  - exact Ha.
  - by apply step_handles.
  - intros ops' E Hops. unfold s. rewrite E. by apply co_lost with ids, connected_run.
  - intros Hm. pose proof (settled_run ids ops Hm) as [S1 S2]. fold s in S1, S2. split.
    + intros i to m Hi Hr. cbn. rewrite Hi. pose proof (S1 _ _ (list_elem_of_lookup_2 _ _ _ Hi)) as Hal.
      set (s0 := set_in_flight _ s). assert (regions_named s0) as Hn0 by done.
      destruct (deliver_at_cases to m s0 Hn0) as (_ & _ & _ & [(Hr' & _)|(_ & _ & [(_ & -> & _)|[(Ho & _)|(Ho & _)]])]);
        cbn in *; [by destruct Hr; congruence|done|by rewrite Hal in Ho|by rewrite Hal in Ho].
    + intros r1 r2 sh e1 e2 m1 m2 H1%S2 H2%S2. congruence.
Qed.
End region.
Arguments ShardingSystem : clear implicits.
Arguments SystemOp : clear implicits.

#[local] Instance pair_extractor : MessageExtractor (string * nat) := {
  entity_id m := m.1;
  shard_id m := if String.length m.1 <=? 3 then "short" else "long";
}.

(** Two regions: a message for the other one is under way while its shard is moved, and is sent on. *)
Lemma shard_routing_witness :
  let ops := [SysDeliver "r1" ("bob", 1); SysDeliver "r2" ("ann", 2); SysRebalance "short" "r2"; SysArrive 0;
              SysArrive 0] in
  let s := system_run ["r1"; "r2"] ((SysInstall <$> ["r1"; "r2"]) ++ ops) in
  ss_handled s = [("r1", "short", "bob", ("bob", 1)); ("r2", "short", "ann", ("ann", 2))] ∧ ss_lost s = [].
Proof.
  intros ops s. split; [vm_compute; reflexivity|].
  destruct (shard_routing ["r1"; "r2"] ((SysInstall <$> ["r1"; "r2"]) ++ ops) (SysArrive 0)) as (_ & _ & H & _).
  apply (H ops); [reflexivity|]. repeat apply Forall_cons_2; cbn; try apply Forall_nil_2; try exact I;
    apply (bool_decide_eq_true_1 _); reflexivity.
Defined.

(** Without a forwarder, as a region is made, a message for another region is dropped. *)
Lemma no_forwarder_drops :
  ss_lost (system_run ["r1"; "r2"] [SysDeliver "r1" ("bob", 1); SysDeliver "r2" ("ann", 2)]) = [("ann", 2)].
Proof. vm_compute. reflexivity. Qed.

(** ** Remembered entities *)

Inductive RememberError := RememberBackend (msg : string).

Class RememberEntitiesStore (St : Type) := {
  remember_load : string → St → RememberError + gset string;
  remember_add : string → string → St → St * (RememberError + unit);
  remember_remove : string → string → St → St * (RememberError + unit);
}.

Record RememberedEntities (St : Type) := mkRememberedEntities {
  re_store : St;
  re_cache : gmap string (gset string);
}.
Arguments mkRememberedEntities {_} _ _.
Arguments re_store {_} _.
Arguments re_cache {_} _.

Section remember.
Context {St : Type} `{!RememberEntitiesStore St}.

Definition RememberedEntities_new (store : St) : RememberedEntities St :=
  mkRememberedEntities store ∅.

Definition RememberedEntities_warm (shard : string) (r : RememberedEntities St)
    : RememberedEntities St * (RememberError + unit) :=
  match remember_load shard (re_store r) with
  | inl e => (r, inl e)
  | inr ids => (mkRememberedEntities (re_store r) (<[shard := ids]> (re_cache r)), inr tt)
  end.

Definition RememberedEntities_record_active (shard entity : string) (r : RememberedEntities St)
    : RememberedEntities St * (RememberError + unit) :=
  match remember_add shard entity (re_store r) with
  | (st, inl e) => (mkRememberedEntities st (re_cache r), inl e)
  | (st, inr _) =>
      (mkRememberedEntities st (entry_update ∅ (λ ids, {[entity]} ∪ ids) shard (re_cache r)),
       inr tt)
  end.

Definition RememberedEntities_record_inactive (shard entity : string) (r : RememberedEntities St)
    : RememberedEntities St * (RememberError + unit) :=
  match remember_remove shard entity (re_store r) with
  | (st, inl e) => (mkRememberedEntities st (re_cache r), inl e)
  | (st, inr _) =>
      (mkRememberedEntities st (alter (λ ids, ids ∖ {[entity]}) shard (re_cache r)), inr tt)
  end.

Definition RememberedEntities_entities (shard : string) (r : RememberedEntities St) : gset string :=
  default ∅ (re_cache r !! shard).

Definition RememberedEntities_shard_count (r : RememberedEntities St) : nat := size (re_cache r).
End remember.

Record InMemoryRememberStore := mkInMemoryRememberStore { rm_inner : gmap string (gset string) }.

#[export] Instance InMemoryRememberStore_Store : RememberEntitiesStore InMemoryRememberStore := {
  remember_load shard st := inr (default ∅ (rm_inner st !! shard));
  remember_add shard entity st :=
    (mkInMemoryRememberStore (entry_update ∅ (λ ids, {[entity]} ∪ ids) shard (rm_inner st)), inr tt);
  remember_remove shard entity st :=
    (mkInMemoryRememberStore (alter (λ ids, ids ∖ {[entity]}) shard (rm_inner st)), inr tt);
}.

(** ** Passivation *)

Record PassivationTracker := mkPassivationTracker { pt_inner : gmap string N }.

Definition PassivationTracker_new : PassivationTracker := mkPassivationTracker ∅.
Definition record_activity (now : N) (entity : string) (p : PassivationTracker)
    : PassivationTracker := mkPassivationTracker (<[entity := now]> (pt_inner p)).
Definition drop_entity (entity : string) (p : PassivationTracker) : PassivationTracker :=
  mkPassivationTracker (delete entity (pt_inner p)).
Definition idle_since (now idle_for : N) (p : PassivationTracker) : list string :=
  omap (λ x : string * N, if (idle_for <=? now - x.2)%N then Some x.1 else None)
    (map_to_list (pt_inner p)).
Definition PassivationTracker_entity_count (p : PassivationTracker) : nat := size (pt_inner p).
Definition PassivationTracker_snapshot (now : N) (p : PassivationTracker) : list (string * N) :=
  (λ x : string * N, (x.1, (now - x.2)%N)) <$> map_to_list (pt_inner p).

(** An entity is idle when its last activity is at least [idle_for] ago. *)
Lemma elem_of_idle_since now idle_for p e :
  e ∈ idle_since now idle_for p ↔ ∃ t, pt_inner p !! e = Some t ∧ (idle_for ≤ now - t)%N.
Proof.
  unfold idle_since. rewrite list_elem_of_omap. split.
  - intros ([e' t] & Hin & Hif). apply elem_of_map_to_list in Hin. cbn in Hif.
    destruct (N.leb_spec idle_for (now - t)); simplify_eq. eauto.
  - intros (t & Ht & Hle). exists (e, t). split; [by apply elem_of_map_to_list|]. cbn.
    by rewrite (proj2 (N.leb_le _ _) Hle).
Qed.

(** *** A restart *)

Inductive RememberOp :=
  | RecordActive (shard entity : string)
  | RecordInactive (shard entity : string).

Definition remember_step (r : RememberedEntities InMemoryRememberStore) (op : RememberOp)
    : RememberedEntities InMemoryRememberStore :=
  match op with
  | RecordActive sh e => (RememberedEntities_record_active sh e r).1
  | RecordInactive sh e => (RememberedEntities_record_inactive sh e r).1
  end.

Definition remember_run (ops : list RememberOp) : RememberedEntities InMemoryRememberStore :=
  foldl remember_step (RememberedEntities_new (mkInMemoryRememberStore ∅)) ops.

(** The entities of a shard by the last operation on each. *)
Definition active (shard : string) (ops : list RememberOp) : gset string :=
  foldl (λ ids op,
    match op with
    | RecordActive sh e => if decide (sh = shard) then {[e]} ∪ ids else ids
    | RecordInactive sh e => if decide (sh = shard) then ids ∖ {[e]} else ids
    end) ∅ ops.

Lemma remember_run_views ops shard :
  default ∅ (re_cache (remember_run ops) !! shard) = active shard ops ∧
  default ∅ (rm_inner (re_store (remember_run ops)) !! shard) = active shard ops.
Proof.
  unfold remember_run, active. induction ops as [|op ops [IH1 IH2]] using rev_ind; [done|].
  rewrite !foldl_app. cbn [foldl]. set (r := foldl remember_step _ ops) in *.
  set (ids := foldl _ ∅ ops) in *.
  assert (Hadd : ∀ (m : gmap string (gset string)) sh e,
    default ∅ (entry_update ∅ (λ ids, {[e]} ∪ ids) sh m !! shard) =
    if decide (sh = shard) then {[e]} ∪ default ∅ (m !! shard) else default ∅ (m !! shard)).
  { intros m sh e. rewrite lookup_entry_update. case_decide; subst; done. }
  assert (Hdel : ∀ (m : gmap string (gset string)) sh e,
    default ∅ (alter (λ ids, ids ∖ {[e]}) sh m !! shard) =
    if decide (sh = shard) then default ∅ (m !! shard) ∖ {[e]} else default ∅ (m !! shard)).
  { intros m sh e. case_decide as Hs; subst.
    - rewrite lookup_alter_eq. destruct (m !! shard); cbn; [done|set_solver].
    - by rewrite lookup_alter_ne. }
  destruct op as [sh e|sh e]; cbn; rewrite ?Hadd, ?Hdel, IH1, IH2; done.
Qed.

(** What a registry knows of a shard, what its store holds and what a registry started
    later on the same store knows after loading the shard are the same: the entities
    whose last record says active. *)
Theorem remember_survives_restart (ops : list RememberOp) (shard : string) :
  let r := remember_run ops in
  let fresh := (RememberedEntities_warm shard (RememberedEntities_new (re_store r))).1 in
  RememberedEntities_entities shard r = active shard ops ∧
  RememberedEntities_entities shard fresh = active shard ops.
Proof.
  destruct (remember_run_views ops shard) as [H1 H2]. split; [exact H1|].
  unfold RememberedEntities_entities, RememberedEntities_warm. cbn.
  by rewrite lookup_insert_eq.
Qed.

(** ** The event-sourced coordinator *)

Inductive CoordinatorEvent :=
  | ShardAllocated (shard region : string)
  | ShardRebalanced (shard from_region to_region : string)
  | ShardRemoved (shard : string).

Inductive CoordinatorCommand :=
  | CAllocate (shard region : string)
  | CRebalance (shard to_region : string)
  | CRemove (shard : string).

Inductive CoordinatorError := UnknownShard (shard : string).

Record CoordinatorState := mkCoordinatorState { cs_allocations : gmap string string }.

Record PersistentShardCoordinator := mkPersistentShardCoordinator { psc_persistence_id : string }.

Definition coordinator_command_to_events (_self : PersistentShardCoordinator)
    (state : CoordinatorState) (cmd : CoordinatorCommand)
    : CoordinatorError + list CoordinatorEvent :=
  match cmd with
  | CAllocate shard region => inr [ShardAllocated shard region]
  | CRebalance shard to_region =>
      match cs_allocations state !! shard with
      | None => inl (UnknownShard shard)
      | Some from => inr [ShardRebalanced shard from to_region]
      end
  | CRemove shard =>
      match cs_allocations state !! shard with
      | None => inl (UnknownShard shard)
      | Some _ => inr [ShardRemoved shard]
      end
  end.

Definition coordinator_apply_event (state : CoordinatorState) (event : CoordinatorEvent)
    : CoordinatorState :=
  mkCoordinatorState
    (match event with
     | ShardAllocated shard region => <[shard := region]> (cs_allocations state)
     | ShardRebalanced shard _ to_region => <[shard := to_region]> (cs_allocations state)
     | ShardRemoved shard => delete shard (cs_allocations state)
     end).

Definition project_into (state : CoordinatorState) (target : ShardCoordinator) : ShardCoordinator :=
  foldl (λ t x, ShardCoordinator_rebalance x.1 x.2 t) target (map_to_list (cs_allocations state)).

Lemma project_into_region state target shard :
  ShardCoordinator_region_for shard (project_into state target) =
    match cs_allocations state !! shard with
    | Some r => Some r
    | None => ShardCoordinator_region_for shard target
    end.
Proof.
  unfold project_into, ShardCoordinator_region_for.
  pose proof (NoDup_fst_map_to_list (cs_allocations state)) as Hnd.
  assert (Hl : ∀ l (t : ShardCoordinator), NoDup l.*1 →
    allocation (foldl (λ t x, ShardCoordinator_rebalance x.1 x.2 t) t l) !! shard =
    match (list_to_map l : gmap string string) !! shard with
    | Some r => Some r | None => allocation t !! shard end).
  { induction l as [|[s r] l IH]; intros t; cbn; [done|]. intros [Hs Hl]%NoDup_cons.
    rewrite IH by done. cbn. destruct (decide (s = shard)) as [->|Hne].
    - by rewrite !lookup_insert_eq, not_elem_of_list_to_map_1.
    - by rewrite !lookup_insert_ne. }
  by rewrite Hl, list_to_map_to_list.
Qed.

(** What a command means for the table. *)
Definition coordinator_spec (t : gmap string string) (cmd : CoordinatorCommand)
    : gmap string string :=
  match cmd with
  | CAllocate shard region => <[shard := region]> t
  | CRebalance shard to_region => alter (λ _, to_region) shard t
  | CRemove shard => delete shard t
  end.

Section persistent_coordinator.
(** [bincode] encodes every event and decodes what it encoded. *)
Context (encode : CoordinatorEvent → string + Bytes) (decode : Bytes → string + CoordinatorEvent).
Context (encode_total : ∀ e, ∃ b, encode e = inr b).
Context (decode_encode : ∀ e b, encode e = inr b → decode b = inr e).
Context {J : Type} `{HS : JournalSpec J}.

#[local] Instance coordinator_es
    : Eventsourced PersistentShardCoordinator CoordinatorCommand CoordinatorEvent
        CoordinatorState CoordinatorError := {
  es_persistence_id := psc_persistence_id;
  event_manifest _ := "evt";
  command_to_events := coordinator_command_to_events;
  apply_event := coordinator_apply_event;
  encode_event := encode;
  decode_event := decode;
  recovery_completed self _ _ := self;
  state_default := mkCoordinatorState ∅;
}.

#[local] Instance coordinator_codec
    : CodecLaws PersistentShardCoordinator CoordinatorCommand CoordinatorEvent
        CoordinatorState CoordinatorError.
Proof. constructor. exact decode_encode. Qed.

Definition coordinator_run (self : PersistentShardCoordinator) (j : J)
    (cmds : list CoordinatorCommand) : EsRun CoordinatorState CoordinatorError J :=
  es_run self j (EsCommand "w" <$> cmds).

Lemma coordinator_foreign pid (cmds : list CoordinatorCommand) :
  Forall (foreign pid) (EsCommand "w" <$> cmds).
Proof. apply Forall_fmap, Forall_true. done. Qed.

Lemma coordinator_attempted self j cmds :
  (run_attempted (coordinator_run self j cmds) ≤ N.of_nat (length cmds))%N.
Proof.
  unfold coordinator_run. induction cmds as [|cmd cmds IH] using rev_ind; [done|].
  rewrite fmap_app. cbn [fmap list_fmap]. rewrite es_run_snoc, length_app. cbn [es_step length].
  set (r := es_run self j (EsCommand "w" <$> cmds)) in *.
  assert (Hp : (produced self (run_state r) cmd ≤ 1)%N).
  { unfold produced. cbn. destruct cmd; cbn; [lia|..]; destruct (_ !! _); cbn; lia. }
  destruct (handle_command _ _ _ _ _ _) as [[[]]]. cbn. lia.
Qed.

Lemma coordinator_effect self st cmd :
  cs_allocations (command_effect self st cmd) = coordinator_spec (cs_allocations st) cmd.
Proof.
  unfold command_effect. cbn [command_to_events coordinator_es apply_event].
  destruct cmd as [sh rg|sh rg|sh]; cbn; [done|..]; destruct (cs_allocations st !! sh) eqn:E; cbn.
  - apply map_eq. intros k. destruct (decide (k = sh)) as [->|].
    + by rewrite lookup_insert_eq, lookup_alter_eq, E.
    + by rewrite lookup_insert_ne, lookup_alter_ne.
  - apply map_eq. intros k. destruct (decide (k = sh)) as [->|].
    + by rewrite lookup_alter_eq, E.
    + by rewrite lookup_alter_ne.
  - done.
  - by rewrite delete_id.
Qed.

Lemma coordinator_effects self st cmds :
  cs_allocations (foldl (command_effect self) st cmds) =
    foldl coordinator_spec (cs_allocations st) cmds.
Proof.
  revert st; induction cmds as [|c cs IH]; intros st; [done|].
  cbn [foldl]. by rewrite IH, coordinator_effect.
Qed.

(** A coordinator that handles any sequence of allocate, rebalance and remove commands
    keeps the table they describe, and a coordinator that starts on another node,
    recovers from the journal and projects the result has exactly that table; commands
    are refused only for an unknown shard. *)
Theorem coordinator_recovers (self : PersistentShardCoordinator) (j : J)
    (cmds : list CoordinatorCommand) :
  journal_view j (psc_persistence_id self) = [] →
  (N.of_nat (length cmds) < u64_modulus)%N →
  let r := coordinator_run self j cmds in
  let table := foldl coordinator_spec ∅ cmds in
  cs_allocations (run_state r) = table ∧
  Forall (λ res, res = inr tt ∨ ∃ d, res = inl (Domain d)) (run_results r) ∧
  ∃ st n, recover true self (run_journal r) (mkCoordinatorState ∅) = (self, st, inr n) ∧
    ∀ shard, ShardCoordinator_region_for shard (project_into st ShardCoordinator_new) =
      table !! shard.
Proof.
  intros Hj Hlen r table. pose proof (coordinator_attempted self j cmds) as Hatt.
  assert (Hb : (run_attempted (es_run self j (EsCommand "w" <$> cmds)) < u64_modulus)%N)
    by (unfold coordinator_run in Hatt; lia).
  assert (Hst : cs_allocations (run_state r) = table).
  { unfold r, coordinator_run. rewrite es_run_state by done.
    apply (coordinator_effects self (mkCoordinatorState ∅)). }
  pose proof (es_run_sound self j _ encode_total Hj (coordinator_foreign _ cmds) Hb) as [_ Hres].
  split; [done|]. split; [exact Hres|].
  pose proof (recover_inv self r (es_inv_run self j _ Hj (coordinator_foreign _ cmds) Hb) Hb)
    as Hrec.
  do 2 eexists. split; [exact Hrec|]. intros shard. rewrite project_into_region, Hst.
  by destruct (table !! shard).
Qed.
End persistent_coordinator.

(** *** A concrete codec *)

(** A string as its bytes, each after a [01], closed by a [00]. *)
Fixpoint put_bytes (bs : Bytes) : Bytes :=
  match bs with
  | [] => [Byte.x00]
  | b :: bs' => Byte.x01 :: b :: put_bytes bs'
  end.

Fixpoint get_bytes (bs : Bytes) : option (Bytes * Bytes) :=
  match bs with
  | Byte.x00 :: rest => Some ([], rest)
  | Byte.x01 :: b :: bs' =>
      match get_bytes bs' with Some (s, rest) => Some (b :: s, rest) | None => None end
  | _ => None
  end.

Lemma get_put_bytes bs rest : get_bytes (put_bytes bs ++ rest) = Some (bs, rest).
Proof. induction bs as [|b bs IH]; cbn; [done|]. by rewrite IH. Qed.

Definition put_string (s : string) : Bytes := put_bytes (String.list_byte_of_string s).
Definition get_string (bs : Bytes) : option (string * Bytes) :=
  '(b, rest) ← get_bytes bs; Some (String.string_of_list_byte b, rest).

Lemma get_put_string s rest : get_string (put_string s ++ rest) = Some (s, rest).
Proof.
  unfold get_string, put_string. rewrite get_put_bytes. cbn.
  by rewrite String.string_of_list_byte_of_string.
Qed.

Definition toy_encode (e : CoordinatorEvent) : string + Bytes :=
  inr (match e with
       | ShardAllocated s r => Byte.x00 :: put_string s ++ put_string r
       | ShardRebalanced s f t => Byte.x01 :: put_string s ++ put_string f ++ put_string t
       | ShardRemoved s => Byte.x02 :: put_string s
       end).

Definition toy_decode (bs : Bytes) : string + CoordinatorEvent :=
  let result :=
    match bs with
    | Byte.x00 :: bs =>
        '(s, bs) ← get_string bs; '(r, _) ← get_string bs; Some (ShardAllocated s r)
    | Byte.x01 :: bs =>
        '(s, bs) ← get_string bs; '(f, bs) ← get_string bs; '(t, _) ← get_string bs;
        Some (ShardRebalanced s f t)
    | Byte.x02 :: bs => '(s, _) ← get_string bs; Some (ShardRemoved s)
    | _ => None
    end in
  match result with Some e => inr e | None => inl "bad event" end.

Lemma toy_codec e b : toy_encode e = inr b → toy_decode b = inr e.
Proof.
  intros [= <-]. unfold toy_decode. destruct e as [s r|s f t|s].
  - rewrite get_put_string. cbn. rewrite <- (app_nil_r (put_string r)), get_put_string. done.
  - rewrite get_put_string. cbn. rewrite get_put_string. cbn.
    rewrite <- (app_nil_r (put_string t)), get_put_string. done.
  - rewrite <- (app_nil_r (put_string s)), get_put_string. done.
Qed.

Lemma coordinator_recovers_witness :
  let self := mkPersistentShardCoordinator "coord" in
  let cmds := [CAllocate "s1" "r1"; CRebalance "s1" "r2"; CRemove "s2"; CAllocate "s2" "r1"] in
  let r := coordinator_run toy_encode toy_decode self InMemoryJournal_new cmds in
  cs_allocations (run_state r) = {["s1" := "r2"; "s2" := "r1"]} ∧
  run_results r = [inr tt; inr tt; inl (Domain (UnknownShard "s2")); inr tt].
Proof.
  intros self cmds r. split; [|reflexivity].
  refine (proj1 (coordinator_recovers toy_encode toy_decode _ toy_codec self InMemoryJournal_new
            cmds _ _)); [|reflexivity|reflexivity].
  intros e. exists (match toy_encode e with inr b => b | inl _ => [] end). reflexivity.
Defined.

(** ** The coordinator on replicated data *)

Record DDataShardCoordinator := mkDDataShardCoordinator {
  dd_state : LWWMap string string;
  dd_next_ts : N;
}.

(** [bootstrap] is the wall clock in nanoseconds. *)
Definition DDataShardCoordinator_new (bootstrap : N) : DDataShardCoordinator :=
  mkDDataShardCoordinator LWWMap_new (wrap64 bootstrap).

(** [tick] and [put]: the stamp is the counter before it moves on. *)
Definition DDataShardCoordinator_allocate (shard region : string) (c : DDataShardCoordinator)
    : DDataShardCoordinator :=
  let ts := dd_next_ts c in
  mkDDataShardCoordinator (LWWMap_put shard region ts (dd_state c)) (u64_add ts 1).

Definition DDataShardCoordinator_region_for (shard : string) (c : DDataShardCoordinator)
    : option string := LWWMap_get shard (dd_state c).

Definition DDataShardCoordinator_shard_count (c : DDataShardCoordinator) : nat :=
  size (lm_entries (dd_state c)).

Definition DDataShardCoordinator_allocations (c : DDataShardCoordinator)
    : list (string * string) :=
  sort_by_key fst ((λ x : string * (N * string), (x.1, x.2.2)) <$>
    map_to_list (lm_entries (dd_state c))).

Definition DDataShardCoordinator_merge_remote (remote : LWWMap string string)
    (c : DDataShardCoordinator) : DDataShardCoordinator :=
  mkDDataShardCoordinator (crdt_merge (dd_state c) remote) (dd_next_ts c).

Definition DDataShardCoordinator_snapshot (c : DDataShardCoordinator) : LWWMap string string :=
  dd_state c.

(** An allocation takes effect when the local clock is ahead of the stamp of the shard. *)
Lemma ddata_allocate_effective shard region c :
  (∀ t r, lm_entries (dd_state c) !! shard = Some (t, r) → (t < dd_next_ts c)%N) →
  DDataShardCoordinator_region_for shard (DDataShardCoordinator_allocate shard region c) =
    Some region.
Proof.
  intros Hts. unfold DDataShardCoordinator_region_for, DDataShardCoordinator_allocate, LWWMap_get,
    LWWMap_put. cbn. destruct (lm_entries (dd_state c) !! shard) as [[t r]|] eqn:E; cbn.
  - destruct (N.leb_spec (dd_next_ts c) t) as [Hle|]; [pose proof (Hts t r eq_refl); lia|].
    cbn. by rewrite lookup_insert_eq.
  - by rewrite lookup_insert_eq.
Qed.

(** Merging does not move the local clock: an allocation made after adopting a later stamp
    of another node is lost. *)
Lemma ddata_allocate_lost :
  let c := DDataShardCoordinator_new 100 in
  let remote := DDataShardCoordinator_allocate "s1" "r-remote" (DDataShardCoordinator_new 200) in
  let c := DDataShardCoordinator_merge_remote (DDataShardCoordinator_snapshot remote) c in
  DDataShardCoordinator_region_for "s1" (DDataShardCoordinator_allocate "s1" "r-new" c) =
    Some "r-remote".
Proof. vm_compute. reflexivity. Qed.
