(* ===== verification/Routing.v ===== *)
(** * Routers ([crates/atomr-core/src/routing])

    A router keeps its routees and a little state; routing a message yields the routees
    told, in order.  Routees are given by their references, of any type with decidable
    equality.  The hash of the standard library is a parameter: [vnode_hash] on the path
    of a routee and the number of a virtual node.  The resizer computes with floating
    point and is not modelled. *)

From stdpp Require Import gmap strings list sorting.
From Stdlib Require Import NArith Lia.
From S2P Require Import Prelude.

(** ** The cursor of the round-robin routers *)

(** [cursor.fetch_add(1)] wraps; the index is its old value modulo the length. *)
Definition cursor_next (cursor : N) (n : nat) : nat * N :=
  (N.to_nat (cursor mod N.of_nat n), u64_add cursor 1).

(** The order of the keys of a ring. *)
Definition hash_le (a b : N * nat) : Prop := (a.1 ≤ b.1)%N.

#[export] Instance hash_le_dec (a b : N * nat) : Decision (hash_le a b).
Proof. unfold hash_le. apply _. Defined.

#[export] Instance hash_le_total : Total hash_le.
Proof. intros a b. unfold hash_le. lia. Qed.

#[export] Instance hash_le_trans : Transitive hash_le.
Proof. intros a b c. unfold hash_le. lia. Qed.

Section routers.
Context {Ref : Type} `{!EqDecision Ref}.

Record RoundRobinRouter := mkRoundRobin { rr_routees : list Ref; rr_cursor : N }.

Definition RoundRobin_new (routees : list Ref) : RoundRobinRouter := mkRoundRobin routees 0.

Definition RoundRobin_route (r : RoundRobinRouter) : RoundRobinRouter * list Ref :=
  match rr_routees r with
  | [] => (r, [])
  | _ =>
      let '(i, c) := cursor_next (rr_cursor r) (length (rr_routees r)) in
      (mkRoundRobin (rr_routees r) c, option_list (rr_routees r !! i))
  end.

(** [n] messages, and who got them. *)
Fixpoint RoundRobin_run (n : nat) (r : RoundRobinRouter) : RoundRobinRouter * list Ref :=
  match n with
  | 0 => (r, [])
  | S n =>
      let '(r, l) := RoundRobin_route r in
      let '(r, l') := RoundRobin_run n r in (r, l ++ l')
  end.

(** ** Random *)

Record RandomRouter := mkRandom { rnd_routees : list Ref; rnd_seed : N }.

Definition Random_new (routees : list Ref) : RandomRouter := mkRandom routees 0xDEADBEEF.

Definition splitmix64 (x : N) : N :=
  let x := u64_add x 0x9E3779B97F4A7C15 in
  let z := wrap64 (N.lxor x (N.shiftr x 30) * 0xBF58476D1CE4E5B9) in
  let z := wrap64 (N.lxor z (N.shiftr z 27) * 0x94D049BB133111EB) in
  N.lxor z (N.shiftr z 31).

Definition Random_route (r : RandomRouter) : RandomRouter * list Ref :=
  match rnd_routees r with
  | [] => (r, [])
  | _ =>
      let s := rnd_seed r in
      let i := N.to_nat (splitmix64 s mod N.of_nat (length (rnd_routees r))) in
      (mkRandom (rnd_routees r) (u64_add s 1), option_list (rnd_routees r !! i))
  end.

(** ** Broadcast *)

Definition Broadcast_route (routees : list Ref) : list Ref := routees.

(** ** Smallest mailbox *)

Record SmallestMailboxRouter := mkSmallest { sm_routees : list (Ref * N); sm_cursor : N }.

Definition Smallest_new (routees : list Ref) : SmallestMailboxRouter :=
  mkSmallest ((λ r, (r, 0%N)) <$> routees) 0.

(** [min_by_key]: the first of the least. *)
Fixpoint min_index (counts : list N) : option (nat * N) :=
  match counts with
  | [] => None
  | c :: counts =>
      match min_index counts with
      | Some (i, m) => if (c <=? m)%N then Some (0, c) else Some (S i, m)
      | None => Some (0, c)
      end
  end.

Definition Smallest_route (r : SmallestMailboxRouter) : SmallestMailboxRouter * list Ref :=
  match sm_routees r with
  | [] => (r, [])
  | _ =>
      let '(best, cursor) :=
        match min_index ((sm_routees r).*2) with
        | Some (i, _) => (i, sm_cursor r)
        | None => cursor_next (sm_cursor r) (length (sm_routees r))
        end in
      (mkSmallest (alter (λ p, (p.1, u64_add p.2 1)) best (sm_routees r)) cursor,
       option_list (fst <$> sm_routees r !! best))
  end.

(** [fetch_sub] wraps below zero. *)
Definition on_processed (idx : nat) (r : SmallestMailboxRouter) : SmallestMailboxRouter :=
  mkSmallest (alter (λ p, (p.1, wrap64 (p.2 + (u64_modulus - 1)))) idx (sm_routees r))
    (sm_cursor r).

Fixpoint Smallest_run (n : nat) (r : SmallestMailboxRouter) : SmallestMailboxRouter * list Ref :=
  match n with
  | 0 => (r, [])
  | S n =>
      let '(r, l) := Smallest_route r in
      let '(r, l') := Smallest_run n r in (r, l ++ l')
  end.

(** ** Listeners *)

Definition Listener_subscribe (r : Ref) (subs : list Ref) : list Ref :=
  if existsb (λ s, bool_decide (s = r)) subs then subs else subs ++ [r].

Definition Listener_unsubscribe (r : Ref) (subs : list Ref) : bool * list Ref :=
  let kept := filter (λ s, s ≠ r) subs in
  (negb (length kept =? length subs), kept).

Definition Listener_publish (subs : list Ref) : list Ref := subs.

(** ** Tail chopping *)

Record TailChoppingRouter := mkTailChopping {
  tc_routees : list Ref;
  tc_cursor : N;
  tc_interval : N;
  tc_within : N;
}.

Definition TailChopping_new (routees : list Ref) (interval within : N) : TailChoppingRouter :=
  mkTailChopping routees 0 interval within.

Definition next_attempt (r : TailChoppingRouter) : TailChoppingRouter * option Ref :=
  match tc_routees r with
  | [] => (r, None)
  | _ =>
      let '(i, c) := cursor_next (tc_cursor r) (length (tc_routees r)) in
      (mkTailChopping (tc_routees r) c (tc_interval r) (tc_within r), tc_routees r !! i)
  end.

(** The cast of the number of intervals to [usize] truncates. *)
Definition max_attempts (r : TailChoppingRouter) : nat :=
  Nat.min
    (if (tc_interval r =? 0)%N then length (tc_routees r)
     else let step := N.max (tc_interval r) 1 in
          N.to_nat (wrap64 ((tc_within r + step - 1) / step)))
    (Nat.max (length (tc_routees r)) 1).

(** The recipients of [n] attempts. *)
Fixpoint attempts (n : nat) (r : TailChoppingRouter) : list Ref :=
  match n with
  | 0 => []
  | S n => let '(r, o) := next_attempt r in option_list o ++ attempts n r
  end.

(** ** Scatter and gather *)

(** [completions]: the outcomes of the asks in the order they complete. *)
Fixpoint ask_first {R} (completions : list (option R)) : option R :=
  match completions with
  | [] => None
  | Some v :: _ => Some v
  | None :: rest => ask_first rest
  end.

(** ** Consistent hashing *)

Section consistent_hash.
Context (vnode_hash : Ref → N → N).

(** The ring maps the hash of a virtual node to the index of its routee. *)
Record ConsistentHashRouter := mkConsistentHash {
  ch_ring : gmap N nat;
  ch_routees : list Ref;
  ch_vnodes : N;
}.

Fixpoint insert_vnodes (r : Ref) (i : nat) (vs : list N) (ring : gmap N nat) : gmap N nat :=
  match vs with
  | [] => ring
  | v :: vs => insert_vnodes r i vs (<[vnode_hash r v := i]> ring)
  end.

Fixpoint build_ring (i : nat) (routees : list Ref) (vs : list N) (ring : gmap N nat) : gmap N nat :=
  match routees with
  | [] => ring
  | r :: routees => build_ring (S i) routees vs (insert_vnodes r i vs ring)
  end.

Definition ConsistentHash_new (routees : list Ref) (factor : N) : ConsistentHashRouter :=
  mkConsistentHash (build_ring 0 routees (N.of_nat <$> seq 0 (N.to_nat factor)) ∅) routees factor.

(** The entries in the order of a [BTreeMap]. *)
Definition ring_entries (ring : gmap N nat) : list (N * nat) :=
  merge_sort hash_le (map_to_list ring).

(** [range(k..).next().or_else(|| iter().next())]. *)
Definition ring_lookup (k : N) (ring : gmap N nat) : option nat :=
  let entries := ring_entries ring in
  match filter (λ e, (k ≤ e.1)%N) entries with
  | e :: _ => Some e.2
  | [] => snd <$> head entries
  end.

(** [k]: the hash of the key. *)
Definition route_by_key (k : N) (r : ConsistentHashRouter) : list Ref :=
  match ch_routees r with
  | [] => []
  | _ => option_list (ring_lookup k (ch_ring r) ≫= λ i, ch_routees r !! i)
  end.
End consistent_hash.

(** ** Round robin is fair *)

(** The list from position [c] on, around the end. *)
Definition rotate_list (c : nat) (l : list Ref) : list Ref := drop c l ++ take c l.

Lemma rotate_list_perm c l : rotate_list c l ≡ₚ l.
Proof. unfold rotate_list. rewrite Permutation_app_comm. by rewrite take_drop. Qed.

Lemma cursor_next_spec c n :
  (c + 1 < u64_modulus)%N → cursor_next c n = (N.to_nat (c mod N.of_nat n), (c + 1)%N).
Proof. intros. unfold cursor_next. by rewrite u64_add_small. Qed.

(** The first [m] recipients are the first [m] of the list rotated to the cursor. *)
Lemma RoundRobin_run_take m l c :
  m ≤ length l → (c + N.of_nat m < u64_modulus)%N →
  RoundRobin_run m (mkRoundRobin l c) =
    (mkRoundRobin l (c + N.of_nat m), take m (rotate_list (N.to_nat (c mod N.of_nat (length l))) l)).
Proof.
  revert c; induction m as [|m IH]; intros c Hm Hc.
  { cbn. by rewrite N.add_0_r. }
  cbn [RoundRobin_run]. unfold RoundRobin_route. cbn [rr_routees rr_cursor].
  destruct l as [|x0 l0]; [cbn in Hm; lia|]. set (l := x0 :: l0) in *. set (n := length l) in *.
  assert (Hn : (0 < N.of_nat n)%N) by (unfold n, l; cbn; lia).
  rewrite cursor_next_spec by lia. rewrite IH by lia.
  f_equal; [f_equal; lia|].
  pose proof (N.mod_lt c (N.of_nat n) ltac:(lia)) as Hlt.
  set (i := N.to_nat (c mod N.of_nat n)). assert (Hi : i < n) by lia.
  destruct (lookup_lt_is_Some_2 l i Hi) as [x Hx]. rewrite Hx.
  change (option_list (Some x)) with [x]. cbn [app].
  assert (Hrot : rotate_list i l = x :: drop (S i) l ++ take i l)
    by (unfold rotate_list; by rewrite (drop_S l x i Hx)).
  rewrite Hrot. cbn [take]. f_equal.
  assert (Hnext : N.to_nat ((c + 1) mod N.of_nat n) = if decide (S i = n) then 0 else S i).
  { pose proof (N.div_mod c (N.of_nat n) ltac:(lia)) as Hdm.
    case_decide as Hd.
    - replace (c + 1)%N with ((c / N.of_nat n + 1) * N.of_nat n)%N by (unfold i in Hd; lia).
      by rewrite N.Div0.mod_mul.
    - rewrite <- (N.mod_unique (c + 1) (N.of_nat n) (c / N.of_nat n) (c mod N.of_nat n + 1));
        unfold i in *; lia. }
  rewrite Hnext. unfold rotate_list. case_decide as Hd.
  - rewrite drop_0, take_0, app_nil_r. rewrite (drop_ge l (S i)) by (fold n; lia). cbn.
    rewrite take_take. f_equal; lia.
  - rewrite (take_S_r l i x Hx), app_assoc, (take_app_le (drop (S i) l ++ take i l)); [done|].
    rewrite length_app, length_drop, length_take. fold n. lia.
Qed.

Lemma RoundRobin_run_app m m' r :
  RoundRobin_run (m + m') r =
    let '(r1, l1) := RoundRobin_run m r in
    let '(r2, l2) := RoundRobin_run m' r1 in (r2, l1 ++ l2).
Proof.
  revert r; induction m as [|m IH]; intros r; cbn; [by destruct (RoundRobin_run m' r)|].
  destruct (RoundRobin_route r) as [r1 l1]. rewrite IH.
  destruct (RoundRobin_run m r1) as [r2 l2]. destruct (RoundRobin_run m' r2) as [r3 l3].
  by rewrite app_assoc.
Qed.

Lemma RoundRobin_cycles k l c :
  (c + N.of_nat (k * length l) < u64_modulus)%N →
  (RoundRobin_run (k * length l) (mkRoundRobin l c)).2 ≡ₚ concat (replicate k l).
Proof.
  revert c; induction k as [|k IH]; intros c Hc; [done|]. cbn [Nat.mul replicate concat].
  rewrite RoundRobin_run_app, RoundRobin_run_take by lia.
  specialize (IH (c + N.of_nat (length l))%N ltac:(lia)).
  destruct (RoundRobin_run (k * length l) _) as [r2 l2]. cbn [snd] in *.
  rewrite IH, take_ge; [by rewrite rotate_list_perm|].
  by rewrite (Permutation_length (rotate_list_perm _ l)).
Qed.

(** A tail-chopping router tries routees in the same order. *)
Lemma attempts_round_robin n l c interval within :
  attempts n (mkTailChopping l c interval within) = (RoundRobin_run n (mkRoundRobin l c)).2.
Proof.
  revert c; induction n as [|n IH]; intros c; [done|].
  cbn [attempts RoundRobin_run]. unfold next_attempt, RoundRobin_route. cbn [tc_routees rr_routees].
  destruct l as [|x l]; cbn [tc_cursor rr_cursor tc_interval tc_within].
  - rewrite IH. by destruct (RoundRobin_run n _).
  - destruct (cursor_next c _) as [i c']. rewrite IH. by destruct (RoundRobin_run n _).
Qed.

Lemma max_attempts_le r : max_attempts r ≤ Nat.max (length (tc_routees r)) 1.
Proof. unfold max_attempts. lia. Qed.

Lemma attempts_distinct l c interval within n :
  NoDup l → n ≤ length l → (c + N.of_nat n < u64_modulus)%N →
  NoDup (attempts n (mkTailChopping l c interval within)) ∧
  length (attempts n (mkTailChopping l c interval within)) = n.
Proof.
  intros Hl Hn Hc. rewrite attempts_round_robin, RoundRobin_run_take by done. cbn [snd].
  pose proof (rotate_list_perm (N.to_nat (c mod N.of_nat (length l))) l) as Hp.
  split; [|rewrite length_take, (Permutation_length Hp); lia].
  eapply sublist_NoDup; [|apply sublist_take]. by rewrite Hp.
Qed.

(** ** The smallest mailbox is balanced *)

Lemma min_index_spec counts i m :
  min_index counts = Some (i, m) → counts !! i = Some m ∧ Forall (λ c, (m ≤ c)%N) counts.
Proof.
  revert i m; induction counts as [|c counts IH]; intros i m; [done|]. cbn.
  destruct (min_index counts) as [[j n]|] eqn:E.
  - destruct (IH j n eq_refl) as [Hj Hall]. destruct (N.leb_spec c n) as [Hle|Hlt]; intros [= <- <-].
    + split; [done|]. constructor; [lia|]. eapply Forall_impl; [exact Hall|]. cbn. lia.
    + split; [done|]. constructor; [lia|done].
  - intros [= <- <-]. split; [done|]. constructor; [lia|].
    destruct counts as [|c' counts]; [constructor|]. cbn in E. destruct (min_index counts) as [[j n]|];
      [destruct (c' <=? n)%N|]; done.
Qed.

Lemma min_index_is_Some counts : counts ≠ [] → is_Some (min_index counts).
Proof.
  destruct counts as [|c counts]; [done|]. intros _. cbn.
  destruct (min_index counts) as [[]|]; [destruct (_ <=? _)%N|]; eauto.
Qed.

(** All counts are within one of each other, and sum up to the messages routed. *)
Definition balanced (total : nat) (counts : list N) : Prop :=
  (∃ m, Forall (λ c, (m ≤ c ≤ m + 1)%N) counts) ∧ foldr N.add 0%N counts = N.of_nat total.

Lemma sum_alter_succ counts i c :
  counts !! i = Some c →
  foldr N.add 0%N (alter N.succ i counts) = (foldr N.add 0 counts + 1)%N.
Proof.
  revert i; induction counts as [|x counts IH]; intros [|i] Hi; try done; cbn in *; [lia|].
  rewrite (IH i Hi). lia.
Qed.

Lemma sum_elem_le counts c : c ∈ counts → (c ≤ foldr N.add 0 counts)%N.
Proof. induction 1; cbn; lia. Qed.

Lemma Smallest_route_balanced total (r : SmallestMailboxRouter) :
  sm_routees r ≠ [] → (N.of_nat total + 1 < u64_modulus)%N →
  balanced total ((sm_routees r).*2) →
  let '(r', told) := Smallest_route r in
  balanced (S total) ((sm_routees r').*2) ∧ (sm_routees r').*1 = (sm_routees r).*1 ∧
  ∃ i p, sm_routees r !! i = Some p ∧ told = [p.1] ∧
    Forall (λ c, (p.2 ≤ c)%N) ((sm_routees r).*2) ∧
    sm_routees r' = alter (λ p, (p.1, (p.2 + 1)%N)) i (sm_routees r).
Proof.
  intros Hne Ht [[m Hm] Hsum]. unfold Smallest_route.
  destruct (sm_routees r) as [|p0 l0] eqn:E; [done|]. rewrite <- E in *. clear E p0 l0.
  set (l := sm_routees r) in *.
  destruct (min_index_is_Some (l.*2)) as [[i mi] Hi]; [by destruct l|]. rewrite Hi.
  destruct (min_index_spec _ _ _ Hi) as [Hli Hmin].
  rewrite list_lookup_fmap in Hli. destruct (l !! i) as [p|] eqn:Ep; [|done].
  cbn in Hli. injection Hli as <-. cbn [sm_routees fst snd fmap option_fmap option_map].
  assert (Hp : (p.2 ≤ foldr N.add 0 (l.*2))%N).
  { apply sum_elem_le, list_elem_of_fmap. exists p. split; [done|]. by eapply list_elem_of_lookup_2. }
  assert (Halt : alter (λ p : Ref * N, (p.1, u64_add p.2 1)) i l =
                 alter (λ p : Ref * N, (p.1, (p.2 + 1)%N)) i l).
  { apply list_eq. intros j. destruct (decide (j = i)) as [->|Hj].
    - rewrite !list_lookup_alter_eq, Ep. cbn. by rewrite u64_add_small by lia.
    - by rewrite !list_lookup_alter_ne. }
  rewrite Halt.
  assert (H2 : (alter (λ p : Ref * N, (p.1, (p.2 + 1)%N)) i l).*2 = alter N.succ i (l.*2)).
  { apply list_eq. intros j. rewrite list_lookup_fmap. destruct (decide (j = i)) as [->|Hj].
    - rewrite !list_lookup_alter_eq, list_lookup_fmap, Ep. cbn. by rewrite N.add_1_r.
    - by rewrite !list_lookup_alter_ne, list_lookup_fmap. }
  rewrite H2. split; [split|split].
  - exists p.2. apply Forall_lookup_2. intros j c Hj. rewrite Forall_lookup in Hm, Hmin.
    assert (Hpm : (m ≤ p.2 ≤ m + 1)%N) by (apply (Hm i); by rewrite list_lookup_fmap, Ep).
    destruct (decide (j = i)) as [->|Hji].
    + rewrite list_lookup_alter_eq, list_lookup_fmap, Ep in Hj. cbn in Hj. simplify_eq. lia.
    + rewrite list_lookup_alter_ne in Hj by done. specialize (Hm _ _ Hj). specialize (Hmin _ _ Hj).
      cbn in *. lia.
  - rewrite (sum_alter_succ _ _ p.2); [lia|by rewrite list_lookup_fmap, Ep].
  - apply list_eq. intros j. rewrite !list_lookup_fmap. destruct (decide (j = i)) as [->|Hj].
    + rewrite list_lookup_alter_eq, Ep. done.
    + by rewrite list_lookup_alter_ne.
  - exists i, p. rewrite Ep. done.
Qed.

Lemma Smallest_run_balanced n total r :
  sm_routees r ≠ [] → (N.of_nat (total + n) < u64_modulus)%N →
  balanced total ((sm_routees r).*2) →
  balanced (total + n) ((sm_routees (Smallest_run n r).1).*2) ∧ length (Smallest_run n r).2 = n.
Proof.
  revert total r; induction n as [|n IH]; intros total r Hne Ht Hb.
  { by rewrite Nat.add_0_r. }
  cbn [Smallest_run]. pose proof (Smallest_route_balanced total r Hne ltac:(lia) Hb) as H.
  destruct (Smallest_route r) as [r1 told]. destruct H as (Hb1 & H1 & i & p & Hi & -> & _ & _).
  destruct (IH (S total) r1) as [Hb2 Hl]; [|lia|done|].
  { intros E. rewrite E in H1. by destruct (sm_routees r). }
  destruct (Smallest_run n r1) as [r2 l2]. cbn in *.
  rewrite Nat.add_succ_r. split; [done|]. by rewrite Hl.
Qed.

(** The routers share the load.  A round-robin router sends every routee exactly [k] of
    any [k] consecutive rounds of messages, whatever its cursor; a smallest-mailbox router
    whose messages are not yet processed keeps the loads within one of each other; the
    attempts of a tail-chopping router within its budget go to different routees; and the
    random router always picks a routee. *)
Theorem routers_balance (l : list Ref) (c : N) (k n : nat) (interval within : N) :
  NoDup l → l ≠ [] →
  (c + N.of_nat (k * length l + length l) < u64_modulus)%N → (N.of_nat n < u64_modulus)%N →
  let tc := mkTailChopping l c interval within in
  (∀ x, count_occ (decide_rel eq) (RoundRobin_run (k * length l) (mkRoundRobin l c)).2 x =
        if decide (x ∈ l) then k else 0) ∧
  balanced n ((sm_routees (Smallest_run n (Smallest_new l)).1).*2) ∧
  NoDup (attempts (max_attempts tc) tc) ∧ length (attempts (max_attempts tc) tc) = max_attempts tc ∧
  (∃ x, (Random_route (mkRandom l c)).2 = [x] ∧ x ∈ l).
Proof.
  intros Hl Hne Hc Hn tc.
  assert (Hlen : 0 < length l) by (destruct l; [done|cbn; lia]).
  split; [|split; [|split; [|split]]].
  - intros x. pose proof (RoundRobin_cycles k l c ltac:(lia)) as Hp.
    rewrite (proj1 (Permutation_count_occ (decide_rel eq) _ _) Hp x). clear - Hl. induction k as [|k IH]; [by case_decide|]. cbn [replicate concat].
    rewrite count_occ_app, IH. case_decide as Hx; [|by rewrite (proj1 (count_occ_not_In _ l x))
      by (by rewrite <- list_elem_of_In)].
    rewrite (proj1 (NoDup_count_occ' _ l)); [done|by apply NoDup_ListNoDup|by apply list_elem_of_In].
  - destruct (Smallest_run_balanced n 0 (Smallest_new l)) as [Hb _]; [by destruct l|cbn; lia| |done].
    split.
    + exists 0%N. cbn. apply Forall_fmap, Forall_fmap, Forall_true. cbn. lia.
    + cbn. clear. induction l as [|x l IH]; [done|]. cbn in *. by rewrite IH.
  - pose proof (max_attempts_le tc) as Hm. cbn [tc tc_routees] in Hm.
    by apply attempts_distinct; [done|lia|lia].
  - pose proof (max_attempts_le tc) as Hm. cbn [tc tc_routees] in Hm.
    by apply attempts_distinct; [done|lia|lia].
  - unfold Random_route. cbn [rnd_routees rnd_seed].
    pose proof (N.mod_lt (splitmix64 c) (N.of_nat (length l)) ltac:(lia)) as Hlt.
    destruct (lookup_lt_is_Some_2 l (N.to_nat (splitmix64 c mod N.of_nat (length l))) ltac:(lia))
      as [x Hx].
    exists x. destruct l as [|y l]; [done|]. cbn [snd]. rewrite Hx. split; [done|].
    by eapply list_elem_of_lookup_2.
Qed.
End routers.

Lemma routers_balance_witness :
  let tc := mkTailChopping ["a"; "b"; "c"] 7 10 25 in
  (RoundRobin_run 3 (mkRoundRobin ["a"; "b"; "c"] 7)).2 = ["b"; "c"; "a"] ∧
  count_occ (decide_rel eq) (RoundRobin_run 6 (mkRoundRobin ["a"; "b"; "c"] 7)).2 "b" = 2 ∧
  NoDup (attempts (max_attempts tc) tc).
Proof.
  intros tc. split; [by vm_compute|].
  destruct (routers_balance ["a"; "b"; "c"] 7 2 5 10 25) as (Hrr & _ & Htc & _).
  - by apply (bool_decide_unpack _).
  - done.
  - by vm_compute.
  - by vm_compute.
  - split; [exact (Hrr "b")|exact Htc].
Defined.

(** ** Consistent hashing moves only the keys it must *)

(** [h] is the first hash of the ring at or after [k], around the end. *)
Definition ring_succ (k h : N) (ring : gmap N nat) : Prop :=
  is_Some (ring !! h) ∧
  (((k ≤ h)%N ∧ ∀ h', is_Some (ring !! h') → (k ≤ h')%N → (h ≤ h')%N) ∨
   (∀ h', is_Some (ring !! h') → (h' < k)%N ∧ (h ≤ h')%N)).

Lemma ring_succ_unique k h h' ring : ring_succ k h ring → ring_succ k h' ring → h = h'.
Proof.
  intros [H1 [[Hk Hm]|Hm]] [H2 [[Hk' Hm']|Hm']].
  - specialize (Hm h' H2 Hk'). specialize (Hm' h H1 Hk). lia.
  - specialize (Hm' h H1). lia.
  - specialize (Hm h' H2). lia.
  - specialize (Hm h' H2). specialize (Hm' h H1). lia.
Qed.

Lemma ring_entries_elem ring h i : (h, i) ∈ ring_entries ring ↔ ring !! h = Some i.
Proof. unfold ring_entries. by rewrite merge_sort_Permutation, elem_of_map_to_list. Qed.

Lemma sorted_head_le (l : list (N * nat)) e e' :
  StronglySorted hash_le (e :: l) → e' ∈ e :: l → (e.1 ≤ e'.1)%N.
Proof.
  intros Hs [->|He]%elem_of_cons; [done|]. apply StronglySorted_inv in Hs as [_ Hall].
  rewrite Forall_forall in Hall. by apply Hall.
Qed.

Lemma StronglySorted_filter (P : N * nat → Prop) `{!∀ x, Decision (P x)} l :
  StronglySorted hash_le l → StronglySorted hash_le (filter P l).
Proof.
  induction 1 as [|e l Hs IH Hall]; [constructor|]. rewrite filter_cons. case_decide; [|done].
  constructor; [done|]. apply Forall_forall. intros e' [_ He']%list_elem_of_filter.
  rewrite Forall_forall in Hall. by apply Hall.
Qed.

Lemma ring_lookup_spec k ring i :
  ring_lookup k ring = Some i ↔ ∃ h, ring_succ k h ring ∧ ring !! h = Some i.
Proof.
  assert (Hgen : ∀ i, ring_lookup k ring = Some i → ∃ h, ring_succ k h ring ∧ ring !! h = Some i).
  { clear i. intros i. unfold ring_lookup.
    assert (Hsort : StronglySorted hash_le (ring_entries ring))
      by (unfold ring_entries; apply (StronglySorted_merge_sort hash_le)).
    assert (Hin : ∀ h, is_Some (ring !! h) → ∃ j, (h, j) ∈ ring_entries ring)
      by (intros h [j Hj]; exists j; by apply ring_entries_elem).
    destruct (filter _ (ring_entries ring)) as [|[h j] rest] eqn:E.
    - destruct (ring_entries ring) as [|[h j] rest] eqn:E2; [done|]. intros [= <-]. exists h.
      assert (Hlow : ∀ h', is_Some (ring !! h') → (h' < k)%N).
      { intros h' (j' & Hj')%Hin. apply N.nle_gt. intros Hk.
        assert (Hf : (h', j') ∈ filter (λ e, (k ≤ e.1)%N) ((h, j) :: rest))
          by (by apply list_elem_of_filter). rewrite E in Hf. by apply not_elem_of_nil in Hf. }
      assert (Hh : ring !! h = Some j) by (apply ring_entries_elem; rewrite E2; by left).
      split; [|done]. split; [by eauto|]. right. intros h' Hh'. split; [by apply Hlow|].
      destruct (Hin h' Hh') as [j' Hj']. by apply (sorted_head_le _ _ _ Hsort) in Hj'.
    - intros [= <-]. exists h.
      assert (Hh : (h, j) ∈ filter (λ e, (k ≤ e.1)%N) (ring_entries ring)) by (rewrite E; by left).
      apply list_elem_of_filter in Hh as [Hk Hh]. apply ring_entries_elem in Hh. cbn in Hk.
      split; [|done]. split; [by eauto|]. left. split; [done|]. intros h' (j' & Hj')%Hin Hk'.
      assert (Hf : (h', j') ∈ (h, j) :: rest) by (rewrite <- E; by apply list_elem_of_filter).
      assert (Hs : StronglySorted hash_le ((h, j) :: rest))
        by (rewrite <- E; by apply StronglySorted_filter).
      by apply (sorted_head_le _ _ _ Hs) in Hf. }
  split; [apply Hgen|]. intros (h & Hs & Hh).
  destruct (ring_lookup k ring) as [j|] eqn:E.
  - destruct (Hgen j eq_refl) as (h' & Hs' & Hh'). rewrite (ring_succ_unique _ _ _ _ Hs' Hs) in Hh'.
    congruence.
  - exfalso. unfold ring_lookup in E. apply ring_entries_elem in Hh.
    destruct (filter _ _); [|done]. by destruct (ring_entries ring); [apply not_elem_of_nil in Hh|].
Qed.

Section hashing.
Context {Ref : Type} `{!EqDecision Ref} (vnode_hash : Ref → N → N).

Lemma insert_vnodes_lookup r i vs ring h :
  insert_vnodes vnode_hash r i vs ring !! h =
    if decide (Exists (λ v, vnode_hash r v = h) vs) then Some i else ring !! h.
Proof.
  revert ring; induction vs as [|v vs IH]; intros ring; cbn.
  { rewrite decide_False; [done|]. by intros ?%Exists_nil. }
  rewrite IH. destruct (decide (Exists (λ v, vnode_hash r v = h) vs)) as [He|He].
  - rewrite decide_True; [done|]. by right.
  - destruct (decide (vnode_hash r v = h)) as [<-|Hne].
    + rewrite lookup_insert_eq, decide_True; [done|]. by left.
    + rewrite lookup_insert_ne, decide_False; [done| |done]. by intros [?|?]%Exists_cons.
Qed.

(** A hash of the ring belongs to a routee at its index; all hashes are there. *)
Lemma build_ring_sound i0 routees vs ring h i :
  build_ring vnode_hash i0 routees vs ring !! h = Some i →
  ring !! h = Some i ∨
  ∃ r v, i0 ≤ i ∧ routees !! (i - i0) = Some r ∧ v ∈ vs ∧ vnode_hash r v = h.
Proof.
  revert i0 ring; induction routees as [|r routees IH]; intros i0 ring; cbn; [by left|].
  intros [H|(r' & v & Hi & Hr & Hv & Hh)]%IH.
  - rewrite insert_vnodes_lookup in H. case_decide as He; [|by left]. simplify_eq. right.
    apply Exists_exists in He as (v & Hv & Hh). exists r, v.
    rewrite Nat.sub_diag. done.
  - right. exists r', v. split; [lia|]. replace (i - i0) with (S (i - S i0)) by lia. done.
Qed.

Lemma build_ring_mono i0 routees vs ring h :
  is_Some (ring !! h) → is_Some (build_ring vnode_hash i0 routees vs ring !! h).
Proof.
  revert i0 ring; induction routees as [|r routees IH]; intros i0 ring Hs; cbn; [done|].
  apply IH. rewrite insert_vnodes_lookup. case_decide; eauto.
Qed.

Lemma build_ring_complete i0 routees vs ring r v :
  r ∈ routees → v ∈ vs →
  is_Some (build_ring vnode_hash i0 routees vs ring !! vnode_hash r v).
Proof.
  intros Hr Hv. revert i0 ring; induction Hr as [r routees|r r' routees Hr IH]; intros i0 ring; cbn.
  - apply build_ring_mono. rewrite insert_vnodes_lookup, decide_True; [by eauto|].
    apply Exists_exists. eauto.
  - apply IH.
Qed.

(** The hashes of different routees differ. *)
Definition no_collision (routees : list Ref) (vs : list N) : Prop :=
  ∀ r1 r2 v1 v2, r1 ∈ routees → r2 ∈ routees → v1 ∈ vs → v2 ∈ vs →
    vnode_hash r1 v1 = vnode_hash r2 v2 → r1 = r2.

Definition vnodes (factor : N) : list N := N.of_nat <$> seq 0 (N.to_nat factor).

Definition hash_ring (routees : list Ref) (factor : N) : gmap N nat :=
  ch_ring (ConsistentHash_new vnode_hash routees factor).

Lemma hash_ring_dom routees factor h :
  is_Some (hash_ring routees factor !! h) ↔
  ∃ r v, r ∈ routees ∧ v ∈ vnodes factor ∧ vnode_hash r v = h.
Proof.
  split.
  - intros [i [Hi|(r & v & _ & Hr & Hv & Hh)]%build_ring_sound].
    + by rewrite lookup_empty in Hi.
    + exists r, v. split; [by eapply list_elem_of_lookup_2|done].
  - intros (r & v & Hr & Hv & <-). by apply build_ring_complete.
Qed.

(** The routee of a key owns the successor of its hash. *)
Lemma route_by_key_spec k routees factor x :
  no_collision routees (vnodes factor) →
  route_by_key k (ConsistentHash_new vnode_hash routees factor) = [x] ↔
  x ∈ routees ∧ ∃ v, v ∈ vnodes factor ∧
    ring_succ k (vnode_hash x v) (hash_ring routees factor).
Proof.
  intros Hnc.
  assert (Hown : ∀ h i, hash_ring routees factor !! h = Some i → ∃ r v,
    routees !! i = Some r ∧ v ∈ vnodes factor ∧ vnode_hash r v = h).
  { intros h i [Hi|(r & v & _ & Hr & Hv & Hh)]%build_ring_sound; [by rewrite lookup_empty in Hi|].
    rewrite Nat.sub_0_r in Hr. eauto. }
  assert (Hroute : route_by_key k (ConsistentHash_new vnode_hash routees factor) =
    option_list (ring_lookup k (hash_ring routees factor) ≫= λ i, routees !! i)).
  { unfold route_by_key. cbn [ch_routees ConsistentHash_new]. destruct routees; [|done].
    destruct (ring_lookup k (hash_ring [] factor)) as [i|] eqn:E; [|done].
    apply ring_lookup_spec in E as (h & _ & (r & v & Hr & _)%Hown). done. }
  rewrite Hroute. split.
  - destruct (ring_lookup k (hash_ring routees factor)) as [i|] eqn:E; [|done].
    apply ring_lookup_spec in E as (h & Hs & (r & v & Hr & Hv & <-)%Hown).
    cbn. rewrite Hr. intros [= <-]. split; [by eapply list_elem_of_lookup_2|]. eauto.
  - intros (Hx & v & Hv & Hs). destruct (proj1 Hs) as [i Hi].
    rewrite (proj2 (ring_lookup_spec k _ i)) by eauto.
    destruct (Hown _ _ Hi) as (r & v' & Hr & Hv' & Hh). cbn. rewrite Hr. cbn. f_equal.
    eapply Hnc; [by eapply list_elem_of_lookup_2|exact Hx|exact Hv'|exact Hv|exact Hh].
Qed.

Lemma ring_succ_exists k (ring : gmap N nat) h :
  is_Some (ring !! h) → ∃ h' i, ring_succ k h' ring ∧ ring !! h' = Some i.
Proof.
  intros [i Hi]. destruct (ring_lookup k ring) as [j|] eqn:E.
  - apply ring_lookup_spec in E as (h' & Hs & Hh'). eauto.
  - exfalso. unfold ring_lookup in E. apply ring_entries_elem in Hi.
    destruct (filter _ _); [|done]. by destruct (ring_entries ring); [apply not_elem_of_nil in Hi|].
Qed.

(** Consistent hashing moves only the keys it must.  When the hashes of different routees
    differ, every key has exactly one routee, and taking a routee out leaves the routee of
    every key that was not its own; so putting one in moves keys to it only. *)
Theorem consistent_hash_stable (routees : list Ref) (factor k : N) (r : Ref) :
  no_collision routees (vnodes factor) → (0 < factor)%N → routees ≠ [] →
  let old := route_by_key k (ConsistentHash_new vnode_hash routees factor) in
  let new := route_by_key k (ConsistentHash_new vnode_hash (filter (λ x, x ≠ r) routees) factor) in
  (∃ x, old = [x] ∧ x ∈ routees) ∧
  (∀ x, old = [x] → x ≠ r → new = [x]) ∧
  (∀ x, new = [x] → old = [x] ∨ old = [r]).
Proof.
  intros Hnc Hf Hne old new.
  assert (Hold : ∃ x, old = [x] ∧ x ∈ routees).
  { assert (∃ x0, x0 ∈ routees) as [x0 Hx0] by (destruct routees; [done|eexists; by left]).
    assert (H0 : 0%N ∈ vnodes factor).
    { apply list_elem_of_fmap. exists 0. split; [done|]. apply elem_of_seq. lia. }
    destruct (ring_succ_exists k (hash_ring routees factor) (vnode_hash x0 0)) as (h & i & Hs & Hh).
    { apply hash_ring_dom. exists x0, 0%N. done. }
    destruct (proj1 (hash_ring_dom routees factor h)) as (x & v & Hx & Hv & <-); [by eauto|].
    exists x. split; [|done]. apply route_by_key_spec; [done|]. eauto. }
  assert (Hkeep : ∀ x, old = [x] → x ≠ r → new = [x]).
  { intros x (Hx & v & Hv & Hs)%route_by_key_spec Hxr; [|done]. apply route_by_key_spec.
    { intros r1 r2 v1 v2 [_ H1]%list_elem_of_filter [_ H2]%list_elem_of_filter. by apply Hnc. }
    assert (Hsub : ∀ h, is_Some (hash_ring (filter (λ x, x ≠ r) routees) factor !! h) →
      is_Some (hash_ring routees factor !! h)).
    { intros h (r1 & v1 & [_ H1]%list_elem_of_filter & H2)%hash_ring_dom.
      apply hash_ring_dom. eauto. }
    split; [by apply list_elem_of_filter|]. exists v. split; [done|].
    destruct Hs as [_ Hs]. split.
    - apply hash_ring_dom. exists x, v. split; [by apply list_elem_of_filter|done].
    - destruct Hs as [[Hk Hm]|Hm]; [left|right]; [split; [done|]|]; intros h' Hh'; auto. }
  split; [done|]. split; [done|]. intros x Hx. destruct Hold as (y & Hy & _).
  destruct (decide (y = r)) as [->|Hyr]; [by right|]. left.
  rewrite (Hkeep y Hy Hyr) in Hx. congruence.
Qed.
End hashing.

(** A toy hash: three routees of two virtual nodes on a ring. *)
Lemma consistent_hash_stable_witness :
  let hash (r : N) (v : N) := (r * 7 + v * 40)%N in
  let old := route_by_key 45 (ConsistentHash_new hash [1; 2; 3]%N 2) in
  let new := route_by_key 45 (ConsistentHash_new hash (filter (λ x, x ≠ 2%N) [1; 2; 3]%N) 2) in
  old = [1%N] ∧ new = [1%N].
Proof.
  intros hash old new.
  destruct (consistent_hash_stable hash [1; 2; 3]%N 2 45 2%N) as (_ & Hk & _).
  - intros r1 r2 v1 v2 H1 H2 Hv1 Hv2. unfold hash. intros Heq.
    repeat match goal with H : _ ∈ _ |- _ => apply list_elem_of_In in H; vm_compute in H end.
    naive_solver lia.
  - done.
  - done.
  - split; [by vm_compute|]. apply Hk; [by vm_compute|done].
Defined.
