(* ===== verification/ClusterTools.v ===== *)
(** * Cluster tools and leases
    ([crates/atomr-cluster-tools/src/cluster_singleton.rs], [pub_sub.rs],
    [cluster_client.rs], [crates/atomr-coordination/src/lib.rs])

    One module per tool.  Actor references are of any type with decidable equality;
    closures handed to the singleton proxy are identified by a number, and running one is
    a delivery in the log.  The hooks of a singleton, the decoders of the mediator and the
    resolver of the client are the user's code: their results are arguments and the calls
    made on them are returned. *)

From stdpp Require Import gmap strings list sorting.
From Stdlib Require Import NArith Lia.
From S2P Require Import Prelude Routing.

(** ** The singleton manager and its proxy *)

Module Singleton.
Section singleton.
Context {Ref : Type}.

Inductive SingletonState :=
  | Inactive
  | Starting
  | Active (ref : Ref) (here : bool)
  | HandingOver.

(** [sm_handoff]: whether a hook is installed. *)
Record ClusterSingletonManager := mkManager {
  sm_state : SingletonState;
  sm_buffer : list N;
  sm_buffer_size : nat;
  sm_drops : N;
  sm_fence : N;
  sm_handoff : bool;
  sm_prior : option Bytes;
}.

(** Runs of closures, and calls of the hook's [assume]. *)
Inductive Event :=
  | Deliver (msg : N) (to : Ref)
  | Assume (prior : option Bytes) (fence : N).

Definition Manager_default (size : nat) (handoff : bool) : ClusterSingletonManager :=
  mkManager Inactive [] size 0 0 handoff None.

Definition Manager_new : ClusterSingletonManager := Manager_default 1000 false.
Definition with_buffer_size (size : nat) : ClusterSingletonManager := Manager_default size false.
Definition with_handoff : ClusterSingletonManager := Manager_default 1000 true.

Definition set_state (s : SingletonState) (m : ClusterSingletonManager) : ClusterSingletonManager :=
  mkManager s (sm_buffer m) (sm_buffer_size m) (sm_drops m) (sm_fence m) (sm_handoff m) (sm_prior m).

Definition flush (target : Ref) (m : ClusterSingletonManager)
    : ClusterSingletonManager * list Event :=
  (mkManager (sm_state m) [] (sm_buffer_size m) (sm_drops m) (sm_fence m) (sm_handoff m) (sm_prior m),
   (λ d, Deliver d target) <$> sm_buffer m).

Definition run_assume (token : N) (m : ClusterSingletonManager)
    : ClusterSingletonManager * list Event :=
  if sm_handoff m then
    (mkManager (sm_state m) (sm_buffer m) (sm_buffer_size m) (sm_drops m) (sm_fence m) true None,
     [Assume (sm_prior m) token])
  else (m, []).

(** [set_active_here] before its [flush]: the token, the hook and the write of the state. *)
Definition activate_here (r : Ref) (m : ClusterSingletonManager)
    : ClusterSingletonManager * list Event :=
  let token := u64_add (sm_fence m) 1 in
  let m := mkManager (sm_state m) (sm_buffer m) (sm_buffer_size m) (sm_drops m) token
             (sm_handoff m) (sm_prior m) in
  let '(m, e) := run_assume token m in (set_state (Active r true) m, e).

Definition set_active_here (r : Ref) (m : ClusterSingletonManager)
    : ClusterSingletonManager * list Event :=
  let '(m, e1) := activate_here r m in
  let '(m, e2) := flush r m in (m, e1 ++ e2).

Definition set_active_remote (r : Ref) (m : ClusterSingletonManager)
    : ClusterSingletonManager * list Event := flush r (set_state (Active r false) m).

(** [captured]: what the hook's [prepare_handoff] returns. *)
Definition begin_handover (captured : Bytes) (m : ClusterSingletonManager)
    : ClusterSingletonManager :=
  set_state HandingOver
    (if sm_handoff m then
       mkManager (sm_state m) (sm_buffer m) (sm_buffer_size m) (sm_drops m) (sm_fence m) true
         (Some captured)
     else m).

Definition begin_starting (m : ClusterSingletonManager) : ClusterSingletonManager :=
  set_state Starting m.

Definition clear (m : ClusterSingletonManager) : ClusterSingletonManager := set_state Inactive m.

Definition current (m : ClusterSingletonManager) : option Ref :=
  match sm_state m with Active r _ => Some r | _ => None end.

(** The part of [buffer_or_deliver] after the check. *)
Definition push_buffer (deliver : N) (m : ClusterSingletonManager)
    : ClusterSingletonManager * bool :=
  if sm_buffer_size m <=? length (sm_buffer m) then
    (mkManager (sm_state m) (sm_buffer m) (sm_buffer_size m) (u64_add (sm_drops m) 1) (sm_fence m)
       (sm_handoff m) (sm_prior m), false)
  else
    (mkManager (sm_state m) (sm_buffer m ++ [deliver]) (sm_buffer_size m) (sm_drops m) (sm_fence m)
       (sm_handoff m) (sm_prior m), true).

(** What follows the check, given what it read. *)
Definition finish_send (deliver : N) (checked : option Ref) (m : ClusterSingletonManager)
    : ClusterSingletonManager * list Event * bool :=
  match checked with
  | Some r => (m, [Deliver deliver r], true)
  | None => let '(m, ok) := push_buffer deliver m in (m, [], ok)
  end.

Definition buffer_or_deliver (deliver : N) (m : ClusterSingletonManager)
    : ClusterSingletonManager * list Event * bool := finish_send deliver (current m) m.

(** ** Runs of calls that do not overlap *)

Inductive Op :=
  | SetActiveHere (r : Ref)
  | SetActiveRemote (r : Ref)
  | BeginHandover (captured : Bytes)
  | BeginStarting
  | Clear
  | Send (deliver : N).

Record Trace := mkTrace {
  tr_manager : ClusterSingletonManager;
  tr_events : list Event;
  tr_accepted : list N;
  tr_rejected : nat;
}.

Definition singleton_step (t : Trace) (op : Op) : Trace :=
  let m := tr_manager t in
  match op with
  | SetActiveHere r =>
      let '(m, e) := set_active_here r m in mkTrace m (tr_events t ++ e) (tr_accepted t) (tr_rejected t)
  | SetActiveRemote r =>
      let '(m, e) := set_active_remote r m in mkTrace m (tr_events t ++ e) (tr_accepted t) (tr_rejected t)
  | BeginHandover c => mkTrace (begin_handover c m) (tr_events t) (tr_accepted t) (tr_rejected t)
  | BeginStarting => mkTrace (begin_starting m) (tr_events t) (tr_accepted t) (tr_rejected t)
  | Clear => mkTrace (clear m) (tr_events t) (tr_accepted t) (tr_rejected t)
  | Send d =>
      let '(m, e, ok) := buffer_or_deliver d m in
      mkTrace m (tr_events t ++ e) (if ok then tr_accepted t ++ [d] else tr_accepted t)
        (if ok then tr_rejected t else S (tr_rejected t))
  end.

Definition singleton_run (ops : list Op) (m : ClusterSingletonManager) : Trace :=
  foldl singleton_step (mkTrace m [] [] 0) ops.

Definition delivered (e : list Event) : list N :=
  omap (λ x, match x with Deliver d _ => Some d | _ => None end) e.

Definition assumed (e : list Event) : list (option Bytes * N) :=
  omap (λ x, match x with Assume p f => Some (p, f) | _ => None end) e.

(** What the hook is to be told: per activation the state captured since the last one, and
    the number of the activation. *)
Fixpoint expected_assumes (ops : list Op) (prior : option Bytes) (fence : N)
    : list (option Bytes * N) :=
  match ops with
  | [] => []
  | SetActiveHere _ :: ops => (prior, u64_add fence 1) :: expected_assumes ops None (u64_add fence 1)
  | BeginHandover c :: ops => expected_assumes ops (Some c) fence
  | _ :: ops => expected_assumes ops prior fence
  end.

Lemma delivered_app e1 e2 : delivered (e1 ++ e2) = delivered e1 ++ delivered e2.
Proof. apply omap_app. Qed.

Lemma assumed_app e1 e2 : assumed (e1 ++ e2) = assumed e1 ++ assumed e2.
Proof. apply omap_app. Qed.

Lemma delivered_flush (l : list N) r : delivered ((λ d, Deliver d r) <$> l) = l.
Proof. unfold delivered. induction l as [|d l IH]; cbn; [done|]. by rewrite IH. Qed.

Lemma assumed_flush (l : list N) (r : Ref) : assumed ((λ d, Deliver d r) <$> l) = [].
Proof. unfold assumed. by induction l. Qed.

(** The messages: accepted ones are delivered in order or wait in the buffer. *)
Definition trace_inv (t : Trace) : Prop :=
  let m := tr_manager t in
  delivered (tr_events t) ++ sm_buffer m = tr_accepted t ∧
  (is_Some (current m) → sm_buffer m = []) ∧
  length (sm_buffer m) ≤ sm_buffer_size m ∧
  sm_drops m = wrap64 (N.of_nat (tr_rejected t)).

Lemma run_assume_spec token m :
  let '(m', e) := run_assume token m in
  sm_state m' = sm_state m ∧ sm_buffer m' = sm_buffer m ∧ sm_buffer_size m' = sm_buffer_size m ∧
  sm_drops m' = sm_drops m ∧ sm_fence m' = sm_fence m ∧ sm_handoff m' = sm_handoff m ∧
  e = (if sm_handoff m then [Assume (sm_prior m) token] else []) ∧
  (sm_handoff m = true → sm_prior m' = None).
Proof. unfold run_assume. by destruct (sm_handoff m) eqn:E. Qed.

(** Both activations flush the buffer to the new reference. *)
Lemma activation_spec r m op :
  op = SetActiveHere r ∨ op = SetActiveRemote r →
  let '(m', e) := match op with SetActiveHere r => set_active_here r m | _ => set_active_remote r m end in
  current m' = Some r ∧ sm_buffer m' = [] ∧ sm_buffer_size m' = sm_buffer_size m ∧
  sm_drops m' = sm_drops m ∧ delivered e = sm_buffer m ∧
  Forall (λ x, match x with Deliver _ to => to = r | _ => True end) e.
Proof.
  assert (Hall : ∀ l, Forall (λ x, match x with Deliver _ to => to = r | _ => True end)
    ((λ d, Deliver d r) <$> l)) by (intros l; apply Forall_fmap, Forall_true; done).
  intros [->| ->]; cbv iota.
  - unfold set_active_here, activate_here.
    pose proof (run_assume_spec (u64_add (sm_fence m) 1) (mkManager (sm_state m) (sm_buffer m)
      (sm_buffer_size m) (sm_drops m) (u64_add (sm_fence m) 1) (sm_handoff m) (sm_prior m))) as H.
    destruct (run_assume _ _) as [m' e]. cbn in H. destruct H as (_ & Hb & Hz & Hd & _ & _ & -> & _).
    unfold flush. cbn [set_state sm_buffer sm_buffer_size sm_drops sm_state]. rewrite Hb.
    do 4 (split; [done|]). split; [by rewrite delivered_app, delivered_flush; destruct (sm_handoff m)|].
    apply Forall_app. split; [|apply Hall]. destruct (sm_handoff m); by repeat constructor.
  - unfold set_active_remote, flush. do 4 (split; [done|]). split; [apply delivered_flush|apply Hall].
Qed.

Lemma step_inv t op : trace_inv t → trace_inv (singleton_step t op).
Proof.
  destruct t as [m ev acc rej]. intros (Hd & Hc & Hs & Hr). cbn [tr_manager tr_events tr_accepted tr_rejected] in *.
  destruct op as [r|r|c| | |d]; cbn [singleton_step tr_manager tr_events tr_accepted tr_rejected].
  - pose proof (activation_spec r m (SetActiveHere r) (or_introl eq_refl)) as H. cbv beta iota in H.
    destruct (set_active_here r m) as [m' e]. destruct H as (Hcur & Hb & Hz & Hdr & He & _).
    unfold trace_inv. cbn. rewrite delivered_app, He, Hb, app_nil_r, Hdr. cbn.
    repeat split; [done|lia|done].
  - pose proof (activation_spec r m (SetActiveRemote r) (or_intror eq_refl)) as H. cbv beta iota in H.
    destruct (set_active_remote r m) as [m' e]. destruct H as (Hcur & Hb & Hz & Hdr & He & _).
    unfold trace_inv. cbn. rewrite delivered_app, He, Hb, app_nil_r, Hdr. cbn.
    repeat split; [done|lia|done].
  - unfold trace_inv, begin_handover. destruct (sm_handoff m); cbn; repeat split; try done;
      by intros [? ?].
  - unfold trace_inv. cbn. repeat split; try done; by intros [? ?].
  - unfold trace_inv. cbn. repeat split; try done; by intros [? ?].
  - unfold buffer_or_deliver, finish_send. destruct (current m) as [r|] eqn:E.
    + unfold trace_inv. cbn. rewrite Hc in * by eauto.
      rewrite delivered_app, app_nil_r in *. cbn. rewrite Hd. repeat split; try done; cbn; lia.
    + unfold push_buffer. destruct (Nat.leb_spec (sm_buffer_size m) (length (sm_buffer m))).
      * assert (Hsucc : u64_add (sm_drops m) 1 = wrap64 (N.of_nat (S rej))).
        { rewrite Hr. unfold u64_add. rewrite wrap64_add_l. f_equal. lia. }
        unfold trace_inv. cbn [tr_manager tr_events tr_accepted tr_rejected sm_buffer sm_buffer_size
          sm_drops]. rewrite app_nil_r. repeat split; try done.
        unfold current in *. cbn. destruct (sm_state m); try done; by intros [? ?].
      * unfold trace_inv. cbn [tr_manager tr_events tr_accepted tr_rejected sm_buffer sm_buffer_size
          sm_drops]. rewrite app_nil_r, (app_assoc _ _ [d]), Hd.
        repeat split; try done; [|rewrite length_app; cbn; lia].
        unfold current in *. cbn. destruct (sm_state m); try done; by intros [? ?].
Qed.

Lemma run_inv ops m :
  sm_buffer m = [] → sm_drops m = 0%N → trace_inv (singleton_run ops m).
Proof.
  intros Hb Hd. assert (H0 : trace_inv (mkTrace m [] [] 0)).
  { unfold trace_inv. cbn. rewrite Hb, Hd. repeat split; try done; cbn; lia. }
  unfold singleton_run. revert H0. generalize (mkTrace m [] [] 0). induction ops as [|op ops IH]; intros t Ht; [done|].
  cbn. apply IH. by apply step_inv.
Qed.

(** The hook is called as expected. *)
Lemma run_assumes ops t :
  sm_handoff (tr_manager t) = true →
  let t' := foldl singleton_step t ops in
  assumed (tr_events t') = assumed (tr_events t) ++
    expected_assumes ops (sm_prior (tr_manager t)) (sm_fence (tr_manager t)).
Proof.
  revert t; induction ops as [|op ops IH]; intros t Hh t'; [by rewrite app_nil_r|].
  unfold t'. cbn [foldl]. destruct t as [m ev acc rej].
  destruct op as [r|r|c| | |d]; cbn [singleton_step tr_manager tr_events tr_accepted tr_rejected] in *;
    cbn [expected_assumes].
  - unfold set_active_here, activate_here.
    pose proof (run_assume_spec (u64_add (sm_fence m) 1) (mkManager (sm_state m) (sm_buffer m)
      (sm_buffer_size m) (sm_drops m) (u64_add (sm_fence m) 1) (sm_handoff m) (sm_prior m))) as H.
    destruct (run_assume _ _) as [m' e]. cbn in H. destruct H as (_ & Hb & _ & _ & Hf & Hh' & -> & Hp).
    cbn. rewrite IH by (cbn; congruence). cbn. rewrite Hp, Hf, Hh by done.
    rewrite assumed_app. cbn. fold (assumed ((λ d, Deliver d r) <$> sm_buffer m')).
    by rewrite assumed_flush, <- app_assoc.
  - cbn. rewrite IH by done. cbn. by rewrite assumed_app, assumed_flush, app_nil_r.
  - unfold begin_handover. rewrite Hh. by rewrite IH.
  - by rewrite IH.
  - by rewrite IH.
  - unfold buffer_or_deliver, finish_send. destruct (current m).
    + rewrite IH by done. cbn. rewrite assumed_app. cbn. by rewrite app_nil_r.
    + unfold push_buffer. destruct (_ <=? _); rewrite IH by done; cbn; by rewrite app_nil_r.
Qed.

(** The deliveries of a step go to the reference that is active after it. *)
Lemma step_events t op :
  ∃ new, tr_events (singleton_step t op) = tr_events t ++ new ∧
    ∀ d to, Deliver d to ∈ new → current (tr_manager (singleton_step t op)) = Some to.
Proof.
  assert (Hact : ∀ r m' e, current m' = Some r →
    Forall (λ x, match x with Deliver _ to => to = r | _ => True end) e →
    ∃ new, tr_events t ++ e = tr_events t ++ new ∧
      ∀ d to, Deliver d to ∈ new → current m' = Some to).
  { intros r m' e Hc He. exists e. split; [done|]. intros d to Hin. rewrite Forall_forall in He.
    specialize (He _ Hin). cbn in He. by subst to. }
  assert (Hnone : ∀ m', ∃ new, tr_events t = tr_events t ++ new ∧
      ∀ d to, Deliver d to ∈ new → current m' = Some to).
  { intros m'. exists []. split; [by rewrite app_nil_r|]. by intros ? ? ?%not_elem_of_nil. }
  unfold singleton_step. destruct op as [r|r|c| | |d]; try apply Hnone.
  - pose proof (activation_spec r (tr_manager t) (SetActiveHere r) (or_introl eq_refl)) as H. cbv beta iota in H.
    destruct (set_active_here r (tr_manager t)) as [m' e]. destruct H as (Hc & _ & _ & _ & _ & He).
    by apply (Hact r).
  - pose proof (activation_spec r (tr_manager t) (SetActiveRemote r) (or_intror eq_refl)) as H. cbv beta iota in H.
    destruct (set_active_remote r (tr_manager t)) as [m' e]. destruct H as (Hc & _ & _ & _ & _ & He).
    by apply (Hact r).
  - unfold buffer_or_deliver, finish_send. destruct (current (tr_manager t)) as [r|] eqn:E.
    + apply (Hact r); [done|]. by repeat constructor.
    + destruct (push_buffer d (tr_manager t)) as [m' ok]. cbn. rewrite app_nil_r. apply Hnone.
Qed.

Lemma step_rejects t op :
  tr_rejected (singleton_step t op) ≠ tr_rejected t ↔
    (∃ d, op = Send d) ∧ current (tr_manager t) = None ∧
    sm_buffer_size (tr_manager t) ≤ length (sm_buffer (tr_manager t)).
Proof.
  unfold singleton_step. destruct op as [r|r|c| | |d]; cbn.
  all: try (split; [done|by intros [[? ?] _]]).
  - destruct (set_active_here r _). cbn. split; [done|by intros [[? ?] _]].
  - unfold buffer_or_deliver, finish_send. destruct (current (tr_manager t)) as [r|]; cbn;
      [split; [done|by intros (_ & ? & _)]|].
    unfold push_buffer. destruct (Nat.leb_spec (sm_buffer_size (tr_manager t)) (length (sm_buffer (tr_manager t))));
      cbn; split; try done; eauto with lia; intros (_ & _ & ?); lia.
Qed.

(** ** Runs of overlapping calls

    The lifecycle calls come from one task, one after another; an activation writes the state and
    then flushes the buffer under its lock.  A send reads the state and then, without the lock of
    the state, delivers its message or takes the lock of the buffer.  Sends overlap each other
    and the lifecycle calls. *)

Inductive Section_ :=
  | LifeHere (r : Ref)
  | LifeRemote (r : Ref)
  | LifeHandover (captured : Bytes)
  | LifeStarting
  | LifeClear
  | LifeFlush
  | SendCheck (deliver : N)
  | SendFinish (send : nat).

(** [sy_flushing]: the activation that has not flushed yet; [sy_sends]: the sends under way, with
    what their check read. *)
Record System := mkSystem {
  sy_trace : Trace;
  sy_flushing : option Ref;
  sy_sends : list (N * option Ref);
}.

(** A lifecycle call waits for the one before. *)
Definition life (s : System) (f : ClusterSingletonManager → ClusterSingletonManager * list Event)
    (flushing : option Ref) : System :=
  match sy_flushing s with
  | None =>
      let '(m, e) := f (tr_manager (sy_trace s)) in
      mkSystem (mkTrace m (tr_events (sy_trace s) ++ e) (tr_accepted (sy_trace s)) (tr_rejected (sy_trace s)))
        flushing (sy_sends s)
  | Some _ => s
  end.

Definition section_step (s : System) (x : Section_) : System :=
  let t := sy_trace s in
  let m := tr_manager t in
  match x with
  | LifeHere r => life s (activate_here r) (Some r)
  | LifeRemote r => life s (λ m, (set_state (Active r false) m, [])) (Some r)
  | LifeHandover c => life s (λ m, (begin_handover c m, [])) None
  | LifeStarting => life s (λ m, (begin_starting m, [])) None
  | LifeClear => life s (λ m, (clear m, [])) None
  | LifeFlush =>
      match sy_flushing s with
      | Some r =>
          let '(m, e) := flush r m in
          mkSystem (mkTrace m (tr_events t ++ e) (tr_accepted t) (tr_rejected t)) None (sy_sends s)
      | None => s
      end
  | SendCheck d => mkSystem t (sy_flushing s) (sy_sends s ++ [(d, current m)])
  | SendFinish i =>
      match sy_sends s !! i with
      | Some (d, checked) =>
          let '(m, e, ok) := finish_send d checked m in
          mkSystem (mkTrace m (tr_events t ++ e) (if ok then tr_accepted t ++ [d] else tr_accepted t)
                      (if ok then tr_rejected t else S (tr_rejected t)))
            (sy_flushing s) (delete i (sy_sends s))
      | None => s
      end
  end.

Definition system_new (m : ClusterSingletonManager) : System := mkSystem (mkTrace m [] [] 0) None [].
Definition system_run (xs : list Section_) (m : ClusterSingletonManager) : System :=
  foldl section_step (system_new m) xs.

(** The sections of a call that nothing interrupts. *)
Definition sections (op : Op) : list Section_ :=
  match op with
  | SetActiveHere r => [LifeHere r; LifeFlush]
  | SetActiveRemote r => [LifeRemote r; LifeFlush]
  | BeginHandover c => [LifeHandover c]
  | BeginStarting => [LifeStarting]
  | Clear => [LifeClear]
  | Send d => [SendCheck d; SendFinish 0]
  end.

Lemma sections_step t op :
  foldl section_step (mkSystem t None []) (sections op) = mkSystem (singleton_step t op) None [].
Proof.
  destruct t as [m ev acc rej]. destruct op as [r|r|c| | |d]; cbn; try by rewrite ?app_nil_r.
  - unfold set_active_here. destruct (activate_here r m) as [m' e]. cbn. by rewrite <- app_assoc.
  - unfold buffer_or_deliver. destruct (finish_send d (current m) m) as [[m' e] ok]. done.
Qed.

(** Calls that do not overlap run as above. *)
Lemma sections_run ops m :
  system_run (ops ≫= sections) m = mkSystem (singleton_run ops m) None [].
Proof.
  unfold system_run, singleton_run, system_new. generalize (mkTrace m [] [] 0).
  induction ops as [|op ops IH]; intros t; [done|]. cbn [mbind list_bind foldl].
  rewrite foldl_app, sections_step. apply IH.
Qed.

(** The messages: accepted ones are delivered, once, or wait in the buffer. *)
Definition system_inv (size : nat) (s : System) : Prop :=
  let t := sy_trace s in
  delivered (tr_events t) ++ sm_buffer (tr_manager t) ≡ₚ tr_accepted t ∧
  length (sm_buffer (tr_manager t)) ≤ size ∧ sm_buffer_size (tr_manager t) = size ∧
  sm_drops (tr_manager t) = wrap64 (N.of_nat (tr_rejected t)).

Lemma activate_here_spec r m :
  let '(m', e) := activate_here r m in
  sm_buffer m' = sm_buffer m ∧ sm_buffer_size m' = sm_buffer_size m ∧ sm_drops m' = sm_drops m ∧
  sm_fence m' = u64_add (sm_fence m) 1 ∧ sm_handoff m' = sm_handoff m ∧ current m' = Some r ∧
  e = (if sm_handoff m then [Assume (sm_prior m) (u64_add (sm_fence m) 1)] else []) ∧
  (sm_handoff m = true → sm_prior m' = None).
Proof. unfold activate_here, run_assume. cbn. by destruct (sm_handoff m) eqn:E. Qed.

(** A lifecycle call that leaves the buffer alone and delivers nothing. *)
Lemma life_inv size s f fl :
  (∀ m, let '(m', e) := f m in sm_buffer m' = sm_buffer m ∧ sm_buffer_size m' = sm_buffer_size m ∧
     sm_drops m' = sm_drops m ∧ delivered e = []) →
  system_inv size s → system_inv size (life s f fl).
Proof.
  intros Hf (H1 & H2 & H3 & H4). unfold life. destruct (sy_flushing s); [done|].
  specialize (Hf (tr_manager (sy_trace s))). destruct (f _) as [m' e]. destruct Hf as (F1 & F2 & F3 & F4).
  unfold system_inv. cbn. rewrite delivered_app, F4, app_nil_r, F1, F2, F3. done.
Qed.

Lemma section_inv size s x : system_inv size s → system_inv size (section_step s x).
Proof.
  intros Hinv. destruct x as [r|r|c| | | |d|i]; cbn [section_step]; try (apply life_inv; [|done]; by intros m).
  - apply life_inv; [|done]. intros m. pose proof (activate_here_spec r m) as Ha. destruct (activate_here r m) as [m' e].
    destruct Ha as (A1 & A2 & A3 & _ & _ & _ & -> & _). by destruct (sm_handoff m).
  - apply life_inv; [|done]. intros m. unfold begin_handover. by destruct (sm_handoff m).
  - destruct Hinv as (H1 & H2 & H3 & H4). destruct (sy_flushing s) as [r|]; [|done]. unfold system_inv. cbn.
    rewrite delivered_app, delivered_flush, app_nil_r. split_and!; [done|lia|done|done].
  - done.
  - destruct Hinv as (H1 & H2 & H3 & H4). destruct (sy_sends s !! i) as [[d [r|]]|]; [| |done]; cbn.
    + unfold system_inv. cbn. rewrite delivered_app. cbn. split_and!; [|done..]. rewrite <- H1. solve_Permutation.
    + unfold push_buffer. destruct (Nat.leb_spec (sm_buffer_size (tr_manager (sy_trace s))) (length (sm_buffer (tr_manager (sy_trace s)))));
        unfold system_inv; cbn [sy_trace tr_manager tr_events tr_accepted tr_rejected sm_buffer sm_buffer_size sm_drops].
      * rewrite app_nil_r. split_and!; [done..|]. rewrite H4. unfold u64_add. rewrite wrap64_add_l. f_equal. lia.
      * rewrite app_nil_r, (app_assoc _ _ [d]), H1, length_app. split_and!; [done| |done|done]. cbn. lia.
Qed.

Lemma interleaving_inv size handoff xs : system_inv size (system_run xs (Manager_default size handoff)).
Proof.
  unfold system_run. assert (system_inv size (system_new (Manager_default size handoff))) as H0
    by (split_and!; [done|cbn; lia|done|done]).
  revert H0. generalize (system_new (Manager_default size handoff)).
  induction xs as [|x xs IH]; intros s Hs; [done|]. cbn. by apply IH, section_inv.
Qed.

(** Where a step delivers, and when it turns a message down. *)
Lemma section_events s x :
  ∃ new, tr_events (sy_trace (section_step s x)) = tr_events (sy_trace s) ++ new ∧
    (∀ d to, Deliver d to ∈ new →
       (x = LifeFlush ∧ sy_flushing s = Some to ∧ d ∈ sm_buffer (tr_manager (sy_trace s))) ∨
       (∃ i, x = SendFinish i ∧ sy_sends s !! i = Some (d, Some to))) ∧
    (x = LifeFlush → is_Some (sy_flushing s) →
       delivered new = sm_buffer (tr_manager (sy_trace s)) ∧ sm_buffer (tr_manager (sy_trace (section_step s x))) = []).
Proof.
  assert (∀ f fl, (∀ m, delivered (f m).2 = []) → ∃ new, tr_events (sy_trace (life s f fl)) = tr_events (sy_trace s) ++ new ∧
    (∀ d to, Deliver d to ∈ new → False)) as Hlife.
  { intros f fl Hf. unfold life. destruct (sy_flushing s); [exists []; split; [by rewrite app_nil_r|by intros ? ? ?%not_elem_of_nil]|].
    specialize (Hf (tr_manager (sy_trace s))). destruct (f _) as [m' e]. cbn [snd] in Hf. exists e. split; [done|].
    intros d to Hin. assert (d ∈ delivered e) as Hd by (apply list_elem_of_omap; by exists (Deliver d to)).
    rewrite Hf in Hd. by apply not_elem_of_nil in Hd. }
  assert (∀ s', (∃ new, tr_events (sy_trace s') = tr_events (sy_trace s) ++ new ∧ (∀ d to, Deliver d to ∈ new → False)) →
    x ≠ LifeFlush → section_step s x = s' → ∃ new, tr_events (sy_trace (section_step s x)) = tr_events (sy_trace s) ++ new ∧
    (∀ d to, Deliver d to ∈ new →
       (x = LifeFlush ∧ sy_flushing s = Some to ∧ d ∈ sm_buffer (tr_manager (sy_trace s))) ∨
       (∃ i, x = SendFinish i ∧ sy_sends s !! i = Some (d, Some to))) ∧
    (x = LifeFlush → is_Some (sy_flushing s) →
       delivered new = sm_buffer (tr_manager (sy_trace s)) ∧ sm_buffer (tr_manager (sy_trace (section_step s x))) = [])) as Hq.
  { intros s' (new & E & Hn) Hne ->. exists new. split; [done|]. split; [by intros d to ?%Hn|done]. }
  destruct x as [r|r|c| | | |d|i].
  - eapply Hq; [apply (Hlife (activate_here r) (Some r))|done|done]. intros m. pose proof (activate_here_spec r m) as Ha.
    destruct (activate_here r m) as [m' e]. destruct Ha as (_ & _ & _ & _ & _ & _ & -> & _). by destruct (sm_handoff m).
  - eapply Hq; [apply (Hlife (λ m, (set_state (Active r false) m, [])) (Some r))|done|done]. done.
  - eapply Hq; [apply (Hlife (λ m, (begin_handover c m, [])) None)|done|done]. done.
  - eapply Hq; [apply (Hlife (λ m, (begin_starting m, [])) None)|done|done]. done.
  - eapply Hq; [apply (Hlife (λ m, (clear m, [])) None)|done|done]. done.
  - cbn. destruct (sy_flushing s) as [r|] eqn:Ef; cbn.
    + eexists. split; [done|]. split; [|intros _ _; split; [apply delivered_flush|done]].
      intros d to Hin. left. apply list_elem_of_fmap in Hin as (d' & [= -> ->] & Hin). done.
    + exists []. rewrite app_nil_r. split; [done|]. split; [by intros ? ? ?%not_elem_of_nil|by intros _ [? ?]].
  - eapply Hq; [|done|done]. exists []. cbn. rewrite app_nil_r. split; [done|]. by intros ? ? ?%not_elem_of_nil.
  - cbn. destruct (sy_sends s !! i) as [[d [r|]]|] eqn:Es; cbn.
    + eexists. split; [done|]. split; [|done]. intros d' to [= -> ->]%list_elem_of_singleton. right. eauto.
    + destruct (push_buffer d _) as [m' ok]. cbn. exists []. split; [done|]. split; [by intros ? ? ?%not_elem_of_nil|done].
    + exists []. rewrite app_nil_r. split; [done|]. split; [by intros ? ? ?%not_elem_of_nil|done].
Qed.

Lemma section_rejects s x :
  tr_rejected (sy_trace (section_step s x)) ≠ tr_rejected (sy_trace s) ↔
    (∃ i d, x = SendFinish i ∧ sy_sends s !! i = Some (d, None)) ∧
    sm_buffer_size (tr_manager (sy_trace s)) ≤ length (sm_buffer (tr_manager (sy_trace s))).
Proof.
  assert (∀ f fl, tr_rejected (sy_trace (life s f fl)) = tr_rejected (sy_trace s)) as Hlife.
  { intros f fl. unfold life. destruct (sy_flushing s); [done|]. by destruct (f _). }
  destruct x as [r|r|c| | | |d|i]; cbn [section_step]; rewrite ?Hlife;
    try (split; [done|by intros [(? & ? & ? & _) _]]).
  - destruct (sy_flushing s); cbn; (split; [done|by intros [(? & ? & ? & _) _]]).
  - destruct (sy_sends s !! i) as [[d [r|]]|] eqn:Es; cbn.
    + split; [done|]. intros [(? & ? & [= <-] & E) _]. congruence.
    + unfold push_buffer. destruct (Nat.leb_spec (sm_buffer_size (tr_manager (sy_trace s))) (length (sm_buffer (tr_manager (sy_trace s)))));
        cbn; split.
      * intros _. eauto.
      * lia.
      * done.
      * intros [_ ?]. lia.
    + split; [done|]. intros [(? & ? & [= <-] & E) _]. congruence.
Qed.

(** The activations and captured states that got through, in order. *)
Fixpoint lifecycle (xs : list Section_) (flushing : bool) : list Op :=
  match xs with
  | [] => []
  | LifeFlush :: xs => lifecycle xs false
  | LifeHere r :: xs => if flushing then lifecycle xs true else SetActiveHere r :: lifecycle xs true
  | LifeRemote r :: xs => if flushing then lifecycle xs true else SetActiveRemote r :: lifecycle xs true
  | LifeHandover c :: xs => if flushing then lifecycle xs true else BeginHandover c :: lifecycle xs false
  | _ :: xs => lifecycle xs flushing
  end.

Lemma system_assumes xs s :
  sm_handoff (tr_manager (sy_trace s)) = true →
  assumed (tr_events (sy_trace (foldl section_step s xs))) = assumed (tr_events (sy_trace s)) ++
    expected_assumes (lifecycle xs (bool_decide (is_Some (sy_flushing s)))) (sm_prior (tr_manager (sy_trace s)))
      (sm_fence (tr_manager (sy_trace s))).
Proof.
  revert s; induction xs as [|x xs IH]; intros s Hh; [by rewrite app_nil_r|]. cbn [foldl].
  destruct s as [[m ev acc rej] [fl|] sends]; cbn [sy_trace sy_flushing tr_manager tr_events sy_sends] in *;
    destruct x as [r|r|c| | | |d|i];
    cbn [section_step life sy_flushing sy_trace tr_manager tr_events sy_sends lifecycle bool_decide decide_rel];
    try (rewrite IH by done; cbn; by rewrite ?app_nil_r).
  - rewrite IH by done. cbn. by rewrite assumed_app, assumed_flush, app_nil_r.
  - destruct (sends !! i) as [[d [r|]]|]; cbn; [| |by rewrite IH].
    + rewrite IH by done. cbn. rewrite assumed_app. cbn. by rewrite app_nil_r.
    + unfold push_buffer. destruct (_ <=? _); rewrite IH by done; cbn; by rewrite app_nil_r.
  - pose proof (activate_here_spec r m) as Ha. destruct (activate_here r m) as [m' e].
    destruct Ha as (_ & _ & _ & A4 & A5 & _ & -> & A8). rewrite IH by (cbn; congruence). cbn.
    rewrite A4, A8, Hh by done. rewrite assumed_app. cbn. by rewrite <- app_assoc.
  - unfold begin_handover. rewrite Hh. rewrite IH by done. cbn. by rewrite app_nil_r.
  - destruct (sends !! i) as [[d [r|]]|]; cbn; [| |by rewrite IH].
    + rewrite IH by done. cbn. rewrite assumed_app. cbn. by rewrite app_nil_r.
    + unfold push_buffer. destruct (_ <=? _); rewrite IH by done; cbn; by rewrite app_nil_r.
Qed.

(** C37: what a singleton's handover promises.  In every interleaving of the lifecycle calls, made one
    after another, and of any number of overlapping sends: each message accepted was delivered, once,
    or is in the buffer; the buffer never exceeds its size, and the drops count the messages turned
    down, which is done only for a send that found no singleton, at a full buffer; a delivery goes to
    the reference that its send found active, or, from the buffer, to the one whose activation flushes
    it, which empties the buffer in its order; the hook gets, at each activation, the state captured
    since the one before and a token that counts the activations.  When the calls do not overlap,
    messages are delivered in the order in which they were accepted, each to the reference that is
    active then, and nothing is buffered while a singleton is active. *)
Theorem singleton_handover (size : nat) (handoff : bool) :
  (∀ xs x,
     let s := system_run xs (Manager_default size handoff) in
     let s' := section_step s x in
     let m := tr_manager (sy_trace s) in
     delivered (tr_events (sy_trace s)) ++ sm_buffer m ≡ₚ tr_accepted (sy_trace s) ∧
     length (sm_buffer m) ≤ size ∧ sm_drops m = wrap64 (N.of_nat (tr_rejected (sy_trace s))) ∧
     (tr_rejected (sy_trace s') ≠ tr_rejected (sy_trace s) ↔
        (∃ i d, x = SendFinish i ∧ sy_sends s !! i = Some (d, None)) ∧ length (sm_buffer m) = size) ∧
     (∃ new, tr_events (sy_trace s') = tr_events (sy_trace s) ++ new ∧
        (∀ d to, Deliver d to ∈ new →
           (x = LifeFlush ∧ sy_flushing s = Some to ∧ d ∈ sm_buffer m) ∨
           (∃ i, x = SendFinish i ∧ sy_sends s !! i = Some (d, Some to))) ∧
        (x = LifeFlush → is_Some (sy_flushing s) →
           delivered new = sm_buffer m ∧ sm_buffer (tr_manager (sy_trace s')) = [])) ∧
     (handoff = true →
        assumed (tr_events (sy_trace s)) = expected_assumes (lifecycle xs false) None 0)) ∧
  (∀ ops op,
     let t := singleton_run ops (Manager_default size handoff) in
     let t' := singleton_step t op in
     system_run (ops ≫= sections) (Manager_default size handoff) = mkSystem t None [] ∧
     delivered (tr_events t) ++ sm_buffer (tr_manager t) = tr_accepted t ∧
     (is_Some (current (tr_manager t)) → sm_buffer (tr_manager t) = []) ∧
     (∃ new, tr_events t' = tr_events t ++ new ∧
        ∀ d to, Deliver d to ∈ new → current (tr_manager t') = Some to)).
Proof.
  split.
  - intros xs x s s' m. destruct (interleaving_inv size handoff xs) as (H1 & H2 & H3 & H4). fold s m in H1, H2, H3, H4.
    split_and!; [done..| | |].
    + pose proof (section_rejects s x) as Hrej. fold s' m in Hrej. rewrite H3 in Hrej. rewrite Hrej.
      split; intros [? ?]; (split; [done|lia]).
    + apply section_events.
    + intros ->. unfold s, system_run. by rewrite system_assumes.
  - intros ops op t t'. destruct (run_inv ops (Manager_default size handoff) eq_refl eq_refl) as (H1 & H2 & H3 & H4).
    split_and!; [apply sections_run|done|done|apply step_events].
Qed.
End singleton.

Lemma singleton_handover_witness :
  let xs := [LifeStarting; SendCheck 1; LifeHere "a"; LifeFlush; SendFinish 0; LifeHandover [Byte.x01]; LifeRemote "b"; LifeFlush] in
  let s := system_run xs (Manager_default 1 true) in
  tr_events (sy_trace s) = [Assume None 1; Deliver 1 "b"] ∧ tr_accepted (sy_trace s) = [1%N] ∧
  assumed (tr_events (sy_trace s)) = [(None, 1%N)].
Proof.
  intros xs s. split; [by vm_compute|]. split; [by vm_compute|].
  destruct (proj1 (singleton_handover 1 true) xs LifeClear) as (_ & _ & _ & _ & _ & H). by apply H.
Defined.

(** A send whose check comes before an activation and whose push comes after it leaves its
    message in the buffer of an active singleton. *)
Lemma send_races_flush :
  let s := system_run [LifeStarting; SendCheck 1; LifeHere "a"; LifeFlush; SendFinish 0] Manager_new in
  current (tr_manager (sy_trace s)) = Some "a" ∧ tr_accepted (sy_trace s) = [1%N] ∧
  sm_buffer (tr_manager (sy_trace s)) = [1%N] ∧ tr_events (sy_trace s) = [].
Proof. by vm_compute. Qed.

(** A message that comes between the write of the state and the flush overtakes the buffered ones. *)
Lemma send_overtakes_flush :
  let s := system_run [LifeStarting; SendCheck 1; SendFinish 0; LifeHere "a"; SendCheck 2; SendFinish 0; LifeFlush] Manager_new in
  tr_accepted (sy_trace s) = [1; 2]%N ∧ tr_events (sy_trace s) = [Deliver 2 "a"; Deliver 1 "a"].
Proof. by vm_compute. Qed.
End Singleton.

(** ** The publish-subscribe mediator *)

Module PubSub.
Section pubsub.
Context {Ref Ty : Type} `{!EqDecision Ref} `{!EqDecision Ty}.

(** A subscriber takes the messages of one type. *)
Record TypedSubscriber := mkSubscriber { ts_ref : Ref; ts_type : Ty }.

Definition deliver_any (ty : Ty) (s : TypedSubscriber) : bool := bool_decide (ts_type s = ty).

Record Group := mkGroup { gr_members : list TypedSubscriber; gr_cursor : N }.

Record DistributedPubSub := mkPubSub {
  ps_topics : gmap string (list TypedSubscriber);
  ps_groups : gmap (string * string) Group;
}.

Definition PubSub_new : DistributedPubSub := mkPubSub ∅ ∅.

Definition subscribe (topic : string) (s : TypedSubscriber) (p : DistributedPubSub)
    : DistributedPubSub :=
  mkPubSub (entry_update [] (λ v, v ++ [s]) topic (ps_topics p)) (ps_groups p).

Definition subscribe_to_group (topic group : string) (s : TypedSubscriber) (p : DistributedPubSub)
    : DistributedPubSub :=
  mkPubSub (ps_topics p)
    (entry_update (mkGroup [] 0) (λ g, mkGroup (gr_members g ++ [s]) (gr_cursor g)) (topic, group)
       (ps_groups p)).

Definition unsubscribe (topic : string) (path : Ref) (p : DistributedPubSub) : DistributedPubSub :=
  mkPubSub (alter (filter (λ s, ts_ref s ≠ path)) topic (ps_topics p)) (ps_groups p).

Definition publish (topic : string) (p : DistributedPubSub) : list Ref :=
  default [] ((λ v : list TypedSubscriber, ts_ref <$> v) <$> ps_topics p !! topic).

(** The references told; their number is the result. *)
Definition publish_msg (topic : string) (ty : Ty) (p : DistributedPubSub) : list Ref :=
  match ps_topics p !! topic with
  | None => []
  | Some l => ts_ref <$> filter (λ s, deliver_any ty s = true) l
  end.

Definition send_to_group (topic group : string) (ty : Ty) (p : DistributedPubSub)
    : DistributedPubSub * list Ref * bool :=
  match ps_groups p !! (topic, group) with
  | None => (p, [], false)
  | Some g =>
      match gr_members g with
      | [] => (p, [], false)
      | members =>
          let '(i, c) := cursor_next (gr_cursor g) (length members) in
          let p' := mkPubSub (ps_topics p) (<[(topic, group) := mkGroup members c]> (ps_groups p)) in
          match members !! i with
          | Some s => if deliver_any ty s then (p', [ts_ref s], true) else (p', [], false)
          | None => (p', [], false)
          end
      end
  end.

(** *** The cross-node mediator *)

Inductive MediatorPdu :=
  | TopicAnnounce (from : string) (topics : list string)
  | Forward (topic : string) (msg_blob : Bytes) (type_id : string).

(** [cp_codecs]: the names of the registered decoders. *)
Record ClusterPubSub := mkClusterPubSub {
  cp_local : DistributedPubSub;
  cp_self_node : string;
  cp_remote_topics : gmap string (gset string);
  cp_codecs : gset string;
}.

Definition ClusterPubSub_new (local : DistributedPubSub) (self_node : string) : ClusterPubSub :=
  mkClusterPubSub local self_node ∅ ∅.

Definition register_decoder (type_id : string) (c : ClusterPubSub) : ClusterPubSub :=
  mkClusterPubSub (cp_local c) (cp_self_node c) (cp_remote_topics c) ({[type_id]} ∪ cp_codecs c).

Definition announce_to (target : string) (c : ClusterPubSub) : string * MediatorPdu :=
  (target, TopicAnnounce (cp_self_node c) (map_to_list (ps_topics (cp_local c))).*1).

(** The calls of decoders come with the bytes. *)
Definition apply_pdu (pdu : MediatorPdu) (c : ClusterPubSub)
    : ClusterPubSub * list (string * Bytes) :=
  match pdu with
  | TopicAnnounce from topics =>
      let dropped := (λ s, s ∖ {[from]}) <$> cp_remote_topics c in
      (mkClusterPubSub (cp_local c) (cp_self_node c)
         (foldl (λ g t, entry_update ∅ (λ s, {[from]} ∪ s) t g) dropped topics) (cp_codecs c), [])
  | Forward topic blob type_id =>
      (c, if bool_decide (type_id ∈ cp_codecs c) then [(type_id, blob)] else [])
  end.

Definition nodes_for (topic : string) (c : ClusterPubSub) : gset string :=
  default ∅ (cp_remote_topics c !! topic).

(** The references told, the frames sent, and the count. *)
Definition publish_remote (topic : string) (ty : Ty) (type_id : string) (blob : Bytes)
    (c : ClusterPubSub) : list Ref * list (string * MediatorPdu) * nat :=
  let told := publish_msg topic ty (cp_local c) in
  match cp_remote_topics c !! topic with
  | None => (told, [], length told)
  | Some nodes =>
      let sent := (λ n, (n, Forward topic blob type_id)) <$>
        filter (λ n, n ≠ cp_self_node c) (elements nodes) in
      (told, sent, length told + length sent)
  end.

Definition known_remote_topics (c : ClusterPubSub) : nat := size (cp_remote_topics c).

(** *** What is known of other nodes is their last announcement *)

(** The topics of the last announcement of [n]. *)
Definition last_announcement (n : string) (pdus : list MediatorPdu) : option (list string) :=
  last (omap (λ p, match p with
                   | TopicAnnounce from topics => if decide (from = n) then Some topics else None
                   | _ => None
                   end) pdus).

Lemma nodes_announced from n topics t (g : gmap string (gset string)) :
  n ∈ default ∅ (foldl (λ g t, entry_update ∅ (λ s, {[from]} ∪ s) t g) g topics !! t) ↔
  (n = from ∧ t ∈ topics) ∨ n ∈ default ∅ (g !! t).
Proof.
  revert g; induction topics as [|t' topics IH]; intros g; cbn [foldl]; [set_solver|].
  rewrite IH, lookup_entry_update. case_decide as Ht; cbn; [subst t'|]; set_solver.
Qed.

Lemma nodes_for_announce from topics n t c :
  n ∈ nodes_for t (apply_pdu (TopicAnnounce from topics) c).1 ↔
  if decide (n = from) then t ∈ topics else n ∈ nodes_for t c.
Proof.
  unfold nodes_for. cbn [apply_pdu fst cp_remote_topics]. rewrite nodes_announced, lookup_fmap.
  destruct (cp_remote_topics c !! t) as [s|]; cbn; case_decide; set_solver.
Qed.

Definition apply_all (pdus : list MediatorPdu) (c : ClusterPubSub) : ClusterPubSub :=
  foldl (λ c p, (apply_pdu p c).1) c pdus.

Lemma apply_all_local pdus c :
  cp_local (apply_all pdus c) = cp_local c ∧ cp_self_node (apply_all pdus c) = cp_self_node c ∧
  cp_codecs (apply_all pdus c) = cp_codecs c.
Proof.
  revert c; induction pdus as [|p pdus IH]; intros c; [done|].
  destruct (IH (apply_pdu p c).1) as (H1 & H2 & H3). by destruct p; cbn in *.
Qed.

Lemma nodes_for_apply_all pdus local self t n :
  n ∈ nodes_for t (apply_all pdus (ClusterPubSub_new local self)) ↔
  ∃ topics, last_announcement n pdus = Some topics ∧ t ∈ topics.
Proof.
  induction pdus as [|p pdus IH] using rev_ind.
  { cbn. split; [set_solver|]. by intros (? & ? & ?). }
  unfold apply_all, last_announcement in *. rewrite foldl_app, omap_app. cbn [foldl].
  destruct p as [from topics|topic blob ty]; cbn [omap list_omap].
  - rewrite nodes_for_announce. destruct (decide (from = n)) as [->|Hne].
    + rewrite decide_True, last_snoc by done. naive_solver.
    + rewrite decide_False, app_nil_r by done. exact IH.
  - rewrite app_nil_r. exact IH.
Qed.

(** The mediator reaches exactly the interested nodes.  After any frames, the nodes known
    for a topic are those whose last announcement named it.  A publication tells each
    local subscriber of the topic and message type once, and forwards one frame to every
    other such node; at a node with the decoder, the frame calls it once with the bytes
    published.  A node announces every topic it has subscribers for. *)
Theorem pubsub_reaches (local : DistributedPubSub) (self topic type_id : string) (ty : Ty)
    (blob : Bytes) (pdus : list MediatorPdu) (receiver : ClusterPubSub) :
  let c := apply_all pdus (ClusterPubSub_new local self) in
  let '(told, sent, n) := publish_remote topic ty type_id blob c in
  (∀ node, node ∈ nodes_for topic c ↔
     ∃ topics, last_announcement node pdus = Some topics ∧ topic ∈ topics) ∧
  told = ts_ref <$> filter (λ s, ts_type s = ty) (default [] (ps_topics local !! topic)) ∧
  NoDup sent ∧ n = length told + length sent ∧
  (∀ node pdu, (node, pdu) ∈ sent ↔
     pdu = Forward topic blob type_id ∧ node ≠ self ∧ node ∈ nodes_for topic c) ∧
  (∀ node pdu, (node, pdu) ∈ sent → type_id ∈ cp_codecs receiver →
     (apply_pdu pdu receiver).2 = [(type_id, blob)]) ∧
  (∀ s, s ∈ default [] (ps_topics (cp_local receiver) !! topic) →
     ∃ topics, (announce_to self receiver).2 = TopicAnnounce (cp_self_node receiver) topics ∧
       topic ∈ topics).
Proof.
  intros c. destruct (apply_all_local pdus (ClusterPubSub_new local self)) as (Hloc & Hself & _).
  fold c in Hloc, Hself. cbn in Hloc, Hself.
  assert (Htold : publish_msg topic ty (cp_local c) =
    ts_ref <$> filter (λ s, ts_type s = ty) (default [] (ps_topics local !! topic))).
  { unfold publish_msg. rewrite Hloc. destruct (ps_topics local !! topic) as [l|]; [|done]. cbn.
    f_equal. apply list_filter_iff. intros s. unfold deliver_any. by rewrite bool_decide_eq_true. }
  set (sent := (λ n, (n, Forward topic blob type_id)) <$>
        filter (λ n, n ≠ self) (elements (nodes_for topic c))).
  assert (Hpub : publish_remote topic ty type_id blob c =
    (publish_msg topic ty (cp_local c), sent, length (publish_msg topic ty (cp_local c)) + length sent)).
  { unfold publish_remote, sent, nodes_for. rewrite Hself.
    destruct (cp_remote_topics c !! topic); cbn; [done|]. by rewrite elements_empty, Nat.add_0_r. }
  rewrite Hpub. split; [intros; apply nodes_for_apply_all|]. split; [done|].
  assert (Hin : ∀ node pdu, (node, pdu) ∈ sent ↔
     pdu = Forward topic blob type_id ∧ node ≠ self ∧ node ∈ nodes_for topic c).
  { intros node pdu. unfold sent. rewrite list_elem_of_fmap. setoid_rewrite list_elem_of_filter.
    setoid_rewrite elem_of_elements. naive_solver. }
  split. { apply NoDup_fmap; [by intros ?? [=]|]. apply NoDup_filter, NoDup_elements. }
  split; [done|]. split; [done|]. split.
  - intros node pdu [-> _]%Hin Hcodec. cbn. by rewrite bool_decide_true.
  - intros s Hs. eexists. split; [done|]. apply list_elem_of_fmap.
    destruct (ps_topics (cp_local receiver) !! topic) as [l|] eqn:E; [|by apply not_elem_of_nil in Hs].
    exists (topic, l). split; [done|]. by apply elem_of_map_to_list.
Qed.
End pubsub.

Lemma pubsub_reaches_witness :
  let local := subscribe "t" (mkSubscriber "x" 1) PubSub_new in
  let c := apply_all [TopicAnnounce "b" ["t"; "u"]; TopicAnnounce "d" ["t"]; TopicAnnounce "d" []]
             (ClusterPubSub_new local "a") in
  let '(told, sent, n) := publish_remote "t" 1 "ty" [] c in
  (∀ node, node ∈ nodes_for "t" c ↔ ∃ topics, last_announcement node
     [TopicAnnounce "b" ["t"; "u"]; TopicAnnounce "d" ["t"]; TopicAnnounce "d" []] = Some topics ∧
     "t" ∈ topics) ∧
  told = ["x"] ∧ sent = [("b", Forward "t" [] "ty")].
Proof.
  intros local c.
  pose proof (pubsub_reaches local "a" "t" "ty" 1 [] [TopicAnnounce "b" ["t"; "u"];
    TopicAnnounce "d" ["t"]; TopicAnnounce "d" []] (ClusterPubSub_new local "b")) as H. fold c in H.
  destruct (publish_remote "t" 1 "ty" [] c) as [[told sent] n] eqn:E.
  destruct H as (Hn & _). split; [exact Hn|]. vm_compute in E. by injection E as <- <- _.
Defined.

(** A topic whose last subscriber has left is still announced. *)
Lemma empty_topic_announced :
  let local := unsubscribe "t" "x" (subscribe "t" (mkSubscriber "x" 1) PubSub_new) in
  publish "t" local = [] ∧
  announce_to "b" (ClusterPubSub_new local "a") = ("b", TopicAnnounce "a" ["t"]).
Proof. by vm_compute. Qed.
End PubSub.

(** ** The cluster client and its receptionist *)

Module Client.
Section client.
Context {Ref : Type}.

Definition Receptionist_register (name : string) (r : Ref) (s : gmap string Ref) : gmap string Ref :=
  <[name := r]> s.
Definition Receptionist_lookup (name : string) (s : gmap string Ref) : option Ref := s !! name.
Definition Receptionist_unregister (name : string) (s : gmap string Ref) : gmap string Ref :=
  delete name s.
Definition registered (s : gmap string Ref) : list string :=
  merge_sort String.le (map_to_list s).*1.

Record ClusterClientSettings := mkClientSettings {
  initial_contacts : list string;
  establishing_get_contacts_interval : N;
  reconnect_timeout : N;
  cc_max_attempts : nat;
}.

Definition ClientSettings_default : ClusterClientSettings := mkClientSettings [] 3 10 10.

Inductive ClusterClientError := NoContacts | Exhausted (attempts : nat).

Record ClusterClient := mkClient {
  cc_receptionist : gmap string Ref;
  cc_settings : ClusterClientSettings;
  contact_cursor : N;
}.

Definition Client_with_settings (r : gmap string Ref) (s : ClusterClientSettings) : ClusterClient :=
  mkClient r s 0.

Definition Client_send (name : string) (c : ClusterClient) : option Ref :=
  Receptionist_lookup name (cc_receptionist c).

Definition next_contact (c : ClusterClient) : ClusterClient * option string :=
  match initial_contacts (cc_settings c) with
  | [] => (c, None)
  | contacts =>
      let '(i, cur) := cursor_next (contact_cursor c) (length contacts) in
      (mkClient (cc_receptionist c) (cc_settings c) cur, contacts !! i)
  end.

(** The loop of [establish]: [attempt] attempts are done, [fuel] are left; [try_resolve]
    answers the call with that number.  The contacts asked and the pauses are returned. *)
Fixpoint establish_loop (try_resolve : nat → string → option Ref) (fuel attempt : nat)
    (c : ClusterClient) : ClusterClient * list string * nat * option Ref :=
  match fuel with
  | 0 => (c, [], 0, None)
  | S fuel =>
      let '(c, contact) := next_contact c in
      match contact with
      | None => (c, [], 0, None)
      | Some contact =>
          match try_resolve attempt contact with
          | Some r => (c, [contact], 0, Some r)
          | None =>
              let pause := if attempt + 1 <? cc_max_attempts (cc_settings c) then 1 else 0 in
              let '(c, asked, pauses, r) := establish_loop try_resolve fuel (attempt + 1) c in
              (c, contact :: asked, pause + pauses, r)
          end
      end
  end.

Definition establish (try_resolve : nat → string → option Ref) (c : ClusterClient)
    : ClusterClient * list string * nat * (ClusterClientError + Ref) :=
  match initial_contacts (cc_settings c) with
  | [] => (c, [], 0, inl NoContacts)
  | _ =>
      let n := cc_max_attempts (cc_settings c) in
      let '(c, asked, pauses, r) := establish_loop try_resolve n 0 c in
      (c, asked, pauses, match r with Some r => inr r | None => inl (Exhausted n) end)
  end.

(** The contact of the attempt [i] of a client. *)
Definition contact_at (c : ClusterClient) (i : nat) : option string :=
  let contacts := initial_contacts (cc_settings c) in
  contacts !! N.to_nat ((contact_cursor c + N.of_nat i) mod N.of_nat (length contacts)).

Lemma contact_at_next c contacts' i :
  initial_contacts (cc_settings c) = contacts' → contacts' ≠ [] →
  (contact_cursor c + 1 < u64_modulus)%N →
  let '(c', o) := next_contact c in
  cc_settings c' = cc_settings c ∧ contact_cursor c' = (contact_cursor c + 1)%N ∧
  o = contact_at c 0 ∧ is_Some o ∧ contact_at c' i = contact_at c (S i).
Proof.
  intros Hc Hne Hb. unfold next_contact, contact_at. rewrite Hc.
  destruct contacts' as [|x l] eqn:E; [done|]. rewrite cursor_next_spec by done.
  cbn [cc_settings contact_cursor]. rewrite Hc, N.add_0_r. split; [done|]. split; [done|].
  split; [done|]. split.
  - apply lookup_lt_is_Some_2.
    pose proof (N.mod_lt (contact_cursor c) (N.of_nat (length (x :: l))) ltac:(cbn; lia)). lia.
  - do 3 f_equal. lia.
Qed.

Lemma establish_loop_spec try_resolve contacts' fuel attempt c :
  initial_contacts (cc_settings c) = contacts' → contacts' ≠ [] →
  (contact_cursor c + N.of_nat fuel < u64_modulus)%N →
  let '(c', asked, pauses, r) := establish_loop try_resolve fuel attempt c in
  ∃ n, length asked = n ∧ n ≤ fuel ∧
    (∀ i, i < n → asked !! i = contact_at c i) ∧
    (∀ i x, i < n - 1 → contact_at c i = Some x → try_resolve (attempt + i) x = None) ∧
    match r with
    | Some v => ∃ x, 0 < n ∧ contact_at c (n - 1) = Some x ∧
                  try_resolve (attempt + (n - 1)) x = Some v
    | None => n = fuel ∧ ∀ i x, i < n → contact_at c i = Some x → try_resolve (attempt + i) x = None
    end.
Proof.
  revert attempt c; induction fuel as [|fuel IH]; intros attempt c Hc Hne Hb; cbn [establish_loop].
  { exists 0. repeat split; intros; lia. }
  pose proof (contact_at_next c contacts') as Hn.
  destruct (next_contact c) as [c1 o] eqn:E.
  destruct (Hn 0 Hc Hne ltac:(lia)) as (Hs & Hcur & Ho & [x Hx] & _).
  assert (Hshift : ∀ i, contact_at c1 i = contact_at c (S i))
    by (intros i; by destruct (Hn i Hc Hne ltac:(lia)) as (_ & _ & _ & _ & ?)).
  rewrite Hx in Ho |- *. destruct (try_resolve attempt x) as [v|] eqn:Ev.
  { exists 1. split; [done|]. split; [lia|]. split; [intros [|i] ?; [done|lia]|].
    split; [intros; lia|]. exists x. rewrite Nat.add_0_r. split; [lia|done]. }
  specialize (IH (attempt + 1) c1 ltac:(congruence) Hne ltac:(lia)).
  destruct (establish_loop _ _ _ _) as [[[c' asked] pauses] r].
  destruct IH as (n & Hlen & Hle & Hasked & Hfail & Hr). exists (S n).
  assert (Hall : ∀ (m : nat), (∀ i x, i < m → contact_at c1 i = Some x → try_resolve (attempt + 1 + i) x = None) →
    ∀ i x, i < S m → contact_at c i = Some x → try_resolve (attempt + i) x = None).
  { intros m Hm [|i] y Hi Hy.
    - rewrite <- Ho in Hy. injection Hy as <-. by rewrite Nat.add_0_r.
    - rewrite <- Hshift in Hy. replace (attempt + S i) with (attempt + 1 + i) by lia.
      apply (Hm i y); [lia|done]. }
  split; [cbn; lia|]. split; [lia|]. split.
  { intros [|i] Hi; [done|]. cbn. rewrite Hasked, Hshift by lia. done. }
  split.
  { destruct n as [|n]; [intros; lia|]. cbn [Nat.sub]. intros i y Hi.
    apply (Hall n); [|lia]. intros j z Hj. apply Hfail. lia. }
  destruct r as [v|].
  - destruct Hr as (y & Hn0 & Hy & Hv). exists y. split; [lia|].
    replace (S n - 1) with (S (n - 1)) by lia. rewrite <- Hshift.
    replace (attempt + S (n - 1)) with (attempt + 1 + (n - 1)) by lia. done.
  - destruct Hr as [-> Hr]. split; [done|]. by apply Hall.
Qed.

(** Establishing a connection terminates with the first answer: contacts are asked in
    round-robin order from the cursor on, at most [max_attempts] of them; the result is the
    reference of the first attempt that resolves, and the error "exhausted" exactly when
    all of the attempts fail; without contacts nothing is asked. *)
Theorem establish_correct (try_resolve : nat → string → option Ref) (c : ClusterClient) :
  let n := cc_max_attempts (cc_settings c) in
  (contact_cursor c + N.of_nat n < u64_modulus)%N →
  let '(_, asked, _, r) := establish try_resolve c in
  length asked ≤ n ∧
  (∀ i, i < length asked → asked !! i = contact_at c i) ∧
  match r with
  | inr v => ∃ x, 0 < length asked ∧ contact_at c (length asked - 1) = Some x ∧
               try_resolve (length asked - 1) x = Some v ∧
               ∀ i y, i < length asked - 1 → contact_at c i = Some y → try_resolve i y = None
  | inl NoContacts => initial_contacts (cc_settings c) = [] ∧ asked = []
  | inl (Exhausted k) => k = n ∧ length asked = n ∧
               ∀ i y, i < n → contact_at c i = Some y → try_resolve i y = None
  end.
Proof.
  intros n Hb. unfold establish.
  destruct (initial_contacts (cc_settings c)) as [|x0 l0] eqn:E.
  { split; [cbn; lia|]. split; [cbn; intros; lia|done]. }
  pose proof (establish_loop_spec try_resolve (x0 :: l0) n 0 c E ltac:(done) Hb) as H. fold n.
  destruct (establish_loop try_resolve n 0 c) as [[[c' asked] pauses] r].
  destruct H as (m & <- & Hle & Ha & Hf & Hr). split; [done|]. split; [done|].
  destruct r as [v|].
  - destruct Hr as (x & H0 & Hx & Hv). exists x. done.
  - destruct Hr as [Hm Hr]. split; [done|]. split; [done|]. by rewrite <- Hm.
Qed.
End client.

Lemma establish_correct_witness :
  let c := mkClient ∅ (mkClientSettings ["a"; "b"] 3 10 5) 1 in
  let '(_, asked, _, r) := establish (λ i x, if decide (i = 2) then Some x else None) c in
  length asked ≤ 5 ∧ asked = ["b"; "a"; "b"] ∧ r = inr "b".
Proof.
  intros c.
  pose proof (establish_correct (λ i x, if decide (i = 2) then Some x else None) c ltac:(done)) as H.
  destruct (establish _ c) as [[[c' asked] p] r] eqn:E. destruct H as (H & _).
  split; [exact H|]. vm_compute in E. by injection E as _ <- _ <-.
Defined.
End Client.

(** ** Leases *)

Module Lease.

Inductive LeaseError := AlreadyHeld (owner : string) | NotHeld.

(** The holder and the time it acquired the lease. *)
Definition InMemoryLease : Type := option (string * N).

Definition acquire (now : N) (owner : string) (l : InMemoryLease)
    : InMemoryLease * (LeaseError + bool) :=
  match l with
  | Some (current, t) =>
      if decide (current = owner) then (l, inr true) else (l, inl (AlreadyHeld current))
  | None => (Some (owner, now), inr true)
  end.

Definition release (owner : string) (l : InMemoryLease) : InMemoryLease * (LeaseError + unit) :=
  match l with
  | Some (current, _) => if decide (current = owner) then (None, inr tt) else (l, inl NotHeld)
  | None => (l, inl NotHeld)
  end.

Definition check_lease (l : InMemoryLease) : option string := fst <$> l.

(** Leases of one name are one lease. *)
Definition get_or_create (name : string) (reg : gmap string InMemoryLease)
    : gmap string InMemoryLease * InMemoryLease :=
  (entry_update None id name reg, default None (reg !! name)).

Inductive LeaseOp := OpAcquire (owner : string) | OpRelease (owner : string).

#[export] Instance LeaseOp_eq_dec : EqDecision LeaseOp.
Proof. solve_decision. Defined.

(** The operations with whether they succeeded. *)
Fixpoint lease_run (ops : list (N * LeaseOp)) (l : InMemoryLease)
    : InMemoryLease * list (LeaseOp * bool) :=
  match ops with
  | [] => (l, [])
  | (now, op) :: ops =>
      let '(l, ok) :=
        match op with
        | OpAcquire o => let '(l, r) := acquire now o l in (l, if r is inr _ then true else false)
        | OpRelease o => let '(l, r) := release o l in (l, if r is inr _ then true else false)
        end in
      let '(l, log) := lease_run ops l in (l, (op, ok) :: log)
  end.

Lemma lease_run_app ops1 ops2 l :
  lease_run (ops1 ++ ops2) l =
    let '(l1, log1) := lease_run ops1 l in
    let '(l2, log2) := lease_run ops2 l1 in (l2, log1 ++ log2).
Proof.
  revert l; induction ops1 as [|[now op] ops1 IH]; intros l; cbn [app lease_run].
  { by destruct (lease_run ops2 l). }
  destruct (match op with OpAcquire _ => _ | OpRelease _ => _ end) as [l1 ok]. rewrite IH.
  destruct (lease_run ops1 l1) as [l2 log1]. by destruct (lease_run ops2 l2).
Qed.

(** The holder keeps the lease while it does not release it. *)
Lemma lease_kept ops o t :
  let '(l, log) := lease_run ops (Some (o, t)) in
  (OpRelease o, true) ∉ log →
  l = Some (o, t) ∧ ∀ o', (OpAcquire o', true) ∈ log → o' = o.
Proof.
  induction ops as [|[now op] ops IH]; [set_solver|]. cbn [lease_run].
  destruct op as [o'|o']; cbn [acquire release]; destruct (decide (o = o')) as [<-|Hne].
  all: try (destruct (lease_run ops (Some (o, t))) as [l log]; intros Hlog;
    destruct IH as [-> Ha]; [set_solver|]; split; [done|]; set_solver).
  destruct (lease_run ops None) as [l log]. set_solver.
Qed.

(** A lease has one holder at a time: when one owner has acquired it and another does so
    later, the first has released it in between, and the later one is the holder shown. *)
Theorem lease_exclusive (l0 : InMemoryLease) (before between : list (N * LeaseOp)) (t1 t2 : N)
    (o1 o2 : string) :
  let '(l1, _) := lease_run before l0 in
  let '(l2, r1) := acquire t1 o1 l1 in
  let '(l3, log) := lease_run between l2 in
  let '(l4, r2) := acquire t2 o2 l3 in
  r1 = inr true → r2 = inr true → o1 ≠ o2 →
  (OpRelease o1, true) ∈ log ∧ check_lease l4 = Some o2.
Proof.
  destruct (lease_run before l0) as [l1 log0].
  destruct (acquire t1 o1 l1) as [l2 r1] eqn:E1.
  destruct (lease_run between l2) as [l3 log] eqn:E2.
  destruct (acquire t2 o2 l3) as [l4 r2] eqn:E3. intros -> -> Hne.
  assert (∃ t, l2 = Some (o1, t)) as [t ->].
  { unfold acquire in E1. destruct l1 as [[c t]|]; [case_decide|]; simplify_eq; eauto. }
  pose proof (lease_kept between o1 t) as Hk. rewrite E2 in Hk.
  assert (Hin : (OpRelease o1, true) ∈ log).
  { destruct (decide ((OpRelease o1, true) ∈ log)) as [H|H]; [done|].
    destruct (Hk H) as [-> _]. cbn in E3. by case_decide; simplify_eq. }
  split; [done|]. unfold acquire in E3. destruct l3 as [[c t3]|]; [case_decide|]; by simplify_eq.
Qed.

Lemma lease_exclusive_witness :
  let '(l2, r1) := acquire 1 "a" None in
  let '(l3, log) := lease_run [(2%N, OpAcquire "b"); (3%N, OpRelease "b"); (4%N, OpRelease "a")] l2 in
  let '(l4, r2) := acquire 5 "b" l3 in
  (OpRelease "a", true) ∈ log ∧ check_lease l4 = Some "b".
Proof.
  exact (lease_exclusive None [] [(2%N, OpAcquire "b"); (3%N, OpRelease "b"); (4%N, OpRelease "a")]
    1 5 "a" "b" eq_refl eq_refl ltac:(done)).
Defined.
End Lease.
