(* ===== verification/KillSwitch.v ===== *)
(** * The cluster kill switch
    ([crates/atomr-cluster-tools/src/kill_switch.rs])

    A latch over the replicator of this development: the epoch is a last-writer-wins
    register, the latch of an epoch a flag under a key of its own.  The replicator is a
    shared object, so every operation takes and returns it beside the state of the switch.
    Guarded parties and the transport are the user's code: the parties halted and the
    frames sent are returned, and [acked] says whose acknowledgement arrives in time.
    A cluster is a list of sites, each a switch with its replica, among which values
    are gossiped in any order. *)

From stdpp Require Import gmap strings list.
From Stdlib Require Import NArith Lia Ascii.
From S2P Require Import Prelude Crdt Counters Replicator Address Membership Sbr.

(** ** The replicated values *)

Inductive KsTag := TagFlag | TagEpoch.

#[export] Instance KsTag_eq_dec : EqDecision KsTag.
Proof. solve_decision. Defined.

Definition KsVal (t : KsTag) : Type :=
  match t with TagFlag => Flag | TagEpoch => LwwRegister N end.

#[export] Instance KsVal_merge (t : KsTag) : CrdtMerge (KsVal t) :=
  match t with TagFlag => Flag_merge | TagEpoch => LwwRegister_merge N end.

Abbreviation KsReplicator := (Replicator KsVal).

(** ** Data *)

Inductive HaltReason :=
  | Manual (note : string)
  | QuorumLost
  | RiskBreach (description : string).

Record ResetAuthorization := mkResetAuthorization {
  approver_a : string;
  approver_b : string;
}.

Inductive ResetError := MissingApprover | DuplicateApprover.

Record QuiescenceReport := mkQuiescenceReport {
  qr_acked : nat;
  qr_total : nat;
  qr_timed_out : bool;
  qr_remote_acked : nat;
  qr_remote_total : nat;
}.

Inductive HaltPdu :=
  | PduHalt (from : string) (epoch : N) (reason : HaltReason)
  | PduHaltAck (from : string) (epoch : N).

(** A party by its number, and whether its ack channel is still there. *)
Record Guarded := mkGuarded { g_party : N; g_ack_rx : bool }.

(** [ks_transport]: whether one is attached. *)
Record ClusterKillSwitch := mkKillSwitch {
  ks_base_key : string;
  ks_node : string;
  ks_seq : N;
  ks_last_reason : option HaltReason;
  ks_guarded : list Guarded;
  ks_transport : bool;
  ks_remote_acks : gmap N (gset string);
}.

Definition set_seq (n : N) (ks : ClusterKillSwitch) : ClusterKillSwitch :=
  mkKillSwitch (ks_base_key ks) (ks_node ks) n (ks_last_reason ks) (ks_guarded ks)
    (ks_transport ks) (ks_remote_acks ks).

Definition set_last_reason (r : option HaltReason) (ks : ClusterKillSwitch) : ClusterKillSwitch :=
  mkKillSwitch (ks_base_key ks) (ks_node ks) (ks_seq ks) r (ks_guarded ks)
    (ks_transport ks) (ks_remote_acks ks).

Definition set_guarded (g : list Guarded) (ks : ClusterKillSwitch) : ClusterKillSwitch :=
  mkKillSwitch (ks_base_key ks) (ks_node ks) (ks_seq ks) (ks_last_reason ks) g
    (ks_transport ks) (ks_remote_acks ks).

Definition set_remote_acks (a : gmap N (gset string)) (ks : ClusterKillSwitch)
    : ClusterKillSwitch :=
  mkKillSwitch (ks_base_key ks) (ks_node ks) (ks_seq ks) (ks_last_reason ks) (ks_guarded ks)
    (ks_transport ks) a.

(** ** Operations *)

Definition epoch_key (base : string) : string := base +:+ "::epoch".
Definition flag_key (base : string) (epoch : N) : string :=
  base +:+ "::flag::" +:+ uint_to_string epoch.

(** [fetch_add] wraps; the timestamp is its result plus one. *)
Definition next_ts (ks : ClusterKillSwitch) : N * ClusterKillSwitch :=
  (u64_add (ks_seq ks) 1, set_seq (u64_add (ks_seq ks) 1) ks).

Definition epoch_register (base : string) (r : KsReplicator) : option (LwwRegister N) :=
  Replicator_get (epoch_key base) TagEpoch r.

Definition epoch (base : string) (r : KsReplicator) : N :=
  default 0%N (lww_value <$> epoch_register base r).

Definition flag_on (base : string) (e : N) (r : KsReplicator) : bool :=
  default false (enabled <$> (Replicator_get (flag_key base e) TagFlag r : option Flag)).

Definition KillSwitch_build (base node : string) (transport : bool) (r : KsReplicator)
    : ClusterKillSwitch * KsReplicator :=
  let this := mkKillSwitch base node 0 None [] transport ∅ in
  match epoch_register base r with
  | None =>
      let '(ts, this) := next_ts this in
      (this, (Replicator_update (epoch_key base) TagEpoch (LwwRegister_new node 0%N ts) r).1)
  | Some _ => (this, r)
  end.

Definition engage_epoch (e : N) (reason : HaltReason) (ks : ClusterKillSwitch) (r : KsReplicator)
    : ClusterKillSwitch * KsReplicator :=
  let key := flag_key (ks_base_key ks) e in
  let flag := default Flag_new (Replicator_get key TagFlag r : option Flag) in
  (set_last_reason (Some reason) ks,
   (Replicator_update key TagFlag (Flag_switch_on flag) r).1).

(** The token is the number of the call. *)
Definition engage (reason : HaltReason) (ks : ClusterKillSwitch) (r : KsReplicator)
    : N * ClusterKillSwitch * KsReplicator :=
  let '(ks, r) := engage_epoch (epoch (ks_base_key ks) r) reason ks r in
  let '(ts, ks) := next_ts ks in (ts, ks, r).

Definition is_engaged (ks : ClusterKillSwitch) (r : KsReplicator) : bool :=
  flag_on (ks_base_key ks) (epoch (ks_base_key ks) r) r.

Definition register_guarded (party : N) (ks : ClusterKillSwitch) : ClusterKillSwitch :=
  set_guarded (ks_guarded ks ++ [mkGuarded party true]) ks.

(** The parties halted, and how many of those asked acknowledge in time. *)
Definition collect_local (acked : N → bool) (ks : ClusterKillSwitch)
    : ClusterKillSwitch * list N * (nat * nat) :=
  let receivers := filter (λ g, g_ack_rx g = true) (ks_guarded ks) in
  (set_guarded ((λ g, mkGuarded (g_party g) false) <$> ks_guarded ks) ks,
   g_party <$> ks_guarded ks,
   (length (filter (λ g, acked (g_party g) = true) receivers), length receivers)).

Definition record_ack (from : string) (e : N) (acks : gmap N (gset string))
    : gmap N (gset string) := entry_update ∅ (λ s, {[from]} ∪ s) e acks.

Definition remote_ack_count (e : N) (peers : list string) (acks : gmap N (gset string)) : nat :=
  match acks !! e with
  | Some s => length (filter (λ p, p ∈ s) peers)
  | None => 0
  end.

(** [arrivals]: the acknowledgements applied before the deadline, in order.  The
    ones left over are applied by [apply_pdu] after the wait. *)
Fixpoint collect_remote (e : N) (peers : list string) (arrivals : list (string * N))
    (acks : gmap N (gset string)) : gmap N (gset string) * nat :=
  let have := remote_ack_count e peers acks in
  if length peers <=? have then
    (foldl (λ a x, record_ack x.1 x.2 a) acks arrivals, have)
  else match arrivals with
       | [] => (acks, have)
       | x :: arrivals => collect_remote e peers arrivals (record_ack x.1 x.2 acks)
       end.

(** [peers]: what the transport answers; the frames to send come with their targets. *)
Definition await_quiescence (acked : N → bool) (peers : list string)
    (arrivals : list (string * N)) (ks : ClusterKillSwitch) (r : KsReplicator)
    : ClusterKillSwitch * list N * list (string * HaltPdu) * QuiescenceReport :=
  let e := epoch (ks_base_key ks) r in
  let reason := default (Manual "") (ks_last_reason ks) in
  let '(ks, halted, (local_acked, local_total)) := collect_local acked ks in
  let '(ks, sent, (remote_acked, remote_total)) :=
    if ks_transport ks then
      match peers with
      | [] => (ks, [], (0, 0))
      | _ =>
          let '(acks, n) := collect_remote e peers arrivals (<[e := ∅]> (ks_remote_acks ks)) in
          (set_remote_acks acks ks,
           (λ p, (p, PduHalt (ks_node ks) e reason)) <$> peers, (n, length peers))
      end
    else (ks, [], (0, 0)) in
  (ks, halted, sent,
   mkQuiescenceReport (local_acked + remote_acked) (local_total + remote_total)
     (local_acked + remote_acked <? local_total + remote_total) remote_acked remote_total).

Definition apply_halt_pdu (pdu : HaltPdu) (acked : N → bool) (ks : ClusterKillSwitch)
    (r : KsReplicator)
    : ClusterKillSwitch * KsReplicator * list N * list (string * HaltPdu) :=
  match pdu with
  | PduHalt from e reason =>
      let '(ks, r) := engage_epoch e reason ks r in
      let '(ks, halted, _) := collect_local acked ks in
      (ks, r, halted, if ks_transport ks then [(from, PduHaltAck (ks_node ks) e)] else [])
  | PduHaltAck from e => (set_remote_acks (record_ack from e (ks_remote_acks ks)) ks, r, [], [])
  end.

(** [trim().is_empty()]: only white space, on the UTF-8 bytes. *)
Fixpoint blank_bytes (l : list N) : bool :=
  match l with
  | [] => true
  | 194 :: b :: l' => ((b =? 133) || (b =? 160)) && blank_bytes l'
  | 225 :: 154 :: 128 :: l' => blank_bytes l'
  | 226 :: 128 :: b :: l' =>
      (((128 <=? b) && (b <=? 138)) || (b =? 168) || (b =? 169) || (b =? 175)) && blank_bytes l'
  | 226 :: 129 :: 159 :: l' => blank_bytes l'
  | 227 :: 128 :: 128 :: l' => blank_bytes l'
  | b :: l' => (((9 <=? b) && (b <=? 13)) || (b =? 32)) && blank_bytes l'
  end%N.

Definition trim_is_empty (s : string) : bool :=
  blank_bytes (N_of_ascii <$> String.list_ascii_of_string s).

(** [epoch() + 1] overflows only after 2^64 resets. *)
Definition reset (authz : ResetAuthorization) (ks : ClusterKillSwitch) (r : KsReplicator)
    : ClusterKillSwitch * KsReplicator * (ResetError + N) :=
  if trim_is_empty (approver_a authz) || trim_is_empty (approver_b authz)
  then (ks, r, inl MissingApprover)
  else if decide (approver_a authz = approver_b authz) then (ks, r, inl DuplicateApprover)
  else
    let new_epoch := u64_add (epoch (ks_base_key ks) r) 1 in
    let '(ts, ks) := next_ts ks in
    (set_last_reason None ks,
     (Replicator_update (epoch_key (ks_base_key ks)) TagEpoch
        (LwwRegister_new (ks_node ks) new_epoch ts) r).1, inr new_epoch).

(** [KillSwitchQuorumObserver]. *)
Definition observe_quorum (c : QuorumCall) (x : ClusterKillSwitch * KsReplicator)
    : ClusterKillSwitch * KsReplicator :=
  match c with
  | on_quorum_lost => let '(_, ks, r) := engage QuorumLost x.1 x.2 in (ks, r)
  | on_quorum_regained => x
  end.

(** ** Lemmas *)

Lemma get_update_eq key t (v : KsVal t) (r : KsReplicator) :
  Replicator_get key t (Replicator_update key t v r).1 =
    Some (match Replicator_get key t r with Some c => crdt_merge c v | None => v end).
Proof.
  unfold Replicator_get, Replicator_update. cbn. rewrite lookup_insert_eq. cbn.
  by rewrite update_slot_downcast.
Qed.

Lemma get_update_ne key key' t t' (v : KsVal t) (r : KsReplicator) :
  key ≠ key' → Replicator_get key' t' (Replicator_update key t v r).1 = Replicator_get key' t' r.
Proof. intros. unfold Replicator_get, Replicator_update. cbn. by rewrite lookup_insert_ne. Qed.

Lemma uint_to_string_inj n m : uint_to_string n = uint_to_string m → n = m.
Proof.
  intros H. pose proof (parse_uint_to_string (N.max n m) n ltac:(lia)) as Hn.
  rewrite H, parse_uint_to_string in Hn by lia. congruence.
Qed.

Lemma flag_key_inj base e e' : flag_key base e = flag_key base e' → e = e'.
Proof. unfold flag_key. intros H%string_app_cancel_l. cbn in H. by simplify_eq; apply uint_to_string_inj. Qed.

Lemma flag_key_epoch_key base e : flag_key base e ≠ epoch_key base.
Proof. unfold flag_key, epoch_key. intros H%string_app_cancel_l. cbn in H. discriminate. Qed.

(** A write to a flag, and a write to the epoch register. *)
Lemma flag_on_update base e e' f (r : KsReplicator) :
  flag_on base e' (Replicator_update (flag_key base e) TagFlag f r).1 =
    (bool_decide (e = e') && enabled f) || flag_on base e' r.
Proof.
  unfold flag_on. destruct (decide (e = e')) as [<-|Hne].
  - rewrite get_update_eq, bool_decide_true by done. cbn.
    destruct (Replicator_get _ TagFlag r) as [c|]; cbn; [apply orb_comm|by rewrite orb_false_r].
  - rewrite get_update_ne, bool_decide_false; [done|done|]. by intros ?%flag_key_inj.
Qed.

Lemma epoch_register_update_flag base e f (r : KsReplicator) :
  epoch_register base (Replicator_update (flag_key base e) TagFlag f r).1 = epoch_register base r.
Proof. exact (get_update_ne _ _ TagFlag TagEpoch f r (flag_key_epoch_key base e)). Qed.

Lemma flag_on_update_epoch base e v (r : KsReplicator) :
  flag_on base e (Replicator_update (epoch_key base) TagEpoch v r).1 = flag_on base e r.
Proof.
  unfold flag_on. rewrite get_update_ne; [done|]. intros H. by apply (flag_key_epoch_key base e).
Qed.

Lemma epoch_register_update base v (r : KsReplicator) :
  epoch_register base (Replicator_update (epoch_key base) TagEpoch v r).1 =
    Some (match epoch_register base r with Some c => crdt_merge c v | None => v end).
Proof. exact (get_update_eq _ TagEpoch v r). Qed.

(** ** A site and its operations *)

Record Site := mkSite { st_ks : ClusterKillSwitch; st_r : KsReplicator }.

Inductive SiteOp :=
  | SoEngage (reason : HaltReason)
  | SoPdu (pdu : HaltPdu) (acked : N → bool)
  | SoQuiesce (acked : N → bool) (peers : list string) (arrivals : list (string * N))
  | SoRegister (party : N)
  | SoReset (authz : ResetAuthorization)
  | SoQuorum (c : QuorumCall).

Definition site_op (op : SiteOp) (s : Site) : Site :=
  match op with
  | SoEngage reason => let '(_, ks, r) := engage reason (st_ks s) (st_r s) in mkSite ks r
  | SoPdu pdu acked =>
      let '(ks, r, _, _) := apply_halt_pdu pdu acked (st_ks s) (st_r s) in mkSite ks r
  | SoQuiesce acked peers arrivals =>
      let '(ks, _, _, _) := await_quiescence acked peers arrivals (st_ks s) (st_r s) in
      mkSite ks (st_r s)
  | SoRegister party => mkSite (register_guarded party (st_ks s)) (st_r s)
  | SoReset authz => let '(ks, r, _) := reset authz (st_ks s) (st_r s) in mkSite ks r
  | SoQuorum c => let '(ks, r) := observe_quorum c (st_ks s, st_r s) in mkSite ks r
  end.

Definition site_new (base node : string) (transport : bool) : Site :=
  let '(ks, r) := KillSwitch_build base node transport Replicator_new in mkSite ks r.

Definition site_base (s : Site) : string := ks_base_key (st_ks s).
Definition site_flag (e : N) (s : Site) : bool := flag_on (site_base s) e (st_r s).
Definition site_epoch (s : Site) : N := epoch (site_base s) (st_r s).
Definition site_engaged (s : Site) : bool := is_engaged (st_ks s) (st_r s).

Definition authorized (a : ResetAuthorization) : bool :=
  negb (trim_is_empty (approver_a a)) && negb (trim_is_empty (approver_b a)) &&
  bool_decide (approver_a a ≠ approver_b a).

(** The latches an operation sets. *)
Definition op_latches (op : SiteOp) (current : N) : gset N :=
  match op with
  | SoEngage _ | SoQuorum on_quorum_lost => {[current]}
  | SoPdu (PduHalt _ e _) _ => {[e]}
  | _ => ∅
  end.

Definition op_resets (op : SiteOp) : bool :=
  match op with SoReset a => authorized a | _ => false end.

(** The reason an operation leaves behind, when it changes it. *)
Definition op_reason (op : SiteOp) : option (option HaltReason) :=
  match op with
  | SoEngage reason | SoPdu (PduHalt _ _ reason) _ => Some (Some reason)
  | SoQuorum on_quorum_lost => Some (Some QuorumLost)
  | SoReset a => if authorized a then Some None else None
  | _ => None
  end.

(** The timestamps an operation draws. *)
Definition op_draws (op : SiteOp) : N :=
  match op with
  | SoEngage _ | SoQuorum on_quorum_lost => 1
  | SoReset a => if authorized a then 1 else 0
  | _ => 0
  end.

(** What an operation does to the latches, the register and the identity of a site. *)
Lemma engage_epoch_spec e reason ks r :
  let '(ks', r') := engage_epoch e reason ks r in
  ks' = set_last_reason (Some reason) ks ∧
  (∀ e', flag_on (ks_base_key ks) e' r' = bool_decide (e = e') || flag_on (ks_base_key ks) e' r) ∧
  epoch_register (ks_base_key ks) r' = epoch_register (ks_base_key ks) r.
Proof.
  unfold engage_epoch. split; [done|]. split; [|apply epoch_register_update_flag].
  intros e'. rewrite flag_on_update. cbn. by rewrite andb_true_r.
Qed.

Lemma reset_spec authz ks r :
  let '(ks', r', res) := reset authz ks r in
  let base := ks_base_key ks in
  (∀ e, flag_on base e r' = flag_on base e r) ∧
  if authorized authz then
    let reg := LwwRegister_new (ks_node ks) (u64_add (epoch base r) 1) (u64_add (ks_seq ks) 1) in
    ks' = set_last_reason None (set_seq (u64_add (ks_seq ks) 1) ks) ∧
    epoch_register base r' =
      Some (match epoch_register base r with Some c => crdt_merge c reg | None => reg end) ∧
    res = inr (u64_add (epoch base r) 1)
  else ks' = ks ∧ r' = r ∧ ∃ err, res = inl err.
Proof.
  unfold reset, authorized.
  destruct (trim_is_empty (approver_a authz)), (trim_is_empty (approver_b authz)); cbn;
    try by eauto.
  case_decide; [rewrite bool_decide_false by tauto; by eauto|].
  rewrite bool_decide_true by done. cbn [next_ts].
  split; [intros e; apply (flag_on_update_epoch (ks_base_key ks))|].
  split; [done|]. split; [|done]. apply (epoch_register_update (ks_base_key ks)).
Qed.

(** The part of a switch that the latch depends on. *)
Definition same_switch (ks ks' : ClusterKillSwitch) : Prop :=
  ks_base_key ks' = ks_base_key ks ∧ ks_node ks' = ks_node ks.

Lemma await_quiescence_switch acked peers arrivals ks r :
  let '(ks', _, _, _) := await_quiescence acked peers arrivals ks r in
  same_switch ks ks' ∧ ks_seq ks' = ks_seq ks ∧ ks_last_reason ks' = ks_last_reason ks.
Proof.
  unfold await_quiescence, collect_local. cbn. destruct (ks_transport ks); [|done].
  destruct peers; [done|]. by destruct (collect_remote _ _ _ _).
Qed.

Lemma site_op_spec op s :
  let s' := site_op op s in
  let reg := LwwRegister_new (ks_node (st_ks s)) (u64_add (site_epoch s) 1)
               (u64_add (ks_seq (st_ks s)) 1) in
  same_switch (st_ks s) (st_ks s') ∧
  ks_seq (st_ks s') = (if (op_draws op =? 0)%N then ks_seq (st_ks s)
                       else u64_add (ks_seq (st_ks s)) 1) ∧
  ks_last_reason (st_ks s') = default (ks_last_reason (st_ks s)) (op_reason op) ∧
  (∀ e, site_flag e s' = bool_decide (e ∈ op_latches op (site_epoch s)) || site_flag e s) ∧
  epoch_register (site_base s) (st_r s') =
    (if op_resets op
     then Some (match epoch_register (site_base s) (st_r s) with
                | Some c => crdt_merge c reg | None => reg end)
     else epoch_register (site_base s) (st_r s)).
Proof.
  assert (Hsing : ∀ e e' : N, bool_decide (e = e') = bool_decide (e' ∈ ({[e]} : gset N)))
    by (intros; apply bool_decide_ext; set_solver).
  destruct s as [ks r]. unfold site_flag, site_epoch, site_base.
  destruct op as [reason|[from e reason|from e] acked|acked peers arrivals|party|authz|[]];
    cbn [site_op st_ks st_r apply_halt_pdu observe_quorum op_latches op_resets op_reason op_draws];
    try (split; [by split|]; split; [done|]; split; [done|]; split; [|done];
         intros; by rewrite bool_decide_false by set_solver).
  - unfold engage. pose proof (engage_epoch_spec (epoch (ks_base_key ks) r) reason ks r) as H.
    destruct (engage_epoch _ _ _ _) as [ks' r']. destruct H as (-> & Hf & He).
    cbn. repeat split; [|done]. intros e. by rewrite Hf, Hsing.
  - pose proof (engage_epoch_spec e reason ks r) as H.
    destruct (engage_epoch _ _ _ _) as [ks' r']. destruct H as (-> & Hf & He).
    cbn. repeat split; [|done]. intros e'. by rewrite Hf, Hsing.
  - pose proof (await_quiescence_switch acked peers arrivals ks r) as H.
    destruct (await_quiescence _ _ _ _ _) as [[[ks' ?] ?] ?]. destruct H as (Hs & Hq & Hr). cbn.
    destruct Hs as [Hb Hn]. rewrite Hb. repeat split; done.
  - pose proof (reset_spec authz ks r) as H. destruct (reset authz ks r) as [[ks' r'] res].
    cbn in H |- *. destruct H as [Hf H]. destruct (authorized authz).
    + destruct H as (-> & Hr & _). repeat split; [|exact Hr]. intros e. cbn. by rewrite Hf, bool_decide_false by set_solver.
    + destruct H as (-> & -> & _). by repeat split.
  - unfold engage. cbn [fst snd].
    pose proof (engage_epoch_spec (epoch (ks_base_key ks) r) QuorumLost ks r) as H.
    destruct (engage_epoch _ _ _ _) as [ks' r']. destruct H as (-> & Hf & He).
    cbn. repeat split; [|done]. intros e. by rewrite Hf, Hsing.
Qed.

(** ** A cluster of sites *)

(** Gossip copies the value one site holds to another, which merges it. *)
Inductive ClusterOp :=
  | CoSite (i : nat) (op : SiteOp)
  | CoGossipFlag (i j : nat) (e : N)
  | CoGossipEpoch (i j : nat).

Definition gossip_flag (e : N) (from to : Site) : Site :=
  match (Replicator_get (flag_key (site_base from) e) TagFlag (st_r from) : option Flag) with
  | Some f => mkSite (st_ks to)
      (Replicator_update (flag_key (site_base from) e) TagFlag f (st_r to)).1
  | None => to
  end.

Definition gossip_epoch (from to : Site) : Site :=
  match epoch_register (site_base from) (st_r from) with
  | Some v => mkSite (st_ks to)
      (Replicator_update (epoch_key (site_base from)) TagEpoch v (st_r to)).1
  | None => to
  end.

Definition cluster_step (cl : list Site) (op : ClusterOp) : list Site :=
  match op with
  | CoSite i op => alter (site_op op) i cl
  | CoGossipFlag i j e => match cl !! i with Some s => alter (gossip_flag e s) j cl | None => cl end
  | CoGossipEpoch i j => match cl !! i with Some s => alter (gossip_epoch s) j cl | None => cl end
  end.

Definition cluster_run (ops : list ClusterOp) (cl : list Site) : list Site :=
  foldl cluster_step cl ops.

Definition cluster_new (base : string) (nodes : list (string * bool)) : list Site :=
  (λ n, site_new base n.1 n.2) <$> nodes.

(** The sites gate on one key and hold an epoch register with value [e]. *)
Definition agree (base : string) (e : N) (cl : list Site) : Prop :=
  Forall (λ s, site_base s = base ∧ lww_value <$> epoch_register base (st_r s) = Some e) cl.

Definition unreset (op : ClusterOp) : bool :=
  match op with CoSite _ op => negb (op_resets op) | _ => true end.

Lemma Forall_alter_at {A} (P : A → Prop) (f : A → A) i (l : list A) :
  Forall P l → (∀ x, P x → P (f x)) → Forall P (alter f i l).
Proof. intros Hl Hf. apply Forall_alter; [done|]. intros x _ Hx. by apply Hf. Qed.

Lemma gossip_flag_spec e from to :
  let to' := gossip_flag e from to in
  site_base from = site_base to →
  st_ks to' = st_ks to ∧
  (∀ e', site_flag e' to' = (bool_decide (e = e') && site_flag e from) || site_flag e' to) ∧
  epoch_register (site_base to) (st_r to') = epoch_register (site_base to) (st_r to).
Proof.
  intros to' Hb. unfold to', gossip_flag, site_flag. rewrite Hb.
  unfold flag_on at 2. destruct (Replicator_get _ TagFlag (st_r from)) as [f|] eqn:E; cbn.
  - split; [done|]. split; [intros e'; apply flag_on_update|apply epoch_register_update_flag].
  - split; [done|]. split; [|done]. intros e'. by rewrite andb_false_r.
Qed.

Lemma gossip_epoch_spec from to :
  let to' := gossip_epoch from to in
  site_base from = site_base to →
  st_ks to' = st_ks to ∧ (∀ e, site_flag e to' = site_flag e to) ∧
  epoch_register (site_base to) (st_r to') =
    match epoch_register (site_base to) (st_r from), epoch_register (site_base to) (st_r to) with
    | Some v, Some c => Some (crdt_merge c v)
    | Some v, None => Some v
    | None, o => o
    end.
Proof.
  intros to' Hb. unfold to', gossip_epoch, site_flag. rewrite Hb.
  destruct (epoch_register (site_base to) (st_r from)) as [v|] eqn:E; [|done].
  cbn [st_ks st_r]. split; [done|]. split; [intros e; apply flag_on_update_epoch|].
  rewrite epoch_register_update. by destruct (epoch_register _ (st_r to)).
Qed.

Lemma lww_merge_value {T} (a b : LwwRegister T) :
  crdt_merge a b = a ∨ crdt_merge a b = b.
Proof. unfold crdt_merge, LwwRegister_merge. destruct (_ || _); auto. Qed.

(** No step unsets a latch or changes what a site gates on. *)
Lemma cluster_step_latch base e cl op i s :
  Forall (λ s, site_base s = base) cl → cl !! i = Some s →
  Forall (λ s, site_base s = base) (cluster_step cl op) ∧
  ∃ s', cluster_step cl op !! i = Some s' ∧ (site_flag e s = true → site_flag e s' = true).
Proof.
  intros Hb Hi. pose proof (proj1 (Forall_forall _ _) Hb) as Hb'.
  assert (Halter : ∀ f j, (∀ x, site_base x = base → site_base (f x) = base ∧
      (site_flag e x = true → site_flag e (f x) = true)) →
    Forall (λ s, site_base s = base) (alter f j cl) ∧
    ∃ s', alter f j cl !! i = Some s' ∧ (site_flag e s = true → site_flag e s' = true)).
  { intros f j Hf. split; [apply Forall_alter_at; [done|]; intros; by apply Hf|].
    destruct (decide (i = j)) as [->|Hne].
    - rewrite list_lookup_alter_eq, Hi. cbn. eexists; split; [done|].
      apply Hf. by eapply Hb', list_elem_of_lookup_2.
    - rewrite list_lookup_alter_ne by done. eauto. }
  destruct op as [j op|j k e0|j k]; cbn [cluster_step].
  - apply Halter. intros x Hx. destruct (site_op_spec op x) as ((Hs & _) & _ & _ & Hf & _).
    split; [unfold site_base in *; by rewrite Hs|]. intros Hx'. by rewrite Hf, Hx', orb_true_r.
  - destruct (cl !! j) as [s0|] eqn:E; [|by eauto]. apply Halter. intros x Hx.
    assert (Hs0 : site_base s0 = base) by (by eapply Hb', list_elem_of_lookup_2).
    destruct (gossip_flag_spec e0 s0 x ltac:(congruence)) as (Hk & Hf & _).
    split; [unfold site_base in *; by rewrite Hk|]. intros Hx'. by rewrite Hf, Hx', orb_true_r.
  - destruct (cl !! j) as [s0|] eqn:E; [|by eauto]. apply Halter. intros x Hx.
    assert (Hs0 : site_base s0 = base) by (by eapply Hb', list_elem_of_lookup_2).
    destruct (gossip_epoch_spec s0 x ltac:(congruence)) as (Hk & Hf & _).
    split; [unfold site_base in *; by rewrite Hk|]. by rewrite Hf.
Qed.

Lemma cluster_run_latch base e ops cl i s :
  Forall (λ s, site_base s = base) cl → cl !! i = Some s →
  Forall (λ s, site_base s = base) (cluster_run ops cl) ∧
  ∃ s', cluster_run ops cl !! i = Some s' ∧ (site_flag e s = true → site_flag e s' = true).
Proof.
  revert cl s; induction ops as [|op ops IH]; intros cl s Hb Hi; [by eauto|]. cbn.
  destruct (cluster_step_latch base e cl op i s Hb Hi) as (Hb1 & s1 & Hi1 & Hf1).
  destruct (IH _ _ Hb1 Hi1) as (Hb2 & s2 & Hi2 & Hf2). eauto 10.
Qed.

(** Without a reset, the sites keep agreeing on the epoch. *)
Lemma cluster_step_agree base e cl op :
  unreset op = true → agree base e cl → agree base e (cluster_step cl op).
Proof.
  intros Hu Ha. pose proof (proj1 (Forall_forall _ _) Ha) as Ha'.
  destruct op as [j op|j k e0|j k]; cbn [cluster_step].
  - apply Forall_alter_at; [done|]. intros x [Hx Hr].
    destruct (site_op_spec op x) as ((Hs & _) & _ & _ & _ & He).
    split; [unfold site_base in *; by rewrite Hs|].
    rewrite Hx in He. cbn in Hu. apply negb_true_iff in Hu. by rewrite He, Hu.
  - destruct (cl !! j) as [s0|] eqn:E; [|done]. apply Forall_alter_at; [done|]. intros x [Hx Hr].
    destruct (Ha' s0) as [Hs0 _]; [by eapply list_elem_of_lookup_2|].
    destruct (gossip_flag_spec e0 s0 x ltac:(congruence)) as (Hk & _ & He).
    split; [unfold site_base in *; by rewrite Hk|]. rewrite Hx in He. by rewrite He.
  - destruct (cl !! j) as [s0|] eqn:E; [|done]. apply Forall_alter_at; [done|]. intros x [Hx Hr].
    destruct (Ha' s0) as [Hs0 Hr0]; [by eapply list_elem_of_lookup_2|].
    destruct (gossip_epoch_spec s0 x ltac:(congruence)) as (Hk & _ & He).
    split; [unfold site_base in *; by rewrite Hk|]. rewrite Hx in He. rewrite He.
    destruct (epoch_register base (st_r s0)) as [v|], (epoch_register base (st_r x)) as [c|];
      try done. cbn in *. by destruct (lww_merge_value c v) as [->| ->].
Qed.

Lemma cluster_run_agree base e ops cl :
  Forall (λ op, unreset op = true) ops → agree base e cl → agree base e (cluster_run ops cl).
Proof.
  intros Hu. revert cl; induction Hu as [|op ops Hop Hu IH]; intros cl Ha; [done|].
  apply IH. by apply cluster_step_agree.
Qed.

Lemma agree_engaged base e cl i s :
  agree base e cl → cl !! i = Some s → site_engaged s = site_flag e s ∧ site_base s = base.
Proof.
  intros Ha Hi. destruct (proj1 (Forall_forall _ _) Ha s) as [Hb Hr];
    [by eapply list_elem_of_lookup_2|].
  unfold site_engaged, is_engaged, site_flag, epoch, site_base in *. rewrite Hb in *.
  destruct (epoch_register base (st_r s)); [|done]. cbn in *. split; [|done]. by simplify_eq.
Qed.

Lemma cluster_new_agree base nodes : agree base 0 (cluster_new base nodes).
Proof.
  apply Forall_fmap, Forall_forall. intros [node tr] _. cbn.
  unfold site_new, KillSwitch_build, site_base.
  replace (epoch_register base Replicator_new) with (None : option (LwwRegister N)) by done.
  cbn [next_ts st_ks st_r ks_base_key set_seq]. by rewrite epoch_register_update.
Qed.

Lemma cluster_run_length ops cl : length (cluster_run ops cl) = length cl.
Proof.
  revert cl; induction ops as [|op ops IH]; intros cl; [done|].
  change (length (cluster_run ops (cluster_step cl op)) = length cl). rewrite IH.
  destruct op as [k op|k n e|k n]; cbn; rewrite ?length_alter; try done;
    destruct (cl !! k); by rewrite ?length_alter.
Qed.

Lemma cluster_run_base base ops cl :
  Forall (λ s, site_base s = base) cl → Forall (λ s, site_base s = base) (cluster_run ops cl).
Proof.
  intros Hb. destruct cl as [|s0 cl].
  - pose proof (cluster_run_length ops []) as Hl. by destruct (cluster_run ops []).
  - by eapply (cluster_run_latch base 0 ops _ 0 s0).
Qed.

(** A latch set at a site reaches any site its flag is gossiped to, and stays there. *)
Lemma gossip_spreads base e cl i j mid last s sj :
  Forall (λ s, site_base s = base) cl → cl !! i = Some s → site_flag e s = true →
  cluster_run (mid ++ CoGossipFlag i j e :: last) cl !! j = Some sj → site_flag e sj = true.
Proof.
  intros Hb Hi Hs Hj.
  destruct (cluster_run_latch base e mid cl i s Hb Hi) as (Hb1 & s1 & Hs1 & Hf1).
  unfold cluster_run in Hj. rewrite foldl_app in Hj. fold (cluster_run mid cl) in Hj.
  set (cl1 := cluster_run mid cl) in *. cbn [foldl] in Hj.
  fold (cluster_run last (cluster_step cl1 (CoGossipFlag i j e))) in Hj.
  pose proof (cluster_step_latch base e cl1 (CoGossipFlag i j e) i s1 Hb1 Hs1) as [Hb2 _].
  set (cl2 := cluster_step cl1 (CoGossipFlag i j e)) in *.
  destruct (cl2 !! j) as [s2|] eqn:E2.
  2:{ apply lookup_ge_None in E2. apply lookup_lt_Some in Hj. rewrite cluster_run_length in Hj. lia. }
  assert (Hg : site_flag e s2 = true).
  { unfold cl2 in E2. cbn in E2. rewrite Hs1, list_lookup_alter_eq in E2.
    destruct (cl1 !! j) as [s0|] eqn:E0; [|done]. cbn in E2. injection E2 as <-.
    destruct (gossip_flag_spec e s1 s0) as (_ & -> & _).
    - rewrite Forall_forall in Hb1. rewrite !Hb1; [done|by eapply list_elem_of_lookup_2..].
    - by rewrite bool_decide_true, Hf1. }
  destruct (cluster_run_latch base e last cl2 j s2 Hb2 E2) as (_ & s3 & Hs3 & Hf3).
  rewrite Hs3 in Hj. injection Hj as <-. auto.
Qed.

(** C10: the kill switch latches.  In a cluster of switches on replicas of their own, with
    operations, halt frames and gossip of flags and epochs in any order: a latch that is
    set at a site stays set there for ever; and while no authorized reset takes place
    after the sites agree on the epoch, an engaged site stays engaged, and one gossip of
    its flag engages any other site for good, however late it comes and whatever stale
    values are merged in between.  A new cluster agrees on epoch zero. *)
Theorem kill_switch_latches (base : string) (nodes : list (string * bool))
    (before after : list ClusterOp) (i : nat) (s : Site) :
  let cl := cluster_run before (cluster_new base nodes) in
  cl !! i = Some s →
  (∀ e, site_flag e s = true →
     ∃ s', cluster_run after cl !! i = Some s' ∧ site_flag e s' = true) ∧
  (∀ e, agree base e cl → site_engaged s = true → Forall (λ op, unreset op = true) after →
     (∃ s', cluster_run after cl !! i = Some s' ∧ site_engaged s' = true) ∧
     ∀ j sj mid last, after = mid ++ CoGossipFlag i j e :: last →
       cluster_run after cl !! j = Some sj → site_engaged sj = true) ∧
  agree base 0 (cluster_new base nodes).
Proof.
  intros cl Hi. pose proof (cluster_new_agree base nodes) as Hnew.
  assert (Hb : Forall (λ s, site_base s = base) cl).
  { apply cluster_run_base. eapply Forall_impl; [exact Hnew|]. by intros ? [??]. }
  split; [|split; [|done]].
  { intros e He. destruct (cluster_run_latch base e after cl i s Hb Hi) as (_ & s' & Hs' & Hf). eauto. }
  intros e Ha Heng Hun. destruct (agree_engaged _ _ _ _ _ Ha Hi) as [Hs _]. rewrite Hs in Heng.
  pose proof (cluster_run_agree _ _ _ _ Hun Ha) as Ha'. split.
  - destruct (cluster_run_latch base e after cl i s Hb Hi) as (_ & s' & Hs' & Hf).
    exists s'. split; [done|]. destruct (agree_engaged base e _ i s' Ha' Hs') as [-> _]. auto.
  - intros j sj mid last Hafter Hj. destruct (agree_engaged base e _ j sj Ha' Hj) as [-> _].
    subst after. by eapply gossip_spreads.
Qed.

Lemma kill_switch_latches_witness :
  let cl := cluster_run [CoSite 0 (SoEngage QuorumLost)]
              (cluster_new "ks" [("a", true); ("b", true)]) in
  let after := [CoGossipEpoch 1 0; CoGossipFlag 1 0 0; CoGossipFlag 0 1 0] in
  ∃ sj, cluster_run after cl !! 1 = Some sj ∧ site_engaged sj = true.
Proof.
  intros cl after.
  destruct (cl !! 0) as [s|] eqn:Hi; [|by vm_compute in Hi].
  assert (Hs : site_engaged s = true) by (vm_compute in Hi; simplify_eq; by vm_compute).
  destruct (kill_switch_latches "ks" [("a", true); ("b", true)]
    [CoSite 0 (SoEngage QuorumLost)] after 0 s Hi) as (_ & Hl & Hagree).
  destruct (Hl 0%N) as [_ Hsp].
  - apply (cluster_run_agree "ks" 0); [by repeat constructor|exact Hagree].
  - done.
  - by repeat constructor.
  - destruct (cluster_run after cl !! 1) as [sj|] eqn:Hj; [|by vm_compute in Hj].
    exists sj. split; [done|].
    by apply (Hsp 1 sj [CoGossipEpoch 1 0; CoGossipFlag 1 0 0] []).
Defined.

(** ** One switch: the latch it implements *)

(** The current epoch, the epochs whose latch is set, and the reason. *)
Record Latch := mkLatch {
  la_epoch : N;
  la_engaged : gset N;
  la_reason : option HaltReason;
}.

Definition Latch_new : Latch := mkLatch 0 ∅ None.

Definition latch_op (l : Latch) (op : SiteOp) : Latch :=
  mkLatch (if op_resets op then la_epoch l + 1 else la_epoch l)%N
    (op_latches op (la_epoch l) ∪ la_engaged l) (default (la_reason l) (op_reason op)).

(** What [reset] answers. *)
Definition latch_reset (a : ResetAuthorization) (l : Latch) : ResetError + N :=
  if trim_is_empty (approver_a a) || trim_is_empty (approver_b a) then inl MissingApprover
  else if decide (approver_a a = approver_b a) then inl DuplicateApprover
  else inr (la_epoch l + 1)%N.

(** After [n] operations; the register's timestamp was drawn from the switch's counter. *)
Definition site_refines (n : nat) (s : Site) (l : Latch) : Prop :=
  (∃ reg, epoch_register (site_base s) (st_r s) = Some reg ∧ lww_value reg = la_epoch l ∧
     (lww_timestamp reg ≤ ks_seq (st_ks s))%N) ∧
  (∀ e, site_flag e s = bool_decide (e ∈ la_engaged l)) ∧
  ks_last_reason (st_ks s) = la_reason l ∧
  (ks_seq (st_ks s) ≤ N.of_nat n + 1)%N ∧ (la_epoch l ≤ N.of_nat n)%N.

Lemma site_new_refines base node tr : site_refines 0 (site_new base node tr) Latch_new.
Proof.
  unfold site_new, KillSwitch_build, site_refines, site_base, site_flag.
  replace (epoch_register base Replicator_new) with (None : option (LwwRegister N)) by done.
  cbn [next_ts st_ks st_r ks_base_key set_seq site_base]. rewrite epoch_register_update.
  split; [eexists; split; [done|]; split; [done|]; apply N.le_refl|].
  split; [intros e; by rewrite flag_on_update_epoch, bool_decide_false|].
  split; [done|]. by split; vm_compute.
Qed.

Lemma site_op_refines n s l op :
  (N.of_nat n + 2 < u64_modulus)%N →
  site_refines n s l → site_refines (S n) (site_op op s) (latch_op l op).
Proof.
  intros Hn ((reg & Hr & Hv & Ht) & Hf & Hre & Hs & Hl).
  destruct (site_op_spec op s) as ((Hb & _) & Hs' & Hre' & Hf' & Hr').
  assert (Hep : site_epoch s = la_epoch l) by (unfold site_epoch, epoch; by rewrite Hr, <- Hv).
  assert (Hseq : u64_add (ks_seq (st_ks s)) 1 = (ks_seq (st_ks s) + 1)%N) by (apply u64_add_small; lia).
  assert (Hadd : u64_add (la_epoch l) 1 = (la_epoch l + 1)%N) by (apply u64_add_small; lia).
  rewrite Hr, Hep, Hadd, Hseq in Hr'. rewrite Hseq in Hs'. rewrite Hep in Hf'.
  assert (Hdraw : op_resets op = true → op_draws op = 1%N)
    by (destruct op as [| | | |a|]; cbn; try done; by intros ->).
  split; [|split; [|split; [|split]]].
  - unfold site_base in *. rewrite Hb, Hr', Hs'. cbn. destruct (op_resets op) eqn:E.
    + rewrite Hdraw by done. cbn [N.eqb Pos.eqb]. eexists. split; [done|].
      unfold crdt_merge, LwwRegister_merge. cbn.
      rewrite (proj2 (N.ltb_lt (lww_timestamp reg) _)) by lia. cbn. split; [done|lia].
    + exists reg. split; [done|]. split; [done|]. destruct (_ =? 0)%N; lia.
  - intros e. rewrite Hf', Hf. cbn. rewrite <- bool_decide_or. apply bool_decide_ext. set_solver.
  - rewrite Hre', Hre. done.
  - rewrite Hs'. destruct (_ =? 0)%N; lia.
  - cbn. destruct (op_resets op); lia.
Qed.

Lemma site_run_refines base node tr ops :
  (N.of_nat (length ops) + 1 < u64_modulus)%N →
  site_refines (length ops) (foldl (λ s op, site_op op s) (site_new base node tr) ops)
    (foldl latch_op Latch_new ops).
Proof.
  induction ops as [|op ops IH] using rev_ind; intros Hn; [apply site_new_refines|].
  rewrite length_app in *. cbn in *. rewrite !foldl_app. cbn.
  replace (length ops + 1) with (S (length ops)) by lia.
  apply site_op_refines; [lia|]. apply IH. lia.
Qed.

(** A switch with a replicator of its own is exactly an epoch-versioned latch: after any
    operations its epoch is the number of authorized resets, the latches set are those of
    the epochs engaged or named by halt frames, and it is engaged when the latch of the
    current epoch is set; a reset needs two distinct approvers that are not blank, fails
    without effect otherwise, and moves to a latch that no one has set, unless a halt frame
    named it. *)
Theorem kill_switch_refines (base node : string) (tr : bool) (ops : list SiteOp)
    (authz : ResetAuthorization) :
  (N.of_nat (length ops) + 2 < u64_modulus)%N →
  let s := foldl (λ s op, site_op op s) (site_new base node tr) ops in
  let l := foldl latch_op Latch_new ops in
  let '(ks', r', res) := reset authz (st_ks s) (st_r s) in
  site_epoch s = N.of_nat (length (filter (λ op, op_resets op = true) ops)) ∧
  site_epoch s = la_epoch l ∧
  (∀ e, site_flag e s = bool_decide (e ∈ la_engaged l)) ∧
  site_engaged s = bool_decide (la_epoch l ∈ la_engaged l) ∧
  ks_last_reason (st_ks s) = la_reason l ∧
  res = latch_reset authz l ∧
  (authorized authz = false → ks' = st_ks s ∧ r' = st_r s) ∧
  (authorized authz = true →
     is_engaged ks' r' = bool_decide (la_epoch l + 1 ∈ la_engaged l)%N ∧ ks_last_reason ks' = None).
Proof.
  intros Hn s l.
  assert (Href : site_refines (length ops) s l) by (apply site_run_refines; lia).
  pose proof (site_op_refines (length ops) s l (SoReset authz) ltac:(lia) Href) as Href'.
  assert (Hcount : la_epoch l = N.of_nat (length (filter (λ op, op_resets op = true) ops))).
  { unfold l. clear. induction ops as [|op ops IH] using rev_ind; [done|].
    rewrite foldl_app, filter_app, length_app, filter_cons, filter_nil. cbn [foldl latch_op la_epoch].
    case_decide as E; [rewrite E; cbn; lia|]. rewrite (not_true_is_false _ E). cbn. lia. }
  pose proof (reset_spec authz (st_ks s) (st_r s)) as Hspec. cbn [site_op] in Href'.
  destruct Href as ((reg & Hr & Hv & Ht) & Hf & Hre & Hs & Hl).
  assert (Hep : site_epoch s = la_epoch l) by (unfold site_epoch, epoch; by rewrite Hr, <- Hv).
  destruct (reset authz (st_ks s) (st_r s)) as [[ks' r'] res] eqn:E.
  split; [congruence|]. split; [done|]. split; [done|].
  split; [unfold site_engaged, is_engaged; fold (site_base s); fold (site_epoch s); rewrite Hep; apply Hf|].
  split; [done|]. destruct Hspec as [Hfl Hspec].
  assert (Hepoch : epoch (ks_base_key (st_ks s)) (st_r s) = la_epoch l) by exact Hep.
  split.
  { unfold reset in E. unfold latch_reset. rewrite Hepoch in E.
    destruct (_ || _); [by injection E|]. case_decide; [by injection E|].
    rewrite (u64_add_small (la_epoch l)) in E by lia. by injection E. }
  split; intros Ha; rewrite Ha in Hspec; [by destruct Hspec as (-> & -> & _)|].
  destruct Hspec as (-> & _ & _). split; [|done].
  destruct Href' as ((reg' & Hr' & Hv' & _) & Hf' & _). cbn in Hr', Hv', Hf'.
  rewrite Ha in Hv'. unfold is_engaged, epoch. cbn. rewrite Hr'. cbn. rewrite Hv'.
  etransitivity; [apply (Hf' (la_epoch l + 1)%N)|]. apply bool_decide_ext. set_solver.
Qed.

Lemma kill_switch_refines_witness :
  let s := foldl (λ s op, site_op op s) (site_new "ks" "n1" false)
             [SoEngage QuorumLost; SoReset (mkResetAuthorization "amy" " ")] in
  let '(ks', r', res) := reset (mkResetAuthorization "amy" "bob") (st_ks s) (st_r s) in
  site_engaged s = true ∧ res = inr 1%N ∧ is_engaged ks' r' = false.
Proof.
  intros s.
  pose proof (kill_switch_refines "ks" "n1" false
    [SoEngage QuorumLost; SoReset (mkResetAuthorization "amy" " ")]
    (mkResetAuthorization "amy" "bob") ltac:(by vm_compute)) as H.
  cbv zeta in H. fold s in H.
  destruct (reset (mkResetAuthorization "amy" "bob") (st_ks s) (st_r s)) as [[ks' r'] res].
  destruct H as (_ & _ & _ & -> & _ & -> & _ & H).
  destruct (H eq_refl) as [-> _]. by vm_compute.
Defined.

(** The observer of a split-brain runtime engages the switch at the first loss of quorum,
    and no regain releases it. *)
Lemma site_op_engaged op s :
  op_resets op = false →
  site_engaged (site_op op s) = bool_decide (site_epoch s ∈ op_latches op (site_epoch s))
                                || site_engaged s.
Proof.
  intros Hop. destruct (site_op_spec op s) as ((Hb & _) & _ & _ & Hf & Hr).
  rewrite Hop in Hr. change (site_engaged s) with (site_flag (site_epoch s) s).
  rewrite <- Hf. unfold site_engaged, is_engaged, site_flag, site_base in *.
  rewrite Hb. by unfold site_epoch, epoch, site_base; rewrite Hr.
Qed.

Lemma observe_quorum_engages calls (x : ClusterKillSwitch * KsReplicator) :
  let x' := foldl (λ x c, observe_quorum c x) x calls in
  on_quorum_lost ∈ calls ∨ is_engaged x.1 x.2 = true → is_engaged x'.1 x'.2 = true.
Proof.
  revert x; induction calls as [|c calls IH]; intros [ks r] x' H.
  - destruct H as [H|H]; [by apply not_elem_of_nil in H|exact H].
  - unfold x'. cbn [foldl]. apply IH.
    pose proof (site_op_engaged (SoQuorum c) (mkSite ks r) eq_refl) as He.
    cbn [site_op st_ks st_r] in He.
    destruct (observe_quorum c (ks, r)) as [ks' r'].
    cbn [fst snd] in *. change (is_engaged ks' r') with (site_engaged (mkSite ks' r')). rewrite He.
    destruct H as [[<-|H]%elem_of_cons|H]; [right|by left|right].
    + cbn [op_latches]. rewrite bool_decide_true; [reflexivity|by apply elem_of_singleton].
    + change (site_engaged (mkSite ks r) = true) in H. rewrite H. apply orb_true_r.
Qed.

(** A node that downs itself is halted: when the split-brain runtime, with the kill
    switch as its observer, has decided to step the node down at some tick, the switch is
    engaged, and it stays so through later recoveries of quorum. *)
Theorem quorum_loss_halts {S} `{!DowningStrategy S} (st : S) (after : N)
    (ts : list (MembershipState * N)) (ks : ClusterKillSwitch) (r : KsReplicator) :
  let '(rt, calls, acts) := sbr_run (SbrRuntime_with_observer (SbrRuntime_new st after)) ts in
  let '(ks', r') := foldl (λ x c, observe_quorum c x) (ks, r) calls in
  ActDownSelf ∈ acts → is_engaged ks' r' = true.
Proof.
  assert (Hcalls : let '(rt, calls, acts) :=
      sbr_run (SbrRuntime_with_observer (SbrRuntime_new st after)) ts in
    (quorum_lost rt = true ∨ ActDownSelf ∈ acts) → on_quorum_lost ∈ calls).
  { induction ts as [|[s now] ts IH] using rev_ind.
    { cbn. intros [?|?%not_elem_of_nil]; done. }
    pose proof (sbr_run_config (SbrRuntime_with_observer (SbrRuntime_new st after)) ts)
      as (_ & _ & Hobs). rewrite sbr_run_snoc.
    destruct (sbr_run _ ts) as [[rt calls] acts]. simpl in *.
    pose proof (tick_calls s now rt Hobs) as Ht.
    destruct (SbrRuntime_tick s now rt) as [[act rt'] calls']. destruct Ht as (Ht & Hdown & _).
    assert (Hq : quorum_lost rt' = true → on_quorum_lost ∈ calls ++ calls').
    { intros Hlost. apply elem_of_app.
      destruct calls' as [|[] [|]]; cbn in Ht; try done.
      - left. apply IH. left. congruence.
      - right. by apply list_elem_of_singleton.
      - destruct Ht as [_ ?]. congruence. }
    intros [H|[H|H]%elem_of_app]; [by apply Hq|apply elem_of_app; left; apply IH; by right|].
    apply list_elem_of_singleton in H as <-. by apply Hq, Hdown. }
  destruct (sbr_run _ ts) as [[rt calls] acts].
  destruct (foldl _ (ks, r) calls) as [ks' r'] eqn:E. intros Hin.
  pose proof (observe_quorum_engages calls (ks, r) (or_introl (Hcalls (or_intror Hin)))) as H.
  cbv zeta in H. by rewrite E in H.
Qed.

Lemma quorum_loss_halts_witness :
  let m a := copy_with_status Up (Member_new (Address_local a) []) in
  let view rs := mkMembershipState [m "a"; m "b"; m "c"]
    (mkReachability (list_to_map ((λ s, ((Address_local "x", Address_local s), Unreachable)) <$> rs))) in
  let s := site_new "ks" "a" false in
  let calls := (sbr_run (SbrRuntime_with_observer (SbrRuntime_new mkKeepMajority 0))
                  [(view ["b"; "c"], 0%N); (view [], 5%N)]).1.2 in
  let x := foldl (λ x c, observe_quorum c x) (st_ks s, st_r s) calls in
  site_engaged s = false ∧ calls = [on_quorum_lost; on_quorum_regained] ∧
  is_engaged x.1 x.2 = true.
Proof.
  intros m view s calls x. split; [by vm_compute|]. split; [by vm_compute|].
  pose proof (quorum_loss_halts mkKeepMajority 0 [(view ["b"; "c"], 0%N); (view [], 5%N)]
    (st_ks s) (st_r s)) as H.
  unfold x, calls. destruct (sbr_run _ _) as [[rt cs] acts] eqn:E.
  cbn [fst snd]. destruct (foldl _ _ cs) as [ks' r']. apply H.
  vm_compute in E. injection E as _ _ <-. by apply elem_of_cons; left.
Defined.

(** ** Quiescence *)

Lemma lookup_record_acks arrivals acks e :
  default ∅ (foldl (λ a x, record_ack x.1 x.2 a) acks arrivals !! e) =
    list_to_set ((filter (λ x : string * N, x.2 = e) arrivals).*1) ∪ default ∅ (acks !! e).
Proof.
  revert acks; induction arrivals as [|[from e'] arrivals IH]; intros acks; [set_solver|].
  cbn [foldl fst snd]. rewrite IH. unfold record_ack. rewrite lookup_entry_update, filter_cons.
  cbn. case_decide as He; [subst e'; cbn; set_solver|]. set_solver.
Qed.

Lemma remote_ack_count_default e peers acks :
  remote_ack_count e peers acks = length (filter (λ p, p ∈ default ∅ (acks !! e)) peers).
Proof.
  unfold remote_ack_count. destruct (acks !! e) as [s|]; [done|].
  induction peers as [|p peers IH]; [done|]. rewrite filter_cons. by case_decide; [set_solver|].
Qed.

(** The number collected is the number of peers that acknowledge this epoch in time. *)
Lemma collect_remote_count e peers arrivals acks :
  let acks' := foldl (λ a x, record_ack x.1 x.2 a) acks arrivals in
  (collect_remote e peers arrivals acks).2 = remote_ack_count e peers acks'.
Proof.
  revert acks; induction arrivals as [|[from e'] arrivals IH]; intros acks acks'; cbn [collect_remote].
  - by destruct (_ <=? _).
  - destruct (Nat.leb_spec (length peers) (remote_ack_count e peers acks)) as [Hle|Hlt];
      [|apply IH]. cbn [snd].
    rewrite !remote_ack_count_default in *.
    assert (Hall : filter (λ p, p ∈ default ∅ (acks !! e)) peers = peers).
    { apply filter_all, (filter_length_all (λ p, p ∈ default ∅ (acks !! e))). pose proof (length_filter (λ p, p ∈ default ∅ (acks !! e)) peers). lia. }
    rewrite Hall. rewrite filter_all; [done|]. apply Forall_forall. intros p Hp.
    unfold acks'. rewrite lookup_record_acks. rewrite <- Hall in Hp.
    apply list_elem_of_filter in Hp as [Hp _]. by apply elem_of_union_r.
Qed.

(** The sites by name, and the frames of a quiescence round that reach them in time. *)
Definition peer_reply (acked : N → bool) (sites : gmap string Site) (f : string * HaltPdu)
    : list (string * N) :=
  match sites !! f.1 with
  | Some s =>
      let '(_, _, _, sent) := apply_halt_pdu f.2 acked (st_ks s) (st_r s) in
      omap (λ x : string * HaltPdu,
              match x.2 with PduHaltAck from e => Some (from, e) | _ => None end) sent
  | None => []
  end.

(** A peer answers a round when it is reached and has a transport. *)
Definition answers (sites : gmap string Site) (reached : gset string) (p : string) : bool :=
  bool_decide (p ∈ reached) &&
  match sites !! p with Some s => ks_transport (st_ks s) | None => false end.

Lemma peer_reply_halt acked sites p from e reason :
  (∀ n s, sites !! n = Some s → ks_node (st_ks s) = n) →
  peer_reply acked sites (p, PduHalt from e reason) =
    match sites !! p with
    | Some s => if ks_transport (st_ks s) then [(p, e)] else []
    | None => []
    end.
Proof.
  intros Hnames. unfold peer_reply. cbn [fst snd]. destruct (sites !! p) as [s|] eqn:E; [|done].
  cbn. rewrite (Hnames p s E). by destruct (ks_transport (st_ks s)).
Qed.

Lemma await_quiescence_spec acked peers arrivals ks r :
  ks_transport ks = true →
  let e := epoch (ks_base_key ks) r in
  let '(ks', halted, sent, report) := await_quiescence acked peers arrivals ks r in
  let rx := filter (λ g, g_ack_rx g = true) (ks_guarded ks) in
  let n := length (filter (λ p, (p, e) ∈ arrivals) peers) in
  let local := length (filter (λ g, acked (g_party g) = true) rx) in
  halted = g_party <$> ks_guarded ks ∧
  sent = (λ p, (p, PduHalt (ks_node ks) e (default (Manual "") (ks_last_reason ks)))) <$> peers ∧
  report = mkQuiescenceReport (local + n) (length rx + length peers)
             (local + n <? length rx + length peers) n (length peers).
Proof.
  intros Htr e. unfold await_quiescence, collect_local. fold e. cbn [ks_transport set_guarded].
  rewrite Htr. destruct peers as [|p0 peers]; [done|]. remember (p0 :: peers) as ps eqn:Eps.
  pose proof (collect_remote_count e ps arrivals (<[e := ∅]> (ks_remote_acks ks))) as Hc.
  destruct (collect_remote e ps arrivals _) as [acks n] eqn:E. cbn in Hc.
  assert (Hn : n = length (filter (λ p, (p, e) ∈ arrivals) ps)).
  { rewrite Hc, remote_ack_count_default, lookup_record_acks, lookup_insert_eq.
    f_equal. apply list_filter_iff. intros p.
    rewrite elem_of_union, elem_of_list_to_set, list_elem_of_fmap. split.
    - intros [([p' e'] & -> & [He Hin]%list_elem_of_filter)|Hin]; [|by apply not_elem_of_empty in Hin].
      cbn in He. by subst e'.
    - intros Hin. left. exists (p, e). split; [done|]. by apply list_elem_of_filter. }
  rewrite <- Hn. cbn. rewrite Eps. split; [done|]. split; done.
Qed.

(** The quiescence report is exact.  Let the halt frames reach the peers [reached], which
    answer them, and let their answers arrive in time, in any order: then every peer
    reached has the latch of the epoch set, the reason recorded and all its parties
    halted; the remote count is the number of peers that are reached and have a transport;
    all local parties are halted; and the report says "timed out" exactly when a local
    party asked did not acknowledge or a peer did not answer. *)
Theorem quiescence_exact (acked : N → bool) (sites : gmap string Site) (peers : list string)
    (reached : gset string) (arrivals : list (string * N)) (ks : ClusterKillSwitch)
    (r : KsReplicator) :
  (∀ n s, sites !! n = Some s → ks_node (st_ks s) = n) →
  ks_transport ks = true →
  let e := epoch (ks_base_key ks) r in
  let '(ks', halted, sent, report) := await_quiescence acked peers arrivals ks r in
  (∀ x, x ∈ arrivals ↔
     ∃ f, f ∈ sent ∧ f.1 ∈ reached ∧ x ∈ peer_reply acked sites f) →
  sent.*1 = peers ∧
  (∀ s f, sites !! f.1 = Some s → f ∈ sent →
     let '(ks1, r1, halted1, _) := apply_halt_pdu f.2 acked (st_ks s) (st_r s) in
     flag_on (ks_base_key ks1) e r1 = true ∧ halted1 = g_party <$> ks_guarded (st_ks s) ∧
     ks_last_reason ks1 = Some (default (Manual "") (ks_last_reason ks))) ∧
  halted = g_party <$> ks_guarded ks ∧
  qr_remote_total report = length peers ∧
  qr_remote_acked report = length (filter (λ p, answers sites reached p = true) peers) ∧
  (qr_timed_out report = false ↔
     (∀ g, g ∈ ks_guarded ks → g_ack_rx g = true → acked (g_party g) = true) ∧
     ∀ p, p ∈ peers → answers sites reached p = true).
Proof.
  intros Hnames Htr e. pose proof (await_quiescence_spec acked peers arrivals ks r Htr) as H.
  destruct (await_quiescence acked peers arrivals ks r) as [[[ks' halted] sent] report].
  destruct H as (-> & -> & ->). fold e. intros Harr. cbn [qr_remote_total qr_remote_acked qr_timed_out].
  set (reason := default (Manual "") (ks_last_reason ks)) in *.
  assert (Hans : ∀ p, p ∈ peers → (p, e) ∈ arrivals ↔ answers sites reached p = true).
  { intros p Hp. rewrite Harr. unfold answers. split.
    - intros (f & (p' & -> & Hp')%list_elem_of_fmap & Hr & Hx). cbn [fst] in Hr.
      rewrite peer_reply_halt in Hx by done. destruct (sites !! p') as [s|] eqn:E; [|by apply not_elem_of_nil in Hx].
      destruct (ks_transport (st_ks s)) eqn:Et; [|by apply not_elem_of_nil in Hx].
      apply list_elem_of_singleton in Hx as [= <-]. rewrite E, Et. by rewrite bool_decide_true.
    - intros [Hr%bool_decide_eq_true Hs]%andb_true_iff.
      exists (p, PduHalt (ks_node ks) e reason). split; [apply list_elem_of_fmap; eauto|]. split; [done|].
      rewrite peer_reply_halt by done. destruct (sites !! p) as [s|]; [|done]. rewrite Hs.
      by apply list_elem_of_singleton. }
  assert (Hcount : filter (λ p, (p, e) ∈ arrivals) peers = filter (λ p, answers sites reached p = true) peers).
  { clear - Hans. induction peers as [|p peers IH]; [done|]. rewrite !filter_cons.
    rewrite IH by (intros; apply Hans; by right).
    specialize (Hans p ltac:(by left)). by repeat case_decide; try tauto. }
  rewrite Hcount.
  split; [rewrite <- list_fmap_compose; apply list_fmap_id|].
  split.
  { intros s f Hs (p & -> & Hp)%list_elem_of_fmap. cbn [snd apply_halt_pdu].
    pose proof (engage_epoch_spec e reason (st_ks s) (st_r s)) as Hspec.
    destruct (engage_epoch e reason (st_ks s) (st_r s)) as [ks1 r1]. destruct Hspec as (-> & Hf & _).
    cbn. rewrite Hf, bool_decide_true by done. done. }
  split; [done|]. split; [done|]. split; [done|].
  set (rx := filter (λ g, g_ack_rx g = true) (ks_guarded ks)).
  pose proof (length_filter (λ g, acked (g_party g) = true) rx) as Hl1.
  pose proof (length_filter (λ p, answers sites reached p = true) peers) as Hl2.
  rewrite Nat.ltb_ge. split.
  - intros Hle. split.
    + intros g Hg Hrx. assert (Hall : Forall (λ g, acked (g_party g) = true) rx)
        by (apply (filter_length_all (λ g, acked (g_party g) = true)); lia).
      rewrite Forall_forall in Hall. apply Hall. by apply list_elem_of_filter.
    + apply Forall_forall, (filter_length_all (λ p, answers sites reached p = true)). lia.
  - intros [Hg Hp]. rewrite (filter_all _ rx), (filter_all _ peers); [lia|by apply Forall_forall|].
    apply Forall_forall. intros g [? ?]%list_elem_of_filter. by apply Hg.
Qed.

(** Two reached peers of three, one of them without a transport. *)
Lemma quiescence_exact_witness :
  let a := site_op (SoEngage QuorumLost) (site_new "ks" "a" true) in
  let b := site_op (SoRegister 7) (site_new "ks" "b" true) in
  let c := site_new "ks" "c" false in
  let sites : gmap string Site := <["b" := b]> (<["c" := c]> ∅) in
  let '(_, _, _, report) := await_quiescence (λ _, true) ["b"; "c"; "d"] [("b", 0%N)]
                              (st_ks a) (st_r a) in
  qr_remote_acked report = 1 ∧ qr_timed_out report ≠ false.
Proof.
  intros a b c sites.
  pose proof (quiescence_exact (λ _, true) sites ["b"; "c"; "d"] {["b"; "c"]} [("b", 0%N)]
    (st_ks a) (st_r a)) as H.
  destruct (await_quiescence _ _ _ (st_ks a) (st_r a)) as [[[ks' halted] sent] report] eqn:E.
  destruct H as (_ & _ & _ & _ & -> & Ht).
  - intros n s. unfold sites. intros [[<- <-]|[_ [[<- <-]|[_ Hs]]%lookup_insert_Some]]%lookup_insert_Some;
      [done|done|by rewrite lookup_empty in Hs].
  - done.
  - assert (sent = (λ p, (p, PduHalt "a" 0 QuorumLost)) <$> ["b"; "c"; "d"]) as ->
      by (by vm_compute in E; injection E as _ _ <- _).
    intros x. rewrite list_elem_of_singleton. split.
    + intros ->. exists ("b", PduHalt "a" 0 QuorumLost). split; [by left|]. split; [set_solver|].
      by vm_compute; left.
    + intros (f & (p & -> & Hp)%list_elem_of_fmap & Hr & Hx). cbn [fst] in Hr.
      apply elem_of_union in Hr as [->%elem_of_singleton| ->%elem_of_singleton];
        vm_compute in Hx; [by apply list_elem_of_singleton in Hx|by apply not_elem_of_nil in Hx].
  - split; [by vm_compute|]. rewrite Ht. intros [_ Hp]. by specialize (Hp "d" ltac:(set_solver)).
Defined.

(** ** Where the latch does not do what its documentation says *)

(** A switch whose counter lags behind the register's timestamp reports a reset that does
    not happen: the older stamp loses and the epoch stays. *)
Lemma reset_without_effect :
  let authz := mkResetAuthorization "amy" "bob" in
  let cl := cluster_run [CoSite 0 (SoReset authz); CoSite 0 (SoReset authz); CoSite 0 (SoReset authz);
                         CoGossipEpoch 0 1; CoSite 1 (SoEngage QuorumLost)]
              (cluster_new "ks" [("a", true); ("b", true)]) in
  ∃ s, cl !! 1 = Some s ∧ site_epoch s = 3%N ∧
    let '(ks', r', res) := reset authz (st_ks s) (st_r s) in
    res = inr 4%N ∧ is_engaged ks' r' = true.
Proof. intros. eexists. split; [by vm_compute|]. by vm_compute. Qed.

(** A halt frame of another epoch is acknowledged by a peer that is not engaged. *)
Lemma halt_acknowledged_unengaged :
  let a := site_op (SoEngage QuorumLost)
             (site_op (SoReset (mkResetAuthorization "amy" "bob")) (site_new "ks" "a" true)) in
  let b := site_new "ks" "b" true in
  let '(ks', r', _, sent) :=
    apply_halt_pdu (PduHalt "a" (site_epoch a) QuorumLost) (λ _, true) (st_ks b) (st_r b) in
  site_engaged a = true ∧ sent = [("a", PduHaltAck "b" (site_epoch a))] ∧
  is_engaged ks' r' = false.
Proof. by vm_compute. Qed.
