(* ===== verification/FixMessage.v ===== *)
(** * FIX messages ([crates/atomr-fix/src/message.rs], dates of [session.rs])

    A message is the list of its fields; a frame is a string of bytes.  The sum of the
    bytes is taken in [u32]: it may wrap, at a multiple of 256, so the checksum is that of
    the exact sum.  [String] values of the source are valid UTF-8; the decoder checks its
    input with [valid_utf8]. *)

From stdpp Require Import gmap strings list.
From Stdlib Require Import NArith ZArith Lia Ascii.
From S2P Require Import Prelude Encoding Address.

(** ** Strings of bytes *)

Definition SOH : ascii := ascii_of_N 1.
Arguments SOH : simpl never.

(** [input.split(|b| *b == SOH)]. *)
Fixpoint split_soh (s : string) : list string :=
  match s with
  | EmptyString => [EmptyString]
  | String c s' =>
      if Ascii.eqb c SOH then EmptyString :: split_soh s'
      else match split_soh s' with
           | [] => [String c EmptyString]
           | x :: l => String c x :: l
           end
  end.

Fixpoint byte_sum (s : string) : N :=
  match s with
  | EmptyString => 0
  | String c s' => N_of_ascii c + byte_sum s'
  end%N.

Definition checksum_of (s : string) : N := (byte_sum s mod 256)%N.

Fixpoint string_take (n : nat) (s : string) : string :=
  match n, s with
  | S n, String c s' => String c (string_take n s')
  | _, _ => EmptyString
  end.

(** [{:0w}] for a number. *)
Fixpoint pad_zero (n : nat) (s : string) : string :=
  match n with O => s | S n => String "0" (pad_zero n s) end.

Definition format_width (w : nat) (n : N) : string :=
  let s := uint_to_string n in pad_zero (w - String.length s) s.

(** ** Messages *)

Definition BEGIN_STRING : N := 8.
Definition BODY_LENGTH : N := 9.
Definition MSG_TYPE : N := 35.
Definition SENDER_COMP_ID : N := 49.
Definition TARGET_COMP_ID : N := 56.
Definition MSG_SEQ_NUM : N := 34.
Definition SENDING_TIME : N := 52.
Definition CHECK_SUM : N := 10.
Definition HEART_BT_INT : N := 108.
Definition TEST_REQ_ID : N := 112.
Definition BEGIN_SEQ_NO : N := 7.
Definition END_SEQ_NO : N := 16.
Definition RESET_SEQ_NUM_FLAG : N := 141.
Definition GAP_FILL_FLAG : N := 123.
Definition NEW_SEQ_NO : N := 36.
Definition POSS_DUP_FLAG : N := 43.
Definition ENCRYPT_METHOD : N := 98.
Definition TEXT : N := 58.
Definition DEFAULT_APPL_VER_ID : N := 1137.

Inductive MsgType :=
  | MtLogon | MtHeartbeat | MtTestRequest | MtResendRequest | MtSequenceReset | MtLogout
  | MtNewOrderSingle | MtExecutionReport | MtOther (code : string).

Definition MsgType_code (t : MsgType) : string :=
  match t with
  | MtLogon => "A" | MtHeartbeat => "0" | MtTestRequest => "1" | MtResendRequest => "2"
  | MtSequenceReset => "4" | MtLogout => "5" | MtNewOrderSingle => "D"
  | MtExecutionReport => "8" | MtOther s => s
  end.

Definition MsgType_from_code (code : string) : MsgType :=
  if decide (code = "A") then MtLogon
  else if decide (code = "0") then MtHeartbeat
  else if decide (code = "1") then MtTestRequest
  else if decide (code = "2") then MtResendRequest
  else if decide (code = "4") then MtSequenceReset
  else if decide (code = "5") then MtLogout
  else if decide (code = "D") then MtNewOrderSingle
  else if decide (code = "8") then MtExecutionReport
  else MtOther code.

Definition MsgType_is_admin (t : MsgType) : bool :=
  match t with
  | MtLogon | MtHeartbeat | MtTestRequest | MtResendRequest | MtSequenceReset | MtLogout => true
  | _ => false
  end.

Inductive FixParseError :=
  | FpEmpty
  | FpMalformedField (s : string)
  | FpInvalidTag (s : string)
  | FpNotUtf8
  | FpMissingField (tag : N)
  | FpChecksumMismatch (computed found : N)
  | FpInvalidCheckSum (s : string).

Definition FixField : Type := N * string.
Abbreviation FixMessage := (list FixField).

Definition FixMessage_new : FixMessage := [].

Fixpoint fix_get (tag : N) (m : FixMessage) : option string :=
  match m with
  | [] => None
  | f :: m => if (f.1 =? tag)%N then Some f.2 else fix_get tag m
  end.

Definition fix_get_u64 (tag : N) (m : FixMessage) : option N :=
  fix_get tag m ≫= parse_uint u64_max.

Fixpoint fix_set (tag : N) (value : string) (m : FixMessage) : FixMessage :=
  match m with
  | [] => [(tag, value)]
  | f :: m => if (f.1 =? tag)%N then (f.1, value) :: m else f :: fix_set tag value m
  end.

Definition of_type (t : MsgType) : FixMessage := fix_set MSG_TYPE (MsgType_code t) FixMessage_new.

Definition msg_type (m : FixMessage) : option MsgType :=
  MsgType_from_code <$> fix_get MSG_TYPE m.

Definition seq_num (m : FixMessage) : option N := fix_get_u64 MSG_SEQ_NUM m.

Definition push_field (f : FixField) : string :=
  uint_to_string f.1 +:+ "=" +:+ f.2 +:+ String SOH EmptyString.

Fixpoint push_fields (l : list FixField) : string :=
  match l with
  | [] => EmptyString
  | f :: l => push_field f +:+ push_fields l
  end.

(** The fields that [fix_to_wire] skips: they are written by the framing. *)
Definition framing_tag (tag : N) : bool :=
  ((tag =? BEGIN_STRING) || (tag =? BODY_LENGTH) || (tag =? MSG_TYPE) || (tag =? CHECK_SUM))%N.

Definition wire_body (m : FixMessage) : list FixField :=
  (MSG_TYPE, default "" (fix_get MSG_TYPE m)) :: filter (λ f, framing_tag f.1 = false) m.

(** The fields before the checksum, and the whole frame. *)
Definition wire_head (m : FixMessage) : list FixField :=
  (BEGIN_STRING, default "FIX.4.4" (fix_get BEGIN_STRING m)) ::
  (BODY_LENGTH, uint_to_string (N.of_nat (String.length (push_fields (wire_body m))))) ::
  wire_body m.

Definition fix_to_wire (m : FixMessage) : string :=
  let out := push_fields (wire_head m) in
  out +:+ push_field (CHECK_SUM, format_width 3 (checksum_of out)).

Record ParseState := mkParseState {
  ps_fields : list FixField;
  ps_boundary : option nat;
  ps_found : option N;
  ps_offset : nat;
}.

Definition parse_segment (raw : string) (st : ParseState) : FixParseError + ParseState :=
  if decide (raw = "") then
    inr (mkParseState (ps_fields st) (ps_boundary st) (ps_found st) (ps_offset st + 1))
  else if negb (valid_utf8 raw) then inl FpNotUtf8
  else match split_once "=" raw with
       | None => inl (FpMalformedField raw)
       | Some (tag_str, value) =>
           match parse_uint (2 ^ 32 - 1) tag_str with
           | None => inl (FpInvalidTag tag_str)
           | Some tag =>
               let next b f := mkParseState (ps_fields st ++ [(tag, value)]) b f
                                 (ps_offset st + String.length raw + 1) in
               if (tag =? CHECK_SUM)%N then
                 if negb (String.length value =? 3) || negb (all_digits value)
                 then inl (FpInvalidCheckSum value)
                 else match parse_uint (2 ^ 32 - 1) value with
                      | None => inl (FpInvalidCheckSum value)
                      | Some n => inr (next (Some (ps_offset st)) (Some (n mod 256)%N))
                      end
               else inr (next (ps_boundary st) (ps_found st))
           end
       end.

Fixpoint parse_segments (raws : list string) (st : ParseState) : FixParseError + ParseState :=
  match raws with
  | [] => inr st
  | raw :: raws =>
      match parse_segment raw st with
      | inl e => inl e
      | inr st => parse_segments raws st
      end
  end.

Definition fix_parse (input : string) : FixParseError + FixMessage :=
  if decide (input = "") then inl FpEmpty
  else match parse_segments (split_soh input) (mkParseState [] None None 0) with
       | inl e => inl e
       | inr st =>
           match ps_fields st with
           | [] => inl FpEmpty
           | _ =>
               match ps_boundary st, ps_found st with
               | Some b, Some found =>
                   let computed := checksum_of (string_take b input) in
                   if (computed =? found)%N then inr (ps_fields st)
                   else inl (FpChecksumMismatch computed found)
               | _, _ => inr (ps_fields st)
               end
           end
       end.

(** ** Lemmas *)

(** A value that can be framed, and a field that can. *)
Definition clean (s : string) : Prop := valid_utf8 s = true ∧ string_has SOH s = false.

#[export] Instance clean_dec s : Decision (clean s).
Proof. unfold clean. apply _. Defined.

Definition field_ok (f : FixField) : Prop := (f.1 < 2 ^ 32)%N ∧ clean f.2.

(** Decimal digits are ASCII and none of the delimiters. *)
Lemma digits_plain s :
  all_digits s = true →
  ascii_only s = true ∧ string_has "=" s = false ∧ string_has SOH s = false.
Proof.
  induction s as [|c s IH]; [done|]. intros [Hc Hs]%andb_true_iff.
  destruct (IH Hs) as (H1 & H2 & H3). cbn [ascii_only string_has]. rewrite H1, H2, H3, andb_true_r, !orb_false_r.
  unfold byte_in in Hc. apply andb_true_iff in Hc as [Hl%N.leb_le Hh%N.leb_le].
  unfold byte_in. split; [apply andb_true_iff; rewrite !N.leb_le; lia|].
  split; apply Ascii.eqb_neq; intros <-; vm_compute in Hl, Hh; done.
Qed.

Lemma split_soh_field raw s :
  string_has SOH raw = false → split_soh (raw +:+ String SOH s) = raw :: split_soh s.
Proof.
  induction raw as [|c raw IH]; intros Hr.
  - change ("" +:+ String SOH s) with (String SOH s). cbn [split_soh]. by rewrite Ascii.eqb_refl.
  - change (String c raw +:+ ?x) with (String c (raw +:+ x)). cbn [string_has] in Hr.
    apply orb_false_iff in Hr as [Hc Hr]. cbn [split_soh]. rewrite IH by done.
    by rewrite Ascii.eqb_sym, Hc.
Qed.

(** The text of a field without its delimiter. *)
Definition field_text (f : FixField) : string := uint_to_string f.1 +:+ "=" +:+ f.2.

Lemma push_field_text f : push_field f = field_text f +:+ String SOH EmptyString.
Proof. unfold push_field, field_text. by rewrite !string_app_assoc. Qed.

Lemma field_text_clean f : clean f.2 → clean (field_text f).
Proof.
  intros [Hu Hs]. destruct (digits_plain _ (all_digits_uint f.1)) as (Ha & _ & Hd).
  unfold clean, field_text. rewrite valid_utf8_ascii by done.
  split; [exact Hu|]. rewrite !string_has_app, Hd. exact Hs.
Qed.

Lemma split_soh_fields l s :
  Forall (λ f, clean f.2) l → split_soh (push_fields l +:+ s) = (field_text <$> l) ++ split_soh s.
Proof.
  induction 1 as [|f l Hf Hl IH]; [done|]. cbn [push_fields fmap list_fmap app].
  rewrite push_field_text, !string_app_assoc.
  change (String SOH "" +:+ ?x) with (String SOH x). rewrite split_soh_field, IH; [done|].
  by apply field_text_clean.
Qed.

Lemma field_text_ne f : field_text f ≠ "".
Proof.
  unfold field_text, uint_to_string. destruct (uint_digits_head (N.size_nat f.1) f.1 EmptyString)
    as (d & s & -> & _). done.
Qed.

Lemma parse_field_text f st :
  field_ok f → f.1 ≠ CHECK_SUM →
  parse_segment (field_text f) st =
    inr (mkParseState (ps_fields st ++ [f]) (ps_boundary st) (ps_found st)
           (ps_offset st + String.length (push_field f))).
Proof.
  intros [Ht Hc] Hne. unfold parse_segment. rewrite decide_False by apply field_text_ne.
  destruct (field_text_clean f Hc) as [Hu _]. rewrite Hu. cbn [negb].
  destruct (digits_plain _ (all_digits_uint f.1)) as (_ & He & _).
  unfold field_text at 1. change ("=" +:+ f.2) with (String "=" "" +:+ f.2).
  rewrite split_once_first by done. rewrite parse_uint_to_string by lia.
  rewrite (proj2 (N.eqb_neq _ _)) by done.
  rewrite push_field_text, length_string_app. cbn [String.length].
  rewrite Nat.add_assoc. by destruct f.
Qed.

Lemma parse_field_texts l raws st :
  Forall (λ f, field_ok f ∧ f.1 ≠ CHECK_SUM) l →
  parse_segments ((field_text <$> l) ++ raws) st =
    parse_segments raws (mkParseState (ps_fields st ++ l) (ps_boundary st) (ps_found st)
      (ps_offset st + String.length (push_fields l))).
Proof.
  intros Hl. revert st; induction Hl as [|f l [Hf Hne] Hl IH]; intros st.
  { cbn. rewrite app_nil_r, Nat.add_0_r. by destruct st. }
  cbn [fmap list_fmap app parse_segments]. rewrite parse_field_text by done. rewrite IH.
  cbn [ps_fields ps_boundary ps_found ps_offset push_fields].
  by rewrite <- app_assoc, length_string_app, Nat.add_assoc.
Qed.

Lemma string_take_app a b : string_take (String.length a) (a +:+ b) = a.
Proof.
  induction a as [|c a IH]; [by destruct b|].
  change (String c a +:+ b) with (String c (a +:+ b)). cbn. by rewrite IH.
Qed.

(** A checksum prints as three digits and reads back. *)
Lemma checksum_format n :
  (n < 256)%N →
  let s := format_width 3 n in
  String.length s = 3 ∧ all_digits s = true ∧ parse_uint (2 ^ 32 - 1) s = Some n ∧ clean s.
Proof.
  intros Hn.
  assert (Hall : Forall (λ n, String.length (format_width 3 n) = 3 ∧
      all_digits (format_width 3 n) = true ∧
      parse_uint (2 ^ 32 - 1) (format_width 3 n) = Some n ∧ clean (format_width 3 n))
    (N.of_nat <$> seq 0 256)) by (by apply (bool_decide_unpack _); vm_compute).
  rewrite Forall_forall in Hall. apply Hall, list_elem_of_fmap. exists (N.to_nat n).
  split; [lia|]. apply elem_of_seq. lia.
Qed.

Lemma parse_checksum_field n st :
  (n < 256)%N →
  parse_segments [field_text (CHECK_SUM, format_width 3 n); ""] st =
    inr (mkParseState (ps_fields st ++ [(CHECK_SUM, format_width 3 n)]) (Some (ps_offset st)) (Some n)
           (ps_offset st + String.length (field_text (CHECK_SUM, format_width 3 n)) + 2)).
Proof.
  intros Hn. destruct (checksum_format n Hn) as (Hl & Hd & Hp & Hc). cbn [parse_segments].
  unfold parse_segment at 1. rewrite decide_False by apply field_text_ne.
  destruct (field_text_clean (CHECK_SUM, format_width 3 n) Hc) as [Hu _]. rewrite Hu. cbn [negb].
  destruct (digits_plain _ (all_digits_uint CHECK_SUM)) as (_ & He & _).
  unfold field_text at 1. cbn [fst snd].
  change ("=" +:+ format_width 3 n) with (String "=" "" +:+ format_width 3 n).
  rewrite split_once_first by done. rewrite parse_uint_to_string by (unfold CHECK_SUM; lia).
  rewrite N.eqb_refl, Hl, Hd, Hp. cbn [Nat.eqb negb orb].
  unfold parse_segment. rewrite decide_True by done. rewrite (N.mod_small n 256) by lia.
  cbn [ps_fields ps_boundary ps_found ps_offset]. do 2 f_equal. lia.
Qed.

Lemma byte_sum_app a b : byte_sum (a +:+ b) = (byte_sum a + byte_sum b)%N.
Proof.
  induction a as [|c a IH]; [done|]. change (String c a +:+ b) with (String c (a +:+ b)). cbn.
  rewrite IH. lia.
Qed.

Definition message_ok (m : FixMessage) : Prop := Forall field_ok m.

Lemma fix_get_elem tag m v : fix_get tag m = Some v → ∃ t, (t, v) ∈ m.
Proof.
  induction m as [|[t0 v0] m IH]; cbn; [done|]. destruct (t0 =? tag)%N.
  - intros [= <-]. exists t0. by left.
  - intros H. destruct (IH H) as [t Ht]. exists t. by right.
Qed.

Lemma fix_get_clean tag m d : message_ok m → clean d → clean (default d (fix_get tag m)).
Proof.
  intros Hm Hd. destruct (fix_get tag m) as [v|] eqn:E; [|done]. apply fix_get_elem in E as [t Ht].
  unfold message_ok in Hm. rewrite Forall_forall in Hm. by destruct (Hm _ Ht).
Qed.

Lemma digits_clean s : all_digits s = true → clean s.
Proof.
  intros Hd. destruct (digits_plain s Hd) as (Ha & _ & Hs). split; [|done].
  pose proof (valid_utf8_ascii s "" Ha) as H. by rewrite string_app_nil_r in H.
Qed.

Lemma wire_head_ok m : message_ok m → Forall (λ f, field_ok f ∧ f.1 ≠ CHECK_SUM) (wire_head m).
Proof.
  intros Hm. unfold wire_head, wire_body.
  repeat (apply Forall_cons; split; [split; [split; [done|]|done]|]).
  - by apply fix_get_clean.
  - apply digits_clean, all_digits_uint.
  - by apply fix_get_clean.
  - apply Forall_forall. intros f [Hf Hin]%list_elem_of_filter. unfold message_ok in Hm.
    rewrite Forall_forall in Hm. split; [by apply Hm|]. intros Heq.
    unfold framing_tag in Hf. rewrite Heq in Hf. by vm_compute in Hf.
Qed.

(** What a framed message reads back as. *)
Definition wire_fields (m : FixMessage) : FixMessage :=
  wire_head m ++ [(CHECK_SUM, format_width 3 (checksum_of (push_fields (wire_head m))))].

Lemma checksum_bound s : (checksum_of s < 256)%N.
Proof. by apply N.mod_lt. Qed.

Lemma fix_parse_to_wire m : message_ok m → fix_parse (fix_to_wire m) = inr (wire_fields m).
Proof.
  intros Hm. pose proof (wire_head_ok m Hm) as Hh. unfold fix_parse, fix_to_wire, wire_fields.
  set (out := push_fields (wire_head m)). pose proof (checksum_bound out) as Hb.
  destruct (checksum_format _ Hb) as (_ & _ & _ & Hc).
  rewrite decide_False.
  2:{ unfold out, wire_head, push_fields. rewrite push_field_text.
      pose proof (field_text_ne (BEGIN_STRING, default "FIX.4.4" (fix_get BEGIN_STRING m))) as Hne.
      by destruct (field_text _). }
  unfold out at 1. rewrite split_soh_fields.
  2:{ eapply Forall_impl; [exact Hh|]. cbn. by intros f [[_ ?] _]. }
  rewrite push_field_text. fold out.
  replace (split_soh (field_text (CHECK_SUM, format_width 3 (checksum_of out)) +:+ String SOH ""))
    with [field_text (CHECK_SUM, format_width 3 (checksum_of out)); ""].
  2:{ rewrite split_soh_field; [done|]. by apply field_text_clean. }
  rewrite parse_field_texts by done. rewrite parse_checksum_field by done.
  cbn [ps_fields ps_boundary ps_found ps_offset app].
  change (0 + String.length (push_fields (wire_head m))) with (String.length out).
  rewrite string_take_app, N.eqb_refl. done.
Qed.

Lemma fix_get_app tag a b :
  fix_get tag (a ++ b) = match fix_get tag a with Some v => Some v | None => fix_get tag b end.
Proof. induction a as [|f a IH]; cbn; [done|]. destruct (f.1 =? tag)%N; [done|exact IH]. Qed.

Lemma fix_get_filter tag m :
  framing_tag tag = false → fix_get tag (filter (λ f, framing_tag f.1 = false) m) = fix_get tag m.
Proof.
  intros Ht. induction m as [|f m IH]; [done|]. rewrite filter_cons. cbn [fix_get].
  destruct (N.eqb_spec f.1 tag) as [Hf|Hf].
  - rewrite decide_True by (by rewrite Hf). cbn. by rewrite (proj2 (N.eqb_eq _ _) Hf).
  - case_decide; [cbn; by rewrite (proj2 (N.eqb_neq _ _) Hf)|done].
Qed.

Lemma wire_fields_get tag m :
  framing_tag tag = false → fix_get tag (wire_fields m) = fix_get tag m.
Proof.
  intros Ht. pose proof Ht as Ht'. unfold framing_tag in Ht.
  apply orb_false_iff in Ht as [[[H8 H9]%orb_false_iff H35]%orb_false_iff H10].
  unfold wire_fields. rewrite fix_get_app. unfold wire_head, wire_body. cbn [fix_get fst snd].
  rewrite !(N.eqb_sym _ tag), H8, H9, H35, H10, fix_get_filter by done. by destruct (fix_get tag m).
Qed.

(** Framing a message that was read back gives the same frame. *)
Lemma wire_head_wire_fields m : wire_head (wire_fields m) = wire_head m.
Proof.
  assert (Hf : filter (λ f, framing_tag f.1 = false) (wire_fields m) =
               filter (λ f, framing_tag f.1 = false) m).
  { unfold wire_fields, wire_head, wire_body. cbn [app].
    rewrite !filter_cons_False by done. rewrite filter_app, filter_cons_False, filter_nil, app_nil_r by done.
    apply filter_all, Forall_forall. by intros f [Hf _]%list_elem_of_filter. }
  assert (Hbody : wire_body (wire_fields m) = wire_body m) by (unfold wire_body at 1; by rewrite Hf).
  unfold wire_head at 1. rewrite Hbody. done.
Qed.

(** C36: FIX framing round-trips: a message whose values are text without the delimiter parses
    back from its frame as the header, its own fields in their order and the trailer, so
    that every field reads as before; the length written is the number of bytes of the
    body, and framing the result again gives the same bytes. *)
Theorem fix_roundtrip (m : FixMessage) :
  message_ok m →
  let m' := wire_fields m in
  fix_parse (fix_to_wire m) = inr m' ∧
  (∀ tag, framing_tag tag = false → fix_get tag m' = fix_get tag m) ∧
  fix_get MSG_TYPE m' = Some (default "" (fix_get MSG_TYPE m)) ∧
  fix_get BEGIN_STRING m' = Some (default "FIX.4.4" (fix_get BEGIN_STRING m)) ∧
  (∃ head trailer body, fix_to_wire m = head +:+ body +:+ trailer ∧
     head = push_fields (take 2 m') ∧ body = push_fields (wire_body m) ∧
     trailer = push_fields (drop (length m' - 1) m') ∧
     fix_get BODY_LENGTH m' = Some (uint_to_string (N.of_nat (String.length body)))) ∧
  fix_to_wire m' = fix_to_wire m.
Proof.
  intros Hm m'. split; [by apply fix_parse_to_wire|].
  split; [intros; by apply wire_fields_get|]. split; [done|]. split; [done|]. split.
  - eexists _, _, _. split; [|split; [done|split; [done|split; [done|done]]]].
    unfold fix_to_wire, m', wire_fields. rewrite length_app. cbn [length].
    rewrite Nat.add_sub, drop_app_length. unfold wire_head. cbn [take app push_fields].
    by rewrite !string_app_assoc, string_app_nil_r.
  - unfold fix_to_wire, m'. by rewrite wire_head_wire_fields.
Qed.

Lemma fix_roundtrip_witness :
  let m := fix_set 55 "ABC" (fix_set MSG_SEQ_NUM "7" (of_type MtNewOrderSingle)) in
  ∃ m', fix_parse (fix_to_wire m) = inr m' ∧ fix_get 55 m' = Some "ABC" ∧ seq_num m' = Some 7%N.
Proof.
  intros m. exists (wire_fields m). destruct (fix_roundtrip m) as (Hp & Hg & _).
  - repeat constructor.
  - split; [exact Hp|]. split; [by rewrite Hg|]. unfold seq_num, fix_get_u64. by rewrite Hg.
Defined.

(** ** Corruption is detected *)

Lemma split_soh_app q s : split_soh (q +:+ String SOH s) = split_soh q ++ split_soh s.
Proof.
  induction q as [|c q IH].
  - change ("" +:+ ?x) with x. cbn [split_soh]. by rewrite Ascii.eqb_refl.
  - change (String c q +:+ ?x) with (String c (q +:+ x)). cbn [split_soh].
    destruct (Ascii.eqb c SOH); rewrite IH; [done|]. destruct (split_soh q) as [|x l] eqn:E; [|done].
    exfalso. destruct q as [|d q]; cbn in E; [done|]. destruct (Ascii.eqb d SOH); [done|].
    by destruct (split_soh q).
Qed.

Lemma parse_segments_app a b st :
  parse_segments (a ++ b) st =
    match parse_segments a st with inl e => inl e | inr st => parse_segments b st end.
Proof.
  revert st; induction a as [|x a IH]; intros st; cbn; [done|].
  destruct (parse_segment x st); [done|]. apply IH.
Qed.

(** The offset counts the bytes read, delimiters included. *)
Lemma parse_segment_offset raw st st' :
  parse_segment raw st = inr st' → ps_offset st' = ps_offset st + String.length raw + 1.
Proof.
  unfold parse_segment. case_decide as Hr; [intros [= <-]; subst raw; cbn; lia|].
  destruct (valid_utf8 raw); [|done]. cbn. destruct (split_once "=" raw) as [[t v]|]; [|done].
  destruct (parse_uint _ t); [|done]. destruct (_ =? CHECK_SUM)%N; [|by intros [= <-]].
  destruct (_ || _); [done|]. destruct (parse_uint _ v); [|done]. by intros [= <-].
Qed.

Lemma parse_segments_offset q st st' :
  parse_segments (split_soh q) st = inr st' → ps_offset st' = ps_offset st + String.length q + 1.
Proof.
  assert (Hsum : ∀ l st st', parse_segments l st = inr st' →
    ps_offset st' = ps_offset st + foldr (λ x n, String.length x + 1 + n) 0 l).
  { clear. induction l as [|x l IH]; intros st st'; cbn; [intros [= <-]; lia|].
    destruct (parse_segment x st) as [|st1] eqn:E; [done|]. intros H.
    apply parse_segment_offset in E. apply IH in H. lia. }
  intros H%Hsum. rewrite H, <- Nat.add_assoc. f_equal. clear. induction q as [|c q IH]; [done|].
  cbn. destruct (Ascii.eqb c SOH); cbn; [lia|]. destruct (split_soh q) as [|x l]; cbn in *; lia.
Qed.

(** A frame whose covered bytes do not have the sum of its trailer is refused. *)
Lemma fix_parse_wrong_sum q n :
  (n < 256)%N → checksum_of (q +:+ String SOH EmptyString) ≠ n →
  ∃ e, fix_parse ((q +:+ String SOH EmptyString) +:+ push_field (CHECK_SUM, format_width 3 n)) = inl e.
Proof.
  intros Hn Hsum. unfold fix_parse. case_decide; [by eauto|].
  destruct (checksum_format n Hn) as (_ & _ & _ & Hc).
  replace (split_soh ((q +:+ String SOH "") +:+ push_field (CHECK_SUM, format_width 3 n)))
    with (split_soh q ++ split_soh (push_field (CHECK_SUM, format_width 3 n)))
    by (rewrite string_app_assoc; symmetry; apply split_soh_app).
  rewrite parse_segments_app.
  destruct (parse_segments (split_soh q) _) as [e|st] eqn:E; [by eauto|].
  apply parse_segments_offset in E. cbn in E.
  replace (split_soh (push_field (CHECK_SUM, format_width 3 n)))
    with [field_text (CHECK_SUM, format_width 3 n); ""].
  2:{ rewrite push_field_text, split_soh_field; [done|]. by apply field_text_clean. }
  rewrite parse_checksum_field by done. cbn [ps_fields ps_boundary ps_found].
  destruct (ps_fields st ++ _) eqn:Ef; [by apply app_nil in Ef as [_ ?]|].
  replace (ps_offset st) with (String.length (q +:+ String SOH ""))
    by (rewrite E, length_string_app; cbn; lia).
  rewrite string_take_app, (proj2 (N.eqb_neq _ _)) by done. by eauto.
Qed.

Lemma append_cons c (s t : string) : String c s +:+ t = String c (s +:+ t).
Proof. done. Qed.

Lemma append_nil (t : string) : "" +:+ t = t.
Proof. done. Qed.

Lemma string_snoc (s : string) : s ≠ "" → ∃ t x, s = t +:+ String x EmptyString.
Proof.
  induction s as [|c s IH]; [done|]. intros _. destruct s as [|d s].
  - by exists "", c.
  - destruct IH as (t & x & ->); [done|]. by exists (String c t), x.
Qed.

Lemma string_snoc_inj (s t : string) x y :
  s +:+ String x EmptyString = t +:+ String y EmptyString → x = y.
Proof.
  revert t; induction s as [|c s IH]; intros [|d t] H; rewrite ?append_cons, ?append_nil in H.
  - congruence.
  - destruct t; rewrite ?append_cons, ?append_nil in H; congruence.
  - destruct s; rewrite ?append_cons, ?append_nil in H; congruence.
  - apply (IH t). congruence.
Qed.

Lemma push_fields_snoc f l : ∃ q, push_fields (f :: l) = q +:+ String SOH EmptyString.
Proof.
  revert f; induction l as [|g l IH]; intros f.
  - exists (field_text f). cbn. by rewrite string_app_nil_r, push_field_text.
  - destruct (IH g) as [q Hq]. exists (push_field f +:+ q).
    change (push_fields (f :: g :: l)) with (push_field f +:+ push_fields (g :: l)).
    by rewrite Hq, string_app_assoc.
Qed.

(** C38: a frame with one byte changed is refused: when any byte covered by the checksum, other
    than the delimiter right before the trailer, is replaced by another one, parsing
    returns an error, whatever fields the change makes appear or disappear. *)
Theorem fix_corruption_detected (m : FixMessage) (a b : string) (c d : ascii) :
  let out := push_fields (wire_head m) in
  out = a +:+ String c b → b ≠ "" → c ≠ d →
  ∃ e, fix_parse ((a +:+ String d b) +:+ push_field (CHECK_SUM, format_width 3 (checksum_of out))) = inl e.
Proof.
  intros out Hout Hb Hcd. destruct (string_snoc b Hb) as (b' & x & ->).
  destruct (push_fields_snoc (BEGIN_STRING, default "FIX.4.4" (fix_get BEGIN_STRING m))
    ((BODY_LENGTH, uint_to_string (N.of_nat (String.length (push_fields (wire_body m))))) ::
     wire_body m)) as [q Hq].
  change (out = q +:+ String SOH "") in Hq.
  assert (x = SOH) as ->.
  { apply (string_snoc_inj (a +:+ String c b') q). rewrite <- Hq, Hout, string_app_assoc. done. }
  replace (a +:+ String d (b' +:+ String SOH "")) with ((a +:+ String d b') +:+ String SOH "")
    by (by rewrite string_app_assoc).
  apply fix_parse_wrong_sum; [apply checksum_bound|].
  unfold checksum_of. rewrite Hout, !byte_sum_app. cbn [byte_sum]. rewrite !byte_sum_app. cbn [byte_sum].
  pose proof (N_ascii_bounded c). pose proof (N_ascii_bounded d).
  assert (Hne : N_of_ascii c ≠ N_of_ascii d)
    by (intros He; apply Hcd; by rewrite <- (ascii_N_embedding c), <- (ascii_N_embedding d), He).
  set (r := (byte_sum a + (byte_sum b' + (N_of_ascii SOH + 0)))%N).
  assert (Hr : ∀ z : N, (byte_sum a + (z + byte_sum b') + (N_of_ascii SOH + 0) = r + z)%N) by (intros; lia).
  rewrite Hr. replace (byte_sum a + (N_of_ascii c + (byte_sum b' + (N_of_ascii SOH + 0))))%N
    with (r + N_of_ascii c)%N by lia.
  intros Heq. pose proof (N.div_mod (r + N_of_ascii d) 256 ltac:(lia)).
  pose proof (N.div_mod (r + N_of_ascii c) 256 ltac:(lia)). lia.
Qed.

Lemma fix_corruption_detected_witness :
  let m := fix_set 55 "A" (of_type MtNewOrderSingle) in
  let out := push_fields (wire_head m) in
  ∃ e, fix_parse (("8=FIX.5" +:+ string_drop 7 out) +:+
         push_field (CHECK_SUM, format_width 3 (checksum_of out))) = inl e.
Proof.
  intros m out. apply (fix_corruption_detected m "8=FIX." (string_drop 7 out) "4" "5").
  - by vm_compute.
  - by vm_compute.
  - done.
Defined.

(** A trailer above 255 is taken modulo 256 and accepted. *)
Lemma checksum_alias :
  let out := push_fields (wire_head (of_type MtHeartbeat)) in
  checksum_of out = 163%N ∧
  is_Some (match fix_parse (out +:+ push_field (CHECK_SUM, "419")) with inr m => Some m | inl _ => None end).
Proof. vm_compute. by eauto. Qed.
