(* ===== verification/FixSession.v ===== *)
(** * The FIX session ([crates/atomr-fix/src/session.rs], [seq_store.rs])

    The sequence store is an interface with its laws; the in-memory store is the instance.
    The clock of [sending_time] is an argument of every operation that stamps a message.
    A session loop ([run]) takes frames from its peer, messages of the application and
    ticks; two loops are connected by two queues of frames. *)

From stdpp Require Import gmap strings list.
From Stdlib Require Import NArith ZArith Lia Ascii.
From S2P Require Import Prelude Encoding Address FixMessage.

(** ** Dates *)

(** [i64] and [u64] arithmetic on values far below their bounds; [/] truncates. *)
Definition civil_from_days (z0 : Z) : Z * Z * Z := (
  let z := z0 + 719468 in
  let era := Z.quot (if 0 <=? z then z else z - 146096) 146097 in
  let doe := z - era * 146097 in
  let yoe := (doe - doe / 1460 + doe / 36524 - doe / 146096) / 365 in
  let y := yoe + era * 400 in
  let doy := doe - (365 * yoe + yoe / 4 - yoe / 100) in
  let mp := (5 * doy + 2) / 153 in
  let d := doy - (153 * mp + 2) / 5 + 1 in
  let m := if mp <? 10 then mp + 3 else mp - 9 in
  ((if m <=? 2 then y + 1 else y), m, d))%Z.

(** The Gregorian calendar. *)
Definition is_leap (y : Z) : bool :=
  ((y mod 4 =? 0) && (negb (y mod 100 =? 0) || (y mod 400 =? 0)))%Z.

Definition days_in_month (y m : Z) : Z :=
  if (m =? 2)%Z then (if is_leap y then 29 else 28)%Z
  else if ((m =? 4) || (m =? 6) || (m =? 9) || (m =? 11))%Z then 30%Z else 31%Z.

Definition tomorrow (date : Z * Z * Z) : Z * Z * Z :=
  let '(y, m, d) := date in
  if (d <? days_in_month y m)%Z then (y, m, d + 1)%Z
  else if (m <? 12)%Z then (y, m + 1, 1)%Z else (y + 1, 1, 1)%Z.

(** Within an era of 400 years that start in March: the first day of a year, the year of a
    day, and the month and day of a day of the year. *)
Definition year_start (y : Z) : Z := (365 * y + y / 4 - y / 100)%Z.

Definition year_of_era (doe : Z) : Z :=
  ((doe - doe / 1460 + doe / 36524 - doe / 146096) / 365)%Z.

Definition month_day (doy : Z) : Z * Z :=
  (let mp := (5 * doy + 2) / 153 in
   (if mp <? 10 then mp + 3 else mp - 9, doy - (153 * mp + 2) / 5 + 1))%Z.

Definition year_date (y doy : Z) : Z * Z * Z :=
  let '(m, d) := month_day doy in ((if m <=? 2 then y + 1 else y)%Z, m, d).

Definition era_date (doe : Z) : Z * Z * Z :=
  year_date (year_of_era doe) (doe - year_start (year_of_era doe)).

Definition shift_year (k : Z) (date : Z * Z * Z) : Z * Z * Z :=
  let '(y, m, d) := date in (y + k, m, d)%Z.

Lemma civil_era z0 :
  civil_from_days z0 =
    shift_year ((z0 + 719468) / 146097 * 400) (era_date ((z0 + 719468) mod 146097)).
Proof.
  unfold civil_from_days. set (z := (z0 + 719468)%Z).
  replace (Z.quot (if (0 <=? z)%Z then z else (z - 146096)%Z) 146097) with (z / 146097)%Z.
  2:{ destruct (Z.leb_spec 0 z); [symmetry; apply Z.quot_div_nonneg; lia|].
      rewrite <- (Z.opp_involutive (z - 146096)), Z.quot_opp_l, Z.quot_div_nonneg by lia.
      pose proof (Z.div_mod z 146097). pose proof (Z.mod_pos_bound z 146097).
      pose proof (Z.div_mod (- (z - 146096)) 146097).
      pose proof (Z.mod_pos_bound (- (z - 146096)) 146097). lia. }
  replace (z - z / 146097 * 146097)%Z with (z mod 146097)%Z
    by (pose proof (Z.div_mod z 146097); lia).
  unfold era_date, year_date, month_day, year_of_era, year_start, shift_year. cbv zeta.
  destruct (_ <=? 2)%Z; do 2 f_equal; lia.
Qed.

(** Leap years repeat every 400 years, so [tomorrow] does. *)
Lemma tomorrow_shift k date : tomorrow (shift_year (k * 400) date) = shift_year (k * 400) (tomorrow date).
Proof.
  destruct date as [[y m] d]. unfold tomorrow, shift_year, days_in_month, is_leap.
  replace ((y + k * 400) mod 4)%Z with (y mod 4)%Z
    by (replace (k * 400)%Z with (k * 100 * 4)%Z by lia; by rewrite Z.mod_add).
  replace ((y + k * 400) mod 100)%Z with (y mod 100)%Z
    by (replace (k * 400)%Z with (k * 4 * 100)%Z by lia; by rewrite Z.mod_add).
  rewrite Z.mod_add by lia.
  destruct (_ <? _)%Z; [done|]. destruct (m <? 12)%Z; [done|]. do 2 f_equal. lia.
Qed.

(** *** The days of one era follow each other *)

(** The days of the year that starts in March of [y]. *)
Definition year_len (y : Z) : Z := if is_leap (y + 1) then 366%Z else 365%Z.

Definition zseq (n : nat) : list Z := Z.of_nat <$> seq 0 n.

Lemma zseq_elem n z : (0 ≤ z < Z.of_nat n)%Z → z ∈ zseq n.
Proof.
  intros Hz. apply list_elem_of_fmap. exists (Z.to_nat z). split; [lia|]. apply elem_of_seq. lia.
Qed.

Lemma year_bounds y :
  (0 ≤ y < 400)%Z →
  (365 * y ≤ year_start y - year_start y / 1460 + year_start y / 36524 - year_start y / 146096)%Z ∧
  (let e := year_start y + year_len y - 1 in
   e - e / 1460 + e / 36524 - e / 146096 < 365 * (y + 1))%Z ∧
  (year_start y + year_len y = if decide (y = 399) then 146097 else year_start (y + 1))%Z.
Proof.
  intros Hy. revert y Hy.
  assert (Hall : Forall (λ y,
    (365 * y ≤ year_start y - year_start y / 1460 + year_start y / 36524 - year_start y / 146096)%Z ∧
    ((year_start y + year_len y - 1) - (year_start y + year_len y - 1) / 1460 +
     (year_start y + year_len y - 1) / 36524 - (year_start y + year_len y - 1) / 146096
       < 365 * (y + 1))%Z ∧
    (year_start y + year_len y = if decide (y = 399) then 146097 else year_start (y + 1))%Z)
    (zseq 400)) by (by apply (bool_decide_unpack _); vm_compute).
  rewrite Forall_forall in Hall. intros y Hy. by apply Hall, zseq_elem.
Qed.

(** The estimate of the year grows with the day. *)
Lemma year_estimate_mono a b :
  (0 ≤ a ≤ b)%Z →
  (a - a / 1460 + a / 36524 - a / 146096 ≤ b - b / 1460 + b / 36524 - b / 146096)%Z.
Proof.
  intros Hab.
  assert (H1 : (a - a / 1460 ≤ b - b / 1460)%Z).
  { pose proof (Z.div_mod a 1460). pose proof (Z.div_mod b 1460).
    pose proof (Z.mod_pos_bound a 1460). pose proof (Z.mod_pos_bound b 1460). lia. }
  assert (H2 : ∀ x, (x / 146096 = x / 36524 / 4)%Z) by (intros x; by rewrite Z.div_div).
  rewrite !H2. pose proof (Z.div_le_mono a b 36524 ltac:(lia) ltac:(lia)).
  set (p := (a / 36524)%Z) in *. set (q := (b / 36524)%Z) in *.
  pose proof (Z.div_mod p 4). pose proof (Z.div_mod q 4).
  pose proof (Z.mod_pos_bound p 4). pose proof (Z.mod_pos_bound q 4). lia.
Qed.

Lemma year_start_pos y : (0 ≤ y)%Z → (0 ≤ year_start y)%Z.
Proof.
  intros Hy. unfold year_start. pose proof (Z.div_pos y 4 Hy ltac:(lia)).
  assert (y / 100 ≤ y)%Z by (apply Z.div_le_upper_bound; lia). lia.
Qed.

Lemma year_of_era_unique y doe :
  (0 ≤ y < 400)%Z → (year_start y ≤ doe < year_start y + year_len y)%Z → year_of_era doe = y.
Proof.
  intros Hy Hd. destruct (year_bounds y Hy) as (Hlo & Hhi & _). cbv zeta in Hhi.
  pose proof (year_start_pos y ltac:(lia)).
  pose proof (year_estimate_mono (year_start y) doe ltac:(lia)).
  pose proof (year_estimate_mono doe (year_start y + year_len y - 1) ltac:(lia)).
  symmetry. unfold year_of_era.
  apply (Z.div_unique_pos _ _ _ (doe - doe / 1460 + doe / 36524 - doe / 146096 - 365 * y)%Z); lia.
Qed.

Lemma year_exists (n : nat) doe :
  (n ≤ 399) → (0 ≤ doe < year_start (Z.of_nat n) + year_len (Z.of_nat n))%Z →
  ∃ y, (0 ≤ y < 400)%Z ∧ (year_start y ≤ doe < year_start y + year_len y)%Z.
Proof.
  induction n as [|n IH]; intros Hn Hd.
  - exists 0%Z. split; [lia|]. exact Hd.
  - destruct (decide (year_start (Z.of_nat (S n)) ≤ doe)%Z) as [Hle|Hlt].
    + exists (Z.of_nat (S n)). lia.
    + apply IH; [lia|]. destruct (year_bounds (Z.of_nat n) ltac:(lia)) as (_ & _ & Heq).
      rewrite decide_False in Heq by lia. rewrite Heq.
      replace (Z.of_nat n + 1)%Z with (Z.of_nat (S n)) by lia. lia.
Qed.

(** A day of the year and the next one, before the end of February. *)
Definition day_step (a b : Z * Z) : Prop :=
  (a.1 = b.1 ∧ b.2 = a.2 + 1 ∧ (a.1 = 2 ∧ a.2 < 28 ∨ a.1 ≠ 2 ∧ a.2 < days_in_month 0 a.1))%Z ∨
  (a.1 ≠ 2 ∧ a.2 = days_in_month 0 a.1 ∧ b.2 = 1 ∧
   (a.1 = 1 ∧ b.1 = 2 ∨ 2 < a.1 < 12 ∧ b.1 = a.1 + 1 ∨ a.1 = 12 ∧ b.1 = 1))%Z.

#[export] Instance day_step_dec a b : Decision (day_step a b).
Proof. unfold day_step. apply _. Defined.

Lemma month_day_steps : Forall (λ doy, day_step (month_day doy) (month_day (doy + 1))) (zseq 364).
Proof. by apply (bool_decide_unpack _); vm_compute. Qed.

Lemma days_in_month_any y m : (m ≠ 2)%Z → days_in_month y m = days_in_month 0 m.
Proof. intros Hm. unfold days_in_month. by rewrite (proj2 (Z.eqb_neq _ _) Hm). Qed.

(** Up to the end of February the days of a year do not depend on the year. *)
Lemma month_day_step doy y :
  (0 ≤ doy < 364)%Z → year_date y (doy + 1) = tomorrow (year_date y doy).
Proof.
  intros Hd. pose proof (proj1 (Forall_forall _ _) month_day_steps doy (zseq_elem 364 doy Hd)) as H.
  cbv beta in H. unfold year_date. destruct (month_day doy) as [m d], (month_day (doy + 1)) as [m' d'].
  unfold day_step in H. cbn [fst snd] in H. unfold tomorrow.
  set (y0 := (if (m <=? 2)%Z then (y + 1)%Z else y)).
  destruct H as [(<- & -> & Hlt)|(Hm & Hd' & -> & Hn)].
  - assert (Hl : (d < days_in_month y0 m)%Z).
    { destruct Hlt as [[-> Hlt]|[Hm Hlt]]; [|by rewrite days_in_month_any].
      change (d < if is_leap y0 then 29 else 28)%Z. destruct (is_leap y0); lia. }
    by rewrite (proj2 (Z.ltb_lt _ _) Hl).
  - rewrite days_in_month_any, (proj2 (Z.ltb_ge _ _)) by (done || lia). unfold y0.
    destruct Hn as [[-> ->]|[[Hr ->]|[-> ->]]]; [done| |done].
    rewrite (proj2 (Z.ltb_lt m 12)) by lia.
    by rewrite (proj2 (Z.leb_gt m 2)), (proj2 (Z.leb_gt (m + 1) 2)) by lia.
Qed.

Lemma february y : days_in_month y 2 = if is_leap y then 29%Z else 28%Z.
Proof. done. Qed.

(** The days of one era follow each other. *)
Lemma era_step doe :
  (0 ≤ doe < 146096)%Z → era_date (doe + 1) = tomorrow (era_date doe).
Proof.
  intros Hd. destruct (year_exists 399 doe) as (y & Hy & Hi); [lia|..].
  { by replace (year_start (Z.of_nat 399) + year_len (Z.of_nat 399))%Z with 146097%Z by done; lia. }
  unfold era_date. rewrite (year_of_era_unique y doe Hy Hi). set (doy := (doe - year_start y)%Z).
  assert (Hdoy : (0 ≤ doy < year_len y)%Z) by lia.
  destruct (year_bounds y Hy) as (_ & _ & Hnext).
  destruct (decide (doy + 1 = year_len y)%Z) as [Hlast|Hin].
  - assert (Hy399 : y ≠ 399%Z).
    { intros ->. assert (year_start 399 + year_len 399 = 146097)%Z by done. lia. }
    rewrite decide_False in Hnext by done.
    assert (Hstart : (doe + 1 = year_start (y + 1))%Z) by lia.
    rewrite (year_of_era_unique (y + 1) (doe + 1)), Hstart, Z.sub_diag; [|lia|].
    2:{ unfold year_len. destruct (is_leap _); lia. }
    replace doy with (if is_leap (y + 1) then 365 else 364)%Z
      by (unfold year_len in Hlast; destruct (is_leap (y + 1)); lia).
    destruct (is_leap (y + 1)) eqn:E.
    + change (year_date y 365) with (y + 1, 2, 29)%Z. unfold tomorrow. by rewrite february, E.
    + change (year_date y 364) with (y + 1, 2, 28)%Z. unfold tomorrow. by rewrite february, E.
  - rewrite (year_of_era_unique y (doe + 1) Hy ltac:(lia)).
    replace (doe + 1 - year_start y)%Z with (doy + 1)%Z by lia.
    destruct (decide (doy < 364)%Z) as [Hsmall|Hbig]; [apply month_day_step; lia|].
    unfold year_len in *. destruct (is_leap (y + 1)) eqn:E; [|lia].
    replace doy with 364%Z by lia. change (year_date y 364) with (y + 1, 2, 28)%Z.
    unfold tomorrow. by rewrite february, E.
Qed.

Lemma era_last : tomorrow (era_date 146096) = shift_year 400 (era_date 0).
Proof. by vm_compute. Qed.

(** The dates stamped are those of the Gregorian calendar: day zero is the first of
    January 1970, and every day is followed by its successor, over all days. *)
Theorem civil_from_days_correct (z : Z) :
  civil_from_days 0 = (1970, 1, 1)%Z ∧
  civil_from_days (z + 1) = tomorrow (civil_from_days z).
Proof.
  split; [by vm_compute|]. rewrite !civil_era, tomorrow_shift.
  pose proof (Z.div_mod (z + 719468) 146097 ltac:(lia)) as Hd.
  pose proof (Z.mod_pos_bound (z + 719468) 146097 ltac:(lia)) as Hm.
  set (q := ((z + 719468) / 146097)%Z) in *. set (r := ((z + 719468) mod 146097)%Z) in *.
  destruct (decide (r = 146096%Z)) as [Hr|Hr].
  - replace ((z + 1 + 719468) / 146097)%Z with (q + 1)%Z
      by (apply (Z.div_unique _ _ _ 0); lia).
    replace ((z + 1 + 719468) mod 146097)%Z with 0%Z
      by (apply (Z.mod_unique _ _ (q + 1)); lia).
    rewrite Hr, era_last. unfold shift_year. destruct (era_date 0) as [[y m] d]. do 2 f_equal. lia.
  - replace ((z + 1 + 719468) / 146097)%Z with q
      by (apply (Z.div_unique _ _ _ (r + 1)); lia).
    replace ((z + 1 + 719468) mod 146097)%Z with (r + 1)%Z
      by (apply (Z.mod_unique _ _ q); lia).
    by rewrite era_step by lia.
Qed.

(** [format!("{y:04}{mo:02}{d:02}-{h:02}:{m:02}:{s:02}")] of the seconds since the epoch. *)
Definition sending_time (now : N) : string :=
  let secs := (now mod 86400)%N in
  let '(y, mo, d) := civil_from_days (Z.of_N (now / 86400)) in
  format_width 4 (Z.to_N y) +:+ format_width 2 (Z.to_N mo) +:+ format_width 2 (Z.to_N d) +:+ "-" +:+
  format_width 2 (secs / 3600) +:+ ":" +:+ format_width 2 ((secs mod 3600) / 60) +:+ ":" +:+
  format_width 2 (secs mod 60).

(** ** The sequence store *)

Class FixSeqStore (St : Type) := {
  next_out : St → N * St;
  peek_out : St → N;
  observed_in : N → St → St;
  current_in : St → N;
  store_reset : St → St;
}.

(** What the session relies on. *)
Class FixSeqStoreLaws (St : Type) `{FixSeqStore St} := {
  next_out_law s : (next_out s).1 = peek_out s ∧
    peek_out (next_out s).2 = u64_add (peek_out s) 1 ∧
    current_in (next_out s).2 = current_in s;
  observed_in_law n s : peek_out (observed_in n s) = peek_out s ∧
    current_in (observed_in n s) = N.max (current_in s) (N.min (n + 1) u64_max);
  store_reset_law s : peek_out (store_reset s) = 1%N ∧ current_in (store_reset s) = 1%N;
}.

Record InMemorySeqStore := mkSeqStore { ss_out : N; ss_in_expected : N }.

Definition SeqStore_new : InMemorySeqStore := mkSeqStore 1 1.
Definition SeqStore_with_counters (out inb : N) : InMemorySeqStore :=
  mkSeqStore (N.max out 1) (N.max inb 1).

#[export] Instance InMemory_store : FixSeqStore InMemorySeqStore := {|
  next_out s := (ss_out s, mkSeqStore (u64_add (ss_out s) 1) (ss_in_expected s));
  peek_out s := ss_out s;
  observed_in n s :=
    let want := N.min (n + 1) u64_max in
    if (ss_in_expected s <? want)%N then mkSeqStore (ss_out s) want else s;
  current_in s := ss_in_expected s;
  store_reset s := mkSeqStore 1 1;
|}.

#[export] Instance InMemory_store_laws : FixSeqStoreLaws InMemorySeqStore.
Proof.
  split; intros; cbn; try done.
  destruct (N.ltb_spec (ss_in_expected s) (N.min (n + 1) u64_max)); cbn; lia.
Qed.

(** ** The session *)

Inductive FixVersion := Fix42 | Fix44 | Fix50Sp2.

Definition begin_string (v : FixVersion) : string :=
  match v with Fix42 => "FIX.4.2" | Fix44 => "FIX.4.4" | Fix50Sp2 => "FIXT.1.1" end.

Definition is_fixt (v : FixVersion) : bool := match v with Fix50Sp2 => true | _ => false end.

(** [heartbeat] in seconds. *)
Record FixSessionConfig := mkFixConfig {
  fc_version : FixVersion;
  fc_sender : string;
  fc_target : string;
  fc_heartbeat : N;
  fc_reset_on_logon : bool;
}.

Inductive SessionState := Disconnected | LogonSent | SessActive | LogoutSent.

#[export] Instance SessionState_eq_dec : EqDecision SessionState.
Proof. solve_decision. Defined.

Record InboundOutcome := mkOutcome {
  oc_outbound : list FixMessage;
  oc_application : option FixMessage;
  oc_gap : option (N * N);
  oc_ignored : bool;
}.

Definition Outcome_default : InboundOutcome := mkOutcome [] None None false.

Section session.
Context {St : Type} `{!FixSeqStore St}.

Record FixSession := mkFixSession {
  fs_config : FixSessionConfig;
  fs_store : St;
  fs_state : SessionState;
}.

Definition FixSession_new (c : FixSessionConfig) (s : St) : FixSession := mkFixSession c s Disconnected.

Definition with_store (s : St) (x : FixSession) : FixSession :=
  mkFixSession (fs_config x) s (fs_state x).
Definition with_state (t : SessionState) (x : FixSession) : FixSession :=
  mkFixSession (fs_config x) (fs_store x) t.

(** The header fields, stamped with [seq]. *)
Definition stamp (c : FixSessionConfig) (seq now : N) (m : FixMessage) : FixMessage :=
  fix_set SENDING_TIME (sending_time now)
    (fix_set MSG_SEQ_NUM (uint_to_string seq)
       (fix_set TARGET_COMP_ID (fc_target c)
          (fix_set SENDER_COMP_ID (fc_sender c)
             (fix_set BEGIN_STRING (begin_string (fc_version c)) m)))).

Definition finalize_outbound (now : N) (m : FixMessage) (x : FixSession) : FixSession * FixMessage :=
  let '(seq, s) := next_out (fs_store x) in (with_store s x, stamp (fs_config x) seq now m).

Definition build_logon (now : N) (x : FixSession) : FixSession * FixMessage :=
  let c := fs_config x in
  let x := if fc_reset_on_logon c then with_store (store_reset (fs_store x)) x else x in
  let m := fix_set HEART_BT_INT (uint_to_string (fc_heartbeat c))
             (fix_set ENCRYPT_METHOD "0" (of_type MtLogon)) in
  let m := if fc_reset_on_logon c then fix_set RESET_SEQ_NUM_FLAG "Y" m else m in
  let m := if is_fixt (fc_version c) then fix_set DEFAULT_APPL_VER_ID "9" m else m in
  let '(x, out) := finalize_outbound now m x in (with_state LogonSent x, out).

Definition build_logout (now : N) (reason : option string) (x : FixSession)
    : FixSession * FixMessage :=
  let m := of_type MtLogout in
  let m := match reason with Some r => fix_set TEXT r m | None => m end in
  let '(x, out) := finalize_outbound now m x in (with_state LogoutSent x, out).

Definition build_heartbeat (now : N) (id : option string) (x : FixSession)
    : FixSession * FixMessage :=
  let m := of_type MtHeartbeat in
  finalize_outbound now (match id with Some i => fix_set TEST_REQ_ID i m | None => m end) x.

Definition fix_heartbeat (now : N) (x : FixSession) : FixSession * FixMessage :=
  build_heartbeat now None x.

Definition build_resend_request (now b e : N) (x : FixSession) : FixSession * FixMessage :=
  finalize_outbound now
    (fix_set END_SEQ_NO (uint_to_string e) (fix_set BEGIN_SEQ_NO (uint_to_string b)
       (of_type MtResendRequest))) x.

Definition build_gap_fill (now begin_seq new_seq_no : N) (x : FixSession) : FixMessage :=
  stamp (fs_config x) begin_seq now
    (fix_set NEW_SEQ_NO (uint_to_string new_seq_no) (fix_set POSS_DUP_FLAG "Y"
       (fix_set GAP_FILL_FLAG "Y" (of_type MtSequenceReset)))).

Definition build_app_message (now : N) (m : FixMessage) (x : FixSession) : FixSession * FixMessage :=
  let '(seq, s) := next_out (fs_store x) in (with_store s x, stamp (fs_config x) seq now m).

(** [if let Some(seq) = seq { store.observed_in(seq) }]. *)
Definition observe (seq : option N) (x : FixSession) : FixSession :=
  match seq with Some n => with_store (observed_in n (fs_store x)) x | None => x end.

Definition is_reset_logon (m : FixMessage) : bool :=
  match msg_type m, fix_get RESET_SEQ_NUM_FLAG m with
  | Some MtLogon, Some v => bool_decide (v = "Y") || bool_decide (v = "y")
  | _, _ => false
  end.

(** The part of [handle_inbound] after the gap detection. *)
Definition dispatch_inbound (now : N) (m : FixMessage) (x : FixSession)
    : FixSession * InboundOutcome :=
  let seq := seq_num m in
  match msg_type m with
  | Some MtLogon =>
      let x := if is_reset_logon m then with_store (store_reset (fs_store x)) x else x in
      let x := observe seq x in
      if decide (fs_state x = LogonSent) then (with_state SessActive x, Outcome_default)
      else let '(x, reply) := build_logon now x in
           (with_state SessActive x, mkOutcome [reply] None None false)
  | Some MtTestRequest =>
      let '(x, hb) := build_heartbeat now (fix_get TEST_REQ_ID m) (observe seq x) in
      (x, mkOutcome [hb] None None false)
  | Some MtHeartbeat => (observe seq x, Outcome_default)
  | Some MtResendRequest =>
      let x := observe seq x in
      let b := default 1%N (fix_get_u64 BEGIN_SEQ_NO m) in
      let e := default 0%N (fix_get_u64 END_SEQ_NO m) in
      let nxt := peek_out (fs_store x) in
      let new_seq_no := if (e =? 0)%N then nxt else N.max (u64_add e 1) nxt in
      (x, mkOutcome [build_gap_fill now b new_seq_no x] None None false)
  | Some MtSequenceReset =>
      match fix_get_u64 NEW_SEQ_NO m with
      | Some n => (if (1 <=? n)%N then with_store (observed_in (n - 1) (fs_store x)) x else x,
                   Outcome_default)
      | None => (x, Outcome_default)
      end
  | Some MtLogout =>
      let x := observe seq x in
      if decide (fs_state x = LogoutSent) then (with_state Disconnected x, Outcome_default)
      else let '(x, reply) := build_logout now None x in
           (with_state Disconnected x, mkOutcome [reply] None None false)
  | Some (MtNewOrderSingle | MtExecutionReport | MtOther _) =>
      (observe seq x, mkOutcome [] (Some m) None false)
  | None => (x, mkOutcome [] None None true)
  end.

Definition handle_inbound (now : N) (m : FixMessage) (x : FixSession)
    : FixSession * InboundOutcome :=
  let checked := negb (match msg_type m with Some MtSequenceReset => true | _ => false end) &&
                 negb (is_reset_logon m) in
  match seq_num m with
  | Some seq =>
      let expected := current_in (fs_store x) in
      if checked && (expected <? seq)%N then
        let '(x, rr) := build_resend_request now expected 0 x in
        (x, mkOutcome [rr] None (Some (expected, seq)) false)
      else if checked && (seq <? expected)%N then (x, mkOutcome [] None None true)
      else dispatch_inbound now m x
  | None => dispatch_inbound now m x
  end.

(** ** The loop of [run] *)

(** A frame is an error of the framing, or bytes. *)
Inductive LoopEvent :=
  | LeFrame (bytes : option string)
  | LeApp (m : FixMessage)
  | LeTick.

(** The frames written, the message for the application, and whether the loop ends. *)
Definition loop_step (now : N) (ev : LoopEvent) (x : FixSession)
    : FixSession * list string * option FixMessage * bool :=
  match ev with
  | LeFrame None => (x, [], None, false)
  | LeFrame (Some bytes) =>
      match fix_parse bytes with
      | inl _ => (x, [], None, false)
      | inr m =>
          let '(x, o) := handle_inbound now m x in
          (x, fix_to_wire <$> oc_outbound o, oc_application o, bool_decide (fs_state x = Disconnected))
      end
  | LeApp m =>
      if decide (fs_state x = SessActive) then
        let '(x, out) := build_app_message now m x in (x, [fix_to_wire out], None, false)
      else (x, [], None, false)
  | LeTick =>
      if decide (fs_state x = SessActive) then
        let '(x, out) := fix_heartbeat now x in (x, [fix_to_wire out], None, false)
      else (x, [], None, false)
  end.

Definition loop_start (now : N) (x : FixSession) : FixSession * list string :=
  let '(x, logon) := build_logon now x in (x, [fix_to_wire logon]).
End session.

(** ** Lemmas on messages *)

Lemma fix_get_set_eq tag v m : fix_get tag (fix_set tag v m) = Some v.
Proof.
  induction m as [|f m IH]; cbn; [by rewrite N.eqb_refl|].
  destruct (f.1 =? tag)%N eqn:E; cbn; by rewrite E.
Qed.

Lemma fix_get_set_ne tag tag' v m : tag ≠ tag' → fix_get tag' (fix_set tag v m) = fix_get tag' m.
Proof.
  intros Hne. induction m as [|f m IH]; cbn.
  { by rewrite (proj2 (N.eqb_neq tag tag')). }
  destruct (N.eqb_spec f.1 tag) as [Hf|Hf]; cbn.
  - rewrite Hf. by rewrite (proj2 (N.eqb_neq tag tag')).
  - destruct (f.1 =? tag')%N; [done|exact IH].
Qed.

Lemma fix_set_ok tag v m :
  (tag < 2 ^ 32)%N → clean v → message_ok m → message_ok (fix_set tag v m).
Proof.
  intros Ht Hv. unfold message_ok. induction m as [|f m IH]; intros Hm; cbn.
  - apply Forall_singleton. by split.
  - apply Forall_cons in Hm as [[Hf1 Hf2] Hm]. destruct (f.1 =? tag)%N.
    + constructor; [by split|done].
    + constructor; [by split|by apply IH].
Qed.

Lemma clean_app a b : clean a → ascii_only a = true → clean b → clean (a +:+ b).
Proof.
  intros [_ Ha] Hasc [Hb1 Hb2]. split; [by rewrite valid_utf8_ascii|].
  by rewrite string_has_app, Ha, Hb2.
Qed.

Lemma format_width_digits w n : all_digits (format_width w n) = true.
Proof.
  unfold format_width. induction (w - _) as [|k IH]; cbn; [apply all_digits_uint|exact IH].
Qed.

Lemma clean_width w n s : clean s → clean (format_width w n +:+ s).
Proof.
  intros Hs. destruct (digits_plain _ (format_width_digits w n)) as (Ha & _ & _).
  apply clean_app; [apply digits_clean, format_width_digits|done|done].
Qed.

Lemma sending_time_clean now : clean (sending_time now).
Proof.
  unfold sending_time. destruct (civil_from_days _) as [[y mo] d].
  do 3 apply clean_width. apply clean_app; [done|done|]. apply clean_width.
  apply clean_app; [done|done|]. apply clean_width. apply clean_app; [done|done|].
  apply digits_clean, format_width_digits.
Qed.

Definition config_ok (c : FixSessionConfig) : Prop := clean (fc_sender c) ∧ clean (fc_target c).

Lemma stamp_ok c seq now m : config_ok c → message_ok m → message_ok (stamp c seq now m).
Proof.
  intros [Hs Ht] Hm. unfold stamp.
  repeat apply fix_set_ok; try done; [apply sending_time_clean|apply digits_clean, all_digits_uint|].
  by destruct (fc_version c).
Qed.

Lemma stamp_get c seq now m tag :
  tag ∉ [SENDING_TIME; MSG_SEQ_NUM; TARGET_COMP_ID; SENDER_COMP_ID; BEGIN_STRING] →
  fix_get tag (stamp c seq now m) = fix_get tag m.
Proof. intros Ht. unfold stamp. rewrite !fix_get_set_ne; [done|set_solver..]. Qed.

Lemma stamp_seq c seq now m : (seq ≤ u64_max)%N → seq_num (stamp c seq now m) = Some seq.
Proof.
  intros Hs. unfold seq_num, fix_get_u64, stamp.
  rewrite fix_get_set_ne, fix_get_set_eq by done. cbn. by apply parse_uint_to_string.
Qed.

Lemma stamp_type c seq now m : msg_type (stamp c seq now m) = msg_type m.
Proof. unfold msg_type. by rewrite stamp_get by set_solver. Qed.

(** A message read from its frame has the sequence number, type and flags it had. *)
Lemma wire_fields_seq m : seq_num (wire_fields m) = seq_num m.
Proof. unfold seq_num, fix_get_u64. by rewrite wire_fields_get. Qed.

Lemma wire_fields_type m t : msg_type m = Some t → msg_type (wire_fields m) = Some t.
Proof.
  unfold msg_type. intros Ht. change (fix_get MSG_TYPE (wire_fields m))
    with (Some (default "" (fix_get MSG_TYPE m))).
  by destruct (fix_get MSG_TYPE m).
Qed.

Lemma wire_fields_reset m t :
  msg_type m = Some t → is_reset_logon (wire_fields m) = is_reset_logon m.
Proof.
  intros Ht. unfold is_reset_logon. rewrite (wire_fields_type m t Ht), Ht.
  by rewrite wire_fields_get.
Qed.

(** ** Two sessions *)

Section network.
Context {St : Type} `{!FixSeqStore St} `{!FixSeqStoreLaws St}.

(** One end: its session, the frames on their way to it, the messages its application has
    received, and the frames of the messages its application has sent. *)
Record Side := mkSide {
  sd_session : FixSession (St := St);
  sd_inbox : list string;
  sd_delivered : list FixMessage;
  sd_sent : list string;
}.

Inductive SideOp :=
  | SideApp (m : FixMessage)
  | SideTick
  | SideDeliver.

(** [me] makes a step; what it writes goes to the inbox of [peer]. *)
Definition side_step (now : N) (op : SideOp) (me peer : Side) : Side * Side :=
  let event :=
    match op with
    | SideApp m => Some (LeApp m, sd_inbox me)
    | SideTick => Some (LeTick, sd_inbox me)
    | SideDeliver => match sd_inbox me with
                     | [] => None
                     | f :: rest => Some (LeFrame (Some f), rest)
                     end
    end in
  match event with
  | None => (me, peer)
  | Some (ev, inbox) =>
      let '(x, out, app, _) := loop_step now ev (sd_session me) in
      (mkSide x inbox (sd_delivered me ++ option_list app)
         (sd_sent me ++ match op with SideApp _ => out | _ => [] end),
       mkSide (sd_session peer) (sd_inbox peer ++ out) (sd_delivered peer) (sd_sent peer))
  end.

(** Which side makes the step. *)
Definition net_step (n : Side * Side) (op : bool * N * SideOp) : Side * Side :=
  let '(first, now, op) := op in
  if first then side_step now op n.1 n.2
  else let '(b, a) := side_step now op n.2 n.1 in (a, b).

Definition net_start (now : N) (ca cb : FixSessionConfig) (sa sb : St) : Side * Side :=
  let '(a, fa) := loop_start now (FixSession_new ca sa) in
  let '(b, fb) := loop_start now (FixSession_new cb sb) in
  (mkSide a fb [] [], mkSide b fa [] []).

Definition net_run (ops : list (bool * N * SideOp)) (n : Side * Side) : Side * Side :=
  foldl net_step n ops.

(** An application message: it has a type, and not one of the session's. *)
Definition app_message (m : FixMessage) : Prop :=
  message_ok m ∧ ∃ t, msg_type m = Some t ∧ MsgType_is_admin t = false.

Definition op_ok (op : SideOp) : Prop := match op with SideApp m => app_message m | _ => True end.

Definition is_app (m : FixMessage) : bool :=
  match msg_type m with Some t => negb (MsgType_is_admin t) | None => false end.

(** ** The channel between two sessions *)

(** The messages on their way from [a] to [b] continue the numbers [b] expects, the last of
    them is the last [a] has used; before [b] is active the first one is a logon.  What
    the application of [a] has sent has been delivered or is among them. *)
Record channel (a b : Side) (l done : list FixMessage) : Prop := mkChannel {
  ch_frames : sd_inbox b = fix_to_wire <$> l;
  ch_ok : Forall message_ok l;
  ch_seq : ∀ i m, l !! i = Some m →
    seq_num m = Some (current_in (fs_store (sd_session b)) + N.of_nat i)%N;
  ch_out : peek_out (fs_store (sd_session a)) =
    (current_in (fs_store (sd_session b)) + N.of_nat (length l))%N;
  ch_state :
    match fs_state (sd_session b) with
    | LogonSent => ∃ logon l', l = logon :: l' ∧ msg_type logon = Some MtLogon ∧
        is_reset_logon logon = false ∧
        Forall (λ m, msg_type m = Some MtHeartbeat ∨ is_app m = true) l'
    | SessActive => Forall (λ m, msg_type m = Some MtHeartbeat ∨ is_app m = true) l
    | _ => False
    end;
  ch_sent : sd_sent a = fix_to_wire <$> (done ++ filter (λ m, is_app m = true) l);
  ch_delivered : sd_delivered b = wire_fields <$> done;
  ch_done : Forall message_ok done;
}.

Definition chan (a b : Side) : Prop := ∃ l done, channel a b l done.

Definition side_ok (bound : N) (a : Side) : Prop :=
  config_ok (fs_config (sd_session a)) ∧
  (peek_out (fs_store (sd_session a)) ≤ bound)%N.

(** A message with the expected number of one of the types in use is accepted. *)
Lemma handle_expected now m (x : FixSession) t :
  seq_num m = Some (current_in (fs_store x)) → msg_type m = Some t →
  is_reset_logon m = false → (current_in (fs_store x) < u64_max)%N →
  match t with
  | MtLogon => fs_state x = LogonSent
  | MtHeartbeat => True
  | _ => MsgType_is_admin t = false
  end →
  let '(x', o) := handle_inbound now m x in
  fs_config x' = fs_config x ∧
  current_in (fs_store x') = (current_in (fs_store x) + 1)%N ∧
  peek_out (fs_store x') = peek_out (fs_store x) ∧
  fs_state x' = (match t with MtLogon => SessActive | _ => fs_state x end) ∧
  oc_outbound o = [] ∧ oc_application o = (if MsgType_is_admin t then None else Some m).
Proof.
  intros Hseq Ht Hr Hb Hok. unfold handle_inbound, dispatch_inbound.
  rewrite Hseq, Ht, Hr, !N.ltb_irrefl, !andb_false_r.
  destruct (observed_in_law (current_in (fs_store x)) (fs_store x)) as [Hp Hc].
  assert (Hcur : N.max (current_in (fs_store x)) (N.min (current_in (fs_store x) + 1) u64_max) =
    (current_in (fs_store x) + 1)%N) by lia. rewrite Hcur in Hc.
  destruct t; cbn in Hok; try done; cbn [observe MsgType_is_admin].
  rewrite decide_True by done. done.
Qed.

(** Writing a message with the next number extends the channel. *)
Lemma channel_push a b l done now m c s' :
  channel a b l done → message_ok m → config_ok c →
  (peek_out (fs_store (sd_session a)) < u64_max)%N →
  (msg_type m = Some MtHeartbeat ∨ is_app m = true) →
  next_out (fs_store (sd_session a)) = (peek_out (fs_store (sd_session a)), s') →
  let out := stamp c (peek_out (fs_store (sd_session a))) now m in
  channel
    (mkSide (with_store s' (sd_session a)) (sd_inbox a) (sd_delivered a)
       (sd_sent a ++ if is_app m then [fix_to_wire out] else []))
    (mkSide (sd_session b) (sd_inbox b ++ [fix_to_wire out]) (sd_delivered b) (sd_sent b))
    (l ++ [out]) done.
Proof.
  intros [Hf Hok Hs Ho Hst Hse Hd Hdn] Hm Hc Hb Ht Hn out.
  assert (Happ : is_app out = is_app m) by (unfold is_app, out; by rewrite stamp_type).
  assert (Htype : msg_type out = Some MtHeartbeat ∨ is_app out = true)
    by (rewrite Happ; unfold out; by rewrite stamp_type).
  destruct (next_out_law (fs_store (sd_session a))) as (_ & Hp & _). rewrite Hn in Hp. cbn in Hp.
  split; cbn [sd_inbox sd_session sd_sent sd_delivered fs_store with_store fs_state].
  - by rewrite Hf, fmap_app.
  - apply Forall_app. split; [done|]. apply Forall_singleton. by apply stamp_ok.
  - intros i m' [Hi|[Hi Hm']]%lookup_app_Some; [by apply Hs|].
    destruct (i - length l) as [|k] eqn:E; [|done]. cbn in Hm'. injection Hm' as <-.
    unfold out. rewrite stamp_seq by lia. f_equal. lia.
  - rewrite Hp, u64_add_small, length_app by (unfold u64_max, u64_modulus in *; lia). cbn. lia.
  - destruct (fs_state (sd_session b)); try done.
    + destruct Hst as (logon & l' & -> & Hl & Hr & Hall). exists logon, (l' ++ [out]).
      repeat split; try done. apply Forall_app. split; [done|]. by apply Forall_singleton.
    + apply Forall_app. split; [done|]. by apply Forall_singleton.
  - rewrite Hse, filter_app, (app_assoc done), (fmap_app _ (done ++ _)). f_equal.
    rewrite filter_cons, filter_nil, <- Happ. by destruct (is_app out).
  - done.
  - done.
Qed.

(** The channel from [a] does not depend on the inbox of [a] or what [a] receives. *)
Lemma channel_frame a b a' b' l done :
  channel a b l done →
  peek_out (fs_store (sd_session a')) = peek_out (fs_store (sd_session a)) →
  sd_sent a' = sd_sent a →
  current_in (fs_store (sd_session b')) = current_in (fs_store (sd_session b)) →
  fs_state (sd_session b') = fs_state (sd_session b) →
  sd_inbox b' = sd_inbox b → sd_delivered b' = sd_delivered b →
  channel a' b' l done.
Proof. intros [] H1 H2 H3 H4 H5 H6. split; rewrite ?H1, ?H2, ?H3, ?H4, ?H5, ?H6; done. Qed.

Definition sync (bound : N) (a b : Side) : Prop :=
  side_ok bound a ∧ side_ok bound b ∧ chan a b ∧ chan b a.

(** Sending: from an active side a message with the next number. *)
Lemma sync_push bound now m a b s' op :
  sync bound a b → (bound < u64_max)%N → message_ok m →
  (msg_type m = Some MtHeartbeat ∨ is_app m = true) →
  next_out (fs_store (sd_session a)) = (peek_out (fs_store (sd_session a)), s') →
  (if is_app m then ∃ m', op = SideApp m' else ∀ m', op ≠ SideApp m') →
  let out := fix_to_wire (stamp (fs_config (sd_session a)) (peek_out (fs_store (sd_session a))) now m) in
  sync (bound + 1)
    (mkSide (with_store s' (sd_session a)) (sd_inbox a) (sd_delivered a ++ [])
       (sd_sent a ++ match op with SideApp _ => [out] | _ => [] end))
    (mkSide (sd_session b) (sd_inbox b ++ [out]) (sd_delivered b) (sd_sent b)).
Proof.
  intros ([Hca Hba] & [Hcb Hbb] & (l & dn & Hab) & (l' & dn' & Hbaa)) Hb Hm Ht Hn Hop out.
  destruct (next_out_law (fs_store (sd_session a))) as (_ & Hp & Hcin). rewrite Hn in Hp, Hcin.
  cbn in Hp, Hcin. rewrite u64_add_small in Hp by (unfold u64_max, u64_modulus in *; lia).
  replace (match op with SideApp _ => [out] | _ => [] end) with (if is_app m then [out] else []).
  2:{ destruct (is_app m); [by destruct Hop as [m' ->]|]. destruct op as [m0| |]; [by destruct (Hop m0)|done..]. }
  rewrite app_nil_r. split; [|split; [|split]].
  - split; [done|]. cbn. lia.
  - split; [done|]. cbn. lia.
  - exists (l ++ [stamp (fs_config (sd_session a)) (peek_out (fs_store (sd_session a))) now m]), dn.
    apply channel_push; try done. lia.
  - exists l', dn'. by apply (channel_frame b a).
Qed.

(** Receiving: the first message of the inbox is accepted. *)
Lemma sync_deliver bound now a b f rest :
  sync bound a b → (bound < u64_max)%N → sd_inbox a = f :: rest →
  let '(x, out, app, _) := loop_step now (LeFrame (Some f)) (sd_session a) in
  sync bound
    (mkSide x rest (sd_delivered a ++ option_list app) (sd_sent a ++ []))
    (mkSide (sd_session b) (sd_inbox b ++ out) (sd_delivered b) (sd_sent b)).
Proof.
  intros ([Hca Hba] & [Hcb Hbb] & (l & dn & Hab) & (l' & dn' & [Hf Hok Hs Ho Hst Hse Hd Hdn])) Hb Hin.
  rewrite Hf in Hin. destruct l' as [|m l1]; [done|]. injection Hin as <- <-.
  apply Forall_cons in Hok as [Hm Hok]. pose proof (Hs 0 m eq_refl) as Hseq. rewrite N.add_0_r in Hseq.
  assert (∃ t, msg_type m = Some t ∧ is_reset_logon m = false ∧
    (match t with
     | MtLogon => fs_state (sd_session a) = LogonSent
     | MtHeartbeat => True
     | _ => MsgType_is_admin t = false end) ∧
    match t with MtLogon => SessActive | _ => fs_state (sd_session a) end = SessActive ∧
    Forall (λ m, msg_type m = Some MtHeartbeat ∨ is_app m = true) l1) as (t & Ht & Hr & Hcase & Hact & Hl1).
  { destruct (fs_state (sd_session a)) eqn:Est; try done.
    - destruct Hst as (logon & l2 & [= -> ->] & Hl & Hr & Hall). by exists MtLogon.
    - apply Forall_cons in Hst as [Hm0 Hall]. destruct Hm0 as [Hm0|Hm0].
      + exists MtHeartbeat. repeat split; try done. unfold is_reset_logon. by rewrite Hm0.
      + unfold is_app in Hm0. destruct (msg_type m) as [t|] eqn:Et; [|done].
        exists t. unfold is_reset_logon. rewrite Et. by destruct t. }
  cbn [loop_step]. rewrite fix_parse_to_wire by done.
  pose proof (handle_expected now (wire_fields m) (sd_session a) t) as H.
  rewrite wire_fields_seq, (wire_fields_type m t), (wire_fields_reset m t) in H by done.
  assert (Hbound : (current_in (fs_store (sd_session a)) < u64_max)%N) by (cbn in Ho; lia).
  specialize (H Hseq eq_refl Hr Hbound Hcase).
  destruct (handle_inbound now (wire_fields m) (sd_session a)) as [x o].
  destruct H as (Hcfg & Hcur & Hpk & Hstate & -> & ->). rewrite Hact in Hstate.
  cbn [fmap list_fmap]. rewrite !app_nil_r. split; [|split; [|split]].
  - split; cbn; [by rewrite Hcfg|by rewrite Hpk].
  - by split.
  - exists l, dn. by apply (channel_frame a b).
  - exists l1, (if is_app m then dn' ++ [m] else dn').
    assert (Hadm : is_app m = negb (MsgType_is_admin t)) by (unfold is_app; by rewrite Ht).
    split; cbn [sd_inbox sd_session sd_sent sd_delivered]; [done|done|..].
    + intros i m' Hi. rewrite Hcur. rewrite (Hs (S i) m' Hi). f_equal. lia.
    + rewrite Ho, Hcur. cbn [length]. lia.
    + by rewrite Hstate.
    + rewrite Hse, filter_cons. rewrite Hadm. destruct (MsgType_is_admin t); cbn; [done|].
      by rewrite <- app_assoc.
    + rewrite Hd, Hadm. destruct (MsgType_is_admin t); cbn; [by rewrite app_nil_r|].
      by rewrite fmap_app.
    + destruct (is_app m); [|done]. apply Forall_app. split; [done|]. by apply Forall_singleton.
Qed.

Lemma sync_weaken bound bound' a b : (bound ≤ bound')%N → sync bound a b → sync bound' a b.
Proof.
  intros Hle ([? ?] & [? ?] & ? & ?). unfold sync, side_ok. split_and!; try done; lia.
Qed.

Lemma sync_sym bound a b : sync bound a b → sync bound b a.
Proof. unfold sync. tauto. Qed.

Lemma next_out_eq (s : St) : next_out s = (peek_out s, (next_out s).2).
Proof. rewrite (surjective_pairing (next_out s)) at 1. by rewrite (proj1 (next_out_law s)). Qed.

Lemma side_step_sync bound now op a b :
  sync bound a b → (bound < u64_max)%N → op_ok op →
  let '(a', b') := side_step now op a b in sync (bound + 1) a' b'.
Proof.
  intros Hs Hb Hop.
  assert (Hidle : sync (bound + 1)
    (mkSide (sd_session a) (sd_inbox a) (sd_delivered a ++ []) (sd_sent a ++ []))
    (mkSide (sd_session b) (sd_inbox b ++ []) (sd_delivered b) (sd_sent b))).
  { rewrite !app_nil_r. apply (sync_weaken bound); [lia|]. by destruct a, b. }
  destruct op as [m| |]; unfold side_step.
  - destruct Hop as (Hm & t & Ht & Hadm). cbn [loop_step].
    destruct (decide (fs_state (sd_session a) = SessActive)); [|exact Hidle].
    unfold build_app_message. rewrite next_out_eq.
    assert (Happ : is_app m = true) by (unfold is_app; by rewrite Ht, Hadm).
    apply (sync_push bound now m a b _ (SideApp m)); [done|done|done|by right|apply next_out_eq|].
    rewrite Happ. by eauto.
  - cbn [loop_step]. destruct (decide (fs_state (sd_session a) = SessActive)); [|exact Hidle].
    unfold fix_heartbeat, build_heartbeat, finalize_outbound. rewrite next_out_eq.
    apply (sync_push bound now (of_type MtHeartbeat) a b _ SideTick);
      [done|done|by repeat constructor|by left|apply next_out_eq|done].
  - destruct (sd_inbox a) as [|f rest] eqn:E; [by apply (sync_weaken bound); [lia|]|].
    pose proof (sync_deliver bound now a b f rest Hs Hb E) as H.
    destruct (loop_step _ _ _) as [[[x out] app] stop]. apply (sync_weaken bound); [lia|exact H].
Qed.

Lemma net_run_sync ops bound a b :
  sync bound a b → (bound + N.of_nat (length ops) < u64_max)%N →
  Forall (λ op, op_ok op.2) ops →
  sync (bound + N.of_nat (length ops)) (net_run ops (a, b)).1 (net_run ops (a, b)).2.
Proof.
  intros Hs Hb Hops. revert bound a b Hs Hb. induction Hops as [|[[first now] op] ops Hop Hops IH];
    intros bound a b Hs Hb.
  { cbn. apply (sync_weaken bound); [lia|done]. }
  cbn [length net_run foldl net_step fst snd] in *.
  replace (bound + N.of_nat (S (length ops)))%N with (bound + 1 + N.of_nat (length ops))%N by lia.
  destruct first.
  - pose proof (side_step_sync bound now op a b Hs ltac:(lia) Hop) as H.
    destruct (side_step now op a b) as [a' b']. apply (IH (bound + 1)%N); [done|lia].
  - pose proof (side_step_sync bound now op b a (sync_sym _ _ _ Hs) ltac:(lia) Hop) as H.
    destruct (side_step now op b a) as [b' a']. apply (IH (bound + 1)%N); [by apply sync_sym|lia].
Qed.

(** The logon of a session that does not reset. *)
Lemma loop_start_spec now c (s : St) :
  fc_reset_on_logon c = false → config_ok c → (peek_out s < u64_max)%N →
  let '(x, out) := loop_start now (FixSession_new c s) in
  ∃ logon, out = [fix_to_wire logon] ∧ message_ok logon ∧ msg_type logon = Some MtLogon ∧
    is_reset_logon logon = false ∧ seq_num logon = Some (peek_out s) ∧
    fs_config x = c ∧ fs_state x = LogonSent ∧ peek_out (fs_store x) = (peek_out s + 1)%N ∧
    current_in (fs_store x) = current_in s.
Proof.
  intros Hr Hc Hb. unfold loop_start, build_logon, finalize_outbound. cbn [fs_config FixSession_new].
  rewrite Hr. cbn [fs_store]. rewrite next_out_eq.
  destruct (next_out_law s) as (_ & Hp & Hcin).
  rewrite u64_add_small in Hp by (unfold u64_max, u64_modulus in *; lia).
  eexists. split; [done|].
  assert (Hm0 : message_ok (fix_set HEART_BT_INT (uint_to_string (fc_heartbeat c))
    (fix_set ENCRYPT_METHOD "0" (of_type MtLogon)))).
  { apply fix_set_ok; [done|apply digits_clean, all_digits_uint|]. by repeat constructor. }
  split; [apply stamp_ok; [done|]; destruct (is_fixt _); [by apply fix_set_ok|done]|].
  split; [rewrite stamp_type; by destruct (is_fixt _)|].
  split; [unfold is_reset_logon; rewrite stamp_type, stamp_get by set_solver; by destruct (is_fixt _)|].
  split; [apply stamp_seq; lia|]. done.
Qed.

(** The channel right after the logons. *)
Lemma channel_logon (xa xb : FixSession (St := St)) ia la :
  fs_state xb = LogonSent → message_ok la → msg_type la = Some MtLogon →
  is_reset_logon la = false → seq_num la = Some (current_in (fs_store xb)) →
  peek_out (fs_store xa) = (current_in (fs_store xb) + 1)%N →
  channel (mkSide xa ia [] []) (mkSide xb [fix_to_wire la] [] []) [la] [].
Proof.
  intros Hst Hm Ht Hr Hs Hp. split; cbn [sd_inbox sd_session sd_sent sd_delivered].
  - done.
  - by apply Forall_singleton.
  - intros [|i] m Hi; [|done]. injection Hi as <-. by rewrite N.add_0_r.
  - exact Hp.
  - rewrite Hst. by exists la, [].
  - rewrite filter_cons_False, filter_nil; [done|]. unfold is_app. by rewrite Ht.
  - done.
  - done.
Qed.

(** What a channel says of the applications. *)
Lemma chan_delivery (a b : Side) :
  chan a b →
  (∃ k, inr <$> sd_delivered b = fix_parse <$> take k (sd_sent a) ∧
        (sd_inbox b = [] → k = length (sd_sent a))) ∧
  peek_out (fs_store (sd_session a)) =
    (current_in (fs_store (sd_session b)) + N.of_nat (length (sd_inbox b)))%N ∧
  (sd_inbox b = [] → fs_state (sd_session b) = SessActive).
Proof.
  intros (l & dn & [Hf Hok Hs Ho Hst Hse Hd Hdn]). split; [|split].
  - exists (length dn). rewrite Hd, Hse, fmap_app, take_app_length' by (by rewrite length_fmap). split.
    + clear - Hdn. induction Hdn as [|m dn Hm Hdn IH]; [done|]. cbn.
      rewrite fix_parse_to_wire by done. f_equal. exact IH.
    + rewrite Hf. intros El. destruct l; [|done]. by rewrite app_nil_r, length_fmap.
  - by rewrite Hf, length_fmap.
  - rewrite Hf. intros El. destruct l; [|done]. destruct (fs_state (sd_session b)); try done.
    by destruct Hst as (? & ? & ? & _).
Qed.


(** ** Recovery from a gap *)

Lemma wire_fields_get_u64 tag m :
  framing_tag tag = false → fix_get_u64 tag (wire_fields m) = fix_get_u64 tag m.
Proof. intros Ht. unfold fix_get_u64. by rewrite wire_fields_get. Qed.

(** The request for a resend of [from] on, and the fill up to [next]. *)
Definition resend_from (from : N) (m : FixMessage) (seq : N) : Prop :=
  msg_type m = Some MtResendRequest ∧ fix_get_u64 BEGIN_SEQ_NO m = Some from ∧
  fix_get_u64 END_SEQ_NO m = Some 0%N ∧ seq_num m = Some seq.

Definition fill_to (next : N) (m : FixMessage) : Prop :=
  msg_type m = Some MtSequenceReset ∧ fix_get_u64 NEW_SEQ_NO m = Some next ∧ is_Some (seq_num m).

(** The numbers of these messages are checked. *)
Lemma checked_message m t :
  msg_type m = Some t → t ≠ MtSequenceReset → is_reset_logon m = false →
  negb (match msg_type m with Some MtSequenceReset => true | _ => false end) &&
  negb (is_reset_logon m) = true.
Proof. intros -> Ht ->. by destruct t. Qed.

Lemma handle_gap now seq (b : FixSession (St := St)) m t :
  seq_num m = Some seq → msg_type m = Some t → t ≠ MtSequenceReset → is_reset_logon m = false →
  (current_in (fs_store b) < seq)%N → (current_in (fs_store b) ≤ u64_max)%N →
  (peek_out (fs_store b) < u64_max)%N →
  let '(b1, o1) := handle_inbound now m b in
  ∃ request, oc_outbound o1 = [request] ∧ oc_application o1 = None ∧
    oc_gap o1 = Some (current_in (fs_store b), seq) ∧
    current_in (fs_store b1) = current_in (fs_store b) ∧
    peek_out (fs_store b1) = (peek_out (fs_store b) + 1)%N ∧
    resend_from (current_in (fs_store b)) request (peek_out (fs_store b)).
Proof.
  intros Hseq Ht Htr Hr Hgap Hcur Hb. unfold handle_inbound.
  rewrite (checked_message m t), Hseq by done. cbn [andb]. rewrite (proj2 (N.ltb_lt _ _) Hgap).
  unfold build_resend_request, finalize_outbound. rewrite next_out_eq.
  destruct (next_out_law (fs_store b)) as (_ & Hpb & Hcb).
  rewrite u64_add_small in Hpb by (unfold u64_max, u64_modulus in *; lia).
  eexists. split; [done|]. split; [done|]. split; [done|]. split; [done|]. split; [done|].
  unfold resend_from, fix_get_u64. rewrite stamp_type, !stamp_get by set_solver.
  split; [done|]. split; [cbn; by apply parse_uint_to_string|]. split; [done|]. apply stamp_seq. lia.
Qed.

Lemma handle_resend now from (a : FixSession (St := St)) m :
  resend_from from m (current_in (fs_store a)) → (current_in (fs_store a) < u64_max)%N →
  (from ≤ u64_max)%N → (peek_out (fs_store a) ≤ u64_max)%N →
  let '(a1, o2) := handle_inbound now m a in
  ∃ fill, oc_outbound o2 = [fill] ∧
    current_in (fs_store a1) = (current_in (fs_store a) + 1)%N ∧
    peek_out (fs_store a1) = peek_out (fs_store a) ∧ fill_to (peek_out (fs_store a)) fill.
Proof.
  intros (Ht & Hfrom & Hend & Hseq) Hc Hf Hp. unfold handle_inbound, dispatch_inbound.
  rewrite Hseq, Ht, Hfrom, Hend, !N.ltb_irrefl, !andb_false_r.
  destruct (observed_in_law (current_in (fs_store a)) (fs_store a)) as [Hpa Hca].
  eexists. split; [done|]. cbn [observe fs_store with_store]. rewrite Hpa, Hca.
  split; [lia|]. split; [done|]. unfold fill_to, build_gap_fill, fix_get_u64.
  rewrite stamp_type, !stamp_get, stamp_seq by (done || set_solver). split; [done|].
  cbn [default N.eqb]. split; [|by eauto]. cbn. by apply parse_uint_to_string.
Qed.

Lemma handle_fill now next (b : FixSession (St := St)) m :
  fill_to next m → (1 ≤ next ≤ u64_max)%N → (current_in (fs_store b) ≤ next)%N →
  let '(b2, o3) := handle_inbound now m b in
  current_in (fs_store b2) = next ∧ oc_outbound o3 = [].
Proof.
  intros (Ht & Hn & [seq Hseq]) Hb Hle. unfold handle_inbound, dispatch_inbound.
  rewrite Hseq, Ht, Hn. cbn [negb andb]. rewrite (proj2 (N.leb_le 1 next)) by lia. cbn.
  destruct (observed_in_law (next - 1) (fs_store b)) as [_ ->]. split; [lia|done].
Qed.

(** The frames carry these messages unchanged. *)
Lemma resend_from_wire from m seq : resend_from from m seq → resend_from from (wire_fields m) seq.
Proof.
  intros (Ht & Hb & He & Hs). unfold resend_from.
  by rewrite (wire_fields_type m MtResendRequest Ht), !wire_fields_get_u64, wire_fields_seq.
Qed.

Lemma fill_to_wire next m : fill_to next m → fill_to next (wire_fields m).
Proof.
  intros (Ht & Hn & Hs). unfold fill_to.
  by rewrite (wire_fields_type m MtSequenceReset Ht), wire_fields_get_u64, wire_fields_seq.
Qed.

(** A gap is repaired in one exchange.  A session that sees a number above the one it
    expects asks for a resend from the expected number on and does not move; its peer
    answers with a gap fill; after it both sides agree on the next number again, whatever
    was lost.  A number below the expected one is ignored without effect. *)
Theorem fix_gap_repaired (now seq : N) (a b : FixSession (St := St)) (m : FixMessage) (t : MsgType) :
  seq_num m = Some seq → msg_type m = Some t → t ≠ MtSequenceReset → is_reset_logon m = false →
  (current_in (fs_store b) < seq)%N → (current_in (fs_store b) ≤ peek_out (fs_store a))%N →
  peek_out (fs_store b) = current_in (fs_store a) →
  (1 ≤ peek_out (fs_store a) ≤ u64_max)%N → (peek_out (fs_store b) < u64_max)%N →
  let '(b1, o1) := handle_inbound now m b in
  ∃ request, oc_outbound o1 = [request] ∧ oc_application o1 = None ∧
    oc_gap o1 = Some (current_in (fs_store b), seq) ∧
    current_in (fs_store b1) = current_in (fs_store b) ∧
  let '(a1, o2) := handle_inbound now (wire_fields request) a in
  ∃ fill, oc_outbound o2 = [fill] ∧
    current_in (fs_store a1) = peek_out (fs_store b1) ∧
    peek_out (fs_store a1) = peek_out (fs_store a) ∧
  let '(b2, o3) := handle_inbound now (wire_fields fill) b1 in
  current_in (fs_store b2) = peek_out (fs_store a1) ∧ oc_outbound o3 = [] ∧
  ∀ m' seq', seq_num m' = Some seq' → (seq' < current_in (fs_store b2))%N →
    msg_type m' = Some t → is_reset_logon m' = false →
    handle_inbound now m' b2 = (b2, mkOutcome [] None None true).
Proof.
  intros Hseq Ht Htr Hr Hgap Hle Hsync [Ha1 Ha2] Hb.
  pose proof (handle_gap now seq b m t Hseq Ht Htr Hr Hgap ltac:(lia) Hb) as H1.
  destruct (handle_inbound now m b) as [b1 o1].
  destruct H1 as (request & Ho1 & Happ & Hg & Hc1 & Hp1 & Hreq).
  exists request. do 4 (split; [done|]). rewrite Hsync in Hreq.
  pose proof (handle_resend now _ a _ (resend_from_wire _ _ _ Hreq) ltac:(lia) ltac:(lia) Ha2) as H2.
  destruct (handle_inbound now (wire_fields request) a) as [a1 o2].
  destruct H2 as (fill & Ho2 & Hca & Hpa & Hfill). exists fill.
  split; [done|]. split; [congruence|]. split; [done|].
  pose proof (handle_fill now _ b1 _ (fill_to_wire _ _ Hfill) ltac:(lia) ltac:(lia)) as H3.
  destruct (handle_inbound now (wire_fields fill) b1) as [b2 o3]. destruct H3 as [Hc2 Ho3].
  split; [congruence|]. split; [done|]. intros m' seq' Hs' Hlt Ht' Hr'.
  unfold handle_inbound. rewrite (checked_message m' t), Hs' by done. cbn [andb].
  by rewrite (proj2 (N.ltb_ge _ _)), (proj2 (N.ltb_lt _ _)) by lia.
Qed.
End network.

(** ** Witnesses *)

Definition demo_config (me you : string) (reset : bool) : FixSessionConfig :=
  mkFixConfig Fix44 me you 30 reset.

Lemma demo_config_ok me you reset : clean me → clean you → config_ok (demo_config me you reset).
Proof. by split. Qed.


Lemma fix_gap_repaired_witness :
  let a := mkFixSession (demo_config "A" "B" false) (mkSeqStore 9 4) SessActive in
  let b := mkFixSession (demo_config "B" "A" false) (mkSeqStore 4 5) SessActive in
  let m := stamp (demo_config "A" "B" false) 8 0 (of_type MtNewOrderSingle) in
  let '(b1, o1) := handle_inbound 0 m b in
  ∃ request, oc_outbound o1 = [request] ∧ oc_gap o1 = Some (5, 8)%N.
Proof.
  intros a b m.
  pose proof (fix_gap_repaired 0 8 a b m MtNewOrderSingle eq_refl eq_refl ltac:(done) eq_refl
    ltac:(done) ltac:(done) eq_refl ltac:(done) ltac:(done)) as H.
  destruct (handle_inbound 0 m b) as [b1 o1].
  destruct H as (request & Ho & _ & Hg & _). by exists request.
Defined.

(** With [reset_on_logon] on both sides, the reset on receipt of the peer's logon takes back
    the number of the own logon: the first message after it is taken for a duplicate and
    lost. *)
Lemma reset_on_logon_loses :
  let order := fix_set 55 "ABC" (of_type MtNewOrderSingle) in
  let ops := [(true, 1%N, SideDeliver); (false, 1%N, SideDeliver); (true, 2%N, SideApp order);
              (false, 3%N, SideDeliver)] in
  let '(a, b) := net_run ops (net_start 0 (demo_config "A" "B" true) (demo_config "B" "A" true)
                                SeqStore_new SeqStore_new) in
  length (sd_sent a) = 1 ∧ sd_inbox b = [] ∧ sd_delivered b = [].
Proof. by vm_compute. Qed.
