(* ===== verification/Outbox.v ===== *)
(** * Outbox, inbox and their stores
    ([crates/atomr-patterns/src/outbox/mod.rs], [outbox/journal_offset_store.rs],
    [inbox/mod.rs], [crates/atomr-persistence-query/src/lib.rs])

    The outbox relays the events of a journal to a publisher and remembers how far it got;
    the inbox drops messages whose key it has seen.  The publisher and the handler are
    functions on a state of their own, with the calls they got as a trace.  The loop of the
    outbox runs against any [ReadJournal] and any [OutboxOffsetStore]; the theorems use the
    specifications [JournalSpec] and [OffsetStoreSpec], which the in-memory stores meet. *)

From stdpp Require Import gmap strings list sorting.
From Stdlib Require Import NArith Lia Ascii.
From S2P Require Import Prelude Journal Eventsourced Encoding.

(** ** The read journal *)

Inductive Offset :=
  | NoOffset
  | OffsetSequence (n : N)
  | TimeBased (n : N).

Definition Offset_as_sequence (o : Offset) : option N :=
  match o with
  | NoOffset => Some 0%N
  | OffsetSequence n => Some n
  | TimeBased _ => None
  end.

Record EventEnvelope := mkEventEnvelope {
  ev_persistence_id : string;
  ev_sequence_nr : N;
  ev_payload : Bytes;
  ev_offset : N;
  ev_tags : list string;
  ev_manifest : string;
}.

Definition EventEnvelope_from (r : PersistentRepr) : EventEnvelope :=
  mkEventEnvelope (persistence_id r) (sequence_nr r) (payload r) (sequence_nr r) (tags r)
    (manifest r).

Class ReadJournal (R : Type) := {
  rj_events_by_persistence_id : string → N → N → R → JournalError + list EventEnvelope;
  rj_events_by_tag : string → Offset → R → JournalError + list EventEnvelope;
  rj_all_persistence_ids : R → JournalError + list string;
}.

Section read_journal.
Context {J : Type} `{Journal J}.

Definition Simple_events_by_persistence_id (pid : string) (from to : N) (j : J)
    : JournalError + list EventEnvelope :=
  match replay_messages pid from to u64_max j with
  | inl e => inl e
  | inr reprs => inr (EventEnvelope_from <$> reprs)
  end.

(** The scan of all streams, when the backend has no index; an error ends it. *)
Fixpoint scan_ids (tag : string) (from : N) (ids : list string) (out : list EventEnvelope)
    (j : J) : JournalError + list EventEnvelope :=
  match ids with
  | [] => inr out
  | id :: ids' =>
      match replay_messages id from u64_max u64_max j with
      | inl e => inl e
      | inr reprs =>
          scan_ids tag from ids'
            (out ++ (EventEnvelope_from <$> filter (λ r, tag ∈ tags r) reprs)) j
      end
  end.

Definition Simple_events_by_tag (tag : string) (offset : Offset) (j : J)
    : JournalError + list EventEnvelope :=
  let from := default 0%N (Offset_as_sequence offset) in
  match events_by_tag tag from u64_max j with
  | inl e => inl e
  | inr (r :: rs) => inr (EventEnvelope_from <$> r :: rs)
  | inr [] =>
      match all_persistence_ids j with
      | inl e => inl e
      | inr ids => scan_ids tag from ids [] j
      end
  end.

#[export] Instance SimpleReadJournal : ReadJournal J := {
  rj_events_by_persistence_id := Simple_events_by_persistence_id;
  rj_events_by_tag := Simple_events_by_tag;
  rj_all_persistence_ids := all_persistence_ids;
}.
End read_journal.

(** The default methods of the trait. *)
Section read_journal_defaults.
Context {R : Type} `{ReadJournal R}.

Definition current_events_by_persistence_id (pid : string) (from to : N) (r : R)
    : JournalError + list EventEnvelope := rj_events_by_persistence_id pid from to r.
Definition current_events_by_tag (tag : string) (o : Offset) (r : R)
    : JournalError + list EventEnvelope := rj_events_by_tag tag o r.
Definition current_persistence_ids (r : R) : JournalError + list string :=
  rj_all_persistence_ids r.
Definition events_as_of (pid : string) (_system_time : N) (r : R)
    : JournalError + list EventEnvelope := current_events_by_persistence_id pid 0 u64_max r.
Definition events_valid_as_of (pid : string) (_valid_time _system_time : N) (r : R)
    : JournalError + list EventEnvelope := current_events_by_persistence_id pid 0 u64_max r.
End read_journal_defaults.

(** ** Offset stores *)

Class OutboxOffsetStore (S : Type) := {
  offsets_load : S → gmap string N;
  offsets_save : gmap string N → S → S;
}.

(** What the relay relies on: a save overwrites the offsets it names and keeps the others. *)
Class OffsetStoreSpec (S : Type) `{OutboxOffsetStore S} :=
  offsets_load_save (o : gmap string N) (s : S) : offsets_load (offsets_save o s) = o ∪ offsets_load s.

Record InMemoryOffsetStore := mkOffsetStore { os_inner : gmap string N }.

Definition OffsetStore_new : InMemoryOffsetStore := mkOffsetStore ∅.
Definition OffsetStore_snapshot (s : InMemoryOffsetStore) : gmap string N := os_inner s.
Definition OffsetStore_load (s : InMemoryOffsetStore) : gmap string N := os_inner s.

(** [for (k, v) in offsets { guard.insert(k, v) }]. *)
Definition insert_all (offsets guard : gmap string N) : gmap string N :=
  map_fold (λ k v g, <[k := v]> g) guard offsets.
Definition OffsetStore_save (offsets : gmap string N) (s : InMemoryOffsetStore) : InMemoryOffsetStore :=
  mkOffsetStore (insert_all offsets (os_inner s)).

#[export] Instance InMemoryOffsetStore_ops : OutboxOffsetStore InMemoryOffsetStore := {
  offsets_load := OffsetStore_load;
  offsets_save := OffsetStore_save;
}.

Lemma insert_all_union offsets guard : insert_all offsets guard = offsets ∪ guard.
Proof.
  unfold insert_all. induction offsets as [|k v m Hk Hf IH] using map_first_key_ind.
  - by rewrite map_fold_empty, (left_id_L ∅ (∪)).
  - rewrite map_fold_insert_first_key by done. by rewrite IH, insert_union_l.
Qed.

#[export] Instance InMemoryOffsetStore_spec : OffsetStoreSpec InMemoryOffsetStore.
Proof. intros o s. cbn. unfold OffsetStore_load, OffsetStore_save. cbn. apply insert_all_union. Qed.

(** ** The relay *)

(** The offsets, the counter, the state of the publisher and, as a trace, the envelopes whose
    publication was accepted. *)
Record Relay (W : Type) := mkRelay {
  pid_offsets : gmap string N;
  published : N;
  sink : W;
  accepted : list EventEnvelope;
}.
Arguments mkRelay {W} _ _ _ _.
Arguments pid_offsets {W} _.
Arguments published {W} _.
Arguments sink {W} _.
Arguments accepted {W} _.

Section relay.
Context {R E W St : Type} `{ReadJournal R} `{OutboxOffsetStore St}.
Context (decode : Bytes → string + E) (publish : E → W → bool * W).

(** The events of one persistence id; a refusal ends the loop. *)
Fixpoint publish_events (pid : string) (envs : list EventEnvelope) (x : Relay W) : Relay W :=
  match envs with
  | [] => x
  | env :: rest =>
      let advanced := <[pid := ev_sequence_nr env]> (pid_offsets x) in
      match decode (ev_payload env) with
      | inr event =>
          let '(ok, w) := publish event (sink x) in
          if ok
          then publish_events pid rest
                 (mkRelay advanced (u64_add (published x) 1) w (accepted x ++ [env]))
          else mkRelay (pid_offsets x) (published x) w (accepted x)
      | inl _ => publish_events pid rest (mkRelay advanced (published x) (sink x) (accepted x))
      end
  end.

(** [pid_offsets.get(&pid).copied().unwrap_or(0).saturating_add(1)]. *)
Definition next_from (pid : string) (offsets : gmap string N) : N :=
  N.min (default 0%N (offsets !! pid) + 1) u64_max.

Fixpoint poll_pids (pids : list string) (r : R) (x : Relay W) : Relay W :=
  match pids with
  | [] => x
  | pid :: pids' =>
      match rj_events_by_persistence_id pid (next_from pid (pid_offsets x)) u64_max r with
      | inl _ => poll_pids pids' r x
      | inr envs => poll_pids pids' r (publish_events pid envs x)
      end
  end.

(** One round of the loop. *)
Definition poll (r : R) (x : Relay W) (s : St) : Relay W * St :=
  match rj_all_persistence_ids r with
  | inl _ => (x, s)
  | inr pids => let x := poll_pids pids r x in (x, offsets_save (pid_offsets x) s)
  end.

(** [materialize]: the task loads the offsets; the counter is new. *)
Definition relay_start (s : St) (w : W) (trace : list EventEnvelope) : Relay W :=
  mkRelay (offsets_load s) 0 w trace.

(** A publisher that is gone after [n] calls. *)
Definition publish_until_crash (e : E) (nw : nat * W) : bool * (nat * W) :=
  match nw.1 with
  | O => (false, nw)
  | S n => let '(ok, w) := publish e nw.2 in (ok, (n, w))
  end.
End relay.

(** ** The outbox with its journal, in time

    Other tasks write to the journal and delete from it; the relay polls, is restarted
    between two rounds, or crashes in a round after [n] publications and is restarted: what
    it published stays published, its offsets are those of the store. *)
Inductive OutboxOp :=
  | ObWrite (ms : list PersistentRepr)
  | ObDelete (pid : string) (to : N)
  | ObPoll
  | ObRestart
  | ObCrash (n : nat).

Record Outbox (J W S : Type) := mkOutbox {
  ob_journal : J;
  ob_relay : Relay W;
  ob_store : S;
}.
Arguments mkOutbox {J W S} _ _ _.
Arguments ob_journal {J W S} _.
Arguments ob_relay {J W S} _.
Arguments ob_store {J W S} _.

Section outbox.
Context {J E W S : Type} `{Journal J} `{OutboxOffsetStore S}.
Context (decode : Bytes → string + E) (publish : E → W → bool * W).

Definition crash_round (n : nat) (x : Outbox J W S) : Relay W :=
  let r := ob_relay x in
  let seen := match rj_all_persistence_ids (ob_journal x) with
              | inl _ => mkRelay (pid_offsets r) 0 (n, sink r) (accepted r)
              | inr pids => poll_pids decode (publish_until_crash publish) pids (ob_journal x)
                              (mkRelay (pid_offsets r) 0 (n, sink r) (accepted r))
              end in
  relay_start (ob_store x) (sink seen).2 (accepted seen).

Definition outbox_step (x : Outbox J W S) (op : OutboxOp) : Outbox J W S :=
  let '(mkOutbox j r s) := x in
  match op with
  | ObWrite ms => mkOutbox (write_messages ms j).1 r s
  | ObDelete pid to => mkOutbox (delete_messages_to pid to j).1 r s
  | ObPoll => let '(r, s) := poll decode publish j r s in mkOutbox j r s
  | ObRestart => mkOutbox j (relay_start s (sink r) (accepted r)) s
  | ObCrash n => mkOutbox j (crash_round n x) s
  end.

Definition outbox_run (ops : list OutboxOp) (x : Outbox J W S) : Outbox J W S :=
  foldl outbox_step x ops.

Definition outbox_start (j : J) (w : W) (s : S) : Outbox J W S :=
  mkOutbox j (relay_start s w []) s.
End outbox.

(** ** The inbox *)

Class InboxStore (S : Type) := {
  was_seen : string → S → bool;
  mark_seen : string → S → S;
}.

Class InboxStoreSpec (S : Type) `{InboxStore S} :=
  was_seen_mark (k k' : string) (s : S) : was_seen k (mark_seen k' s) = bool_decide (k = k') || was_seen k s.

Record InMemoryInboxStore := mkInboxStore { ib_inner : gset string }.
Definition InboxStore_new : InMemoryInboxStore := mkInboxStore ∅.
Definition InboxStore_was_seen (k : string) (s : InMemoryInboxStore) : bool :=
  bool_decide (k ∈ ib_inner s).
Definition InboxStore_mark_seen (k : string) (s : InMemoryInboxStore) : InMemoryInboxStore :=
  mkInboxStore ({[k]} ∪ ib_inner s).
#[export] Instance InMemoryInboxStore_ops : InboxStore InMemoryInboxStore := {
  was_seen := InboxStore_was_seen;
  mark_seen := InboxStore_mark_seen;
}.
#[export] Instance InMemoryInboxStore_spec : InboxStoreSpec InMemoryInboxStore.
Proof.
  intros k k' s. cbn. unfold InboxStore_was_seen. cbn.
  destruct (decide (k = k')), (decide (k ∈ ib_inner s)); rewrite ?bool_decide_true, ?bool_decide_false by set_solver; try done;
    rewrite ?(bool_decide_false (_ = _)), ?bool_decide_true, ?bool_decide_false by set_solver; done.
Qed.

Section inbox.
Context {E W S : Type} `{InboxStore S}.
Context (key : E → string) (handler : E → W → bool * W).

(** The store, the state of the handler and the calls the handler got, with its answers. *)
Record Inbox := mkInbox {
  in_store : S;
  in_handler : W;
  in_calls : list (E * bool);
}.

Definition inbox_receive (x : Inbox) (msg : E) : Inbox :=
  let k := key msg in
  if was_seen k (in_store x) then x
  else let '(ok, w) := handler msg (in_handler x) in
       mkInbox (if ok then mark_seen k (in_store x) else in_store x) w
         (in_calls x ++ [(msg, ok)]).

(** The loop over the messages of the channel. *)
Definition inbox_run (msgs : list E) (x : Inbox) : Inbox := foldl inbox_receive x msgs.
End inbox.
Arguments Inbox : clear implicits.
Arguments mkInbox {E W S} _ _ _.
Arguments in_store {E W S} _.
Arguments in_handler {E W S} _.
Arguments in_calls {E W S} _.

(** ** Well-numbered journals *)

Section numbered.
Context {J : Type} `{HJ : JournalSpec J}.

(** Every stream is numbered from one, with room for [room] more records. *)
Definition well_numbered (room : N) (j : J) : Prop :=
  ∀ pid, numbered pid 1 (journal_view j pid) ∧
    (N.of_nat (length (journal_view j pid)) + room < u64_max)%N.

Definition op_room (op : OutboxOp) : N :=
  match op with ObWrite ms => N.of_nat (length ms) | _ => 0 end.
Definition ops_room (ops : list OutboxOp) : N := foldr (λ op n, op_room op + n)%N 0%N ops.

(** A batch belongs to one stream. *)
Definition one_stream (op : OutboxOp) : Prop :=
  match op with ObWrite ms => ∃ pid n, numbered pid n ms | _ => True end.

Lemma numbered_pid pid n l : numbered pid n l → Forall (λ r, persistence_id r = pid) l.
Proof. revert n; induction l; cbn; intros n; [constructor|]. intros (? & ? & ?). constructor; eauto. Qed.

Lemma numbered_mark pid n to l : numbered pid n l → numbered pid n (mark_deleted to <$> l).
Proof.
  revert n; induction l as [|r l IH]; cbn; [done|]. intros n (Hp & Hn & Hl).
  unfold mark_deleted at 1 2. case_match; cbn; eauto.
Qed.

Lemma write_view room j ms pid n :
  numbered pid n ms → well_numbered (N.of_nat (length ms) + room) j →
  well_numbered room (write_messages ms j).1 ∧
  ∃ ext, journal_view (write_messages ms j).1 pid = journal_view j pid ++ ext ∧ (ext = ms ∨ ext = []) ∧
    ∀ q, q ≠ pid → journal_view (write_messages ms j).1 q = journal_view j q.
Proof.
  intros Hms Hw.
  assert (∃ ext, length ext ≤ length ms ∧ numbered pid (expected_nr (journal_view j pid)) ext ∧
    journal_view (write_messages ms j).1 pid = journal_view j pid ++ ext ∧ (ext = ms ∨ ext = []) ∧
    ∀ q, q ≠ pid → journal_view (write_messages ms j).1 q = journal_view j q)
    as (ext & Hlen & Hext & Hp & He & Hq).
  { assert (Hoth : ∀ q, q ≠ pid → journal_view (write_messages ms j).1 q = journal_view j q).
    { intros q Hq. apply journal_write_other. eapply Forall_impl; [by eapply numbered_pid|].
      by intros r ->. }
    destruct (decide (n = expected_nr (journal_view j pid))) as [->|Hn].
    { destruct (journal_write_ok j pid ms Hms) as (j' & Hj & Hv). exists ms. rewrite Hj. rewrite Hj in Hoth. by eauto 6. }
    destruct ms as [|m ms].
    { destruct (journal_write_ok j pid [] I) as (j' & Hj & Hv). exists []. rewrite Hj. rewrite Hj in Hoth. by eauto 6. }
    destruct Hms as (Hp & Hm & _). subst pid n.
    destruct (journal_write_rejected j m ms Hn) as (j' & Hj & Hv).
    exists []. rewrite Hj, app_nil_r. cbn. split_and!; [lia|done|apply Hv|by right|by intros q _]. }
  split; [|by exists ext].
  intros q. destruct (decide (q = pid)) as [->|Hne].
  - rewrite Hp, length_app. destruct (Hw pid) as [Hnum Hb]. unfold u64_max in *. split; [|lia].
    destruct (numbered_last _ _ Hnum) as [_ Hexp]; [unfold u64_modulus; lia|].
    rewrite Hexp, u64_add_small in Hext by (unfold u64_modulus; lia).
    apply numbered_app; [unfold u64_modulus; lia|done|]. by rewrite N.add_comm.
  - rewrite Hq by done. destruct (Hw q). split; [done|lia].
Qed.

Lemma delete_view room j pid to :
  well_numbered room j →
  well_numbered room (delete_messages_to pid to j).1.
Proof.
  intros Hw q. rewrite journal_delete. case_decide; [|apply Hw].
  rewrite length_fmap. destruct (Hw q). split; [by apply numbered_mark|done].
Qed.

Lemma view_lookup room j pid i r :
  well_numbered room j → journal_view j pid !! i = Some r →
  sequence_nr r = (1 + N.of_nat i)%N ∧ persistence_id r = pid.
Proof.
  intros Hw Hr. destruct (Hw pid) as [Hn Hb]. split.
  - eapply numbered_lookup; [done| |done]. unfold u64_max, u64_modulus in *. lia.
  - by eapply Forall_lookup_1 in Hr; [|eapply numbered_pid, Hn].
Qed.
End numbered.

(** ** What a round does to one stream *)

Section publish.
Context {E W : Type} (decode : Bytes → string + E) (publish : E → W → bool * W).

Definition decodes (r : PersistentRepr) : bool :=
  match decode (payload r) with inr _ => true | inl _ => false end.

(** The offset after the records [l] were dealt with. *)
Definition advance (pid : string) (l : list PersistentRepr) (o : gmap string N) : gmap string N :=
  match last l with Some r => <[pid := sequence_nr r]> o | None => o end.

Lemma advance_cons pid r l o : advance pid (r :: l) o = advance pid l (<[pid := sequence_nr r]> o).
Proof.
  unfold advance. rewrite last_cons. destruct (last l); [|done]. by rewrite insert_insert_eq.
Qed.

Lemma publish_events_spec pid l x :
  let x' := publish_events decode publish pid (EventEnvelope_from <$> l) x in
  ∃ dealt rest, l = dealt ++ rest ∧
    accepted x' = accepted x ++ (EventEnvelope_from <$> filter (λ r, decodes r) dealt) ∧
    pid_offsets x' = advance pid dealt (pid_offsets x) ∧
    ((∀ e w, (publish e w).1 = true) → rest = []).
Proof.
  revert x; induction l as [|r l IH]; intros x; cbn [fmap list_fmap publish_events].
  { exists [], []. cbn. by rewrite app_nil_r. }
  cbn [ev_payload ev_sequence_nr EventEnvelope_from].
  destruct (decode (payload r)) as [err|event] eqn:Hd.
  - destruct (IH (mkRelay (<[pid:=sequence_nr r]> (pid_offsets x)) (published x) (sink x) (accepted x)))
      as (dealt & rest & -> & Ha & Ho & Hr).
    exists (r :: dealt), rest. split_and!; [done| | |done].
    + assert (¬ decodes r) by (unfold decodes; rewrite Hd; by intros []).
      rewrite Ha. by rewrite filter_cons_False.
    + by rewrite Ho, advance_cons.
  - destruct (publish event (sink x)) as [ok w] eqn:Hp. destruct ok.
    + destruct (IH (mkRelay (<[pid:=sequence_nr r]> (pid_offsets x)) (u64_add (published x) 1) w
                      (accepted x ++ [EventEnvelope_from r])))
        as (dealt & rest & -> & Ha & Ho & Hr).
      exists (r :: dealt), rest. split_and!; [done| | |done].
      * assert (decodes r) by (unfold decodes; by rewrite Hd).
        cbn [accepted] in Ha. rewrite Ha, filter_cons_True by done. by rewrite <- app_assoc.
      * by rewrite Ho, advance_cons.
    + exists [], (r :: l). cbn. split_and!; [done|by rewrite app_nil_r|done|].
      intros Hall. specialize (Hall event (sink x)). by rewrite Hp in Hall.
Qed.
End publish.

(** ** The invariant of the relay *)

Section sorted.
Context {A : Type} (R : relation A).

Lemma sorted_lookup l i k a b :
  StronglySorted R l → i < k → l !! i = Some a → l !! k = Some b → R a b.
Proof.
  intros Hl. revert i k; induction Hl as [|x l Hl IH Hx]; intros i k Hik Hi Hk; [done|].
  destruct k as [|k]; [lia|]. cbn in Hk. destruct i as [|i]; cbn in Hi.
  - simplify_eq. eapply Forall_forall; [done|]. by eapply list_elem_of_lookup_2.
  - eapply (IH i k); [lia|done|done].
Qed.

Lemma lookup_sorted l :
  (∀ i k a b, i < k → l !! i = Some a → l !! k = Some b → R a b) → StronglySorted R l.
Proof.
  induction l as [|x l IH]; intros Hl; constructor.
  - apply IH. intros i k a b Hik Hi Hk. apply (Hl (S i) (S k)); [lia|done|done].
  - apply Forall_lookup. intros k b Hk. apply (Hl 0 (S k)); [lia|done|done].
Qed.
End sorted.

Definition earlier (a b : PersistentRepr) : Prop := (sequence_nr a < sequence_nr b)%N.

(** An element below another one of a sorted list comes before it. *)
Lemma sorted_before l i a b :
  StronglySorted earlier l → l !! i = Some b → a ∈ l → earlier a b →
  ∃ k, k < i ∧ l !! k = Some a.
Proof.
  intros Hl Hi [k Hk]%list_elem_of_lookup Hab. unfold earlier in Hab. exists k. split; [|done].
  destruct (decide (k < i)); [done|]. destruct (decide (k = i)) as [->|]; [simplify_eq; lia|].
  pose proof (sorted_lookup _ _ i k b a Hl ltac:(lia) Hi Hk) as Hlt. unfold earlier in Hlt. lia.
Qed.

Section relay_inv.
Context {J : Type} `{HJ : JournalSpec J}.
Context {E W : Type} (decode : Bytes → string + E) (publish : E → W → bool * W).

(** The records that are to be published. *)
Definition due (j : J) (pid : string) (r : PersistentRepr) : Prop :=
  r ∈ journal_view j pid ∧ deleted r = false ∧ decodes decode r.

Definition offset_of (o : gmap string N) (pid : string) : N := default 0%N (o !! pid).

(** Everything due up to the offset has been accepted. *)
Definition covered (j : J) (o : gmap string N) (acc : list EventEnvelope) : Prop :=
  ∀ pid r, due j pid r → (sequence_nr r ≤ offset_of o pid)%N → EventEnvelope_from r ∈ acc.

(** Whenever an event is accepted, everything due before it has been accepted earlier. *)
Definition in_order (j : J) (acc : list EventEnvelope) : Prop :=
  ∀ i env r, acc !! i = Some env → due j (ev_persistence_id env) r →
    (sequence_nr r < ev_sequence_nr env)%N →
    ∃ k, k < i ∧ acc !! k = Some (EventEnvelope_from r).

(** Accepted events are in the journal. *)
Definition sourced (j : J) (acc : list EventEnvelope) : Prop :=
  ∀ env, env ∈ acc →
    (ev_sequence_nr env ≤ N.of_nat (length (journal_view j (ev_persistence_id env))))%N.

(** No event is accepted twice, and those of a stream come in its order. *)
Definition increasing (acc : list EventEnvelope) : Prop :=
  ∀ i k e1 e2, i < k → acc !! i = Some e1 → acc !! k = Some e2 →
    ev_persistence_id e1 = ev_persistence_id e2 → (ev_sequence_nr e1 < ev_sequence_nr e2)%N.

Definition below (o : gmap string N) (acc : list EventEnvelope) : Prop :=
  ∀ env, env ∈ acc → (ev_sequence_nr env ≤ offset_of o (ev_persistence_id env))%N.

Lemma view_sorted room j pid : well_numbered room j → StronglySorted earlier (journal_view j pid).
Proof.
  intros Hw. apply lookup_sorted. intros i k a b Hik Ha Hb. unfold earlier.
  destruct (view_lookup _ _ _ _ _ Hw Ha) as [-> _], (view_lookup _ _ _ _ _ Hw Hb) as [-> _]. lia.
Qed.

(** The records a round reads of a stream. *)
Definition unread (j : J) (pid : string) (o : gmap string N) : list PersistentRepr :=
  filter (replayable (next_from pid o) u64_max) (journal_view j pid).

Lemma events_unread room j pid o :
  well_numbered room j →
  rj_events_by_persistence_id pid (next_from pid o) u64_max j =
    inr (EventEnvelope_from <$> unread j pid o).
Proof.
  intros Hw. cbn. unfold Simple_events_by_persistence_id. rewrite journal_replay. f_equal. f_equal.
  apply take_N_all. destruct (Hw pid) as [_ Hb].
  pose proof (length_filter (replayable (next_from pid o) u64_max) (journal_view j pid)).
  unfold unread in *. lia.
Qed.

Lemma elem_of_unread room j pid o r :
  well_numbered room j →
  r ∈ unread j pid o ↔
    r ∈ journal_view j pid ∧ deleted r = false ∧ (offset_of o pid < sequence_nr r)%N.
Proof.
  intros Hw. unfold unread, replayable, next_from, offset_of. rewrite list_elem_of_filter.
  assert (r ∈ journal_view j pid → (sequence_nr r < u64_max)%N) as Hlt.
  { intros [i Hi]%list_elem_of_lookup. destruct (view_lookup _ _ _ _ _ Hw Hi) as [-> _].
    apply lookup_lt_Some in Hi. destruct (Hw pid). lia. }
  split.
  - intros ((Hd & Hf & _) & Hr). specialize (Hlt Hr). split_and!; [done|done|lia].
  - intros (Hr & Hd & Ho). specialize (Hlt Hr). split_and!; [done|lia|lia|done].
Qed.
Lemma offset_advance_ne pid dealt o q : q ≠ pid → offset_of (advance pid dealt o) q = offset_of o q.
Proof. intros Hq. unfold advance, offset_of. case_match; [|done]. by rewrite lookup_insert_ne. Qed.

Lemma offset_advance pid dealt o :
  offset_of (advance pid dealt o) pid =
    match last dealt with Some r => sequence_nr r | None => offset_of o pid end.
Proof. unfold advance, offset_of. case_match; [|done]. by rewrite lookup_insert_eq. Qed.

Section one_stream.
Context (room : N) (j : J) (pid : string) (o : gmap string N) (acc : list EventEnvelope).
Context (dealt rest : list PersistentRepr).
Hypothesis Hw : well_numbered room j.
Hypothesis Hl : unread j pid o = dealt ++ rest.
Let o' := advance pid dealt o.
Let news := EventEnvelope_from <$> filter (λ r, decodes decode r) dealt.

Lemma dealt_sorted : StronglySorted earlier (dealt ++ rest).
Proof. rewrite <- Hl. eapply sorted_filter, view_sorted, Hw. Qed.

Lemma elem_of_dealt r :
  r ∈ dealt → r ∈ journal_view j pid ∧ deleted r = false ∧ (offset_of o pid < sequence_nr r)%N.
Proof. intros Hr. rewrite <- (elem_of_unread room) by done. rewrite Hl. set_solver. Qed.

Lemma dealt_pid r : r ∈ dealt → persistence_id r = pid.
Proof.
  intros (Hr & _)%elem_of_dealt. apply list_elem_of_lookup in Hr as [i Hi].
  exact (proj2 (view_lookup _ _ _ _ _ Hw Hi)).
Qed.

(** A live record after the old offset and up to the new one has been dealt with. *)
Lemma dealt_upto r :
  r ∈ journal_view j pid → deleted r = false → (offset_of o pid < sequence_nr r)%N →
  (sequence_nr r ≤ offset_of o' pid)%N → r ∈ dealt.
Proof.
  unfold o'. rewrite offset_advance. intros Hr Hd Ho. destruct (last dealt) as [z|] eqn:Ez; [|lia].
  intros Hz. assert (Hin : r ∈ dealt ++ rest) by (rewrite <- Hl; by apply (elem_of_unread room)).
  apply elem_of_app in Hin as [?|Hrest]; [done|]. exfalso.
  apply last_Some_elem_of in Ez.
  pose proof (StronglySorted_app_1_elem_of _ _ _ _ _ dealt_sorted Ez Hrest) as Hlt. unfold earlier in Hlt. lia.
Qed.

Lemma elem_of_news env :
  env ∈ news ↔ ∃ r, env = EventEnvelope_from r ∧ r ∈ dealt ∧ decodes decode r.
Proof.
  unfold news. rewrite list_elem_of_fmap. setoid_rewrite list_elem_of_filter. naive_solver.
Qed.

Lemma covered_step : covered j o acc → covered j o' (acc ++ news).
Proof.
  intros Hc q r Hdue Hs. apply elem_of_app.
  destruct (decide (q = pid)) as [->|Hq].
  - destruct (decide (sequence_nr r ≤ offset_of o pid)%N) as [Hle|Hgt]; [left; by eapply Hc|].
    right. apply elem_of_news. exists r. destruct Hdue as (Hr & Hd & Hdec).
    split_and!; [done| |done]. apply dealt_upto; [done|done|lia|done].
  - left. apply (Hc q); [done|]. unfold o' in Hs. by rewrite offset_advance_ne in Hs.
Qed.

Lemma in_order_step : covered j o acc → in_order j acc → in_order j (acc ++ news).
Proof.
  intros Hc Ho i env r Hi Hdue Hs. apply lookup_app_Some in Hi as [Hi|[Hge Hi]].
  { destruct (Ho i env r Hi Hdue Hs) as (k & Hk & Hlk). exists k. split; [done|].
    by apply lookup_app_l_Some. }
  unfold news in Hi. rewrite list_lookup_fmap in Hi. apply fmap_Some in Hi as (x & Hi & ->).
  cbn [ev_persistence_id ev_sequence_nr EventEnvelope_from] in *.
  assert (Hx : x ∈ dealt).
  { by apply list_elem_of_lookup_2, list_elem_of_filter in Hi as [_ ?]. }
  rewrite (dealt_pid x Hx) in Hdue. pose proof Hdue as (Hr & Hd & Hdec).
  destruct (decide (sequence_nr r ≤ offset_of o pid)%N) as [Hle|Hgt].
  { destruct (list_elem_of_lookup_1 _ _ (Hc pid r Hdue Hle)) as [k Hk].
    exists k. split; [by apply lookup_lt_Some in Hk; lia|]. by apply lookup_app_l_Some. }
  assert (Hrd : r ∈ dealt).
  { assert (Hin : r ∈ dealt ++ rest).
    { rewrite <- Hl. apply (elem_of_unread room); [done|]. split_and!; [done|done|lia]. }
    apply elem_of_app in Hin as [?|Hrest]; [done|]. exfalso.
    pose proof (StronglySorted_app_1_elem_of _ _ _ _ _ dealt_sorted Hx Hrest) as Hearly. unfold earlier in Hearly. lia. }
  destruct (sorted_before (filter (λ r, decodes decode r) dealt) (i - length acc) r x)
    as (k & Hk & Hlk); [|done|by apply list_elem_of_filter|done|].
  { eapply sorted_filter, StronglySorted_app_1_l, dealt_sorted. }
  exists (length acc + k). split; [lia|]. rewrite lookup_app_r by lia.
  replace (length acc + k - length acc) with k by lia. unfold news. by rewrite list_lookup_fmap, Hlk.
Qed.

Lemma sourced_step : sourced j acc → sourced j (acc ++ news).
Proof.
  intros Hs env [?|He]%elem_of_app; [by apply Hs|]. apply elem_of_news in He as (r & -> & Hr & _).
  cbn. rewrite (dealt_pid r Hr). apply elem_of_dealt in Hr as (Hr & _).
  apply list_elem_of_lookup in Hr as [i Hi]. rewrite (proj1 (view_lookup _ _ _ _ _ Hw Hi)).
  apply lookup_lt_Some in Hi. lia.
Qed.

Lemma below_step : below o acc → below o' (acc ++ news).
Proof.
  intros Hb env [He|He]%elem_of_app.
  - specialize (Hb env He). unfold o'. destruct (decide (ev_persistence_id env = pid)) as [Hp|Hp].
    + rewrite Hp in *. rewrite offset_advance. destruct (last dealt) as [z|] eqn:Ez; [|done].
      apply last_Some_elem_of, elem_of_dealt in Ez as (_ & _ & ?). lia.
    + by rewrite offset_advance_ne.
  - apply elem_of_news in He as (r & -> & Hr & _). cbn. rewrite (dealt_pid r Hr). unfold o'.
    rewrite offset_advance. destruct (last dealt) as [z|] eqn:Ez.
    + apply list_elem_of_lookup in Hr as [i Hi]. rewrite last_lookup in Ez.
      apply lookup_lt_Some in Hi as Hlt.
      destruct (decide (i = pred (length dealt))) as [->|]; [simplify_eq; lia|].
      pose proof (sorted_lookup _ _ i (pred (length dealt)) r z
        (StronglySorted_app_1_l _ _ _ dealt_sorted) ltac:(lia) Hi Ez) as Hearly. unfold earlier in Hearly. lia.
    + apply last_None in Ez as ->. by apply not_elem_of_nil in Hr.
Qed.

Lemma increasing_step : below o acc → increasing acc → increasing (acc ++ news).
Proof.
  intros Hb Hi i k e1 e2 Hik H1 H2 Hp.
  apply lookup_app_Some in H2 as [H2|[Hge H2]].
  { apply lookup_lt_Some in H2 as Hlt. rewrite lookup_app_l in H1 by lia. by eapply (Hi i k). }
  unfold news in H2. rewrite list_lookup_fmap in H2. apply fmap_Some in H2 as (x & H2 & ->). cbn in *.
  assert (Hx : x ∈ dealt) by (by apply list_elem_of_lookup_2, list_elem_of_filter in H2 as [_ ?]).
  apply lookup_app_Some in H1 as [H1|[Hge1 H1]].
  - apply list_elem_of_lookup_2, Hb in H1. rewrite Hp, (dealt_pid x Hx) in H1.
    apply elem_of_dealt in Hx as (_ & _ & ?). lia.
  - unfold news in H1. rewrite list_lookup_fmap in H1. apply fmap_Some in H1 as (y & H1 & ->). cbn.
    refine (sorted_lookup earlier _ (i - length acc) (k - length acc) y x _ _ H1 H2); [|lia].
    eapply sorted_filter, StronglySorted_app_1_l, dealt_sorted.
Qed.
End one_stream.
End relay_inv.

(** What every stream of a round preserves, the round preserves. *)
Lemma poll_pids_ind {J} `{HJ : JournalSpec J} {E W} (decode : Bytes → string + E)
    (publish : E → W → bool * W) (room : N) (j : J) (P : gmap string N → list EventEnvelope → Prop) :
  well_numbered room j →
  (∀ pid o acc dealt rest, unread j pid o = dealt ++ rest → P o acc →
     P (advance pid dealt o) (acc ++ (EventEnvelope_from <$> filter (λ r, decodes decode r) dealt))) →
  ∀ pids x, P (pid_offsets x) (accepted x) →
    let x' := poll_pids decode publish pids j x in P (pid_offsets x') (accepted x').
Proof.
  intros Hw HP pids. induction pids as [|pid pids IH]; intros x Hx; [done|].
  cbn [poll_pids]. rewrite (events_unread room) by done. apply IH.
  destruct (publish_events_spec decode publish pid (unread j pid (pid_offsets x)) x)
    as (dealt & rest & Hl & -> & -> & _). by eapply HP.
Qed.

(** A round in which every publication succeeds leaves nothing due behind. *)
Lemma poll_pids_all {J} `{HJ : JournalSpec J} {E W} (decode : Bytes → string + E)
    (publish : E → W → bool * W) (room : N) (j : J) pids x pid r :
  well_numbered room j → (∀ e w, (publish e w).1 = true) →
  covered decode j (pid_offsets x) (accepted x) → pid ∈ pids → due decode j pid r →
  EventEnvelope_from r ∈ accepted (poll_pids decode publish pids j x).
Proof.
  intros Hw Hall. revert x; induction pids as [|q pids IH]; intros x Hc Hpid Hdue.
  { by apply not_elem_of_nil in Hpid. }
  cbn [poll_pids]. rewrite (events_unread room) by done.
  destruct (publish_events_spec decode publish q (unread j q (pid_offsets x)) x)
    as (dealt & rest & Hl & Ha & Ho & Hr).
  set (x1 := publish_events decode publish q _ x) in *.
  assert (Hc1 : covered decode j (pid_offsets x1) (accepted x1)).
  { rewrite Ha, Ho. by eapply covered_step. }
  apply elem_of_cons in Hpid as [->|Hpid]; [|by apply IH].
  enough (EventEnvelope_from r ∈ accepted x1) as Hin.
  { revert Hin. apply (poll_pids_ind decode publish room j
      (λ _ acc, EventEnvelope_from r ∈ acc)); [done|]. set_solver. }
  rewrite Ha. apply elem_of_app. destruct Hdue as (Hv & Hd & Hdec).
  destruct (decide (sequence_nr r ≤ offset_of (pid_offsets x) q)%N); [left; by apply (Hc q)|].
  right. apply list_elem_of_fmap. exists r. split; [done|]. apply list_elem_of_filter. split; [done|].
  rewrite (Hr Hall), app_nil_r in Hl. rewrite <- Hl. apply (elem_of_unread room); [done|].
  split_and!; [done|done|lia].
Qed.

(** ** The outbox delivers *)

(** A journal that lists every stream it holds. *)
Class JournalLists (J : Type) `{JournalSpec J} :=
  journal_lists (j : J) :
    ∃ pids, all_persistence_ids j = inr pids ∧ ∀ pid, journal_view j pid ≠ [] → pid ∈ pids.

#[export] Instance InMemoryJournal_lists : JournalLists InMemoryJournal.
Proof.
  intros j. exists (InMemoryJournal_list_persistence_ids j). split; [done|]. intros pid.
  cbn. unfold mem_view, InMemoryJournal_list_persistence_ids.
  destruct (streams j !! pid) as [v|] eqn:Ev; [|done]. intros _.
  apply list_elem_of_fmap. exists (pid, v). split; [done|]. by apply elem_of_map_to_list.
Qed.

Section delivery.
Context {J : Type} `{HJ : JournalSpec J}.
Context {E W St : Type} `{HS : OffsetStoreSpec St}.
Context (decode : Bytes → string + E) (publish : E → W → bool * W).

Definition no_crash (op : OutboxOp) : bool := match op with ObCrash _ => false | _ => true end.

Definition within (j : J) (o : gmap string N) : Prop :=
  ∀ pid, (offset_of o pid ≤ N.of_nat (length (journal_view j pid)))%N.

(** The live records of the later journal are old ones or new ones at the end. *)
Definition evolves (j j' : J) : Prop :=
  ∀ pid, length (journal_view j pid) ≤ length (journal_view j' pid) ∧
    ∀ r, r ∈ journal_view j' pid → deleted r = false →
      r ∈ journal_view j pid ∨ (N.of_nat (length (journal_view j pid)) < sequence_nr r)%N.

Lemma write_evolves room j ms :
  one_stream (ObWrite ms) → well_numbered (N.of_nat (length ms) + room) j →
  well_numbered room (write_messages ms j).1 ∧ evolves j (write_messages ms j).1.
Proof.
  intros (pid & n & Hms) Hw. destruct (write_view room j ms pid n Hms Hw) as (Hw' & ext & Hp & _ & Hq).
  split; [done|]. intros q. destruct (decide (q = pid)) as [->|Hne]; [|rewrite Hq by done; auto].
  rewrite Hp. split; [rewrite length_app; lia|]. intros r Hr Hd.
  apply list_elem_of_lookup in Hr as [i Hi].
  pose proof Hi as Hi'. rewrite <- Hp in Hi'. rewrite (proj1 (view_lookup _ _ _ _ _ Hw' Hi')).
  apply lookup_app_Some in Hi as [Hi|[Hge _]]; [left; by eapply list_elem_of_lookup_2|right; lia].
Qed.

Lemma delete_evolves j pid to : evolves j (delete_messages_to pid to j).1.
Proof.
  intros q. rewrite journal_delete. case_decide; [|auto]. rewrite length_fmap. split; [done|].
  intros r (r' & -> & Hr)%list_elem_of_fmap. unfold mark_deleted. case_match; [done|auto].
Qed.

Section evolution.
Context (j j' : J) (Hev : evolves j j').

Lemma due_evolves pid r :
  due decode j' pid r →
  due decode j pid r ∨ (N.of_nat (length (journal_view j pid)) < sequence_nr r)%N.
Proof. intros (Hr & Hd & Hdec). destruct (Hev pid) as [_ [Hin|Hlt]%(λ f, f r Hr Hd)]; unfold due; auto. Qed.

Lemma covered_evolves o acc : within j o → covered decode j o acc → covered decode j' o acc.
Proof.
  intros Hwi Hc pid r Hdue Hs. destruct (due_evolves _ _ Hdue) as [Hd|Hlt]; [by apply (Hc pid)|].
  specialize (Hwi pid). lia.
Qed.

Lemma in_order_evolves acc : sourced j acc → in_order decode j acc → in_order decode j' acc.
Proof.
  intros Hs Ho i env r Hi Hdue Hlt. destruct (due_evolves _ _ Hdue) as [Hd|Hgt]; [by eapply Ho|].
  apply list_elem_of_lookup_2, Hs in Hi. lia.
Qed.

Lemma sourced_evolves acc : sourced j acc → sourced j' acc.
Proof. intros Hs env He. specialize (Hs env He). destruct (Hev (ev_persistence_id env)). lia. Qed.

Lemma within_evolves o : within j o → within j' o.
Proof. intros Hwi pid. specialize (Hwi pid). destruct (Hev pid). lia. Qed.
End evolution.

Lemma within_step room j pid o dealt rest :
  well_numbered room j → unread j pid o = dealt ++ rest → within j o → within j (advance pid dealt o).
Proof.
  intros Hw Hl Hwi q. destruct (decide (q = pid)) as [->|]; [|by rewrite offset_advance_ne].
  rewrite offset_advance. destruct (last dealt) as [z|] eqn:Ez; [|apply Hwi].
  apply last_Some_elem_of in Ez. destruct (elem_of_dealt room j pid o dealt rest Hw Hl z Ez) as (Hz & _).
  apply list_elem_of_lookup in Hz as [i Hi]. rewrite (proj1 (view_lookup _ _ _ _ _ Hw Hi)).
  apply lookup_lt_Some in Hi. lia.
Qed.

(** What the relay has done and what the offsets [o] say about it. *)
Record relay_inv (j : J) (o : gmap string N) (acc : list EventEnvelope) : Prop := {
  ri_covered : covered decode j o acc;
  ri_within : within j o;
  ri_order : in_order decode j acc;
  ri_sourced : sourced j acc;
}.

Lemma relay_inv_evolves j j' o acc : evolves j j' → relay_inv j o acc → relay_inv j' o acc.
Proof.
  intros Hev [Hc Hwi Ho Hs]. split.
  - by apply (covered_evolves j).
  - by apply (within_evolves j).
  - by apply (in_order_evolves j).
  - by apply (sourced_evolves j).
Qed.

Lemma relay_inv_step room j pid o acc dealt rest :
  well_numbered room j → unread j pid o = dealt ++ rest → relay_inv j o acc →
  relay_inv j (advance pid dealt o)
    (acc ++ (EventEnvelope_from <$> filter (λ r, decodes decode r) dealt)).
Proof.
  intros Hw Hl [Hc Hwi Ho Hs]. split.
  - by eapply covered_step.
  - by eapply within_step.
  - by eapply in_order_step.
  - by eapply sourced_step.
Qed.

(** The union of two maps of offsets says what one or the other says. *)
Lemma relay_inv_union j o1 o2 acc acc' :
  relay_inv j o1 acc → covered decode j o2 acc' → within j o2 → acc' ⊆ acc →
  relay_inv j (o1 ∪ o2) acc.
Proof.
  intros [Hc Hwi Ho Hs] Hc2 Hwi2 Hsub. split; [| |done|done].
  - intros pid r Hdue. unfold offset_of. rewrite lookup_union.
    destruct (o1 !! pid) as [n|] eqn:E1.
    + rewrite union_Some_l. intros Hn. apply (Hc pid); [done|]. unfold offset_of. by rewrite E1.
    + rewrite (left_id_L None (∪)). intros Hn. apply Hsub. by apply (Hc2 pid).
  - intros pid. unfold offset_of. rewrite lookup_union.
    destruct (o1 !! pid) as [n|] eqn:E1.
    + rewrite union_Some_l. specialize (Hwi pid). unfold offset_of in Hwi. by rewrite E1 in Hwi.
    + rewrite (left_id_L None (∪)). apply Hwi2.
Qed.

(** The offsets of the relay and those of the store are both sound. *)
Record outbox_inv (room : N) (x : Outbox J W St) : Prop := {
  oi_numbered : well_numbered room (ob_journal x);
  oi_relay : relay_inv (ob_journal x) (pid_offsets (ob_relay x)) (accepted (ob_relay x));
  oi_store : relay_inv (ob_journal x) (offsets_load (ob_store x)) (accepted (ob_relay x));
}.

(** Without a crash the relay and its store agree when a round is over. *)
Record outbox_steady (x : Outbox J W St) : Prop := {
  os_agree : pid_offsets (ob_relay x) = offsets_load (ob_store x);
  os_below : below (pid_offsets (ob_relay x)) (accepted (ob_relay x));
  os_increasing : increasing (accepted (ob_relay x));
}.
Lemma relay_inv_more j o o' acc acc' :
  relay_inv j o acc → relay_inv j o' acc' → acc ⊆ acc' → relay_inv j o acc'.
Proof. intros [Hc Hwi _ _] [_ _ Ho Hs] Hsub. split; [|done..]. intros pid r Hd Hr. by apply Hsub, (Hc pid). Qed.

(** A round, with any publisher, keeps the offsets sound and forgets nothing. *)
Lemma round_inv {W'} (pub : E → W' → bool * W') room j pids (x : Relay W') :
  well_numbered room j → relay_inv j (pid_offsets x) (accepted x) →
  let x' := poll_pids decode pub pids j x in
  relay_inv j (pid_offsets x') (accepted x') ∧ accepted x ⊆ accepted x' ∧
  dom (pid_offsets x) ⊆ dom (pid_offsets x') ∧
  (below (pid_offsets x) (accepted x) ∧ increasing (accepted x) →
   below (pid_offsets x') (accepted x') ∧ increasing (accepted x')).
Proof.
  intros Hw Hx. apply (poll_pids_ind decode pub room j (λ o acc, relay_inv j o acc ∧ accepted x ⊆ acc ∧
    dom (pid_offsets x) ⊆ dom o ∧ (below (pid_offsets x) (accepted x) ∧ increasing (accepted x) →
      below o acc ∧ increasing acc))); [done| |done].
  intros pid o acc dealt rest Hl (Hi & Hsub & Hdom & Hb). split_and!.
  - by eapply relay_inv_step.
  - set_solver.
  - unfold advance. case_match; set_solver.
  - intros [Hb' Hinc]%Hb. split; [by eapply below_step|by eapply increasing_step].
Qed.

Lemma union_dom_absorb (o1 o2 : gmap string N) : dom o2 ⊆ dom o1 → o1 ∪ o2 = o1.
Proof.
  intros Hd. apply map_eq. intros k. rewrite lookup_union. destruct (o1 !! k) eqn:E1.
  - by rewrite union_Some_l.
  - apply not_elem_of_dom in E1. assert (o2 !! k = None) as -> by (apply not_elem_of_dom; set_solver). done.
Qed.

Lemma outbox_step_inv room x op :
  one_stream op → outbox_inv (op_room op + room) x →
  outbox_inv room (outbox_step decode publish x op) ∧
  (no_crash op = true → outbox_steady x → outbox_steady (outbox_step decode publish x op)) ∧
  accepted (ob_relay x) ⊆ accepted (ob_relay (outbox_step decode publish x op)).
Proof.
  destruct x as [j r s]. intros Hop [Hw Hr Hs]. cbn [ob_journal ob_relay ob_store] in *.
  destruct op as [ms|pid to| | |n]; cbn [op_room outbox_step] in *; rewrite ?N.add_0_l in Hw.
  - destruct (write_evolves room j ms Hop Hw) as [Hw' Hev].
    split; [|split; [intros _ [???]; by split|done]].
    split; cbn; [done|by apply (relay_inv_evolves j)..].
  - pose proof (delete_evolves j pid to) as Hev.
    split; [|split; [intros _ [???]; by split|done]].
    split; cbn; [by apply delete_view|by apply (relay_inv_evolves j)..].
  - unfold poll. destruct (rj_all_persistence_ids j) as [err|pids]; [by split; [|split]|].
    destruct (round_inv publish room j pids r Hw Hr) as (Hr' & Hsub & Hdom & Hst).
    split; [|split; [|done]].
    + split; cbn; [done|done|]. rewrite offsets_load_save.
      apply (relay_inv_union _ _ _ _ (accepted r)); [done|apply Hs|apply Hs|done].
    + intros _ [Ha Hb Hi]. cbn in *. destruct (Hst (conj Hb Hi)) as [Hb' Hi'].
      split; cbn; [|done|done]. rewrite offsets_load_save, <- Ha. by rewrite union_dom_absorb.
  - split; [by split|]. split; [|done]. intros _ [Ha Hb Hi]. cbn in *. rewrite Ha in Hb. by split.
  - unfold crash_round. cbn [ob_journal ob_relay ob_store].
    destruct (rj_all_persistence_ids j) as [err|pids]; [by split; [|split]|].
    destruct (round_inv (publish_until_crash publish) room j pids
      (mkRelay (pid_offsets r) 0 (n, sink r) (accepted r)) Hw Hr) as (Hr' & Hsub & _).
    split; [|split; [done|done]]. split; cbn; [done|by eapply relay_inv_more..].
Qed.

Lemma outbox_run_inv ops room x :
  Forall one_stream ops → outbox_inv (ops_room ops + room) x →
  outbox_inv room (outbox_run decode publish ops x) ∧
  (forallb no_crash ops = true → outbox_steady x → outbox_steady (outbox_run decode publish ops x)) ∧
  accepted (ob_relay x) ⊆ accepted (ob_relay (outbox_run decode publish ops x)).
Proof.
  intros Hops. revert x; induction Hops as [|op ops Hop Hops IH]; intros x Hx; [done|].
  cbn [ops_room foldr] in Hx. rewrite <- N.add_assoc in Hx.
  destruct (outbox_step_inv _ x op Hop Hx) as (Hx1 & Hst1 & Hs1).
  destruct (IH _ Hx1) as (Hx2 & Hst2 & Hs2). split; [done|]. split.
  - cbn. rewrite andb_true_iff. intros [Hc Hcs] Hst. apply Hst2; [done|]. by apply Hst1.
  - by transitivity (accepted (ob_relay (outbox_step decode publish x op))).
Qed.

Lemma outbox_start_inv room j w s :
  well_numbered room j → offsets_load s = ∅ →
  outbox_inv room (outbox_start j w s) ∧ outbox_steady (outbox_start j w s).
Proof.
  intros Hw Hs.
  assert (Hr : relay_inv j ∅ []).
  { split.
    - intros pid r (Hr & _) Hle. apply list_elem_of_lookup in Hr as [i Hi].
      destruct (view_lookup _ _ _ _ _ Hw Hi) as [Hn _]. cbn in Hle. unfold offset_of in Hle.
      rewrite lookup_empty in Hle. cbn in Hle. lia.
    - intros pid. unfold offset_of. rewrite lookup_empty. cbn. lia.
    - by intros i env r Hi.
    - intros env He. by apply not_elem_of_nil in He. }
  split; split; cbn; rewrite ?Hs; try done.
  intros env He. by apply not_elem_of_nil in He.
Qed.
End delivery.

(** ** The inbox handles a key once *)

Section inbox_inv.
Context {E W S : Type} `{HI : InboxStoreSpec S}.
Context (key : E → string) (handler : E → W → bool * W).

(** The calls that succeeded for a key. *)
Definition successes (k : string) (calls : list (E * bool)) : list (E * bool) :=
  filter (λ c, key c.1 = k ∧ c.2 = true) calls.

(** Compared with the start [s0], exactly the keys with a success are marked, no key has two
    successes, and the handler was not called for keys that were marked before. *)
Definition inbox_inv (s0 : S) (x : Inbox E W S) : Prop :=
  ∀ k, length (successes k (in_calls x)) ≤ 1 ∧
    was_seen k (in_store x) = was_seen k s0 || bool_decide (successes k (in_calls x) ≠ []) ∧
    (was_seen k s0 = true → Forall (λ c, key c.1 ≠ k) (in_calls x)).

Lemma successes_snoc k calls msg ok :
  successes k (calls ++ [(msg, ok)]) =
    successes k calls ++ if decide (key msg = k ∧ ok = true) then [(msg, ok)] else [].
Proof. unfold successes. rewrite filter_app. by rewrite filter_cons. Qed.

Lemma inbox_receive_inv s0 x msg :
  inbox_inv s0 x → inbox_inv s0 (inbox_receive key handler x msg).
Proof.
  intros Hx. unfold inbox_receive. destruct (was_seen (key msg) (in_store x)) eqn:Es; [done|].
  destruct (handler msg (in_handler x)) as [ok w]. intros k. destruct (Hx k) as (Hn & Hs & Hb).
  cbn [in_calls in_store]. rewrite successes_snoc.
  destruct (Hx (key msg)) as (_ & Hs' & _). rewrite Es in Hs'. symmetry in Hs'.
  apply orb_false_iff in Hs' as [Hs0 Hnil]. rewrite bool_decide_eq_false in Hnil.
  apply dec_stable in Hnil.
  split_and!.
  - rewrite length_app. case_decide as Hd; [|cbn; lia]. destruct Hd as [<- _]. rewrite Hnil. done.
  - destruct ok.
    + rewrite was_seen_mark, Hs. destruct (decide (k = key msg)) as [->|Hk].
      * rewrite Hnil, decide_True by done. rewrite (bool_decide_true (key msg = key msg)) by done.
        rewrite (bool_decide_true (_ ++ _ ≠ _)) by done. by rewrite orb_true_r.
      * rewrite (bool_decide_false (k = key msg)) by done. rewrite decide_False by naive_solver.
        by rewrite app_nil_r.
    + rewrite Hs, decide_False by naive_solver. by rewrite app_nil_r.
  - intros Hk. apply Forall_app. split; [by apply Hb|]. constructor; [|constructor]. cbn. congruence.
Qed.

(** A message is marked afterwards, or the handler was called for it and refused. *)
Lemma inbox_receive_mem x msg :
  let x' := inbox_receive key handler x msg in
  (was_seen (key msg) (in_store x') = true ∨ (msg, false) ∈ in_calls x') ∧
  (∀ k, was_seen k (in_store x) = true → was_seen k (in_store x') = true) ∧
  in_calls x ⊆ in_calls x'.
Proof.
  unfold inbox_receive. destruct (was_seen (key msg) (in_store x)) eqn:Es.
  { split_and!; [by left|done|done]. }
  destruct (handler msg (in_handler x)) as [ok w]. cbn. split_and!; [| |set_solver].
  - destruct ok; [left; rewrite was_seen_mark, bool_decide_true by done; done|right; set_solver].
  - intros k Hk. destruct ok; [|done]. by rewrite was_seen_mark, Hk, orb_true_r.
Qed.

Lemma inbox_run_spec s0 msgs x :
  inbox_inv s0 x →
  let x' := inbox_run key handler msgs x in
  inbox_inv s0 x' ∧ (∀ k, was_seen k (in_store x) = true → was_seen k (in_store x') = true) ∧
  in_calls x ⊆ in_calls x' ∧
  (∀ msg, msg ∈ msgs → was_seen (key msg) (in_store x') = true ∨ (msg, false) ∈ in_calls x').
Proof.
  unfold inbox_run. revert x; induction msgs as [|m msgs IH]; intros x Hx; cbn.
  { split_and!; [done|done|done|]. intros msg Hm. by apply not_elem_of_nil in Hm. }
  destruct (inbox_receive_mem x m) as (Hm & Hk & Hc).
  destruct (IH _ (inbox_receive_inv s0 x m Hx)) as (Hx' & Hk' & Hc' & Hall).
  split_and!; [done|auto|by transitivity (in_calls (inbox_receive key handler x m))|].
  intros msg [->|Hin]%elem_of_cons; [|by apply Hall]. destruct Hm as [Hm|Hm]; [left; auto|right; by apply Hc'].
Qed.

Lemma inbox_accepting (Hall : ∀ e w, (handler e w).1 = true) msgs x :
  Forall (λ c, c.2 = true) (in_calls x) → Forall (λ c, c.2 = true) (in_calls (inbox_run key handler msgs x)).
Proof.
  unfold inbox_run. revert x; induction msgs as [|m msgs IH]; intros x Hx; [done|]. cbn. apply IH.
  unfold inbox_receive. case_match; [done|]. specialize (Hall m (in_handler x)).
  destruct (handler m (in_handler x)) as [ok w]. cbn in *. apply Forall_app. by split; [|constructor].
Qed.
End inbox_inv.

(** The events a publisher was handed and accepted. *)
Definition relayed {E} (decode : Bytes → string + E) (acc : list EventEnvelope) : list E :=
  omap (λ env, match decode (ev_payload env) with inr e => Some e | inl _ => None end) acc.

Section exactly_once.
Context {J : Type} `{HL : JournalLists J}.
Context {E W St : Type} `{HS : OffsetStoreSpec St}.
Context (decode : Bytes → string + E) (publish : E → W → bool * W).

(** C12: the outbox publishes at least once, in order, and exactly once without crashes.  From
    a journal with numbered streams and an empty offset store, after any sequence of writes of
    other tasks, deletions, polling rounds, restarts and crashes in the middle of a round:
    every live record that decodes and whose number is at most the offset of its stream has
    been accepted by the publisher; whenever an event was accepted, every event due before it
    in its stream had been accepted earlier; if there was no crash, the accepted events of a
    stream have strictly increasing numbers, so none was published twice; and one more round
    in which the publisher accepts what it gets leaves no record unpublished. *)
Theorem outbox_delivers (j : J) (w : W) (s : St) (ops : list OutboxOp) :
  well_numbered (ops_room ops) j → offsets_load s = ∅ → Forall one_stream ops →
  let x := outbox_run decode publish ops (outbox_start j w s) in
  let acc := accepted (ob_relay x) in
  covered decode (ob_journal x) (pid_offsets (ob_relay x)) acc ∧
  in_order decode (ob_journal x) acc ∧
  (forallb no_crash ops = true → increasing acc) ∧
  ((∀ e w, (publish e w).1 = true) →
   ∀ pid r, due decode (ob_journal x) pid r →
     EventEnvelope_from r ∈ accepted (ob_relay (outbox_step decode publish x ObPoll))).
Proof.
  intros Hw Hs Hops. destruct (outbox_start_inv decode (ops_room ops + 0) j w s) as [Hi Hst];
    [by rewrite N.add_0_r|done|].
  destruct (outbox_run_inv decode publish ops 0 _ Hops Hi) as ([Hnum Hr _] & Hsteady & _).
  cbn zeta. split_and!; [apply Hr|apply Hr| |].
  { intros Hc. apply Hsteady; [done|done]. }
  intros Hall pid r Hdue. destruct (outbox_run _ _ _ _) as [jx rx sx]. cbn in *. unfold poll.
  destruct (journal_lists jx) as (pids & Hp & Hin). cbn. rewrite Hp. cbn.
  eapply poll_pids_all; [done|done|apply Hr| |done].
  apply Hin. destruct Hdue as [Hv _]. intros Hnil. rewrite Hnil in Hv. by apply not_elem_of_nil in Hv.
Qed.

(** C13: an inbox behind the outbox makes the effects exactly once.  In every such run, crashes
    included, feed the events the publisher accepted, duplicates and all, to an inbox whose
    store has seen nothing: no key is handled successfully twice, whatever the handler answers;
    and when the handler accepts what it gets, every live record that decodes, up to the offset
    of its stream, has exactly one successful call for the key of its event. *)
Theorem outbox_inbox_exactly_once {V St'} `{HI : InboxStoreSpec St'} (key : E → string)
    (handler : E → V → bool * V) (j : J) (w : W) (s : St) (ops : list OutboxOp) (h : V) (s' : St') :
  well_numbered (ops_room ops) j → offsets_load s = ∅ → Forall one_stream ops →
  (∀ k, was_seen k s' = false) →
  let x := outbox_run decode publish ops (outbox_start j w s) in
  let y := inbox_run key handler (relayed decode (accepted (ob_relay x))) (mkInbox s' h []) in
  (∀ k, length (successes key k (in_calls y)) ≤ 1) ∧
  ((∀ e h, (handler e h).1 = true) →
   ∀ pid r e, due decode (ob_journal x) pid r →
     (sequence_nr r ≤ offset_of (pid_offsets (ob_relay x)) pid)%N →
     decode (payload r) = inr e → length (successes key (key e) (in_calls y)) = 1).
Proof.
  intros Hw Hs Hops Hseen. destruct (outbox_start_inv decode (ops_room ops + 0) j w s) as [Hi _];
    [by rewrite N.add_0_r|done|].
  destruct (outbox_run_inv decode publish ops 0 _ Hops Hi) as ([_ Hr _] & _ & _).
  cbn zeta. set (x := outbox_run decode publish ops (outbox_start j w s)) in *.
  set (msgs := relayed decode (accepted (ob_relay x))).
  assert (Hstart : inbox_inv key s' (mkInbox s' h [] : Inbox E V St')).
  { intros k. split; [cbn; lia|]. split; [|intros; constructor]. cbn. by rewrite orb_false_r. }
  destruct (inbox_run_spec key handler s' msgs _ Hstart) as (Hinv & _ & _ & Hall).
  split; [intros k; apply Hinv|]. intros Hok pid r e Hdue Hle He.
  destruct (Hinv (key e)) as (Hn & Hsn & _).
  assert (Hmsg : e ∈ msgs).
  { apply list_elem_of_omap. exists (EventEnvelope_from r). cbn. rewrite He. split; [|done].
    by apply (ri_covered _ _ _ _ Hr pid). }
  destruct (Hall e Hmsg) as [Hm|Hm].
  - rewrite Hseen, Hm in Hsn. symmetry in Hsn. apply bool_decide_eq_true in Hsn.
    destruct (successes _ _ _); [done|]. cbn in Hn |- *. lia.
  - pose proof (inbox_accepting key handler Hok msgs (mkInbox s' h []) ltac:(constructor)) as Hf.
    by eapply Forall_forall in Hf; [|exact Hm].
Qed.
End exactly_once.

(** ** The journal-backed offset store *)

Definition string_bytes (s : string) : Bytes := String.list_byte_of_string s.
Definition bytes_string (bs : Bytes) : string := String.string_of_list_byte bs.

(** [[u32 count][u32 key_len][key bytes][u64 value]...], the entries in the order in which the
    map is iterated. *)
Definition encode_entry (kv : string * N) : Bytes :=
  to_le_bytes 4 (wrap32 (N.of_nat (length (string_bytes kv.1)))) ++ string_bytes kv.1 ++
  to_le_bytes 8 kv.2.
Definition encode_entries (l : list (string * N)) : Bytes :=
  to_le_bytes 4 (wrap32 (N.of_nat (length l))) ++ (l ≫= encode_entry).
Definition offsets_encode (m : gmap string N) : Bytes := encode_entries (map_to_list m).

(** The loop of [decode] on the bytes after the cursor. *)
Fixpoint decode_entries (count : nat) (bs : Bytes) (out : gmap string N) : option (gmap string N) :=
  match count with
  | O => Some out
  | S n =>
      if length bs <? 4 then None
      else
        let kl := N.to_nat (from_le_bytes (take 4 bs)) in
        let bs := drop 4 bs in
        if length bs <? kl + 8 then None
        else
          let key := bytes_string (take kl bs) in
          if valid_utf8 key
          then decode_entries n (drop 8 (drop kl bs))
                 (<[key := from_le_bytes (take 8 (drop kl bs))]> out)
          else None
  end.
Definition offsets_decode (bs : Bytes) : option (gmap string N) :=
  if length bs <? 4 then None
  else decode_entries (N.to_nat (from_le_bytes (take 4 bs))) (drop 4 bs) ∅.

Record JournalOffsetStore := mkJournalOffsetStore {
  jos_pid : string;
  jos_cache : gmap string N;
  jos_writer_uuid : string;
}.

Definition offsets_pid (name : string) : string := "outbox::" +:+ name +:+ "::offsets".

Section journal_offsets.
Context {J : Type} `{Journal J}.

(** What [new] reads back from the journal. *)
Definition hydrate (pid : string) (j : J) : gmap string N :=
  match highest_sequence_nr pid 0 j with
  | inr highest =>
      if (0 <? highest)%N
      then match replay_messages pid highest highest 1 j with
           | inr reprs =>
               default ∅ (r ← last reprs; if deleted r then None else offsets_decode (payload r))
           | inl _ => ∅
           end
      else ∅
  | inl _ => ∅
  end.

(** [rand] is the suffix [rand_id] takes from the clock. *)
Definition JournalOffsetStore_new (name rand : string) (j : J) : JournalOffsetStore :=
  let pid := offsets_pid name in
  mkJournalOffsetStore pid (hydrate pid j) ("outbox-" +:+ rand).

Definition JournalOffsetStore_load (s : JournalOffsetStore) : gmap string N := jos_cache s.

(** [save] up to the task it spawns, which gets the payload. *)
Definition JournalOffsetStore_save (offsets : gmap string N) (s : JournalOffsetStore)
    : JournalOffsetStore * Bytes :=
  let cache := insert_all offsets (jos_cache s) in
  (mkJournalOffsetStore (jos_pid s) cache (jos_writer_uuid s), offsets_encode cache).

(** The two halves of the task: it awaits the highest number, then the write. *)
Definition save_task_read (s : JournalOffsetStore) (j : J) : N :=
  u64_add (match highest_sequence_nr (jos_pid s) 0 j with inr n => n | inl _ => 0%N end) 1.
Definition save_task_write (s : JournalOffsetStore) (next_seq : N) (payload : Bytes) (j : J) : J :=
  (write_messages [mkPersistentRepr (jos_pid s) next_seq payload "outbox-offsets"
                     (jos_writer_uuid s) false ["outbox-offsets"]] j).1.

(** A save whose task runs before the next save, and writes of others in between. *)
Inductive OffsetsOp :=
  | OfSave (offsets : gmap string N)
  | OfOther (ms : list PersistentRepr).

Definition offsets_step (x : JournalOffsetStore * J) (op : OffsetsOp) : JournalOffsetStore * J :=
  let '(s, j) := x in
  match op with
  | OfSave offsets =>
      let '(s, payload) := JournalOffsetStore_save offsets s in
      (s, save_task_write s (save_task_read s j) payload j)
  | OfOther ms => (s, (write_messages ms j).1)
  end.
Definition offsets_run (ops : list OffsetsOp) (x : JournalOffsetStore * J) : JournalOffsetStore * J :=
  foldl offsets_step x ops.
End journal_offsets.

(** Keys and values that fit the format. *)
Definition entry_ok (kv : string * N) : Prop :=
  valid_utf8 kv.1 = true ∧ (N.of_nat (String.length kv.1) < u32_modulus)%N ∧ (kv.2 < u64_modulus)%N.
Definition offsets_ok (m : gmap string N) : Prop :=
  map_Forall (λ k v, entry_ok (k, v)) m ∧ (N.of_nat (size m) < u32_modulus)%N.

Lemma length_string_bytes s : length (string_bytes s) = String.length s.
Proof. unfold string_bytes. induction s as [|c s IH]; [done|]. cbn. by f_equal. Qed.

Lemma wrap32_small n : (n < u32_modulus)%N → wrap32 n = n.
Proof. apply N.mod_small. Qed.

Lemma decode_entry_step n kv rest out :
  entry_ok kv →
  decode_entries (S n) (encode_entry kv ++ rest) out = decode_entries n rest (<[kv.1 := kv.2]> out).
Proof.
  destruct kv as [k v]. intros (Hu & Hk & Hv). cbn [fst snd] in *. unfold encode_entry. cbn [fst snd].
  rewrite length_string_bytes, wrap32_small by done.
  set (a := to_le_bytes 4 (N.of_nat (String.length k))). set (c := to_le_bytes 8 v).
  assert (La : length a = 4) by apply to_le_bytes_length.
  assert (Lc : length c = 8) by apply to_le_bytes_length.
  rewrite <- !app_assoc. cbn [decode_entries].
  rewrite (proj2 (Nat.ltb_ge _ _)) by (rewrite length_app; lia).
  rewrite take_app_length', drop_app_length' by done.
  assert (from_le_bytes a = N.of_nat (String.length k)) as ->
    by (apply from_to_le_bytes; by rewrite pow_256_4).
  rewrite Nat2N.id.
  rewrite (proj2 (Nat.ltb_ge _ _)) by (rewrite !length_app, length_string_bytes; lia).
  rewrite take_app_length', drop_app_length' by (by rewrite length_string_bytes).
  unfold bytes_string, string_bytes at 1. rewrite String.string_of_list_byte_of_string, Hu.
  rewrite take_app_length', drop_app_length' by done.
  assert (from_le_bytes c = v) as -> by (apply from_to_le_bytes; by rewrite pow_256_8).
  unfold string_bytes. by rewrite String.string_of_list_byte_of_string.
Qed.

Lemma decode_entries_encoded l rest out :
  Forall entry_ok l →
  decode_entries (length l) ((l ≫= encode_entry) ++ rest) out =
    Some (foldl (λ m kv, <[kv.1 := kv.2]> m) out l).
Proof.
  intros Hl. revert out; induction Hl as [|kv l Hkv Hl IH]; intros out; [done|].
  cbn [mbind list_bind length]. rewrite <- app_assoc, decode_entry_step by done. apply IH.
Qed.

Lemma offsets_decode_encode l m :
  offsets_ok m → l ≡ₚ map_to_list m → offsets_decode (encode_entries l) = Some m.
Proof.
  intros [Hm Hsz] Hl.
  assert (Hall : Forall entry_ok l).
  { rewrite Hl. apply Forall_forall. intros [k v] Hkv%elem_of_map_to_list. exact (Hm k v Hkv). }
  assert (Hlen : length l = size m) by (by rewrite Hl, length_map_to_list).
  unfold offsets_decode, encode_entries. rewrite Hlen, wrap32_small by done.
  pose proof (to_le_bytes_length 4 (N.of_nat (size m))) as L4.
  rewrite (proj2 (Nat.ltb_ge _ _)) by (rewrite length_app; lia).
  rewrite take_app_length', drop_app_length' by done.
  rewrite from_to_le_bytes, Nat2N.id by (by rewrite pow_256_4). rewrite <- Hlen.
  rewrite <- (app_nil_r (l ≫= encode_entry)). rewrite decode_entries_encoded by done.
  f_equal. by apply foldl_insert_perm.
Qed.

Section durable.
Context {J : Type} `{HJ : JournalSpec J}.

(** What [hydrate] makes of a stream. *)
Definition stored_offsets (l : list PersistentRepr) : gmap string N :=
  default ∅ (r ← last l; if deleted r then None else offsets_decode (payload r)).

Lemma numbered_last_unread pid l r :
  numbered pid 1 l → (N.of_nat (length l) < u64_max)%N → last l = Some r →
  filter (replayable (last_nr l) (last_nr l)) l = if deleted r then [] else [r].
Proof.
  intros Hl Hb Hr. apply last_Some in Hr as [l' ->]. unfold last_nr. rewrite last_snoc.
  rewrite filter_app. rewrite length_app in Hb. unfold u64_max in Hb.
  replace (filter _ l') with ([] : list PersistentRepr).
  - cbn [app]. rewrite filter_cons. case_decide as Hd.
    + by rewrite (proj1 Hd).
    + destruct (deleted r) eqn:Ed; [done|]. by destruct Hd.
  - symmetry. apply elem_of_nil_inv. intros x [(_ & Hx & Hx') [i Hi]%list_elem_of_lookup]%list_elem_of_filter.
    assert (Hi' : (l' ++ [r]) !! i = Some x) by (by apply lookup_app_l_Some).
    assert (Hr' : (l' ++ [r]) !! length l' = Some r) by (by apply list_lookup_middle).
    pose proof (numbered_lookup _ _ _ _ _ Hl ltac:(rewrite length_app; cbn; unfold u64_modulus; cbn in Hb; lia) Hi').
    pose proof (numbered_lookup _ _ _ _ _ Hl ltac:(rewrite length_app; cbn; unfold u64_modulus; cbn in Hb; lia) Hr').
    apply lookup_lt_Some in Hi. lia.
Qed.

Lemma hydrate_view pid (j : J) :
  numbered pid 1 (journal_view j pid) → (N.of_nat (length (journal_view j pid)) < u64_max)%N →
  hydrate pid j = stored_offsets (journal_view j pid).
Proof.
  intros Hn Hb. unfold hydrate, stored_offsets. rewrite journal_highest.
  destruct (numbered_last pid _ Hn) as [Hlast _]; [unfold u64_max in Hb; unfold u64_modulus; lia|].
  destruct (last (journal_view j pid)) as [r|] eqn:Er.
  - assert (length (journal_view j pid) ≠ 0) by (intros Hz%nil_length_inv; by rewrite Hz in Er).
    rewrite (proj2 (N.ltb_lt _ _)) by lia. rewrite journal_replay.
    rewrite (numbered_last_unread _ _ r) by done. by destruct (deleted r) eqn:Ed; cbn; rewrite ?Ed.
  - apply last_None in Er. rewrite Er in Hlast |- *. done.
Qed.

Definition offsets_op_ok (pid : string) (op : OffsetsOp) : Prop :=
  match op with OfSave _ => True | OfOther ms => Forall (λ m, persistence_id m ≠ pid) ms end.

(** The stream holds the offsets of the cache. *)
Definition offsets_synced (room : N) (x : JournalOffsetStore * J) : Prop :=
  let l := journal_view x.2 (jos_pid x.1) in
  numbered (jos_pid x.1) 1 l ∧ (N.of_nat (length l) + room < u64_max)%N ∧
  (offsets_ok (jos_cache x.1) → stored_offsets l = jos_cache x.1).

Lemma offsets_step_synced room x op :
  offsets_op_ok (jos_pid x.1) op → offsets_synced (1 + room) x →
  offsets_synced room (offsets_step x op) ∧ jos_pid (offsets_step x op).1 = jos_pid x.1.
Proof.
  destruct x as [s j]. unfold offsets_synced. cbn [fst snd]. intros Hop (Hn & Hb & Hc).
  destruct op as [offsets|ms]; cbn [offsets_step fst snd].
  - unfold JournalOffsetStore_save. cbn zeta iota beta. cbn [fst snd jos_pid jos_cache].
    unfold save_task_write, save_task_read. rewrite journal_highest. cbn [jos_pid jos_writer_uuid].
    unfold u64_max in *.
    destruct (numbered_last _ _ Hn) as [Hl He]; [unfold u64_modulus; lia|].
    match goal with |- context [write_messages [?r] j] => set (rec := r) end.
    destruct (journal_write_ok j (jos_pid s) [rec]) as (j' & -> & Hv).
    { cbn. rewrite Hl, He. done. }
    cbn [fst]. rewrite Hv, length_app. cbn [length]. split_and!; [| |intros Hok|done].
    + apply numbered_app; [unfold u64_modulus; lia|done|]. cbn. rewrite Hl, u64_add_small by (unfold u64_modulus; lia).
      split_and!; [done|lia|done].
    + lia.
    + unfold stored_offsets. rewrite last_snoc. set (m := insert_all offsets (jos_cache s)) in *.
      change (default ∅ (offsets_decode (encode_entries (map_to_list m))) = m).
      by rewrite (offsets_decode_encode _ m).
  - rewrite journal_write_other by done. split_and!; [done|lia|done|done].
Qed.

(** The offsets survive a restart.  Open the store on a journal whose offset stream is
    numbered, save any offsets any number of times, each task running before the next save,
    with writes of others to other streams in between: a store of the same name that is opened
    afterwards loads exactly the offsets the first one has in its cache.  The offsets must fit
    the format: keys of at most [2^32 - 1] bytes, as many keys, values of 64 bits. *)
Theorem offsets_durable (name rand rand' : string) (j : J) (ops : list OffsetsOp) :
  let pid := offsets_pid name in
  numbered pid 1 (journal_view j pid) →
  (N.of_nat (length (journal_view j pid)) + N.of_nat (length ops) < u64_max)%N →
  Forall (offsets_op_ok pid) ops →
  let '(s, j') := offsets_run ops (JournalOffsetStore_new name rand j, j) in
  offsets_ok (JournalOffsetStore_load s) →
  JournalOffsetStore_load (JournalOffsetStore_new name rand' j') = JournalOffsetStore_load s.
Proof.
  intros pid Hn Hb Hops.
  assert (Hrun : ∀ x, jos_pid x.1 = pid → offsets_synced (N.of_nat (length ops)) x →
    offsets_synced 0 (offsets_run ops x) ∧ jos_pid (offsets_run ops x).1 = pid).
  { clear Hb. induction Hops as [|op ops Hop Hops IH]; intros x Hp Hx; [done|].
    cbn [length] in Hx. replace (N.of_nat (S (length ops))) with (1 + N.of_nat (length ops))%N in Hx by lia.
    destruct (offsets_step_synced (N.of_nat (length ops)) x op) as [Hx' Hp']; [by rewrite Hp|done|].
    apply IH; [by rewrite Hp'|done]. }
  destruct (Hrun (JournalOffsetStore_new name rand j, j)) as [Hs Hp]; [done| |].
  { unfold offsets_synced, JournalOffsetStore_new. cbn [fst snd jos_pid jos_cache]. fold pid. split_and!; [done|done|]. intros _. symmetry. apply hydrate_view; [done|lia]. }
  destruct (offsets_run _ _) as [s j']. destruct Hs as (Hn' & Hb' & Hc). cbn [fst snd] in *. intros Hok.
  unfold JournalOffsetStore_load in *. cbn. fold pid. rewrite Hp in *.
  rewrite hydrate_view; [by apply Hc|done|lia].
Qed.
End durable.

(** ** Concrete runs *)

Definition demo_repr (pid : string) (n : N) (b : Byte.byte) : PersistentRepr :=
  mkPersistentRepr pid n [b] "evt" "w" false [].
Definition demo_decode (bs : Bytes) : string + Byte.byte :=
  match bs with [b] => inr b | _ => inl "one byte expected" end.
Definition demo_publish (e : Byte.byte) (w : list Byte.byte) : bool * list Byte.byte := (true, w ++ [e]).
Definition demo_key (e : Byte.byte) : string := String.String (Ascii.ascii_of_byte e) "".

(** Two records, a crash after the first was published, and a round. *)
Definition demo_ops : list OutboxOp :=
  [ObWrite [demo_repr "a" 1 Byte.x61; demo_repr "a" 2 Byte.x62]; ObCrash 1; ObPoll].

Lemma empty_well_numbered room : (room < u64_max)%N → well_numbered room InMemoryJournal_new.
Proof. intros Hr pid. cbn. unfold mem_view. cbn. by rewrite lookup_empty. Qed.

Lemma demo_one_stream : Forall one_stream demo_ops.
Proof. repeat constructor; try (exists "a", 1%N; vm_compute; tauto). Qed.

Lemma outbox_delivers_witness :
  let x := outbox_run demo_decode demo_publish demo_ops
             (outbox_start InMemoryJournal_new [] OffsetStore_new) in
  sink (ob_relay x) = [Byte.x61; Byte.x61; Byte.x62] ∧
  covered demo_decode (ob_journal x) (pid_offsets (ob_relay x)) (accepted (ob_relay x)).
Proof.
  split; [vm_compute; reflexivity|].
  refine (proj1 (outbox_delivers demo_decode demo_publish InMemoryJournal_new [] OffsetStore_new
    demo_ops _ _ _)).
  - apply empty_well_numbered. vm_compute. reflexivity.
  - reflexivity.
  - exact demo_one_stream.
Defined.

Lemma outbox_inbox_exactly_once_witness :
  let x := outbox_run demo_decode demo_publish demo_ops
             (outbox_start InMemoryJournal_new [] OffsetStore_new) in
  let y := inbox_run demo_key demo_publish (relayed demo_decode (accepted (ob_relay x)))
             (mkInbox InboxStore_new [] []) in
  in_handler y = [Byte.x61; Byte.x62] ∧
  ∀ k, length (successes demo_key k (in_calls y)) ≤ 1.
Proof.
  split; [vm_compute; reflexivity|].
  refine (proj1 (outbox_inbox_exactly_once demo_decode demo_publish demo_key demo_publish
    InMemoryJournal_new [] OffsetStore_new demo_ops [] InboxStore_new _ _ _ _)).
  - apply empty_well_numbered. vm_compute. reflexivity.
  - reflexivity.
  - exact demo_one_stream.
  - reflexivity.
Defined.

Definition demo_offsets (n : N) : gmap string N := {[ "a" := n ]}.

Lemma offsets_durable_witness :
  JournalOffsetStore_load (JournalOffsetStore_new "o" "2"
    (offsets_run [OfSave (demo_offsets 1); OfSave (demo_offsets 2)]
      (JournalOffsetStore_new "o" "1" InMemoryJournal_new, InMemoryJournal_new)).2) = demo_offsets 2.
Proof.
  refine (offsets_durable "o" "1" "2" InMemoryJournal_new
    [OfSave (demo_offsets 1); OfSave (demo_offsets 2)] _ _ _ _).
  - exact I.
  - vm_compute. reflexivity.
  - repeat constructor.
  - change (offsets_ok (demo_offsets 2)). split; [|vm_compute; reflexivity].
    apply map_Forall_singleton. repeat split; vm_compute; reflexivity.
Defined.

(** ** What the code does not promise *)

(** Two saves whose tasks overlap: both read the same highest number, the second write is out
    of order and its error is dropped, so a restart loads the offsets of the first save. *)
Lemma overlapping_saves_lose :
  let j := InMemoryJournal_new in
  let s := JournalOffsetStore_new "o" "1" j in
  let '(s1, p1) := JournalOffsetStore_save (demo_offsets 1) s in
  let n1 := save_task_read s1 j in
  let '(s2, p2) := JournalOffsetStore_save (demo_offsets 2) s1 in
  let n2 := save_task_read s2 j in
  let j' := save_task_write s2 n2 p2 (save_task_write s1 n1 p1 j) in
  JournalOffsetStore_load s2 = demo_offsets 2 ∧ hydrate (offsets_pid "o") j' = demo_offsets 1.
Proof. vm_compute. by split. Qed.

(** A relay that tails the journal its own offsets are stored in reads its offset records. *)
Lemma relay_reads_own_offsets :
  let j := (offsets_run [OfSave (demo_offsets 1)]
              (JournalOffsetStore_new "o" "1" InMemoryJournal_new, InMemoryJournal_new)).2 in
  let r := poll_pids (inr : Bytes → string + Bytes) (λ e w, (true, e :: w)) ["outbox::o::offsets"] j
             (relay_start OffsetStore_new [] []) in
  sink r = [offsets_encode (demo_offsets 1)].
Proof. vm_compute. reflexivity. Qed.
