(* ===== verification/Saga.v ===== *)
(** * Sagas and process managers
    ([crates/atomr-patterns/src/saga/runner.rs], [saga/state_store.rs],
    [process_manager/runner.rs])

    The runners keep one state per correlation id.  The user's saga is the class [Saga]; its
    [&mut self] is the type [G].  The dispatcher's answer is ignored by the code, so a run has
    the dispatched commands as a trace, each with the correlation id of its event.  The state
    store is the interface [SagaStateStore] with its specification [SagaStoreSpec], which the
    in-memory store and the journal-backed store meet. *)

From stdpp Require Import gmap strings list.
From Stdlib Require Import NArith Lia.
From S2P Require Import Prelude Address Journal Eventsourced Outbox.

(** ** The saga trait *)

Inductive SagaAction (C : Type) :=
  | SaSend (c : C)
  | SaSchedule (c : C) (delay : N)
  | SaCompensate (cs : list C)
  | SaComplete.
Arguments SaSend {C} _.
Arguments SaSchedule {C} _ _.
Arguments SaCompensate {C} _.
Arguments SaComplete {C}.

(** [handle] may change the saga and the state, also when it fails. *)
Class Saga (G Event Command State Error : Type) := {
  correlation_id : Event → option string;
  handle : G → State → Event → G * State * (Error + list (SagaAction Command));
  state_default : State;
  encode_state : State → option (string + Bytes);
  decode_state : Bytes → string + State;
}.

(** A command goes to the dispatcher now, or from a task that sleeps first. *)
Inductive Dispatch (C : Type) :=
  | DispatchNow (c : C)
  | DispatchAfter (c : C) (delay : N).
Arguments DispatchNow {C} _.
Arguments DispatchAfter {C} _ _.

(** The loop over the actions; [Complete] leaves it. *)
Fixpoint run_actions {C} (actions : list (SagaAction C)) : list (Dispatch C) * bool :=
  match actions with
  | [] => ([], false)
  | SaSend c :: rest => let '(ds, b) := run_actions rest in (DispatchNow c :: ds, b)
  | SaSchedule c d :: rest => let '(ds, b) := run_actions rest in (DispatchAfter c d :: ds, b)
  | SaCompensate cs :: rest => let '(ds, b) := run_actions rest in ((DispatchNow <$> cs) ++ ds, b)
  | SaComplete :: _ => ([], true)
  end.

(** ** State stores *)

Class SagaStateStore (S : Type) := {
  saga_load : string → S → option Bytes;
  saga_save : string → Bytes → S → S;
  saga_delete : string → S → S;
  saga_keys : S → list string;
}.

(** [saga_store_ok n s]: the store works and has room for [n] more saves. *)
Class SagaStoreSpec (S : Type) `{SagaStateStore S} := {
  saga_store_ok : N → S → Prop;
  saga_store_less n s : saga_store_ok (1 + n) s → saga_store_ok n s;
  saga_save_spec n k v s : saga_store_ok (1 + n) s →
    saga_store_ok n (saga_save k v s) ∧
    ∀ k', saga_load k' (saga_save k v s) = if decide (k' = k) then Some v else saga_load k' s;
  saga_delete_spec n k s : saga_store_ok n s →
    saga_store_ok n (saga_delete k s) ∧
    ∀ k', saga_load k' (saga_delete k s) = if decide (k' = k) then None else saga_load k' s;
  saga_keys_spec n k s : saga_store_ok n s → is_Some (saga_load k s) → k ∈ saga_keys s;
}.

Record InMemorySagaStateStore := mkSagaStore { ss_inner : gmap string Bytes }.
Definition SagaStore_new : InMemorySagaStateStore := mkSagaStore ∅.
Definition SagaStore_load (k : string) (s : InMemorySagaStateStore) : option Bytes := ss_inner s !! k.
Definition SagaStore_save (k : string) (v : Bytes) (s : InMemorySagaStateStore) : InMemorySagaStateStore :=
  mkSagaStore (<[k := v]> (ss_inner s)).
Definition SagaStore_delete (k : string) (s : InMemorySagaStateStore) : InMemorySagaStateStore :=
  mkSagaStore (delete k (ss_inner s)).
Definition SagaStore_keys (s : InMemorySagaStateStore) : list string := (map_to_list (ss_inner s)).*1.

#[export] Instance InMemorySagaStateStore_ops : SagaStateStore InMemorySagaStateStore := {
  saga_load := SagaStore_load;
  saga_save := SagaStore_save;
  saga_delete := SagaStore_delete;
  saga_keys := SagaStore_keys;
}.

#[export] Program Instance InMemorySagaStateStore_spec : SagaStoreSpec InMemorySagaStateStore := {
  saga_store_ok _ _ := True;
}.
Next Obligation. done. Qed.
Next Obligation.
  intros n k v s _. split; [done|]. intros k'. cbn. unfold SagaStore_load. cbn.
  case_decide; simplify_map_eq; done.
Qed.
Next Obligation.
  intros n k s _. split; [done|]. intros k'. cbn. unfold SagaStore_load. cbn.
  case_decide; simplify_map_eq; done.
Qed.
Next Obligation.
  intros n k s _ [v Hv]. apply list_elem_of_fmap. exists (k, v). split; [done|]. by apply elem_of_map_to_list.
Qed.

(** The store over a journal. *)
Record JournalSagaStateStore (J : Type) := mkJournalSagaStore {
  jss_journal : J;
  jss_saga_name : string;
  jss_writer_uuid : string;
}.
Arguments mkJournalSagaStore {J} _ _ _.
Arguments jss_journal {J} _.
Arguments jss_saga_name {J} _.
Arguments jss_writer_uuid {J} _.

Section journal_store.
Context {J : Type} `{Journal J}.
Abbreviation Store := (JournalSagaStateStore J).

Definition JournalSagaStore_new (j : J) (name rand : string) : Store :=
  mkJournalSagaStore j name ("saga-" +:+ rand).

Definition saga_pid_prefix (s : Store) : string := "saga::" +:+ jss_saga_name s +:+ "::".
Definition saga_pid (s : Store) (k : string) : string := "saga::" +:+ jss_saga_name s +:+ "::" +:+ k.

Definition set_journal (j : J) (s : Store) : Store :=
  mkJournalSagaStore j (jss_saga_name s) (jss_writer_uuid s).

Definition JournalSagaStore_load (k : string) (s : Store) : option Bytes :=
  let pid := saga_pid s k in
  match highest_sequence_nr pid 0 (jss_journal s) with
  | inl _ => None
  | inr highest =>
      if (highest =? 0)%N then None
      else match replay_messages pid highest highest 1 (jss_journal s) with
           | inl _ => None
           | inr reprs => r ← last reprs; if deleted r then None else Some (payload r)
           end
  end.

Definition JournalSagaStore_save (k : string) (v : Bytes) (s : Store) : Store :=
  let pid := saga_pid s k in
  let next_seq := u64_add (match highest_sequence_nr pid 0 (jss_journal s) with inr n => n | inl _ => 0%N end) 1 in
  set_journal (write_messages [mkPersistentRepr pid next_seq v "saga-state" (jss_writer_uuid s) false
                                 ["saga::" +:+ jss_saga_name s]] (jss_journal s)).1 s.

Definition JournalSagaStore_delete (k : string) (s : Store) : Store :=
  let pid := saga_pid s k in
  match highest_sequence_nr pid 0 (jss_journal s) with
  | inr highest =>
      if (0 <? highest)%N then set_journal (delete_messages_to pid highest (jss_journal s)).1 s else s
  | inl _ => s
  end.

Definition JournalSagaStore_keys (s : Store) : list string :=
  omap (strip_prefix (saga_pid_prefix s))
    (match all_persistence_ids (jss_journal s) with inr ids => ids | inl _ => [] end).

#[export] Instance JournalSagaStateStore_ops : SagaStateStore Store := {
  saga_load := JournalSagaStore_load;
  saga_save := JournalSagaStore_save;
  saga_delete := JournalSagaStore_delete;
  saga_keys := JournalSagaStore_keys;
}.
End journal_store.

(** ** The runner *)

Record SagaRun (G State Command S : Type) := mkSagaRun {
  sr_saga : G;
  sr_states : gmap string State;
  sr_store : S;
  sr_trace : list (string * Dispatch Command);
}.
Arguments mkSagaRun {G State Command S} _ _ _ _.
Arguments sr_saga {G State Command S} _.
Arguments sr_states {G State Command S} _.
Arguments sr_store {G State Command S} _.
Arguments sr_trace {G State Command S} _.

Section runner.
Context {G Event Command State Error S : Type}.
Context `{HG : Saga G Event Command State Error} `{HS : SagaStateStore S}.
Abbreviation Run := (SagaRun G State Command S).

(** A key whose payload is gone or does not decode is dropped. *)
Definition rehydrate_key (s : S) (m : gmap string State) (corr : string) : gmap string State :=
  match saga_load corr s with
  | Some payload => match decode_state payload with inr st => <[corr := st]> m | inl _ => m end
  | None => m
  end.
Definition rehydrate (s : S) : gmap string State :=
  match encode_state state_default with
  | Some _ => foldl (rehydrate_key s) ∅ (saga_keys s)
  | None => ∅
  end.

(** [materialize] with a saga and a store. *)
Definition saga_start (g : G) (s : S) : Run := mkSagaRun g (rehydrate s) s [].

(** One event. *)
Definition saga_event (x : Run) (event : Event) : Run :=
  match correlation_id event with
  | None => x
  | Some corr =>
      let '(g, st, res) := handle (sr_saga x) (default state_default (sr_states x !! corr)) event in
      match res with
      | inr actions =>
          let s := match encode_state st with
                   | Some (inr payload) => saga_save corr payload (sr_store x)
                   | _ => sr_store x
                   end in
          let '(ds, completed) := run_actions actions in
          let trace := sr_trace x ++ ((corr,.) <$> ds) in
          if completed
          then mkSagaRun g (delete corr (sr_states x)) (saga_delete corr s) trace
          else mkSagaRun g (<[corr := st]> (sr_states x)) s trace
      | inl _ => mkSagaRun g (<[corr := st]> (sr_states x)) (sr_store x) (sr_trace x)
      end
  end.

Definition saga_run (events : list Event) (x : Run) : Run := foldl saga_event x events.

(** A new runner with the saga [g] on the store of an old one; the trace goes on. *)
Definition saga_restart (g : G) (x : Run) : Run :=
  mkSagaRun g (rehydrate (sr_store x)) (sr_store x) (sr_trace x).

(** The runner stops for good after [n] dispatches of the event: the state is saved before the
    first one, [delete] would come after the last one. *)
Definition saga_event_crash (n : nat) (x : Run) (event : Event) : Run :=
  match correlation_id event with
  | None => x
  | Some corr =>
      let '(g, st, res) := handle (sr_saga x) (default state_default (sr_states x !! corr)) event in
      match res with
      | inr actions =>
          let s := match encode_state st with
                   | Some (inr payload) => saga_save corr payload (sr_store x)
                   | _ => sr_store x
                   end in
          mkSagaRun g (<[corr := st]> (sr_states x)) s
            (sr_trace x ++ ((corr,.) <$> take n (run_actions actions).1))
      | inl _ => mkSagaRun g (<[corr := st]> (sr_states x)) (sr_store x) (sr_trace x)
      end
  end.
End runner.

(** ** The journal-backed store meets the specification *)

Section journal_store_spec.
Context {J : Type} `{HL : JournalLists J}.

Definition last_payload (l : list PersistentRepr) : option Bytes :=
  r ← last l; if deleted r then None else Some (payload r).

Lemma saga_pid_app (s : JournalSagaStateStore J) k : saga_pid s k = saga_pid_prefix s +:+ k.
Proof. unfold saga_pid, saga_pid_prefix. by rewrite !string_app_assoc. Qed.

Lemma saga_pid_inj (s : JournalSagaStateStore J) k k' : saga_pid s k = saga_pid s k' → k = k'.
Proof. rewrite !saga_pid_app. apply string_app_cancel_l. Qed.

Lemma JournalSagaStore_load_view room s k :
  well_numbered room (jss_journal s) →
  JournalSagaStore_load k s = last_payload (journal_view (jss_journal s) (saga_pid s k)).
Proof.
  intros Hw. destruct (Hw (saga_pid s k)) as [Hn Hb]. unfold JournalSagaStore_load, last_payload.
  rewrite journal_highest. set (l := journal_view (jss_journal s) (saga_pid s k)) in *.
  destruct (numbered_last _ l Hn) as [Hlast _]; [unfold u64_max in Hb; unfold u64_modulus; lia|].
  destruct (last l) as [r|] eqn:Er.
  - assert (length l ≠ 0) by (intros Hz%nil_length_inv; by rewrite Hz in Er).
    rewrite (proj2 (N.eqb_neq _ _)) by lia. rewrite journal_replay. fold l.
    rewrite (numbered_last_unread _ _ r) by (done || lia). by destruct (deleted r) eqn:Ed; cbn; rewrite ?Ed.
  - apply last_None in Er. by rewrite Hlast, Er.
Qed.

Lemma JournalSagaStore_save_view room s k v :
  well_numbered (1 + room) (jss_journal s) →
  well_numbered room (jss_journal (JournalSagaStore_save k v s)) ∧
  ∀ k', last_payload (journal_view (jss_journal (JournalSagaStore_save k v s)) (saga_pid s k')) =
    if decide (k' = k) then Some v else last_payload (journal_view (jss_journal s) (saga_pid s k')).
Proof.
  intros Hw. destruct (Hw (saga_pid s k)) as [Hn Hb]. unfold JournalSagaStore_save. cbn [jss_journal set_journal].
  rewrite journal_highest.
  destruct (numbered_last _ _ Hn) as [Hl He]; [unfold u64_max in Hb; unfold u64_modulus; lia|].
  match goal with |- context [write_messages [?r]] => set (rec := r) end.
  assert (Hnum : numbered (saga_pid s k) (expected_nr (journal_view (jss_journal s) (saga_pid s k))) [rec]).
  { cbn. by rewrite Hl, He. }
  destruct (write_view room _ [rec] _ _ Hnum Hw) as (Hw' & _ & _ & _ & Hq). split; [done|]. intros k'.
  case_decide as Hk.
  - subst k'. destruct (journal_write_ok _ _ _ Hnum) as (j' & -> & Hv). cbn [fst]. rewrite Hv.
    unfold last_payload. by rewrite last_snoc.
  - rewrite Hq; [done|]. by intros ->%saga_pid_inj.
Qed.

Lemma JournalSagaStore_delete_view room s k :
  well_numbered room (jss_journal s) →
  well_numbered room (jss_journal (JournalSagaStore_delete k s)) ∧
  jss_saga_name (JournalSagaStore_delete k s) = jss_saga_name s ∧
  ∀ k', last_payload (journal_view (jss_journal (JournalSagaStore_delete k s)) (saga_pid s k')) =
    if decide (k' = k) then None else last_payload (journal_view (jss_journal s) (saga_pid s k')).
Proof.
  intros Hw. destruct (Hw (saga_pid s k)) as [Hn Hb]. unfold JournalSagaStore_delete. rewrite journal_highest.
  destruct (numbered_last _ _ Hn) as [Hl _]; [unfold u64_max in Hb; unfold u64_modulus; lia|].
  destruct (N.ltb_spec 0 (last_nr (journal_view (jss_journal s) (saga_pid s k)))) as [Hpos|Hz].
  - cbn [jss_journal set_journal jss_saga_name]. split; [by apply delete_view|]. split; [done|]. intros k'.
    rewrite journal_delete. destruct (decide (k' = k)) as [->|Hk].
    + rewrite decide_True by done. unfold last_payload. rewrite fmap_last.
      destruct (last (journal_view (jss_journal s) (saga_pid s k))) as [r|] eqn:Er; [|done]. cbn.
      unfold mark_deleted, last_nr. rewrite Er, N.leb_refl. done.
    + by rewrite decide_False by (by intros ->%saga_pid_inj).
  - split_and!; [done|done|]. intros k'. case_decide; [|done]. subst k'.
    destruct (journal_view (jss_journal s) (saga_pid s k)) as [|r l] eqn:E; [done|]. cbn [length] in Hl. lia.
Qed.

#[export] Program Instance JournalSagaStateStore_spec : SagaStoreSpec (JournalSagaStateStore J) := {
  saga_store_ok n s := well_numbered n (jss_journal s);
}.
Next Obligation. intros n s Hw pid. destruct (Hw pid). split; [done|lia]. Qed.
Next Obligation.
  intros n k v s Hw. destruct (JournalSagaStore_save_view n s k v Hw) as [Hw' Hl]. split; [done|].
  intros k'. cbn. rewrite !(JournalSagaStore_load_view _ _ _ Hw), (JournalSagaStore_load_view _ _ _ Hw').
  apply Hl.
Qed.
Next Obligation.
  intros n k s Hw. destruct (JournalSagaStore_delete_view n s k Hw) as (Hw' & Hname & Hl). split; [done|].
  intros k'. cbn. rewrite !(JournalSagaStore_load_view _ _ _ Hw), (JournalSagaStore_load_view _ _ _ Hw').
  rewrite <- Hl. unfold saga_pid. by rewrite Hname.
Qed.
Next Obligation.
  intros n k s Hw. cbn. rewrite (JournalSagaStore_load_view _ _ _ Hw). intros [v Hv].
  unfold JournalSagaStore_keys. destruct (journal_lists (jss_journal s)) as (ids & -> & Hin).
  apply list_elem_of_omap. exists (saga_pid s k). split.
  - apply Hin. intros Hnil. by rewrite Hnil in Hv.
  - unfold strip_prefix. rewrite saga_pid_app, prefix_app, string_drop_app. done.
Qed.
End journal_store_spec.

(** ** Process managers *)

Inductive Transition (St C : Type) :=
  | Stay
  | Goto (next : St) (commands : list C)
  | PmComplete (commands : list C).
Arguments Stay {St C}.
Arguments Goto {St C} _ _.
Arguments PmComplete {St C} _.

Class ProcessManager (Event Command State Error : Type) := {
  pm_correlation_id : Event → option string;
  pm_transition : State → Event → Error + Transition State Command;
  pm_default : State;
}.

Section process_manager.
Context {Event Command State Error : Type} `{HP : ProcessManager Event Command State Error}.

Record PmRun := mkPmRun {
  pm_states : gmap string State;
  pm_trace : list (string * Command);
}.

Definition pm_start : PmRun := mkPmRun ∅ [].

Definition pm_event (x : PmRun) (event : Event) : PmRun :=
  match pm_correlation_id event with
  | None => x
  | Some corr =>
      let state := default pm_default (pm_states x !! corr) in
      match pm_transition state event with
      | inr Stay => mkPmRun (<[corr := state]> (pm_states x)) (pm_trace x)
      | inr (Goto next commands) =>
          mkPmRun (<[corr := next]> (pm_states x)) (pm_trace x ++ ((corr,.) <$> commands))
      | inr (PmComplete commands) =>
          mkPmRun (delete corr (pm_states x)) (pm_trace x ++ ((corr,.) <$> commands))
      | inl _ => mkPmRun (<[corr := state]> (pm_states x)) (pm_trace x)
      end
  end.

Definition pm_run (events : list Event) (x : PmRun) : PmRun := foldl pm_event x events.

(** ** One process on its own *)

Definition pm_step (st : State) (event : Event) : State * list Command :=
  match pm_transition st event with
  | inr Stay | inl _ => (st, [])
  | inr (Goto next commands) => (next, commands)
  | inr (PmComplete commands) => (pm_default, commands)
  end.
End process_manager.

(** ** Independent instances

    A map of states with a trace behaves as one machine per key when an event reads and writes
    the state of its own key only. *)

Section keyed.
Context {Event State Out : Type} (corr : Event → option string) (dflt : State).
Context (step : State → Event → State * list Out).

(** The events of a key. *)
Definition own (k : string) (events : list Event) : list Event := filter (λ e, corr e = Some k) events.

(** One machine. *)
Definition instance_step (x : State * list Out) (e : Event) : State * list Out :=
  let '(st, out) := step x.1 e in (st, x.2 ++ out).
Definition instance_run (events : list Event) : State * list Out := foldl instance_step (dflt, []) events.

Definition lookup_state (m : gmap string State) (k : string) : State := default dflt (m !! k).
Definition outputs (k : string) (trace : list (string * Out)) : list Out :=
  (filter (λ o, o.1 = k) trace).*2.

Definition independent (events : list Event) (m : gmap string State) (trace : list (string * Out)) : Prop :=
  ∀ k, instance_run (own k events) = (lookup_state m k, outputs k trace).

Lemma outputs_app k t1 t2 : outputs k (t1 ++ t2) = outputs k t1 ++ outputs k t2.
Proof. unfold outputs. by rewrite filter_app, fmap_app. Qed.

Lemma outputs_tag k c (out : list Out) : outputs k ((c,.) <$> out) = if decide (c = k) then out else [].
Proof.
  unfold outputs. induction out as [|o out IH]; [by case_decide|]. rewrite fmap_cons, filter_cons. cbn [fst].
  case_decide; [by rewrite fmap_cons, IH|done].
Qed.

Lemma independent_step events m trace e c m' out :
  independent events m trace → corr e = Some c →
  step (lookup_state m c) e = (lookup_state m' c, out) →
  (∀ k, k ≠ c → lookup_state m' k = lookup_state m k) →
  independent (events ++ [e]) m' (trace ++ ((c,.) <$> out)).
Proof.
  intros Hi Hc Hs Hm k. unfold own. rewrite filter_app, filter_cons, Hc, outputs_app, outputs_tag.
  specialize (Hi k). unfold own in Hi. destruct (decide (c = k)) as [->|Hk].
  - rewrite decide_True by done. unfold instance_run in *. rewrite foldl_app, Hi. cbn.
    unfold instance_step. cbn. by rewrite Hs.
  - rewrite decide_False by naive_solver. cbn [filter list_filter]. by rewrite !app_nil_r, Hi, Hm.
Qed.

Lemma independent_insert events m trace e c st out :
  independent events m trace → corr e = Some c → step (lookup_state m c) e = (st, out) →
  independent (events ++ [e]) (<[c := st]> m) (trace ++ ((c,.) <$> out)).
Proof.
  intros Hi Hc Hs. eapply independent_step; [done|done| |].
  - rewrite Hs. unfold lookup_state. by rewrite lookup_insert_eq.
  - intros k Hk. unfold lookup_state. by rewrite lookup_insert_ne.
Qed.

Lemma independent_delete events m trace e c out :
  independent events m trace → corr e = Some c → step (lookup_state m c) e = (dflt, out) →
  independent (events ++ [e]) (delete c m) (trace ++ ((c,.) <$> out)).
Proof.
  intros Hi Hc Hs. eapply independent_step; [done|done| |].
  - rewrite Hs. unfold lookup_state. by rewrite lookup_delete_eq.
  - intros k Hk. unfold lookup_state. by rewrite lookup_delete_ne.
Qed.

(** An event without output. *)
Lemma independent_silent events m trace e c st :
  independent events m trace → corr e = Some c → step (lookup_state m c) e = (st, []) →
  independent (events ++ [e]) (<[c := st]> m) trace.
Proof. intros Hi Hc Hs. rewrite <- (app_nil_r trace). by apply (independent_insert _ _ _ _ _ _ [] Hi Hc Hs). Qed.

Lemma independent_skip events m trace e :
  independent events m trace → corr e = None → independent (events ++ [e]) m trace.
Proof.
  intros Hi Hc k. unfold own. rewrite filter_app, filter_cons, Hc, decide_False by done.
  rewrite filter_nil, app_nil_r. apply Hi.
Qed.

Lemma independent_nil : independent [] ∅ [].
Proof. intros k. cbn. unfold lookup_state. by rewrite lookup_empty. Qed.
End keyed.

Section pm_instances.
Context {Event Command State Error : Type} `{HP : ProcessManager Event Command State Error}.

(** A process manager is one state machine per correlation id.  After any events, the state
    kept for an id (the default one when there is none) and the commands dispatched for it, in
    order, are those of a single machine that starts in the default state and gets exactly the
    events of that id: [Stay] and errors keep the state, [Goto] moves and dispatches,
    [Complete] dispatches and starts over. *)
Theorem pm_refines_instances (events : list Event) :
  let x := pm_run events pm_start in
  independent pm_correlation_id pm_default pm_step events (pm_states x) (pm_trace x).
Proof.
  induction events as [|e events IH] using rev_ind; [apply independent_nil|].
  cbn zeta in *. unfold pm_run in *. rewrite foldl_app. cbn [foldl].
  set (x := foldl pm_event pm_start events) in *. unfold pm_event.
  destruct (pm_correlation_id e) as [c|] eqn:Ec; [|by apply independent_skip].
  fold (lookup_state pm_default (pm_states x) c).
  destruct (pm_transition (lookup_state pm_default (pm_states x) c) e) as [err|[|next cs|cs]] eqn:Et;
    cbn [pm_states pm_trace].
  - apply independent_silent; [done|done|]. unfold pm_step. by rewrite Et.
  - apply independent_silent; [done|done|]. unfold pm_step. by rewrite Et.
  - apply independent_insert; [done|done|]. unfold pm_step. by rewrite Et.
  - apply independent_delete; [done|done|]. unfold pm_step. by rewrite Et.
Qed.
End pm_instances.

(** ** Sagas *)

Section saga_spec.
Context {G Event Command State Error S : Type}.
Context `{HG : Saga G Event Command State Error} `{HS : SagaStoreSpec S}.

(** A saga whose own fields do not change. *)
Definition saga_stateless : Prop := ∀ g st e, (handle g st e).1.1 = g.

(** Every state is stored and read back. *)
Definition saga_codec : Prop :=
  ∀ st, ∃ payload, encode_state st = Some (inr payload) ∧ decode_state payload = inr st.

(** A failed [handle] leaves the state as it was. *)
Definition saga_clean : Prop :=
  ∀ g st e err, (handle g st e).2 = inl err → (handle g st e).1.2 = st.

(** One saga on its own. *)
Definition saga_step (g : G) (st : State) (e : Event) : State * list (Dispatch Command) :=
  let '(_, st', res) := handle g st e in
  match res with
  | inr actions => let '(ds, completed) := run_actions actions in (if completed then state_default else st', ds)
  | inl _ => (st', [])
  end.

Lemma rehydrate_foldl s m keys k :
  foldl (rehydrate_key s) m keys !! k =
    if decide (k ∈ keys)
    then match saga_load k s with
         | Some payload => match decode_state payload with inr st => Some st | inl _ => m !! k end
         | None => m !! k
         end
    else m !! k.
Proof.
  revert m; induction keys as [|c keys IH]; intros m; cbn [foldl].
  { rewrite decide_False; [done|]. by intros ?%not_elem_of_nil. }
  rewrite IH. unfold rehydrate_key.
  destruct (decide (k = c)) as [->|Hk].
  - rewrite (decide_True (P := c ∈ c :: keys)) by set_solver.
    destruct (saga_load c s) as [p|] eqn:El; [|by case_decide].
    destruct (decode_state p) as [err|st] eqn:Ed; [by case_decide|].
    case_decide; [done|]. by rewrite lookup_insert_eq.
  - assert (Hm : ∀ m', (match saga_load c s with
        | Some payload => match decode_state payload with inr st => <[c := st]> m' | inl _ => m' end
        | None => m' end : gmap string State) !! k = m' !! k).
    { intros m'. repeat case_match; rewrite ?lookup_insert_ne by done; done. }
    rewrite !Hm. by rewrite (decide_ext (k ∈ keys) (k ∈ c :: keys)) by set_solver.
Qed.

Definition stored_state (s : S) (k : string) : option State :=
  p ← saga_load k s; match decode_state p with inr st => Some st | inl _ => None end.

Lemma lookup_rehydrate n s k :
  saga_codec → saga_store_ok n s → rehydrate s !! k = stored_state s k.
Proof.
  intros Hc Hok. unfold rehydrate, stored_state. destruct (Hc state_default) as (p & -> & _).
  rewrite rehydrate_foldl, lookup_empty. destruct (saga_load k s) as [v|] eqn:El; [|by case_decide].
  rewrite decide_True by (eapply saga_keys_spec; [done|rewrite El; by eexists]).
  cbn. by destruct (decode_state v).
Qed.

(** The store holds the states of the map, up to the default state. *)
Definition saga_synced (n : N) (x : SagaRun G State Command S) : Prop :=
  saga_store_ok n (sr_store x) ∧
  ∀ k, lookup_state state_default (sr_states x) k = default state_default (stored_state (sr_store x) k).

(** What an event does to the states and the trace. *)
Lemma saga_event_step x e c :
  saga_stateless → correlation_id e = Some c →
  let x' := saga_event x e in
  let '(st, ds) := saga_step (sr_saga x) (lookup_state state_default (sr_states x) c) e in
  sr_saga x' = sr_saga x ∧ sr_trace x' = sr_trace x ++ ((c,.) <$> ds) ∧
  lookup_state state_default (sr_states x') c = st ∧
  ∀ k, k ≠ c → lookup_state state_default (sr_states x') k = lookup_state state_default (sr_states x) k.
Proof.
  intros Hg Hc. cbn zeta. unfold saga_event, saga_step. rewrite Hc.
  fold (lookup_state state_default (sr_states x) c).
  specialize (Hg (sr_saga x) (lookup_state state_default (sr_states x) c) e).
  destruct (handle _ _ e) as [[g st] res]. cbn in Hg. subst g. unfold lookup_state.
  destruct res as [err|actions]; [|destruct (run_actions actions) as [ds [|]]];
    cbn [sr_saga sr_trace sr_states]; split_and!; try done; try (by rewrite app_nil_r);
    rewrite ?lookup_insert_eq, ?lookup_delete_eq; try done; intros k Hk;
    by rewrite ?lookup_insert_ne, ?lookup_delete_ne.
Qed.

Lemma saga_event_skip x e : correlation_id e = None → saga_event x e = x.
Proof. intros Hc. unfold saga_event. by rewrite Hc. Qed.

(** Runners that agree on the saga, the trace and the states up to the default one. *)
Definition saga_agree (x y : SagaRun G State Command S) : Prop :=
  sr_saga x = sr_saga y ∧ sr_trace x = sr_trace y ∧
  ∀ k, lookup_state state_default (sr_states x) k = lookup_state state_default (sr_states y) k.

Lemma saga_agree_trans x y z : saga_agree x y → saga_agree y z → saga_agree x z.
Proof.
  intros (Hg & Ht & Hs) (Hg' & Ht' & Hs'). split_and!; [congruence|congruence|]. intros k. by rewrite Hs.
Qed.

Lemma saga_event_agree x y e :
  saga_stateless → saga_agree x y → saga_agree (saga_event x e) (saga_event y e).
Proof.
  intros Hst (Hg & Ht & Hs). destruct (correlation_id e) as [c|] eqn:Ec; [|by rewrite !saga_event_skip].
  pose proof (saga_event_step x e c Hst Ec) as Hx. pose proof (saga_event_step y e c Hst Ec) as Hy.
  cbn zeta in Hx, Hy. rewrite Hg, Hs in Hx. destruct (saga_step _ _ e) as [st ds].
  destruct Hx as (Hgx & Htx & Hcx & Hox), Hy as (Hgy & Hty & Hcy & Hoy). split_and!.
  - by rewrite Hgx, Hgy.
  - by rewrite Htx, Hty, Ht.
  - intros k. destruct (decide (k = c)) as [->|Hk]; [by rewrite Hcx, Hcy|]. by rewrite Hox, Hoy.
Qed.

Lemma saga_run_agree events x y :
  saga_stateless → saga_agree x y → saga_agree (saga_run events x) (saga_run events y).
Proof.
  intros Hst. revert x y; induction events as [|e events IH]; intros x y Hxy; [done|].
  cbn. apply IH. by apply saga_event_agree.
Qed.

Lemma saga_event_synced n x e :
  saga_codec → saga_clean → saga_synced (1 + n) x → saga_synced n (saga_event x e).
Proof.
  intros Hcodec Hclean [Hok Hs]. unfold saga_event. destruct (correlation_id e) as [c|];
    [|split; [by apply saga_store_less|done]].
  fold (lookup_state state_default (sr_states x) c).
  pose proof (Hclean (sr_saga x) (lookup_state state_default (sr_states x) c) e) as Hcl.
  destruct (handle _ _ e) as [[g st] [err|actions]].
  - specialize (Hcl err eq_refl). cbn in Hcl. subst st. split; cbn; [by apply saga_store_less|].
    intros k. rewrite <- Hs. unfold lookup_state. destruct (decide (k = c)) as [->|Hk].
    + by rewrite lookup_insert_eq.
    + by rewrite lookup_insert_ne.
  - destruct (Hcodec st) as (p & -> & Hdec). destruct (saga_save_spec n c p _ Hok) as [Hok' Hl].
    destruct (run_actions actions) as [ds [|]]; split; cbn [sr_store sr_states].
    + by apply saga_delete_spec.
    + destruct (saga_delete_spec n c _ Hok') as [_ Hd]. intros k. unfold lookup_state, stored_state.
      rewrite Hd, Hl. case_decide as Hk; [subst; by rewrite lookup_delete_eq|].
      rewrite lookup_delete_ne by done. apply Hs.
    + done.
    + intros k. unfold lookup_state, stored_state. rewrite Hl.
      case_decide as Hk; [subst; rewrite lookup_insert_eq; cbn; by rewrite Hdec|].
      rewrite lookup_insert_ne by done. apply Hs.
Qed.

Lemma saga_run_synced n events x :
  saga_codec → saga_clean → saga_synced (N.of_nat (length events) + n) x → saga_synced n (saga_run events x).
Proof.
  intros Hc Hcl. revert x; induction events as [|e events IH]; intros x Hx; [done|]. cbn. apply IH.
  apply saga_event_synced; [done|done|]. cbn [length] in Hx.
  by replace (N.of_nat (Datatypes.S (length events)) + n)%N with (1 + (N.of_nat (length events) + n))%N in Hx by lia.
Qed.

Lemma saga_restart_agree n x :
  saga_codec → saga_synced n x → saga_agree (saga_restart (sr_saga x) x) x ∧
  saga_synced n (saga_restart (sr_saga x) x).
Proof.
  intros Hc [Hok Hs].
  assert (Hl : ∀ k, lookup_state state_default (rehydrate (sr_store x)) k =
                    default state_default (stored_state (sr_store x) k)).
  { intros k. unfold lookup_state. by rewrite (lookup_rehydrate n). }
  split; [split_and!|split]; cbn; [done|done| |done|done]. intros k. by rewrite Hl, Hs.
Qed.
End saga_spec.

Section saga_theorems.
Context {G Event Command State Error S : Type}.
Context `{HG : Saga G Event Command State Error} `{HS : SagaStoreSpec S}.

(** A saga runner is one saga per correlation id.  With a saga that keeps no state of its
    own and a store without saved states, after any events the state kept for an id and the
    commands dispatched for it, in order, are those of a single saga that gets exactly the
    events of that id: immediate, scheduled and compensating commands up to the first
    [Complete], which starts over, and no command when [handle] fails. *)
Theorem saga_refines_instances (g : G) (s : S) (events : list Event) :
  saga_stateless → rehydrate s = ∅ →
  let x := saga_run events (saga_start g s) in
  independent correlation_id state_default (saga_step g) events (sr_states x) (sr_trace x).
Proof.
  intros Hg He. cbn zeta. unfold saga_start. rewrite He.
  enough (sr_saga (saga_run events (mkSagaRun g ∅ s [])) = g ∧
    independent correlation_id state_default (saga_step g) events
      (sr_states (saga_run events (mkSagaRun g ∅ s []))) (sr_trace (saga_run events (mkSagaRun g ∅ s [])))) by tauto.
  induction events as [|e events [IHg IH]] using rev_ind; [split; [done|apply independent_nil]|].
  unfold saga_run in *. rewrite foldl_app. cbn [foldl]. set (x := foldl saga_event _ events) in *.
  destruct (correlation_id e) as [c|] eqn:Ec.
  - pose proof (saga_event_step x e c Hg Ec) as Hx. cbn zeta in Hx. rewrite IHg in Hx.
    destruct (saga_step g _ e) as [st ds] eqn:Es. destruct Hx as (Hgx & Htx & Hcx & Hox).
    split; [done|]. rewrite Htx. eapply independent_step; [done|done| |done]. by rewrite Hcx.
  - rewrite saga_event_skip by done. split; [done|]. by apply independent_skip.
Qed.

(** Runners that handle one batch of events each, every one started on the store of the last. *)
Definition saga_batches (g : G) (batches : list (list Event)) (x : SagaRun G State Command S)
    : SagaRun G State Command S :=
  foldl (λ x events, saga_restart g (saga_run events x)) x batches.

(** Restarts of a saga runner are invisible.  With a store that works and has room for the
    saves, a codec that reads back what it writes, a saga without state of its own and whose
    failures leave the state alone, handle the events in batches with a restart after each:
    the commands dispatched and the states, up to the default one, are those of one runner
    that handles all the events without a restart. *)
Theorem saga_restart_transparent (g : G) (s : S) (batches : list (list Event)) :
  saga_stateless → saga_codec → saga_clean →
  saga_store_ok (N.of_nat (length (concat batches))) s →
  saga_agree (saga_batches g batches (saga_start g s)) (saga_run (concat batches) (saga_start g s)).
Proof.
  intros Hg Hc Hcl Hok.
  assert (Hstart : saga_synced (N.of_nat (length (concat batches))) (saga_start g s)).
  { split; [done|]. intros k. cbn. unfold lookup_state. by rewrite (lookup_rehydrate _ _ _ Hc Hok). }
  clear Hok.
  enough (Hgen : ∀ x y, sr_saga x = g → saga_agree x y →
    saga_synced (N.of_nat (length (concat batches))) x →
    saga_agree (saga_batches g batches x) (saga_run (concat batches) y)) by by apply Hgen.
  clear Hstart s. induction batches as [|events batches IH]; intros x y Hx Hxy Hs; [done|].
  cbn [concat] in *. unfold saga_batches, saga_run in *. rewrite foldl_app. cbn [foldl].
  rewrite length_app, Nat2N.inj_add in Hs.
  pose proof (saga_run_synced _ events x Hc Hcl Hs) as Hs'.
  pose proof (saga_run_agree events x y Hg Hxy) as Ha.
  destruct (saga_restart_agree _ _ Hc Hs') as [Hr Hrs].
  assert (Hgx : sr_saga (saga_run events x) = g).
  { clear -Hg Hx. revert x Hx; induction events as [|e events IH]; intros x Hx; [done|]. cbn. apply IH.
    destruct (correlation_id e) as [c|] eqn:Ec; [|by rewrite saga_event_skip].
    pose proof (saga_event_step x e c Hg Ec) as He. cbn zeta in He.
    destruct (saga_step _ _ e) as [st ds]. destruct He as [-> _]. done. }
  rewrite Hgx in Hr, Hrs. apply IH; [done| |done].
  exact (saga_agree_trans _ _ _ Hr Ha).
Qed.
End saga_theorems.

(** ** Concrete sagas *)

(** An event is a correlation id and a number: 0 counts and fails, 1 counts and sends twice,
    any other number completes. *)
Definition demo_handle (g : unit) (st : nat) (e : string * nat)
    : unit * nat * (string + list (SagaAction nat)) :=
  match e.2 with
  | 0 => (g, st + 1, inl "refused")
  | 1 => (g, st + 1, inr [SaSend st; SaSend (st + 100)])
  | _ => (g, st, inr [SaSend st; SaComplete])
  end.

(** The same saga, whose failures leave the state alone. *)
Definition tidy_handle (g : unit) (st : nat) (e : string * nat)
    : unit * nat * (string + list (SagaAction nat)) :=
  match e.2 with 0 => (g, st, inl "refused") | _ => demo_handle g st e end.

Definition demo_saga (h : unit → nat → string * nat → unit * nat * (string + list (SagaAction nat)))
    : Saga unit (string * nat) nat nat string := {|
  correlation_id e := Some e.1;
  handle := h;
  state_default := 0;
  encode_state st := Some (inr (replicate st Byte.x00));
  decode_state bs := inr (length bs);
|}.

Definition demo_store : JournalSagaStateStore InMemoryJournal := JournalSagaStore_new InMemoryJournal_new "a" "1".
Definition demo_batches : list (list (string * nat)) := [[("k", 1); ("l", 1)]; [("k", 0); ("k", 1)]; [("k", 2)]].

Lemma saga_refines_instances_witness :
  let _ := demo_saga demo_handle in
  let x := saga_run (concat demo_batches) (saga_start tt demo_store) in
  instance_run 0 (saga_step tt) (own correlation_id "k" (concat demo_batches)) =
    (lookup_state 0 (sr_states x) "k", outputs "k" (sr_trace x)) ∧
  outputs "k" (sr_trace x) = DispatchNow <$> [0; 100; 2; 102; 3].
Proof.
  cbn zeta. split; [|vm_compute; reflexivity].
  refine (@saga_refines_instances _ _ _ _ _ _ (demo_saga demo_handle) _ tt demo_store (concat demo_batches) _ _ "k").
  - intros [] st [k [|[|n]]]; reflexivity.
  - vm_compute. reflexivity.
Defined.

Lemma saga_restart_transparent_witness :
  let _ := demo_saga tidy_handle in
  saga_agree (saga_batches tt demo_batches (saga_start tt demo_store))
    (saga_run (concat demo_batches) (saga_start tt demo_store)).
Proof.
  refine (@saga_restart_transparent _ _ _ _ _ _ (demo_saga tidy_handle) _ _ tt demo_store demo_batches _ _ _ _).
  - intros [] st [k [|[|n]]]; reflexivity.
  - intros st. exists (replicate st Byte.x00). split; [reflexivity|]. cbn. by rewrite length_replicate.
  - intros [] st [k [|[|n]]] err; cbn; [reflexivity|discriminate|discriminate].
  - apply empty_well_numbered. vm_compute. reflexivity.
Defined.

(** ** What the code does not promise *)

(** A failed [handle] changes the state in memory and not the stored one: the next command
    depends on whether there was a restart in between. *)
Lemma saga_failure_not_stored :
  let _ := demo_saga demo_handle in
  let x := saga_run [("k", 0)] (saga_start tt demo_store) in
  sr_trace (saga_run [("k", 1)] x) = (λ c, ("k", DispatchNow c)) <$> [1; 101] ∧
  sr_trace (saga_run [("k", 1)] (saga_restart tt x)) = (λ c, ("k", DispatchNow c)) <$> [0; 100].
Proof. vm_compute. by split. Qed.

(** A crash between two dispatches: the state is saved, so the second command is never sent. *)
Lemma saga_crash_loses_command :
  let _ := demo_saga demo_handle in
  let x := saga_restart tt (saga_event_crash 1 (saga_start tt demo_store) ("k", 1)) in
  sr_trace (saga_run [("k", 2)] x) = (λ c, ("k", DispatchNow c)) <$> [0; 1].
Proof. vm_compute. reflexivity. Qed.

(** Two stores on one journal, named [a] and [a::b]: the first lists and loads a state that the
    second saved. *)
Lemma saga_names_overlap :
  let s := saga_save "c" [Byte.x2a] (JournalSagaStore_new InMemoryJournal_new "a::b" "1") in
  let other := JournalSagaStore_new (jss_journal s) "a" "2" in
  saga_keys other = ["b::c"] ∧ saga_load "b::c" other = Some [Byte.x2a].
Proof. vm_compute. by split. Qed.
