(* ===== verification/Config.v ===== *)
(** * Configuration values ([crates/atomr-config/src/value.rs], [path.rs], [error.rs], the tree
    operations of [hocon.rs])

    A value is the tree of the source; an object is a map from keys to values.  Floating-point
    numbers are the class [F64] with the operations the code uses; the TOML reader is a library,
    so [from_toml_str] takes its result. *)

From stdpp Require Import gmap strings list.
From Stdlib Require Import NArith ZArith Lia Ascii.
From S2P Require Import Prelude Encoding Address.

(** The 64-bit floating-point numbers: parsing, products with a constant, casts. *)
Class F64 (F : Type) := {
  f64_parse : string → option F;
  f64_mul : F → Z → F;
  f64_as_i64 : F → Z;
  f64_as_u64 : F → N;
}.

#[warnings="-register-all"]
Inductive ConfigValue (F : Type) :=
  | CNull
  | CBool (b : bool)
  | CInt (i : Z)
  | CFloat (f : F)
  | CString (s : string)
  | CArray (items : list (ConfigValue F))
  | CObject (o : gmap string (ConfigValue F)).
Arguments CNull {F}.
Arguments CBool {F} _.
Arguments CInt {F} _.
Arguments CFloat {F} _.
Arguments CString {F} _.
Arguments CArray {F} _.
Arguments CObject {F} _.

Inductive ConfigError :=
  | CfgNotFound (path : string)
  | CfgWrongType (path expected : string)
  | CfgToml (msg : string)
  | CfgInvalidKey (key : string).

(** A TOML document as its library returns it. *)
#[warnings="-register-all"]
Inductive TomlValue (F : Type) :=
  | TomlString (s : string)
  | TomlInteger (i : Z)
  | TomlFloat (f : F)
  | TomlBoolean (b : bool)
  | TomlDatetime (shown : string)
  | TomlArray (a : list (TomlValue F))
  | TomlTable (t : gmap string (TomlValue F)).
Arguments TomlString {F} _.
Arguments TomlInteger {F} _.
Arguments TomlFloat {F} _.
Arguments TomlBoolean {F} _.
Arguments TomlDatetime {F} _.
Arguments TomlArray {F} _.
Arguments TomlTable {F} _.

(** ** Paths *)

(** [str::split] by a character. *)
Fixpoint split_char (c : ascii) (s : string) : list string :=
  match s with
  | EmptyString => [EmptyString]
  | String d s' =>
      if Ascii.eqb d c then EmptyString :: split_char c s'
      else match split_char c s' with
           | [] => [String d EmptyString]
           | part :: parts => String d part :: parts
           end
  end.

Definition ConfigPath := list string.
Definition ConfigPath_parse (path : string) : ConfigPath :=
  filter (λ s, s ≠ EmptyString) (split_char "." path).
Definition ConfigPath_push (segment : string) (p : ConfigPath) : ConfigPath := p ++ [segment].
Definition ConfigPath_is_empty (p : ConfigPath) : bool := match p with [] => true | _ => false end.

(** [segments.join(".")]. *)
Fixpoint ConfigPath_display (p : ConfigPath) : string :=
  match p with
  | [] => EmptyString
  | [s] => s
  | s :: p' => s +:+ "." +:+ ConfigPath_display p'
  end.

Section config.
Context {F : Type}.
Abbreviation Value := (ConfigValue F).
Abbreviation Object := (gmap string Value).

Definition type_name (v : Value) : string :=
  match v with
  | CNull => "null"
  | CBool _ => "bool"
  | CInt _ => "int"
  | CFloat _ => "float"
  | CString _ => "string"
  | CArray _ => "array"
  | CObject _ => "object"
  end.

Fixpoint from_toml (v : TomlValue F) : Value :=
  match v with
  | TomlString s => CString s
  | TomlInteger i => CInt i
  | TomlFloat f => CFloat f
  | TomlBoolean b => CBool b
  | TomlDatetime d => CString d
  | TomlArray a => CArray (from_toml <$> a)
  | TomlTable t => CObject (from_toml <$> t)
  end.

(** ** Merging *)

(** The value of a key after [v] is merged into [d]. *)
Fixpoint merge_value (override_rhs : bool) (d : option Value) (v : Value) : Value :=
  match d with
  | Some (CObject inner) =>
      match v with
      | CObject src_inner => CObject (merge_entries (merge_value override_rhs) inner src_inner)
      | _ => if override_rhs then v else CObject inner
      end
  | Some x => if override_rhs then v else x
  | None => v
  end.
Definition merge_object (override_rhs : bool) (dst src : Object) : Object :=
  merge_entries (merge_value override_rhs) dst src.

Fixpoint deep_merge_value (d : option Value) (v : Value) : Value :=
  match d, v with
  | Some (CObject a), CObject b => CObject (merge_entries deep_merge_value a b)
  | _, v => v
  end.
Definition deep_merge (into from : Object) : Object := merge_entries deep_merge_value into from.

(** ** The configuration *)

Record Config := mkConfig { cfg_root : Object }.

Definition Config_empty : Config := mkConfig ∅.

Definition from_toml_str (parsed : string + TomlValue F) : ConfigError + Config :=
  match parsed with
  | inl e => inl (CfgToml e)
  | inr (TomlTable t) => inr (mkConfig (from_toml <$> t))
  | inr _ => inl (CfgWrongType "" "object")
  end.

Definition with_fallback (self fallback : Config) : Config :=
  mkConfig (merge_object false (cfg_root self) (cfg_root fallback)).
Definition merged_with (self other : Config) : Config :=
  mkConfig (merge_object true (cfg_root self) (cfg_root other)).

Fixpoint lookup_segs (root : Object) (segs : list string) : option Value :=
  match segs with
  | [] => None
  | head :: tail =>
      v ← root !! head;
      match tail with
      | [] => Some v
      | _ => match v with CObject o => lookup_segs o tail | _ => None end
      end
  end.

Definition cfg_get (path : string) (c : Config) : option Value :=
  lookup_segs (cfg_root c) (ConfigPath_parse path).

Definition get_sub (path : string) (c : Config) : option Config :=
  match cfg_get path c with Some (CObject o) => Some (mkConfig o) | _ => None end.

Definition get_string (path : string) (c : Config) : ConfigError + string :=
  match cfg_get path c with
  | Some (CString s) => inr s
  | Some v => inl (CfgWrongType path (type_name v))
  | None => inl (CfgNotFound path)
  end.
Definition get_bool (path : string) (c : Config) : ConfigError + bool :=
  match cfg_get path c with
  | Some (CBool b) => inr b
  | Some v => inl (CfgWrongType path (type_name v))
  | None => inl (CfgNotFound path)
  end.

Context `{HF : F64 F}.

Definition get_int (path : string) (c : Config) : ConfigError + Z :=
  match cfg_get path c with
  | Some (CInt i) => inr i
  | Some (CFloat f) => inr (f64_as_i64 f)
  | Some v => inl (CfgWrongType path (type_name v))
  | None => inl (CfgNotFound path)
  end.

(** [split_at] the first character that is no digit, dot or minus sign; both parts trimmed. *)
Fixpoint number_prefix (s : string) : string * string :=
  match s with
  | EmptyString => (EmptyString, EmptyString)
  | String c s' =>
      if byte_in 48 57 c || Ascii.eqb c "." || Ascii.eqb c "-"
      then let '(n, u) := number_prefix s' in (String c n, u)
      else (EmptyString, s)
  end.
Definition split_number_unit (s : string) : string * string :=
  let '(n, u) := number_prefix s in (trim n, trim u).

(** The factor from a unit to milliseconds. *)
Definition unit_millis (u : string) : option Z :=
  if bool_decide (u ∈ ["ms"; "millis"; "milliseconds"]) then Some 1%Z
  else if bool_decide (u ∈ ["s"; "sec"; "seconds"; ""]) then Some 1000%Z
  else if bool_decide (u ∈ ["m"; "min"; "minutes"]) then Some 60000%Z
  else if bool_decide (u ∈ ["h"; "hr"; "hours"]) then Some 3600000%Z
  else if bool_decide (u ∈ ["d"; "days"]) then Some 86400000%Z
  else None.

(** In nanoseconds, as every [Duration]; milliseconds are not multiplied. *)
Definition parse_duration (s : string) : option N :=
  let '(num, u) := split_number_unit (trim s) in
  n ← f64_parse num;
  k ← unit_millis u;
  let ms := if (k =? 1)%Z then n else f64_mul n k in
  Some (f64_as_u64 (f64_mul ms 1000) * 1000)%N.

Definition get_duration (path : string) (c : Config) : ConfigError + N :=
  match cfg_get path c with
  | Some (CString s) =>
      match parse_duration s with Some d => inr d | None => inl (CfgWrongType path "duration") end
  | Some (CInt i) => inr (Z.to_N (i mod 2 ^ 64) * 1000000)%N
  | Some v => inl (CfgWrongType path (type_name v))
  | None => inl (CfgNotFound path)
  end.
End config.
Arguments Config : clear implicits.

(** ** Dotted keys *)

Section dotted.
Context {F : Type}.
Abbreviation Value := (ConfigValue F).
Abbreviation Object := (gmap string Value).

(** [key = value]: objects on the way are created, or replace what is not an object. *)
Fixpoint insert_dotted (obj : Object) (key : list string) (value : Value) : Object :=
  match key with
  | [] => obj
  | k :: key' =>
      match key' with
      | [] =>
          match obj !! k, value with
          | Some (CObject existing), CObject new_obj => <[k := CObject (deep_merge existing new_obj)]> obj
          | _, _ => <[k := value]> obj
          end
      | _ =>
          match default (CObject ∅) (obj !! k) with
          | CObject child => <[k := CObject (insert_dotted child key' value)]> obj
          | _ => <[k := CObject (insert_dotted ∅ key' value)]> obj
          end
      end
  end.

(** [key += value]. *)
Fixpoint append_dotted (obj : Object) (key : list string) (value : Value) : Object :=
  match key with
  | [] => obj
  | k :: key' =>
      match key' with
      | [] =>
          match default (CArray []) (obj !! k) with
          | CArray items => <[k := CArray (items ++ [value])]> obj
          | _ => <[k := CArray [value]]> obj
          end
      | _ =>
          match default (CObject ∅) (obj !! k) with
          | CObject child => <[k := CObject (append_dotted child key' value)]> obj
          | _ => <[k := CObject (append_dotted ∅ key' value)]> obj
          end
      end
  end.
End dotted.

(** ** Induction on values *)

Section value_ind.
Context {F : Type}.

Fixpoint value_size (v : ConfigValue F) : nat :=
  match v with
  | CArray items => S (sum_list_with value_size items)
  | CObject o => S (map_fold (λ _ v n, value_size v + n) 0 o)
  | _ => 1
  end.

Lemma value_size_item items v : v ∈ items → value_size v < value_size (CArray items).
Proof.
  cbn. induction 1 as [v items|v w items _ IH]; cbn; lia.
Qed.

Lemma value_size_entry o k v : o !! k = Some v → value_size v < value_size (CObject o).
Proof.
  intros Hk. cbn. enough (value_size v ≤ map_fold (λ _ v n, value_size v + n) 0 o) by lia.
  rewrite <- (insert_delete_id o k v Hk).
  rewrite map_fold_insert_L; [lia|intros; lia|by rewrite lookup_delete_eq].
Qed.

Lemma ConfigValue_nested_ind (P : ConfigValue F → Prop) :
  P CNull → (∀ b, P (CBool b)) → (∀ i, P (CInt i)) → (∀ f, P (CFloat f)) → (∀ s, P (CString s)) →
  (∀ items, Forall P items → P (CArray items)) →
  (∀ o, map_Forall (λ _, P) o → P (CObject o)) → ∀ v, P v.
Proof.
  intros Hn Hb Hi Hf Hs Ha Ho.
  enough (Hall : ∀ n v, value_size v < n → P v) by (intros v; eapply Hall; eauto).
  induction n as [|n IH]; intros v Hv; [lia|]. destruct v as [|b|i|f|s|items|o]; auto.
  - apply Ha, Forall_forall. intros v Hin. apply IH. pose proof (value_size_item items v Hin). lia.
  - apply Ho. intros k v Hk. apply IH. pose proof (value_size_entry o k v Hk). lia.
Qed.
End value_ind.

(** ** Layers *)

Section layers.
Context {F : Type}.
Implicit Types (v w x : ConfigValue F) (a b c : gmap string (ConfigValue F)).

Definition is_object (v : ConfigValue F) : bool := match v with CObject _ => true | _ => false end.

Lemma deep_merge_value_eq v d : deep_merge_value d v = merge_value true d v.
Proof.
  revert d; induction v as [| | | | |items IH|o IH] using ConfigValue_nested_ind; intros d;
    try (by destruct d as [[]|]).
  destruct d as [[| | | | | |inner]|]; try done. cbn. f_equal. apply map_eq. intros k.
  rewrite !lookup_merge_entries. destruct (o !! k) as [w|] eqn:E; [|done]. f_equal. by apply (IH k).
Qed.

(** [deep_merge] is [merge_object] with the right-hand side winning. *)
Lemma deep_merge_eq a b : deep_merge a b = merge_object true a b.
Proof.
  apply map_eq. intros k. unfold deep_merge, merge_object. rewrite !lookup_merge_entries.
  destruct (b !! k); [|done]. by rewrite deep_merge_value_eq.
Qed.

Lemma merge_value_None o v : merge_value o None v = v.
Proof. by destruct v. Qed.

Lemma merge_value_flip v d : merge_value false (Some d) v = merge_value true (Some v) d.
Proof.
  revert d; induction v as [| | | | |items IH|o IH] using ConfigValue_nested_ind; intros d;
    try (by destruct d). destruct d as [| | | | | |inner]; try done. cbn. f_equal. apply map_eq.
  intros k. rewrite !lookup_merge_entries. destruct (o !! k) as [w|] eqn:Eo, (inner !! k) as [x|] eqn:Ei; try done.
  - f_equal. by apply (IH k).
  - by rewrite merge_value_None.
  - by rewrite merge_value_None.
Qed.

Lemma merge_object_flip a b : merge_object false a b = merge_object true b a.
Proof.
  apply map_eq. intros k. unfold merge_object. rewrite !lookup_merge_entries.
  destruct (a !! k), (b !! k); try done; by rewrite ?merge_value_flip, ?merge_value_None.
Qed.

Lemma merge_value_idem v : merge_value false (Some v) v = v.
Proof.
  induction v as [| | | | |items IH|o IH] using ConfigValue_nested_ind; try done. cbn. f_equal.
  apply map_eq. intros k. rewrite lookup_merge_entries. destruct (o !! k) as [w|] eqn:E; [|done].
  f_equal. by apply (IH k).
Qed.

(** Where both have a value, both are objects or both are not, all the way down. *)
Inductive shape_agree : ConfigValue F → ConfigValue F → Prop :=
  | sa_object a b :
      (∀ k x y, a !! k = Some x → b !! k = Some y → shape_agree x y) →
      shape_agree (CObject a) (CObject b)
  | sa_leaf v w : is_object v = false → is_object w = false → shape_agree v w.

Lemma merge_value_assoc w v x :
  shape_agree v w →
  merge_value false (Some (merge_value false (Some x) v)) w =
    merge_value false (Some x) (merge_value false (Some v) w).
Proof.
  revert v x; induction w as [| | | | |items IH|o IH] using ConfigValue_nested_ind; intros v x Hs;
    try (destruct x as [| | | | | |xo], v as [| | | | | |vo]; try done; by inversion Hs).
  destruct x as [| | | | | |i]; try done; try (by destruct v).
  inversion Hs as [j o' Hag|v' w' Hv Hw]; subst; [|done].
  cbn. f_equal. apply map_eq. intros k. rewrite !lookup_merge_entries.
  destruct (o !! k) as [w|] eqn:Eo, (j !! k) as [v|] eqn:Ej; try done.
  - destruct (i !! k) as [x|] eqn:Ei; rewrite ?merge_value_None; [|done]. f_equal. apply (IH k); eauto.
  - destruct (i !! k) as [x|] eqn:Ei; by rewrite ?merge_value_None.
Qed.

Lemma merge_object_assoc a b c :
  shape_agree (CObject b) (CObject c) →
  merge_object false (merge_object false a b) c = merge_object false a (merge_object false b c).
Proof.
  intros Hs. pose proof (merge_value_assoc (CObject c) (CObject b) (CObject a) Hs) as H.
  cbn in H. by injection H.
Qed.

(** A value that is not an object hides the paths through it. *)
Fixpoint blocked (o : gmap string (ConfigValue F)) (segs : list string) : bool :=
  match segs with
  | [] | [_] => false
  | k :: segs' =>
      match o !! k with
      | Some (CObject o') => blocked o' segs'
      | Some _ => true
      | None => false
      end
  end.

Lemma lookup_segs_merge a b segs :
  lookup_segs (merge_object false a b) segs =
    match lookup_segs a segs, lookup_segs b segs with
    | Some x, Some y => Some (merge_value false (Some x) y)
    | Some x, None => Some x
    | None, oy => if blocked a segs then None else oy
    end.
Proof.
  revert a b; induction segs as [|k segs IH]; intros a b; [done|]. cbn [lookup_segs blocked].
  unfold merge_object. rewrite lookup_merge_entries.
  destruct segs as [|k' segs].
  { destruct (a !! k), (b !! k); cbn; by rewrite ?merge_value_None. }
  destruct (a !! k) as [x|] eqn:Ea, (b !! k) as [y|] eqn:Eb; cbn [mbind option_bind]; try done.
  - destruct x as [| | | | | |i]; try (by destruct y).
    destruct y as [| | | | | |j]; try (cbn [merge_value]; destruct (lookup_segs i _); [done|by case_match]).
    cbn [merge_value]. apply IH.
  - destruct x as [| | | | | |i]; try done. destruct (lookup_segs i _); [done|by case_match].
  - by rewrite merge_value_None.
Qed.
End layers.

Section dotted_laws.
Context {F : Type}.
Implicit Types (v : ConfigValue F) (o : gmap string (ConfigValue F)).

(** What an assignment leaves at its key: objects are merged, anything else is replaced. *)
Definition assigned (old : option (ConfigValue F)) (v : ConfigValue F) : ConfigValue F :=
  match old, v with
  | Some (CObject existing), CObject new_obj => CObject (deep_merge existing new_obj)
  | _, _ => v
  end.

(** Neither path continues the other. *)
Definition diverge (p q : list string) : Prop := ¬ p `prefix_of` q ∧ ¬ q `prefix_of` p.

Lemma diverge_cons k k' p q : diverge (k :: p) (k' :: q) → k = k' → diverge p q.
Proof. intros [H1 H2] ->. split; intros H; [apply H1|apply H2]; by apply prefix_cons. Qed.

Lemma diverge_nil_l q : ¬ diverge [] q.
Proof. intros [H _]. apply H, prefix_nil. Qed.

(** The object an assignment to a longer key descends into. *)
Definition child_of (o : gmap string (ConfigValue F)) (k : string) : gmap string (ConfigValue F) :=
  match o !! k with Some (CObject child) => child | _ => ∅ end.

Lemma insert_dotted_cons o k k' key v :
  insert_dotted o (k :: k' :: key) v = <[k := CObject (insert_dotted (child_of o k) (k' :: key) v)]> o.
Proof.
  cbn [insert_dotted]. unfold child_of. destruct (o !! k) as [w|]; [|done]. by destruct w.
Qed.

Lemma lookup_child_of o k k' key :
  lookup_segs o (k :: k' :: key) = lookup_segs (child_of o k) (k' :: key).
Proof.
  cbn [lookup_segs]. unfold child_of. destruct (o !! k) as [w|]; [|by rewrite lookup_empty].
  destruct w; cbn; try done; by rewrite lookup_empty.
Qed.

Lemma insert_dotted_single o k v : insert_dotted o [k] v = <[k := assigned (o !! k) v]> o.
Proof.
  cbn. unfold assigned. destruct (o !! k) as [w|]; [|done]. destruct w; try done. by destruct v.
Qed.

Lemma insert_dotted_same o key v :
  key ≠ [] → lookup_segs (insert_dotted o key v) key = Some (assigned (lookup_segs o key) v).
Proof.
  revert o; induction key as [|k [|k' key] IH]; intros o Hk; [done| |].
  - rewrite insert_dotted_single. cbn. rewrite lookup_insert_eq. cbn. by destruct (o !! k).
  - rewrite insert_dotted_cons, !lookup_child_of. unfold child_of at 1. rewrite lookup_insert_eq.
    by apply IH.
Qed.

Lemma insert_dotted_other o key v segs :
  diverge key segs → lookup_segs (insert_dotted o key v) segs = lookup_segs o segs.
Proof.
  revert o segs; induction key as [|k [|k' key] IH]; intros o segs Hd; [by apply diverge_nil_l in Hd| |];
    (destruct segs as [|s segs]; [done|]).
  - rewrite insert_dotted_single. cbn [lookup_segs].
    destruct (decide (k = s)) as [->|Hs]; [|by rewrite lookup_insert_ne].
    by eapply diverge_cons, diverge_nil_l in Hd.
  - rewrite insert_dotted_cons. destruct (decide (k = s)) as [->|Hs].
    + destruct segs as [|s' segs].
      { destruct Hd as [_ Hd]. destruct Hd. apply prefix_cons, prefix_nil. }
      rewrite !lookup_child_of. unfold child_of at 1. rewrite lookup_insert_eq. apply IH.
      by eapply diverge_cons.
    + cbn [lookup_segs]. by rewrite lookup_insert_ne.
Qed.
End dotted_laws.

Section config_theorems.
Context {F : Type}.

(** Layering of configurations.  Falling back is overriding with the roles exchanged; the
    empty configuration is neutral on both sides and a configuration is its own fallback;
    grouping does not matter when the second and the third layer agree on what is an object.
    A path in a configuration with a fallback has the value of the configuration, merged with
    that of the fallback when both have one, and otherwise the value of the fallback unless the
    configuration has something on the way that is not an object. *)
Theorem config_layers (a b c : Config F) (path : string) :
  with_fallback a b = merged_with b a ∧
  with_fallback a Config_empty = a ∧ with_fallback Config_empty a = a ∧ with_fallback a a = a ∧
  (shape_agree (CObject (cfg_root b)) (CObject (cfg_root c)) →
   with_fallback (with_fallback a b) c = with_fallback a (with_fallback b c)) ∧
  cfg_get path (with_fallback a b) =
    match cfg_get path a, cfg_get path b with
    | Some x, Some y => Some (merge_value false (Some x) y)
    | Some x, None => Some x
    | None, oy => if blocked (cfg_root a) (ConfigPath_parse path) then None else oy
    end.
Proof.
  destruct a as [a], b as [b], c as [c]. unfold with_fallback, merged_with, cfg_get. cbn [cfg_root].
  split_and!.
  - by rewrite merge_object_flip.
  - unfold merge_object. cbn. by rewrite merge_entries_empty_r.
  - f_equal. rewrite merge_object_flip. unfold merge_object. apply merge_entries_empty_r.
  - f_equal. pose proof (merge_value_idem (CObject a)) as H. cbn in H. by injection H.
  - intros Hs. f_equal. by apply merge_object_assoc.
  - apply lookup_segs_merge.
Qed.

(** Assignment to a dotted key.  Afterwards the key has the assigned value, merged into the
    object that was there when both are objects, and every path that neither continues the key
    nor is continued by it has the value it had. *)
Theorem insert_dotted_lookup (o : gmap string (ConfigValue F)) (key segs : list string) (v : ConfigValue F) :
  (key ≠ [] → lookup_segs (insert_dotted o key v) key = Some (assigned (lookup_segs o key) v)) ∧
  (diverge key segs → lookup_segs (insert_dotted o key v) segs = lookup_segs o segs).
Proof. split; [apply insert_dotted_same|apply insert_dotted_other]. Qed.

(** ** What the code does not promise *)

(** Three layers where the middle one hides the last: as HOCON reads them the result of the
    chain has the first layer only, the code merges the hidden object back in. *)
Lemma fallback_not_associative :
  let layer v : Config unit := mkConfig {[ "a" := v ]} in
  let x := layer (CObject {[ "y" := CInt 2 ]}) in
  let y := layer (CInt 42) in
  let z := layer (CObject {[ "x" := CInt 1 ]}) in
  cfg_get "a.x" (with_fallback (with_fallback x y) z) = Some (CInt 1) ∧
  cfg_get "a.x" (with_fallback x (with_fallback y z)) = None.
Proof. by split; vm_compute. Qed.

(** The error for a value of the wrong type names the type that was found as the expected one. *)
Lemma wrong_type_names_found :
  get_string "a" (mkConfig {[ "a" := CInt 1 ]} : Config unit) = inl (CfgWrongType "a" "int").
Proof. reflexivity. Qed.

(** A negative number of milliseconds is a duration of half a billion years. *)
Lemma negative_duration `{F64 F} :
  get_duration "a" (mkConfig {[ "a" := CInt (-1) ]} : Config F) = inr ((2 ^ 64 - 1) * 1000000)%N.
Proof. reflexivity. Qed.
End config_theorems.
