(* ===== verification/Hocon.v ===== *)
(** * The HOCON reader ([crates/atomr-config/src/hocon.rs])

    The parser keeps the bytes that are left, the line and the column.  Its functions return
    [None] when they run out of fuel; [parse_terminates] shows that three units per byte and one
    more are enough.  Reading an included file is a parameter of the parser, tied by [parse_file]
    over a file system and a bound on the nesting of includes.  The environment of the process
    is a function. *)

From stdpp Require Import gmap strings list.
From Stdlib Require Import NArith ZArith Lia Ascii.
From S2P Require Import Prelude Encoding Address Config.

Inductive HoconError :=
  | HUnexpected (ch : string) (line col : nat)
  | HUnterminated (kind : string) (line : nat)
  | HMissingSubstitution (key : string)
  | HInclude (msg : string)
  | HIo (path : string)
  | HExpected (expected found : string) (line : nat).

(** ** The cursor *)

Record Parser := mkParser {
  p_src : string;
  p_line : nat;
  p_col : nat;
}.

Definition Parser_new (text : string) : Parser := mkParser text 1 1.

Definition newline : ascii := ascii_of_N 10.
Definition quote : ascii := ascii_of_N 34.
Definition backslash : ascii := ascii_of_N 92.
Definition nul : ascii := ascii_of_N 0.

Definition peek (p : Parser) : option ascii :=
  match p_src p with EmptyString => None | String c _ => Some c end.
Definition peek_at (off : nat) (p : Parser) : option ascii := String.get off (p_src p).

(** One byte further. *)
Definition step_pos (c : ascii) (s : string) (line col : nat) : Parser :=
  if Ascii.eqb c newline then mkParser s (line + 1) 1 else mkParser s line (col + 1).
Definition advance1 (p : Parser) : Parser :=
  match p_src p with EmptyString => p | String c s => step_pos c s (p_line p) (p_col p) end.
Fixpoint padvance (n : nat) (p : Parser) : Parser :=
  match n with O => p | S n' => padvance n' (advance1 p) end.

Definition starts_with (needle : string) (p : Parser) : bool := String.prefix needle (p_src p).

Definition is_alnum (c : ascii) : bool := byte_in 48 57 c || byte_in 65 90 c || byte_in 97 122 c.
Definition starts_with_keyword (kw : string) (p : Parser) : bool :=
  starts_with kw p &&
  match String.get (String.length kw) (p_src p) with
  | None => true
  | Some c => negb (is_alnum c) && negb (Ascii.eqb c "_")
  end.

(** [while let Some(c) = self.peek() { if f(c) { self.advance(1) } else { break } }], with the
    bytes passed. *)
Fixpoint span_while (f : ascii → bool) (s : string) (line col : nat) : string * Parser :=
  match s with
  | EmptyString => (EmptyString, mkParser s line col)
  | String c s' =>
      if f c
      then let p := step_pos c s' line col in
           let '(taken, p) := span_while f s' (p_line p) (p_col p) in (String c taken, p)
      else (EmptyString, mkParser s line col)
  end.
Definition pspan (f : ascii → bool) (p : Parser) : string * Parser :=
  span_while f (p_src p) (p_line p) (p_col p).

Definition skip_ws_inline (p : Parser) : Parser :=
  (pspan (λ c, Ascii.eqb c " " || Ascii.eqb c (ascii_of_N 9)) p).2.

(** The loops of [skip_ws_and_comments] as modes: the outer loop, the loop of a comment up to
    the end of the line, the loop of a block comment. *)
Inductive SkipMode := SkipSpace | SkipLine | SkipBlock.

Fixpoint skip_from (mode : SkipMode) (s : string) (line col : nat) : Parser :=
  match s with
  | EmptyString => mkParser s line col
  | String c s' =>
      let p := step_pos c s' line col in
      match mode with
      | SkipSpace =>
          if Ascii.eqb c " " || Ascii.eqb c (ascii_of_N 9) || Ascii.eqb c newline || Ascii.eqb c (ascii_of_N 13)
          then skip_from SkipSpace s' (p_line p) (p_col p)
          else if Ascii.eqb c "#" then skip_from SkipLine s' (p_line p) (p_col p)
          else if Ascii.eqb c "/" then
            match s' with
            | String d s'' =>
                if Ascii.eqb d "/" then skip_from SkipLine s' (p_line p) (p_col p)
                else if Ascii.eqb d "*" then
                  let q := step_pos d s'' (p_line p) (p_col p) in
                  skip_from SkipBlock s'' (p_line q) (p_col q)
                else mkParser s line col
            | EmptyString => mkParser s line col
            end
          else mkParser s line col
      | SkipLine =>
          if Ascii.eqb c newline then skip_from SkipSpace s' (p_line p) (p_col p)
          else skip_from SkipLine s' (p_line p) (p_col p)
      | SkipBlock =>
          match s' with
          | String d s'' =>
              if Ascii.eqb c "*" && Ascii.eqb d "/" then
                let q := step_pos d s'' (p_line p) (p_col p) in
                skip_from SkipSpace s'' (p_line q) (p_col q)
              else skip_from SkipBlock s' (p_line p) (p_col p)
          | EmptyString => skip_from SkipBlock s' (p_line p) (p_col p)
          end
      end
  end.
Definition skip_ws_and_comments (p : Parser) : Parser :=
  skip_from SkipSpace (p_src p) (p_line p) (p_col p).

Definition found_here (p : Parser) : string :=
  match peek p with Some c => push_byte_as_char c | None => EmptyString end.

(** ** Strings, keys and scalars *)

Definition triple_quote : string := String quote (String quote (String quote EmptyString)).

(** The body of a triple-quoted string, up to the closing quotes. *)
Fixpoint triple_body (s : string) (line col : nat) : string * Parser :=
  match s with
  | EmptyString => (EmptyString, mkParser s line col)
  | String c s' =>
      if (2 <? String.length s) && negb (String.prefix triple_quote s)
      then let p := step_pos c s' line col in
           let '(taken, p) := triple_body s' (p_line p) (p_col p) in (String c taken, p)
      else (EmptyString, mkParser s line col)
  end.

(** What an escaped byte stands for. *)
Definition unescape (c : ascii) : string :=
  if Ascii.eqb c "n" then String newline EmptyString
  else if Ascii.eqb c "t" then String (ascii_of_N 9) EmptyString
  else if Ascii.eqb c "r" then String (ascii_of_N 13) EmptyString
  else push_byte_as_char c.

(** The loop of a quoted string, after the opening quote. *)
Fixpoint quoted_body (s : string) (line col : nat) (out : string) : HoconError + string * Parser :=
  match s with
  | EmptyString => inl (HUnterminated "string" line)
  | String c s' =>
      let p := step_pos c s' line col in
      if Ascii.eqb c newline then inl (HUnterminated "string" line)
      else if Ascii.eqb c quote then inr (out, p)
      else if Ascii.eqb c backslash then
        match s' with
        | EmptyString => inl (HUnterminated "string-escape" (p_line p))
        | String d s'' =>
            let q := step_pos d s'' (p_line p) (p_col p) in
            quoted_body s'' (p_line q) (p_col q) (out +:+ unescape d)
        end
      else quoted_body s' (p_line p) (p_col p) (out +:+ push_byte_as_char c)
  end.

Definition parse_string (p : Parser) : HoconError + string * Parser :=
  if starts_with triple_quote p then
    let p := padvance 3 p in
    let '(taken, p) := triple_body (p_src p) (p_line p) (p_col p) in
    if String.length (p_src p) <=? 2 then inl (HUnterminated "string" (p_line p))
    else if valid_utf8 taken then inr (taken, padvance 3 p)
    else inl (HUnterminated "string" (p_line p))
  else
    match peek p with
    | Some c =>
        if Ascii.eqb c quote
        then let p := advance1 p in quoted_body (p_src p) (p_line p) (p_col p) EmptyString
        else inl (HExpected (String quote EmptyString) (found_here p) (p_line p))
    | None => inl (HExpected (String quote EmptyString) (found_here p) (p_line p))
    end.

Definition is_peek (c : ascii) (p : Parser) : bool :=
  match peek p with Some d => Ascii.eqb d c | None => false end.

Fixpoint parse_key (fuel : nat) (parts : list string) (p : Parser)
    : option (HoconError + list string * Parser) :=
  match fuel with
  | O => None
  | S fuel =>
      let p := skip_ws_inline p in
      let part :=
        if is_peek quote p then parse_string p
        else
          let '(taken, q) := pspan (λ c, is_alnum c || Ascii.eqb c "_" || Ascii.eqb c "-") p in
          match taken with
          | EmptyString => inl (HExpected "key" (found_here q) (p_line q))
          | _ => if valid_utf8 taken then inr (taken, q)
                 else inl (HUnexpected (String nul EmptyString) (p_line q) (p_col q))
          end in
      match part with
      | inl e => Some (inl e)
      | inr (part, p) =>
          let parts := parts ++ [part] in
          if is_peek "." p then parse_key fuel parts (advance1 p) else Some (inr (parts, p))
      end
  end.

Definition sub_prefix : string := "__atomr_sub::".
Definition sub_opt_prefix : string := "__atomr_sub_opt::".

(** [parse_substitution], which leaves a marker string for the second pass. *)
Definition parse_substitution {F} (p : Parser) : HoconError + ConfigValue F * Parser :=
  let p := padvance 2 p in
  let optional := is_peek "?" p in
  let p := if optional then advance1 p else p in
  let '(taken, p) := pspan (λ c, negb (Ascii.eqb c "}")) p in
  if is_peek "}" p then
    if valid_utf8 taken
    then inr (CString ((if optional then sub_opt_prefix else sub_prefix) +:+ trim taken), advance1 p)
    else inl (HUnterminated "substitution" (p_line p))
  else inl (HUnterminated "substitution" (p_line p)).

(** The bytes of an unquoted scalar. *)
Definition scalar_stop (c : ascii) : bool :=
  Ascii.eqb c "," || Ascii.eqb c newline || Ascii.eqb c "}" || Ascii.eqb c "]" || Ascii.eqb c ";" ||
  Ascii.eqb c "#".
Fixpoint scalar_span (s : string) (line col : nat) : string * Parser :=
  match s with
  | EmptyString => (EmptyString, mkParser s line col)
  | String c s' =>
      if scalar_stop c || (Ascii.eqb c "/" && match s' with String d _ => Ascii.eqb d "/" | _ => false end)
      then (EmptyString, mkParser s line col)
      else let p := step_pos c s' line col in
           let '(taken, p) := scalar_span s' (p_line p) (p_col p) in (String c taken, p)
  end.

(** [str::parse::<i64>]. *)
Definition parse_i64 (s : string) : option Z :=
  match s with
  | String c s' =>
      if Ascii.eqb c "-" then
        match s' with EmptyString => None | _ => (λ n, (- Z.of_N n)%Z) <$> parse_digits (2 ^ 63) 0 s' end
      else Z.of_N <$> parse_uint (2 ^ 63 - 1) s
  | EmptyString => None
  end.

Section parser.
Context {F : Type} `{HF : F64 F}.
Abbreviation Value := (ConfigValue F).
Abbreviation Object := (gmap string Value).

Definition scalar_from_str (s : string) : Value :=
  if decide (s = "null") then CNull
  else if decide (s = "true") then CBool true
  else if decide (s = "false") then CBool false
  else match parse_i64 s with
       | Some i => CInt i
       | None => match f64_parse s with Some f => CFloat f | None => CString s end
       end.

Definition parse_unquoted_scalar (p : Parser) : HoconError + Value * Parser :=
  let '(taken, q) := scalar_span (p_src p) (p_line p) (p_col p) in
  if valid_utf8 taken then
    let raw := trim taken in
    if decide (raw = EmptyString) then inl (HExpected "value" EmptyString (p_line q))
    else inr (scalar_from_str raw, q)
  else inl (HUnexpected (String nul EmptyString) (p_line q) (p_col q)).

(** ** Objects, values and arrays *)

(** [do_include]: the value of the file with that name. *)
Context (inc : string → option (HoconError + Value)).

(** One round of the loop of [parse_object_body]; [body] is the loop itself. *)
Definition object_step (body : ascii → Object → Parser → option (HoconError + Object * Parser))
    (value : Parser → option (HoconError + Value * Parser))
    (key : Parser → option (HoconError + list string * Parser))
    (terminator : ascii) (obj : Object) (p : Parser) : option (HoconError + Object * Parser) :=
  let p := skip_ws_and_comments p in
  match peek p with
  | None => Some (if Ascii.eqb terminator nul then inr (obj, p) else inl (HUnterminated "object" (p_line p)))
  | Some c =>
      if Ascii.eqb c terminator then Some (inr (obj, advance1 p))
      else if Ascii.eqb c "," || Ascii.eqb c newline || Ascii.eqb c ";"
      then body terminator obj (advance1 p)
      else if starts_with_keyword "include" p then
        match parse_string (skip_ws_inline (padvance 7 p)) with
        | inl e => Some (inl e)
        | inr (path, p) =>
            match inc path with
            | None => None
            | Some (inl e) => Some (inl e)
            | Some (inr (CObject child)) => body terminator (deep_merge obj child) p
            | Some (inr _) =>
                Some (inl (HInclude ("included file `" +:+ path +:+ "` did not resolve to an object")))
            end
        end
      else
        match key p with
        | None => None
        | Some (inl e) => Some (inl e)
        | Some (inr (key, p)) =>
            let p := skip_ws_inline p in
            let assign (append : bool) (v : option (HoconError + Value * Parser)) :=
              match v with
              | None => None
              | Some (inl e) => Some (inl e)
              | Some (inr (v, p)) =>
                  body terminator ((if append then append_dotted else insert_dotted) obj key v) p
              end in
            match peek p with
            | None => Some (inl (HUnterminated "assignment" (p_line p)))
            | Some d =>
                if Ascii.eqb d "{" then
                  assign false
                    (match body "}"%char ∅ (advance1 p) with
                     | None => None
                     | Some (inl e) => Some (inl e)
                     | Some (inr (o, p)) => Some (inr (CObject o, p))
                     end)
                else if Ascii.eqb d "+" && match peek_at 1 p with Some e => Ascii.eqb e "=" | None => false end
                then assign true (value (skip_ws_inline (padvance 2 p)))
                else if Ascii.eqb d "=" || Ascii.eqb d ":"
                then assign false (value (skip_ws_inline (advance1 p)))
                else Some (inl (HExpected "= or : or { or +=" (push_byte_as_char d) (p_line p)))
            end
        end
  end.

(** [parse_value]. *)
Definition value_step (body : ascii → Object → Parser → option (HoconError + Object * Parser))
    (array : list Value → Parser → option (HoconError + Value * Parser))
    (p : Parser) : option (HoconError + Value * Parser) :=
  let p := skip_ws_inline p in
  match peek p with
  | None => Some (inl (HUnterminated "value" (p_line p)))
  | Some c =>
      if Ascii.eqb c quote then
        Some (match parse_string p with inl e => inl e | inr (s, p) => inr (CString s, p) end)
      else if Ascii.eqb c "[" then array [] (advance1 p)
      else if Ascii.eqb c "{" then
        match body "}"%char ∅ (advance1 p) with
        | None => None
        | Some (inl e) => Some (inl e)
        | Some (inr (o, p)) => Some (inr (CObject o, p))
        end
      else if Ascii.eqb c "$" && match peek_at 1 p with Some d => Ascii.eqb d "{" | None => false end
      then Some (parse_substitution p)
      else Some (parse_unquoted_scalar p)
  end.

(** One round of the loop of [parse_array], after the bracket. *)
Definition array_step (value : Parser → option (HoconError + Value * Parser))
    (array : list Value → Parser → option (HoconError + Value * Parser))
    (items : list Value) (p : Parser) : option (HoconError + Value * Parser) :=
  let p := skip_ws_and_comments p in
  match peek p with
  | None => Some (inl (HUnterminated "array" (p_line p)))
  | Some c =>
      if Ascii.eqb c "]" then Some (inr (CArray items, advance1 p))
      else if Ascii.eqb c "," || Ascii.eqb c newline then array items (advance1 p)
      else match value p with
           | None => None
           | Some (inl e) => Some (inl e)
           | Some (inr (v, p)) => array (items ++ [v]) p
           end
  end.

(** The three functions call each other. *)
Fixpoint parse_object_body (fuel : nat) (terminator : ascii) (obj : Object) (p : Parser)
    : option (HoconError + Object * Parser) :=
  match fuel with
  | O => None
  | S fuel =>
      object_step (parse_object_body fuel) (parse_value fuel) (parse_key fuel []) terminator obj p
  end
with parse_value (fuel : nat) (p : Parser) : option (HoconError + Value * Parser) :=
  match fuel with
  | O => None
  | S fuel => value_step (parse_object_body fuel) (parse_array fuel) p
  end
with parse_array (fuel : nat) (items : list Value) (p : Parser) : option (HoconError + Value * Parser) :=
  match fuel with
  | O => None
  | S fuel => array_step (parse_value fuel) (parse_array fuel) items p
  end.

Lemma parse_object_body_S fuel t obj p :
  parse_object_body (S fuel) t obj p =
    object_step (parse_object_body fuel) (parse_value fuel) (parse_key fuel []) t obj p.
Proof. reflexivity. Qed.
Lemma parse_value_S fuel p : parse_value (S fuel) p = value_step (parse_object_body fuel) (parse_array fuel) p.
Proof. reflexivity. Qed.
Lemma parse_array_S fuel items p :
  parse_array (S fuel) items p = array_step (parse_value fuel) (parse_array fuel) items p.
Proof. reflexivity. Qed.

Definition parse_root (fuel : nat) (p : Parser) : option (HoconError + Value) :=
  let p := skip_ws_and_comments p in
  let body :=
    if is_peek "{" p
    then match parse_object_body fuel "}" ∅ (advance1 p) with
         | None => None
         | Some (inl e) => Some (inl e)
         | Some (inr (o, p)) => Some (inr (o, skip_ws_and_comments p))
         end
    else parse_object_body fuel nul ∅ p in
  match body with
  | None => None
  | Some (inl e) => Some (inl e)
  | Some (inr (o, p)) =>
      let p := skip_ws_and_comments p in
      Some (match peek p with
            | Some c => inl (HUnexpected (push_byte_as_char c) (p_line p) (p_col p))
            | None => inr (CObject o)
            end)
  end.
End parser.

(** ** Substitutions *)

Section resolve.
Context {F : Type} (env : string → option string).
Abbreviation Value := (ConfigValue F).
Abbreviation Object := (gmap string Value).

(** The loop of [lookup_path] over the segments. *)
Fixpoint lookup_steps (cur : Value) (segs : list string) : option Value :=
  match segs with
  | [] => Some cur
  | seg :: segs' =>
      match cur with
      | CObject o => v ← o !! seg; lookup_steps v segs'
      | _ => None
      end
  end.
Definition lookup_path (root : Value) (path : string) : option Value :=
  lookup_steps root (split_char "." path).

(** [for it in items { out.push(resolve_in(it, root)?) }]. *)
Fixpoint collect_items (l : list (HoconError + Value)) : HoconError + list Value :=
  match l with
  | [] => inr []
  | inl e :: _ => inl e
  | inr v :: l' => match collect_items l' with inl e => inl e | inr vs => inr (v :: vs) end
  end.

Definition is_err (kr : string * (HoconError + Value)) : Prop :=
  match kr.2 with inl _ => True | inr _ => False end.
#[local] Instance is_err_dec kr : Decision (is_err kr).
Proof. unfold is_err. destruct kr.2; apply _. Defined.

(** The loop over an object, in the order of the keys: the error of the first key that has one. *)
Definition collect_object (m : gmap string (HoconError + Value)) : HoconError + Object :=
  match head (sort_by_key fst (filter is_err (map_to_list m))) with
  | Some (_, inl e) => inl e
  | _ => inr (omap (λ r, match r with inr v => Some v | inl _ => None end) m)
  end.

Fixpoint resolve_in (root v : Value) : HoconError + Value :=
  match v with
  | CString s =>
      match strip_prefix sub_prefix s with
      | Some rest => match lookup_path root rest with
                     | Some v => inr v
                     | None => inl (HMissingSubstitution rest)
                     end
      | None =>
          match strip_prefix sub_opt_prefix s with
          | Some rest => inr (match env rest with Some x => CString x | None => CNull end)
          | None => inr (CString s)
          end
      end
  | CArray items =>
      match collect_items (resolve_in root <$> items) with inl e => inl e | inr l => inr (CArray l) end
  | CObject o =>
      match collect_object (resolve_in root <$> o) with inl e => inl e | inr o => inr (CObject o) end
  | other => inr other
  end.
Definition resolve_substitutions (v : Value) : HoconError + Value := resolve_in v v.
End resolve.

(** ** Documents and files *)

(** The file system: the text of a file, [Path::join], and [Path::parent] or the current
    directory. *)
Class FileSystem := {
  fs_read : string → option string;
  fs_join : string → string → string;
  fs_parent : string → string;
}.

Section documents.
Context {F : Type} `{HF : F64 F} `{HFS : FileSystem} (env : string → option string).

(** Enough fuel for a document. *)
Definition parse_fuel (text : string) : nat := 3 * String.length text + 1.

(** [parse], with at most [depth] nested includes. *)
Fixpoint parse (depth : nat) (base_dir text : string) : option (HoconError + ConfigValue F) :=
  let inc rel :=
    match depth with
    | O => None
    | S depth =>
        let path := fs_join base_dir rel in
        match fs_read path with
        | None => Some (inl (HIo path))
        | Some text => parse depth (fs_parent path) text
        end
    end in
  match parse_root inc (parse_fuel text) (Parser_new text) with
  | None => None
  | Some (inl e) => Some (inl e)
  | Some (inr root) => Some (resolve_substitutions env root)
  end.

Definition parse_file (depth : nat) (path : string) : option (HoconError + ConfigValue F) :=
  match fs_read path with
  | None => Some (inl (HIo path))
  | Some text => parse depth (fs_parent path) text
  end.

(** [Config::from_hocon_str] and [from_hocon_file]. *)
Definition to_config (r : option (HoconError + ConfigValue F)) : option ((HoconError + ConfigError) + Config F) :=
  match r with
  | None => None
  | Some (inl e) => Some (inl (inl e))
  | Some (inr (CObject o)) => Some (inr (mkConfig o))
  | Some (inr _) => Some (inl (inr (CfgWrongType "" "object")))
  end.
Definition from_hocon_str (depth : nat) (text : string) := to_config (parse depth "." text).
Definition from_hocon_file (depth : nat) (path : string) := to_config (parse_file depth path).
End documents.

(** ** Termination *)

Definition plen (p : Parser) : nat := String.length (p_src p).

Lemma plen_step_pos c s line col : plen (step_pos c s line col) = String.length s.
Proof. unfold step_pos, plen. by case_match. Qed.

Lemma p_src_step_pos c s line col : p_src (step_pos c s line col) = s.
Proof. unfold step_pos. by case_match. Qed.

Lemma plen_advance1 p : plen (advance1 p) = plen p - 1.
Proof.
  unfold advance1. destruct (p_src p) as [|c s] eqn:E; unfold plen at 2; rewrite E; cbn.
  - unfold plen. by rewrite E.
  - rewrite plen_step_pos. lia.
Qed.

Lemma plen_padvance n p : plen (padvance n p) = plen p - n.
Proof.
  revert p; induction n as [|n IH]; intros p; cbn [padvance]; [lia|]. rewrite IH, plen_advance1. lia.
Qed.

Lemma span_while_app f s line col :
  (span_while f s line col).1 +:+ p_src (span_while f s line col).2 = s.
Proof.
  revert line col; induction s as [|c s IH]; intros line col; cbn [span_while]; [done|].
  destruct (f c); [|done]. specialize (IH (p_line (step_pos c s line col)) (p_col (step_pos c s line col))).
  destruct (span_while f s _ _) as [taken p]. cbn [fst snd] in *.
  change (String c (taken +:+ p_src p) = String c s). by rewrite IH.
Qed.

Lemma plen_pspan f p : String.length (pspan f p).1 + plen (pspan f p).2 = plen p.
Proof. unfold plen. rewrite <- length_string_app. unfold pspan. by rewrite span_while_app. Qed.

Lemma plen_skip_ws_inline p : plen (skip_ws_inline p) ≤ plen p.
Proof.
  unfold skip_ws_inline. pose proof (plen_pspan (λ c, Ascii.eqb c " " || Ascii.eqb c (ascii_of_N 9)) p). lia.
Qed.

Lemma plen_skip_from mode s line col : plen (skip_from mode s line col) ≤ String.length s.
Proof.
  enough (∀ n s, String.length s ≤ n → ∀ mode line col, plen (skip_from mode s line col) ≤ String.length s) by eauto.
  clear. induction n as [|n IH]; intros s Hn mode line col; (destruct s as [|c s]; [done|]); [cbn in Hn; lia|].
  cbn [String.length] in Hn.
  assert (Hs : ∀ m l k, plen (skip_from m s l k) ≤ String.length (String c s)).
  { intros. etransitivity; [apply IH; lia|]. cbn. lia. }
  assert (Hstop : plen (mkParser (String c s) line col) ≤ String.length (String c s)) by done.
  cbn [skip_from]. destruct mode.
  - case_match; [apply Hs|]. case_match; [apply Hs|]. case_match; [|done].
    destruct s as [|d s]; [done|]. case_match; [apply Hs|]. case_match; [|done].
    etransitivity; [apply IH; cbn in Hn; lia|]. cbn. lia.
  - case_match; apply Hs.
  - destruct s as [|d s]; [apply Hs|]. case_match; [|apply Hs].
    etransitivity; [apply IH; cbn in Hn; lia|]. cbn. lia.
Qed.

Lemma plen_skip p : plen (skip_ws_and_comments p) ≤ plen p.
Proof. apply plen_skip_from. Qed.

Lemma triple_body_app s line col : (triple_body s line col).1 +:+ p_src (triple_body s line col).2 = s.
Proof.
  revert line col; induction s as [|c s IH]; intros line col; [done|]. cbn [triple_body].
  destruct (_ && _); [|done]. specialize (IH (p_line (step_pos c s line col)) (p_col (step_pos c s line col))).
  destruct (triple_body s _ _) as [taken p]. cbn [fst snd] in *.
  change (String c (taken +:+ p_src p) = String c s). by rewrite IH.
Qed.

Lemma quoted_body_progress s line col out r p :
  quoted_body s line col out = inr (r, p) → plen p < String.length s.
Proof.
  enough (∀ n s, String.length s ≤ n → ∀ line col out, quoted_body s line col out = inr (r, p) → plen p < String.length s) by eauto.
  clear. induction n as [|n IH]; intros s Hn line col out; (destruct s as [|c s]; [done|]); [cbn in Hn; lia|].
  cbn [String.length] in *. cbn [quoted_body]. case_match; [done|]. case_match.
  { intros [= <- <-]. rewrite plen_step_pos. lia. }
  case_match.
  - destruct s as [|d s]; [done|]. cbn in Hn. intros Hq%IH; [|lia]. cbn. lia.
  - intros Hq%IH; lia.
Qed.

Lemma peek_Some p c : peek p = Some c → plen p ≠ 0.
Proof. unfold peek, plen. by destruct (p_src p). Qed.

Lemma parse_string_progress p s p' : parse_string p = inr (s, p') → plen p' < plen p.
Proof.
  unfold parse_string. destruct (starts_with triple_quote p) eqn:Et.
  - set (q := padvance 3 p). pose proof (triple_body_app (p_src q) (p_line q) (p_col q)) as Hb.
    destruct (triple_body _ _ _) as [taken r]. cbn [fst snd] in Hb.
    destruct (String.length (p_src r) <=? 2) eqn:El; [done|]. case_match; [|done].
    intros Heq. assert (p' = padvance 3 r) as -> by congruence. rewrite plen_padvance.
    assert (plen r ≤ plen q) by (unfold plen; rewrite <- Hb, length_string_app; lia).
    pose proof (plen_padvance 3 p) as Hq. apply Nat.leb_gt in El. fold q in Hq. unfold plen in *. lia.
  - destruct (peek p) as [c|] eqn:Ep; [|done]. apply peek_Some in Ep. case_match; [|done].
    intros Hq%quoted_body_progress. pose proof (plen_advance1 p). unfold plen in *. lia.
Qed.

(** A result that is there, with what is left of the input satisfying [P]. *)
Definition settles {A} (P : nat → Prop) (r : option (HoconError + A * Parser)) : Prop :=
  match r with
  | None => False
  | Some (inl _) => True
  | Some (inr (_, p)) => P (plen p)
  end.

Lemma settles_weaken {A} (P Q : nat → Prop) (r : option (HoconError + A * Parser)) :
  settles P r → (∀ n, P n → Q n) → settles Q r.
Proof. destruct r as [[e|[a p]]|]; cbn; auto. Qed.

Lemma parse_key_settles fuel parts p :
  plen p < fuel → settles (λ n, n < plen p) (parse_key fuel parts p).
Proof.
  revert parts p; induction fuel as [|fuel IH]; intros parts p Hf; [lia|]. cbn [parse_key].
  pose proof (plen_skip_ws_inline p) as Hi. set (q := skip_ws_inline p) in *.
  match goal with |- context [match ?part with inl e => _ | inr _ => _ end] =>
    assert (Hpart : ∀ part' p', part = inr (part', p') → plen p' < plen q); [|destruct part as [e|[part' p']] eqn:Epart]
  end.
  { intros part' p'. case_match; [apply parse_string_progress|].
    pose proof (plen_pspan (λ c, is_alnum c || Ascii.eqb c "_" || Ascii.eqb c "-") q) as Hs.
    destruct (pspan _ q) as [taken r]. cbn [fst snd] in Hs. destruct taken as [|c taken]; [done|].
    case_match; [|done]. intros [= <- <-]. cbn in Hs. lia. }
  { done. }
  specialize (Hpart part' p' eq_refl). destruct (is_peek "." p').
  - pose proof (plen_advance1 p') as Ha.
    eapply settles_weaken; [apply IH; lia|]. cbn beta. lia.
  - cbn. lia.
Qed.

Lemma parse_substitution_progress {F} p (v : ConfigValue F) p' :
  plen p ≠ 0 → parse_substitution p = inr (v, p') → plen p' < plen p.
Proof.
  intros Hp. unfold parse_substitution. set (q := padvance 2 p). set (q' := if is_peek "?" q then advance1 q else q).
  assert (plen q' ≤ plen p - 2) as Hq'.
  { unfold q'. pose proof (plen_padvance 2 p) as Hq. fold q in Hq. case_match; [rewrite plen_advance1|]; lia. }
  pose proof (plen_pspan (λ c, negb (Ascii.eqb c "}")) q') as Hs. destruct (pspan _ q') as [taken r].
  cbn [fst snd] in Hs. case_match; [|done]. case_match; [|done]. intros [= _ <-]. rewrite plen_advance1. lia.
Qed.

Lemma scalar_span_app s line col : (scalar_span s line col).1 +:+ p_src (scalar_span s line col).2 = s.
Proof.
  revert line col; induction s as [|c s IH]; intros line col; [done|]. cbn [scalar_span].
  destruct (_ || _); [done|]. specialize (IH (p_line (step_pos c s line col)) (p_col (step_pos c s line col))).
  destruct (scalar_span s _ _) as [taken p]. cbn [fst snd] in *.
  change (String c (taken +:+ p_src p) = String c s). by rewrite IH.
Qed.

Lemma parse_unquoted_progress {F} `{F64 F} p (v : ConfigValue F) p' :
  parse_unquoted_scalar p = inr (v, p') → plen p' < plen p.
Proof.
  unfold parse_unquoted_scalar. pose proof (scalar_span_app (p_src p) (p_line p) (p_col p)) as Hs.
  destruct (scalar_span _ _ _) as [taken q]. cbn [fst snd] in Hs. case_match; [|done]. case_decide as Hraw; [done|].
  intros [= _ <-]. destruct taken as [|c taken]; [by destruct Hraw|].
  unfold plen. rewrite <- Hs, length_string_app. cbn. lia.
Qed.

Section termination.
Context {F : Type} `{HF : F64 F} (inc : string → option (HoconError + ConfigValue F)).
Hypothesis Hinc : ∀ path, inc path ≠ None.

Definition body_settles (fuel : nat) : Prop :=
  ∀ t obj p, 3 * plen p + 1 ≤ fuel → settles (λ n, n ≤ plen p) (parse_object_body inc fuel t obj p).
Definition value_settles (fuel : nat) : Prop :=
  ∀ p, 3 * plen p + 1 ≤ fuel → settles (λ n, n < plen p) (parse_value inc fuel p).
Definition array_settles (fuel : nat) : Prop :=
  ∀ items p, 3 * plen p + 2 ≤ fuel → settles (λ n, n ≤ plen p) (parse_array inc fuel items p).

(** The object of a nested body, as a value. *)
Lemma settles_object P (r : option (HoconError + gmap string (ConfigValue F) * Parser)) :
  settles P r →
  settles P (match r with
             | None => None
             | Some (inl e) => Some (inl e)
             | Some (inr (o, p)) => Some (inr (CObject o, p))
             end).
Proof. by destruct r as [[e|[o p]]|]. Qed.

Lemma value_settles_step fuel :
  body_settles fuel → array_settles fuel → value_settles (S fuel).
Proof.
  intros Hb Ha p Hf. rewrite parse_value_S. unfold value_step. pose proof (plen_skip_ws_inline p) as Hi.
  set (q := skip_ws_inline p) in *. destruct (peek q) as [c|] eqn:Ep; [|done]. apply peek_Some in Ep.
  pose proof (plen_advance1 q) as Hadv.
  case_match.
  { destruct (parse_string q) as [e|[s p']] eqn:Es; [done|]. apply parse_string_progress in Es. cbn. lia. }
  case_match. { eapply settles_weaken; [apply Ha; lia|]. cbn beta. lia. }
  case_match. { apply settles_object. eapply settles_weaken; [apply Hb; lia|]. cbn beta. lia. }
  case_match.
  - destruct (parse_substitution q) as [e|[v p']] eqn:Es; [done|].
    apply parse_substitution_progress in Es; [|done]. cbn. lia.
  - destruct (parse_unquoted_scalar q) as [e|[v p']] eqn:Es; [done|].
    apply parse_unquoted_progress in Es. cbn. lia.
Qed.

Lemma array_settles_step fuel :
  value_settles fuel → array_settles fuel → array_settles (S fuel).
Proof.
  intros Hv Ha items p Hf. rewrite parse_array_S. unfold array_step. pose proof (plen_skip p) as Hs.
  set (q := skip_ws_and_comments p) in *. destruct (peek q) as [c|] eqn:Ep; [|done]. apply peek_Some in Ep.
  pose proof (plen_advance1 q) as Hadv. case_match; [cbn; lia|].
  case_match. { eapply settles_weaken; [apply Ha; lia|]. cbn beta. lia. }
  specialize (Hv q ltac:(lia)). destruct (parse_value inc fuel q) as [[e|[v p']]|]; [done| |done].
  cbn in Hv. eapply settles_weaken; [apply Ha; lia|]. cbn beta. lia.
Qed.

(** The value of an assignment was read: the loop goes on. *)
Lemma assign_settles fuel t k bound (r : option (HoconError + ConfigValue F * Parser)) obj :
  body_settles fuel → settles (λ n, n < bound) r → 3 * bound ≤ fuel + 2 → bound ≤ k →
  settles (λ n, n ≤ k)
    (match r with
     | None => None
     | Some (inl e) => Some (inl e)
     | Some (inr (v, p)) => parse_object_body inc fuel t (obj v) p
     end).
Proof.
  intros Hb Hr Hf Hk. destruct r as [[e|[v p]]|]; [done| |done]. cbn in Hr.
  eapply settles_weaken; [apply Hb; lia|]. cbn beta. lia.
Qed.

Lemma body_settles_step fuel :
  body_settles fuel → value_settles fuel → body_settles (S fuel).
Proof.
  intros Hb Hv t obj p Hf. rewrite parse_object_body_S. unfold object_step. pose proof (plen_skip p) as Hs.
  set (q := skip_ws_and_comments p) in *. destruct (peek q) as [c|] eqn:Ep; [|case_match; cbn; lia].
  apply peek_Some in Ep. pose proof (plen_advance1 q) as Hadv.
  case_match; [cbn; lia|]. case_match. { eapply settles_weaken; [apply Hb; lia|]. cbn beta. lia. }
  case_match.
  { pose proof (plen_skip_ws_inline (padvance 7 q)) as Hi. rewrite plen_padvance in Hi.
    destruct (parse_string _) as [e|[path r]] eqn:Es; [done|]. apply parse_string_progress in Es.
    destruct (inc path) as [[e|v]|] eqn:Ei; [done| |by apply Hinc in Ei].
    destruct v; try done. eapply settles_weaken; [apply Hb; lia|]. cbn beta. lia. }
  pose proof (parse_key_settles fuel [] q ltac:(lia)) as Hkey.
  destruct (parse_key fuel [] q) as [[e|[key r]]|]; [done| |done]. cbn [settles] in Hkey.
  pose proof (plen_skip_ws_inline r) as Hr. set (r' := skip_ws_inline r) in *.
  destruct (peek r') as [d|] eqn:Er; [|done]. apply peek_Some in Er.
  pose proof (plen_advance1 r') as Hadv'. pose proof (plen_padvance 2 r') as Hadv2.
  pose proof (plen_skip_ws_inline (padvance 2 r')) as Hi2. pose proof (plen_skip_ws_inline (advance1 r')) as Hi1.
  destruct (Ascii.eqb d "{"); [|destruct (Ascii.eqb d "+" && _); [|destruct (Ascii.eqb d "=" || _); [|done]]].
  - eapply (assign_settles fuel t (plen p) (plen r') _ (insert_dotted obj key)); [done| |lia|lia].
    apply settles_object. eapply settles_weaken; [apply Hb; lia|]. cbn beta. lia.
  - eapply (assign_settles fuel t (plen p) (plen r') _ (append_dotted obj key)); [done| |lia|lia].
    eapply settles_weaken; [apply Hv; lia|]. cbn beta. lia.
  - eapply (assign_settles fuel t (plen p) (plen r') _ (insert_dotted obj key)); [done| |lia|lia].
    eapply settles_weaken; [apply Hv; lia|]. cbn beta. lia.
Qed.

Lemma all_settle fuel : body_settles fuel ∧ value_settles fuel ∧ array_settles fuel.
Proof.
  induction fuel as [|fuel (Hb & Hv & Ha)]; [split_and!; intros ? **; lia|].
  split_and!; [by apply body_settles_step|by apply value_settles_step|by apply array_settles_step].
Qed.
End termination.

(** ** A printer, and the round trip *)

(** The text of a string: quotes, backslashes and line ends are escaped. *)
Definition escape_char (c : ascii) : string :=
  if Ascii.eqb c newline then String backslash "n"
  else if Ascii.eqb c quote || Ascii.eqb c backslash then String backslash (String c EmptyString)
  else String c EmptyString.
Fixpoint escape (s : string) : string :=
  match s with EmptyString => EmptyString | String c s' => escape_char c +:+ escape s' end.
Definition render_string (s : string) : string := String quote (escape s +:+ String quote EmptyString).

Definition render_int (i : Z) : string :=
  if (i <? 0)%Z then "-" +:+ uint_to_string (Z.abs_N i) else uint_to_string (Z.abs_N i).

Fixpoint render {F} (v : ConfigValue F) : string :=
  match v with
  | CNull => "null"
  | CBool true => "true"
  | CBool false => "false"
  | CInt i => render_int i
  | CFloat _ => EmptyString
  | CString s => render_string s
  | CArray items => "[" +:+ foldr (λ x acc, render x +:+ "," +:+ acc) "]" items
  | CObject o => "{" +:+ map_fold (λ k x acc, render_string k +:+ "=" +:+ render x +:+ "," +:+ acc) "}" o
  end.

(** The values the printer is for: ASCII text that is no substitution marker, integers of 64
    bits, no floating-point number. *)
Inductive plain {F} : ConfigValue F → Prop :=
  | plain_null : plain CNull
  | plain_bool b : plain (CBool b)
  | plain_int i : (- 2 ^ 63 ≤ i < 2 ^ 63)%Z → plain (CInt i)
  | plain_string s :
      ascii_only s = true → strip_prefix sub_prefix s = None → strip_prefix sub_opt_prefix s = None →
      plain (CString s)
  | plain_array items : (∀ x, x ∈ items → plain x) → plain (CArray items)
  | plain_object o :
      (∀ k x, o !! k = Some x → ascii_only k = true) → (∀ k x, o !! k = Some x → plain x) →
      plain (CObject o).

(** The first byte of a string is not [c]. *)
Definition head_is_not (c : ascii) (s : string) : Prop :=
  match s with EmptyString => True | String d _ => Ascii.eqb d c = false end.

Lemma push_byte_ascii c : byte_in 0 127 c = true → push_byte_as_char c = String c EmptyString.
Proof.
  unfold byte_in, push_byte_as_char. intros [_ Hc%N.leb_le]%andb_true_iff.
  by rewrite (proj2 (N.ltb_lt _ _)) by lia.
Qed.

Lemma string_app_cons c (a b : string) : String c a +:+ b = String c (a +:+ b).
Proof. done. Qed.
Lemma string_app_empty_l (a : string) : "" +:+ a = a.
Proof. done. Qed.
Lemma string_app_empty_r (a : string) : a +:+ "" = a.
Proof. induction a as [|c a IH]; [done|]. by rewrite string_app_cons, IH. Qed.

Lemma quoted_body_escape s rest line col out :
  ascii_only s = true →
  ∃ p, quoted_body (escape s +:+ String quote rest) line col out = inr (out +:+ s, p) ∧ p_src p = rest.
Proof.
  revert line col out; induction s as [|c s IH]; intros line col out Hs.
  { cbn [escape]. rewrite string_app_empty_l, string_app_empty_r. eexists. split; [reflexivity|apply p_src_step_pos]. }
  cbn [ascii_only] in Hs. apply andb_true_iff in Hs as [Hc Hs]. cbn [escape].
  assert (Hout : ∀ o, o +:+ String c s = (o +:+ String c "") +:+ s).
  { intros o. by rewrite string_app_assoc. }
  rewrite Hout. unfold escape_char.
  destruct (Ascii.eqb_spec c newline) as [->|Hn].
  { cbn [String.append]. edestruct IH as (p & Hp & Hr); [done|]. exists p. split; [|done].
    rewrite <- Hp. reflexivity. }
  destruct (Ascii.eqb_spec c quote) as [->|Hq]; cbn [orb].
  { edestruct IH as (p & Hp & Hr); [done|]. exists p. split; [|done]. rewrite <- Hp. reflexivity. }
  destruct (Ascii.eqb_spec c backslash) as [->|Hb].
  { edestruct IH as (p & Hp & Hr); [done|]. exists p. split; [|done]. rewrite <- Hp. reflexivity. }
  edestruct IH as (p & Hp & Hr); [done|]. exists p. split; [|done]. rewrite <- Hp.
  rewrite !string_app_cons, string_app_empty_l. cbn [quoted_body].
  rewrite (proj2 (Ascii.eqb_neq c newline)), (proj2 (Ascii.eqb_neq c quote)), (proj2 (Ascii.eqb_neq c backslash)) by done.
  by rewrite push_byte_ascii.
Qed.

Lemma escape_head c s : head_is_not quote (escape_char c +:+ s).
Proof.
  unfold escape_char. destruct (Ascii.eqb_spec c newline); [done|].
  destruct (Ascii.eqb_spec c quote); [done|]. cbn [orb]. destruct (Ascii.eqb_spec c backslash); [done|].
  by apply Ascii.eqb_neq.
Qed.

Lemma parse_string_render s rest line col :
  ascii_only s = true → head_is_not quote rest →
  ∃ p, parse_string (mkParser (render_string s +:+ rest) line col) = inr (s, p) ∧ p_src p = rest.
Proof.
  intros Hs Hrest. unfold parse_string, render_string.
  rewrite string_app_cons, string_app_assoc, string_app_cons, string_app_empty_l.
  set (body := escape s +:+ String quote rest).
  assert (Hpre : starts_with triple_quote (mkParser (String quote body) line col) = false).
  { unfold starts_with, triple_quote. cbn [p_src String.prefix].
    destruct (ascii_dec quote quote) as [_|]; [|done]. unfold body. destruct s as [|c s]; cbn [escape].
    - rewrite string_app_empty_l. cbn [String.prefix]. destruct (ascii_dec quote quote) as [_|]; [|done].
      destruct rest as [|d rest]; [done|]. cbn in Hrest. cbn [String.prefix].
      destruct (ascii_dec quote d) as [<-|]; [|done]. by rewrite Ascii.eqb_refl in Hrest.
    - pose proof (escape_head c s) as He. unfold escape_char in *.
      destruct (Ascii.eqb c newline); [done|]. destruct (Ascii.eqb c quote || _); [done|].
      rewrite !string_app_cons in *. cbn in He. cbn [String.prefix].
      destruct (ascii_dec quote c) as [<-|]; [|done]. by rewrite Ascii.eqb_refl in He. }
  rewrite Hpre. cbn [peek p_src]. rewrite Ascii.eqb_refl. unfold advance1. cbn [p_src].
  rewrite p_src_step_pos.
  destruct (quoted_body_escape s rest (p_line (step_pos quote body line col)) (p_col (step_pos quote body line col)) "" Hs)
    as (p & Hp & Hr). exists p. split; [exact Hp|done].
Qed.

(** *** Scalars *)

Fixpoint all_chars (f : ascii → bool) (s : string) : bool :=
  match s with EmptyString => true | String c s' => f c && all_chars f s' end.

(** Bytes of the scalars the printer writes. *)
Definition word_char (c : ascii) : bool :=
  byte_in 33 126 c && negb (scalar_stop c) && negb (Ascii.eqb c "/").

Lemma word_char_spec c :
  word_char c = true → byte_in 33 126 c = true ∧ scalar_stop c = false ∧ Ascii.eqb c "/" = false.
Proof. unfold word_char. rewrite !andb_true_iff, !negb_true_iff. tauto. Qed.

Lemma scalar_span_word s rest line col :
  all_chars word_char s = true →
  (scalar_span (s +:+ String "," rest) line col).1 = s ∧
  p_src (scalar_span (s +:+ String "," rest) line col).2 = String "," rest.
Proof.
  revert line col; induction s as [|c s IH]; intros line col Hs; [done|].
  cbn [all_chars] in Hs. apply andb_true_iff in Hs as [(_ & Hc & Hd)%word_char_spec Hs].
  rewrite string_app_cons. cbn [scalar_span]. rewrite Hc, Hd. cbn [orb andb].
  destruct (IH (p_line (step_pos c (s +:+ String "," rest) line col))
    (p_col (step_pos c (s +:+ String "," rest) line col)) Hs) as [H1 H2].
  destruct (scalar_span _ _ _) as [taken p]. cbn [fst snd] in *. by subst.
Qed.

Lemma byte_in_bounds lo hi c : byte_in lo hi c = true ↔ (lo ≤ N_of_ascii c ≤ hi)%N.
Proof. unfold byte_in. by rewrite andb_true_iff, !N.leb_le. Qed.

Lemma byte_in_false lo hi c : (N_of_ascii c < lo ∨ hi < N_of_ascii c)%N → byte_in lo hi c = false.
Proof. intros Hc. apply not_true_iff_false. rewrite byte_in_bounds. lia. Qed.

Lemma visible_not_ws c : byte_in 33 126 c = true → ascii_ws c = false.
Proof.
  rewrite byte_in_bounds. intros Hc. unfold ascii_ws. by rewrite !byte_in_false by lia.
Qed.
Lemma visible_not_ws2 c d : byte_in 33 126 c = true → ws2 c d = false.
Proof. rewrite byte_in_bounds. intros Hc. unfold ws2. by rewrite byte_in_false by lia. Qed.
Lemma visible_not_ws3 c d e : byte_in 33 126 c = true → ws3 c d e = false.
Proof.
  rewrite byte_in_bounds. intros Hc. unfold ws3.
  rewrite (byte_in_false 225 225 c), (byte_in_false 226 226 c), (byte_in_false 227 227 c) by lia. done.
Qed.

Lemma drop_ws_visible w2 w3 l :
  Forall (λ c, byte_in 33 126 c = true) l →
  (∀ c d, byte_in 33 126 c = true → byte_in 33 126 d = true → w2 c d = false) →
  (∀ c d e, byte_in 33 126 c = true → byte_in 33 126 d = true → byte_in 33 126 e = true → w3 c d e = false) →
  drop_ws w2 w3 l = l.
Proof.
  intros Hl H2 H3. destruct Hl as [|c l Hc Hl]; [done|]. cbn. rewrite visible_not_ws by done.
  destruct Hl as [|d l Hd Hl]; [done|]. rewrite H2 by done. destruct Hl as [|e l He Hl]; [done|]. by rewrite H3.
Qed.

Lemma trim_visible s : all_chars (byte_in 33 126) s = true → trim s = s.
Proof.
  intros Hs. assert (Hl : Forall (λ c, byte_in 33 126 c = true) (String.list_ascii_of_string s)).
  { induction s as [|c s IH]; [constructor|]. cbn in Hs. apply andb_true_iff in Hs as [Hc Hs]. constructor; auto. }
  unfold trim. rewrite (drop_ws_visible ws2 ws3), drop_ws_visible.
  - by rewrite reverse_involutive, String.string_of_list_ascii_of_string.
  - by rewrite Forall_reverse.
  - intros c d _ Hd. by apply visible_not_ws2.
  - intros c d e _ _ He. by apply visible_not_ws3.
  - done.
  - intros c d Hc _. by apply visible_not_ws2.
  - intros c d e Hc _ _. by apply visible_not_ws3.
Qed.

Lemma all_chars_impl (f g : ascii → bool) s :
  (∀ c, f c = true → g c = true) → all_chars f s = true → all_chars g s = true.
Proof.
  intros Hfg. induction s as [|c s IH]; [done|]. cbn. rewrite !andb_true_iff. intros [Hc Hs]. auto.
Qed.

Lemma visible_ascii s : all_chars (byte_in 33 126) s = true → ascii_only s = true.
Proof.
  induction s as [|c s IH]; [done|]. cbn. rewrite !andb_true_iff, !byte_in_bounds. intros [Hc Hs].
  split; [lia|auto].
Qed.

Lemma ascii_valid s : ascii_only s = true → valid_utf8 s = true.
Proof. intros Hs. rewrite <- (string_app_empty_r s), valid_utf8_ascii by done. done. Qed.

Section words.
Context {F : Type} `{HF : F64 F}.

Lemma parse_unquoted_word s rest (p : Parser) :
  all_chars word_char s = true → s ≠ "" → p_src p = s +:+ String "," rest →
  ∃ q, parse_unquoted_scalar (F:=F) p = inr (scalar_from_str s, q) ∧ p_src q = String "," rest.
Proof.
  intros Hs Hne Hp. unfold parse_unquoted_scalar. rewrite Hp.
  destruct (scalar_span_word s rest (p_line p) (p_col p) Hs) as [H1 H2].
  destruct (scalar_span _ _ _) as [taken q]. cbn [fst snd] in *. subst taken.
  assert (Hv : all_chars (byte_in 33 126) s = true).
  { eapply all_chars_impl; [|exact Hs]. intros c Hc. by apply word_char_spec in Hc as [? _]. }
  rewrite ascii_valid by (by apply visible_ascii). rewrite trim_visible by done.
  rewrite decide_False by done. by exists q.
Qed.

Lemma digit_word c : byte_in 48 57 c = true → word_char c = true.
Proof.
  rewrite byte_in_bounds. intros Hc. unfold word_char, scalar_stop.
  assert (Hne : ∀ d, (N_of_ascii d < 48 ∨ 57 < N_of_ascii d)%N → Ascii.eqb c d = false).
  { intros d Hd. apply Ascii.eqb_neq. intros ->. lia. }
  rewrite !Hne by (vm_compute; auto). by rewrite (proj2 (byte_in_bounds 33 126 c)) by lia.
Qed.

Lemma digits_word s : all_digits s = true → all_chars word_char s = true.
Proof.
  induction s as [|c s IH]; [done|]. cbn. rewrite !andb_true_iff. intros [Hc Hs]. split; [by apply digit_word|auto].
Qed.

Lemma render_int_word i : all_chars word_char (render_int i) = true ∧ render_int i ≠ "".
Proof.
  unfold render_int. pose proof (digits_word _ (all_digits_uint (Z.abs_N i))) as Hd.
  destruct (uint_digits_head (N.size_nat (Z.abs_N i)) (Z.abs_N i) "") as (d & t & Ht & _).
  case_match; [by split|]. split; [done|]. unfold uint_to_string. by rewrite Ht.
Qed.

Lemma parse_i64_render i : (- 2 ^ 63 ≤ i < 2 ^ 63)%Z → parse_i64 (render_int i) = Some i.
Proof.
  intros Hi. unfold render_int, parse_i64.
  destruct (uint_digits_head (N.size_nat (Z.abs_N i)) (Z.abs_N i) "") as (d & t & Ht & Hd).
  destruct (Z.ltb_spec i 0) as [Hneg|Hpos].
  - rewrite string_app_cons, string_app_empty_l. cbn [Ascii.eqb Bool.eqb].
    pose proof (parse_uint_digits (2 ^ 63) (S (N.size_nat (Z.abs_N i))) (Z.abs_N i) "" ltac:(lia) (uint_fuel _)) as Hp.
    unfold uint_to_string. rewrite Hp, Ht. cbn. f_equal. lia.
  - pose proof (parse_uint_to_string (2 ^ 63 - 1) (Z.abs_N i) ltac:(lia)) as Hp.
    unfold uint_to_string in *. rewrite Hp, Ht.
    assert (Ascii.eqb (digit_char d) "-" = false) as ->.
    { apply Ascii.eqb_neq. unfold digit_char. intros H%(f_equal N_of_ascii). rewrite N_ascii_embedding in H by lia.
      change (N_of_ascii "-") with 45%N in H. lia. }
    cbn. f_equal. lia.
Qed.

Lemma scalar_from_render i : (- 2 ^ 63 ≤ i < 2 ^ 63)%Z → scalar_from_str (F:=F) (render_int i) = CInt i.
Proof.
  intros Hi%parse_i64_render. unfold scalar_from_str.
  rewrite !decide_False by (intros Hs; rewrite Hs in Hi; vm_compute in Hi; done). by rewrite Hi.
Qed.
End words.

(** *** Values *)

(** The first byte is one the loops neither skip nor stop at. *)
Definition good_head (s : string) : Prop :=
  match s with EmptyString => False | String c _ => word_char c = true end.

Lemma word_char_ne c d : word_char c = true → word_char d = false → Ascii.eqb c d = false.
Proof. intros Hc Hd. apply Ascii.eqb_neq. intros ->. congruence. Qed.

Lemma good_head_peek p :
  good_head (p_src p) →
  ∃ c, peek p = Some c ∧ word_char c = true ∧ skip_ws_inline p = p ∧ skip_ws_and_comments p = p.
Proof.
  destruct p as [src line col]. cbn. destruct src as [|c s]; [done|]. cbn. intros Hc. exists c.
  assert (Hne := λ d, word_char_ne c d Hc). split_and!; [done|done| |].
  - unfold skip_ws_inline, pspan. cbn [p_src p_line p_col span_while].
    by rewrite !Hne by (vm_compute; reflexivity).
  - unfold skip_ws_and_comments. cbn [p_src p_line p_col skip_from].
    by rewrite !Hne by (vm_compute; reflexivity).
Qed.

Lemma p_src_advance1 p c s : p_src p = String c s → p_src (advance1 p) = s.
Proof. unfold advance1. intros ->. apply p_src_step_pos. Qed.

Lemma render_good {F} (v : ConfigValue F) rest : plain v → good_head (render v +:+ rest).
Proof.
  destruct 1 as [|b|i Hi|s Hs _ _|items _|o _ _]; try done.
  - by destruct b.
  - cbn [render]. pose proof (render_int_word i) as [Hw Hn]. destruct (render_int i) as [|c s]; [done|].
    cbn in Hw. by apply andb_true_iff in Hw as [? _].
Qed.

Section round_trip.
Context {F : Type} `{HF : F64 F} (inc : string → option (HoconError + ConfigValue F)).
Implicit Types (v : ConfigValue F).

(** The text of [v] and a comma is read as [v], with the comma left. *)
Definition reads v : Prop :=
  ∀ fuel p rest, p_src p = render v +:+ String "," rest → 3 * plen p + 1 ≤ fuel →
    ∃ q, parse_value inc fuel p = Some (inr (v, q)) ∧ p_src q = String "," rest.

Lemma reads_word v s :
  plain v → render v = s → s ≠ "" → all_chars word_char s = true → scalar_from_str s = v →
  (∀ c t, s = String c t → Ascii.eqb c quote = false ∧ Ascii.eqb c "[" = false ∧ Ascii.eqb c "{" = false ∧ Ascii.eqb c "$" = false) →
  reads v.
Proof.
  intros Hpl Hr Hne Hw Hv Hhd fuel p rest Hp Hf. destruct fuel as [|fuel]; [lia|].
  rewrite parse_value_S. unfold value_step. rewrite Hr in Hp.
  destruct (good_head_peek p) as (c & Hc & _ & -> & _).
  { rewrite Hp, <- Hr. by apply render_good. }
  destruct (parse_unquoted_word (F:=F) s rest p Hw Hne Hp) as (q & Hq & Hsq). exists q.
  rewrite Hc. unfold peek in Hc. rewrite Hp in Hc. destruct s as [|d s]; [done|]. cbn in Hc. injection Hc as <-.
  destruct (Hhd d s eq_refl) as (-> & -> & -> & ->). cbn [andb]. by rewrite Hq, Hv.
Qed.

Lemma reads_int i : (- 2 ^ 63 ≤ i < 2 ^ 63)%Z → reads (CInt i).
Proof.
  intros Hi. destruct (render_int_word i) as [Hw Hn].
  apply (reads_word _ (render_int i)); [by constructor|done|done|done|by apply scalar_from_render|].
  intros c t Hct. unfold render_int in Hct.
  assert (Hd : Ascii.eqb c "-" = true ∨ byte_in 48 57 c = true).
  { destruct (i <? 0)%Z; [left; rewrite string_app_cons in Hct; by injection Hct as <- _|].
    right. pose proof (all_digits_uint (Z.abs_N i)) as Ha. rewrite Hct in Ha. cbn in Ha. by apply andb_true_iff in Ha as [? _]. }
  destruct Hd as [->%Ascii.eqb_eq|Hd%byte_in_bounds]; [done|].
  split_and!; apply Ascii.eqb_neq; intros ->; vm_compute in Hd; by destruct Hd.
Qed.

Lemma reads_string s :
  ascii_only s = true → strip_prefix sub_prefix s = None → strip_prefix sub_opt_prefix s = None →
  reads (CString s).
Proof.
  intros Hs H1 H2 fuel p rest Hp Hf. destruct fuel as [|fuel]; [lia|]. rewrite parse_value_S. unfold value_step.
  cbn [render] in Hp. destruct (good_head_peek p) as (c & Hc & _ & -> & _).
  { rewrite Hp. apply (render_good (CString s : ConfigValue F)). by constructor. }
  destruct p as [src line col]. cbn [p_src] in Hp. subst src.
  destruct (parse_string_render s (String "," rest) line col Hs) as (q & Hq & Hsq); [done|].
  exists q. rewrite Hc. cbn in Hc. injection Hc as <-. rewrite Ascii.eqb_refl, Hq. done.
Qed.

Definition array_text (xs : list (ConfigValue F)) : string :=
  foldr (λ x acc, render x +:+ "," +:+ acc) "]" xs.
Definition entries_text (l : list (string * ConfigValue F)) : string :=
  foldr (λ kv acc, render_string kv.1 +:+ "=" +:+ render kv.2 +:+ "," +:+ acc) "}" l.

(** The loops stop skipping at a separator or at a closing bracket. *)
Lemma skip_at p c s :
  p_src p = String c s → c = ","%char ∨ c = "]"%char ∨ c = "}"%char →
  skip_ws_and_comments p = p ∧ peek p = Some c.
Proof.
  destruct p as [src line col]. cbn [p_src]. intros -> [->|[->| ->]]; split; reflexivity.
Qed.

Lemma plen_src p s : p_src p = s → plen p = String.length s.
Proof. by intros <-. Qed.

Lemma array_reads xs :
  (∀ x, x ∈ xs → plain x ∧ reads x) →
  ∀ fuel items p rest, p_src p = array_text xs +:+ rest → 3 * plen p + 2 ≤ fuel →
    ∃ q, parse_array inc fuel items p = Some (inr (CArray (items ++ xs), q)) ∧ p_src q = rest.
Proof.
  induction xs as [|x xs IH]; intros Hxs fuel items p rest Hp Hf; (destruct fuel as [|fuel]; [lia|]);
    rewrite parse_array_S; unfold array_step.
  { cbn in Hp. destruct (skip_at p "]" rest Hp) as [-> ->]; [auto|]. cbn [Ascii.eqb Bool.eqb]. rewrite app_nil_r.
    eexists. split; [reflexivity|]. by eapply p_src_advance1. }
  cbn [array_text foldr] in Hp. fold (array_text xs) in Hp. rewrite !string_app_assoc in Hp.
  change ("," +:+ array_text xs +:+ rest) with (String "," (array_text xs +:+ rest)) in Hp.
  destruct (Hxs x) as [Hpl Hrd]; [set_solver|].
  destruct (good_head_peek p) as (c & Hc & Hw & _ & ->). { rewrite Hp. by apply render_good. }
  rewrite Hc. rewrite !(word_char_ne c) by (done || (vm_compute; reflexivity)). cbn [orb].
  destruct (Hrd fuel p _ Hp ltac:(lia)) as (q & -> & Hq).
  assert (Hlen : 1 ≤ String.length (render x)).
  { pose proof (render_good x "" Hpl) as Hg. rewrite string_app_empty_r in Hg. destruct (render x); [done|cbn; lia]. }
  apply plen_src in Hp as Lp. rewrite length_string_app in Lp. cbn [String.length] in Lp. apply plen_src in Hq as Lq. cbn [String.length] in Lq.
  destruct fuel as [|fuel]; [lia|]. rewrite parse_array_S. unfold array_step.
  destruct (skip_at q "," _ Hq) as [-> ->]; [auto|]. cbn [Ascii.eqb Bool.eqb orb].
  destruct (IH ltac:(set_solver) fuel (items ++ [x]) (advance1 q) rest) as (r & Hr & Hsr).
  { by eapply p_src_advance1. }
  { rewrite plen_advance1. lia. }
  exists r. split; [|done]. rewrite Hr. by rewrite <- app_assoc.
Qed.

(** The key of an entry. *)
Lemma parse_key_render fuel p k rest :
  ascii_only k = true → p_src p = render_string k +:+ String "=" rest →
  ∃ q, parse_key (S fuel) [] p = Some (inr ([k], q)) ∧ p_src q = String "=" rest.
Proof.
  intros Hk Hp. cbn [parse_key]. destruct (good_head_peek p) as (c & Hc & _ & -> & _); [by rewrite Hp|].
  unfold is_peek at 1. rewrite Hc. destruct p as [src line col]. cbn [p_src] in Hp. subst src. cbn in Hc. injection Hc as <-.
  rewrite Ascii.eqb_refl. destruct (parse_string_render k (String "=" rest) line col Hk) as (q & -> & Hq); [done|].
  exists q. split; [|done]. unfold is_peek, peek. by rewrite Hq.
Qed.

Lemma object_reads l :
  (∀ kv, kv ∈ l → ascii_only kv.1 = true ∧ plain kv.2 ∧ reads kv.2) → NoDup l.*1 →
  ∀ fuel obj p rest, (∀ k, k ∈ l.*1 → obj !! k = None) →
    p_src p = entries_text l +:+ rest → 3 * plen p + 1 ≤ fuel →
    ∃ q, parse_object_body inc fuel "}" obj p =
        Some (inr (foldl (λ m kv, <[kv.1 := kv.2]> m) obj l, q)) ∧ p_src q = rest.
Proof.
  induction l as [|[k x] l IH]; intros Hl Hnd fuel obj p rest Hobj Hp Hf; (destruct fuel as [|fuel]; [lia|]);
    rewrite parse_object_body_S; unfold object_step.
  { cbn in Hp. destruct (skip_at p "}" rest Hp) as [-> ->]; [auto|]. cbn [Ascii.eqb Bool.eqb].
    eexists. split; [reflexivity|]. by eapply p_src_advance1. }
  cbn [entries_text foldr fst snd] in Hp. fold (entries_text l) in Hp. rewrite !string_app_assoc in Hp.
  set (tail := entries_text l +:+ rest) in *.
  change ("=" +:+ render x +:+ "," +:+ tail) with (String "=" (render x +:+ String "," tail)) in Hp.
  destruct (Hl (k, x)) as (Hk & Hpl & Hrd); [set_solver|]. cbn [fst snd] in *.
  cbn [fmap list_fmap fst] in Hnd, Hobj. apply NoDup_cons in Hnd as [Hkl Hnd].
  apply plen_src in Hp as Lp. rewrite length_string_app in Lp. cbn [String.length] in Lp. rewrite length_string_app in Lp. cbn [String.length] in Lp.
  destruct (good_head_peek p) as (c & Hc & Hw & _ & ->); [by rewrite Hp|]. rewrite Hc.
  rewrite !(word_char_ne c) by (done || (vm_compute; reflexivity)). cbn [orb].
  assert (starts_with_keyword "include" p = false) as ->.
  { unfold starts_with_keyword, starts_with. rewrite Hp. reflexivity. }
  destruct fuel as [|fuel]; [lia|].
  destruct (parse_key_render fuel p k _ Hk Hp) as (q & -> & Hq).
  destruct (good_head_peek q) as (d & Hd & _ & -> & _); [by rewrite Hq|]. rewrite Hd.
  unfold peek in Hd. rewrite Hq in Hd. injection Hd as <-. cbn [Ascii.eqb Bool.eqb orb andb].
  apply p_src_advance1 in Hq as Hadv. apply plen_src in Hadv as Ladv. rewrite length_string_app in Ladv. cbn [String.length] in Ladv.
  destruct (good_head_peek (advance1 q)) as (_ & _ & _ & -> & _). { rewrite Hadv. by apply render_good. }
  destruct (Hrd (S fuel) _ _ Hadv ltac:(lia)) as (r & -> & Hr).
  rewrite insert_dotted_single. rewrite (Hobj k) by set_solver. cbn [assigned].
  rewrite parse_object_body_S. unfold object_step. destruct (skip_at r "," _ Hr) as [-> ->]; [auto|]. cbn [Ascii.eqb Bool.eqb orb].
  apply plen_src in Hr as Lr. cbn [String.length] in Lr.
  apply IH; [set_solver|done| |by eapply p_src_advance1|rewrite plen_advance1; lia].
  intros k' Hk'. rewrite lookup_insert_ne by (by intros ->). apply Hobj. set_solver.
Qed.

Lemma render_object (o : gmap string (ConfigValue F)) : render (CObject o) = String "{" (entries_text (map_to_list o)).
Proof.
  cbn [render]. rewrite map_fold_foldr. rewrite string_app_cons, string_app_empty_l. f_equal.
  unfold entries_text. apply foldr_ext; [|done|done]. by intros [k x] acc.
Qed.

Lemma reads_bracket v c t :
  render v = String c t → word_char c = true → ∀ p rest, p_src p = render v +:+ rest →
  peek p = Some c ∧ skip_ws_inline p = p ∧ p_src (advance1 p) = t +:+ rest.
Proof.
  intros Hr Hc p rest Hp. rewrite Hr, string_app_cons in Hp.
  destruct (good_head_peek p) as (d & Hd & _ & Hs & _); [by rewrite Hp|].
  unfold peek. rewrite Hp. split_and!; [done|done|by eapply p_src_advance1].
Qed.

Lemma plain_reads v : plain v → reads v.
Proof.
  induction v as [|b|i|f|s|items IH|o IH] using ConfigValue_nested_ind; intros Hpl; inversion Hpl; subst.
  - apply (reads_word _ "null"); [constructor|done|done|done|done|by intros c t [= <- <-]].
  - destruct b.
    + apply (reads_word _ "true"); [constructor|done|done|done|done|by intros c t [= <- <-]].
    + apply (reads_word _ "false"); [constructor|done|done|done|done|by intros c t [= <- <-]].
  - by apply reads_int.
  - by apply reads_string.
  - intros fuel p rest Hp Hf. destruct fuel as [|fuel]; [lia|]. rewrite parse_value_S. unfold value_step.
    destruct (reads_bracket (CArray items) "[" (array_text items) eq_refl eq_refl p _ Hp) as (Hpk & -> & Hadv). rewrite Hpk.
    cbn [Ascii.eqb Bool.eqb quote]. rewrite Forall_forall in IH.
    destruct (array_reads items) with (fuel := fuel) (items := @nil (ConfigValue F)) (p := advance1 p) (rest := String "," rest)
      as (q & Hq & Hsq); [by auto|done|rewrite plen_advance1; apply plen_src in Hp; rewrite length_string_app in Hp; cbn in Hp; lia|].
    exists q. by rewrite Hq.
  - intros fuel p rest Hp Hf. destruct fuel as [|fuel]; [lia|]. rewrite parse_value_S. unfold value_step.
    destruct (reads_bracket (CObject o) "{" _ (render_object o) eq_refl p _ Hp) as (Hpk & -> & Hadv). rewrite Hpk.
    cbn [Ascii.eqb Bool.eqb quote].
    destruct (object_reads (map_to_list o)) with (fuel := fuel) (obj := ∅ : gmap string (ConfigValue F)) (p := advance1 p)
      (rest := String "," rest) as (q & Hq & Hsq).
    + intros [k x] Hkx%elem_of_map_to_list. cbn. split_and!; [eauto|eauto|]. apply (IH k); eauto.
    + apply NoDup_fst_map_to_list.
    + intros k _. apply lookup_empty.
    + done.
    + rewrite plen_advance1. apply plen_src in Hp. rewrite length_string_app in Hp. cbn [String.length] in Hp. lia.
    + exists q. rewrite Hq. by rewrite (foldl_insert_perm _ o).
Qed.

Lemma parse_root_render (o : gmap string (ConfigValue F)) :
  plain (CObject o) →
  let text := render (CObject o) in
  parse_root inc (parse_fuel text) (Parser_new text) = Some (inr (CObject o)).
Proof.
  intros Hpl text. set (p := Parser_new text).
  assert (Hsrc : p_src p = render (CObject o) +:+ "") by (by rewrite string_app_empty_r).
  destruct (reads_bracket (CObject o) "{" _ (render_object o) eq_refl p _ Hsrc) as (Hpk & _ & Hadv).
  destruct (good_head_peek p) as (c & _ & _ & _ & Hskip). { rewrite Hsrc. by apply render_good. }
  unfold parse_root. rewrite Hskip. unfold is_peek. rewrite Hpk. cbn [Ascii.eqb Bool.eqb].
  inversion Hpl as [| | | | |o' Hk Ho]; subst.
  destruct (object_reads (map_to_list o)) with (fuel := parse_fuel text) (obj := ∅ : gmap string (ConfigValue F))
    (p := advance1 p) (rest := "") as (q & -> & Hsq).
  - intros [k x] Hkx%elem_of_map_to_list. cbn. split_and!; [eauto|eauto|]. apply plain_reads; eauto.
  - apply NoDup_fst_map_to_list.
  - intros k _. apply lookup_empty.
  - done.
  - rewrite plen_advance1. unfold parse_fuel, p, plen. cbn [p_src Parser_new]. lia.
  - rewrite (foldl_insert_perm _ o) by done. destruct q as [src line col]. cbn in Hsq. by subst.
Qed.

Lemma collect_items_ok (l : list (ConfigValue F)) : collect_items (inr <$> l) = inr l.
Proof. induction l as [|x l IH]; [done|]. cbn. by rewrite IH. Qed.

Lemma collect_object_ok (o : gmap string (ConfigValue F)) : collect_object (inr <$> o) = inr o.
Proof.
  unfold collect_object.
  assert (filter is_err (map_to_list (inr <$> o : gmap string (HoconError + ConfigValue F))) = []) as ->.
  { apply elem_of_nil_inv. intros [k r] [Hr Hin]%list_elem_of_filter. apply elem_of_map_to_list in Hin.
    rewrite lookup_fmap in Hin. destruct (o !! k); [|done]. cbn in Hin. injection Hin as <-. done. }
  cbn. f_equal. apply map_eq. intros k. rewrite lookup_omap, lookup_fmap. by destruct (o !! k).
Qed.

(** A plain value has nothing to substitute. *)
Lemma resolve_plain env root v : plain v → resolve_in env root v = inr v.
Proof.
  induction v as [|b|i|f|s|items IH|o IH] using ConfigValue_nested_ind; intros Hpl; inversion Hpl as [| | |s' Hs H1 H2|its Hits|o' Hk Ho]; subst;
    cbn [resolve_in]; try done.
  - by rewrite H1, H2.
  - replace (resolve_in env root <$> items) with (inr <$> items : list (HoconError + ConfigValue F)).
    + by rewrite collect_items_ok.
    + rewrite Forall_forall in IH. symmetry. apply list_fmap_ext. intros n x Hx%list_elem_of_lookup_2. auto.
  - replace (resolve_in env root <$> o) with (inr <$> o : gmap string (HoconError + ConfigValue F)).
    + by rewrite collect_object_ok.
    + apply map_eq. intros k. rewrite !lookup_fmap. destruct (o !! k) as [x|] eqn:Ex; [|done]. cbn. f_equal.
      symmetry. apply (IH k); eauto.
Qed.
End round_trip.

(** ** The theorems *)

Section theorems.
Context {F : Type} `{HF : F64 F} `{HFS : FileSystem} (env : string → option string).

(** C35: the reader always answers.  With three units of fuel per byte and one more, and with
    includes that answer, parsing a document gives a value or an error, whatever the text; a
    document can be read with one more level of includes than all the files need. *)
Theorem parse_terminates :
  (∀ (inc : string → option (HoconError + ConfigValue F)) (text : string),
     (∀ path, inc path ≠ None) → parse_root inc (parse_fuel text) (Parser_new text) ≠ None) ∧
  (∀ depth : nat,
     (∀ path text, fs_read path = Some text → parse (F:=F) env depth (fs_parent path) text ≠ None) →
     ∀ base text, parse (F:=F) env (S depth) base text ≠ None).
Proof.
  assert (Hroot : ∀ (inc : string → option (HoconError + ConfigValue F)) text,
     (∀ path, inc path ≠ None) → parse_root inc (parse_fuel text) (Parser_new text) ≠ None).
  { intros inc text Hinc. destruct (all_settle inc Hinc (parse_fuel text)) as (Hb & _ & _).
    unfold parse_root. set (p := skip_ws_and_comments (Parser_new text)).
    pose proof (plen_skip (Parser_new text)) as Hp. fold p in Hp.
    change (plen (Parser_new text)) with (String.length text) in Hp. pose proof (plen_advance1 p) as Ha.
    destruct (is_peek "{" p).
    - specialize (Hb "}"%char ∅ (advance1 p) ltac:(unfold parse_fuel; lia)).
      by destruct (parse_object_body _ _ _ _ _) as [[e|[o q]]|].
    - specialize (Hb nul ∅ p ltac:(unfold parse_fuel; lia)).
      by destruct (parse_object_body _ _ _ _ _) as [[e|[o q]]|]. }
  split; [done|]. intros depth Hfiles base text. cbn [parse].
  match goal with |- context [parse_root ?inc _ _] => pose proof (Hroot inc text) as H end.
  destruct (parse_root _ _ _) as [[e|v]|]; [done|done|]. exfalso. apply H; [|done].
  intros path. destruct (fs_read _) as [t|] eqn:Et; [by apply Hfiles|done].
Qed.

(** What the printer writes, the reader reads.  For an object of null, booleans, integers
    of 64 bits, ASCII strings that are no substitution marker, arrays and objects, nested to any
    depth, with any ASCII keys: printing it and parsing the text gives the object back. *)
Theorem hocon_roundtrip (depth : nat) (base : string) (o : gmap string (ConfigValue F)) :
  plain (CObject o) → parse env depth base (render (CObject o)) = Some (inr (CObject o)).
Proof.
  intros Hpl. destruct depth as [|depth]; cbn [parse]; rewrite parse_root_render by done;
    unfold resolve_substitutions; by rewrite resolve_plain.
Qed.

End theorems.

(** ** Concrete documents *)

Definition demo_f64 : F64 unit := {|
  f64_parse _ := None; f64_mul f _ := f; f64_as_i64 _ := 0%Z; f64_as_u64 _ := 0%N |}.

(** A directory with a file that includes itself. *)
Definition demo_fs : FileSystem := {|
  fs_read path :=
    if decide (path = "./loop.conf") then Some ("include " +:+ render_string "loop.conf") else None;
  fs_join base rel := base +:+ "/" +:+ rel;
  fs_parent _ := "." |}.

Definition demo_parse : nat → string → string → option (HoconError + ConfigValue unit) :=
  @parse unit demo_f64 demo_fs (λ _, None).

Definition demo_object : gmap string (ConfigValue unit) :=
  {[ "a b" := CArray [CInt (-5); CString "x,y"; CNull]; "c" := CObject {[ "d" := CBool true ]} ]}.

Lemma parse_terminates_witness :
  @parse_root unit demo_f64 (λ _, Some (inl (HIo ""))) (parse_fuel "a {") (Parser_new "a {") =
    Some (inl (HUnterminated "object" 1)) ∧
  @parse_root unit demo_f64 (λ _, Some (inl (HIo ""))) (parse_fuel "a {") (Parser_new "a {") ≠ None.
Proof.
  split; [vm_compute; reflexivity|].
  refine (proj1 (@parse_terminates unit demo_f64 demo_fs (λ _, None)) (λ _, Some (inl (HIo ""))) "a {" _).
  intros path. discriminate.
Defined.

Lemma hocon_roundtrip_witness :
  demo_parse 0 "." (render (CObject demo_object)) = Some (inr (CObject demo_object)).
Proof.
  refine (@hocon_roundtrip unit demo_f64 demo_fs (λ _, None) 0 "." demo_object _).
  apply plain_object; (apply map_Forall_insert_2; [|apply map_Forall_singleton]).
  - reflexivity.
  - reflexivity.
  - apply plain_array. intros x Hx. repeat (apply elem_of_cons in Hx as [->|Hx]); [..|by apply not_elem_of_nil in Hx].
    + apply plain_int. lia.
    + by apply plain_string.
    + apply plain_null.
  - apply plain_object; apply map_Forall_singleton; [reflexivity|constructor].
Defined.

(** ** What the code does not promise *)

(** A substitution of a substitution: the second pass looks in the unresolved tree, so the
    marker of the first pass is the value. *)
Lemma substitution_chain_leaks :
  match demo_parse 0 "." ("a = 1" +:+ String newline ("b = ${a}" +:+ String newline "c = ${b}")) with
  | Some (inr v) => lookup_path v "b" = Some (CInt 1) ∧ lookup_path v "c" = Some (CString "__atomr_sub::a")
  | _ => False
  end.
Proof. vm_compute. by split. Qed.

(** A quoted string that begins like the marker of a substitution is taken for one. *)
Lemma marker_string_refused :
  demo_parse 0 "." ("k: " +:+ render_string "__atomr_sub::x") = Some (inl (HMissingSubstitution "x")).
Proof. vm_compute. reflexivity. Qed.

(** A quoted string with a letter outside ASCII: its two bytes become two characters. *)
Lemma quoted_string_recoded :
  let e_acute := String (ascii_of_N 195) (String (ascii_of_N 169) EmptyString) in
  valid_utf8 e_acute = true ∧
  match parse_string (Parser_new (String quote (e_acute +:+ String quote EmptyString))) with
  | inr (s, _) => String.length s = 4
  | inl _ => False
  end.
Proof. vm_compute. by split. Qed.

(** A file that includes itself is read for ever. *)
Definition loop_text : string := "include " +:+ render_string "loop.conf".

Lemma include_unread (f : string → option (HoconError + ConfigValue unit)) :
  f "loop.conf" = None → @parse_root unit demo_f64 f (parse_fuel loop_text) (Parser_new loop_text) = None.
Proof.
  intros Hf. unfold parse_root.
  assert (skip_ws_and_comments (Parser_new loop_text) = Parser_new loop_text) as Hs by (vm_compute; reflexivity).
  rewrite Hs. assert (is_peek "{" (Parser_new loop_text) = false) as -> by (vm_compute; reflexivity).
  assert (parse_fuel loop_text = S (3 * String.length loop_text)) as -> by (vm_compute; reflexivity).
  rewrite parse_object_body_S. unfold object_step. rewrite Hs.
  assert (peek (Parser_new loop_text) = Some "i"%char) as -> by (vm_compute; reflexivity).
  assert (starts_with_keyword "include" (Parser_new loop_text) = true) as -> by (vm_compute; reflexivity).
  destruct (parse_string _) as [e|[path q]] eqn:Ep; [by vm_compute in Ep|].
  assert (path = "loop.conf") as ->. { vm_compute in Ep. by injection Ep as <- _. }
  by rewrite Hf.
Qed.

Lemma include_cycle_diverges depth : @parse_file unit demo_f64 demo_fs (λ _, None) depth "./loop.conf" = None.
Proof.
  assert (Hread : @fs_read demo_fs "./loop.conf" = Some loop_text) by reflexivity.
  unfold parse_file. rewrite Hread. change (@fs_parent demo_fs "./loop.conf") with ".".
  induction depth as [|depth IH]; cbn [parse]; by rewrite include_unread.
Qed.
