(* ===== verification/Streams.v ===== *)
(** * Stream operators

    The operators of atomr-streams.  A [Source<T>] is modelled by the elements it yields until it
    completes, and an operator by the elements it yields when it is driven to its end; operators
    that wait for something else than their upstream (a timer, a clock, a second stream that may
    not be ready) are in TimedStreams, the byte framings in Framing, and the buffers shared by two
    tasks in StreamBuffers.  The closures given to an operator are functions, except where the
    code itself passes one that keeps state ([balance]). *)

From stdpp Require Import gmap strings list sorting.
From Stdlib Require Import NArith Lia.
From S2P Require Import Prelude.

(** A channel feeding a substream is written at the end. *)
Definition send {T} (ch : list T) (x : T) : list T := ch ++ [x].

(** ** [Source::unfold]

    The stream of a step function, driven to its end; [None] when the fuel runs out first. *)
Fixpoint unfold {St T} (fuel : nat) (step : St → option (T * St)) (s : St) : option (list T) :=
  match fuel with
  | O => None
  | S fuel' =>
      match step s with
      | None => Some []
      | Some (x, s') => (cons x) <$> unfold fuel' step s'
      end
  end.

(** [StreamExt::take_while], with a closure that keeps state. *)
Fixpoint take_while {T St} (f : St → T → bool * St) (st : St) (l : list T) : list T :=
  match l with
  | [] => []
  | x :: l' => let '(cont, st') := f st x in if cont then x :: take_while f st' l' else []
  end.

(** [StreamExt::flat_map], with a closure that keeps state. *)
Fixpoint flat_map {T U St} (f : St → T → list U * St) (st : St) (l : list T) : list U :=
  match l with
  | [] => []
  | x :: l' => let '(out, st') := f st x in out ++ flat_map f st' l'
  end.

(** [StreamExt::chunks]. *)
Fixpoint chunks_aux {T} (n : nat) (buf : list T) (l : list T) : list (list T) :=
  match l with
  | [] => match buf with [] => [] | _ => [buf] end
  | x :: l' =>
      let buf' := buf ++ [x] in
      if n <=? length buf' then buf' :: chunks_aux n [] l' else chunks_aux n buf' l'
  end.

Module SourceOps.

Fixpoint scan {T Acc} (f : Acc → T → Acc) (state : Acc) (l : list T) : list Acc :=
  match l with
  | [] => []
  | x :: l' => let state' := f state x in state' :: scan f state' l'
  end.

Definition grouped {T} (n : nat) (src : list T) : list (list T) := chunks_aux (Nat.max n 1) [] src.

(** [Source::intersperse]: the state is the upstream and [InterspersState]. *)
Record InterspersState (T : Type) := mkIntersperse {
  started : bool; pending : option T; idone : bool }.
Global Arguments mkIntersperse {T}.
Global Arguments started {T}.
Global Arguments pending {T}.
Global Arguments idone {T}.

Definition intersperse_step {T} (sep : T) (st : list T * InterspersState T)
    : option (T * (list T * InterspersState T)) :=
  let '(s, i) := st in
  if idone i then None
  else match pending i with
       | Some p => Some (p, (s, mkIntersperse (started i) None (idone i)))
       | None =>
           match s with
           | [] => None
           | v :: s' =>
               if started i then Some (sep, (s', mkIntersperse true (Some v) (idone i)))
               else Some (v, (s', mkIntersperse true None (idone i)))
           end
       end.

Definition intersperse {T} (fuel : nat) (sep : T) (src : list T) : option (list T) :=
  unfold fuel (intersperse_step sep) (src, mkIntersperse false None false).

Definition concat {T} (a b : list T) : list T := a ++ b.
Definition prepend {T} (self other : list T) : list T := other ++ self.

(** [zip_with_index]: the index is a [usize] read as a [u64]. *)
Definition zip_with_index {T} (src : list T) : list (N * T) := imap (λ i v, (N.of_nat i, v)) src.

(** [watch_termination]: the elements, and whether the terminator was polled when the consumer
    took [pulls] times. *)
Definition watch_termination {T} (src : list T) (pulls : nat) : list T * bool :=
  (take pulls src, length src <? pulls).

End SourceOps.

(** ** Rate mediation *)

Module Rate.
Section rate.
Context {T U : Type}.

(** One turn of the task of [conflate]: the accumulator is sent as soon as it is made. *)
Definition conflate_turn (seed : T → U) (fold : U → T → U) (acc : option U) (item : T) : list U * option U :=
  let acc := Some (match acc with None => seed item | Some prev => fold prev item end) in
  match acc with Some a => ([a], None) | None => ([], None) end.

Fixpoint conflate_loop (seed : T → U) (fold : U → T → U) (acc : option U) (l : list T) : list U :=
  match l with
  | [] => match acc with Some a => [a] | None => [] end
  | x :: l' => let '(out, acc') := conflate_turn seed fold acc x in out ++ conflate_loop seed fold acc' l'
  end.

Definition conflate (src : list T) (seed : T → U) (fold : U → T → U) : list U :=
  conflate_loop seed fold None src.

Fixpoint expand_loop (extrapolate : T → list T) (lst : option T) (l : list T) : list T :=
  match l with
  | [] => match lst with Some x => extrapolate x | None => [] end
  | x :: l' => x :: expand_loop extrapolate (Some x) l'
  end.

Definition expand (src : list T) (extrapolate : T → list T) : list T := expand_loop extrapolate None src.

End rate.
End Rate.

(** ** Recovery and supervision *)

Module Recovery.
Section recovery.
Context {T E : Type}.
Local Abbreviation Item := (sum E T).

Definition is_err (i : Item) : bool := match i with inl _ => true | inr _ => false end.
Definition ok (i : Item) : option T := match i with inl _ => None | inr v => Some v end.

Definition recover (src : list Item) (f : E → option T) : list T :=
  omap (λ i, match i with inr v => Some v | inl e => f e end)
    (take_while (λ errored i, (negb errored, errored || is_err i)) false src).

Definition map_error {E2} (src : list Item) (f : E → E2) : list (sum E2 T) :=
  (λ i, match i with inr v => inr v | inl e => inl (f e) end) <$> src.

(** The closure of [recover_with]: the flag and the replacement that has not been used. *)
Definition recover_with_turn (st : bool * option (list T)) (i : Item) : list T * (bool * option (list T)) :=
  let '(tripped, replacement_opt) := st in
  if tripped then ([], st)
  else match i with
       | inr v => ([v], st)
       | inl _ => (default [] replacement_opt, (true, None))
       end.

Definition recover_with (src : list Item) (replacement : list T) : list T :=
  flat_map recover_with_turn (false, Some replacement) src.

(** The closure of [recover_with_retries]: the flag and [attempts_left]; the factory is called with
    the number of its earlier calls. *)
Definition recover_with_retries_turn (max_attempts : nat) (factory : nat → list T) (st : bool * nat)
    (i : Item) : list T * (bool * nat) :=
  let '(tripped, attempts_left) := st in
  if tripped then ([], st)
  else match i with
       | inr v => ([v], st)
       | inl _ =>
           match attempts_left with
           | S rest => (factory (max_attempts - attempts_left), (false, rest))
           | O => ([], (true, O))
           end
       end.

Definition recover_with_retries (src : list Item) (max_attempts : nat) (factory : nat → list T) : list T :=
  flat_map (recover_with_retries_turn max_attempts factory) (false, max_attempts) src.

Inductive SupervisionDirective := Stop | Resume | Restart.

Definition resuming (e : E) : SupervisionDirective := Resume.
Definition stopping (e : E) : SupervisionDirective := Stop.
Definition restarting (e : E) : SupervisionDirective := Restart.

Definition with_decider (src : list Item) (decider : E → SupervisionDirective) : list T :=
  omap ok
    (take_while
       (λ stopped i,
          (negb stopped,
           match i with inl e => match decider e with Stop => true | _ => stopped end | inr _ => stopped end))
       false src).

End recovery.
End Recovery.

(** ** Substreams *)

Module Substream.
Section substream.
Context {T : Type}.

(** The channels opened so far, in order: the substreams that [split_when] and [split_after] have
    sent downstream.  The current sender is the last one, when there is one. *)
Record Split := mkSplit { channels : list (list T); current : option nat }.

Definition open_channel (s : Split) : Split :=
  mkSplit (channels s ++ [[]]) (Some (length (channels s))).

Definition send_current (s : Split) (x : T) : Split :=
  match current s with
  | Some i => mkSplit (alter (λ ch, send ch x) i (channels s)) (current s)
  | None => s
  end.

Definition split_when_turn (pred : T → bool) (s : Split) (x : T) : Split :=
  let split := pred x in
  let s := if split || bool_decide (current s = None) then open_channel s else s in
  send_current s x.

Definition split_after_turn (pred : T → bool) (s : Split) (x : T) : Split :=
  let s := if bool_decide (current s = None) then open_channel s else s in
  let split := pred x in
  let s := send_current s x in
  if split then mkSplit (channels s) None else s.

Definition split_when (pred : T → bool) (src : list T) : list (list T) :=
  channels (foldl (split_when_turn pred) (mkSplit [] None) src).

Definition split_after (pred : T → bool) (src : list T) : list (list T) :=
  channels (foldl (split_after_turn pred) (mkSplit [] None) src).

Definition prefix_and_tail (n : nat) (src : list T) : list T * list T := (take n src, drop n src).

(** [group_by]: the sender of a key is the number of its substream. *)
Record Groups (K : Type) `{Countable K} := mkGroups {
  senders : gmap K nat; groups : list (K * list T) }.
Global Arguments mkGroups {K _ _}.
Global Arguments senders {K _ _}.
Global Arguments groups {K _ _}.

Definition group_turn `{Countable K} (max_substreams : nat) (key_fn : T → K) (g : Groups K) (item : T)
    : Groups K :=
  let key := key_fn item in
  match senders g !! key with
  | Some tx => mkGroups (senders g) (alter (λ p, (p.1, send p.2 item)) tx (groups g))
  | None =>
      if max_substreams <=? size (senders g) then g
      else mkGroups (<[key := length (groups g)]> (senders g)) (groups g ++ [(key, [item])])
  end.

(** [None]: the assertion that [max_substreams] is at least one fails. *)
Definition group_by `{Countable K} (src : list T) (max_substreams : nat) (key_fn : T → K)
    : option (list (K * list T)) :=
  if 1 <=? max_substreams
  then Some (groups (foldl (group_turn max_substreams key_fn) (mkGroups ∅ []) src))
  else None.

End substream.
Arguments Split : clear implicits.
Arguments Groups T K {_ _} : rename.
End Substream.

(** ** Fan-out and fan-in *)

Module Junction.
Section junction.
Context {T : Type}.

(** The task of [partition], with the state of the closure. *)
Definition partition_turn {St} (f : St → T → nat * St) (s : list (list T) * St) (item : T)
    : list (list T) * St :=
  let '(outs, st) := s in
  let '(idx, st') := f st item in
  (alter (λ ch, send ch item) idx outs, st').

Definition partition {St} (src : list T) (n : nat) (f : St → T → nat * St) (st : St)
    : option (list (list T)) :=
  if 1 <=? n then Some (foldl (partition_turn f) (replicate n [], st) src).1 else None.

Definition balance (src : list T) (n : nat) : option (list (list T)) :=
  partition src n (λ cursor _, (cursor, (cursor + 1) mod n)) 0.

Definition broadcast (src : list T) : list T * list T :=
  foldl (λ '(a, b) x, (send a x, send b x)) ([], []) src.

(** [merge_sorted]: the heads held by the task and what is left of each side. *)
Fixpoint merge_sorted_loop (leb : T → T → bool) (fuel : nat) (head_a : option T) (sa : list T)
    (head_b : option T) (sb : list T) : option (list T) :=
  match fuel with
  | O => None
  | S fuel' =>
      match head_a, head_b with
      | None, None => Some []
      | Some x, None => Some (x :: sa)
      | None, Some y => Some (y :: sb)
      | Some x, Some y =>
          if leb x y then (cons x) <$> merge_sorted_loop leb fuel' (head sa) (tail sa) (Some y) sb
          else (cons y) <$> merge_sorted_loop leb fuel' (Some x) sa (head sb) (tail sb)
      end
  end.

Definition merge_sorted (leb : T → T → bool) (a b : list T) : option (list T) :=
  merge_sorted_loop leb (length a + length b + 1) (head a) (tail a) (head b) (tail b).

End junction.

Definition unzip {A B} (src : list (A * B)) : list A * list B :=
  foldl (λ '(a, b) p, (send a p.1, send b p.2)) ([], []) src.
End Junction.

(** ** Theorems *)

Section unfold_laws.
Context {St T : Type} (step : St → option (T * St)).

(** A stream whose states get smaller ends, and yields what a function of the state that satisfies
    its equations says. *)
Lemma unfold_ref (P : St → Prop) (m : St → nat) (ref : St → list T) s fuel :
  (∀ s, P s → step s = None → ref s = []) →
  (∀ s x s', P s → step s = Some (x, s') → P s' ∧ ref s = x :: ref s' ∧ m s' < m s) →
  P s → m s < fuel → unfold fuel step s = Some (ref s).
Proof.
  intros Hnone Hsome. revert s. induction fuel as [|fuel IH]; intros s Hs Hm; [lia|].
  cbn [unfold]. destruct (step s) as [[x s']|] eqn:E.
  - destruct (Hsome _ _ _ Hs E) as (Hs' & -> & Hlt). rewrite IH; [done|done|lia].
  - by rewrite Hnone.
Qed.

(** The elements of a stream satisfy what every step establishes. *)
Lemma unfold_Forall (Q : T → Prop) s fuel out :
  (∀ s x s', step s = Some (x, s') → Q x) → unfold fuel step s = Some out → Forall Q out.
Proof.
  intros HQ. revert s out. induction fuel as [|fuel IH]; intros s out; [done|].
  cbn [unfold]. destruct (step s) as [[x s']|] eqn:E; [|by intros [= <-]].
  intros (out' & Hout & ->)%fmap_Some. constructor; [by eapply HQ|by eapply IH].
Qed.

End unfold_laws.

Lemma chunks_aux_spec {T} n (buf l : list T) :
  length buf < n →
  mjoin (chunks_aux n buf l) = buf ++ l ∧
  Forall (λ c, 1 ≤ length c ≤ n) (chunks_aux n buf l) ∧
  Forall (λ c, length c = n) (removelast (chunks_aux n buf l)).
Proof.
  revert buf. induction l as [|x l IH]; intros buf Hb; cbn [chunks_aux].
  { destruct buf as [|y buf]; [done|]. cbn in *. rewrite app_nil_r.
    split_and!; [done| |done]. constructor; [cbn; lia|done]. }
  rewrite length_app. cbn [length]. destruct (n <=? length buf + 1) eqn:E; bool_to_prop.
  - destruct (IH [] ltac:(cbn; lia)) as (Hj & Hall & Hlast). split_and!.
    + change (mjoin ((buf ++ [x]) :: chunks_aux n [] l)) with ((buf ++ [x]) ++ mjoin (chunks_aux n [] l)).
      rewrite Hj. by rewrite <- app_assoc.
    + constructor; [rewrite length_app; cbn; lia|done].
    + destruct (chunks_aux n [] l) as [|c cs] eqn:Ec; [by constructor|].
      change (Forall (λ c0, length c0 = n) ((buf ++ [x]) :: removelast (c :: cs))).
      constructor; [rewrite length_app; cbn; lia|done].
  - destruct (IH (buf ++ [x])) as (Hj & Hall & Hlast); [rewrite length_app; cbn; lia|].
    split_and!; [|done..]. by rewrite Hj, <- app_assoc.
Qed.

Module SourceOpsFacts.
Import SourceOps.

(** [Source::grouped] cuts the stream into groups of [max n 1] elements, of which only the last
    may be shorter, and loses none. *)
Lemma grouped_spec {T} n (src : list T) :
  mjoin (grouped n src) = src ∧
  Forall (λ c, 1 ≤ length c ≤ Nat.max n 1) (grouped n src) ∧
  Forall (λ c, length c = Nat.max n 1) (removelast (grouped n src)).
Proof. unfold grouped. apply chunks_aux_spec. cbn. lia. Qed.

(** What is left to yield of an interspersed stream. *)
Fixpoint separated {T} (sep : T) (l : list T) : list T :=
  match l with [] => [] | x :: l' => sep :: x :: separated sep l' end.

Definition intersperse_rest {T} (sep : T) (st : list T * InterspersState T) : list T :=
  let '(s, i) := st in
  if started i then option_list (pending i) ++ separated sep s
  else match s with [] => [] | x :: s' => x :: separated sep s' end.

(** [Source::intersperse] puts the separator between consecutive elements, and ends. *)
Lemma intersperse_spec {T} (sep : T) src fuel :
  2 * length src < fuel →
  intersperse fuel sep src = Some (match src with [] => [] | x :: l => x :: separated sep l end).
Proof.
  intros Hf. unfold intersperse.
  rewrite (unfold_ref _ (λ st, idone st.2 = false ∧ (pending st.2 = None ∨ started st.2 = true))
             (λ st, 2 * length st.1 + length (option_list (pending st.2)))
             (intersperse_rest sep)); cbn.
  - done.
  - intros [[|v s] [b [p|] d]] [Hd Hp]; cbn in *; subst; [done|by destruct b|done|by destruct b].
  - intros [s [b [p|] d]] x s' [Hd Hp]; cbn in *; subst.
    + intros [= <- <-]. destruct Hp as [|Hp]; [done|]. subst. cbn. split_and!; auto; lia.
    + destruct s as [|v s]; [done|]. destruct b; intros [= <- <-]; cbn; split_and!; auto; lia.
  - auto.
  - lia.
Qed.

Lemma scan_last {T Acc} (f : Acc → T → Acc) st (l : list T) :
  default st (last (scan f st l)) = foldl f st l ∧ length (scan f st l) = length l.
Proof.
  revert st. induction l as [|x l IH]; intros st; [done|]. cbn [scan foldl length].
  destruct (IH (f st x)) as [Hl Hn]. split; [|by rewrite Hn]. rewrite <- Hl.
  destruct (scan f (f st x) l) as [|a l0] eqn:E; [done|]. rewrite last_cons_cons.
  destruct (last (a :: l0)) eqn:El; [done|by apply last_None in El].
Qed.

End SourceOpsFacts.

Module RateFacts.
Import Rate.

(** [conflate] never folds: the accumulator is sent in the turn that makes it. *)
Lemma conflate_never_folds {T U} (src : list T) (seed : T → U) (fold : U → T → U) :
  conflate src seed fold = seed <$> src.
Proof. unfold conflate. induction src as [|x l IH]; [done|]. cbn. by f_equal. Qed.

(** [expand] yields the upstream, and extrapolates from its last element when it has ended. *)
Lemma expand_after_end {T} (src : list T) (ex : T → list T) :
  expand src ex = src ++ from_option ex [] (last src).
Proof.
  unfold expand.
  assert (∀ o, expand_loop ex o src = src ++ from_option ex [] (match last src with Some x => Some x | None => o end))
    as H.
  { induction src as [|x l IH]; intros o; [by destruct o|]. cbn [expand_loop app]. rewrite IH. f_equal. f_equal.
    destruct l as [|y l]; [done|]. rewrite last_cons_cons.
    destruct (last (y :: l)) eqn:El; [done|by apply last_None in El]. }
  rewrite H. by destruct (last src).
Qed.

End RateFacts.

Module RecoveryFacts.
Import Recovery.
Section facts.
Context {T E : Type}.
Implicit Types (src : list (sum E T)).

(** The elements in front of the first error of a stream, and that error with what follows it. *)
Fixpoint until_err src : list T * option (E * list (sum E T)) :=
  match src with
  | [] => ([], None)
  | inr v :: l => let '(vs, r) := until_err l in (v :: vs, r)
  | inl e :: l => ([], Some (e, l))
  end.

Lemma until_err_app (vs : list T) src :
  until_err ((inr <$> vs) ++ src) = (vs ++ (until_err src).1, (until_err src).2).
Proof.
  induction vs as [|v vs IH]; cbn [fmap list_fmap app until_err]; [by destruct (until_err src)|].
  by rewrite IH.
Qed.

Lemma take_while_errored src :
  take_while (λ errored i, (negb errored, errored || is_err i)) true src = [].
Proof. by destruct src. Qed.

(** [recover]: the values in front of the first error, then what the closure makes of it. *)
Lemma recover_spec src f :
  recover src f =
  (until_err src).1 ++ from_option (λ '(e, _), option_list (f e)) [] (until_err src).2.
Proof.
  unfold recover. induction src as [|[e|v] l IH]; [done| |].
  - cbn [take_while negb orb is_err until_err fst snd from_option]. rewrite take_while_errored. cbn. by destruct (f e).
  - cbn [take_while negb orb is_err until_err]. destruct (until_err l) as [vs r]. cbn in *. by rewrite IH.
Qed.

Lemma flat_map_tripped src (st : option (list T)) : flat_map recover_with_turn (true, st) src = [].
Proof. by induction src. Qed.

(** [recover_with]: the replacement takes the place of the first error and of all that follows. *)
Lemma recover_with_spec src replacement :
  recover_with src replacement =
  (until_err src).1 ++ from_option (λ _, replacement) [] (until_err src).2.
Proof.
  unfold recover_with. induction src as [|[e|v] l IH]; [done| |].
  - cbn. by rewrite flat_map_tripped, app_nil_r.
  - cbn [flat_map recover_with_turn until_err]. destruct (until_err l) as [vs r]. cbn in *. by rewrite IH.
Qed.

Lemma flat_map_retries_tripped src n m (factory : nat → list T) :
  flat_map (recover_with_retries_turn n factory) (true, m) src = [].
Proof. by induction src. Qed.

(** [recover_with_retries], one error at a time: the upstream is read again after the
    replacement, until the attempts are used up. *)
Lemma recover_with_retries_step src n left factory :
  left ≤ n →
  flat_map (recover_with_retries_turn n factory) (false, left) src =
  (until_err src).1 ++
  match (until_err src).2, left with
  | Some (_, rest), S left' =>
      factory (n - left) ++ flat_map (recover_with_retries_turn n factory) (false, left') rest
  | _, _ => []
  end.
Proof.
  intros Hl. induction src as [|[e|v] l IH]; [done| |].
  - destruct left as [|left']; cbn; [by rewrite flat_map_retries_tripped|done].
  - cbn [flat_map recover_with_retries_turn until_err]. destruct (until_err l) as [vs r]. cbn in *.
    by rewrite IH.
Qed.

(** A replacement does not end the upstream: what follows an error is yielded after it. *)
Lemma retries_keep_upstream (vs rest : list T) (e : E) n factory :
  recover_with_retries ((inr <$> vs) ++ inl e :: (inr <$> rest)) (S n) factory = vs ++ factory 0 ++ rest.
Proof.
  unfold recover_with_retries. rewrite recover_with_retries_step by lia. rewrite until_err_app. cbn.
  rewrite app_nil_r, Nat.sub_diag. do 2 f_equal.
  rewrite recover_with_retries_step by lia.
  pose proof (until_err_app rest []) as Hr. rewrite app_nil_r in Hr. rewrite Hr. cbn. by rewrite !app_nil_r.
Qed.

(** [with_decider]: the values in front of the first error the decider stops at; the other errors
    are dropped. *)
Lemma with_decider_spec src (decider : E → SupervisionDirective) :
  with_decider src decider =
  omap ok (take_while (λ _ i, (match i with
                                | inl e => match decider e with Stop => false | _ => true end
                                | inr _ => true end, tt)) tt src).
Proof.
  unfold with_decider. induction src as [|[e|v] l IH]; [done| |].
  - cbn. destruct (decider e); [by destruct l|done..].
  - cbn in *. by rewrite IH.
Qed.

Lemma resuming_keeps_all src : with_decider src resuming = omap ok src.
Proof. rewrite with_decider_spec. induction src as [|[e|v] l IH]; [done|done|]. cbn in *. by rewrite IH. Qed.

Lemma stopping_first_error src : with_decider src stopping = (until_err src).1.
Proof.
  rewrite with_decider_spec. induction src as [|[e|v] l IH]; [done|done|].
  cbn in *. rewrite IH. by destruct (until_err l).
Qed.

End facts.
End RecoveryFacts.

Lemma alter_last {A} (f : A → A) l x : alter f (length l) (l ++ [x]) = l ++ [f x].
Proof. induction l as [|y l IH]; [done|]. cbn. by f_equal. Qed.

Lemma mjoin_snoc {A} (cs : list (list A)) c : mjoin (cs ++ [c]) = mjoin cs ++ c.
Proof. rewrite join_app. cbn. by rewrite app_nil_r. Qed.

Module SubstreamFacts.
Import Substream.
Section facts.
Context {T : Type} (pred : T → bool).

(** A substream of [split_when]: its first element starts it, no later one does. *)
Definition started_by (first : bool) (c : list T) : Prop :=
  ∃ x r, c = x :: r ∧ (first = false → pred x = true) ∧ Forall (λ y, pred y = false) r.

(** A substream of [split_after]: no element but its last ends it. *)
Definition ended_by (complete : bool) (c : list T) : Prop :=
  ∃ r x, c = r ++ [x] ∧ (complete = true → pred x = true) ∧ Forall (λ y, pred y = false) r.

Lemma started_by_snoc b c x : pred x = false → started_by b c → started_by b (c ++ [x]).
Proof.
  intros Hx (y & r & -> & Hy & Hr). exists y, (r ++ [x]). split_and!; [done..|].
  rewrite Forall_app. by repeat constructor.
Qed.

Definition split_when_inv (l : list T) (s : Split T) : Prop :=
  mjoin (channels s) = l ∧ (∀ i c, channels s !! i = Some c → started_by (i =? 0) c) ∧
  match current s with
  | None => channels s = []
  | Some i => ∃ cs c, channels s = cs ++ [c] ∧ length cs = i
  end.

Lemma split_when_turn_inv l s x : split_when_inv l s → split_when_inv (l ++ [x]) (split_when_turn pred s x).
Proof.
  intros (Hj & Hst & Hcur). unfold split_when_turn.
  destruct (pred x || bool_decide (current s = None)) eqn:E.
  - unfold send_current, open_channel; cbn. rewrite alter_last. unfold split_when_inv; cbn. split_and!.
    + by rewrite mjoin_snoc, Hj.
    + intros i c [Hc|[Hi Hc]]%lookup_app_Some; [by apply Hst|].
      apply list_lookup_singleton_Some in Hc as [Hi0 <-]. exists x, []. split_and!; [done| |done].
      intros Hne%Nat.eqb_neq. apply orb_true_iff in E as [?|E%bool_decide_eq_true]; [done|].
      rewrite E in Hcur. rewrite Hcur in *. cbn in *. lia.
    + by exists (channels s), [x].
  - apply orb_false_iff in E as [Hx Hne%bool_decide_eq_false]. unfold send_current.
    destruct (current s) as [i|] eqn:Ec; [|done]. destruct Hcur as (cs & c & Hch & <-).
    unfold split_when_inv; cbn. rewrite Hch in *. rewrite alter_last, mjoin_snoc.
    rewrite mjoin_snoc in Hj. split_and!.
    + unfold send. by rewrite app_assoc, Hj.
    + intros i d [Hd|[Hi Hd]]%lookup_app_Some; [apply Hst; by apply lookup_app_l_Some|].
      apply list_lookup_singleton_Some in Hd as [Hi0 <-]. apply started_by_snoc; [done|]. apply Hst.
      rewrite lookup_app_r by done. by rewrite Hi0.
    + by eexists _, _.
Qed.

(** [split_when] cuts the stream in front of each element that satisfies the predicate. *)
Lemma split_when_spec src :
  mjoin (split_when pred src) = src ∧
  ∀ i c, split_when pred src !! i = Some c → started_by (i =? 0) c.
Proof.
  cut (split_when_inv src (foldl (split_when_turn pred) (mkSplit [] None) src)); [by intros (?&?&_)|].
  induction src as [|x l IH] using rev_ind; [done|].
  rewrite foldl_app. cbn. by apply split_when_turn_inv.
Qed.

Definition split_after_inv (l : list T) (s : Split T) : Prop :=
  mjoin (channels s) = l ∧
  match current s with
  | None => Forall (ended_by true) (channels s)
  | Some i => ∃ cs c, channels s = cs ++ [c] ∧ length cs = i ∧
                Forall (ended_by true) cs ∧ c ≠ [] ∧ Forall (λ y, pred y = false) c
  end.

Lemma split_after_turn_inv l s x : split_after_inv l s → split_after_inv (l ++ [x]) (split_after_turn pred s x).
Proof.
  intros (Hj & Hcur). unfold split_after_turn.
  assert (∃ cs c, let s' := send_current (if bool_decide (current s = None) then open_channel s else s) x in
            channels s' = cs ++ [c ++ [x]] ∧ current s' = Some (length cs) ∧ mjoin cs ++ c = l ∧
            Forall (ended_by true) cs ∧ Forall (λ y, pred y = false) c) as (cs & c & Hch & Hc & Hl & Hcs & Hp).
  { destruct (current s) as [i|] eqn:Ec; cbn.
    - destruct Hcur as (cs & c & Hch & <- & Hcs & Hne & Hp). exists cs, c. unfold send_current. rewrite Ec. cbn.
      rewrite Hch, alter_last. rewrite Hch, mjoin_snoc in Hj. done.
    - exists (channels s), []. rewrite alter_last, app_nil_r. done. }
  cbn in *. unfold split_after_inv. destruct (pred x) eqn:Hx; cbn.
  - rewrite Hch, mjoin_snoc, app_assoc, Hl. split; [done|]. apply Forall_app. split; [done|].
    constructor; [|done]. by exists c, x.
  - rewrite Hch, mjoin_snoc, app_assoc, Hl, Hc. split; [done|].
    exists cs, (c ++ [x]). split_and!; [done..|by destruct c|]. rewrite Forall_app. by repeat constructor.
Qed.

(** [split_after] cuts the stream behind each element that satisfies the predicate. *)
Lemma split_after_spec src :
  mjoin (split_after pred src) = src ∧
  Forall (ended_by false) (split_after pred src) ∧ Forall (ended_by true) (removelast (split_after pred src)).
Proof.
  cut (split_after_inv src (foldl (split_after_turn pred) (mkSplit [] None) src)).
  { unfold split_after. intros (Hj & Hcur). split; [done|].
    assert (∀ c, ended_by true c → ended_by false c) as Hweak by (intros c (r & x & -> & ? & ?); by exists r, x).
    destruct (current _) as [i|].
    - destruct Hcur as (cs & c & -> & _ & Hcs & Hne & Hp). rewrite removelast_last. split; [|done].
      apply Forall_app. split; [by eapply Forall_impl|]. constructor; [|done].
      induction c as [|x r _] using rev_ind; [done|]. exists r, x. split_and!; [done..|].
      by apply Forall_app in Hp as [].
    - split; [by eapply Forall_impl|].
      induction (channels _) as [|c cs _] using rev_ind; [done|]. rewrite removelast_last.
      by apply Forall_app in Hcur as []. }
  induction src as [|x l IH] using rev_ind; [split; [done|by constructor]|].
  rewrite foldl_app. cbn. by apply split_after_turn_inv.
Qed.

Section group_by.
Context `{Countable K} (key_fn : T → K) (max : nat).

(** The keys of a stream in the order in which they first occur. *)
Definition first_keys (l : list T) : list K :=
  foldl (λ ks x, if decide (key_fn x ∈ ks) then ks else ks ++ [key_fn x]) [] l.

Lemma first_keys_snoc l x :
  first_keys (l ++ [x]) = if decide (key_fn x ∈ first_keys l) then first_keys l else first_keys l ++ [key_fn x].
Proof. unfold first_keys. by rewrite foldl_app. Qed.

Lemma elem_of_first_keys l k : k ∈ first_keys l ↔ k ∈ key_fn <$> l.
Proof.
  induction l as [|x l IH] using rev_ind; [cbn; set_solver|]. rewrite first_keys_snoc, fmap_app, elem_of_app, <- IH. cbn.
  case_decide; rewrite ?elem_of_app, ?list_elem_of_singleton; naive_solver.
Qed.

Definition groups_inv (l : list T) (g : Groups T K) : Prop :=
  size (senders g) = length (groups g) ∧
  (groups g).*1 = take max (first_keys l) ∧
  (∀ k i, senders g !! k = Some i ↔ (groups g).*1 !! i = Some k) ∧
  (∀ k xs, (k, xs) ∈ groups g → xs = filter (λ y, key_fn y = k) l).

Lemma NoDup_first_keys l : NoDup (first_keys l).
Proof.
  induction l as [|x l IH] using rev_ind; [by constructor|]. rewrite first_keys_snoc. case_decide; [done|].
  apply NoDup_app. split_and!; [done| |apply NoDup_singleton].
  intros y Hy ->%list_elem_of_singleton. done.
Qed.

Lemma group_turn_inv l g x : groups_inv l g → groups_inv (l ++ [x]) (group_turn max key_fn g x).
Proof.
  intros (Hsz & Hk & Hsend & Hxs). unfold group_turn.
  assert (length (groups g) = length (take max (first_keys l))) as Hlen by (by rewrite <- Hk, length_fmap).
  rewrite length_take in Hlen. set (k := key_fn x).
  assert (∀ j, filter (λ y, key_fn y = j) (l ++ [x]) =
               filter (λ y, key_fn y = j) l ++ (if decide (k = j) then [x] else [])) as Hf
    by (intros j; by rewrite filter_app).
  destruct (senders g !! k) as [tx|] eqn:Es.
  - apply Hsend in Es as Hi. rewrite Hk in Hi.
    assert (k ∈ first_keys l) as Hin by (apply (list_elem_of_lookup_2 _ tx); by apply lookup_take_Some in Hi as []).
    unfold groups_inv; cbn. rewrite length_alter, first_keys_snoc, decide_True by done.
    assert ((alter (λ p, (p.1, send p.2 x)) tx (groups g)).*1 = (groups g).*1) as Hfst.
    { apply list_eq. intros i. rewrite !list_lookup_fmap, list_lookup_alter.
      case_decide as Hd; [|done]. rewrite <- Hd. by destruct (groups g !! tx). }
    rewrite Hfst. split_and!; [done..|]. intros j xs [i Hj]%list_elem_of_lookup.
    rewrite list_lookup_alter in Hj. rewrite Hf. case_decide as Hd.
    + subst. apply fmap_Some in Hj as ([j' xs'] & Hl' & [= -> ->]).
      rewrite <- Hk, list_lookup_fmap, Hl' in Hi. injection Hi as Hi. rewrite decide_True by (cbn; congruence).
      unfold send. cbn. f_equal. apply Hxs. by eapply list_elem_of_lookup_2.
    + rewrite decide_False; [rewrite app_nil_r; apply Hxs; by eapply list_elem_of_lookup_2|].
      intros ->. apply Hd. apply (NoDup_lookup (take max (first_keys l)) _ _ j); [|done|].
      * pose proof (NoDup_first_keys l) as Hnd. rewrite <- (take_drop max (first_keys l)) in Hnd.
        by apply NoDup_app in Hnd as [].
      * by rewrite <- Hk, list_lookup_fmap, Hj.
  - assert (k ∉ (groups g).*1) as Hnin.
    { intros [i Hi%Hsend]%list_elem_of_lookup. congruence. }
    destruct (max <=? size (senders g)) eqn:E; bool_to_prop.
    + unfold groups_inv. rewrite first_keys_snoc. split_and!; [done| |done|].
      * rewrite Hk. case_decide; [done|]. rewrite take_app_le; [done|lia].
      * intros j xs Hj. rewrite Hf. rewrite decide_False; [by rewrite app_nil_r; apply Hxs|].
        intros ->. apply Hnin. apply list_elem_of_fmap. by exists (j, xs).
    + assert (take max (first_keys l) = first_keys l) as Htake by (apply take_ge; lia).
      rewrite Hk, Htake in Hnin. unfold groups_inv; cbn.
      rewrite first_keys_snoc, decide_False by done. rewrite fmap_app, length_app. cbn. split_and!.
      * rewrite map_size_insert_None by done. lia.
      * rewrite Hk, Htake, take_ge; [done|]. rewrite length_app. cbn. lia.
      * intros j i. rewrite lookup_insert_Some. rewrite Hsend, Hk, Htake. split.
        -- intros [[<- <-]|[Hne Hi]].
           ++ rewrite lookup_app_r by lia. by rewrite <- Hsz, Hsz, Hlen, Nat.min_r, Nat.sub_diag by lia.
           ++ by apply lookup_app_l_Some.
        -- intros [Hi|[Hge Hi]]%lookup_app_Some.
           ++ right. split; [|done]. intros ->. apply Hnin. by eapply list_elem_of_lookup_2.
           ++ left. apply list_lookup_singleton_Some in Hi as [Hi <-]. split; [done|]. lia.
      * intros j xs [Hj|Hj]%elem_of_app; rewrite Hf.
        -- rewrite decide_False; [by rewrite app_nil_r; apply Hxs|]. intros ->. apply Hnin.
           rewrite <- Htake, <- Hk. apply list_elem_of_fmap. by exists (j, xs).
        -- apply list_elem_of_singleton in Hj as [= -> ->]. rewrite decide_True by done.
           rewrite filter_none; [done|]. intros y Hy Heq. apply Hnin. rewrite elem_of_first_keys.
           rewrite <- Heq. by apply list_elem_of_fmap_2.
Qed.

(** [group_by]: a substream for each of the first [max_substreams] keys, in the order in which they
    occur, with all the elements of the key in order; the other elements are dropped. *)
Lemma group_by_spec src :
  1 ≤ max →
  ∃ gs, group_by src max key_fn = Some gs ∧ gs.*1 = take max (first_keys src) ∧
    ∀ k xs, (k, xs) ∈ gs → xs = filter (λ y, key_fn y = k) src.
Proof.
  intros Hm. unfold group_by. rewrite (proj2 (Nat.leb_le 1 max)) by done. eexists. split; [done|].
  cut (groups_inv src (foldl (group_turn max key_fn) (mkGroups ∅ []) src)); [by intros (_&?&_&?)|].
  induction src as [|x l IH] using rev_ind.
  - unfold groups_inv; cbn. rewrite map_size_empty. split_and!; [done|by destruct max|done|].
    intros k xs []%not_elem_of_nil.
  - rewrite foldl_app. cbn. by apply group_turn_inv.
Qed.

End group_by.
End facts.
End SubstreamFacts.

Module JunctionFacts.
Import Junction.
Section facts.
Context {T : Type}.

(** [partition] with a closure that keeps no state: output [i] gets the elements sent to [i], in
    order, and an element sent to no output is dropped. *)
Lemma partition_spec (src : list T) n (f : T → nat) :
  1 ≤ n →
  ∃ outs, partition src n (λ (_ : unit) x, (f x, tt)) tt = Some outs ∧ length outs = n ∧
    ∀ i, i < n → outs !! i = Some (filter (λ x, f x = i) src).
Proof.
  intros Hn. unfold partition. rewrite (proj2 (Nat.leb_le 1 n)) by done. eexists. split; [done|].
  induction src as [|x l [IHn IH]] using rev_ind.
  - cbn. rewrite length_replicate. split; [done|]. intros i Hi. by apply lookup_replicate.
  - rewrite foldl_app. cbn. destruct (foldl _ _ l) as [outs []] eqn:E. cbn in *.
    rewrite length_alter. split; [done|]. intros i Hi. rewrite list_lookup_alter, filter_app.
    case_decide as Hd.
    + subst. rewrite IH by done. cbn. by rewrite decide_True.
    + rewrite IH by done. cbn. rewrite decide_False by done. by rewrite app_nil_r.
Qed.

(** The elements at the positions that are [i] modulo [n]. *)
Definition every (n i : nat) (l : list T) : list T :=
  snd <$> filter (λ p : nat * T, p.1 mod n = i) (imap pair l).

Lemma every_snoc n i l x :
  every n i (l ++ [x]) = every n i l ++ (if decide (length l mod n = i) then [x] else []).
Proof.
  unfold every. rewrite imap_app, filter_app, fmap_app. f_equal. cbn. rewrite Nat.add_0_r.
  by case_decide.
Qed.

Lemma every_length n i l :
  i < n → length (every n i l) = length l / n + (if i <? length l mod n then 1 else 0).
Proof.
  intros Hi. induction l as [|x l IH] using rev_ind.
  { cbn. rewrite Nat.Div0.div_0_l, Nat.Div0.mod_0_l. done. }
  rewrite every_snoc, !length_app, IH. cbn [length]. set (L := length l).
  assert (n ≠ 0) as Hn by lia. pose proof (Nat.div_mod L n Hn) as HL.
  pose proof (Nat.mod_upper_bound L n Hn) as Hr. set (q := L / n) in *. set (r := L mod n) in *.
  destruct (decide (r + 1 = n)) as [Hw|Hw].
  - assert ((L + 1) / n = q + 1) as -> by (symmetry; apply (Nat.div_unique _ _ _ 0); nia).
    assert ((L + 1) mod n = 0) as -> by (symmetry; apply (Nat.mod_unique _ _ (q + 1)); nia).
    destruct (i <? r) eqn:E1, (i <? 0) eqn:E2; bool_to_prop; case_decide; cbn [length]; lia.
  - assert ((L + 1) / n = q) as -> by (symmetry; apply (Nat.div_unique _ _ _ (r + 1)); nia).
    assert ((L + 1) mod n = r + 1) as -> by (symmetry; apply (Nat.mod_unique _ _ q); nia).
    destruct (i <? r) eqn:E1, (i <? r + 1) eqn:E2; bool_to_prop; case_decide; cbn [length]; lia.
Qed.

(** [balance] deals the elements out in turn, so that two outputs never differ by more than one
    element. *)
Lemma balance_spec (src : list T) n :
  1 ≤ n →
  ∃ outs, balance src n = Some outs ∧ length outs = n ∧
    (∀ i, i < n → outs !! i = Some (every n i src)) ∧
    ∀ i j a b, outs !! i = Some a → outs !! j = Some b → length a ≤ length b + 1.
Proof.
  intros Hn. unfold balance, partition. rewrite (proj2 (Nat.leb_le 1 n)) by done.
  set (f := λ (cursor : nat) (_ : T), (cursor, (cursor + 1) mod n)).
  assert (∃ outs, foldl (partition_turn f) (replicate n [], 0) src = (outs, length src mod n) ∧
            length outs = n ∧ ∀ i, i < n → outs !! i = Some (every n i src)) as (outs & -> & Hlen & Houts).
  { induction src as [|x l (outs & IH & Hlen & Houts)] using rev_ind.
    - exists (replicate n []). cbn [foldl length]. rewrite Nat.Div0.mod_0_l, length_replicate. split_and!; [done..|].
      intros i Hi. by apply lookup_replicate.
    - rewrite foldl_app, IH. cbn. eexists. split_and!; [|by rewrite length_alter|].
      + f_equal. by rewrite Nat.Div0.add_mod_idemp_l, length_app.
      + intros i Hi. rewrite list_lookup_alter, every_snoc. case_decide as Hd.
        * rewrite Hd, Houts by done. done.
        * by rewrite app_nil_r, Houts. }
  exists outs. split_and!; [done..|]. intros i j a b Ha Hb.
  pose proof (lookup_lt_Some _ _ _ Ha) as Hi. pose proof (lookup_lt_Some _ _ _ Hb) as Hj.
  rewrite Hlen in Hi, Hj. rewrite Houts in Ha, Hb by done. injection Ha as <-. injection Hb as <-.
  rewrite !every_length by done. destruct (i <? _), (j <? _); lia.
Qed.

Lemma broadcast_spec (src : list T) : broadcast src = (src, src).
Proof.
  unfold broadcast. induction src as [|x l IH] using rev_ind; [done|]. rewrite foldl_app, IH. done.
Qed.

(** [merge_sorted] ends, and yields what the merge of the sort library yields. *)
Lemma merge_sorted_loop_spec (leb : T → T → bool) fuel ha sa hb sb :
  (ha = None → sa = []) → (hb = None → sb = []) →
  length (option_list ha ++ sa) + length (option_list hb ++ sb) < fuel →
  merge_sorted_loop leb fuel ha sa hb sb =
  Some (list_merge (λ x y, Is_true (leb x y)) (option_list ha ++ sa) (option_list hb ++ sb)).
Proof.
  revert ha sa hb sb. induction fuel as [|fuel IH]; intros ha sa hb sb Ha Hb Hf; [lia|].
  assert (∀ l : list T, option_list (head l) ++ tail l = l ∧ (head l = None → tail l = [])) as Hht
    by (by intros []).
  cbn [merge_sorted_loop]. destruct ha as [x|], hb as [y|]; cbn in *.
  - unfold decide at 1. destruct (leb x y) eqn:E; cbn.
    + rewrite IH; [|by apply Hht|done|by rewrite (proj1 (Hht sa)); cbn; lia].
      rewrite (proj1 (Hht sa)). cbn. by destruct sa.
    + rewrite IH; [|done|by apply Hht|by rewrite (proj1 (Hht sb)); cbn; lia].
      rewrite (proj1 (Hht sb)). cbn. by destruct sa.
  - rewrite Hb by done. by destruct sa.
  - rewrite Ha by done. done.
  - rewrite Ha, Hb by done. done.
Qed.

Context (leb : T → T → bool).
Let R : relation T := λ x y, Is_true (leb x y).

(** [merge_sorted] of two sorted sources is sorted and has the elements of both. *)
Lemma merge_sorted_spec a b :
  Total R → Sorted R a → Sorted R b →
  ∃ out, merge_sorted leb a b = Some out ∧ Sorted R out ∧ out ≡ₚ a ++ b.
Proof.
  intros Ht Ha Hb.
  assert (∀ l : list T, option_list (head l) ++ tail l = l ∧ (head l = None → tail l = [])) as Hht
    by (by intros []).
  exists (list_merge R a b). split_and!.
  - unfold merge_sorted. rewrite merge_sorted_loop_spec; [|by apply Hht..|].
    + by rewrite !(proj1 (Hht _)).
    + rewrite !(proj1 (Hht _)). lia.
  - by apply Sorted_list_merge.
  - apply merge_Permutation.
Qed.

End facts.

Lemma unzip_spec {A B} (src : list (A * B)) : unzip src = (src.*1, src.*2).
Proof.
  unfold unzip. induction src as [|x l IH] using rev_ind; [done|]. rewrite foldl_app, IH.
  by rewrite !fmap_app.
Qed.

End JunctionFacts.
