(* ===== verification/TimedStreams.v ===== *)
(** * Stream operators that wait

    The operators of atomr-streams whose output depends on when things happen: the time windows of
    timed.rs, the logical-clock gate and the lock-step source of clock_gated.rs, the back-off of
    rate.rs and restart.rs, the weighted merge of junction.rs and the kill switch of kill_switch.rs.
    Time is a number ([Instant] and [Duration]); what the runtime decides (the readings of the
    clock, which of two upstreams is ready, where another task steps in) is an argument. *)

From stdpp Require Import gmap strings list sorting.
From Stdlib Require Import NArith Lia.
From S2P Require Import Prelude Streams.

(** ** [grouped_within]

    The upstream is a list of elements with the time at which each is there, and the time at which
    it ends.  The consumer asks for the next group as soon as it has one. *)
Module Timed.
Section timed.
Context {T : Type}.

Record State := mkState {
  inner : list (N * T); ends : N; buf : list T; deadline : option N; upstream_done : bool; now : N }.

Inductive Turn := Emit (chunk : list T) | Continue | Finish.

(** [DeadlineOrItem]: the [select!] is biased towards the timer. *)
Inductive DeadlineOrItem := Deadline (d : N) | Item (at_ : N) (item : option T).

Definition next_item (s : State) : DeadlineOrItem :=
  let arrival := match inner s with (t, _) :: _ => N.max (now s) t | [] => N.max (now s) (ends s) end in
  match deadline s with
  | Some d => if (d <=? arrival)%N then Deadline (N.max (now s) d) else Item arrival (snd <$> head (inner s))
  | None => Item arrival (snd <$> head (inner s))
  end.

(** One turn of the loop of [grouped_within]. *)
Definition turn (n : nat) (duration : N) (s : State) : Turn * State :=
  if upstream_done s then
    match buf s with
    | [] => (Finish, s)
    | chunk => (Emit chunk, mkState (inner s) (ends s) [] (deadline s) true (now s))
    end
  else match next_item s with
       | Deadline t =>
           match buf s with
           | [] => (Continue, mkState (inner s) (ends s) [] None false t)
           | chunk => (Emit chunk, mkState (inner s) (ends s) [] None false t)
           end
       | Item t None =>
           match buf s with
           | [] => (Finish, mkState (inner s) (ends s) [] (deadline s) true t)
           | chunk => (Emit chunk, mkState (inner s) (ends s) [] (deadline s) true t)
           end
       | Item t (Some item) =>
           let dl := match buf s with [] => Some (t + duration)%N | _ => deadline s end in
           let b := buf s ++ [item] in
           if n <=? length b then (Emit b, mkState (tail (inner s)) (ends s) [] None false t)
           else (Continue, mkState (tail (inner s)) (ends s) b dl false t)
       end.

(** The groups with the time at which each is emitted. *)
Fixpoint run (fuel : nat) (n : nat) (duration : N) (s : State) : option (list (N * list T)) :=
  match fuel with
  | O => None
  | S fuel' =>
      match turn n duration s with
      | (Emit chunk, s') => (cons (now s', chunk)) <$> run fuel' n duration s'
      | (Continue, s') => run fuel' n duration s'
      | (Finish, _) => Some []
      end
  end.

Definition start (src : list (N * T)) (ends : N) : State := mkState src ends [] None false 0.

(** [None] also when the assertion that [n] is at least one fails. *)
Definition grouped_within (src : list (N * T)) (ends : N) (n : nat) (duration : N)
    : option (list (N * list T)) :=
  if 1 <=? n then run (3 * length src + 3) n duration (start src ends) else None.

(** [keep_alive] and [idle_timeout] race the upstream against a timer; [true] in the schedule says
    that the element comes first. *)
Fixpoint keep_alive (gen : T) (sched : list bool) (src : list T) : list T :=
  match sched with
  | [] => []
  | true :: sched' => match src with [] => [] | x :: src' => x :: keep_alive gen sched' src' end
  | false :: sched' => gen :: keep_alive gen sched' src
  end.

Fixpoint idle_timeout (sched : list bool) (src : list T) : list T :=
  match sched with
  | true :: sched' => match src with [] => [] | x :: src' => x :: idle_timeout sched' src' end
  | _ => []
  end.

End timed.
Arguments State : clear implicits.
End Timed.

(** ** The logical-clock gate and the lock-step source *)

Module ClockGated.
Section clock.
Context {T : Type}.

(** The gate re-reads the clock before each release; [readings] are what it reads.  The element
    that was peeked is kept while it is not due. *)
Fixpoint gate (event_time : T → N) (readings : list N) (peeked : option T) (inner : list T) : list (N * T) :=
  match readings with
  | [] => []
  | clock_now :: readings' =>
      match peeked with
      | None => []
      | Some item =>
          if (event_time item <=? clock_now)%N
          then (clock_now, item) :: gate event_time readings' (head inner) (tail inner)
          else gate event_time readings' (Some item) inner
      end
  end.

Definition clock_gated (src : list T) (readings : list N) (event_time : T → N) : list (N * T) :=
  gate event_time readings (head src) (tail src).

(** [step_locked]: the consumer polls the source and sends acknowledgements. *)
Record StepLocked := mkStepLocked {
  upstream : list T; acks : list N; next_token : N; pending : option N; closed : bool }.

Inductive Event := Poll | Ack (token : N) | DropSink.

(** A poll yields an element, ends the source, or waits for an acknowledgement. *)
Inductive PollResult := Ready (item : T) (token : N) | End_ | Waiting.

Definition pull (s : StepLocked) : PollResult * StepLocked :=
  match upstream s with
  | [] => (End_, s)
  | item :: rest =>
      (Ready item (next_token s),
       mkStepLocked rest (acks s) (u64_add (next_token s) 1) (Some (next_token s)) (closed s))
  end.

Definition poll (s : StepLocked) : PollResult * StepLocked :=
  match pending s with
  | None => pull s
  | Some _ =>
      match acks s with
      | _ :: acks' => pull (mkStepLocked (upstream s) acks' (next_token s) None (closed s))
      | [] => if closed s then (End_, s) else (Waiting, s)
      end
  end.

Definition event (s : StepLocked) (e : Event) : list (T * N) * StepLocked :=
  match e with
  | Poll => match poll s with (Ready x t, s') => ([(x, t)], s') | (_, s') => ([], s') end
  | Ack token =>
      ([], if closed s then s
           else mkStepLocked (upstream s) (acks s ++ [token]) (next_token s) (pending s) false)
  | DropSink => ([], mkStepLocked (upstream s) (acks s) (next_token s) (pending s) true)
  end.

Fixpoint events (s : StepLocked) (es : list Event) : list (T * N) * StepLocked :=
  match es with
  | [] => ([], s)
  | e :: es' =>
      let '(out, s') := event s e in
      let '(out', s'') := events s' es' in (out ++ out', s'')
  end.

Definition step_locked (src : list T) : StepLocked := mkStepLocked src [] 0 None false.

End clock.
Arguments StepLocked : clear implicits.
End ClockGated.

(** ** Back-off *)

Module Backoff.
Section backoff.
Context {T : Type}.

(** [respect_retry_after]: the elements with the time at which each is emitted, in seconds, when
    the upstream is never waited for. *)
Fixpoint respect_loop (now : N) (pending_backoff : option N) (l : list (sum N T)) : list (N * sum N T) :=
  match l with
  | [] => []
  | item :: l' =>
      let now := (now + default 0 pending_backoff)%N in
      let pending := match item with inl seconds => if (0 <? seconds)%N then Some seconds else None
                                   | inr _ => None end in
      (now, item) :: respect_loop now pending l'
  end.

Definition respect_retry_after (src : list (sum N T)) : list (N * sum N T) := respect_loop 0 None src.

(** [RestartSource::with_backoff]; the factory is called with the number of its earlier calls.
    Durations are in milliseconds. *)
Record RestartSettings := mkRestart { min_backoff : N; max_backoff : N; max_restarts : option nat }.

Definition default_settings : RestartSettings := mkRestart 100 30000 (Some 5).

Definition backoff (st : RestartSettings) (attempts : nat) : N :=
  N.min (u64_sat_mul (min_backoff st) (N.shiftl 1 (N.of_nat (Nat.min attempts 20))))
        (N.max (max_backoff st) (min_backoff st)).

(** [next_stream]: the stream, the pause before it, and the new count of attempts. *)
Definition next_stream (st : RestartSettings) (factory : nat → list T) (attempts : nat)
    : option (list T * N * nat) :=
  if match max_restarts st with Some limit => limit <=? attempts | None => false end then None
  else Some (factory attempts, (if 0 <? attempts then backoff st attempts else 0%N), S attempts).

Definition restart_step (st : RestartSettings) (factory : nat → list T) (s : nat * option (list T))
    : option (T * (nat * option (list T))) :=
  let '(attempts, current) := s in
  match (match current with
         | Some stream => Some (stream, attempts)
         | None => match next_stream st factory attempts with
                   | Some (stream, _, attempts') => Some (stream, attempts')
                   | None => None
                   end
         end) with
  | None => None
  | Some (v :: stream, attempts) => Some (v, (attempts, Some stream))
  | Some ([], attempts) =>
      match next_stream st factory attempts with
      | Some (v :: stream, _, attempts') => Some (v, (attempts', Some stream))
      | Some ([], _, _) | None => None
      end
  end.

Definition with_backoff (fuel : nat) (st : RestartSettings) (factory : nat → list T) : option (list T) :=
  unfold fuel (restart_step st factory) (0, None).

End backoff.
End Backoff.

(** ** [merge_prioritized]

    One round of the [select!] per entry of the schedule, which says which of the two upstreams
    are ready; the first branch is tried first. *)
Module Prioritized.
Section prioritized.
Context {T : Type}.

Record Merge := mkMerge { sa : list T; sb : list T; budget_a : nat; budget_b : nat; out : list T; ended : bool }.

Definition reset (weight_a weight_b : nat) (m : Merge) : Merge :=
  if (budget_a m =? 0) && (budget_b m =? 0)
  then mkMerge (sa m) (sb m) weight_a weight_b (out m) (ended m) else m.

Definition round (weight_a weight_b : nat) (m : Merge) (ready : bool * bool) : Merge :=
  if ended m then m
  else if (0 <? budget_a m) && ready.1 then
    match sa m with
    | v :: rest => reset weight_a weight_b
                     (mkMerge rest (sb m) (budget_a m - 1) (budget_b m) (out m ++ [v]) false)
    | [] => mkMerge [] (sb m) 0 (budget_b m) (out m) false
    end
  else if (0 <? budget_b m) && ready.2 then
    match sb m with
    | v :: rest => reset weight_a weight_b
                     (mkMerge (sa m) rest (budget_a m) (budget_b m - 1) (out m ++ [v]) false)
    | [] => mkMerge (sa m) [] (budget_a m) 0 (out m) false
    end
  else if (budget_a m =? 0) && (budget_b m =? 0)
  then mkMerge (sa m) (sb m) 0 0 (out m) true
  else m.

(** [None]: the assertion on the weights fails. *)
Definition merge_prioritized (a : list T) (weight_a : nat) (b : list T) (weight_b : nat)
    (sched : list (bool * bool)) : option Merge :=
  if (1 <=? weight_a) && (1 <=? weight_b)
  then Some (foldl (round weight_a weight_b) (mkMerge a b weight_a weight_b [] false) sched)
  else None.

End prioritized.
Arguments Merge : clear implicits.
End Prioritized.

(** ** The kill switch of a stream

    The task that drives an attached source checks the switch, makes its future of the
    notification, and waits for that or for an element; the other tasks fire the switch in
    between.  [notify_waiters] reaches the futures that exist when it is called, and no later one. *)
Module StreamKill.
Section kill.
Context {T : Type}.

Inductive Pc := Checking | Checked | Listening (notified : bool) | Done.

Record Flow := mkFlow { killed : bool; error : option string; pc : Pc; source : list T; emitted : list T }.

Inductive Step := Shutdown | Abort_ (err : string) | Proceed | Arrive.

(** [notify_waiters]. *)
Definition notify (p : Pc) : Pc := match p with Listening _ => Listening true | _ => p end.

Definition step (f : Flow) (e : Step) : Flow :=
  match e with
  | Shutdown => mkFlow true (error f) (notify (pc f)) (source f) (emitted f)
  | Abort_ err => mkFlow true (Some err) (notify (pc f)) (source f) (emitted f)
  | Proceed =>
      match pc f with
      | Checking => mkFlow (killed f) (error f) (if killed f then Done else Checked) (source f) (emitted f)
      | Checked => mkFlow (killed f) (error f) (Listening false) (source f) (emitted f)
      | Listening true => mkFlow (killed f) (error f) Done (source f) (emitted f)
      | _ => f
      end
  | Arrive =>
      match pc f with
      | Listening false =>
          match source f with
          | [] => mkFlow (killed f) (error f) Done [] (emitted f)
          | v :: rest => mkFlow (killed f) (error f) Checking rest (emitted f ++ [v])
          end
      | _ => f
      end
  end.

Definition flow (src : list T) : Flow := mkFlow false None Checking src [].

End kill.
Arguments Flow : clear implicits.
End StreamKill.

(** ** Theorems *)

Module TimedFacts.
Import Timed.
Section facts.
Context {T : Type} (n : nat) (duration : N) (time : T → N).
Hypothesis n_pos : 1 ≤ n.

Definition stamped (src : list T) : list (N * T) := (λ x, (time x, x)) <$> src.

(** The elements come in the order of their times, none earlier than now; the first element of the
    open group was taken when it came, and the timer runs from then. *)
Definition timed_inv (s : State T) (rest : list T) : Prop :=
  inner s = stamped rest ∧ Sorted N.le (time <$> rest) ∧ (∀ x, head rest = Some x → (now s ≤ time x)%N) ∧
  length (buf s) < n ∧
  match buf s with
  | [] => True
  | x :: _ => upstream_done s = false ∧ deadline s = Some (time x + duration)%N ∧
              (time x ≤ now s ≤ time x + duration)%N
  end ∧ (upstream_done s = true → rest = []).

(** A group that is emitted at [t]. *)
Definition group_ok (g : N * list T) : Prop :=
  1 ≤ length g.2 ≤ n ∧ ∀ x, head g.2 = Some x → (time x ≤ g.1 ≤ time x + duration)%N.

Definition measure (s : State T) : nat :=
  3 * length (inner s) + length (buf s) + length (option_list (deadline s)) + (if upstream_done s then 0 else 1).

Lemma stamped_head rest : snd <$> head (stamped rest) = head rest.
Proof. by destruct rest. Qed.

(** What a turn owes for the state it finds. *)
Definition turn_ok (s : State T) (rest : list T) (r : Turn * State T) : Prop :=
  match r with
  | (Finish, _) => buf s = [] ∧ rest = []
  | (Continue, s') => ∃ rest', timed_inv s' rest' ∧ buf s ++ rest = buf s' ++ rest' ∧ measure s' < measure s
  | (Emit c, s') => ∃ rest', timed_inv s' rest' ∧ buf s ++ rest = c ++ buf s' ++ rest' ∧
                      measure s' < measure s ∧ group_ok (now s', c)
  end.

(** The next event is the timer of the open group, or comes before it is due. *)
Lemma next_item_spec s rest :
  timed_inv s rest → upstream_done s = false →
  match next_item s with
  | Deadline t => is_Some (deadline s) ∧ (∀ x, head rest = Some x → (t ≤ time x)%N) ∧
                  ∀ x, head (buf s) = Some x → t = (time x + duration)%N
  | Item t item => item = head rest ∧ (now s ≤ t)%N ∧ (∀ x, head rest = Some x → t = time x) ∧
                   ∀ x, head (buf s) = Some x → (t < time x + duration)%N
  end.
Proof.
  intros (Hin & Hs & Hnow & Hlen & Hbuf & _) Hud. unfold next_item. rewrite Hin, stamped_head.
  destruct s as [inn e b dl ud nw]; cbn in *; subst.
  destruct dl as [d|].
  - destruct (d <=? _)%N eqn:E; bool_to_prop; split_and!; try done.
    + intros x Hx. destruct rest as [|y rest]; [done|]. injection Hx as ->.
      specialize (Hnow x eq_refl). cbn in *. lia.
    + intros x Hx. destruct b as [|y b]; [done|]. injection Hx as ->. destruct Hbuf as (_ & [= ->] & ?). lia.
    + destruct rest; cbn in *; lia.
    + intros x Hx. destruct rest as [|y rest]; [done|]. injection Hx as ->. specialize (Hnow x eq_refl). cbn. lia.
    + intros x Hx. destruct b as [|y b]; [done|]. injection Hx as ->. destruct Hbuf as (_ & [= ->] & ?). lia.
  - split_and!; try done.
    + destruct rest; cbn in *; lia.
    + intros x Hx. destruct rest as [|y rest]; [done|]. injection Hx as ->. specialize (Hnow x eq_refl). cbn. lia.
    + intros x Hx. destruct b; [done|]. by destruct Hbuf as (_ & ? & _).
Qed.

Lemma turn_spec s rest : timed_inv s rest → turn_ok s rest (turn n duration s).
Proof.
  intros Hinv. pose proof (next_item_spec _ _ Hinv) as Hnext.
  destruct Hinv as (Hin & Hs & Hnow & Hlen & Hbuf & Hdone). unfold turn.
  destruct (upstream_done s) eqn:Hud.
  { destruct (buf s) eqn:Eb; cbn; [by rewrite Eb; auto|]. by destruct Hbuf. }
  specialize (Hnext eq_refl). destruct (next_item s) as [t|t [item|]].
  - destruct Hnext as ([d Hd] & Hle & Hb). destruct (buf s) as [|x b] eqn:Eb.
    + exists rest. unfold timed_inv, measure. cbn. rewrite Eb, Hud, Hd. cbn. split_and!; auto; lia.
    + exists rest. unfold timed_inv, measure, group_ok. cbn. rewrite Eb, Hud, Hd. cbn in *.
      specialize (Hb x eq_refl). split_and!; auto; try lia. intros y [= <-]. lia.
  - destruct Hnext as (Hitem & Hge & Ht & Hb). destruct rest as [|y rest]; [done|]. injection Hitem as ->.
    specialize (Ht y eq_refl). subst t. assert (tail (inner s) = stamped rest) as Htl by (by rewrite Hin).
    assert (length (inner s) = S (length rest)) as Hil by (rewrite Hin; unfold stamped; by rewrite length_fmap).
    assert (Sorted N.le (time <$> rest)) as Hs' by (cbn in Hs; by apply Sorted_inv in Hs as []).
    assert (∀ z, head rest = Some z → (time y ≤ time z)%N) as Hh.
    { intros z Hz. destruct rest as [|z' rest]; [done|]. injection Hz as ->. cbn in Hs.
      apply Sorted_inv in Hs as [_ Hd]. inversion Hd. by subst. }
    assert (length (stamped rest) = length rest) as Hsl by (unfold stamped; by rewrite length_fmap).
    rewrite length_app. cbn [length]. destruct (n <=? length (buf s) + 1) eqn:E; bool_to_prop.
    + exists rest. unfold timed_inv, measure, group_ok. cbn. rewrite Hud, Htl, Hil, Hsl. split_and!; auto; try lia.
      * by rewrite <- app_assoc.
      * rewrite length_app. cbn. lia.
      * rewrite length_app. cbn. lia.
      * intros z Hz. destruct (buf s) as [|z' b]; cbn in Hz; injection Hz as <-; [lia|].
        specialize (Hb z' eq_refl). destruct Hbuf as (_ & _ & ?). lia.
    + exists rest. unfold timed_inv, measure. cbn. rewrite Hud, Htl, Hil, Hsl, length_app. cbn [length].
      split_and!; auto; try lia.
      * destruct (buf s) as [|z b]; cbn; [split_and!; auto; lia|]. destruct Hbuf as (_ & Hdl & ?).
        specialize (Hb z eq_refl). split_and!; auto; lia.
      * by rewrite <- app_assoc.
      * destruct (buf s), (deadline s); cbn; lia.
  - destruct Hnext as (Hitem & Hge & _ & Hb). destruct rest as [|y rest]; [|done].
    destruct (buf s) as [|x b] eqn:Eb; [by cbn; rewrite Eb|].
    exists []. unfold timed_inv, measure, group_ok. cbn. rewrite Eb, Hud. cbn in *.
    specialize (Hb x eq_refl). destruct Hbuf as (_ & _ & ?).
    split_and!; auto; try lia; intros z [= <-]; lia.
Qed.

Lemma run_spec fuel s rest :
  timed_inv s rest → measure s < fuel →
  ∃ out, run fuel n duration s = Some out ∧ mjoin out.*2 = buf s ++ rest ∧ Forall group_ok out.
Proof.
  revert s rest. induction fuel as [|fuel IH]; intros s rest Hinv Hm; [lia|]. cbn [run].
  pose proof (turn_spec s rest Hinv) as Ht. unfold turn_ok in Ht. destruct (turn n duration s) as [[c| |] s'].
  - destruct Ht as (rest' & Hinv' & -> & Hlt & Hg).
    destruct (IH s' rest' Hinv') as (out & -> & Hj & Hall); [lia|].
    exists ((now s', c) :: out). split_and!; [done| |by constructor].
    change (c ++ mjoin out.*2 = c ++ buf s' ++ rest'). by rewrite Hj.
  - destruct Ht as (rest' & Hinv' & -> & Hlt). apply IH; [done|lia].
  - destruct Ht as [-> ->]. by exists [].
Qed.

End facts.

(** [grouped_within], driven to its end: no element is lost or reordered, a group has between one
    and [n] elements, and it is emitted no later than [duration] after its first element came. *)
Theorem grouped_within_spec {T} (time : T → N) src ends n duration :
  1 ≤ n → Sorted N.le (time <$> src) →
  ∃ out, grouped_within (stamped time src) ends n duration = Some out ∧
    mjoin out.*2 = src ∧
    ∀ t g, (t, g) ∈ out →
      1 ≤ length g ≤ n ∧ ∀ x, head g = Some x → (time x ≤ t ≤ time x + duration)%N.
Proof.
  intros Hn Hs. unfold grouped_within. rewrite (proj2 (Nat.leb_le 1 n)) by done.
  destruct (run_spec n duration time Hn (3 * length (stamped time src) + 3) (start (stamped time src) ends) src)
    as (out & -> & Hj & Hall).
  - unfold timed_inv. cbn. split_and!; auto; lia.
  - unfold measure. cbn. lia.
  - exists out. split_and!; [done..|]. intros t g Hg.
    rewrite Forall_forall in Hall. by apply (Hall (t, g)).
Qed.

(** [keep_alive] drops nothing: without the elements it makes itself, its output is the upstream up
    to where it was driven. *)
Lemma keep_alive_spec {T} (P : T → Prop) `{!∀ x, Decision (P x)} (gen : T) sched src :
  P gen → Forall (λ x, ¬ P x) src → filter (λ x, ¬ P x) (keep_alive gen sched src) `prefix_of` src.
Proof.
  intros Hg. revert src. induction sched as [|[] sched IH]; intros src Hs; [apply prefix_nil| |].
  - destruct Hs as [|x src Hx Hs]; [done|]. cbn [keep_alive].
    rewrite filter_cons_True by done. apply prefix_cons. by apply IH.
  - cbn [keep_alive]. rewrite filter_cons_False by auto. by apply IH.
Qed.

Lemma idle_timeout_prefix {T} sched (src : list T) : idle_timeout sched src `prefix_of` src.
Proof.
  revert src. induction sched as [|[] sched IH]; intros src; [apply prefix_nil| |apply prefix_nil].
  destruct src; [done|]. by apply prefix_cons.
Qed.

End TimedFacts.

(** Two groups: the first is full, the second is cut by the timer. *)
Lemma grouped_within_witness :
  ∃ out, Timed.grouped_within (TimedFacts.stamped id [1; 2; 3; 9]%N) 20 2 5 = Some out ∧
    mjoin out.*2 = [1; 2; 3; 9]%N ∧
    ∀ t g, (t, g) ∈ out → 1 ≤ length g ≤ 2 ∧ ∀ x, head g = Some x → (id x ≤ t ≤ id x + 5)%N.
Proof.
  apply (TimedFacts.grouped_within_spec id [1; 2; 3; 9]%N 20 2 5); [lia|].
  repeat constructor; cbn; lia.
Defined.

Module ClockGatedFacts.
Import ClockGated.
Section facts.
Context {T : Type}.

Lemma gate_spec (event_time : T → N) readings peeked inner :
  (gate event_time readings peeked inner).*2 `prefix_of` option_list peeked ++ inner ∨ (peeked = None ∧ inner ≠ []).
Proof.
  revert peeked inner. induction readings as [|r rs IH]; intros peeked inner; [left; apply prefix_nil|].
  destruct peeked as [x|]; [|left; apply prefix_nil]. cbn [gate]. left. case_match.
  - cbn. apply prefix_cons. destruct inner as [|y inner]; [by destruct rs|].
    by destruct (IH (Some y) inner) as [|[]].
  - by destruct (IH (Some x) inner) as [|[]].
Qed.

(** The gate never lets an element out ahead of the clock, and keeps the order of the stream. *)
Lemma clock_gated_safe (src : list T) readings event_time :
  (clock_gated src readings event_time).*2 `prefix_of` src ∧
  Forall (λ p, (event_time p.2 ≤ p.1)%N) (clock_gated src readings event_time).
Proof.
  unfold clock_gated. split.
  - destruct (gate_spec event_time readings (head src) (tail src)) as [H|[]]; destruct src; done.
  - generalize (head src) (tail src). induction readings as [|r rs IH]; intros [x|] l; try by constructor.
    cbn [gate]. destruct (event_time x <=? r)%N eqn:E; [|apply IH]. constructor; [|apply IH].
    cbn. bool_to_prop. done.
Qed.

(** Once the clock has passed the time of every element, the gate is open: each reading lets one
    element out, and none is lost. *)
Lemma clock_gated_complete (src : list T) early late event_time :
  Forall (λ r, Forall (λ x, (event_time x ≤ r)%N) src) late → length src ≤ length late →
  (clock_gated src (early ++ late) event_time).*2 = src.
Proof.
  unfold clock_gated. intros Hl Hlen.
  assert (∀ peeked inner, (peeked = None → inner = []) →
            Forall (λ x, x ∈ src) (option_list peeked ++ inner) → length (option_list peeked ++ inner) ≤ length late →
            (gate event_time (early ++ late) peeked inner).*2 = option_list peeked ++ inner) as H.
  { clear Hlen. induction early as [|r early IH]; cbn [app].
    - induction Hl as [|r late Hr Hl IH]; intros peeked inner Hp Hin Hlen.
      + destruct peeked, inner; cbn in *; done || lia.
      + destruct peeked as [x|]; [|by rewrite Hp]. cbn [gate option_list app].
        assert (event_time x ≤ r)%N as Hx.
        { rewrite Forall_forall in Hr. apply Hr. by apply Forall_cons in Hin as []. }
        rewrite (proj2 (N.leb_le _ _)) by done. cbn. f_equal. cbn in *. apply Forall_cons in Hin as [_ Hin].
        destruct inner as [|y inner]; [by destruct late|]. cbn in *. rewrite IH; [done|done|done|cbn; lia].
    - intros peeked inner Hp Hin Hlen. destruct peeked as [x|]; [|by rewrite Hp]. cbn [gate option_list app].
      destruct (event_time x <=? r)%N; [|by apply (IH (Some x))]. cbn. f_equal. cbn in *.
      apply Forall_cons in Hin as [_ Hin].
      destruct inner as [|y inner]; [by destruct (early ++ late)|]. cbn in *. rewrite IH; [done|done|done|cbn; lia]. }
  destruct src as [|x src]; [by destruct (early ++ late)|]. cbn. rewrite H; cbn; [done|done|by apply Forall_forall|done].
Qed.

(** The elements a lock-step source has let out are numbered, and their number is at most one
    more than that of the acknowledgements sent. *)
Definition acked (es : list Event) : nat :=
  length (filter (λ e, match e with Ack _ => true | _ => false end = true) es).

Definition owed (s : StepLocked T) : nat := match pending s with Some _ => 1 | None => 0 end.

Lemma poll_spec (s : StepLocked T) :
  match poll s with
  | (Ready x t, s') =>
      upstream s = x :: upstream s' ∧ t = next_token s ∧ next_token s' = u64_add (next_token s) 1 ∧
      is_Some (pending s') ∧ length (acks s') + owed s = length (acks s)
  | (_, s') => upstream s' = upstream s ∧ next_token s' = next_token s ∧
      length (acks s') + owed s ≤ length (acks s) + owed s'
  end.
Proof.
  unfold poll, pull, owed. destruct s as [[|x up] [|a acks] tok [p|] []]; cbn; split_and!; eauto; lia.
Qed.

Lemma acked_one e : acked [e] = match e with Ack _ => 1 | _ => 0 end.
Proof. by destruct e. Qed.

Lemma event_spec (s : StepLocked T) e :
  let '(out, s') := event s e in
  upstream s = out.*1 ++ upstream s' ∧
  out.*2 = take (length out) [next_token s] ∧ length out ≤ 1 ∧
  next_token s' = match out with [] => next_token s | _ => u64_add (next_token s) 1 end ∧
  length out + length (acks s') + owed s ≤ length (acks s) + owed s' + acked [e].
Proof.
  rewrite acked_one. unfold event. destruct e as [|t|].
  - pose proof (poll_spec s) as Hp. destruct (poll s) as [[x t| |] s'].
    + destruct Hp as (Hu & -> & Hn & [p Hs] & Ha). unfold owed in *. rewrite Hs. cbn. split_and!; try done; lia.
    + destruct Hp as (Hu & Hn & Ha). cbn. split_and!; try done; lia.
    + destruct Hp as (Hu & Hn & Ha). cbn. split_and!; try done; lia.
  - unfold owed. cbn. destruct (closed s); cbn; rewrite ?length_app; cbn; split_and!; try done; lia.
  - unfold owed. cbn. split_and!; try done; lia.
Qed.

Lemma acked_cons e es : acked (e :: es) = acked [e] + acked es.
Proof. unfold acked. rewrite !filter_cons. case_decide; cbn; rewrite ?filter_nil; done. Qed.

Lemma events_spec es (s : StepLocked T) k :
  next_token s = N.of_nat k → (N.of_nat (k + length (upstream s)) < u64_modulus)%N →
  let '(out, s') := events s es in
  upstream s = out.*1 ++ upstream s' ∧ out.*2 = N.of_nat <$> seq k (length out) ∧
  length out + length (acks s') + owed s ≤ length (acks s) + owed s' + acked es.
Proof.
  revert s k. induction es as [|e es IH]; intros s k Hk Hb.
  { cbn. split_and!; try done. lia. }
  cbn [events]. pose proof (event_spec s e) as He. destruct (event s e) as [out s'].
  destruct He as (Hu & Ht & Hlen & Hn & Hc). rewrite Hu, length_app, length_fmap in Hb.
  assert (next_token s' = N.of_nat (k + length out)) as Hk'.
  { rewrite Hn, Hk. destruct out as [|p [|q out]]; cbn in *; [|rewrite u64_add_small by lia|]; lia. }
  specialize (IH s' (k + length out) Hk' ltac:(lia)). destruct (events s' es) as [out' s''].
  destruct IH as (Hu' & Ht' & Hc'). rewrite acked_cons, !fmap_app, !length_app. split_and!.
  - by rewrite Hu, Hu', app_assoc.
  - rewrite seq_app, fmap_app, <- Ht'. f_equal. rewrite Ht, Hk.
    destruct out as [|p [|q out]]; [done..|cbn in Hlen; lia].
  - lia.
Qed.

(** [step_locked]: the elements come out in order and numbered from zero, and never more than one
    is out beyond the acknowledgements that were sent. *)
Lemma step_locked_spec (src : list T) es :
  (N.of_nat (length src) < u64_modulus)%N →
  let out := (events (step_locked src) es).1 in
  out.*1 `prefix_of` src ∧ out.*2 = N.of_nat <$> seq 0 (length out) ∧ length out ≤ acked es + 1.
Proof.
  intros Hb. pose proof (events_spec es (step_locked src) 0 eq_refl Hb) as H.
  destruct (events (step_locked src) es) as [out s']. destruct H as (Hu & Ht & Hc). cbn in *.
  split_and!; [by eexists|done|]. unfold owed in Hc. cbn in Hc. destruct (pending s'); lia.
Qed.

End facts.
End ClockGatedFacts.

(** Any acknowledgement lets the next element out, whatever its token: here the second one is let
    out by the first one's acknowledgement, sent twice, and the third without one of its own. *)
Example stale_ack_releases :
  (ClockGated.events (ClockGated.step_locked [10; 20; 30])
     [ClockGated.Poll; ClockGated.Ack 0; ClockGated.Ack 0; ClockGated.Poll; ClockGated.Poll]).1 =
  [(10, 0%N); (20, 1%N); (30, 2%N)].
Proof. reflexivity. Qed.

Module BackoffFacts.
Import Backoff.
Section facts.
Context {T : Type}.

(** The pauses a stream asks for. *)
Definition pause (i : sum N T) : N := match i with inl s => s | inr _ => 0 end.

Lemma respect_loop_spec (l : list (sum N T)) now p :
  (respect_loop now p l).*2 = l ∧
  ∀ i t x, respect_loop now p l !! i = Some (t, x) →
    t = (now + default 0 p + foldr N.add 0 (pause <$> take i l))%N.
Proof.
  revert now p. induction l as [|x l IH]; intros now p; [done|]. cbn [respect_loop].
  match goal with |- context [respect_loop ?n ?q l] => destruct (IH n q) as [Hl Ht] end. split.
  - cbn. by rewrite Hl.
  - intros [|i] t y Hi; cbn in Hi; [injection Hi as <- <-; cbn; lia|]. apply Ht in Hi as ->. cbn.
    destruct x as [s|v]; cbn; [destruct (0 <? s)%N eqn:E; bool_to_prop; cbn; lia|lia].
Qed.

(** [respect_retry_after] forwards every element, each as late as the pauses asked for before it. *)
Lemma respect_retry_after_spec (src : list (sum N T)) :
  (respect_retry_after src).*2 = src ∧
  ∀ i t x, respect_retry_after src !! i = Some (t, x) → t = foldr N.add 0%N (pause <$> take i src).
Proof.
  destruct (respect_loop_spec src 0 None) as [H1 H2]. split; [done|].
  intros i t x Hi. rewrite (H2 i t x Hi). cbn. lia.
Qed.

(** The pause before a restart is at least the minimum and at most the maximum (or the minimum,
    if that is larger). *)
Lemma backoff_bounds st attempts :
  (min_backoff st < u64_modulus)%N →
  (min_backoff st ≤ backoff st attempts ≤ N.max (max_backoff st) (min_backoff st))%N.
Proof.
  intros Hm. unfold backoff, u64_sat_mul. rewrite N.shiftl_1_l.
  assert (1 ≤ 2 ^ N.of_nat (Nat.min attempts 20))%N as Hp
    by (pose proof (N.pow_nonzero 2 (N.of_nat (Nat.min attempts 20)) ltac:(done)); lia).
  assert (u64_max = u64_modulus - 1)%N as Hu by reflexivity. nia.
Qed.

(** The runs of the factory from [i] on, [k] of them. *)
Definition runs (factory : nat → list T) (i k : nat) : list T := mjoin (factory <$> seq i k).

Lemma runs_S factory i k : runs factory i (S k) = factory i ++ runs factory (S i) k.
Proof. done. Qed.

Section limited.
Context (st : RestartSettings) (factory : nat → list T) (limit : nat).
Hypothesis limited : max_restarts st = Some limit.
Hypothesis never_empty : ∀ i, 1 ≤ i < limit → factory i ≠ [].

(** What is left to yield. *)
Definition left_over (s : nat * option (list T)) : list T := default [] s.2 ++ runs factory s.1 (limit - s.1).

Lemma next_stream_limited a :
  next_stream st factory a =
  if decide (a < limit) then Some (factory a, (if 0 <? a then backoff st a else 0%N), S a) else None.
Proof. unfold next_stream. rewrite limited. destruct (limit <=? a) eqn:E; bool_to_prop; case_decide; done || lia. Qed.

Lemma runs_left a : a < limit → runs factory a (limit - a) = factory a ++ runs factory (S a) (limit - S a).
Proof. intros Ha. by replace (limit - a) with (S (limit - S a)) by lia. Qed.

Lemma restart_step_open a l :
  1 ≤ a →
  match restart_step st factory (a, Some l) with
  | None => left_over (a, Some l) = []
  | Some (x, (a', Some l')) => 1 ≤ a' ∧ left_over (a, Some l) = x :: left_over (a', Some l')
  | Some (_, (_, None)) => False
  end.
Proof.
  intros Ha. unfold restart_step, left_over. cbn [fst snd default]. destruct l as [|v l]; [|done].
  rewrite next_stream_limited. case_decide as Hlt.
  - destruct (factory a) as [|v l] eqn:E; [by destruct (never_empty a)|]. split; [lia|].
    rewrite runs_left, E by done. done.
  - by replace (limit - a) with 0 by lia.
Qed.

(** [with_backoff] with a limit: all the elements of that many runs, when no later run is empty. *)
Lemma with_backoff_spec fuel :
  length (runs factory 0 limit) < fuel → with_backoff fuel st factory = Some (runs factory 0 limit).
Proof.
  intros Hf. unfold with_backoff.
  assert (left_over (0, None) = runs factory 0 limit) as Hstart by (unfold left_over; cbn; by rewrite Nat.sub_0_r).
  assert (restart_step st factory (0, None) =
          if decide (0 < limit) then restart_step st factory (1, Some (factory 0)) else None) as Hfirst.
  { unfold restart_step at 1. rewrite next_stream_limited. by case_decide. }
  assert (0 < limit → left_over (0, None) = left_over (1, Some (factory 0))) as Hnext.
  { intros Hl. unfold left_over. cbn [fst snd default app]. by apply runs_left. }
  rewrite (unfold_ref _ (λ s, match s.2 with None => s.1 = 0 | Some _ => 1 ≤ s.1 end)
             (λ s, length (left_over s)) left_over); [by rewrite Hstart| | |done|by rewrite Hstart].
  - intros [a [l|]] Hs Hstep; cbn in Hs.
    + pose proof (restart_step_open a l Hs) as H. by rewrite Hstep in H.
    + subst a. rewrite Hfirst in Hstep. case_decide as Hl.
      * rewrite Hnext by done. pose proof (restart_step_open 1 (factory 0) ltac:(lia)) as H. by rewrite Hstep in H.
      * rewrite Hstart. by replace limit with 0 by lia.
  - intros [a [l|]] x [a' l'] Hs Hstep; cbn in Hs.
    + pose proof (restart_step_open a l Hs) as H. rewrite Hstep in H. destruct l' as [l'|]; [|done].
      destruct H as [H1 H2]. rewrite H2. cbn. split_and!; [done..|lia].
    + subst a. rewrite Hfirst in Hstep. case_decide as Hl; [|done]. rewrite Hnext by done.
      pose proof (restart_step_open 1 (factory 0) ltac:(lia)) as H. rewrite Hstep in H.
      destruct l' as [l'|]; [|done]. destruct H as [H1 H2]. rewrite H2. cbn. split_and!; [done..|lia].
Qed.

End limited.

End facts.
End BackoffFacts.

(** A run that is empty ends the source, although four attempts are left; and with [max_restarts]
    zero the source is never run at all. *)
Example restart_ends_on_empty_run :
  Backoff.with_backoff 9 Backoff.default_settings (λ i, if i =? 1 then [] else [i]) = Some [0] ∧
  Backoff.with_backoff 9 (Backoff.mkRestart 100 30000 (Some 0)) (λ i, [i]) = Some [].
Proof. split; reflexivity. Qed.

Module PrioritizedFacts.
Import Prioritized.
Section facts.
Context {T : Type}.

(** [c] is made of [a] and [b], each in its order. *)
Inductive interleaving : list T → list T → list T → Prop :=
  | Interleaving_nil : interleaving [] [] []
  | Interleaving_l a b c x : interleaving a b c → interleaving (a ++ [x]) b (c ++ [x])
  | Interleaving_r a b c x : interleaving a b c → interleaving a (b ++ [x]) (c ++ [x]).

Context (weight_a weight_b : nat).
Hypothesis weights : 1 ≤ weight_a ∧ 1 ≤ weight_b.

(** What has been taken from each side; while neither has run out, each has given its weight in
    every full turn. *)
Definition merge_inv (a b : list T) (m : Merge T) : Prop :=
  ∃ ta tb, a = ta ++ sa m ∧ b = tb ++ sb m ∧ interleaving ta tb (out m) ∧
    (sa m ≠ [] → sb m ≠ [] →
     ended m = false ∧ (budget_a m ≤ weight_a) ∧ (budget_b m ≤ weight_b) ∧ 1 ≤ budget_a m + budget_b m ∧
     ∃ k, length ta = k * weight_a + (weight_a - budget_a m) ∧
          length tb = k * weight_b + (weight_b - budget_b m)).

Lemma merge_round_inv a b m r : merge_inv a b m → merge_inv a b (round weight_a weight_b m r).
Proof.
  intros (ta & tb & Ha & Hb & Hi & Hk). unfold round.
  destruct m as [ma mb ba bb o e]; cbn [sa sb budget_a budget_b out ended] in *.
  destruct e; [by exists ta, tb|].
  destruct ((0 <? ba) && r.1) eqn:Ea.
  { apply andb_true_iff in Ea as [Ea%Nat.ltb_lt _]. destruct ma as [|v ma].
    - exists ta, tb. cbn. split_and!; [done..|]. by intros [].
    - exists (ta ++ [v]), tb. unfold reset; cbn [sa sb budget_a budget_b out ended].
      assert (a = (ta ++ [v]) ++ ma) as Ha' by (by rewrite <- app_assoc).
      destruct ((ba - 1 =? 0) && (bb =? 0)) eqn:E; cbn;
        (split_and!; [done|done|by constructor|]); intros Hna Hnb;
        destruct Hk as (_ & Hba & Hbb & _ & k & Hta & Htb); try done; rewrite length_app; cbn [length].
      + apply andb_true_iff in E as [E1%Nat.eqb_eq E2%Nat.eqb_eq]. split_and!; [done|lia..|].
        exists (S k). subst bb. rewrite Nat.sub_0_r in Htb. split; nia.
      + apply andb_false_iff in E. split_and!; [done|lia|lia| |].
        * destruct E as [E%Nat.eqb_neq|E%Nat.eqb_neq]; lia.
        * exists k. split; lia. }
  destruct ((0 <? bb) && r.2) eqn:Eb.
  { apply andb_true_iff in Eb as [Eb%Nat.ltb_lt _]. destruct mb as [|v mb].
    - exists ta, tb. cbn. split_and!; [done..|]. by intros _ [].
    - exists ta, (tb ++ [v]). unfold reset; cbn [sa sb budget_a budget_b out ended].
      assert (b = (tb ++ [v]) ++ mb) as Hb' by (by rewrite <- app_assoc).
      destruct ((ba =? 0) && (bb - 1 =? 0)) eqn:E; cbn;
        (split_and!; [done|done|by constructor|]); intros Hna Hnb;
        destruct Hk as (_ & Hba & Hbb & _ & k & Hta & Htb); try done; rewrite length_app; cbn [length].
      + apply andb_true_iff in E as [E1%Nat.eqb_eq E2%Nat.eqb_eq]. split_and!; [done|lia..|].
        exists (S k). subst ba. rewrite Nat.sub_0_r in Hta. split; nia.
      + apply andb_false_iff in E. split_and!; [done|lia|lia| |].
        * destruct E as [E%Nat.eqb_neq|E%Nat.eqb_neq]; lia.
        * exists k. split; lia. }
  destruct ((ba =? 0) && (bb =? 0)) eqn:E; exists ta, tb; cbn; split_and!; try done.
  intros Hna Hnb. destruct (Hk Hna Hnb) as (_ & _ & _ & Hpos & _).
  apply andb_true_iff in E as [E1%Nat.eqb_eq E2%Nat.eqb_eq]. lia.
Qed.

(** [merge_prioritized]: whichever side is ready when, each side keeps its order and nothing is
    made up; while neither side has run out, both have given elements in the ratio of the weights
    up to one turn. *)
Lemma merge_prioritized_spec a b sched m :
  merge_prioritized a weight_a b weight_b sched = Some m → merge_inv a b m.
Proof.
  unfold merge_prioritized. rewrite !(proj2 (Nat.leb_le _ _)) by lia. intros [= <-].
  assert (merge_inv a b (mkMerge a b weight_a weight_b [] false)) as H0.
  { exists [], []. cbn. split_and!; [done..|constructor|]. intros _ _. split_and!; [done|lia..|].
    exists 0. split; cbn; lia. }
  revert H0. generalize (mkMerge a b weight_a weight_b [] false).
  induction sched as [|r sched IH]; intros m Hm; [done|]. apply IH. by apply merge_round_inv.
Qed.

End facts.
End PrioritizedFacts.

(** When the second side has ended, the merge ends as soon as the first has used its budget: the
    elements 2 and 3 are lost. *)
Example merge_prioritized_loses :
  (λ m, (Prioritized.out m, Prioritized.sa m, Prioritized.ended m)) <$>
    Prioritized.merge_prioritized [1; 2; 3] 1 [] 1 (replicate 10 (true, true)) = Some ([1], [2; 3], true).
Proof. reflexivity. Qed.

Module StreamKillFacts.
Import StreamKill.
Section facts.
Context {T : Type}.

(** What a fired switch can still let through. *)
Definition slack (f : Flow T) : nat :=
  match pc f with Checked | Listening false => 1 | _ => 0 end.

Lemma step_killed f e :
  killed f = true →
  killed (step f e) = true ∧
  length (emitted (step f e)) + slack (step f e) ≤ length (emitted f) + slack f.
Proof.
  unfold slack. intros Hk. destruct f as [k err p src o]; cbn in *; subst.
  destruct e; cbn; [destruct p as [| |[]|]| destruct p as [| |[]|]|destruct p as [| |[]|]|
                     destruct p as [| |[]|]; [| | |destruct src|]];
    cbn; rewrite ?length_app; cbn; split; done || lia.
Qed.

(** After the switch has fired, an attached source yields at most one more element, and none
    unless its task was between its check of the switch and its wait. *)
Lemma kill_stops (f : Flow T) err es :
  length (emitted (foldl step (step f (Abort_ err)) es)) ≤
  length (emitted f) + (match pc f with Checked => 1 | _ => 0 end).
Proof.
  assert (∀ g, killed g = true → length (emitted (foldl step g es)) ≤ length (emitted g) + slack g) as H.
  { induction es as [|e es IH]; intros g Hg; cbn [foldl]; [lia|].
    destruct (step_killed g e Hg) as [Hk Hle]. specialize (IH _ Hk). lia. }
  specialize (H (step f (Abort_ err)) eq_refl).
  assert (slack (step f (Abort_ err)) = match pc f with Checked => 1 | _ => 0 end) as Hs
    by (unfold slack; cbn; by destruct (pc f) as [| |[]|]).
  rewrite Hs in H. exact H.
Qed.

End facts.
End StreamKillFacts.

(** The switch fires between the check and the wait: the notification reaches no one, and the
    source completes only when its upstream yields. *)
Example kill_missed :
  let f := foldl StreamKill.step (StreamKill.flow [7; 8])
             [StreamKill.Proceed; StreamKill.Shutdown; StreamKill.Proceed] in
  StreamKill.killed f = true ∧ StreamKill.pc f = StreamKill.Listening false ∧
  (∀ n, foldl StreamKill.step f (replicate n StreamKill.Proceed) = f).
Proof. split_and!; [done..|]. induction n as [|n IH]; [done|]. exact IH. Qed.
