(* ===== verification/Framing.v ===== *)
(** * Framing of byte streams

    framing.rs of atomr-streams: the flows that cut a stream of byte chunks into frames, by a
    delimiter and by a length field.  The chunks are the elements of the upstream; the flow is the
    stream of a step function (Streams), whose inner loop reads chunks until it has a frame. *)

From stdpp Require Import gmap strings list.
From Stdlib Require Import NArith Lia.
From S2P Require Import Prelude Encoding Streams.

#[export] Instance byte_eq_decision : EqDecision Byte.byte := Byte.byte_eq_dec.

Inductive FramingError := FrameTooLarge (max : nat) | Truncated.

Record FrameState := mkFrame { stream : list Bytes; fbuf : Bytes; done : bool }.

Definition Frame := sum FramingError Bytes.

(** [iter().position]. *)
Definition position (d : Byte.byte) (buf : Bytes) : option nat := fst <$> list_find (d =.) buf.

(** The loop of [Framing::delimiter]. *)
Fixpoint delimiter_loop (delimiter : Byte.byte) (max_frame_length : nat) (chunks : list Bytes) (buf : Bytes)
    : option (Frame * FrameState) :=
  match position delimiter buf with
  | Some pos =>
      let frame := take pos buf in
      let buf := drop (S pos) buf in
      if max_frame_length <? length frame
      then Some (inl (FrameTooLarge max_frame_length), mkFrame chunks buf true)
      else Some (inr frame, mkFrame chunks buf false)
  | None =>
      match chunks with
      | chunk :: chunks' =>
          let buf := buf ++ chunk in
          if max_frame_length <? length buf
          then Some (inl (FrameTooLarge max_frame_length), mkFrame chunks' buf true)
          else delimiter_loop delimiter max_frame_length chunks' buf
      | [] =>
          match buf with
          | [] => None
          | _ => Some (inl Truncated, mkFrame [] buf true)
          end
      end
  end.

Definition delimiter_step (delimiter : Byte.byte) (max_frame_length : nat) (st : FrameState)
    : option (Frame * FrameState) :=
  if done st then None else delimiter_loop delimiter max_frame_length (stream st) (fbuf st).

(** The loop of [Framing::length_field]. *)
Fixpoint length_field_loop (max_frame_length : nat) (chunks : list Bytes) (buf : Bytes)
    : option (Frame * FrameState) :=
  let read :=
    match chunks with
    | chunk :: chunks' => length_field_loop max_frame_length chunks' (buf ++ chunk)
    | [] =>
        match buf with
        | [] => None
        | _ => Some (inl Truncated, mkFrame [] buf true)
        end
    end in
  if 4 <=? length buf then
    let len := N.to_nat (from_le_bytes (take 4 buf)) in
    if max_frame_length <? len then Some (inl (FrameTooLarge max_frame_length), mkFrame chunks buf true)
    else if 4 + len <=? length buf
    then Some (inr (take len (drop 4 buf)), mkFrame chunks (drop len (drop 4 buf)) false)
    else read
  else read.

Definition length_field_step (max_frame_length : nat) (st : FrameState) : option (Frame * FrameState) :=
  if done st then None else length_field_loop max_frame_length (stream st) (fbuf st).

(** The flows, driven to the end of the stream: a frame takes at least one byte. *)
Definition framing_fuel (chunks : list Bytes) : nat := length (mjoin chunks) + 2.

Definition delimiter (d : Byte.byte) (max_frame_length : nat) (chunks : list Bytes) : option (list Frame) :=
  unfold (framing_fuel chunks) (delimiter_step d max_frame_length) (mkFrame chunks [] false).

Definition length_field (max_frame_length : nat) (chunks : list Bytes) : option (list Frame) :=
  unfold (framing_fuel chunks) (length_field_step max_frame_length) (mkFrame chunks [] false).

(** ** The frames of a byte string *)

(** The length of the first frame, when its prefix is complete. *)
Definition frame_length (bs : Bytes) : nat := N.to_nat (from_le_bytes (take 4 bs)).

(** What a receiver of length-prefixed frames owes for the bytes it is sent. *)
Inductive frames (max : nat) : Bytes → list Frame → Prop :=
  | frames_end : frames max [] []
  | frames_no_prefix bs : 0 < length bs < 4 → frames max bs [inl Truncated]
  | frames_too_large bs : 4 ≤ length bs → max < frame_length bs → frames max bs [inl (FrameTooLarge max)]
  | frames_truncated bs : 4 ≤ length bs < 4 + frame_length bs → frame_length bs ≤ max →
      frames max bs [inl Truncated]
  | frames_frame bs out : 4 + frame_length bs ≤ length bs → frame_length bs ≤ max →
      frames max (drop (frame_length bs) (drop 4 bs)) out →
      frames max bs (inr (take (frame_length bs) (drop 4 bs)) :: out).

(** What a sender writes. *)
Definition encode_frame (frame : Bytes) : Bytes := to_le_bytes 4 (N.of_nat (length frame)) ++ frame.

(** The frames that a delimiter ends, and what is behind the last one. *)
Fixpoint split_frames (d : Byte.byte) (bs : Bytes) : list Bytes * Bytes :=
  match bs with
  | [] => ([], [])
  | b :: bs' =>
      let '(fs, tl) := split_frames d bs' in
      if decide (d = b) then ([] :: fs, tl)
      else match fs with
           | [] => ([], b :: tl)
           | f :: fs' => ((b :: f) :: fs', tl)
           end
  end.

Definition delimited (d : Byte.byte) (bs : Bytes) : list Frame :=
  let '(fs, tl) := split_frames d bs in
  (inr <$> fs) ++ match tl with [] => [] | _ => [inl Truncated] end.

(** ** Frames with a length field *)

Definition bytes_left (st : FrameState) : Bytes := fbuf st ++ mjoin (stream st).

Lemma frame_length_app a b : 4 ≤ length a → frame_length (a ++ b) = frame_length a.
Proof. intros H. unfold frame_length. by rewrite take_app_le. Qed.

Lemma length_field_loop_spec max chunks buf :
  let bs := buf ++ mjoin chunks in
  match length_field_loop max chunks buf with
  | None => bs = []
  | Some (inl e, st) => done st = true ∧ frames max bs [inl e]
  | Some (inr f, st) =>
      done st = false ∧ 4 + frame_length bs ≤ length bs ∧ frame_length bs ≤ max ∧
      f = take (frame_length bs) (drop 4 bs) ∧ bytes_left st = drop (frame_length bs) (drop 4 bs)
  end.
Proof.
  revert buf. induction chunks as [|c chunks IH]; intros buf; cbn zeta.
  - cbn [length_field_loop mjoin list_join]. rewrite app_nil_r. fold (frame_length buf).
    assert (4 ≤ length buf → frame_length buf ≤ max → ¬ 4 + frame_length buf ≤ length buf →
            frames max buf [inl Truncated]) as Htr by (intros; apply frames_truncated; lia).
    assert (length buf < 4 → buf ≠ [] → frames max buf [inl Truncated]) as Hno.
    { intros ? Hne. apply frames_no_prefix. destruct buf; [done|cbn in *; lia]. }
    destruct (4 <=? length buf) eqn:E4; [|bool_to_prop; destruct buf; [done|split; [done|by apply Hno]]].
    apply Nat.leb_le in E4. destruct (max <? frame_length buf) eqn:Em; bool_to_prop.
    { split; [done|]. by apply frames_too_large. }
    destruct (4 + frame_length buf <=? length buf) eqn:El; [|bool_to_prop; destruct buf; [cbn in E4; lia|]].
    + apply Nat.leb_le in El. unfold bytes_left. cbn [stream fbuf done mjoin list_join]. by rewrite app_nil_r.
    + split; [done|]. apply Htr; [done|done|lia].
  - specialize (IH (buf ++ c)). cbn [length_field_loop]. fold (frame_length buf).
    change (mjoin (c :: chunks)) with (c ++ mjoin chunks). cbn zeta in IH. rewrite <- app_assoc in IH.
    destruct (4 <=? length buf) eqn:E4; [|done]. apply Nat.leb_le in E4.
    destruct (max <? frame_length buf) eqn:Em; bool_to_prop.
    { split; [done|]. apply frames_too_large; [rewrite length_app; lia|by rewrite frame_length_app]. }
    destruct (4 + frame_length buf <=? length buf) eqn:El; [|done]. apply Nat.leb_le in El.
    rewrite frame_length_app, length_app by done. unfold bytes_left. cbn [stream fbuf done].
    change (mjoin (c :: chunks)) with (c ++ mjoin chunks). split_and!; [done|lia|done| |].
    + rewrite drop_app_le by lia. rewrite take_app_le; [done|]. rewrite length_drop. lia.
    + rewrite drop_app_le by lia. rewrite drop_app_le; [done|]. rewrite length_drop. lia.
Qed.

(** The flow ends and yields the frames of the bytes it is given. *)
Lemma length_field_unfold max fuel st :
  done st = false → length (bytes_left st) + 1 < fuel →
  ∃ out, unfold fuel (length_field_step max) st = Some out ∧ frames max (bytes_left st) out.
Proof.
  revert st. induction fuel as [|fuel IH]; intros st Hd Hf; [lia|]. cbn [unfold].
  unfold length_field_step at 1. rewrite Hd.
  pose proof (length_field_loop_spec max (stream st) (fbuf st)) as H. cbn zeta in H.
  change (fbuf st ++ mjoin (stream st)) with (bytes_left st) in H.
  destruct (length_field_loop _ _ _) as [[[e|f] st']|].
  - destruct H as [Hd' Hfr]. destruct fuel as [|fuel]; [lia|]. exists [inl e]. split; [|done].
    cbn [unfold]. unfold length_field_step. by rewrite Hd'.
  - destruct H as (Hd' & Hlen & Hmax & -> & Hleft).
    destruct (IH st' Hd') as (out & -> & Hout).
    { rewrite Hleft, !length_drop. lia. }
    exists (inr (take (frame_length (bytes_left st)) (drop 4 (bytes_left st))) :: out). split; [done|].
    apply frames_frame; [done..|]. by rewrite <- Hleft.
  - exists []. split; [done|]. rewrite H. constructor.
Qed.

Lemma frames_det max bs o1 o2 : frames max bs o1 → frames max bs o2 → o1 = o2.
Proof.
  intros H1. revert o2. induction H1; intros o2 H2; inversion H2; subst; cbn in *; try done; try lia.
  f_equal. by apply IHframes.
Qed.

Lemma frames_encode max fs bs out :
  Forall (λ f, length f ≤ max ∧ (N.of_nat (length f) < u32_modulus)%N) fs →
  frames max bs out → frames max (mjoin (encode_frame <$> fs) ++ bs) ((inr <$> fs) ++ out).
Proof.
  intros Hfs Hbs. induction Hfs as [|f fs [Hmax H32] Hfs IH]; [done|].
  change (mjoin (encode_frame <$> (f :: fs))) with (encode_frame f ++ mjoin (encode_frame <$> fs)).
  set (rest := mjoin (encode_frame <$> fs) ++ bs) in *. rewrite <- app_assoc. fold rest.
  assert (frame_length (encode_frame f ++ rest) = length f) as Hl.
  { unfold frame_length, encode_frame. rewrite <- app_assoc, take_app_length' by (by rewrite to_le_bytes_length).
    rewrite from_to_le_bytes; [lia|]. by rewrite pow_256_4. }
  assert (drop 4 (encode_frame f ++ rest) = f ++ rest) as Hdrop.
  { unfold encode_frame. rewrite <- app_assoc. apply drop_app_length'. by rewrite to_le_bytes_length. }
  cbn [fmap list_fmap app].
  replace (inr f) with (inr (take (frame_length (encode_frame f ++ rest)) (drop 4 (encode_frame f ++ rest))) : Frame).
  2: { by rewrite Hl, Hdrop, take_app_length. }
  apply frames_frame; rewrite Hl, ?Hdrop, ?drop_app_length; [|done..].
  unfold encode_frame. rewrite !length_app, to_le_bytes_length. lia.
Qed.

(** C26: [Framing::length_field], whatever the chunks: the flow ends; it yields the frames of the bytes
    sent, up to an error for a frame over the limit or a stream that stops inside a frame; the cuts
    between the chunks do not matter; and what a sender of frames within the limit wrote comes out
    as it was. *)
Theorem length_field_framing max chunks :
  ∃ out, length_field max chunks = Some out ∧ frames max (mjoin chunks) out ∧
    (∀ chunks', mjoin chunks' = mjoin chunks → length_field max chunks' = Some out) ∧
    (∀ fs, Forall (λ f, length f ≤ max ∧ (N.of_nat (length f) < u32_modulus)%N) fs →
       mjoin chunks = mjoin (encode_frame <$> fs) → out = inr <$> fs).
Proof.
  assert (∀ cs, ∃ out, length_field max cs = Some out ∧ frames max (mjoin cs) out) as Hall.
  { intros cs. apply (length_field_unfold max _ (mkFrame cs [] false)); [done|]. unfold framing_fuel. cbn. lia. }
  destruct (Hall chunks) as (out & Hout & Hfr). exists out. split_and!; [done..| |].
  - intros cs Hcs. destruct (Hall cs) as (out' & Hout' & Hfr'). rewrite Hcs in Hfr'.
    by rewrite (frames_det _ _ _ _ Hfr Hfr').
  - intros fs Hfs Hch. eapply frames_det; [exact Hfr|]. rewrite Hch.
    pose proof (frames_encode max fs [] [] Hfs (frames_end max)) as H. by rewrite !app_nil_r in H.
Qed.

(** ** Frames with a delimiter *)

Section delimiter_laws.
Context (d : Byte.byte) (max : nat).

Lemma split_frames_cut l r :
  d ∉ l → split_frames d (l ++ d :: r) = (l :: (split_frames d r).1, (split_frames d r).2).
Proof.
  induction l as [|b l IH]; intros Hl; cbn [app split_frames].
  - destruct (split_frames d r) as [fs tl]. by rewrite decide_True.
  - rewrite IH by set_solver. rewrite decide_False by set_solver. done.
Qed.

Lemma split_frames_none l : d ∉ l → split_frames d l = ([], l).
Proof.
  induction l as [|b l IH]; intros Hl; [done|]. cbn [split_frames].
  rewrite IH by set_solver. by rewrite decide_False by set_solver.
Qed.

(** What comes before the first delimiter is at the front of the first frame. *)
Lemma split_frames_front l r :
  d ∉ l →
  split_frames d (l ++ r) =
  match split_frames d r with
  | ([], tl) => ([], l ++ tl)
  | (f :: fs, tl) => ((l ++ f) :: fs, tl)
  end.
Proof.
  induction l as [|b l IH]; intros Hl; cbn [app split_frames]; [by destruct (split_frames d r) as [[] ?]|].
  rewrite IH by set_solver. destruct (split_frames d r) as [[] ?]; by rewrite decide_False by set_solver.
Qed.

Lemma split_frames_head l r fs tl :
  d ∉ l → split_frames d (l ++ r) = (fs, tl) → ∃ f, f ∈ fs ++ [tl] ∧ length l ≤ length f.
Proof.
  intros Hl. rewrite split_frames_front by done. destruct (split_frames d r) as [[|f fs'] tl']; intros [= <- <-].
  - exists (l ++ tl'). rewrite length_app. split; [set_solver|lia].
  - exists (l ++ f). rewrite length_app. split; [set_solver|lia].
Qed.

Lemma position_Some buf pos :
  position d buf = Some pos → buf = take pos buf ++ d :: drop (S pos) buf ∧ d ∉ take pos buf.
Proof.
  unfold position. intros ([i x] & (Hi & <- & Hlt)%list_find_Some & [= ->])%fmap_Some. cbn. split.
  - by rewrite take_drop_middle.
  - intros [j Hj]%list_elem_of_lookup. apply lookup_take_Some in Hj as [Hj ?]. by eapply Hlt.
Qed.

Lemma position_None buf : position d buf = None → d ∉ buf.
Proof.
  unfold position. intros H%fmap_None. rewrite list_find_None, Forall_forall in H.
  intros Hin. by apply (H d).
Qed.

(** Every chunk fits behind every frame, and every frame into the limit. *)
Definition fits (st : FrameState) : Prop :=
  let '(fs, tl) := split_frames d (bytes_left st) in
  Forall (λ f, length f ≤ max) fs ∧
  ∀ f c, f ∈ fs ++ [tl] → c ∈ stream st → length f + length c ≤ max.

Lemma delimiter_loop_spec chunks buf :
  let bs := buf ++ mjoin chunks in
  match delimiter_loop d max chunks buf with
  | None => bs = []
  | Some (inr f, st) =>
      done st = false ∧ length f ≤ max ∧ bs = f ++ d :: bytes_left st ∧ d ∉ f ∧
      ∃ used, chunks = used ++ stream st
  | Some (inl e, st) =>
      done st = true ∧ (fits (mkFrame chunks buf false) → e = Truncated ∧ bs ≠ [] ∧ d ∉ bs)
  end.
Proof.
  revert buf. induction chunks as [|c chunks IH]; intros buf; cbn zeta.
  - cbn [delimiter_loop mjoin list_join]. rewrite app_nil_r. destruct (position d buf) as [pos|] eqn:E.
    + apply position_Some in E as [Hb Hn]. destruct (max <? length (take pos buf)) eqn:Em; bool_to_prop.
      * split; [done|]. unfold fits, bytes_left. cbn [stream fbuf mjoin list_join]. rewrite app_nil_r, Hb, split_frames_cut by done.
        intros [Hall _]. apply Forall_cons in Hall as [Hall _]. lia.
      * split_and!; [done..| |done|by exists []]. unfold bytes_left. cbn. by rewrite app_nil_r.
    + apply position_None in E. destruct buf; [done|]. split; [done|]. by intros _.
  - cbn [delimiter_loop]. change (mjoin (c :: chunks)) with (c ++ mjoin chunks).
    destruct (position d buf) as [pos|] eqn:E.
    + apply position_Some in E as [Hb Hn].
      assert (buf ++ c ++ mjoin chunks = take pos buf ++ d :: (drop (S pos) buf ++ c ++ mjoin chunks)) as Hbs
        by (rewrite Hb at 1; by rewrite <- app_assoc).
      destruct (max <? length (take pos buf)) eqn:Em; bool_to_prop.
      * split; [done|]. unfold fits, bytes_left. cbn [stream fbuf].
        change (mjoin (c :: chunks)) with (c ++ mjoin chunks). rewrite Hbs, split_frames_cut by done.
        intros [Hall _]. apply Forall_cons in Hall as [Hall _]. lia.
      * split_and!; [done..| |done|by exists []]. exact Hbs.
    + apply position_None in E as Hn. specialize (IH (buf ++ c)). cbn zeta in IH. rewrite <- app_assoc in IH.
      assert (bytes_left (mkFrame chunks (buf ++ c) false) = buf ++ c ++ mjoin chunks) as Hsame
        by (unfold bytes_left; cbn; by rewrite <- app_assoc).
      destruct (max <? length (buf ++ c)) eqn:Em; bool_to_prop.
      * split; [done|]. unfold fits, bytes_left. cbn [stream fbuf].
        change (mjoin (c :: chunks)) with (c ++ mjoin chunks).
        destruct (split_frames d (buf ++ c ++ mjoin chunks)) as [fs tl] eqn:Es. intros [_ Hfit]. exfalso.
        destruct (split_frames_head _ _ _ _ Hn Es) as (f & Hf & Hlen).
        specialize (Hfit f c Hf ltac:(left)). rewrite length_app in Em. lia.
      * destruct (delimiter_loop d max chunks (buf ++ c)) as [[[e|f] st]|]; [| |done].
        -- destruct IH as [Hd IH]. split; [done|]. intros Hfit. apply IH. revert Hfit. unfold fits.
           rewrite Hsame. unfold bytes_left. cbn [stream fbuf].
           change (mjoin (c :: chunks)) with (c ++ mjoin chunks).
           destruct (split_frames d _) as [fs tl]. intros [Hall Hfit]. split; [done|].
           intros f c' Hf Hc'. apply Hfit; [done|by right].
        -- destruct IH as (? & ? & ? & ? & used & ->). split_and!; [done..|]. by exists (c :: used).
Qed.

Lemma fits_next f st st' :
  d ∉ f → bytes_left st = f ++ d :: bytes_left st' → (∃ used, stream st = used ++ stream st') →
  fits st → fits st'.
Proof.
  intros Hf Hb [used Hs]. unfold fits. rewrite Hb, split_frames_cut, Hs by done.
  destruct (split_frames d (bytes_left st')) as [fs tl]. cbn [fst snd]. intros [Hall Hfit]. split.
  - by apply Forall_cons in Hall as [].
  - intros g c Hg Hc. apply Hfit; set_solver.
Qed.

(** The flow ends; its frames are the first ones of the bytes, none over the limit, and only the
    last element is an error; if everything fits it is the cut of the bytes at the delimiters. *)
Lemma delimiter_unfold fuel st :
  done st = false → length (bytes_left st) + 1 < fuel →
  ∃ out, unfold fuel (delimiter_step d max) st = Some out ∧
    (∃ fs err, out = (inr <$> fs) ++ err ∧ fs `prefix_of` (split_frames d (bytes_left st)).1 ∧
       Forall (λ f, length f ≤ max) fs ∧ (err = [] ∨ ∃ e, err = [inl e])) ∧
    (fits st → out = delimited d (bytes_left st)).
Proof.
  revert st. induction fuel as [|fuel IH]; intros st Hd Hf; [lia|]. cbn [unfold].
  unfold delimiter_step at 1. rewrite Hd.
  pose proof (delimiter_loop_spec (stream st) (fbuf st)) as H. cbn zeta in H.
  change (fbuf st ++ mjoin (stream st)) with (bytes_left st) in H.
  destruct (delimiter_loop _ _ _ _) as [[[e|f] st']|].
  - destruct H as [Hd' Hfit]. destruct fuel as [|fuel]; [lia|]. exists [inl e]. split_and!.
    + cbn [unfold]. unfold delimiter_step. by rewrite Hd'.
    + exists [], [inl e]. split_and!; [done|apply prefix_nil|done|eauto].
    + intros Hfits. destruct Hfit as (-> & Hne & Hn).
      { destruct st. cbn in *. by subst. }
      unfold delimited. rewrite split_frames_none by done. by destruct (bytes_left st).
  - destruct H as (Hd' & Hlen & Hb & Hn & Hused).
    destruct (IH st' Hd') as (out & -> & (fs & err & Hout & Hpre & Hall & Herr) & Hdel).
    { rewrite Hb, length_app in Hf. cbn in Hf. lia. }
    exists (inr f :: out). split_and!; [done| |].
    + exists (f :: fs), err. rewrite Hb, split_frames_cut by done. cbn [fst]. rewrite Hout.
      split_and!; [done|by apply prefix_cons|by constructor|done].
    + intros Hfits. rewrite Hdel by (by eapply fits_next). unfold delimited.
      rewrite Hb, split_frames_cut by done. by destruct (split_frames d (bytes_left st')).
  - exists []. split_and!; [done| |].
    + exists [], []. split_and!; [done|apply prefix_nil|done|by left].
    + intros _. by rewrite H.
Qed.

End delimiter_laws.

(** [Framing::delimiter]: the flow ends, its frames are the first ones between the delimiters, and
    none is over the limit; if the longest frame and the longest chunk together fit into the limit,
    it yields all of them, and an error for bytes behind the last delimiter. *)
Theorem delimiter_framing d max chunks :
  ∃ out, delimiter d max chunks = Some out ∧
    (∃ fs err, out = (inr <$> fs) ++ err ∧ fs `prefix_of` (split_frames d (mjoin chunks)).1 ∧
       Forall (λ f, length f ≤ max) fs ∧ (err = [] ∨ ∃ e, err = [inl e])) ∧
    ((∀ f c, f ∈ (split_frames d (mjoin chunks)).1 ++ [(split_frames d (mjoin chunks)).2] → c ∈ chunks →
       length f + length c ≤ max) → out = delimited d (mjoin chunks)).
Proof.
  destruct (delimiter_unfold d max (framing_fuel chunks) (mkFrame chunks [] false)) as (out & Hout & Hpre & Hdel);
    [done|unfold framing_fuel; cbn; lia|].
  exists out. split_and!; [done..|]. intros Hfit. apply Hdel. unfold fits, bytes_left. cbn [fbuf stream app].
  destruct (split_frames d (mjoin chunks)) as [fs tl] eqn:E. cbn [fst snd] in Hfit. split; [|done].
  apply Forall_forall. intros f Hf. destruct chunks as [|c chunks].
  - cbn in E. injection E as <- <-. by apply elem_of_nil in Hf.
  - specialize (Hfit f c). etransitivity; [|apply Hfit; set_solver]. lia.
Qed.

(** The check of the buffer after a chunk counts the frames that are complete in it: the same bytes,
    two frames of one byte with a limit of three, pass in two chunks and fail in one. *)
Example delimiter_depends_on_chunks :
  delimiter Byte.x0a 3 [[Byte.x61; Byte.x0a]; [Byte.x62; Byte.x0a]] = Some [inr [Byte.x61]; inr [Byte.x62]] ∧
  delimiter Byte.x0a 3 [[Byte.x61; Byte.x0a; Byte.x62; Byte.x0a]] = Some [inl (FrameTooLarge 3)].
Proof. split; vm_compute; reflexivity. Qed.
