(* ===== verification/StreamBuffers.v ===== *)
(** * Buffers between two tasks

    overflow.rs and [SinkQueue] of sink.rs in atomr-streams: a producer task and a consumer share a
    [Mutex] around a buffer, and wake each other with one [Notify].  What each does under the lock is
    one step; the two interleave at will.  A task that waits may be woken at any time, so the safety
    theorems hold whatever the notifications do; [Notified] then adds the notifications and shows
    where both tasks wait for each other. *)

From stdpp Require Import gmap strings list.
From Stdlib Require Import NArith Lia.
From S2P Require Import Prelude Streams.

Module Overflow.

Inductive OverflowStrategy := Backpressure | DropHead | DropNew | DropTail | DropBuffer | FailStream.

Section overflow.
Context {T : Type}.

Record BufferState := mkBuffer { items : list T; complete : bool; failed : bool }.

Definition buffer_default : BufferState := mkBuffer [] false false.

(** What the producer does under the lock with the element it has: the new buffer, the element it
    keeps when it has to wait, and whether its task returns. *)
Definition offer (cap : nat) (strategy : OverflowStrategy) (b : BufferState) (item : T)
    : BufferState * option T * bool :=
  if cap <=? length (items b) then
    match strategy with
    | DropHead => (mkBuffer (tail (items b) ++ [item]) (complete b) (failed b), None, false)
    | DropTail => (mkBuffer (removelast (items b) ++ [item]) (complete b) (failed b), None, false)
    | DropNew => (b, None, false)
    | DropBuffer => (mkBuffer [item] (complete b) (failed b), None, false)
    | FailStream => (mkBuffer (items b) true true, None, true)
    | Backpressure => (b, Some item, false)
    end
  else (mkBuffer (items b ++ [item]) (complete b) (failed b), None, false).

(** The producer, woken while it waits with an element. *)
Definition retry (cap : nat) (b : BufferState) (item : T) : BufferState * option T :=
  if length (items b) <? cap then (mkBuffer (items b ++ [item]) (complete b) (failed b), None)
  else (b, Some item).

(** The consumer: [inl true] ends the stream, [inl false] waits. *)
Definition take_one (b : BufferState) : (sum bool T) * BufferState :=
  if failed b then (inl true, b)
  else match items b with
       | v :: rest => (inr v, mkBuffer rest (complete b) (failed b))
       | [] => (inl (complete b), b)
       end.

(** Both tasks: what is left of the upstream, the element the producer waits with, the buffer, and
    what the consumer has yielded. *)
Record Pipe := mkPipe {
  upstream : list T; waiting : option T; returned : bool; buffer : BufferState; yielded : list T; ended : bool }.

Definition apply (src : list T) : Pipe := mkPipe src None false buffer_default [] false.

Inductive Task := Producer | Consumer.

Definition producer_step (cap : nat) (strategy : OverflowStrategy) (p : Pipe) : Pipe :=
  if returned p then p
  else match waiting p with
       | Some item =>
           let '(b, w) := retry cap (buffer p) item in
           mkPipe (upstream p) w false b (yielded p) (ended p)
       | None =>
           match upstream p with
           | item :: rest =>
               let '(b, w, r) := offer cap strategy (buffer p) item in
               mkPipe rest w r b (yielded p) (ended p)
           | [] => mkPipe [] None true (mkBuffer (items (buffer p)) true (failed (buffer p))) (yielded p) (ended p)
           end
       end.

Definition consumer_step (p : Pipe) : Pipe :=
  if ended p then p
  else match take_one (buffer p) with
       | (inr v, b) => mkPipe (upstream p) (waiting p) (returned p) b (yielded p ++ [v]) false
       | (inl fin, b) => mkPipe (upstream p) (waiting p) (returned p) b (yielded p) fin
       end.

Definition task_step (cap : nat) (strategy : OverflowStrategy) (p : Pipe) (t : Task) : Pipe :=
  match t with Producer => producer_step cap strategy p | Consumer => consumer_step p end.

(** A run of the two tasks; the capacity is the size asked for, at least one. *)
Definition run (size : nat) (strategy : OverflowStrategy) (src : list T) (sched : list Task) : Pipe :=
  foldl (task_step (Nat.max size 1) strategy) (apply src) sched.

End overflow.
Arguments BufferState : clear implicits.
Arguments Pipe : clear implicits.
End Overflow.

(** ** [Sink::queue]

    The task pushes into an unbounded buffer; [pull] takes from it. *)
Module SinkQueue.
Section queue.
Context {T : Type}.

Record SinkQueue := mkQueue { source : list T; qitems : list T; qcomplete : bool; pulled : list T }.

(** The result of a pull: an element, the end, or waiting. *)
Inductive PullResult := Pulled (x : T) | Ended | Waits.

Definition push_next (q : SinkQueue) : SinkQueue :=
  match source q with
  | v :: rest => mkQueue rest (qitems q ++ [v]) (qcomplete q) (pulled q)
  | [] => mkQueue [] (qitems q) true (pulled q)
  end.

Definition pull (q : SinkQueue) : PullResult * SinkQueue :=
  match qitems q with
  | v :: rest => (Pulled v, mkQueue (source q) rest (qcomplete q) (pulled q ++ [v]))
  | [] => (if qcomplete q then Ended else Waits, q)
  end.

Definition queue (src : list T) : SinkQueue := mkQueue src [] false [].

End queue.
Arguments SinkQueue : clear implicits.
End SinkQueue.

(** ** Theorems *)

Module OverflowFacts.
Import Overflow.
Section facts.
Context {T : Type} (cap : nat) (strategy : OverflowStrategy).
Hypothesis cap_pos : 1 ≤ cap.

(** The elements still on their way, oldest first. *)
Definition in_flight (p : Pipe T) : list T := items (buffer p) ++ option_list (waiting p) ++ upstream p.

(** A pipe is well formed: the buffer is within its capacity, a failed buffer is complete, it is
    complete when the producer has returned, the producer waits only under back-pressure, and a
    stream that has ended has nothing left to give. *)
Definition wf (p : Pipe T) : Prop :=
  length (items (buffer p)) ≤ cap ∧
  (failed (buffer p) = true → complete (buffer p) = true ∧ strategy = FailStream) ∧
  complete (buffer p) = returned p ∧
  (returned p = true → waiting p = None ∧ (failed (buffer p) = true ∨ upstream p = [])) ∧
  (is_Some (waiting p) → strategy = Backpressure) ∧
  (ended p = true → failed (buffer p) = true ∨ (returned p = true ∧ items (buffer p) = [])).

Definition pipe_inv (src : list T) (p : Pipe T) : Prop :=
  wf p ∧ sublist (yielded p ++ in_flight p) src ∧
  (strategy = Backpressure ∨ (strategy = FailStream ∧ failed (buffer p) = false) →
     yielded p ++ in_flight p = src) ∧
  (strategy = FailStream → prefix (yielded p ++ items (buffer p)) src).

(** What the producer does with an element when there is no room. *)
Lemma offer_full (b : BufferState T) item :
  cap ≤ length (items b) →
  offer cap strategy b item =
  match strategy with
  | DropHead => (mkBuffer (tail (items b) ++ [item]) (complete b) (failed b), None, false)
  | DropTail => (mkBuffer (removelast (items b) ++ [item]) (complete b) (failed b), None, false)
  | DropNew => (b, None, false)
  | DropBuffer => (mkBuffer [item] (complete b) (failed b), None, false)
  | FailStream => (mkBuffer (items b) true true, None, true)
  | Backpressure => (b, Some item, false)
  end.
Proof. intros H. unfold offer. by rewrite (proj2 (Nat.leb_le _ _) H). Qed.

Lemma offer_room (b : BufferState T) item :
  length (items b) < cap →
  offer cap strategy b item = (mkBuffer (items b ++ [item]) (complete b) (failed b), None, false).
Proof. intros H. unfold offer. by rewrite (proj2 (Nat.leb_gt _ _) H). Qed.

Lemma removelast_sublist (l : list T) : sublist (removelast l) l.
Proof.
  induction l as [|x l _] using rev_ind; [done|]. rewrite removelast_last.
  by apply sublist_inserts_r.
Qed.

Lemma removelast_length (l : list T) : length (removelast l) = length l - 1.
Proof. induction l as [|x l _] using rev_ind; [done|]. rewrite removelast_last, length_app. cbn. lia. Qed.

Lemma tail_sublist (l : list T) : sublist (tail l) l.
Proof. destruct l; [done|]. by apply sublist_cons. Qed.

(** The elements that are on their way after an offer are among those before. *)
Lemma offer_sublist (b : BufferState T) item b' w r :
  length (items b) ≤ cap → offer cap strategy b item = (b', w, r) →
  length (items b') ≤ cap ∧ sublist (items b' ++ option_list w) (items b ++ [item]) ∧
  (strategy = Backpressure → items b' ++ option_list w = items b ++ [item]) ∧
  (is_Some w → strategy = Backpressure) ∧
  (if r then strategy = FailStream ∧ w = None ∧ b' = mkBuffer (items b) true true
   else complete b' = complete b ∧ failed b' = failed b ∧
        (strategy = FailStream → items b' = items b ++ [item])).
Proof.
  intros Hlen. destruct (decide (length (items b) < cap)) as [Hr|Hr].
  { rewrite offer_room by done. intros [= <- <- <-]. cbn. rewrite app_nil_r, length_app. cbn.
    split_and!; [lia|done..|by intros []|done|done|done]. }
  rewrite offer_full by lia. destruct strategy; intros [= <- <- <-]; cbn; rewrite ?app_nil_r, ?length_app; cbn;
    split_and!; try done; try (by intros []); try lia.
  all: rewrite ?removelast_length; try (apply sublist_app; [apply tail_sublist || apply removelast_sublist|done]);
    try (by apply sublist_inserts_r); try (by apply sublist_inserts_l).
  - destruct (items b); cbn in *; lia.
  - lia.
Qed.

Lemma sublist_middle (y l l' r : list T) : sublist l' l → sublist (y ++ l' ++ r) (y ++ l ++ r).
Proof. intros H. apply sublist_app; [done|]. by apply sublist_app. Qed.

Lemma producer_step_inv src p : pipe_inv src p → pipe_inv src (producer_step cap strategy p).
Proof.
  intros ((Hcap & Hfail & Hcomp & Hret & Hwait & Hend) & Hsub & Heq & Hpre). unfold producer_step.
  destruct p as [up w r [its c f] y e]; unfold in_flight in *; cbn in *. subst r.
  destruct c; [by split_and!|].
  destruct f; [by destruct (Hfail eq_refl)|]. destruct e; [by destruct (Hend eq_refl) as [|[]]|].
  destruct w as [item|]; [|destruct up as [|item up]].
  - pose proof (Hwait ltac:(by eexists)) as Hs. unfold retry. cbn [items complete failed buffer].
    destruct (length its <? cap) eqn:E; [|by split_and!]. apply Nat.ltb_lt in E.
    unfold pipe_inv, wf, in_flight. cbn. rewrite length_app. cbn. rewrite <- !app_assoc. cbn.
    rewrite Hs in *. split_and!; try done; try lia; by intros [].
  - unfold pipe_inv, wf, in_flight. cbn. split_and!; auto; done.
  - destruct (offer cap strategy _ item) as [[b' w'] r'] eqn:Eo.
    apply offer_sublist in Eo as (Hl & Hsl & Hbp & Hw & Hr); [|done]. cbn in *.
    unfold pipe_inv, wf, in_flight. cbn.
    assert (∀ l, its ++ [item] ++ l = its ++ item :: l) as Happ by done.
    assert (sublist (y ++ items b' ++ option_list w' ++ up) src) as Hsub'.
    { etransitivity; [|exact Hsub]. rewrite (app_assoc (items b')), <- Happ, (app_assoc its). by apply sublist_middle. }
    destruct r'.
    + destruct Hr as (Hs & -> & ->). cbn in *. split_and!; try done; try lia.
      * auto.
      * intros [Hs'|[]]; congruence.
    + destruct Hr as (Hc & Hf & Hfs). rewrite Hc, Hf. split_and!; try done.
      * intros [Hs|[Hs _]]; rewrite <- Heq by auto.
        -- rewrite (app_assoc (items b')), Hbp by done. by rewrite <- app_assoc.
        -- destruct w'; [specialize (Hw ltac:(by eexists)); congruence|]. rewrite Hfs by done. cbn. by rewrite <- app_assoc.
      * intros Hs. rewrite Hfs by done. rewrite <- Heq by auto. exists up. by rewrite <- !app_assoc.
Qed.

Lemma consumer_step_inv src p : pipe_inv src p → pipe_inv src (consumer_step p).
Proof.
  intros ((Hcap & Hfail & Hcomp & Hret & Hwait & Hend) & Hsub & Heq & Hpre). unfold consumer_step.
  destruct p as [up w r [its c f] y e]; unfold in_flight in *; cbn in *. subst r.
  destruct e; [by split_and!|]. unfold take_one. cbn. destruct f; cbn.
  - unfold pipe_inv, wf, in_flight. cbn. split_and!; auto.
  - destruct its as [|v its]; cbn in *; unfold pipe_inv, wf, in_flight; cbn.
    + split_and!; auto.
    + rewrite <- !app_assoc in *. cbn. split_and!; auto. lia.
Qed.

Lemma pipe_inv_start src : pipe_inv src (apply src).
Proof. unfold pipe_inv, wf, in_flight. cbn. split_and!; try done; try lia; try (by intros []). intros _. apply prefix_nil. Qed.

Lemma pipe_inv_run src sched p : pipe_inv src p → pipe_inv src (foldl (task_step cap strategy) p sched).
Proof.
  revert p. induction sched as [|[] sched IH]; intros p Hp; [done| |];
    apply IH; [by apply producer_step_inv|by apply consumer_step_inv].
Qed.

(** Under back-pressure, a stream that has ended has yielded everything. *)
Lemma pipe_ended src p : strategy = Backpressure → pipe_inv src p → ended p = true → yielded p = src.
Proof.
  intros Hs ((_ & Hf & _ & Hr & _ & Hend) & _ & Heq & _) He. specialize (Heq (or_introl Hs)).
  destruct (Hend He) as [Hx|[Hret Hit]]; [destruct (Hf Hx); congruence|].
  destruct (Hr Hret) as [Hw [Hx|Hup]]; [destruct (Hf Hx); congruence|].
  unfold in_flight in Heq. rewrite Hit, Hw, Hup in Heq. cbn in Heq. by rewrite app_nil_r in Heq.
Qed.

(** Under back-pressure, a turn of both tasks brings the stream closer to its end. *)
Definition todo (p : Pipe T) : nat :=
  3 * length (upstream p) + 2 * length (option_list (waiting p)) + length (items (buffer p)) +
  (if returned p then 0 else 1) + (if ended p then 0 else 1).

Lemma producer_todo p :
  strategy = Backpressure →
  todo (producer_step cap strategy p) < todo p ∨
  producer_step cap strategy p = p ∧ (returned p = true ∨ cap ≤ length (items (buffer p))).
Proof.
  intros Hs. unfold producer_step. destruct p as [up w r [its c f] y e]; cbn [returned waiting upstream buffer].
  destruct r; [auto|]. destruct w as [item|].
  - unfold retry. cbn [items complete failed]. destruct (length its <? cap) eqn:E; bool_to_prop.
    + left. unfold todo. cbn. rewrite length_app. cbn. destruct e; lia.
    + right. split; [done|]. cbn. auto.
  - destruct up as [|item up]; [left; unfold todo; cbn; lia|]. left. rewrite Hs.
    destruct (decide (length its < cap)) as [Hl|Hl].
    + unfold offer. cbn [items]. rewrite (proj2 (Nat.leb_gt _ _) Hl). unfold todo. cbn. rewrite length_app. cbn. lia.
    + unfold offer. cbn [items]. rewrite (proj2 (Nat.leb_le _ _)) by lia. unfold todo. cbn. lia.
Qed.

Lemma consumer_todo p :
  todo (consumer_step p) ≤ todo p ∧
  (ended p = false → items (buffer p) ≠ [] ∨ complete (buffer p) = true → todo (consumer_step p) < todo p).
Proof.
  unfold consumer_step, take_one. destruct p as [up w r [its c f] y e]; cbn [returned waiting upstream buffer ended].
  destruct e; [by split|]. destruct f; [unfold todo; cbn; split; intros; lia|].
  destruct its as [|v its]; cbn [items complete failed].
  - unfold todo; cbn. destruct c; cbn; (split; [lia|]); [intros; lia|]. by intros _ [|].
  - unfold todo; cbn. split; intros; lia.
Qed.

Lemma round_progress src p :
  strategy = Backpressure → pipe_inv src p → ended p = false →
  todo (consumer_step (producer_step cap strategy p)) < todo p.
Proof.
  intros Hs Hinv He. destruct (producer_todo p Hs) as [Hlt|[-> Hwhy]].
  - pose proof (consumer_todo (producer_step cap strategy p)) as [Hle _]. lia.
  - destruct (consumer_todo p) as [_ Hlt]. apply Hlt; [done|].
    destruct Hinv as ((_ & _ & Hc & _) & _). destruct Hwhy as [Hr|Hfull]; [right; congruence|].
    left. intros E. rewrite E in Hfull. cbn in Hfull. lia.
Qed.

Lemma rounds_end src k p :
  strategy = Backpressure → pipe_inv src p → todo p < k →
  ended (foldl (task_step cap strategy) p (mjoin (replicate k [Producer; Consumer]))) = true.
Proof.
  intros Hs. revert p. induction k as [|k IH]; intros p Hinv Hk; [lia|].
  change (mjoin (replicate (S k) [Producer; Consumer])) with
    ([Producer; Consumer] ++ mjoin (replicate k [Producer; Consumer])). rewrite foldl_app.
  change (foldl (task_step cap strategy) p [Producer; Consumer]) with (consumer_step (producer_step cap strategy p)).
  destruct (ended p) eqn:He.
  - assert (∀ l (q : Pipe T), ended q = true → ended (foldl (task_step cap strategy) q l) = true) as Hstay.
    { intros l. induction l as [|[] l IHl]; intros q Hq; [done| |]; apply IHl; cbn.
      - unfold producer_step. by repeat case_match.
      - unfold consumer_step. by rewrite Hq. }
    apply Hstay. apply (Hstay [Producer; Consumer] p He).
  - apply IH; [by apply consumer_step_inv, producer_step_inv|].
    pose proof (round_progress src p Hs Hinv He). lia.
Qed.

End facts.
End OverflowFacts.

Section overflow_theorems.
Import Overflow OverflowFacts.
Context {T : Type}.

(** C28: [Source::buffer], however the producer and the consumer interleave: the state stays well formed
    (the buffer never holds more than [max size 1] elements); what is yielded are elements of the
    source in their order; under [Backpressure] none is missing, and under [Fail] none in front of
    the failure. *)
Theorem buffer_well_formed size strategy (src : list T) sched :
  let p := run size strategy src sched in
  wf (Nat.max size 1) strategy p ∧ sublist (yielded p) src ∧
  (strategy = Backpressure → prefix (yielded p) src ∧ (ended p = true → yielded p = src)) ∧
  (strategy = FailStream → prefix (yielded p) src).
Proof.
  cbn zeta. set (p := run size strategy src sched).
  assert (pipe_inv (Nat.max size 1) strategy src p) as Hinv by (apply pipe_inv_run; [lia|apply pipe_inv_start; lia]).
  pose proof Hinv as (Hwf & Hsub & Heq & Hpre). split_and!.
  - done.
  - etransitivity; [|exact Hsub]. by apply sublist_inserts_r.
  - intros Hs. split; [|by apply (pipe_ended (Nat.max size 1) strategy)].
    rewrite <- (Heq (or_introl Hs)). by eexists.
  - intros Hs. etransitivity; [|exact (Hpre Hs)]. by eexists.
Qed.

(** Under [Backpressure], when the two tasks run in turn, the stream comes to its end with every
    element. *)
Theorem backpressure_delivers size (src : list T) k :
  3 * length src + 2 < k →
  let p := run size Backpressure src (mjoin (replicate k [Producer; Consumer])) in
  ended p = true ∧ yielded p = src.
Proof.
  intros Hk p.
  assert (pipe_inv (Nat.max size 1) Backpressure src p) as Hinv by (apply pipe_inv_run; [lia|apply pipe_inv_start; lia]).
  assert (ended p = true) as He.
  { apply (rounds_end (Nat.max size 1) Backpressure ltac:(lia) src k (apply src)); [done|apply pipe_inv_start; lia|].
    unfold todo. cbn. lia. }
  split; [done|]. by apply (pipe_ended (Nat.max size 1) Backpressure).
Qed.

End overflow_theorems.

Module SinkQueueFacts.
Import SinkQueue.
Section facts.
Context {T : Type}.

Definition queue_inv (src : list T) (q : SinkQueue T) : Prop :=
  pulled q ++ qitems q ++ source q = src ∧ (qcomplete q = true → source q = []).

(** Whatever the interleaving ([true] for the task), the consumer pulls the elements of the source in
    order, and the queue ends only when it has pulled all of them. *)
Lemma sink_queue_spec (src : list T) sched :
  let q := foldl (λ q (b : bool), if b then push_next q else (pull q).2) (queue src) sched in
  prefix (pulled q) src ∧ ((pull q).1 = Ended → pulled q = src).
Proof.
  cbn zeta.
  assert (∀ q, queue_inv src q → queue_inv src (foldl (λ q (b : bool), if b then push_next q else (pull q).2) q sched))
    as H.
  { induction sched as [|b sched IH]; intros q Hq; [done|]. apply IH. destruct q as [s i c p], Hq as [Hq Hc]; cbn in *.
    destruct b; [destruct s as [|v s]|destruct i as [|v i]]; unfold queue_inv; cbn; rewrite <- ?app_assoc; cbn.
    - done.
    - split; [done|]. intros Hx. by specialize (Hc Hx).
    - done.
    - done. }
  destruct (H (queue src) ltac:(done)) as [Hq Hc]. destruct (foldl _ _ _) as [s i c p]. cbn in *. split.
  - rewrite <- Hq. by eexists.
  - destruct i; cbn; [|done]. destruct c; [|done]. intros _. rewrite <- Hq, Hc by done. cbn. by rewrite app_nil_r.
Qed.

End facts.
End SinkQueueFacts.

(** ** Notifications

    [tokio::sync::Notify], as far as the buffer relies on it. *)
Class Notify (Nt : Type) := {
  notify_new : Nt;
  (** The state, and the task that is woken. *)
  notify_one : Nt → Nt * option Overflow.Task;
  notify_waiters : Nt → Nt * list Overflow.Task;
  (** [notified().await]: the state, and whether the task goes on at once. *)
  notified : Overflow.Task → Nt → Nt * bool }.

(** Its documentation: a task waits unless there is a permit; [notify_one] without a waiting task
    leaves a permit, of which there is at most one, and which the next wait uses up;
    [notify_waiters] leaves none. *)
Class NotifyLaws (Nt : Type) `{Notify Nt} := {
  notified_waits t : (notified t notify_new).2 = false;
  notified_both_wait t t' : t ≠ t' → (notified t' (notified t notify_new).1).2 = false;
  notify_one_permit : (notify_one notify_new).2 = None;
  notify_one_one_permit : notify_one (notify_one notify_new).1 = notify_one notify_new;
  notified_uses_permit t : notified t (notify_one notify_new).1 = (notify_new, true);
  notify_waiters_no_permit : notify_waiters notify_new = (notify_new, []) }.

Module Notified.
Import Overflow.
Section notified.
Context {T Nt : Type} `{Notify Nt}.

(** Where a task is: about to run, about to wait, or waiting. *)
Inductive Pc := Running | BeforeWait | Blocked.

Record System := mkSystem { pipe : Pipe T; notify : Nt; producer : Pc; consumer : Pc }.

Definition wake (s : System) (t : Task) : System :=
  match t with
  | Producer => mkSystem (pipe s) (notify s) Running (consumer s)
  | Consumer => mkSystem (pipe s) (notify s) (producer s) Running
  end.

Definition call_notify_one (s : System) : System :=
  let '(n, t) := notify_one (notify s) in
  let s := mkSystem (pipe s) n (producer s) (consumer s) in
  match t with Some t => wake s t | None => s end.

Definition call_notify_waiters (s : System) : System :=
  let '(n, ts) := notify_waiters (notify s) in
  foldl wake (mkSystem (pipe s) n (producer s) (consumer s)) ts.

(** The producer's next action: an element under the lock and then [notify_one], unless it has to
    wait; the end of the stream and [notify_waiters]; or the call of [notified]. *)
Definition producer_acts (cap : nat) (strategy : OverflowStrategy) (s : System) : System :=
  match producer s with
  | Blocked => s
  | BeforeWait =>
      let '(n, go) := notified Producer (notify s) in
      mkSystem (pipe s) n (if go then Running else Blocked) (consumer s)
  | Running =>
      if returned (pipe s) then s
      else
        let p := producer_step cap strategy (pipe s) in
        if returned p then call_notify_waiters (mkSystem p (notify s) Running (consumer s))
        else match waiting p with
             | Some _ => mkSystem p (notify s) BeforeWait (consumer s)
             | None => call_notify_one (mkSystem p (notify s) Running (consumer s))
             end
  end.

(** The consumer's next action. *)
Definition consumer_acts (s : System) : System :=
  match consumer s with
  | Blocked => s
  | BeforeWait =>
      let '(n, go) := notified Consumer (notify s) in
      mkSystem (pipe s) n (producer s) (if go then Running else Blocked)
  | Running =>
      if ended (pipe s) then s
      else
        let p := consumer_step (pipe s) in
        match take_one (buffer (pipe s)) with
        | (inr _, _) => call_notify_one (mkSystem p (notify s) (producer s) Running)
        | (inl true, _) => mkSystem p (notify s) (producer s) Running
        | (inl false, _) => mkSystem p (notify s) (producer s) BeforeWait
        end
  end.

Definition acts (cap : nat) (strategy : OverflowStrategy) (s : System) (t : Task) : System :=
  match t with Producer => producer_acts cap strategy s | Consumer => consumer_acts s end.

Definition start (src : list T) : System := mkSystem (apply src) notify_new Running Running.

End notified.
Arguments System : clear implicits.
End Notified.

(** A [Notify] with a permit and the waiting tasks in order. *)
Record PermitNotify := mkPermit { permit : bool; waiters : list Overflow.Task }.

#[export] Instance permit_notify : Notify PermitNotify := {
  notify_new := mkPermit false [];
  notify_one n := match waiters n with
                  | t :: ts => (mkPermit (permit n) ts, Some t)
                  | [] => (mkPermit true [], None)
                  end;
  notify_waiters n := (mkPermit (permit n) [], waiters n);
  notified t n := if permit n then (mkPermit false (waiters n), true)
                  else (mkPermit false (waiters n ++ [t]), false) }.

#[export] Instance permit_notify_laws : NotifyLaws PermitNotify.
Proof. split; done. Qed.

Lemma foldl_cons {A B} (f : A → B → A) a b l : foldl f a (b :: l) = foldl f (f a b) l.
Proof. done. Qed.

Section deadlock.
Import Overflow Notified.
Context {T Nt : Type} `{NotifyLaws Nt}.

(** The consumer finds an empty buffer; before it waits, the producer reaches the end of the stream
    and notifies, and nobody hears it: the consumer of an empty source waits for ever. *)
Lemma end_of_stream_missed cap strategy :
  let s := foldl (acts cap strategy) (start ([] : list T)) [Consumer; Producer; Consumer] in
  consumer s = Blocked ∧ returned (pipe s) = true ∧ ended (pipe s) = false ∧ ∀ t, acts cap strategy s t = s.
Proof.
  cbn [foldl acts]. unfold start, consumer_acts at 2. cbn.
  unfold producer_acts. cbn. unfold call_notify_waiters. cbn. rewrite notify_waiters_no_permit. cbn.
  unfold consumer_acts. cbn. pose proof (notified_waits Consumer) as Hw.
  destruct (notified Consumer notify_new) as [n go]. cbn in Hw. subst go. cbn.
  split_and!; [done..|]. by intros [].
Qed.

(** Both tasks wait, with an element in the producer's hands: the producer finds the buffer full;
    before it waits, the consumer empties the buffer and uses up the permit its own [notify_one]
    left, when it comes to an empty buffer. *)
Lemma buffer_deadlock (x y : T) :
  let s := foldl (acts 1 Backpressure) (start [x; y])
             [Producer; Producer; Consumer; Consumer; Consumer; Consumer; Consumer; Producer] in
  consumer s = Blocked ∧ producer s = Blocked ∧ waiting (pipe s) = Some y ∧ items (buffer (pipe s)) = [] ∧
  ∀ t, acts 1 Backpressure s t = s.
Proof.
  pose proof (notified_both_wait Consumer Producer ltac:(done)) as Hboth.
  pose proof (notified_waits Consumer) as Hw. pose proof notify_one_permit as Hp.
  pose proof notify_one_one_permit as Hpp. pose proof (notified_uses_permit Consumer) as Hu.
  destruct (notify_one notify_new) as [pm w0] eqn:E1. cbn in Hp, Hpp, Hu. subst w0.
  destruct (notified Consumer notify_new) as [n1 g1] eqn:E2. cbn in Hw, Hboth. subst g1.
  destruct (notified Producer n1) as [n2 g2] eqn:E3. cbn in Hboth. subst g2.
  intros s.
  assert (s = mkSystem (mkPipe [] (Some y) false (mkBuffer [] false false) [x] false) n2 Blocked Blocked) as ->.
  { subst s. unfold start.
    do 8 (rewrite foldl_cons;
          match goal with |- context [acts 1 Backpressure ?s ?t] => remember (acts 1 Backpressure s t) as a eqn:Ha end;
          unfold acts, producer_acts, consumer_acts, call_notify_one in Ha; cbn in Ha;
          rewrite ?E1, ?Hpp, ?Hu, ?E2, ?E3 in Ha; cbn in Ha; subst a).
    reflexivity. }
  split_and!; [done..|]. by intros [].
Qed.

End deadlock.

Lemma buffer_deadlock_here :
  let s := foldl (Notified.acts 1 Overflow.Backpressure) (Notified.start (Nt := PermitNotify) [1; 2])
             [Overflow.Producer; Overflow.Producer; Overflow.Consumer; Overflow.Consumer; Overflow.Consumer;
              Overflow.Consumer; Overflow.Consumer; Overflow.Producer] in
  Overflow.yielded (Notified.pipe s) = [1] ∧ ∀ t, Notified.acts 1 Overflow.Backpressure s t = s.
Proof. split; [reflexivity|]. by intros []. Qed.
