(* ===== verification/AtLeastOnce.v ===== *)
(** * At-least-once delivery

    alod.rs of atomr-persistence: deliveries are numbered and kept until they are confirmed, and
    every one that is kept is delivered again on each tick.  The specification is the list of the
    messages that are outstanding, in the order in which they were accepted. *)

From stdpp Require Import gmap strings list sorting.
From Stdlib Require Import NArith Lia.
From S2P Require Import Prelude.

Section alod.
Context {M : Type}.

Record UnconfirmedDelivery := mkUnconfirmed { delivery_id : N; destination : string; message : M }.

Record AtLeastOnceDelivery := mkAlod {
  next_id : N; unconfirmed : gmap N (UnconfirmedDelivery * N);
  redeliver_interval_ms : N; warn_after_attempts : N; max_unconfirmed : nat }.

Definition alod_new (redeliver_interval_ms warn_after : N) (max_unconfirmed : nat) : AtLeastOnceDelivery :=
  mkAlod 0 ∅ redeliver_interval_ms warn_after max_unconfirmed.

Definition set_inner (s : AtLeastOnceDelivery) (next : N) (m : gmap N (UnconfirmedDelivery * N))
    : AtLeastOnceDelivery :=
  mkAlod next m (redeliver_interval_ms s) (warn_after_attempts s) (max_unconfirmed s).

Definition deliver (s : AtLeastOnceDelivery) (dest : string) (msg : M) : option N * AtLeastOnceDelivery :=
  if max_unconfirmed s <=? size (unconfirmed s) then (None, s)
  else
    let id := u64_add (next_id s) 1 in
    (Some id, set_inner s id (<[id := (mkUnconfirmed id dest msg, 0%N)]> (unconfirmed s))).

Definition confirm_delivery (s : AtLeastOnceDelivery) (id : N) : bool * AtLeastOnceDelivery :=
  (bool_decide (is_Some (unconfirmed s !! id)), set_inner s (next_id s) (delete id (unconfirmed s))).

(** The iteration of a [BTreeMap] goes by key. *)
Definition by_key {V} (p q : N * V) : Prop := (p.1 ≤ q.1)%N.
#[export] Instance by_key_dec {V} : RelDecision (@by_key V).
Proof. intros p q. unfold by_key. apply _. Defined.

Definition btree_iter {V} (m : gmap N V) : list (N * V) := merge_sort by_key (map_to_list m).

Definition redeliver (s : AtLeastOnceDelivery) : list UnconfirmedDelivery * AtLeastOnceDelivery :=
  ((λ p, p.2.1) <$> btree_iter (unconfirmed s),
   set_inner s (next_id s) ((λ p, (p.1, u32_add p.2 1)) <$> unconfirmed s)).

Definition unconfirmed_count (s : AtLeastOnceDelivery) : nat := size (unconfirmed s).

(** The operations, and what they answer. *)
Inductive Op := Deliver (dest : string) (msg : M) | Confirm (id : N) | Redeliver.
Inductive Answer := Delivered (id : option N) | Confirmed (b : bool) | Redelivered (l : list UnconfirmedDelivery).

Definition alod_op (s : AtLeastOnceDelivery) (op : Op) : Answer * AtLeastOnceDelivery :=
  match op with
  | Deliver dest msg => let '(r, s') := deliver s dest msg in (Delivered r, s')
  | Confirm id => let '(r, s') := confirm_delivery s id in (Confirmed r, s')
  | Redeliver => let '(r, s') := redeliver s in (Redelivered r, s')
  end.

(** ** Specification *)

Record Outstanding := mkOutstanding { accepted : nat; kept : list UnconfirmedDelivery }.

Definition outstanding_op (limit : nat) (o : Outstanding) (op : Op) : Answer * Outstanding :=
  match op with
  | Deliver dest msg =>
      if limit <=? length (kept o) then (Delivered None, o)
      else let id := N.of_nat (S (accepted o)) in
           (Delivered (Some id), mkOutstanding (S (accepted o)) (kept o ++ [mkUnconfirmed id dest msg]))
  | Confirm id =>
      (Confirmed (bool_decide (id ∈ delivery_id <$> kept o)),
       mkOutstanding (accepted o) (filter (λ d, delivery_id d ≠ id) (kept o)))
  | Redeliver => (Redelivered (kept o), o)
  end.

Fixpoint run_ops {S} (step : S → Op → Answer * S) (s : S) (ops : list Op) : list Answer * S :=
  match ops with
  | [] => ([], s)
  | op :: ops' => let '(a, s') := step s op in let '(l, s'') := run_ops step s' ops' in (a :: l, s'')
  end.

End alod.
Arguments UnconfirmedDelivery : clear implicits.
Arguments AtLeastOnceDelivery : clear implicits.
Arguments Outstanding : clear implicits.
Arguments Op : clear implicits.
Arguments Answer : clear implicits.

Section refinement.
Context {M : Type}.
Implicit Types (l : list (UnconfirmedDelivery M)).

Definition keyed l : list (N * UnconfirmedDelivery M) := (λ d, (delivery_id d, d)) <$> l.

(** The map holds the outstanding messages under their numbers, which grow. *)
Definition represents (limit : nat) (s : AtLeastOnceDelivery M) (o : Outstanding M) : Prop :=
  max_unconfirmed s = limit ∧ next_id s = N.of_nat (accepted o) ∧
  StronglySorted (λ d e, (delivery_id d < delivery_id e)%N) (kept o) ∧
  Forall (λ d, (delivery_id d ≤ next_id s)%N) (kept o) ∧
  fst <$> unconfirmed s = list_to_map (keyed (kept o)).

Lemma keyed_fst l : (keyed l).*1 = delivery_id <$> l.
Proof. unfold keyed. rewrite <- list_fmap_compose. done. Qed.

Lemma sorted_NoDup (l : list N) : StronglySorted N.lt l → NoDup l.
Proof.
  induction 1 as [|x l Hl IH Hx]; constructor; [|done]. intros Hin.
  rewrite Forall_forall in Hx. specialize (Hx x Hin). lia.
Qed.

Lemma keyed_size (m : gmap N (UnconfirmedDelivery M * N)) l :
  StronglySorted N.lt (delivery_id <$> l) → fst <$> m = list_to_map (keyed l) → size m = length l.
Proof.
  intros Hs Hm. rewrite <- (map_size_fmap fst m), Hm, <- length_map_to_list.
  rewrite map_to_list_to_map by (rewrite keyed_fst; by apply sorted_NoDup). apply length_fmap.
Qed.

Global Instance by_key_trans {V} : Transitive (@by_key V).
Proof. intros p q r. unfold by_key. lia. Qed.
Global Instance by_key_total {V} : Total (@by_key V).
Proof. intros p q. unfold by_key. lia. Qed.

Lemma key_sorted {V} (l : list (N * V)) : StronglySorted N.lt l.*1 → StronglySorted by_key l.
Proof.
  induction l as [|p l IH]; intros Hs; [constructor|].
  change (StronglySorted N.lt (p.1 :: l.*1)) in Hs. apply StronglySorted_inv in Hs as [Hs Hp].
  constructor; [by apply IH|]. rewrite Forall_fmap in Hp. eapply Forall_impl; [exact Hp|].
  intros q Hq. unfold by_key. cbn in Hq. lia.
Qed.

Lemma key_sorted_unique {V} (l1 l2 : list (N * V)) :
  Sorted by_key l1 → StronglySorted N.lt l2.*1 → l1 ≡ₚ l2 → l1 = l2.
Proof.
  intros H1 H2 Hp. apply (Sorted_unique_strong by_key); [|done|by apply StronglySorted_Sorted, key_sorted|done].
  intros x y Hx Hy Hle Hge. rewrite Hp in Hx. unfold by_key in *.
  apply list_elem_of_lookup in Hx as [i Hi]. apply list_elem_of_lookup in Hy as [j Hj].
  assert (i = j) as ->; [|congruence].
  apply (NoDup_lookup l2.*1 i j x.1); [by apply sorted_NoDup|by rewrite list_lookup_fmap, Hi|].
  rewrite list_lookup_fmap, Hj. cbn. f_equal. lia.
Qed.

(** The iteration by key yields the messages in the order in which they were accepted. *)
Lemma btree_iter_keyed (m : gmap N (UnconfirmedDelivery M * N)) l :
  StronglySorted N.lt (delivery_id <$> l) → fst <$> m = list_to_map (keyed l) →
  (λ p, p.2.1) <$> btree_iter m = l.
Proof.
  intros Hs Hm.
  assert (prod_map id fst <$> btree_iter m = keyed l) as HL.
  { apply key_sorted_unique.
    - apply (Sorted_fmap _ by_key by_key); [done|]. apply Sorted_merge_sort, _.
    - by rewrite keyed_fst.
    - unfold btree_iter. rewrite merge_sort_Permutation, <- map_to_list_fmap, Hm.
      apply map_to_list_to_map. rewrite keyed_fst. by apply sorted_NoDup. }
  apply (f_equal (fmap snd)) in HL. unfold keyed in HL. rewrite <- !list_fmap_compose in HL.
  rewrite (list_fmap_id l) in HL || idtac. etransitivity; [|etransitivity; [exact HL|]].
  - by apply list_fmap_ext.
  - apply list_fmap_id.
Qed.

Lemma keyed_delete l id :
  NoDup (delivery_id <$> l) →
  delete id (list_to_map (keyed l) : gmap N _) = list_to_map (keyed (filter (λ d, delivery_id d ≠ id) l)).
Proof.
  induction l as [|d l IH]; intros Hn; [apply delete_empty|].
  change (keyed (d :: l)) with ((delivery_id d, d) :: keyed l). rewrite list_to_map_cons. cbn [fst snd].
  apply NoDup_cons in Hn as [Hd Hn]. rewrite filter_cons. case_decide as Hc.
  - change (keyed (d :: ?l')) with ((delivery_id d, d) :: keyed l'). rewrite list_to_map_cons. cbn [fst snd].
    rewrite delete_insert_ne by done. by rewrite IH.
  - assert (delivery_id d = id) as <- by (apply dec_stable; tauto).
    by rewrite delete_insert_eq, IH.
Qed.

(** The operations refine the specification, one by one. *)
Lemma alod_op_refines limit s o op :
  represents limit s o → (N.of_nat (S (accepted o)) < u64_modulus)%N →
  (alod_op s op).1 = (outstanding_op limit o op).1 ∧
  represents limit (alod_op s op).2 (outstanding_op limit o op).2.
Proof.
  intros (Hmax & Hn & Hs & Hle & Hm) Hb.
  assert (StronglySorted N.lt (delivery_id <$> kept o)) as Hids by (by eapply StronglySorted_fmap, Hs).
  pose proof (keyed_size _ _ Hids Hm) as Hsz. destruct op as [dest msg|id|]; cbn -[N.of_nat].
  - unfold deliver. rewrite Hmax, Hsz. destruct (limit <=? length (kept o)); [done|].
    rewrite Hn, u64_add_small by lia. replace (N.of_nat (accepted o) + 1)%N with (N.of_nat (S (accepted o))) by lia.
    split; [done|]. unfold represents. cbn -[N.of_nat].
    assert (Forall (λ d, (delivery_id d < N.of_nat (S (accepted o)))%N) (kept o)) as Hlt.
    { eapply Forall_impl; [exact Hle|]. intros d. cbn. lia. }
    split_and!; [done..| | |].
    + apply StronglySorted_app_2; [|done|by repeat constructor]. intros x y Hx ->%list_elem_of_singleton.
      rewrite Forall_forall in Hlt. by apply Hlt.
    + apply Forall_app. split; [eapply Forall_impl; [exact Hlt|]; intros d; cbn -[N.of_nat]; lia|].
      constructor; [cbn -[N.of_nat]; lia|done].
    + rewrite fmap_insert, Hm. unfold keyed. rewrite fmap_app. cbn -[N.of_nat]. rewrite list_to_map_snoc; [done|].
      fold (keyed (kept o)). rewrite keyed_fst. intros (d & Heq & Hd)%list_elem_of_fmap.
      rewrite Forall_forall in Hlt. specialize (Hlt d Hd). cbn -[N.of_nat] in Hlt. lia.
  - split.
    + f_equal. apply bool_decide_ext. rewrite <- (fmap_is_Some fst), <- lookup_fmap, Hm, <- keyed_fst.
      rewrite <- not_eq_None_Some, <- not_elem_of_list_to_map. split; [by apply dec_stable|auto].
    + unfold represents. cbn. split_and!; [done..| | |].
      * by apply sorted_filter.
      * apply Forall_forall. intros d [_ Hd]%list_elem_of_filter. rewrite Forall_forall in Hle. by apply Hle.
      * rewrite fmap_delete, Hm. apply keyed_delete. by apply sorted_NoDup.
  - rewrite (btree_iter_keyed _ _ Hids Hm). split; [done|]. unfold represents. cbn. split_and!; [done..|].
    rewrite <- map_fmap_compose, <- Hm. by apply map_fmap_ext.
Qed.

(** The number of deliveries that are accepted at most. *)
Definition deliveries (ops : list (Op M)) : nat :=
  length (filter (λ op, match op with Deliver _ _ => true | _ => false end = true) ops).

Lemma deliveries_one op : deliveries [op] = match op with Deliver _ _ => 1 | _ => 0 end.
Proof. by destruct op. Qed.

Lemma accepted_le limit (o : Outstanding M) op :
  accepted (outstanding_op limit o op).2 ≤ accepted o + deliveries [op].
Proof. rewrite deliveries_one. destruct op; cbn; [case_match; cbn; lia|lia..]. Qed.

Lemma deliveries_cons op ops : deliveries (op :: ops) = deliveries [op] + deliveries ops.
Proof. unfold deliveries. rewrite !filter_cons. by case_decide. Qed.

(** C29: At-least-once delivery implements its specification: the answers are those of a list of the
    outstanding messages in the order of acceptance.  A message that was accepted is redelivered on
    every tick until it is confirmed, none is redelivered after, and the limit holds. *)
Theorem alod_refines interval warn limit ops :
  (N.of_nat (S (deliveries ops)) < u64_modulus)%N →
  let '(answers, s) := run_ops alod_op (alod_new interval warn limit) ops in
  let '(expected, o) := run_ops (outstanding_op limit) (mkOutstanding 0 []) ops in
  answers = expected ∧ unconfirmed_count s = length (kept o) ∧ length (kept o) ≤ limit.
Proof.
  intros Hb.
  assert (∀ s o, represents limit s o → length (kept o) ≤ limit →
            (N.of_nat (S (accepted o + deliveries ops)) < u64_modulus)%N →
            let '(answers, s') := run_ops alod_op s ops in
            let '(expected, o') := run_ops (outstanding_op limit) o ops in
            answers = expected ∧ represents limit s' o' ∧ length (kept o') ≤ limit) as H.
  { clear Hb. induction ops as [|op ops IH]; intros s o Hr Hl Hb; [done|]. cbn [run_ops].
    rewrite deliveries_cons in Hb. destruct (alod_op_refines limit s o op Hr ltac:(lia)) as [Ha Hr'].
    pose proof (accepted_le limit o op) as Hacc.
    assert (length (kept (outstanding_op limit o op).2) ≤ limit) as Hl'.
    { destruct op; cbn; [|etransitivity; [apply length_filter|done]|done].
      destruct (limit <=? length (kept o)) eqn:E; [done|]. bool_to_prop. cbn. rewrite length_app. cbn. lia. }
    destruct (alod_op s op) as [a s'], (outstanding_op limit o op) as [a' o']; cbn in *. subst a'.
    specialize (IH s' o' Hr' Hl' ltac:(lia)).
    destruct (run_ops alod_op s' ops), (run_ops (outstanding_op limit) o' ops).
    destruct IH as (-> & ? & ?). done. }
  specialize (H (alod_new interval warn limit) (mkOutstanding 0 [])).
  destruct (run_ops alod_op _ ops), (run_ops (outstanding_op limit) _ ops).
  destruct H as (-> & (_ & _ & Hs & _ & Hm) & Hl); [|cbn; lia|cbn; lia|].
  - unfold represents. cbn. split_and!; [done..|constructor|constructor|by rewrite fmap_empty].
  - split_and!; [done| |done]. apply keyed_size; [|done]. by eapply StronglySorted_fmap, Hs.
Qed.

End refinement.

(** Two messages, one confirmed: the other is redelivered. *)
Lemma alod_refines_witness :
  let ops := [Deliver "a" 10; Deliver "b" 20; Deliver "c" 30; Confirm 1; Redeliver] in
  let '(answers, s) := run_ops alod_op (alod_new 1000 5 2) ops in
  answers = [Delivered (Some 1%N); Delivered (Some 2%N); Delivered None; Confirmed true;
             Redelivered [mkUnconfirmed 2 "b" 20]].
Proof.
  intros ops. pose proof (alod_refines 1000 5 2 ops ltac:(vm_compute; reflexivity)) as H.
  change (run_ops (outstanding_op 2) (mkOutstanding 0 []) ops) with
    ([Delivered (Some 1%N); Delivered (Some 2%N); Delivered None; Confirmed true;
      Redelivered [mkUnconfirmed 2 "b" 20]], mkOutstanding 2 [mkUnconfirmed 2 "b" 20]) in H.
  destruct (run_ops alod_op (alod_new 1000 5 2) ops) as [answers s]. destruct H as (Ha & _). exact Ha.
Defined.
