(* ===== verification/Determinism.v ===== *)
(** * Record and replay

    determinism.rs of atomr-persistence: the seeded generator that can be saved and restored, the
    provenance tags of journal entries and the replay of a recorded run.  The generator of
    [rand_chacha] is a class with the laws the code relies on. *)

From stdpp Require Import gmap strings list.
From Stdlib Require Import NArith Lia.
From S2P Require Import Prelude Journal Eventsourced.

(** [ChaCha20Rng]. *)
Class ChaCha (R Seed : Type) := {
  rng_from_seed : Seed → R;
  rng_seed_from_u64 : N → R;
  rng_get_seed : R → Seed;
  rng_get_stream : R → N;
  rng_get_word_pos : R → N;
  rng_set_stream : R → N → R;
  rng_set_word_pos : R → N → R;
  rng_next_u64 : R → N * R }.

(** Its documentation: the seed, the stream and the position are the whole state, a draw and the
    setters change only what they name, and a new generator is at stream zero, position zero. *)
Class ChaChaLaws (R Seed : Type) `{ChaCha R Seed} := {
  rng_ext r1 r2 : rng_get_seed r1 = rng_get_seed r2 → rng_get_stream r1 = rng_get_stream r2 →
    rng_get_word_pos r1 = rng_get_word_pos r2 → r1 = r2;
  from_seed_seed s : rng_get_seed (rng_from_seed s) = s;
  from_seed_pos s : rng_get_word_pos (rng_from_seed s) = 0%N;
  from_seed_stream s : rng_get_stream (rng_from_seed s) = 0%N;
  seed_from_u64_stream n : rng_get_stream (rng_seed_from_u64 n) = 0%N;
  set_stream_seed r n : rng_get_seed (rng_set_stream r n) = rng_get_seed r;
  set_stream_stream r n : rng_get_stream (rng_set_stream r n) = n;
  set_word_pos_seed r n : rng_get_seed (rng_set_word_pos r n) = rng_get_seed r;
  set_word_pos_stream r n : rng_get_stream (rng_set_word_pos r n) = rng_get_stream r;
  set_word_pos_pos r n : rng_get_word_pos (rng_set_word_pos r n) = n;
  next_seed r : rng_get_seed (rng_next_u64 r).2 = rng_get_seed r;
  next_stream r : rng_get_stream (rng_next_u64 r).2 = rng_get_stream r }.

Module Rng.
Section rng.
Context {R Seed : Type} `{ChaCha R Seed}.

Record RngState := mkRngState { seed : Seed; stream : N; word_pos : N }.

Record SeededRng := mkSeeded { rng : R; sstream : N; split_counter : N }.

Definition from_seed (seed : N) : SeededRng := mkSeeded (rng_seed_from_u64 seed) 0 0.

Definition next_u64 (g : SeededRng) : N * SeededRng :=
  let '(v, r) := rng_next_u64 (rng g) in (v, mkSeeded r (sstream g) (split_counter g)).

Definition snapshot (g : SeededRng) : RngState :=
  mkRngState (rng_get_seed (rng g)) (sstream g) (rng_get_word_pos (rng g)).

Definition restore (st : RngState) : SeededRng :=
  let r := rng_from_seed (seed st) in
  let r := rng_set_stream r (stream st) in
  let r := rng_set_word_pos r (word_pos st) in
  mkSeeded r (stream st) 0.

Definition golden : N := 0x9E3779B97F4A7C15.

(** The child, and the parent with its counter advanced. *)
Definition split (g : SeededRng) : SeededRng * SeededRng :=
  let counter := u64_add (split_counter g) 1 in
  let child_stream := u64_add (wrap64 (sstream g * golden)) counter in
  let r := rng_set_stream (rng_from_seed (rng_get_seed (rng g))) child_stream in
  (mkSeeded r child_stream 0, mkSeeded (rng g) (sstream g) counter).

(** [n] draws. *)
Fixpoint draws (n : nat) (g : SeededRng) : list N :=
  match n with
  | O => []
  | S n' => let '(v, g') := next_u64 g in v :: draws n' g'
  end.

(** [n] splits in a row. *)
Fixpoint splits (n : nat) (g : SeededRng) : list SeededRng * SeededRng :=
  match n with
  | O => ([], g)
  | S n' => let '(c, g') := split g in let '(cs, g'') := splits n' g' in (c :: cs, g'')
  end.

End rng.
Arguments RngState : clear implicits.
Arguments SeededRng : clear implicits.
End Rng.

Module Replay.

Inductive EntryKind := ExternalCommand | DerivedEvent.

Definition TAG_EXTERNAL : string := "kind:external".
Definition TAG_DERIVED : string := "kind:derived".

Definition tag (k : EntryKind) : string :=
  match k with ExternalCommand => TAG_EXTERNAL | DerivedEvent => TAG_DERIVED end.

Fixpoint from_tags (ts : list string) : option EntryKind :=
  match ts with
  | [] => None
  | t :: ts' =>
      if String.eqb t TAG_EXTERNAL then Some ExternalCommand
      else if String.eqb t TAG_DERIVED then Some DerivedEvent
      else from_tags ts'
  end.

Definition with_kind (r : PersistentRepr) (k : EntryKind) : PersistentRepr :=
  mkPersistentRepr (persistence_id r) (sequence_nr r) (payload r) (manifest r) (writer_uuid r) (deleted r)
    (tags r ++ [tag k]).

Record ReplayReport := mkReport { revents : N; matched : bool }.

Section replay.
Context {A Command Event State Error : Type} `{Eventsourced A Command Event State Error}.
Context (decode : Bytes → option Event) (re_encode : Event → Bytes).

(** One entry of the recording. *)
Definition replay_entry (s : State * ReplayReport) (repr : PersistentRepr) : State * ReplayReport :=
  let '(state, r) := s in
  let count := u64_add (revents r) 1 in
  match decode (payload repr) with
  | None => (state, mkReport count false)
  | Some event =>
      match from_tags (tags repr) with
      | Some ExternalCommand => (apply_event state event, mkReport count (matched r))
      | _ =>
          let re := re_encode event in
          (apply_event state event, mkReport count (matched r && bool_decide (re = payload repr)))
      end
  end.

Definition replay (state : State) (recorded : list PersistentRepr) : State * ReplayReport :=
  foldl replay_entry (state, mkReport 0 true) recorded.

End replay.
End Replay.

Module RngFacts.
Import Rng.
Section facts.
Context {R Seed : Type} `{ChaChaLaws R Seed}.

(** The generators a program can have. *)
Inductive reachable : SeededRng R → Prop :=
  | Reachable_seed n : reachable (from_seed n)
  | Reachable_draw g : reachable g → reachable (next_u64 g).2
  | Reachable_child g : reachable g → reachable (split g).1
  | Reachable_parent g : reachable g → reachable (split g).2
  | Reachable_restore g : reachable g → reachable (restore (snapshot g)).

(** The stream the generator remembers is the one it draws from. *)
Lemma reachable_stream g : reachable g → sstream g = rng_get_stream (rng g).
Proof.
  induction 1 as [n|g _ IH|g _ IH|g _ IH|g _ IH]; cbn.
  - by rewrite seed_from_u64_stream.
  - unfold next_u64. pose proof (next_stream (rng g)) as Hs. destruct (rng_next_u64 (rng g)) as [v r].
    cbn in *. congruence.
  - by rewrite set_stream_stream.
  - done.
  - by rewrite set_word_pos_stream, set_stream_stream.
Qed.

(** Only the counter of splits is lost in a snapshot. *)
Lemma restore_snapshot g :
  reachable g → restore (snapshot g) = mkSeeded (rng g) (sstream g) 0.
Proof.
  intros Hg. unfold restore, snapshot. cbn. f_equal. apply rng_ext.
  - by rewrite set_word_pos_seed, set_stream_seed, from_seed_seed.
  - by rewrite set_word_pos_stream, set_stream_stream, reachable_stream.
  - by rewrite set_word_pos_pos.
Qed.

Lemma draws_counter n r s c c' : draws n (mkSeeded r s c) = draws n (mkSeeded r s c').
Proof.
  revert r. induction n as [|n IH]; intros r; [done|]. cbn [draws]. unfold next_u64. cbn [rng sstream split_counter].
  destruct (rng_next_u64 r) as [v r']. f_equal. apply IH.
Qed.

(** A restored generator draws what the saved one would have drawn. *)
Lemma restore_draws g n : reachable g → draws n (restore (snapshot g)) = draws n g.
Proof. intros Hg. rewrite restore_snapshot by done. destruct g as [r s c]. apply draws_counter. Qed.

(** A split draws nothing from the parent. *)
Lemma split_parent_draws g n : draws n (split g).2 = draws n g.
Proof. unfold split. cbn. destruct g as [r s c]. apply draws_counter. Qed.

Lemma splits_streams n g :
  (splits n g).1 =
  (λ i, mkSeeded (rng_set_stream (rng_from_seed (rng_get_seed (rng g)))
                    (wrap64 (sstream g * golden + split_counter g + N.of_nat i)))
          (wrap64 (sstream g * golden + split_counter g + N.of_nat i)) 0) <$> seq 1 n.
Proof.
  assert (∀ a b i, u64_add (wrap64 a) (u64_add b i) = wrap64 (a + b + i)) as Hadd.
  { intros a b i. unfold u64_add. rewrite wrap64_add_l. unfold wrap64. by rewrite N.Div0.add_mod_idemp_r, N.add_assoc. }
  revert g. induction n as [|n IH]; intros g; [done|]. cbn [splits].
  unfold split at 1. rewrite Hadd. specialize (IH (split g).2). unfold split in IH. cbn [fst snd] in IH.
  destruct (splits n _) as [cs g'']. cbn [fst] in *. rewrite IH. cbn [seq]. rewrite fmap_cons.
  f_equal. rewrite <- (fmap_S_seq 1 n), <- list_fmap_compose. apply list_fmap_ext. intros _ i _.
  unfold compose. cbn [rng sstream split_counter].
  assert (wrap64 (sstream g * golden + u64_add (split_counter g) 1 + N.of_nat i) =
          wrap64 (sstream g * golden + split_counter g + N.of_nat (S i))) as ->; [|done].
  unfold u64_add, wrap64. rewrite <- N.add_assoc, (N.add_comm ((_ + 1) mod _)), N.add_assoc.
  rewrite N.Div0.add_mod_idemp_r. f_equal. lia.
Qed.

(** The children of one parent draw from different streams. *)
Lemma split_distinct n g :
  (N.of_nat n < u64_modulus)%N → NoDup ((λ c, rng_get_stream (rng c)) <$> (splits n g).1).
Proof.
  intros Hn. rewrite splits_streams, <- list_fmap_compose. apply NoDup_fmap_2_strong; [|apply NoDup_seq].
  intros i j Hi Hj. cbn. rewrite !set_stream_stream. rewrite elem_of_seq in Hi, Hj. unfold wrap64. intros Heq.
  set (a := (sstream g * golden + split_counter g)%N) in *.
  assert (∀ x y, (x ≤ y)%N → (y - x < u64_modulus)%N → ((a + x) mod u64_modulus = (a + y) mod u64_modulus)%N → x = y) as Hinj.
  { intros x y Hle Hlt Hm. replace (a + y)%N with ((a + x) + (y - x))%N in Hm by lia.
    pose proof (N.Div0.div_mod (a + x) u64_modulus) as H1.
    pose proof (N.Div0.div_mod (a + x + (y - x)) u64_modulus) as H2. rewrite <- Hm in H2.
    generalize dependent u64_modulus. intros M Hn Heq Hlt Hm H1 H2.
    set (q1 := ((a + x) / M)%N) in *. set (q2 := ((a + x + (y - x)) / M)%N) in *.
    set (r := ((a + x) mod M)%N) in *. clearbody q1 q2 r.
    destruct (N.lt_trichotomy q1 q2) as [Hq|[Hq|Hq]]; [|subst; lia|].
    - assert (M * q1 + M ≤ M * q2)%N by nia. lia.
    - assert (M * q2 + M ≤ M * q1)%N by nia. lia. }
  destruct (decide (i ≤ j)) as [Hij|Hij].
  - apply Nat2N.inj, Hinj; [lia|lia|done].
  - symmetry. apply Nat2N.inj, Hinj; [lia|lia|done].
Qed.

(** A snapshot does not hold the number of splits: after a restore, the next child is the first
    child again. *)
Lemma split_repeats n :
  let g := from_seed n in
  (split (restore (snapshot (split g).2))).1 = (split g).1.
Proof.
  cbn zeta. rewrite restore_snapshot by (apply Reachable_parent, Reachable_seed). done.
Qed.

End facts.
End RngFacts.

Module ReplayFacts.
Import Replay.
Section facts.
Context {A Command Event State Error : Type} `{Eventsourced A Command Event State Error}.
Context (decode : Bytes → option Event) (re_encode : Event → Bytes).

Lemma from_tags_with_kind r k : from_tags (tags r) = None → from_tags (tags (with_kind r k)) = Some k.
Proof.
  cbn. induction (tags r) as [|t ts IH]; cbn; [by destruct k|].
  destruct (String.eqb t TAG_EXTERNAL); [done|]. by destruct (String.eqb t TAG_DERIVED).
Qed.

(** An entry is as it should be: it decodes, and unless it is an external input the event encodes
    back to the payload. *)
Definition entry_ok (r : PersistentRepr) : bool :=
  match decode (payload r) with
  | None => false
  | Some e => match from_tags (tags r) with
              | Some ExternalCommand => true
              | _ => bool_decide (re_encode e = payload r)
              end
  end.

(** [ReplayHarness::replay]: the state is that of the events of the entries that decode, in order,
    and the report says how many entries there were and whether all were as they should be. *)
Lemma replay_spec (state : State) recorded :
  replay decode re_encode state recorded =
  (foldl apply_event state (omap (λ r, decode (payload r)) recorded),
   mkReport (wrap64 (N.of_nat (length recorded))) (forallb entry_ok recorded)).
Proof.
  unfold replay. induction recorded as [|x l IH] using rev_ind; [done|].
  rewrite foldl_app, IH, omap_app, foldl_app, forallb_app, length_app. cbn [foldl length forallb].
  assert (u64_add (wrap64 (N.of_nat (length l))) 1 = wrap64 (N.of_nat (length l + 1))) as Hn.
  { unfold u64_add. rewrite wrap64_add_l. f_equal. lia. }
  unfold replay_entry. cbn [revents matched]. rewrite Hn.
  assert (entry_ok x && true = entry_ok x) as -> by apply andb_true_r.
  cbn [omap list_omap]. change (entry_ok x) with
    (match decode (payload x) with
     | None => false
     | Some e => match from_tags (tags x) with
                 | Some ExternalCommand => true
                 | _ => bool_decide (re_encode e = payload x)
                 end
     end).
  destruct (decode (payload x)) as [e|]; cbn [foldl]; [|by rewrite andb_false_r].
  destruct (from_tags (tags x)) as [[]|]; by rewrite ?andb_true_r.
Qed.

(** A recording whose payloads were made by the codec always matches, whatever its events are: the
    derived events are not derived again. *)
Lemma replay_never_recomputes (state : State) (entries : list (PersistentRepr * Event)) :
  (∀ e, decode (re_encode e) = Some e) →
  Forall (λ p, payload p.1 = re_encode p.2) entries →
  replay decode re_encode state entries.*1 =
  (foldl apply_event state entries.*2, mkReport (wrap64 (N.of_nat (length entries))) true).
Proof.
  intros Hcodec Hall. rewrite replay_spec, length_fmap.
  assert (omap (λ r, decode (payload r)) entries.*1 = entries.*2 ∧ forallb entry_ok entries.*1 = true) as [-> ->]; [|done].
  induction Hall as [|[r e] l Hr Hl [IH1 IH2]]; [done|]. cbn in Hr |- *.
  assert (decode (payload r) = Some e) as Hd by (by rewrite Hr). split.
  - rewrite Hd. f_equal. exact IH1.
  - unfold entry_ok at 1. rewrite Hd, Hr, bool_decide_eq_true_2 by done.
    destruct (from_tags (tags r)) as [[]|]; exact IH2.
Qed.

End facts.
End ReplayFacts.

(** A generator with the laws of the class: its state is the seed, the stream and the position. *)
#[export] Instance counter_rng : ChaCha (N * N * N) N := {
  rng_from_seed s := (s, 0, 0)%N;
  rng_seed_from_u64 s := (s, 0, 0)%N;
  rng_get_seed r := r.1.1;
  rng_get_stream r := r.1.2;
  rng_get_word_pos r := r.2;
  rng_set_stream r n := (r.1.1, n, r.2);
  rng_set_word_pos r n := (r.1.1, r.1.2, n);
  rng_next_u64 r := (wrap64 (r.1.1 + r.1.2 * 31 + r.2 * 7), (r.1.1, r.1.2, r.2 + 2))%N }.

#[export] Instance counter_rng_laws : ChaChaLaws (N * N * N) N.
Proof. split; try done. intros [[? ?] ?] [[? ?] ?]. cbn. congruence. Qed.

(** The original run and its replay from the snapshot part at the second child. *)
Example split_replay_differs :
  let g := Rng.from_seed (R := N * N * N) 5 in
  let g1 := (Rng.split g).2 in
  Rng.draws 2 (Rng.restore (Rng.snapshot g1)) = Rng.draws 2 g1 ∧
  Rng.draws 2 (Rng.split (Rng.restore (Rng.snapshot g1))).1 ≠ Rng.draws 2 (Rng.split g1).1.
Proof. split; [reflexivity|]. vm_compute. discriminate. Qed.
