(* ===== verification/Scheduler.v ===== *)
(** * Timers and clocks

    The hashed wheel timer of atomr-core (scheduler/hashed_wheel.rs) and the logical clock of
    time.rs.  A callback is a label that
    is emitted when it runs.  Scheduling and ticking are two steps each, since the cursor is read
    or moved under one lock and the slots are changed under another, and the steps of several
    callers and of the ticker come in any order.  The specification of the
    wheel is a list of callbacks with the number of ticks that each has to wait. *)

From stdpp Require Import gmap strings list sorting.
From Stdlib Require Import NArith Lia.
From S2P Require Import Prelude.

(** ** The logical clock *)

Module Clock.

Definition LogicalTime : Type := N.
Definition ZERO : LogicalTime := 0%N.
Definition from_nanos (nanos : N) : LogicalTime := nanos.
Definition from_millis (millis : N) : LogicalTime := u64_sat_mul millis 1000000.
Definition as_nanos (t : LogicalTime) : N := t.

(** [ManualClock]: the watermark. *)
Definition ManualClock : Type := N.
Definition clock_new : ManualClock := 0%N.
Definition clock_at (start : LogicalTime) : ManualClock := start.
Definition advance_to (c : ManualClock) (target : LogicalTime) : ManualClock := N.max c target.
Definition advance_by (c : ManualClock) (delta : LogicalTime) : ManualClock := u64_add c delta.
Definition watermark (c : ManualClock) : LogicalTime := c.

End Clock.

(** ** The wheel *)

Module Wheel.
Section wheel.
Context {C : Type}.

(** [cancel] is the flag the handle of the entry shares; [cancelled] are the flags that are set. *)
Record Entry := mkEntry { rounds : N; cancel : N; cb : C }.

Record Inner := mkInner {
  tick_ns : N; mask : N; slots : list (list Entry); cursor : N; cancelled : gset N; next_flag : N }.

(** [is_power_of_two]. *)
Definition is_power_of_two (n : N) : bool := (0 <? n)%N && (2 ^ N.log2 n =? n)%N.

(** [None]: the assertion fails. *)
Definition wheel_new (tick ticks_per_wheel : N) : option Inner :=
  if is_power_of_two ticks_per_wheel
  then Some (mkInner tick (ticks_per_wheel - 1) (replicate (N.to_nat ticks_per_wheel) []) 0 ∅ 0)
  else None.

(** [schedule], up to the release of the lock of the cursor: the slot and the rounds. *)
Definition schedule_position (w : Inner) (delay : N) : N * N :=
  let ticks := wrap64 (delay / N.max (tick_ns w) 1) in
  let slots_len := (mask w + 1)%N in
  let rounds := (ticks / slots_len)%N in
  let offset := (ticks mod slots_len)%N in
  (N.land (u64_add (cursor w) offset) (mask w), rounds).

(** [schedule], under the lock of the slots. *)
Definition schedule_insert (w : Inner) (idx rounds flag : N) (cb : C) : Inner :=
  mkInner (tick_ns w) (mask w) (alter (λ items, items ++ [mkEntry rounds flag cb]) (N.to_nat idx) (slots w))
    (cursor w) (cancelled w) (next_flag w).

Definition cancel_handle (w : Inner) (flag : N) : Inner :=
  mkInner (tick_ns w) (mask w) (slots w) (cursor w) ({[flag]} ∪ cancelled w) (next_flag w).

(** The loop of [tick] over the slot: the callbacks that are due, and the entries that stay. *)
Fixpoint drain (gone : gset N) (items : list Entry) : list C * list Entry :=
  match items with
  | [] => ([], [])
  | e :: items' =>
      let '(due, kept) := drain gone items' in
      if decide (cancel e ∈ gone) then (due, kept)
      else if (rounds e =? 0)%N then (cb e :: due, kept)
      else (due, mkEntry (rounds e - 1) (cancel e) (cb e) :: kept)
  end.

(** [tick], up to the release of the lock of the cursor: the slot that it will drain. *)
Definition tick_begin (w : Inner) : N * Inner :=
  (N.land (cursor w) (mask w),
   mkInner (tick_ns w) (mask w) (slots w) (u64_add (cursor w) 1) (cancelled w) (next_flag w)).

(** [tick], under the lock of the slots, and the callbacks that it then runs. *)
Definition tick_drain (w : Inner) (idx : N) : list C * Inner :=
  let '(due, kept) := drain (cancelled w) (default [] (slots w !! N.to_nat idx)) in
  (due, mkInner (tick_ns w) (mask w) (<[N.to_nat idx := kept]> (slots w)) (cursor w) (cancelled w)
          (next_flag w)).

(** The wheel, the ticker between its two locks, and the calls of [schedule_once] between theirs,
    each with its flag and its callback. *)
Record System := mkSystem { wheel : Inner; ticking : option N; calls : list (N * N * N * C) }.

(** The critical sections of the callers and of the ticker, in any order, and what is seen of them:
    the handle of a call that returns, and the callbacks that run. *)
Inductive Op :=
  | ScheduleRead (delay : N) (cb : C)
  | ScheduleInsert (call : nat)
  | Cancel (flag : N)
  | TickBegin
  | TickDrain.
Inductive Seen := Handle (flag : N) | Ran (cbs : list C) | Nothing.

Definition fresh_flag (w : Inner) : N * Inner :=
  (next_flag w, mkInner (tick_ns w) (mask w) (slots w) (cursor w) (cancelled w) (next_flag w + 1)).

Definition wheel_op (s : System) (op : Op) : Seen * System :=
  match op with
  | ScheduleRead delay cb =>
      let '(flag, w) := fresh_flag (wheel s) in
      let '(idx, rounds) := schedule_position w delay in
      (Nothing, mkSystem w (ticking s) (calls s ++ [(idx, rounds, flag, cb)]))
  | ScheduleInsert call =>
      match calls s !! call with
      | Some (idx, rounds, flag, cb) =>
          (Handle flag, mkSystem (schedule_insert (wheel s) idx rounds flag cb) (ticking s) (delete call (calls s)))
      | None => (Nothing, s)
      end
  | Cancel flag => (Nothing, mkSystem (cancel_handle (wheel s) flag) (ticking s) (calls s))
  | TickBegin =>
      match ticking s with
      | None => let '(idx, w) := tick_begin (wheel s) in (Nothing, mkSystem w (Some idx) (calls s))
      | Some _ => (Nothing, s)
      end
  | TickDrain =>
      match ticking s with
      | Some idx => let '(due, w) := tick_drain (wheel s) idx in (Ran due, mkSystem w None (calls s))
      | None => (Nothing, s)
      end
  end.

(** [schedule_once] and [tick], when nothing comes in between. *)
Definition schedule_once (delay : N) (cb : C) : list Op := [ScheduleRead delay cb; ScheduleInsert 0].
Definition tick : list Op := [TickBegin; TickDrain].

(** ** Specification: each callback with the ticks it has to wait *)

(** [begun] and [done] count the ticks that have moved the cursor and those that have drained their
    slot; a call that has read the cursor keeps its whole ticks and the ticks begun until then. *)
Record Timers := mkTimers {
  waiting : list (N * N * C); stopped : gset N; issued : N; begun : N; done_ : N; readers : list (N * N * N * C) }.

(** Whole ticks of a delay. *)
Definition ticks_of (tick delay : N) : N := wrap64 (delay / N.max tick 1).

(** The drains that a timer of [x] ticks waits for on a wheel of [n] slots, when its call read the
    cursor after [b] ticks and inserts after [d] drains. *)
Definition remaining (n x b d : N) : N := (x / n * n + ((b + x) mod n + (n - d mod n)) mod n)%N.

Definition drain_timers (s : Timers) : Timers :=
  mkTimers ((λ t, (t.1.1 - 1, t.1.2, t.2)%N) <$> filter (λ t, t.1.1 ≠ 0%N) (waiting s)) (stopped s) (issued s)
    (begun s) (done_ s + 1) (readers s).
Definition due_timers (s : Timers) : list C := snd <$> filter (λ t, t.1.1 = 0%N ∧ t.1.2 ∉ stopped s) (waiting s).

Definition timers_op (tick n : N) (s : Timers) (op : Op) : Seen * Timers :=
  match op with
  | ScheduleRead delay cb =>
      (Nothing, mkTimers (waiting s) (stopped s) (issued s + 1) (begun s) (done_ s)
                  (readers s ++ [(ticks_of tick delay, begun s, issued s, cb)]))
  | ScheduleInsert call =>
      match readers s !! call with
      | Some (x, b, flag, cb) =>
          (Handle flag, mkTimers (waiting s ++ [(remaining n x b (done_ s), flag, cb)]) (stopped s) (issued s)
                          (begun s) (done_ s) (delete call (readers s)))
      | None => (Nothing, s)
      end
  | Cancel flag => (Nothing, mkTimers (waiting s) ({[flag]} ∪ stopped s) (issued s) (begun s) (done_ s) (readers s))
  | TickBegin =>
      if decide (begun s = done_ s)
      then (Nothing, mkTimers (waiting s) (stopped s) (issued s) (begun s + 1) (done_ s) (readers s))
      else (Nothing, s)
  | TickDrain =>
      if decide (begun s = done_ s) then (Nothing, s) else (Ran (due_timers s), drain_timers s)
  end.

Fixpoint run_ops {S} (step : S → Op → Seen * S) (s : S) (ops : list Op) : list Seen :=
  match ops with
  | [] => []
  | op :: ops' => let '(o, s') := step s op in o :: run_ops step s' ops'
  end.

End wheel.
Arguments Entry : clear implicits.
Arguments Inner : clear implicits.
Arguments System : clear implicits.
Arguments Timers : clear implicits.
Arguments Op : clear implicits.
Arguments Seen : clear implicits.
End Wheel.

Module ClockFacts.
Import Clock.

(** [advance_to] never moves the watermark back, and reaches its target. *)
Lemma advance_to_monotone c t : (c ≤ advance_to c t)%N ∧ (t ≤ advance_to c t)%N ∧ advance_to (advance_to c t) t = advance_to c t.
Proof. unfold advance_to. lia. Qed.

Lemma advance_by_monotone c d : (c + d < u64_modulus)%N → (c ≤ advance_by c d)%N.
Proof. intros H. unfold advance_by. rewrite u64_add_small by done. lia. Qed.

End ClockFacts.

(** [advance_by] wraps around: the watermark moves back. *)
Example advance_by_regresses : (Clock.advance_by (Clock.clock_at u64_max) 1 < u64_max)%N.
Proof. vm_compute. reflexivity. Qed.

Module WheelFacts.
Import Wheel.

(** ** Positions on the wheel *)
Section positions.
Context (k : N).
Local Abbreviation n := (2 ^ k)%N.

Lemma wheel_pos : (0 < n)%N.
Proof. apply N.neq_0_lt_0, N.pow_nonzero. done. Qed.

Lemma land_mask x : N.land x (n - 1) = (x mod n)%N.
Proof. rewrite <- N.land_ones. f_equal. rewrite N.ones_equiv. lia. Qed.

Lemma add_mod_same c x y : ((c + x) mod n = (c + y) mod n → x mod n = y mod n)%N.
Proof.
  intros H. pose proof wheel_pos as Hn. revert H. generalize n Hn. intros m Hm H.
  assert (∀ z, ((c + z) + (m - c mod m)) mod m = z mod m)%N as Hz.
  { intros z. rewrite (N.Div0.div_mod c m) at 1.
    replace (m * (c / m) + c mod m + z + (m - c mod m))%N with (z + (c / m + 1) * m)%N.
    - apply N.Div0.mod_add.
    - pose proof (N.mod_lt c m ltac:(lia)). nia. }
  rewrite <- (Hz x), <- (Hz y), <- (N.Div0.add_mod_idemp_l (c + x)), H. apply N.Div0.add_mod_idemp_l.
Qed.

Lemma next_turn_here x : x ≠ 0%N → (x mod n = 0 → (x - 1) / n = x / n - 1 ∧ x / n ≠ 0)%N.
Proof.
  intros Hx Hm. pose proof wheel_pos as Hn. revert Hm. generalize n Hn. intros m Hpos Hm.
  pose proof (N.Div0.div_mod x m) as Hd. rewrite Hm in Hd.
  assert (x / m ≠ 0)%N as Hq by (intros E; rewrite E in Hd; lia). split; [|done].
  symmetry. apply (N.div_unique _ _ _ (m - 1)); nia.
Qed.

Lemma next_turn_there x : (x mod n ≠ 0 → (x - 1) / n = x / n)%N.
Proof.
  pose proof wheel_pos as Hn. generalize n Hn. intros m Hpos Hm.
  pose proof (N.Div0.div_mod x m) as Hd. pose proof (N.mod_lt x m ltac:(lia)) as Hlt.
  symmetry. apply (N.div_unique _ _ _ (x mod m - 1)); revert Hm Hd Hlt;
    generalize (x / m)%N (x mod m)%N; intros q r Hr Hd Hlt; [lia|]. rewrite Hd. lia.
Qed.

Lemma due_now x : (x mod n = 0 → x / n = 0 → x = 0)%N.
Proof. intros Hm Hq. rewrite (N.Div0.div_mod x n), Hm, Hq. lia. Qed.

Hypothesis k_small : (k ≤ 64)%N.

Lemma wrap_mod x : (wrap64 x mod n = x mod n)%N.
Proof.
  unfold wrap64, u64_modulus. replace 64%N with (k + (64 - k))%N by lia. rewrite N.pow_add_r.
  rewrite N.Div0.mod_mul_r. rewrite (N.mul_comm (2 ^ k)), N.Div0.mod_add. apply N.Div0.mod_mod.
Qed.

End positions.

(** ** Refinement *)
Section refinement.
Context {C : Type} (k : N).
Local Abbreviation n := (2 ^ k)%N.
Implicit Types (e : Entry C) (t : N * N * C).

Definition live (gone : gset N) (items : list (Entry C)) : list (Entry C) := filter (λ e, cancel e ∉ gone) items.

(** The entry of a timer, and the timers of a slot. *)
Definition entry_of t : Entry C := mkEntry (t.1.1 / n) t.1.2 t.2.
Definition in_slot (cur i : N) t : Prop := ((cur + t.1.1) mod n = i)%N.
Global Instance in_slot_dec cur i t : Decision (in_slot cur i t).
Proof. unfold in_slot. apply _. Defined.

(** The slots hold the waiting timers, at the distance that is left to the next slot drained. *)
Definition slots_represent (w : Inner C) (s : Timers C) : Prop :=
  ∀ i items, slots w !! i = Some items →
    live (cancelled w) items = live (cancelled w) (entry_of <$> filter (in_slot (done_ s) (N.of_nat i)) (waiting s)).

(** A call that has read its position. *)
Definition call_of (r : N * N * N * C) : N * N * N * C :=
  (((r.1.1.2 + r.1.1.1) mod n)%N, (r.1.1.1 / n)%N, r.1.2, r.2).

Record wheel_represents (y : System C) (s : Timers C) : Prop := {
  rep_mask : mask (wheel y) = (n - 1)%N;
  rep_length : length (slots (wheel y)) = N.to_nat n;
  rep_cancelled : cancelled (wheel y) = stopped s;
  rep_flag : next_flag (wheel y) = issued s;
  rep_cursor : cursor (wheel y) = wrap64 (begun s);
  rep_ticking :
    match ticking y with
    | Some idx => idx = (done_ s mod n)%N ∧ begun s = (done_ s + 1)%N
    | None => begun s = done_ s
    end;
  rep_calls : calls y = call_of <$> readers s;
  rep_slots : slots_represent (wheel y) s;
}.

Lemma drain_spec gone items :
  drain gone items =
  (cb <$> filter (λ e, rounds e = 0%N) (live gone items),
   (λ e, mkEntry (rounds e - 1) (cancel e) (cb e)) <$> filter (λ e, rounds e ≠ 0%N) (live gone items)).
Proof.
  induction items as [|e items IH]; [done|]. cbn [drain]. rewrite IH. unfold live. rewrite filter_cons.
  destruct (decide (cancel e ∈ gone)) as [Hg|Hg]; [by rewrite decide_False by tauto|].
  rewrite decide_True by done. rewrite !filter_cons.
  destruct (rounds e =? 0)%N eqn:E; bool_to_prop.
  - rewrite decide_True by done. by rewrite decide_False by tauto.
  - rewrite decide_False by done. by rewrite decide_True.
Qed.

Lemma live_app gone l1 l2 : live gone (l1 ++ l2) = live gone l1 ++ live gone l2.
Proof. apply filter_app. Qed.

(** A larger set of flags hides more on both sides. *)
Lemma live_mono gone gone' l1 l2 : gone ⊆ gone' → live gone l1 = live gone l2 → live gone' l1 = live gone' l2.
Proof.
  intros Hsub Heq.
  assert (∀ l, live gone' l = filter (λ e, cancel e ∉ gone') (live gone l)) as Hl.
  { intros l. unfold live. rewrite list_filter_filter. apply list_filter_iff. set_solver. }
  by rewrite (Hl l1), (Hl l2), Heq.
Qed.

Lemma live_entries gone (P : N * N * C → Prop) `{!∀ t, Decision (P t)} l :
  live gone (entry_of <$> filter P l) = entry_of <$> filter (λ t, P t ∧ t.1.2 ∉ gone) l.
Proof.
  unfold live. induction l as [|t l IH]; [done|]. rewrite !filter_cons.
  destruct (decide (P t)) as [HP|HP].
  - rewrite fmap_cons, filter_cons. destruct (decide (t.1.2 ∉ gone)) as [Hg|Hg].
    + rewrite decide_True by done. rewrite decide_True by done. by rewrite IH.
    + rewrite decide_False by done. rewrite decide_False by tauto. done.
  - rewrite decide_False by tauto. done.
Qed.

(** A tick at the slot it visits: the timers that run and those that stay. *)
Lemma tick_here cur gone (l : list (N * N * C)) :
  let here := live gone (entry_of <$> filter (in_slot cur (cur mod n)) l) in
  cb <$> filter (λ e, rounds e = 0%N) here = snd <$> filter (λ t, t.1.1 = 0%N ∧ t.1.2 ∉ gone) l ∧
  (λ e, mkEntry (rounds e - 1) (cancel e) (cb e)) <$> filter (λ e, rounds e ≠ 0%N) here =
  live gone (entry_of <$> filter (in_slot (cur + 1) (cur mod n))
                            ((λ t, (t.1.1 - 1, t.1.2, t.2)%N) <$> filter (λ t, t.1.1 ≠ 0%N) l)).
Proof.
  cbn zeta. rewrite live_entries. induction l as [|[[x f] c] l [IH1 IH2]]; [done|].
  rewrite !filter_cons. cbn [fst snd].
  assert (in_slot cur (cur mod n) (x, f, c) ↔ (x mod n = 0)%N) as Hin.
  { unfold in_slot. cbn. rewrite <- (N.add_0_r cur) at 2. split.
    - intros H%add_mod_same. by rewrite H, N.Div0.mod_0_l.
    - intros H. by rewrite <- N.Div0.add_mod_idemp_r, H, N.add_0_r. }
  destruct (decide (x = 0%N)) as [->|Hx].
  - assert (in_slot cur (cur mod n) (0%N, f, c)) as Hs by (apply Hin, N.Div0.mod_0_l).
    rewrite (decide_False (P := 0%N ≠ 0%N)) by tauto.
    destruct (decide (f ∉ gone)) as [Hg|Hg].
    + rewrite !decide_True by done. rewrite !fmap_cons, !filter_cons. cbn [rounds entry_of fst snd].
      rewrite N.Div0.div_0_l. rewrite decide_True, decide_False by tauto. rewrite fmap_cons. cbn [cb].
      split; [by rewrite IH1|done].
    + rewrite !decide_False by tauto. done.
  - rewrite (decide_False (P := x = 0%N ∧ _)) by tauto. rewrite (decide_True (P := x ≠ 0%N)) by done.
    rewrite fmap_cons, filter_cons. cbn [fst snd].
    assert (in_slot (cur + 1) (cur mod n) ((x - 1)%N, f, c) ↔ (x mod n = 0)%N) as Hin'.
    { rewrite <- Hin. unfold in_slot. cbn. by replace (cur + 1 + (x - 1))%N with (cur + x)%N by lia. }
    destruct (decide (x mod n = 0)%N) as [Hm|Hm].
    + destruct (next_turn_here k x Hx Hm) as [Hq Hnz].
      rewrite (decide_True (P := in_slot (cur + 1) _ _)) by (by apply Hin'). rewrite fmap_cons.
      unfold live in IH2 |- *. rewrite filter_cons. cbn [cancel entry_of fst snd].
      destruct (decide (f ∉ gone)) as [Hg|Hg].
      * rewrite (decide_True (P := _ ∧ _)) by (split; [by apply Hin|done]).
        rewrite fmap_cons, !filter_cons. cbn [rounds entry_of fst snd].
        rewrite decide_False, decide_True by done. rewrite fmap_cons. cbn [rounds cancel cb].
        rewrite IH1, IH2. split; [done|]. f_equal. unfold entry_of. cbn [fst snd]. by rewrite Hq.
      * rewrite (decide_False (P := _ ∧ _)) by tauto. done.
    + rewrite (decide_False (P := in_slot (cur + 1) _ _)) by (by rewrite Hin').
      rewrite (decide_False (P := _ ∧ _)) by (rewrite Hin; tauto). done.
Qed.

(** The other slots keep their entries. *)
Lemma tick_there cur i (l : list (N * N * C)) :
  i ≠ (cur mod n)%N →
  entry_of <$> filter (in_slot (cur + 1) i) ((λ t, (t.1.1 - 1, t.1.2, t.2)%N) <$> filter (λ t, t.1.1 ≠ 0%N) l) =
  entry_of <$> filter (in_slot cur i) l.
Proof.
  intros Hi. induction l as [|[[x f] c] l IH]; [done|]. rewrite !filter_cons. cbn [fst snd].
  destruct (decide (x = 0%N)) as [->|Hx].
  - rewrite decide_False by tauto. rewrite decide_False; [done|].
    unfold in_slot. cbn. rewrite N.add_0_r. congruence.
  - rewrite decide_True by done. rewrite fmap_cons, filter_cons. cbn [fst snd].
    assert (in_slot (cur + 1) i ((x - 1)%N, f, c) ↔ in_slot cur i (x, f, c)) as Hiff.
    { unfold in_slot. cbn. by replace (cur + 1 + (x - 1))%N with (cur + x)%N by lia. }
    destruct (decide (in_slot cur i (x, f, c))) as [Hs|Hs].
    + rewrite decide_True by (by apply Hiff). rewrite !fmap_cons, IH. f_equal.
      unfold entry_of. cbn. f_equal. apply next_turn_there. intros Hm. apply Hi. unfold in_slot in Hs. cbn in Hs.
      by rewrite <- Hs, <- N.Div0.add_mod_idemp_r, Hm, N.add_0_r.
    + rewrite decide_False by (by rewrite Hiff). done.
Qed.

(** Where an entry is put, and how often the cursor passes it. *)
Lemma remaining_slot x b d : ((d + remaining n x b d) mod n = (b + x) mod n)%N.
Proof.
  unfold remaining. pose proof (wheel_pos k) as Hn. generalize (2 ^ k)%N Hn. intros m Hm.
  rewrite (N.add_comm (x / m * m)), (N.add_assoc d), N.Div0.mod_add, N.Div0.add_mod_idemp_r.
  rewrite (N.Div0.div_mod d m) at 1. pose proof (N.mod_lt d m ltac:(lia)).
  replace (m * (d / m) + d mod m + ((b + x) mod m + (m - d mod m)))%N with ((b + x) mod m + (d / m + 1) * m)%N by nia.
  by rewrite N.Div0.mod_add, N.Div0.mod_mod.
Qed.

Lemma remaining_rounds x b d : (remaining n x b d / n = x / n)%N.
Proof.
  unfold remaining. pose proof (wheel_pos k) as Hn. generalize (2 ^ k)%N Hn. intros m Hm.
  rewrite (N.add_comm (x / m * m)), N.div_add by lia.
  rewrite N.div_small; [done|]. apply N.mod_lt. lia.
Qed.

(** A timer is in time when the distance that is left spans as many turns as the whole one. *)
Lemma remaining_in_time x b d :
  (d ≤ b + x → (b + x - d) / n = x / n → remaining n x b d = b + x - d)%N.
Proof.
  intros Hle Hq. pose proof (remaining_slot x b d) as Hs. pose proof (remaining_rounds x b d) as Hr.
  assert ((remaining n x b d) mod n = (b + x - d) mod n)%N as Hm.
  { apply (add_mod_same k d). rewrite Hs. f_equal. lia. }
  rewrite (N.Div0.div_mod (remaining n x b d) n), Hm, Hr, <- Hq. symmetry. apply N.Div0.div_mod.
Qed.

(** One that is passed before it is inserted is a turn late. *)
Lemma remaining_late x b d :
  (b + x mod n < d → d ≤ b + n → remaining n x b d = b + x + n - d)%N.
Proof.
  intros Hd Hle. pose proof (wheel_pos k) as Hn. pose proof (remaining_slot x b d) as Hs.
  pose proof (remaining_rounds x b d) as Hr.
  assert ((remaining n x b d) mod n = (b + x + n - d) mod n)%N as Hm.
  { apply (add_mod_same k d). rewrite Hs. replace (d + (b + x + n - d))%N with (b + x + 1 * n)%N by lia.
    by rewrite N.Div0.mod_add. }
  assert ((b + x + n - d) / n = x / n)%N as Hq.
  { pose proof (N.Div0.div_mod x n) as Hx. pose proof (N.mod_lt x n ltac:(lia)).
    symmetry. apply (N.div_unique _ _ _ (b + x mod n + n - d)); [lia|]. revert Hx Hd Hle.
    generalize (n * (x / n))%N (x mod n)%N. lia. }
  rewrite (N.Div0.div_mod (remaining n x b d) n), Hm, Hr, <- Hq. symmetry. apply N.Div0.div_mod.
Qed.

(** One that is set during a tick. *)
Lemma remaining_during x d :
  remaining n x (d + 1) d = if decide ((x + 1) mod n = 0)%N then (x + 1 - n)%N else (x + 1)%N.
Proof.
  pose proof (wheel_pos k) as Hn. pose proof (remaining_slot x (d + 1) d) as Hs.
  pose proof (remaining_rounds x (d + 1) d) as Hr.
  rewrite <- N.add_assoc, (N.add_comm 1 x) in Hs. apply add_mod_same in Hs.
  rewrite (N.Div0.div_mod (remaining n x (d + 1) d) n), Hs, Hr.
  pose proof (N.Div0.div_mod (x + 1) n) as Hx. destruct (decide _) as [E|E].
  - destruct (next_turn_here k (x + 1) ltac:(lia) E) as [Hq Hz]. replace (x + 1 - 1)%N with x in Hq by lia.
    rewrite E in *. rewrite Hq. revert Hx Hz. generalize (2 ^ k)%N ((x + 1) / 2 ^ k)%N. intros m q -> ?. nia.
  - pose proof (next_turn_there k (x + 1) E) as Hq. replace (x + 1 - 1)%N with x in Hq by lia.
    rewrite Hq. by rewrite <- Hx.
Qed.

Hypothesis k_small : (k ≤ 64)%N.

Lemma position_slot (w : Inner C) delay :
  mask w = (n - 1)%N →
  schedule_position w delay =
  (((cursor w + ticks_of (tick_ns w) delay) mod n)%N, (ticks_of (tick_ns w) delay / n)%N).
Proof.
  intros Hm. unfold schedule_position. fold (ticks_of (tick_ns w) delay). pose proof (wheel_pos k) as Hn.
  rewrite Hm, land_mask. replace (n - 1 + 1)%N with n by lia. f_equal. unfold u64_add.
  by rewrite wrap_mod, N.Div0.add_mod_idemp_r.
Qed.

Lemma read_represents y s delay c :
  wheel_represents y s → wheel_represents (wheel_op y (ScheduleRead delay c)).2 (timers_op (tick_ns (wheel y)) n s (ScheduleRead delay c)).2.
Proof.
  intros [Hm Hlen Hg Hf Hc Ht Hcs Hsl]. cbn -[schedule_position]. rewrite position_slot by done. cbn. split; cbn; try done; [by rewrite Hf|].
  rewrite Hcs, Hc, Hf, fmap_app. cbn. unfold call_of. cbn. do 5 f_equal.
  by rewrite <- N.Div0.add_mod_idemp_l, wrap_mod, N.Div0.add_mod_idemp_l.
Qed.

Lemma insert_represents y s call :
  wheel_represents y s →
  (wheel_op y (ScheduleInsert call)).1 = (timers_op (tick_ns (wheel y)) n s (ScheduleInsert call)).1 ∧
  wheel_represents (wheel_op y (ScheduleInsert call)).2 (timers_op (tick_ns (wheel y)) n s (ScheduleInsert call)).2.
Proof.
  intros [Hm Hlen Hg Hf Hc Ht Hcs Hsl]. cbn. rewrite Hcs, list_lookup_fmap.
  destruct (readers s !! call) as [[[[x b] flag] c]|]; cbn -[remaining]; [|split; [done|by split]].
  split; [done|]. split; cbn -[remaining]; try done; [by rewrite length_alter|..].
  { by rewrite !delete_take_drop, fmap_app, fmap_take, fmap_drop. }
  intros i items. cbn -[remaining live]. rewrite list_lookup_alter. rewrite filter_app, fmap_app, live_app.
  pose proof (remaining_slot x b (done_ s)) as Hrs. destruct (decide (_ = i)) as [<-|Hne].
  - intros (items' & Hi & ->)%fmap_Some. rewrite live_app, (Hsl _ _ Hi). f_equal.
    rewrite filter_cons, decide_True; [|unfold in_slot; cbn -[remaining]; by rewrite N2Nat.id].
    unfold entry_of. cbn -[remaining]. by rewrite remaining_rounds.
  - intros Hi. rewrite (Hsl _ _ Hi). rewrite filter_cons, decide_False; [by rewrite app_nil_r|].
    unfold in_slot. cbn -[remaining]. rewrite Hrs. intros E. apply Hne. apply (f_equal N.to_nat) in E.
    by rewrite Nat2N.id in E.
Qed.

Lemma drain_represents y s :
  wheel_represents y s →
  (wheel_op y TickDrain).1 = (timers_op (tick_ns (wheel y)) n s TickDrain).1 ∧
  wheel_represents (wheel_op y TickDrain).2 (timers_op (tick_ns (wheel y)) n s TickDrain).2.
Proof.
  intros Hrep. pose proof Hrep as [Hm Hlen Hg Hf Hc Ht Hcs Hsl]. cbn -[due_timers drain_timers].
  destruct (ticking y) as [idx|] eqn:Ey; [|by rewrite decide_True]. destruct Ht as [-> Hb]. rewrite decide_False by lia.
  unfold tick_drain. pose proof (wheel_pos k) as Hn. set (idx := N.to_nat (done_ s mod n)).
  assert (idx < length (slots (wheel y))) as Hidx by (pose proof (N.mod_lt (done_ s) n); lia).
  destruct (lookup_lt_is_Some_2 _ _ Hidx) as [items Hi]. rewrite Hi. change (default [] (Some items)) with items.
  rewrite drain_spec. assert (N.of_nat idx = (done_ s mod n)%N) as Hix by apply N2Nat.id. rewrite (Hsl _ _ Hi), Hix.
  destruct (tick_here (done_ s) (cancelled (wheel y)) (waiting s)) as [Hdue Hkept]. cbn zeta in Hdue, Hkept.
  rewrite Hdue, Hkept. unfold due_timers. rewrite Hg. split; [done|]. split; cbn -[live]; try done.
  - by rewrite length_insert.
  - intros i items'. cbn -[live]. intros [[<- [<- _]]|[Hne Hi']]%list_lookup_insert_Some.
    + rewrite Hix. unfold live. rewrite list_filter_filter. apply list_filter_iff. tauto.
    + rewrite <- Hg, (Hsl _ _ Hi'). f_equal. symmetry. apply tick_there.
      intros E. apply Hne. unfold idx. rewrite <- E. lia.
Qed.

Lemma wheel_op_refines y s op :
  wheel_represents y s →
  (wheel_op y op).1 = (timers_op (tick_ns (wheel y)) n s op).1 ∧
  tick_ns (wheel (wheel_op y op).2) = tick_ns (wheel y) ∧
  wheel_represents (wheel_op y op).2 (timers_op (tick_ns (wheel y)) n s op).2.
Proof.
  intros Hr. destruct op as [delay c|call|flag| |].
  - split_and!; [| |by apply read_represents]; done.
  - destruct (insert_represents y s call Hr) as [H1 H2]. split_and!; [done| |done].
    cbn. destruct (calls y !! call) as [[[[? ?] ?] ?]|]; done.
  - destruct Hr as [Hm Hlen Hg Hf Hc Ht Hcs Hsl]. cbn. split_and!; [done..|].
    split; cbn -[live]; try done; [by rewrite Hg|]. intros i items Hi.
    apply (live_mono (cancelled (wheel y))); [set_solver|]. by apply Hsl.
  - destruct Hr as [Hm Hlen Hg Hf Hc Ht Hcs Hsl]. cbn. destruct (ticking y) as [idx|] eqn:Ey.
    + rewrite decide_False by lia. split_and!; [done..|]. split; try done. cbn. by rewrite Ey.
    + rewrite decide_True by done. split_and!; [done..|]. split; cbn; try done.
      * unfold u64_add. rewrite Hc, Ht. by rewrite wrap64_add_l.
      * rewrite Ht. split; [|done]. by rewrite Hm, land_mask, Hc, wrap_mod, Ht.
  - destruct (drain_represents y s Hr) as [H1 H2]. split_and!; [done| |done].
    cbn. destruct (ticking y) as [idx|]; [|done]. unfold tick_drain. by destruct (drain _ _).
Qed.

End refinement.

(** [is_power_of_two] is what it says. *)
Lemma power_of_two m : is_power_of_two m = true → m = (2 ^ N.log2 m)%N.
Proof. intros [_ H%N.eqb_eq]%andb_true_iff. done. Qed.

Lemma same_turn x b d m : (0 < m → b ≤ d → d ≤ b + x mod m → (b + x - d) / m = x / m)%N.
Proof.
  intros Hm Hb Hd. pose proof (N.Div0.div_mod x m) as Hx. pose proof (N.mod_lt x m ltac:(lia)).
  symmetry. apply (N.div_unique _ _ _ (b + x mod m - d)); [lia|]. revert Hx Hd.
  generalize (m * (x / m))%N (x mod m)%N. lia.
Qed.

(** C31: in every interleaving of the critical sections of [schedule_once], of cancellations and of
    ticks, the hashed wheel shows what its specification shows: a call returns its handle, and each
    drain runs, in the order of insertion, the callbacks that have waited for their number of ticks
    and were not cancelled.  A timer of [x] whole ticks whose call read the cursor after [b] ticks is
    due at the drain after [b + x] of them, exactly, when its insertion comes after [d] drains with
    [b <= d <= b + x mod n], in particular when no tick comes in between; a tick that passes its slot
    first makes it wait for another turn of the [n] slots.  One that is set while a tick is between
    its locks counts that drain too, and when it is a tick short of a whole number of turns it is a
    turn early. *)
Theorem wheel_refines {C} tick ticks_per_wheel (w : Inner C) ops :
  (ticks_per_wheel < u64_modulus)%N → wheel_new tick ticks_per_wheel = Some w →
  run_ops wheel_op (mkSystem w None []) ops =
    run_ops (timers_op tick ticks_per_wheel) (mkTimers [] ∅ 0 0 0 []) ops ∧
  (∀ x b d, (b ≤ d)%N → (d ≤ b + x mod ticks_per_wheel)%N → remaining ticks_per_wheel x b d = (b + x - d)%N) ∧
  (∀ x b d, (b + x mod ticks_per_wheel < d)%N → (d ≤ b + ticks_per_wheel)%N →
     remaining ticks_per_wheel x b d = (b + x + ticks_per_wheel - d)%N) ∧
  (∀ x d, remaining ticks_per_wheel x (d + 1) d =
     if decide ((x + 1) mod ticks_per_wheel = 0)%N then (x + 1 - ticks_per_wheel)%N else (x + 1)%N).
Proof.
  unfold wheel_new. intros Hsize Hw. destruct (is_power_of_two ticks_per_wheel) eqn:Hp; [|done].
  apply power_of_two in Hp. set (k := N.log2 ticks_per_wheel) in *.
  assert (k ≤ 64)%N as Hk by (change 64%N with (N.log2 (2 ^ 64)); apply N.log2_le_mono; unfold u64_modulus in Hsize; lia).
  pose proof (wheel_pos k) as Hn. rewrite <- Hp in Hn. split_and!.
  - assert (tick_ns w = tick ∧ wheel_represents k (mkSystem w None []) (mkTimers [] ∅ 0 0 0 [])) as [Ht Hr].
    { injection Hw as <-. rewrite Hp. split; [done|]. split; cbn; try done; [by rewrite length_replicate|].
      by intros i items [-> _]%lookup_replicate. }
    clear Hw Hsize. change w with (wheel (mkSystem w None [])) in Ht. revert Ht Hr.
    generalize (mkSystem w None []) (mkTimers (C := C) [] ∅ 0 0 0 []).
    induction ops as [|op ops IH]; intros y s <- Hr; [done|]. cbn [run_ops].
    destruct (wheel_op_refines k Hk y s op Hr) as (Ho & Ht & Hr'). rewrite <- Hp in Ho, Hr'.
    destruct (wheel_op y op) as [o y'], (timers_op (tick_ns (wheel y)) ticks_per_wheel s op) as [o' s']. cbn in *.
    rewrite Ho. f_equal. by apply IH.
  - intros x b d Hb Hd. rewrite Hp. pose proof (N.Div0.mod_le x ticks_per_wheel).
    pose proof (same_turn x b d _ Hn Hb Hd) as Hq. rewrite Hp in Hq. apply remaining_in_time; [lia|done].
  - intros x b d Hd Hle. rewrite Hp. by apply remaining_late; rewrite <- ?Hp.
  - intros x d. rewrite Hp. apply remaining_during.
Qed.

End WheelFacts.

#[export] Instance seen_eq_dec : EqDecision (Wheel.Seen string).
Proof. solve_decision. Defined.

(** A full wheel of two slots, with a timer of three ticks, one that is cancelled, and one of none. *)
Lemma wheel_refines_witness :
  let ops := Wheel.schedule_once 30 "a" ++ Wheel.tick ++ Wheel.schedule_once 9 "b" ++ Wheel.schedule_once 10 "c" ++
             [Wheel.Cancel 2] ++ Wheel.tick ++ Wheel.tick ++ Wheel.tick in
  filter (λ o, o ≠ Wheel.Nothing) (Wheel.run_ops Wheel.wheel_op (Wheel.mkSystem (Wheel.mkInner 10 1 [[]; []] 0 ∅ 0) None []) ops) =
  [Wheel.Handle 0; Wheel.Ran []; Wheel.Handle 1; Wheel.Handle 2; Wheel.Ran ["b"]; Wheel.Ran []; Wheel.Ran ["a"]]%N.
Proof.
  intros ops.
  destruct (WheelFacts.wheel_refines 10 2 (Wheel.mkInner 10 1 [[]; []] 0 ∅ 0) ops) as [-> _];
    [done|vm_compute; reflexivity|vm_compute; reflexivity].
Defined.

Section timing.
Import Wheel.
Context {C : Type}.
Implicit Types (s : Timers C).

Definition after_drains (j : nat) (s : Timers C) : Timers C := Nat.iter j drain_timers s.

Lemma waiting_after j s :
  waiting (after_drains j s) =
  (λ t, (t.1.1 - N.of_nat j, t.1.2, t.2)%N) <$> filter (λ t, (N.of_nat j ≤ t.1.1)%N) (waiting s).
Proof.
  induction j as [|j IH].
  - cbn [after_drains Nat.iter]. rewrite filter_all by (apply Forall_forall; intros; lia). symmetry. etransitivity; [|apply list_fmap_id].
    apply list_fmap_ext. intros _ [[x f] c] _. cbn. by rewrite N.sub_0_r.
  - change (waiting (after_drains (S j) s)) with
      ((λ t, (t.1.1 - 1, t.1.2, t.2)%N) <$> filter (λ t, t.1.1 ≠ 0%N) (waiting (after_drains j s))).
    rewrite IH. clear IH.
    induction (waiting s) as [|[[x f] c] l IHl]; [done|]. rewrite !filter_cons. cbn [fst snd].
    destruct (decide (N.of_nat j ≤ x)%N) as [Hj|Hj].
    + rewrite fmap_cons, filter_cons. cbn [fst snd]. destruct (decide (x - N.of_nat j ≠ 0)%N) as [Hx|Hx].
      * rewrite (decide_True (P := (N.of_nat (S j) ≤ x)%N)) by lia. rewrite !fmap_cons, IHl. f_equal. cbn [fst snd].
        f_equal. f_equal. lia.
      * rewrite (decide_False (P := (N.of_nat (S j) ≤ x)%N)) by lia. done.
    + rewrite (decide_False (P := (N.of_nat (S j) ≤ x)%N)) by lia. done.
Qed.

(** A timer of [x] whole ticks runs at the tick after [x] others, and at no other one. *)
Lemma timer_runs_once s j x f (c : C) :
  (x, f, c) ∈ waiting s → f ∉ stopped s → NoDup ((λ t, t.1.2) <$> waiting s) →
  N.of_nat j = x ↔
  (0%N, f, c) ∈ filter (λ t, t.1.1 = 0%N ∧ t.1.2 ∉ stopped s) (waiting (after_drains j s)).
Proof.
  intros Hin Hf Hnd. rewrite waiting_after, list_elem_of_filter, list_elem_of_fmap. cbn. split.
  - intros <-. split; [done|]. exists (N.of_nat j, f, c). cbn. rewrite list_elem_of_filter. cbn.
    split_and!; [by rewrite N.sub_diag|done|done].
  - intros (_ & [[x' f'] c'] & Heq & [Hle Hin']%list_elem_of_filter). cbn in *.
    injection Heq as Hx <- <-. apply list_elem_of_lookup in Hin as [a Ha]. apply list_elem_of_lookup in Hin' as [b Hb].
    assert (a = b) as ->.
    { apply (NoDup_lookup _ a b f Hnd); rewrite list_lookup_fmap; [by rewrite Ha|by rewrite Hb]. }
    rewrite Ha in Hb. injection Hb as ->. lia.
Qed.

(** The ticks come at multiples of the tick time.  A timer set between two ticks runs within one tick
    time of its delay, before or after. *)
Lemma wheel_latency T c at_ delay :
  (0 < T)%N → (delay / T < u64_modulus)%N → ((c - 1) * T ≤ at_ < c * T)%N → (1 ≤ c)%N →
  let runs_at := ((c + ticks_of T delay) * T)%N in
  (at_ + delay < runs_at + T ∧ runs_at ≤ at_ + delay + T)%N.
Proof.
  intros HT Hd Hat Hc. cbn zeta. unfold ticks_of. rewrite N.max_l by lia. rewrite wrap64_small by done.
  pose proof (N.Div0.div_mod delay T) as Hdm. pose proof (N.mod_lt delay T ltac:(lia)) as Hm.
  revert Hd Hdm Hm. generalize (delay / T)%N (delay mod T)%N. intros q r _ -> Hr. nia.
Qed.

End timing.

(** A delay of 19 with a tick of 10, set just before the tick at 10: the callback runs at 20, hardly
    more than one tick later. *)
Example wheel_runs_early :
  filter (λ o, o ≠ Wheel.Nothing)
    (Wheel.run_ops Wheel.wheel_op (Wheel.mkSystem (Wheel.mkInner 10 1 [[]; []] 0 ∅ 0) None [])
       (Wheel.tick ++ Wheel.schedule_once 19 "a" ++ Wheel.tick ++ Wheel.tick)) =
  [Wheel.Ran []; Wheel.Handle 0; Wheel.Ran []; Wheel.Ran ["a"]]%N.
Proof. vm_compute. reflexivity. Qed.

(** A tick between the two locks of [schedule]: a timer that is due at once waits for a whole turn of
    the wheel. *)
Example wheel_race :
  filter (λ o, o ≠ Wheel.Nothing)
    (Wheel.run_ops Wheel.wheel_op (Wheel.mkSystem (Wheel.mkInner 10 3 [[]; []; []; []] 0 ∅ 0) None [])
       ([Wheel.ScheduleRead 0 "a"] ++ Wheel.tick ++ [Wheel.ScheduleInsert 0] ++
        Wheel.tick ++ Wheel.tick ++ Wheel.tick ++ Wheel.tick)) =
  [Wheel.Ran []; Wheel.Handle 0; Wheel.Ran []; Wheel.Ran []; Wheel.Ran []; Wheel.Ran ["a"]]%N.
Proof. vm_compute. reflexivity. Qed.

(** A call between the two locks of [tick]: a timer of a turn less one tick runs at once. *)
Example wheel_race_early :
  filter (λ o, o ≠ Wheel.Nothing)
    (Wheel.run_ops Wheel.wheel_op (Wheel.mkSystem (Wheel.mkInner 10 3 [[]; []; []; []] 0 ∅ 0) None [])
       ([Wheel.TickBegin] ++ Wheel.schedule_once 30 "a" ++ [Wheel.TickDrain])) =
  [Wheel.Handle 0; Wheel.Ran ["a"]]%N.
Proof. vm_compute. reflexivity. Qed.
