(* ===== verification/Cqrs.v ===== *)
(** * Commands, queries and their gateway: the write side
    ([crates/atomr-patterns/src]: [ddd/*.rs], [error.rs], [extensions.rs],
    [cqrs/command_gateway.rs] and the repository of [cqrs/builder.rs])

    The traits of the domain vocabulary are classes on top of [Eventsourced].  A gateway
    keeps the recovered aggregates in memory; several gateways share a journal, a snapshot
    store and the channels of the taps, and the repository picks one by the hash of the id.
    The specification is a log of events per aggregate: no numbers, no encoding, no
    recovery, no snapshots. *)

From stdpp Require Import gmap strings list.
From Stdlib Require Import NArith Lia.
From S2P Require Import Prelude Journal Eventsourced Outbox.

(** ** The domain vocabulary *)

Class Command (Cmd Id : Type) := {
  aggregate_id : Cmd → Id;
  expected_version : Cmd → option N;
  command_id : Cmd → option string;
}.

Class DomainEvent (Ev : Type) := {
  event_tags : Ev → list string;
  event_correlation_id : Ev → option string;
}.

Class AggregateRoot (St Err : Type) := {
  check_invariants : St → Err + unit;
  encode_state : St → option (string + Bytes);
  decode_state : Bytes → string + St;
}.

(** The documented symmetry of the two. *)
Class StateCodecLaws (St Err : Type) `{AggregateRoot St Err} : Prop :=
  decode_encode_state : ∀ st b, encode_state st = Some (inr b) → decode_state b = inr st.

Inductive AskError := AskTimeout | AskTargetDropped.

Inductive PatternError (Err : Type) :=
  | PDomain (e : Err)
  | PJournal (e : JournalError)
  | PAsk (e : AskError)
  | PCodec (msg : string)
  | PInvariant (msg : string)
  | PNotConfigured (what : string)
  | PIntercepted (msg : string)
  | PConcurrencyConflict (expected actual : N)
  | PReplyDropped.
Arguments PDomain {_} _.
Arguments PJournal {_} _.
Arguments PAsk {_} _.
Arguments PCodec {_} _.
Arguments PInvariant {_} _.
Arguments PNotConfigured {_} _.
Arguments PIntercepted {_} _.
Arguments PConcurrencyConflict {_} _ _.
Arguments PReplyDropped {_}.

(** ** Hooks *)

Section channels.
Context {M : Type}.

(** An unbounded channel: whether its receiver lives, and what was sent. *)
Record Chan := mkChan { ch_open : bool; ch_sent : list M }.

Definition is_open (chans : gmap nat Chan) (k : nat) : bool :=
  match chans !! k with Some c => ch_open c | None => false end.

(** [UnboundedSender::send]; [None] is the error of a closed channel. *)
Definition chan_send (ev : M) (k : nat) (chans : gmap nat Chan) : option (gmap nat Chan) :=
  match chans !! k with
  | Some c => if ch_open c then Some (<[k := mkChan true (ch_sent c ++ [ev])]> chans) else None
  | None => None
  end.

(** [push_command_taps] and [push_event_taps]: [taps.retain(|tx| tx.send(ev.clone()).is_ok())]. *)
Fixpoint push_taps (ev : M) (taps : list nat) (chans : gmap nat Chan)
    : list nat * gmap nat Chan :=
  match taps with
  | [] => ([], chans)
  | k :: taps' =>
      match chan_send ev k chans with
      | Some chans' => let '(kept, chans'') := push_taps ev taps' chans' in (k :: kept, chans'')
      | None => push_taps ev taps' chans
      end
  end.

(** The loop over the events. *)
Fixpoint push_events (evs : list M) (taps : list nat) (chans : gmap nat Chan)
    : list nat * gmap nat Chan :=
  match evs with
  | [] => (taps, chans)
  | ev :: evs' => let '(taps', chans') := push_taps ev taps chans in push_events evs' taps' chans'
  end.

End channels.
Arguments Chan : clear implicits.

Section hooks.
Context {Cmd Ev Err W : Type}.

(** A listener acts on the world outside. *)
Record ExtensionSlots := mkSlots {
  command_interceptors : list (Cmd → PatternError Err + unit);
  event_listeners : list (Ev → W → W);
  command_taps : list nat;
  event_taps : list nat;
}.

Fixpoint run_hooks (hooks : list (Cmd → PatternError Err + unit)) (cmd : Cmd)
    : PatternError Err + unit :=
  match hooks with
  | [] => inr tt
  | hook :: hooks' =>
      match hook cmd with
      | inl e => inl e
      | inr _ => run_hooks hooks' cmd
      end
  end.

Definition run_interceptors (s : ExtensionSlots) (cmd : Cmd) : PatternError Err + unit :=
  run_hooks (command_interceptors s) cmd.

Definition notify_listeners (s : ExtensionSlots) (ev : Ev) (w : W) : W :=
  foldl (λ w hook, hook ev w) w (event_listeners s).

(** [push_dedupe]. *)
Definition push_dedupe (ring : list (string * list Ev)) (key : string) (events : list Ev) (cap : nat)
    : list (string * list Ev) :=
  if cap =? 0 then ring
  else if bool_decide (key ∈ ring.*1) then ring
  else (if cap <=? length ring then tail ring else ring) ++ [(key, events)].

(** [iter().find(|(k, _)| k == &key)]. *)
Fixpoint dedupe_find (key : string) (ring : list (string * list Ev)) : option (list Ev) :=
  match ring with
  | [] => None
  | (k, evs) :: ring' => if decide (k = key) then Some evs else dedupe_find key ring'
  end.

End hooks.
Arguments ExtensionSlots : clear implicits.

(** [SnapshotConfig]; the store is shared and kept apart. *)
Record SnapshotConfig := mkSnapshotConfig { sc_policy : SnapshotPolicy; sc_keep_last : N }.

Definition sc_should_snapshot {SS} `{SnapshotStore SS} (sc : SnapshotConfig) (store : SS) (nr : N) : bool :=
  should_snapshot nr (AsyncSnapshotter_new store (sc_policy sc)).

(** [None] is the failed assertion of [with_keep_last]. *)
Definition sc_save {SS} `{SnapshotStore SS} (sc : SnapshotConfig) (now : N) (pid : string) (nr : N)
    (data : Bytes) (store : SS) : option SS :=
  a ← with_keep_last (sc_keep_last sc) (AsyncSnapshotter_new store (sc_policy sc));
  Some (snap_store (AsyncSnapshotter_save now pid nr data a)).

(** ** The gateway *)

Section gateway.
Context {A Cmd Ev St Err Id : Type} `{E : Eventsourced A Cmd Ev St Err}.
Context `{AR : AggregateRoot St Err} `{HC : Command Cmd Id} `{HD : DomainEvent Ev}.
Context `{HId : Countable Id}.
Context {J SS W : Type} `{HJ : Journal J} `{HSS : SnapshotStore SS}.

Record EntityState := mkEntity {
  aggregate : A;
  state : St;
  seq : N;
  recovered : bool;
  dedupe : list (string * list Ev);
}.

Definition EntityState_new (a : A) : EntityState := mkEntity a state_default 0 false [].

(** What the gateways share. *)
Record Env := mkEnv {
  journal : J;
  store : SS;
  chans : gmap nat (Chan Ev);
  world : W;
}.

(** What the builder gives to every gateway. *)
Record GatewayConfig := mkConfig {
  factory : Id → A;
  gw_writer : string;
  slots : ExtensionSlots Cmd Ev Err W;
  snapshot : option SnapshotConfig;
  dedupe_window : nat;
}.

(** What a gateway changes: its entities and its list of taps. *)
Record Gateway := mkGateway {
  entities : gmap Id EntityState;
  taps : list nat;
}.

Definition gateway_new (cfg : GatewayConfig) : Gateway := mkGateway ∅ (event_taps (slots cfg)).

Abbreviation Reply := (PatternError Err + list Ev)%type.

(** The part of [recover_entity] that reads the snapshot. *)
Definition load_snapshot (cfg : GatewayConfig) (env : Env) (pid : string) (e : EntityState)
    : EntityState * option N :=
  match snapshot cfg with
  | None => (e, None)
  | Some _ =>
      match snapshot_load pid (store env) with
      | None => (e, None)
      | Some (meta, data) =>
          match decode_state data with
          | inl _ => (e, None)
          | inr st =>
              (mkEntity (aggregate e) st (seq e) (recovered e) (dedupe e), Some (snap_sequence_nr meta))
          end
      end
  end.

(** [permit]: whether the permitter grants one. *)
Definition recover_entity (permit : bool) (cfg : GatewayConfig) (env : Env) (e : EntityState)
    : EntityState * (PatternError Err + unit) :=
  if negb permit then (e, inl (PInvariant "recovery permit denied"))
  else
    let pid := es_persistence_id (aggregate e) in
    let '(e1, snapshot_seq) := load_snapshot cfg env pid e in
    match highest_sequence_nr pid 0 (journal env) with
    | inl err => (e1, inl (PJournal err))
    | inr highest =>
        let from := match snapshot_seq with Some s => u64_add s 1 | None => 1%N end in
        let replayed :=
          if (from <=? highest)%N then
            match replay_messages pid from highest u64_max (journal env) with
            | inl err => (state e1, Some (PJournal err))
            | inr events =>
                let '(st, failure) := replay_events events (state e1) in (st, PCodec <$> failure)
            end
          else (state e1, None) in
        match replayed with
        | (st, Some err) =>
            (mkEntity (aggregate e1) st (seq e1) (recovered e1) (dedupe e1), inl err)
        | (st, None) =>
            (mkEntity (recovery_completed (aggregate e1) st highest) st highest true (dedupe e1), inr tt)
        end
    end.

(** The loop that numbers and encodes the events; the counter has moved on also when an
    event cannot be encoded. *)
Fixpoint gateway_reprs (pid mf writer : string) (events : list Ev) (n : N)
    : N * (string + list PersistentRepr) :=
  match events with
  | [] => (n, inr [])
  | e :: events' =>
      let nr := u64_add n 1 in
      match encode_event e with
      | inl c => (nr, inl c)
      | inr data =>
          match gateway_reprs pid mf writer events' nr with
          | (n', inl c) => (n', inl c)
          | (n', inr reprs) =>
              (n', inr (mkPersistentRepr pid nr data mf writer false (event_tags e) :: reprs))
          end
      end
  end.

(** From the encoding to the application of the events. *)
Definition persist_events (cfg : GatewayConfig) (env : Env) (e : EntityState) (events : list Ev)
    : EntityState * Env * (PatternError Err + unit) :=
  let with_seq n st := mkEntity (aggregate e) st n (recovered e) (dedupe e) in
  match gateway_reprs (es_persistence_id (aggregate e)) (event_manifest (aggregate e))
          (gw_writer cfg) events (seq e) with
  | (n, inl c) => (with_seq n (state e), env, inl (PCodec c))
  | (n, inr reprs) =>
      match write_messages reprs (journal env) with
      | (j, inl err) => (e, mkEnv j (store env) (chans env) (world env), inl (PJournal err))
      | (j, inr _) =>
          (with_seq n (foldl apply_event (state e) events),
           mkEnv j (store env) (chans env) (world env), inr tt)
      end
  end.

(** [None] is a panic. *)
Definition take_snapshot (now : N) (cfg : GatewayConfig) (env : Env) (e : EntityState) : option Env :=
  match snapshot cfg with
  | None => Some env
  | Some sc =>
      if sc_should_snapshot sc (store env) (seq e) then
        match encode_state (state e) with
        | Some (inr data) =>
            s ← sc_save sc now (es_persistence_id (aggregate e)) (seq e) data (store env);
            Some (mkEnv (journal env) s (chans env) (world env))
        | _ => Some env
        end
      else Some env
  end.

(** The listeners for every event, then the taps for every event. *)
Definition notify (cfg : GatewayConfig) (tps : list nat) (env : Env) (events : list Ev)
    : list nat * Env :=
  let w := foldl (λ w ev, notify_listeners (slots cfg) ev w) (world env) events in
  let '(tps', ch) := push_events events tps (chans env) in
  (tps', mkEnv (journal env) (store env) ch w).

Definition dedupe_key (cfg : GatewayConfig) (cmd : Cmd) : option string :=
  if 0 <? dedupe_window cfg then command_id cmd else None.

(** The check of [expected_version]. *)
Definition version_conflict (cmd : Cmd) (actual : N) : option (PatternError Err) :=
  match expected_version cmd with
  | Some expected =>
      if (actual =? expected)%N then None else Some (PConcurrencyConflict expected actual)
  | None => None
  end.

Definition process_entity (permit : bool) (now : N) (cfg : GatewayConfig) (tps : list nat)
    (env : Env) (e : EntityState) (cmd : Cmd) : option (EntityState * list nat * Env * Reply) :=
  let '(e1, rec) := if recovered e then (e, inr tt) else recover_entity permit cfg env e in
  match rec with
  | inl err => Some (e1, tps, env, inl err)
  | inr _ =>
      match version_conflict cmd (seq e1) with
      | Some err => Some (e1, tps, env, inl err)
      | None =>
        match command_to_events (aggregate e1) (state e1) cmd with
        | inl err => Some (e1, tps, env, inl (PDomain err))
        | inr [] => Some (e1, tps, env, inr [])
        | inr events =>
            match persist_events cfg env e1 events with
            | (e2, env2, inl err) => Some (e2, tps, env2, inl err)
            | (e2, env2, inr _) =>
                match check_invariants (state e2) with
                | inl err => Some (e2, tps, env2, inl (PDomain err))
                | inr _ =>
                    env3 ← take_snapshot now cfg env2 e2;
                    let '(tps', env4) := notify cfg tps env3 events in
                    let ring :=
                      match dedupe_key cfg cmd with
                      | Some key => push_dedupe (dedupe e2) key events (dedupe_window cfg)
                      | None => dedupe e2
                      end in
                    Some (mkEntity (aggregate e2) (state e2) (seq e2) (recovered e2) ring,
                          tps', env4, inr events)
                end
            end
        end
      end
  end.

Definition process (permit : bool) (now : N) (cfg : GatewayConfig) (gw : Gateway) (env : Env) (cmd : Cmd)
    : option (Gateway * Env * Reply) :=
  match run_interceptors (slots cfg) cmd with
  | inl err => Some (gw, env, inl err)
  | inr _ =>
      let id := aggregate_id cmd in
      let entity := default (EntityState_new (factory cfg id)) (entities gw !! id) in
      match dedupe_key cfg cmd ≫= λ key, dedupe_find key (dedupe entity) with
      | Some cached => Some (mkGateway (<[id := entity]> (entities gw)) (taps gw), env, inr cached)
      | None =>
          '(entity', tps, env', reply) ← process_entity permit now cfg (taps gw) env entity cmd;
          Some (mkGateway (<[id := entity']> (entities gw)) tps, env', reply)
      end
  end.

(** ** The repository *)

(** [hash] is the standard hasher. *)
Definition shard_index (hash : Id → N) (id : Id) (n : nat) : nat :=
  N.to_nat (hash id mod N.of_nat (Nat.max n 1)).

Record Repo := mkRepo { gateways : list Gateway; env : Env }.

Definition repo_new (cfg : GatewayConfig) (shards : nat) (j : J) (s : SS)
    (ch : gmap nat (Chan Ev)) (w : W) : Repo :=
  mkRepo (replicate (Nat.max shards 1) (gateway_new cfg)) (mkEnv j s ch w).

(** [send]; [None] is a panic, of the gateway or of the index. *)
Definition send (hash : Id → N) (permit : bool) (now : N) (cfg : GatewayConfig) (r : Repo) (cmd : Cmd)
    : option (Repo * Reply) :=
  let idx := shard_index hash (aggregate_id cmd) (length (gateways r)) in
  gw ← gateways r !! idx;
  '(gw', env', reply) ← process permit now cfg gw (env r) cmd;
  Some (mkRepo (<[idx := gw']> (gateways r)) env', reply).

(** A gateway that is restarted, a receiver that is dropped and other users of the journal
    come between the commands. *)
Inductive RepoOp :=
  | Send (permit : bool) (now : N) (cmd : Cmd)
  | Restart (k : nat)
  | CloseTap (k : nat)
  | OtherWrite (ms : list PersistentRepr).

Definition close_chan (k : nat) (ch : gmap nat (Chan Ev)) : gmap nat (Chan Ev) :=
  alter (λ c, mkChan false (ch_sent c)) k ch.

Definition repo_step (hash : Id → N) (cfg : GatewayConfig) (r : Repo) (op : RepoOp)
    : option (Repo * option Reply) :=
  match op with
  | Send permit now cmd => '(r', reply) ← send hash permit now cfg r cmd; Some (r', Some reply)
  | Restart k => Some (mkRepo (<[k := gateway_new cfg]> (gateways r)) (env r), None)
  | CloseTap k =>
      let v := env r in
      Some (mkRepo (gateways r) (mkEnv (journal v) (store v) (close_chan k (chans v)) (world v)), None)
  | OtherWrite ms =>
      let v := env r in
      Some (mkRepo (gateways r)
              (mkEnv (write_messages ms (journal v)).1 (store v) (chans v) (world v)), None)
  end.

Fixpoint repo_run (hash : Id → N) (cfg : GatewayConfig) (ops : list RepoOp) (r : Repo)
    : option (Repo * list (option Reply)) :=
  match ops with
  | [] => Some (r, [])
  | op :: ops' =>
      '(r1, reply) ← repo_step hash cfg r op;
      '(r2, replies) ← repo_run hash cfg ops' r1;
      Some (r2, reply :: replies)
  end.

(** ** The specification: a log per aggregate *)

(** [live] holds what a gateway keeps only in memory: the aggregate and its ring. *)
Record EventStore := mkEventStore {
  log : gmap Id (list Ev);
  live : gmap Id (A * list (string * list Ev));
  es_chans : gmap nat (Chan Ev);
  es_world : W;
}.

Definition log_of (s : EventStore) (i : Id) : list Ev := default [] (log s !! i).
Definition state_of (l : list Ev) : St := foldl apply_event state_default l.

Definition spec_send (permit : bool) (cfg : GatewayConfig) (s : EventStore) (cmd : Cmd)
    : EventStore * Reply :=
  match run_interceptors (slots cfg) cmd with
  | inl err => (s, inl err)
  | inr _ =>
      let i := aggregate_id cmd in
      let l := log_of s i in
      let ring := default [] (snd <$> live s !! i) in
      match dedupe_key cfg cmd ≫= λ key, dedupe_find key ring with
      | Some cached => (s, inr cached)
      | None =>
          let n := N.of_nat (length l) in
          match (match live s !! i with Some _ => true | None => permit end) with
          | false => (s, inl (PInvariant "recovery permit denied"))
          | true =>
              let a := default (recovery_completed (factory cfg i) (state_of l) n) (fst <$> live s !! i) in
              let awake l' ring' := mkEventStore (<[i := l']> (log s)) (<[i := (a, ring')]> (live s)) in
              match version_conflict cmd n with
              | Some err => (awake l ring (es_chans s) (es_world s), inl err)
              | None =>
                match command_to_events a (state_of l) cmd with
                | inl err => (awake l ring (es_chans s) (es_world s), inl (PDomain err))
                | inr [] => (awake l ring (es_chans s) (es_world s), inr [])
                | inr events =>
                    match check_invariants (state_of (l ++ events)) with
                    | inl err =>
                        (awake (l ++ events) ring (es_chans s) (es_world s), inl (PDomain err))
                    | inr _ =>
                        let ring' :=
                          match dedupe_key cfg cmd with
                          | Some key => push_dedupe ring key events (dedupe_window cfg)
                          | None => ring
                          end in
                        (awake (l ++ events) ring'
                           (push_events events (event_taps (slots cfg)) (es_chans s)).2
                           (foldl (λ w ev, notify_listeners (slots cfg) ev w) (es_world s) events),
                         inr events)
                    end
                end
              end
          end
      end
  end.

Definition spec_step (hash : Id → N) (shards : nat) (cfg : GatewayConfig) (s : EventStore) (op : RepoOp)
    : EventStore * option Reply :=
  match op with
  | Send permit _ cmd => let '(s', reply) := spec_send permit cfg s cmd in (s', Some reply)
  | Restart k =>
      (mkEventStore (log s) (filter (λ kv, shard_index hash kv.1 shards ≠ k) (live s))
         (es_chans s) (es_world s), None)
  | CloseTap k => (mkEventStore (log s) (live s) (close_chan k (es_chans s)) (es_world s), None)
  | OtherWrite _ => (s, None)
  end.

Fixpoint spec_run (hash : Id → N) (shards : nat) (cfg : GatewayConfig) (ops : list RepoOp) (s : EventStore)
    : EventStore * list (option Reply) :=
  match ops with
  | [] => (s, [])
  | op :: ops' =>
      let '(s1, reply) := spec_step hash shards cfg s op in
      let '(s2, replies) := spec_run hash shards cfg ops' s1 in
      (s2, reply :: replies)
  end.

End gateway.
Arguments EntityState : clear implicits.
Arguments Env : clear implicits.
Arguments GatewayConfig : clear implicits.
Arguments Gateway _ _ _ _ {_ _}.
Arguments Repo _ _ _ _ {_ _} _ _ _.
Arguments RepoOp : clear implicits.
Arguments EventStore _ _ _ {_ _} _.

(** ** Channels: only the open ones count *)

Module ChannelFacts.
Section facts.
Context {M : Type}.
Implicit Types ch : gmap nat (Chan M).

Lemma is_open_insert ch k sent j :
  is_open ch k = true → is_open (<[k := mkChan true sent]> ch) j = is_open ch j.
Proof.
  unfold is_open. intros Hk. destruct (decide (k = j)) as [->|Hne].
  - rewrite lookup_insert_eq. cbn. by destruct (ch !! j).
  - by rewrite lookup_insert_ne.
Qed.

Lemma chan_send_open (m : M) k ch :
  is_open ch k = true → ∃ ch', chan_send m k ch = Some ch' ∧ ∀ j, is_open ch' j = is_open ch j.
Proof.
  unfold chan_send. intros Hk. pose proof Hk as Hk'. unfold is_open in Hk'.
  destruct (ch !! k) as [c|]; [|done]. rewrite Hk'. eexists; split; [done|].
  intros j. by apply is_open_insert.
Qed.

Lemma chan_send_closed (m : M) k ch : is_open ch k = false → chan_send m k ch = None.
Proof. unfold chan_send, is_open. destruct (ch !! k) as [c|]; [|done]. by intros ->. Qed.

Definition open_taps ch (l : list nat) : list nat := filter (λ k, is_open ch k = true) l.

Lemma open_taps_ext ch ch' l :
  (∀ j, is_open ch' j = is_open ch j) → open_taps ch' l = open_taps ch l.
Proof. intros Heq. apply list_filter_iff. intros x. by rewrite Heq. Qed.

(** A round of sends keeps the open taps, changes no channel from open to closed or back, and
    depends only on the open taps. *)
Lemma push_taps_spec (m : M) tps ch :
  (push_taps m tps ch).1 = open_taps ch tps ∧
  (∀ j, is_open (push_taps m tps ch).2 j = is_open ch j) ∧
  (push_taps m (open_taps ch tps) ch).2 = (push_taps m tps ch).2.
Proof.
  revert ch; induction tps as [|k tps IH]; intros ch; [done|]. cbn [push_taps].
  unfold open_taps in *. rewrite filter_cons. case_decide as Hk; cbn [push_taps].
  - destruct (chan_send_open m k ch Hk) as (ch' & -> & Hopen).
    destruct (IH ch') as (H1 & H2 & H3).
    pose proof (open_taps_ext ch ch' tps Hopen) as Hf. unfold open_taps in Hf.
    rewrite Hf in H1, H3.
    destruct (push_taps m tps ch') as [kept ch2]. cbn [fst snd] in *.
    destruct (push_taps m (filter _ tps) ch') as [kept' ch3]. cbn [fst snd] in *. subst.
    split_and!; [done|intros j; by rewrite H2, Hopen|done].
  - apply not_true_is_false in Hk. rewrite (chan_send_closed m k ch Hk). apply IH.
Qed.

(** [tps] is [reg] up to closed channels. *)
Definition same_open ch (reg tps : list nat) : Prop := open_taps ch tps = open_taps ch reg.

Lemma same_open_ext ch ch' reg tps :
  (∀ j, is_open ch' j = is_open ch j) → same_open ch reg tps → same_open ch' reg tps.
Proof. intros Heq Hso. unfold same_open. by rewrite !(open_taps_ext ch ch'). Qed.

Lemma push_events_spec (ms : list M) reg tps ch :
  same_open ch reg tps →
  (push_events ms tps ch).2 = (push_events ms reg ch).2 ∧
  (∀ j, is_open (push_events ms reg ch).2 j = is_open ch j) ∧
  same_open ch reg (push_events ms tps ch).1.
Proof.
  revert reg tps ch; induction ms as [|m ms IH]; intros reg tps ch Hso; [done|].
  cbn [push_events].
  destruct (push_taps_spec m tps ch) as (Ht1 & Ht2 & Ht3).
  destruct (push_taps_spec m reg ch) as (Hr1 & Hr2 & Hr3).
  rewrite Hso in Ht3. rewrite Hr3 in Ht3.
  destruct (push_taps m tps ch) as [tps' ch1], (push_taps m reg ch) as [reg' ch2].
  cbn [fst snd] in *. subst ch1.
  assert (tps' = reg') as -> by (rewrite Ht1, Hr1; exact Hso).
  destruct (IH reg' reg' ch2 eq_refl) as (_ & Hopen & Hk).
  split_and!; [done|intros j; by rewrite Hopen|].
  apply (same_open_ext ch2 ch) in Hk; [|by intros]. rewrite Hr1 in Hk at 1.
  unfold same_open in *. rewrite Hk. unfold open_taps.
  rewrite list_filter_filter. apply list_filter_iff. naive_solver.
Qed.

Lemma is_open_close k ch j :
  is_open (close_chan k ch) j = if decide (j = k) then false else is_open ch j.
Proof.
  unfold is_open, close_chan. case_decide as Hj; subst.
  - rewrite lookup_alter_eq. by destruct (ch !! k).
  - by rewrite lookup_alter_ne.
Qed.

Lemma same_open_close k ch reg tps : same_open ch reg tps → same_open (close_chan k ch) reg tps.
Proof.
  assert (Hf : ∀ l, open_taps (close_chan k ch) l = filter (λ j, j ≠ k) (open_taps ch l)).
  { intros l. unfold open_taps. rewrite list_filter_filter. apply list_filter_iff. intros x.
    rewrite is_open_close. case_decide; naive_solver. }
  unfold same_open. intros Hso. by rewrite !Hf, Hso.
Qed.
End facts.
End ChannelFacts.

(** ** Snapshot stores: what the gateway relies on *)

(** A newer snapshot of an id is the one that is loaded, the other ids are untouched, and a
    pruning below the loaded snapshot keeps it. *)
Class SnapshotSpec (SS : Type) `{SnapshotStore SS} : Prop := {
  load_save (m : SnapshotMetadata) d (s : SS) :
    (∀ m' d', snapshot_load (snap_persistence_id m) s = Some (m', d') →
       (snap_sequence_nr m' ≤ snap_sequence_nr m)%N) →
    snapshot_load (snap_persistence_id m) (snapshot_save m d s) = Some (m, d);
  load_save_other m d (s : SS) q :
    q ≠ snap_persistence_id m → snapshot_load q (snapshot_save m d s) = snapshot_load q s;
  load_delete pid to (s : SS) m d :
    snapshot_load pid s = Some (m, d) → (to < snap_sequence_nr m)%N →
    snapshot_load pid (snapshot_delete pid to s) = Some (m, d);
  load_delete_other pid to (s : SS) q :
    q ≠ pid → snapshot_load q (snapshot_delete pid to s) = snapshot_load q s;
}.

#[export] Instance InMemorySnapshotStore_Spec : SnapshotSpec InMemorySnapshotStore.
Proof.
  constructor.
  - intros m d s _. rewrite load_last. cbn [snapshot_save InMemorySnapshotStore_SnapshotStore].
    by rewrite snapshots_of_save, decide_True, last_snoc.
  - intros m d s q Hq. rewrite !load_last. cbn [snapshot_save InMemorySnapshotStore_SnapshotStore].
    by rewrite snapshots_of_save, decide_False.
  - intros pid to s m d. rewrite !load_last.
    cbn [snapshot_delete InMemorySnapshotStore_SnapshotStore].
    rewrite snapshots_of_delete, decide_True by done. intros [l Hl]%last_Some Hto.
    by rewrite Hl, filter_app, filter_cons_True, filter_nil, last_snoc.
  - intros pid to s q Hq. rewrite !load_last.
    cbn [snapshot_delete InMemorySnapshotStore_SnapshotStore].
    by rewrite snapshots_of_delete, decide_False.
Qed.

Lemma sc_save_spec {SS} `{HS : SnapshotSpec SS} sc now pid nr data (s : SS) :
  (1 ≤ sc_keep_last sc)%N → (0 < nr)%N →
  (∀ m d, snapshot_load pid s = Some (m, d) → (snap_sequence_nr m ≤ nr)%N) →
  ∃ s', sc_save sc now pid nr data s = Some s' ∧
    snapshot_load pid s' = Some (mkSnapshotMetadata pid nr now, data) ∧
    ∀ q, q ≠ pid → snapshot_load q s' = snapshot_load q s.
Proof.
  intros Hk Hnr Hold. unfold sc_save, with_keep_last.
  replace (1 <=? sc_keep_last sc)%N with true by (symmetry; apply N.leb_le; lia).
  eexists; split; [done|]. cbn [AsyncSnapshotter_save snap_store keep_last].
  pose proof (load_save (mkSnapshotMetadata pid nr now) data s Hold) as Hload.
  pose proof (λ q, load_save_other (mkSnapshotMetadata pid nr now) data s q) as Hother.
  cbn [snap_persistence_id] in Hload, Hother.
  repeat case_match; try done. split.
  - apply load_delete; [done|]. cbn. lia.
  - intros q Hq. by rewrite load_delete_other, Hother.
Qed.

(** ** The gateway implements the specification *)

(** A replay from [k + 1] returns what follows the first [k] records. *)
Lemma numbered_replayable_from pid l k to :
  numbered pid 1 l → (N.of_nat (length l) < u64_modulus)%N → Forall (λ r, deleted r = false) l →
  k ≤ length l → (N.of_nat (length l) ≤ to)%N →
  filter (replayable (N.of_nat k + 1) to) l = drop k l.
Proof.
  intros Hl Hb Hd Hk Hto.
  set (P := replayable (N.of_nat k + 1) to).
  transitivity (filter P (take k l ++ drop k l)); [by rewrite take_drop|]. rewrite filter_app.
  assert (Hnr : ∀ i m, l !! i = Some m → sequence_nr m = (1 + N.of_nat i)%N).
  { intros i m Hi. eapply numbered_lookup; [exact Hl|lia|exact Hi]. }
  rewrite (filter_none P (take k l)), app_nil_l.
  - apply filter_all, Forall_lookup_2. intros i m Hi. rewrite lookup_drop in Hi.
    pose proof (lookup_lt_Some _ _ _ Hi). rewrite Forall_lookup in Hd. unfold P, replayable.
    rewrite (Hnr _ _ Hi). split; [eauto|lia].
  - intros m [i [Hi Hlt]%lookup_take_Some]%list_elem_of_lookup.
    unfold P, replayable. rewrite (Hnr _ _ Hi). lia.
Qed.

Module GatewayFacts.
Import ChannelFacts.
Section facts.
Context {A Cmd Ev St Err Id : Type} `{E : Eventsourced A Cmd Ev St Err}.
Context `{AR : AggregateRoot St Err} `{HC : Command Cmd Id} `{HD : DomainEvent Ev}.
Context `{HId : Countable Id}.
Context {J SS W : Type} `{HJ : JournalSpec J} `{HSS : SnapshotSpec SS}.
Context `{HEC : !CodecLaws A Cmd Ev St Err} `{HSC : !StateCodecLaws St Err}.
Context (cfg : GatewayConfig A Cmd Ev Err Id W).
Local Abbreviation pid i := (es_persistence_id (factory cfg i)).

(** Every event can be encoded, every aggregate has a persistence id of its own that recovery
    does not change, and the builder does not let the number of kept snapshots be zero. *)
Context (encodes : ∀ e : Ev, ∃ b, encode_event e = inr b).
Context (pid_inj : ∀ i k, pid i = pid k → i = k).
Context (pid_kept : ∀ a st n, es_persistence_id (recovery_completed a st n) = es_persistence_id a).
Context (keeps : ∀ sc, snapshot cfg = Some sc → (1 ≤ sc_keep_last sc)%N).

(** A record that holds an event, with its tags. *)
Definition stored_as (r : PersistentRepr) (e : Ev) : Prop :=
  decode_event (payload r) = inr e ∧ tags r = event_tags e ∧ deleted r = false.

Definition stream_ok (p : string) (view : list PersistentRepr) (l : list Ev) : Prop :=
  numbered p 1 view ∧ Forall2 stored_as view l.

(** A snapshot that can be decoded is the state of a prefix of the log. *)
Definition snap_ok (p : string) (s : SS) (l : list Ev) : Prop :=
  ∀ m data, snapshot_load p s = Some (m, data) →
    (snap_sequence_nr m ≤ N.of_nat (length l))%N ∧
    ∀ st, decode_state data = inr st → st = state_of (take (N.to_nat (snap_sequence_nr m)) l).

Definition entity_ok (i : Id) (ent : option (EntityState A Ev St)) (l : list Ev)
    (alive : option (A * list (string * list Ev))) : Prop :=
  match ent with
  | None => alive = None
  | Some e =>
      if recovered e
      then alive = Some (aggregate e, dedupe e) ∧ state e = state_of l ∧
           seq e = N.of_nat (length l) ∧ es_persistence_id (aggregate e) = pid i
      else alive = None ∧ e = EntityState_new (factory cfg i)
  end.

Lemma stored_not_deleted view l : Forall2 stored_as view l → Forall (λ r, deleted r = false) view.
Proof. induction 1 as [|r e view l (? & ? & ?) _ IH]; by constructor. Qed.

Lemma replay_stored view l st :
  Forall2 stored_as view l → replay_events view st = (foldl apply_event st l, None).
Proof.
  intros Hv; revert st; induction Hv as [|r e view l (Hd & _) _ IH]; intros st; [done|].
  cbn [replay_events foldl]. by rewrite Hd.
Qed.

(** *** Recovery *)

Lemma load_snapshot_ok i (v : Env Ev J SS W) l :
  snap_ok (pid i) (store v) l → (N.of_nat (length l) < u64_max)%N →
  ∃ k snap, load_snapshot cfg v (pid i) (EntityState_new (factory cfg i)) =
      (mkEntity (factory cfg i) (state_of (take k l)) 0 false [], snap) ∧
    k ≤ length l ∧ match snap with Some s => u64_add s 1 | None => 1%N end = (N.of_nat k + 1)%N.
Proof.
  intros Hsnap Hb. unfold load_snapshot, EntityState_new.
  destruct (snapshot cfg); [|by exists 0, None; split_and!; [|lia|]].
  destruct (snapshot_load (pid i) (store v)) as [[m data]|] eqn:Hl;
    [|by exists 0, None; split_and!; [|lia|]].
  destruct (Hsnap m data Hl) as [Hm Hdec].
  destruct (decode_state data) as [err|st]; [by exists 0, None; split_and!; [|lia|]|].
  exists (N.to_nat (snap_sequence_nr m)), (Some (snap_sequence_nr m)).
  rewrite <- (Hdec st eq_refl). split_and!; [done|lia|].
  rewrite u64_add_small; unfold u64_max, u64_modulus in *; lia.
Qed.

Lemma recover_entity_ok i (v : Env Ev J SS W) l :
  stream_ok (pid i) (journal_view (journal v) (pid i)) l → snap_ok (pid i) (store v) l →
  (N.of_nat (length l) < u64_max)%N →
  let n := N.of_nat (length l) in
  recover_entity (Err := Err) true cfg v (EntityState_new (factory cfg i)) =
    (mkEntity (recovery_completed (factory cfg i) (state_of l) n) (state_of l) n true [], inr tt).
Proof.
  intros [Hnum Hst] Hsnap Hb n. assert (Hb' : (N.of_nat (length l) < u64_modulus)%N)
    by (unfold u64_max, u64_modulus in *; lia). unfold recover_entity. cbn [negb].
  set (view := journal_view (journal v) (pid i)) in *.
  assert (Hlen : length view = length l) by (by eapply Forall2_length).
  destruct (load_snapshot_ok i v l Hsnap Hb) as (k & snap & Hload & Hk & Hfrom).
  change (es_persistence_id (aggregate (EntityState_new (factory cfg i)))) with (pid i).
  rewrite Hload, journal_highest, Hfrom. fold view. cbv beta iota.
  destruct (numbered_last _ _ Hnum ltac:(lia)) as [Hlast _]. rewrite Hlast, Hlen.
  fold n. cbn [state aggregate seq recovered dedupe].
  destruct (N.leb_spec (N.of_nat k + 1) n) as [Hle|Hgt].
  - rewrite journal_replay. fold view. unfold n. rewrite <- Hlen.
    rewrite (numbered_replayable_from (pid i)); [|done|lia|by apply (stored_not_deleted _ l)|lia|lia].
    rewrite take_N_all; [|rewrite length_drop; unfold u64_max, u64_modulus in *; lia].
    rewrite (replay_stored _ (drop k l)) by (by apply Forall2_drop).
    cbn [fmap option_fmap option_map]. unfold state_of.
    by rewrite <- foldl_app, take_drop.
  - by rewrite take_ge by lia.
Qed.

(** *** Persisting *)

Lemma gateway_reprs_ok p mf writer events n :
  (n + N.of_nat (length events) < u64_modulus)%N →
  ∃ reprs, gateway_reprs p mf writer events n = ((n + N.of_nat (length events))%N, inr reprs) ∧
    numbered p (u64_add n 1) reprs ∧ Forall2 stored_as reprs events.
Proof.
  revert n; induction events as [|e events IH]; intros n Hb; cbn [gateway_reprs length] in *.
  { exists []. rewrite N.add_0_r. by split_and!. }
  destruct (encodes e) as [b Henc]. rewrite Henc, u64_add_small by lia.
  destruct (IH (n + 1)%N ltac:(lia)) as (reprs & -> & Hnum & Hst).
  replace (n + 1 + N.of_nat (length events))%N with (n + N.of_nat (S (length events)))%N by lia.
  eexists; split_and!; [done|done|]. constructor; [|done]. split_and!; [|done|done].
  by apply decode_encode.
Qed.

(** The entity of [i] once it is recovered. *)
Definition awake (l : list Ev) (a : A) (ring : list (string * list Ev)) : EntityState A Ev St :=
  mkEntity a (state_of l) (N.of_nat (length l)) true ring.

Lemma persist_events_ok i (v : Env Ev J SS W) l a ring events :
  stream_ok (pid i) (journal_view (journal v) (pid i)) l → es_persistence_id a = pid i →
  (N.of_nat (length (l ++ events)) < u64_max)%N →
  ∃ j, persist_events (Err := Err) cfg v (awake l a ring) events =
      (awake (l ++ events) a ring, mkEnv j (store v) (chans v) (world v), inr tt) ∧
    stream_ok (pid i) (journal_view j (pid i)) (l ++ events) ∧
    ∀ q, q ≠ pid i → journal_view j q = journal_view (journal v) q.
Proof.
  intros [Hnum Hst] Ha Hb. rewrite length_app in Hb.
  assert (Hlen : length (journal_view (journal v) (pid i)) = length l) by (by eapply Forall2_length).
  assert (Hb' : (N.of_nat (length l) + N.of_nat (length events) < u64_modulus)%N)
    by (unfold u64_max, u64_modulus in *; lia).
  unfold persist_events. cbn [awake aggregate seq state recovered dedupe]. rewrite Ha.
  destruct (gateway_reprs_ok (pid i) (event_manifest a) (gw_writer cfg) events
              (N.of_nat (length l)) Hb') as (reprs & -> & Hrn & Hrs).
  destruct (numbered_last _ _ Hnum ltac:(lia)) as [_ Hexp]. rewrite Hlen in Hexp.
  pose proof (journal_write_other (journal v) reprs) as Hoth.
  destruct (journal_write_ok (journal v) (pid i) reprs) as (j & Hw & Hview).
  { by rewrite Hexp. }
  rewrite Hw in Hoth |- *. exists j. split_and!.
  - unfold awake, state_of. by rewrite foldl_app, length_app, Nat2N.inj_add.
  - rewrite Hview. split; [|by apply Forall2_app]. apply numbered_app; [unfold u64_max, u64_modulus in *; lia|done|].
    rewrite Hlen. destruct events as [|e events]; [by apply Forall2_nil_inv_r in Hrs as ->|].
    cbn [length] in Hb'. rewrite u64_add_small in Hrn by lia. by rewrite N.add_comm.
  - intros q Hq. apply (Hoth q). apply Forall_forall. intros r Hr Hp. apply Hq. subst q.
    eapply Forall_forall in Hr; [|eapply numbered_pid, Hrn]. done.
Qed.

(** *** Snapshots *)

Lemma snap_ok_app p (s : SS) l events : snap_ok p s l → snap_ok p s (l ++ events).
Proof.
  intros Hs m data Hload. destruct (Hs m data Hload) as [Hm Hst].
  rewrite length_app. split; [lia|]. intros st Hd. rewrite take_app_le by lia. by apply Hst.
Qed.

Lemma take_snapshot_ok now i (v : Env Ev J SS W) l a ring :
  snap_ok (pid i) (store v) l → es_persistence_id a = pid i → l ≠ [] →
  ∃ s, take_snapshot now cfg v (awake l a ring) = Some (mkEnv (journal v) s (chans v) (world v)) ∧
    snap_ok (pid i) s l ∧ ∀ q, q ≠ pid i → snapshot_load q s = snapshot_load q (store v).
Proof.
  intros Hs Ha Hl. unfold take_snapshot. destruct v as [j s0 ch w]. cbn [journal store chans world] in *.
  destruct (snapshot cfg) as [sc|] eqn:Hcfg; [|by exists s0].
  case_match; [|by exists s0]. cbn [awake state seq aggregate].
  destruct (encode_state (state_of l)) as [[err|data]|] eqn:Henc; [by exists s0| |by exists s0].
  rewrite Ha.
  destruct (sc_save_spec sc now (pid i) (N.of_nat (length l)) data s0) as (s & -> & Hload & Hoth).
  - by apply keeps.
  - destruct l; [done|cbn; lia].
  - intros m d Hm. by destruct (Hs m d Hm).
  - exists s. split_and!; [done| |done]. intros m d Hm. rewrite Hload in Hm. simplify_eq.
    cbn. split; [done|]. intros st Hd. rewrite Nat2N.id, take_ge by done.
    rewrite (decode_encode_state _ _ Henc) in Hd. by simplify_eq.
Qed.

(** *** One command *)

Definition id_ok (i : Id) (v : Env Ev J SS W) (l : list Ev) (ent : option (EntityState A Ev St))
    (alive : option (A * list (string * list Ev))) : Prop :=
  stream_ok (pid i) (journal_view (journal v) (pid i)) l ∧ snap_ok (pid i) (store v) l ∧
  entity_ok i ent l alive.

Lemma awake_ok i (v : Env Ev J SS W) l a ring :
  stream_ok (pid i) (journal_view (journal v) (pid i)) l → snap_ok (pid i) (store v) l →
  es_persistence_id a = pid i → id_ok i v l (Some (awake l a ring)) (Some (a, ring)).
Proof. intros. unfold id_ok. by split_and!. Qed.

(** The aggregate and the ring a command of [i] works with. *)
Lemma wake_ok permit i (v : Env Ev J SS W) l ent alive :
  id_ok i v l ent alive → (N.of_nat (length l) < u64_max)%N →
  let e := default (EntityState_new (factory cfg i)) ent in
  let n := N.of_nat (length l) in
  let a := default (recovery_completed (factory cfg i) (state_of l) n) (fst <$> alive) in
  let ring := default [] (snd <$> alive) in
  dedupe e = ring ∧ es_persistence_id a = pid i ∧ id_ok i v l (Some e) alive ∧
  (if recovered e then (e, inr tt) else recover_entity permit cfg v e) =
    match (match alive with Some _ => true | None => permit end) with
    | true => (awake l a ring, inr tt)
    | false => (e, inl (PInvariant (Err := Err) "recovery permit denied"))
    end.
Proof.
  intros (Hst & Hsn & He) Hb e n a ring.
  assert (Hrec : ∀ p, recover_entity p cfg v (EntityState_new (factory cfg i)) =
    if p then (awake l (recovery_completed (factory cfg i) (state_of l) n) [], inr tt)
    else (EntityState_new (factory cfg i), inl (PInvariant (Err := Err) "recovery permit denied"))).
  { intros []; [by apply recover_entity_ok|done]. }
  unfold id_ok, entity_ok in *. destruct ent as [e0|]; cbn [default from_option id] in *.
  - destruct (recovered e0) eqn:Hr; destruct_and? He.
    + subst alive a ring e. cbn in *. rewrite Hr. split_and!; [done..|].
      destruct e0 as [a0 st0 n0 r0 d0]. cbn in *. by subst.
    + subst alive a ring e e0. cbn in *. rewrite pid_kept. by split_and!.
  - subst alive a ring e. cbn in *. rewrite pid_kept. by split_and!.
Qed.

(** The two sides agree on what a command of [i] touches. *)
Definition agree (i : Id) (gw : Gateway A Ev St Id) (v : Env Ev J SS W) (s : EventStore A Ev Id W)
    : Prop :=
  id_ok i v (log_of s i) (entities gw !! i) (live s !! i) ∧
  same_open (chans v) (event_taps (slots cfg)) (taps gw) ∧
  chans v = es_chans s ∧ world v = es_world s.

(** A command of [i] leaves the rest alone. *)
Definition frame (i : Id) (gw : Gateway A Ev St Id) (v : Env Ev J SS W)
    (gw' : Gateway A Ev St Id) (v' : Env Ev J SS W) : Prop :=
  (∀ k, k ≠ i → entities gw' !! k = entities gw !! k) ∧
  (∀ q, q ≠ pid i → journal_view (journal v') q = journal_view (journal v) q ∧
                   snapshot_load q (store v') = snapshot_load q (store v)) ∧
  (∀ j, is_open (chans v') j = is_open (chans v) j).

Lemma frame_quiet i gw v e tps : frame i gw v (mkGateway (<[i := e]> (entities gw)) tps) v.
Proof. unfold frame. cbn. split_and!; [|done|done]. intros k Hk. by rewrite lookup_insert_ne. Qed.

(** The command fails, or produces nothing, after the entity has woken up. *)
Lemma quiet_ok i gw v s a ring :
  agree i gw v s → es_persistence_id a = pid i →
  let l := log_of s i in
  agree i (mkGateway (<[i := awake l a ring]> (entities gw)) (taps gw)) v
    (mkEventStore (<[i := l]> (log s)) (<[i := (a, ring)]> (live s)) (es_chans s) (es_world s)).
Proof.
  intros ((Hst & Hsn & _) & Hso & Hch & Hw) Ha l. unfold agree, log_of. cbn.
  rewrite !lookup_insert_eq. cbn. by split_and!.
Qed.

(** The events are persisted and the invariants fail. *)
Lemma violated_ok i gw v s a ring events j :
  agree i gw v s → es_persistence_id a = pid i →
  let l := log_of s i ++ events in
  stream_ok (pid i) (journal_view j (pid i)) l →
  agree i (mkGateway (<[i := awake l a ring]> (entities gw)) (taps gw))
    (mkEnv j (store v) (chans v) (world v))
    (mkEventStore (<[i := l]> (log s)) (<[i := (a, ring)]> (live s)) (es_chans s) (es_world s)).
Proof.
  intros ((Hst & Hsn & _) & Hso & Hch & Hw) Ha l Hst'. unfold agree, log_of. cbn.
  rewrite !lookup_insert_eq. cbn. split_and!; try done.
  apply awake_ok; cbn; [done|by apply snap_ok_app|done].
Qed.

(** The command succeeds. *)
Lemma success_ok i gw v s a ring' events j st :
  agree i gw v s → es_persistence_id a = pid i →
  let l := log_of s i ++ events in
  stream_ok (pid i) (journal_view j (pid i)) l → snap_ok (pid i) st l →
  let '(tps, v') := notify cfg (taps gw) (mkEnv j st (chans v) (world v)) events in
  agree i (mkGateway (<[i := mkEntity a (state_of l) (N.of_nat (length l)) true ring']> (entities gw)) tps) v'
    (mkEventStore (<[i := l]> (log s)) (<[i := (a, ring')]> (live s))
       (push_events events (event_taps (slots cfg)) (es_chans s)).2
       (foldl (λ w ev, notify_listeners (slots cfg) ev w) (es_world s) events)) ∧
  journal v' = j ∧ store v' = st ∧ ∀ k, is_open (chans v') k = is_open (chans v) k.
Proof.
  intros (_ & Hso & Hch & Hw) Ha l Hst Hsn. unfold notify. cbn [chans world journal store].
  destruct (push_events_spec events _ _ _ Hso) as (Hp & Hopen & Hso').
  destruct (push_events events (taps gw) (chans v)) as [tps ch]. cbn [fst snd] in *. subst ch.
  unfold agree, log_of. cbn. rewrite !lookup_insert_eq, Hch, Hw. cbn. split_and!; try done.
  - rewrite <- Hch. by eapply same_open_ext.
  - intros k. by rewrite <- Hch.
Qed.

Lemma process_ok permit now gw v s cmd :
  let i := aggregate_id cmd in
  let s' := (spec_send permit cfg s cmd).1 in
  agree i gw v s → (N.of_nat (length (log_of s i)) < u64_max)%N →
  (N.of_nat (length (log_of s' i)) < u64_max)%N →
  ∃ gw' v', process permit now cfg gw v cmd = Some (gw', v', (spec_send permit cfg s cmd).2) ∧
    agree i gw' v' s' ∧ frame i gw v gw' v'.
Proof.
  intros i s' Hag Hb. subst s'. unfold process, spec_send.
  destruct (run_interceptors (slots cfg) cmd) as [err|_]; [by exists gw, v|]. fold i.
  pose proof Hag as (Hid & Hso & Hch & Hw).
  destruct (wake_ok permit i v _ _ _ Hid Hb) as (Hring & Ha & Hid' & Hwake).
  rewrite Hring. set (ring := default [] (snd <$> live s !! i)) in *.
  set (a := default _ (fst <$> live s !! i)) in *.
  set (e := default (EntityState_new (factory cfg i)) (entities gw !! i)) in *.
  assert (Hkeep : ∀ s0, s0 = s →
    agree i (mkGateway (<[i := e]> (entities gw)) (taps gw)) v s0 ∧
    frame i gw v (mkGateway (<[i := e]> (entities gw)) (taps gw)) v).
  { intros s0 ->. split; [|apply frame_quiet]. unfold agree. cbn. rewrite lookup_insert_eq. done. }
  destruct (dedupe_key cfg cmd ≫= _) as [cached|]; [intros _; do 2 eexists; split; [done|]; by apply Hkeep|].
  unfold process_entity. rewrite Hwake. fold i.
  destruct (match live s !! i with Some _ => true | None => permit end);
    [|intros _; do 2 eexists; split; [done|]; by apply Hkeep].
  cbn [awake seq aggregate state]. set (l := log_of s i) in *.
  pose proof (quiet_ok i gw v s a ring Hag Ha) as Hquiet.
  destruct (version_conflict cmd (N.of_nat (length l))) as [err|];
    [intros _; do 2 eexists; split; [done|]; split; [done|apply frame_quiet]|].
  destruct (command_to_events a (state_of l) cmd) as [err|[|ev evs]];
    [intros _; do 2 eexists; split; [done|]; split; [done|apply frame_quiet]..|].
  intros Hb'.
  assert (Hlen : (N.of_nat (length (l ++ ev :: evs)) < u64_max)%N).
  { revert Hb'. destruct (check_invariants _); unfold log_of at 1; cbn; by rewrite lookup_insert_eq. }
  destruct (persist_events_ok i v l a ring (ev :: evs) (proj1 Hid) Ha Hlen)
    as (j & Hpe & Hst & Hoth). rewrite Hpe. cbn [state awake]. clear Hpe Hb'.
  destruct (check_invariants (state_of (l ++ ev :: evs))) as [err|_].
  { do 2 eexists; split; [done|]. split; [by apply (violated_ok i gw v s a ring)|].
    split_and!; [|by intros q Hq; split; [apply Hoth|]|done]. intros k Hk. cbn.
    by rewrite lookup_insert_ne. }
  destruct (take_snapshot_ok now i (mkEnv j (store v) (chans v) (world v)) (l ++ ev :: evs) a ring)
    as (st & Hsnap & Hsn & Hsoth); [by apply snap_ok_app, Hid|done|by destruct l|].
  rewrite Hsnap. cbn [mbind option_bind journal chans world].
  set (ring' := match dedupe_key cfg cmd with Some key => _ | None => ring end).
  pose proof (success_ok i gw v s a ring' (ev :: evs) j st Hag Ha Hst Hsn) as Hok.
  destruct (notify cfg (taps gw) _ _) as [tps v'] eqn:Hn. destruct Hok as (Hagree & Hj & Hs & Hopen).
  do 2 eexists; split; [done|]. split; [exact Hagree|]. split_and!; [| |exact Hopen].
  - intros k Hk. cbn. by rewrite lookup_insert_ne.
  - intros q Hq. rewrite Hj, Hs. split; [by apply Hoth|by apply Hsoth].
Qed.

(** *** Runs of the repository *)

Context (hash : Id → N) (shards : nat).
Local Abbreviation shard i := (shard_index hash i (Nat.max shards 1)).

Lemma shard_lt i : shard i < Nat.max shards 1.
Proof. unfold shard_index. pose proof (N.mod_lt (hash i) (N.of_nat (Nat.max (Nat.max shards 1) 1))). lia. Qed.

Lemma shard_max i : shard_index hash i shards = shard i.
Proof. unfold shard_index. do 3 f_equal. lia. Qed.

Record related (r : Repo A Ev St Id J SS W) (s : EventStore A Ev Id W) : Prop := {
  rel_len : length (gateways r) = Nat.max shards 1;
  rel_id i gw : gateways r !! shard i = Some gw →
    id_ok i (env r) (log_of s i) (entities gw !! i) (live s !! i);
  rel_taps k gw : gateways r !! k = Some gw →
    same_open (chans (env r)) (event_taps (slots cfg)) (taps gw);
  rel_chans : chans (env r) = es_chans s;
  rel_world : world (env r) = es_world s;
}.

Lemma spec_send_other permit s cmd k :
  k ≠ aggregate_id cmd →
  log_of (spec_send permit cfg s cmd).1 k = log_of s k ∧
  live (spec_send permit cfg s cmd).1 !! k = live s !! k.
Proof.
  intros Hk. unfold spec_send, log_of.
  repeat (match goal with |- context [match ?x with _ => _ end] => destruct x end);
    cbn; rewrite ?lookup_insert_ne by done; done.
Qed.

Lemma spec_send_grows permit s cmd i :
  length (log_of s i) ≤ length (log_of (spec_send permit cfg s cmd).1 i).
Proof.
  destruct (decide (i = aggregate_id cmd)) as [->|Hi]; [|by rewrite (proj1 (spec_send_other _ _ _ _ Hi))].
  unfold spec_send. set (l := log_of s (aggregate_id cmd)).
  repeat (match goal with |- context [match ?x with _ => _ end] => destruct x end);
    cbn [fst]; try done; unfold log_of; cbn [log]; rewrite lookup_insert_eq; cbn [default from_option id];
    rewrite ?length_app; lia.
Qed.

Lemma id_ok_other i k gw v gw' v' l ent alive :
  k ≠ i → frame i gw v gw' v' → id_ok k v l ent alive → id_ok k v' l ent alive.
Proof.
  intros Hk (_ & Hq & _) (Hst & Hsn & He). destruct (Hq (pid k)) as [Hj Hs].
  { intros Hp. by apply Hk, pid_inj. }
  split_and!; [by rewrite Hj| |done]. intros m d. rewrite Hs. apply Hsn.
Qed.

Lemma send_related r s permit now cmd :
  related r s → (∀ i, N.of_nat (length (log_of (spec_send permit cfg s cmd).1 i)) < u64_max)%N →
  ∃ r', send hash permit now cfg r cmd = Some (r', (spec_send permit cfg s cmd).2) ∧
    related r' (spec_send permit cfg s cmd).1.
Proof.
  intros Hr Hb. set (i := aggregate_id cmd). unfold send. fold i.
  destruct (lookup_lt_is_Some_2 (gateways r) (shard i)) as [gw Hgw].
  { rewrite (rel_len _ _ Hr). apply shard_lt. }
  rewrite (rel_len _ _ Hr), Hgw. cbn [mbind option_bind].
  destruct (process_ok permit now gw (env r) s cmd) as (gw' & v' & -> & (Hid & Hso & Hch & Hw) & Hfr).
  { unfold agree. split_and!; [by apply Hr|by eapply rel_taps|by apply Hr|by apply Hr]. }
  { pose proof (spec_send_grows permit s cmd i). specialize (Hb i). fold i. lia. }
  { apply Hb. }
  eexists; split; [done|]. fold i in Hid, Hfr. pose proof Hfr as (Hent & _ & Hopen).
  split; cbn [gateways env].
  - rewrite length_insert. apply Hr.
  - intros k gwk Hk. destruct (decide (k = i)) as [->|Hki].
    { rewrite list_lookup_insert_eq in Hk by (rewrite (rel_len _ _ Hr); apply shard_lt). by simplify_eq. }
    destruct (spec_send_other permit s cmd k Hki) as [-> ->].
    eapply id_ok_other; [exact Hki|exact Hfr|].
    destruct (decide (shard k = shard i)) as [He|He].
    + rewrite He, list_lookup_insert_eq in Hk by (rewrite (rel_len _ _ Hr); apply shard_lt). simplify_eq.
      rewrite Hent by done. apply (rel_id _ _ Hr). by rewrite He.
    + rewrite list_lookup_insert_ne in Hk by done. by apply (rel_id _ _ Hr).
  - intros k gwk Hk. destruct (decide (k = shard i)) as [->|Hne].
    + rewrite list_lookup_insert_eq in Hk by (rewrite (rel_len _ _ Hr); apply shard_lt). by simplify_eq.
    + rewrite list_lookup_insert_ne in Hk by done. eapply same_open_ext; [exact Hopen|].
      by eapply rel_taps.
  - done.
  - done.
Qed.

(** The other users of the journal have other persistence ids. *)
Definition op_foreign (op : RepoOp Cmd) : Prop :=
  match op with
  | OtherWrite ms => ∀ i, Forall (λ m, persistence_id m ≠ pid i) ms
  | _ => True
  end.

Lemma step_related r s op :
  related r s → op_foreign op →
  (∀ i, N.of_nat (length (log_of (spec_step hash shards cfg s op).1 i)) < u64_max)%N →
  ∃ r', repo_step hash cfg r op = Some (r', (spec_step hash shards cfg s op).2) ∧
    related r' (spec_step hash shards cfg s op).1.
Proof.
  intros Hr Hf Hb. destruct op as [permit now cmd|k|k|ms]; cbn [spec_step repo_step] in *.
  - destruct (send_related r s permit now cmd Hr) as (r' & -> & Hr').
    { intros i. specialize (Hb i). by destruct (spec_send permit cfg s cmd). }
    exists r'. destruct (spec_send permit cfg s cmd). done.
  - eexists; split; [done|]. split; cbn [gateways env log live es_chans es_world fst].
    + rewrite length_insert. apply Hr.
    + intros i gw Hgw. unfold log_of. cbn [log]. fold (log_of s i).
      destruct (decide (shard i = k)) as [<-|Hne].
      * rewrite list_lookup_insert_eq in Hgw by (rewrite (rel_len _ _ Hr); apply shard_lt). simplify_eq.
        destruct (lookup_lt_is_Some_2 (gateways r) (shard i)) as [gw Hgw].
        { rewrite (rel_len _ _ Hr). apply shard_lt. }
        destruct (rel_id _ _ Hr i gw Hgw) as (Hst & Hsn & _). split_and!; [done|done|].
        cbn. apply map_lookup_filter_None. right. intros x _. cbn. rewrite shard_max. naive_solver.
      * rewrite list_lookup_insert_ne in Hgw by done.
        rewrite map_lookup_filter. destruct (rel_id _ _ Hr i gw Hgw) as (Hst & Hsn & He).
        split_and!; [done|done|]. destruct (live s !! i); cbn; [|done].
        rewrite option_guard_True by (cbn; by rewrite shard_max). done.
    + intros j gw Hgw. destruct (decide (j = k)) as [->|Hne].
      * rewrite list_lookup_insert_Some in Hgw. destruct Hgw as [(_ & <- & _)|[? _]]; done.
      * rewrite list_lookup_insert_ne in Hgw by done. by eapply rel_taps.
    + apply Hr.
    + apply Hr.
  - eexists; split; [done|]. destruct Hr as [H1 H2 H3 H4 H5].
    split; cbn [gateways env chans world es_chans es_world fst]; [done|done| |by rewrite H4|done].
    intros j gw Hgw. by eapply same_open_close, H3.
  - eexists; split; [done|]. destruct Hr as [H1 H2 H3 H4 H5]. split; try done.
    intros i gw Hgw. destruct (H2 i gw Hgw) as (Hst & Hsn & He). split_and!; [|done|done].
    cbn. by rewrite journal_write_other.
Qed.

Lemma spec_step_grows s op i :
  length (log_of s i) ≤ length (log_of (spec_step hash shards cfg s op).1 i).
Proof.
  destruct op as [permit now cmd| | |]; [|reflexivity..]. cbn [spec_step].
  pose proof (spec_send_grows permit s cmd i). by destruct (spec_send permit cfg s cmd).
Qed.

Lemma spec_run_grows ops s i :
  length (log_of s i) ≤ length (log_of (spec_run hash shards cfg ops s).1 i).
Proof.
  revert s; induction ops as [|op ops IH]; intros s; cbn [spec_run]; [cbn; lia|].
  pose proof (spec_step_grows s op i). destruct (spec_step hash shards cfg s op) as [s1 rep].
  specialize (IH s1). destruct (spec_run hash shards cfg ops s1) as [s2 reps]. cbn [fst] in *. lia.
Qed.

Lemma run_related ops r s :
  related r s → Forall op_foreign ops →
  (∀ i, N.of_nat (length (log_of (spec_run hash shards cfg ops s).1 i)) < u64_max)%N →
  ∃ r', repo_run hash cfg ops r = Some (r', (spec_run hash shards cfg ops s).2) ∧
    related r' (spec_run hash shards cfg ops s).1.
Proof.
  intros Hr Hf. revert r s Hr; induction Hf as [|op ops Hop Hf IH]; intros r s Hr Hb; cbn [spec_run repo_run] in *.
  { by exists r. }
  destruct (step_related r s op Hr Hop) as (r1 & -> & Hr1).
  { intros i. specialize (Hb i). destruct (spec_step hash shards cfg s op) as [s1 rep]. cbn [fst] in *.
    pose proof (spec_run_grows ops s1 i). destruct (spec_run hash shards cfg ops s1). cbn [fst] in *. lia. }
  destruct (spec_step hash shards cfg s op) as [s1 rep]. cbn [fst snd mbind option_bind] in *.
  destruct (IH r1 s1 Hr1) as (r2 & -> & Hr2).
  { intros i. specialize (Hb i). by destruct (spec_run hash shards cfg ops s1). }
  exists r2. by destruct (spec_run hash shards cfg ops s1).
Qed.

Lemma related_new j st ch w :
  (∀ i, journal_view j (pid i) = [] ∧ snapshot_load (pid i) st = None) →
  related (repo_new cfg shards j st ch w) (mkEventStore ∅ ∅ ch w).
Proof.
  intros Hfresh. split; cbn [gateways env repo_new chans world es_chans es_world]; [by rewrite length_replicate| | |done|done].
  - intros i gw [-> _]%lookup_replicate_1. destruct (Hfresh i) as [Hj Hs].
    unfold id_ok, log_of. cbn. rewrite !lookup_empty, Hj. split_and!; [by split|by intros m d; rewrite Hs|done].
  - intros k gw [-> _]%lookup_replicate_1. done.
Qed.

(** The sharded command gateways implement one log of events per aggregate.  Whatever
    commands arrive, with gateways restarted, recovery permits denied, receivers of taps
    dropped and other users of the journal in between, every reply, every call of a listener
    and every send to a tap is the one the log determines: the version is the length of the
    log, the state is the fold of the log, a retry within the window gets the old events, and
    a command that is rejected changes nothing.  The journal holds exactly the log of each
    aggregate, numbered from one, with the tags of the events; snapshots, replay and the cached
    states are invisible, and nothing panics. *)
Theorem gateway_refines (ops : list (RepoOp Cmd)) (j : J) (st : SS) (ch : gmap nat (Chan Ev)) (w : W) :
  (∀ i, journal_view j (pid i) = [] ∧ snapshot_load (pid i) st = None) →
  Forall op_foreign ops →
  let '(s, replies) := spec_run hash shards cfg ops (mkEventStore ∅ ∅ ch w) in
  (∀ i, N.of_nat (length (log_of s i)) < u64_max)%N →
  ∃ r, repo_run hash cfg ops (repo_new cfg shards j st ch w) = Some (r, replies) ∧
    (∀ i, stream_ok (pid i) (journal_view (journal (env r)) (pid i)) (log_of s i)) ∧
    chans (env r) = es_chans s ∧ world (env r) = es_world s.
Proof.
  intros Hfresh Hf. pose proof (run_related ops _ _ (related_new j st ch w Hfresh) Hf) as Hrun.
  destruct (spec_run hash shards cfg ops _) as [s replies]. cbn [fst snd] in Hrun. intros Hb.
  destruct (Hrun Hb) as (r & Hr & Hrel). exists r. split_and!; [done| |apply Hrel|apply Hrel].
  intros i. destruct (lookup_lt_is_Some_2 (gateways r) (shard i)) as [gw Hgw].
  { rewrite (rel_len _ _ Hrel). apply shard_lt. }
  apply (rel_id _ _ Hrel i gw Hgw).
Qed.
End facts.
End GatewayFacts.

(** ** Retries *)

Section retries.
Context {A Cmd Ev St Err Id : Type} `{E : Eventsourced A Cmd Ev St Err}.
Context `{AR : AggregateRoot St Err} `{HC : Command Cmd Id} `{HD : DomainEvent Ev}.
Context `{HId : Countable Id}.
Context {J SS W : Type} `{HJ : Journal J} `{HSS : SnapshotStore SS}.

Lemma dedupe_find_app key (ring : list (string * list Ev)) k evs :
  dedupe_find key ring = None → dedupe_find key (ring ++ [(k, evs)]) = if decide (k = key) then Some evs else None.
Proof. induction ring as [|[k' evs'] ring IH]; cbn; [done|]. destruct (decide (k' = key)); [done|apply IH]. Qed.

Lemma dedupe_find_None key (ring : list (string * list Ev)) : dedupe_find key ring = None ↔ key ∉ ring.*1.
Proof.
  induction ring as [|[k evs] ring IH]; cbn; [split; [intros _; apply not_elem_of_nil|done]|].
  rewrite not_elem_of_cons. case_decide; naive_solver.
Qed.

(** The new entry is found, and the ring keeps to its capacity. *)
Lemma push_dedupe_spec (ring : list (string * list Ev)) key evs cap :
  0 < cap → dedupe_find key ring = None →
  dedupe_find key (push_dedupe ring key evs cap) = Some evs ∧
  (length ring ≤ cap → length (push_dedupe ring key evs cap) ≤ cap).
Proof.
  intros Hcap Hf. pose proof Hf as Hk. rewrite dedupe_find_None in Hk. unfold push_dedupe.
  rewrite (proj2 (Nat.eqb_neq cap 0)) by lia. rewrite bool_decide_eq_false_2 by done. split.
  - rewrite dedupe_find_app; [by rewrite decide_True|]. destruct (cap <=? length ring); [|done].
    apply dedupe_find_None. destruct ring as [|[k l] ring]; [done|]. cbn in Hk |- *. set_solver.
  - destruct (Nat.leb_spec cap (length ring)); rewrite length_app; cbn; [|lia].
    destruct ring; cbn in *; lia.
Qed.

(** A command that was answered with events and is sent again at once gets the same events;
    the gateway, the journal, the snapshots, the listeners and the taps do not notice. *)
Lemma retry_idempotent (cfg : GatewayConfig A Cmd Ev Err Id W) permit now permit' now'
    gw (v : Env Ev J SS W) cmd key gw1 v1 evs :
  dedupe_key cfg cmd = Some key → evs ≠ [] →
  process permit now cfg gw v cmd = Some (gw1, v1, inr evs) →
  process permit' now' cfg gw1 v1 cmd = Some (gw1, v1, inr evs).
Proof.
  intros Hkey Hne. unfold process. destruct (run_interceptors (slots cfg) cmd); [done|].
  set (i := aggregate_id cmd). rewrite Hkey. cbn [mbind option_bind].
  set (e := default _ (entities gw !! i)).
  destruct (dedupe_find key (dedupe e)) as [cached|] eqn:Hf.
  { intros ?; simplify_eq. cbn [entities taps]. rewrite lookup_insert_eq. cbn [default from_option id].
    by rewrite Hf, insert_insert_eq. }
  destruct (process_entity permit now cfg (taps gw) v e cmd) as [[[[e' tps] v'] rep]|] eqn:Hp; [|done].
  cbn [mbind option_bind]. intros ?; simplify_eq. cbn [entities taps].
  rewrite lookup_insert_eq. cbn [default from_option id].
  assert (Hf' : dedupe_find key (dedupe e') = Some evs);
    [|by rewrite Hf', insert_insert_eq].
  assert (Hcap : 0 < dedupe_window cfg).
  { revert Hkey. unfold dedupe_key. destruct (Nat.ltb_spec 0 (dedupe_window cfg)); [done|by intros]. }
  assert (Hring : dedupe (if recovered e then (e, inr tt) else recover_entity (Err := Err) permit cfg v e).1 = dedupe e).
  { destruct (recovered e); [done|]. unfold recover_entity, load_snapshot. by split_matches. }
  revert Hp. unfold process_entity.
  destruct (if recovered e then _ else _) as [e1 [err|[]]]; [done|]. cbn [fst] in Hring.
  destruct (version_conflict cmd (seq e1)); [done|].
  destruct (command_to_events (aggregate e1) (state e1) cmd) as [err|[|ev evs']]; [done| |].
  { intros ?; simplify_eq. }
  unfold persist_events. destruct (gateway_reprs _ _ _ _ _) as [n [c|reprs]]; [done|].
  destruct (write_messages reprs (journal v)) as [j [err|[]]]; [done|].
  destruct (check_invariants _); [done|].
  destruct (take_snapshot _ _ _ _) as [env3|]; [|done]. cbn [mbind option_bind].
  destruct (notify cfg (taps gw) env3 (ev :: evs')) as [tps' env4]. rewrite Hkey.
  intros ?; simplify_eq. cbn [dedupe]. apply push_dedupe_spec; [done|]. by rewrite Hring.
Qed.
End retries.

(** ** A concrete aggregate *)

(** Accounts with a limit: a deposit of nothing is accepted without an event, one that would
    pass 100 is refused, and a total above 50 violates the invariant. *)
Record Deposit := mkDeposit {
  dep_account : string; dep_version : option N; dep_key : option string; dep_amount : Byte.byte }.

#[local] Instance deposit_command : Command Deposit string := {
  aggregate_id := dep_account; expected_version := dep_version; command_id := dep_key }.

#[local] Instance deposit_event : DomainEvent Byte.byte := {
  event_tags b := if (Byte.to_N b <? 10)%N then ["small"] else ["large"];
  event_correlation_id _ := None }.

#[local] Instance account : Eventsourced string Deposit Byte.byte N string := {
  es_persistence_id a := "account-" +:+ a;
  event_manifest _ := "deposit";
  command_to_events _ st c :=
    if (Byte.to_N (dep_amount c) =? 0)%N then inr []
    else if (100 <? st + Byte.to_N (dep_amount c))%N then inl "limit" else inr [dep_amount c];
  apply_event st b := (st + Byte.to_N b)%N;
  encode_event b := inr [b];
  decode_event bs := match bs with [b] => inr b | _ => inl "length" end;
  recovery_completed a _ _ := a;
  state_default := 0%N;
}.

#[local] Instance account_root : AggregateRoot N string := {
  check_invariants st := if (50 <? st)%N then inl "above 50" else inr tt;
  encode_state st := match Byte.of_N st with Some b => Some (inr [b]) | None => None end;
  decode_state bs := match bs with [b] => inr (Byte.to_N b) | _ => inl "length" end;
}.

#[local] Instance account_codec : CodecLaws string Deposit Byte.byte N string.
Proof. constructor. intros e b. cbn. by intros [= <-]. Qed.

#[local] Instance account_state_codec : StateCodecLaws N string.
Proof.
  intros st b. cbn. destruct (Byte.of_N st) as [x|] eqn:Hx; intros; simplify_eq.
  f_equal. by apply Byte.to_of_N.
Qed.

(** The listener of the demonstration keeps the events. *)
Definition demo_slots : ExtensionSlots Deposit Byte.byte string (list Byte.byte) :=
  mkSlots [λ c, if decide (dep_account c = "closed") then inl (PIntercepted "closed") else inr tt]
    [λ ev w, w ++ [ev]] [] [7].
Definition demo_config : GatewayConfig string Deposit Byte.byte string string (list Byte.byte) :=
  mkConfig id "writer" demo_slots (Some (mkSnapshotConfig (Periodic 2) 1)) 2.
Definition demo_hash (s : string) : N := N.of_nat (String.length s).

Definition deposit a key b : RepoOp Deposit := Send true 0 (mkDeposit a None key b).

Definition demo_cqrs_ops : list (RepoOp Deposit) :=
  [deposit "a" (Some "k1") Byte.x05; deposit "bb" None Byte.x14; deposit "a" (Some "k1") Byte.x05;
   deposit "a" None Byte.x06; deposit "closed" None Byte.x01; Restart 1; CloseTap 7;
   OtherWrite [mkPersistentRepr "other" 1 [] "evt" "v" false []]; Send true 0 (mkDeposit "a" (Some 2%N) None Byte.x07);
   Send true 0 (mkDeposit "a" (Some 2%N) None Byte.x07); deposit "bb" None Byte.xff].

Definition demo_replies : list (option (PatternError string + list Byte.byte)) :=
  [Some (inr [Byte.x05]); Some (inr [Byte.x14]); Some (inr [Byte.x05]); Some (inr [Byte.x06]);
   Some (inl (PIntercepted "closed")); None; None; None; Some (inr [Byte.x07]);
   Some (inl (PConcurrencyConflict 2 3)); Some (inl (PDomain "limit"))].

Definition run_replies {R X} (o : option (R * list X)) : list X := match o with Some (_, l) => l | None => [] end.

Lemma short_logs {A W} (s : EventStore A Byte.byte string W) :
  bool_decide (map_Forall (λ _ l, length l < 10) (log s)) = true →
  ∀ i, (N.of_nat (length (log_of s i)) < u64_max)%N.
Proof.
  intros Hl%bool_decide_eq_true i. unfold log_of. destruct (log s !! i) as [l|] eqn:E; cbn.
  - apply (map_Forall_lookup_1 _ _ _ _ Hl) in E. cbn in E. unfold u64_max. lia.
  - done.
Qed.

Lemma demo_foreign : Forall (GatewayFacts.op_foreign demo_config) demo_cqrs_ops.
Proof.
  unfold demo_cqrs_ops. repeat (apply Forall_cons; split; [|try apply Forall_nil]); try exact I; [].
  intros i. apply Forall_singleton. discriminate.
Qed.

Lemma demo_spec :
  let '(s, replies) := spec_run demo_hash 2 demo_config demo_cqrs_ops
    (mkEventStore ∅ ∅ {[ 7 := mkChan true [] ]} []) in
  log_of s "a" = [Byte.x05; Byte.x06; Byte.x07] ∧
  es_world s = [Byte.x05; Byte.x14; Byte.x06; Byte.x07] ∧ replies = demo_replies ∧
  bool_decide (map_Forall (λ _ l, length l < 10) (log s)) = true.
Proof. vm_compute. repeat split. Qed.

Lemma gateway_refines_witness :
  ∃ r, repo_run demo_hash demo_config demo_cqrs_ops
      (repo_new demo_config 2 InMemoryJournal_new InMemorySnapshotStore_new {[ 7 := mkChan true [] ]} []) =
      Some (r, demo_replies) ∧
    GatewayFacts.stream_ok "account-a" (journal_view (journal (env r)) "account-a") [Byte.x05; Byte.x06; Byte.x07] ∧
    world (env r) = [Byte.x05; Byte.x14; Byte.x06; Byte.x07].
Proof.
  pose proof (GatewayFacts.gateway_refines demo_config) as H.
  specialize (H ltac:(intros e; by eexists)).
  specialize (H ltac:(intros i k [=]; done) ltac:(done) ltac:(intros sc [= <-]; done) demo_hash 2
    demo_cqrs_ops InMemoryJournal_new InMemorySnapshotStore_new {[ 7 := mkChan true [] ]} []).
  specialize (H (λ i, conj eq_refl eq_refl)).
  specialize (H demo_foreign).
  destruct (spec_run demo_hash 2 demo_config demo_cqrs_ops _) as [s replies] eqn:Hs.
  pose proof demo_spec as Hs'. rewrite Hs in Hs'.
  destruct Hs' as (Ha & Hw & -> & Hb).
  destruct (H (short_logs s Hb)) as (r & Hr & Hst & _ & Hworld).
  exists r. split; [exact Hr|split; [|by rewrite Hworld]]. rewrite <- Ha. exact (Hst "a").
Defined.

(** ** What the gateway does otherwise *)

Definition demo_run (ops : list (RepoOp Deposit)) :=
  repo_run demo_hash demo_config ops
    (repo_new demo_config 1 InMemoryJournal_new InMemorySnapshotStore_new {[ 7 := mkChan true [] ]} []).

(** A violated invariant is answered with the domain error although the event is in the
    journal; neither the listener nor the tap hears of it, and a retry persists it again. *)
Lemma invariant_error_persists :
  let cmd := deposit "a" (Some "k") Byte.x28 in
  match demo_run [cmd; deposit "a" (Some "q") Byte.x14; deposit "a" (Some "q") Byte.x14] with
  | Some (r, replies) =>
      replies = [Some (inr [Byte.x28]); Some (inl (PDomain "above 50")); Some (inl (PDomain "above 50"))] ∧
      payload <$> journal_view (journal (env r)) "account-a" = [[Byte.x28]; [Byte.x14]; [Byte.x14]] ∧
      world (env r) = [Byte.x28] ∧ ch_sent <$> chans (env r) !! 7 = Some [Byte.x28]
  | None => False
  end.
Proof. vm_compute. repeat split. Qed.

(** The ring drops the oldest entry, also when it was the last to be asked for: with a window
    of two, the retry of [k1] after [k2], a hit on [k1] and [k3] persists the deposit again. *)
Lemma dedupe_is_not_lru :
  match demo_run [deposit "a" (Some "k1") Byte.x01; deposit "a" (Some "k2") Byte.x02;
                  deposit "a" (Some "k1") Byte.x01; deposit "a" (Some "k3") Byte.x03;
                  deposit "a" (Some "k1") Byte.x01] with
  | Some (r, _) =>
      payload <$> journal_view (journal (env r)) "account-a" = [[Byte.x01]; [Byte.x02]; [Byte.x03]; [Byte.x01]]
  | None => False
  end.
Proof. vm_compute. reflexivity. Qed.

(** The same accounts with a codec that refuses amounts of 16 and more. *)
Definition picky : Eventsourced string Deposit Byte.byte N string := {|
  es_persistence_id := es_persistence_id; event_manifest := event_manifest;
  command_to_events := command_to_events; apply_event := apply_event;
  encode_event b := if (Byte.to_N b <? 16)%N then inr [b] else inl "too large";
  decode_event := decode_event; recovery_completed := recovery_completed;
  state_default := state_default |}.

(** An event that cannot be encoded leaves the counter of the entity ahead of the journal:
    every later command of the aggregate is refused by the journal, and an up-to-date
    [expected_version] is refused by the gateway, until the gateway is restarted. *)
Lemma gateway_codec_error_sticks :
  run_replies (repo_run (E := picky) demo_hash demo_config
    [deposit "a" None Byte.x05; deposit "a" None Byte.x14; deposit "a" None Byte.x06;
     Send true 0 (mkDeposit "a" (Some 1%N) None Byte.x06); Restart 0; deposit "a" None Byte.x06]
    (repo_new demo_config 1 InMemoryJournal_new InMemorySnapshotStore_new ∅ [])) =
  [Some (inr [Byte.x05]); Some (inl (PCodec "too large")); Some (inl (PJournal (SequenceOutOfOrder 2 3)));
   Some (inl (PConcurrencyConflict 1 2)); None; Some (inr [Byte.x06])].
Proof. vm_compute. reflexivity. Qed.
