(* ===== verification/CqrsRead.v ===== *)
(** * Commands, queries and their gateway: the read side
    ([crates/atomr-patterns/src/cqrs]: [reader.rs], [projection.rs], [event_codec.rs], [audit.rs]
    and the reader runners of [builder.rs])

    A reader folds the events of a read journal into a projection.  The task of a reader keeps
    an offset per stream; the trace of the model lists the envelopes whose event was handed to
    the reader.  Rebuilding a projection is an operation beside the task. *)

From stdpp Require Import gmap strings list.
From Stdlib Require Import NArith Lia.
From S2P Require Import Prelude Journal Eventsourced Outbox Cqrs.

(** ** Decoders by manifest *)

Section codecs.
Context {Ev : Type}.

Record EventCodecRegistry := mkRegistry {
  decoders : gmap string (Bytes → string + Ev);
  default_decoder : option (Bytes → string + Ev);
}.

Definition registry_new : EventCodecRegistry := mkRegistry ∅ None.
Definition register (mf : string) (f : Bytes → string + Ev) (r : EventCodecRegistry) : EventCodecRegistry :=
  mkRegistry (<[mf := f]> (decoders r)) (default_decoder r).
Definition with_default (f : Bytes → string + Ev) (r : EventCodecRegistry) : EventCodecRegistry :=
  mkRegistry (decoders r) (Some f).
Definition registry_decode (r : EventCodecRegistry) (mf : string) (bs : Bytes) : option (string + Ev) :=
  match decoders r !! mf with
  | Some f => Some (f bs)
  | None => (λ f, f bs) <$> default_decoder r
  end.
End codecs.
Arguments EventCodecRegistry : clear implicits.

(** ** Readers *)

Inductive ReaderFilter :=
  | FilterAll
  | FilterTag (t : string)
  | FilterPersistenceId (id : string)
  | FilterPersistenceIds (ids : list string).

(** The default of [filter]. *)
Definition filter_of_tag (tag : option string) : ReaderFilter :=
  match tag with Some t => FilterTag t | None => FilterAll end.

(** [rd_apply] may change the reader and the projection also when it fails. *)
Class Reader (R P Ev : Type) := {
  rd_name : R → string;
  rd_filter : R → ReaderFilter;
  rd_decode : Bytes → string + Ev;
  rd_apply : R → P → Ev → R * P * (string + unit);
  projection_default : P;
}.

Section reader.
Context {R P Ev : Type} `{HR : Reader R P Ev}.
Context {RJ : Type} `{HRJ : ReadJournal RJ}.

(** [ReaderSpec]: the state and the offset are what the [ProjectionHandle] reads. *)
Record ReaderSpec := mkReaderSpec {
  rs_reader : R;
  rs_state : P;
  rs_offset : N;
  rs_name : string;
  rs_filter : ReaderFilter;
}.

Definition with_reader (r : R) : ReaderSpec :=
  mkReaderSpec r projection_default 0 (rd_name r) (rd_filter r).

Definition reader_apply (x : ReaderSpec) (event : Ev) : ReaderSpec * (string + unit) :=
  let '(r, p, res) := rd_apply (rs_reader x) (rs_state x) event in
  (mkReaderSpec r p (rs_offset x) (rs_name x) (rs_filter x), res).

(** [for attempt in 0..max_attempts]. *)
Fixpoint apply_attempts (n : nat) (x : ReaderSpec) (event : Ev) : ReaderSpec :=
  match n with
  | O => x
  | S n' =>
      match reader_apply x event with
      | (x', inr _) => x'
      | (x', inl _) => apply_attempts n' x' event
      end
  end.

(** A failure is logged. *)
Definition apply_with_retry (retry : option nat) (x : ReaderSpec) (event : Ev) : ReaderSpec :=
  match retry with
  | Some max_attempts => apply_attempts max_attempts x event
  | None => (reader_apply x event).1
  end.

(** [with_reader_retry]. *)
Definition with_reader_retry (max_attempts : nat) : option nat := Some (Nat.max max_attempts 1).

Definition resolve_pids (f : ReaderFilter) (rj : RJ) : JournalError + list string :=
  match f with
  | FilterAll | FilterTag _ => rj_all_persistence_ids rj
  | FilterPersistenceId id => inr [id]
  | FilterPersistenceIds ids => inr ids
  end.

Definition tag_passes (f : ReaderFilter) (env : EventEnvelope) : bool :=
  match f with
  | FilterTag t => bool_decide (t ∈ ev_tags env)
  | _ => true
  end.

(** The registry first, then the reader. *)
Definition decode_env (codecs : option (EventCodecRegistry Ev)) (env : EventEnvelope) : string + Ev :=
  match codecs ≫= λ r, registry_decode r (ev_manifest env) (ev_payload env) with
  | Some res => res
  | None => rd_decode (R := R) (P := P) (ev_payload env)
  end.

(** The task of a polled reader, with the trace. *)
Record Poller := mkPoller {
  po_spec : ReaderSpec;
  po_offsets : gmap string N;
  po_trace : list EventEnvelope;
}.

Definition poller_new (r : R) : Poller := mkPoller (with_reader r) ∅ [].

Section run.
Context (codecs : option (EventCodecRegistry Ev)) (retry : option nat).

(** The events of one stream; [max_seq] is [max_seq_seen]. *)
Fixpoint poll_events (pid : string) (envs : list EventEnvelope) (max_seq : N) (x : Poller)
    : N * Poller :=
  match envs with
  | [] => (max_seq, x)
  | env :: rest =>
      let offsets := <[pid := ev_sequence_nr env]> (po_offsets x) in
      if tag_passes (rs_filter (po_spec x)) env then
        match decode_env codecs env with
        | inr event =>
            poll_events pid rest (N.max max_seq (ev_sequence_nr env))
              (mkPoller (apply_with_retry retry (po_spec x) event) offsets (po_trace x ++ [env]))
        | inl _ => poll_events pid rest max_seq (mkPoller (po_spec x) offsets (po_trace x))
        end
      else poll_events pid rest max_seq (mkPoller (po_spec x) offsets (po_trace x))
  end.

Fixpoint poll_streams (pids : list string) (rj : RJ) (max_seq : N) (x : Poller) : N * Poller :=
  match pids with
  | [] => (max_seq, x)
  | pid :: pids' =>
      match rj_events_by_persistence_id pid (next_from pid (po_offsets x)) u64_max rj with
      | inl _ => poll_streams pids' rj max_seq x
      | inr envs => let '(m, x') := poll_events pid envs max_seq x in poll_streams pids' rj m x'
      end
  end.

Definition set_offset (o : N) (s : ReaderSpec) : ReaderSpec :=
  mkReaderSpec (rs_reader s) (rs_state s) o (rs_name s) (rs_filter s).

(** One round of [run_reader_poll]. *)
Definition poll_reader (rj : RJ) (x : Poller) : Poller :=
  match resolve_pids (rs_filter (po_spec x)) rj with
  | inl _ => x
  | inr pids =>
      let '(m, x') := poll_streams pids rj (rs_offset (po_spec x)) x in
      mkPoller (set_offset m (po_spec x')) (po_offsets x') (po_trace x')
  end.

(** [run_reader_live]: the events the bus has delivered. *)
Definition live_reader (events : list Ev) (s : ReaderSpec) : ReaderSpec :=
  foldl (apply_with_retry retry) s events.

(** The loops of [rebuild_one_projection]; an error ends them and keeps what was applied.  The
    texts of the errors are shortened. *)
Fixpoint rebuild_events (envs : list EventEnvelope) (max_seq : N) (s : ReaderSpec)
    : ReaderSpec * (string + N) :=
  match envs with
  | [] => (s, inr max_seq)
  | env :: rest =>
      if tag_passes (rs_filter s) env then
        match codecs ≫= λ r, registry_decode r (ev_manifest env) (ev_payload env) with
        | None => (s, inl "no decoder for manifest")
        | Some (inl c) => (s, inl c)
        | Some (inr event) =>
            match reader_apply s event with
            | (s', inl c) => (s', inl ("apply during rebuild: " +:+ c))
            | (s', inr _) => rebuild_events rest (N.max max_seq (ev_sequence_nr env)) s'
            end
        end
      else rebuild_events rest max_seq s
  end.

Fixpoint rebuild_streams (pids : list string) (rj : RJ) (max_seq : N) (s : ReaderSpec)
    : ReaderSpec * (string + N) :=
  match pids with
  | [] => (s, inr max_seq)
  | pid :: pids' =>
      match rj_events_by_persistence_id pid 1 u64_max rj with
      | inl _ => (s, inl "read pid")
      | inr envs =>
          match rebuild_events envs max_seq s with
          | (s', inl c) => (s', inl c)
          | (s', inr m) => rebuild_streams pids' rj m s'
          end
      end
  end.

(** The reset, the replay and the final offset. *)
Definition rebuild_one_projection (rj : RJ) (s : ReaderSpec) : ReaderSpec * (string + unit) :=
  let s0 := mkReaderSpec (rs_reader s) projection_default 0 (rs_name s) (rs_filter s) in
  match resolve_pids (rs_filter s0) rj with
  | inl _ => (s0, inl "list pids")
  | inr pids =>
      match rebuild_streams pids rj 0 s0 with
      | (s', inl c) => (s', inl c)
      | (s', inr m) => (set_offset m s', inr tt)
      end
  end.
End run.
End reader.
Arguments ReaderSpec : clear implicits.
Arguments Poller : clear implicits.

(** A journal that is written while the reader polls it. *)
Inductive ReadOp :=
  | RdWrite (ms : list PersistentRepr)
  | RdPoll
  | RdRebuild.

Section runs.
Context {R P Ev : Type} `{HR : Reader R P Ev} {J : Type} `{HJ : Journal J}.
Context (codecs : option (EventCodecRegistry Ev)) (retry : option nat).

Definition read_step (x : Poller R P * J) (op : ReadOp) : Poller R P * J :=
  match op with
  | RdWrite ms => (x.1, (write_messages ms x.2).1)
  | RdPoll => (poll_reader codecs retry x.2 x.1, x.2)
  | RdRebuild =>
      (mkPoller (rebuild_one_projection codecs x.2 (po_spec x.1)).1 (po_offsets x.1) (po_trace x.1), x.2)
  end.

Definition read_run (ops : list ReadOp) (x : Poller R P * J) : Poller R P * J := foldl read_step x ops.
End runs.

(** ** The audit log *)

Module Audit.
Section audit.
Context {Ev : Type}.

Record AuditProjection := mkAudit { capacity : nat; entries : list Ev }.
Definition audit_default : AuditProjection := mkAudit 1024 [].
Definition recent (n : nat) (p : AuditProjection) : list Ev :=
  let n := Nat.min n (length (entries p)) in
  reverse (take n (reverse (entries p))).

Record AuditLog := mkAuditLog { al_name : string; al_capacity : nat }.
Definition with_capacity (c : nat) : AuditLog := mkAuditLog "audit" c.
Definition named (n : string) (a : AuditLog) : AuditLog := mkAuditLog n (al_capacity a).

Definition audit_apply (a : AuditLog) (p : AuditProjection) (event : Ev)
    : AuditLog * AuditProjection * (string + unit) :=
  let cap := if capacity p =? 0 then al_capacity a else capacity p in
  let kept := if cap <=? length (entries p) then tail (entries p) else entries p in
  (a, mkAudit cap (kept ++ [event]), inr tt).

#[export] Instance audit_reader : Reader AuditLog AuditProjection Ev := {
  rd_name := al_name;
  rd_filter _ := filter_of_tag None;
  rd_decode _ := inl "AuditLog: configure an EventCodecRegistry on the CQRS pattern";
  rd_apply := audit_apply;
  projection_default := audit_default;
}.
End audit.
Arguments AuditProjection : clear implicits.
End Audit.

(** ** Polling applies every event once *)

Module ReaderFacts.
Section facts.
Context {R P Ev : Type} `{HR : Reader R P Ev} {J : Type} `{HJ : JournalSpec J}.
Context (codecs : option (EventCodecRegistry Ev)) (retry : option nat).

(** What handing an envelope to the reader does. *)
Definition apply_env (s : ReaderSpec R P) (env : EventEnvelope) : ReaderSpec R P :=
  match decode_env (R := R) (P := P) codecs env with
  | inr event => apply_with_retry retry s event
  | inl _ => s
  end.

(** The envelopes the reader asks for and can decode. *)
Definition relevant (f : ReaderFilter) (env : EventEnvelope) : Prop :=
  tag_passes f env = true ∧
  match decode_env (R := R) (P := P) codecs env with inr _ => True | inl _ => False end.
#[local] Instance relevant_dec f env : Decision (relevant f env).
Proof. unfold relevant. destruct (decode_env _ _); apply _. Defined.

Definition max_nr (m : N) (envs : list EventEnvelope) : N := foldl (λ m e, N.max m (ev_sequence_nr e)) m envs.

Lemma reader_apply_filter s (event : Ev) : rs_filter (reader_apply s event).1 = rs_filter s.
Proof. unfold reader_apply. by destruct (rd_apply _ _ _) as [[]]. Qed.

Lemma apply_with_retry_filter s (event : Ev) : rs_filter (apply_with_retry retry s event) = rs_filter s.
Proof.
  unfold apply_with_retry. destruct retry as [n|]; [|apply reader_apply_filter].
  revert s; induction n as [|n IH]; intros s; cbn; [done|].
  pose proof (reader_apply_filter s event). destruct (reader_apply s event) as [s' [e|[]]]; cbn in *; [|done].
  by rewrite IH.
Qed.

Lemma reader_apply_offset o s (event : Ev) :
  reader_apply (set_offset o s) event = (set_offset o (reader_apply s event).1, (reader_apply s event).2).
Proof. unfold reader_apply. cbn. by destruct (rd_apply _ _ _) as [[]]. Qed.

Lemma apply_with_retry_offset o s (event : Ev) :
  apply_with_retry retry (set_offset o s) event = set_offset o (apply_with_retry retry s event).
Proof.
  unfold apply_with_retry. destruct retry as [n|]; [|by rewrite reader_apply_offset].
  revert s; induction n as [|n IH]; intros s; cbn; [done|].
  rewrite reader_apply_offset. destruct (reader_apply s event) as [s' [e|[]]]; cbn; [apply IH|done].
Qed.

Lemma foldl_apply_offset o s envs : foldl apply_env (set_offset o s) envs = set_offset o (foldl apply_env s envs).
Proof.
  revert s; induction envs as [|env envs IH]; intros s; cbn [foldl]; [done|]. unfold apply_env at 2 4.
  destruct (decode_env _ _); [apply IH|]. by rewrite apply_with_retry_offset, IH.
Qed.

(** One stream: every relevant envelope is handed over, in order, and the offset moves to the last. *)
Lemma poll_events_spec pid l m (x : Poller R P) :
  let rel := filter (relevant (rs_filter (po_spec x))) (EventEnvelope_from <$> l) in
  poll_events codecs retry pid (EventEnvelope_from <$> l) m x =
    (max_nr m rel, mkPoller (foldl apply_env (po_spec x) rel) (advance pid l (po_offsets x)) (po_trace x ++ rel)).
Proof.
  cbv zeta. revert m x; induction l as [|r l IH]; intros m x.
  { cbn. rewrite app_nil_r. by destruct x. }
  cbn [fmap list_fmap poll_events]. rewrite filter_cons, advance_cons.
  change (ev_sequence_nr (EventEnvelope_from r)) with (sequence_nr r).
  set (env := EventEnvelope_from r). set (envs := EventEnvelope_from <$> l) in *.
  destruct (tag_passes (rs_filter (po_spec x)) env) eqn:Ht.
  - destruct (decode_env codecs env) as [c|event] eqn:Hd.
    + rewrite decide_False by (unfold relevant; rewrite Hd; tauto). by rewrite IH.
    + rewrite decide_True by (unfold relevant; rewrite Hd; tauto). rewrite IH.
      cbn [po_spec po_offsets po_trace foldl]. rewrite apply_with_retry_filter.
      unfold max_nr. cbn [foldl]. rewrite <- app_assoc. unfold apply_env at 3. by rewrite Hd.
  - rewrite decide_False by (unfold relevant; rewrite Ht; naive_solver). by rewrite IH.
Qed.

(** The part of a trace that belongs to a stream. *)
Definition own (pid : string) (tr : list EventEnvelope) : list EventEnvelope :=
  filter (λ e, ev_persistence_id e = pid) tr.

(** The first [k] records of the stream have been dealt with, each once and in order. *)
Definition caught (f : ReaderFilter) (j : J) (o : gmap string N) (tr : list EventEnvelope)
    (pid : string) (k : nat) : Prop :=
  k ≤ length (journal_view j pid) ∧ offset_of o pid = N.of_nat k ∧
  own pid tr = filter (relevant f) (EventEnvelope_from <$> take k (journal_view j pid)).

Definition undeleted (j : J) : Prop := ∀ pid, Forall (λ r, deleted r = false) (journal_view j pid).

Lemma own_view_same room j pid f (l : list PersistentRepr) :
  well_numbered room j → (∀ r, r ∈ l → r ∈ journal_view j pid) →
  own pid (filter (relevant f) (EventEnvelope_from <$> l)) = filter (relevant f) (EventEnvelope_from <$> l).
Proof.
  intros Hw Hl. apply filter_all, Forall_forall. intros e [_ He]%list_elem_of_filter.
  apply list_elem_of_fmap in He as (r & -> & [i Hi]%Hl%list_elem_of_lookup).
  by destruct (view_lookup _ _ _ _ _ Hw Hi).
Qed.

Lemma own_view_other room j pid q f (l : list PersistentRepr) :
  well_numbered room j → (∀ r, r ∈ l → r ∈ journal_view j pid) → q ≠ pid →
  own q (filter (relevant f) (EventEnvelope_from <$> l)) = [].
Proof.
  intros Hw Hl Hq. apply filter_none. intros e [_ He]%list_elem_of_filter.
  apply list_elem_of_fmap in He as (r & -> & [i Hi]%Hl%list_elem_of_lookup).
  destruct (view_lookup _ _ _ _ _ Hw Hi) as [_ Hp]. cbn. congruence.
Qed.

Lemma unread_caught room f j o tr pid k :
  well_numbered room j → undeleted j → caught f j o tr pid k →
  unread j pid o = drop k (journal_view j pid).
Proof.
  intros Hw Hd (Hk & Ho & _). destruct (Hw pid) as [Hn Hb]. unfold unread, next_from.
  fold (offset_of o pid). rewrite Ho, N.min_l by lia.
  apply (numbered_replayable_from pid); [done| |apply Hd|done|lia]. unfold u64_max, u64_modulus in *. lia.
Qed.

Lemma caught_step room f j o tr pid k q kq :
  well_numbered room j → undeleted j → caught f j o tr pid k → caught f j o tr q kq →
  let news := drop k (journal_view j pid) in
  caught f j (advance pid news o) (tr ++ filter (relevant f) (EventEnvelope_from <$> news)) q
    (if decide (q = pid) then length (journal_view j pid) else kq).
Proof.
  intros Hw Hd (Hk & Ho & Htr) (Hkq & Hoq & Htrq) news.
  assert (Hsub : ∀ r, r ∈ news → r ∈ journal_view j pid).
  { intros r [i Hi]%list_elem_of_lookup. unfold news in Hi. rewrite lookup_drop in Hi.
    by eapply list_elem_of_lookup_2. }
  unfold caught, own in *. rewrite filter_app. case_decide as Hq; [subst q|].
  - fold (own pid (filter (relevant f) (EventEnvelope_from <$> news))).
    rewrite (own_view_same room j) by done. rewrite Htr. split_and!; [done| |].
    + rewrite offset_advance. unfold news. destruct (decide (k = length (journal_view j pid))) as [He|He].
      { rewrite drop_ge by lia. cbn. by rewrite Ho, He. }
      rewrite last_lookup, length_drop, lookup_drop.
      destruct (journal_view j pid !! _) as [r|] eqn:Hr; [|apply lookup_ge_None in Hr; lia].
      destruct (view_lookup _ _ _ _ _ Hw Hr) as [-> _]. lia.
    + rewrite (take_ge (journal_view j pid) (length (journal_view j pid))) by done. unfold news. by rewrite <- filter_app, <- fmap_app, take_drop.
  - fold (own q (filter (relevant f) (EventEnvelope_from <$> news))).
    rewrite (own_view_other room j pid q) by done. rewrite app_nil_r.
    by rewrite offset_advance_ne.
Qed.

(** A round over some streams. *)
Lemma poll_streams_spec room j pids m (x : Poller R P) f :
  well_numbered room j → undeleted j → rs_filter (po_spec x) = f →
  (∀ pid, ∃ k, caught f j (po_offsets x) (po_trace x) pid k) →
  ∃ news, let '(m', x') := poll_streams codecs retry pids j m x in
    m' = max_nr m news ∧ po_trace x' = po_trace x ++ news ∧
    po_spec x' = foldl apply_env (po_spec x) news ∧ rs_filter (po_spec x') = f ∧
    (∀ e, e ∈ news → ev_persistence_id e ∈ pids) ∧
    ∀ pid k, caught f j (po_offsets x) (po_trace x) pid k →
      caught f j (po_offsets x') (po_trace x') pid
        (if decide (pid ∈ pids) then length (journal_view j pid) else k).
Proof.
  intros Hw Hd. revert m x; induction pids as [|pid pids IH]; intros m x Hf Hc; cbn [poll_streams].
  { exists []. rewrite app_nil_r. split_and!; try done. by intros e ?%not_elem_of_nil. }
  destruct (Hc pid) as [k Hk]. rewrite (events_unread room) by done.
  rewrite (unread_caught room f j _ _ pid k Hw Hd Hk), poll_events_spec, Hf.
  set (l := drop k (journal_view j pid)). set (rel := filter (relevant f) _).
  pose proof (λ q kq, caught_step room f j _ _ pid k q kq Hw Hd Hk) as Hstep.
  assert (Hfilter : rs_filter (foldl apply_env (po_spec x) rel) = f).
  { rewrite <- Hf. generalize (po_spec x). clear. induction rel as [|env rel IH]; intros s; cbn; [done|].
    rewrite IH. unfold apply_env. destruct (decode_env _ _); [done|apply apply_with_retry_filter]. }
  set (x1 := mkPoller _ _ _).
  destruct (IH (max_nr m rel) x1 Hfilter) as (news & Hn).
  { intros q. destruct (Hc q) as [kq Hkq]. eexists. by apply Hstep. }
  destruct (poll_streams codecs retry pids j (max_nr m rel) x1) as [m' x'].
  destruct Hn as (-> & Ht & Hs & Hf' & Hin & Hcaught). exists (rel ++ news). split_and!.
  - unfold max_nr. by rewrite foldl_app.
  - rewrite Ht. cbn. by rewrite app_assoc.
  - rewrite Hs. cbn. by rewrite foldl_app.
  - done.
  - intros e [He|He]%elem_of_app; [|right; by apply Hin]. apply list_elem_of_filter in He as [_ He].
    apply list_elem_of_fmap in He as (r & -> & Hr). cbn. apply elem_of_cons. left.
    apply list_elem_of_lookup in Hr as [i Hi]. unfold l in Hi. rewrite lookup_drop in Hi.
    by destruct (view_lookup _ _ _ _ _ Hw Hi).
  - intros q kq Hkq. specialize (Hcaught q _ (Hstep q kq Hkq)). revert Hcaught.
    destruct (decide (q = pid)) as [->|Hq].
    + rewrite (decide_True (P := pid ∈ pid :: pids)) by left. by case_decide.
    + case_decide as H1; case_decide as H2; try done; exfalso; set_solver.
Qed.

(** *** Runs *)

Definition follows (f : ReaderFilter) (pid : string) : Prop :=
  match f with
  | FilterAll | FilterTag _ => True
  | FilterPersistenceId id => pid = id
  | FilterPersistenceIds ids => pid ∈ ids
  end.

#[local] Instance follows_dec f pid : Decision (follows f pid).
Proof. destruct f; cbn; apply _. Defined.

(** Writers append live records to one stream at a time; no rebuild. *)
Definition append_only (op : ReadOp) : Prop :=
  match op with
  | RdWrite ms => (∃ pid n, numbered pid n ms) ∧ Forall (λ r, deleted r = false) ms
  | RdPoll => True
  | RdRebuild => False
  end.

Definition op_size (op : ReadOp) : N := match op with RdWrite ms => N.of_nat (length ms) | _ => 0 end.
Definition ops_size (ops : list ReadOp) : N := foldr (λ op n, op_size op + n)%N 0%N ops.

Record read_inv (r0 : R) (x : Poller R P) (j : J) : Prop := {
  ri_deleted : undeleted j;
  ri_spec : set_offset 0 (po_spec x) = foldl apply_env (with_reader r0) (po_trace x);
  ri_filter : rs_filter (po_spec x) = rd_filter r0;
  ri_offset : rs_offset (po_spec x) = max_nr 0 (po_trace x);
  ri_follows e : e ∈ po_trace x → follows (rd_filter r0) (ev_persistence_id e);
  ri_caught pid : ∃ k, caught (rd_filter r0) j (po_offsets x) (po_trace x) pid k;
}.

Lemma poll_inv `{HL : !JournalLists J} room r0 x j :
  well_numbered room j → read_inv r0 x j →
  let x' := poll_reader codecs retry j x in
  read_inv r0 x' j ∧
  ∀ pid, follows (rd_filter r0) pid →
    own pid (po_trace x') = filter (relevant (rd_filter r0)) (EventEnvelope_from <$> journal_view j pid).
Proof.
  intros Hw [Hd Hs Hf Ho Hfol Hc]. unfold poll_reader. rewrite Hf.
  destruct (journal_lists j) as (all & Hall & Hlist).
  assert (∃ pids, resolve_pids (rd_filter r0) j = inr pids ∧
    (∀ pid, pid ∈ pids → follows (rd_filter r0) pid) ∧
    ∀ pid, follows (rd_filter r0) pid → pid ∈ pids ∨ journal_view j pid = []) as (pids & -> & Hp1 & Hp2).
  { destruct (rd_filter r0) as [| |id|ids]; cbn.
    1, 2: exists all; split_and!; [done|done|]; intros pid _;
      destruct (journal_view j pid) eqn:E; [by right|left; apply Hlist; by rewrite E].
    - exists [id]. split_and!; [done|set_solver|set_solver].
    - exists ids. split_and!; [done|done|auto]. }
  destruct (poll_streams_spec room j pids (rs_offset (po_spec x)) x (rd_filter r0) Hw Hd Hf Hc) as (news & Hn).
  destruct (poll_streams codecs retry pids j _ x) as [m' x'].
  destruct Hn as (-> & Ht & Hsp & Hf' & Hin & Hcaught). split.
  - split; cbn [po_spec po_trace po_offsets]; [done| |done| | |].
    + change (set_offset 0 (po_spec x') = foldl apply_env (with_reader r0) (po_trace x')).
      by rewrite Hsp, <- foldl_apply_offset, Hs, Ht, foldl_app.
    + cbn. rewrite Ho, Ht. unfold max_nr. by rewrite foldl_app.
    + intros e. rewrite Ht. intros [He|He]%elem_of_app; [by apply Hfol|]. by apply Hp1, Hin.
    + intros pid. destruct (Hc pid) as [k Hk]. eexists. by apply Hcaught.
  - intros pid Hpid. cbn [po_trace]. destruct (Hc pid) as [k Hk].
    destruct (Hcaught pid k Hk) as (Hk' & _ & ->). f_equal. f_equal.
    destruct (Hp2 pid Hpid) as [Hin'|Hnil]; [rewrite decide_True by done; by apply take_ge|].
    by rewrite Hnil, take_nil.
Qed.

Lemma write_inv room r0 x j ms :
  append_only (RdWrite ms) → well_numbered (N.of_nat (length ms) + room) j → read_inv r0 x j →
  well_numbered room (write_messages ms j).1 ∧ read_inv r0 x (write_messages ms j).1.
Proof.
  intros [(pid & n & Hms) Hdel] Hw [Hd Hs Hf Ho Hfol Hc].
  destruct (write_view room j ms pid n Hms Hw) as (Hw' & ext & Hp & He & Hq). split; [done|].
  assert (Hext : ∀ q, ∃ e, journal_view (write_messages ms j).1 q = journal_view j q ++ e ∧
    Forall (λ r, deleted r = false) e).
  { intros q. destruct (decide (q = pid)) as [->|Hne].
    - exists ext. split; [done|]. destruct He as [->| ->]; [done|constructor].
    - exists []. rewrite app_nil_r, Hq by done. by split. }
  split; try done.
  - intros q. destruct (Hext q) as (e & -> & He'). by apply Forall_app.
  - intros q. destruct (Hc q) as (k & Hk & Hok & Htr), (Hext q) as (e & Hv & _). exists k.
    unfold caught. rewrite Hv, length_app, take_app_le by lia. by split_and!; [lia|..].
Qed.

Lemma read_run_inv `{HL : !JournalLists J} r0 ops room x j :
  Forall append_only ops → well_numbered (ops_size ops + room) j → read_inv r0 x j →
  let '(x', j') := read_run codecs retry ops (x, j) in well_numbered room j' ∧ read_inv r0 x' j'.
Proof.
  intros Hops. revert x j; induction Hops as [|op ops Hop Hops IH]; intros x j Hw Hi; [done|].
  cbn [read_run foldl ops_size foldr] in *. destruct op as [ms| |]; [| |done]; cbn [read_step fst snd op_size] in *.
  - destruct (write_inv (ops_size ops + room) r0 x j ms Hop) as [Hw' Hi']; [|done|by apply IH].
    by rewrite N.add_assoc.
  - apply IH; [done|]. by eapply poll_inv.
Qed.

Lemma read_inv_new r0 j : (∀ pid, journal_view j pid = []) → read_inv r0 (poller_new r0) j.
Proof.
  intros Hj. split; try done; cbn.
  - intros pid. rewrite Hj. constructor.
  - by intros e ?%not_elem_of_nil.
  - intros pid. exists 0. unfold caught. rewrite Hj. split_and!; [cbn; lia|done|done].
Qed.

(** C30: a polled reader applies every event once.  However writers append to the journal
    between its rounds, after a round the reader has been handed, for every stream it follows,
    exactly the events of the stream that carry its tag and can be decoded, in the order of the
    journal and each once, and nothing of other streams; the projection is the fold of these
    events, failures of the reader included, and the offset of the handle is the highest number
    among them. *)
Theorem reader_exactly_once `{HL : !JournalLists J} (r0 : R) (ops : list ReadOp) (j0 : J) :
  (∀ pid, journal_view j0 pid = []) → Forall append_only ops → (ops_size ops < u64_max)%N →
  let '(x, j) := read_run codecs retry (ops ++ [RdPoll]) (poller_new r0, j0) in
  (∀ pid, own pid (po_trace x) =
     if decide (follows (rd_filter r0) pid)
     then filter (relevant (rd_filter r0)) (EventEnvelope_from <$> journal_view j pid) else []) ∧
  po_spec x = set_offset (max_nr 0 (po_trace x)) (foldl apply_env (with_reader r0) (po_trace x)).
Proof.
  intros Hj Hops Hb. unfold read_run. rewrite foldl_app. cbn [foldl].
  pose proof (read_run_inv r0 ops 0 (poller_new r0) j0 Hops) as Hrun.
  fold (read_run codecs retry ops (poller_new r0, j0)).
  destruct (read_run codecs retry ops (poller_new r0, j0)) as [x j].
  destruct Hrun as [Hw Hi]; [|by apply read_inv_new|].
  { intros pid. rewrite Hj. split; [done|]. cbn. lia. }
  cbn [read_step fst snd]. destruct (poll_inv 0 r0 x j Hw Hi) as [[Hd Hs Hf Ho Hfol Hc] Hall]. split.
  - intros pid. case_decide as Hp; [by apply Hall|]. apply filter_none. intros e He Heq. subst pid.
    by apply Hp, Hfol.
  - rewrite <- Hs, <- Ho. by destruct (po_spec _).
Qed.

(** *** Rebuilding *)

Section rebuild.
Context (Hreg : ∀ env, ∃ e, (codecs ≫= λ r, registry_decode r (ev_manifest env) (ev_payload env)) = Some (inr e)).
Context (Hok : ∀ r p (e : Ev), ∃ r' p', rd_apply r p e = (r', p', inr tt)).
Context (Hretry : retry ≠ Some 0).

Lemma apply_ok s (e : Ev) : reader_apply s e = (apply_with_retry retry s e, inr tt).
Proof.
  unfold apply_with_retry. destruct (Hok (rs_reader s) (rs_state s) e) as (r' & p' & Ha).
  assert (Hr : reader_apply s e = (mkReaderSpec r' p' (rs_offset s) (rs_name s) (rs_filter s), inr tt))
    by (unfold reader_apply; by rewrite Ha).
  destruct retry as [[|n]|]; cbn [apply_attempts]; rewrite ?Hr; done.
Qed.

Lemma rebuild_events_poll pid envs m x :
  let '(m', x') := poll_events codecs retry pid envs m x in
  rebuild_events codecs envs m (po_spec x) = (po_spec x', inr m') ∧
  ∀ q, q ≠ pid → po_offsets x' !! q = po_offsets x !! q.
Proof.
  revert m x; induction envs as [|env envs IH]; intros m x; cbn [poll_events rebuild_events]; [done|].
  destruct (tag_passes _ env).
  - unfold decode_env. destruct (Hreg env) as [e ->]. rewrite apply_ok.
    match goal with |- context [poll_events _ _ _ _ ?m' ?x'] => specialize (IH m' x') end.
    destruct (poll_events _ _ _ _ _ _) as [m' x']. destruct IH as [IH1 IH2]. split; [exact IH1|].
    intros q Hq. rewrite IH2 by done. cbn. by rewrite lookup_insert_ne.
  - match goal with |- context [poll_events _ _ _ _ ?m' ?x'] => specialize (IH m' x') end.
    destruct (poll_events _ _ _ _ _ _) as [m' x']. destruct IH as [IH1 IH2]. split; [exact IH1|].
    intros q Hq. rewrite IH2 by done. cbn. by rewrite lookup_insert_ne.
Qed.

Lemma rebuild_streams_poll pids (j : J) m x :
  NoDup pids → (∀ pid, pid ∈ pids → po_offsets x !! pid = None) →
  (∀ pid, ∃ envs, rj_events_by_persistence_id pid 1 u64_max j = inr envs) →
  let '(m', x') := poll_streams codecs retry pids j m x in
  rebuild_streams codecs pids j m (po_spec x) = (po_spec x', inr m').
Proof.
  intros Hnd Hnew Hread. revert m x Hnew; induction Hnd as [|pid pids Hnin Hnd IH]; intros m x Hnew;
    cbn [poll_streams rebuild_streams]; [done|].
  assert (next_from pid (po_offsets x) = 1%N) as -> by (unfold next_from; by rewrite Hnew by left).
  destruct (Hread pid) as [envs ->]. pose proof (rebuild_events_poll pid envs m x) as Hp.
  destruct (poll_events codecs retry pid envs m x) as [m1 x1]. destruct Hp as [-> Hoff].
  apply IH. intros q Hq. rewrite Hoff by (intros ->; done). apply Hnew. by right.
Qed.

(** With a registry for every manifest and a reader that does not fail, a rebuild of any
    projection gives what a new reader computes in its first round. *)
Lemma rebuild_is_fresh_poll (r0 : R) (j : J) s pids :
  resolve_pids (rd_filter r0) j = inr pids → NoDup pids →
  rs_reader s = r0 → rs_name s = rd_name r0 → rs_filter s = rd_filter r0 →
  rebuild_one_projection codecs j s = (po_spec (poll_reader codecs retry j (poller_new r0)), inr tt).
Proof.
  intros Hpids Hnd Hs1 Hs2 Hs3. unfold rebuild_one_projection, poll_reader.
  cbn [rs_filter poller_new po_spec with_reader rs_offset]. rewrite Hs1, Hs2, Hs3, Hpids.
  pose proof (rebuild_streams_poll pids j 0 (poller_new r0) Hnd) as Hp.
  destruct (poll_streams codecs retry pids j 0 (poller_new r0)) as [m x].
  cbn [poller_new po_spec po_offsets with_reader] in Hp. unfold with_reader in Hp.
  rewrite Hp; [done|done|]. intros pid. cbn. unfold Simple_events_by_persistence_id.
  rewrite journal_replay. by eexists.
Qed.
End rebuild.
End facts.
End ReaderFacts.

(** ** The audit log keeps the latest events *)

Module AuditFacts.
Import Audit.
Section facts.
Context {Ev : Type}.

Lemma audit_keeps_last (a : AuditLog) cap (evs : list Ev) :
  0 < cap →
  foldl (λ p e, (audit_apply a p e).1.2) (mkAudit cap []) evs = mkAudit cap (drop (length evs - cap) evs).
Proof.
  intros Hcap. induction evs as [|e evs IH] using rev_ind; [done|].
  rewrite foldl_app, IH, length_app. cbn [foldl audit_apply fst snd capacity entries length].
  rewrite (proj2 (Nat.eqb_neq cap 0)) by lia. f_equal. rewrite length_drop.
  destruct (Nat.leb_spec cap (length evs - (length evs - cap))).
  - replace (tail (drop (length evs - cap) evs)) with (drop (length evs + 1 - cap) evs).
    { rewrite drop_app_le by lia. done. }
    replace (length evs + 1 - cap) with (length evs - cap + 1) by lia. rewrite <- drop_drop.
    by destruct (drop (length evs - cap) evs).
  - replace (length evs - cap) with 0 by lia. replace (length evs + 1 - cap) with 0 by lia. done.
Qed.

Lemma recent_spec n (p : AuditProjection Ev) : recent n p = drop (length (entries p) - n) (entries p).
Proof.
  unfold recent. rewrite take_reverse, reverse_involutive. f_equal. lia.
Qed.
End facts.
End AuditFacts.

(** ** Demonstrations *)

(** A reader that keeps the bytes it is given and refuses zero. *)
#[local] Instance byte_reader : Reader ReaderFilter (list Byte.byte) Byte.byte := {
  rd_name _ := "bytes";
  rd_filter f := f;
  rd_decode := demo_decode;
  rd_apply f p b := if decide (b = Byte.x00) then (f, p, inl "zero") else (f, p ++ [b], inr tt);
  projection_default := [];
}.

Definition tagged_repr (pid : string) (n : N) (tag : string) (b : Byte.byte) : PersistentRepr :=
  mkPersistentRepr pid n [b] "evt" "w" false [tag].

Definition demo_read_ops : list ReadOp :=
  [RdWrite [tagged_repr "a" 1 "x" Byte.x01; tagged_repr "a" 2 "y" Byte.x02]; RdPoll;
   RdWrite [tagged_repr "b" 1 "x" Byte.x03]; RdWrite [tagged_repr "a" 3 "x" Byte.x04]].

Lemma reader_exactly_once_witness :
  let '(x, j) := read_run None (with_reader_retry 3) (demo_read_ops ++ [RdPoll])
    (poller_new (FilterTag "x"), InMemoryJournal_new) in
  ReaderFacts.own "a" (po_trace x) =
    EventEnvelope_from <$> [tagged_repr "a" 1 "x" Byte.x01; tagged_repr "a" 3 "x" Byte.x04] ∧
  rs_state (po_spec x) = [Byte.x01; Byte.x04; Byte.x03] ∧ rs_offset (po_spec x) = 3%N.
Proof.
  pose proof (ReaderFacts.reader_exactly_once None (with_reader_retry 3) (FilterTag "x") demo_read_ops
    InMemoryJournal_new) as H.
  specialize (H (λ pid, eq_refl)).
  assert (Hops : Forall ReaderFacts.append_only demo_read_ops).
  { unfold demo_read_ops. repeat (apply Forall_cons; split); try apply Forall_nil; try exact I.
    - split; [by exists "a", 1%N|repeat constructor].
    - split; [by exists "b", 1%N|repeat constructor].
    - split; [by exists "a", 3%N|repeat constructor]. }
  specialize (H Hops eq_refl).
  destruct (read_run _ _ _ _) as [x j] eqn:Hrun. destruct H as [Htr Hsp].
  assert (Hx : po_trace x = EventEnvelope_from <$> [tagged_repr "a" 1 "x" Byte.x01;
    tagged_repr "a" 3 "x" Byte.x04; tagged_repr "b" 1 "x" Byte.x03] ∧
    journal_view j "a" = [tagged_repr "a" 1 "x" Byte.x01; tagged_repr "a" 2 "y" Byte.x02;
      tagged_repr "a" 3 "x" Byte.x04]).
  { change x with (x, j).1. change j with (x, j).2 at 2. rewrite <- Hrun. vm_compute. done. }
  destruct Hx as [Hx Hj]. specialize (Htr "a"). rewrite Hj in Htr. rewrite Hx in Hsp.
  split; [rewrite Htr; reflexivity|]. rewrite Hsp. vm_compute. done.
Defined.

(** A rebuild beside the task: the task does not learn of it, and applies the event that it
    had not yet read once more. *)
Lemma rebuild_applies_twice :
  let codecs := Some (with_default demo_decode registry_new) in
  let run ops := (read_run codecs None ops (poller_new FilterAll, InMemoryJournal_new)).1 in
  let write n b := RdWrite [tagged_repr "a" n "x" b] in
  rs_state (po_spec (run [write 1%N Byte.x01; RdPoll; write 2%N Byte.x02; RdRebuild; RdPoll])) =
    [Byte.x01; Byte.x02; Byte.x02].
Proof. vm_compute. reflexivity. Qed.

(** Without a registry a rebuild fails after it has emptied the projection, and the events are
    not read again. *)
Lemma rebuild_without_registry_empties :
  let write n b := RdWrite [tagged_repr "a" n "x" b] in
  let '(x, j) := read_run None None [write 1%N Byte.x01; write 2%N Byte.x02; RdPoll]
    (poller_new FilterAll, InMemoryJournal_new) in
  rs_state (po_spec x) = [Byte.x01; Byte.x02] ∧
  (rebuild_one_projection None j (po_spec x)).2 = inl "no decoder for manifest" ∧
  rs_state (po_spec (read_run None None [RdRebuild; RdPoll] (x, j)).1) = [].
Proof. vm_compute. done. Qed.

(** The capacity of an audit log is not used: a projection starts with a capacity of 1024. *)
Lemma audit_capacity_ignored :
  let s := live_reader (HR := Audit.audit_reader) None [1; 2; 3; 4; 5]
    (with_reader (HR := Audit.audit_reader) (Audit.with_capacity 3)) in
  Audit.entries (rs_state s) = [1; 2; 3; 4; 5].
Proof. vm_compute. reflexivity. Qed.
