(* ===== verification/LruCache.v ===== *)
(** * The least-recently-used cache of remoting ([crates/atomr-remote/src/cache.rs])

    The cache stamps every entry with the tick of its last use and looks for the smallest
    stamp when it is full.  The reference is a list in the order of use. *)

From stdpp Require Import gmap list sorting.
From Stdlib Require Import NArith Lia.
From S2P Require Import Prelude.

(** ** The cache *)

Section cache.
Context {K V : Type} `{Countable K}.

Record LruCache := mkLru {
  capacity : nat;
  map : gmap K (V * N);
  tick : N;
}.

(** [None] is the failed assertion. *)
Definition lru_new (cap : nat) : option LruCache :=
  if 1 <=? cap then Some (mkLru cap ∅ 0) else None.

Definition lru_len (c : LruCache) : nat := size (map c).
Definition lru_is_empty (c : LruCache) : bool := size (map c) =? 0.
Definition lru_contains (k : K) (c : LruCache) : bool := bool_decide (is_Some (map c !! k)).

Definition lru_get (k : K) (c : LruCache) : option V * LruCache :=
  match map c !! k with
  | Some (v, _) =>
      let t := u64_add (tick c) 1 in
      (Some v, mkLru (capacity c) (<[k := (v, t)]> (map c)) t)
  | None => (None, c)
  end.

(** [iter().min_by_key(|(_, (_, last))| *last)]: the first of the smallest. *)
Fixpoint min_by_last (l : list (K * (V * N))) : option (K * (V * N)) :=
  match l with
  | [] => None
  | x :: l' =>
      match min_by_last l' with
      | Some y => if (y.2.2 <? x.2.2)%N then Some y else Some x
      | None => Some x
      end
  end.

(** The result is the evicted value. *)
Definition lru_put (k : K) (v : V) (c : LruCache) : option V * LruCache :=
  let t := u64_add (tick c) 1 in
  match map c !! k with
  | Some _ => (None, mkLru (capacity c) (<[k := (v, t)]> (map c)) t)
  | None =>
      if capacity c <=? size (map c) then
        match min_by_last (map_to_list (map c)) with
        | Some (k0, (v0, _)) =>
            (Some v0, mkLru (capacity c) (<[k := (v, t)]> (delete k0 (map c))) t)
        | None => (None, mkLru (capacity c) (<[k := (v, t)]> (map c)) t)
        end
      else (None, mkLru (capacity c) (<[k := (v, t)]> (map c)) t)
  end.

Definition lru_remove (k : K) (c : LruCache) : option V * LruCache :=
  (fst <$> map c !! k, mkLru (capacity c) (delete k (map c)) (tick c)).

Definition lru_clear (c : LruCache) : LruCache := mkLru (capacity c) ∅ 0.
Definition lru_peek (k : K) (c : LruCache) : option V := fst <$> map c !! k.

(** In the order of the map. *)
Definition lru_iter (c : LruCache) : list (K * V) := (λ kv, (kv.1, kv.2.1)) <$> map_to_list (map c).

Inductive LruOp :=
  | Get (k : K) | Put (k : K) (v : V) | Remove (k : K) | Clear | Peek (k : K) | Contains (k : K) | Len.

(** What a user of the cache sees. *)
Inductive Seen := SeenValue (v : option V) | SeenBool (b : bool) | SeenLen (n : nat) | SeenNothing.

Definition lru_op (c : LruCache) (op : LruOp) : Seen * LruCache :=
  match op with
  | Get k => let '(r, c') := lru_get k c in (SeenValue r, c')
  | Put k v => let '(r, c') := lru_put k v c in (SeenValue r, c')
  | Remove k => let '(r, c') := lru_remove k c in (SeenValue r, c')
  | Clear => (SeenNothing, lru_clear c)
  | Peek k => (SeenValue (lru_peek k c), c)
  | Contains k => (SeenBool (lru_contains k c), c)
  | Len => (SeenLen (lru_len c), c)
  end.

(** ** The reference: a list, the most recent use first *)

Definition without (k : K) (l : list (K * V)) : list (K * V) := filter (λ kv, kv.1 ≠ k) l.

Fixpoint find_key (k : K) (l : list (K * V)) : option V :=
  match l with
  | [] => None
  | (k', v) :: l' => if decide (k' = k) then Some v else find_key k l'
  end.

Definition ref_op (cap : nat) (l : list (K * V)) (op : LruOp) : Seen * list (K * V) :=
  match op with
  | Get k =>
      match find_key k l with
      | Some v => (SeenValue (Some v), (k, v) :: without k l)
      | None => (SeenValue None, l)
      end
  | Put k v =>
      match find_key k l with
      | Some _ => (SeenValue None, (k, v) :: without k l)
      | None =>
          if length l =? cap then (SeenValue (snd <$> last l), (k, v) :: removelast l)
          else (SeenValue None, (k, v) :: l)
      end
  | Remove k => (SeenValue (find_key k l), without k l)
  | Clear => (SeenNothing, [])
  | Peek k => (SeenValue (find_key k l), l)
  | Contains k => (SeenBool (bool_decide (is_Some (find_key k l))), l)
  | Len => (SeenLen (length l), l)
  end.

Fixpoint run_ops {S} (step : S → LruOp → Seen * S) (s : S) (ops : list LruOp) : list Seen * S :=
  match ops with
  | [] => ([], s)
  | op :: ops' =>
      let '(o, s1) := step s op in
      let '(os, s2) := run_ops step s1 ops' in (o :: os, s2)
  end.
End cache.
Arguments LruCache _ _ {_ _}.
Arguments LruOp : clear implicits.
Arguments Seen : clear implicits.

(** ** The cache is the list *)

Module LruFacts.
Section facts.
Context {K V : Type} `{Countable K}.
Implicit Types l : list (K * (V * N)).

(** [l] lists the entries of [m], each key once. *)
Definition lists (m : gmap K (V * N)) l : Prop :=
  NoDup l.*1 ∧ ∀ k x, m !! k = Some x ↔ (k, x) ∈ l.

Definition later (a b : K * (V * N)) : Prop := (b.2.2 < a.2.2)%N.
Definition drop_key (k : K) l : list (K * (V * N)) := filter (λ kv, kv.1 ≠ k) l.
Definition forget l : list (K * V) := (λ kv, (kv.1, kv.2.1)) <$> l.

Lemma fst_drop_key k l : (drop_key k l).*1 = filter (λ k', k' ≠ k) l.*1.
Proof.
  unfold drop_key. induction l as [|x l IH]; [done|]. cbn [fmap list_fmap]. rewrite !filter_cons.
  case_decide; cbn; by rewrite IH.
Qed.

Lemma lists_insert m l k x : lists m l → lists (<[k := x]> m) ((k, x) :: drop_key k l).
Proof.
  intros [Hnd Hm]. split.
  - cbn. rewrite fst_drop_key. apply NoDup_cons. split; [|by apply NoDup_filter].
    intros [? _]%list_elem_of_filter. done.
  - intros k' y. rewrite lookup_insert, elem_of_cons. unfold drop_key. rewrite list_elem_of_filter, <- Hm. cbn.
    case_decide; naive_solver.
Qed.

Lemma lists_delete m l k : lists m l → lists (delete k m) (drop_key k l).
Proof.
  intros [Hnd Hm]. split; [rewrite fst_drop_key; by apply NoDup_filter|].
  intros k' y. rewrite lookup_delete_Some. unfold drop_key. rewrite list_elem_of_filter, <- Hm. cbn. naive_solver.
Qed.

Lemma lists_perm m l : lists m l → map_to_list m ≡ₚ l.
Proof.
  intros [Hnd Hm]. apply NoDup_Permutation; [apply NoDup_map_to_list|by apply NoDup_fmap_1 in Hnd|].
  intros [k x]. by rewrite elem_of_map_to_list.
Qed.

Lemma lists_size m l : lists m l → size m = length l.
Proof. intros Hl. by rewrite <- length_map_to_list, (lists_perm m l Hl). Qed.

Lemma lists_find m l k : lists m l → fst <$> m !! k = find_key k (forget l).
Proof.
  intros [Hnd Hm]. destruct (m !! k) as [[v t]|] eqn:E.
  - apply Hm in E. clear Hm. induction l as [|[k' [v' t']] l IH]; [by apply not_elem_of_nil in E|]. cbn in *.
    apply NoDup_cons in Hnd as [Hk' Hnd]. apply elem_of_cons in E as [E|E].
    + simplify_eq. by rewrite decide_True.
    + rewrite decide_False; [by apply IH|]. intros <-. apply Hk'. apply list_elem_of_fmap.
      by exists (k', (v, t)).
  - assert (Hn : ∀ x, (k, x) ∉ l) by (intros x Hx; apply Hm in Hx; congruence). clear Hm E Hnd.
    induction l as [|[k' [v' t']] l IH]; [done|]. cbn in *.
    rewrite decide_False by (intros ->; apply (Hn (v', t')); left). apply IH. intros x Hx.
    apply (Hn x). by right.
Qed.

Lemma forget_drop k l : forget (drop_key k l) = without k (forget l).
Proof.
  unfold forget, drop_key, without. induction l as [|x l IH]; [done|]. cbn [fmap list_fmap].
  destruct (decide (x.1 ≠ k)); [rewrite !filter_cons_True by done|rewrite !filter_cons_False by done];
    [cbn [fmap list_fmap]; by f_equal|done].
Qed.

Lemma find_drop k (l : list (K * V)) : find_key k l = None → without k l = l.
Proof.
  intros Hf. apply filter_all. induction l as [|[k' v] l IH]; [constructor|]. cbn in Hf.
  case_decide; [done|]. constructor; [done|]. by apply IH.
Qed.

(** The smallest stamp is the end of the list. *)
Lemma min_by_last_perm (l l' : list (K * (V * N))) x :
  l ≡ₚ l' ++ [x] → StronglySorted later (l' ++ [x]) → min_by_last l = Some x.
Proof.
  intros Hp Hs.
  assert (Hmin : ∀ y, y ∈ l → y = x ∨ (x.2.2 < y.2.2)%N).
  { intros y. rewrite Hp. intros [Hy|Hy]%elem_of_app; [right|left; by apply list_elem_of_singleton].
    clear Hp. induction l' as [|z l' IH]; [by apply not_elem_of_nil in Hy|].
    apply StronglySorted_inv in Hs as [Hs Hz]. apply elem_of_cons in Hy as [->|Hy]; [|by apply IH].
    rewrite Forall_forall in Hz. apply (Hz x), elem_of_app. right. by apply list_elem_of_singleton. }
  assert (Hin : x ∈ l) by (rewrite Hp; apply elem_of_app; right; by apply list_elem_of_singleton).
  clear Hp Hs l'. induction l as [|z l IH]; [by apply not_elem_of_nil in Hin|]. cbn [min_by_last].
  assert (Hl : ∀ y, y ∈ l → y = x ∨ (x.2.2 < y.2.2)%N) by (intros y Hy; apply Hmin; by right).
  destruct (Hmin z (list_elem_of_here _ _)) as [->|Hz].
  - destruct (min_by_last l) as [y|] eqn:E; [|done].
    assert (y ∈ l) as Hy.
    { clear -E. revert y E; induction l as [|z l IH]; intros y; cbn; [done|].
      destruct (min_by_last l) as [w|]; [case_match|]; intros [= <-]; [right; by apply IH|left|left]. }
    destruct (N.ltb_spec y.2.2 x.2.2); [|done]. destruct (Hl y Hy) as [->|]; lia.
  - apply elem_of_cons in Hin as [->|Hin]; [lia|]. rewrite (IH Hl Hin).
    by rewrite (proj2 (N.ltb_lt _ _) Hz).
Qed.

(** The cache [c] with [room] ticks left holds the entries of [r], in the order of use. *)
Definition represents (room : N) (c : LruCache K V) (r : list (K * V)) : Prop :=
  ∃ l, r = forget l ∧ lists (map c) l ∧ StronglySorted later l ∧
    Forall (λ kv, (kv.2.2 ≤ tick c)%N) l ∧ length l ≤ capacity c ∧ 1 ≤ capacity c ∧
    (tick c + room < u64_modulus)%N.

(** Using or adding a key puts it in front. *)
Lemma touch_represents room cap m t l k v :
  lists m l → StronglySorted later l → Forall (λ kv, (kv.2.2 ≤ t)%N) l →
  length (drop_key k l) < cap → (t + 1 + room < u64_modulus)%N →
  represents room (mkLru cap (<[k := (v, u64_add t 1)]> m) (u64_add t 1)) ((k, v) :: without k (forget l)).
Proof.
  intros Hm Hs Ht Hlen Hb. rewrite u64_add_small by lia.
  exists ((k, (v, (t + 1)%N)) :: drop_key k l). cbn [map tick capacity].
  assert (Hd : Forall (λ kv, (kv.2.2 ≤ t)%N) (drop_key k l)).
  { rewrite !Forall_forall in *. intros x [_ Hx]%list_elem_of_filter. by apply Ht. }
  split_and!; try lia.
  - cbn. f_equal. symmetry. apply forget_drop.
  - by apply lists_insert.
  - constructor; [by apply sorted_filter|]. eapply Forall_impl; [exact Hd|].
    intros x Hx. unfold later. cbn in *. lia.
  - constructor; [cbn; lia|]. eapply Forall_impl; [exact Hd|]. intros x Hx. cbn in *. lia.
  - cbn. lia.
Qed.

Lemma length_drop_key k (l : list (K * (V * N))) : length (drop_key k l) ≤ length l.
Proof. apply length_filter. Qed.

Lemma length_drop_found k (l : list (K * (V * N))) x : (k, x) ∈ l → length (drop_key k l) < length l.
Proof.
  intros Hx. unfold drop_key. induction l as [|y l IH]; [by apply not_elem_of_nil in Hx|].
  rewrite filter_cons. pose proof (length_filter (λ kv : K * (V * N), kv.1 ≠ k) l).
  apply elem_of_cons in Hx as [<-|Hx].
  - rewrite decide_False by (cbn; naive_solver). cbn. lia.
  - specialize (IH Hx). case_decide; cbn; lia.
Qed.

Lemma drop_last_key (l : list (K * (V * N))) x : NoDup (l ++ [x]).*1 → drop_key x.1 (l ++ [x]) = l.
Proof.
  rewrite fmap_app. intros (Hl & Hx & _)%NoDup_app. unfold drop_key.
  rewrite filter_app, filter_cons_False, filter_nil, app_nil_r by (by intros []).
  apply filter_all, Forall_forall. intros y Hy He. apply (Hx y.1).
  - by apply list_elem_of_fmap_2.
  - rewrite He. by left.
Qed.

Lemma removelast_snoc {A} (l : list A) x : removelast (l ++ [x]) = l.
Proof. by rewrite removelast_app, app_nil_r. Qed.

Lemma put_represents room c r k v :
  represents (room + 1) c r →
  (lru_put k v c).1 = match (ref_op (capacity c) r (Put k v)).1 with SeenValue x => x | _ => None end ∧
  represents room (lru_put k v c).2 (ref_op (capacity c) r (Put k v)).2.
Proof.
  intros (l & -> & Hm & Hs & Ht & Hlen & Hcap & Hb). unfold lru_put. cbn [ref_op].
  pose proof (lists_find _ _ k Hm) as Hf. rewrite <- Hf.
  pose proof (lists_size _ _ Hm) as Hsize. rewrite Hsize.
  assert (Hlf : length (forget l) = length l) by apply length_fmap. rewrite Hlf.
  destruct (map c !! k) as [[v0 t0]|] eqn:Ek; cbn [fmap option_fmap option_map].
  { split; [done|]. apply touch_represents; [done..| |lia].
    pose proof (length_drop_found k l (v0, t0) ltac:(by apply Hm)). lia. }
  assert (Hw : without k (forget l) = forget l) by (apply find_drop; by rewrite <- Hf).
  destruct (Nat.leb_spec (capacity c) (length l)) as [Hfull|Hfree].
  2: { rewrite (proj2 (Nat.eqb_neq _ _)) by lia. split; [done|]. rewrite <- Hw.
       apply touch_represents; [done..| |lia]. pose proof (length_drop_key k l). lia. }
  rewrite (proj2 (Nat.eqb_eq _ _)) by lia.
  destruct (exists_last (l := l)) as (l0 & [k1 [v1 t1]] & ->).
  { intros ->. cbn in Hfull. lia. }
  rewrite (min_by_last_perm _ l0 (k1, (v1, t1)) (lists_perm _ _ Hm) Hs).
  unfold forget. rewrite fmap_app. cbn [fmap list_fmap fst snd]. rewrite last_snoc, removelast_snoc.
  split; [done|]. fold (forget l0).
  pose proof (drop_last_key l0 (k1, (v1, t1)) (proj1 Hm)) as Hd. cbn [fst] in Hd.
  assert (Hw0 : without k (forget l0) = forget l0).
  { apply find_drop. rewrite <- (lists_find (delete k1 (map c)) l0 k); [|by rewrite <- Hd; apply lists_delete].
    rewrite lookup_delete. by case_decide; rewrite ?Ek. }
  rewrite <- Hw0. apply touch_represents; [by rewrite <- Hd; apply lists_delete| | | |lia].
  - rewrite <- Hd. by apply sorted_filter.
  - by apply Forall_app in Ht as [Ht _].
  - pose proof (length_drop_key k l0). rewrite length_app in Hlen. cbn in Hlen. lia.
Qed.

Lemma ref_op_put cap (r : list (K * V)) k v : ∃ x, (ref_op cap r (Put k v)).1 = SeenValue x.
Proof. cbn. repeat case_match; by eexists. Qed.

Lemma represents_weaken room c r : represents (room + 1) c r → represents room c r.
Proof. intros (l & ? & ? & ? & ? & ? & ? & ?). exists l. split_and!; try done. lia. Qed.

Lemma op_represents room c r op :
  represents (room + 1) c r →
  (lru_op c op).1 = (ref_op (capacity c) r op).1 ∧ represents room (lru_op c op).2 (ref_op (capacity c) r op).2 ∧
  capacity (lru_op c op).2 = capacity c.
Proof.
  intros Hr. destruct op as [k|k v|k| |k|k|].
  2: { destruct (put_represents room c r k v Hr) as [H1 H2], (ref_op_put (capacity c) r k v) as [x Hx].
       rewrite Hx in H1. cbn [lru_op]. destruct (lru_put k v c) as [res c'] eqn:E. cbn [fst snd] in *. rewrite Hx, H1.
       split_and!; [done|done|]. unfold lru_put in E. by repeat case_match; simplify_eq. }
  all: pose proof (represents_weaken _ _ _ Hr) as Hr'; destruct Hr as (l & -> & Hm & Hs & Ht & Hlen & Hcap & Hb).
  - cbn [lru_op ref_op]. unfold lru_get. pose proof (lists_find _ _ k Hm) as Hf. rewrite <- Hf.
    destruct (map c !! k) as [[v t]|] eqn:Ek; cbn [fmap option_fmap option_map fst snd]; [|done].
    split_and!; [done| |done]. apply touch_represents; [done..| |lia].
    pose proof (length_drop_found k l (v, t) ltac:(by apply Hm)). lia.
  - cbn [lru_op ref_op lru_remove fst snd]. rewrite (lists_find _ _ k Hm). split_and!; [done| |done].
    exists (drop_key k l). cbn [map tick capacity]. pose proof (length_drop_key k l).
    split_and!; try lia; [by rewrite forget_drop|by apply lists_delete|by apply sorted_filter|].
    rewrite !Forall_forall in *. intros x [_ Hx]%list_elem_of_filter. by apply Ht.
  - cbn. split_and!; [done| |done]. exists []. cbn. split_and!; try done; [|constructor|lia|unfold u64_modulus in *; lia].
    split; [constructor|]. intros k x. rewrite lookup_empty. split; [done|]. by intros ?%not_elem_of_nil.
  - cbn [lru_op ref_op fst snd]. unfold lru_peek. by rewrite (lists_find _ _ k Hm).
  - cbn [lru_op ref_op fst snd]. unfold lru_contains. rewrite <- (lists_find _ _ k Hm). split_and!; [|done|done].
    f_equal. apply bool_decide_ext. by rewrite fmap_is_Some.
  - cbn [lru_op ref_op fst snd]. unfold lru_len. rewrite (lists_size _ _ Hm). by rewrite <- (length_fmap (λ kv, (kv.1, kv.2.1))).
Qed.

(** C27: The cache is the list of its entries in the order of use.  For every capacity of at
    least one and every sequence of fewer than 2^64 operations the answers are those of a list
    in which a look-up or a store moves the entry to the front, a store of a new key into a full
    list drops the last entry and returns its value, and peeking changes nothing; the number of
    entries never exceeds the capacity. *)
Theorem lru_refines (cap : nat) (c : LruCache K V) (ops : list (LruOp K V)) :
  lru_new cap = Some c → (N.of_nat (length ops) < u64_modulus)%N →
  (run_ops lru_op c ops).1 = (run_ops (ref_op cap) [] ops).1 ∧
  lru_len (run_ops lru_op c ops).2 = length (run_ops (ref_op cap) [] ops).2 ∧
  lru_len (run_ops lru_op c ops).2 ≤ cap.
Proof.
  unfold lru_new. destruct (Nat.leb_spec 1 cap) as [Hcap|]; [|done]. intros [= <-] Hb.
  assert (Hr : represents (N.of_nat (length ops)) (mkLru cap ∅ 0) ([] : list (K * V))).
  { exists []. cbn. split_and!; try done; [|constructor|lia].
    split; [constructor|]. intros k x. rewrite lookup_empty. split; [done|]. by intros ?%not_elem_of_nil. }
  clear Hb. remember (mkLru cap ∅ 0) as c eqn:Hc. assert (Hcc : capacity c = cap) by (by subst).
  clear Hc Hcap. revert c Hcc Hr. generalize ([] : list (K * V)).
  induction ops as [|op ops IH]; intros r c Hcc Hr; cbn [run_ops].
  { cbn. destruct Hr as (l & -> & Hm & _ & _ & Hlen & _). unfold lru_len, forget.
    rewrite (lists_size _ _ Hm), length_fmap. split_and!; [done|done|lia]. }
  destruct (op_represents (N.of_nat (length ops)) c r op) as (H1 & H2 & H3).
  { cbn [length] in Hr. by replace (N.of_nat (length ops) + 1)%N with (N.of_nat (S (length ops))) by lia. }
  rewrite Hcc in H1, H2, H3. destruct (lru_op c op) as [o c'], (ref_op cap r op) as [o' r']. cbn [fst snd] in *. subst o'.
  destruct (IH r' c' H3 H2) as (I1 & I2 & I3).
  destruct (run_ops lru_op c' ops) as [os c2], (run_ops (ref_op cap) r' ops) as [os' r2]. cbn [fst snd] in *.
  by subst.
Qed.
End facts.
End LruFacts.

Lemma lru_refines_witness :
  let ops : list (LruOp nat nat) := [Put 1 10; Put 2 20; Get 1; Put 3 30; Contains 2; Peek 1; Len] in
  ∃ c, lru_new 2 = Some c ∧
    (run_ops lru_op c ops).1 =
      [SeenValue None; SeenValue None; SeenValue (Some 10); SeenValue (Some 20); SeenBool false;
       SeenValue (Some 10); SeenLen 2].
Proof.
  intros ops. eexists; split; [reflexivity|].
  rewrite (proj1 (LruFacts.lru_refines 2 (mkLru 2 ∅ 0) ops eq_refl eq_refl)). reflexivity.
Defined.
