(* ===== verification/RemoteSystem.v ===== *)
(** * The remote actor system ([crates/atomr-remote/src])

    - [Frames] ([codec.rs]): length-prefixed frames around the encoding of a library.
    - [SendQueue] ([send_queue.rs]): the bounded queue of outgoing messages.
    - [Detectors] ([failure_detector.rs], [deadline_detector.rs],
      [failure_detector_registry.rs]): the interface of failure detectors, the deadline
      detector, the registry per address.
    - [Paths] ([system.rs], [parse_actor_path]): paths of recipients.
    - [Watcher] ([remote_watcher.rs]): local actors that watch remote ones.
    - [Serialization] ([serialization/mod.rs]): codecs by manifest and by type.
    - [SystemDaemon] ([system_daemon.rs] and [handle_inbound] of [system.rs]): what arrives.
    - [Router] ([router.rs]): routees on remote nodes. *)

From stdpp Require Import gmap strings list.
From Stdlib Require Import Ascii NArith Lia.
From S2P Require Import Prelude Encoding Address ActorCell Endpoint Association Config.

(** ** Frames *)

Module Frames.

Inductive CodecError :=
  | Io
  | EncodeErr (msg : string)
  | DecodeErr (msg : string)
  | FrameTooLarge (n max : nat).

(** The encoding of the library, with its documented symmetry. *)
Class PduCodec (T : Type) := {
  encode_pdu : T → CodecError + Bytes;
  decode_pdu : Bytes → CodecError + T;
}.
Class PduCodecLaws (T : Type) `{PduCodec T} : Prop :=
  decode_encode_pdu : ∀ pdu bs, encode_pdu pdu = inr bs → decode_pdu bs = inr pdu.

Definition to_be_bytes (n : N) : Bytes := reverse (to_le_bytes 4 n).
Definition from_be_bytes (bs : Bytes) : N := from_le_bytes (reverse bs).

Section frames.
Context {T : Type} `{PduCodec T}.

(** The bytes that are written; [as u32] keeps the low 32 bits of the length. *)
Definition write_frame (pdu : T) (max_size : nat) : CodecError + Bytes :=
  match encode_pdu pdu with
  | inl e => inl e
  | inr bs =>
      if max_size <? length bs then inl (FrameTooLarge (length bs) max_size)
      else inr (to_be_bytes (wrap32 (N.of_nat (length bs))) ++ bs)
  end.

(** [read_exact]: the bytes and what follows them, or the end of the input. *)
Definition read_exact (n : nat) (input : Bytes) : option (Bytes * Bytes) :=
  if n <=? length input then Some (take n input, drop n input) else None.

Definition read_frame (input : Bytes) (max_size : nat) : CodecError + T * Bytes :=
  match read_exact 4 input with
  | None => inl Io
  | Some (len, rest) =>
      let n := N.to_nat (from_be_bytes len) in
      if max_size <? n then inl (FrameTooLarge n max_size)
      else match read_exact n rest with
           | None => inl Io
           | Some (buf, rest') =>
               match decode_pdu buf with
               | inl e => inl e
               | inr pdu => inr (pdu, rest')
               end
           end
  end.

(** The frames of a connection, until an error; [fuel] bounds their number. *)
Fixpoint read_all (fuel : nat) (input : Bytes) (max_size : nat) : list T * CodecError :=
  match fuel with
  | O => ([], Io)
  | S fuel' =>
      match read_frame input max_size with
      | inl e => ([], e)
      | inr (pdu, rest) => let '(pdus, e) := read_all fuel' rest max_size in (pdu :: pdus, e)
      end
  end.
End frames.
End Frames.

(** ** The send queue *)

Module SendQueue.
Section queue.
Context {T : Type}.

Inductive Overflow := DropNew | DropOld | FailNew.
Inductive SendOutcome := Enqueued (depth : nat) | DroppedNew | DroppedOld.

Record BoundedSendQueue := mkQueue { items : list T; capacity : nat; policy : Overflow }.

Definition queue_new (cap : nat) (p : Overflow) : BoundedSendQueue := mkQueue [] (Nat.max cap 1) p.

(** [inl] is the error [BackPressure]. *)
Definition try_push (item : T) (q : BoundedSendQueue) : (unit + SendOutcome) * BoundedSendQueue :=
  if length (items q) <? capacity q then
    let l := items q ++ [item] in
    (inr (Enqueued (length l)), mkQueue l (capacity q) (policy q))
  else
    match policy q with
    | DropNew => (inr DroppedNew, q)
    | DropOld => (inr DroppedOld, mkQueue (tail (items q) ++ [item]) (capacity q) (policy q))
    | FailNew => (inl tt, q)
    end.

Definition pop (q : BoundedSendQueue) : option T * BoundedSendQueue :=
  match items q with
  | [] => (None, q)
  | x :: l => (Some x, mkQueue l (capacity q) (policy q))
  end.
End queue.
Arguments BoundedSendQueue : clear implicits.
End SendQueue.

(** ** Failure detectors *)

Module Detectors.

(** The time of the call is an argument. *)
Class FailureDetector (F : Type) := {
  fd_is_available : N → F → bool;
  fd_is_monitoring : F → bool;
  fd_heartbeat : N → F → F;
  fd_reset : F → F;
  fd_since_last_heartbeat : N → F → option N;
}.

Record Deadline := mkDeadline { pause : N; last_heartbeat : option N }.
Definition deadline_new (p : N) : Deadline := mkDeadline p None.

#[export] Instance deadline_detector : FailureDetector Deadline := {
  fd_is_available now d :=
    match last_heartbeat d with None => true | Some t => (now - t <? pause d)%N end;
  fd_is_monitoring d := bool_decide (is_Some (last_heartbeat d));
  fd_heartbeat now d := mkDeadline (pause d) (Some now);
  fd_reset d := mkDeadline (pause d) None;
  fd_since_last_heartbeat now d := (λ t, now - t)%N <$> last_heartbeat d;
}.

Section registry.
Context {F : Type} `{FailureDetector F}.

(** [factory] is the detector a new address gets. *)
Record Registry := mkRegistry { factory : F; detectors : gmap string F }.
Definition detectors_new (f : F) : Registry := mkRegistry f ∅.

Definition heartbeat (now : N) (from : Address) (r : Registry) : Registry :=
  mkRegistry (factory r)
    (entry_update (factory r) (fd_heartbeat now) (Address_to_string from) (detectors r)).
Definition is_available (now : N) (a : Address) (r : Registry) : bool :=
  match detectors r !! Address_to_string a with Some d => fd_is_available now d | None => true end.
Definition remove (a : Address) (r : Registry) : Registry :=
  mkRegistry (factory r) (delete (Address_to_string a) (detectors r)).
Definition addresses (r : Registry) : list string := (map_to_list (detectors r)).*1.
End registry.
Arguments Registry : clear implicits.
End Detectors.

(** ** Paths of recipients *)

Module Paths.

(** The text before the first slash, and the text from it. *)
Fixpoint break_slash (s : string) : string * string :=
  match s with
  | EmptyString => (EmptyString, EmptyString)
  | String c s' =>
      if Ascii.eqb c "/" then (EmptyString, s)
      else let '(a, b) := break_slash s' in (String c a, b)
  end.

Definition add_segment (path : ActorPath) (seg : string) : option ActorPath :=
  match split_once "#" seg with
  | Some (name, uid) =>
      n ← parse_uint u64_max uid;
      Some (ActorPath_with_uid n (ActorPath_child name path))
  | None => Some (ActorPath_child seg path)
  end.

Fixpoint add_segments (path : ActorPath) (segs : list string) : option ActorPath :=
  match segs with
  | [] => Some path
  | seg :: segs' => p ← add_segment path seg; add_segments p segs'
  end.

Definition segments (s : string) : list string := filter (λ x, x ≠ EmptyString) (split_char "/" s).

Definition parse_actor_path (s : string) : option ActorPath :=
  '(proto, after) ← split_once "://" s;
  let '(addr_str, path_str) := break_slash after in
  address ← Address_parse (proto +:+ "://" +:+ addr_str);
  add_segments (ActorPath_root address) (segments path_str).
End Paths.

(** ** The remote watcher *)

Module Watcher.
Import Detectors.

(** A reference is its path. *)
Record Watch := mkWatch { watcher : ActorPath; watchee : ActorPath }.
#[export] Instance Watch_eq_dec : EqDecision Watch.
Proof. solve_decision. Defined.

(** Messages to remote actors, [Terminated] to local ones, and the start of the periodic task. *)
Inductive Effect :=
  | TellSystem (to : ActorPath) (msg : RemoteSystemMsg)
  | NotifyTerminated (to whom : ActorPath)
  | StartSupervisor.

Section watcher.
Context {F : Type} `{FailureDetector F}.

Record RemoteWatcher := mkRemoteWatcher {
  rw_detectors : Registry F;
  watches : list Watch;
  terminated_addresses : gset string;
  started : bool;
}.

Definition watcher_new (r : Registry F) : RemoteWatcher := mkRemoteWatcher r [] ∅ false.

(** [endpoint] is the result of [endpoint_for]. *)
Definition watch (endpoint : TransportError + unit) (w e : ActorPath) (x : RemoteWatcher)
    : (TransportError + unit) * RemoteWatcher * list Effect :=
  match endpoint with
  | inl err => (inl err, x, [])
  | inr _ =>
      (inr tt,
       mkRemoteWatcher (rw_detectors x) (watches x ++ [mkWatch w e]) (terminated_addresses x) true,
       TellSystem e (RsWatch w) :: if started x then [] else [StartSupervisor])
  end.

Definition unwatch (endpoint : TransportError + unit) (w e : ActorPath) (x : RemoteWatcher)
    : RemoteWatcher * list Effect :=
  (mkRemoteWatcher (rw_detectors x) (filter (λ v, ¬ (watcher v = w ∧ watchee v = e)) (watches x))
     (terminated_addresses x) (started x),
   match endpoint with inl _ => [] | inr _ => [TellSystem e (RsUnwatch w)] end).

(** The addresses whose detector has tripped. *)
Definition tripped (now : N) (r : Registry F) (s : string) : bool :=
  match Address_parse s with Some a => negb (is_available now a r) | None => false end.

Definition bad (now : N) (x : RemoteWatcher) : list string :=
  filter (λ s, tripped now (rw_detectors x) s = true) (addresses (rw_detectors x)).

(** The loop over them. *)
Fixpoint report (l : list string) (ws : list Watch) (terminated : gset string)
    : gset string * list Effect :=
  match l with
  | [] => (terminated, [])
  | addr :: l' =>
      if decide (addr ∈ terminated) then report l' ws terminated
      else
        let '(t, effs) := report l' ws ({[addr]} ∪ terminated) in
        (t, ((λ v, NotifyTerminated (watcher v) (watchee v)) <$>
               filter (λ v, Address_to_string (ap_address (watchee v)) = addr) ws) ++ effs)
  end.

Definition check (now : N) (x : RemoteWatcher) : RemoteWatcher * list Effect :=
  match bad now x with
  | [] => (x, [])
  | l =>
      let '(t, effs) := report l (watches x) (terminated_addresses x) in
      (mkRemoteWatcher (rw_detectors x) (watches x) t (started x), effs)
  end.

Definition watch_count (x : RemoteWatcher) : nat := length (watches x).

(** The detectors are those of the endpoint manager, which feeds them. *)
Inductive WatcherOp :=
  | WoWatch (endpoint : TransportError + unit) (w e : ActorPath)
  | WoUnwatch (endpoint : TransportError + unit) (w e : ActorPath)
  | WoCheck (now : N)
  | WoHeartbeat (now : N) (from : Address)
  | WoRemove (a : Address).

Definition with_detectors (r : Registry F) (x : RemoteWatcher) : RemoteWatcher :=
  mkRemoteWatcher r (watches x) (terminated_addresses x) (started x).

Definition watcher_op (op : WatcherOp) (x : RemoteWatcher) : RemoteWatcher * list Effect :=
  match op with
  | WoWatch ep w e => let '(_, x', effs) := watch ep w e x in (x', effs)
  | WoUnwatch ep w e => unwatch ep w e x
  | WoCheck now => check now x
  | WoHeartbeat now a => (with_detectors (heartbeat now a (rw_detectors x)) x, [])
  | WoRemove a => (with_detectors (remove a (rw_detectors x)) x, [])
  end.

Fixpoint watcher_run (ops : list WatcherOp) (x : RemoteWatcher) : RemoteWatcher * list Effect :=
  match ops with
  | [] => (x, [])
  | op :: ops' =>
      let '(x1, e1) := watcher_op op x in
      let '(x2, e2) := watcher_run ops' x1 in (x2, e1 ++ e2)
  end.
End watcher.
Arguments RemoteWatcher : clear implicits.
End Watcher.

(** ** The serializer registry *)

Module Serialization.

Inductive SerializeError :=
  | SeEncode (msg : string) | SeDecode (msg : string) | SeUnknownManifest (m : string) | SeDowncast (m : string).

(** [V]: values of any type; a type id is a number, and a value has one. *)
Section registry.
Context {V : Type} (type_of : V → N).

Record TypeCodec := mkTypeCodec {
  tc_serializer_id : N;
  tc_manifest : string;
  tc_type_id : N;
  tc_encode : V → SerializeError + Bytes;
  tc_decode : Bytes → SerializeError + V;
}.

Record SerializerRegistry := mkSerializerRegistry {
  by_manifest : gmap string TypeCodec;
  by_type_id : gmap N TypeCodec;
}.

Definition serializers_new : SerializerRegistry := mkSerializerRegistry ∅ ∅.

Definition register_codec (c : TypeCodec) (r : SerializerRegistry) : SerializerRegistry :=
  mkSerializerRegistry (<[tc_manifest c := c]> (by_manifest r)) (<[tc_type_id c := c]> (by_type_id r)).

Definition codec_for_manifest (m : string) (r : SerializerRegistry) : option TypeCodec := by_manifest r !! m.
Definition codec_for_type (t : N) (r : SerializerRegistry) : option TypeCodec := by_type_id r !! t.

(** [name] is the name of the type of the value. *)
Definition encode_typed (name : string) (v : V) (r : SerializerRegistry) : SerializeError + (N * string * Bytes) :=
  match codec_for_type (type_of v) r with
  | None => inl (SeUnknownManifest name)
  | Some c =>
      match tc_encode c v with
      | inl e => inl e
      | inr bs => inr (tc_serializer_id c, tc_manifest c, bs)
      end
  end.

Definition decode_dyn (r : SerializerRegistry) (m : string) (_serializer_id : N) (bs : Bytes)
    : SerializeError + V :=
  match codec_for_manifest m r with
  | None => inl (SeUnknownManifest m)
  | Some c => tc_decode c bs
  end.
End registry.
Arguments TypeCodec : clear implicits.
Arguments SerializerRegistry : clear implicits.
End Serialization.

(** ** The system daemon *)

Module SystemDaemon.
Import Serialization.

Section daemon.
(** [D]: the registered closures; [V]: decoded values.  [decode_dyn] is the serializer
    registry, [as_system] the downcast to a system message. *)
Context {D V : Type}.
Context (decode_dyn : string → N → Bytes → SerializeError + V) (as_system : V → option RemoteSystemMsg).

Inductive Effect :=
  | Dispatch (d : D) (path : ActorPath) (manifest : string) (v : V)
  | StopLocal (path : string)
  | TellWatcher (to : ActorPath) (msg : RemoteSystemMsg).

(** The watchers are proxies of remote paths. *)
Record RemoteSystemDaemon := mkDaemon {
  routes : gmap string D;
  remote_watchers : gmap string (list ActorPath);
}.

Definition daemon_new : RemoteSystemDaemon := mkDaemon ∅ ∅.
Definition register (path : ActorPath) (d : D) (x : RemoteSystemDaemon) : RemoteSystemDaemon :=
  mkDaemon (<[to_string_without_address path := d]> (routes x)) (remote_watchers x).
Definition unregister (path : ActorPath) (x : RemoteSystemDaemon) : RemoteSystemDaemon :=
  mkDaemon (delete (to_string_without_address path) (routes x)) (remote_watchers x).
Definition clear (x : RemoteSystemDaemon) : RemoteSystemDaemon := mkDaemon ∅ (remote_watchers x).

Definition dispatch_user (path : ActorPath) (mf : string) (sid : N) (bs : Bytes) (x : RemoteSystemDaemon)
    : (SerializeError + unit) * list Effect :=
  match routes x !! to_string_without_address path with
  | None => (inr tt, [])
  | Some d =>
      match decode_dyn mf sid bs with
      | inl e => (inl e, [])
      | inr v => (inr tt, [Dispatch d path mf v])
      end
  end.

(** [StopLocal] stands for the selection of the path and the stop of what it finds. *)
Definition dispatch_system (path : ActorPath) (msg : RemoteSystemMsg) (x : RemoteSystemDaemon)
    : RemoteSystemDaemon * list Effect :=
  let key := to_string_without_address path in
  match msg with
  | RsStop => (x, [StopLocal (ActorPath_to_string path)])
  | RsWatch w => (mkDaemon (routes x) (entry_update [] (λ l, l ++ [w]) key (remote_watchers x)), [])
  | RsUnwatch w => (mkDaemon (routes x) (alter (filter (λ p, p ≠ w)) key (remote_watchers x)), [])
  | RsTerminated _ => (x, [])
  end.

(** A proxy ships [Terminated] to its path. *)
Definition notify_terminated (path : ActorPath) (x : RemoteSystemDaemon) : RemoteSystemDaemon * list Effect :=
  let key := to_string_without_address path in
  match remote_watchers x !! key with
  | None => (x, [])
  | Some ws =>
      (mkDaemon (routes x) (delete key (remote_watchers x)), (λ w, TellWatcher w (RsTerminated path)) <$> ws)
  end.

Definition handle_inbound (env : RemoteEnvelope) (x : RemoteSystemDaemon) : RemoteSystemDaemon * list Effect :=
  match Paths.parse_actor_path (recipient_path env) with
  | None => (x, [])
  | Some path =>
      if env_system env then
        match decode_dyn (env_manifest env) (serializer_id env) (env_payload env) with
        | inr v => match as_system v with Some msg => dispatch_system path msg x | None => (x, []) end
        | inl _ => (x, [])
        end
      else (x, (dispatch_user path (env_manifest env) (serializer_id env) (env_payload env) x).2)
  end.
End daemon.
Arguments Effect : clear implicits.
Arguments RemoteSystemDaemon : clear implicits.
End SystemDaemon.

(** ** Routers over remote nodes *)

Module Router.

Inductive RemoteRouterStrategy := RoundRobin | ConsistentHash | Adaptive.

Record RemoteRouterConfig := mkRouter {
  nodes : list Address;
  strategy : RemoteRouterStrategy;
  counter : N;
  adaptive : option (list string → option string);
}.

Definition router_new (ns : list Address) (s : RemoteRouterStrategy) : RemoteRouterConfig := mkRouter ns s 0 None.
Definition with_adaptive_picker (p : list string → option string) (r : RemoteRouterConfig) : RemoteRouterConfig :=
  mkRouter (nodes r) (strategy r) (counter r) (Some p).

Fixpoint fxhash_loop (h : N) (s : string) : N :=
  match s with
  | EmptyString => h
  | String c s' => fxhash_loop (wrap64 (N.lxor h (N_of_ascii c) * 0x100000001b3)) s'
  end.
Definition fxhash (s : string) : N := fxhash_loop 0xcbf29ce484222325 s.

(** [fetch_add(1) % len], with the counter after it. *)
Definition next_node (r : RemoteRouterConfig) : nat * RemoteRouterConfig :=
  (N.to_nat (counter r mod N.of_nat (length (nodes r))),
   mkRouter (nodes r) (strategy r) (u64_add (counter r) 1) (adaptive r)).

(** [position]. *)
Fixpoint position (chosen : string) (l : list string) : option nat :=
  match l with
  | [] => None
  | a :: l' => if decide (a = chosen) then Some 0 else S <$> position chosen l'
  end.

Definition pick (key : option string) (r : RemoteRouterConfig) : option Address * RemoteRouterConfig :=
  match nodes r with
  | [] => (None, r)
  | _ =>
      match strategy r, key with
      | RoundRobin, _ => let '(i, r') := next_node r in (nodes r !! i, r')
      | ConsistentHash, Some k => (nodes r !! N.to_nat (fxhash k mod N.of_nat (length (nodes r))), r)
      | ConsistentHash, None => (nodes r !! 0, r)
      | Adaptive, _ =>
          let cands := Address_to_string <$> nodes r in
          match adaptive r ≫= λ p, p cands ≫= λ chosen, position chosen cands with
          | Some idx => (nodes r !! idx, r)
          | None => let '(i, r') := next_node r in (nodes r !! i, r')
          end
      end
  end.

Definition routee_path (base : string) (key : option string) (r : RemoteRouterConfig)
    : option ActorPath * RemoteRouterConfig :=
  let '(addr, r') := pick key r in
  ((λ a, foldl (λ p seg, ActorPath_child seg p) (ActorPath_child "user" (ActorPath_root a))
           (Paths.segments base)) <$> addr, r').
End Router.

(** ** Frames are read back *)

Module FrameFacts.
Import Frames.
Section facts.
Context {T : Type} `{HC : PduCodec T} `{HL : !PduCodecLaws T}.

Lemma from_to_be_bytes n : (n < u32_modulus)%N → from_be_bytes (to_be_bytes n) = n.
Proof.
  intros Hn. unfold from_be_bytes, to_be_bytes. rewrite reverse_involutive. by apply from_to_le_bytes.
Qed.

Lemma length_to_be_bytes n : length (to_be_bytes n) = 4.
Proof. unfold to_be_bytes. by rewrite length_reverse, to_le_bytes_length. Qed.

Lemma read_exact_app (a b : Bytes) : read_exact (length a) (a ++ b) = Some (a, b).
Proof.
  unfold read_exact. rewrite length_app, (proj2 (Nat.leb_le _ _)) by lia.
  by rewrite take_app_length, drop_app_length.
Qed.

Lemma write_frame_inv (pdu : T) max bs :
  write_frame pdu max = inr bs →
  ∃ p, encode_pdu pdu = inr p ∧ length p ≤ max ∧ bs = to_be_bytes (wrap32 (N.of_nat (length p))) ++ p.
Proof.
  unfold write_frame. destruct (encode_pdu pdu) as [|p]; [done|].
  destruct (Nat.ltb_spec max (length p)); [done|]. intros [= <-]. by exists p.
Qed.

(** One frame, with what follows it; the length fits its field. *)
Lemma read_write_frame (pdu : T) max bs rest :
  (N.of_nat max < u32_modulus)%N → write_frame pdu max = inr bs →
  read_frame (bs ++ rest) max = inr (pdu, rest).
Proof.
  intros Hmax (p & Hp & Hlen & ->)%write_frame_inv. unfold read_frame.
  assert (wrap32 (N.of_nat (length p)) = N.of_nat (length p)) as -> by (apply N.mod_small; unfold u32_modulus in *; lia).
  set (h := to_be_bytes (N.of_nat (length p))). rewrite <- app_assoc.
  pose proof (read_exact_app h (p ++ rest)) as Hh. unfold h in Hh at 1. rewrite length_to_be_bytes in Hh.
  rewrite Hh. unfold h. rewrite from_to_be_bytes by (unfold u32_modulus in *; lia). rewrite Nat2N.id.
  destruct (Nat.ltb_spec max (length p)); [lia|]. rewrite read_exact_app.
  by rewrite (decode_encode_pdu _ _ Hp).
Qed.

(** The frames of a connection are the messages that were written, in order, and then its end. *)
Lemma frames_roundtrip (pdus : list T) max (frames : list Bytes) fuel :
  (N.of_nat max < u32_modulus)%N → Forall2 (λ pdu bs, write_frame pdu max = inr bs) pdus frames →
  length pdus < fuel → read_all fuel (mjoin frames) max = (pdus, Io).
Proof.
  intros Hmax Hw. revert fuel; induction Hw as [|pdu bs pdus frames Hb Hw IH]; intros fuel Hf;
    (destruct fuel as [|fuel]; [cbn in Hf; lia|]); cbn [read_all].
  - done.
  - cbn [length] in Hf. change (mjoin (bs :: frames)) with (bs ++ mjoin frames).
    rewrite (read_write_frame pdu max bs _ Hmax Hb).
    by rewrite IH by lia.
Qed.
End facts.
End FrameFacts.

(** ** The send queue keeps to its capacity and its order *)

Module SendQueueFacts.
Import SendQueue.
Section facts.
Context {T : Type}.

(** A push into a queue with room appends; into a full queue it keeps the old items, or drops
    the oldest for the new one. *)
Lemma try_push_spec (x : T) q :
  1 ≤ capacity q → length (items q) ≤ capacity q →
  let '(res, q') := try_push x q in
  length (items q') ≤ capacity q ∧ capacity q' = capacity q ∧ policy q' = policy q ∧
  match res with
  | inr (Enqueued n) => items q' = items q ++ [x] ∧ n = length (items q')
  | inr DroppedNew => policy q = DropNew ∧ length (items q) = capacity q ∧ q' = q
  | inr DroppedOld => policy q = DropOld ∧ ∃ old l, items q = old :: l ∧ items q' = l ++ [x]
  | inl _ => policy q = FailNew ∧ length (items q) = capacity q ∧ q' = q
  end.
Proof.
  intros Hc Hl. unfold try_push. destruct (Nat.ltb_spec (length (items q)) (capacity q)).
  - cbn. rewrite length_app. cbn. split_and!; done || lia.
  - destruct (policy q) eqn:Hp; [split_and!; done || lia| |split_and!; done || lia].
    destruct (items q) as [|old l] eqn:Hi; [cbn in *; lia|]. cbn in *. rewrite length_app. cbn.
    split_and!; try done; [lia|]. by exists old, l.
Qed.
End facts.
End SendQueueFacts.

(** ** Paths are read back *)

Module PathFacts.
Import Paths.

Lemma break_slash_app a b :
  string_has "/" a = false → break_slash (a +:+ String "/" b) = (a, String "/" b).
Proof.
  induction a as [|c a IH]; [done|]. cbn [string_has]. intros [Hc Ha]%orb_false_iff.
  change (String c a +:+ String "/" b) with (String c (a +:+ String "/" b)). cbn [break_slash].
  rewrite Ascii.eqb_sym, Hc, (IH Ha). done.
Qed.

Lemma split_char_app c a b : string_has c a = false → split_char c (a +:+ String c b) = a :: split_char c b.
Proof.
  induction a as [|d a IH].
  - intros _. change ("" +:+ String c b) with (String c b). cbn. by rewrite Ascii.eqb_refl.
  - cbn [string_has]. intros [Hc Ha]%orb_false_iff.
    change (String d a +:+ String c b) with (String d (a +:+ String c b)). cbn [split_char].
    by rewrite Ascii.eqb_sym, Hc, (IH Ha).
Qed.

Lemma split_char_none c a : string_has c a = false → split_char c a = [a].
Proof.
  induction a as [|d a IH]; [done|]. cbn [string_has split_char]. intros [Hc Ha]%orb_false_iff.
  by rewrite Ascii.eqb_sym, Hc, (IH Ha).
Qed.

(** The names a path can print: not empty, without slash and hash. *)
Definition element_ok (s : string) : Prop :=
  s ≠ EmptyString ∧ string_has "/" s = false ∧ string_has "#" s = false.

(** The printed form, from the left. *)
Fixpoint print_elements (els : list string) : string :=
  match els with
  | [] => EmptyString
  | [e] => e
  | e :: els' => e +:+ String "/" (print_elements els')
  end.

Lemma path_loop els i s :
  (foldl (λ '(i, s) el, (S i, path_push i s el)) (S i, s) els).2 =
    s +:+ match els with [] => EmptyString | _ => String "/" (print_elements els) end.
Proof.
  revert i s; induction els as [|e els IH]; intros i s; cbn [foldl]; [by rewrite string_app_nil_r|].
  rewrite IH. unfold path_push. cbn [Nat.ltb Nat.leb]. rewrite !string_app_assoc. f_equal.
  destruct els; cbn [print_elements]; [by rewrite string_app_nil_r|done].
Qed.

Lemma to_string_without_address_print p :
  to_string_without_address p = String "/" (print_elements (ap_elements p)).
Proof.
  unfold to_string_without_address. destruct (ap_elements p) as [|e els]; [done|]. cbn [foldl].
  rewrite path_loop. unfold path_push. cbn [Nat.ltb Nat.leb]. rewrite string_app_assoc.
  destruct els; cbn [print_elements]; [by rewrite string_app_nil_r|done].
Qed.

Lemma segments_print els : Forall element_ok els → segments (String "/" (print_elements els)) = els.
Proof.
  intros Hels. unfold segments. cbn [split_char]. cbn [Ascii.eqb Bool.eqb].
  rewrite filter_cons_False by (by intros []). induction Hels as [|e els (Hne & Hs & _) Hels IH]; [done|].
  destruct els as [|e' els]; cbn [print_elements].
  - rewrite split_char_none by done. by rewrite filter_cons_True.
  - rewrite split_char_app by done. rewrite filter_cons_True by done. f_equal. exact IH.
Qed.

Lemma add_segments_elements els p :
  Forall element_ok els →
  add_segments p els = Some (match els with [] => p | _ => mkActorPath (ap_address p) (ap_elements p ++ els) 0 end).
Proof.
  intros Hels. revert p; induction Hels as [|e els (_ & _ & Hh) Hels IH]; intros p; [done|].
  cbn [add_segments]. unfold add_segment. rewrite split_once_none by done. cbn [mbind option_bind].
  rewrite IH. f_equal. destruct els; cbn; [done|]. by rewrite <- app_assoc.
Qed.

(** The recipient of an envelope is found again from its printed path, without its uid. *)
Lemma parse_actor_path_roundtrip p :
  address_ok (ap_address p) → string_has "/" (system (ap_address p)) = false →
  (∀ h, host (ap_address p) = Some h → string_has "/" h = false) →
  Forall element_ok (ap_elements p) →
  parse_actor_path (ActorPath_to_string p) = Some (ActorPath_with_uid 0 p).
Proof.
  intros Hok Hsys Hhost Hels. pose proof (Address_parse_to_string _ Hok) as Hparse.
  destruct p as [a els uid]. cbn [ap_address ap_elements] in *. unfold parse_actor_path, ActorPath_to_string.
  rewrite to_string_without_address_print. cbn [ap_address ap_elements].
  assert (∃ rest, Address_to_string a = protocol a +:+ "://" +:+ rest ∧ string_has "/" rest = false)
    as (rest & Heq & Hrest).
  { destruct a as [proto sys [h|] [q|]]; cbn in Hok |- *; try (by destruct Hok as (_ & _ & [])).
    - exists (sys +:+ "@" +:+ h +:+ ":" +:+ uint_to_string q). split; [done|].
      rewrite !string_has_app. cbn in *. rewrite Hsys, (Hhost h eq_refl). cbn.
      by apply digits_without; [|apply all_digits_uint].
    - by exists sys. }
  rewrite Heq in Hparse |- *. rewrite !string_app_assoc.
  rewrite split_once_first by apply Hok. cbn [mbind option_bind].
  rewrite break_slash_app by done. rewrite Hparse. cbn [mbind option_bind].
  rewrite segments_print, add_segments_elements by done. cbn. by destruct els.
Qed.
End PathFacts.

(** ** Who is told that a node is gone *)

Module WatcherFacts.
Import Detectors Watcher.
Section facts.
Context {F : Type} `{HF : FailureDetector F}.
Implicit Types x : RemoteWatcher F.

(** The address of [e] has a detector that has tripped. *)
Definition down (now : N) x (e : ActorPath) : Prop :=
  let s := Address_to_string (ap_address e) in
  is_Some (detectors (rw_detectors x) !! s) ∧ tripped now (rw_detectors x) s = true.

Definition reported x (e : ActorPath) : Prop := Address_to_string (ap_address e) ∈ terminated_addresses x.

Lemma elem_of_bad now x s :
  s ∈ bad now x ↔ is_Some (detectors (rw_detectors x) !! s) ∧ tripped now (rw_detectors x) s = true.
Proof.
  unfold bad, addresses. rewrite list_elem_of_filter, list_elem_of_fmap. split.
  - intros (Ht & [k d] & -> & Hk%elem_of_map_to_list). split; [by exists d|done].
  - intros [[d Hd] Ht]. split; [done|]. exists (s, d). split; [done|]. by apply elem_of_map_to_list.
Qed.

Lemma report_spec l ws t :
  let '(t', effs) := report l ws t in
  (∀ s, s ∈ t' ↔ s ∈ t ∨ s ∈ l) ∧
  ∀ w e, NotifyTerminated w e ∈ effs ↔
    mkWatch w e ∈ ws ∧ Address_to_string (ap_address e) ∈ l ∧ Address_to_string (ap_address e) ∉ t.
Proof.
  revert t; induction l as [|a l IH]; intros t; cbn [report]; [set_solver|].
  case_decide as Ha.
  - specialize (IH t). destruct (report l ws t) as [t' effs]. destruct IH as [H1 H2]. split; [set_solver|].
    intros w e. rewrite H2. set_solver.
  - specialize (IH ({[a]} ∪ t)). destruct (report l ws ({[a]} ∪ t)) as [t' effs].
    destruct IH as [H1 H2]. split; [set_solver|]. intros w e. rewrite elem_of_app, H2, list_elem_of_fmap.
    setoid_rewrite list_elem_of_filter. split.
    + intros [([w' e'] & Heq & Haddr & Hin)|(Hw & Hl & Ht)]; [|set_solver].
      cbn in *. simplify_eq. split_and!; [done|left|done].
    + intros (Hw & [Heq|Hl]%elem_of_cons & Ht).
      * left. by exists (mkWatch w e).
      * destruct (decide (Address_to_string (ap_address e) = a)) as [Heq|Hne];
          [left; by exists (mkWatch w e)|right; set_solver].
Qed.

(** A check tells exactly the watchers of actors on nodes that are down and were not reported
    before, and reports these nodes. *)
Lemma check_spec now x :
  let '(x', effs) := check now x in
  (∀ w e, NotifyTerminated w e ∈ effs ↔ mkWatch w e ∈ watches x ∧ down now x e ∧ ¬ reported x e) ∧
  (∀ e, reported x' e ↔ reported x e ∨ down now x e) ∧
  watches x' = watches x ∧ rw_detectors x' = rw_detectors x.
Proof.
  unfold check, down, reported. pose proof (elem_of_bad now x) as Hb.
  destruct (bad now x) as [|a l] eqn:E.
  - split_and!; [|intros e; rewrite <- Hb; set_solver|done|done]. intros w e. rewrite <- Hb. set_solver.
  - pose proof (report_spec (a :: l) (watches x) (terminated_addresses x)) as Hr.
    destruct (report (a :: l) (watches x) (terminated_addresses x)) as [t effs]. destruct Hr as [H1 H2].
    cbn [watches rw_detectors terminated_addresses]. split_and!; [|intros e; by rewrite H1, Hb|done|done].
    intros w e. rewrite H2, Hb. naive_solver.
Qed.

Lemma watcher_op_reported op x :
  (∀ e, reported x e → reported (watcher_op op x).1 e) ∧
  ∀ w e, reported x e → NotifyTerminated w e ∉ (watcher_op op x).2.
Proof.
  destruct op as [ep w e|ep w e|now|now a|a]; cbn [watcher_op].
  - unfold watch. destruct ep; cbn; [set_solver|]. destruct (started x); set_solver.
  - cbn. destruct ep; set_solver.
  - pose proof (check_spec now x) as Hc. destruct (check now x) as [x' effs].
    destruct Hc as (H1 & H2 & _). cbn. split; [intros e; rewrite H2; auto|]. intros w e He. rewrite H1. tauto.
  - set_solver.
  - set_solver.
Qed.

(** A node is reported once: whatever happens afterwards, watches of its actors that are added
    later, and a second failure after it has come back, are never told. *)
Lemma reported_is_final ops x w e :
  reported x e → NotifyTerminated w e ∉ (watcher_run ops x).2.
Proof.
  revert x; induction ops as [|op ops IH]; intros x He; cbn [watcher_run]; [apply not_elem_of_nil|].
  destruct (watcher_op_reported op x) as [H1 H2]. specialize (H1 e He). specialize (H2 w e He).
  destruct (watcher_op op x) as [x1 e1]. specialize (IH x1 H1). destruct (watcher_run ops x1) as [x2 e2].
  cbn in *. set_solver.
Qed.

Lemma watcher_run_app ops1 ops2 x :
  (watcher_run (ops1 ++ ops2) x).2 = (watcher_run ops1 x).2 ++ (watcher_run ops2 (watcher_run ops1 x).1).2.
Proof.
  revert x; induction ops1 as [|op ops1 IH]; intros x; cbn [watcher_run app]; [done|].
  destruct (watcher_op op x) as [x1 e1]. specialize (IH x1).
  destruct (watcher_run (ops1 ++ ops2) x1) as [x2 e2], (watcher_run ops1 x1) as [x3 e3]. cbn [fst snd] in *.
  rewrite IH. by rewrite app_assoc.
Qed.

(** The first check that finds the node of a watched actor down tells the watcher, and no
    other operation of the run does. *)
Lemma first_failure_told ops1 ops2 now (r : Registry F) w e :
  let x1 := (watcher_run ops1 (watcher_new r)).1 in
  mkWatch w e ∈ watches x1 → down now x1 e → ¬ reported x1 e →
  NotifyTerminated w e ∈ (check now x1).2 ∧ NotifyTerminated w e ∉ (watcher_run ops2 (check now x1).1).2.
Proof.
  intros x1 Hw Hd Hr. pose proof (check_spec now x1) as Hc. destruct (check now x1) as [x2 effs].
  destruct Hc as (H1 & H2 & _). cbn [fst snd]. split; [by apply H1|]. apply reported_is_final, H2. by right.
Qed.
End facts.
End WatcherFacts.

(** A watch of an actor on a node that has failed once: nobody is told of the second failure. *)
Definition node_b : Address := Address_remote "akka.tcp" "S" "b" 2552.
Definition actor_b : ActorPath := ActorPath_child "x" (ActorPath_child "user" (ActorPath_root node_b)).
Definition local_w : ActorPath := ActorPath_child "w" (ActorPath_root (Address_local "S")).

Lemma second_failure_missed :
  let beat now := Watcher.WoHeartbeat now node_b in
  let ops := [beat 0%N; Watcher.WoCheck 100%N; beat 200%N; Watcher.WoWatch (inr tt) local_w actor_b; beat 201%N;
              Watcher.WoCheck 205%N; Watcher.WoCheck 500%N] in
  (Watcher.watcher_run (H := Detectors.deadline_detector) ops (Watcher.watcher_new (Detectors.detectors_new (Detectors.deadline_new 10)))).2 =
    [Watcher.TellSystem actor_b (RsWatch local_w); Watcher.StartSupervisor].
Proof. vm_compute. reflexivity. Qed.

(** ** What the daemon does with an envelope *)

Module DaemonFacts.
Import Serialization SystemDaemon.
Section facts.
Context {D V : Type} (decode : string → N → Bytes → SerializeError + V) (as_system : V → option RemoteSystemMsg).

(** No envelope that arrives makes the daemon tell anyone that an actor has terminated. *)
Lemma inbound_never_notifies env (x : RemoteSystemDaemon D) to whom :
  TellWatcher to (RsTerminated whom) ∉ (handle_inbound decode as_system env x).2.
Proof.
  unfold handle_inbound, dispatch_user, dispatch_system.
  repeat case_match; simplify_eq; cbn; set_solver.
Qed.

(** A registered route gets the decoded message. *)
Lemma route_delivers env (x : RemoteSystemDaemon D) path d v :
  Paths.parse_actor_path (recipient_path env) = Some path → env_system env = false →
  decode (env_manifest env) (serializer_id env) (env_payload env) = inr v →
  handle_inbound decode as_system env (register path d x) = (register path d x, [Dispatch d path (env_manifest env) v]).
Proof.
  intros Hp Hs Hd. unfold handle_inbound, dispatch_user. rewrite Hp, Hs. cbn [register routes].
  by rewrite lookup_insert_eq, Hd.
Qed.

(** The watchers of a path: those that asked and have not withdrawn. *)
Fixpoint asked (msgs : list RemoteSystemMsg) (ws : list ActorPath) : list ActorPath :=
  match msgs with
  | [] => ws
  | RsWatch w :: msgs' => asked msgs' (ws ++ [w])
  | RsUnwatch w :: msgs' => asked msgs' (filter (λ p, p ≠ w) ws)
  | _ :: msgs' => asked msgs' ws
  end.

(** When the actor stops, [notify_terminated] writes to exactly these. *)
Lemma notify_terminated_asked msgs path (x : RemoteSystemDaemon D) :
  let x' := foldl (λ x m, (dispatch_system (V := V) path m x).1) x msgs in
  (notify_terminated (V := V) path x').2 =
    (λ w, TellWatcher w (RsTerminated path)) <$>
      asked msgs (default [] (remote_watchers x !! to_string_without_address path)).
Proof.
  revert x; induction msgs as [|m msgs IH]; intros x; cbn [foldl asked].
  { unfold notify_terminated. by destruct (remote_watchers x !! _). }
  rewrite IH. destruct m; cbn [dispatch_system fst remote_watchers]; [done| | |done].
  - by rewrite lookup_entry_update, decide_True.
  - rewrite lookup_alter_eq. by destruct (remote_watchers x !! _).
Qed.
End facts.
End DaemonFacts.

(** ** Codecs *)

Module SerializationFacts.
Import Serialization.
Section facts.
Context {V : Type} (type_of : V → N).

(** A codec reads back the values of its type. *)
Definition codec_ok (c : TypeCodec V) : Prop :=
  ∀ v bs, type_of v = tc_type_id c → tc_encode c v = inr bs → tc_decode c bs = inr v.

(** With codecs whose manifests are those of their types, what a registry encodes it decodes,
    whatever is registered and registered again, and whatever serializer id is on the wire. *)
Lemma registry_roundtrip (cs : list (TypeCodec V)) (name : N → string) v sid m bs sid' nm :
  Inj (=) (=) name → Forall (λ c, codec_ok c ∧ tc_manifest c = name (tc_type_id c)) cs →
  let r := foldl (λ r c, register_codec c r) serializers_new cs in
  encode_typed type_of nm v r = inr (sid, m, bs) → decode_dyn r m sid' bs = inr v.
Proof.
  intros Hinj Hcs r.
  assert (Hr : ∀ t, by_type_id r !! t = by_manifest r !! name t ∧
    ∀ c, by_type_id r !! t = Some c → codec_ok c ∧ tc_manifest c = name t ∧ tc_type_id c = t).
  { subst r. revert Hcs. induction cs as [|c cs IH] using rev_ind; [by intros _ t; split|].
    intros [Hcs [Hok Hm]%Forall_singleton]%Forall_app t. rewrite foldl_app. cbn [foldl register_codec by_type_id by_manifest].
    destruct (IH Hcs t) as [Heq Hc]. rewrite Hm. destruct (decide (tc_type_id c = t)) as [<-|Hne].
    - rewrite !lookup_insert_eq. split; [done|]. intros c' [= <-]. done.
    - rewrite !lookup_insert_ne by naive_solver. done. }
  destruct (Hr (type_of v)) as [Heq Hc]. unfold encode_typed, decode_dyn, codec_for_type, codec_for_manifest.
  destruct (by_type_id r !! type_of v) as [c|]; [|done]. destruct (Hc c eq_refl) as (Hok & Hm & Ht).
  destruct (tc_encode c v) as [|bs'] eqn:He; [done|]. intros [= <- <- <-]. rewrite Hm, <- Heq. by apply Hok.
Qed.
End facts.
End SerializationFacts.

(** ** The round robin *)

Module RouterFacts.
Import Router.

Lemma pick_round_robin r key :
  strategy r = RoundRobin → nodes r ≠ [] →
  pick key r = (nodes r !! N.to_nat (counter r mod N.of_nat (length (nodes r))),
                mkRouter (nodes r) RoundRobin (u64_add (counter r) 1) (adaptive r)).
Proof. intros Hs Hn. unfold pick, next_node. rewrite Hs. destruct (nodes r); [done|]. by destruct key. Qed.

(** [k] picks from counter [c] on, before the counter wraps, visit the nodes in turn. *)
Lemma round_robin_turn k r key :
  strategy r = RoundRobin → nodes r ≠ [] → (counter r + N.of_nat k < u64_modulus)%N →
  let r' := Nat.iter k (λ r, (pick key r).2) r in
  counter r' = (counter r + N.of_nat k)%N ∧ nodes r' = nodes r ∧ strategy r' = RoundRobin ∧
  (pick key r').1 = nodes r !! N.to_nat ((counter r + N.of_nat k) mod N.of_nat (length (nodes r))).
Proof.
  intros Hs Hn Hb r'.
  assert (Hinv : counter r' = (counter r + N.of_nat k)%N ∧ nodes r' = nodes r ∧ strategy r' = RoundRobin).
  { subst r'. induction k as [|k IH]; [cbn; split_and!; [lia|done|done]|].
    destruct IH as (H1 & H2 & H3); [lia|]. rewrite Nat.iter_succ. set (r1 := Nat.iter k _ r) in *.
    rewrite pick_round_robin by (done || by rewrite H2). cbn [snd counter nodes strategy].
    rewrite H1, u64_add_small by lia. split_and!; [lia|done|done]. }
  destruct Hinv as (H1 & H2 & H3). split_and!; [done|done|done|].
  rewrite pick_round_robin by (done || by rewrite H2). by rewrite H1, H2.
Qed.
End RouterFacts.
