(* ===== verification/ActorSystem.v ===== *)
(** * The actor system
    ([crates/atomr-core/src/actor/actor_system.rs], [actor_ref.rs])

    The cells of [ActorCell] side by side.  A task runs one turn of its cell at a time;
    what the turn emits is then delivered: messages to the channels of other tasks, new
    tasks, calls of observers and of remote handles.  The operations of references
    ([tell] and the others) and of the system ([actor_of], [terminate], selections) are
    steps of the same state.  Tokio's scheduler is the choice of the next task; a fair one
    runs every live task again and again. *)

From stdpp Require Import gmap strings list.
From Stdlib Require Import NArith Ascii Lia.
From S2P Require Import Prelude RemoteSystem Address Supervision ActorCell.

(** ** Systems of cells *)

Module Systems.

(** [ActorSystemError]. *)
Inductive ActorSystemError := NameTakenErr (name : string) | SpawnErr (e : SpawnError) | TerminatedErr.

(** A caller of [when_terminated]: before it reads the flag, after it read [false],
    waiting on the notification, returned. *)
Inductive WaitState := WaitStart | WaitRead | WaitNotified | WaitDone.

#[export] Instance WaitState_eq_dec : EqDecision WaitState.
Proof. solve_decision. Defined.

Section system.
Context {A Msg : Type} `{!Actor A Msg}.

(** A spawned task.  [t_closed]: it has returned, which drops the receivers of its
    channels. *)
Record Task := mkTask {
  t_props : Props A;
  t_started : bool;
  t_closed : bool;
  t_cell : Cell A Msg;
}.

(** What leaves the system: calls of the observers and of remote handles. *)
Inductive Report :=
  | OnSpawn (path : ActorPath) (parent : option ActorPath)
  | OnStop (path : ActorPath)
  | OnDeadLetter (recipient : ActorPath) (sender : option ActorPath)
  | TellSystem (target : ActorPath) (m : RemoteSystemMsg)
  | TellSerialized (target : ActorPath) (m : Msg) (sender : option ActorPath).

(** [ActorSystemInner], with the tasks of the runtime and the callers of
    [when_terminated]; [s_next] names the channels of top-level actors. *)
Record ActorSystem := mkSystem {
  s_name : string;
  s_address : Address;
  s_guardian : gmap string ChildEntry;
  s_spawn_observer : bool;
  s_dead_letter_observer : bool;
  s_remote_provider : option (ActorPath → option ActorPath);
  s_terminated : bool;
  s_waiters : list WaitState;
  s_tasks : gmap Chan Task;
  s_next : nat;
  s_reports : list Report;
}.

Definition create (name : string) : ActorSystem :=
  mkSystem name (Address_local name) ∅ false false None false [] ∅ 0 [].

Definition set_tasks (ts : gmap Chan Task) (s : ActorSystem) : ActorSystem :=
  mkSystem (s_name s) (s_address s) (s_guardian s) (s_spawn_observer s) (s_dead_letter_observer s)
    (s_remote_provider s) (s_terminated s) (s_waiters s) ts (s_next s) (s_reports s).

Definition set_guardian (g : gmap string ChildEntry) (s : ActorSystem) : ActorSystem :=
  mkSystem (s_name s) (s_address s) g (s_spawn_observer s) (s_dead_letter_observer s)
    (s_remote_provider s) (s_terminated s) (s_waiters s) (s_tasks s) (s_next s) (s_reports s).

Definition count_top (s : ActorSystem) : ActorSystem :=
  mkSystem (s_name s) (s_address s) (s_guardian s) (s_spawn_observer s) (s_dead_letter_observer s)
    (s_remote_provider s) (s_terminated s) (s_waiters s) (s_tasks s) (S (s_next s)) (s_reports s).

Definition report (r : Report) (s : ActorSystem) : ActorSystem :=
  mkSystem (s_name s) (s_address s) (s_guardian s) (s_spawn_observer s) (s_dead_letter_observer s)
    (s_remote_provider s) (s_terminated s) (s_waiters s) (s_tasks s) (s_next s) (s_reports s ++ [r]).

Definition set_spawn_observer (s : ActorSystem) : ActorSystem :=
  mkSystem (s_name s) (s_address s) (s_guardian s) true (s_dead_letter_observer s)
    (s_remote_provider s) (s_terminated s) (s_waiters s) (s_tasks s) (s_next s) (s_reports s).

Definition set_dead_letter_observer (s : ActorSystem) : ActorSystem :=
  mkSystem (s_name s) (s_address s) (s_guardian s) (s_spawn_observer s) true
    (s_remote_provider s) (s_terminated s) (s_waiters s) (s_tasks s) (s_next s) (s_reports s).

Definition set_remote_provider (p : ActorPath → option ActorPath) (s : ActorSystem) : ActorSystem :=
  mkSystem (s_name s) (s_address s) (s_guardian s) (s_spawn_observer s) (s_dead_letter_observer s)
    (Some p) (s_terminated s) (s_waiters s) (s_tasks s) (s_next s) (s_reports s).

Definition system_view (s : ActorSystem) : SystemView := mkView (s_guardian s) (s_spawn_observer s).

(** ** Channels *)

Definition set_cell (c : Cell A Msg) (t : Task) : Task :=
  mkTask (t_props t) (t_started t) (t_closed t) c.

Definition chan_open (ch : Chan) (s : ActorSystem) : bool :=
  match s_tasks s !! ch with Some t => negb (t_closed t) | None => false end.

(** [UnboundedSender::send] on the system channel; the callers ignore its result. *)
Definition send_system (ch : Chan) (m : SystemMsg) (s : ActorSystem) : ActorSystem :=
  match s_tasks s !! ch with
  | Some t =>
      if t_closed t then s
      else set_tasks (<[ch := set_cell (deliver_sys m (t_cell t)) t]> (s_tasks s)) s
  | None => s
  end.

(** On the user channel: [false] if the receiver is gone. *)
Definition send_user (ch : Chan) (env : Envelope Msg) (s : ActorSystem) : bool * ActorSystem :=
  match s_tasks s !! ch with
  | Some t =>
      if t_closed t then (false, s)
      else (true, set_tasks (<[ch := set_cell (deliver_user env (t_cell t)) t]> (s_tasks s)) s)
  | None => (false, s)
  end.

Definition notify_dead_letter (path : ActorPath) (s : ActorSystem) : ActorSystem :=
  if s_dead_letter_observer s then report (OnDeadLetter path None) s else s.

(** ** References *)

(** The common part of [tell], [tell_from] and [tell_with_meta]: a remote reference
    serializes the message with the path of the sender. *)
Definition tell_env (r : UntypedActorRef) (env : Envelope Msg) (s : ActorSystem) : ActorSystem :=
  match r with
  | ULocal path ch =>
      let '(sent, s) := send_user ch env s in
      if sent then s else notify_dead_letter path s
  | URemote p => report (TellSerialized p (e_message env) (sender_path (e_sender env))) s
  end.

Definition tell (r : UntypedActorRef) (m : Msg) (s : ActorSystem) : ActorSystem :=
  tell_env r (mkEnvelope m SenderNone metadata_new) s.

Definition tell_from (r : UntypedActorRef) (m : Msg) (sender : Sender) (s : ActorSystem) : ActorSystem :=
  tell_env r (mkEnvelope m sender metadata_new) s.

Definition tell_with_meta (r : UntypedActorRef) (m : Msg) (meta : Metadata) (s : ActorSystem) : ActorSystem :=
  tell_env r (mkEnvelope m SenderNone meta) s.

Definition tell_directive (r : UntypedActorRef) (d : Directive) (s : ActorSystem) : ActorSystem :=
  match r with ULocal _ ch => send_system ch (SysDirective d) s | URemote _ => s end.

Definition stop_ref (r : UntypedActorRef) (s : ActorSystem) : ActorSystem :=
  match r with
  | ULocal _ ch => send_system ch SysStop s
  | URemote p => report (TellSystem p RsStop) s
  end.

Definition is_terminated (r : UntypedActorRef) (s : ActorSystem) : bool :=
  match r with ULocal _ ch => negb (chan_open ch s) | URemote _ => false end.

(** ** Running tasks *)

(** What a turn emitted is done, in order.  Hooks, spans and freed slots are in the trace
    of the cell and have no further effect. *)
Definition perform (s : ActorSystem) (o : CellOut A Msg) : ActorSystem :=
  match o with
  | OSys ch m => send_system ch m s
  | ORemote p m => report (TellSystem p m) s
  | OTell r env => tell_env r env s
  | OSpawn ch path props =>
      set_tasks (<[ch := mkTask props false false (spawn_cell props path ch (Some (system_view s)))]>
        (s_tasks s)) s
  | OOnSpawn path parent => report (OnSpawn path (Some parent)) s
  | OOnStop path => report (OnStop path) s
  | OHook _ | OSpan _ | OSpanEnd | OFreeSlot _ => s
  end.

(** What the cell did to the system itself: its slot of the guardian. *)
Definition write_back (v : option SystemView) (s : ActorSystem) : ActorSystem :=
  match v with Some v => set_guardian (v_guardian v) s | None => s end.

Definition close_task (ch : Chan) (s : ActorSystem) : ActorSystem :=
  match s_tasks s !! ch with
  | Some t => set_tasks (<[ch := mkTask (t_props t) (t_started t) true (t_cell t)]> (s_tasks s)) s
  | None => s
  end.

(** One turn of a task: the first runs [pre_start], the others the loop; the receivers go
    when the task returns. *)
Definition run_task (ch : Chan) (now : N) (timed_out : bool) (s : ActorSystem) : ActorSystem :=
  match s_tasks s !! ch with
  | None => s
  | Some t =>
      if t_closed t then s else
      let c := sync_system (Some (system_view s)) (t_cell t) in
      let c' := if t_started t then cell_turn (t_props t) now timed_out c else start_cell c in
      let o := drop (length (c_trace (cl_ctx c))) (c_trace (cl_ctx c')) in
      let s := write_back (c_system (cl_ctx c'))
                 (set_tasks (<[ch := mkTask (t_props t) true false c']> (s_tasks s)) s) in
      let s := foldl perform s o in
      if cl_done c' then close_task ch s else s
  end.

(** ** Operations of the system *)

Definition user_path (name : string) (s : ActorSystem) : ActorPath :=
  ActorPath_child name (ActorPath_child "user" (ActorPath_root (s_address s))).

Definition actor_of (props : Props A) (name : string) (s : ActorSystem)
    : (ActorSystemError + UntypedActorRef) * ActorSystem :=
  let parent := ActorPath_child "user" (ActorPath_root (s_address s)) in
  let path := ActorPath_child name parent in
  match s_guardian s !! name with
  | Some _ => (inl (NameTakenErr name), s)
  | None =>
      let ch := [s_next s] in
      let t := mkTask props false false (spawn_cell props path ch (Some (system_view s))) in
      let s := set_tasks (<[ch := t]> (s_tasks s)) (count_top s) in
      let s := if s_spawn_observer s then report (OnSpawn path (Some parent)) s else s in
      (inr (ULocal path ch), set_guardian (<[name := mkChild path ch]> (s_guardian s)) s)
  end.

Definition stop (name : string) (s : ActorSystem) : ActorSystem :=
  match s_guardian s !! name with
  | Some c => send_system (ce_chan c) SysStop s
  | None => s
  end.

(** Stop to every top-level actor, the flag, then whoever waits at this moment. *)
Definition terminate (s : ActorSystem) : ActorSystem :=
  let s := foldl (λ s kc, send_system (ce_chan kc.2) SysStop s) s (map_to_list (s_guardian s)) in
  mkSystem (s_name s) (s_address s) (s_guardian s) (s_spawn_observer s) (s_dead_letter_observer s)
    (s_remote_provider s) true
    ((λ w, if decide (w = WaitNotified) then WaitDone else w) <$> s_waiters s)
    (s_tasks s) (s_next s) (s_reports s).

Definition set_waiters (w : list WaitState) (s : ActorSystem) : ActorSystem :=
  mkSystem (s_name s) (s_address s) (s_guardian s) (s_spawn_observer s) (s_dead_letter_observer s)
    (s_remote_provider s) (s_terminated s) w (s_tasks s) (s_next s) (s_reports s).

(** [when_terminated] in two steps: the flag is read, then the notification is awaited. *)
Definition when_terminated_step (i : nat) (s : ActorSystem) : ActorSystem :=
  match s_waiters s !! i with
  | Some WaitStart => set_waiters (<[i := if s_terminated s then WaitDone else WaitRead]> (s_waiters s)) s
  | Some WaitRead => set_waiters (<[i := WaitNotified]> (s_waiters s)) s
  | _ => s
  end.

Definition is_remote_path (path : ActorPath) (s : ActorSystem) : bool :=
  has_global_scope (ap_address path) && bool_decide (is_Some (s_remote_provider s)).

(** ** Selections *)

Definition split_addr_path (str : string) : option (string * string) :=
  '(proto, after) ← split_once "://" str;
  match split_once "/" after with
  | Some (a, b) => Some (proto +:+ "://" +:+ a, String "/" b)
  | None => Some (str, EmptyString)
  end.

Definition parse_path (str : string) : option ActorPath :=
  '(addr_part, path_part) ← split_addr_path str;
  address ← Address_parse addr_part;
  Paths.add_segments (ActorPath_root address) (Paths.segments path_part).

Definition is_local (path : ActorPath) (s : ActorSystem) : bool :=
  has_local_scope (ap_address path) || bool_decide (ap_address path = s_address s).

Definition actor_selection (str : string) (s : ActorSystem) : option UntypedActorRef :=
  path ← parse_path str;
  if is_local path s then
    match ap_elements path with
    | root :: name :: _ =>
        if decide (root = "user")
        then (λ c, ULocal (ce_path c) (ce_chan c)) <$> s_guardian s !! name
        else None
    | _ => None
    end
  else
    provider ← s_remote_provider s;
    handle ← provider path;
    Some (URemote handle).

Definition actor_selection_with (str : string) (s : ActorSystem) : option UntypedActorRef :=
  path ← parse_path str;
  if is_local path s then None
  else
    provider ← s_remote_provider s;
    handle ← provider path;
    Some (URemote handle).

(** Everything that can happen. *)
Inductive SysOp :=
  | Run (ch : Chan) (now : N) (timed_out : bool)
  | ActorOf (props : Props A) (name : string)
  | StopName (name : string)
  | Terminate
  | Tell (r : UntypedActorRef) (env : Envelope Msg)
  | StopRef (r : UntypedActorRef)
  | TellDirective (r : UntypedActorRef) (d : Directive)
  | SetSpawnObserver
  | SetDeadLetterObserver
  | SetRemoteProvider (p : ActorPath → option ActorPath)
  | NewWaiter
  | WaitStep (i : nat).

Definition sys_step (op : SysOp) (s : ActorSystem) : ActorSystem :=
  match op with
  | Run ch now timed_out => run_task ch now timed_out s
  | ActorOf props name => (actor_of props name s).2
  | StopName name => stop name s
  | Terminate => terminate s
  | Tell r env => tell_env r env s
  | StopRef r => stop_ref r s
  | TellDirective r d => tell_directive r d s
  | SetSpawnObserver => set_spawn_observer s
  | SetDeadLetterObserver => set_dead_letter_observer s
  | SetRemoteProvider p => set_remote_provider p s
  | NewWaiter => set_waiters (s_waiters s ++ [WaitStart]) s
  | WaitStep i => when_terminated_step i s
  end.

(** A run: the operations are an infinite sequence. *)
Fixpoint run_at (ops : nat → SysOp) (s : ActorSystem) (n : nat) : ActorSystem :=
  match n with
  | O => s
  | S n => sys_step (ops n) (run_at ops s n)
  end.

(** Every live task is run again and again. *)
Definition fair (ops : nat → SysOp) (s : ActorSystem) : Prop :=
  ∀ ch n t, s_tasks (run_at ops s n) !! ch = Some t → t_closed t = false →
    ∃ m now timed_out, n ≤ m ∧ ops m = Run ch now timed_out.
End system.
Arguments Task _ _ : clear implicits.
Arguments Report _ : clear implicits.
Arguments ActorSystem _ _ : clear implicits.
Arguments SysOp _ _ : clear implicits.
End Systems.
