(* ===== verification/SystemRuns.v ===== *)
(** * Runs of an actor system

    What holds of every run of the system of [ActorSystem]: names, families, the end of
    whole subtrees, death watch, selections.

    - [TurnFacts]: one turn as steps of its context.
    - [MailFacts]: deliveries, and what performing the effects of a turn amounts to.
    - [SystemFacts]: the invariant, and progress in fair runs.
    - [SelectionFacts]: paths lead back to their actors.
    - [Demo]: a system that runs, and what the code does not do. *)

From stdpp Require Import gmap strings list.
From Stdlib Require Import NArith Ascii Lia.
From S2P Require Import Prelude RemoteSystem Address Supervision ActorCell ActorSystem.

(** ** What a turn does to its context *)

Module TurnFacts.
Section facts.
Context {A Msg : Type} `{!Actor A Msg} `{!ActorLaws A Msg}.
Implicit Types (c : Ctx A Msg) (cl : Cell A Msg) (props : Props A).

(** Marks in the trace that nobody acts on. *)
Definition quiet (o : CellOut A Msg) : Prop :=
  match o with OHook _ | OSpan _ | OSpanEnd => True | _ => False end.

(** User code, marks, and changes of fields that concern the cell alone. *)
Inductive estep : Ctx A Msg → Ctx A Msg → Prop :=
  | es_user c c' : ctx_step c c' → estep c c'
  | es_mark o c : quiet o → estep c (emit [o] c)
  | es_same c c' :
      c_path c' = c_path c → c_self c' = c_self c → c_system c' = c_system c →
      c_children c' = c_children c → c_spawned c' = c_spawned c →
      c_watched_by c' = c_watched_by c → c_trace c' = c_trace c → estep c c'.

Lemma estep_watched c c' : estep c c' → c_watched_by c' = c_watched_by c.
Proof. destruct 1 as [c c' Hs|o c _|]; [|done..]. by destruct (ctx_step_ext _ _ Hs) as (_ & ? & _). Qed.

Lemma esteps_watched c c' : rtc estep c c' → c_watched_by c' = c_watched_by c.
Proof. induction 1 as [|c1 c2 c3 Hs _ IH]; [done|]. rewrite IH. by apply estep_watched. Qed.

Lemma user_esteps c c' : rtc ctx_step c c' → rtc estep c c'.
Proof. apply rtc_subrel. intros ? ? ?. by constructor. Qed.

Lemma hook_esteps h f (s : A * Ctx A Msg) :
  (∀ a c, rtc ctx_step c (f a c).2) → rtc estep s.2 (run_hook h f s).2.
Proof. intros Hf. eapply rtc_l; [by apply (es_mark (OHook h))|]. apply user_esteps, Hf. Qed.

(** How a turn ends: the task goes on, perhaps with other watchers, or it returns. *)
Definition turned cl cl' : Prop :=
  ∃ c1, rtc estep (cl_ctx cl) c1 ∧
    if cl_done cl' then cl_ctx cl' = end_life c1
    else ∃ w, cl_ctx cl' = set_watched_by w c1.

Lemma turned_on cl cl' : cl_done cl' = false → rtc estep (cl_ctx cl) (cl_ctx cl') → turned cl cl'.
Proof.
  intros Hd He. exists (cl_ctx cl'). rewrite Hd. split; [done|].
  exists (c_watched_by (cl_ctx cl')). by destruct (cl_ctx cl').
Qed.

Lemma finish_turned cl cl0 :
  rtc estep (cl_ctx cl0) (cl_ctx cl) → turned cl0 (finish cl) ∧ cl_sysq (finish cl) = cl_sysq cl.
Proof.
  intros He. unfold finish, finalize.
  pose proof (hook_esteps HPostStop a_post_stop (cl_actor cl, set_phase PhaseStopping (cl_ctx cl)) law_post_stop) as Hh.
  cbn [fst snd] in *. destruct (run_hook _ _ _) as [a c]. cbn in *. split; [|done]. exists c. split; [|done].
  etrans; [exact He|]. eapply rtc_l; [|exact Hh]. by apply es_same.
Qed.

Lemma take_system_turned m cl cl0 :
  rtc estep (cl_ctx cl0) (cl_ctx cl) → cl_done cl = false →
  turned cl0 (take_system m cl) ∧ cl_sysq (take_system m cl) = cl_sysq cl ∧
  cl_done (take_system m cl) = (if m is SysStop then true else false).
Proof.
  intros He Hd. unfold take_system.
  destruct m as [|err|p|w|p| |n e|d]; cbn.
  - destruct (finish_turned (set_actor (cl_actor cl, cl_ctx cl) cl) cl0 He). split_and!; [done..|].
    by destruct (finish_ext (set_actor (cl_actor cl, cl_ctx cl) cl)) as (_ & -> & _).
  - split_and!; [|done..]. apply turned_on; [done|]. etrans; [exact He|].
    etrans; [apply (hook_esteps (HPreRestart err) (a_pre_restart err) (cl_actor cl, cl_ctx cl) (law_pre_restart err))|].
    apply (hook_esteps (HPostRestart err) (a_post_restart err)), law_post_restart.
  - split_and!; [|done..]. apply turned_on; [done|]. etrans; [exact He|].
    eapply rtc_l; [|apply (hook_esteps (HOnTerminated p) (a_on_terminated p)
      (cl_actor cl, set_watching (c_watching (cl_ctx cl) ∖ {[p]}) (cl_ctx cl)) (law_on_terminated p))]. by apply es_same.
  - split_and!; [|done..]. exists (cl_ctx cl). cbn. rewrite Hd. split; [done|]. by eexists.
  - split_and!; [|done..]. exists (cl_ctx cl). cbn. rewrite Hd. split; [done|]. by eexists.
  - split_and!; [by apply turned_on|done..].
  - split_and!; [by apply turned_on|done..].
  - split_and!; [|done..]. apply turned_on; [done|]. etrans; [exact He|].
    apply (hook_esteps (HOnDirective d) (a_on_directive d) (cl_actor cl, cl_ctx cl) (law_on_directive d)).
Qed.

Lemma supervise_turned props now err cl cl0 :
  rtc estep (cl_ctx cl0) (cl_ctx cl) → cl_done cl = false →
  (cl_done (supervise props now err cl) = false ∧
     rtc estep (cl_ctx cl0) (cl_ctx (supervise props now err cl)) ∨
   cl_done (supervise props now err cl) = true ∧ turned cl0 (supervise props now err cl)) ∧
  cl_sysq (supervise props now err cl) = cl_sysq cl.
Proof.
  intros He Hd. unfold supervise.
  assert ((cl_done (finish cl) = false ∧ rtc estep (cl_ctx cl0) (cl_ctx (finish cl)) ∨
    cl_done (finish cl) = true ∧ turned cl0 (finish cl)) ∧ cl_sysq (finish cl) = cl_sysq cl) as Hfin.
  { destruct (finish_turned cl cl0 He) as [Ht Hq]. split; [|done]. right.
    by destruct (finish_ext cl) as (_ & -> & _). }
  destruct (match p_supervisor props with Some s => strategy_decide s err | None => Restart end) as [| | | |? ?|?|?];
    try exact Hfin; try (split; [left|done]; split; [done|]; etrans; [exact He|];
      apply (hook_esteps (HOnDirective _) (a_on_directive _) (cl_actor cl, cl_ctx cl)), law_on_directive).
  - split; [by left|done].
  - destruct (admit_restart _ _ _) as [h|]; [|exact Hfin].
    pose proof (hook_esteps (HPreRestart err) (a_pre_restart err) (cl_actor cl, cl_ctx cl) (law_pre_restart err)) as H1.
    destruct (run_hook (HPreRestart err) _ _) as [a1 c1]. cbn [fst snd] in *.
    split; [left|done]. split; [done|]. etrans; [exact He|]. etrans; [exact H1|].
    apply (hook_esteps (HPostRestart err) (a_post_restart err) (new_actor props, c1)), law_post_restart.
Qed.

Lemma take_user_turned props now env cl :
  cl_done cl = false →
  turned cl (take_user props now env cl) ∧ cl_sysq (take_user props now env cl) = cl_sysq cl.
Proof.
  intros Hd. unfold take_user.
  set (c0 := set_current (e_sender env) (e_metadata env) (cl_ctx cl)).
  assert (rtc estep (cl_ctx cl) (run_handle props (e_message env) (cl_actor cl, c0)).2.2) as He.
  { eapply rtc_l; [by apply (es_same (cl_ctx cl) c0)|]. unfold run_handle. cbn [fst snd].
    set (c1 := if p_intercepted props then _ else _).
    assert (rtc estep c0 c1) as H1.
    { unfold c1. destruct (p_intercepted props); [|done]. apply rtc_once. by apply es_mark. }
    pose proof (law_handle (cl_actor cl) (emit [OHook (HHandle (e_message env))] c1) (e_message env)) as H2.
    destruct (a_handle _ _ _) as [res [a c2]]. cbn in *. etrans; [exact H1|].
    eapply rtc_l; [by apply (es_mark (OHook (HHandle (e_message env))))|].
    etrans; [by apply user_esteps|]. destruct (p_intercepted props); [|done]. apply rtc_once. by apply es_mark. }
  destruct (run_handle _ _ _) as [res s]. cbn [snd] in He.
  assert (rtc estep (cl_ctx cl) (cl_ctx (set_actor s cl))) as He' by done.
  destruct res as [err|]; cbn [cl_done set_actor].
  - destruct (supervise_turned props now err (set_actor s cl) cl He' Hd) as [[[Hd' Hs]|[Hd' Ht]] Hq].
    + rewrite Hd'. split; [|done]. apply turned_on; [done|]. eapply rtc_r; [exact Hs|]. by apply es_same.
    + rewrite Hd'. by split.
  - rewrite Hd. split; [|done]. apply turned_on; [done|]. eapply rtc_r; [exact He'|]. by apply es_same.
Qed.

(** One turn takes at most the first system message. *)
Lemma cell_turn_turned props now timed_out cl :
  cl_done cl = false →
  let cl' := cell_turn props now timed_out cl in
  turned cl cl' ∧ cl_sysq cl' = tail (cl_sysq cl) ∧
  (head (cl_sysq cl) = Some SysStop → cl_done cl' = true).
Proof.
  intros Hd. cbn. unfold cell_turn. rewrite Hd.
  destruct (cl_sysq cl) as [|m q] eqn:Eq.
  - assert (turned cl (finish cl) ∧ cl_sysq (finish cl) = []) as Hfin.
    { destruct (finish_turned cl cl (rtc_refl _ _)) as [? ->]. by rewrite Eq. }
    destruct (c_stopping (cl_ctx cl)); [by destruct Hfin; split_and!|].
    destruct (cl_sys_closed cl); [by destruct Hfin; split_and!|].
    destruct (cl_userq cl) as [|e us].
    + destruct (cl_user_closed cl); [by destruct Hfin; split_and!|].
      destruct (c_receive_timeout (cl_ctx cl)), timed_out; (split_and!; [by apply turned_on|done..]).
    + destruct (take_user_turned props now e (pop_user cl) Hd) as [Ht ->]. split_and!; [exact Ht|done..].
  - destruct (take_system_turned m (pop_sys cl) cl (rtc_refl _ _) Hd) as (Ht & Hq & Hdone).
    split_and!; [done| |].
    + rewrite Hq. cbn. by rewrite Eq.
    + intros [= ->]. by rewrite Hdone.
Qed.

Lemma start_cell_turned cl :
  cl_done cl = false → turned cl (start_cell cl) ∧ cl_sysq (start_cell cl) = cl_sysq cl ∧
  cl_done (start_cell cl) = false.
Proof.
  intros Hd. unfold start_cell.
  pose proof (hook_esteps HPreStart a_pre_start (cl_actor cl, set_phase PhaseStarting (cl_ctx cl)) law_pre_start) as Hh.
  destruct (run_hook _ _ _) as [a c]. cbn in Hh. split_and!; [|done..]. apply turned_on; [done|].
  eapply rtc_l; [by apply (es_same _ (set_phase PhaseStarting (cl_ctx cl)))|].
  eapply rtc_r; [exact Hh|]. by apply es_same.
Qed.
End facts.
End TurnFacts.

(** ** Deliveries *)

Module MailFacts.
Import Systems TurnFacts.
Section facts.
Context {A Msg : Type} `{!Actor A Msg} `{!ActorLaws A Msg}.
Implicit Types (c : Ctx A Msg) (cl : Cell A Msg) (t : Task A Msg) (s : ActorSystem A Msg).

Definition add_mail (ms : list SystemMsg) (es : list (Envelope Msg)) cl : Cell A Msg :=
  mkCell (cl_actor cl) (cl_ctx cl) (cl_history cl) (cl_sysq cl ++ ms) (cl_userq cl ++ es)
    (cl_sys_closed cl) (cl_user_closed cl) (cl_done cl).

(** The same task with more mail. *)
Definition grown t t' : Prop := ∃ ms es, t' = set_cell (add_mail ms es (t_cell t)) t.

#[export] Instance grown_preorder : PreOrder grown.
Proof.
  split.
  - intros [? ? ? []]. exists [], []. unfold set_cell, add_mail. cbn. by rewrite !app_nil_r.
  - intros t1 t2 t3 (ms & es & ->) (ms' & es' & ->). exists (ms ++ ms'), (es ++ es').
    unfold set_cell, add_mail. cbn. by rewrite !app_assoc.
Qed.

(** The fields that no delivery touches. *)
Definition same_frame s s' : Prop :=
  s_guardian s' = s_guardian s ∧ s_next s' = s_next s ∧ s_address s' = s_address s ∧
  s_spawn_observer s' = s_spawn_observer s.

Record mailed s s' : Prop := {
  m_frame : same_frame s s';
  m_old : ∀ k t, s_tasks s !! k = Some t → ∃ t', s_tasks s' !! k = Some t' ∧ grown t t';
  m_new : ∀ k, s_tasks s !! k = None → s_tasks s' !! k = None;
}.

#[export] Instance mailed_preorder : PreOrder mailed.
Proof.
  split.
  - intros s. split; [by repeat split| |done]. intros k t Ht. exists t. by split.
  - intros s1 s2 s3 [(?&?&?&?) O1 N1] [(?&?&?&?) O2 N2]. split.
    + unfold same_frame. split_and!; congruence.
    + intros k t (t' & Ht' & G)%O1. apply O2 in Ht' as (t'' & ? & ?). exists t''. split; [done|]. by etrans.
    + auto.
Qed.

Lemma mailed_insert s ch t t' :
  s_tasks s !! ch = Some t → grown t t' → mailed s (set_tasks (<[ch := t']> (s_tasks s)) s).
Proof.
  intros Ht G. split; [done|..].
  - intros k t1 Hk. cbn. destruct (decide (k = ch)) as [->|].
    + rewrite lookup_insert_eq. exists t'. split; [done|]. by simplify_eq.
    + rewrite lookup_insert_ne by done. by exists t1.
  - intros k Hk. cbn. rewrite lookup_insert_ne; [done|]. intros ->. congruence.
Qed.

Lemma mailed_same s s' : same_frame s s' → s_tasks s' = s_tasks s → mailed s s'.
Proof. intros Hf Ht. split; rewrite ?Ht; [done| |done]. intros k t Hk. by exists t. Qed.

Lemma send_system_mailed ch m s : mailed s (send_system ch m s).
Proof.
  unfold send_system. destruct (s_tasks s !! ch) as [t|] eqn:E; [|done]. destruct (t_closed t); [done|].
  apply (mailed_insert s ch t); [done|]. exists [m], []. unfold set_cell, add_mail, deliver_sys.
  by rewrite app_nil_r.
Qed.

Lemma tell_env_mailed r env s : mailed s (tell_env r env s).
Proof.
  destruct r as [p ch|p]; cbn; [|by apply mailed_same].
  unfold send_user. destruct (s_tasks s !! ch) as [t|] eqn:E; [destruct (t_closed t)|].
  1,3: unfold notify_dead_letter; destruct (s_dead_letter_observer s); by apply mailed_same.
  apply (mailed_insert s ch t); [done|]. exists [], [env]. unfold set_cell, add_mail, deliver_user.
  by rewrite app_nil_r.
Qed.

Definition no_spawn (o : CellOut A Msg) : Prop := match o with OSpawn _ _ _ => False | _ => True end.

Lemma perform_mailed s o : no_spawn o → mailed s (perform s o).
Proof.
  destruct o; cbn; intros Ho; try done; try (by apply mailed_same).
  - apply send_system_mailed.
  - apply tell_env_mailed.
Qed.

Lemma performs_mailed os s : Forall no_spawn os → mailed s (foldl perform s os).
Proof.
  intros H. revert s. induction H as [|o os Ho _ IH]; intros s; [done|]. cbn.
  etrans; [by apply perform_mailed|apply IH].
Qed.

(** A message sent to an open channel is in its queue afterwards. *)
Lemma performs_sent os s ch m t :
  Forall no_spawn os → OSys ch m ∈ os → s_tasks s !! ch = Some t → t_closed t = false →
  ∃ t', s_tasks (foldl perform s os) !! ch = Some t' ∧ m ∈ cl_sysq (t_cell t').
Proof.
  intros Hos. revert s t. induction Hos as [|o os Ho Hos IH]; intros s t Hin Ht Hc; [by apply elem_of_nil in Hin|].
  apply elem_of_cons in Hin as [<-|Hin]; cbn.
  - unfold send_system. rewrite Ht, Hc.
    set (s1 := set_tasks _ s). pose proof (performs_mailed os s1 Hos) as [_ HO _].
    destruct (HO ch (set_cell (deliver_sys m (t_cell t)) t)) as (t' & Ht' & ms & es & ->).
    { unfold s1. cbn. apply lookup_insert_eq. }
    eexists. split; [exact Ht'|]. cbn. rewrite !elem_of_app, list_elem_of_singleton. auto.
  - destruct (perform_mailed s o Ho) as [_ HO _]. destruct (HO ch t Ht) as (t' & Ht' & G).
    apply (IH _ t'); [done..|]. by destruct G as (ms & es & ->).
Qed.

(** ** Turns in the system *)

(** Channels that the owner of a context has not used yet. *)
Definition fresh s c : Prop := ∀ k, c_spawned c ≤ k → s_tasks s !! (c_self c ++ [k]) = None.

(** A task that was just spawned. *)
Definition newborn (p : ActorPath) (k : Chan) t : Prop :=
  t_started t = false ∧ t_closed t = false ∧
  ∃ v ms es, t_cell t = add_mail ms es (spawn_cell (t_props t) p k v).

Lemma newborn_grown p k t t' : newborn p k t → grown t t' → newborn p k t'.
Proof.
  intros (Hs & Hc & v & ms & es & Hcell) (ms' & es' & ->). split_and!; [done..|].
  exists v, (ms ++ ms'), (es ++ es'). cbn. rewrite Hcell. unfold add_mail. cbn. done.
Qed.

(** What performing the effects of a context amounts to. *)
Record used s s' c c' : Prop := {
  u_path : c_path c' = c_path c;
  u_self : c_self c' = c_self c;
  u_system : c_system c' = c_system c;
  u_spawned : c_spawned c ≤ c_spawned c';
  u_children : c_children c ⊆ c_children c';
  u_frame : same_frame s s';
  u_old : ∀ k t, s_tasks s !! k = Some t → ∃ t', s_tasks s' !! k = Some t' ∧ grown t t';
  u_new : ∀ k t', s_tasks s !! k = None → s_tasks s' !! k = Some t' →
    ∃ j name, k = c_self c ++ [j] ∧ c_spawned c ≤ j < c_spawned c' ∧
      newborn (ActorPath_child name (c_path c)) k t' ∧
      c_children c' !! name = Some (mkChild (ActorPath_child name (c_path c)) k);
}.

Lemma used_mailed s s' c c' :
  c_path c' = c_path c → c_self c' = c_self c → c_system c' = c_system c →
  c_children c' = c_children c → c_spawned c' = c_spawned c → mailed s s' → used s s' c c'.
Proof.
  intros ? ? ? Hch Hsp [? ? Hnew]. split; try done; [by rewrite Hsp|by rewrite Hch|].
  intros k t' Hk Hk'. rewrite (Hnew _ Hk) in Hk'. done.
Qed.

Lemma used_fresh s s' c c' : used s s' c c' → fresh s c → fresh s' c'.
Proof.
  intros U Hf k Hk. destruct (s_tasks s' !! (c_self c' ++ [k])) as [t'|] eqn:E; [|done]. exfalso.
  rewrite (u_self _ _ _ _ U) in E. pose proof (u_spawned _ _ _ _ U).
  destruct (u_new _ _ _ _ U _ _ (Hf k ltac:(lia)) E) as (j & name & Heq & Hj & _).
  apply app_inj_2 in Heq as [_ [= <-]]; [lia|done].
Qed.

Lemma used_trans s1 s2 s3 c1 c2 c3 : used s1 s2 c1 c2 → used s2 s3 c2 c3 → used s1 s3 c1 c3.
Proof.
  intros [P1 S1 Y1 N1 C1 (?&?&?&?) O1 W1] [P2 S2 Y2 N2 C2 (?&?&?&?) O2 W2].
  split; [congruence..|lia| | | |].
  - by etrans.
  - unfold same_frame. split_and!; congruence.
  - intros k t (t' & Ht' & G)%O1. apply O2 in Ht' as (t'' & ? & ?). exists t''. split; [done|]. by etrans.
  - intros k t' Hk Hk'. destruct (s_tasks s2 !! k) as [t|] eqn:E.
    + destruct (W1 k t Hk E) as (j & name & -> & Hj & Hb & Hc). exists j, name. split_and!; [done|lia|lia| |].
      * destruct (O2 _ _ E) as (t2 & Ht2 & G). rewrite Hk' in Ht2. injection Ht2 as <-. by eapply newborn_grown.
      * by eapply lookup_weaken.
    + destruct (W2 k t' E Hk') as (j & name & -> & Hj & Hb & Hc). rewrite P1 in Hb, Hc.
      exists j, name. split_and!; [congruence|lia|lia|done|done].
Qed.

Lemma spawn_used s c props name :
  fresh s c →
  ∃ o, c_trace (Context_spawn props name c).2 = c_trace c ++ o ∧
    used s (foldl perform s o) c (Context_spawn props name c).2.
Proof.
  intros Hf. unfold Context_spawn.
  assert (∃ o, c_trace c = c_trace c ++ o ∧ used s (foldl perform s o) c c) as Hsame.
  { exists []. rewrite app_nil_r. split; [done|]. by apply used_mailed. }
  destruct (c_children c !! name) eqn:En; [exact Hsame|].
  destruct (c_system c) as [v|] eqn:Ev; [|exact Hsame].
  set (p := ActorPath_child name (c_path c)). set (ch := c_self c ++ [c_spawned c]).
  set (s1 := perform s (OSpawn ch p props)).
  exists (OSpawn ch p props :: if v_observed v then [OOnSpawn p (c_path c)] else []). split.
  { destruct (v_observed v); cbn; [by rewrite <- app_assoc|done]. }
  assert (mailed s1 (foldl perform s1 (if v_observed v then [OOnSpawn p (c_path c)] else []))) as HM.
  { apply performs_mailed. destruct (v_observed v); by repeat constructor. }
  cbn [foldl]. fold s1.
  apply (used_trans s s1 _ c (set_children (<[name := mkChild p ch]> (c_children c)) (count_spawn c))).
  - pose proof (Hf (c_spawned c) ltac:(lia)) as Hnone. fold ch in Hnone.
    split; cbn; try done; [lia|by apply insert_subseteq|..].
    + intros k t Hk. rewrite lookup_insert_ne by congruence. by exists t.
    + intros k t' Hk Hk'. apply lookup_insert_Some in Hk' as [[<- <-]|[_ ?]]; [|congruence].
      exists (c_spawned c), name. split_and!; [done|lia|lia| |by rewrite lookup_insert_eq].
      split_and!; [done..|]. exists (Some (system_view s)), [], []. done.
  - destruct (v_observed v); by apply used_mailed.
Qed.

Lemma estep_used s c c' :
  estep c c' → fresh s c →
  ∃ o, c_trace c' = c_trace c ++ o ∧ used s (foldl perform s o) c c'.
Proof.
  intros He Hf.
  assert (∀ x o, c_path x = c_path c → c_self x = c_self c → c_system x = c_system c →
    c_children x = c_children c → c_spawned x = c_spawned c → c_trace x = c_trace c ++ o →
    Forall no_spawn o → ∃ o, c_trace x = c_trace c ++ o ∧ used s (foldl perform s o) c x) as Hmail.
  { intros x o ? ? ? ? ? ? Ho. exists o. split; [done|]. apply used_mailed; [done..|]. by apply performs_mailed. }
  assert (∀ x, c_path x = c_path c → c_self x = c_self c → c_system x = c_system c →
    c_children x = c_children c → c_spawned x = c_spawned c → c_trace x = c_trace c →
    ∃ o, c_trace x = c_trace c ++ o ∧ used s (foldl perform s o) c x) as Hquiet.
  { intros x ? ? ? ? ? Ht. apply (Hmail x []); [done..| |done]. by rewrite app_nil_r. }
  destruct He as [c c' Hs|o c Ho|c c']; [|by apply (Hmail _ [o]); try done; destruct o; repeat constructor|by apply Hquiet].
  destruct Hs as [props name c|name c|tg c|tg c|m c|c|c|d c|tg env c|tg c|tg d c];
    unfold Context_stop_child, Context_watch, Context_unwatch, system_send;
    repeat case_match; try (by apply Hquiet);
    try (by eapply Hmail; [done..|reflexivity|repeat constructor]).
  - by apply spawn_used.
  - eapply Hmail; [done..|reflexivity|]. by destruct tg; repeat constructor.
Qed.

Lemma esteps_used s c c' :
  rtc estep c c' → fresh s c →
  ∃ o, c_trace c' = c_trace c ++ o ∧ used s (foldl perform s o) c c'.
Proof.
  intros He. revert s. induction He as [c|c1 c2 c3 Hs _ IH]; intros s Hf.
  - exists []. rewrite app_nil_r. split; [done|]. by apply used_mailed.
  - destruct (estep_used s c1 c2 Hs Hf) as (o & Ho & U).
    destruct (IH _ (used_fresh _ _ _ _ U Hf)) as (o' & Ho' & U'). exists (o ++ o').
    rewrite Ho', Ho, app_assoc, foldl_app. split; [done|]. by eapply used_trans.
Qed.

(** The effects of the end of a life. *)
Definition ending c : list (CellOut A Msg) :=
  ((λ kc, OSys (ce_chan kc.2) SysStop) <$> map_to_list (c_children c)) ++
  match c_system c with
  | None => []
  | Some v => (free_slot (c_path c) (v_guardian v)).2 ++ (if v_observed v then [OOnStop (c_path c)] else [])
  end ++ ((λ kw, notify_watchers (c_path c) kw.2) <$> map_to_list (c_watched_by c)).

Lemma end_life_spec c :
  c_trace (end_life c) = c_trace c ++ ending c ∧ c_self (end_life c) = c_self c ∧
  c_path (end_life c) = c_path c ∧ c_spawned (end_life c) = c_spawned c ∧
  c_system (end_life c) = left_view (A := A) (Msg := Msg) (c_path c) <$> c_system c.
Proof.
  unfold end_life, leave_system, ending, left_view. cbn.
  destruct (c_system c) as [[g ob]|] eqn:Es; cbn.
  - destruct (free_slot (c_path c) g) as [g' fr]. cbn. destruct ob; cbn; rewrite ?app_nil_r, <- ?app_assoc; by split_and!.
  - rewrite <- ?app_assoc. by split_and!.
Qed.

Lemma ending_no_spawn c : Forall no_spawn (ending c).
Proof.
  unfold ending, free_slot. repeat apply Forall_app_2.
  - apply Forall_fmap, Forall_true. done.
  - repeat case_match; by repeat constructor.
  - apply Forall_fmap, Forall_true. intros [k [|]]; done.
Qed.
End facts.
End MailFacts.

(** ** The invariant of a system *)

Module SystemFacts.
Import Systems TurnFacts MailFacts.
Section facts.
Context {A Msg : Type} `{!Actor A Msg} `{!ActorLaws A Msg}.
Implicit Types (c : Ctx A Msg) (cl : Cell A Msg) (t : Task A Msg) (s : ActorSystem A Msg).

Definition t_ctx t : Ctx A Msg := cl_ctx (t_cell t).

(** A live actor is in the map of its parent, or its parent has ended and a stop is on
    the way. *)
Definition cared_for (p t : Task A Msg) (ch : Chan) : Prop :=
  if t_closed p then t_closed t = true ∨ SysStop ∈ cl_sysq (t_cell t)
  else ∃ name e, c_children (t_ctx p) !! name = Some e ∧ ce_chan e = ch.

Record sys_inv s : Prop := {
  i_task : ∀ ch t, s_tasks s !! ch = Some t →
    ch ≠ [] ∧ c_self (t_ctx t) = ch ∧ cl_done (t_cell t) = t_closed t ∧
    length (ap_elements (c_path (t_ctx t))) = S (length ch);
  i_run : ∀ ch t, s_tasks s !! ch = Some t →
    ∃ p v, rtc (cell_step (t_props t)) (false, spawn_cell (t_props t) p ch v) (t_started t, t_cell t);
  i_next : ∀ k t, s_tasks s !! [k] = Some t → k < s_next s;
  i_family : ∀ ch k t, ch ≠ [] → s_tasks s !! (ch ++ [k]) = Some t →
    ∃ p, s_tasks s !! ch = Some p ∧ k < c_spawned (t_ctx p) ∧ cared_for p t (ch ++ [k]);
  i_guardian : ∀ name e, s_guardian s !! name = Some e →
    ∃ k t, e = mkChild (user_path name s) [k] ∧ s_tasks s !! [k] = Some t ∧
      t_closed t = false ∧ c_path (t_ctx t) = user_path name s;
  i_top : ∀ k t, s_tasks s !! [k] = Some t →
    ∃ name, c_path (t_ctx t) = user_path name s ∧
      (t_closed t = false → s_guardian s !! name = Some (mkChild (user_path name s) [k]));
}.

Lemma user_path_inj s name name' : user_path name s = user_path name' s → name = name'.
Proof. unfold user_path, ActorPath_child. cbn. by intros [=]. Qed.

Lemma user_path_frame s s' name : same_frame s s' → user_path name s' = user_path name s.
Proof. intros (_ & _ & Ha & _). unfold user_path. by rewrite Ha. Qed.

Lemma sys_inv_create name : sys_inv (create name).
Proof. split; cbn; intros *; rewrite ?lookup_empty; done. Qed.

Lemma inv_fresh s ch t : sys_inv s → s_tasks s !! ch = Some t → fresh s (t_ctx t).
Proof.
  intros I Ht k Hk. destruct (i_task s I ch t Ht) as (Hne & Hs & _). rewrite Hs.
  destruct (s_tasks s !! (ch ++ [k])) as [t'|] eqn:E; [|done].
  destruct (i_family s I ch k t' Hne E) as (p & Hp & Hlt & _). rewrite Ht in Hp. injection Hp as <-. lia.
Qed.

(** More mail is a run of the cell. *)
Lemma grown_run t t' : grown t t' → rtc (cell_step (t_props t)) (t_started t, t_cell t) (t_started t, t_cell t').
Proof.
  intros (ms & es & ->). cbn. destruct (t_cell t) as [a c h q u x y d]. unfold add_mail. cbn.
  trans (t_started t, mkCell a c h (q ++ ms) u x y d).
  - revert q. induction ms as [|m ms IH]; intros q; [by rewrite app_nil_r|].
    eapply rtc_l; [apply (cs_sys _ m)|]. unfold deliver_sys. cbn.
    specialize (IH (q ++ [m])). by rewrite <- app_assoc in IH.
  - revert u. induction es as [|e es IH]; intros u; [by rewrite app_nil_r|].
    eapply rtc_l; [apply (cs_user _ e)|]. unfold deliver_user. cbn.
    specialize (IH (u ++ [e])). by rewrite <- app_assoc in IH.
Qed.

Lemma cared_for_grown p p' t t' ch : grown p p' → grown t t' → cared_for p t ch → cared_for p' t' ch.
Proof.
  intros (? & ? & ->) (ms & es & ->). unfold cared_for. cbn. destruct (t_closed p); [|done].
  rewrite elem_of_app. intuition.
Qed.

Lemma inv_mailed s s' : mailed s s' → sys_inv s → sys_inv s'.
Proof.
  intros [F O N] I. pose proof F as (Fg & Fn & _ & _).
  assert (∀ k t', s_tasks s' !! k = Some t' → ∃ t, s_tasks s !! k = Some t ∧ grown t t') as B.
  { intros k t' Hk. destruct (s_tasks s !! k) as [t|] eqn:E.
    - destruct (O k t E) as (t'' & H & G). rewrite Hk in H. injection H as <-. by exists t.
    - rewrite (N k E) in Hk. done. }
  split.
  - intros ch t' (t & Ht & ms & es & ->)%B. exact (i_task s I ch t Ht).
  - intros ch t' (t & Ht & G)%B. destruct (i_run s I ch t Ht) as (p & v & Hr).
    pose proof (grown_run t t' G) as Hg. destruct G as (ms & es & ->). exists p, v. cbn in *.
    by etrans.
  - intros k t' (t & Ht & _)%B. rewrite Fn. by eapply (i_next s I).
  - intros ch k t' Hne (t & Ht & G)%B. destruct (i_family s I ch k t Hne Ht) as (p & Hp & Hlt & Hc).
    destruct (O ch p Hp) as (p' & Hp' & Gp). exists p'. split_and!; [done| |by eapply cared_for_grown].
    by destruct Gp as (? & ? & ->).
  - intros name e He. rewrite Fg in He. destruct (i_guardian s I name e He) as (k & t & -> & Ht & Hc & Hp).
    destruct (O [k] t Ht) as (t' & Ht' & ms & es & ->). exists k. eexists.
    rewrite (user_path_frame s s') by done. by split_and!.
  - intros k t' (t & Ht & ms & es & ->)%B. destruct (i_top s I k t Ht) as (name & Hp & Hg).
    exists name. rewrite (user_path_frame s s'), Fg by done. by split.
Qed.

(** ** A turn *)

(** The system when the effects of a turn are about to be performed. *)
Definition turn_start s (ch : Chan) t (c' : Cell A Msg) : ActorSystem A Msg :=
  write_back (c_system (cl_ctx c'))
    (set_tasks (<[ch := mkTask (t_props t) true false c']> (s_tasks s)) s).

Lemma turn_start_tasks s ch t (c' : Cell A Msg) :
  s_tasks (turn_start s ch t c') = <[ch := mkTask (t_props t) true false c']> (s_tasks s).
Proof. unfold turn_start, write_back. by destruct (c_system _). Qed.

Definition turn_ctx s t : Ctx A Msg := set_system (Some (system_view s)) (t_ctx t).

Record turn_spec s (ch : Chan) t (c' : Cell A Msg) (c1 : Ctx A Msg) (s2 s' : ActorSystem A Msg) : Prop := {
  ts_run : rtc (cell_step (t_props t)) (t_started t, t_cell t) (true, c');
  ts_queue : cl_sysq c' = if t_started t then tail (cl_sysq (t_cell t)) else cl_sysq (t_cell t);
  ts_stop : t_started t = true → head (cl_sysq (t_cell t)) = Some SysStop → cl_done c' = true;
  ts_used : used (turn_start s ch t c') s2 (turn_ctx s t) c1;
  ts_watched : c_watched_by c1 = c_watched_by (t_ctx t);
  ts_end : if cl_done c'
           then cl_ctx c' = end_life c1 ∧ s' = close_task ch (foldl perform s2 (ending c1))
           else (∃ w, cl_ctx c' = set_watched_by w c1) ∧ s' = s2;
}.

Lemma run_task_turn s ch t now timed_out :
  sys_inv s → s_tasks s !! ch = Some t → t_closed t = false →
  ∃ (c' : Cell A Msg) c1 s2, turn_spec s ch t c' c1 s2 (run_task ch now timed_out s) ∧
    (t_started t = true → c' = cell_turn (t_props t) now timed_out (sync_system (Some (system_view s)) (t_cell t))).
Proof.
  intros I Ht Hc. unfold run_task. rewrite Ht, Hc.
  set (c := sync_system (Some (system_view s)) (t_cell t)).
  set (c' := if t_started t then _ else _).
  assert (cl_done c = false) as Hd by (destruct (i_task s I ch t Ht) as (_ & _ & H & _); change (cl_done (t_cell t) = false); congruence).
  assert (turned c c' ∧ cl_sysq c' = (if t_started t then tail (cl_sysq (t_cell t)) else cl_sysq (t_cell t)) ∧
    (t_started t = true → head (cl_sysq (t_cell t)) = Some SysStop → cl_done c' = true) ∧
    cell_step (t_props t) (t_started t, c) (true, c')) as ((c1 & He & Hend) & Hq & Hstop & Hstep).
  { unfold c'. destruct (t_started t).
    - destruct (cell_turn_turned (t_props t) now timed_out c Hd) as (H1 & H2 & H3).
      split_and!; [done..|constructor].
    - destruct (start_cell_turned c Hd) as (H1 & H2 & H3). split_and!; [done..|constructor]. }
  fold (turn_start s ch t c').
  assert (fresh (turn_start s ch t c') (cl_ctx c)) as Hf.
  { intros k Hk. rewrite turn_start_tasks. pose proof (inv_fresh s ch t I Ht k Hk) as Hn.
    cbn in Hk |- *. destruct (i_task s I ch t Ht) as (_ & Hs & _). unfold t_ctx in *. rewrite Hs in *.
    rewrite lookup_insert_ne; [done|]. intros E. apply (f_equal length) in E. rewrite length_app in E. cbn in E. lia. }
  destruct (esteps_used _ _ _ He Hf) as (o & Ho & U).
  exists c', c1, (foldl perform (turn_start s ch t c') o). split.
  - split; [|done|done|exact U| |].
    + eapply rtc_l; [apply cs_system|]. by apply rtc_once.
    + by rewrite (esteps_watched _ _ He).
    + destruct (cl_done c').
      * destruct (end_life_spec c1) as (Htr & _). rewrite Hend, Htr, Ho, <- app_assoc, drop_app_length.
        by rewrite foldl_app.
      * destruct Hend as (w & Hw). split; [by exists w|]. rewrite Hw. cbn. by rewrite Ho, drop_app_length.
  - unfold c'. by intros ->.
Qed.

(** The tasks after a turn of [ch], before it may be closed. *)
Lemma turn_tasks s ch t (c' : Cell A Msg) c1 s2 s' k t' :
  turn_spec s ch t c' c1 s2 s' → s_tasks s2 !! k = Some t' →
  (k = ch ∧ grown (mkTask (t_props t) true false c') t') ∨
  (k ≠ ch ∧ ∃ t0, s_tasks s !! k = Some t0 ∧ grown t0 t') ∨
  (k ≠ ch ∧ s_tasks s !! k = None ∧ ∃ j name, k = c_self (t_ctx t) ++ [j] ∧ c_spawned (t_ctx t) ≤ j < c_spawned c1 ∧
    newborn (ActorPath_child name (c_path (t_ctx t))) k t' ∧
    c_children c1 !! name = Some (mkChild (ActorPath_child name (c_path (t_ctx t))) k)).
Proof.
  intros [_ _ _ U _ _] Hk.
  destruct (s_tasks (turn_start s ch t c') !! k) as [t0|] eqn:E.
  - destruct (u_old _ _ _ _ U k t0 E) as (t1 & Ht1 & G). rewrite Hk in Ht1. injection Ht1 as <-.
    rewrite turn_start_tasks in E. apply lookup_insert_Some in E as [[<- <-]|[Hne E]]; [by left|].
    right. left. split; [done|]. by exists t0.
  - right. right. pose proof (u_new _ _ _ _ U k t' E Hk) as (j & name & Hkj & Hj & Hb & Hch).
    rewrite turn_start_tasks in E. apply lookup_insert_None in E as [E Hne]. split_and!; [done..|]. by exists j, name.
Qed.

(** The system after a turn of [ch]. *)
Record after s (ch : Chan) t (c' : Cell A Msg) (c1 : Ctx A Msg) (s' : ActorSystem A Msg) : Prop := {
  af_tasks : ∀ k t', s_tasks s' !! k = Some t' →
    (k = ch ∧ ∃ ms es, t' = mkTask (t_props t) true (cl_done c') (add_mail ms es c')) ∨
    (k ≠ ch ∧ ∃ t0, s_tasks s !! k = Some t0 ∧ grown t0 t') ∨
    (k ≠ ch ∧ s_tasks s !! k = None ∧ ∃ j name, k = ch ++ [j] ∧ c_spawned (t_ctx t) ≤ j < c_spawned c1 ∧
       newborn (ActorPath_child name (c_path (t_ctx t))) k t' ∧
       c_children c1 !! name = Some (mkChild (ActorPath_child name (c_path (t_ctx t))) k));
  af_old : ∀ k t0, s_tasks s !! k = Some t0 → is_Some (s_tasks s' !! k);
  af_sent : cl_done c' = true → ∀ o k m t', o ∈ ending c1 → o = OSys k m → k ≠ ch →
    s_tasks s' !! k = Some t' → t_closed t' = true ∨ m ∈ cl_sysq (t_cell t');
  af_guardian : s_guardian s' =
    if cl_done c' then (free_slot (A := A) (Msg := Msg) (c_path (t_ctx t)) (s_guardian s)).1 else s_guardian s;
  af_next : s_next s' = s_next s;
  af_address : s_address s' = s_address s;
  af_path : c_path (cl_ctx c') = c_path (t_ctx t);
  af_self : c_self (cl_ctx c') = ch;
  af_spawned : c_spawned (cl_ctx c') = c_spawned c1 ∧ c_spawned (t_ctx t) ≤ c_spawned c1;
  af_children : c_children (t_ctx t) ⊆ c_children c1 ∧
    (cl_done c' = false → c_children (cl_ctx c') = c_children c1);
}.

Lemma turn_after s ch t (c' : Cell A Msg) c1 s2 s' :
  sys_inv s → s_tasks s !! ch = Some t → turn_spec s ch t c' c1 s2 s' → after s ch t c' c1 s'.
Proof.
  intros I Ht T. pose proof T as [_ _ _ U _ Hend].
  destruct (i_task s I ch t Ht) as (_ & Hself & _).
  assert (c_path (cl_ctx c') = c_path c1 ∧ c_self (cl_ctx c') = c_self c1 ∧
    c_spawned (cl_ctx c') = c_spawned c1) as (Ep & Es & En).
  { destruct (cl_done c').
    - destruct Hend as [-> _]. by destruct (end_life_spec c1) as (_ & ? & ? & ? & _).
    - destruct Hend as [[w ->] _]. done. }
  pose proof U as [Up Us Uy Un Uc (Fg & Fn & Fa & Fo) Uold Unew]. cbn in Up, Us, Uy, Un, Uc.
  assert (c_system (cl_ctx c') =
    Some (mkView (if cl_done c' then (free_slot (A := A) (Msg := Msg) (c_path (t_ctx t)) (s_guardian s)).1
                  else s_guardian s) (s_spawn_observer s))) as Ey.
  { destruct (cl_done c').
    - destruct Hend as [-> _]. destruct (end_life_spec c1) as (_ & _ & _ & _ & ->). by rewrite Uy, Up.
    - destruct Hend as [[w ->] _]. cbn. by rewrite Uy. }
  assert (s_guardian s2 = (if cl_done c' then (free_slot (A := A) (Msg := Msg) (c_path (t_ctx t)) (s_guardian s)).1
      else s_guardian s) ∧ s_next s2 = s_next s ∧ s_address s2 = s_address s) as (Gg & Gn & Ga).
  { rewrite Fg, Fn, Fa. unfold turn_start. rewrite Ey. done. }
  assert (∀ k t0, s_tasks s !! k = Some t0 → is_Some (s_tasks s2 !! k)) as Gold.
  { intros k t0 Hk. destruct (decide (k = ch)) as [->|Hne].
    - destruct (Uold ch (mkTask (t_props t) true false c')) as (t1 & ? & _); [|by eexists].
      by rewrite turn_start_tasks, lookup_insert_eq.
    - destruct (Uold k t0) as (t1 & ? & _); [|by eexists]. by rewrite turn_start_tasks, lookup_insert_ne. }
  destruct (cl_done c') eqn:Hd.
  - destruct Hend as [Hctx ->]. set (s3 := foldl perform s2 (ending c1)).
    pose proof (performs_mailed (ending c1) s2 (ending_no_spawn c1)) as [(Mg & Mn & Ma & _) Mo Mw]. fold s3 in Mg, Mn, Ma, Mo, Mw.
    destruct (Gold ch t Ht) as [x2 Hx2]. destruct (Mo ch x2 Hx2) as (x3 & Hx3 & Gx3).
    assert (close_task ch s3 = set_tasks (<[ch := mkTask (t_props x3) (t_started x3) true (t_cell x3)]> (s_tasks s3)) s3)
      as -> by (unfold close_task; by rewrite Hx3).
    destruct (turn_tasks _ _ _ _ _ _ _ _ _ T Hx2) as [[_ Gx2]|[[? _]|[? _]]]; [|done..].
    split; cbn; rewrite ?Hd; try congruence; try (by split).
    + intros k t' Hk. apply lookup_insert_Some in Hk as [[<- <-]|[Hne Hk]].
      * left. split; [done|]. destruct (transitivity Gx2 Gx3) as (ms & es & ->). by exists ms, es.
      * right. destruct (s_tasks s2 !! k) as [t2|] eqn:E; [|by rewrite (Mw k E) in Hk].
        destruct (Mo k t2 E) as (t3 & H3 & G3). rewrite Hk in H3. injection H3 as <-.
        destruct (turn_tasks _ _ _ _ _ _ _ _ _ T E) as [[? _]|[(_ & t0 & H0 & G0)|(_ & Hn & j & name & Hj & Hlt & Hb & Hc)]]; [done|left|right].
        -- split; [done|]. exists t0. split; [done|]. by etrans.
        -- split_and!; [done..|]. exists j, name. rewrite Hself in Hj. split_and!; [done|lia|lia| |done]. by eapply newborn_grown.
    + intros k t0 Hk. destruct (decide (k = ch)) as [->|]; [rewrite lookup_insert_eq; by eexists|].
      rewrite lookup_insert_ne by done. destruct (Gold k t0 Hk) as [t2 Hk2]. destruct (Mo k t2 Hk2) as (t3 & ? & _). by eexists.
    + intros _ o k m t' Ho -> Hne Hk. rewrite lookup_insert_ne in Hk by done.
      destruct (s_tasks s2 !! k) as [t2|] eqn:E; [|by rewrite (Mw k E) in Hk].
      destruct (t_closed t2) eqn:Hc.
      * left. destruct (Mo k t2 E) as (t3 & H3 & ? & ? & ->). rewrite Hk in H3. injection H3 as ->. exact Hc.
      * right. destruct (performs_sent (ending c1) s2 k m t2 (ending_no_spawn c1) Ho E Hc) as (t3 & H3 & Hin).
        fold s3 in H3. rewrite Hk in H3. by injection H3 as ->.
  - destruct Hend as [[w Hw] ->]. split; rewrite ?Hd; try congruence; try done.
    + intros k t' Hk. destruct (turn_tasks _ _ _ _ _ _ _ _ _ T Hk) as [[-> G]|[?|(? & ? & j & name & Hj & Hlt & Hb & Hc)]].
      * left. split; [done|]. destruct G as (ms & es & ->). by exists ms, es.
      * by right; left.
      * right. right. split_and!; [done..|]. exists j, name. rewrite Hself in Hj. destruct Hlt. by split_and!.
    + split; [done|]. rewrite Hw. done.
Qed.

Lemma newborn_task p k t :
  newborn p k t → t_closed t = false ∧ cl_done (t_cell t) = false ∧ c_self (t_ctx t) = k ∧ c_path (t_ctx t) = p ∧
  ∃ v, rtc (cell_step (t_props t)) (false, spawn_cell (t_props t) p k v) (t_started t, t_cell t).
Proof.
  intros (Hs & Hc & v & ms & es & Hcell). unfold t_ctx. rewrite Hcell. split_and!; [done..|]. exists v. rewrite Hs.
  set (t0 := mkTask (t_props t) false false (spawn_cell (t_props t) p k v) : Task A Msg).
  apply (grown_run t0 (set_cell (add_mail ms es (t_cell t0)) t0)). by exists ms, es.
Qed.

(** A pending stop survives a turn, or ends it. *)
Lemma stop_pending s ch t (c' : Cell A Msg) c1 s2 s' :
  turn_spec s ch t c' c1 s2 s' → SysStop ∈ cl_sysq (t_cell t) → cl_done c' = true ∨ SysStop ∈ cl_sysq c'.
Proof.
  intros [_ Hq Hstop _ _ _] Hin. rewrite Hq. destruct (t_started t); [|by right].
  destruct (cl_sysq (t_cell t)) as [|m q]; [by apply elem_of_nil in Hin|].
  apply elem_of_cons in Hin as [<-|Hin]; [left; by apply Hstop|by right].
Qed.

Lemma after_guardian s ch t (c' : Cell A Msg) c1 s' :
  sys_inv s → s_tasks s !! ch = Some t → t_closed t = false → after s ch t c' c1 s' →
  (∀ name e, s_guardian s' !! name = Some e → s_guardian s !! name = Some e ∧ (cl_done c' = true → ce_chan e ≠ ch)) ∧
  (∀ name e, s_guardian s !! name = Some e → ce_chan e ≠ ch ∨ cl_done c' = false → s_guardian s' !! name = Some e).
Proof.
  intros I Ht Hc F. rewrite (af_guardian _ _ _ _ _ _ F). destruct (cl_done c') eqn:Hd; [|naive_solver].
  destruct (i_task s I ch t Ht) as (Hne & _ & _ & Hlen). unfold free_slot.
  destruct ch as [|k [|k' ch]]; [done| |].
  - destruct (i_top s I k t Ht) as (name & Hp & Hg). specialize (Hg Hc). rewrite Hp. cbn.
    rewrite decide_True by (split; [done|]; by rewrite Hg). cbn. split.
    + intros n e He. apply lookup_delete_Some in He as [Hn He]. split; [done|]. intros _ Hke.
      destruct (i_guardian s I n e He) as (k2 & t2 & -> & Ht2 & _ & Hp2). cbn in Hke. injection Hke as ->.
      rewrite Ht in Ht2. injection Ht2 as <-. apply Hn. rewrite Hp in Hp2. by apply user_path_inj in Hp2.
    + intros n e He [Hke|]; [|done]. apply lookup_delete_Some. split; [|done]. intros <-. rewrite Hg in He. by injection He as <-.
  - cbn in Hlen. destruct (ap_elements (c_path (t_ctx t))) as [|x [|y [|z l]]]; try done. cbn. split; [|by intros].
    intros n e He. split; [done|]. intros _ Hke.
    destruct (i_guardian s I n e He) as (k2 & t2 & -> & _). done.
Qed.

Lemma singleton_snoc {X} (x y : X) l : [x] = l ++ [y] → l = [].
Proof. destruct l as [|? [|? l]]; done. Qed.

(** The invariant after a turn, field by field. *)
Section turn.
Context s (ch : Chan) t (c' : Cell A Msg) c1 s2 s'.
Context (I : sys_inv s) (Ht : s_tasks s !! ch = Some t) (Hc : t_closed t = false).
Context (T : turn_spec s ch t c' c1 s2 s').

#[local] Lemma the_after : after s ch t c' c1 s'.
Proof. by eapply turn_after. Qed.
#[local] Lemma the_address n : user_path n s' = user_path n s.
Proof. unfold user_path. by rewrite (af_address _ _ _ _ _ _ the_after). Qed.

Lemma turn_task k t' :
  s_tasks s' !! k = Some t' →
  k ≠ [] ∧ c_self (t_ctx t') = k ∧ cl_done (t_cell t') = t_closed t' ∧
  length (ap_elements (c_path (t_ctx t'))) = S (length k).
Proof.
  intros Hk. pose proof the_after as F. destruct (i_task s I ch t Ht) as (Hne & Hself & Hdone & Hlen).
  destruct (af_tasks _ _ _ _ _ _ F k t' Hk)
    as [(-> & ms & es & ->)|[(_ & t0 & H0 & ms & es & ->)|(_ & _ & j & name & -> & _ & Hb & _)]].
  - unfold t_ctx. cbn. rewrite (af_path _ _ _ _ _ _ F), (af_self _ _ _ _ _ _ F). by split_and!.
  - exact (i_task s I k t0 H0).
  - apply newborn_task in Hb as (Hb1 & Hb2 & Hb3 & Hb4 & _). rewrite Hb4.
    split_and!; [by destruct ch|done|congruence|]. cbn. rewrite !length_app. cbn. lia.
Qed.

Lemma turn_run k t' :
  s_tasks s' !! k = Some t' →
  ∃ p v, rtc (cell_step (t_props t')) (false, spawn_cell (t_props t') p k v) (t_started t', t_cell t').
Proof.
  intros Hk. destruct (af_tasks _ _ _ _ _ _ the_after k t' Hk)
    as [(-> & ms & es & ->)|[(_ & t0 & H0 & G)|(_ & _ & j & name & -> & _ & Hb & _)]].
  - destruct (i_run s I ch t Ht) as (p & v & Hr). exists p, v. cbn. etrans; [exact Hr|].
    etrans; [exact (ts_run _ _ _ _ _ _ _ T)|].
    set (t0 := mkTask (t_props t) true false c').
    apply (grown_run t0 (set_cell (add_mail ms es (t_cell t0)) t0)). by exists ms, es.
  - destruct (i_run s I k t0 H0) as (p & v & Hr). pose proof (grown_run t0 t' G) as Hg.
    destruct G as (ms & es & ->). exists p, v. cbn in *. by etrans.
  - apply newborn_task in Hb as (_ & _ & _ & _ & v & Hr). by eexists _, v.
Qed.

Lemma turn_next k t' : s_tasks s' !! [k] = Some t' → k < s_next s'.
Proof.
  intros Hk. pose proof the_after as F. destruct (i_task s I ch t Ht) as (Hne & _).
  rewrite (af_next _ _ _ _ _ _ F).
  destruct (af_tasks _ _ _ _ _ _ F [k] t' Hk) as [(Hkc & _)|[(_ & t0 & H0 & _)|(_ & _ & j & name & Hj & _)]].
  - rewrite <- Hkc in Ht. exact (i_next s I k t Ht).
  - exact (i_next s I k t0 H0).
  - by apply singleton_snoc in Hj.
Qed.

(** Children of the task that ran, old ones and those of this turn. *)
Lemma turn_child k t' name e :
  s_tasks s' !! (ch ++ [k]) = Some t' → k < c_spawned c1 →
  c_children c1 !! name = Some e → ce_chan e = ch ++ [k] →
  ∃ p, s_tasks s' !! ch = Some p ∧ k < c_spawned (t_ctx p) ∧ cared_for p t' (ch ++ [k]).
Proof.
  intros Hk Hlt He Hce. pose proof the_after as F.
  destruct (af_old _ _ _ _ _ _ F ch t Ht) as [p' Hp'].
  destruct (af_tasks _ _ _ _ _ _ F ch p' Hp') as [(_ & ms & es & ->)|[[? _]|[? _]]]; [|done..].
  destruct (af_spawned _ _ _ _ _ _ F) as [Hs1 _]. destruct (af_children _ _ _ _ _ _ F) as [_ Hkeep].
  eexists. split_and!; [exact Hp'|unfold t_ctx; cbn; lia|]. unfold cared_for. cbn.
  destruct (cl_done c') eqn:Hd.
  - apply (af_sent _ _ _ _ _ _ F Hd (OSys (ch ++ [k]) SysStop) (ch ++ [k])); try done.
    + unfold ending. apply elem_of_app. left. apply list_elem_of_fmap. exists (name, e).
      rewrite <- Hce. split; [done|]. by apply elem_of_map_to_list.
    + intros Hx. apply (f_equal length) in Hx. rewrite length_app in Hx. cbn in Hx. lia.
  - exists name, e. unfold t_ctx. cbn. by rewrite Hkeep.
Qed.

Lemma turn_family cp k t' :
  cp ≠ [] → s_tasks s' !! (cp ++ [k]) = Some t' →
  ∃ p, s_tasks s' !! cp = Some p ∧ k < c_spawned (t_ctx p) ∧ cared_for p t' (cp ++ [k]).
Proof.
  intros Hcp Hk. pose proof the_after as F. destruct (af_spawned _ _ _ _ _ _ F) as [_ Hs2].
  destruct (af_tasks _ _ _ _ _ _ F (cp ++ [k]) t' Hk)
    as [(Hkc & ms & es & ->)|[(_ & t0 & H0 & G)|(_ & _ & j & name & Hj & Hlt & _ & Hch)]].
  - rewrite <- Hkc in Ht. destruct (i_family s I cp k t Hcp Ht) as (p & Hp & Hlt & Hcare).
    destruct (af_old _ _ _ _ _ _ F cp p Hp) as [p' Hp'].
    destruct (af_tasks _ _ _ _ _ _ F cp p' Hp') as [(Hx & _)|[(_ & p0 & Hp0 & ms' & es' & ->)|(_ & Hx & _)]];
      [| |congruence].
    { exfalso. apply (f_equal length) in Hx. rewrite <- Hkc, length_app in Hx. cbn in Hx. lia. }
    rewrite Hp in Hp0. injection Hp0 as <-. eexists. split_and!; [exact Hp'|done|].
    unfold cared_for in *. cbn. destruct (t_closed p); [|done].
    rewrite elem_of_app. destruct Hcare as [|Hin]; [congruence|].
    destruct (stop_pending _ _ _ _ _ _ _ T Hin); auto.
  - destruct (i_family s I cp k t0 Hcp H0) as (p & Hp & Hlt & Hcare).
    destruct (af_old _ _ _ _ _ _ F cp p Hp) as [p' Hp'].
    destruct (af_tasks _ _ _ _ _ _ F cp p' Hp') as [(-> & _)|[(_ & p0 & Hp0 & Gp)|(_ & Hx & _)]]; [| |congruence].
    + rewrite Ht in Hp. injection Hp as <-. unfold cared_for in Hcare. rewrite Hc in Hcare.
      destruct Hcare as (name & e & He & Hce). destruct (af_children _ _ _ _ _ _ F) as [Hsub _].
      apply (turn_child k t' name e); [done|lia| |done]. by eapply lookup_weaken.
    + rewrite Hp in Hp0. injection Hp0 as <-. exists p'. split_and!; [done| |by eapply cared_for_grown].
      by destruct Gp as (? & ? & ->).
  - apply app_inj_2 in Hj as [-> [= ->]]; [|done]. by eapply (turn_child j t' name); [|lia|..].
Qed.

Lemma turn_guardian name e :
  s_guardian s' !! name = Some e →
  ∃ k t', e = mkChild (user_path name s') [k] ∧ s_tasks s' !! [k] = Some t' ∧
    t_closed t' = false ∧ c_path (t_ctx t') = user_path name s'.
Proof.
  intros He. pose proof the_after as F. rewrite the_address.
  destruct (proj1 (after_guardian s ch t c' c1 s' I Ht Hc F) name e He) as [He' Hch].
  destruct (i_guardian s I name e He') as (k & t0 & -> & H0 & Hc0 & Hp0).
  destruct (af_old _ _ _ _ _ _ F [k] t0 H0) as [t' Hk'].
  destruct (af_tasks _ _ _ _ _ _ F [k] t' Hk')
    as [(Hkc & ms & es & ->)|[(_ & x & Hx & ms & es & ->)|(_ & ? & _)]]; [| |congruence].
  - rewrite Hkc, Ht in H0. injection H0 as <-. exists k. eexists. split_and!; [done|exact Hk'| |].
    + cbn. destruct (cl_done c'); [by destruct (Hch eq_refl Hkc)|done].
    + unfold t_ctx. cbn. by rewrite (af_path _ _ _ _ _ _ F).
  - rewrite H0 in Hx. injection Hx as <-. exists k. eexists. by split_and!.
Qed.

Lemma turn_top k t' :
  s_tasks s' !! [k] = Some t' →
  ∃ name, c_path (t_ctx t') = user_path name s' ∧
    (t_closed t' = false → s_guardian s' !! name = Some (mkChild (user_path name s') [k])).
Proof.
  intros Hk. pose proof the_after as F. setoid_rewrite the_address.
  pose proof (proj2 (after_guardian s ch t c' c1 s' I Ht Hc F)) as Gb.
  destruct (i_task s I ch t Ht) as (Hne & _).
  destruct (af_tasks _ _ _ _ _ _ F [k] t' Hk)
    as [(Hkc & ms & es & ->)|[(Hkc & t0 & H0 & ms & es & ->)|(_ & _ & j & name & Hj & _)]].
  - rewrite <- Hkc in Ht. destruct (i_top s I k t Ht) as (name & Hp & Hg). exists name. unfold t_ctx. cbn.
    rewrite (af_path _ _ _ _ _ _ F). split; [done|]. intros Hd. apply Gb; [by apply Hg|by right].
  - destruct (i_top s I k t0 H0) as (name & Hp & Hg). exists name. split; [done|]. intros Hd.
    apply Gb; [by apply Hg|by left].
  - by apply singleton_snoc in Hj.
Qed.

Lemma inv_turn : sys_inv s'.
Proof.
  split; [apply turn_task|apply turn_run|apply turn_next|apply turn_family|apply turn_guardian|apply turn_top].
Qed.
End turn.

Lemma inv_run_task s ch now timed_out : sys_inv s → sys_inv (run_task ch now timed_out s).
Proof.
  intros I. destruct (s_tasks s !! ch) as [t|] eqn:Ht; [|unfold run_task; by rewrite Ht].
  destruct (t_closed t) eqn:Hc; [unfold run_task; by rewrite Ht, Hc|].
  destruct (run_task_turn s ch t now timed_out I Ht Hc) as (c' & c1 & s2 & T & _). by eapply inv_turn.
Qed.

(** Spawning a top-level actor. *)
Lemma inv_actor_of s props name : sys_inv s → sys_inv (actor_of props name s).2.
Proof.
  intros I. unfold actor_of. destruct (s_guardian s !! name) as [e|] eqn:Hg; [done|]. cbn [snd].
  set (t := mkTask props false false _).
  set (s1 := set_tasks _ (count_top s)).
  set (s2 := if s_spawn_observer s1 then _ else s1).
  assert (s_tasks s2 = <[[s_next s] := t]> (s_tasks s) ∧ s_guardian s2 = s_guardian s ∧
    s_next s2 = S (s_next s) ∧ s_address s2 = s_address s) as (Et & Eg & En & Ea)
    by (unfold s2; by destruct (s_spawn_observer s1)).
  assert (∀ n g, user_path n (set_guardian g s2) = user_path n s) as Hup
    by (intros n g; unfold user_path; cbn; by rewrite Ea).
  assert (∀ k x, s_tasks s !! [k] = Some x → k ≠ s_next s) as Hn.
  { intros k x Hx ->. apply (i_next s I) in Hx. lia. }
  fold (user_path name s).
  split; cbn [s_tasks s_guardian s_next set_guardian]; rewrite ?Et, ?En, ?Eg.
  - intros ch x [[<- <-]|[_ Hx]]%lookup_insert_Some; [done|exact (i_task s I ch x Hx)].
  - intros ch x [[<- <-]|[_ Hx]]%lookup_insert_Some; [|exact (i_run s I ch x Hx)]. eexists _, _. apply rtc_refl.
  - intros k x [[[= <-] _]|[_ Hx]]%lookup_insert_Some; [lia|]. apply (i_next s I) in Hx. lia.
  - intros ch k x Hne [[Hx _]|[_ Hx]]%lookup_insert_Some; [by apply singleton_snoc in Hx|].
    destruct (i_family s I ch k x Hne Hx) as (p & Hp & ?). exists p. split; [|done].
    rewrite lookup_insert_ne; [done|]. intros <-. by destruct (Hn _ _ Hp).
  - intros n e He. rewrite Hup. apply lookup_insert_Some in He as [[<- <-]|[Hne He]].
    + exists (s_next s), t. rewrite lookup_insert_eq. by split_and!.
    + destruct (i_guardian s I n e He) as (k & x & -> & Hx & Hc & Hp). exists k, x.
      rewrite lookup_insert_ne; [by split_and!|]. intros [= Hk]. by destruct (Hn _ _ Hx).
  - intros k x Hx. setoid_rewrite Hup. apply lookup_insert_Some in Hx as [[[= <-] <-]|[Hne Hx]].
    + exists name. rewrite lookup_insert_eq. by split.
    + destruct (i_top s I k x Hx) as (n & Hp & Hgn). exists n. split; [done|]. intros Hc. specialize (Hgn Hc).
      rewrite lookup_insert_ne; [done|]. congruence.
Qed.

Lemma terminate_mailed s : mailed s (terminate s).
Proof.
  unfold terminate. set (s1 := foldl _ _ _).
  assert (mailed s s1) as HM.
  { unfold s1. generalize (map_to_list (s_guardian s)). intros l. clear s1. revert s.
    induction l as [|kc l IH]; intros s; [done|]. cbn. etrans; [apply send_system_mailed|apply IH]. }
  etrans; [exact HM|]. by apply mailed_same.
Qed.

(** Every step keeps the invariant. *)
Lemma inv_step s op : sys_inv s → sys_inv (sys_step op s).
Proof.
  intros I. destruct op as [ch now b|props name|name| |r env|r|r d| | |p| |i]; cbn.
  - by apply inv_run_task.
  - by apply inv_actor_of.
  - unfold stop. destruct (s_guardian s !! name); [|done]. by apply (inv_mailed s), I; apply send_system_mailed.
  - apply (inv_mailed s), I. apply terminate_mailed.
  - apply (inv_mailed s), I. apply tell_env_mailed.
  - apply (inv_mailed s), I. destruct r; [apply send_system_mailed|by apply mailed_same].
  - apply (inv_mailed s), I. destruct r; [apply send_system_mailed|by apply mailed_same].
  - destruct I. by split.
  - apply (inv_mailed s), I. by apply mailed_same.
  - apply (inv_mailed s), I. by apply mailed_same.
  - apply (inv_mailed s), I. by apply mailed_same.
  - apply (inv_mailed s), I. unfold when_terminated_step. repeat case_match; by apply mailed_same.
Qed.

(** ** What a step does to one task *)

Definition runs (ch : Chan) (op : SysOp A Msg) : bool :=
  match op with Run ch' _ _ => bool_decide (ch' = ch) | _ => false end.

Lemma step_other s op ch t :
  sys_inv s → s_tasks s !! ch = Some t → runs ch op = false ∨ t_closed t = true →
  ∃ t', s_tasks (sys_step op s) !! ch = Some t' ∧ grown t t'.
Proof.
  intros I Ht Hop.
  assert (∀ s', mailed s s' → ∃ t', s_tasks s' !! ch = Some t' ∧ grown t t') as HM
    by (intros s' [_ O _]; by apply O).
  assert (∃ t', s_tasks s !! ch = Some t' ∧ grown t t') as Hsame by (by exists t).
  destruct op as [ch' now b|props name|name| |r env|r|r d| | |p| |i]; cbn [sys_step].
  - destruct (s_tasks s !! ch') as [x|] eqn:Hx; [|unfold run_task; by rewrite Hx].
    destruct (t_closed x) eqn:Hc; [unfold run_task; by rewrite Hx, Hc|].
    destruct (run_task_turn s ch' x now b I Hx Hc) as (c' & c1 & s2 & T & _).
    pose proof (turn_after _ _ _ _ _ _ _ I Hx T) as F.
    destruct (af_old _ _ _ _ _ _ F ch t Ht) as [t' Ht']. exists t'. split; [done|].
    destruct (af_tasks _ _ _ _ _ _ F ch t' Ht') as [(-> & _)|[(_ & t0 & H0 & G)|(_ & ? & _)]]; [| |congruence].
    + destruct Hop as [Hop|]; [|congruence]. cbn in Hop. by rewrite bool_decide_true in Hop.
    + rewrite Ht in H0. by injection H0 as <-.
  - unfold actor_of. destruct (s_guardian s !! name); [done|]. cbn [snd].
    assert (ch ≠ [s_next s]) as Hne by (intros ->; apply (i_next s I) in Ht; lia).
    destruct (s_spawn_observer _); cbn; rewrite lookup_insert_ne by done; done.
  - unfold stop. destruct (s_guardian s !! name); [|done]. apply HM, send_system_mailed.
  - apply HM, terminate_mailed.
  - apply HM, tell_env_mailed.
  - apply HM. destruct r; [apply send_system_mailed|by apply mailed_same].
  - apply HM. destruct r; [apply send_system_mailed|by apply mailed_same].
  - done.
  - done.
  - done.
  - done.
  - unfold when_terminated_step. repeat case_match; done.
Qed.

Lemma step_address s op : sys_inv s → s_address (sys_step op s) = s_address s.
Proof.
  intros I. assert (∀ s', mailed s s' → s_address s' = s_address s) as HM by (by intros s' [(_ & _ & ? & _) _ _]).
  destruct op as [ch now b|props name|name| |r env|r|r d| | |p| |i]; cbn [sys_step]; try done.
  - destruct (s_tasks s !! ch) as [x|] eqn:Hx; [|unfold run_task; by rewrite Hx].
    destruct (t_closed x) eqn:Hc; [unfold run_task; by rewrite Hx, Hc|].
    destruct (run_task_turn s ch x now b I Hx Hc) as (c' & c1 & s2 & T & _).
    apply (af_address _ _ _ _ _ _ (turn_after _ _ _ _ _ _ _ I Hx T)).
  - unfold actor_of. destruct (s_guardian s !! name); [done|]. cbn. by destruct (s_spawn_observer s).
  - unfold stop. destruct (s_guardian s !! name); [|done]. apply HM, send_system_mailed.
  - apply HM, terminate_mailed.
  - apply HM, tell_env_mailed.
  - apply HM. destruct r; [apply send_system_mailed|by apply mailed_same].
  - apply HM. destruct r; [apply send_system_mailed|by apply mailed_same].
  - unfold when_terminated_step. by repeat case_match.
Qed.

(** A turn of a live task takes the first system message and keeps the others. *)
Lemma step_self s op ch t :
  sys_inv s → s_tasks s !! ch = Some t → t_closed t = false → runs ch op = true →
  ∃ t', s_tasks (sys_step op s) !! ch = Some t' ∧ t_started t' = true ∧
    (t_closed t' = true ∨
     ∃ ms, cl_sysq (t_cell t') =
       (if t_started t then tail (cl_sysq (t_cell t)) else cl_sysq (t_cell t)) ++ ms) ∧
    (t_started t = true → head (cl_sysq (t_cell t)) = Some SysStop → t_closed t' = true) ∧
    (∀ p, t_started t = true → head (cl_sysq (t_cell t)) = Some (SysTerminated p) →
       HOnTerminated p ∈ hooks_of (c_trace (t_ctx t'))).
Proof.
  intros I Ht Hc Hop. destruct op as [ch' now b| | | | | | | | | | |]; try done. cbn in Hop.
  apply bool_decide_eq_true in Hop as ->. cbn.
  destruct (run_task_turn s ch t now b I Ht Hc) as (c' & c1 & s2 & T & Hturn).
  pose proof (turn_after _ _ _ _ _ _ _ I Ht T) as F.
  destruct (af_old _ _ _ _ _ _ F ch t Ht) as [t' Ht'].
  destruct (af_tasks _ _ _ _ _ _ F ch t' Ht') as [(_ & ms & es & ->)|[[? _]|[? _]]]; [|done..].
  eexists. split_and!; [exact Ht'|done|..]; cbn.
  - right. exists ms. by rewrite (ts_queue _ _ _ _ _ _ _ T).
  - apply (ts_stop _ _ _ _ _ _ _ T).
  - intros p Hst Hh. rewrite (Hturn Hst).
    destruct (i_task s I ch t Ht) as (_ & _ & Hd & _). rewrite Hc in Hd.
    unfold cell_turn. cbn [cl_done sync_system set_actor cl_sysq]. rewrite Hd.
    destruct (cl_sysq (t_cell t)) as [|m q]; [done|]. injection Hh as ->. unfold take_system, handle_system. cbn -[run_hook].
    match goal with |- context [run_hook ?h ?f ?x] =>
      destruct (run_hook_ext h f x (law_on_terminated p)) as (_ & _ & _ & Hhk & _) end.
    unfold t_ctx. cbn -[run_hook]. rewrite Hhk. apply elem_of_app. right. apply list_elem_of_singleton. done.
Qed.

(** A task has the tasks above it. *)
Lemma ancestor_exists s suf : ∀ ch t, sys_inv s → ch ≠ [] → s_tasks s !! (ch ++ suf) = Some t →
  is_Some (s_tasks s !! ch).
Proof.
  induction suf as [|k suf IH] using rev_ind; intros ch t I Hne Ht; [rewrite app_nil_r in Ht; by eexists|].
  rewrite app_assoc in Ht. destruct (i_family s I (ch ++ suf) k t) as (p & Hp & _); [by destruct ch|done|].
  by eapply IH.
Qed.

(** ** Fair runs *)

Section run.
Context (ops : nat → SysOp A Msg) (s0 : ActorSystem A Msg) (Hinit : sys_inv s0).

Lemma system_run_inv n : sys_inv (run_at ops s0 n).
Proof. induction n as [|n IH]; [done|]. by apply inv_step. Qed.

Lemma run_address n : s_address (run_at ops s0 n) = s_address s0.
Proof. induction n as [|n IH]; [done|]. cbn. rewrite step_address; [done|apply system_run_inv]. Qed.

Lemma task_persists n m ch t :
  n ≤ m → s_tasks (run_at ops s0 n) !! ch = Some t →
  ∃ t', s_tasks (run_at ops s0 m) !! ch = Some t' ∧ (t_closed t = true → t_closed t' = true).
Proof.
  intros Hle Ht. induction Hle as [|m _ (t1 & Ht1 & Hc1)]; [by exists t|]. cbn.
  destruct (t_closed t1) eqn:Hc.
  { destruct (step_other _ (ops m) ch t1 (system_run_inv m) Ht1) as (t' & Ht' & ms & es & ->); [by right|].
    eexists. split; [exact Ht'|]. by intros. }
  destruct (runs ch (ops m)) eqn:Hr.
  - destruct (step_self _ (ops m) ch t1 (system_run_inv m) Ht1 Hc Hr) as (t' & Ht' & _). exists t'. split; [done|].
    intros H. by apply Hc1 in H.
  - destruct (step_other _ (ops m) ch t1 (system_run_inv m) Ht1) as (t' & Ht' & _); [by left|]. exists t'. split; [done|].
    intros H. by apply Hc1 in H.
Qed.

Context (Hfair : fair ops s0).

(** How far a message is from being taken. *)
Definition distance (pre : list SystemMsg) t : nat := length pre + (if t_started t then 0 else 1).

Definition taken (n : nat) (ch : Chan) (m : SystemMsg) : Prop :=
  ∃ t, s_tasks (run_at ops s0 n) !! ch = Some t ∧
    (t_closed t = true ∨
     t_started t = true ∧ head (cl_sysq (t_cell t)) = Some m ∧ runs ch (ops n) = true).

Lemma turn_progress n ch m t pre post :
  s_tasks (run_at ops s0 n) !! ch = Some t → cl_sysq (t_cell t) = pre ++ m :: post →
  runs ch (ops n) = true →
  taken n ch m ∨ taken (S n) ch m ∨
  ∃ t' pre' post', s_tasks (run_at ops s0 (S n)) !! ch = Some t' ∧
    cl_sysq (t_cell t') = pre' ++ m :: post' ∧ distance pre' t' < distance pre t.
Proof.
  intros Ht Hq Hr. destruct (t_closed t) eqn:Hc; [left; exists t; auto|].
  destruct (step_self _ (ops n) ch t (system_run_inv n) Ht Hc Hr) as (t' & Ht' & Hs' & [Hc'|(ms & Hq')] & _).
  { right. left. exists t'. auto. }
  unfold distance. rewrite Hq in Hq'. destruct (t_started t) eqn:Hs.
  - destruct pre as [|x pre]; [left; exists t; rewrite Hq; auto|]. right. right.
    exists t', pre, (post ++ ms). rewrite Hs'. cbn in Hq'. rewrite <- app_assoc in Hq'. split_and!; [done..|cbn; lia].
  - right. right. exists t', pre, (post ++ ms). rewrite Hs'. rewrite <- app_assoc in Hq'. split_and!; [done..|lia].
Qed.

(** A system message in the queue is taken, unless the actor ends before. *)
Lemma pending_taken ch m : ∀ μ n t pre post,
  s_tasks (run_at ops s0 n) !! ch = Some t → cl_sysq (t_cell t) = pre ++ m :: post →
  distance pre t < μ → ∃ n', n ≤ n' ∧ taken n' ch m.
Proof.
  induction μ as [|μ IH]; intros n t pre post Ht Hq Hμ; [lia|].
  destruct (t_closed t) eqn:Hc; [exists n; split; [done|]; exists t; auto|].
  destruct (Hfair ch n t Ht Hc) as (k & now & b & Hk & Hop). clear Hc.
  assert (runs ch (ops k) = true) as Hrk by (rewrite Hop; cbn; by apply bool_decide_true).
  remember (k - n) as d eqn:Hd. revert n t post Ht Hq Hμ Hk Hd.
  induction d as [d IHd] using lt_wf_ind; intros n t post Ht Hq Hμ Hk Hd.
  destruct (runs ch (ops n)) eqn:Hr.
  - destruct (turn_progress n ch m t pre post Ht Hq Hr) as [H|[H|(t' & pre' & post' & Ht' & Hq' & Hlt)]].
    + by exists n.
    + exists (S n). split; [lia|done].
    + destruct (IH (S n) t' pre' post' Ht' Hq') as (n' & ? & ?); [lia|]. exists n'. split; [lia|done].
  - assert (k ≠ n) as Hne by congruence.
    destruct (step_other _ (ops n) ch t (system_run_inv n) Ht) as (t' & Ht' & ms & es & ->); [by left|].
    destruct (IHd (k - S n) ltac:(lia) (S n) (set_cell (add_mail ms es (t_cell t)) t) (post ++ ms)) as (n' & ? & ?); try done; [|lia|].
    + cbn. by rewrite Hq, <- app_assoc.
    + exists n'. split; [lia|done].
Qed.

Lemma stop_closes n ch t :
  s_tasks (run_at ops s0 n) !! ch = Some t → t_closed t = true ∨ SysStop ∈ cl_sysq (t_cell t) →
  ∃ m t', n ≤ m ∧ s_tasks (run_at ops s0 m) !! ch = Some t' ∧ t_closed t' = true.
Proof.
  intros Ht [Hc|Hin]; [by exists n, t|]. apply list_elem_of_split in Hin as (pre & post & Hq).
  destruct (pending_taken ch SysStop _ n t pre post Ht Hq (Nat.lt_succ_diag_r _))
    as (n' & Hle & t' & Ht' & [Hc|(Hs & Hh & Hr)]); [by exists n', t'|].
  destruct (t_closed t') eqn:Hc; [by exists n', t'|].
  destruct (step_self _ (ops n') ch t' (system_run_inv n') Ht' Hc Hr) as (t'' & Ht'' & _ & _ & Hcl & _).
  exists (S n'), t''. split_and!; [lia|done|auto].
Qed.

(** By generations: once a parent has ended, its children end. *)
Lemma stop_descends suf : ∀ n ch t d,
  ch ≠ [] → s_tasks (run_at ops s0 n) !! ch = Some t →
  t_closed t = true ∨ SysStop ∈ cl_sysq (t_cell t) →
  s_tasks (run_at ops s0 n) !! (ch ++ suf) = Some d →
  ∃ m d', n ≤ m ∧ s_tasks (run_at ops s0 m) !! (ch ++ suf) = Some d' ∧ t_closed d' = true.
Proof.
  induction suf as [|k suf IH]; intros n ch t d Hne Ht Hstop Hd.
  { rewrite app_nil_r in *. rewrite Ht in Hd. injection Hd as <-. by eapply stop_closes. }
  destruct (stop_closes n ch t Ht Hstop) as (m & t' & Hm & Ht' & Hc').
  rewrite cons_middle, app_assoc in *.
  destruct (ancestor_exists (run_at ops s0 n) suf (ch ++ [k]) d (system_run_inv n)) as [x Hx]; [by destruct ch|done|].
  destruct (task_persists n m (ch ++ [k]) x Hm Hx) as (x' & Hx' & _).
  destruct (task_persists n m _ d Hm Hd) as (d1 & Hd1 & _).
  destruct (i_family _ (system_run_inv m) ch k x' Hne Hx') as (p & Hp & _ & Hcare).
  rewrite Ht' in Hp. injection Hp as <-. unfold cared_for in Hcare. rewrite Hc' in Hcare.
  destruct (IH m (ch ++ [k]) x' d1) as (m' & d' & ? & ? & ?); [by destruct ch|done|done|done|].
  exists m', d'. split_and!; [lia|done|done].
Qed.

(** The end of an actor reaches its watchers. *)
Lemma watcher_told n ch t key wp w tw :
  s_tasks (run_at ops s0 n) !! ch = Some t → t_closed t = false →
  c_watched_by (t_ctx t) !! key = Some (ULocal wp w) →
  s_tasks (run_at ops s0 n) !! w = Some tw → w ≠ ch →
  (∃ t', s_tasks (run_at ops s0 (S n)) !! ch = Some t' ∧ t_closed t' = true) →
  ∃ tw', s_tasks (run_at ops s0 (S n)) !! w = Some tw' ∧
    (t_closed tw' = true ∨ SysTerminated (c_path (t_ctx t)) ∈ cl_sysq (t_cell tw')).
Proof.
  intros Ht Hc Hw Htw Hne (t' & Ht' & Hc').
  destruct (task_persists n (S n) w tw ltac:(lia) Htw) as (tw' & Htw' & _). exists tw'. split; [done|].
  destruct (runs ch (ops n)) eqn:Hr; cycle 1.
  { destruct (step_other _ (ops n) ch t (system_run_inv n) Ht) as (t1 & Ht1 & ms & es & ->); [by left|].
    cbn in Ht'. rewrite Ht1 in Ht'. injection Ht' as <-. cbn in Hc'. congruence. }
  destruct (ops n) as [ch' now b| | | | | | | | | | |] eqn:Hop; try done. cbn in Hr.
  apply bool_decide_eq_true in Hr as ->. cbn in Ht', Htw'. rewrite Hop in Ht', Htw'. cbn in Ht', Htw'.
  destruct (run_task_turn _ ch t now b (system_run_inv n) Ht Hc) as (c' & c1 & s2 & T & _).
  pose proof (turn_after _ _ _ _ _ _ _ (system_run_inv n) Ht T) as F.
  destruct (af_tasks _ _ _ _ _ _ F ch t' Ht') as [(_ & ms & es & ->)|[[? _]|[? _]]]; [|done..]. cbn in Hc'.
  apply (af_sent _ _ _ _ _ _ F Hc' (OSys w (SysTerminated (c_path (t_ctx t)))) w); try done.
  assert (c_path c1 = c_path (t_ctx t)) as Hp.
  { rewrite <- (af_path _ _ _ _ _ _ F). pose proof (ts_end _ _ _ _ _ _ _ T) as He. rewrite Hc' in He.
    destruct He as [-> _]. by destruct (end_life_spec c1) as (_ & _ & -> & _). }
  unfold ending. rewrite Hp. do 2 (apply elem_of_app; right). apply list_elem_of_fmap. exists (key, ULocal wp w).
  split; [done|]. apply elem_of_map_to_list. by rewrite (ts_watched _ _ _ _ _ _ _ T).
Qed.
End run.
End facts.
End SystemFacts.

(** ** Properties of systems *)

Section properties.
Import Systems TurnFacts MailFacts SystemFacts.
Context {A Msg : Type} `{!Actor A Msg} `{!ActorLaws A Msg}.
Implicit Types (t : Task A Msg) (s : ActorSystem A Msg).

(** C3: in every state of an actor system a name at the top level stands for at most one
    living actor, and spawning under it is refused exactly while such an actor lives: when
    [actor_of] answers that the name is taken there is a live actor with that path, and
    after an actor has ended its name is free.  Below the top level, a living actor is
    always registered with its living parent, or its parent has ended and a stop is
    waiting in its system mailbox; and every actor lives the life of a single cell. *)
Theorem system_family (ops : nat → SysOp A Msg) (name0 : string) (n : nat) :
  let s := run_at ops (create name0) n in
  (∀ props name, (actor_of props name s).1 = inl (NameTakenErr name) ↔
     ∃ k t, s_tasks s !! [k] = Some t ∧ t_closed t = false ∧ c_path (t_ctx t) = user_path name s) ∧
  (∀ k k' t t', s_tasks s !! [k] = Some t → s_tasks s !! [k'] = Some t' →
     t_closed t = false → t_closed t' = false → c_path (t_ctx t) = c_path (t_ctx t') → k = k') ∧
  (∀ ch k t, ch ≠ [] → s_tasks s !! (ch ++ [k]) = Some t → t_closed t = false →
     ∃ p, s_tasks s !! ch = Some p ∧
       (t_closed p = false ∧ (∃ name e, c_children (t_ctx p) !! name = Some e ∧ ce_chan e = ch ++ [k]) ∨
        t_closed p = true ∧ SysStop ∈ cl_sysq (t_cell t))) ∧
  (∀ ch t, s_tasks s !! ch = Some t →
     ∃ p v, rtc (cell_step (t_props t)) (false, spawn_cell (t_props t) p ch v) (t_started t, t_cell t)).
Proof.
  intros s. pose proof (system_run_inv ops (create name0) (sys_inv_create name0) n) as I. fold s in I. split_and!.
  - intros props name. unfold actor_of. destruct (s_guardian s !! name) as [e|] eqn:Eg; cbn.
    + split; [|done]. intros _. destruct (i_guardian s I name e Eg) as (k & t & _ & ? & ? & ?). by exists k, t.
    + split; [done|]. intros (k & t & Ht & Hc & Hp). destruct (i_top s I k t Ht) as (name' & Hp' & Hg).
      rewrite Hp in Hp'. apply user_path_inj in Hp' as <-. rewrite Hg in Eg; done.
  - intros k k' t t' Ht Ht' Hc Hc' Hp.
    destruct (i_top s I k t Ht) as (x & Hx & Gx), (i_top s I k' t' Ht') as (y & Hy & Gy).
    rewrite Hx, Hy in Hp. apply user_path_inj in Hp as <-. specialize (Gx Hc). rewrite (Gy Hc') in Gx. congruence.
  - intros ch k t Hne Ht Hc. destruct (i_family s I ch k t Hne Ht) as (p & Hp & _ & Hcare). exists p.
    split; [done|]. unfold cared_for in Hcare. destruct (t_closed p); [right|left; done].
    split; [done|]. destruct Hcare; [congruence|done].
  - apply (i_run s I).
Qed.

(** C2: stopping an actor stops everything below it: in a run that goes on running every
    live task, once an actor has ended or has a stop in its system mailbox, each of its
    descendants that exists by then ends, whatever the actors do in between. *)
Theorem stop_reaches_descendants (ops : nat → SysOp A Msg) (name0 : string) (n : nat) (ch suf : Chan) t d :
  fair ops (create name0) → ch ≠ [] →
  s_tasks (run_at ops (create name0) n) !! ch = Some t →
  t_closed t = true ∨ SysStop ∈ cl_sysq (t_cell t) →
  s_tasks (run_at ops (create name0) n) !! (ch ++ suf) = Some d →
  ∃ m d', n ≤ m ∧ s_tasks (run_at ops (create name0) m) !! (ch ++ suf) = Some d' ∧
    t_closed d' = true ∧ cl_done (t_cell d') = true.
Proof.
  intros Hf Hne Ht Hs Hd.
  destruct (stop_descends ops _ (sys_inv_create name0) Hf suf n ch t d Hne Ht Hs Hd) as (m & d' & Hm & Hd' & Hc).
  exists m, d'. split_and!; try done.
  destruct (i_task _ (system_run_inv ops _ (sys_inv_create name0) m) _ _ Hd') as (_ & _ & -> & _). done.
Qed.

(** C4: death watch: when an actor ends, every local actor that watches it at that moment
    runs [on_terminated] with its path in a fair run, or ends before. *)
Theorem death_watch (ops : nat → SysOp A Msg) (name0 : string) (n : nat) (ch w : Chan) t tw key wp :
  fair ops (create name0) →
  s_tasks (run_at ops (create name0) n) !! ch = Some t → t_closed t = false →
  c_watched_by (t_ctx t) !! key = Some (ULocal wp w) → w ≠ ch →
  s_tasks (run_at ops (create name0) n) !! w = Some tw →
  (∃ t', s_tasks (run_at ops (create name0) (S n)) !! ch = Some t' ∧ t_closed t' = true) →
  ∃ m tw', n ≤ m ∧ s_tasks (run_at ops (create name0) m) !! w = Some tw' ∧
    (t_closed tw' = true ∨ HOnTerminated (c_path (t_ctx t)) ∈ hooks_of (c_trace (t_ctx tw'))).
Proof.
  intros Hf Ht Hc Hw Hne Htw Hend. set (I := system_run_inv ops _ (sys_inv_create name0)).
  destruct (watcher_told ops _ (sys_inv_create name0) n ch t key wp w tw Ht Hc Hw Htw Hne Hend)
    as (tw1 & Htw1 & [Hc1|Hin]); [exists (S n), tw1; auto with lia|].
  apply list_elem_of_split in Hin as (pre & post & Hq).
  destruct (pending_taken ops _ (sys_inv_create name0) Hf w _ _ (S n) tw1 pre post Htw1 Hq (Nat.lt_succ_diag_r _))
    as (m & Hm & t' & Ht' & [Hc'|(Hs & Hh & Hr)]); [exists m, t'; auto with lia|].
  destruct (t_closed t') eqn:Hc'; [exists m, t'; auto with lia|].
  destruct (step_self _ (ops m) w t' (I m) Ht' Hc' Hr) as (t'' & Ht'' & _ & _ & _ & Hk).
  exists (S m), t''. split_and!; [lia|done|right; auto].
Qed.
End properties.

(** ** Selections *)

Module SelectionFacts.
Import Systems PathFacts SystemFacts.

Lemma break_slash_split str :
  Paths.break_slash str =
  match split_once "/" str with Some (a, b) => (a, String "/" b) | None => (str, EmptyString) end.
Proof.
  induction str as [|c str IH]; [done|]. rewrite split_once_equation. cbn [Paths.break_slash String.prefix].
  destruct (ascii_dec "/" c) as [<-|Hc].
  - cbn. by destruct str.
  - rewrite (proj2 (Ascii.eqb_neq c "/")) by congruence. rewrite IH. by destruct (split_once "/" str) as [[a b]|].
Qed.

(** The two crates read paths alike. *)
Lemma parse_path_remote str : parse_path str = Paths.parse_actor_path str.
Proof.
  unfold parse_path, split_addr_path, Paths.parse_actor_path.
  destruct (split_once "://" str) as [[proto after]|] eqn:E; [|done]. cbn [mbind option_bind].
  rewrite break_slash_split. destruct (split_once "/" after) as [[a b]|]; [done|].
  cbn [mbind option_bind]. by destruct (split_once_stable _ _ _ _ after E) as [-> _].
Qed.

Section selection.
Context {A Msg : Type} `{!Actor A Msg} `{!ActorLaws A Msg}.

(** A living top-level actor is found by its printed path, and after its end nothing is. *)
Lemma selection_finds (ops : nat → SysOp A Msg) name0 n name :
  let s := run_at ops (create name0) n in
  address_ok (Address_local name0) →
  string_has "/" name0 = false → element_ok name →
  actor_selection (ActorPath_to_string (user_path name s)) s =
  (λ c, ULocal (ce_path c) (ce_chan c)) <$> s_guardian s !! name ∧
  ∀ k t, s_tasks s !! [k] = Some t → t_closed t = false → c_path (t_ctx t) = user_path name s →
    actor_selection (ActorPath_to_string (user_path name s)) s = Some (ULocal (user_path name s) [k]).
Proof.
  intros s Hok Hsl Hname.
  assert (s_address s = Address_local name0) as Ha by apply (run_address ops _ (sys_inv_create name0)).
  assert (actor_selection (ActorPath_to_string (user_path name s)) s =
    (λ c, ULocal (ce_path c) (ce_chan c)) <$> s_guardian s !! name) as Hsel.
  { unfold actor_selection. rewrite parse_path_remote, parse_actor_path_roundtrip; cbn; rewrite ?Ha; try done.
    { unfold is_local. cbn. by rewrite Ha, bool_decide_true. }
    constructor; [by split_and!|]. by apply Forall_singleton. }
  split; [done|]. intros k t Ht Hc Hp. rewrite Hsel.
  pose proof (system_run_inv ops (create name0) (sys_inv_create name0) n) as I. fold s in I.
  destruct (i_top s I k t Ht) as (name' & Hp' & Hg). rewrite Hp in Hp'. apply user_path_inj in Hp' as <-.
  by rewrite (Hg Hc).
Qed.
End selection.
End SelectionFacts.

(** ** A concrete system *)

Module Demo.
Import Systems MailFacts SystemFacts.

(** The state is the height of the tree an actor spawns; 5 makes it watch the second
    top-level actor. *)
#[local] Instance tree_actor : Actor nat nat := {|
  a_handle a c m :=
    (inr tt, (a, if m =? 5 then Context_watch (ULocal (ActorPath_child "b" (ActorPath_child "user"
                    (ActorPath_root (Address_local "S")))) [1]) c else c));
  a_pre_start a c :=
    (a, match a with O => c | S h => (Context_spawn (mkProps h None false) "x" c).2 end);
  a_post_stop a c := (a, c);
  a_pre_restart _ a c := (a, c); a_post_restart _ a c := (a, c);
  a_on_terminated _ a c := (a, c); a_on_directive _ a c := (a, c);
|}.

#[local] Instance tree_laws : ActorLaws nat nat.
Proof.
  split; intros; try apply rtc_refl.
  - cbn. case_match; [apply rtc_once; constructor|apply rtc_refl].
  - destruct a; [apply rtc_refl|]. apply rtc_once. constructor.
Qed.

(** A scheduler that comes back to every channel: after some operations of the world, the
    pairs of a channel and a number in the order of their codes. *)
Definition then_all (l : list (SysOp nat nat)) (n : nat) : SysOp nat nat :=
  match l !! n with
  | Some op => op
  | None => match decode_nat n : option (Chan * nat) with
            | Some (ch, _) => Run ch 0 false
            | None => NewWaiter
            end
  end.

Lemma codes_unbounded (ch : Chan) n : ∃ x : nat, n ≤ encode_nat (ch, x).
Proof.
  destruct (decide (Exists (λ x, n ≤ encode_nat (ch, x)) (seq 0 (S n)))) as [H|H].
  { apply Exists_exists in H as (x & _ & Hx). by exists x. }
  exfalso. apply not_Exists_Forall in H; [|intros; apply _].
  assert (NoDup ((λ x, encode_nat (ch, x)) <$> seq 0 (S n))) as Hnd.
  { apply NoDup_fmap_2; [|apply NoDup_seq]. intros x y Hxy. apply (inj encode_nat) in Hxy. congruence. }
  assert (incl ((λ x, encode_nat (ch, x)) <$> seq 0 (S n)) (seq 0 n)) as Hin.
  { intros y Hy. apply list_elem_of_In, list_elem_of_fmap in Hy as (x & -> & Hx).
    rewrite Forall_forall in H. specialize (H x Hx). cbn beta in H. apply Nat.nle_gt in H. apply in_seq. lia. }
  apply NoDup_ListNoDup in Hnd. pose proof (List.NoDup_incl_length Hnd Hin) as Hlen.
  rewrite length_fmap, !length_seq in Hlen. lia.
Qed.

Lemma then_all_fair l s : fair (then_all l) s.
Proof.
  intros ch n t _ _. destruct (codes_unbounded ch (n + length l)) as (x & Hx).
  exists (encode_nat (ch, x)), 0%N, false. split; [lia|]. unfold then_all.
  rewrite lookup_ge_None_2 by lia. by rewrite decode_encode_nat.
Qed.

Definition demo_props (h : nat) : Props nat := mkProps h None false.

Definition demo_family : list (SysOp nat nat) :=
  [ActorOf (demo_props 2) "a"; Run [0] 0 false; Run [0; 0] 0 false; StopName "a"].

Lemma system_family_witness :
  let s := run_at (then_all demo_family) (create "S") 4 in
  (actor_of (demo_props 0) "a" s).1 = inl (NameTakenErr "a") ∧
  ∃ k t, s_tasks s !! [k] = Some t ∧ t_closed t = false ∧ c_path (t_ctx t) = user_path "a" s.
Proof.
  intros s. split; [vm_compute; reflexivity|].
  apply (proj1 (system_family (then_all demo_family) "S" 4) (demo_props 0) "a"). vm_compute. reflexivity.
Defined.

Lemma stop_reaches_descendants_witness :
  ∃ m d', 4 ≤ m ∧ s_tasks (run_at (then_all demo_family) (create "S") m) !! [0; 0; 0] = Some d' ∧
    t_closed d' = true ∧ cl_done (t_cell d') = true.
Proof.
  refine (stop_reaches_descendants (then_all demo_family) "S" 4 [0] [0; 0] _ _
    (then_all_fair demo_family _) _ _ _ _).
  - done.
  - vm_compute. reflexivity.
  - right. vm_compute. by left.
  - vm_compute. reflexivity.
Defined.

Definition demo_watch : list (SysOp nat nat) :=
  [ActorOf (demo_props 0) "w"; ActorOf (demo_props 0) "b"; Run [0] 0 false; Run [1] 0 false;
   Tell (ULocal (user_path (A := nat) (Msg := nat) "w" (create "S")) [0]) (mkEnvelope 5 SenderNone metadata_new);
   Run [0] 0 false; Run [1] 0 false; StopName "b"; Run [1] 0 false].

Lemma death_watch_witness :
  ∃ t, s_tasks (run_at (then_all demo_watch) (create "S") 8) !! [1] = Some t ∧
    c_path (t_ctx t) = user_path (A := nat) (Msg := nat) "b" (create "S") ∧
  ∃ m tw', 8 ≤ m ∧ s_tasks (run_at (then_all demo_watch) (create "S") m) !! [0] = Some tw' ∧
    (t_closed tw' = true ∨ HOnTerminated (c_path (t_ctx t)) ∈ hooks_of (c_trace (t_ctx tw'))).
Proof.
  set (w := user_path (A := nat) (Msg := nat) "w" (create "S")).
  set (b := user_path (A := nat) (Msg := nat) "b" (create "S")).
  assert ((λ t, (t_closed t, c_path (t_ctx t), c_watched_by (t_ctx t) !! w)) <$>
    s_tasks (run_at (then_all demo_watch) (create "S") 8) !! [1] =
    Some (false, b, Some (ULocal w [0]))) as Hb by (vm_compute; reflexivity).
  assert (t_closed <$> s_tasks (run_at (then_all demo_watch) (create "S") 8) !! [0] = Some false) as Hw
    by (vm_compute; reflexivity).
  assert (t_closed <$> s_tasks (run_at (then_all demo_watch) (create "S") 9) !! [1] = Some true) as Hend
    by (vm_compute; reflexivity).
  apply fmap_Some in Hb as (t & Ht & Hb), Hw as (tw & Htw & _), Hend as (t' & Ht' & Hc').
  injection Hb as Hc Hp Hk. exists t. split; [done|]. split; [done|].
  refine (death_watch (then_all demo_watch) "S" 8 [1] [0] t tw w w (then_all_fair demo_watch _)
    Ht (eq_sym Hc) (eq_sym Hk) _ Htw _); [done|].
  exists t'. by split.
Defined.

(** ** What the code does not do *)

Fixpoint do_all (l : list (SysOp nat nat)) (s : ActorSystem nat nat) : ActorSystem nat nat :=
  match l with [] => s | op :: l => do_all l (sys_step op s) end.

(** Selecting an actor below the top level gives the top-level actor above it. *)
Lemma selection_of_descendant :
  let s := do_all demo_family (create "S") in
  actor_selection "akka://S/user/a/x" s = actor_selection "akka://S/user/a" s ∧
  is_Some (actor_selection "akka://S/user/a/x" s) ∧
  actor_selection "akka://S/user/a/no/such/actor" s = actor_selection "akka://S/user/a" s.
Proof. vm_compute. split; [reflexivity|]. split; [by eexists|reflexivity]. Qed.

(** A terminated system still spawns actors. *)
Lemma actor_of_after_terminate :
  let s := do_all [Terminate] (create "S") in
  s_terminated s = true ∧
  (actor_of (demo_props 0) "late" s).1 = inr (ULocal (user_path "late" s) [0]).
Proof. vm_compute. split; reflexivity. Qed.

(** A caller of [when_terminated] that has read the flag before [terminate] sets it, and
    waits after it has notified, is not woken: nothing but a second [terminate] ends its wait. *)
Lemma termination_missed :
  let s := do_all [NewWaiter; WaitStep 0; Terminate; WaitStep 0] (create "S") in
  s_terminated s = true ∧ s_waiters s = [WaitNotified] ∧
  s_waiters (do_all [WaitStep 0; WaitStep 0] s) = [WaitNotified].
Proof. vm_compute. by split_and!. Qed.

(** Watching an actor that has ended is not answered: the watcher never hears of it. *)
Lemma late_watch_unanswered :
  let s := do_all (take 4 demo_watch ++ [StopName "b"; Run [1] 0 false] ++ drop 4 demo_watch) (create "S") in
  t_closed <$> s_tasks s !! [1] = Some true ∧
  (λ t, (cl_sysq (t_cell t), size (c_watching (t_ctx t)), hooks_of (c_trace (t_ctx t)))) <$> s_tasks s !! [0] =
    Some ([], 1, [HPreStart; HHandle 5]).
Proof. split; vm_compute; reflexivity. Qed.

(** The name of a top-level actor is free while its children are still alive: a second
    actor of the name brings a second living actor of the same path below it. *)
Lemma one_path_two_actors :
  let s := do_all [ActorOf (demo_props 1) "a"; Run [0] 0 false; StopName "a"; Run [0] 0 false;
                   ActorOf (demo_props 1) "a"; Run [1] 0 false] (create "S") in
  let child := ActorPath_child "x" (user_path "a" s) in
  (λ t, (t_closed t, c_path (t_ctx t))) <$> s_tasks s !! [0; 0] = Some (false, child) ∧
  (λ t, (t_closed t, c_path (t_ctx t))) <$> s_tasks s !! [1; 0] = Some (false, child).
Proof. split; vm_compute; reflexivity. Qed.

(** A message to a remote actor leaves its metadata behind. *)
Lemma remote_metadata_dropped p m meta (s : ActorSystem nat nat) :
  tell_with_meta (URemote p) m meta s = tell (URemote p) m s.
Proof. done. Qed.
End Demo.
