(* ===== verification/Buses.v ===== *)
(** * Event streams and buses

    - [EventStreams] ([atomr-core/event/event_stream.rs]): subscribers by type of event.
    - [DeadLetters] ([atomr-core/event/dead_letters.rs]).
    - [Extensions] ([atomr-core/actor/extensions.rs]): singletons of a system by type.
    - [DomainBus] ([atomr-patterns/bus/mod.rs]): the bus of domain events, local part.
    - [Translation] ([atomr-patterns/acl/mod.rs], [reactor/mod.rs]): tasks on a channel.
    - [Specifications] ([atomr-patterns/specification/mod.rs]): predicates that combine. *)

From stdpp Require Import gmap strings list.
From Stdlib Require Import NArith Lia.
From S2P Require Import Prelude Address Cqrs.

(** ** Event streams *)

Module EventStreams.
Section stream.
Context {T V : Type} `{Countable T}.

(** A subscriber: its number and its predicate.  The user function that is called is
    named by the number. *)
Record EventStream := mkStream {
  es_map : gmap T (list (N * (V → bool)));
  es_next : N;
  es_calls : list (N * V);  (** calls of user functions so far *)
}.

Record Subscription := mkSubscription { sub_id : N; sub_type : T }.

Definition stream_new : EventStream := mkStream ∅ 0 [].

(** [entry(type_id).or_default().lock().push(...)]. *)
Definition subscribe_filtered (ty : T) (pred : V → bool) (s : EventStream) : Subscription * EventStream :=
  let id := es_next s in
  (mkSubscription id ty,
   mkStream (<[ty := default [] (es_map s !! ty) ++ [(id, pred)]]> (es_map s)) (u64_add id 1) (es_calls s)).

Definition subscribe (ty : T) (s : EventStream) : Subscription * EventStream :=
  subscribe_filtered ty (λ _, true) s.

Definition unsubscribe (sub : Subscription) (s : EventStream) : EventStream :=
  match es_map s !! sub_type sub with
  | Some l => mkStream (<[sub_type sub := filter (λ x, x.1 ≠ sub_id sub) l]> (es_map s)) (es_next s) (es_calls s)
  | None => s
  end.

Definition subscriber_count (ty : T) (s : EventStream) : nat := length (default [] (es_map s !! ty)).

(** The closure of a subscriber calls the user function if the predicate holds. *)
Definition call (v : V) (calls : list (N * V)) (x : N * (V → bool)) : list (N * V) :=
  if x.2 v then calls ++ [(x.1, v)] else calls.

Definition publish (ty : T) (v : V) (s : EventStream) : EventStream :=
  match es_map s !! ty with
  | Some l => mkStream (es_map s) (es_next s) (foldl (call v) (es_calls s) l)
  | None => s
  end.

(** User functions that use the stream themselves.  The guard of the map entry is held
    while the callbacks run: [subscribe] needs its shard for writing and waits for ever if
    it is the same ([None]); [unsubscribe] only reads. *)
Inductive Action := ASubscribe (ty : T) (pred : V → bool) | AUnsubscribe (sub : Subscription).

Section reentrant.
Context (shard : T → nat) (acts : N → V → list Action).

Definition act (held : T) (s : option EventStream) (a : Action) : option EventStream :=
  s ← s;
  match a with
  | ASubscribe ty pred => if shard ty =? shard held then None else Some (subscribe_filtered ty pred s).2
  | AUnsubscribe sub => Some (unsubscribe sub s)
  end.

Definition call_back (ty : T) (v : V) (s : option EventStream) (x : N * (V → bool)) : option EventStream :=
  s ← s;
  if x.2 v then foldl (act ty) (Some (mkStream (es_map s) (es_next s) (es_calls s ++ [(x.1, v)]))) (acts x.1 v)
  else Some s.

Definition publish_acting (ty : T) (v : V) (s : EventStream) : option EventStream :=
  match es_map s !! ty with
  | Some callbacks => foldl (call_back ty v) (Some s) callbacks
  | None => Some s
  end.
End reentrant.

(** ** The stream as one list of subscribers *)

Inductive StreamOp := OpSubscribe (ty : T) (pred : V → bool) | OpUnsubscribe (sub : Subscription) | OpPublish (ty : T) (v : V).

Definition stream_op (s : EventStream) (op : StreamOp) : EventStream :=
  match op with
  | OpSubscribe ty pred => (subscribe_filtered ty pred s).2
  | OpUnsubscribe sub => unsubscribe sub s
  | OpPublish ty v => publish ty v s
  end.

(** Specification: who is subscribed, oldest first; an event goes to those of its type whose
    predicate it satisfies. *)
Record Flat := mkFlat { f_subs : list (T * (N * (V → bool))); f_next : N; f_calls : list (N * V) }.

Definition delivered_to (ty : T) (v : V) (x : T * (N * (V → bool))) : option (N * V) :=
  if decide (x.1 = ty) then if x.2.2 v then Some (x.2.1, v) else None else None.

Definition flat_op (f : Flat) (op : StreamOp) : Flat :=
  match op with
  | OpSubscribe ty pred => mkFlat (f_subs f ++ [(ty, (f_next f, pred))]) (u64_add (f_next f) 1) (f_calls f)
  | OpUnsubscribe sub =>
      mkFlat (filter (λ x, ¬ (x.1 = sub_type sub ∧ x.2.1 = sub_id sub)) (f_subs f)) (f_next f) (f_calls f)
  | OpPublish ty v =>
      mkFlat (f_subs f) (f_next f)
        (f_calls f ++ omap (delivered_to ty v) (f_subs f))
  end.

Definition subs_of_type (ty : T) (l : list (T * (N * (V → bool)))) : list (N * (V → bool)) :=
  omap (λ x : T * (N * (V → bool)), if decide (x.1 = ty) then Some x.2 else None) l.

Definition flat_of (f : Flat) (s : EventStream) : Prop :=
  (∀ ty, default [] (es_map s !! ty) = subs_of_type ty (f_subs f)) ∧ es_next s = f_next f ∧ es_calls s = f_calls f.
End stream.
Arguments EventStream _ _ {_ _}.
Arguments Flat _ _ : clear implicits.
Arguments StreamOp _ _ : clear implicits.
Arguments Action _ _ : clear implicits.
End EventStreams.

Module StreamFacts.
Import EventStreams.
Section facts.
Context {T V : Type} `{Countable T}.
Implicit Types (s : EventStream T V) (f : Flat T V).

Definition accepted (v : V) (x : N * (V → bool)) : option (N * V) :=
  if x.2 v then Some (x.1, v) else None.

Lemma foldl_call v (l : list (N * (V → bool))) calls :
  foldl (call v) calls l = calls ++ omap (accepted v) l.
Proof.
  revert calls; induction l as [|x l IH]; intros calls; [by rewrite app_nil_r|]. cbn. rewrite IH.
  unfold call, accepted. destruct (x.2 v); [|done]. by rewrite <- app_assoc.
Qed.

Lemma omap_of_type v ty (l : list (T * (N * (V → bool)))) :
  omap (accepted v) (subs_of_type ty l) =
  omap (delivered_to ty v) l.
Proof.
  induction l as [|[ty' x] l IH]; [done|]. unfold subs_of_type, delivered_to, accepted in *. cbn. case_decide; cbn; [|done].
  destruct (x.2 v); by rewrite IH.
Qed.

Lemma subs_filter ty (sub : Subscription (T := T)) (l : list (T * (N * (V → bool)))) :
  subs_of_type ty (filter (λ x, ¬ (x.1 = sub_type sub ∧ x.2.1 = sub_id sub)) l) =
  if decide (ty = sub_type sub) then filter (λ x, x.1 ≠ sub_id sub) (subs_of_type ty l) else subs_of_type ty l.
Proof.
  induction l as [|[ty' x] l IH]; [by case_decide|]. unfold subs_of_type in *. rewrite filter_cons. cbn [fst snd].
  destruct (decide (¬ (ty' = sub_type sub ∧ x.1 = sub_id sub))) as [Hk|Hk]; cbn [omap list_omap fst snd].
  - destruct (decide (ty' = ty)) as [->|]; [|exact IH]. rewrite IH. case_decide as Ht; [|done].
    rewrite filter_cons, decide_True; [done|]. naive_solver.
  - apply dec_stable in Hk as [-> Hid]. destruct (decide (sub_type sub = ty)) as [<-|]; [|exact IH].
    rewrite IH, !decide_True by done. rewrite filter_cons, decide_False by auto. done.
Qed.

(** The map of vectors is the list of subscribers sorted by type: after any sequence of
    operations the same user functions have been called with the same values in the same
    order. *)
Lemma stream_refines (ops : list (StreamOp T V)) :
  flat_of (foldl flat_op (mkFlat [] 0 []) ops) (foldl stream_op stream_new ops).
Proof.
  assert (∀ f s, flat_of f s → flat_of (foldl flat_op f ops) (foldl stream_op s ops)) as Hgen; [|by apply Hgen].
  induction ops as [|op ops IH]; intros f s Hf; [done|]. cbn. apply IH. destruct Hf as (Hm & Hn & Hc).
  destruct op as [ty pred|sub|ty v]; cbn [flat_op stream_op].
  - split_and!; cbn; [|by rewrite Hn|done]. intros ty'. unfold subs_of_type in *. rewrite omap_app, <- Hm. cbn.
    destruct (decide (ty = ty')) as [->|Hne].
    + by rewrite lookup_insert_eq, Hn.
    + by rewrite lookup_insert_ne, app_nil_r by done.
  - unfold unsubscribe. destruct (es_map s !! sub_type sub) as [l|] eqn:E.
    + split_and!; [|done..]. intros ty'. cbn [f_subs es_map]. rewrite subs_filter, <- Hm. case_decide as Ht.
      * subst. by rewrite lookup_insert_eq, E.
      * by rewrite lookup_insert_ne by done.
    + split_and!; [|done..]. intros ty'. cbn [f_subs es_map]. rewrite subs_filter, <- Hm. case_decide as Ht; [|done].
      subst. by rewrite E.
  - unfold publish. rewrite <- omap_of_type, <- Hm, <- Hc. destruct (es_map s !! ty) as [l|] eqn:E; cbn.
    + by rewrite foldl_call.
    + by rewrite app_nil_r.
Qed.

(** Without actions the callbacks run as if nothing were held. *)
Lemma publish_quiet shard ty v s :
  publish_acting shard (λ _ _, []) ty v s = Some (publish ty v s).
Proof.
  unfold publish_acting, publish. destruct (es_map s !! ty) as [l|]; [|done].
  destruct s as [m n calls]. cbn. revert calls; induction l as [|x l IH]; intros calls; [done|]. cbn.
  unfold call at 2. destruct (x.2 v); apply IH.
Qed.

(** A callback that subscribes to the type it is called for never returns. *)
Lemma subscribe_in_callback_deadlocks shard acts ty v pred s x l :
  es_map s !! ty = Some (x :: l) → x.2 v = true → acts x.1 v = [ASubscribe ty pred] →
  publish_acting shard acts ty v s = None.
Proof.
  intros Hm Hx Ha. unfold publish_acting. rewrite Hm. cbn [foldl].
  assert (call_back shard acts ty v (Some s) x = None) as ->.
  { unfold call_back. cbn. rewrite Hx, Ha. cbn. by rewrite Nat.eqb_refl. }
  clear Hm. by induction l as [|y l IH].
Qed.
End facts.
End StreamFacts.

(** ** Dead letters *)

Module DeadLetters.

Inductive DeadLetterReason := NoRecipient | Dropped | Suppressed.

Record DeadLetterFilter := mkFilter {
  accept_no_recipient : bool; accept_dropped : bool; accept_suppressed : bool;
}.
Definition DeadLetterFilter_default : DeadLetterFilter := mkFilter true true false.

Definition accepts (f : DeadLetterFilter) (r : DeadLetterReason) : bool :=
  match r with
  | NoRecipient => accept_no_recipient f
  | Dropped => accept_dropped f
  | Suppressed => accept_suppressed f
  end.

Section sink.
Context {M : Type}.
Record DeadLetter := mkLetter {
  recipient : ActorPath; letter_sender : option ActorPath; letter_message : M; reason : DeadLetterReason;
}.
Record DeadLettersSink := mkSink { buf : list DeadLetter; letter_filter : DeadLetterFilter }.

Definition sink_new : DeadLettersSink := mkSink [] DeadLetterFilter_default.
Definition set_filter (f : DeadLetterFilter) (s : DeadLettersSink) : DeadLettersSink := mkSink (buf s) f.
Definition push (dl : DeadLetter) (s : DeadLettersSink) : DeadLettersSink :=
  if accepts (letter_filter s) (reason dl) then mkSink (buf s ++ [dl]) (letter_filter s) else s.
Definition drain (s : DeadLettersSink) : list DeadLetter * DeadLettersSink := (buf s, mkSink [] (letter_filter s)).
Definition sink_len (s : DeadLettersSink) : nat := length (buf s).

(** A drain gives the accepted letters since the last one, in order. *)
Lemma drain_pushes (dls : list DeadLetter) (s : DeadLettersSink) :
  let s' := foldl (λ s dl, push dl s) s dls in
  (drain s').1 = buf s ++ filter (λ dl, accepts (letter_filter s) (reason dl) = true) dls ∧
  drain (drain s').2 = ([], (drain s').2).
Proof.
  cbn. assert (letter_filter (foldl (λ s dl, push dl s) s dls) = letter_filter s ∧
    buf (foldl (λ s dl, push dl s) s dls) = buf s ++ filter (λ dl, accepts (letter_filter s) (reason dl) = true) dls)
    as [_ ->]; [|by split].
  revert s; induction dls as [|dl dls IH]; intros s; [by rewrite app_nil_r|]. cbn [foldl].
  destruct (IH (push dl s)) as [-> ->]. rewrite filter_cons. unfold push.
  destruct (accepts (letter_filter s) (reason dl)) eqn:E; cbn; [by rewrite <- app_assoc|done].
Qed.
End sink.
End DeadLetters.

(** ** Extensions *)

Module Extensions.
Section ext.
Context {T E : Type} `{Countable T}.

(** Values are kept by the type they have; [E] stands for all of them. *)
#[local] Abbreviation Extensions := (gmap T E).
Definition register (ty : T) (ext : E) (m : Extensions) : Extensions := <[ty := ext]> m.
Definition get (ty : T) (m : Extensions) : option E := m !! ty.

(** One caller of [get_or_create] at a time; [None]: the [expect] fails. *)
Definition get_or_create (ty : T) (create : E) (m : Extensions) : option E * Extensions :=
  match get ty m with
  | Some e => (Some e, m)
  | None => let m := register ty create m in (get ty m, m)
  end.

(** It never fails, and gives every later caller what it gave the first. *)
Lemma get_or_create_once ty e m :
  ∃ r, (get_or_create ty e m).1 = Some r ∧
    ∀ e', get_or_create ty e' (get_or_create ty e m).2 = (Some r, (get_or_create ty e m).2).
Proof.
  unfold get_or_create, get, register. destruct (m !! ty) as [r|] eqn:Er; cbn.
  - exists r. split; [done|]. intros e'. by rewrite Er.
  - exists e. rewrite lookup_insert_eq. split; [done|]. intros e'. done.
Qed.

(** Several callers: each looks, creates and registers, and looks again. *)
Inductive Caller := Looking (create : E) | Creating (create : E) | Registered | Returned (e : option E).

Definition caller_step (ty : T) (i : nat) (s : list Caller * Extensions) : list Caller * Extensions :=
  match s.1 !! i with
  | Some (Looking e) =>
      match get ty s.2 with
      | Some r => (<[i := Returned (Some r)]> s.1, s.2)
      | None => (<[i := Creating e]> s.1, s.2)
      end
  | Some (Creating e) => (<[i := Registered]> s.1, register ty e s.2)
  | Some Registered => (<[i := Returned (get ty s.2)]> s.1, s.2)
  | _ => s
  end.

(** Two callers that overlap get different instances of the singleton. *)
Lemma singleton_race ty e e' :
  (foldl (λ s i, caller_step ty i s) ([Looking e; Looking e'], ∅) [0; 1; 0; 0; 1; 1]).1 =
  [Returned (Some e); Returned (Some e')].
Proof.
  assert (get ty ∅ = None) as H0 by apply lookup_empty.
  assert (∀ x m, get ty (register ty x m) = Some x) as H1 by (intros; apply lookup_insert_eq).
  assert (∀ l i x m, l !! i = Some (Looking x) → get ty m = None →
    caller_step ty i (l, m) = (<[i := Creating x]> l, m)) as S1.
  { intros l i x m Hl Hm. unfold caller_step. cbn [fst snd]. by rewrite Hl, Hm. }
  assert (∀ l i x m, l !! i = Some (Creating x) →
    caller_step ty i (l, m) = (<[i := Registered]> l, register ty x m)) as S2.
  { intros l i x m Hl. unfold caller_step. cbn [fst snd]. by rewrite Hl. }
  assert (∀ l i x m, l !! i = Some Registered →
    caller_step ty i (l, register ty x m) = (<[i := Returned (Some x)]> l, register ty x m)) as S3.
  { intros l i x m Hl. unfold caller_step. cbn [fst snd]. by rewrite Hl, H1. }
  cbn [foldl]. erewrite S1, S1, S2, S3, S2, S3 by (try apply H0; reflexivity). reflexivity.
Qed.
End ext.
End Extensions.

(** ** The bus of domain events *)

Module DomainBus.
Section bus.
Context {E : Type}.

(** [BusInner]: the senders, with the channels they belong to; channel [k] is made by the
    [k]-th [subscribe]. *)
Record Bus := mkBus { subscribers : list nat; channels : gmap nat (Chan E); made : nat }.

Definition bus_new : Bus := mkBus [] ∅ 0.

(** [retain] of the senders that take the event. *)
Definition bus_publish (e : E) (b : Bus) : Bus :=
  let '(kept, chs) := push_taps e (subscribers b) (channels b) in mkBus kept chs (made b).

Definition bus_subscribe (b : Bus) : nat * Bus :=
  (made b, mkBus (subscribers b ++ [made b]) (<[made b := mkChan true []]> (channels b)) (S (made b))).

(** A receiver is dropped. *)
Definition drop_receiver (k : nat) (b : Bus) : Bus :=
  mkBus (subscribers b) (close_chan k (channels b)) (made b).

Inductive BusOp := BSubscribe | BPublish (e : E) | BDrop (k : nat).

Definition bus_op (b : Bus) (op : BusOp) : Bus :=
  match op with
  | BSubscribe => (bus_subscribe b).2
  | BPublish e => bus_publish e b
  | BDrop k => drop_receiver k b
  end.

(** What receiver [k] is promised, with the number of receivers made so far: nothing before
    it exists, then every event until it is dropped. *)
Fixpoint promised (k : nat) (made : nat) (open : bool) (ops : list BusOp) : list E :=
  match ops with
  | [] => []
  | BSubscribe :: ops => promised k (S made) (if decide (made = k) then true else open) ops
  | BPublish e :: ops => (if open then [e] else []) ++ promised k made open ops
  | BDrop j :: ops => promised k made (if decide (j = k) then false else open) ops
  end.
End bus.
Arguments Bus _ : clear implicits.
Arguments BusOp _ : clear implicits.
End DomainBus.

Module BusFacts.
Import DomainBus ChannelFacts.
Section facts.
Context {E : Type}.
Implicit Types b : Bus E.

(** The open channels are subscribed, once; channels to come do not exist. *)
Record bus_inv b : Prop := {
  bi_open : ∀ k, is_open (channels b) k = true → k ∈ subscribers b;
  bi_nodup : NoDup (subscribers b);
  bi_made : ∀ k, made b ≤ k → channels b !! k = None;
  bi_subs : ∀ k, k ∈ subscribers b → k < made b;
}.

Definition received b (k : nat) : list E := match channels b !! k with Some c => ch_sent c | None => [] end.

Lemma push_taps_sent (e : E) tps chs k :
  NoDup tps →
  match (push_taps e tps chs).2 !! k with Some c => ch_sent c | None => [] end =
  match chs !! k with Some c => ch_sent c | None => [] end ++
    (if decide (k ∈ tps) then if is_open chs k then [e] else [] else []).
Proof.
  revert chs; induction tps as [|j tps IH]; intros chs Hnd.
  { cbn. rewrite decide_False by apply not_elem_of_nil. by rewrite app_nil_r. }
  apply NoDup_cons in Hnd as [Hj Hnd]. cbn [push_taps].
  destruct (chan_send e j chs) as [chs'|] eqn:Ech.
  - specialize (IH chs' Hnd). destruct (push_taps e tps chs') as [kept chs2]. cbn [fst snd] in *. rewrite IH.
    unfold chan_send in Ech. destruct (chs !! j) as [c|] eqn:Ej; [|done].
    destruct (ch_open c) eqn:Eo; [|done]. injection Ech as <-. unfold is_open.
    destruct (decide (k = j)) as [->|Hne].
    + rewrite lookup_insert_eq, Ej, Eo, (decide_False (P := j ∈ tps)), (decide_True (P := j ∈ j :: tps)) by (done || left).
      cbn. by rewrite app_nil_r.
    + rewrite lookup_insert_ne by done. destruct (decide (k ∈ tps)) as [Hin|Hin].
      * by rewrite (decide_True (P := k ∈ j :: tps)) by (by right).
      * rewrite (decide_False (P := k ∈ j :: tps)); [done|]. rewrite elem_of_cons. naive_solver.
  - rewrite IH by done. f_equal. unfold chan_send in Ech. destruct (decide (k = j)) as [->|Hne].
    + rewrite (decide_False (P := j ∈ tps)), (decide_True (P := j ∈ j :: tps)) by (done || left).
      unfold is_open. destruct (chs !! j) as [c|]; [|done]. by destruct (ch_open c).
    + destruct (decide (k ∈ tps)) as [Hin|Hin].
      * by rewrite (decide_True (P := k ∈ j :: tps)) by (by right).
      * rewrite (decide_False (P := k ∈ j :: tps)); [done|]. rewrite elem_of_cons. naive_solver.
Qed.

Lemma push_taps_none (e : E) tps chs k :
  chs !! k = None → (push_taps e tps chs).2 !! k = None.
Proof.
  revert chs; induction tps as [|j tps IH]; intros chs Hk; [done|]. cbn [push_taps].
  destruct (chan_send e j chs) as [chs'|] eqn:Ech; [|by apply IH].
  specialize (IH chs'). destruct (push_taps e tps chs') as [kept chs2]. cbn [snd] in *. apply IH.
  unfold chan_send in Ech. destruct (chs !! j) as [c|] eqn:Ej; [|done]. destruct (ch_open c); [|done].
  injection Ech as <-. rewrite lookup_insert_ne; [done|]. congruence.
Qed.

Lemma publish_spec e b :
  bus_inv b →
  bus_inv (bus_publish e b) ∧ (∀ k, is_open (channels (bus_publish e b)) k = is_open (channels b) k) ∧
  (∀ k, received (bus_publish e b) k = received b k ++ (if is_open (channels b) k then [e] else [])) ∧
  made (bus_publish e b) = made b ∧
  subscribers (bus_publish e b) = open_taps (channels b) (subscribers b).
Proof.
  intros [Ho Hn Hm Hs]. unfold bus_publish, received.
  destruct (push_taps_spec e (subscribers b) (channels b)) as (H1 & H2 & _).
  pose proof (λ k, push_taps_sent e (subscribers b) (channels b) k Hn) as H3.
  destruct (push_taps e (subscribers b) (channels b)) as [kept chs] eqn:Epush. cbn in H1, H2, H3 |- *. subst kept.
  split_and!; [|done| |done|done].
  - split; cbn.
    + intros k Hk. rewrite H2 in Hk. apply list_elem_of_filter. split; [done|]. by apply Ho.
    + by apply NoDup_filter.
    + intros k Hk. apply Hm in Hk. apply (push_taps_none e (subscribers b)) in Hk. by rewrite Epush in Hk.
    + intros k [_ Hk]%list_elem_of_filter. by apply Hs.
  - intros k. rewrite H3. f_equal. destruct (is_open (channels b) k) eqn:Ek; [|by case_decide].
    rewrite decide_True; [done|]. by apply Ho.
Qed.

Lemma received_closed (chs : gmap nat (Chan E)) j k :
  match close_chan j chs !! k with Some c => ch_sent c | None => [] end =
  match chs !! k with Some c => ch_sent c | None => [] end.
Proof.
  unfold close_chan. destruct (decide (k = j)) as [->|].
  - rewrite lookup_alter_eq. by destruct (chs !! j).
  - by rewrite lookup_alter_ne.
Qed.

Lemma bus_op_inv b op : bus_inv b → bus_inv (bus_op b op).
Proof.
  intros I. destruct op as [|e|j]; cbn [bus_op]; [|by apply publish_spec|].
  - destruct I as [Ho Hn Hm Hs]. split; cbn.
    + intros k Hk. apply elem_of_app. destruct (decide (k = made b)) as [->|]; [right; by apply list_elem_of_singleton|].
      left. apply Ho. revert Hk. unfold is_open. by rewrite lookup_insert_ne.
    + apply NoDup_app. split_and!; [done| |apply NoDup_singleton].
      intros x Hx ->%list_elem_of_singleton. apply Hs in Hx. lia.
    + intros k Hk. rewrite lookup_insert_ne by lia. apply Hm. lia.
    + intros k [Hk| ->%list_elem_of_singleton]%elem_of_app; [apply Hs in Hk; lia|lia].
  - destruct I as [Ho Hn Hm Hs]. split; cbn; [|done| |done].
    + intros k. rewrite is_open_close. case_decide; [done|]. apply Ho.
    + intros k Hk. unfold close_chan. rewrite lookup_alter_None. by apply Hm.
Qed.

(** Each receiver gets exactly the events published while it exists, in order, whatever the
    others do; and after a publication the bus holds the senders of open receivers only. *)
Lemma bus_promises (ops : list (BusOp E)) k :
  received (foldl bus_op bus_new ops) k = promised k 0 false ops ∧
  (∀ e, subscribers (bus_publish e (foldl bus_op bus_new ops)) =
    open_taps (channels (foldl bus_op bus_new ops)) (subscribers (foldl bus_op bus_new ops))).
Proof.
  assert (bus_inv (bus_new : Bus E)) as I0.
  { split; cbn; [|constructor|done|]. - intros j. unfold is_open. by rewrite lookup_empty. - by intros j ?%elem_of_nil. }
  assert (∀ b, bus_inv b → bus_inv (foldl bus_op b ops) ∧
    received (foldl bus_op b ops) k = received b k ++ promised k (made b) (is_open (channels b) k) ops) as Hgen.
  { induction ops as [|op ops IH]; intros b I; [cbn; by rewrite app_nil_r|]. cbn [foldl].
    destruct (IH (bus_op b op) (bus_op_inv b op I)) as [I' ->]. split; [done|]. clear IH I'.
    destruct op as [|e|j]; cbn [promised bus_op].
    - unfold received. cbn. destruct (decide (made b = k)) as [<-|Hne].
      + unfold is_open. rewrite !lookup_insert_eq, (bi_made b I) by done. done.
      + unfold is_open. by rewrite !lookup_insert_ne by done.
    - destruct (publish_spec e b I) as (_ & Ho & Hr & -> & _). by rewrite Ho, Hr, <- app_assoc.
    - cbn. rewrite is_open_close. f_equal; [apply received_closed|].
      destruct (decide (j = k)) as [->|Hne]; [by rewrite decide_True|by rewrite decide_False]. }
  destruct (Hgen bus_new I0) as [I ->]. split; [|intros e; by apply publish_spec].
  unfold received. cbn. by rewrite lookup_empty.
Qed.
End facts.
End BusFacts.

(** ** Tasks on a channel *)

Module Translation.
Section acl.
Context {X I : Type} (translate : X → option I).

(** The task of the anti-corruption layer; [taken] is how many values the output takes
    before its receiver is dropped ([None]: it never is).  Also what stays unread. *)
Fixpoint acl_task (taken : option nat) (input : list X) : list I * list X :=
  match input with
  | [] => ([], [])
  | ext :: input' =>
      match translate ext with
      | None => acl_task taken input'
      | Some int =>
          match taken with
          | Some O => ([], input')
          | Some (S n) => let '(out, rest) := acl_task (Some n) input' in (int :: out, rest)
          | None => let '(out, rest) := acl_task None input' in (int :: out, rest)
          end
      end
  end.

(** The output is the translation of the input, in order, as far as it is taken. *)
Lemma acl_translates taken input :
  (acl_task taken input).1 =
  match taken with None => omap translate input | Some n => take n (omap translate input) end ∧
  (taken = None → (acl_task taken input).2 = []).
Proof.
  revert taken; induction input as [|x input IH]; intros taken; [by destruct taken as [[]|]|]. cbn.
  destruct (translate x) as [i|]; [|apply IH]. destruct taken as [[|n]|]; [done|..].
  - destruct (IH (Some n)) as [IH1 _]. destruct (acl_task (Some n) input) as [out rest]. cbn in *. by rewrite IH1.
  - destruct (IH None) as [IH1 IH2]. destruct (acl_task None input) as [out rest]. cbn in *. rewrite IH1. auto.
Qed.
End acl.

(** The reactor awaits the reaction to each event before it takes the next. *)
Definition reactor_task {E S} (reaction : E → S → S) (events : list E) (s : S) : S :=
  foldl (λ s e, reaction e s) s events.

Inductive BuildError := NotConfigured (what : string).
Record ReactorBuilder (E R : Type) := mkReactor { r_name : option string; r_events : option E; r_reaction : option R }.
Arguments mkReactor {_ _}. Arguments r_name {_ _}. Arguments r_events {_ _}. Arguments r_reaction {_ _}.

Definition reactor_build {E R} (b : ReactorBuilder E R) : BuildError + (string * E * R) :=
  match r_events b with
  | None => inl (NotConfigured "events")
  | Some ev =>
      match r_reaction b with
      | None => inl (NotConfigured "reaction")
      | Some r => inr (default "reactor" (r_name b), ev, r)
      end
  end.
End Translation.

(** ** Specifications *)

Module Specifications.

Class Specification (S T : Type) := is_satisfied_by : S → T → bool.

Record AndSpec (A B : Type) := mkAnd { and_a : A; and_b : B }.
Record OrSpec (A B : Type) := mkOr { or_a : A; or_b : B }.
Record NotSpec (S : Type) := mkNot { inner : S }.
Record FnSpec (T : Type) := mkFn { fn : T → bool }.
Arguments mkAnd {_ _}. Arguments mkOr {_ _}. Arguments mkNot {_}. Arguments mkFn {_}.
Arguments and_a {_ _}. Arguments and_b {_ _}. Arguments or_a {_ _}. Arguments or_b {_ _}.
Arguments inner {_}. Arguments fn {_}.

#[export] Instance AndSpec_spec {A B T} `{Specification A T} `{Specification B T} : Specification (AndSpec A B) T :=
  λ s t, is_satisfied_by (and_a s) t && is_satisfied_by (and_b s) t.
#[export] Instance OrSpec_spec {A B T} `{Specification A T} `{Specification B T} : Specification (OrSpec A B) T :=
  λ s t, is_satisfied_by (or_a s) t || is_satisfied_by (or_b s) t.
#[export] Instance NotSpec_spec {S T} `{Specification S T} : Specification (NotSpec S) T :=
  λ s t, negb (is_satisfied_by (inner s) t).
#[export] Instance FnSpec_spec {T} : Specification (FnSpec T) T := λ s t, fn s t.

(** Filtering by a combination is filtering by its parts. *)
Lemma filter_combined {A B T} `{Specification A T} `{Specification B T} (a : A) (b : B) (l : list T) :
  filter (λ t, is_satisfied_by (mkAnd a b) t = true) l =
    filter (λ t, is_satisfied_by b t = true) (filter (λ t, is_satisfied_by a t = true) l) ∧
  filter (λ t, is_satisfied_by (mkNot (mkOr a b)) t = true) l =
    filter (λ t, is_satisfied_by (mkAnd (mkNot a) (mkNot b)) t = true) l.
Proof.
  split.
  - rewrite list_filter_filter. apply list_filter_iff. intros t. unfold is_satisfied_by at 1, AndSpec_spec. cbn.
    rewrite andb_true_iff. tauto.
  - apply list_filter_iff. intros t.
    change (negb (is_satisfied_by a t || is_satisfied_by b t) = true ↔
      negb (is_satisfied_by a t) && negb (is_satisfied_by b t) = true). by rewrite negb_orb.
Qed.
End Specifications.
