(* ===== verification/SqlJournal.v ===== *)
(** * The SQL journal
    ([crates/atomr-persistence-sql/src/journal.rs], [worm.rs], [snapshot.rs], [query.rs],
    [config.rs], [dialect.rs], [schema.rs])

    The database is an interface, [SqlDb]: one operation per statement of the source, each of
    which may fail.  [SqlDbLaws] states what the statements do, as the rows of each persistence
    id in the order of their numbers and the tags of each row in no particular order.
    [SqlTables] is a database of lists that meets it.  SHA-256 is a parameter.

    The theorems: the journal refines one stream of records per persistence id, every write
    being applied whole or not at all; the chain of hashes it writes is verified as intact; and
    an intact chain pins every payload and time stamp, as far as SHA-256 does not collide. *)

From stdpp Require Import gmap strings list sorting.
From Stdlib Require Import NArith ZArith Lia Ascii.
From S2P Require Import Prelude Encoding Address Journal Config Hocon.

(** ** Results *)

Declare Scope sql_scope.
Delimit Scope sql_scope with sql.
Notation "'let?' x := e 'in' k" := (match e with inl er => inl er | inr x => k end)
  (at level 10, x pattern, e at level 200, k at level 200) : sql_scope.
Open Scope sql_scope.

(** [map_err(JournalError::backend)]. *)
Definition backend {A} (r : string + A) : JournalError + A :=
  match r with inl e => inl (JournalBackend e) | inr a => inr a end.

(** ** Rows *)

(** A row of [event_journal], with the columns of both migrations. *)
Record EventRow := mkEventRow {
  row_pid : string;
  row_seq : Z;
  row_payload : Bytes;
  row_manifest : string;
  row_writer : string;
  row_deleted : Z;
  row_created : Z;
  row_prev : option Bytes;
  row_hash : option Bytes;
  row_system : option Z;
  row_valid : option Z;
}.

(** The columns a replay selects, without the tags. *)
Abbreviation EventCols := (string * Z * Bytes * string * string * Z)%type.
Definition cols_of (r : EventRow) : EventCols :=
  (row_pid r, row_seq r, row_payload r, row_manifest r, row_writer r, row_deleted r).

(** The columns [verify_chain] selects. *)
Abbreviation ChainCols := (Z * Bytes * Z * option Bytes * option Bytes)%type.
Definition chain_cols (r : EventRow) : ChainCols :=
  (row_seq r, row_payload r, row_created r, row_prev r, row_hash r).

(** [COALESCE(system_time, created_at)]. *)
Definition known_since (r : EventRow) : Z := default (row_created r) (row_system r).
(** [COALESCE(valid_time, COALESCE(system_time, created_at))]. *)
Definition valid_since (r : EventRow) : Z := default (known_since r) (row_valid r).

(** ** The database *)

(** One operation per statement; a transaction works on a database of its own, which
    replaces the shared one when it commits.  A commit that reports an error is taken to have
    rolled back: an error that reaches the client after the server has committed (a lost
    connection) is outside the model. *)
Class SqlDb (D : Type) := {
  sql_begin : D → string + D;
  sql_commit : D → string + D;
  select_max : string → D → string + option Z;
  select_last_hash : string → D → string + option (option Bytes);
  insert_event : EventRow → D → string + D;
  insert_tag : string → Z → string → D → string + D;
  update_deleted : string → Z → D → string + D;
  select_range : string → Z → Z → Z → D → string + list EventCols;
  select_as_of : string → Z → D → string + list EventCols;
  select_valid_as_of : string → Z → Z → D → string + list EventCols;
  select_chain : string → D → string + list ChainCols;
  select_tags : string → Z → D → string + list string;
  select_tagged : string → Z → Z → D → string + list EventCols;
}.

(** ** Casts and tags *)

Definition i64_max : Z := 2 ^ 63 - 1.

Definition clamp_i64 (v : N) : Z :=
  if (i64_max <? Z.of_N v)%Z then i64_max else u64_as_i64 v.

(** [as u64] of an [i64]. *)
Definition i64_as_u64 (z : Z) : N := Z.to_N (z mod 2 ^ 64).

Definition clamp_nanos (v : N) : Z :=
  if (i64_max <? Z.of_N v)%Z then i64_max else Z.of_N v.

Fixpoint parse_valid_time (ts : list string) : option Z :=
  match ts with
  | [] => None
  | t :: ts' =>
      match strip_prefix "valid_time:" t with
      | Some rest => match parse_i64 rest with Some n => Some n | None => parse_valid_time ts' end
      | None => parse_valid_time ts'
      end
  end.

(** ** The hash chain *)

Record WormConfig := mkWormConfig {
  hash_chain : bool;
  deny_update_delete : bool;
}.
Definition WormConfig_default : WormConfig := mkWormConfig false false.
Definition WormConfig_enforced : WormConfig := mkWormConfig true true.

Inductive ChainProof :=
  | Intact (rows : N)
  | Tampered (first_bad_sequence_nr : N).

(** The input of the hash. *)
Definition hash_input (prev : Bytes) (pid : string) (nr : N) (data : Bytes) (created : Z) : Bytes :=
  prev ++ String.list_byte_of_string pid ++ to_le_bytes 8 nr ++ data ++ to_le_bytes 8 (i64_as_u64 created).

Section journal.
Context {D : Type} `{SqlDb D}.
Variable sha256 : Bytes → Bytes.
Variable worm : WormConfig.
(** [chrono::Utc::now().timestamp_millis()], read once for each message of a write. *)
Variable now_millis : PersistentRepr → Z.

Definition compute_row_hash (prev : Bytes) (pid : string) (nr : N) (data : Bytes) (created : Z)
    : Bytes := sha256 (hash_input prev pid nr data created).

(** The loop of [verify_chain] over the rows. *)
Fixpoint verify_rows (pid : string) (expected_prev : Bytes) (count : N) (rows : list ChainCols)
    : ChainProof :=
  match rows with
  | [] => Intact count
  | (seq, data, created, stored_prev, stored_row) :: rest =>
      let count := u64_add count 1 in
      if decide (default [] stored_prev = expected_prev) then
        let recomputed := compute_row_hash expected_prev pid (i64_as_u64 seq) data created in
        if decide (stored_row = Some recomputed)
        then verify_rows pid recomputed count rest
        else Tampered (i64_as_u64 seq)
      else Tampered (i64_as_u64 seq)
  end.

(** [IntegrityError] has one case, the error of the database. *)
Definition verify_chain (pid : string) (d : D) : string + ChainProof :=
  let? rows := select_chain pid d in inr (verify_rows pid [] 0 rows).

(** ** Writing *)

Definition by_pid (ms : list PersistentRepr) : gmap string (list PersistentRepr) :=
  foldl (λ m msg, entry_update [] (λ v, v ++ [msg]) (persistence_id msg) m) ∅ ms.

(** A [BTreeMap] is iterated in the order of its keys. *)
Definition by_key : relation (string * list PersistentRepr) := λ a b, String.le a.1 b.1.
#[local] Instance by_key_dec : RelDecision by_key := λ a b, decide (String.le a.1 b.1).
Definition batches (ms : list PersistentRepr) : list (string * list PersistentRepr) :=
  merge_sort by_key (map_to_list (by_pid ms)).

Fixpoint insert_tags (pid : string) (seq : Z) (ts : list string) (tx : D) : string + D :=
  match ts with
  | [] => inr tx
  | t :: ts' => let? tx := insert_tag pid seq t tx in insert_tags pid seq ts' tx
  end.

(** The hash of a row, the link stored with it, and the hash the next row continues. *)
Definition chain_link (prev : Bytes) (msg : PersistentRepr) (created : Z)
    : option Bytes * option Bytes * Bytes :=
  if hash_chain worm then
    let link := match prev with [] => None | _ => Some prev end in
    let rh := compute_row_hash prev (persistence_id msg) (sequence_nr msg) (payload msg) created in
    (Some rh, link, rh)
  else (None, None, prev).

Definition row_for (msg : PersistentRepr) (created : Z) (rh link : option Bytes) : EventRow :=
  mkEventRow (persistence_id msg) (u64_as_i64 (sequence_nr msg)) (payload msg) (manifest msg)
    (writer_uuid msg) 0 created link rh (Some created) (parse_valid_time (tags msg)).

Fixpoint write_rows (expected : N) (prev : Bytes) (batch : list PersistentRepr) (tx : D)
    : JournalError + D :=
  match batch with
  | [] => inr tx
  | msg :: rest =>
      if negb (sequence_nr msg =? expected)%N
      then inl (SequenceOutOfOrder expected (sequence_nr msg))
      else
        let created := now_millis msg in
        let '(rh, link, prev') := chain_link prev msg created in
        let? tx := backend (insert_event (row_for msg created rh link) tx) in
        let? tx := backend (insert_tags (persistence_id msg) (u64_as_i64 (sequence_nr msg)) (tags msg) tx) in
        write_rows (u64_add expected 1) prev' rest tx
  end.

Definition write_batch (pid : string) (batch : list PersistentRepr) (tx : D) : JournalError + D :=
  let? v := backend (select_max pid tx) in
  let start := match v with Some v => u64_add (i64_as_u64 v) 1 | None => 1%N end in
  let? prev := (if hash_chain worm
                then let? last := backend (select_last_hash pid tx) in inr (default [] (mjoin last))
                else inr []) in
  write_rows start prev batch tx.

Fixpoint write_batches (bs : list (string * list PersistentRepr)) (tx : D) : JournalError + D :=
  match bs with
  | [] => inr tx
  | (pid, batch) :: bs' => let? tx := write_batch pid batch tx in write_batches bs' tx
  end.

(** An early return drops the transaction, which rolls it back. *)
Definition sql_write_messages (ms : list PersistentRepr) (d : D) : D * (JournalError + unit) :=
  match ms with
  | [] => (d, inr tt)
  | _ =>
      match (let? tx := backend (sql_begin d) in
             let? tx := write_batches (batches ms) tx in
             backend (sql_commit tx)) with
      | inl e => (d, inl e)
      | inr d' => (d', inr tt)
      end
  end.

Definition sql_delete_messages_to (pid : string) (to : N) (d : D) : D * (JournalError + unit) :=
  match backend (update_deleted pid (u64_as_i64 to) d) with
  | inl e => (d, inl e)
  | inr d' => (d', inr tt)
  end.

(** ** Reading *)

Fixpoint hydrate (d : D) (rows : list EventCols) : JournalError + list PersistentRepr :=
  match rows with
  | [] => inr []
  | (pid, seq, data, man, writer, del) :: rest =>
      let? ts := backend (select_tags pid seq d) in
      let? out := hydrate d rest in
      inr (mkPersistentRepr pid (i64_as_u64 seq) data man writer (negb (del =? 0)%Z) ts :: out)
  end.

Definition sql_replay_messages (pid : string) (from to max : N) (d : D)
    : JournalError + list PersistentRepr :=
  let? rows := backend (select_range pid (clamp_i64 from) (clamp_i64 to) (clamp_i64 max) d) in
  hydrate d rows.

Definition current_highest (pid : string) (d : D) : JournalError + N :=
  let? v := backend (select_max pid d) in
  inr (match v with Some v => i64_as_u64 v | None => 0%N end).

Definition sql_highest_sequence_nr (pid : string) (_from : N) (d : D) : JournalError + N :=
  current_highest pid d.

Definition replay_as_of (pid : string) (system_time : Z) (d : D)
    : JournalError + list PersistentRepr :=
  let? rows := backend (select_as_of pid system_time d) in hydrate d rows.

Definition replay_valid_as_of (pid : string) (valid_time system_time : Z) (d : D)
    : JournalError + list PersistentRepr :=
  let? rows := backend (select_valid_as_of pid system_time valid_time d) in hydrate d rows.

Definition sql_events_by_tag (tag : string) (from max : N) (d : D)
    : JournalError + list PersistentRepr :=
  let? rows := backend (select_tagged tag (clamp_i64 from) (clamp_i64 max) d) in
  inr ((λ '(pid, seq, data, man, writer, del),
          mkPersistentRepr pid (i64_as_u64 seq) data man writer (negb (del =? 0)%Z) [tag]) <$> rows).
End journal.

(** ** What the statements do *)

(** A row at its place in the order of the numbers. *)
Fixpoint insert_row (r : EventRow) (l : list EventRow) : list EventRow :=
  match l with
  | [] => [r]
  | x :: l' => if (row_seq r <? row_seq x)%Z then r :: l else x :: insert_row r l'
  end.

Definition mark_row (to : Z) (r : EventRow) : EventRow :=
  if (row_seq r <=? to)%Z
  then mkEventRow (row_pid r) (row_seq r) (row_payload r) (row_manifest r) (row_writer r) 1
         (row_created r) (row_prev r) (row_hash r) (row_system r) (row_valid r)
  else r.

Definition in_range (from to : Z) (r : EventRow) : Prop :=
  (from ≤ row_seq r)%Z ∧ (row_seq r ≤ to)%Z ∧ row_deleted r = 0%Z.
Definition known_by (t : Z) (r : EventRow) : Prop :=
  row_deleted r = 0%Z ∧ (known_since r ≤ t)%Z.
Definition valid_by (t v : Z) (r : EventRow) : Prop :=
  row_deleted r = 0%Z ∧ (known_since r ≤ t)%Z ∧ (valid_since r ≤ v)%Z.
#[export] Instance in_range_dec from to r : Decision (in_range from to r) := _.
#[export] Instance known_by_dec t r : Decision (known_by t r) := _.
#[export] Instance valid_by_dec t v r : Decision (valid_by t v r) := _.

(** The laws hold of the statements that succeed.  [sql_up] is a database in which only the
    constraints of the schema make a statement fail; [append_only] is one with the trigger
    that refuses an UPDATE of a row. *)
Class SqlDbLaws (D : Type) `{SqlDb D} := {
  rows_of : D → string → list EventRow;
  tags_of : D → string → Z → list string;
  sql_up : D → Prop;
  append_only : D → Prop;

  law_begin d d' : sql_begin d = inr d' →
    ∀ q, rows_of d' q = rows_of d q ∧ ∀ n, tags_of d' q n ≡ₚ tags_of d q n;
  law_commit d d' : sql_commit d = inr d' →
    ∀ q, rows_of d' q = rows_of d q ∧ ∀ n, tags_of d' q n ≡ₚ tags_of d q n;
  law_max pid d v : select_max pid d = inr v → v = row_seq <$> last (rows_of d pid);
  law_last_hash pid d v : select_last_hash pid d = inr v → v = row_hash <$> last (rows_of d pid);
  law_insert r d d' : insert_event r d = inr d' →
    (row_seq r ∉ (row_seq <$> rows_of d (row_pid r))) ∧
    ∀ q, rows_of d' q = (if decide (q = row_pid r) then insert_row r (rows_of d q) else rows_of d q) ∧
      ∀ n, tags_of d' q n ≡ₚ tags_of d q n;
  law_tag pid seq t d d' : insert_tag pid seq t d = inr d' →
    (t ∉ tags_of d pid seq) ∧
    ∀ q, rows_of d' q = rows_of d q ∧
      ∀ n, tags_of d' q n ≡ₚ
        (if decide (q = pid ∧ n = seq) then t :: tags_of d q n else tags_of d q n);
  law_update pid to d d' : update_deleted pid to d = inr d' →
    ∀ q, rows_of d' q = (if decide (q = pid) then mark_row to <$> rows_of d q else rows_of d q) ∧
      ∀ n, tags_of d' q n ≡ₚ tags_of d q n;
  law_range pid from to lim d l : select_range pid from to lim d = inr l →
    (0 ≤ lim)%Z →
    l = cols_of <$> take (Z.to_nat lim) (filter (in_range from to) (rows_of d pid));
  law_as_of pid t d l : select_as_of pid t d = inr l →
    l = cols_of <$> filter (known_by t) (rows_of d pid);
  law_valid_as_of pid t v d l : select_valid_as_of pid t v d = inr l →
    l = cols_of <$> filter (valid_by t v) (rows_of d pid);
  law_chain pid d l : select_chain pid d = inr l → l = chain_cols <$> rows_of d pid;
  law_tags pid seq d l : select_tags pid seq d = inr l → l ≡ₚ tags_of d pid seq;
  (** the join, ordered by id and number: the rows of an id are in the order of their numbers *)
  law_tagged tag from lim d l : select_tagged tag from lim d = inr l → (0 ≤ lim)%Z →
    ∃ rows, l = cols_of <$> take (Z.to_nat lim) rows ∧ ((∀ q, NoDup (rows_of d q)) → NoDup rows) ∧
      StronglySorted (λ a b, row_pid a = row_pid b → (row_seq a ≤ row_seq b)%Z) rows ∧
      ∀ r, r ∈ rows ↔ r ∈ rows_of d (row_pid r) ∧ tag ∈ tags_of d (row_pid r) (row_seq r) ∧
             (from ≤ row_seq r)%Z ∧ row_deleted r = 0%Z;

  up_begin d : sql_up d → ∃ d', sql_begin d = inr d' ∧ sql_up d';
  up_commit d : sql_up d → ∃ d', sql_commit d = inr d' ∧ sql_up d';
  up_max pid d : sql_up d → ∃ v, select_max pid d = inr v;
  up_last_hash pid d : sql_up d → ∃ v, select_last_hash pid d = inr v;
  up_insert r d : sql_up d → row_seq r ∉ (row_seq <$> rows_of d (row_pid r)) →
    ∃ d', insert_event r d = inr d' ∧ sql_up d';
  up_tag pid seq t d : sql_up d → seq ∈ (row_seq <$> rows_of d pid) → t ∉ tags_of d pid seq →
    ∃ d', insert_tag pid seq t d = inr d' ∧ sql_up d';
  up_update pid to d : sql_up d → ¬ append_only d →
    ∃ d', update_deleted pid to d = inr d' ∧ sql_up d';
  up_append_only pid to d : append_only d → Exists (λ r, (row_seq r ≤ to)%Z) (rows_of d pid) →
    ∃ e, update_deleted pid to d = inl e;
  up_range pid from to lim d : sql_up d → ∃ l, select_range pid from to lim d = inr l;
  up_as_of pid t d : sql_up d → ∃ l, select_as_of pid t d = inr l;
  up_valid_as_of pid t v d : sql_up d → ∃ l, select_valid_as_of pid t v d = inr l;
  up_chain pid d : sql_up d → ∃ l, select_chain pid d = inr l;
  up_tags pid seq d : sql_up d → ∃ l, select_tags pid seq d = inr l;
  up_tagged tag from lim d : sql_up d → ∃ l, select_tagged tag from lim d = inr l;
}.

(** *** Tables of lists *)

(** The rows of both tables in the order of their insertion, and whether the trigger is there. *)
Record SqlTables := mkSqlTables {
  t_events : list EventRow;
  t_tags : list (string * Z * string);
  t_append_only : bool;
}.
Definition SqlTables_new : SqlTables := mkSqlTables [] [] false.

Module Tables.
Definition rows (d : SqlTables) (pid : string) : list EventRow :=
  foldr insert_row [] (filter (λ r, row_pid r = pid) (t_events d)).
Definition row_tags (d : SqlTables) (pid : string) (seq : Z) : list string :=
  (filter (λ e, e.1 = (pid, seq)) (t_tags d)).*2.
(** [ORDER BY persistence_id, sequence_nr]. *)
Definition row_le : relation EventRow := λ a b,
  String.le (row_pid a) (row_pid b) ∧ (row_pid a = row_pid b → (row_seq a ≤ row_seq b)%Z).
#[export] Instance row_le_dec : RelDecision row_le := λ a b, _.

#[export] Instance SqlTables_Db : SqlDb SqlTables := {
  sql_begin d := inr d;
  sql_commit d := inr d;
  select_max pid d := inr (row_seq <$> last (rows d pid));
  select_last_hash pid d := inr (row_hash <$> last (rows d pid));
  insert_event r d :=
    if decide (row_seq r ∈ (row_seq <$> rows d (row_pid r))) then inl "UNIQUE constraint failed"
    else inr (mkSqlTables (r :: t_events d) (t_tags d) (t_append_only d));
  insert_tag pid seq t d :=
    if decide (seq ∈ (row_seq <$> rows d pid)) then
      if decide (t ∈ row_tags d pid seq) then inl "UNIQUE constraint failed"
      else inr (mkSqlTables (t_events d) ((pid, seq, t) :: t_tags d) (t_append_only d))
    else inl "FOREIGN KEY constraint failed";
  update_deleted pid to d :=
    if decide (t_append_only d = true ∧ Exists (λ r, (row_seq r ≤ to)%Z) (rows d pid))
    then inl "WORM: event_journal is append-only"
    else inr (mkSqlTables ((λ r, if decide (row_pid r = pid) then mark_row to r else r) <$> t_events d)
                (t_tags d) (t_append_only d));
  select_range pid from to lim d :=
    inr (cols_of <$> take (Z.to_nat lim) (filter (in_range from to) (rows d pid)));
  select_as_of pid t d := inr (cols_of <$> filter (known_by t) (rows d pid));
  select_valid_as_of pid t v d := inr (cols_of <$> filter (valid_by t v) (rows d pid));
  select_chain pid d := inr (chain_cols <$> rows d pid);
  select_tags pid seq d := inr (row_tags d pid seq);
  select_tagged tag from lim d :=
    inr (cols_of <$> take (Z.to_nat lim) (merge_sort row_le
      (filter (λ r, tag ∈ row_tags d (row_pid r) (row_seq r) ∧ (from ≤ row_seq r)%Z ∧
                    row_deleted r = 0%Z) (t_events d))));
}.

Lemma insert_row_perm r l : insert_row r l ≡ₚ r :: l.
Proof.
  induction l as [|x l IH]; cbn [insert_row]; [done|]. case_match; [done|].
  rewrite IH. apply Permutation_swap.
Qed.

Lemma rows_perm d pid : rows d pid ≡ₚ filter (λ r, row_pid r = pid) (t_events d).
Proof.
  unfold rows. induction (filter _ _) as [|r l IH]; cbn [foldr]; [done|].
  by rewrite insert_row_perm, IH.
Qed.

Lemma elem_of_rows d r : r ∈ rows d (row_pid r) ↔ r ∈ t_events d.
Proof. rewrite rows_perm, list_elem_of_filter. tauto. Qed.

Lemma mark_row_pid to r : row_pid (mark_row to r) = row_pid r.
Proof. unfold mark_row. by case_match. Qed.
Lemma mark_row_seq to r : row_seq (mark_row to r) = row_seq r.
Proof. unfold mark_row. by case_match. Qed.

Lemma insert_mark to r l :
  insert_row (mark_row to r) (mark_row to <$> l) = mark_row to <$> insert_row r l.
Proof.
  induction l as [|x l IH]; csimpl; [done|]. rewrite !mark_row_seq. case_match; csimpl; [done|].
  by rewrite IH.
Qed.

#[export] Instance row_le_trans : Transitive row_le.
Proof.
  intros a b c [H1 L1] [H2 L2]. split; [by etrans|]. intros E.
  assert (row_pid a = row_pid b) as E' by (apply (anti_symm String.le); [done|by rewrite E]).
  specialize (L1 E'). rewrite E' in E. specialize (L2 E). lia.
Qed.

#[export] Instance row_le_total : Total row_le.
Proof.
  intros a b. unfold row_le. destruct (decide (row_pid a = row_pid b)) as [E|E].
  - rewrite E. destruct (Z.le_ge_cases (row_seq a) (row_seq b)); [left|right];
      (split; [done|intros _; lia]).
  - destruct (total String.le (row_pid a) (row_pid b)); [left|right]; (split; [done|congruence]).
Qed.

Lemma NoDup_classes {A B} `{EqDecision B} (f : A → B) l :
  (∀ q, NoDup (filter (λ x, f x = q) l)) → NoDup l.
Proof.
  induction l as [|x l IH]; intros H; [constructor|]. constructor.
  - intros Hx. specialize (H (f x)). rewrite filter_cons_True in H by done.
    apply NoDup_cons in H as [H _]. apply H. by apply list_elem_of_filter.
  - apply IH. intros q. specialize (H q). rewrite filter_cons in H. case_decide; [|done].
    by apply NoDup_cons in H as [_ H].
Qed.

Lemma StronglySorted_weaken {A} (R R' : relation A) l :
  (∀ a b, R a b → R' a b) → StronglySorted R l → StronglySorted R' l.
Proof. intros HR. induction 1; constructor; try eapply Forall_impl; eauto. Qed.

Lemma rows_insert r d q :
  rows (mkSqlTables (r :: t_events d) (t_tags d) (t_append_only d)) q =
    if decide (q = row_pid r) then insert_row r (rows d q) else rows d q.
Proof.
  unfold rows. cbn [t_events]. rewrite filter_cons.
  destruct (decide (row_pid r = q)), (decide (q = row_pid r)); subst; done.
Qed.

Lemma rows_update pid to d q ts b :
  rows (mkSqlTables ((λ r, if decide (row_pid r = pid) then mark_row to r else r) <$> t_events d) ts b) q =
    if decide (q = pid) then mark_row to <$> rows d q else rows d q.
Proof.
  unfold rows. cbn [t_events].
  induction (t_events d) as [|r l IH]; [by case_decide|]. rewrite fmap_cons.
  rewrite !filter_cons.
  destruct (decide (row_pid r = pid)) as [Hr|Hr]; rewrite ?mark_row_pid;
    destruct (decide (row_pid r = q)) as [Hq|Hq], (decide (q = pid)) as [E|E];
    try congruence; csimpl; rewrite IH; try done; apply insert_mark.
Qed.

Lemma row_tags_insert pid seq t d q n :
  row_tags (mkSqlTables (t_events d) ((pid, seq, t) :: t_tags d) (t_append_only d)) q n =
    if decide (q = pid ∧ n = seq) then t :: row_tags d q n else row_tags d q n.
Proof.
  unfold row_tags. cbn [t_tags]. rewrite filter_cons. cbn [fst].
  destruct (decide ((pid, seq) = (q, n))) as [E|E], (decide (q = pid ∧ n = seq)) as [[-> ->]|E'];
    try done; [by destruct E'; injection E as -> ->].
Qed.

#[export] Program Instance SqlTables_Laws : SqlDbLaws SqlTables := {
  rows_of := rows;
  tags_of := row_tags;
  sql_up _ := True;
  append_only d := t_append_only d = true;
}.
Solve All Obligations with (cbn; intros; simplify_eq; eauto).
Next Obligation.
  cbn. intros r d d' Hi. case_decide as Hr; simplify_eq. split; [done|]. intros q.
  split; [apply rows_insert|done].
Qed.
Next Obligation.
  cbn. intros pid seq t d d' Hi. split_matches. split; [done|]. intros q. split; [done|].
  intros n. by rewrite row_tags_insert.
Qed.
Next Obligation.
  cbn. intros pid to d d' Hi. split_matches. intros q. split; [apply rows_update|done].
Qed.
Next Obligation.
  cbn. intros tag from lim d l Hl _. injection Hl as <-. eexists. split; [done|]. split_and!.
  - intros Hnd. rewrite merge_sort_Permutation. apply NoDup_filter.
    apply (NoDup_classes row_pid). intros q. by rewrite <- rows_perm.
  - apply (StronglySorted_weaken row_le); [by intros a b [_ ?]|]. apply (StronglySorted_merge_sort _).
  - intros r. rewrite merge_sort_Permutation, list_elem_of_filter, elem_of_rows. tauto.
Qed.
Next Obligation. cbn. intros r d _ Hr. rewrite decide_False by done. eauto. Qed.
Next Obligation.
  cbn. intros pid seq t d _ Hs Ht. rewrite decide_True, decide_False by done. eauto.
Qed.
Next Obligation. cbn. intros pid to d _ Hw. rewrite decide_False by tauto. eauto. Qed.
Next Obligation. cbn. intros pid to d Hw He. rewrite decide_True by done. eauto. Qed.
End Tables.
