(* ===== verification/SqlFacts.v ===== *)
(** * The SQL journal refines streams of records

    Proofs about [SqlJournal]: the abstract journal of one stream per persistence id, the
    simulation of every statement sequence by it, the intact chain, and what an intact chain
    pins.  The database is any one that meets [SqlDbLaws]; SHA-256 is any function. *)

From stdpp Require Import gmap strings list sorting.
From Stdlib Require Import NArith ZArith Lia Ascii.
From S2P Require Import Prelude Encoding Address Journal SqlJournal.
Open Scope sql_scope.

(** ** Casts *)

Lemma i64_as_u64_small z : (0 ≤ z < 2 ^ 63)%Z → i64_as_u64 z = Z.to_N z.
Proof. intros Hz. unfold i64_as_u64. rewrite Z.mod_small; [done|]. change (2 ^ 64)%Z with (2 * 2 ^ 63)%Z. lia. Qed.

Lemma u64_i64_u64 n : (n < u64_modulus)%N → i64_as_u64 (u64_as_i64 n) = n.
Proof.
  intros Hn. unfold i64_as_u64, u64_as_i64. rewrite wrap64_small by done.
  unfold u64_modulus in Hn. case_match eqn:E.
  - rewrite Z.mod_small; [lia|]. apply Z.ltb_lt in E. lia.
  - rewrite <- (Z.mod_add _ 1) by lia. rewrite Z.mod_small; lia.
Qed.

Lemma clamp_i64_spec n : clamp_i64 n = Z.min (Z.of_N n) i64_max.
Proof.
  unfold clamp_i64. case_match eqn:E.
  - apply Z.ltb_lt in E. unfold i64_max in *. lia.
  - apply Z.ltb_ge in E. unfold i64_max in *. rewrite u64_as_i64_small by lia. lia.
Qed.

(** ** The abstract journal *)

(** The records of [ms] for [q], in their order. *)
Definition batch_of (q : string) (ms : list PersistentRepr) : list PersistentRepr :=
  filter (λ m, persistence_id m = q) ms.

(** [ms] are numbered from [n + 1] on. *)
Definition numbered_after (n : nat) (ms : list PersistentRepr) : Prop :=
  ∀ i m, ms !! i = Some m → sequence_nr m = (N.of_nat (n + i) + 1)%N.

(** The flag [deleted] of a message is not stored. *)
Definition stored (m : PersistentRepr) : PersistentRepr :=
  mkPersistentRepr (persistence_id m) (sequence_nr m) (payload m) (manifest m) (writer_uuid m)
    false (tags m).

Inductive SqlOp :=
  | SqlWrite (ms : list PersistentRepr)
  | SqlDelete (pid : string) (to : N).

Abbreviation Streams := (string → list PersistentRepr).

(** A write is accepted when every stream it touches continues. *)
Definition accepts (S : Streams) (ms : list PersistentRepr) : Prop :=
  ∀ q, numbered_after (length (S q)) (batch_of q ms).

Definition spec_op (op : SqlOp) (S : Streams) : Streams :=
  match op with
  | SqlWrite ms => λ q, S q ++ (stored <$> batch_of q ms)
  | SqlDelete pid to => λ q, if decide (q = pid) then mark_deleted to <$> S q else S q
  end.

(** The number of messages an operation may add to a stream. *)
Definition op_size (op : SqlOp) : nat := match op with SqlWrite ms => length ms | _ => 0 end.

(** Records that differ only in the order of their tags. *)
Definition repr_equiv (a b : PersistentRepr) : Prop :=
  persistence_id a = persistence_id b ∧ sequence_nr a = sequence_nr b ∧ payload a = payload b ∧
  manifest a = manifest b ∧ writer_uuid a = writer_uuid b ∧ deleted a = deleted b ∧
  tags a ≡ₚ tags b.

(** The numbers of a stream must fit a column of type [i64]. *)
Definition stream_limit : nat := Z.to_nat (2 ^ 63 - 2).

Lemma numbered_after_app n a b :
  numbered_after n (a ++ b) ↔ numbered_after n a ∧ numbered_after (n + length a) b.
Proof.
  split.
  - intros H. split.
    + intros i m Hi. apply H. by apply lookup_app_l_Some.
    + intros i m Hi. rewrite (H (length a + i) m); [lia|].
      rewrite lookup_app_r by lia. by rewrite Nat.add_comm, Nat.add_sub.
  - intros [Ha Hb] i m Hi. apply lookup_app_Some in Hi as [Hi|[Hl Hi]]; [by apply Ha|].
    rewrite (Hb _ _ Hi). lia.
Qed.

Lemma numbered_after_cons n m ms :
  numbered_after n (m :: ms) ↔ sequence_nr m = (N.of_nat n + 1)%N ∧ numbered_after (S n) ms.
Proof.
  change (m :: ms) with ([m] ++ ms). rewrite numbered_after_app. cbn [length].
  rewrite Nat.add_1_r. split; intros [H1 H2]; (split; [|done]).
  - rewrite (H1 0 m); [|done]. lia.
  - intros [|i] m' E; [|done]. simplify_eq/=. lia.
Qed.

Lemma numbered_after_fmap n f ms :
  (∀ m, sequence_nr (f m) = sequence_nr m) → numbered_after n ms → numbered_after n (f <$> ms).
Proof. intros Hf H i m Hi. apply list_lookup_fmap_Some in Hi as (x & -> & Hi). rewrite Hf. by apply H. Qed.

(** ** The simulation relation *)

Section refinement.
Context {D : Type} `{SqlDbLaws D}.
Variable sha256 : Bytes → Bytes.
Variable worm : WormConfig.
Variable now_millis : PersistentRepr → Z.
Implicit Types d tx : D.

Abbreviation write_rows := (write_rows sha256 worm now_millis).
Abbreviation write_batch := (write_batch sha256 worm now_millis).
Abbreviation write_batches := (write_batches sha256 worm now_millis).
Abbreviation sql_write_messages := (sql_write_messages sha256 worm now_millis).

Definition same_at (q : string) (d d' : D) : Prop :=
  rows_of d' q = rows_of d q ∧ ∀ n, tags_of d' q n ≡ₚ tags_of d q n.

Record row_repr (d : D) (row : EventRow) (r : PersistentRepr) : Prop := {
  rr_pid : row_pid row = persistence_id r;
  rr_seq : row_seq row = Z.of_N (sequence_nr r);
  rr_payload : row_payload row = payload r;
  rr_manifest : row_manifest row = manifest r;
  rr_writer : row_writer row = writer_uuid r;
  rr_deleted : row_deleted row = (if deleted r then 1 else 0)%Z;
  rr_tags : tags_of d (row_pid row) (row_seq row) ≡ₚ tags r;
}.

Record stream_rel (d : D) (q : string) (l : list PersistentRepr) : Prop := {
  sr_rows : Forall2 (row_repr d) (rows_of d q) l;
  sr_pid : Forall (λ r, persistence_id r = q) l;
  sr_nr : numbered_after 0 l;
  sr_tags : ∀ n, (Z.of_nat (length l) < n)%Z → tags_of d q n = [];
}.

Lemma stream_rel_same d d' q l : same_at q d d' → stream_rel d q l → stream_rel d' q l.
Proof.
  intros [Hrows Htags] [Hr Hp Hn Ht]. split; [|done..|].
  - rewrite Hrows. apply Forall2_same_length_lookup. split; [by eapply Forall2_length|].
    intros i row r Hi Hl. pose proof (Forall2_lookup_lr _ _ _ _ _ _ Hr Hi Hl) as [].
    pose proof (Forall_lookup_1 _ _ _ _ Hp Hl) as Hq. cbn in Hq.
    split; [done..|]. rewrite <- rr_tags0. rewrite rr_pid0, Hq. apply Htags.
  - intros n Hl. apply Permutation_nil. by rewrite Htags, Ht.
Qed.

Lemma same_at_refl q d : same_at q d d.
Proof. by split. Qed.
Lemma same_at_trans q d1 d2 d3 : same_at q d1 d2 → same_at q d2 d3 → same_at q d1 d3.
Proof. intros [H1 T1] [H2 T2]. split; [congruence|]. intros n. by rewrite T2. Qed.

Lemma stream_rel_length d q l : stream_rel d q l → length (rows_of d q) = length l.
Proof. intros Hr. by eapply Forall2_length, sr_rows. Qed.

Lemma stream_row_seq d q l i row :
  stream_rel d q l → rows_of d q !! i = Some row → row_seq row = (Z.of_nat i + 1)%Z.
Proof.
  intros Hr Hi. destruct (Forall2_lookup_l _ _ _ _ _ (sr_rows _ _ _ Hr) Hi) as (r & Hl & Hrr).
  rewrite (rr_seq _ _ _ Hrr), (sr_nr _ _ _ Hr _ _ Hl). lia.
Qed.

Lemma stream_rel_last d q l :
  stream_rel d q l → (row_seq <$> last (rows_of d q)) = match length l with O => None | S n => Some (Z.of_nat (S n)) end.
Proof.
  intros Hr. rewrite last_lookup, (stream_rel_length _ _ _ Hr).
  destruct (length l) as [|n] eqn:E; [cbn; destruct (rows_of d q) eqn:E'; [done|]|].
  - pose proof (stream_rel_length _ _ _ Hr). rewrite E', E in *. done.
  - cbn [pred]. destruct (lookup_lt_is_Some_2 (rows_of d q) n) as [row Hrow].
    { rewrite (stream_rel_length _ _ _ Hr). lia. }
    rewrite Hrow. cbn. f_equal. rewrite (stream_row_seq _ _ _ _ _ Hr Hrow). lia.
Qed.

(** *** The chain *)

(** The rows continue the chain that ends in the hash [prev]. *)
Fixpoint chain_ok (pid : string) (prev : Bytes) (rows : list EventRow) : Prop :=
  match rows with
  | [] => True
  | r :: rs =>
      let h := compute_row_hash sha256 prev pid (i64_as_u64 (row_seq r)) (row_payload r) (row_created r) in
      default [] (row_prev r) = prev ∧ row_hash r = Some h ∧ chain_ok pid h rs
  end.

Definition chain_last (prev : Bytes) (rows : list EventRow) : Bytes :=
  match last rows with Some r => default [] (row_hash r) | None => prev end.

Lemma chain_ok_app pid prev a b :
  chain_ok pid prev (a ++ b) ↔ chain_ok pid prev a ∧ chain_ok pid (chain_last prev a) b.
Proof.
  revert prev; induction a as [|r a IH]; intros prev; cbn [app chain_ok]; [tauto|].
  rewrite IH. unfold chain_last. rewrite last_cons.
  destruct (last a) eqn:E; [tauto|]. split.
  - intros (? & Hh & ? & ?). rewrite Hh. tauto.
  - intros [(? & Hh & ?) ?]. rewrite Hh in *. tauto.
Qed.

Lemma chain_ok_mark pid to prev rows :
  chain_ok pid prev (mark_row to <$> rows) ↔ chain_ok pid prev rows.
Proof.
  revert prev; induction rows as [|r rows IH]; intros prev; [done|].
  rewrite fmap_cons. cbn [chain_ok]. rewrite IH. unfold mark_row. by case_match.
Qed.

Lemma verify_rows_intact pid prev n rows :
  chain_ok pid prev rows → (n + N.of_nat (length rows) < u64_modulus)%N →
  verify_rows sha256 pid prev n (chain_cols <$> rows) = Intact (n + N.of_nat (length rows)).
Proof.
  revert prev n; induction rows as [|r rows IH]; intros prev n Hc Hn; cbn [fmap list_fmap verify_rows length].
  { f_equal. cbn. lia. }
  cbn [chain_ok length] in *. destruct Hc as (Hp & Hh & Hc).
  change (chain_cols r) with (row_seq r, row_payload r, row_created r, row_prev r, row_hash r).
  cbn beta iota. rewrite decide_True by done. rewrite decide_True by done.
  rewrite u64_add_small by lia. fold (chain_cols <$> rows). rewrite IH by (done || lia).
  f_equal. lia.
Qed.

(** *** One message *)

Lemma insert_row_last r l : Forall (λ x, row_seq x < row_seq r)%Z l → insert_row r l = l ++ [r].
Proof.
  induction 1 as [|x l Hx Hl IH]; cbn [insert_row app]; [done|].
  rewrite (proj2 (Z.ltb_ge _ _)) by lia. by rewrite IH.
Qed.

Lemma insert_tags_fresh t ts pid seq tx tx' :
  insert_tags pid seq ts tx = inr tx' → t ∈ tags_of tx pid seq → t ∉ ts.
Proof.
  revert tx; induction ts as [|t' ts IH]; intros tx Hu Ht; [by apply not_elem_of_nil|].
  cbn [insert_tags] in Hu. destruct (insert_tag pid seq t' tx) as [|u1] eqn:Eu; [done|].
  destruct (law_tag _ _ _ _ _ Eu) as [Hnt Hall]. destruct (Hall pid) as [_ Hp]. specialize (Hp seq).
  rewrite decide_True in Hp by done. rewrite not_elem_of_cons. split; [congruence|].
  eapply IH; [exact Hu|]. rewrite Hp. by right.
Qed.

Lemma insert_tags_ok ts pid seq tx tx' :
  insert_tags pid seq ts tx = inr tx' →
  NoDup ts ∧ ∀ q, rows_of tx' q = rows_of tx q ∧
    ∀ n, tags_of tx' q n ≡ₚ (if decide (q = pid ∧ n = seq) then ts ++ tags_of tx q n else tags_of tx q n).
Proof.
  revert tx; induction ts as [|t ts IH]; intros tx; cbn [insert_tags].
  { intros E. simplify_eq. split; [constructor|]. intros q. split; [done|]. intros n. by case_decide. }
  destruct (insert_tag pid seq t tx) as [|tx1] eqn:E1; [done|]. intros E2.
  destruct (law_tag _ _ _ _ _ E1) as [Hn H1]. destruct (IH _ E2) as [Hnd H2].
  destruct (H1 pid) as [_ Ht1]. specialize (Ht1 seq). rewrite decide_True in Ht1 by done.
  split.
  - constructor; [|done]. intros Hin.
    refine (insert_tags_fresh _ _ _ _ _ _ E2 _ Hin). rewrite Ht1. by left.
  - intros q. destruct (H1 q) as [Hr Ht], (H2 q) as [Hr' Ht']. split; [congruence|].
    intros n. specialize (Ht n). specialize (Ht' n). case_decide; rewrite Ht', Ht; [|done].
    cbn. symmetry. apply Permutation_middle.
Qed.

Lemma insert_tags_up ts pid seq tx :
  sql_up tx → seq ∈ (row_seq <$> rows_of tx pid) → NoDup ts →
  (∀ t, t ∈ ts → t ∉ tags_of tx pid seq) →
  ∃ tx', insert_tags pid seq ts tx = inr tx' ∧ sql_up tx'.
Proof.
  intros Hup Hin Hnd; revert tx Hup Hin; induction Hnd as [|t ts Ht Hnd IH]; intros tx Hup Hin Hf;
    cbn [insert_tags]; [by eauto|].
  destruct (up_tag pid seq t tx) as (tx1 & E1 & Hup1); [done..|by apply Hf; left|]. rewrite E1.
  destruct (law_tag _ _ _ _ _ E1) as [_ H1]. destruct (H1 pid) as [Hr Htag]. apply IH; [done| |].
  - by rewrite Hr.
  - intros t' Ht'. rewrite Htag, decide_True by done. rewrite not_elem_of_cons.
    split; [congruence|]. apply Hf. by right.
Qed.

Lemma message_ok m c rh link q l tx tx1 tx2 :
  stream_rel tx q l → length l < stream_limit → persistence_id m = q →
  sequence_nr m = (N.of_nat (length l) + 1)%N →
  insert_event (row_for m c rh link) tx = inr tx1 →
  insert_tags (persistence_id m) (u64_as_i64 (sequence_nr m)) (tags m) tx1 = inr tx2 →
  NoDup (tags m) ∧ stream_rel tx2 q (l ++ [stored m]) ∧
  rows_of tx2 q = rows_of tx q ++ [row_for m c rh link] ∧ ∀ q', q' ≠ q → same_at q' tx tx2.
Proof.
  intros Hr Hlim Hpid Hnr Hi Ht.
  assert (u64_as_i64 (sequence_nr m) = (Z.of_nat (length l) + 1)%Z) as Hseq.
  { rewrite u64_as_i64_small; unfold stream_limit in Hlim; lia. }
  destruct (law_insert _ _ _ Hi) as [_ H1]. cbn [row_pid row_for] in H1.
  destruct (insert_tags_ok _ _ _ _ _ Ht) as [Hnd H2].
  assert (rows_of tx2 q = rows_of tx q ++ [row_for m c rh link]) as Hrows.
  { destruct (H2 q) as [-> _], (H1 q) as [-> _]. rewrite decide_True by done. apply insert_row_last.
    apply Forall_lookup. intros i row Hrow. rewrite (stream_row_seq _ _ _ _ _ Hr Hrow).
    apply lookup_lt_Some in Hrow. rewrite (stream_rel_length _ _ _ Hr) in Hrow.
    cbn [row_seq row_for]. lia. }
  split_and!; [done| |done|].
  2:{ intros q' Hq'. destruct (H2 q') as [R2 T2], (H1 q') as [R1 T1]. split.
      - rewrite R2, R1. rewrite decide_False by congruence. done.
      - intros n. specialize (T2 n). rewrite decide_False in T2 by (intros [??]; congruence).
        by rewrite T2, T1. }
  assert (∀ n, tags_of tx2 q n ≡ₚ (if decide (n = (Z.of_nat (length l) + 1)%Z) then tags m ++ tags_of tx q n
      else tags_of tx q n)) as Htags.
  { intros n. destruct (H2 q) as [_ T2], (H1 q) as [_ T1]. specialize (T2 n). rewrite Hseq in T2.
    destruct (decide (n = (Z.of_nat (length l) + 1)%Z)).
    - rewrite decide_True in T2 by done. by rewrite T2, T1.
    - rewrite decide_False in T2 by tauto. by rewrite T2, T1. }
  split.
  - rewrite Hrows. apply Forall2_app.
    + apply Forall2_same_length_lookup. split; [by eapply stream_rel_length|].
      intros i row r Hrow Hlk.
      destruct (Forall2_lookup_lr _ _ _ _ _ _ (sr_rows _ _ _ Hr) Hrow Hlk) as [].
      split; [done..|]. rewrite <- rr_tags0.
      pose proof (Forall_lookup_1 _ _ _ _ (sr_pid _ _ _ Hr) Hlk) as Hq. cbn in Hq.
      rewrite rr_pid0, Hq, Htags. apply lookup_lt_Some in Hlk.
      rewrite decide_False; [done|]. rewrite (stream_row_seq _ _ _ _ _ Hr Hrow). lia.
    + constructor; [|constructor]. split; try done; cbn [row_for row_pid row_seq stored sequence_nr tags].
      * rewrite Hseq. lia.
      * rewrite Hpid, Hseq, Htags, decide_True by done. rewrite (sr_tags _ _ _ Hr) by lia. by rewrite app_nil_r.
  - apply Forall_app. split; [apply Hr|]. by repeat constructor.
  - apply numbered_after_app. split; [apply Hr|]. cbn. intros [|i] x Hx; [|done]. simplify_eq/=. lia.
  - intros n. rewrite length_app. cbn [length]. intros Hn. apply Permutation_nil.
    rewrite Htags, decide_False by lia. by rewrite (sr_tags _ _ _ Hr) by lia.
Qed.

Lemma message_up m c rh link q l tx :
  sql_up tx → stream_rel tx q l → length l < stream_limit → persistence_id m = q →
  sequence_nr m = (N.of_nat (length l) + 1)%N → NoDup (tags m) →
  ∃ tx1 tx2, insert_event (row_for m c rh link) tx = inr tx1 ∧
    insert_tags (persistence_id m) (u64_as_i64 (sequence_nr m)) (tags m) tx1 = inr tx2 ∧ sql_up tx2.
Proof.
  intros Hup Hr Hlim Hpid Hnr Hnd.
  assert (u64_as_i64 (sequence_nr m) = (Z.of_nat (length l) + 1)%Z) as Hseq.
  { rewrite u64_as_i64_small; unfold stream_limit in Hlim; lia. }
  destruct (up_insert (row_for m c rh link) tx) as (tx1 & E1 & Hup1); [done| |].
  { cbn [row_for row_seq row_pid]. rewrite Hpid, Hseq. intros (row & E & Hrow)%list_elem_of_fmap.
    apply list_elem_of_lookup in Hrow as [i Hrow]. rewrite (stream_row_seq _ _ _ _ _ Hr Hrow) in E.
    apply lookup_lt_Some in Hrow. rewrite (stream_rel_length _ _ _ Hr) in Hrow. lia. }
  destruct (law_insert _ _ _ E1) as [_ H1]. destruct (H1 (persistence_id m)) as [R1 T1].
  destruct (insert_tags_up (tags m) (persistence_id m) (u64_as_i64 (sequence_nr m)) tx1)
    as (tx2 & E2 & Hup2); [done| |done| |by eauto].
  - rewrite R1, decide_True by done. rewrite Tables.insert_row_perm. by left.
  - intros t _. rewrite T1, Hpid, Hseq, (sr_tags _ _ _ Hr) by lia. apply not_elem_of_nil.
Qed.

(** *** A batch *)

Lemma chain_link_ok prev m c rh link prev' start :
  chain_link sha256 worm prev m c = (rh, link, prev') → hash_chain worm = true →
  (sequence_nr m < u64_modulus)%N →
  chain_ok (persistence_id m) prev [row_for m c rh link] ∧ prev' = chain_last start [row_for m c rh link].
Proof.
  unfold chain_link. intros E Hw Hm. rewrite Hw in E. injection E as <- <- <-. split; [|done].
  cbn [chain_ok row_for row_prev row_hash row_seq row_payload row_created].
  rewrite u64_i64_u64 by done. split_and!; [by destruct prev|done|done].
Qed.

Lemma chain_last_app prev a b : chain_last prev (a ++ b) = chain_last (chain_last prev a) b.
Proof. unfold chain_last. rewrite last_app. by destruct (last b). Qed.

Lemma write_rows_ok q batch expected prev l tx tx' :
  stream_rel tx q l → Forall (λ m, persistence_id m = q) batch →
  length l + length batch ≤ stream_limit → expected = (N.of_nat (length l) + 1)%N →
  write_rows expected prev batch tx = inr tx' →
  numbered_after (length l) batch ∧ Forall (λ m, NoDup (tags m)) batch ∧
  stream_rel tx' q (l ++ (stored <$> batch)) ∧
  (∃ new, rows_of tx' q = rows_of tx q ++ new ∧ (hash_chain worm = true → chain_ok q prev new)) ∧
  ∀ q', q' ≠ q → same_at q' tx tx'.
Proof.
  intros Hr Hpid; revert expected prev l tx Hr.
  induction Hpid as [|m batch Hm Hpid IH]; intros expected prev l tx Hr Hlim -> Hw;
    cbn [SqlJournal.write_rows] in Hw.
  { simplify_eq. rewrite fmap_nil, app_nil_r. split_and!; try done.
    exists []. by rewrite app_nil_r. }
  cbn [length] in Hlim. destruct (N.eqb_spec (sequence_nr m) (N.of_nat (length l) + 1)) as [Hnr|]; [|done].
  cbn [negb] in Hw. destruct (chain_link _ _ _ _ _) as [[rh link] prev'] eqn:El.
  destruct (insert_event _ tx) as [|tx1] eqn:E1; [done|]. cbn [backend] in Hw.
  destruct (insert_tags _ _ _ tx1) as [|tx2] eqn:E2; [done|]. cbn [backend] in Hw.
  destruct (message_ok _ _ _ _ q l tx tx1 tx2 Hr ltac:(lia) Hm Hnr E1 E2) as (Hnd & Hr2 & Hrows & Hoth).
  assert (N.of_nat (length l) + 1 < 2 ^ 63)%N as Hbig by (unfold stream_limit in Hlim; lia).
  destruct (IH (u64_add (N.of_nat (length l) + 1) 1) prev' _ _ Hr2) as (Hn & Hnds & Hr3 & (new & Hnew & Hch) & Hoth3).
  { rewrite length_app. cbn. lia. }
  { rewrite length_app. cbn. rewrite u64_add_small; [lia|]. unfold u64_modulus. lia. }
  { done. }
  rewrite length_app in Hn. cbn [length] in Hn. rewrite Nat.add_1_r in Hn.
  rewrite <- app_assoc in Hr3. split_and!.
  - by apply numbered_after_cons.
  - by constructor.
  - done.
  - exists (row_for m (now_millis m) rh link :: new). split.
    + rewrite Hnew, Hrows, <- app_assoc. done.
    + intros Hc. destruct (chain_link_ok _ _ _ _ _ _ [] El Hc) as [Hc1 Hp].
      { rewrite Hnr. unfold u64_modulus. lia. }
      rewrite Hm in Hc1. change (?x :: new) with ([x] ++ new). apply chain_ok_app. split; [done|].
      change (chain_ok q (chain_last [] [row_for m (now_millis m) rh link]) new). rewrite <- Hp. auto.
  - intros q' Hq'. eapply same_at_trans; eauto.
Qed.

Lemma write_rows_up q batch expected prev l tx :
  sql_up tx → stream_rel tx q l → Forall (λ m, persistence_id m = q) batch →
  length l + length batch ≤ stream_limit → expected = (N.of_nat (length l) + 1)%N →
  Forall (λ m, NoDup (tags m)) batch →
  (numbered_after (length l) batch ∧ ∃ tx', write_rows expected prev batch tx = inr tx' ∧ sql_up tx') ∨
  (¬ numbered_after (length l) batch ∧
   ∃ e g, write_rows expected prev batch tx = inl (SequenceOutOfOrder e g)).
Proof.
  intros Hup Hr Hpid; revert expected prev l tx Hup Hr.
  induction Hpid as [|m batch Hm Hpid IH]; intros expected prev l tx Hup Hr Hlim -> Hnd;
    cbn [SqlJournal.write_rows].
  { left. split; [done|]. eauto. }
  rewrite numbered_after_cons. cbn [length] in Hlim. apply Forall_cons in Hnd as [Hnd Hnds].
  destruct (N.eqb_spec (sequence_nr m) (N.of_nat (length l) + 1)) as [Hnr|Hnr].
  2:{ right. split; [tauto|]. eauto. }
  cbn [negb]. destruct (chain_link _ _ _ _ _) as [[rh link] prev'].
  destruct (message_up m (now_millis m) rh link q l tx) as (tx1 & tx2 & E1 & E2 & Hup2); [done|done|lia|done..|].
  rewrite E1. cbn [backend]. rewrite E2. cbn [backend].
  destruct (message_ok _ _ _ _ q l tx tx1 tx2 Hr ltac:(lia) Hm Hnr E1 E2) as (_ & Hr2 & _ & _).
  assert (N.of_nat (length l) + 1 < 2 ^ 63)%N as Hbig by (unfold stream_limit in Hlim; lia).
  destruct (IH (u64_add (N.of_nat (length l) + 1) 1) prev' _ _ Hup2 Hr2) as [[Hn Ho]|[Hn Ho]].
  - rewrite length_app. cbn. lia.
  - rewrite length_app. cbn. rewrite u64_add_small; [lia|]. unfold u64_modulus. lia.
  - done.
  - left. rewrite length_app, Nat.add_1_r in Hn. done.
  - right. rewrite length_app, Nat.add_1_r in Hn. tauto.
Qed.

(** The number a batch starts from, and the hash it continues. *)
Lemma start_nr q l tx v :
  stream_rel tx q l → length l < stream_limit → select_max q tx = inr v →
  match v with Some v => u64_add (i64_as_u64 v) 1 | None => 1%N end = (N.of_nat (length l) + 1)%N.
Proof.
  intros Hr Hlim ->%law_max. rewrite (stream_rel_last _ _ _ Hr).
  destruct (length l) as [|n]; [done|]. unfold stream_limit in Hlim.
  rewrite i64_as_u64_small by lia. rewrite u64_add_small; [lia|]. unfold u64_modulus. lia.
Qed.

Lemma write_batch_ok q batch l tx tx' :
  stream_rel tx q l → Forall (λ m, persistence_id m = q) batch →
  length l + length batch ≤ stream_limit → length l < stream_limit →
  write_batch q batch tx = inr tx' →
  numbered_after (length l) batch ∧ Forall (λ m, NoDup (tags m)) batch ∧
  stream_rel tx' q (l ++ (stored <$> batch)) ∧
  (hash_chain worm = true → chain_ok q [] (rows_of tx q) → chain_ok q [] (rows_of tx' q)) ∧
  ∀ q', q' ≠ q → same_at q' tx tx'.
Proof.
  intros Hr Hpid Hlim Hl Hw. unfold SqlJournal.write_batch in Hw.
  destruct (select_max q tx) as [|v] eqn:Ev; [done|]. cbn [backend] in Hw.
  rewrite (start_nr _ _ _ _ Hr Hl Ev) in Hw.
  destruct (if hash_chain worm then _ else _) as [|prev] eqn:Ep; [done|].
  destruct (write_rows_ok _ _ _ _ _ _ _ Hr Hpid Hlim eq_refl Hw) as (Hn & Hnd & Hr' & (new & Hnew & Hch) & Ho).
  split_and!; [done..| |done]. intros Hc Hold. rewrite Hnew. apply chain_ok_app. split; [done|].
  rewrite Hc in Ep. destruct (select_last_hash q tx) as [|h] eqn:Eh; [done|]. cbn [backend] in Ep.
  apply law_last_hash in Eh as ->. injection Ep as Ep. unfold chain_last.
  destruct (last (rows_of tx q)); cbn in Ep; rewrite Ep; auto.
Qed.

Lemma write_batch_up q batch l tx :
  sql_up tx → stream_rel tx q l → Forall (λ m, persistence_id m = q) batch →
  length l + length batch ≤ stream_limit → length l < stream_limit →
  Forall (λ m, NoDup (tags m)) batch →
  (numbered_after (length l) batch ∧ ∃ tx', write_batch q batch tx = inr tx' ∧ sql_up tx') ∨
  (¬ numbered_after (length l) batch ∧ ∃ e g, write_batch q batch tx = inl (SequenceOutOfOrder e g)).
Proof.
  intros Hup Hr Hpid Hlim Hl Hnd. unfold SqlJournal.write_batch.
  destruct (up_max q tx Hup) as [v Ev]. rewrite Ev. cbn [backend].
  rewrite (start_nr _ _ _ _ Hr Hl Ev).
  destruct (up_last_hash q tx Hup) as [h Eh]. rewrite Eh. cbn [backend].
  destruct (hash_chain worm); by apply (write_rows_up q).
Qed.

(** *** A transaction *)

(** What the batches [bs] add to [q]. *)
Fixpoint added (q : string) (bs : list (string * list PersistentRepr)) : list PersistentRepr :=
  match bs with
  | [] => []
  | (p, b) :: bs' => (if decide (q = p) then b else []) ++ added q bs'
  end.

Definition batch_wf (bs : list (string * list PersistentRepr)) : Prop :=
  Forall (λ b, Forall (λ m, persistence_id m = b.1) b.2) bs.

Lemma write_batches_ok bs S tx tx' :
  (∀ q, stream_rel tx q (S q)) → batch_wf bs →
  (∀ q, length (S q) + length (added q bs) < stream_limit) →
  write_batches bs tx = inr tx' →
  ∀ q, numbered_after (length (S q)) (added q bs) ∧ stream_rel tx' q (S q ++ (stored <$> added q bs)) ∧
    (hash_chain worm = true → chain_ok q [] (rows_of tx q) → chain_ok q [] (rows_of tx' q)).
Proof.
  intros HS Hwf; revert S tx HS. induction Hwf as [|[p b] bs Hb Hwf IH]; intros S tx HS Hlim Hw q;
    cbn [SqlJournal.write_batches added] in *.
  { simplify_eq. by rewrite fmap_nil, app_nil_r. }
  destruct (write_batch p b tx) as [|tx1] eqn:E1; [done|]. cbn [fst snd] in Hb.
  pose proof (Hlim p) as Hp. rewrite decide_True, length_app in Hp by done.
  destruct (write_batch_ok p b (S p) tx tx1 (HS p) Hb ltac:(lia) ltac:(lia) E1) as (Hn & _ & Hr & Hc & Ho).
  destruct (λ Hrel Hbound, IH (λ q, S q ++ (stored <$> (if decide (q = p) then b else []))) tx1
              Hrel Hbound Hw q) as (Hn' & Hr' & Hc').
  - intros q'. destruct (decide (q' = p)) as [->|Hq]; [done|]. rewrite fmap_nil, app_nil_r.
    eapply stream_rel_same; [by apply Ho|apply HS].
  - intros q'. specialize (Hlim q'). rewrite !length_app in *. rewrite length_fmap. lia.
  - rewrite length_app, length_fmap in Hn'. rewrite numbered_after_app, fmap_app, app_assoc.
    split_and!; [|done|done|].
    + by destruct (decide (q = p)) as [->|].
    + intros Hh Hold. apply Hc'; [done|]. destruct (decide (q = p)) as [->|Hq]; [by apply Hc|].
      destruct (Ho q Hq) as [-> _]. done.
Qed.

Lemma write_batches_up bs S tx :
  sql_up tx → (∀ q, stream_rel tx q (S q)) → batch_wf bs →
  (∀ q, length (S q) + length (added q bs) < stream_limit) →
  (∀ q, Forall (λ m, NoDup (tags m)) (added q bs)) →
  ((∀ q, numbered_after (length (S q)) (added q bs)) ∧ ∃ tx', write_batches bs tx = inr tx' ∧ sql_up tx') ∨
  (¬ (∀ q, numbered_after (length (S q)) (added q bs)) ∧
   ∃ e g, write_batches bs tx = inl (SequenceOutOfOrder e g)).
Proof.
  intros Hup HS Hwf; revert S tx Hup HS.
  induction Hwf as [|[p b] bs Hb Hwf IH]; intros S tx Hup HS Hlim Hnd;
    cbn [SqlJournal.write_batches added] in *.
  { left. split; [done|]. eauto. }
  pose proof (Hlim p) as Hp. rewrite decide_True, length_app in Hp by done. cbn [fst snd] in Hb.
  pose proof (Hnd p) as Hndp. rewrite decide_True in Hndp by done. apply Forall_app in Hndp as [Hndp _].
  destruct (write_batch_up p b (S p) tx Hup (HS p) Hb ltac:(lia) ltac:(lia) Hndp)
    as [[Hn (tx1 & E1 & Hup1)]|[Hn (e & g & E1)]]; rewrite E1.
  2:{ right. split; [|by eauto]. intros Hall. specialize (Hall p). rewrite decide_True in Hall by done.
      by apply numbered_after_app in Hall as [? _]. }
  destruct (write_batch_ok p b (S p) tx tx1 (HS p) Hb ltac:(lia) ltac:(lia) E1) as (_ & _ & Hr & _ & Ho).
  set (S' := λ q, S q ++ (stored <$> (if decide (q = p) then b else []))).
  assert (∀ q, numbered_after (length (S q)) ((if decide (q = p) then b else []) ++ added q bs) ↔
               numbered_after (length (S' q)) (added q bs)) as Hnum.
  { intros q. unfold S'. rewrite length_app, length_fmap, numbered_after_app.
    split; [tauto|]. intros Hq. split; [|done]. by destruct (decide (q = p)) as [->|]. }
  setoid_rewrite Hnum. apply IH; [done| | |].
  - intros q. unfold S'. destruct (decide (q = p)) as [->|Hq]; [done|]. rewrite fmap_nil, app_nil_r.
    eapply stream_rel_same; [by apply Ho|apply HS].
  - intros q. specialize (Hlim q). unfold S'. rewrite !length_app in *. rewrite length_fmap. lia.
  - intros q. specialize (Hnd q). by apply Forall_app in Hnd as [_ ?].
Qed.
End refinement.

(** ** Grouping by persistence id *)

Section grouping.

Lemma by_pid_lookup ms q :
  by_pid ms !! q = match batch_of q ms with [] => None | b => Some b end.
Proof.
  unfold by_pid, batch_of.
  assert (∀ m0, foldl (λ m msg, entry_update [] (λ v, v ++ [msg]) (persistence_id msg) m) m0 ms !! q =
    match filter (λ m, persistence_id m = q) ms with [] => m0 !! q | b => Some (default [] (m0 !! q) ++ b) end) as Hg.
  { induction ms as [|x ms IH]; intros m0; [done|]. cbn [foldl]. rewrite IH, lookup_entry_update.
    rewrite filter_cons. destruct (decide (persistence_id x = q)) as [<-|Hx].
    - cbn [default from_option id].
      destruct (filter _ ms); [done|]. by rewrite <- app_assoc.
    - done. }
  rewrite Hg, lookup_empty. by destruct (filter _ ms).
Qed.

Lemma batches_perm ms : batches ms ≡ₚ map_to_list (by_pid ms).
Proof. apply merge_sort_Permutation. Qed.

Lemma added_none q bs : q ∉ bs.*1 → added q bs = [].
Proof.
  induction bs as [|[p b] bs IH]; intros Hq; [done|]. cbn [added].
  rewrite fmap_cons, not_elem_of_cons in Hq. rewrite decide_False by tauto. apply IH. tauto.
Qed.

Lemma added_elem q b bs : NoDup bs.*1 → (q, b) ∈ bs → added q bs = b.
Proof.
  induction bs as [|[p b'] bs IH]; intros Hnd Hin; [by apply elem_of_nil in Hin|].
  apply NoDup_cons in Hnd as [Hp Hnd]. cbn [added fst] in *.
  apply elem_of_cons in Hin as [[= <- <-]|Hin].
  - rewrite decide_True, added_none by done. apply app_nil_r.
  - rewrite decide_False; [by apply IH|]. intros ->. apply Hp.
    apply list_elem_of_fmap. by exists (p, b).
Qed.

Lemma added_batches q ms : added q (batches ms) = batch_of q ms.
Proof.
  assert (NoDup (batches ms).*1) as Hnd by (rewrite batches_perm; apply NoDup_fst_map_to_list).
  pose proof (by_pid_lookup ms q) as Hl. destruct (batch_of q ms) as [|x b] eqn:E.
  - apply added_none. rewrite batches_perm. intros ([q' b] & -> & Hin)%list_elem_of_fmap.
    apply elem_of_map_to_list in Hin. cbn in Hl. congruence.
  - apply added_elem; [done|]. rewrite batches_perm. by apply elem_of_map_to_list.
Qed.

Lemma batches_wf ms : batch_wf (batches ms).
Proof.
  unfold batch_wf. rewrite batches_perm. apply Forall_forall. intros [q b] Hin%elem_of_map_to_list.
  rewrite by_pid_lookup in Hin. cbn. destruct (batch_of q ms) eqn:E; [done|]. simplify_eq. rewrite <- E.
  apply Forall_forall. intros m Hm. by apply list_elem_of_filter in Hm as [? _].
Qed.
End grouping.

(** ** Operations *)

Section operations.
Context {D : Type} `{SqlDbLaws D}.
Variable sha256 : Bytes → Bytes.
Variable worm : WormConfig.
Variable now_millis : PersistentRepr → Z.
Implicit Types d tx : D.

Abbreviation sql_write_messages := (sql_write_messages sha256 worm now_millis).

Definition db_rel (d : D) (S : Streams) : Prop := ∀ q, stream_rel d q (S q).

Definition sql_exec (op : SqlOp) (d : D) : D * (JournalError + unit) :=
  match op with
  | SqlWrite ms => sql_write_messages ms d
  | SqlDelete pid to => sql_delete_messages_to pid to d
  end.

(** The bound of a deletion is a number a column can hold. *)
Definition op_in_range (op : SqlOp) : Prop :=
  match op with SqlWrite _ => True | SqlDelete _ to => (to < 2 ^ 63)%N end.

Definition op_accepted (op : SqlOp) (S : Streams) : Prop :=
  match op with SqlWrite ms => accepts S ms | SqlDelete _ _ => True end.

Lemma same_all_rel d d' S : (∀ q, same_at q d d') → db_rel d S → db_rel d' S.
Proof. intros Hs Hr q. by eapply stream_rel_same. Qed.

Lemma batch_of_length q ms : length (batch_of q ms) ≤ length ms.
Proof. apply length_filter. Qed.

Lemma write_messages_ok ms d d' S :
  db_rel d S → (∀ q, length (S q) + length ms < stream_limit) →
  sql_write_messages ms d = (d', inr tt) →
  accepts S ms ∧ db_rel d' (spec_op (SqlWrite ms) S) ∧
  (hash_chain worm = true → ∀ q, chain_ok sha256 q [] (rows_of d q) → chain_ok sha256 q [] (rows_of d' q)).
Proof.
  intros Hr Hlim Hw. unfold SqlJournal.sql_write_messages in Hw. destruct ms as [|m ms].
  { simplify_eq. split_and!; [by intros q i x|intros q; cbn; by rewrite app_nil_r|done]. }
  destruct (sql_begin d) as [|tx] eqn:Eb; [done|]. cbn [backend] in Hw.
  destruct (write_batches sha256 worm now_millis (batches (m :: ms)) tx) as [|tx1] eqn:Ew; [done|].
  destruct (sql_commit tx1) as [|d1] eqn:Ec; [done|]. cbn [backend] in Hw. simplify_eq.
  pose proof (law_begin _ _ Eb) as Hb. pose proof (law_commit _ _ Ec) as Hc.
  assert (∀ q, numbered_after (length (S q)) (batch_of q (m :: ms)) ∧
    stream_rel tx1 q (S q ++ (stored <$> batch_of q (m :: ms))) ∧
    (hash_chain worm = true → chain_ok sha256 q [] (rows_of tx q) → chain_ok sha256 q [] (rows_of tx1 q)))
    as Hall.
  { intros q. rewrite <- added_batches. apply (write_batches_ok sha256 worm now_millis _ S tx tx1).
    - intros q'. eapply stream_rel_same; [apply Hb|apply Hr].
    - apply batches_wf.
    - intros q'. rewrite added_batches. pose proof (batch_of_length q' (m :: ms)). specialize (Hlim q'). lia.
    - done. }
  split_and!; intros q; [apply Hall|eapply stream_rel_same; [apply Hc|apply Hall]|].
  revert q. intros Hh q Hq. destruct (Hc q) as [-> _]. apply Hall; [done|]. by destruct (Hb q) as [-> _].
Qed.

Lemma write_messages_error ms d d' e : sql_write_messages ms d = (d', inl e) → d' = d.
Proof. unfold SqlJournal.sql_write_messages. destruct ms; [done|]. by case_match; intros; simplify_eq. Qed.

Lemma mark_deleted_nr to m : sequence_nr (mark_deleted to m) = sequence_nr m.
Proof. unfold mark_deleted. by case_match. Qed.
Lemma mark_deleted_pid to m : persistence_id (mark_deleted to m) = persistence_id m.
Proof. unfold mark_deleted. by case_match. Qed.

Lemma row_repr_tags d d' row r :
  (∀ q n, tags_of d' q n ≡ₚ tags_of d q n) → row_repr d row r → row_repr d' row r.
Proof. intros Ht []. split; [done..|]. by rewrite Ht. Qed.

Lemma row_repr_mark d to row r :
  row_repr d row r → row_repr d (mark_row (Z.of_N to) row) (mark_deleted to r).
Proof.
  intros []. unfold mark_row, mark_deleted.
  replace (row_seq row <=? Z.of_N to)%Z with (sequence_nr r <=? to)%N; [by destruct (sequence_nr r <=? to)%N|].
  rewrite rr_seq0. apply Bool.eq_iff_eq_true. rewrite Z.leb_le, N.leb_le. lia.
Qed.

Lemma delete_ok pid to d d' S :
  db_rel d S → (to < 2 ^ 63)%N → sql_delete_messages_to pid to d = (d', inr tt) →
  db_rel d' (spec_op (SqlDelete pid to) S) ∧
  ∀ q, chain_ok sha256 q [] (rows_of d q) → chain_ok sha256 q [] (rows_of d' q).
Proof.
  intros Hr Hto Hd. unfold sql_delete_messages_to in Hd.
  destruct (update_deleted _ _ d) as [|d1] eqn:Eu; [done|]. cbn [backend] in Hd. simplify_eq.
  pose proof (law_update _ _ _ _ Eu) as Hu. rewrite u64_as_i64_small in Hu by done. split.
  2:{ intros q Hq. destruct (Hu q) as [-> _]. case_decide; [by apply chain_ok_mark|done]. }
  intros q. cbn [spec_op]. destruct (Hu q) as [Hrows Htags]. case_decide as Hq.
  2:{ eapply stream_rel_same; [|apply Hr]. by split. }
  destruct (Hr q) as [HR HP HN HT]. split.
  - rewrite Hrows. apply Forall2_fmap. eapply Forall2_impl; [exact HR|]. intros row r Hrr.
    apply row_repr_mark. eapply row_repr_tags; [|exact Hrr]. intros p n. apply (Hu p).
  - apply Forall_fmap. eapply Forall_impl; [exact HP|]. intros r Hrp. cbn. by rewrite mark_deleted_pid.
  - by apply numbered_after_fmap; [apply mark_deleted_nr|].
  - intros n. rewrite length_fmap. intros Hn. apply Permutation_nil. by rewrite Htags, HT.
Qed.

Lemma delete_error pid to d d' e : sql_delete_messages_to pid to d = (d', inl e) → d' = d.
Proof. unfold sql_delete_messages_to. case_match; by intros; simplify_eq. Qed.

Lemma write_messages_up ms d S :
  sql_up d → db_rel d S → (∀ q, length (S q) + length ms < stream_limit) →
  Forall (λ m, NoDup (tags m)) ms →
  (accepts S ms ∧ ∃ d', sql_write_messages ms d = (d', inr tt) ∧ sql_up d') ∨
  (¬ accepts S ms ∧ ∃ e g, sql_write_messages ms d = (d, inl (SequenceOutOfOrder e g))).
Proof.
  intros Hup Hr Hlim Hnd. unfold SqlJournal.sql_write_messages. destruct ms as [|m ms].
  { left. split; [by intros q i x|]. eauto. }
  destruct (up_begin d Hup) as (tx & Eb & Hup1). rewrite Eb. cbn [backend].
  pose proof (law_begin _ _ Eb) as Hb.
  destruct (write_batches_up sha256 worm now_millis (batches (m :: ms)) S tx) as [[Hn (tx1 & Ew & Hup2)]|[Hn (e & g & Ew)]].
  - done.
  - intros q. eapply stream_rel_same; [apply Hb|apply Hr].
  - apply batches_wf.
  - intros q. rewrite added_batches. pose proof (batch_of_length q (m :: ms)). specialize (Hlim q). lia.
  - intros q. rewrite added_batches. apply Forall_forall. intros x [_ Hx]%list_elem_of_filter.
    by eapply Forall_forall in Hnd.
  - left. split; [intros q; rewrite <- added_batches; apply Hn|]. rewrite Ew.
    destruct (up_commit tx1 Hup2) as (d' & Ec & Hup3). rewrite Ec. cbn. eauto.
  - right. split; [intros Ha; apply Hn; intros q; rewrite added_batches; apply Ha|].
    rewrite Ew. eauto.
Qed.

(** *** Reads *)

Lemma Forall2_filter_iff {A B} (R : A → B → Prop) (P : A → Prop) (Q : B → Prop)
    `{!∀ x, Decision (P x)} `{!∀ y, Decision (Q y)} l k :
  Forall2 (λ x y, R x y ∧ (P x ↔ Q y)) l k → Forall2 R (filter P l) (filter Q k).
Proof.
  induction 1 as [|x y l k [Hxy HPQ] _ IH]; [constructor|]. rewrite !filter_cons.
  repeat case_decide; try tauto. by constructor.
Qed.

Lemma hydrate_ok d rows l :
  sql_up d → Forall2 (row_repr d) rows l → Forall (λ r, (sequence_nr r < 2 ^ 63)%N) l →
  ∃ out, hydrate d (cols_of <$> rows) = inr out ∧ Forall2 repr_equiv out l.
Proof.
  intros Hup. induction 1 as [|row r rows l [] Hl IH]; intros Hn; [by eexists|].
  apply Forall_cons in Hn as [Hn Hns]. destruct (IH Hns) as (out & Eo & Ho).
  rewrite fmap_cons.
  change (cols_of row) with (row_pid row, row_seq row, row_payload row, row_manifest row, row_writer row, row_deleted row).
  cbn [hydrate]. destruct (up_tags (row_pid row) (row_seq row) d Hup) as [ts Et]. rewrite Et. cbn [backend].
  rewrite Eo. eexists. split; [done|]. constructor; [|done].
  apply law_tags in Et. unfold repr_equiv. cbn. split_and!; try done.
  - rewrite rr_seq0, i64_as_u64_small by lia. lia.
  - rewrite rr_deleted0. by destruct (deleted r).
  - by rewrite Et.
Qed.

Lemma stream_small d q l : stream_rel d q l → length l < stream_limit →
  Forall (λ r, (sequence_nr r < 2 ^ 63 - 1)%N) l.
Proof.
  intros Hr Hlim. apply Forall_lookup. intros i r Hi. rewrite (sr_nr _ _ _ Hr _ _ Hi).
  apply lookup_lt_Some in Hi. unfold stream_limit in Hlim. lia.
Qed.

Lemma clamp_take {A} max (l : list A) :
  length l < stream_limit → take (Z.to_nat (clamp_i64 max)) l = take_N max l.
Proof.
  intros Hl. rewrite take_N_take, clamp_i64_spec. unfold i64_max, stream_limit in *.
  destruct (decide (Z.of_N max ≤ 2 ^ 63 - 1)%Z).
  - f_equal. lia.
  - rewrite !take_ge; [done|lia|lia].
Qed.

Lemma replay_ok pid from to max d S :
  sql_up d → db_rel d S → length (S pid) < stream_limit →
  ∃ out, sql_replay_messages pid from to max d = inr out ∧
    Forall2 repr_equiv out (take_N max (filter (replayable from to) (S pid))).
Proof.
  intros Hup Hr Hlim. unfold sql_replay_messages.
  destruct (up_range pid (clamp_i64 from) (clamp_i64 to) (clamp_i64 max) d Hup) as [rows Er].
  rewrite Er. cbn [backend]. apply law_range in Er as ->.
  2:{ rewrite clamp_i64_spec. unfold i64_max. lia. }
  assert (length (rows_of d pid) < stream_limit) as Hlim' by by rewrite (stream_rel_length _ _ _ (Hr pid)).
  pose proof (stream_small _ _ _ (Hr pid) Hlim) as Hsm.
  rewrite clamp_take by (eapply Nat.le_lt_trans; [apply length_filter|done]).
  rewrite !take_N_take. apply hydrate_ok; [done| |].
  - apply Forall2_take, Forall2_filter_iff. apply Forall2_same_length_lookup.
    split; [by eapply stream_rel_length|]. intros i row r Hi Hl.
    pose proof (Forall2_lookup_lr _ _ _ _ _ _ (sr_rows _ _ _ (Hr pid)) Hi Hl) as Hrr. split; [done|].
    pose proof (Forall_lookup_1 _ _ _ _ Hsm Hl) as Hs. cbn in Hs.
    unfold in_range, replayable. rewrite (rr_seq _ _ _ Hrr), (rr_deleted _ _ _ Hrr), !clamp_i64_spec.
    unfold i64_max. destruct (deleted r); [naive_solver|]. split; intros; split_and!; lia || done.
  - apply Forall_take. apply Forall_forall. intros r [_ Hx]%list_elem_of_filter.
    eapply Forall_forall in Hsm; [|exact Hx]. cbn in Hsm. lia.
Qed.

Lemma highest_ok pid from d S :
  sql_up d → db_rel d S → length (S pid) < stream_limit →
  sql_highest_sequence_nr pid from d = inr (last_nr (S pid)) ∧
  last_nr (S pid) = N.of_nat (length (S pid)).
Proof.
  intros Hup Hr Hlim. unfold sql_highest_sequence_nr, current_highest, last_nr.
  destruct (up_max pid d Hup) as [v Ev]. rewrite Ev. cbn [backend]. apply law_max in Ev as ->.
  rewrite (stream_rel_last _ _ _ (Hr pid)), last_lookup.
  destruct (length (S pid)) as [|n] eqn:El; cbn [pred]; [by destruct (S pid)|].
  destruct (lookup_lt_is_Some_2 (S pid) n) as [r Er]; [lia|]. rewrite Er.
  rewrite (sr_nr _ _ _ (Hr pid) _ _ Er). unfold stream_limit in Hlim.
  rewrite i64_as_u64_small by lia. split; [f_equal|]; lia.
Qed.

(** *** Runs *)

Fixpoint sql_run (ops : list SqlOp) (d : D) : D * list (JournalError + unit) :=
  match ops with
  | [] => (d, [])
  | op :: ops' =>
      let '(d1, r) := sql_exec op d in
      let '(d2, rs) := sql_run ops' d1 in (d2, r :: rs)
  end.

(** The streams after the operations, given which of them succeeded. *)
Fixpoint spec_run (ops : list SqlOp) (rs : list (JournalError + unit)) (S : Streams) : Streams :=
  match ops, rs with
  | op :: ops', r :: rs' => spec_run ops' rs' (match r with inl _ => S | inr _ => spec_op op S end)
  | _, _ => S
  end.

(** Only accepted operations succeeded. *)
Fixpoint spec_allows (ops : list SqlOp) (rs : list (JournalError + unit)) (S : Streams) : Prop :=
  match ops, rs with
  | op :: ops', inl _ :: rs' => spec_allows ops' rs' S
  | op :: ops', inr _ :: rs' => op_accepted op S ∧ spec_allows ops' rs' (spec_op op S)
  | [], [] => True
  | _, _ => False
  end.

Definition run_size (ops : list SqlOp) : nat := sum_list (op_size <$> ops).

Lemma sql_exec_ok op d S :
  db_rel d S → (∀ q, length (S q) + op_size op < stream_limit) → op_in_range op →
  match sql_exec op d with
  | (d', inr _) => op_accepted op S ∧ db_rel d' (spec_op op S) ∧
      (hash_chain worm = true → ∀ q, chain_ok sha256 q [] (rows_of d q) → chain_ok sha256 q [] (rows_of d' q))
  | (d', inl _) => d' = d
  end.
Proof.
  intros Hr Hlim Hin. destruct op as [ms|pid to]; cbn [sql_exec].
  - destruct (sql_write_messages ms d) as [d' [e|[]]] eqn:E; [by eapply write_messages_error|].
    by eapply write_messages_ok.
  - destruct (sql_delete_messages_to pid to d) as [d' [e|[]]] eqn:E; [by eapply delete_error|].
    destruct (delete_ok _ _ _ _ _ Hr Hin E). by split_and!; auto.
Qed.

Lemma spec_op_length op S q : length (spec_op op S q) ≤ length (S q) + op_size op.
Proof.
  destruct op as [ms|pid to]; cbn [spec_op op_size].
  - rewrite length_app, length_fmap. pose proof (batch_of_length q ms). lia.
  - case_decide; rewrite ?length_fmap; lia.
Qed.

Lemma sql_run_ok ops d S :
  db_rel d S → (∀ q, length (S q) + run_size ops < stream_limit) → Forall op_in_range ops →
  let '(d', rs) := sql_run ops d in
  db_rel d' (spec_run ops rs S) ∧ spec_allows ops rs S ∧
  (∀ q, length (spec_run ops rs S q) < stream_limit) ∧
  (hash_chain worm = true → ∀ q, chain_ok sha256 q [] (rows_of d q) → chain_ok sha256 q [] (rows_of d' q)).
Proof.
  intros Hr Hlim Hin; revert d S Hr Hlim. induction Hin as [|op ops Hop Hin IH]; intros d S Hr Hlim;
    cbn [sql_run].
  { split_and!; try done. intros q. specialize (Hlim q). cbn in *. lia. }
  change (run_size (op :: ops)) with (op_size op + run_size ops) in Hlim.
  assert (∀ q, length (S q) + op_size op < stream_limit) as Hl1 by (intros q; specialize (Hlim q); lia).
  pose proof (sql_exec_ok op d S Hr Hl1 Hop) as Hx.
  destruct (sql_exec op d) as [d1 [e|u]].
  - subst d1. specialize (IH d S Hr). destruct (sql_run ops d) as [d2 rs]. cbn [spec_run spec_allows].
    apply IH. intros q. specialize (Hlim q). lia.
  - destruct Hx as (Ha & Hr1 & Hc1). specialize (IH d1 _ Hr1).
    destruct (sql_run ops d1) as [d2 rs]. cbn [spec_run spec_allows].
    destruct IH as (Hr2 & Hal & Hl2 & Hc2).
    { intros q. specialize (Hlim q). pose proof (spec_op_length op S q). lia. }
    split_and!; try done. auto.
Qed.

(** *** Queries by tag *)

Definition retag (tag : string) (r : PersistentRepr) : PersistentRepr :=
  mkPersistentRepr (persistence_id r) (sequence_nr r) (payload r) (manifest r) (writer_uuid r)
    (deleted r) [tag].

Definition tag_match (tag : string) (from : N) (r : PersistentRepr) : Prop :=
  tag ∈ tags r ∧ (from ≤ sequence_nr r)%N ∧ deleted r = false.

Definition repr_of (tag : string) (c : EventCols) : PersistentRepr :=
  let '(pid, seq, data, man, writer, del) := c in
  mkPersistentRepr pid (i64_as_u64 seq) data man writer (negb (del =? 0)%Z) [tag].

Lemma repr_of_row tag d row r :
  row_repr d row r → (sequence_nr r < 2 ^ 63)%N → repr_of tag (cols_of row) = retag tag r.
Proof.
  intros [] Hn. unfold repr_of, cols_of, retag. rewrite rr_seq0, i64_as_u64_small by lia.
  f_equal; try done; [lia|]. rewrite rr_deleted0. by destruct (deleted r).
Qed.

Lemma stream_row_repr d q l row :
  stream_rel d q l → row ∈ rows_of d q → ∃ r, r ∈ l ∧ row_repr d row r.
Proof.
  intros Hr [i Hi]%list_elem_of_lookup.
  destruct (Forall2_lookup_l _ _ _ _ _ (sr_rows _ _ _ Hr) Hi) as (r & Hl & Hrr).
  exists r. split; [by eapply list_elem_of_lookup_2|done].
Qed.

Lemma stream_repr_row d q l r :
  stream_rel d q l → r ∈ l → ∃ row, row ∈ rows_of d q ∧ row_repr d row r.
Proof.
  intros Hr [i Hi]%list_elem_of_lookup.
  destruct (Forall2_lookup_r _ _ _ _ _ (sr_rows _ _ _ Hr) Hi) as (row & Hl & Hrr).
  exists row. split; [by eapply list_elem_of_lookup_2|done].
Qed.

Lemma stream_rows_NoDup d q l : stream_rel d q l → NoDup (rows_of d q).
Proof.
  intros Hr. apply NoDup_alt. intros i j row Hi Hj.
  pose proof (stream_row_seq _ _ _ _ _ Hr Hi). pose proof (stream_row_seq _ _ _ _ _ Hr Hj). lia.
Qed.

Lemma tagged_rows_spec tag from d S (rows : list EventRow) :
  db_rel d S → (∀ q, length (S q) < stream_limit) →
  (∀ r, r ∈ rows ↔ r ∈ rows_of d (row_pid r) ∧ tag ∈ tags_of d (row_pid r) (row_seq r) ∧
             (clamp_i64 from ≤ row_seq r)%Z ∧ row_deleted r = 0%Z) →
  ∀ x, x ∈ (repr_of tag ∘ cols_of <$> rows) ↔ ∃ q r, r ∈ S q ∧ tag_match tag from r ∧ x = retag tag r.
Proof.
  intros Hr Hlim Hrows x. rewrite list_elem_of_fmap.
  assert (∀ q r, r ∈ S q → (sequence_nr r < 2 ^ 63 - 1)%N) as Hsm.
  { intros q r Hin. pose proof (stream_small _ _ _ (Hr q) (Hlim q)) as Hf.
    by eapply Forall_forall in Hf. }
  assert (∀ q row r, r ∈ S q → row_repr d row r →
    (tag ∈ tags_of d (row_pid row) (row_seq row) ∧ (clamp_i64 from ≤ row_seq row)%Z ∧ row_deleted row = 0%Z
     ↔ tag_match tag from r)) as Hm.
  { intros q row r Hin [] . rewrite rr_tags0, rr_seq0, rr_deleted0, clamp_i64_spec. unfold tag_match, i64_max.
    specialize (Hsm _ _ Hin). destruct (deleted r); [naive_solver|].
    split; intros (? & ? & ?); split_and!; (done || lia). }
  split.
  - intros (row & -> & Hin%Hrows). destruct Hin as [Hin Hc].
    destruct (stream_row_repr _ _ _ _ (Hr _) Hin) as (r & Hl & Hrr). exists (row_pid row), r.
    split_and!; [done|by eapply Hm|]. cbn. eapply repr_of_row; [done|]. specialize (Hsm _ _ Hl). lia.
  - intros (q & r & Hl & Ht & ->). destruct (stream_repr_row _ _ _ _ (Hr _) Hl) as (row & Hin & Hrr).
    exists row. split.
    + symmetry. cbn. eapply repr_of_row; [done|]. specialize (Hsm _ _ Hl). lia.
    + apply Hrows. split; [|by eapply Hm]. assert (row_pid row = q) as ->; [|done].
      rewrite (rr_pid _ _ _ Hrr). pose proof (sr_pid _ _ _ (Hr q)) as Hf. by eapply Forall_forall in Hf.
Qed.

(** Rows of one id that are listed weakly in order, and at most once, are in strict order. *)
Lemma tagged_rows_sorted tag d S (rows : list EventRow) :
  db_rel d S → (∀ q, length (S q) < stream_limit) →
  (∀ r, r ∈ rows → r ∈ rows_of d (row_pid r)) → NoDup rows →
  StronglySorted (λ a b, row_pid a = row_pid b → (row_seq a ≤ row_seq b)%Z) rows →
  StronglySorted (λ a b, persistence_id a = persistence_id b → (sequence_nr a < sequence_nr b)%N)
    (repr_of tag ∘ cols_of <$> rows).
Proof.
  intros Hr Hlim Hin Hnd Hs. induction Hs as [|a rows Hs IH Ha]; [constructor|].
  apply NoDup_cons in Hnd as [Hna Hnd]. rewrite fmap_cons.
  constructor; [apply IH; [|done]; intros r Hx; apply Hin; by right|].
  apply Forall_fmap, Forall_forall. intros b Hb. eapply Forall_forall in Ha; [|exact Hb]. cbn in *.
  unfold cols_of. cbn. intros Hp. specialize (Ha Hp).
  assert (a ∈ rows_of d (row_pid a)) as [i Hi]%list_elem_of_lookup by (apply Hin; by left).
  assert (b ∈ rows_of d (row_pid b)) as [j Hj]%list_elem_of_lookup by (apply Hin; by right).
  rewrite <- Hp in Hj.
  pose proof (stream_row_seq _ _ _ _ _ (Hr _) Hi) as Ea. pose proof (stream_row_seq _ _ _ _ _ (Hr _) Hj) as Eb.
  apply lookup_lt_Some in Hi as Hli. apply lookup_lt_Some in Hj as Hlj.
  rewrite (stream_rel_length _ _ _ (Hr _)) in Hli, Hlj. specialize (Hlim (row_pid a)).
  unfold stream_limit in Hlim. rewrite !i64_as_u64_small by lia.
  assert (i ≠ j) by (intros ->; simplify_eq; done). lia.
Qed.

Lemma by_tag_ok tag from max d S :
  sql_up d → db_rel d S → (∀ q, length (S q) < stream_limit) →
  ∃ full, sql_events_by_tag tag from max d = inr (take (N.to_nat (N.min max (2 ^ 63 - 1))) full) ∧
    (∀ x, x ∈ full ↔ ∃ q r, r ∈ S q ∧ tag_match tag from r ∧ x = retag tag r) ∧
    StronglySorted (λ a b, persistence_id a = persistence_id b → (sequence_nr a < sequence_nr b)%N) full.
Proof.
  intros Hup Hr Hlim. unfold sql_events_by_tag.
  destruct (up_tagged tag (clamp_i64 from) (clamp_i64 max) d Hup) as [l El]. rewrite El. cbn [backend].
  destruct (law_tagged _ _ _ _ _ El) as (rows & -> & Hnd & Hs & Hrows).
  { rewrite clamp_i64_spec. unfold i64_max. lia. }
  exists (repr_of tag ∘ cols_of <$> rows). split_and!.
  - f_equal. rewrite <- list_fmap_compose, <- fmap_take. f_equal. f_equal.
    rewrite clamp_i64_spec. unfold i64_max. lia.
  - by apply (tagged_rows_spec tag from d).
  - apply (tagged_rows_sorted tag d S); [done|done| | |done].
    + by intros r [? _]%Hrows.
    + apply Hnd. intros q. by eapply stream_rows_NoDup.
Qed.

(** ** The journal as its clients see it *)

(** A database without events. *)
Definition sql_empty (d : D) : Prop := ∀ q, rows_of d q = [] ∧ ∀ n, tags_of d q n = [].

Lemma sql_empty_rel d : sql_empty d → db_rel d (λ _, []).
Proof.
  intros He q. destruct (He q) as [Hr Ht]. split; [rewrite Hr; constructor|constructor|by intros i m|].
  intros n _. apply Ht.
Qed.
End operations.

(** C15: On any database that meets the laws of its statements, in which a commit that reports an
    error has rolled back, every sequence of writes and of deletions up to numbers below 2^63 (a
    larger number is cast to a negative one and deletes nothing, [SqlChain.delete_all_deletes_nothing])
    leaves exactly the streams of records an abstract journal holds after those
    operations that reported success: a write is applied whole or not at all, and one that
    succeeded continued every stream it touches.  On a database that answers, replay, the
    highest number and the query by tag return what those streams hold, up to the order of
    the tags of a record. *)
Theorem sql_journal_refines {D} `{SqlDbLaws D} sha256 worm now_millis (ops : list SqlOp) (d0 : D) :
  sql_empty d0 → run_size ops < stream_limit → Forall op_in_range ops →
  let '(d, rs) := sql_run sha256 worm now_millis ops d0 in
  let S := spec_run ops rs (λ _, []) in
  spec_allows ops rs (λ _, []) ∧
  (sql_up d →
    (∀ pid from to max, ∃ out, sql_replay_messages pid from to max d = inr out ∧
       Forall2 repr_equiv out (take_N max (filter (replayable from to) (S pid)))) ∧
    (∀ pid from, sql_highest_sequence_nr pid from d = inr (N.of_nat (length (S pid)))) ∧
    (∀ tag from max, ∃ full,
       sql_events_by_tag tag from max d = inr (take (N.to_nat (N.min max (2 ^ 63 - 1))) full) ∧
       (∀ x, x ∈ full ↔ ∃ q r, r ∈ S q ∧ tag_match tag from r ∧ x = retag tag r) ∧
       StronglySorted (λ a b, persistence_id a = persistence_id b → (sequence_nr a < sequence_nr b)%N)
         full)).
Proof.
  intros He Hsz Hin.
  pose proof (sql_run_ok sha256 worm now_millis ops d0 _ (sql_empty_rel _ He) (λ _, Hsz) Hin) as Hrun.
  destruct (sql_run sha256 worm now_millis ops d0) as [d rs]. destruct Hrun as (Hr & Ha & Hl & _).
  split; [done|]. intros Hup. split_and!.
  - intros. by apply replay_ok.
  - intros pid from. destruct (highest_ok pid from d _ Hup Hr (Hl pid)) as [-> ->]. done.
  - intros. by apply by_tag_ok.
Qed.

(** On a database that answers, a write is decided by the streams alone: when every
    stream it touches continues it succeeds, and otherwise it is refused as out of order and
    nothing changes. *)
Theorem sql_write_decided {D} `{SqlDbLaws D} sha256 worm now_millis (ms : list PersistentRepr) (d : D) S :
  sql_up d → db_rel d S → (∀ q, length (S q) + length ms < stream_limit) →
  Forall (λ m, NoDup (tags m)) ms →
  (accepts S ms ∧ ∃ d', sql_write_messages sha256 worm now_millis ms d = (d', inr tt) ∧ sql_up d' ∧
     db_rel d' (spec_op (SqlWrite ms) S)) ∨
  (¬ accepts S ms ∧
   ∃ e g, sql_write_messages sha256 worm now_millis ms d = (d, inl (SequenceOutOfOrder e g))).
Proof.
  intros Hup Hr Hlim Hnd.
  destruct (write_messages_up sha256 worm now_millis ms d S Hup Hr Hlim Hnd) as [[Ha (d' & Hw & Hup')]|Hx];
    [left|by right].
  split; [done|]. exists d'. split_and!; [done..|]. by eapply write_messages_ok.
Qed.
