(* ===== verification/SqlChain.v ===== *)
(** * What an intact chain of hashes says

    Proofs about [verify_chain]: the rows the journal writes with [hash_chain] are verified as
    intact whatever else is done with the journal; two intact chains of the same length that
    end in the same hash agree in every number, payload and time stamp; and an edit of one row
    is reported at the number of that row.  The assumption on SHA-256 is that the inputs at
    hand do not collide.  Concrete runs on [SqlTables] follow. *)

From stdpp Require Import gmap strings list sorting.
From Stdlib Require Import NArith ZArith Lia Ascii.
From S2P Require Import Prelude Encoding Address Journal SqlJournal SqlFacts.

(** C16: A journal that keeps the hash chain from its first write on verifies as intact,
    with the number of rows of the stream, after any sequence of writes and deletions on a
    database that answers. *)
Theorem worm_chain_intact {D} `{SqlDbLaws D} sha256 worm now_millis (ops : list SqlOp) (d0 : D) pid :
  hash_chain worm = true → sql_empty d0 → run_size ops < stream_limit → Forall op_in_range ops →
  let '(d, rs) := sql_run sha256 worm now_millis ops d0 in
  sql_up d →
  verify_chain sha256 pid d = inr (Intact (N.of_nat (length (spec_run ops rs (λ _, []) pid)))).
Proof.
  intros Hw He Hsz Hin.
  pose proof (sql_run_ok sha256 worm now_millis ops d0 _ (sql_empty_rel _ He) (λ _, Hsz) Hin) as Hrun.
  destruct (sql_run sha256 worm now_millis ops d0) as [d rs]. destruct Hrun as (Hr & _ & Hl & Hc).
  intros Hup. unfold verify_chain. destruct (up_chain pid d Hup) as [l El]. rewrite El.
  apply law_chain in El as ->.
  assert (chain_ok sha256 pid [] (rows_of d pid)) as Hok.
  { apply Hc; [done|]. destruct (He pid) as [-> _]. done. }
  pose proof (stream_rel_length _ _ _ (Hr pid)) as Hlen. specialize (Hl pid). unfold stream_limit in Hl.
  rewrite verify_rows_intact; [|done|unfold u64_modulus; lia]. by rewrite Hlen.
Qed.

Section binding.
Variable sha256 : Bytes → Bytes.
Implicit Types rows : list EventRow.

(** The inputs [verify_chain] hashes. *)
Fixpoint chain_inputs (pid : string) (prev : Bytes) (rows : list EventRow) : list Bytes :=
  match rows with
  | [] => []
  | r :: rs =>
      let x := hash_input prev pid (i64_as_u64 (row_seq r)) (row_payload r) (row_created r) in
      x :: chain_inputs pid (sha256 x) rs
  end.

(** The columns the chain covers. *)
Definition signed (r : EventRow) : Z * Bytes * Z := (row_seq r, row_payload r, row_created r).

(** The columns hold values of type [i64]. *)
Definition row_i64 (r : EventRow) : Prop :=
  (- 2 ^ 63 ≤ row_seq r < 2 ^ 63)%Z ∧ (- 2 ^ 63 ≤ row_created r < 2 ^ 63)%Z.

#[global] Instance row_i64_dec r : Decision (row_i64 r) := _.

Lemma i64_as_u64_inj a b :
  (- 2 ^ 63 ≤ a < 2 ^ 63)%Z → (- 2 ^ 63 ≤ b < 2 ^ 63)%Z → i64_as_u64 a = i64_as_u64 b → a = b.
Proof.
  unfold i64_as_u64. intros Ha Hb E. apply Z2N.inj in E; [|apply Z.mod_pos_bound; lia..].
  rewrite (Z.mod_eq a), (Z.mod_eq b) in E by lia.
  pose proof (Z.mod_pos_bound a (2 ^ 64) ltac:(lia)). pose proof (Z.mod_pos_bound b (2 ^ 64) ltac:(lia)).
  assert (a - b = 2 ^ 64 * (a / 2 ^ 64 - b / 2 ^ 64))%Z by lia. nia.
Qed.

Lemma i64_as_u64_bound z : (i64_as_u64 z < 256 ^ 8)%N.
Proof. unfold i64_as_u64. pose proof (Z.mod_pos_bound z (2 ^ 64) ltac:(lia)). change (256 ^ 8)%N with (2 ^ 64)%N. lia. Qed.

Lemma to_le_bytes_inj w a b :
  (a < 256 ^ N.of_nat w)%N → (b < 256 ^ N.of_nat w)%N → to_le_bytes w a = to_le_bytes w b → a = b.
Proof. intros Ha Hb E. by rewrite <- (from_to_le_bytes w a), <- (from_to_le_bytes w b), E. Qed.

(** The input of a hash determines what it covers, when the hash it continues is as long. *)
Lemma hash_input_inj pid p1 p2 s1 s2 d1 d2 c1 c2 :
  length p1 = length p2 →
  hash_input p1 pid (i64_as_u64 s1) d1 c1 = hash_input p2 pid (i64_as_u64 s2) d2 c2 →
  p1 = p2 ∧ i64_as_u64 s1 = i64_as_u64 s2 ∧ d1 = d2 ∧ i64_as_u64 c1 = i64_as_u64 c2.
Proof.
  unfold hash_input. intros Hl E. apply app_inj_1 in E as [-> E]; [|done].
  apply app_inv_head in E. apply app_inj_1 in E as [E1 E]; [|by rewrite !to_le_bytes_length].
  apply app_inj_2 in E as [-> E2]; [|by rewrite !to_le_bytes_length].
  split_and!; [done| |done|]; (apply (to_le_bytes_inj 8); [apply i64_as_u64_bound..|done]).
Qed.

Lemma verify_rows_inv pid prev n rows k :
  (n + N.of_nat (length rows) < u64_modulus)%N →
  verify_rows sha256 pid prev n (chain_cols <$> rows) = Intact k →
  chain_ok sha256 pid prev rows ∧ k = (n + N.of_nat (length rows))%N.
Proof.
  revert prev n; induction rows as [|r rows IH]; intros prev n Hn Hv.
  { cbn in *. split; [done|]. injection Hv as <-. lia. }
  rewrite fmap_cons in Hv. cbn [length] in *.
  change (chain_cols r) with (row_seq r, row_payload r, row_created r, row_prev r, row_hash r) in Hv.
  cbn [verify_rows] in Hv. case_decide as Hp; [|done]. case_decide as Hh; [|done].
  rewrite u64_add_small in Hv by lia. apply IH in Hv as [Hc ->]; [|lia].
  split; [done|lia].
Qed.

Lemma chain_inputs_app pid prev a b :
  chain_inputs pid prev (a ++ b) =
    chain_inputs pid prev a ++ chain_inputs pid (foldl (λ _ x, sha256 x) prev (chain_inputs pid prev a)) b.
Proof. revert prev; induction a as [|r a IH]; intros prev; [done|]. cbn. by rewrite IH. Qed.

Lemma chain_last_inputs pid prev rows :
  chain_ok sha256 pid prev rows →
  foldl (λ _ x, sha256 x) prev (chain_inputs pid prev rows) = chain_last prev rows.
Proof.
  revert prev; induction rows as [|r rows IH]; intros prev; [done|].
  cbn [chain_ok chain_inputs foldl]. intros (_ & Hh & Hc).
  unfold compute_row_hash in *. rewrite (IH _ Hc). unfold chain_last. rewrite last_cons. destruct (last rows); [done|].
  by rewrite Hh.
Qed.

Lemma chain_ok_snoc pid rows r :
  chain_ok sha256 pid [] (rows ++ [r]) →
  chain_ok sha256 pid [] rows ∧
  let x := hash_input (chain_last [] rows) pid (i64_as_u64 (row_seq r)) (row_payload r) (row_created r) in
  chain_last [] (rows ++ [r]) = sha256 x ∧
  chain_inputs pid [] (rows ++ [r]) = chain_inputs pid [] rows ++ [x].
Proof.
  rewrite chain_ok_app. intros [Hc (_ & Hh & _)]. cbn zeta. split_and!; [done| |].
  - unfold chain_last. by rewrite last_snoc, Hh.
  - by rewrite chain_inputs_app, chain_last_inputs.
Qed.

Lemma chain_last_length pid rows :
  (∀ x, length (sha256 x) = 32) → chain_ok sha256 pid [] rows →
  length (chain_last [] rows) = match length rows with O => 0 | _ => 32 end.
Proof.
  intros Hlen Hc. destruct rows as [|r rows] using rev_ind; [done|].
  apply chain_ok_snoc in Hc as (_ & -> & _). rewrite length_app, Nat.add_1_r. apply Hlen.
Qed.

Lemma chains_agree pid rows1 rows2 :
  (∀ x, length (sha256 x) = 32) →
  length rows1 = length rows2 → chain_ok sha256 pid [] rows1 → chain_ok sha256 pid [] rows2 →
  chain_last [] rows1 = chain_last [] rows2 →
  (∀ x y, x ∈ chain_inputs pid [] rows1 → y ∈ chain_inputs pid [] rows2 → sha256 x = sha256 y → x = y) →
  Forall row_i64 rows1 → Forall row_i64 rows2 → signed <$> rows1 = signed <$> rows2.
Proof.
  intros Hlen. revert rows2. induction rows1 as [|r1 a IH] using rev_ind; intros rows2 Hl Hc1 Hc2 He Hcoll Hi1 Hi2.
  { by destruct rows2. }
  destruct rows2 as [|r2 b _] using rev_ind; [rewrite length_app in Hl; cbn in Hl; lia|].
  rewrite !length_app in Hl. cbn in Hl. assert (length a = length b) as Hl' by lia.
  apply chain_ok_snoc in Hc1 as (Hc1 & El1 & Ei1). apply chain_ok_snoc in Hc2 as (Hc2 & El2 & Ei2).
  rewrite El1, El2 in He. rewrite Ei1, Ei2 in Hcoll.
  apply Forall_app in Hi1 as [Hi1 [[Hs1 Ht1] _]%Forall_cons].
  apply Forall_app in Hi2 as [Hi2 [[Hs2 Ht2] _]%Forall_cons].
  apply Hcoll in He; [|apply elem_of_app; right; by left..].
  apply hash_input_inj in He as (Ep & Es & Ed & Et).
  2:{ rewrite !(chain_last_length pid) by done. by rewrite Hl'. }
  rewrite !fmap_app. f_equal.
  - apply IH; try done. intros x y Hx Hy. apply Hcoll; apply elem_of_app; by left.
  - cbn. unfold signed. rewrite Ed, (i64_as_u64_inj _ _ Hs1 Hs2 Es), (i64_as_u64_inj _ _ Ht1 Ht2 Et). done.
Qed.

(** *** An edit *)

Lemma verify_rows_edit pid prev n a r' b :
  chain_ok sha256 pid prev a →
  row_hash r' ≠ Some (compute_row_hash sha256 (chain_last prev a) pid (i64_as_u64 (row_seq r'))
                        (row_payload r') (row_created r')) →
  verify_rows sha256 pid prev n (chain_cols <$> (a ++ r' :: b)) = Tampered (i64_as_u64 (row_seq r')).
Proof.
  revert prev n; induction a as [|r a IH]; intros prev n Hc Hne.
  - rewrite app_nil_l, fmap_cons.
    change (chain_cols r') with (row_seq r', row_payload r', row_created r', row_prev r', row_hash r').
    cbn [verify_rows]. case_decide; [|done]. by rewrite decide_False.
  - rewrite <- app_comm_cons, fmap_cons. cbn [chain_ok] in Hc. destruct Hc as (Hp & Hh & Hc).
    change (chain_cols r) with (row_seq r, row_payload r, row_created r, row_prev r, row_hash r).
    cbn [verify_rows]. rewrite !decide_True by done. apply IH; [done|].
    unfold chain_last in *. rewrite last_cons in Hne. destruct (last a); [done|]. by rewrite Hh in Hne.
Qed.
End binding.

(** C17: Two databases whose chains for a persistence id are both verified as intact, with
    as many rows and the same last hash, agree in the number, the payload and the creation time
    of every row of it, if no two of the inputs hashed collide.  The manifest, the writer, the tags,
    the deletion mark and the times of the bitemporal queries are not hashed and may differ. *)
Theorem intact_chain_binds {D} `{SqlDbLaws D} sha256 (d1 d2 : D) pid n :
  (∀ x, length (sha256 x) = 32) →
  verify_chain sha256 pid d1 = inr (Intact n) → verify_chain sha256 pid d2 = inr (Intact n) →
  chain_last [] (rows_of d1 pid) = chain_last [] (rows_of d2 pid) →
  (∀ x y, x ∈ chain_inputs sha256 pid [] (rows_of d1 pid) →
          y ∈ chain_inputs sha256 pid [] (rows_of d2 pid) → sha256 x = sha256 y → x = y) →
  Forall row_i64 (rows_of d1 pid) → Forall row_i64 (rows_of d2 pid) →
  (N.of_nat (length (rows_of d1 pid)) < u64_modulus)%N →
  (N.of_nat (length (rows_of d2 pid)) < u64_modulus)%N →
  signed <$> rows_of d1 pid = signed <$> rows_of d2 pid.
Proof.
  intros Hlen Hv1 Hv2 He Hcoll Hi1 Hi2 Hl1 Hl2.
  assert (∀ d : D, (N.of_nat (length (rows_of d pid)) < u64_modulus)%N →
    verify_chain sha256 pid d = inr (Intact n) →
    chain_ok sha256 pid [] (rows_of d pid) ∧ n = N.of_nat (length (rows_of d pid))) as Hv.
  { intros d Hl Hv. unfold verify_chain in Hv. destruct (select_chain pid d) as [|l] eqn:El; [done|].
    apply law_chain in El as ->. injection Hv as Hv. by apply verify_rows_inv in Hv. }
  destruct (Hv d1 Hl1 Hv1) as [Hc1 E1], (Hv d2 Hl2 Hv2) as [Hc2 E2].
  apply (chains_agree sha256 pid); try done. lia.
Qed.

(** When the number, the payload or the time stamp of one row of an intact chain is
    edited, and the hash columns are left as they were, verification reports the chain as
    tampered at that row, if the two inputs of the row's hash do not collide. *)
Theorem tampering_localized {D} `{SqlDbLaws D} sha256 (d : D) pid (rows1 rows2 : list EventRow) (r r' : EventRow) :
  sql_up d → chain_ok sha256 pid [] (rows1 ++ r :: rows2) →
  rows_of d pid = rows1 ++ r' :: rows2 →
  row_i64 r → row_i64 r' → signed r' ≠ signed r → row_hash r' = row_hash r →
  (let x s := hash_input (chain_last [] rows1) pid (i64_as_u64 (row_seq s)) (row_payload s) (row_created s) in
   sha256 (x r') = sha256 (x r) → x r' = x r) →
  verify_chain sha256 pid d = inr (Tampered (i64_as_u64 (row_seq r'))).
Proof.
  intros Hup Hc Hrows Hi Hi' Hne Hh Hcoll. unfold verify_chain.
  destruct (up_chain pid d Hup) as [l El]. rewrite El. apply law_chain in El as ->. rewrite Hrows.
  apply chain_ok_app in Hc as [Hc1 (_ & Hr & _)]. f_equal. apply verify_rows_edit; [done|].
  rewrite Hh, Hr. intros [= E]. symmetry in E. apply Hcoll in E.
  apply hash_input_inj in E as (_ & Es & Ed & Et); [|done]. destruct Hi, Hi'. apply Hne. unfold signed.
  by rewrite Ed, (i64_as_u64_inj (row_seq r') (row_seq r)), (i64_as_u64_inj (row_created r') (row_created r)).
Qed.

(** ** Limits of the journal and of the chain *)

(** A deletion of everything, as [u64::MAX] asks for, deletes nothing: the bound is cast and
    becomes [-1]. *)
Lemma delete_all_deletes_nothing {D} `{SqlDbLaws D} pid (d d' : D) S :
  db_rel d S → sql_delete_messages_to pid u64_max d = (d', inr tt) → db_rel d' S.
Proof.
  intros Hr Hd. unfold sql_delete_messages_to in Hd.
  destruct (update_deleted _ _ d) as [|d1] eqn:Eu; [done|]. cbn [backend] in Hd. simplify_eq.
  pose proof (law_update _ _ _ _ Eu) as Hu. change (u64_as_i64 u64_max) with (-1)%Z in Hu.
  apply (same_all_rel d); [|done]. intros q. destruct (Hu q) as [Hrows Ht]. split; [|done].
  rewrite Hrows. case_decide; [|done]. rewrite <- (list_fmap_id (rows_of d q)) at 2.
  apply list_fmap_ext. intros i row Hrow. pose proof (stream_row_seq _ _ _ _ _ (Hr q) Hrow) as Hs.
  unfold mark_row. rewrite (proj2 (Z.leb_gt _ _)) by lia. done.
Qed.

(** A chain that lost its last rows is as intact as before. *)
Lemma truncation_unnoticed sha256 pid (rows lost : list EventRow) :
  chain_ok sha256 pid [] (rows ++ lost) → (N.of_nat (length rows) < u64_modulus)%N →
  verify_rows sha256 pid [] 0 (chain_cols <$> rows) = Intact (N.of_nat (length rows)).
Proof. intros [Hc _]%chain_ok_app Hl. rewrite verify_rows_intact; [by f_equal|done|lia]. Qed.

(** ** Concrete runs *)

Module SqlDemo.
Import Tables.

(** A stand-in for SHA-256: the last 32 bytes of its input. *)
Definition toy_hash (x : Bytes) : Bytes := resize 32 Byte.x00 (reverse x).
Lemma toy_hash_length x : length (toy_hash x) = 32.
Proof. apply length_resize. Qed.

Definition msg (pid : string) (nr : N) (b : Byte.byte) (ts : list string) : PersistentRepr :=
  mkPersistentRepr pid nr [b] "m" "w" false ts.
Definition chained : WormConfig := mkWormConfig true false.
(** The time stamp of a message, in milliseconds. *)
Definition clock (m : PersistentRepr) : Z := 1000000 * Z.of_N (sequence_nr m).

Definition demo_ops : list SqlOp :=
  [SqlWrite [msg "p" 1 Byte.x61 ["red"; "valid_time:100"]; msg "q" 1 Byte.x62 []; msg "p" 2 Byte.x63 ["red"]];
   SqlWrite [msg "p" 4 Byte.x64 []];
   SqlDelete "p" 1;
   SqlWrite [msg "p" 3 Byte.x65 ["blue"]]].
Definition demo_db : SqlTables := (sql_run toy_hash chained clock demo_ops SqlTables_new).1.

Lemma demo_empty : sql_empty SqlTables_new.
Proof. done. Qed.
Lemma demo_size : run_size demo_ops < stream_limit.
Proof. change (run_size demo_ops) with 5. unfold stream_limit. lia. Qed.
Lemma demo_range : Forall op_in_range demo_ops.
Proof. repeat constructor. Qed.

Example demo_results :
  (sql_run toy_hash chained clock demo_ops SqlTables_new).2 =
    [inr tt; inl (SequenceOutOfOrder 3 4); inr tt; inr tt].
Proof. vm_compute. reflexivity. Qed.

Lemma sql_journal_refines_witness :
  ∃ out, sql_replay_messages "p" 1 u64_max u64_max demo_db = inr out ∧
    Forall2 repr_equiv out [msg "p" 2 Byte.x63 ["red"]; msg "p" 3 Byte.x65 ["blue"]].
Proof.
  pose proof (sql_journal_refines toy_hash chained clock demo_ops SqlTables_new demo_empty demo_size demo_range) as Ht.
  unfold demo_db. destruct (sql_run _ _ _ _ _) as [d rs] eqn:E. destruct Ht as [_ Hr].
  destruct (Hr I) as [Hrep _]. destruct (Hrep "p" 1%N u64_max u64_max) as (out & Ho & Hf).
  exists out. split; [exact Ho|].
  assert (rs = [inr tt; inl (SequenceOutOfOrder 3 4); inr tt; inr tt]) as ->
    by (rewrite <- demo_results, E; reflexivity).
  exact Hf.
Defined.

Lemma sql_write_decided_witness :
  ∃ e g, sql_write_messages toy_hash chained clock [msg "p" 2 Byte.x61 []] SqlTables_new =
    (SqlTables_new, inl (SequenceOutOfOrder e g)).
Proof.
  destruct (sql_write_decided toy_hash chained clock [msg "p" 2 Byte.x61 []] SqlTables_new (λ _, []))
    as [[Ha _]|[_ Hx]]; [exact I|apply sql_empty_rel, demo_empty| | | |exact Hx].
  - intros q. unfold stream_limit. cbn [length]. lia.
  - repeat constructor.
  - specialize (Ha "p" 0 (msg "p" 2 Byte.x61 []) eq_refl). discriminate Ha.
Defined.

Lemma worm_chain_intact_witness : verify_chain toy_hash "p" demo_db = inr (Intact 3).
Proof.
  pose proof (worm_chain_intact toy_hash chained clock demo_ops SqlTables_new "p" eq_refl demo_empty demo_size
                demo_range) as Ht.
  unfold demo_db. destruct (sql_run _ _ _ _ _) as [d rs] eqn:E.
  assert (rs = [inr tt; inl (SequenceOutOfOrder 3 4); inr tt; inr tt]) as ->
    by (rewrite <- demo_results, E; reflexivity).
  exact (Ht I).
Defined.

(** The same writes without the deletion, in a database of its own. *)
Definition other_db : SqlTables :=
  (sql_run toy_hash chained clock
     [SqlWrite [msg "p" 1 Byte.x61 []; msg "p" 2 Byte.x63 []]; SqlWrite [msg "p" 3 Byte.x65 []]] SqlTables_new).1.

Definition inputs_distinct : bool :=
  bool_decide (Forall (λ x, Forall (λ y, toy_hash x = toy_hash y → x = y)
    (chain_inputs toy_hash "p" [] (rows_of other_db "p"))) (chain_inputs toy_hash "p" [] (rows_of demo_db "p"))).

Lemma intact_chain_binds_witness :
  signed <$> rows_of demo_db "p" = signed <$> rows_of other_db "p".
Proof.
  apply (intact_chain_binds toy_hash demo_db other_db "p" 3).
  - exact toy_hash_length.
  - vm_compute. reflexivity.
  - vm_compute. reflexivity.
  - vm_compute. reflexivity.
  - assert (inputs_distinct = true) as Hd by (vm_compute; reflexivity).
    apply bool_decide_eq_true in Hd. intros x y Hx Hy. rewrite Forall_forall in Hd.
    specialize (Hd x Hx). rewrite Forall_forall in Hd. exact (Hd y Hy).
  - apply (bool_decide_eq_true_1 _). vm_compute. reflexivity.
  - apply (bool_decide_eq_true_1 _). vm_compute. reflexivity.
  - vm_compute. reflexivity.
  - vm_compute. reflexivity.
Defined.

Lemma tampering_localized_witness :
  verify_chain toy_hash "p"
    (mkSqlTables ((λ r, if decide (row_seq r = 2%Z)
       then mkEventRow (row_pid r) 2 [Byte.x00] (row_manifest r) (row_writer r) (row_deleted r) (row_created r)
              (row_prev r) (row_hash r) (row_system r) (row_valid r)
       else r) <$> t_events other_db) [] false) = inr (Tampered 2).
Proof.
  set (rows := rows_of other_db "p"). set (edited := mkSqlTables _ _ _).
  set (r' := default (row_for (msg "p" 0 Byte.x00 []) 0 None None) (rows_of edited "p" !! 1)).
  set (r := default (row_for (msg "p" 0 Byte.x00 []) 0 None None) (rows !! 1)).
  change 2%N with (i64_as_u64 (row_seq r')).
  apply (tampering_localized toy_hash edited "p" (take 1 rows) (drop 2 rows) r r').
  - exact I.
  - assert (take 1 rows ++ r :: drop 2 rows = rows) as -> by (vm_compute; reflexivity).
    apply (verify_rows_inv toy_hash "p" [] 0 rows 3); vm_compute; reflexivity.
  - vm_compute. reflexivity.
  - apply (bool_decide_eq_true_1 _). vm_compute. reflexivity.
  - apply (bool_decide_eq_true_1 _). vm_compute. reflexivity.
  - apply (bool_decide_eq_true_1 _). vm_compute. reflexivity.
  - vm_compute. reflexivity.
  - intros x E. vm_compute in E. discriminate E.
Defined.

(** The events recorded after two and three million milliseconds are part of the history as of
    one and a half million milliseconds, asked for in nanoseconds: the column holds
    milliseconds. *)
Example as_of_looks_ahead :
  match replay_as_of "p" (1500000 * 1000000) other_db with
  | inr l => sequence_nr <$> l = [1; 2; 3]%N
  | inl _ => False
  end.
Proof. vm_compute. reflexivity. Qed.

(** The rows of a journal that had no chain are reported as tampered once it has one. *)
Example chain_enabled_late :
  let d1 := (sql_write_messages toy_hash WormConfig_default clock [msg "p" 1 Byte.x61 []] SqlTables_new).1 in
  let d2 := (sql_write_messages toy_hash chained clock [msg "p" 2 Byte.x62 []] d1).1 in
  verify_chain toy_hash "p" d2 = inr (Tampered 1).
Proof. vm_compute. reflexivity. Qed.

(** A message that names a tag twice makes the write fail; the journal in memory takes it. *)
Example repeated_tag_refused :
  (sql_write_messages toy_hash chained clock [msg "p" 1 Byte.x61 ["t"; "t"]] SqlTables_new).2 =
    inl (JournalBackend "UNIQUE constraint failed") ∧
  (write_messages [msg "p" 1 Byte.x61 ["t"; "t"]] InMemoryJournal_new).2 = inr tt.
Proof. vm_compute. done. Qed.

(** With the trigger in place a deletion that meets a row is an error, and nothing changes. *)
Example append_only_delete :
  let d := mkSqlTables (t_events other_db) (t_tags other_db) true in
  sql_delete_messages_to "p" 2 d = (d, inl (JournalBackend "WORM: event_journal is append-only")).
Proof. vm_compute. reflexivity. Qed.
End SqlDemo.
