(* ===== verification/SqlSetup.v ===== *)
(** * Setting up SQL storage, snapshots and queries
    ([crates/atomr-persistence-sql/src/config.rs], [dialect.rs], [schema.rs], [snapshot.rs],
    [query.rs])

    Connection settings, the dialect of a URL, the bootstrap of the schema, the snapshot store
    and the read journal.  The texts of the migrations are data and arguments. *)

From stdpp Require Import gmap strings list.
From Stdlib Require Import NArith ZArith Lia Ascii.
From S2P Require Import Prelude Encoding Address Journal Config Outbox SqlJournal.
Open Scope sql_scope.

(** ** Text *)

(** [str::to_ascii_lowercase]. *)
Definition ascii_lower (c : ascii) : ascii :=
  if byte_in 65 90 c then ascii_of_N (N_of_ascii c + 32) else c.
Fixpoint to_ascii_lowercase (s : string) : string :=
  match s with
  | EmptyString => EmptyString
  | String c s' => String (ascii_lower c) (to_ascii_lowercase s')
  end.

(** [str::contains]. *)
Definition contains_str (pat s : string) : bool := bool_decide (is_Some (split_once pat s)).

(** [str::ends_with]. *)
Definition ends_with (suf s : string) : bool :=
  bool_decide (String.length suf ≤ String.length s) &&
  bool_decide (string_drop (String.length s - String.length suf) s = suf).

(** [str::lines]: a last empty part is dropped, and a carriage return at the end of a line. *)
Definition strip_cr (l : string) : string :=
  match last (String.list_ascii_of_string l) with
  | Some c => if Ascii.eqb c "013" then
                String.string_of_list_ascii (removelast (String.list_ascii_of_string l)) else l
  | None => l
  end.
Definition str_lines (s : string) : list string :=
  let parts := split_char "010" s in
  strip_cr <$> (if decide (last parts = Some EmptyString) then removelast parts else parts).

(** [Vec<&str>::join]. *)
Definition join_lines (ls : list string) : string :=
  String.concat (String "010" EmptyString) ls.

(** ** Settings *)

Inductive SqlDialect := Sqlite | Postgres | MySql | MsSql.
#[export] Instance SqlDialect_eq_dec : EqDecision SqlDialect.
Proof. solve_decision. Defined.

Definition scheme (d : SqlDialect) : string :=
  match d with Sqlite => "sqlite" | Postgres => "postgres" | MySql => "mysql" | MsSql => "mssql" end.

Definition detect_dialect (url : string) : option SqlDialect :=
  let lower := to_ascii_lowercase url in
  if String.prefix "sqlite:" lower then Some Sqlite
  else if String.prefix "postgres:" lower || String.prefix "postgresql:" lower then Some Postgres
  else if String.prefix "mysql:" lower || String.prefix "mariadb:" lower then Some MySql
  else if String.prefix "mssql:" lower || String.prefix "sqlserver:" lower then Some MsSql
  else None.

Record SqlConfig := mkSqlConfig {
  sc_url : string;
  sc_dialect : SqlDialect;
  sc_max_connections : N;
  sc_auto_migrate : bool;
}.

Definition SqlConfig_new (url : string) : SqlConfig :=
  let dialect := default Sqlite (detect_dialect url) in
  let is_memory_sqlite :=
    bool_decide (dialect = Sqlite) && (contains_str ":memory:" url || ends_with ":memory:" url) in
  mkSqlConfig url dialect (if is_memory_sqlite then 1 else 5) true.

Definition with_max_connections (n : N) (c : SqlConfig) : SqlConfig :=
  mkSqlConfig (sc_url c) (sc_dialect c) n (sc_auto_migrate c).
Definition with_auto_migrate (b : bool) (c : SqlConfig) : SqlConfig :=
  mkSqlConfig (sc_url c) (sc_dialect c) (sc_max_connections c) b.

(** [env] is [std::env::var]. *)
Definition SqlConfig_from_env (env : string → option string) : SqlConfig :=
  let url := match env "ATOMR_PERSISTENCE_SQL_URL" with
             | Some u => u
             | None => match env "ATOMR_IT_SQL_URL" with
                       | Some u => u
                       | None => default "sqlite::memory:" (env "DATABASE_URL")
                       end
             end in
  let auto := match env "ATOMR_PERSISTENCE_SQL_AUTO_MIGRATE" with
              | Some v => negb (bool_decide (v = "0") || bool_decide (v = "false") || bool_decide (v = "no"))
              | None => true
              end in
  with_auto_migrate auto (SqlConfig_new url).

(** ** The schema *)

Definition no_update_trigger : string :=
  "CREATE TRIGGER IF NOT EXISTS event_journal_worm_no_update " +:+
  "BEFORE UPDATE ON event_journal BEGIN SELECT RAISE(ABORT, 'WORM: event_journal is append-only'); END".
Definition no_delete_trigger : string :=
  "CREATE TRIGGER IF NOT EXISTS event_journal_worm_no_delete " +:+
  "BEFORE DELETE ON event_journal BEGIN SELECT RAISE(ABORT, 'WORM: event_journal is append-only'); END".

Definition worm_deny_trigger_for (d : SqlDialect) : string :=
  match d with
  | Sqlite => no_update_trigger +:+ "@@" +:+ no_delete_trigger
  | Postgres | MySql | MsSql => EmptyString
  end.

(** The part of a line before a comment. *)
Definition before_comment (l : string) : string :=
  match split_once "--" l with Some (a, _) => a | None => l end.

Definition split_statements (ddl : string) : list string :=
  let stripped := join_lines (before_comment <$> str_lines ddl) in
  filter (λ s, s ≠ EmptyString) (trim <$> split_char ";" stripped).

(** [str::split] by a text; [fuel] bounds the number of parts. *)
Fixpoint split_str (fuel : nat) (pat s : string) : list string :=
  match fuel with
  | O => [s]
  | S fuel => match split_once pat s with Some (a, b) => a :: split_str fuel pat b | None => [s] end
  end.

Definition trigger_statements (d : SqlDialect) : list string :=
  let ddl := worm_deny_trigger_for d in
  filter (λ s, s ≠ EmptyString) (trim <$> split_str (S (String.length ddl)) "@@" ddl).

Section schema.
Context {D : Type}.
(** Executes a statement. *)
Variable exec : string → D → string + D.
Variable migration_for worm_migration_for : SqlDialect → string.

Fixpoint exec_all (stmts : list string) (d : D) : D * (JournalError + unit) :=
  match stmts with
  | [] => (d, inr tt)
  | s :: stmts' =>
      match exec s d with
      | inl e => (d, inl (JournalBackend e))
      | inr d' => exec_all stmts' d'
      end
  end.

Definition already_applied (e : string) : bool :=
  let msg := to_ascii_lowercase e in
  contains_str "duplicate column" msg || contains_str "already exists" msg ||
  contains_str "duplicate" msg || contains_str "exists" msg.

Fixpoint exec_tolerant (stmts : list string) (d : D) : D * (JournalError + unit) :=
  match stmts with
  | [] => (d, inr tt)
  | s :: stmts' =>
      match exec s d with
      | inl e => if already_applied e then exec_tolerant stmts' d else (d, inl (JournalBackend e))
      | inr d' => exec_tolerant stmts' d'
      end
  end.

Definition ensure_schema (cfg : SqlConfig) (d : D) : D * (JournalError + unit) :=
  if negb (sc_auto_migrate cfg) then (d, inr tt)
  else match exec_all (split_statements (migration_for (sc_dialect cfg))) d with
       | (d1, inl e) => (d1, inl e)
       | (d1, inr _) => exec_tolerant (split_statements (worm_migration_for (sc_dialect cfg))) d1
       end.

Definition install_worm_triggers (cfg : SqlConfig) (d : D) : D * (JournalError + unit) :=
  exec_all (trigger_statements (sc_dialect cfg)) d.

(** The journal over a pool: the settings and the protections in force. *)
Record SqlJournal := mkSqlJournal {
  sj_pool : D;
  sj_cfg : SqlConfig;
  sj_worm : WormConfig;
}.

Definition from_pool (pool : D) (cfg : SqlConfig) : D * (JournalError + SqlJournal) :=
  match ensure_schema cfg pool with
  | (d, inl e) => (d, inl e)
  | (d, inr _) => (d, inr (mkSqlJournal d cfg WormConfig_default))
  end.

Definition with_worm (worm : WormConfig) (j : SqlJournal) : D * (JournalError + SqlJournal) :=
  if deny_update_delete worm then
    match install_worm_triggers (sj_cfg j) (sj_pool j) with
    | (d, inl e) => (d, inl e)
    | (d, inr _) => (d, inr (mkSqlJournal d (sj_cfg j) worm))
    end
  else (sj_pool j, inr (mkSqlJournal (sj_pool j) (sj_cfg j) worm)).

Definition truncate (d : D) : D * (JournalError + unit) :=
  exec_all ((λ t, "DELETE FROM " +:+ t) <$> ["event_tags"; "event_journal"; "snapshot_store"]) d.
End schema.
Arguments SqlJournal : clear implicits.

(** ** Queries *)

Section query.
Context {D : Type} `{SqlDb D}.

Definition rj_events_by_tag (tag : string) (from max : N) (d : D) : JournalError + list EventEnvelope :=
  let? reprs := sql_events_by_tag tag from max d in inr (EventEnvelope_from <$> reprs).

Definition rj_events_by_persistence_id (pid : string) (from to : N) (d : D)
    : JournalError + list EventEnvelope :=
  let? reprs := sql_replay_messages pid from to u64_max d in inr (EventEnvelope_from <$> reprs).

Definition events_as_of (pid : string) (system_time_nanos : N) (d : D) : JournalError + list EventEnvelope :=
  let? reprs := replay_as_of pid (clamp_nanos system_time_nanos) d in inr (EventEnvelope_from <$> reprs).

Definition events_valid_as_of (pid : string) (valid_time_nanos system_time_nanos : N) (d : D)
    : JournalError + list EventEnvelope :=
  let? reprs := replay_valid_as_of pid (clamp_nanos valid_time_nanos) (clamp_nanos system_time_nanos) d in
  inr (EventEnvelope_from <$> reprs).
End query.

(** ** Snapshots *)

(** The statements on [snapshot_store]. *)
Class SnapDb (D : Type) := {
  insert_snapshot : string → Z → Bytes → Z → Z → D → string + D;
  select_snapshot : string → D → string + option (string * Z * Bytes * Z);
  delete_snapshots : string → Z → D → string + D;
}.

Section snapshots.
Context {D : Type} `{SnapDb D}.
Variable now_millis : Z.

(** The result of a statement is dropped. *)
Definition sql_snapshot_save (meta : SnapshotMetadata) (data : Bytes) (d : D) : D :=
  match insert_snapshot (snap_persistence_id meta) (u64_as_i64 (snap_sequence_nr meta)) data
          (u64_as_i64 (timestamp meta)) now_millis d with
  | inl _ => d
  | inr d' => d'
  end.

Definition sql_snapshot_load (pid : string) (d : D) : option (SnapshotMetadata * Bytes) :=
  match select_snapshot pid d with
  | inr (Some (p, seq, data, ts)) =>
      Some (mkSnapshotMetadata p (i64_as_u64 seq) (i64_as_u64 ts), data)
  | _ => None
  end.

Definition sql_snapshot_delete (pid : string) (to : N) (d : D) : D :=
  match delete_snapshots pid (u64_as_i64 to) d with
  | inl _ => d
  | inr d' => d'
  end.

#[local] Instance SqlSnapshotStore_SnapshotStore : SnapshotStore D := {
  snapshot_save := sql_snapshot_save;
  snapshot_load := sql_snapshot_load;
  snapshot_delete := sql_snapshot_delete;
}.
End snapshots.

(** *** What the store keeps *)

(** The rows of an id, by number; the table has one row per id and number. *)
Class SnapDbLaws (D : Type) `{SnapDb D} := {
  snaps_of : D → string → gmap Z (Bytes * Z);
  snap_up : D → Prop;
  law_insert_snapshot pid seq data ts now d d' : insert_snapshot pid seq data ts now d = inr d' →
    snaps_of d pid !! seq = None ∧
    ∀ q, snaps_of d' q = if decide (q = pid) then <[seq := (data, ts)]> (snaps_of d q) else snaps_of d q;
  law_select_snapshot pid d r : select_snapshot pid d = inr r →
    match r with
    | None => snaps_of d pid = ∅
    | Some (p, seq, data, ts) => p = pid ∧ snaps_of d pid !! seq = Some (data, ts) ∧
        ∀ s, is_Some (snaps_of d pid !! s) → (s ≤ seq)%Z
    end;
  law_delete_snapshots pid to d d' : delete_snapshots pid to d = inr d' →
    ∀ q, snaps_of d' q = if decide (q = pid) then filter (λ kv, (to < kv.1)%Z) (snaps_of d q) else snaps_of d q;
  up_insert_snapshot pid seq data ts now d : snap_up d → snaps_of d pid !! seq = None →
    ∃ d', insert_snapshot pid seq data ts now d = inr d' ∧ snap_up d';
  up_insert_taken pid seq data ts now d : is_Some (snaps_of d pid !! seq) →
    ∃ e, insert_snapshot pid seq data ts now d = inl e;
  up_select_snapshot pid d : snap_up d → ∃ r, select_snapshot pid d = inr r;
  up_delete_snapshots pid to d : snap_up d → ∃ d', delete_snapshots pid to d = inr d' ∧ snap_up d';
}.

Section snapshot_facts.
Context {D : Type} `{SnapDbLaws D}.
Implicit Types d : D.

(** A save is kept unless the id has a snapshot of that number. *)
Lemma snapshot_save_spec now meta data d q :
  snap_up d →
  snaps_of (sql_snapshot_save now meta data d) q =
    let seq := u64_as_i64 (snap_sequence_nr meta) in
    if decide (q = snap_persistence_id meta ∧ snaps_of d q !! seq = None)
    then <[seq := (data, u64_as_i64 (timestamp meta))]> (snaps_of d q) else snaps_of d q.
Proof.
  intros Hup. cbn zeta. unfold sql_snapshot_save. set (seq := u64_as_i64 _). set (pid := snap_persistence_id meta).
  destruct (snaps_of d pid !! seq) eqn:E.
  - destruct (up_insert_taken pid seq data (u64_as_i64 (timestamp meta)) now d) as [e ->]; [by eexists|].
    rewrite decide_False; [done|]. intros [-> ?]. congruence.
  - destruct (up_insert_snapshot pid seq data (u64_as_i64 (timestamp meta)) now d Hup E) as (d' & Ei & _).
    rewrite Ei. destruct (law_insert_snapshot _ _ _ _ _ _ _ Ei) as [_ Hs]. rewrite Hs.
    destruct (decide (q = pid)) as [->|Hq].
    + by rewrite decide_True.
    + rewrite decide_False; [done|]. tauto.
Qed.

(** A load returns the snapshot with the highest number. *)
Lemma snapshot_load_spec pid d :
  snap_up d →
  match sql_snapshot_load pid d with
  | None => snaps_of d pid = ∅
  | Some (meta, data) => snap_persistence_id meta = pid ∧
      ∃ seq ts, snaps_of d pid !! seq = Some (data, ts) ∧ snap_sequence_nr meta = i64_as_u64 seq ∧
        timestamp meta = i64_as_u64 ts ∧ ∀ s, is_Some (snaps_of d pid !! s) → (s ≤ seq)%Z
  end.
Proof.
  intros Hup. unfold sql_snapshot_load. destruct (up_select_snapshot pid d Hup) as [r Er]. rewrite Er.
  apply law_select_snapshot in Er. destruct r as [[[[p seq] data] ts]|]; [|done].
  destruct Er as (-> & Hl & Hm). split; [done|]. by exists seq, ts.
Qed.

Lemma snapshot_delete_spec pid to d q :
  snap_up d → (to < 2 ^ 63)%N →
  snaps_of (sql_snapshot_delete pid to d) q =
    if decide (q = pid) then filter (λ kv, (Z.of_N to < kv.1)%Z) (snaps_of d q) else snaps_of d q.
Proof.
  intros Hup Hto. unfold sql_snapshot_delete.
  destruct (up_delete_snapshots pid (u64_as_i64 to) d Hup) as (d' & Ed & _). rewrite Ed.
  apply law_delete_snapshots with (q := q) in Ed. by rewrite Ed, u64_as_i64_small.
Qed.

(** A deletion of everything deletes nothing: the bound becomes [-1]. *)
Lemma snapshot_delete_all_deletes_nothing pid d q :
  snap_up d → (∀ s, is_Some (snaps_of d pid !! s) → (0 ≤ s)%Z) →
  snaps_of (sql_snapshot_delete pid u64_max d) q = snaps_of d q.
Proof.
  intros Hup Hpos. unfold sql_snapshot_delete.
  destruct (up_delete_snapshots pid (u64_as_i64 u64_max) d Hup) as (d' & Ed & _). rewrite Ed.
  apply law_delete_snapshots with (q := q) in Ed. rewrite Ed. case_decide as Hq; [|done]. subst q.
  apply map_filter_id. intros s x Hs. change (u64_as_i64 u64_max) with (-1)%Z. cbn.
  pose proof (Hpos s (ex_intro _ x Hs)). lia.
Qed.
End snapshot_facts.

(** ** Facts about the setup *)

(** The triggers are installed on SQLite only. *)
Lemma trigger_statements_spec d :
  trigger_statements d = if decide (d = Sqlite) then [no_update_trigger; no_delete_trigger] else [].
Proof. by destruct d; vm_compute. Qed.

(** Elsewhere [deny_update_delete] installs nothing and is reported as a success. *)
Lemma with_worm_other_dialects {D} (exec : string → D → string + D) worm (j : SqlJournal D) :
  sc_dialect (sj_cfg j) ≠ Sqlite →
  with_worm exec worm j = (sj_pool j, inr (mkSqlJournal (sj_pool j) (sj_cfg j) worm)).
Proof.
  intros Hd. unfold with_worm, install_worm_triggers. rewrite trigger_statements_spec, decide_False by done.
  by destruct (deny_update_delete worm).
Qed.

Lemma exec_all_ok {D} (exec : string → D → string + D) stmts d :
  (∀ s d, s ∈ stmts → ∃ d', exec s d = inr d') → ∃ d', exec_all exec stmts d = (d', inr tt).
Proof.
  revert d; induction stmts as [|s stmts IH]; intros d Hs; cbn [exec_all]; [by eauto|].
  destruct (Hs s d) as [d' ->]; [by left|]. apply IH. intros s' d1 Hin. apply Hs. by right.
Qed.

(** The bootstrap succeeds on a schema that is there already, whatever of the second
    migration is refused as present. *)
Lemma ensure_schema_idempotent {D} (exec : string → D → string + D) mig worm_mig cfg d :
  (∀ s d, s ∈ split_statements (mig (sc_dialect cfg)) → ∃ d', exec s d = inr d') →
  (∀ s d, s ∈ split_statements (worm_mig (sc_dialect cfg)) →
     match exec s d with inl e => already_applied e = true | inr _ => True end) →
  ∃ d', ensure_schema exec mig worm_mig cfg d = (d', inr tt).
Proof.
  intros H1 H2. unfold ensure_schema. destruct (sc_auto_migrate cfg); cbn [negb]; [|by eauto].
  destruct (exec_all_ok exec _ d H1) as [d1 ->].
  revert d1 H2. induction (split_statements (worm_mig _)) as [|s l IH]; intros d1 H2; cbn [exec_tolerant]; [by eauto|].
  pose proof (H2 s d1 ltac:(by left)) as Hs.
  destruct (exec s d1) as [e|d2]; [rewrite Hs|]; apply IH; intros s' d' Hin; apply H2; by right.
Qed.

Example split_statements_skips_comments :
  split_statements ("-- hello" +:+ String "010" ("CREATE TABLE a (id INT);" +:+ String "010" "CREATE TABLE b (id INT);"))
    = ["CREATE TABLE a (id INT)"; "CREATE TABLE b (id INT)"].
Proof. vm_compute. reflexivity. Qed.

Example detects_all_schemes :
  detect_dialect <$> ["sqlite::memory:"; "postgres://a"; "postgresql://a"; "MySQL://a"; "mssql://a"; "https://x"]
    = [Some Sqlite; Some Postgres; Some Postgres; Some MySql; Some MsSql; None].
Proof. vm_compute. reflexivity. Qed.

Example from_env_default :
  SqlConfig_from_env (λ _, None) = mkSqlConfig "sqlite::memory:" Sqlite 1 true.
Proof. vm_compute. reflexivity. Qed.

(** *** A store of maps *)

Record SnapTable := mkSnapTable { snap_rows : gmap string (gmap Z (Bytes * Z)) }.

Definition snap_of (d : SnapTable) (pid : string) : gmap Z (Bytes * Z) := default ∅ (snap_rows d !! pid).

(** The entry with the highest key. *)
Definition highest_entry (l : list (Z * (Bytes * Z))) : option (Z * (Bytes * Z)) :=
  foldr (λ e acc, match acc with Some e' => if (e.1 <=? e'.1)%Z then acc else Some e | None => Some e end) None l.

#[export] Instance SnapTable_Db : SnapDb SnapTable := {
  insert_snapshot pid seq data ts _ d :=
    match snap_of d pid !! seq with
    | Some _ => inl "UNIQUE constraint failed"
    | None => inr (mkSnapTable (<[pid := <[seq := (data, ts)]> (snap_of d pid)]> (snap_rows d)))
    end;
  select_snapshot pid d :=
    inr ((λ e : Z * (Bytes * Z), (pid, e.1, e.2.1, e.2.2)) <$> highest_entry (map_to_list (snap_of d pid)));
  delete_snapshots pid to d :=
    inr (mkSnapTable (<[pid := filter (λ kv, (to < kv.1)%Z) (snap_of d pid)]> (snap_rows d)));
}.

Lemma highest_entry_spec l :
  match highest_entry l with
  | None => l = []
  | Some e => e ∈ l ∧ Forall (λ e', (e'.1 ≤ e.1)%Z) l
  end.
Proof.
  induction l as [|e l IH]; [done|]. cbn [highest_entry foldr].
  fold (highest_entry l). destruct (highest_entry l) as [e'|].
  - destruct IH as [Hin Hall]. destruct (Z.leb_spec e.1 e'.1).
    + split; [by right|]. by constructor.
    + split; [by left|]. constructor; [lia|]. eapply Forall_impl; [exact Hall|]. cbn. lia.
  - subst l. split; [by left|]. constructor; [lia|constructor].
Qed.

#[export] Program Instance SnapTable_Laws : SnapDbLaws SnapTable := {
  snaps_of := snap_of;
  snap_up _ := True;
}.
Next Obligation.
  cbn. intros pid seq data ts now d d' Hi. destruct (snap_of d pid !! seq) eqn:E; simplify_eq.
  split; [done|]. intros q. unfold snap_of at 1. cbn. case_decide as Hq; subst.
  - by rewrite lookup_insert_eq.
  - by rewrite lookup_insert_ne.
Qed.
Next Obligation.
  cbn. intros pid d r Hr. injection Hr as <-. pose proof (highest_entry_spec (map_to_list (snap_of d pid))) as Hs.
  destruct (highest_entry _) as [[s [data ts]]|]; cbn.
  - destruct Hs as [Hin Hall]. split_and!; [done|by apply elem_of_map_to_list|].
    intros s' [x Hx]. rewrite Forall_forall in Hall. apply (Hall (s', x)). by apply elem_of_map_to_list.
  - by apply map_to_list_empty_iff.
Qed.
Next Obligation.
  cbn. intros pid to d d' Hd q. injection Hd as <-. unfold snap_of at 1. cbn. case_decide as Hq; subst.
  - by rewrite lookup_insert_eq.
  - by rewrite lookup_insert_ne.
Qed.
Next Obligation. cbn. intros pid seq data ts now d _ ->. eauto. Qed.
Next Obligation. cbn. intros pid seq data ts now d [x ->]. eauto. Qed.
Next Obligation. cbn. eauto. Qed.
Next Obligation. cbn. eauto. Qed.

(** The second of two snapshots with one number is lost, and the caller is not told; the
    store in memory returns the later one. *)
Example snapshot_same_number_lost :
  let save b d := sql_snapshot_save 0 (mkSnapshotMetadata "p" 7 0) [b] d in
  (snd <$> sql_snapshot_load "p" (save Byte.x02 (save Byte.x01 (mkSnapTable ∅)))) = Some [Byte.x01] ∧
  (snd <$> snapshot_load "p" (InMemorySnapshotStore_save (mkSnapshotMetadata "p" 7 0) [Byte.x02]
     (InMemorySnapshotStore_save (mkSnapshotMetadata "p" 7 0) [Byte.x01] InMemorySnapshotStore_new))) = Some [Byte.x02].
Proof. vm_compute. done. Qed.
