(* ===== verification/StoreJournals.v ===== *)
(** * Journals on other stores
    ([crates/atomr-persistence-cassandra/src/journal.rs], [config.rs];
    [crates/atomr-persistence-aws/src/journal.rs], [keys.rs];
    [crates/atomr-persistence-redis/src/journal.rs], [config.rs])

    As for the SQL journal, a store is an interface with one operation per request and laws
    for the requests that succeed.  [Cassandra] spreads a stream over partitions and finds its
    end by walking them; [DynamoDb] relies on sort keys that order as the numbers do; [Redis]
    keeps a sorted set per stream. *)

From stdpp Require Import gmap strings list sorting.
From Stdlib Require Import NArith ZArith Lia Ascii.
From S2P Require Import Prelude Encoding Address Journal SqlJournal SqlFacts.
Open Scope sql_scope.

(** ** Cassandra *)

Module Cassandra.

Record CassandraConfig := mkCassandraConfig {
  keyspace : string;
  partition_size : N;
}.

Definition with_partition_size (size : N) (c : CassandraConfig) : CassandraConfig :=
  mkCassandraConfig (keyspace c) (N.max size 1).

(** The division panics when the size is zero, which the builder excludes. *)
Definition partition_for (cfg : CassandraConfig) (seq : N) : Z :=
  u64_as_i64 ((seq - 1) / partition_size cfg).

(** A row; a column that was never written is null, and so is an empty set. *)
Record CassRow := mkCassRow {
  cr_seq : Z;
  cr_payload : option Bytes;
  cr_manifest : option string;
  cr_writer : option string;
  cr_deleted : option bool;
  cr_tags : gset string;
}.

(** [cass_prepare] stands for the preparation of a statement. *)
Class CassDb (C : Type) := {
  cass_prepare : C → string + unit;
  cass_last : string → Z → C → string + option Z;
  cass_insert : string → Z → CassRow → C → string + C;
  cass_mark : string → Z → Z → C → string + C;
  cass_range : string → Z → Z → Z → C → string + list CassRow;
}.

Section journal.
Context {C : Type} `{CassDb C}.
Variable cfg : CassandraConfig.

(** The loop of [current_max]; [fuel] bounds the number of partitions. *)
Fixpoint walk (fuel : nat) (pid : string) (partition : Z) (latest : N) (c : C)
    : option (JournalError + N) :=
  match fuel with
  | O => None
  | S fuel =>
      match backend (cass_last pid partition c) with
      | inl e => Some (inl e)
      | inr (Some seq) => walk fuel pid (partition + 1) (i64_as_u64 seq) c
      | inr None => Some (inr latest)
      end
  end.

Definition cass_current_max (fuel : nat) (pid : string) (c : C) : option (JournalError + N) :=
  match backend (cass_prepare c) with
  | inl e => Some (inl e)
  | inr _ => walk fuel pid 0 0 c
  end.

Definition cass_row_of (m : PersistentRepr) : CassRow :=
  mkCassRow (u64_as_i64 (sequence_nr m)) (Some (payload m)) (Some (manifest m)) (Some (writer_uuid m))
    (Some false) (list_to_set (tags m)).

Fixpoint cass_write_rows (expected : N) (batch : list PersistentRepr) (c : C) : C * (JournalError + unit) :=
  match batch with
  | [] => (c, inr tt)
  | m :: rest =>
      if negb (sequence_nr m =? expected)%N
      then (c, inl (SequenceOutOfOrder expected (sequence_nr m)))
      else match backend (cass_insert (persistence_id m) (partition_for cfg (sequence_nr m)) (cass_row_of m) c) with
           | inl e => (c, inl e)
           | inr c' => cass_write_rows (u64_add expected 1) rest c'
           end
  end.

Fixpoint cass_write_batches (fuel : nat) (bs : list (string * list PersistentRepr)) (c : C)
    : option (C * (JournalError + unit)) :=
  match bs with
  | [] => Some (c, inr tt)
  | (pid, batch) :: bs' =>
      r ← cass_current_max fuel pid c;
      match r with
      | inl e => Some (c, inl e)
      | inr n =>
          match cass_write_rows (u64_add n 1) batch c with
          | (c', inr _) => cass_write_batches fuel bs' c'
          | (c', inl e) => Some (c', inl e)
          end
      end
  end.

Definition cass_write_messages (fuel : nat) (ms : list PersistentRepr) (c : C)
    : option (C * (JournalError + unit)) :=
  match ms with
  | [] => Some (c, inr tt)
  | _ => match backend (cass_prepare c) with
         | inl e => Some (c, inl e)
         | inr _ => cass_write_batches fuel (batches ms) c
         end
  end.

(** The loop over [1..=to]: [n] numbers are left, from [seq] on. *)
Fixpoint mark_loop (n : nat) (pid : string) (seq : N) (c : C) : C * (JournalError + unit) :=
  match n with
  | O => (c, inr tt)
  | S n =>
      match backend (cass_mark pid (partition_for cfg seq) (u64_as_i64 seq) c) with
      | inl e => (c, inl e)
      | inr c' => mark_loop n pid (seq + 1) c'
      end
  end.

Definition cass_delete_messages_to (pid : string) (to : N) (c : C) : C * (JournalError + unit) :=
  match backend (cass_prepare c) with
  | inl e => (c, inl e)
  | inr _ => mark_loop (N.to_nat to) pid 1 c
  end.

(** A null column is an error of the row; a set is listed in the order it happens to be
    iterated in. *)
Definition decode_row (pid : string) (r : CassRow) : JournalError + PersistentRepr :=
  match cr_payload r, cr_manifest r, cr_writer r, cr_deleted r with
  | Some data, Some man, Some writer, Some del =>
      inr (mkPersistentRepr pid (i64_as_u64 (cr_seq r)) data man writer del (elements (cr_tags r)))
  | _, _, _, _ => inl (JournalBackend "unexpected null")
  end.

(** The loop over the rows of a partition. *)
Fixpoint take_rows (pid : string) (max : N) (rows : list CassRow) (out : list PersistentRepr)
    : JournalError + list PersistentRepr :=
  match rows with
  | [] => inr out
  | r :: rest =>
      let? x := decode_row pid r in
      if deleted x then take_rows pid max rest out
      else
        let out := out ++ [x] in
        if (max <=? N.of_nat (length out))%N then inr out else take_rows pid max rest out
  end.

(** The loop over the partitions, [n] of them from [partition] on. *)
Fixpoint replay_partitions (n : nat) (pid : string) (from to max : N) (partition : Z)
    (out : list PersistentRepr) (c : C) : JournalError + list PersistentRepr :=
  match n with
  | O => inr out
  | S n =>
      if (max <=? N.of_nat (length out))%N then inr out
      else
        let remaining := (max - N.of_nat (length out))%N in
        let? rows := backend (cass_range pid partition (u64_as_i64 from) (u64_as_i64 to) c) in
        let? out := take_rows pid max (take_N remaining rows) out in
        replay_partitions n pid from to max (partition + 1) out c
  end.

Definition cass_replay_messages (pid : string) (from to max : N) (c : C)
    : JournalError + list PersistentRepr :=
  if (to <? from)%N then inr []
  else
    let start := partition_for cfg (N.max from 1) in
    let stop := partition_for cfg (N.min to (u64_max - 1)) in
    let? _ := backend (cass_prepare c) in
    replay_partitions (Z.to_nat (stop - start + 1)) pid from to max start [] c.

Definition cass_highest_sequence_nr (fuel : nat) (pid : string) (c : C) : option (JournalError + N) :=
  cass_current_max fuel pid c.
End journal.

(** *** What the statements do *)

(** An INSERT and an UPDATE write the row of that number, whether it is there or not. *)
Fixpoint upsert (f : option CassRow → CassRow) (seq : Z) (l : list CassRow) : list CassRow :=
  match l with
  | [] => [f None]
  | r :: l' =>
      if (cr_seq r =? seq)%Z then f (Some r) :: l'
      else if (seq <? cr_seq r)%Z then f None :: l
      else r :: upsert f seq l'
  end.

Definition mark_cass (seq : Z) (o : option CassRow) : CassRow :=
  match o with
  | Some r => mkCassRow (cr_seq r) (cr_payload r) (cr_manifest r) (cr_writer r) (Some true) (cr_tags r)
  | None => mkCassRow seq None None None (Some true) ∅
  end.

Definition cass_in (from to : Z) (r : CassRow) : Prop := (from ≤ cr_seq r)%Z ∧ (cr_seq r ≤ to)%Z.
#[export] Instance cass_in_dec from to r : Decision (cass_in from to r) := _.

(** The rows of each partition, in the order of their numbers. *)
Class CassLaws (C : Type) `{CassDb C} := {
  part : C → string → Z → list CassRow;
  cass_up : C → Prop;
  law_cass_last pid p c v : cass_last pid p c = inr v → v = cr_seq <$> last (part c pid p);
  law_cass_insert pid p r c c' : cass_insert pid p r c = inr c' →
    ∀ q s, part c' q s = if decide (q = pid ∧ s = p) then upsert (λ _, r) (cr_seq r) (part c q s) else part c q s;
  law_cass_mark pid p seq c c' : cass_mark pid p seq c = inr c' →
    ∀ q s, part c' q s = if decide (q = pid ∧ s = p) then upsert (mark_cass seq) seq (part c q s) else part c q s;
  law_cass_range pid p from to c l : cass_range pid p from to c = inr l →
    l = filter (cass_in from to) (part c pid p);
  up_prepare c : cass_up c → cass_prepare c = inr tt;
  up_cass_last pid p c : cass_up c → ∃ v, cass_last pid p c = inr v;
  up_cass_insert pid p r c : cass_up c → ∃ c', cass_insert pid p r c = inr c' ∧ cass_up c';
  up_cass_mark pid p seq c : cass_up c → ∃ c', cass_mark pid p seq c = inr c' ∧ cass_up c';
  up_cass_range pid p from to c : cass_up c → ∃ l, cass_range pid p from to c = inr l;
}.

(** Tables of lists. *)
Record CassTable := mkCassTable { cass_parts : gmap (string * Z) (list CassRow) }.
Definition table_part (c : CassTable) (pid : string) (p : Z) : list CassRow := default [] (cass_parts c !! (pid, p)).

#[export] Instance CassTable_Db : CassDb CassTable := {
  cass_prepare _ := inr tt;
  cass_last pid p c := inr (cr_seq <$> last (table_part c pid p));
  cass_insert pid p r c :=
    inr (mkCassTable (<[(pid, p) := upsert (λ _, r) (cr_seq r) (table_part c pid p)]> (cass_parts c)));
  cass_mark pid p seq c :=
    inr (mkCassTable (<[(pid, p) := upsert (mark_cass seq) seq (table_part c pid p)]> (cass_parts c)));
  cass_range pid p from to c := inr (filter (cass_in from to) (table_part c pid p));
}.

Lemma table_part_insert c pid p l q s :
  table_part (mkCassTable (<[(pid, p) := l]> (cass_parts c))) q s =
    if decide (q = pid ∧ s = p) then l else table_part c q s.
Proof.
  unfold table_part. cbn. case_decide as Hq.
  - destruct Hq as [-> ->]. by rewrite lookup_insert_eq.
  - rewrite lookup_insert_ne; [done|]. intros [= -> ->]. by apply Hq.
Qed.

#[export] Program Instance CassTable_Laws : CassLaws CassTable := {
  part := table_part;
  cass_up _ := True;
}.
Solve All Obligations with (cbn; intros; simplify_eq; eauto).
Next Obligation. cbn. intros pid p r c c' E q s. injection E as <-. rewrite table_part_insert. by case_decide as Hq; [destruct Hq as [-> ->]|]. Qed.
Next Obligation. cbn. intros pid p seq c c' E q s. injection E as <-. rewrite table_part_insert. by case_decide as Hq; [destruct Hq as [-> ->]|]. Qed.

End Cassandra.

(** *** Streams cut into partitions *)

Module CassandraFacts.
Import Cassandra.

(** The records of [l] in partition [p]. *)
Definition seg (size p : nat) (l : list PersistentRepr) : list PersistentRepr := take size (drop (p * size) l).

Lemma seg_nil size p l : length l ≤ p * size → seg size p l = [].
Proof. intros Hl. unfold seg. rewrite drop_ge by lia. apply take_nil. Qed.

Lemma length_seg size p l : length (seg size p l) = min size (length l - p * size).
Proof. unfold seg. by rewrite length_take, length_drop. Qed.

Lemma seg_lookup size p l i : i < size → seg size p l !! i = l !! (p * size + i).
Proof. intros Hi. unfold seg. by rewrite lookup_take_lt, lookup_drop. Qed.

Lemma seg_fmap f size p l : f <$> seg size p l = seg size p (f <$> l).
Proof. unfold seg. by rewrite fmap_take, fmap_drop. Qed.

Lemma seg_insert_in size p l i x :
  p * size ≤ i < p * size + size → seg size p (<[i := x]> l) = <[i - p * size := x]> (seg size p l).
Proof.
  intros Hi. apply list_eq. intros j. destruct (decide (j < size)) as [Hj|Hj].
  - rewrite seg_lookup by done.
    destruct (decide (j = i - p * size)) as [->|Hne].
    + replace (p * size + (i - p * size)) with i by lia.
      destruct (decide (i < length l)).
      * rewrite !list_lookup_insert_eq; [done| |done]. rewrite length_seg. lia.
      * rewrite !lookup_ge_None_2; [done| |]; rewrite length_insert, ?length_seg; lia.
    + rewrite !list_lookup_insert_ne by lia. by rewrite seg_lookup.
  - rewrite !lookup_ge_None_2; [done| |]; rewrite ?length_insert, length_seg; lia.
Qed.

Lemma seg_insert_out size p l i x :
  ¬ (p * size ≤ i < p * size + size) → seg size p (<[i := x]> l) = seg size p l.
Proof.
  intros Hi. apply list_eq. intros j. destruct (decide (j < size)) as [Hj|Hj].
  - rewrite !seg_lookup by done. rewrite list_lookup_insert_ne by lia. done.
  - rewrite !lookup_ge_None_2; [done| |]; rewrite length_seg, ?length_insert; lia.
Qed.

Lemma seg_snoc size p l x :
  0 < size →
  seg size p (l ++ [x]) = if decide (p = length l / size) then seg size p l ++ [x] else seg size p l.
Proof.
  intros Hs. pose proof (Nat.div_mod_eq (length l) size) as Hd.
  pose proof (Nat.mod_upper_bound (length l) size ltac:(lia)) as Hm.
  set (q := length l / size) in *. set (r := length l mod size) in *. unfold seg. case_decide as Hp.
  - subst p. rewrite drop_app_le by nia. rewrite take_app.
    rewrite (take_ge (drop _ _)) by (rewrite length_drop; nia). f_equal.
    rewrite length_drop. rewrite take_ge; [done|]. cbn. nia.
  - destruct (decide (p < q)).
    + rewrite drop_app_le by nia. rewrite take_app_le; [done|]. rewrite length_drop. nia.
    + rewrite drop_ge by (rewrite length_app; cbn; nia). rewrite drop_ge by nia. done.
Qed.

(** The partitions from [p] on, [n] of them, in order. *)
Lemma segs_app size p n l :
  mjoin ((λ k, seg size k l) <$> seq p n) = take (n * size) (drop (p * size) l).
Proof.
  revert p; induction n as [|n IH]; intros p; [done|]. cbn [seq fmap list_fmap mjoin list_join].
  fold (mjoin ((λ k, seg size k l) <$> seq (S p) n)). rewrite IH. unfold seg.
  replace (S p * size) with (p * size + size) by lia. rewrite <- drop_drop.
  replace (S n * size) with (size + n * size) by lia. apply take_take_drop.
Qed.

Section facts.
Context {C : Type} `{CassLaws C}.
Variable cfg : CassandraConfig.
Hypothesis Hsize : (0 < partition_size cfg)%N.
Implicit Types c : C.

Abbreviation size := (N.to_nat (partition_size cfg)).

Definition to_row (r : PersistentRepr) : CassRow :=
  mkCassRow (Z.of_N (sequence_nr r)) (Some (payload r)) (Some (manifest r)) (Some (writer_uuid r))
    (Some (deleted r)) (list_to_set (tags r)).

(** The tags come back without repetition, in the order of the set. *)
Definition norm (r : PersistentRepr) : PersistentRepr :=
  mkPersistentRepr (persistence_id r) (sequence_nr r) (payload r) (manifest r) (writer_uuid r) (deleted r)
    (elements (list_to_set (tags r) : gset string)).

Record cass_stream (c : C) (q : string) (l : list PersistentRepr) : Prop := {
  cs_rows : ∀ p : nat, part c q (Z.of_nat p) = to_row <$> seg size p l;
  cs_pid : Forall (λ r, persistence_id r = q) l;
  cs_nr : numbered_after 0 l;
}.
Definition cass_rel (c : C) (S : Streams) : Prop := ∀ q, cass_stream c q (S q).

Lemma partition_for_small n :
  (n < 2 ^ 63)%N → partition_for cfg (n + 1) = Z.of_nat (N.to_nat n / size).
Proof.
  intros Hn. unfold partition_for. rewrite N.add_sub. rewrite u64_as_i64_small.
  2:{ eapply N.le_lt_trans; [apply N.Div0.div_le_upper_bound with (q := n); nia|done]. }
  rewrite <- N2Nat.inj_div. lia.
Qed.

Lemma stream_seq c q l i r : cass_stream c q l → l !! i = Some r → sequence_nr r = (N.of_nat i + 1)%N.
Proof. intros Hs Hi. by rewrite (cs_nr _ _ _ Hs _ _ Hi). Qed.

(** *** The end of a stream *)

Lemma part_last c q l p :
  cass_stream c q l → length l < stream_limit →
  (cr_seq <$> last (part c q (Z.of_nat p))) =
    if decide (length l ≤ p * size) then None else Some (Z.of_nat (min ((p + 1) * size) (length l))).
Proof.
  intros Hs Hlim. rewrite (cs_rows _ _ _ Hs). case_decide as Hl; [by rewrite seg_nil|].
  rewrite last_lookup, length_fmap, length_seg, list_lookup_fmap.
  assert (0 < size) by lia. rewrite seg_lookup by lia.
  destruct (lookup_lt_is_Some_2 l (p * size + pred (min size (length l - p * size)))) as [r Hr]; [lia|].
  rewrite Hr. cbn. f_equal. rewrite (stream_seq _ _ _ _ _ Hs Hr). lia.
Qed.

Lemma walk_ok c q l p f :
  cass_up c → cass_stream c q l → length l < stream_limit → length l ≤ (p + f) * size →
  walk (S f) q (Z.of_nat p) (N.of_nat (min (p * size) (length l))) c = Some (inr (N.of_nat (length l))).
Proof.
  intros Hup Hs Hlim. revert p; induction f as [|f IH]; intros p Hf; cbn [walk];
    destruct (up_cass_last q (Z.of_nat p) c Hup) as [v Ev]; rewrite Ev; cbn [backend];
    apply law_cass_last in Ev as ->; rewrite (part_last _ _ _ _ Hs Hlim).
  - rewrite decide_True by lia. do 3 f_equal. lia.
  - case_decide as Hl; [do 3 f_equal; lia|]. unfold stream_limit in Hlim.
    rewrite i64_as_u64_small by lia. replace (Z.of_nat p + 1)%Z with (Z.of_nat (p + 1)) by lia.
    rewrite <- Z_nat_N, Nat2Z.id. apply IH. lia.
Qed.

Lemma cass_current_max_ok c q l fuel :
  cass_up c → cass_stream c q l → length l < stream_limit → length l < fuel →
  cass_current_max fuel q c = Some (inr (N.of_nat (length l))).
Proof.
  intros Hup Hs Hlim Hf. unfold cass_current_max. rewrite up_prepare by done. cbn [backend].
  destruct fuel as [|f]; [lia|]. pose proof (walk_ok c q l 0 f Hup Hs Hlim) as Hw.
  rewrite Nat.mul_0_l, Nat.min_0_l in Hw. apply Hw. nia.
Qed.

(** *** Writes *)

Lemma upsert_last f seq l : Forall (λ r, (cr_seq r < seq)%Z) l → upsert f seq l = l ++ [f None].
Proof.
  induction 1 as [|r l Hr Hl IH]; cbn [upsert app]; [done|].
  rewrite (proj2 (Z.eqb_neq _ _)), (proj2 (Z.ltb_ge _ _)) by lia. by rewrite IH.
Qed.

Lemma upsert_at f l i r :
  l !! i = Some r → (∀ j x, j < i → l !! j = Some x → (cr_seq x < cr_seq r)%Z) →
  upsert f (cr_seq r) l = <[i := f (Some r)]> l.
Proof.
  revert i; induction l as [|x l IH]; intros i Hi Hlt; [done|]. cbn [upsert].
  destruct i as [|i].
  - injection Hi as ->. by rewrite Z.eqb_refl.
  - pose proof (Hlt 0 x ltac:(lia) eq_refl). cbn in Hi.
    rewrite (proj2 (Z.eqb_neq _ _)), (proj2 (Z.ltb_ge _ _)) by lia.
    rewrite (IH i Hi); [done|]. intros j y Hj Hy. apply (Hlt (S j)); [lia|done].
Qed.

Lemma seg_row_seq c q l p i row :
  cass_stream c q l → (to_row <$> seg size p l) !! i = Some row → cr_seq row = Z.of_nat (p * size + i + 1).
Proof.
  intros Hs Hi. rewrite list_lookup_fmap in Hi. destruct (seg size p l !! i) as [r|] eqn:Er; [|done].
  injection Hi as <-. pose proof (lookup_lt_Some _ _ _ Er) as Hl. rewrite length_seg in Hl.
  rewrite seg_lookup in Er by lia. cbn. rewrite (stream_seq _ _ _ _ _ Hs Er). lia.
Qed.

(** Every other stream, and every other partition, is untouched. *)
Lemma cass_insert_ok m l c c' :
  cass_stream c (persistence_id m) l → length l < stream_limit →
  sequence_nr m = (N.of_nat (length l) + 1)%N →
  cass_insert (persistence_id m) (partition_for cfg (sequence_nr m)) (cass_row_of m) c = inr c' →
  cass_stream c' (persistence_id m) (l ++ [stored m]) ∧
  ∀ q l', q ≠ persistence_id m → cass_stream c q l' → cass_stream c' q l'.
Proof.
  intros Hs Hlim Hnr Hi. assert (N.of_nat (length l) + 1 < 2 ^ 63)%N as Hb by (unfold stream_limit in Hlim; lia).
  rewrite Hnr, partition_for_small, Nat2N.id in Hi by lia. pose proof (law_cass_insert _ _ _ _ _ Hi) as Hp.
  assert (cass_row_of m = to_row (stored m)) as Erow.
  { unfold cass_row_of, to_row. cbn. by rewrite u64_as_i64_small by lia. }
  split; [|intros q l' Hq [Hr Hpid Hn]; split; [|done..]; intros p; rewrite Hp, decide_False by tauto; apply Hr].
  split.
  - intros p. rewrite Hp, seg_snoc by lia. destruct (decide (p = length l / size)) as [->|Hne].
    + rewrite decide_True by done. rewrite (cs_rows _ _ _ Hs), fmap_app, Erow. apply upsert_last.
      apply Forall_lookup. intros i row Hrow. rewrite (seg_row_seq _ _ _ _ _ _ Hs Hrow).
      apply lookup_lt_Some in Hrow. rewrite length_fmap, length_seg in Hrow. cbn. lia.
    + rewrite decide_False by lia. apply Hs.
  - apply Forall_app. split; [apply Hs|]. by repeat constructor.
  - apply numbered_after_app. split; [apply Hs|]. intros [|i] x Hx; [|done]. simplify_eq/=. lia.
Qed.

(** The loop over a batch writes the records up to the first one out of order. *)
Lemma cass_write_rows_ok q batch l c :
  cass_up c → cass_stream c q l → Forall (λ m, persistence_id m = q) batch →
  length l + length batch < stream_limit →
  ∃ c' k, cass_stream c' q (l ++ (stored <$> take k batch)) ∧ cass_up c' ∧
    (∀ q' l', q' ≠ q → cass_stream c q' l' → cass_stream c' q' l') ∧
    ((numbered_after (length l) batch ∧ k = length batch ∧
      cass_write_rows cfg (N.of_nat (length l) + 1) batch c = (c', inr tt)) ∨
     (¬ numbered_after (length l) batch ∧
      ∃ e g, cass_write_rows cfg (N.of_nat (length l) + 1) batch c = (c', inl (SequenceOutOfOrder e g)))).
Proof.
  intros Hup Hs Hpid; revert l c Hup Hs. induction Hpid as [|m batch Hm Hpid IH]; intros l c Hup Hs Hlim;
    cbn [cass_write_rows].
  { exists c, 0. rewrite app_nil_r. split_and!; try done. by left. }
  cbn [length] in Hlim. setoid_rewrite numbered_after_cons.
  destruct (N.eqb_spec (sequence_nr m) (N.of_nat (length l) + 1)) as [Hnr|Hnr]; cbn [negb].
  2:{ exists c, 0. rewrite app_nil_r. split_and!; try done. right. split; [tauto|]. eauto. }
  subst q. destruct (up_cass_insert (persistence_id m) (partition_for cfg (sequence_nr m)) (cass_row_of m) c Hup)
    as (c1 & Ei & Hup1). rewrite Ei. cbn [backend].
  destruct (cass_insert_ok m l c c1 Hs ltac:(lia) Hnr Ei) as [Hs1 Ho1].
  destruct (IH (l ++ [stored m]) c1 Hup1 Hs1) as (c' & k & Hs' & Hup' & Ho' & Hres).
  { rewrite length_app. cbn. lia. }
  rewrite length_app in Hres. cbn [length] in Hres. rewrite Nat.add_1_r in Hres.
  rewrite u64_add_small by (unfold stream_limit, u64_modulus in *; lia).
  replace (N.of_nat (length l) + 1 + 1)%N with (N.of_nat (S (length l)) + 1)%N by lia.
  exists c', (S k). rewrite <- app_assoc in Hs'. split_and!; [done|done|by eauto|].
  destruct Hres as [(Hn & -> & E)|(Hn & e & g & E)]; [left|right]; rewrite E; split; try tauto. eauto.
Qed.

(** *** Deletions *)

Definition set_deleted (r : PersistentRepr) : PersistentRepr :=
  mkPersistentRepr (persistence_id r) (sequence_nr r) (payload r) (manifest r) (writer_uuid r) true (tags r).

Lemma cass_mark_ok q l n r c c' :
  cass_stream c q l → length l < stream_limit → l !! n = Some r →
  cass_mark q (partition_for cfg (N.of_nat n + 1)) (u64_as_i64 (N.of_nat n + 1)) c = inr c' →
  cass_stream c' q (<[n := set_deleted r]> l) ∧
  ∀ q' l', q' ≠ q → cass_stream c q' l' → cass_stream c' q' l'.
Proof.
  intros Hs Hlim Hn Hm. pose proof (lookup_lt_Some _ _ _ Hn) as Hl.
  assert (N.of_nat n + 1 < 2 ^ 63)%N as Hb by (unfold stream_limit in Hlim; lia).
  rewrite partition_for_small, Nat2N.id, u64_as_i64_small in Hm by lia.
  pose proof (law_cass_mark _ _ _ _ _ Hm) as Hp.
  split; [|intros q' l' Hq [Hr Hpid Hnr]; split; [|done..]; intros p; rewrite Hp, decide_False by tauto; apply Hr].
  pose proof (Nat.div_mod_eq n size) as Hd. pose proof (Nat.mod_upper_bound n size ltac:(lia)) as Hmod.
  split.
  - intros p. rewrite Hp, (cs_rows _ _ _ Hs). destruct (decide (p = n / size)) as [->|Hne].
    + rewrite decide_True by done. rewrite seg_insert_in by nia. rewrite list_fmap_insert.
      assert ((to_row <$> seg size (n / size) l) !! (n - n / size * size) = Some (to_row r)) as Hrow.
      { rewrite list_lookup_fmap, seg_lookup by nia.
        replace (n / size * size + (n - n / size * size)) with n by nia. by rewrite Hn. }
      assert (cr_seq (to_row r) = Z.of_N (N.of_nat n + 1)) as <- by (cbn; by rewrite (stream_seq _ _ _ _ _ Hs Hn)).
      rewrite (upsert_at _ _ _ _ Hrow); [done|]. intros j x Hj Hx.
      rewrite (seg_row_seq _ _ _ _ _ _ Hs Hx), (seg_row_seq _ _ _ _ _ _ Hs Hrow). lia.
    + rewrite decide_False by (intros [_ E]; apply Hne; lia). rewrite seg_insert_out; [done|].
      intros Hin. apply Hne. apply (Nat.div_unique n size p (n - p * size)); nia.
  - apply Forall_insert; [apply Hs|]. cbn. pose proof (cs_pid _ _ _ Hs) as Hf.
    by eapply Forall_lookup_1 in Hf.
  - intros i x Hx. apply list_lookup_insert_Some in Hx as [(-> & <- & _)|[_ Hx]]; [|by apply Hs].
    cbn. by apply Hs.
Qed.

Lemma mark_take n l r :
  numbered_after 0 l → l !! n = Some r →
  <[n := set_deleted r]> (mark_deleted (N.of_nat n) <$> l) = mark_deleted (N.of_nat n + 1) <$> l.
Proof.
  intros Hl Hn. apply list_eq. intros i. destruct (decide (i = n)) as [->|Hne].
  - rewrite list_lookup_insert_eq by (rewrite length_fmap; by eapply lookup_lt_Some).
    rewrite list_lookup_fmap, Hn. cbn. unfold mark_deleted, set_deleted.
    rewrite (Hl _ _ Hn). rewrite (proj2 (N.leb_le _ _)) by lia. done.
  - rewrite list_lookup_insert_ne by done. rewrite !list_lookup_fmap.
    destruct (l !! i) as [x|] eqn:Hx; [|done]. cbn. f_equal. unfold mark_deleted. rewrite (Hl _ _ Hx).
    destruct (decide (i < n)).
    + by rewrite !(proj2 (N.leb_le _ _)) by lia.
    + by rewrite !(proj2 (N.leb_gt _ _)) by lia.
Qed.

Lemma set_deleted_mark n r : set_deleted (mark_deleted n r) = set_deleted r.
Proof. unfold set_deleted, mark_deleted. by case_match. Qed.

Lemma mark_loop_ok q l n k c :
  cass_up c → cass_stream c q (mark_deleted (N.of_nat k) <$> l) → length l < stream_limit → k + n ≤ length l →
  numbered_after 0 l →
  ∃ c', mark_loop cfg n q (N.of_nat k + 1) c = (c', inr tt) ∧ cass_up c' ∧
    cass_stream c' q (mark_deleted (N.of_nat (k + n)) <$> l) ∧
    ∀ q' l', q' ≠ q → cass_stream c q' l' → cass_stream c' q' l'.
Proof.
  revert k c; induction n as [|n IH]; intros k c Hup Hs Hlim Hk Hnum; cbn [mark_loop].
  { exists c. by rewrite Nat.add_0_r. }
  destruct (up_cass_mark q (partition_for cfg (N.of_nat k + 1)) (u64_as_i64 (N.of_nat k + 1)) c Hup)
    as (c1 & Em & Hup1). rewrite Em. cbn [backend].
  destruct (lookup_lt_is_Some_2 l k) as [r Hr]; [lia|].
  destruct (cass_mark_ok q _ k (mark_deleted (N.of_nat k) r) c c1 Hs) as [Hs1 Ho1]; [by rewrite length_fmap| |done|].
  { by rewrite list_lookup_fmap, Hr. }
  rewrite set_deleted_mark, mark_take in Hs1 by done.
  replace (N.of_nat k + 1)%N with (N.of_nat (k + 1)) in * by lia.
  destruct (IH (k + 1) c1 Hup1 Hs1 Hlim ltac:(lia) Hnum) as (c' & E & Hup' & Hs' & Ho').
  exists c'. replace (k + S n) with (k + 1 + n) by lia. split_and!; [done..|]. eauto.
Qed.

(** A deletion within the stream marks its records. *)
Lemma cass_delete_ok q l to c :
  cass_up c → cass_stream c q l → length l < stream_limit → N.to_nat to ≤ length l →
  ∃ c', cass_delete_messages_to cfg q to c = (c', inr tt) ∧ cass_up c' ∧
    cass_stream c' q (mark_deleted to <$> l) ∧
    ∀ q' l', q' ≠ q → cass_stream c q' l' → cass_stream c' q' l'.
Proof.
  intros Hup Hs Hlim Hto. unfold cass_delete_messages_to. rewrite up_prepare by done. cbn [backend].
  pose proof (cs_nr _ _ _ Hs) as Hnum.
  assert (mark_deleted 0 <$> l = l) as E0.
  { rewrite <- (list_fmap_id l) at 2. apply list_fmap_ext. intros i r Hi. unfold mark_deleted.
    rewrite (proj2 (N.leb_gt _ _)); [done|]. rewrite (Hnum _ _ Hi). lia. }
  destruct (mark_loop_ok q l (N.to_nat to) 0 c Hup) as (c' & E & Hup' & Hs' & Ho'); [change (N.of_nat 0) with 0%N; by rewrite E0|done|lia|done|].
  exists c'. rewrite Nat.add_0_l, N2Nat.id in Hs'. done.
Qed.

(** *** Replay *)

Definition in_nr (from to : N) (r : PersistentRepr) : Prop := (from ≤ sequence_nr r)%N ∧ (sequence_nr r ≤ to)%N.
#[local] Instance in_nr_dec from to r : Decision (in_nr from to r) := _.
Definition live (r : PersistentRepr) : Prop := deleted r = false.
#[local] Instance live_dec r : Decision (live r) := _.

(** What a partition with the records [rs] in range adds to [out]: the limit counts the
    deleted records too. *)
Definition add_partition (max : N) (out rs : list PersistentRepr) : list PersistentRepr :=
  out ++ (norm <$> filter live (take (N.to_nat max - length out) rs)).

Lemma decode_to_row q r :
  persistence_id r = q → (sequence_nr r < 2 ^ 63)%N → decode_row q (to_row r) = inr (norm r).
Proof.
  intros <- Hn. unfold decode_row, to_row, norm. cbn. rewrite i64_as_u64_small by lia.
  do 2 f_equal. lia.
Qed.

Lemma take_rows_ok q max rs out :
  Forall (λ r, persistence_id r = q ∧ (sequence_nr r < 2 ^ 63)%N) rs →
  length rs ≤ N.to_nat max - length out →
  take_rows q max (to_row <$> rs) out = inr (out ++ (norm <$> filter live rs)).
Proof.
  intros Hrs; revert out; induction Hrs as [|r rs [Hq Hn] Hrs IH]; intros out Hl.
  { by rewrite app_nil_r. }
  rewrite fmap_cons. cbn [take_rows length] in *. rewrite (decode_to_row q r Hq Hn), filter_cons.
  change (deleted (norm r)) with (deleted r). destruct (decide (live r)) as [Hlv|Hlv]; unfold live in Hlv.
  2:{ apply not_false_is_true in Hlv. rewrite Hlv. apply IH. lia. }
  rewrite Hlv, fmap_cons.
  case_match eqn:Em.
  - apply N.leb_le in Em. rewrite length_app in Em. cbn in Em. destruct rs; [|cbn in Hl; lia]. done.
  - rewrite IH by (rewrite length_app; cbn; lia). by rewrite <- app_assoc.
Qed.

Lemma part_in_range q l c p from to :
  cass_stream c q l → (from < 2 ^ 63)%N → (to < 2 ^ 63)%N →
  filter (cass_in (u64_as_i64 from) (u64_as_i64 to)) (part c q (Z.of_nat p)) =
    to_row <$> filter (in_nr from to) (seg size p l).
Proof.
  intros Hs Hf Ht. rewrite (cs_rows _ _ _ Hs), !u64_as_i64_small by done.
  induction (seg size p l) as [|r rs IH]; [done|]. rewrite fmap_cons, !filter_cons.
  destruct (decide (cass_in (Z.of_N from) (Z.of_N to) (to_row r))) as [Hc|Hc],
    (decide (in_nr from to r)) as [Hn|Hn]; unfold cass_in, in_nr in *; cbn in Hc; try lia.
  - by rewrite fmap_cons, IH.
  - done.
Qed.

Lemma stream_ok c q l : cass_stream c q l → length l < stream_limit →
  Forall (λ r, persistence_id r = q ∧ (sequence_nr r < 2 ^ 63)%N) l.
Proof.
  intros Hs Hlim. apply Forall_lookup. intros i r Hi. split.
  - pose proof (cs_pid _ _ _ Hs) as Hf. by eapply Forall_lookup_1 in Hf.
  - rewrite (stream_seq _ _ _ _ _ Hs Hi). apply lookup_lt_Some in Hi. unfold stream_limit in Hlim. lia.
Qed.

Lemma seg_elem size' p l r : r ∈ seg size' p l → r ∈ l.
Proof. unfold seg. intros Hr. apply elem_of_take in Hr as (i & Hi & _). rewrite lookup_drop in Hi. by eapply list_elem_of_lookup_2. Qed.

Lemma add_partition_full max Rs out :
  N.to_nat max ≤ length out → foldl (add_partition max) out Rs = out.
Proof.
  intros Hm. induction Rs as [|R Rs IH]; cbn [foldl]; [done|]. unfold add_partition at 2.
  replace (N.to_nat max - length out) with 0 by lia.
  by rewrite take_0, filter_nil, fmap_nil, app_nil_r.
Qed.

Lemma replay_partitions_ok q l c from to max n p out :
  cass_up c → cass_stream c q l → length l < stream_limit → (from < 2 ^ 63)%N → (to < 2 ^ 63)%N →
  replay_partitions n q from to max (Z.of_nat p) out c =
    inr (foldl (add_partition max) out ((λ k, filter (in_nr from to) (seg size k l)) <$> seq p n)).
Proof.
  intros Hup Hs Hlim Hf Ht; revert p out; induction n as [|n IH]; intros p out; [done|].
  cbn [replay_partitions seq fmap list_fmap foldl]. case_match eqn:Em.
  - apply N.leb_le in Em. f_equal. symmetry. change (foldl (add_partition max) out (filter (in_nr from to) (seg size p l) ::
      ((λ k, filter (in_nr from to) (seg size k l)) <$> seq (S p) n)) = out).
    apply add_partition_full. lia.
  - apply N.leb_gt in Em.
    destruct (up_cass_range q (Z.of_nat p) (u64_as_i64 from) (u64_as_i64 to) c Hup) as [rows Er].
    rewrite Er. cbn [backend]. apply law_cass_range in Er as ->.
    rewrite (part_in_range _ _ _ _ _ _ Hs Hf Ht), take_N_take, <- fmap_take.
    replace (N.to_nat (max - N.of_nat (length out))) with (N.to_nat max - length out) by lia.
    rewrite take_rows_ok.
    + replace (Z.of_nat p + 1)%Z with (Z.of_nat (S p)) by lia. apply IH.
    + apply Forall_take, Forall_forall. intros r [_ Hr]%list_elem_of_filter. apply seg_elem in Hr.
      pose proof (stream_ok _ _ _ Hs Hlim) as Hok. by eapply Forall_forall in Hok.
    + rewrite length_take. lia.
Qed.

(** A limit that covers the range cuts nothing off. *)
Lemma fold_partitions_all max Rs out :
  length out + length (mjoin Rs) ≤ N.to_nat max →
  foldl (add_partition max) out Rs = out ++ (norm <$> filter live (mjoin Rs)).
Proof.
  revert out; induction Rs as [|R Rs IH]; intros out Hl; cbn [foldl]; [by rewrite app_nil_r|].
  change (mjoin (R :: Rs)) with (R ++ mjoin Rs) in *. rewrite length_app in Hl.
  unfold add_partition at 2. rewrite take_ge by lia. rewrite IH.
  - by rewrite filter_app, fmap_app, app_assoc.
  - rewrite length_app, length_fmap. pose proof (length_filter live R). lia.
Qed.

(** Without deleted records the limit is exact. *)
Lemma fold_partitions_live max Rs out :
  Forall live (mjoin Rs) → length out ≤ N.to_nat max →
  foldl (add_partition max) out Rs = out ++ (norm <$> take (N.to_nat max - length out) (mjoin Rs)).
Proof.
  revert out; induction Rs as [|R Rs IH]; intros out Hl Hm; cbn [foldl].
  { change (mjoin []) with (@nil PersistentRepr). by rewrite take_nil, app_nil_r. }
  change (mjoin (R :: Rs)) with (R ++ mjoin Rs) in *. apply Forall_app in Hl as [HR Hl].
  unfold add_partition at 2. rewrite (filter_all live) by by apply Forall_take.
  rewrite IH; [|done|rewrite length_app, length_fmap, length_take; lia].
  rewrite length_app, length_fmap, length_take, take_app, fmap_app, app_assoc. do 2 f_equal. f_equal. lia.
Qed.

Lemma filter_join {A} (P : A → Prop) `{!∀ x, Decision (P x)} (ls : list (list A)) :
  mjoin (filter P <$> ls) = filter P (mjoin ls).
Proof. induction ls as [|l ls IH]; [done|]. cbn. rewrite filter_app. by f_equal. Qed.

(** The partitions of the bounds hold all of the range. *)
Lemma range_partitions l from to :
  numbered_after 0 l → (from ≤ to)%N →
  let a := (N.to_nat (N.max from 1) - 1) / size in
  let b := (N.to_nat to - 1) / size in
  mjoin ((λ k, filter (in_nr from to) (seg size k l)) <$> seq a (b - a + 1)) = filter (in_nr from to) l.
Proof.
  intros Hn Hft a b. assert (0 < size) as Hs by lia.
  change (λ k, filter (in_nr from to) (seg size k l)) with (filter (in_nr from to) ∘ (λ k, seg size k l)).
  rewrite list_fmap_compose, filter_join, segs_app.
  assert (a * size ≤ N.to_nat (N.max from 1) - 1) as Ha by (unfold a; rewrite Nat.mul_comm; apply Nat.Div0.mul_div_le).
  assert (N.to_nat to ≤ (b + 1) * size) as Hb.
  { pose proof (Nat.mul_succ_div_gt (N.to_nat to - 1) size ltac:(lia)). unfold b. nia. }
  assert (a ≤ b) as Hab by (unfold a, b; apply Nat.Div0.div_le_mono; lia).
  rewrite <- (take_drop (a * size) l) at 2. rewrite filter_app.
  rewrite <- (take_drop ((b - a + 1) * size) (drop (a * size) l)) at 2. rewrite filter_app.
  rewrite (filter_none _ (take (a * size) l)), (filter_none _ (drop _ (drop _ l))), app_nil_r; [done| |].
  - intros r [i Hi]%list_elem_of_lookup [_ H2]. rewrite drop_drop, lookup_drop in Hi.
    rewrite (Hn _ _ Hi) in H2. nia.
  - intros r [i Hi]%list_elem_of_lookup [H1 _]. apply lookup_take_Some in Hi as [Hi Hlt].
    rewrite (Hn _ _ Hi) in H1. lia.
Qed.

Lemma cass_replay_ok q l c from to max :
  cass_up c → cass_stream c q l → length l < stream_limit → (to < 2 ^ 63)%N →
  (length (filter (in_nr from to) l) ≤ N.to_nat max ∨ Forall live (filter (in_nr from to) l)) →
  cass_replay_messages cfg q from to max c = inr (norm <$> take_N max (filter (replayable from to) l)).
Proof.
  intros Hup Hs Hlim Ht Hcase. unfold cass_replay_messages.
  assert (filter (replayable from to) l = filter live (filter (in_nr from to) l)) as Esp.
  { rewrite list_filter_filter. apply list_filter_iff. intros r. unfold replayable, live, in_nr. tauto. }
  case_match eqn:Eft.
  { apply N.ltb_lt in Eft. rewrite filter_none; [by destruct max|]. intros r _ (_ & ? & ?). lia. }
  apply N.ltb_ge in Eft. rewrite up_prepare by done. cbn [backend].
  replace (N.min to (u64_max - 1)) with to by (unfold u64_max; lia).
  assert (∀ n, (n < 2 ^ 63)%N → partition_for cfg n = Z.of_nat ((N.to_nat n - 1) / size)) as Hpf.
  { intros n Hn. destruct (decide (n = 0%N)) as [->|].
    - unfold partition_for. cbn. by rewrite N.Div0.div_0_l, Nat.Div0.div_0_l.
    - rewrite <- (N.sub_add 1 n) at 1 by lia. rewrite partition_for_small by lia. do 2 f_equal. lia. }
  rewrite !Hpf by lia.
  set (b := (N.to_nat to - 1) / size). set (a := (N.to_nat (N.max from 1) - 1) / size).
  replace (Z.to_nat (Z.of_nat b - Z.of_nat a + 1)) with (b - a + 1).
  2:{ assert (a ≤ b) by (unfold a, b; apply Nat.Div0.div_le_mono; lia). lia. }
  rewrite (replay_partitions_ok _ l) by (done || lia).
  pose proof (range_partitions l from to (cs_nr _ _ _ Hs) Eft) as Hr. cbn zeta in Hr. fold a b in Hr.
  f_equal. rewrite Esp, take_N_take. destruct Hcase as [Hmax|Hlive].
  - rewrite fold_partitions_all by (rewrite Hr; done). rewrite Hr, take_ge; [done|].
    pose proof (length_filter live (filter (in_nr from to) l)). lia.
  - rewrite fold_partitions_live by (rewrite ?Hr; cbn; (done || lia)). rewrite Hr, (filter_all live) by done.
    cbn [app length]. by rewrite Nat.sub_0_r.
Qed.

(** *** A write *)

Lemma cass_write_batches_ok fuel bs S c :
  cass_up c → cass_rel c S → batch_wf bs →
  (∀ q, length (S q) + length (added q bs) < stream_limit) →
  (∀ q, length (S q) + length (added q bs) < fuel) →
  (∀ q, numbered_after (length (S q)) (added q bs)) →
  ∃ c', cass_write_batches cfg fuel bs c = Some (c', inr tt) ∧ cass_up c' ∧
    cass_rel c' (λ q, S q ++ (stored <$> added q bs)).
Proof.
  intros Hup HS Hwf; revert S c Hup HS.
  induction Hwf as [|[p b] bs Hb Hwf IH]; intros S c Hup HS Hlim Hfuel Hnum; cbn [cass_write_batches added] in *.
  { exists c. split_and!; [done..|]. intros q. rewrite app_nil_r. apply HS. }
  pose proof (Hlim p) as Hp. pose proof (Hfuel p) as Hfp. pose proof (Hnum p) as Hnp.
  rewrite decide_True, length_app in Hp, Hfp by done. rewrite decide_True in Hnp by done.
  apply numbered_after_app in Hnp as [Hnp _].
  rewrite (cass_current_max_ok c p (S p)) by (done || apply HS || lia). cbn [mbind option_bind].
  rewrite u64_add_small by (unfold stream_limit, u64_modulus in *; lia).
  destruct (cass_write_rows_ok p b (S p) c Hup (HS p) Hb ltac:(lia)) as (c1 & k & Hs1 & Hup1 & Ho1 & Hres).
  destruct Hres as [(_ & -> & E)|[Hn _]]; [|done]. rewrite E, firstn_all in *.
  destruct (IH (λ q, S q ++ (stored <$> (if decide (q = p) then b else []))) c1 Hup1) as (c' & E' & Hup' & Hr').
  - intros q. destruct (decide (q = p)) as [->|Hq]; [done|]. rewrite fmap_nil, app_nil_r. by apply Ho1.
  - intros q. specialize (Hlim q). rewrite !length_app in *. rewrite length_fmap. lia.
  - intros q. specialize (Hfuel q). rewrite !length_app in *. rewrite length_fmap. lia.
  - intros q. specialize (Hnum q). apply numbered_after_app in Hnum as [_ Hnum].
    by rewrite length_app, length_fmap.
  - exists c'. split_and!; [done..|]. intros q. specialize (Hr' q). cbn in Hr'.
    by rewrite fmap_app, app_assoc.
Qed.

Lemma cass_write_messages_ok fuel ms S c :
  cass_up c → cass_rel c S → (∀ q, length (S q) + length ms < stream_limit) →
  (∀ q, length (S q) + length ms < fuel) → accepts S ms →
  ∃ c', cass_write_messages cfg fuel ms c = Some (c', inr tt) ∧ cass_up c' ∧ cass_rel c' (spec_op (SqlWrite ms) S).
Proof.
  intros Hup HS Hlim Hfuel Ha. unfold cass_write_messages. destruct ms as [|m ms].
  { exists c. split_and!; [done..|]. intros q. cbn. rewrite app_nil_r. apply HS. }
  rewrite up_prepare by done. cbn [backend].
  assert (∀ q, length (added q (batches (m :: ms))) ≤ length (m :: ms)) as Hle
    by (intros q; rewrite added_batches; apply batch_of_length).
  destruct (cass_write_batches_ok fuel (batches (m :: ms)) S c Hup HS (batches_wf _)) as (c' & E & Hup' & Hr).
  - intros q. specialize (Hlim q). specialize (Hle q). lia.
  - intros q. specialize (Hfuel q). specialize (Hle q). lia.
  - intros q. rewrite added_batches. apply Ha.
  - exists c'. split_and!; [done..|]. intros q. specialize (Hr q). cbn in Hr. by rewrite added_batches in Hr.
Qed.

(** A bound beyond the column's range is cast to a negative number, and nothing is replayed. *)
Lemma cass_replay_beyond q l c from to max n p :
  cass_up c → cass_stream c q l → (2 ^ 63 ≤ to < 2 ^ 64)%N →
  replay_partitions n q from to max (Z.of_nat p) [] c = inr [].
Proof.
  intros Hup Hs Ht. revert p; induction n as [|n IH]; intros p; cbn [replay_partitions]; [done|].
  case_match; [done|].
  destruct (up_cass_range q (Z.of_nat p) (u64_as_i64 from) (u64_as_i64 to) c Hup) as [rows Er]. rewrite Er.
  cbn [backend]. apply law_cass_range in Er as ->. rewrite filter_none.
  - cbn [take_N take_rows]. replace (Z.of_nat p + 1)%Z with (Z.of_nat (S p)) by lia. apply IH.
  - intros row Hrow [_ Hto]. rewrite (cs_rows _ _ _ Hs) in Hrow.
    apply list_elem_of_fmap in Hrow as (r & -> & _). cbn in Hto.
    unfold u64_as_i64 in Hto. rewrite wrap64_small in Hto by (unfold u64_modulus; lia).
    rewrite (proj2 (Z.ltb_ge _ _)) in Hto by lia. lia.
Qed.
End facts.
End CassandraFacts.

(** On a Cassandra that answers, the journal holds each stream cut into partitions: the
    walk over the partitions terminates with the number of records; a write that continues
    its streams appends it; a deletion within a stream marks its records; and a replay
    returns the records of the range that are not deleted, as long as the limit covers the
    range or nothing in it is deleted. *)
Theorem cassandra_journal_streams {C} `{Cassandra.CassLaws C} cfg (c : C) S :
  (0 < Cassandra.partition_size cfg)%N → Cassandra.cass_up c → CassandraFacts.cass_rel cfg c S →
  (∀ q, length (S q) < stream_limit) →
  (∀ pid fuel, length (S pid) < fuel →
     Cassandra.cass_highest_sequence_nr fuel pid c = Some (inr (N.of_nat (length (S pid))))) ∧
  (∀ ms fuel, accepts S ms → (∀ q, length (S q) + length ms < stream_limit) →
     (∀ q, length (S q) + length ms < fuel) →
     ∃ c', Cassandra.cass_write_messages cfg fuel ms c = Some (c', inr tt) ∧ Cassandra.cass_up c' ∧
       CassandraFacts.cass_rel cfg c' (spec_op (SqlWrite ms) S)) ∧
  (∀ pid to, N.to_nat to ≤ length (S pid) →
     ∃ c', Cassandra.cass_delete_messages_to cfg pid to c = (c', inr tt) ∧ Cassandra.cass_up c' ∧
       CassandraFacts.cass_rel cfg c' (spec_op (SqlDelete pid to) S)) ∧
  (∀ pid from to max, (to < 2 ^ 63)%N →
     (length (filter (CassandraFacts.in_nr from to) (S pid)) ≤ N.to_nat max ∨
      Forall CassandraFacts.live (filter (CassandraFacts.in_nr from to) (S pid))) →
     Cassandra.cass_replay_messages cfg pid from to max c =
       inr (CassandraFacts.norm <$> take_N max (filter (replayable from to) (S pid)))).
Proof.
  intros Hsz Hup HS Hlim. split_and!.
  - intros pid fuel Hf. by apply (CassandraFacts.cass_current_max_ok cfg Hsz).
  - intros ms fuel Ha Hl Hf. by apply CassandraFacts.cass_write_messages_ok.
  - intros pid to Hto.
    destruct (CassandraFacts.cass_delete_ok cfg Hsz pid (S pid) to c Hup (HS pid) (Hlim pid) Hto)
      as (c' & E & Hup' & Hs' & Ho'). exists c'. split_and!; [done..|]. intros q. cbn.
    case_decide as Hq; [by subst|by apply Ho'].
  - intros. by apply CassandraFacts.cass_replay_ok.
Qed.

Module CassandraDemo.
Import Cassandra.

Definition cfg2 : CassandraConfig := mkCassandraConfig "k" 2.
Definition empty_table : CassTable := mkCassTable ∅.
Definition cmsg (nr : N) : PersistentRepr := mkPersistentRepr "p" nr [Byte.x61] "m" "w" false [].
Definition wrote (n : nat) : CassTable :=
  match cass_write_messages cfg2 100 ((λ k, cmsg (N.of_nat k + 1)) <$> seq 0 n) empty_table with
  | Some (c, _) => c
  | None => empty_table
  end.

Lemma empty_rel : CassandraFacts.cass_rel cfg2 empty_table (λ _, []).
Proof. intros q. split; [intros p|constructor|by intros i m]. cbn. unfold table_part, CassandraFacts.seg. by rewrite drop_nil, take_nil. Qed.

Lemma cassandra_journal_streams_witness :
  ∃ c', cass_write_messages cfg2 10 [cmsg 1; cmsg 2; cmsg 3] empty_table = Some (c', inr tt) ∧
    CassandraFacts.cass_rel cfg2 c' (λ q, if decide ("p" = q) then [cmsg 1; cmsg 2; cmsg 3] else []).
Proof.
  destruct (cassandra_journal_streams cfg2 empty_table (λ _, [])) as (_ & Hw & _).
  - reflexivity.
  - exact I.
  - exact empty_rel.
  - intros q. unfold stream_limit. cbn. lia.
  - destruct (Hw [cmsg 1; cmsg 2; cmsg 3] 10) as (c' & E & _ & Hr).
    + intros q. unfold batch_of. rewrite !filter_cons. cbn [persistence_id cmsg].
      destruct (decide ("p" = q)); [|by intros i m]. intros [|[|[|i]]] m Hm; cbn in Hm; simplify_eq; reflexivity.
    + intros q. unfold stream_limit. cbn. lia.
    + intros q. cbn. lia.
    + exists c'. split; [exact E|]. intros q. specialize (Hr q). cbn [spec_op app] in Hr.
      unfold batch_of in Hr. rewrite !filter_cons in Hr. cbn [persistence_id cmsg] in Hr.
      destruct (decide ("p" = q)); exact Hr.
Defined.

(** Five records fill three partitions, and the walk counts them. *)
Example three_partitions : cass_highest_sequence_nr 100 "p" (wrote 5) = Some (inr 5%N).
Proof. vm_compute. reflexivity. Qed.

(** A deleted record uses up the limit of its partition: the replay of one record leaves out
    the second and returns the third. *)
Example limit_counts_deleted :
  let c := (cass_delete_messages_to cfg2 "p" 1 (wrote 3)).1 in
  cass_replay_messages cfg2 "p" 1 10 1 c = inr [cmsg 3] ∧
  cass_replay_messages cfg2 "p" 1 10 100 c = inr [cmsg 2; cmsg 3].
Proof. vm_compute. split; reflexivity. Qed.

(** A deletion past the end makes rows of its own: the highest number grows, the stream can
    no longer be replayed, and its next record is refused. *)
Example delete_past_end :
  let c := (cass_delete_messages_to cfg2 "p" 3 (wrote 1)).1 in
  cass_highest_sequence_nr 100 "p" c = Some (inr 3%N) ∧
  cass_replay_messages cfg2 "p" 1 10 100 c = inl (JournalBackend "unexpected null") ∧
  match cass_write_messages cfg2 100 [cmsg 2] c with
  | Some (_, r) => r = inl (SequenceOutOfOrder 4 2)
  | None => False
  end.
Proof. vm_compute. done. Qed.
End CassandraDemo.

(** ** Sort keys of DynamoDB *)

Module DynamoKeys.

Definition EVENT_PREFIX : string := "E#".
Definition SNAPSHOT_PREFIX : string := "S#".
Definition SK_WIDTH : nat := 20.

(** [format!("{seq:0width$}")]. *)
Fixpoint zeros (n : nat) : string := match n with O => EmptyString | S n => String "0" (zeros n) end.
Definition zero_padded (width : nat) (n : N) : string :=
  let s := uint_to_string n in zeros (width - String.length s) +:+ s.

Definition event_sk (nr : N) : string := EVENT_PREFIX +:+ zero_padded SK_WIDTH nr.
Definition snapshot_sk (nr : N) : string := SNAPSHOT_PREFIX +:+ zero_padded SK_WIDTH nr.

Definition parse_sequence (sk : string) : option N :=
  stripped ← match strip_prefix EVENT_PREFIX sk with Some s => Some s | None => strip_prefix SNAPSHOT_PREFIX sk end;
  parse_uint u64_max stripped.

(** The row keys of the Azure journal have the same shape. *)
Definition row_key (nr : N) : string := zero_padded 20 nr.

(** *** The keys are the numbers *)

(** The value of a string of digits that continues [acc]. *)
Fixpoint dval (acc : N) (s : string) : N :=
  match s with EmptyString => acc | String c s' => dval (acc * 10 + (N_of_ascii c - 48)) s' end.

Lemma dval_acc acc s : dval acc s = (acc * 10 ^ N.of_nat (String.length s) + dval 0 s)%N.
Proof.
  revert acc; induction s as [|c s IH]; intros acc; cbn [dval String.length]; [cbn; lia|].
  rewrite IH, (IH (0 * 10 + _)%N), Nat2N.inj_succ, N.pow_succ_r'. lia.
Qed.

Lemma digit_code c : byte_in 48 57 c = true → (48 ≤ N_of_ascii c ≤ 57)%N.
Proof. unfold byte_in. intros [H1 H2]%andb_prop. apply N.leb_le in H1, H2. lia. Qed.

Lemma dval_bound s : all_digits s = true → (dval 0 s < 10 ^ N.of_nat (String.length s))%N.
Proof.
  induction s as [|c s IH]; cbn [all_digits dval String.length]; [done|].
  intros [Hc%digit_code Hs]%andb_prop. specialize (IH Hs).
  rewrite dval_acc, Nat2N.inj_succ, N.pow_succ_r'. nia.
Qed.

(** Strings of digits of one length order as their values. *)
Lemma digits_compare a s t :
  all_digits s = true → all_digits t = true → String.length s = String.length t →
  String.compare s t = N.compare (dval a s) (dval a t).
Proof.
  revert a t; induction s as [|c s IH]; intros a [|d t] Hs Ht Hl; try done;
    cbn [String.compare dval] in *; [by rewrite N.compare_refl|].
  cbn [all_digits] in Hs, Ht. apply andb_prop in Hs as [Hc%digit_code Hs], Ht as [Hd%digit_code Ht].
  injection Hl as Hl. unfold Ascii.compare. destruct (N.compare_spec (N_of_ascii c) (N_of_ascii d)) as [E|E|E].
  - rewrite E. by apply IH.
  - symmetry. apply N.compare_lt_iff. rewrite (dval_acc _ s), (dval_acc _ t), Hl.
    pose proof (dval_bound s Hs) as Hb. rewrite Hl in Hb. nia.
  - symmetry. apply N.compare_gt_iff. rewrite (dval_acc _ s), (dval_acc _ t), Hl.
    pose proof (dval_bound t Ht) as Hb. nia.
Qed.

Lemma parse_dval max acc s v : all_digits s = true → parse_digits max acc s = Some v → v = dval acc s.
Proof.
  revert acc; induction s as [|c s IH]; intros acc Hs; cbn [parse_digits dval]; [by intros [= ->]|].
  cbn [all_digits] in Hs. apply andb_prop in Hs as [Hc%digit_code Hs]. unfold digit_of.
  rewrite (proj2 (N.leb_le _ _)), (proj2 (N.leb_le _ _)) by lia. cbn [andb mbind option_bind].
  case_match; [|done]. by apply IH.
Qed.

Lemma parse_zeros max k s : parse_digits max 0 (zeros k +:+ s) = parse_digits max 0 s.
Proof. induction k as [|k IH]; [done|]. cbn. by destruct max. Qed.

Lemma all_digits_zeros k s : all_digits (zeros k +:+ s) = all_digits s.
Proof. induction k as [|k IH]; [done|]. exact IH. Qed.

Lemma zeros_length k : String.length (zeros k) = k.
Proof. induction k; cbn; congruence. Qed.

Lemma uint_digits_length fuel n acc d :
  (n < 10 ^ N.of_nat d)%N → 0 < d → String.length (uint_digits fuel n acc) ≤ String.length acc + d.
Proof.
  revert n acc d; induction fuel as [|fuel IH]; intros n acc d Hn Hd; cbn [uint_digits]; [lia|].
  destruct (N.ltb_spec n 10); [cbn; lia|].
  destruct d as [|d]; [lia|]. destruct d as [|d]; [cbn in Hn; lia|].
  etrans; [apply (IH _ _ (S d)); [|lia]|cbn; lia].
  apply N.Div0.div_lt_upper_bound. rewrite <- N.pow_succ_r', <- Nat2N.inj_succ. done.
Qed.

Lemma zero_padded_length w n : (n < 10 ^ N.of_nat w)%N → 0 < w → String.length (zero_padded w n) = w.
Proof.
  intros Hn Hw. unfold zero_padded. rewrite length_string_app, zeros_length.
  pose proof (uint_digits_length (S (N.size_nat n)) n EmptyString w Hn Hw) as Hl. cbn [String.length] in Hl.
  unfold uint_to_string in *. lia.
Qed.

Lemma zero_padded_digits w n : all_digits (zero_padded w n) = true.
Proof. unfold zero_padded. rewrite all_digits_zeros. apply all_digits_uint. Qed.

Lemma zero_padded_parse max w n : (n ≤ max)%N → parse_digits max 0 (zero_padded w n) = Some n.
Proof.
  intros Hn. unfold zero_padded, uint_to_string. rewrite parse_zeros.
  by rewrite (parse_uint_digits max _ n EmptyString Hn (uint_fuel n)).
Qed.

Lemma zero_padded_val w n : dval 0 (zero_padded w n) = n.
Proof. symmetry. apply (parse_dval n); [apply zero_padded_digits|by apply zero_padded_parse]. Qed.

Lemma zero_padded_head w n : 0 < w → ∃ c s, zero_padded w n = String c s ∧ byte_in 48 57 c = true.
Proof.
  intros Hw. pose proof (zero_padded_digits w n) as Hd. destruct (zero_padded w n) as [|c s] eqn:E.
  - unfold zero_padded in E. destruct (uint_digits_head (N.size_nat n) n EmptyString) as (d & t & Hs & _).
    apply (f_equal String.length) in E. rewrite length_string_app in E. unfold uint_to_string in E.
    rewrite Hs in E. cbn in E. lia.
  - exists c, s. split; [done|]. cbn [all_digits] in Hd. by apply andb_prop in Hd as [? _].
Qed.

Lemma parse_padded w n : 0 < w → (n ≤ u64_max)%N → parse_uint u64_max (zero_padded w n) = Some n.
Proof.
  intros Hw Hn. pose proof (zero_padded_parse u64_max w n Hn) as Hp.
  destruct (zero_padded_head w n Hw) as (c & s & E & Hc). rewrite E in *. cbn [parse_uint].
  destruct (Ascii.eqb_spec c "+") as [->|]; [done|exact Hp].
Qed.

Lemma strip_own_prefix pre s : strip_prefix pre (pre +:+ s) = Some s.
Proof. unfold strip_prefix. by rewrite prefix_app, string_drop_app. Qed.

Lemma parse_event s n : parse_uint u64_max s = Some n → parse_sequence (EVENT_PREFIX +:+ s) = Some n.
Proof. intros Hs. unfold parse_sequence. by rewrite strip_own_prefix. Qed.
Lemma parse_snapshot s n : parse_uint u64_max s = Some n → parse_sequence (SNAPSHOT_PREFIX +:+ s) = Some n.
Proof.
  intros Hs. unfold parse_sequence. rewrite strip_own_prefix.
  by replace (strip_prefix EVENT_PREFIX (SNAPSHOT_PREFIX +:+ s)) with (@None string) by (by destruct s).
Qed.
End DynamoKeys.

(** The sort keys of events and snapshots, and the row keys of the Azure journal, order
    as byte strings exactly as the numbers they are made of, over all numbers of type [u64],
    and a sort key gives its number back. *)
Theorem sort_keys_order a b :
  (a ≤ u64_max)%N → (b ≤ u64_max)%N →
  String.compare (DynamoKeys.event_sk a) (DynamoKeys.event_sk b) = N.compare a b ∧
  String.compare (DynamoKeys.snapshot_sk a) (DynamoKeys.snapshot_sk b) = N.compare a b ∧
  String.compare (DynamoKeys.row_key a) (DynamoKeys.row_key b) = N.compare a b ∧
  DynamoKeys.parse_sequence (DynamoKeys.event_sk a) = Some a ∧
  DynamoKeys.parse_sequence (DynamoKeys.snapshot_sk a) = Some a.
Proof.
  intros Ha Hb. assert (∀ n, (n ≤ u64_max)%N → String.length (DynamoKeys.zero_padded 20 n) = 20) as Hl.
  { intros n Hn. apply DynamoKeys.zero_padded_length; [|lia].
    eapply N.le_lt_trans; [exact Hn|]. vm_compute. reflexivity. }
  assert (String.compare (DynamoKeys.zero_padded 20 a) (DynamoKeys.zero_padded 20 b) = N.compare a b) as Hc.
  { rewrite (DynamoKeys.digits_compare 0) by (apply DynamoKeys.zero_padded_digits || by rewrite !Hl).
    by rewrite !DynamoKeys.zero_padded_val. }
  split_and!; try exact Hc.
  - apply DynamoKeys.parse_event, DynamoKeys.parse_padded; [unfold DynamoKeys.SK_WIDTH; lia|done].
  - apply DynamoKeys.parse_snapshot, DynamoKeys.parse_padded; [unfold DynamoKeys.SK_WIDTH; lia|done].
Qed.

Lemma sort_keys_order_witness : String.compare (DynamoKeys.event_sk 9) (DynamoKeys.event_sk 10) = Lt.
Proof. exact (proj1 (sort_keys_order 9 10 ltac:(vm_compute; discriminate) ltac:(vm_compute; discriminate))). Defined.
