(* ===== verification/KeyValueJournals.v ===== *)
(** * Journals on key-value stores
    ([crates/atomr-persistence-aws/src/journal.rs];
    [crates/atomr-persistence-redis/src/journal.rs], [config.rs])

    [Dynamo] is the journal on DynamoDB, whose items are found by a sort key, and [Redis] the
    one on sorted sets.  The stores are interfaces; the examples run on tables of lists.
    A score of Redis is a float; the numbers below [2^53] are exact, and the model has them as
    numbers. *)

From stdpp Require Import gmap strings list sorting.
From Stdlib Require Import NArith ZArith Lia Ascii.
From S2P Require Import Prelude Address Journal SqlJournal SqlFacts StoreJournals.
Open Scope sql_scope.

(** ** DynamoDB *)

Module Dynamo.
Import DynamoKeys.

(** The attributes of an item; those that were never set are absent. *)
Record Item := mkItem {
  it_seq : option N;
  it_payload : option Bytes;
  it_manifest : option string;
  it_writer : option string;
  it_deleted : option bool;
  it_tags : option (list string);
}.

(** [dy_put] has the condition that the key is free; [dy_query] gives the first page of the
    items whose sort key is between the bounds. *)
Class DynamoDb (D : Type) := {
  dy_last : string → string → D → string + option string;
  dy_put : string → string → Item → D → string + D;
  dy_set_deleted : string → string → D → string + D;
  dy_query : string → string → string → Z → D → string + list Item;
}.

Section journal.
Context {D : Type} `{DynamoDb D}.

Definition to_av (r : PersistentRepr) : Item :=
  mkItem (Some (sequence_nr r)) (Some (payload r)) (Some (manifest r)) (Some (writer_uuid r))
    (Some (deleted r)) (match tags r with [] => None | ts => Some ts end).

Definition dy_current_max (pid : string) (d : D) : JournalError + N :=
  let? o := backend (dy_last pid EVENT_PREFIX d) in
  inr (match o with None => 0%N | Some sk => default 0%N (parse_sequence sk) end).

Fixpoint dy_write_rows (expected : N) (batch : list PersistentRepr) (d : D) : D * (JournalError + unit) :=
  match batch with
  | [] => (d, inr tt)
  | m :: rest =>
      if negb (sequence_nr m =? expected)%N
      then (d, inl (SequenceOutOfOrder expected (sequence_nr m)))
      else match backend (dy_put (persistence_id m) (event_sk (sequence_nr m)) (to_av m) d) with
           | inl e => (d, inl e)
           | inr d' => dy_write_rows (u64_add expected 1) rest d'
           end
  end.

Fixpoint dy_write_batches (bs : list (string * list PersistentRepr)) (d : D) : D * (JournalError + unit) :=
  match bs with
  | [] => (d, inr tt)
  | (pid, batch) :: bs' =>
      match dy_current_max pid d with
      | inl e => (d, inl e)
      | inr n => match dy_write_rows (u64_add n 1) batch d with
                 | (d', inr _) => dy_write_batches bs' d'
                 | (d', inl e) => (d', inl e)
                 end
      end
  end.

Definition dy_write_messages (ms : list PersistentRepr) (d : D) : D * (JournalError + unit) :=
  match ms with [] => (d, inr tt) | _ => dy_write_batches (batches ms) d end.

(** The result of an update is dropped. *)
Fixpoint dy_mark_loop (n : nat) (pid : string) (seq : N) (d : D) : D :=
  match n with
  | O => d
  | S n =>
      let d' := match dy_set_deleted pid (event_sk seq) d with inl _ => d | inr d' => d' end in
      dy_mark_loop n pid (seq + 1) d'
  end.

Definition dy_delete_messages_to (pid : string) (to : N) (d : D) : D * (JournalError + unit) :=
  (dy_mark_loop (N.to_nat to) pid 1 d, inr tt).

Definition item_repr (pid : string) (it : Item) : PersistentRepr :=
  mkPersistentRepr pid (default 0%N (it_seq it)) (default [] (it_payload it)) (default EmptyString (it_manifest it))
    (default EmptyString (it_writer it)) (default false (it_deleted it)) (default [] (it_tags it)).

Definition i32_max : N := 2 ^ 31 - 1.

Definition dy_replay_messages (pid : string) (from to max : N) (d : D) : JournalError + list PersistentRepr :=
  let limit := if (i32_max <? max)%N then i32_max else max in
  let? items := backend (dy_query pid (event_sk from) (event_sk to) (Z.of_N limit) d) in
  inr (filter (λ r, deleted r = false) (item_repr pid <$> items)).

Definition dy_highest_sequence_nr (pid : string) (d : D) : JournalError + N := dy_current_max pid d.
End journal.

(** A table of items by key, with pages of [page] items. *)
Record Table := mkTable { page : nat; t_items : gmap string (list (string * Item)) }.
Definition items_of (d : Table) (pid : string) : list (string * Item) := default [] (t_items d !! pid).

Fixpoint put_item (sk : string) (f : option Item → Item) (l : list (string * Item)) : list (string * Item) :=
  match l with
  | [] => [(sk, f None)]
  | (k, it) :: l' =>
      match String.compare sk k with
      | Eq => (k, f (Some it)) :: l'
      | Lt => (sk, f None) :: l
      | Gt => (k, it) :: put_item sk f l'
      end
  end.

#[export] Instance Table_Db : DynamoDb Table := {
  dy_last pid pre d := inr (last (filter (λ k, String.prefix pre k = true) (items_of d pid).*1));
  dy_put pid sk it d :=
    if decide (sk ∈ (items_of d pid).*1) then inl "ConditionalCheckFailedException"
    else inr (mkTable (page d) (<[pid := put_item sk (λ _, it) (items_of d pid)]> (t_items d)));
  dy_set_deleted pid sk d :=
    inr (mkTable (page d) (<[pid := put_item sk (λ o, match o with
        | Some it => mkItem (it_seq it) (it_payload it) (it_manifest it) (it_writer it) (Some true) (it_tags it)
        | None => mkItem None None None None (Some true) None
        end) (items_of d pid)]> (t_items d)));
  dy_query pid lo hi limit d :=
    if (limit <=? 0)%Z then inl "ValidationException"
    else inr (take_N (N.min (Z.to_N limit) (N.of_nat (page d)))
           (filter (λ e : string * Item, String.leb lo e.1 = true ∧ String.leb e.1 hi = true) (items_of d pid)).*2);
}.

Definition dmsg (nr : N) : PersistentRepr := mkPersistentRepr "p" nr [Byte.x61] "m" "w" false [].
Definition dwrote (n : nat) : Table :=
  (dy_write_messages ((λ k, dmsg (N.of_nat k + 1)) <$> seq 0 n) (mkTable 1000 ∅)).1.

Example dynamo_round_trip :
  dy_replay_messages "p" 1 u64_max u64_max (dwrote 12) = inr ((λ k, dmsg (N.of_nat k + 1)) <$> seq 0 12) ∧
  dy_highest_sequence_nr "p" (dwrote 12) = inr 12%N.
Proof. vm_compute. done. Qed.

(** An update of an item that is not there makes one: the next record is refused. *)
Example dynamo_delete_past_end :
  let d := (dy_delete_messages_to "p" 3 (dwrote 1)).1 in
  dy_highest_sequence_nr "p" d = inr 3%N ∧
  (dy_write_messages [dmsg 2] d).2 = inl (SequenceOutOfOrder 4 2).
Proof. vm_compute. done. Qed.

(** Deleted records count against the limit, and a limit of zero is refused by the store. *)
Example dynamo_limit :
  let d := (dy_delete_messages_to "p" 1 (dwrote 3)).1 in
  dy_replay_messages "p" 1 u64_max 1 d = inr [] ∧
  dy_replay_messages "p" 1 u64_max 0 d = inl (JournalBackend "ValidationException").
Proof. vm_compute. done. Qed.

(** Only the first page is read: with pages of two items a replay of five records has two. *)
Example dynamo_first_page_only :
  dy_replay_messages "p" 1 u64_max u64_max (mkTable 2 (t_items (dwrote 5))) = inr [dmsg 1; dmsg 2].
Proof. vm_compute. done. Qed.
End Dynamo.

(** ** Redis *)

Module Redis.

Record RedisConfig := mkRedisConfig { rc_url : string; key_prefix : string; pool_size : nat }.
Definition RedisConfig_new (url : string) : RedisConfig := mkRedisConfig url "atomr" 4.
Definition journal_key (c : RedisConfig) (pid : string) : string := key_prefix c +:+ ":journal:" +:+ pid.
Definition snapshot_key (c : RedisConfig) (pid : string) : string := key_prefix c +:+ ":snapshot:" +:+ pid.
Definition tag_key (c : RedisConfig) (tag : string) : string := key_prefix c +:+ ":tag:" +:+ tag.

(** Commands queued in a transaction: [ZADD key NX score member]. *)
Abbreviation ZAdd := (string * N * string)%type.

Class RedisDb (D : Type) := {
  zcard : string → D → string + Z;
  (** [MULTI], the queued commands, [EXEC] *)
  exec_nx : list ZAdd → D → string + D;
  zadd_xx : string → N → string → D → string + D;
  zrem : string → string → D → string + D;
  zrangebyscore : string → N → option N → option N → D → string + list string;
  zrange_last : string → D → string + option (string * N);
}.

Section journal.
Context {D : Type} `{RedisDb D}.
Variable cfg : RedisConfig.
(** The records in JSON, with the payload in base 64. *)
Variable encode : PersistentRepr → JournalError + string.
Variable decode : string → JournalError + PersistentRepr.

Fixpoint check_numbers (expected : N) (batch : list PersistentRepr) : JournalError + unit :=
  match batch with
  | [] => inr tt
  | m :: rest =>
      if negb (sequence_nr m =? expected)%N then inl (SequenceOutOfOrder expected (sequence_nr m))
      else check_numbers (u64_add expected 1) rest
  end.

Definition tag_member (m : PersistentRepr) : string := persistence_id m +:+ ":" +:+ uint_to_string (sequence_nr m).

Fixpoint queue_batch (key : string) (batch : list PersistentRepr) : JournalError + list ZAdd :=
  match batch with
  | [] => inr []
  | m :: rest =>
      let? raw := encode m in
      let? cmds := queue_batch key rest in
      inr ((key, sequence_nr m, raw) :: ((λ t, (tag_key cfg t, sequence_nr m, tag_member m)) <$> tags m) ++ cmds)
  end.

Definition redis_write_batch (pid : string) (batch : list PersistentRepr) (d : D) : JournalError + D :=
  let key := journal_key cfg pid in
  let? current := backend (zcard key d) in
  let? _ := check_numbers (u64_add (i64_as_u64 current) 1) batch in
  let? cmds := queue_batch key batch in
  backend (exec_nx cmds d).

(** A batch that fails leaves those before it in place. *)
Fixpoint redis_write_batches (bs : list (string * list PersistentRepr)) (d : D) : D * (JournalError + unit) :=
  match bs with
  | [] => (d, inr tt)
  | (pid, batch) :: bs' =>
      match redis_write_batch pid batch d with
      | inl e => (d, inl e)
      | inr d' => redis_write_batches bs' d'
      end
  end.

Definition redis_write_messages (ms : list PersistentRepr) (d : D) : D * (JournalError + unit) :=
  match ms with [] => (d, inr tt) | _ => redis_write_batches (batches ms) d end.

Fixpoint delete_members (key : string) (members : list string) (d : D) : D * (JournalError + unit) :=
  match members with
  | [] => (d, inr tt)
  | raw :: rest =>
      match decode raw with
      | inl e => (d, inl e)
      | inr r =>
          let r' := mkPersistentRepr (persistence_id r) (sequence_nr r) (payload r) (manifest r) (writer_uuid r)
                      true (tags r) in
          match encode r' with
          | inl e => (d, inl e)
          | inr new_payload =>
              match backend (zadd_xx key (sequence_nr r) new_payload d) with
              | inl e => (d, inl e)
              | inr d1 => match backend (zrem key raw d1) with
                          | inl e => (d1, inl e)
                          | inr d2 => delete_members key rest d2
                          end
              end
          end
      end
  end.

Definition redis_delete_messages_to (pid : string) (to : N) (d : D) : D * (JournalError + unit) :=
  let key := journal_key cfg pid in
  match backend (zrangebyscore key 0 (Some to) None d) with
  | inl e => (d, inl e)
  | inr members => delete_members key members d
  end.

Fixpoint decode_live (members : list string) : JournalError + list PersistentRepr :=
  match members with
  | [] => inr []
  | raw :: rest =>
      let? r := decode raw in
      let? out := decode_live rest in
      inr (if deleted r then out else r :: out)
  end.

(** [None] is no limit. *)
Definition score_limit (max : N) : option N := if (2 ^ 63 - 1 <? max)%N then None else Some max.

Definition redis_replay_messages (pid : string) (from to max : N) (d : D) : JournalError + list PersistentRepr :=
  let? members := backend (zrangebyscore (journal_key cfg pid) from (Some to) (score_limit max) d) in
  decode_live members.

Definition redis_highest_sequence_nr (pid : string) (d : D) : JournalError + N :=
  let? o := backend (zrange_last (journal_key cfg pid) d) in
  inr (match o with Some (_, s) => s | None => 0%N end).

(** [rsplit_once(':')]. *)
Definition rsplit_colon (s : string) : option (string * string) :=
  (λ '(a, b), (String.string_of_list_ascii (reverse b), String.string_of_list_ascii (reverse a))) <$>
    (fix go (l : list ascii) : option (list ascii * list ascii) :=
       match l with
       | [] => None
       | c :: l' => if Ascii.eqb c ":" then Some ([], l') else (λ '(a, b), (c :: a, b)) <$> go l'
       end) (reverse (String.list_ascii_of_string s)).

Fixpoint tagged_entries (entries : list string) (d : D) : JournalError + list PersistentRepr :=
  match entries with
  | [] => inr []
  | e :: rest =>
      match rsplit_colon e with
      | None => tagged_entries rest d
      | Some (pid, s) =>
          let seq := default 0%N (parse_uint u64_max s) in
          let? members := backend (zrangebyscore (journal_key cfg pid) seq (Some seq) None d) in
          let? found := decode_live members in
          let? out := tagged_entries rest d in
          inr (found ++ out)
      end
  end.

Definition redis_events_by_tag (tag : string) (from max : N) (d : D) : JournalError + list PersistentRepr :=
  let? entries := backend (zrangebyscore (tag_key cfg tag) from None (score_limit max) d) in
  tagged_entries entries d.
End journal.

(** *** Sorted sets *)

(** A sorted set is a list of members by score, and by their bytes within a score. *)
Abbreviation ZSet := (list (N * string)).
Fixpoint z_insert (s : N) (m : string) (l : ZSet) : ZSet :=
  match l with
  | [] => [(s, m)]
  | (s', m') :: l' =>
      if (s <? s')%N || ((s =? s')%N && String.ltb m m') then (s, m) :: l else (s', m') :: z_insert s m l'
  end.
Record Sets := mkSets { z_sets : gmap string ZSet }.
Definition zset (d : Sets) (key : string) : ZSet := default [] (z_sets d !! key).
Definition z_update (key : string) (f : ZSet → ZSet) (d : Sets) : Sets :=
  mkSets (<[key := f (zset d key)]> (z_sets d)).
Definition z_member (m : string) (l : ZSet) : bool := existsb (λ e, String.eqb e.2 m) l.
Definition z_remove (m : string) (l : ZSet) : ZSet := filter (λ e, e.2 ≠ m) l.

#[export] Instance Sets_Db : RedisDb Sets := {
  zcard key d := inr (Z.of_nat (length (zset d key)));
  exec_nx cmds d := inr (foldl (λ d '(key, s, m),
      if z_member m (zset d key) then d else z_update key (z_insert s m) d) d cmds);
  (** [XX] only updates members that are there *)
  zadd_xx key s m d :=
    inr (if z_member m (zset d key) then z_update key (λ l, z_insert s m (z_remove m l)) d else d);
  zrem key m d := inr (z_update key (z_remove m) d);
  zrangebyscore key lo hi lim d :=
    let l := (filter (λ e, (lo ≤ e.1)%N ∧ match hi with Some h => (e.1 <=? h)%N | None => true end = true) (zset d key)).*2 in
    inr (match lim with Some n => take_N n l | None => l end);
  zrange_last key d := inr ((λ e : N * string, (e.2, e.1)) <$> last (zset d key));
}.

(** A toy encoding: the number, the flag and the first tag. *)
Definition toy_encode (r : PersistentRepr) : JournalError + string :=
  inr (String (if deleted r then "d" else "l") (uint_to_string (sequence_nr r))).
Definition toy_decode (s : string) : JournalError + PersistentRepr :=
  match s with
  | String c n => match parse_uint u64_max n with
                  | Some nr => inr (mkPersistentRepr "p" nr [] EmptyString EmptyString (Ascii.eqb c "d") [])
                  | None => inl (JournalBackend "bad record")
                  end
  | EmptyString => inl (JournalBackend "bad record")
  end.
Definition rmsg (nr : N) : PersistentRepr := mkPersistentRepr "p" nr [] EmptyString EmptyString false [].
Definition rcfg : RedisConfig := RedisConfig_new "redis://h".
Definition rwrote (n : nat) : Sets :=
  (redis_write_messages rcfg toy_encode ((λ k, rmsg (N.of_nat k + 1)) <$> seq 0 n) (mkSets ∅)).1.

Example redis_round_trip :
  redis_replay_messages rcfg toy_decode "p" 2 u64_max u64_max (rwrote 12) =
    inr ((λ k, rmsg (N.of_nat k + 2)) <$> seq 0 11) ∧
  redis_highest_sequence_nr rcfg "p" (rwrote 12) = inr 12%N.
Proof. vm_compute. done. Qed.

(** A deletion removes the records instead of marking them: the member with the flag is not
    in the set, so [XX] does not add it.  The count of the set then no longer is the last
    number, and the next record of the stream is refused. *)
Example redis_delete_removes :
  let d := (redis_delete_messages_to rcfg toy_encode toy_decode "p" 2 (rwrote 3)).1 in
  zset d (journal_key rcfg "p") = [(3%N, "l3")] ∧
  redis_highest_sequence_nr rcfg "p" d = inr 3%N ∧
  (redis_write_messages rcfg toy_encode [rmsg 4] d).2 = inl (SequenceOutOfOrder 2 4).
Proof. vm_compute. done. Qed.
End Redis.
