(* ===== verification/ClusterNet.v ===== *)
(** * Cluster transports
    ([crates/atomr-cluster/src/transport.rs], [remote_adapter.rs])

    [InProcess] connects nodes of one process by channels that a registry hands out;
    [TcpFrames] is the framing of the TCP transport and [TcpOut] its sending side, where every
    frame has a task of its own that finds or opens the connection to its peer.  [Adapter] is
    the gossip actor on top of the remote system.

    Channels are queues.  The tasks and the writers of the connections take their steps in any
    order; the step relation of [TcpOut] has one rule per step between two suspension points
    or accesses to the shared map. *)

From stdpp Require Import gmap strings list.
From Stdlib Require Import NArith Lia.
From S2P Require Import Prelude Encoding Address VectorClock Membership Daemon RemoteSystem.

Inductive ClusterFrame :=
  | FGossip (pdu : GossipPdu)
  | FRemoteTell (target_path manifest : string) (payload : Bytes) (sender_path : option string).

(** What the demultiplexer hands on: to the daemon's inbox or to the sink. *)
Inductive Delivery :=
  | DGossip (pdu : GossipPdu)
  | DTell (target_path manifest : string) (payload : Bytes) (sender_path : option string).

Definition demux (f : ClusterFrame) : Delivery :=
  match f with
  | FGossip p => DGossip p
  | FRemoteTell t m b s => DTell t m b s
  end.

(** ** Within a process *)

Module InProcess.

(** The registry maps an address to a channel; [delivered] is what the task of each channel
    handed on so far, and [started] the channels that have a task. *)
Record Net := mkNet {
  peers : gmap string nat;
  queues : gmap nat (list ClusterFrame);
  delivered : gmap nat (list Delivery);
  started : gset nat;
}.

Record Transport := mkTransport { self_addr : Address; inbound : nat }.

Definition net_new : Net := mkNet ∅ ∅ ∅ ∅.

(** [InProcessClusterTransport::new]; [ch] is the channel that is made. *)
Definition transport_new (ch : nat) (addr : Address) (n : Net) : Transport * Net :=
  (mkTransport addr ch,
   mkNet (<[Address_to_string addr := ch]> (peers n)) (<[ch := []]> (queues n)) (<[ch := []]> (delivered n))
     (started n)).

Definition registry_send (target : Address) (f : ClusterFrame) (n : Net) : Net :=
  match peers n !! Address_to_string target with
  | Some ch => mkNet (peers n) (entry_update [] (λ q, q ++ [f]) ch (queues n)) (delivered n) (started n)
  | None => n
  end.

Definition unregister (addr : Address) (n : Net) : Net :=
  mkNet (delete (Address_to_string addr) (peers n)) (queues n) (delivered n) (started n).

Definition send_remote (target : Address) (path man : string) (data : Bytes) (sender : option string) (n : Net) : Net :=
  registry_send target (FRemoteTell path man data sender) n.

(** [GossipTransport::send]. *)
Definition send_gossip (t : Transport) (target : Address) (pdu : GossipPdu) (n : Net) : Net :=
  if decide (target = self_addr t) then n else registry_send target (FGossip pdu) n.

(** [start]: the receiver can be taken once. *)
Definition start (t : Transport) (n : Net) : Net :=
  mkNet (peers n) (queues n) (delivered n) ({[inbound t]} ∪ started n).

(** One turn of the task of a channel. *)
Definition task_turn (ch : nat) (n : Net) : Net :=
  if decide (ch ∈ started n) then
    match default [] (queues n !! ch) with
    | f :: q => mkNet (peers n) (<[ch := q]> (queues n))
                  (entry_update [] (λ l, l ++ [demux f]) ch (delivered n)) (started n)
    | [] => n
    end
  else n.

(** [Drop]. *)
Definition transport_drop (t : Transport) (n : Net) : Net := unregister (self_addr t) n.

Inductive Event :=
  | EvGossip (t : Transport) (target : Address) (pdu : GossipPdu)
  | EvTell (target : Address) (path man : string) (data : Bytes) (sender : option string)
  | EvTurn (ch : nat).

Definition step (e : Event) (n : Net) : Net :=
  match e with
  | EvGossip t target pdu => send_gossip t target pdu n
  | EvTell target path man data sender => send_remote target path man data sender n
  | EvTurn ch => task_turn ch n
  end.

(** The frame an event sends to the address [a]. *)
Definition sent_to (a : string) (e : Event) : list ClusterFrame :=
  match e with
  | EvGossip t target pdu =>
      if decide (target = self_addr t) then []
      else if decide (Address_to_string target = a) then [FGossip pdu] else []
  | EvTell target path man data sender =>
      if decide (Address_to_string target = a) then [FRemoteTell path man data sender] else []
  | EvTurn _ => []
  end.

(** Everything that was put on a channel. *)
Definition traffic (ch : nat) (n : Net) : list Delivery :=
  default [] (delivered n !! ch) ++ (demux <$> default [] (queues n !! ch)).

Lemma registry_send_spec target f n a ch :
  peers n !! a = Some ch → (∀ b, peers n !! b = Some ch → b = a) →
  peers (registry_send target f n) = peers n ∧ started (registry_send target f n) = started n ∧
  delivered (registry_send target f n) = delivered n ∧
  default [] (queues (registry_send target f n) !! ch) =
    default [] (queues n !! ch) ++ (if decide (Address_to_string target = a) then [f] else []).
Proof.
  intros Hp Hinj. unfold registry_send. destruct (peers n !! Address_to_string target) as [c|] eqn:E.
  - cbn. split_and!; try done. rewrite lookup_entry_update. case_decide as Hc.
    + subst c. rewrite decide_True by by apply Hinj. done.
    + rewrite decide_False by congruence. by rewrite app_nil_r.
  - split_and!; try done. rewrite decide_False by congruence. by rewrite app_nil_r.
Qed.

Lemma step_traffic e n a ch :
  peers n !! a = Some ch → (∀ b, peers n !! b = Some ch → b = a) →
  peers (step e n) = peers n ∧ started (step e n) = started n ∧
  traffic ch (step e n) = traffic ch n ++ (demux <$> sent_to a e).
Proof.
  intros Hp Hinj. destruct e as [t target pdu|target path man data sender|c]; cbn [step sent_to].
  - unfold send_gossip. case_decide; [by rewrite app_nil_r|].
    destruct (registry_send_spec target (FGossip pdu) n a ch Hp Hinj) as (H1 & H2 & H3 & H4).
    split_and!; [done..|]. unfold traffic. rewrite H3, H4, fmap_app, app_assoc. done.
  - destruct (registry_send_spec target (FRemoteTell path man data sender) n a ch Hp Hinj) as (H1 & H2 & H3 & H4).
    split_and!; [done..|]. unfold traffic. unfold send_remote. rewrite H3, H4, fmap_app, app_assoc. done.
  - rewrite app_nil_r. unfold task_turn. case_decide; [|done].
    destruct (default [] (queues n !! c)) as [|f q] eqn:Eq; [done|]. split_and!; [done..|].
    unfold traffic. cbn [queues delivered]. rewrite lookup_entry_update. case_decide as Hc.
    + subst c. rewrite lookup_insert_eq, Eq. cbn. by rewrite <- app_assoc.
    + by rewrite lookup_insert_ne.
Qed.

Lemma run_traffic es n a ch :
  peers n !! a = Some ch → (∀ b, peers n !! b = Some ch → b = a) →
  let n' := foldl (λ n e, step e n) n es in
  peers n' = peers n ∧ started n' = started n ∧
  traffic ch n' = traffic ch n ++ (demux <$> (es ≫= sent_to a)).
Proof.
  intros Hp Hinj. revert n Hp Hinj; induction es as [|e es IH]; intros n Hp Hinj; cbn [foldl].
  { by rewrite app_nil_r. }
  destruct (step_traffic e n a ch Hp Hinj) as (H1 & H2 & H3).
  destruct (IH (step e n)) as (H4 & H5 & H6); [by rewrite H1|by rewrite H1|].
  split_and!; [congruence..|]. rewrite H6, H3. rewrite bind_cons, fmap_app, app_assoc. done.
Qed.

(** Enough turns of its task empty a channel. *)
Lemma turns_empty ch n k :
  ch ∈ started n → length (default [] (queues n !! ch)) ≤ k →
  default [] (queues (Nat.iter k (task_turn ch) n) !! ch) = [].
Proof.
  intros Hs; revert n Hs; induction k as [|k IH]; intros n Hs Hk.
  { destruct (default [] (queues n !! ch)) eqn:E; [done|cbn in Hk; lia]. }
  rewrite Nat.iter_succ_r. apply IH.
  - unfold task_turn. by repeat case_match.
  - unfold task_turn. rewrite decide_True by done.
    destruct (default [] (queues n !! ch)) as [|f q] eqn:E; [rewrite E; cbn; lia|].
    cbn. rewrite lookup_insert_eq. cbn in *. lia.
Qed.

(** A node that restarts at its address is cut off when its first transport is dropped. *)
Lemma late_drop_cuts_off a n :
  let '(t1, n1) := transport_new 1 a n in
  let '(t2, n2) := transport_new 2 a n1 in
  ∀ f, registry_send a f (transport_drop t1 n2) = transport_drop t1 n2.
Proof.
  cbn. intros f. unfold registry_send, transport_drop, unregister. cbn. by rewrite lookup_delete_eq.
Qed.
End InProcess.

(** Over the in-process transport a node receives exactly the frames sent to its
    address, each once and in the order they were sent, gossip and tells alike: what was
    handed on and what waits is what was sent, and once its task has emptied the channel all
    of it was handed on. *)
Theorem in_process_delivers (n : InProcess.Net) (es : list InProcess.Event) a ch k :
  InProcess.peers n !! a = Some ch → (∀ b, InProcess.peers n !! b = Some ch → b = a) →
  ch ∈ InProcess.started n → InProcess.traffic ch n = [] →
  let n' := foldl (λ n e, InProcess.step e n) n es in
  let sent := es ≫= InProcess.sent_to a in
  InProcess.traffic ch n' = demux <$> sent ∧
  (length (default [] (InProcess.queues n' !! ch)) ≤ k →
   default [] (InProcess.delivered (Nat.iter k (InProcess.task_turn ch) n') !! ch) = demux <$> sent).
Proof.
  intros Hp Hinj Hst H0 n' sent.
  destruct (InProcess.run_traffic es n a ch Hp Hinj) as (HP & HS & HT). fold n' in HP, HS, HT.
  rewrite H0, app_nil_l in HT. split; [done|]. intros Hk.
  assert (∀ j m, InProcess.peers m = InProcess.peers n →
    InProcess.traffic ch (Nat.iter j (InProcess.task_turn ch) m) = InProcess.traffic ch m) as Hturns.
  { clear -Hp Hinj. induction j as [|j IH]; intros m Hm; [done|]. rewrite Nat.iter_succ_r.
    destruct (InProcess.step_traffic (InProcess.EvTurn ch) m a ch) as (H1 & _ & H3); [by rewrite Hm|by rewrite Hm|].
    cbn [InProcess.step] in *. rewrite IH by congruence. rewrite H3. by rewrite app_nil_r. }
  unfold sent. rewrite <- HT, <- (Hturns k n' HP). unfold InProcess.traffic.
  rewrite (InProcess.turns_empty ch n' k) by (done || by rewrite HS). by rewrite app_nil_r.
Qed.

Module InProcessDemo.
Definition node_a : Address := Address_remote "akka" "s" "a" 1.
Definition node_b : Address := Address_remote "akka" "s" "b" 1.
Definition net2 : InProcess.Net :=
  let '(ta, n) := InProcess.transport_new 1 node_a InProcess.net_new in
  let '(tb, n) := InProcess.transport_new 2 node_b n in
  InProcess.start tb (InProcess.start ta n).
Definition demo_events : list InProcess.Event :=
  [InProcess.EvTell node_b "/user/x" "m" [] None; InProcess.EvTurn 2;
   InProcess.EvTell node_a "/user/y" "m" [] None; InProcess.EvTell node_b "/user/z" "m" [] None].

Lemma in_process_delivers_witness :
  default [] (InProcess.delivered (Nat.iter 1 (InProcess.task_turn 2)
    (foldl (λ n e, InProcess.step e n) net2 demo_events)) !! 2) =
    [DTell "/user/x" "m" [] None; DTell "/user/z" "m" [] None].
Proof.
  refine (proj2 (in_process_delivers net2 demo_events (Address_to_string node_b) 2 1 _ _ _ _) _).
  - vm_compute. reflexivity.
  - intros b Hb.
    assert (Forall (λ kv : string * nat, kv.2 = 2 → kv.1 = Address_to_string node_b) (map_to_list (InProcess.peers net2))) as Hall
      by (apply (bool_decide_eq_true_1 _); vm_compute; reflexivity).
    rewrite Forall_forall in Hall. apply (Hall (b, 2)); [by apply elem_of_map_to_list|reflexivity].
  - apply (bool_decide_eq_true_1 _). vm_compute. reflexivity.
  - vm_compute. reflexivity.
  - vm_compute. lia.
Defined.
End InProcessDemo.

(** ** Frames over TCP *)

Module TcpFrames.
Import Frames.
Section frames.
Context `{PduCodec ClusterFrame}.

(** The reader's limit of 16 MiB; the writer has none. *)
Definition max_frame : nat := N.to_nat (16 * 1024 * 1024).

Definition cluster_write_frame (f : ClusterFrame) : CodecError + Bytes :=
  match encode_pdu f with
  | inl e => inl e
  | inr bs => inr (to_be_bytes (wrap32 (N.of_nat (length bs))) ++ bs)
  end.

(** [handle_inbound_socket]: the frames up to the first error, which ends the connection. *)
Definition handle_inbound_socket (fuel : nat) (input : Bytes) : list ClusterFrame :=
  (read_all fuel input max_frame).1.

Context `{!PduCodecLaws ClusterFrame}.

Definition fits (f : ClusterFrame) : Prop := ∃ bs, encode_pdu f = inr bs ∧ length bs ≤ max_frame.

Lemma cluster_write_fits f bs : fits f → cluster_write_frame f = inr bs → write_frame f max_frame = inr bs.
Proof.
  intros (p & Hp & Hl). unfold cluster_write_frame, write_frame. rewrite Hp.
  by rewrite (proj2 (Nat.ltb_ge _ _)).
Qed.

Lemma tcp_frames_roundtrip fs bss fuel :
  Forall fits fs → Forall2 (λ f bs, cluster_write_frame f = inr bs) fs bss → length fs < fuel →
  handle_inbound_socket fuel (mjoin bss) = fs.
Proof.
  intros Hf Hw Hfuel. unfold handle_inbound_socket. rewrite (FrameFacts.frames_roundtrip fs max_frame bss fuel); [done| | |done].
  - unfold max_frame, u32_modulus. lia.
  - clear Hfuel. induction Hw as [|f bs fs bss Hb Hw IH]; [constructor|]. apply Forall_cons in Hf as [Hf Hfs].
    constructor; [by apply cluster_write_fits|by apply IH].
Qed.

(** A frame above the limit is written, and ends the connection at the reader, with every
    frame after it. *)
Lemma oversized_frame_ends_connection f p rest fuel :
  encode_pdu f = inr p → max_frame < length p → (N.of_nat (length p) < u32_modulus)%N →
  ∃ bs, cluster_write_frame f = inr bs ∧ handle_inbound_socket fuel (bs ++ rest) = [].
Proof.
  intros Hp Hbig Hlen. unfold cluster_write_frame. rewrite Hp. eexists. split; [done|].
  unfold handle_inbound_socket. destruct fuel as [|fuel]; [done|]. cbn [read_all]. unfold read_frame.
  set (h := to_be_bytes (wrap32 (N.of_nat (length p)))). rewrite <- app_assoc.
  pose proof (FrameFacts.read_exact_app h (p ++ rest)) as Hh. unfold h in Hh at 1.
  rewrite FrameFacts.length_to_be_bytes in Hh. rewrite Hh. unfold h.
  rewrite FrameFacts.from_to_be_bytes by (unfold wrap32, u32_modulus; by apply N.mod_lt).
  unfold wrap32. rewrite N.mod_small, Nat2N.id by done. by rewrite (proj2 (Nat.ltb_lt _ _)).
Qed.
End frames.
End TcpFrames.

(** ** Sending over TCP *)

Module TcpOut.

(** [s_dropped] records the frames that were lost, with the address they were for.

    A connection: its key in the map, the frames in its channel, those it wrote, and whether
    its writer runs. *)
Record Conn := mkConn {
  c_key : string;
  c_queue : list ClusterFrame;
  c_written : list ClusterFrame;
  c_alive : bool;
}.

(** A task of [send_via_tcp]: before it looks the peer up, while it connects, and with the
    sender of the connection it made. *)
Inductive Task :=
  | TLookup (target : Address) (f : ClusterFrame)
  | TConnecting (key : string) (f : ClusterFrame)
  | TSending (conn : nat) (f : ClusterFrame).

Record State := mkState {
  s_peers : gmap string nat;
  s_conns : list Conn;
  s_tasks : list Task;
  s_dropped : list (string * ClusterFrame);
}.

Definition state_new : State := mkState ∅ [] [] [].

(** [GossipTransport::send] and [send_remote] spawn a task. *)
Definition spawn (target : Address) (f : ClusterFrame) (s : State) : State :=
  mkState (s_peers s) (s_conns s) (s_tasks s ++ [TLookup target f]) (s_dropped s).

Definition tcp_send (self target : Address) (pdu : GossipPdu) (s : State) : State :=
  if decide (target = self) then s else spawn target (FGossip pdu) s.

(** [tx.send]: the channel is closed once its writer has ended, and the frame is lost. *)
Definition push (conn : nat) (f : ClusterFrame) (s : State) : State :=
  match s_conns s !! conn with
  | Some c =>
      if c_alive c
      then mkState (s_peers s) (<[conn := mkConn (c_key c) (c_queue c ++ [f]) (c_written c) true]> (s_conns s))
             (s_tasks s) (s_dropped s)
      else mkState (s_peers s) (s_conns s) (s_tasks s) (s_dropped s ++ [(c_key c, f)])
  | None => s
  end.

Definition set_tasks (ts : list Task) (s : State) : State := mkState (s_peers s) (s_conns s) ts (s_dropped s).
Definition drop_frame (key : string) (f : ClusterFrame) (s : State) : State :=
  mkState (s_peers s) (s_conns s) (s_tasks s) (s_dropped s ++ [(key, f)]).

(** A connection is held by an entry of the map or by a task that is about to send on it. *)
Definition held (conn : nat) (s : State) : Prop :=
  (∃ k, s_peers s !! k = Some conn) ∨ (∃ f, TSending conn f ∈ s_tasks s).

(** The writer ends: it closes the channel and removes its key from the map, whatever
    connection the key stands for by then. *)
Definition end_writer (conn : nat) (c : Conn) (s : State) : State :=
  mkState (delete (c_key c) (s_peers s)) (<[conn := mkConn (c_key c) [] (c_written c) false]> (s_conns s))
    (s_tasks s) (s_dropped s ++ (pair (c_key c) <$> c_queue c)).

(** The steps, in any interleaving; the label says that a fault of the environment shows in
    it: an address that names no host and port, a refused connection, a failed write. *)
Inductive tcp_step : bool → State → State → Prop :=
  | step_hit ts1 ts2 target f conn s :
      s_tasks s = ts1 ++ TLookup target f :: ts2 →
      s_peers s !! Address_to_string target = Some conn →
      tcp_step false s (push conn f (set_tasks (ts1 ++ ts2) s))
  | step_no_address ts1 ts2 target f s :
      s_tasks s = ts1 ++ TLookup target f :: ts2 →
      s_peers s !! Address_to_string target = None → host target = None ∨ port target = None →
      tcp_step true s (drop_frame (Address_to_string target) f (set_tasks (ts1 ++ ts2) s))
  | step_miss ts1 ts2 target f s :
      s_tasks s = ts1 ++ TLookup target f :: ts2 →
      s_peers s !! Address_to_string target = None → is_Some (host target) → is_Some (port target) →
      tcp_step false s (set_tasks (ts1 ++ TConnecting (Address_to_string target) f :: ts2) s)
  | step_refused ts1 ts2 key f s :
      s_tasks s = ts1 ++ TConnecting key f :: ts2 →
      tcp_step true s (drop_frame key f (set_tasks (ts1 ++ ts2) s))
  | step_connected ts1 ts2 key f s :
      s_tasks s = ts1 ++ TConnecting key f :: ts2 →
      tcp_step false s (mkState (<[key := length (s_conns s)]> (s_peers s)) (s_conns s ++ [mkConn key [] [] true])
                    (ts1 ++ TSending (length (s_conns s)) f :: ts2) (s_dropped s))
  | step_send ts1 ts2 conn f s :
      s_tasks s = ts1 ++ TSending conn f :: ts2 →
      tcp_step false s (push conn f (set_tasks (ts1 ++ ts2) s))
  | step_write conn c f q s :
      s_conns s !! conn = Some c → c_alive c = true → c_queue c = f :: q →
      tcp_step false s (mkState (s_peers s) (<[conn := mkConn (c_key c) q (c_written c ++ [f]) true]> (s_conns s))
                    (s_tasks s) (s_dropped s))
  | step_write_error conn c f q s :
      s_conns s !! conn = Some c → c_alive c = true → c_queue c = f :: q →
      tcp_step true s (end_writer conn c s)
  | step_writer_done conn c s :
      s_conns s !! conn = Some c → c_alive c = true → c_queue c = [] → ¬ held conn s →
      tcp_step false s (end_writer conn c s)
  | step_shutdown s : tcp_step false s (mkState ∅ (s_conns s) (s_tasks s) (s_dropped s)).

(** *** Every frame is accounted for *)

(** The address a task sends to, given the keys of the connections. *)
Definition task_key (keys : list string) (t : Task) : string :=
  match t with
  | TLookup target _ => Address_to_string target
  | TConnecting key _ => key
  | TSending conn _ => default EmptyString (keys !! conn)
  end.
Definition task_frame (t : Task) : ClusterFrame :=
  match t with TLookup _ f | TConnecting _ f | TSending _ f => f end.
Definition entry (keys : list string) (t : Task) : string * ClusterFrame := (task_key keys t, task_frame t).
Definition conn_frames (c : Conn) : list (string * ClusterFrame) := pair (c_key c) <$> (c_written c ++ c_queue c).
Definition keys (s : State) : list string := c_key <$> s_conns s.

(** The frames with their addresses, wherever they are. *)
Definition frames (s : State) : list (string * ClusterFrame) :=
  (entry (keys s) <$> s_tasks s) ++ (s_conns s ≫= conn_frames) ++ s_dropped s.

(** The map and the tasks name connections that exist, and the map by their keys. *)
Record tcp_wf (s : State) : Prop := {
  wf_peers k conn : s_peers s !! k = Some conn → keys s !! conn = Some k;
  wf_tasks conn f : TSending conn f ∈ s_tasks s → conn < length (s_conns s);
}.

Lemma conns_insert (cs : list Conn) i c c' :
  cs !! i = Some c →
  ∃ rest, (cs ≫= conn_frames) ≡ₚ conn_frames c ++ rest ∧ (<[i := c']> cs ≫= conn_frames) ≡ₚ conn_frames c' ++ rest.
Proof.
  intros Hi. exists ((take i cs ++ drop (S i) cs) ≫= conn_frames).
  pose proof (lookup_lt_Some _ _ _ Hi) as Hl. split.
  - rewrite <- (take_drop_middle cs i c Hi) at 1. rewrite !bind_app, bind_cons. by rewrite Permutation_app_swap_app.
  - rewrite insert_take_drop by done. rewrite !bind_app, bind_cons. by rewrite Permutation_app_swap_app.
Qed.

Lemma keys_insert (cs : list Conn) i c c' :
  cs !! i = Some c → c_key c' = c_key c → c_key <$> <[i := c']> cs = c_key <$> cs.
Proof.
  intros Hi Hk. rewrite list_fmap_insert. apply list_insert_id. by rewrite list_lookup_fmap, Hi, Hk.
Qed.

Lemma push_spec conn f s key :
  keys s !! conn = Some key →
  frames (push conn f s) ≡ₚ (key, f) :: frames s ∧ keys (push conn f s) = keys s ∧
  s_peers (push conn f s) = s_peers s ∧ s_tasks (push conn f s) = s_tasks s.
Proof.
  unfold keys. intros Hk. rewrite list_lookup_fmap in Hk. unfold push.
  destruct (s_conns s !! conn) as [c|] eqn:Ec; [|done]. injection Hk as <-.
  destruct (c_alive c).
  - set (c' := mkConn (c_key c) (c_queue c ++ [f]) (c_written c) true).
    pose proof (keys_insert (s_conns s) conn c c' Ec eq_refl) as Hkeys.
    split_and!; [|done..]. unfold frames, keys. cbn [s_conns s_tasks s_dropped]. rewrite Hkeys.
    destruct (conns_insert (s_conns s) conn c c' Ec) as (rest & -> & ->).
    subst c'. unfold conn_frames. cbn. rewrite !fmap_app. cbn. solve_Permutation.
  - split_and!; [|done..]. unfold frames, keys. cbn. solve_Permutation.
Qed.

Lemma set_tasks_frames s t ts1 ts2 :
  s_tasks s = ts1 ++ t :: ts2 → frames s ≡ₚ entry (keys s) t :: frames (set_tasks (ts1 ++ ts2) s).
Proof.
  intros E. unfold frames. rewrite E. unfold keys. cbn. rewrite !fmap_app, fmap_cons. solve_Permutation.
Qed.

Lemma set_tasks_wf s ts : tcp_wf s → (∀ conn f, TSending conn f ∈ ts → TSending conn f ∈ s_tasks s) → tcp_wf (set_tasks ts s).
Proof. intros [Hp Ht] Hts. split; cbn; [done|]. intros conn f Hin. eapply Ht, Hts, Hin. Qed.

Lemma drop_frame_frames key f s : frames (drop_frame key f s) ≡ₚ (key, f) :: frames s.
Proof. unfold frames, keys. cbn. solve_Permutation. Qed.

Lemma wf_same s s' :
  tcp_wf s → keys s' = keys s → s_tasks s' = s_tasks s →
  (∀ k c, s_peers s' !! k = Some c → s_peers s !! k = Some c) → tcp_wf s'.
Proof.
  intros [Hp Ht] Hk Et Hps. split.
  - intros k c Hc. rewrite Hk. auto.
  - intros c f Hin. rewrite Et in Hin. apply Ht in Hin. unfold keys in Hk.
    apply (f_equal length) in Hk. rewrite !length_fmap in Hk. lia.
Qed.

Lemma end_writer_spec conn c s :
  s_conns s !! conn = Some c → frames (end_writer conn c s) ≡ₚ frames s ∧ (tcp_wf s → tcp_wf (end_writer conn c s)).
Proof.
  intros Hc.
  assert (keys (end_writer conn c s) = keys s) as Hk by by apply (keys_insert _ _ c). split.
  - unfold frames. rewrite Hk. cbn.
    destruct (conns_insert (s_conns s) conn c (mkConn (c_key c) [] (c_written c) false) Hc) as (rest & -> & ->).
    unfold conn_frames. cbn. rewrite !fmap_app. cbn. solve_Permutation.
  - intros Hwf. apply (wf_same s); try done. cbn. intros k x Hx. by apply lookup_delete_Some in Hx as [_ Hx].
Qed.

Lemma entry_grows ks ks' t :
  (∀ conn f, t = TSending conn f → conn < length ks) → entry (ks ++ ks') t = entry ks t.
Proof.
  destruct t as [| |conn f]; intros Hl; [done..|]. unfold entry. cbn. rewrite lookup_app_l; [done|]. by eapply Hl.
Qed.

Lemma entries_grow ks ks' (ts : list Task) :
  (∀ conn f, TSending conn f ∈ ts → conn < length ks) → entry (ks ++ ks') <$> ts = entry ks <$> ts.
Proof.
  intros Hl. apply list_fmap_ext. intros i t Hi. apply entry_grows. intros conn f ->.
  eapply Hl, list_elem_of_lookup_2, Hi.
Qed.

(** A connection that is made is the new last one, and its task is the one that asked. *)
Lemma connected_spec ts1 ts2 key f s :
  let s' := mkState (<[key := length (s_conns s)]> (s_peers s)) (s_conns s ++ [mkConn key [] [] true])
              (ts1 ++ TSending (length (s_conns s)) f :: ts2) (s_dropped s) in
  tcp_wf s → s_tasks s = ts1 ++ TConnecting key f :: ts2 → tcp_wf s' ∧ frames s' ≡ₚ frames s.
Proof.
  intros s' [Hp Ht] Et.
  assert (keys s' = keys s ++ [key]) as Hk by (unfold keys; cbn; by rewrite fmap_app).
  assert (length (keys s) = length (s_conns s)) as Hl by apply length_fmap. split; [split|].
  - intros k c. rewrite Hk. cbn. rewrite lookup_insert_Some. intros [[<- <-]|[_ Hc]].
    + rewrite <- Hl. by apply list_lookup_middle.
    + by apply lookup_app_l_Some, Hp.
  - intros c g Hin. cbn in *. rewrite length_app. cbn.
    assert (c < length (s_conns s) ∨ c = length (s_conns s)) as [?|?]; [|lia..].
    rewrite Et in Ht. rewrite elem_of_app, elem_of_cons in Hin. destruct Hin as [Hin|[[= -> ->]|Hin]]; [|by right|].
    + left. eapply Ht, elem_of_app. by left.
    + left. eapply Ht, elem_of_app. right. by apply elem_of_cons; right.
  - unfold frames. rewrite Hk, Et. cbn. rewrite !fmap_app, !fmap_cons, bind_app.
    rewrite !entries_grow; [|intros c g Hin; rewrite Hl; eapply Ht; rewrite Et, elem_of_app, ?elem_of_cons; eauto..].
    assert (entry (keys s ++ [key]) (TSending (length (s_conns s)) f) = entry (keys s) (TConnecting key f)) as ->.
    { unfold entry. cbn. rewrite <- Hl. by rewrite list_lookup_middle. }
    cbn. by rewrite app_nil_r.
Qed.

(** A step keeps the frames that are there, with their addresses; a new one has a task. *)
Lemma step_frames fault s s' :
  tcp_wf s → tcp_step fault s s' →
  tcp_wf s' ∧ frames s' ≡ₚ frames s.
Proof.
  intros Hwf. destruct 1 as [ts1 ts2 target f conn s Et Hp|ts1 ts2 target f s Et Hp Ha|ts1 ts2 target f s Et Hp _ _|
    ts1 ts2 key f s Et|ts1 ts2 key f s Et|ts1 ts2 conn f s Et|conn c f q s Hc _ Hq|conn c f q s Hc _ Hq|conn c s Hc _ _ _|s].
  - assert (tcp_wf (set_tasks (ts1 ++ ts2) s)) as Hwf' by (apply set_tasks_wf; [done|]; rewrite Et; set_solver).
    destruct (push_spec conn f (set_tasks (ts1 ++ ts2) s) (Address_to_string target)) as (Hf & Hk & Hps & Hts).
    { by apply (wf_peers _ Hwf). }
    split; [apply (wf_same _ _ Hwf'); [done|done|by rewrite Hps]|]. rewrite Hf.
    by rewrite (set_tasks_frames _ _ _ _ Et).
  - split; [|rewrite drop_frame_frames; by rewrite (set_tasks_frames _ _ _ _ Et)].
    apply (wf_same (set_tasks (ts1 ++ ts2) s)); [|done..]. apply set_tasks_wf; [done|]. rewrite Et. set_solver.
  - split; [apply set_tasks_wf; [done|]; rewrite Et; set_solver|].
    unfold frames, keys. rewrite Et. cbn. by rewrite !fmap_app, !fmap_cons.
  - split; [|rewrite drop_frame_frames; by rewrite (set_tasks_frames _ _ _ _ Et)].
    apply (wf_same (set_tasks (ts1 ++ ts2) s)); [|done..]. apply set_tasks_wf; [done|]. rewrite Et. set_solver.
  - destruct (connected_spec ts1 ts2 key f s Hwf Et). auto.
  - assert (tcp_wf (set_tasks (ts1 ++ ts2) s)) as Hwf' by (apply set_tasks_wf; [done|]; rewrite Et; set_solver).
    assert (is_Some (keys s !! conn)) as [key Hk'].
    { unfold keys. rewrite list_lookup_fmap, fmap_is_Some, lookup_lt_is_Some. eapply (wf_tasks _ Hwf).
      rewrite Et, elem_of_app, elem_of_cons. by eauto. }
    destruct (push_spec conn f (set_tasks (ts1 ++ ts2) s) key Hk') as (Hf & Hk & Hps & Hts).
    split; [apply (wf_same _ _ Hwf'); [done|done|by rewrite Hps]|]. rewrite Hf.
    rewrite (set_tasks_frames _ _ _ _ Et). unfold entry. cbn. by rewrite Hk'.
  - set (c' := mkConn (c_key c) q (c_written c ++ [f]) true).
    pose proof (keys_insert (s_conns s) conn c c' Hc eq_refl) as Hkeys. split; [by apply (wf_same s)|].
    unfold frames, keys. cbn [s_conns s_tasks s_dropped]. rewrite Hkeys.
    destruct (conns_insert (s_conns s) conn c c' Hc) as (rest & -> & ->).
    subst c'. unfold conn_frames. cbn. rewrite Hq, !fmap_app. cbn. solve_Permutation.
  - by destruct (end_writer_spec conn c s Hc) as [? ?]; auto.
  - by destruct (end_writer_spec conn c s Hc) as [? ?]; auto.
  - split; [|done]. by apply (wf_same s).
Qed.

Lemma spawn_frames target f s :
  tcp_wf s → tcp_wf (spawn target f s) ∧ frames (spawn target f s) ≡ₚ (Address_to_string target, f) :: frames s.
Proof.
  intros [H1 H2]. split.
  - split; [done|]. cbn. intros c g Hin. rewrite elem_of_app, list_elem_of_singleton in Hin.
    destruct Hin as [Hin|]; [by eapply H2|done].
  - unfold frames, keys. cbn. rewrite fmap_app. cbn. solve_Permutation.
Qed.

(** *** Without a fault no frame is lost *)

(** The map and the tasks name connections whose writer runs, and nothing is lost. *)
Definition alive_at (s : State) (conn : nat) : Prop :=
  ∃ c, s_conns s !! conn = Some c ∧ c_alive c = true.
Definition loss_free (s : State) : Prop := s_dropped s = [] ∧ ∀ conn, held conn s → alive_at s conn.

Lemma push_loss_free conn f s :
  loss_free s → alive_at s conn → loss_free (push conn f s).
Proof.
  intros [Hd Ha] (c & Hc & Hal). unfold push. rewrite Hc, Hal. split; [done|].
  intros x Hx. destruct (Ha x Hx) as (cx & Hcx & Hax). unfold alive_at. cbn.
  destruct (decide (x = conn)) as [->|Hne].
  - eexists. split; [by apply list_lookup_insert_eq, (lookup_lt_Some _ _ _ Hc)|done].
  - exists cx. by rewrite list_lookup_insert_ne.
Qed.

(** Fewer holders. *)
Lemma loss_free_fewer s s' :
  loss_free s → s_conns s' = s_conns s → s_dropped s' = s_dropped s →
  (∀ conn, held conn s' → held conn s) → loss_free s'.
Proof.
  intros [Hd Ha] Ec Ed Hh. split; [congruence|]. intros conn Hc. unfold alive_at. rewrite Ec. by apply Ha, Hh.
Qed.

Lemma step_loss_free s s' : loss_free s → tcp_step false s s' → loss_free s'.
Proof.
  intros Hlf. remember false as fault eqn:E.
  destruct 1 as [ts1 ts2 target f conn s Et Hp|ts1 ts2 target f s Et Hp Ha|ts1 ts2 target f s Et Hp _ _|
    ts1 ts2 key f s Et|ts1 ts2 key f s Et|ts1 ts2 conn f s Et|conn c f q s Hc Hal Hq|conn c f q s Hc _ Hq|
    conn c s Hc Hal Hq Hh|s]; try done; clear E.
  - apply push_loss_free; [|apply (proj2 Hlf); left; by eexists].
    apply (loss_free_fewer s); [done..|]. intros x [?|[g Hg]]; [by left|right; exists g]. rewrite Et. set_solver.
  - apply (loss_free_fewer s); [done..|]. intros x [?|[g Hg]]; [by left|right; exists g]. rewrite Et. set_solver.
  - destruct Hlf as [Hd Ha]. split; [done|]. intros x Hx. unfold alive_at. cbn.
    destruct (decide (x = length (s_conns s))) as [->|Hne].
    + eexists. split; [by apply list_lookup_middle|done].
    + destruct (Ha x) as (cx & Hcx & ?); [|exists cx; split; [by apply lookup_app_l_Some|done]].
      destruct Hx as [[k Hk]|[g Hg]].
      * left. exists k. cbn in Hk. apply lookup_insert_Some in Hk as [[_ ?]|[_ ?]]; [by subst|done].
      * right. exists g. cbn in Hg. rewrite Et. set_solver.
  - apply push_loss_free; [|apply (proj2 Hlf); right; exists f; rewrite Et; set_solver].
    apply (loss_free_fewer s); [done..|]. intros x [?|[g Hg]]; [by left|right; exists g]. rewrite Et. set_solver.
  - destruct Hlf as [Hd Ha]. split; [done|]. intros x Hx. destruct (Ha x Hx) as (cx & Hcx & ?).
    unfold alive_at. cbn. destruct (decide (x = conn)) as [->|Hne].
    + eexists. split; [by apply list_lookup_insert_eq, (lookup_lt_Some _ _ _ Hc)|done].
    + exists cx. by rewrite list_lookup_insert_ne.
  - destruct Hlf as [Hd Ha]. split; [cbn; by rewrite Hq, Hd|]. intros x Hx.
    assert (held x s) as Hs.
    { destruct Hx as [[k Hk]|?]; [|by right]. left. exists k. cbn in Hk.
      by apply lookup_delete_Some in Hk as [_ ?]. }
    destruct (Ha x Hs) as (cx & Hcx & ?). exists cx. cbn. rewrite list_lookup_insert_ne; [done|congruence].
  - apply (loss_free_fewer s); [done..|]. intros x [[k Hk]|?]; [done|by right].
Qed.

(** A run, with the frames given to it and their addresses, and whether a fault showed. *)
Inductive tcp_run : bool → list (string * ClusterFrame) → State → Prop :=
  | run_start : tcp_run false [] state_new
  | run_spawn faulty fs s target f :
      tcp_run faulty fs s → tcp_run faulty ((Address_to_string target, f) :: fs) (spawn target f s)
  | run_step faulty fault fs s s' :
      tcp_run faulty fs s → tcp_step fault s s' → tcp_run (faulty || fault) fs s'.

Lemma tcp_run_frames faulty fs s : tcp_run faulty fs s → tcp_wf s ∧ frames s ≡ₚ fs.
Proof.
  induction 1 as [|faulty fs s target f _ [Hwf IH]|faulty fault fs s s' _ [Hwf IH] Hs].
  - split; [split; cbn|done]; [done|]. intros c f Hin. by apply not_elem_of_nil in Hin.
  - destruct (spawn_frames target f s Hwf) as [Hwf' Hf]. by rewrite Hf, IH.
  - destruct (step_frames fault s s' Hwf Hs) as [Hwf' Hf]. by rewrite Hf.
Qed.

Lemma tcp_run_loss_free fs s : tcp_run false fs s → loss_free s.
Proof.
  remember false as faulty eqn:E. induction 1 as [|faulty fs s target f _ IH|faulty fault fs s s' _ IH Hs].
  - split; [done|]. intros conn [[k Hk]|[f Hf]]; [done|by apply not_elem_of_nil in Hf].
  - apply (loss_free_fewer s); [by apply IH|done..|].
    intros conn [?|[g Hg]]; [by left|right; exists g]. cbn in Hg. set_solver.
  - apply orb_false_iff in E as [-> ->]. eapply step_loss_free; [by apply IH|done].
Qed.

(** What has been written and what still waits in the channels, with the addresses. *)
Definition written (s : State) : list (string * ClusterFrame) :=
  s_conns s ≫= λ c, pair (c_key c) <$> c_written c.
Definition queued (s : State) : list (string * ClusterFrame) :=
  s_conns s ≫= λ c, pair (c_key c) <$> c_queue c.
Definition under_way (s : State) : list (string * ClusterFrame) := entry (keys s) <$> s_tasks s.

Lemma frames_split s : frames s ≡ₚ written s ++ queued s ++ under_way s ++ s_dropped s.
Proof.
  assert ((s_conns s ≫= conn_frames) ≡ₚ written s ++ queued s) as Hs.
  { unfold written, queued. induction (s_conns s) as [|c cs IH]; [done|]. cbn.
    unfold conn_frames at 1. rewrite IH, fmap_app. solve_Permutation. }
  unfold frames, under_way. rewrite Hs. solve_Permutation.
Qed.

End TcpOut.

(** C19: in every interleaving of the sending tasks, the connections' writers, refused connections,
    failed writes and a shutdown, each frame given to the TCP transport is, as often as it was
    given, in exactly one place: written or in the channel of a connection to the address it was
    sent to, in a task that is sending it, or lost; so no frame is written twice or on a connection
    to another node.  Frames are lost only by a fault: an address without host or port, a refused
    connection, a failed write; a shutdown loses none. *)
Theorem tcp_transport_accounts faulty fs s :
  TcpOut.tcp_run faulty fs s →
  TcpOut.written s ++ TcpOut.queued s ++ TcpOut.under_way s ++ TcpOut.s_dropped s ≡ₚ fs ∧
  (faulty = false → TcpOut.s_dropped s = []).
Proof.
  intros Hr. destruct (TcpOut.tcp_run_frames _ _ _ Hr) as [_ Hf]. split.
  - by rewrite <- TcpOut.frames_split.
  - intros ->. apply (TcpOut.tcp_run_loss_free _ _ Hr).
Qed.

Module TcpOutDemo.
Import TcpOut.
Definition target : Address := Address_remote "tcp" "S" "b" 2%N.
Definition key : string := Address_to_string target.
Definition f1 : ClusterFrame := FRemoteTell "/user/x" "m" [] None.
Definition f2 : ClusterFrame := FRemoteTell "/user/y" "m" [] None.

(** Two frames are sent before the first has its connection: each opens one, the second
    replaces the first in the map. *)
Definition two_conns : State :=
  mkState {[key := 1]} [mkConn key [f1] [] true; mkConn key [f2] [] true] [] [].

(** Takes a step of the rule [c] from the run [H]. *)
Ltac take_step H c :=
  match type of H with
  | tcp_run _ _ ?s =>
      let H' := fresh in
      eassert (tcp_step _ s _) as H' by (eapply c; first [reflexivity | by eexists]);
      apply (run_step _ _ _ _ _ H) in H'; clear H; rename H' into H
  end.

Lemma two_conns_run : tcp_run false [(key, f2); (key, f1)] two_conns.
Proof.
  assert (tcp_run false [(key, f2); (key, f1)] (mkState ∅ [] [TLookup target f1; TLookup target f2] [])) as H
    by apply (run_spawn _ _ (mkState ∅ [] [TLookup target f1] []) target f2), (run_spawn _ _ state_new target f1), run_start.
  take_step H (step_miss [] [TLookup target f2]).
  take_step H (step_miss [TConnecting key f1] []).
  take_step H (step_connected [] [TConnecting key f2]).
  take_step H (step_connected [TSending 0 f1] []).
  take_step H (step_send [] [TSending 1 f2]).
  take_step H (step_send [] []).
  exact H.
Qed.

(** The second connection may write first, and the peer sees the frames in the other order;
    when the first writer ends, it takes the entry of the second out of the map. *)
Lemma connections_reorder :
  ∃ s, tcp_run false [(key, f2); (key, f1)] s ∧ c_written <$> s_conns s = [[]; [f2]] ∧
    (c_queue <$> s_conns s = [[f1]; []]) ∧ c_key <$> s_conns s = [key; key].
Proof.
  eexists. split; [eapply (run_step false false); [apply two_conns_run|]|].
  - apply (step_write 1 (mkConn key [f2] [] true) f2 []); done.
  - done.
Qed.

Lemma writer_removes_successor :
  ∃ s, tcp_run true [(key, f2); (key, f1)] s ∧ s_peers s = ∅ ∧
    c_alive <$> s_conns s = [false; true] ∧ (key, f1) ∈ s_dropped s.
Proof.
  eexists. split; [eapply (run_step false true); [apply two_conns_run|]|].
  - apply (step_write_error 0 (mkConn key [f1] [] true) f1 []); done.
  - cbn. split_and!; [|done|by apply list_elem_of_singleton]. vm_compute. reflexivity.
Qed.

Lemma tcp_transport_accounts_witness :
  written two_conns ++ queued two_conns ++ under_way two_conns ++ s_dropped two_conns ≡ₚ
    [(key, f2); (key, f1)] ∧ s_dropped two_conns = [].
Proof. destruct (tcp_transport_accounts _ _ _ two_conns_run) as [H1 H2]. auto. Defined.
End TcpOutDemo.

(** ** The gossip actor on the remote system *)

Module Adapter.
Import Detectors.
Section adapter.
Context {F : Type} `{FailureDetector F}.

(** [actor_state] is the cell [start] shares with the actor, [ad_state] the one the adapter
    reads; [start] makes each with [Gossip::new]. *)
Record ClusterRemoteAdapter := mkAdapter {
  ad_state : Gossip;
  actor_state : Gossip;
  cluster_path : string;
  self_address : Address;
}.

Definition adapter_start (local_address : Address) : ClusterRemoteAdapter :=
  mkAdapter Gossip_new Gossip_new "/user/cluster" local_address.

(** [ClusterActor::handle]. *)
Definition cluster_actor_handle (msg : Gossip) (a : ClusterRemoteAdapter) : ClusterRemoteAdapter :=
  mkAdapter (ad_state a) (Gossip_merge (actor_state a) msg) (cluster_path a) (self_address a).

(** [selects] is whether [RemoteSystem::actor_selection] has a handle for the path; the result is
    the message told, with its path. *)
Definition adapter_send_gossip (selects : string → bool) (peer : Address) (a : ClusterRemoteAdapter)
    : string + (string * Gossip) :=
  let target := Address_to_string peer +:+ cluster_path a in
  if selects target then inr (target, ad_state a) else inl target.

Definition update_local (f : Gossip → Gossip) (a : ClusterRemoteAdapter) : ClusterRemoteAdapter :=
  mkAdapter (f (ad_state a)) (actor_state a) (cluster_path a) (self_address a).

Definition snapshot (a : ClusterRemoteAdapter) : Gossip := ad_state a.

Definition mark_unreachable (observer peer : Address) (a : ClusterRemoteAdapter) : ClusterRemoteAdapter :=
  update_local (λ g, mkGossip (g_version g) (mkMembershipState (members (g_state g))
    (mkReachability (<[(observer, peer) := Unreachable]> (records (reachability (g_state g))))))) a.

Definition refresh_reachability (now : N) (d : Registry F) (a : ClusterRemoteAdapter) : ClusterRemoteAdapter :=
  foldl (λ a addr_str,
    match Address_parse addr_str with
    | Some addr => if is_available now addr d then a else mark_unreachable (self_address a) addr a
    | None => a
    end) a (addresses d).

(** After a refresh, an address is recorded unreachable by this node when its detector has
    tripped, and the other records stay. *)
Lemma refresh_records now d a o p :
  records (reachability (g_state (snapshot (refresh_reachability now d a)))) !! (o, p) =
  if bool_decide (o = self_address a ∧ is_available now p d = false ∧
       Exists (λ str, Address_parse str = Some p) (addresses d))
  then Some Unreachable else records (reachability (g_state (snapshot a))) !! (o, p).
Proof.
  unfold refresh_reachability, snapshot. generalize (addresses d). intros l.
  revert a. induction l as [|x l IH]; intros a; cbn [foldl].
  - rewrite bool_decide_eq_false_2; [done|]. intros (_ & _ & Hex). by apply Exists_nil in Hex.
  - destruct (Address_parse x) as [addr|] eqn:Ex; [destruct (is_available now addr d) eqn:Ea|]; rewrite IH; cbn.
    + case_bool_decide as H1; case_bool_decide as H2; try done; exfalso.
      * apply H2. destruct H1 as (? & ? & ?). by rewrite Exists_cons; auto.
      * apply H1. destruct H2 as (? & ? & [Hx|]%Exists_cons); [|done]. congruence.
    + rewrite lookup_insert. case_bool_decide as H1; case_bool_decide as H2; try done.
      * destruct H2. destruct H1 as (? & ? & ?). by rewrite Exists_cons; auto.
      * destruct (decide ((self_address a, addr) = (o, p))) as [Hd|Hd]; [reflexivity|].
        destruct H1. destruct H2 as (-> & ? & [Hx|]%Exists_cons); [|done].
        destruct Hd. congruence.
      * destruct (decide ((self_address a, addr) = (o, p))) as [Hd|Hd]; [|reflexivity].
        destruct H2. injection Hd as <- <-. by rewrite Exists_cons; auto.
    + case_bool_decide as H1; case_bool_decide as H2; try done; exfalso.
      * apply H2. destruct H1 as (? & ? & ?). by rewrite Exists_cons; auto.
      * apply H1. destruct H2 as (? & ? & [Hx|]%Exists_cons); [|done]. congruence.
Qed.

(** What the actor merges is never read by the adapter: whatever arrives between two of its own
    operations, [snapshot] and [send_gossip] give the state the node itself wrote. *)
Inductive Op :=
  | OpArrives (g : Gossip)
  | OpUpdate (f : Gossip → Gossip)
  | OpRefresh (now : N) (d : Registry F).
Definition op_run (o : Op) (a : ClusterRemoteAdapter) : ClusterRemoteAdapter :=
  match o with
  | OpArrives g => cluster_actor_handle g a
  | OpUpdate f => update_local f a
  | OpRefresh now d => refresh_reachability now d a
  end.
Definition is_own (o : Op) : bool := match o with OpArrives _ => false | _ => true end.

Lemma refresh_own now d a a' :
  ad_state a = ad_state a' → self_address a = self_address a' →
  ad_state (refresh_reachability now d a) = ad_state (refresh_reachability now d a') ∧
  self_address (refresh_reachability now d a) = self_address (refresh_reachability now d a').
Proof.
  unfold refresh_reachability. generalize (addresses d). intros l. revert a a'.
  induction l as [|x l IH]; intros a a' Hs Ha; cbn [foldl]; [done|].
  apply IH; destruct (Address_parse x); [destruct (is_available now _ d)| |destruct (is_available now _ d)|]; cbn; try done.
  by rewrite Hs, Ha.
Qed.

Lemma arrivals_not_seen (ops : list Op) a selects peer :
  let own := foldl (λ a o, op_run o a) a (filter (λ o, is_own o = true) ops) in
  let all := foldl (λ a o, op_run o a) a ops in
  snapshot all = snapshot own ∧
  (cluster_path all = cluster_path own → adapter_send_gossip selects peer all = adapter_send_gossip selects peer own).
Proof.
  cbn. assert (∀ ops a a', ad_state a = ad_state a' → self_address a = self_address a' →
    ad_state (foldl (λ a o, op_run o a) a ops) =
    ad_state (foldl (λ a o, op_run o a) a' (filter (λ o, is_own o = true) ops))) as Hrun.
  { clear. intros ops. induction ops as [|o ops IH]; intros a a' Hs Ha; [done|]. cbn [foldl].
    rewrite filter_cons. destruct o as [g|f|now d]; case_decide as Hd; try done; cbn [foldl]; apply IH; cbn; try done;
      try by rewrite Hs. all: by apply refresh_own. }
  unfold snapshot, adapter_send_gossip. rewrite (Hrun ops a a) by done. split; [done|]. by intros ->.
Qed.
End adapter.
End Adapter.
