(* ===== verification/Conformance.v ===== *)
(** * The conformance kit of the back ends
    ([crates/atomr-persistence-tck/src/journal_suite.rs], [snapshot_suite.rs])

    Every provider runs these suites against its store.  A suite is a computation over the
    store that may panic, on an [unwrap] of an error or a failed assertion.  The suites are
    proved to pass on every journal with the specification [JournalSpec] and a few laws of the
    calls it leaves open, and on every snapshot store that keeps what is saved; so a store that
    fails one does not meet the specification its clients were verified against. *)

From stdpp Require Import gmap strings list.
From Stdlib Require Import NArith Lia Sorted.
From S2P Require Import Prelude Encoding Journal SqlJournal SqlFacts SqlChain SqlSetup StoreJournals KeyValueJournals.

(** ** Computations that may panic *)

Definition Suite (J A : Type) : Type := J → option (J * A).
Definition suite_ret {J A} (a : A) : Suite J A := λ j, Some (j, a).
Definition suite_bind {J A B} (m : Suite J A) (k : A → Suite J B) : Suite J B :=
  λ j, match m j with Some (j', a) => k a j' | None => None end.

(** [assert!]. *)
Definition ensure {J} (b : bool) : Suite J unit := λ j, if b then Some (j, tt) else None.
(** A call that changes the store, and one that reads it, with [unwrap]. *)
Definition call {J E A} (f : J → J * (E + A)) : Suite J A :=
  λ j, match f j with (j', inr a) => Some (j', a) | (_, inl _) => None end.
Definition ask {J E A} (f : J → E + A) : Suite J A :=
  λ j, match f j with inr a => Some (j, a) | inl _ => None end.
(** A call whose result is kept. *)
Definition attempt {J E A} (f : J → J * (E + A)) : Suite J (E + A) := λ j, Some (f j).
(** A call without a result. *)
Definition act {J} (f : J → J) : Suite J unit := λ j, Some (f j, tt).

Declare Scope suite_scope.
Delimit Scope suite_scope with suite.
Notation "'let!' x := m 'in' k" := (suite_bind m (λ x, k))
  (at level 10, x name, m at level 200, k at level 200) : suite_scope.
Notation "m ;~ k" := (suite_bind m (λ _, k)) (at level 100, right associativity) : suite_scope.
Open Scope suite_scope.

Definition passes {J A} (m : Suite J A) (j : J) : Prop := is_Some (m j).

(** ** Journals *)

Definition tck_repr (pid : string) (nr : N) (tag : option string) : PersistentRepr :=
  mkPersistentRepr pid nr [byte_of nr] "m" "tck" false (match tag with Some t => [t] | None => [] end).

(** [(1..=n).map(|i| repr(pid, i, None))]. *)
Definition tck_batch (pid : string) (n : nat) : list PersistentRepr :=
  (λ i, tck_repr pid (N.of_nat i) None) <$> seq 1 n.

Section journal_suites.
Context {J : Type} `{Journal J}.

Definition replay (pid : string) (from to max : N) : Suite J (list PersistentRepr) :=
  ask (replay_messages pid from to max).
Definition highest (pid : string) : Suite J N := ask (highest_sequence_nr pid 0).
Definition len_is {A} (n : nat) (l : list A) : Suite J unit := ensure (length l =? n).

Definition journal_round_trip (pid : string) : Suite J bool :=
  call (write_messages (tck_batch pid 5)) ;~
  let! l := replay pid 1 5 100 in
  let! h := highest pid in
  suite_ret ((length l =? 5) && (h =? 5)%N).

Definition is_out_of_order (r : JournalError + unit) : bool :=
  match r with inl (SequenceOutOfOrder _ _) => true | _ => false end.

Definition journal_suite (pid_prefix : string) : Suite J unit :=
  let a := pid_prefix +:+ "-a" in
  let b := pid_prefix +:+ "-b" in
  call (write_messages (tck_batch a 3)) ;~
  call (write_messages (tck_batch b 2)) ;~
  let! replay_a := replay a 1 u64_max 10 in
  len_is 3 replay_a ;~
  let! replay_b := replay b 1 u64_max 10 in
  len_is 2 replay_b ;~
  let! ha := highest a in ensure (ha =? 3)%N ;~
  let! hb := highest b in ensure (hb =? 2)%N ;~
  let! gap_err := attempt (write_messages [tck_repr a 99 None]) in
  ensure (is_out_of_order gap_err) ;~
  call (delete_messages_to a 2) ;~
  let! after_delete := replay a 1 u64_max 10 in
  ensure (forallb (λ r, (2 <? sequence_nr r)%N) after_delete) ;~
  let! h := highest a in ensure (3 <=? h)%N ;~
  let! l := replay b 1 u64_max 10 in len_is 2 l ;~
  let! max_replay := replay b 1 u64_max 1 in
  len_is 1 max_replay.

Definition journal_extended_suite (pid_prefix : string) : Suite J unit :=
  let pid := pid_prefix +:+ "-ext" in
  call (write_messages (tck_batch pid 10)) ;~
  let! mid := replay pid 4 7 100 in
  len_is 4 mid ;~
  ensure (bool_decide (sequence_nr <$> head mid = Some 4%N)) ;~
  ensure (bool_decide (sequence_nr <$> last mid = Some 7%N)) ;~
  let! none := replay pid 1 100 0 in len_is 0 none ;~
  let! r1 := replay pid 1 u64_max 100 in
  let! r2 := replay pid 1 u64_max 100 in
  len_is (length r1) r2 ;~
  ensure (forallb (λ '(a, b), (sequence_nr a =? sequence_nr b)%N && bool_decide (payload a = payload b)) (zip r1 r2)) ;~
  call (delete_messages_to pid 5) ;~
  let! after := replay pid 3 u64_max 100 in
  ensure (forallb (λ r, (5 <? sequence_nr r)%N) after) ;~
  let! high := highest pid in ensure (10 <=? high)%N.

(** Two tasks that each write one record at a time: [sched] says whose write comes next. *)
Fixpoint interleave (sched : list bool) (xs ys : list PersistentRepr) : Suite J unit :=
  match sched with
  | [] => suite_ret tt
  | true :: sched => match xs with
      | x :: xs => call (write_messages [x]) ;~ interleave sched xs ys
      | [] => interleave sched xs ys end
  | false :: sched => match ys with
      | y :: ys => call (write_messages [y]) ;~ interleave sched xs ys
      | [] => interleave sched xs ys end
  end.

Definition in_sequence (pid : string) (l : list PersistentRepr) : bool :=
  forallb (λ '(i, e), (sequence_nr e =? N.of_nat i)%N && bool_decide (persistence_id e = pid))
    (zip (seq 1 (length l)) l).

Definition journal_concurrent_suite (sched : list bool) (pid_prefix : string) : Suite J unit :=
  let a := pid_prefix +:+ "-cA" in
  let b := pid_prefix +:+ "-cB" in
  interleave sched (tck_batch a 20) (tck_batch b 15) ;~
  let! ra := replay a 1 u64_max 100 in
  let! rb := replay b 1 u64_max 100 in
  len_is 20 ra ;~ len_is 15 rb ;~
  ensure (in_sequence a ra) ;~ ensure (in_sequence b rb).

Definition journal_replay_edge_cases (pid_prefix : string) : Suite J unit :=
  let empty := pid_prefix +:+ "-never-written" in
  let! r := replay empty 1 u64_max 10 in len_is 0 r ;~
  let! h := highest empty in ensure (h =? 0)%N ;~
  let pid := pid_prefix +:+ "-edge" in
  call (write_messages (tck_batch pid 4)) ;~
  let! past := replay pid 100 u64_max 10 in len_is 0 past ;~
  call (delete_messages_to pid 0) ;~
  let! l := replay pid 1 u64_max 10 in len_is 4 l ;~
  let! inverted := replay pid 5 3 10 in len_is 0 inverted.

Definition journal_tag_suite (pid_prefix : string) : Suite J unit :=
  let pid := pid_prefix +:+ "-tag" in
  call (write_messages [tck_repr pid 1 (Some "red"); tck_repr pid 2 (Some "blue"); tck_repr pid 3 (Some "red")]) ;~
  let! red := ask (events_by_tag "red" 0 100) in len_is 2 red ;~
  let! blue := ask (events_by_tag "blue" 0 100) in len_is 1 blue.
End journal_suites.


(** ** A specification is enough *)

(** [m] does not panic from [j], and ends with [Q]. *)
Definition wp {J A} (m : Suite J A) (j : J) (Q : A → J → Prop) : Prop :=
  match m j with Some (j', a) => Q a j' | None => False end.

Lemma wp_bind {J A B} (m : Suite J A) (k : A → Suite J B) j Q :
  wp m j (λ a j', wp (k a) j' Q) → wp (suite_bind m k) j Q.
Proof. unfold wp, suite_bind. by destruct (m j) as [[j' a]|]. Qed.

Lemma wp_ensure {J} b (j : J) Q : b = true → Q tt j → wp (ensure b) j Q.
Proof. unfold wp, ensure. by intros ->. Qed.

Lemma wp_ask {J E A} (f : J → E + A) j a Q : f j = inr a → Q a j → wp (ask f) j Q.
Proof. unfold wp, ask. by intros ->. Qed.

Lemma wp_passes {J A} (m : Suite J A) j Q : wp m j Q → passes m j.
Proof. unfold wp, passes. destruct (m j) as [[j' a]|]; [by eauto|done]. Qed.

Definition tagged (tag : string) (from : N) (r : PersistentRepr) : Prop :=
  deleted r = false ∧ (from ≤ sequence_nr r)%N ∧ tag ∈ tags r.
#[export] Instance tagged_dec tag from r : Decision (tagged tag from r) := _.

(** What [JournalSpec] leaves open: a deletion succeeds, and a tag query with room for them
    finds the live records that carry the tag, in some order. *)
Class JournalCalls (J : Type) `{JournalSpec J} : Prop := {
  delete_ok (j : J) pid to : (delete_messages_to pid to j).2 = inr tt;
  tags_found (j : J) tag from max pids :
    NoDup pids → (∀ q, q ∉ pids → journal_view j q = []) →
    let found := filter (tagged tag from) (pids ≫= journal_view j) in
    (N.of_nat (length found) ≤ max)%N → ∃ out, events_by_tag tag from max j = inr out ∧ out ≡ₚ found;
}.

Section conforms.
Context {J : Type} `{HJ : JournalCalls J}.
Implicit Types j : J.
Abbreviation view := (journal_view (J := J)).

Lemma wp_write j pid ms Q :
  numbered pid (expected_nr (view j pid)) ms →
  (∀ j', view j' pid = view j pid ++ ms → (∀ q, q ≠ pid → view j' q = view j q) → Q tt j') →
  wp (call (write_messages ms)) j Q.
Proof.
  intros Hn HQ. destruct (journal_write_ok j pid ms Hn) as (j' & Hw & Hv). unfold wp, call. rewrite Hw.
  apply HQ; [done|]. intros q Hq. replace j' with (write_messages ms j).1 by by rewrite Hw.
  apply journal_write_other. assert (Forall (λ m, persistence_id m = pid) ms) as Hall.
  { clear -Hn. revert Hn. generalize (expected_nr (view j pid)). induction ms as [|m ms IH]; intros n; [constructor|].
    intros (? & _ & ?). constructor; [done|]. by eapply IH. }
  apply (Forall_impl _ _ _ Hall). by intros m ->.
Qed.

Lemma wp_write_refused j pid m Q :
  persistence_id m = pid → sequence_nr m ≠ expected_nr (view j pid) →
  (∀ j' r, is_out_of_order r = true → (∀ q, view j' q = view j q) → Q r j') →
  wp (attempt (write_messages [m])) j Q.
Proof.
  intros <- Hm HQ. destruct (journal_write_rejected j m [] Hm) as (j' & Hw & Hv). unfold wp, attempt. rewrite Hw.
  by apply HQ.
Qed.

Lemma wp_delete j pid to Q :
  (∀ j', (∀ q, view j' q = if decide (q = pid) then mark_deleted to <$> view j q else view j q) → Q tt j') →
  wp (call (delete_messages_to pid to)) j Q.
Proof.
  intros HQ. unfold wp, call. pose proof (delete_ok j pid to) as Hok.
  pose proof (journal_delete j pid to) as Hv. destruct (delete_messages_to pid to j) as [j' r]. cbn in *. subst r. auto.
Qed.

Lemma wp_replay j pid from to max Q :
  Q (take_N max (filter (replayable from to) (view j pid))) j → wp (replay pid from to max) j Q.
Proof. apply wp_ask. by rewrite journal_replay. Qed.

Lemma wp_highest j pid Q : Q (last_nr (view j pid)) j → wp (highest pid) j Q.
Proof. apply wp_ask. by rewrite journal_highest. Qed.

Lemma suffix_ne (p s t : string) : s ≠ t → p +:+ s ≠ p +:+ t.
Proof. by intros Hs [=]%(inj (String.append p)). Qed.

(** Takes the next call of a suite; the views of the streams are rewritten where they are read. *)
Ltac views := repeat match goal with H : context [view ?j ?q] |- _ => rewrite H by done end.
Ltac suite_step :=
  first [apply wp_bind | apply wp_replay; views | apply wp_highest; views
        | apply wp_ensure; [vm_compute; reflexivity|] | unfold len_is at 1].

Lemma journal_suite_passes j prefix :
  view j (prefix +:+ "-a") = [] → view j (prefix +:+ "-b") = [] → passes (journal_suite prefix) j.
Proof.
  unfold journal_suite. assert (prefix +:+ "-a" ≠ prefix +:+ "-b") as Hne by by apply suffix_ne.
  revert Hne. generalize (prefix +:+ "-a") (prefix +:+ "-b"). intros a b Hne Ha Hb. cbv zeta.
  apply (wp_passes _ _ (λ _ _, True)).
  apply wp_bind, (wp_write _ a); [rewrite Ha; by vm_compute|]. intros j1 Ha1 Ho1. rewrite Ha in Ha1.
  pose proof (Ho1 b (not_eq_sym Hne)) as Hb1. rewrite Hb in Hb1.
  apply wp_bind, (wp_write _ b); [rewrite Hb1; by vm_compute|]. intros j2 Hb2 Ho2. rewrite Hb1 in Hb2.
  pose proof (Ho2 a Hne) as Ha2. rewrite Ha1 in Ha2. clear Ho1 Ho2.
  repeat suite_step.
  apply (wp_write_refused _ a); [done|rewrite Ha2; by vm_compute|]. intros j3 r Hr Hv3.
  suite_step. apply wp_ensure; [done|]. suite_step. apply wp_delete. intros j4 Hv4.
  assert (view j4 a = mark_deleted 2 <$> tck_batch a 3) as Ha4 by by rewrite Hv4, decide_True, Hv3, Ha2.
  assert (view j4 b = tck_batch b 2) as Hb4 by by rewrite Hv4, decide_False, Hv3, Hb2.
  clear Hv3 Hv4 Ha2 Hb2. by repeat suite_step.
Qed.

Lemma journal_extended_suite_passes j prefix :
  view j (prefix +:+ "-ext") = [] → passes (journal_extended_suite prefix) j.
Proof.
  unfold journal_extended_suite. generalize (prefix +:+ "-ext"). intros a Ha. cbv zeta.
  apply (wp_passes _ _ (λ _ _, True)).
  apply wp_bind, (wp_write _ a); [rewrite Ha; by vm_compute|]. intros j1 Ha1 _. rewrite Ha in Ha1.
  repeat suite_step. apply wp_delete. intros j2 Hv2.
  assert (view j2 a = mark_deleted 5 <$> tck_batch a 10) as Ha2 by by rewrite Hv2, decide_True, Ha1.
  clear Hv2 Ha1. by repeat suite_step.
Qed.

Lemma journal_replay_edge_cases_pass j prefix :
  view j (prefix +:+ "-never-written") = [] → view j (prefix +:+ "-edge") = [] →
  passes (journal_replay_edge_cases prefix) j.
Proof.
  unfold journal_replay_edge_cases. generalize (prefix +:+ "-edge") (prefix +:+ "-never-written").
  intros a e He Ha. cbv zeta. apply (wp_passes _ _ (λ _ _, True)).
  repeat suite_step. apply (wp_write _ a); [rewrite Ha; by vm_compute|]. intros j1 Ha1 _. rewrite Ha in Ha1.
  clear He. repeat suite_step. apply wp_delete. intros j2 Hv2.
  assert (view j2 a = mark_deleted 0 <$> tck_batch a 4) as Ha2 by by rewrite Hv2, decide_True, Ha1.
  clear Hv2 Ha1. by repeat suite_step.
Qed.

(** The suite looks for its tags in the whole store, which must be empty. *)
Lemma journal_tag_suite_passes j prefix :
  (∀ q, view j q = []) → passes (journal_tag_suite prefix) j.
Proof.
  unfold journal_tag_suite. generalize (prefix +:+ "-tag"). intros a Ha. cbv zeta.
  apply (wp_passes _ _ (λ _ _, True)).
  apply wp_bind, (wp_write _ a); [rewrite Ha; vm_compute; repeat split|]. intros j1 Ha1 Ho1. rewrite Ha in Ha1.
  assert (∀ tag n, length (filter (tagged tag 0) (view j1 a)) = n →
    (n ≤ 100)%nat → ∃ out, events_by_tag tag 0 100 j1 = inr out ∧ length out = n) as Htag.
  { intros tag n Hn Hle. destruct (tags_found j1 tag 0 100 [a]) as (out & Ho & Hp).
    - apply NoDup_singleton.
    - intros q Hq. rewrite list_elem_of_singleton in Hq. by rewrite Ho1, Ha.
    - cbn. rewrite app_nil_r, Hn. lia.
    - exists out. cbn in Hp. rewrite app_nil_r in Hp. split; [done|by rewrite Hp]. }
  rewrite Ha1 in Htag.
  destruct (Htag "red" 2) as (red & Hred & Lred); [by vm_compute|lia|].
  destruct (Htag "blue" 1) as (blue & Hblue & Lblue); [by vm_compute|lia|].
  apply wp_bind, (wp_ask _ _ _ _ Hred), wp_bind, wp_ensure; [by rewrite Lred|].
  apply wp_bind, (wp_ask _ _ _ _ Hblue), wp_ensure; [by rewrite Lblue|done].
Qed.

Lemma tck_batch_snoc pid n : tck_batch pid (S n) = tck_batch pid n ++ [tck_repr pid (N.of_nat (S n)) None].
Proof. unfold tck_batch. by rewrite seq_S, fmap_app. Qed.

Lemma tck_batch_expected pid n : (N.of_nat n < u64_max)%N → expected_nr (tck_batch pid n) = N.of_nat (S n).
Proof.
  destruct n as [|n]; [done|]. intros Hn. rewrite tck_batch_snoc, expected_nr_snoc. cbn [tck_repr sequence_nr].
  rewrite u64_add_small; unfold u64_max, u64_modulus in *; lia.
Qed.

(** What is left of a batch after its first [n] records. *)
Definition tck_rest (pid : string) (n k : nat) : list PersistentRepr :=
  (λ i, tck_repr pid (N.of_nat i) None) <$> seq (S n) k.

(** Whatever the order of the two tasks, each stream grows by its own records only. *)
Lemma wp_interleave j a b sched n k n' k' Q :
  a ≠ b → (N.of_nat (n + k) < u64_max)%N → (N.of_nat (n' + k') < u64_max)%N →
  view j a = tck_batch a n → view j b = tck_batch b n' →
  length (filter (λ c, c = true) sched) = k → length (filter (λ c, c = false) sched) = k' →
  (∀ j', view j' a = tck_batch a (n + k) → view j' b = tck_batch b (n' + k') → Q tt j') →
  wp (interleave sched (tck_rest a n k) (tck_rest b n' k')) j Q.
Proof.
  intros Hne. revert j n k n' k'. induction sched as [|c sched IH]; intros j n k n' k' Hk Hk' Ha Hb.
  { cbn. intros <- <- HQ. apply HQ; [by rewrite Nat.add_0_r|by rewrite Nat.add_0_r]. }
  destruct c; cbn; intros Ek Ek' HQ.
  - destruct k as [|k]; [done|]. injection Ek as Ek. cbn.
    apply wp_bind, (wp_write _ a).
    { rewrite Ha, tck_batch_expected by lia. done. }
    intros j1 Ha1 Ho1. rewrite Ha in Ha1. rewrite <- (tck_batch_snoc a n) in Ha1.
    apply (IH j1 (S n) k n' k'); try done; [lia|by rewrite Ho1|].
    intros j2. replace (S n + k) with (n + S k) by lia. apply HQ.
  - destruct k' as [|k']; [done|]. injection Ek' as Ek'. cbn.
    apply wp_bind, (wp_write _ b).
    { rewrite Hb, tck_batch_expected by lia. done. }
    intros j1 Hb1 Ho1. rewrite Hb in Hb1. rewrite <- (tck_batch_snoc b n') in Hb1.
    apply (IH j1 n k (S n') k'); try done; [lia|by rewrite Ho1|].
    intros j2. replace (S n' + k') with (n' + S k') by lia. apply HQ.
Qed.

Lemma in_sequence_batch pid n : in_sequence pid (tck_batch pid n) = true.
Proof.
  unfold in_sequence, tck_batch. rewrite length_fmap, length_seq. generalize 1.
  induction n as [|n IH]; intros s; cbn [seq fmap list_fmap zip zip_with forallb]; [done|].
  rewrite IH. cbn. by rewrite N.eqb_refl, bool_decide_eq_true_2.
Qed.

Lemma journal_concurrent_suite_passes j prefix sched :
  view j (prefix +:+ "-cA") = [] → view j (prefix +:+ "-cB") = [] →
  length (filter (λ c, c = true) sched) = 20 → length (filter (λ c, c = false) sched) = 15 →
  passes (journal_concurrent_suite sched prefix) j.
Proof.
  unfold journal_concurrent_suite. assert (prefix +:+ "-cA" ≠ prefix +:+ "-cB") as Hne by by apply suffix_ne.
  revert Hne. generalize (prefix +:+ "-cA") (prefix +:+ "-cB"). intros a b Hne Ha Hb Hs Hs'. cbv zeta.
  apply (wp_passes _ _ (λ _ _, True)), wp_bind.
  apply (wp_interleave j a b sched 0 20 0 15); try done. intros j' Ha' Hb'. cbn [Nat.add] in *. clear Ha Hb.
  repeat suite_step. apply wp_ensure; [exact (in_sequence_batch a 20)|].
  apply wp_ensure; [exact (in_sequence_batch b 15)|done].
Qed.
End conforms.

(** ** The in-memory journal has the laws *)

Lemma tag_scan_spec tag from max s out :
  ∃ k rest, filter (tagged tag from) s = k ++ rest ∧ (tag_scan tag from max out s).1 = out ++ k ∧
    if (tag_scan tag from max out s).2 then (max ≤ N.of_nat (length (out ++ k)))%N else rest = [].
Proof.
  revert out. induction s as [|r s IH]; intros out; cbn [tag_scan].
  { exists [], []. cbn. by rewrite app_nil_r. }
  rewrite filter_cons. destruct (deleted r) eqn:Ed.
  { rewrite decide_False; [apply IH|]. by intros [? _]; congruence. }
  destruct (sequence_nr r <? from)%N eqn:El.
  { rewrite decide_False; [apply IH|]. intros (_ & ? & _). apply N.ltb_lt in El. lia. }
  case_bool_decide as Ht; [|rewrite decide_False; [apply IH|]; by intros (_ & _ & ?)].
  rewrite decide_True by (apply N.ltb_ge in El; done). destruct (max <=? N.of_nat (length (out ++ [r])))%N eqn:Em.
  - exists [r], (filter (tagged tag from) s). split_and!; [done..|]. by apply N.leb_le.
  - destruct (IH (out ++ [r])) as (k & rest & -> & -> & Hm). exists (r :: k), rest. rewrite <- (assoc_L app) in Hm.
    split_and!; [done|by rewrite <- (assoc_L app)|done].
Qed.

Lemma tag_scan_streams_spec tag from max ss out :
  ∃ k rest, filter (tagged tag from) (ss ≫= id) = k ++ rest ∧ tag_scan_streams tag from max out ss = out ++ k ∧
    (rest = [] ∨ (max ≤ N.of_nat (length (out ++ k)))%N).
Proof.
  revert out. induction ss as [|s ss IH]; intros out; cbn [tag_scan_streams].
  { exists [], []. cbn. rewrite app_nil_r. split_and!; auto. }
  destruct (tag_scan_spec tag from max s out) as (k & rest & Hk & Ho & Hf).
  destruct (tag_scan tag from max out s) as [out' []]; cbn in *; subst out'; rewrite filter_app, Hk.
  - exists k, (rest ++ filter (tagged tag from) (ss ≫= id)). rewrite <- (assoc_L app). auto.
  - subst rest. destruct (IH (out ++ k)) as (k' & rest & -> & -> & Hr). exists (k ++ k'), rest.
    rewrite app_nil_r, !(assoc_L app). auto.
Qed.

Lemma bind_nonempty {A B} (f : A → list B) (l : list A) : l ≫= f = filter (λ x, f x ≠ []) l ≫= f.
Proof.
  induction l as [|x l IH]; [done|]. rewrite filter_cons, bind_cons. case_decide as Hx; [by rewrite bind_cons, IH|]. rewrite <- IH.
  by rewrite Hx.
Qed.

Lemma bind_cover {A B} `{EqDecision A} (f : A → list B) (l k : list A) :
  NoDup l → NoDup k → (∀ x, x ∉ l → f x = []) → (∀ x, x ∉ k → f x = []) → l ≫= f ≡ₚ k ≫= f.
Proof.
  intros Hl Hk Hfl Hfk. rewrite (bind_nonempty f l), (bind_nonempty f k).
  assert (filter (λ x, f x ≠ []) l ≡ₚ filter (λ x, f x ≠ []) k) as ->; [|done].
  apply NoDup_Permutation; [by apply NoDup_filter..|]. intros x. rewrite !list_elem_of_filter.
  split; intros [Hx _]; (split; [done|]); destruct (decide (x ∈ k)), (decide (x ∈ l)); try done; destruct Hx; auto.
Qed.

#[export] Instance InMemoryJournal_Calls : JournalCalls InMemoryJournal.
Proof.
  constructor; [done|]. intros j tag from max pids Hnd Hout. cbn zeta. intros Hmax.
  cbn. unfold InMemoryJournal_events_by_tag. eexists. split; [done|].
  destruct (tag_scan_streams_spec tag from max (map_to_list (streams j)).*2 []) as (k & rest & Hk & -> & Hr).
  assert ((map_to_list (streams j)).*2 ≫= id = (map_to_list (streams j)).*1 ≫= mem_view j) as Hs.
  { unfold mem_view. generalize (map_to_list (streams j)) (λ k v, proj1 (elem_of_map_to_list (streams j) k v)).
    intros l Hl. induction l as [|[q v] l IH]; [done|]. cbn. rewrite IH; [|intros; apply Hl; by right].
    by rewrite (Hl q v) by by left. }
  assert (filter (tagged tag from) ((map_to_list (streams j)).*2 ≫= id) ≡ₚ filter (tagged tag from) (pids ≫= mem_view j)) as Hp.
  { rewrite Hs. apply filter_Permutation, bind_cover; [apply NoDup_fst_map_to_list|done| |done].
    intros q Hq. unfold mem_view. destruct (streams j !! q) as [v|] eqn:E; [|done]. destruct Hq.
    apply list_elem_of_fmap. exists (q, v). split; [done|]. by apply elem_of_map_to_list. }
  change (journal_view j) with (mem_view j) in *. rewrite <- Hp in Hmax |- *. rewrite Hk in Hmax |- *.
  assert (rest = []) as ->; [|by rewrite app_nil_r]. destruct Hr as [|Hr]; [done|].
  rewrite length_app in Hmax. cbn in Hr. destruct rest; [done|]. cbn in Hmax. lia.
Qed.

(** ** Snapshot stores *)

Definition tck_meta (pid : string) (nr : N) : SnapshotMetadata := mkSnapshotMetadata pid nr (nr * 100).

Section snapshot_suites.
Context {S : Type} `{SnapshotStore S}.

Definition save (pid : string) (nr : N) (data : string) : Suite S unit :=
  act (snapshot_save (tck_meta pid nr) (String.list_byte_of_string data)).
Definition load (pid : string) : Suite S (option (SnapshotMetadata * Bytes)) := λ s, Some (s, snapshot_load pid s).
Definition delete_to (pid : string) (to : N) : Suite S unit := act (snapshot_delete pid to).

(** [load().expect(..)] with an assertion on what is loaded. *)
Definition loaded (pid : string) (p : N → Bytes → bool) : Suite S unit :=
  let! r := load pid in
  match r with Some (m, d) => ensure (p (snap_sequence_nr m) d) | None => λ _, None end.
Definition is_payload (d : string) (b : Bytes) : bool := bool_decide (b = String.list_byte_of_string d).
Definition absent (pid : string) : Suite S unit :=
  let! r := load pid in ensure (match r with Some _ => false | None => true end).

Definition snapshot_round_trip (pid : string) : Suite S bool :=
  save pid 42 "state" ;~
  let! r := load pid in
  suite_ret (match r with Some (m, d) => (snap_sequence_nr m =? 42)%N && is_payload "state" d | None => false end).

Definition snapshot_suite (pid_prefix : string) : Suite S unit :=
  let a := pid_prefix +:+ "-a" in
  let b := pid_prefix +:+ "-b" in
  save a 1 "v1" ;~ save a 2 "v2" ;~ save a 3 "v3" ;~ save b 7 "bv7" ;~
  loaded a (λ nr d, (nr =? 3)%N && is_payload "v3" d) ;~
  loaded b (λ nr _, (nr =? 7)%N) ;~
  delete_to a 2 ;~
  loaded a (λ nr _, (2 <? nr)%N) ;~
  delete_to b 100 ;~
  absent b.

(** The two tasks of the last part of the extended suite. *)
Fixpoint interleave_saves (sched : list bool) (pid : string) (xs ys : list nat) : Suite S unit :=
  let put c i := act (snapshot_save (tck_meta pid (N.of_nat i)) [c; byte_of (N.of_nat i)]) in
  match sched with
  | [] => suite_ret tt
  | true :: sched => match xs with
      | x :: xs => put (byte_of 49) x ;~ interleave_saves sched pid xs ys
      | [] => interleave_saves sched pid xs ys end
  | false :: sched => match ys with
      | y :: ys => put (byte_of 50) y ;~ interleave_saves sched pid xs ys
      | [] => interleave_saves sched pid xs ys end
  end.

Definition snapshot_extended_suite (sched : list bool) (pid_prefix : string) : Suite S unit :=
  let a := pid_prefix +:+ "-xA" in
  let b := pid_prefix +:+ "-xB" in
  save a 1 "a-v1" ;~ save a 2 "a-v2" ;~ save a 3 "a-v3" ;~
  loaded a (λ nr d, (nr =? 3)%N && is_payload "a-v3" d) ;~
  save b 50 "b-v50" ;~
  loaded a (λ nr _, (nr =? 3)%N) ;~
  loaded b (λ nr d, (nr =? 50)%N && is_payload "b-v50" d) ;~
  delete_to a 2 ;~
  loaded a (λ nr _, (2 <? nr)%N && (nr =? 3)%N) ;~
  loaded b (λ nr _, (nr =? 50)%N) ;~
  let unknown := pid_prefix +:+ "-xUnknown" in
  delete_to unknown u64_max ;~
  absent unknown ;~
  loaded a (λ nr _, (nr =? 3)%N) ;~
  loaded b (λ nr _, (nr =? 50)%N) ;~
  let conc := pid_prefix +:+ "-xConc" in
  interleave_saves sched conc (seq 1 10) (seq 11 10) ;~
  loaded conc (λ nr _, (1 <=? nr)%N && (nr <=? 20)%N).
End snapshot_suites.

Definition column_nr (n : N) : Prop := (n < 2 ^ 63)%N.

(** What the suites rely on, for numbers within the range of a signed column: a snapshot above
    the others is kept behind them and is the one loaded; what is loaded was saved; a deletion
    removes the numbers up to its bound, and no other id is touched. *)
Class SnapshotKeeps (S : Type) `{SnapshotStore S} := {
  saved : S → string → list (SnapshotMetadata * Bytes);
  save_above (s : S) m d :
    column_nr (snap_sequence_nr m) → column_nr (timestamp m) →
    Forall (λ e, (snap_sequence_nr e.1 < snap_sequence_nr m)%N) (saved s (snap_persistence_id m)) →
    saved (snapshot_save m d s) (snap_persistence_id m) = saved s (snap_persistence_id m) ++ [(m, d)];
  save_some (s : S) m d :
    column_nr (snap_sequence_nr m) → column_nr (timestamp m) →
    saved (snapshot_save m d s) (snap_persistence_id m) ≠ [] ∧
    ∀ e, e ∈ saved (snapshot_save m d s) (snap_persistence_id m) → e = (m, d) ∨ e ∈ saved s (snap_persistence_id m);
  save_other (s : S) m d q : q ≠ snap_persistence_id m → saved (snapshot_save m d s) q = saved s q;
  delete_upto (s : S) pid to :
    column_nr to → saved (snapshot_delete pid to s) pid = filter (λ e, (to < snap_sequence_nr e.1)%N) (saved s pid);
  delete_none (s : S) pid to : saved s pid = [] → saved (snapshot_delete pid to s) pid = [];
  delete_other (s : S) pid to q : q ≠ pid → saved (snapshot_delete pid to s) q = saved s q;
  load_saved (s : S) pid :
    match snapshot_load pid s with Some e => e ∈ saved s pid | None => saved s pid = [] end;
  load_highest (s : S) pid :
    StronglySorted (λ a b, (snap_sequence_nr a.1 < snap_sequence_nr b.1)%N) (saved s pid) →
    snapshot_load pid s = last (saved s pid);
}.

Section snapshots_conform.
Context {S : Type} `{HS : SnapshotKeeps S}.
Implicit Types s : S.

(** The snapshots of an id after a series of saves. *)
Definition kept (pid : string) (l : list (N * string)) : list (SnapshotMetadata * Bytes) :=
  (λ e, (tck_meta pid e.1, String.list_byte_of_string e.2)) <$> l.
Definition kept_in (s : S) (pid : string) (l : list (N * string)) : Prop := saved s pid = kept pid l.
Definition ascending (l : list (N * string)) : Prop := StronglySorted (λ a b, (a.1 < b.1)%N) l.

Lemma kept_ascending pid l :
  ascending l → StronglySorted (λ a b, (snap_sequence_nr a.1 < snap_sequence_nr b.1)%N) (kept pid l).
Proof.
  induction 1 as [|e l Hl IH Hf]; cbn; constructor; [done|]. unfold kept. rewrite Forall_fmap.
  eapply Forall_impl; [exact Hf|]. done.
Qed.

Lemma wp_save s pid nr data l Q :
  kept_in s pid l → Forall (λ e, (e.1 < nr)%N) l → (nr * 100 < 2 ^ 63)%N →
  (∀ s', kept_in s' pid (l ++ [(nr, data)]) → (∀ q, q ≠ pid → saved s' q = saved s q) → Q tt s') →
  wp (save pid nr data) s Q.
Proof.
  intros Hk Hl Hn HQ. unfold wp, save, act. apply HQ.
  - unfold kept_in, kept in *. rewrite fmap_app, <- Hk.
    apply (save_above s (tck_meta pid nr)); unfold column_nr; cbn; [lia|lia|]. rewrite Hk, Forall_fmap. done.
  - intros q Hq. by apply save_other.
Qed.

Lemma wp_loaded s pid l nr data p Q :
  kept_in s pid l → ascending l → last l = Some (nr, data) → p nr (String.list_byte_of_string data) = true →
  Q tt s → wp (loaded pid p) s Q.
Proof.
  intros Hk Hs Hl Hp HQ. unfold wp, loaded, suite_bind, load.
  rewrite load_highest by (rewrite Hk; by apply kept_ascending). rewrite Hk. unfold kept. rewrite fmap_last, Hl. unfold ensure.
  cbn [fmap option_fmap option_map fst snd tck_meta snap_sequence_nr]. by rewrite Hp.
Qed.

Lemma wp_absent s pid Q : saved s pid = [] → Q tt s → wp (absent pid) s Q.
Proof.
  intros Hk HQ. unfold wp, absent, suite_bind, load. pose proof (load_saved s pid) as Hl. rewrite Hk in Hl.
  destruct (snapshot_load pid s); [by apply not_elem_of_nil in Hl|done].
Qed.

Lemma wp_delete_to s pid to l Q :
  kept_in s pid l → column_nr to →
  (∀ s', kept_in s' pid (filter (λ e, (to < e.1)%N) l) → (∀ q, q ≠ pid → saved s' q = saved s q) → Q tt s') →
  wp (delete_to pid to) s Q.
Proof.
  intros Hk Ht HQ. unfold wp, delete_to, act. apply HQ.
  - unfold kept_in, kept in *. rewrite delete_upto, Hk by done. clear.
    induction l as [|e l IH]; [done|]. rewrite fmap_cons, !filter_cons. cbn [fst tck_meta snap_sequence_nr].
    rewrite IH. by case_decide.
  - intros q Hq. by apply delete_other.
Qed.

Lemma wp_interleave_saves s pid sched xs ys Q :
  Forall (λ e, (1 ≤ snap_sequence_nr e.1 ≤ 20)%N) (saved s pid) →
  Forall (λ i, 1 ≤ i ≤ 20) xs → Forall (λ i, 1 ≤ i ≤ 20) ys →
  length (filter (λ c, c = true) sched) = length xs → length (filter (λ c, c = false) sched) = length ys →
  sched ≠ [] ∨ saved s pid ≠ [] →
  (∀ s', Forall (λ e, (1 ≤ snap_sequence_nr e.1 ≤ 20)%N) (saved s' pid) → saved s' pid ≠ [] → Q tt s') →
  wp (interleave_saves sched pid xs ys) s Q.
Proof.
  assert (∀ s i c, Forall (λ e, (1 ≤ snap_sequence_nr e.1 ≤ 20)%N) (saved s pid) → 1 ≤ i ≤ 20 →
    let s' := snapshot_save (tck_meta pid (N.of_nat i)) [c; byte_of (N.of_nat i)] s in
    Forall (λ e, (1 ≤ snap_sequence_nr e.1 ≤ 20)%N) (saved s' pid) ∧ saved s' pid ≠ []) as Hput.
  { intros s1 i c Hs Hi. destruct (save_some s1 (tck_meta pid (N.of_nat i)) [c; byte_of (N.of_nat i)]) as [Hne Hin];
      [unfold column_nr; cbn; lia..|].
    split; [|done]. apply Forall_forall. intros e He. destruct (Hin e He) as [->|He']; [cbn; lia|].
    by eapply Forall_forall in Hs. }
  intros Hs Hxs Hys. revert s xs ys Hs Hxs Hys. induction sched as [|c sched IH]; intros s xs ys Hs Hxs Hys Hx Hy Hne HQ.
  { unfold wp. cbn. apply HQ; [done|]. by destruct Hne. }
  destruct c; cbn in Hx, Hy |- *.
  - destruct Hxs as [|x xs Hx1 Hxs]; [done|]. injection Hx as Hx. apply wp_bind. unfold wp at 1, act.
    destruct (Hput s x (byte_of 49) Hs Hx1) as [Hs' Hn']. apply IH; auto.
  - destruct Hys as [|y ys Hy1 Hys]; [done|]. injection Hy as Hy. apply wp_bind. unfold wp at 1, act.
    destruct (Hput s y (byte_of 50) Hs Hy1) as [Hs' Hn']. apply IH; auto.
Qed.

Lemma wp_loaded_some s pid (p : N → Bytes → bool) Q :
  Forall (λ e, p (snap_sequence_nr e.1) e.2 = true) (saved s pid) → saved s pid ≠ [] → Q tt s → wp (loaded pid p) s Q.
Proof.
  intros Hf Hne HQ. unfold wp, loaded, suite_bind, load. pose proof (load_saved s pid) as Hl.
  destruct (snapshot_load pid s) as [[m d]|]; [|done]. eapply Forall_forall in Hl; [|exact Hf].
  unfold ensure. cbn in Hl. by rewrite Hl.
Qed.

(** Takes the next call of a suite; [la] and [lb] are what the two ids hold. *)
Ltac ascends := vm_compute; repeat constructor.
Ltac save_step Hk := apply wp_bind, (wp_save _ _ _ _ _ _ Hk); [repeat constructor; cbn; lia|lia|].
Ltac loaded_step Hk := apply wp_bind; eapply (wp_loaded _ _ _ _ _ _ _ Hk); [ascends|reflexivity|by vm_compute|].

Lemma snapshot_suite_passes s prefix :
  saved s (prefix +:+ "-a") = [] → saved s (prefix +:+ "-b") = [] → passes (snapshot_suite prefix) s.
Proof.
  unfold snapshot_suite. assert (prefix +:+ "-a" ≠ prefix +:+ "-b") as Hne by by apply suffix_ne.
  revert Hne. generalize (prefix +:+ "-a") (prefix +:+ "-b"). intros a b Hne Ha Hb. cbv zeta.
  apply (wp_passes _ _ (λ _ _, True)). change (kept_in s a []) in Ha.
  save_step Ha. intros s1 Ha1 Ho1. save_step Ha1. intros s2 Ha2 Ho2. save_step Ha2. intros s3 Ha3 Ho3.
  assert (kept_in s3 b []) as Hb3 by (unfold kept_in; by rewrite Ho3, Ho2, Ho1).
  save_step Hb3. intros s4 Hb4 Ho4. assert (kept_in s4 a ([(1, "v1"); (2, "v2"); (3, "v3")])%N) as Ha4 by (unfold kept_in; by rewrite Ho4).
  loaded_step Ha4. loaded_step Hb4.
  apply wp_bind, (wp_delete_to _ _ _ _ _ Ha4); [done|]. intros s5 Ha5 Ho5.
  assert (kept_in s5 b [(7%N, "bv7")]) as Hb5 by (unfold kept_in; by rewrite Ho5).
  loaded_step Ha5.
  apply wp_bind, (wp_delete_to _ _ _ _ _ Hb5); [done|]. intros s6 Hb6 _. by apply wp_absent.
Qed.

Lemma snapshot_extended_suite_passes s prefix sched :
  (∀ q, saved s q = []) →
  length (filter (λ c, c = true) sched) = 10 → length (filter (λ c, c = false) sched) = 10 →
  passes (snapshot_extended_suite sched prefix) s.
Proof.
  intros Hs Hx Hy. unfold snapshot_extended_suite.
  assert (prefix +:+ "-xA" ≠ prefix +:+ "-xB") as Hab by by apply suffix_ne.
  assert (prefix +:+ "-xA" ≠ prefix +:+ "-xUnknown") as Hau by by apply suffix_ne.
  assert (prefix +:+ "-xB" ≠ prefix +:+ "-xUnknown") as Hbu by by apply suffix_ne.
  assert (prefix +:+ "-xA" ≠ prefix +:+ "-xConc") as Hac by by apply suffix_ne.
  assert (prefix +:+ "-xB" ≠ prefix +:+ "-xConc") as Hbc by by apply suffix_ne.
  assert (prefix +:+ "-xUnknown" ≠ prefix +:+ "-xConc") as Huc by by apply suffix_ne.
  revert Hab Hau Hbu Hac Hbc Huc.
  generalize (prefix +:+ "-xA") (prefix +:+ "-xB") (prefix +:+ "-xUnknown") (prefix +:+ "-xConc").
  intros a b u c Hab Hau Hbu Hac Hbc Huc. cbv zeta. apply (wp_passes _ _ (λ _ _, True)).
  pose proof (Hs a) as Ha. change (kept_in s a []) in Ha.
  save_step Ha. intros s1 Ha1 Ho1. save_step Ha1. intros s2 Ha2 Ho2. save_step Ha2. intros s3 Ha3 Ho3.
  loaded_step Ha3. assert (kept_in s3 b []) as Hb3 by (unfold kept_in; by rewrite Ho3, Ho2, Ho1).
  save_step Hb3. intros s4 Hb4 Ho4.
  assert (kept_in s4 a ([(1, "a-v1"); (2, "a-v2"); (3, "a-v3")])%N) as Ha4 by (unfold kept_in; by rewrite Ho4).
  loaded_step Ha4. loaded_step Hb4.
  apply wp_bind, (wp_delete_to _ _ _ _ _ Ha4); [done|]. intros s5 Ha5 Ho5.
  assert (kept_in s5 b [(50%N, "b-v50")]) as Hb5 by (unfold kept_in; by rewrite Ho5).
  loaded_step Ha5. loaded_step Hb5.
  assert (∀ q, q ≠ a → q ≠ b → saved s5 q = []) as Ho by (intros; by rewrite Ho5, Ho4, Ho3, Ho2, Ho1).
  apply wp_bind. unfold wp at 1, delete_to, act. set (s6 := snapshot_delete u u64_max s5).
  assert (∀ q, q ≠ u → saved s6 q = saved s5 q) as Ho6 by (intros; by apply delete_other).
  assert (saved s6 u = []) as Hu6 by by apply delete_none, Ho.
  apply wp_bind, wp_absent; [done|]. unfold kept_in in Ha5, Hb5.
  rewrite <- Ho6 in Ha5, Hb5 by done. loaded_step Ha5. loaded_step Hb5.
  apply wp_bind, wp_interleave_saves; rewrite ?length_seq; try done.
  - by rewrite Ho6, Ho.
  - apply Forall_forall. intros i [? ?]%elem_of_seq. lia.
  - apply Forall_forall. intros i [? ?]%elem_of_seq. lia.
  - left. by destruct sched.
  - intros s7 Hs7 Hn7. apply wp_loaded_some; [|done|done]. eapply Forall_impl; [exact Hs7|]. cbn. intros e He.
    apply andb_true_intro. rewrite !N.leb_le. lia.
Qed.
End snapshots_conform.

#[export] Instance InMemorySnapshotStore_Keeps : SnapshotKeeps InMemorySnapshotStore.
Proof.
  refine {| saved s pid := snapshots_of pid s |}.
  - intros s m d _ _ _. cbn. by rewrite snapshots_of_save, decide_True.
  - intros s m d _ _. cbn. rewrite snapshots_of_save, decide_True by done. split; [by destruct (snapshots_of _ _)|].
    intros e. rewrite elem_of_app, list_elem_of_singleton. tauto.
  - intros s m d q Hq. cbn. by rewrite snapshots_of_save, decide_False.
  - intros s pid to _. cbn. by rewrite snapshots_of_delete, decide_True.
  - intros s pid to Hs. cbn. by rewrite snapshots_of_delete, decide_True, Hs.
  - intros s pid to q Hq. cbn. by rewrite snapshots_of_delete, decide_False.
  - intros s pid. rewrite load_last. destruct (last (snapshots_of pid s)) as [e|] eqn:E; [|by apply last_None].
    apply last_Some in E as [l ->]. apply elem_of_app. right. by left.
  - intros s pid _. apply load_last.
Defined.

(** Every journal with the specification that the clients of journals are verified against
    passes the journal suites of the conformance kit, the concurrent one under every interleaving
    of its two writers, from a state without the streams they use; a suite that panics on a
    back end proves that it breaks the specification. *)
Theorem conformance_journals {J} `{JournalCalls J} (j : J) prefix sched :
  (∀ q, journal_view j q = []) →
  length (filter (λ c, c = true) sched) = 20 → length (filter (λ c, c = false) sched) = 15 →
  passes (journal_suite prefix) j ∧ passes (journal_extended_suite prefix) j ∧
  passes (journal_concurrent_suite sched prefix) j ∧ passes (journal_replay_edge_cases prefix) j ∧
  passes (journal_tag_suite prefix) j.
Proof.
  intros Hv Hx Hy. split_and!.
  - by apply journal_suite_passes.
  - by apply journal_extended_suite_passes.
  - by apply journal_concurrent_suite_passes.
  - by apply journal_replay_edge_cases_pass.
  - by apply journal_tag_suite_passes.
Qed.

(** Every snapshot store that keeps what is saved, for numbers within a signed column, passes
    the snapshot suites, whatever the interleaving of the concurrent savers. *)
Theorem conformance_snapshots {S} `{SnapshotKeeps S} (s : S) prefix sched :
  (∀ q, saved s q = []) →
  length (filter (λ c, c = true) sched) = 10 → length (filter (λ c, c = false) sched) = 10 →
  passes (snapshot_suite prefix) s ∧ passes (snapshot_extended_suite sched prefix) s.
Proof. intros Hs Hx Hy. split; [by apply snapshot_suite_passes|by apply snapshot_extended_suite_passes]. Qed.

(** ** The back ends *)

Module KitRuns.
Import Tables Dynamo Cassandra.
Definition sched : list bool := replicate 7 true ++ replicate 15 false ++ replicate 13 true.

Lemma conformance_journals_witness : passes (journal_concurrent_suite sched "t") InMemoryJournal_new.
Proof.
  refine (proj1 (proj2 (proj2 (conformance_journals InMemoryJournal_new "t" sched _ _ _)))).
  - intros q. reflexivity.
  - vm_compute. reflexivity.
  - vm_compute. reflexivity.
Defined.

Lemma conformance_snapshots_witness : passes (snapshot_suite "t") InMemorySnapshotStore_new.
Proof.
  refine (proj1 (conformance_snapshots InMemorySnapshotStore_new "t" (replicate 10 false ++ replicate 10 true) _ _ _)).
  - intros q. reflexivity.
  - vm_compute. reflexivity.
  - vm_compute. reflexivity.
Defined.

(** The SQL journal, with the tables as its database. *)
Definition SqlTables_Journal : Journal SqlTables :=
  let w := sql_write_messages SqlDemo.toy_hash WormConfig_default SqlDemo.clock in {|
  write_messages := w;
  delete_messages_to := sql_delete_messages_to;
  replay_messages := sql_replay_messages;
  highest_sequence_nr := sql_highest_sequence_nr;
  events_by_tag := sql_events_by_tag;
  all_persistence_ids _ := inr [];
|}.

Definition runs {J} (HJ : Journal J) (j : J) : list bool :=
  let ok (m : Suite J unit) := match m j with Some _ => true | None => false end in
  [ok (journal_suite "t"); ok (journal_extended_suite "t"); ok (journal_concurrent_suite sched "t");
   ok (journal_replay_edge_cases "t"); ok (journal_tag_suite "t")].

Example sql_passes : runs SqlTables_Journal SqlTables_new = [true; true; true; true; true].
Proof. vm_compute. reflexivity. Qed.

(** DynamoDB: the tag query is the default of the trait, which finds nothing, and the store
    refuses the limit of zero of the extended suite. *)
Definition Dynamo_Journal : Journal Dynamo.Table := {|
  write_messages := Dynamo.dy_write_messages;
  delete_messages_to := Dynamo.dy_delete_messages_to;
  replay_messages := Dynamo.dy_replay_messages;
  highest_sequence_nr pid _ := Dynamo.dy_highest_sequence_nr pid;
  events_by_tag _ _ _ _ := inr [];
  all_persistence_ids _ := inr [];
|}.

Example dynamo_kit : runs Dynamo_Journal (Dynamo.mkTable 1000 ∅) = [true; false; true; true; false].
Proof. vm_compute. reflexivity. Qed.

(** Cassandra; a walk that runs out of fuel is reported as an error. *)
Definition Cassandra_Journal (fuel : nat) (cfg : Cassandra.CassandraConfig) : Journal Cassandra.CassTable := {|
  write_messages ms c := default (c, inl (JournalBackend "fuel")) (Cassandra.cass_write_messages cfg fuel ms c);
  delete_messages_to := Cassandra.cass_delete_messages_to cfg;
  replay_messages := Cassandra.cass_replay_messages cfg;
  highest_sequence_nr pid _ c := default (inl (JournalBackend "fuel")) (Cassandra.cass_highest_sequence_nr fuel pid c);
  events_by_tag _ _ _ _ := inr [];
  all_persistence_ids _ := inr [];
|}.

Lemma batch_of_tck q a n : batch_of q (tck_batch a n) = if decide (a = q) then tck_batch a n else [].
Proof.
  unfold batch_of, tck_batch. induction (seq 1 n) as [|i l IH]; [by case_decide|]. rewrite fmap_cons, filter_cons, IH.
  cbn [tck_repr persistence_id]. by case_decide.
Qed.

Lemma batch_accepted a n S : S a = [] → accepts S (tck_batch a n).
Proof.
  intros Ha q i m. rewrite batch_of_tck. case_decide as Hq; [subst q; rewrite Ha|done].
  unfold tck_batch. rewrite list_lookup_fmap. intros (k & [-> _]%lookup_seq & ->)%fmap_Some. cbn. lia.
Qed.

(** The replay up to [u64::MAX] of the first check returns nothing, whatever the partitions. *)
Lemma cassandra_fails_suite cfg prefix :
  (0 < partition_size cfg)%N →
  @journal_suite _ (Cassandra_Journal 10 cfg) prefix CassandraDemo.empty_table = None.
Proof.
  intros Hsz. unfold journal_suite.
  assert (prefix +:+ "-a" ≠ prefix +:+ "-b") as Hne by by apply suffix_ne.
  revert Hne. generalize (prefix +:+ "-a") (prefix +:+ "-b"). intros a b Hne. cbv zeta.
  assert (CassandraFacts.cass_rel cfg CassandraDemo.empty_table (λ _, [])) as Hr.
  { intros q. split; [intros p|constructor|by intros i m]. cbn. unfold table_part, CassandraFacts.seg.
    by rewrite drop_nil, take_nil. }
  assert (∀ c : CassTable, cass_up c) as Hup by (intros c; exact I).
  destruct (CassandraFacts.cass_write_messages_ok cfg Hsz 10 (tck_batch a 3) _ CassandraDemo.empty_table (Hup _) Hr)
    as (c1 & E1 & _ & Hr1).
  { intros q. unfold stream_limit. cbn. lia. }
  { intros q. cbn. lia. }
  { by apply batch_accepted. }
  destruct (CassandraFacts.cass_write_messages_ok cfg Hsz 10 (tck_batch b 2) _ c1 (Hup _) Hr1) as (c2 & E2 & _ & Hr2).
  { intros q. cbn [spec_op app]. rewrite batch_of_tck. unfold stream_limit. case_decide; cbn; lia. }
  { intros q. cbn [spec_op app]. rewrite batch_of_tck. case_decide; cbn; lia. }
  { apply batch_accepted. cbn [spec_op app]. by rewrite batch_of_tck, decide_False. }
  unfold suite_bind at 1, call at 1. cbn [write_messages Cassandra_Journal]. rewrite E1. cbn [default from_option id].
  unfold suite_bind at 1, call at 1. cbn [write_messages Cassandra_Journal]. rewrite E2. cbn [default from_option id].
  unfold suite_bind at 1, replay at 1, ask at 1. cbn [replay_messages Cassandra_Journal].
  unfold cass_replay_messages. cbn [backend cass_prepare CassTable_Db].
  replace (u64_max <? 1)%N with false by done.
  change (N.max 1 1) with (0 + 1)%N. rewrite CassandraFacts.partition_for_small by done.
  erewrite (CassandraFacts.cass_replay_beyond cfg Hsz a); [done|apply Hup|apply Hr2|done].
Qed.

(** The SQL snapshot store passes, with the statements of a table that works. *)
Example sql_snapshots_pass :
  let HS := SqlSnapshotStore_SnapshotStore 0 in
  let s := mkSnapTable ∅ in
  passes (snapshot_suite "t") s ∧
  passes (snapshot_extended_suite (replicate 4 false ++ replicate 10 true ++ replicate 6 false) "t") s.
Proof. vm_compute. split; eauto. Qed.
End KitRuns.

(** ** The transactional outbox
    ([crates/atomr-patterns/src/tx_outbox/mod.rs]) *)

Module TxOutbox.
Record TxEventRow := mkTxEventRow {
  tx_persistence_id : string;
  tx_sequence_nr : N;
  tx_payload : Bytes;
  tx_manifest : string;
  tx_writer_uuid : string;
}.
Record OutboxRow := mkOutboxRow { ob_topic : string; ob_payload : Bytes }.

Section outbox.
Context {D : Type}.
(** The two INSERT statements, on the caller's transaction. *)
Variable insert_journal : EventRow → D → string + D.
Variable insert_outbox : OutboxRow → Z → D → string + D.

(** The columns that the statement names; the others are null. *)
Definition journal_row (event : TxEventRow) (created_at : Z) : EventRow :=
  mkEventRow (tx_persistence_id event) (u64_as_i64 (tx_sequence_nr event)) (tx_payload event) (tx_manifest event)
    (tx_writer_uuid event) 0 created_at None None None None.

(** The transaction after the call, and the result; the caller commits or rolls back. *)
Definition persist_with (now_millis : Z) (event : TxEventRow) (outbox : OutboxRow) (tx : D) : D * (string + unit) :=
  match insert_journal (journal_row event now_millis) tx with
  | inl e => (tx, inl e)
  | inr tx => match insert_outbox outbox now_millis tx with
              | inl e => (tx, inl e)
              | inr tx => (tx, inr tt)
              end
  end.

(** The use the module documents: commit after a success, otherwise roll back. *)
Definition in_transaction (now : Z) (event : TxEventRow) (outbox : OutboxRow) (d : D) : D :=
  match persist_with now event outbox d with (tx, inr _) => tx | (_, inl _) => d end.

(** Both rows are there or neither is, whichever statement fails. *)
Lemma in_transaction_atomic now event outbox d :
  in_transaction now event outbox d = d ∨
  ∃ d1, insert_journal (journal_row event now) d = inr d1 ∧
    insert_outbox outbox now d1 = inr (in_transaction now event outbox d).
Proof.
  unfold in_transaction, persist_with. destruct (insert_journal _ d) as [e|d1] eqn:E1; [by left|].
  destruct (insert_outbox outbox now d1) as [e|d2] eqn:E2; [by left|]. right. by exists d1.
Qed.
End outbox.

Section chained.
Context {D : Type} `{SqlDbLaws D}.
Variable sha256 : Bytes → Bytes.

(** The row has no hash: a chain it joins no longer verifies, wherever it stands, although
    every row was written by the application. *)
Lemma unhashed_row_breaks_chain pid (row : EventRow) rows1 rows2 prev n :
  row_hash row = None →
  ∃ bad, verify_rows sha256 pid prev n (chain_cols <$> rows1 ++ row :: rows2) = Tampered bad.
Proof.
  intros Hr. revert prev n. induction rows1 as [|r rows1 IH]; intros prev n; cbn.
  - rewrite Hr. case_decide; [|by eauto]. rewrite decide_False by done. by eauto.
  - case_decide; [|by eauto]. case_decide; [|by eauto]. apply IH.
Qed.

Lemma insert_row_middle r l : ∃ l1 l2, insert_row r l = l1 ++ r :: l2.
Proof.
  induction l as [|x l (l1 & l2 & IH)]; cbn; [by exists [], []|]. case_match; [by exists [], (x :: l)|].
  exists (x :: l1), l2. by rewrite IH.
Qed.

Lemma outbox_breaks_chain insert_outbox now event outbox (d d' : D) proof :
  (∀ o t d d', insert_outbox o t d = inr d' → ∀ q, rows_of d' q = rows_of d q) →
  persist_with insert_event insert_outbox now event outbox d = (d', inr tt) →
  verify_chain sha256 (tx_persistence_id event) d' = inr proof → ∃ bad, proof = Tampered bad.
Proof.
  intros Ho Hp Hv. unfold persist_with in Hp.
  destruct (insert_event (journal_row event now) d) as [e|d1] eqn:E1; [done|].
  destruct (insert_outbox outbox now d1) as [e|d2] eqn:E2; [done|]. injection Hp as <-.
  unfold verify_chain in Hv. destruct (select_chain (tx_persistence_id event) d2) as [e|rows] eqn:Es; [done|].
  injection Hv as <-. apply law_chain in Es as ->. rewrite (Ho _ _ _ _ E2).
  apply law_insert in E1 as [_ Hrows]. rewrite (proj1 (Hrows _)), decide_True by done.
  destruct (insert_row_middle (journal_row event now) (rows_of d (tx_persistence_id event))) as (l1 & l2 & ->).
  by apply unhashed_row_breaks_chain.
Qed.
End chained.
End TxOutbox.
