(* ===== verification/SerialLink.v ===== *)
(** * The serial transport
    ([crates/atomr-remote-serial/src/transport.rs], [reconnect.rs])

    One cable, one peer: a supervisor opens the device, runs a link on it and opens it again
    after the link is gone.  A link has a writer task that empties a channel onto the wire and
    a reader task that stamps each frame with the address of its sender.  The supervisor, the
    two tasks and the calls of the public interface share [SerialState]; the step relation has
    one rule per step of a task between two suspension points, so every interleaving of them
    is a run.  [notify_waiters] wakes those who wait at that moment, and nobody later. *)

From stdpp Require Import gmap strings list.
From Stdlib Require Import NArith Lia.
From S2P Require Import Prelude Address Endpoint Association.

(** ** The reconnect policy *)

Record ReconnectPolicy := mkReconnectPolicy {
  initial : N;
  max_delay : N;
  (** [Duration::mul_f64] with the multiplier of the policy *)
  multiplier : N → N;
}.

Definition millis (n : N) : N := (n * 1000000)%N.

Definition ReconnectPolicy_default : ReconnectPolicy := mkReconnectPolicy (millis 50) (millis 5000) (λ d, 2 * d)%N.
Definition ReconnectPolicy_never : ReconnectPolicy := mkReconnectPolicy 0 0 id.

Definition next_delay (p : ReconnectPolicy) (current : N) : N :=
  if (max_delay p =? 0)%N then 0%N else N.min (multiplier p current) (max_delay p).
Definition is_enabled (p : ReconnectPolicy) : bool := negb (max_delay p =? 0)%N.

(** ** The state *)

(** A link: the channel to its writer, what was put on the wire, what came from it, and the
    tasks that still run.  [l_sent] are the frames the channel accepted. *)
Record Link := mkLink {
  l_queue : list AkkaPdu;
  l_written : list AkkaPdu;
  l_sent : list AkkaPdu;
  l_received : list AkkaPdu;
  l_delivered : list (Address * AkkaPdu);
  w_alive : bool;
  r_alive : bool;
}.
Definition link_new : Link := mkLink [] [] [] [] [] true true.

Inductive Supervisor := SupOpening | SupLink | SupSleeping | SupDone.

Record SerialState := mkSerial {
  sup : Supervisor;
  delay : N;
  (** [state.sender]: whether the handle to the channel of the link is there *)
  sender : bool;
  local_address : option Address;
  peer_address : option Address;
  link : option Link;
}.

Section transport.
Variable policy : ReconnectPolicy.

(** [with_options] followed by [listen]. *)
Definition listen (address : Address) : SerialState := mkSerial SupOpening (initial policy) false (Some address) None None.
(** [with_streams]: the link runs on the given halves and is not opened again. *)
Definition with_streams (system_name : string) : SerialState :=
  mkSerial SupLink 0 true (Some (Address_remote "akka.serial" system_name "<streams>" 0)) None (Some link_new).

Definition set_link (l : Link) (s : SerialState) : SerialState :=
  mkSerial (sup s) (delay s) (sender s) (local_address s) (peer_address s) (Some l).

(** *** The public interface *)

Definition push (pdu : AkkaPdu) (l : Link) : Link :=
  mkLink (l_queue l ++ [pdu]) (l_written l) (l_sent l ++ [pdu]) (l_received l) (l_delivered l) (w_alive l) (r_alive l).

(** The channel is closed once its writer has ended. *)
Definition serial_send (pdu : AkkaPdu) (s : SerialState) : SerialState * (TransportError + unit) :=
  match sender s, link s with
  | true, Some l => if w_alive l then (set_link (push pdu l) s, inr tt) else (s, inl TeClosed)
  | _, _ => (s, inl TeClosed)
  end.

Definition serial_associate (_target : Address) (s : SerialState) : SerialState * (TransportError + unit) := (s, inr tt).

Definition serial_disassociate (s : SerialState) : SerialState * (TransportError + unit) :=
  ((serial_send (PduDisassociate DrNormal) s).1, inr tt).

(** [notify_waiters] ends the supervisor where it opens the device or sleeps, and the reader of
    the link. *)
Definition notify_waiters (s : SerialState) : SerialState :=
  mkSerial (match sup s with SupOpening | SupSleeping => SupDone | x => x end) (delay s) (sender s)
    (local_address s) (peer_address s)
    ((λ l, mkLink (l_queue l) (l_written l) (l_sent l) (l_received l) (l_delivered l) (w_alive l) false) <$> link s).

Definition serial_shutdown (s : SerialState) : SerialState :=
  let s := notify_waiters s in
  mkSerial (sup s) (delay s) false (local_address s) (peer_address s) (link s).

(** *** The tasks *)

(** [run_link]: a new channel, and its handle for [send]. *)
Definition run_link (s : SerialState) : SerialState :=
  mkSerial SupLink (initial policy) true (local_address s) (peer_address s) (Some link_new).

Definition open_failed (s : SerialState) : SerialState :=
  mkSerial (if is_enabled policy then SupSleeping else SupDone) (delay s) (sender s) (local_address s) (peer_address s) (link s).

Definition wake_up (s : SerialState) : SerialState :=
  mkSerial SupOpening (next_delay policy (N.max (delay s) (millis 1))) (sender s) (local_address s) (peer_address s) (link s).

Definition is_disassociate (p : AkkaPdu) : bool := match p with PduDisassociate _ => true | _ => false end.

(** One turn of the writer; [ok] is whether the frame could be written. *)
Definition writer_turn (ok : bool) (l : Link) : Link :=
  match l_queue l with
  | f :: q =>
      if ok
      then mkLink q (l_written l ++ [f]) (l_sent l) (l_received l) (l_delivered l) (negb (is_disassociate f)) (r_alive l)
      else mkLink q (l_written l) (l_sent l) (l_received l) (l_delivered l) false (r_alive l)
  | [] => l
  end.
Definition writer_end (l : Link) : Link :=
  mkLink (l_queue l) (l_written l) (l_sent l) (l_received l) (l_delivered l) false (r_alive l).

(** The sender a frame is stamped with, and the address of the peer after it. *)
Definition stamp (local peer : option Address) (pdu : AkkaPdu) : Address * option Address :=
  match pdu with
  | PduAssociate info => (ai_origin info, Some (ai_origin info))
  | _ => (match peer with Some a => a | None => default (Address_local "?") local end, peer)
  end.

(** One turn of the reader that got a frame; [open] is whether the inbound channel takes it. *)
Definition reader_turn (open : bool) (pdu : AkkaPdu) (l : Link) (s : SerialState) : SerialState :=
  let '(from, peer) := stamp (local_address s) (peer_address s) pdu in
  mkSerial (sup s) (delay s) (sender s) (local_address s) peer
    (Some (mkLink (l_queue l) (l_written l) (l_sent l) (l_received l ++ [pdu])
       (if open then l_delivered l ++ [(from, pdu)] else l_delivered l) (w_alive l) open)).
Definition reader_end (l : Link) : Link :=
  mkLink (l_queue l) (l_written l) (l_sent l) (l_received l) (l_delivered l) (w_alive l) false.

(** Both tasks have ended: the handle and the address of the peer go. *)
Definition link_down (s : SerialState) : SerialState :=
  mkSerial (if is_enabled policy then SupSleeping else SupDone) (delay s) false (local_address s) None None.

(** The steps of the tasks. *)
Inductive internal : SerialState → SerialState → Prop :=
  | in_opened s : sup s = SupOpening → internal s (run_link s)
  | in_open_failed s : sup s = SupOpening → internal s (open_failed s)
  | in_wake_up s : sup s = SupSleeping → internal s (wake_up s)
  | in_write ok l s : link s = Some l → w_alive l = true → l_queue l ≠ [] → internal s (set_link (writer_turn ok l) s)
  | in_writer_end l s :
      link s = Some l → w_alive l = true → l_queue l = [] → sender s = false → internal s (set_link (writer_end l) s)
  | in_read open pdu l s : link s = Some l → r_alive l = true → internal s (reader_turn open pdu l s)
  | in_read_error l s : link s = Some l → r_alive l = true → internal s (set_link (reader_end l) s)
  | in_join l s : sup s = SupLink → link s = Some l → w_alive l = false → r_alive l = false → internal s (link_down s).

Inductive serial_step : SerialState → SerialState → Prop :=
  | st_send pdu s : serial_step s (serial_send pdu s).1
  | st_disassociate s : serial_step s (serial_disassociate s).1
  | st_shutdown s : serial_step s (serial_shutdown s)
  | st_internal s s' : internal s s' → serial_step s s'.

Inductive serial_run (s0 : SerialState) : SerialState → Prop :=
  | sr_start : serial_run s0 s0
  | sr_step s s' : serial_run s0 s → serial_step s s' → serial_run s0 s'.

(** *** What holds in every run *)

(** The stamps of a sequence of frames. *)
Fixpoint stamped (local peer : option Address) (pdus : list AkkaPdu) : list (Address * AkkaPdu) * option Address :=
  match pdus with
  | [] => ([], peer)
  | pdu :: rest =>
      let '(from, peer) := stamp local peer pdu in
      let '(l, p) := stamped local peer rest in ((from, pdu) :: l, p)
  end.

Lemma stamped_snoc local peer pdus pdu :
  stamped local peer (pdus ++ [pdu]) =
    let '(l, p) := stamped local peer pdus in
    let '(from, p') := stamp local p pdu in (l ++ [(from, pdu)], p').
Proof.
  revert peer; induction pdus as [|x pdus IH]; intros peer; cbn.
  - by destruct (stamp local peer pdu).
  - destruct (stamp local peer x) as [from peer']. rewrite IH. destruct (stamped local peer' pdus) as [l p].
    by destruct (stamp local p pdu).
Qed.

(** Nothing but the last frame is a [Disassociate]. *)
Definition ends_at_disassociate (l : list AkkaPdu) : Prop :=
  ∀ l1 p l2, l = l1 ++ p :: l2 → is_disassociate p = true → l2 = [].

Record link_wf (local peer : option Address) (l : Link) : Prop := {
  wf_written : l_written l `prefix_of` l_sent l;
  wf_alive : w_alive l = true → l_sent l = l_written l ++ l_queue l ∧ Forall (λ p, is_disassociate p = false) (l_written l);
  wf_end : ends_at_disassociate (l_written l);
  wf_delivered : l_delivered l `prefix_of` (stamped local None (l_received l)).1;
  wf_reading : r_alive l = true → l_delivered l = (stamped local None (l_received l)).1;
  wf_peer : peer = (stamped local None (l_received l)).2;
}.

Record serial_wf (local : option Address) (s : SerialState) : Prop := {
  wf_local : local_address s = local;
  wf_sup : sup s = SupLink ↔ is_Some (link s);
  wf_sender : sender s = true → is_Some (link s);
  wf_link : match link s with Some l => link_wf local (peer_address s) l | None => peer_address s = None end;
}.

Lemma link_new_wf local : link_wf local None link_new.
Proof.
  split; cbn; try done. intros l1 p l2 H. by destruct l1.
Qed.

Lemma no_disassociate_ends l : Forall (λ p, is_disassociate p = false) l → ends_at_disassociate l.
Proof.
  intros Hf l1 p l2 -> Hp. apply Forall_app in Hf as [_ Hf]. apply Forall_cons in Hf as [Hq _]. congruence.
Qed.

Lemma snoc_ends l f : Forall (λ p, is_disassociate p = false) l → ends_at_disassociate (l ++ [f]).
Proof.
  intros Hf l1 p l2 E Hp. destruct l2 as [|x l2 _] using rev_ind; [done|].
  rewrite app_comm_cons, (assoc_L app) in E. apply app_inj_tail in E as [-> _].
  apply Forall_app in Hf as [_ Hf]. apply Forall_cons in Hf as [Hq _]. congruence.
Qed.

Lemma push_wf local peer l pdu : w_alive l = true → link_wf local peer l → link_wf local peer (push pdu l).
Proof.
  intros Ha [H1 H2 H3 H4 H5 H6]. destruct (H2 Ha) as [Hs Hd]. split; cbn; try done.
  - by apply prefix_app_r.
  - intros _. by rewrite Hs, (assoc_L app).
Qed.

Lemma writer_turn_wf local peer l ok : w_alive l = true → link_wf local peer l → link_wf local peer (writer_turn ok l).
Proof.
  intros Ha Hwf. pose proof Hwf as [H1 H2 H3 H4 H5 H6]. destruct (H2 Ha) as [Hs Hd]. unfold writer_turn.
  destruct (l_queue l) as [|f q] eqn:Eq; [done|]. destruct ok; split; cbn; try done.
  - exists q. by rewrite Hs, <- (assoc_L app).
  - intros Hf. rewrite Hs, <- (assoc_L app). split; [done|]. apply Forall_app. split; [done|].
    constructor; [|done]. by destruct (is_disassociate f).
  - by apply snoc_ends.
Qed.

Lemma reader_turn_wf local s l opened pdu :
  r_alive l = true → local_address s = local → link_wf local (peer_address s) l →
  match link (reader_turn opened pdu l s) with
  | Some l' => link_wf local (peer_address (reader_turn opened pdu l s)) l'
  | None => False
  end.
Proof.
  intros Ha Hl [H1 H2 H3 H4 H5 H6]. unfold reader_turn. rewrite Hl, H6. pose proof (H5 Ha) as Hd.
  pose proof (stamped_snoc local None (l_received l) pdu) as Hsn.
  destruct (stamped local None (l_received l)) as [ls p] eqn:E. cbn in *.
  destruct (stamp local p pdu) as [from p'] eqn:Es. cbn. split; cbn; rewrite ?Hsn; cbn; try done.
  - rewrite Hd. destruct opened; [done|]. by apply prefix_app_r.
  - intros ->. by rewrite Hd.
Qed.

Lemma set_link_wf local s l l' :
  link s = Some l → serial_wf local s → (link_wf local (peer_address s) l → link_wf local (peer_address s) l') →
  serial_wf local (set_link l' s).
Proof.
  intros El [H1 H2 H3 H4] Hl. rewrite El in *. split; cbn.
  - done.
  - rewrite H2. split; intros _; by eexists.
  - intros _. by eexists.
  - auto.
Qed.

Lemma internal_wf local s s' : serial_wf local s → internal s s' → serial_wf local s'.
Proof.
  intros Hwf. pose proof Hwf as [H1 H2 H3 H4].
  destruct 1 as [s E|s E|s E|ok l s El Ha Hq|l s El Ha Hq Hs|opened pdu l s El Ha|l s El Ha|l s E El Hw Hr].
  - split; cbn; [done|by split|by eauto|]. assert (link s = None) as Hn.
    { apply eq_None_not_Some. intros Hl. apply H2 in Hl. congruence. }
    rewrite Hn in H4. rewrite H4. apply link_new_wf.
  - split; cbn; [done| |done|done]. rewrite <- H2, E. by destruct (is_enabled policy).
  - split; cbn; [done| |done|done]. by rewrite <- H2, E.
  - apply (set_link_wf _ _ l); [done..|]. by apply writer_turn_wf.
  - apply (set_link_wf _ _ l); [done..|]. intros [W1 W2 W3 W4 W5 W6]. by split.
  - pose proof (reader_turn_wf local s l opened pdu Ha H1) as Hr. rewrite El in *. specialize (Hr H4).
    destruct (reader_turn opened pdu l s) as [a b c d e f] eqn:E.
    unfold reader_turn in E. destruct (stamp _ _ _) as [from p']. injection E as <- <- <- <- <- <-.
    split; cbn in *; try done. rewrite H2. split; intros _; by eexists.
  - apply (set_link_wf _ _ l); [done..|]. intros [W1 W2 W3 W4 W5 W6]. by split.
  - split; cbn; [done| |done|done]. destruct (is_enabled policy); split; intros H; (done || by destruct H).
Qed.

Lemma send_wf local s pdu : serial_wf local s → serial_wf local (serial_send pdu s).1.
Proof.
  intros Hwf. unfold serial_send. destruct (sender s); [|done]. destruct (link s) as [l|] eqn:El; [|done].
  destruct (w_alive l) eqn:Ha; [|done]. apply (set_link_wf _ _ l); [done..|]. by apply push_wf.
Qed.

Lemma shutdown_wf local s : serial_wf local s → serial_wf local (serial_shutdown s).
Proof.
  intros [H1 H2 H3 H4]. unfold serial_shutdown, notify_waiters. split; cbn; [done| |done|].
  - rewrite fmap_is_Some, <- H2. by destruct (sup s).
  - destruct (link s) as [l|]; cbn; [|done]. destruct H4 as [W1 W2 W3 W4 W5 W6]. by split.
Qed.

Lemma run_wf local s0 s : serial_wf local s0 → serial_run s0 s → serial_wf local s.
Proof.
  intros H0. induction 1 as [|s s' _ IH Hs]; [done|].
  destruct Hs as [pdu s|s|s|s s' Hi]; [by apply send_wf|by apply send_wf|by apply shutdown_wf|by eapply internal_wf].
Qed.

Lemma listen_wf address : serial_wf (Some address) (listen address).
Proof. split; cbn; done. Qed.

(** *** Where it stands still *)

(** The reader has ended, because the cable was pulled, and the application sends nothing: no
    task has a step to take, so the device is not opened again. *)
Lemma reader_gone_waits s s' l :
  sup s = SupLink → link s = Some l → r_alive l = false → w_alive l = true → l_queue l = [] → sender s = true →
  ¬ internal s s'.
Proof. intros Hsup Hl Hr Hw Hq Hs. destruct 1; simplify_eq; congruence. Qed.

(** The writer has ended, because a frame was too large: every send is refused, and as long as
    the peer stays connected the link is neither taken down nor replaced. *)
Lemma writer_gone_refuses s l pdu :
  sup s = SupLink → link s = Some l → w_alive l = false →
  serial_send pdu s = (s, inl TeClosed) ∧
  (r_alive l = true → ∀ s', internal s s' → sup s' = SupLink ∧ sender s' = sender s ∧
     ∃ l', link s' = Some l' ∧ w_alive l' = false).
Proof.
  intros Hsup Hl Hw. split.
  { unfold serial_send. rewrite Hl, Hw. by destruct (sender s). }
  intros Hr s' Hs. destruct Hs as [s E|s E|s E|ok l1 s El Ha Hq|l1 s El Ha Hq Hsd|opened p l1 s El Ha|l1 s El Ha|l1 s E El Hw1 Hr1];
    try congruence.
  - unfold reader_turn. destruct (stamp _ _ _) as [from p']. cbn. split_and!; [done..|]. eexists. split; [done|].
    cbn. congruence.
  - cbn. split_and!; [done..|]. eexists. split; [done|]. cbn. congruence.
Qed.

(** Once both tasks have ended the device is opened again, with the channel of a new link. *)
Lemma link_reopens s l :
  is_enabled policy = true → sup s = SupLink → link s = Some l → w_alive l = false → r_alive l = false →
  ∃ s', serial_run s s' ∧ sup s' = SupLink ∧ sender s' = true ∧ link s' = Some link_new ∧ peer_address s' = None.
Proof.
  intros He Hsup Hl Hw Hr.
  pose proof (sr_step _ _ _ (sr_start s) (st_internal _ _ (in_join l s Hsup Hl Hw Hr))) as R1.
  assert (sup (link_down s) = SupSleeping) as E1 by by cbn; rewrite He.
  pose proof (sr_step _ _ _ R1 (st_internal _ _ (in_wake_up _ E1))) as R2.
  pose proof (sr_step _ _ _ R2 (st_internal _ _ (in_opened (wake_up (link_down s)) eq_refl))) as R3. eauto 10.
Qed.

(** The supervisor does not wait while a link runs, so [shutdown] ends the link and not the
    supervisor: the device is opened again, and [send] works as before. *)
Lemma shutdown_reopens s l :
  is_enabled policy = true → sup s = SupLink → link s = Some l → l_queue l = [] →
  ∃ s', serial_run (serial_shutdown s) s' ∧ sup s' = SupLink ∧ sender s' = true ∧ link s' = Some link_new.
Proof.
  intros He Hsup Hl Hq. set (l1 := reader_end l).
  assert (link (serial_shutdown s) = Some l1) as Hl1 by (cbn; by rewrite Hl).
  assert (sup (serial_shutdown s) = SupLink) as Hs1 by (cbn; by rewrite Hsup).
  destruct (w_alive l) eqn:Ew.
  - pose proof (sr_step _ _ _ (sr_start (serial_shutdown s))
      (st_internal _ _ (in_writer_end l1 (serial_shutdown s) Hl1 Ew Hq eq_refl))) as R1.
    destruct (link_reopens (set_link (writer_end l1) (serial_shutdown s)) (writer_end l1)) as (s' & R & H1 & H2 & H3 & _); try done.
    exists s'. split; [|done]. clear -R R1. induction R as [|s1 s2 _ IH Hs]; [done|]. by eapply sr_step.
  - destruct (link_reopens (serial_shutdown s) l1) as (s' & R & H1 & H2 & H3 & _); try done. by exists s'.
Qed.

(** The delays between two attempts stay below the cap of the policy. *)
Lemma next_delay_capped d : (next_delay policy d ≤ max_delay policy)%N.
Proof. unfold next_delay. case_match; lia. Qed.
End transport.

(** ** Who a frame is attributed to *)

(** The origin an [Associate] names. *)
Definition origin_of (p : AkkaPdu) : option Address :=
  match p with PduAssociate info => Some (ai_origin info) | _ => None end.

(** Before the first [Associate] frames carry the local address. *)
Lemma stamped_before address pre :
  Forall (λ p, origin_of p = None) pre →
  stamped (Some address) None pre = (pair address <$> pre, None).
Proof.
  induction 1 as [|p pre Hp _ IH]; [done|]. cbn.
  destruct p; try done; cbn; by rewrite IH.
Qed.

(** Once a peer is known, frames carry its address as long as no other one is named. *)
Lemma stamped_after local peer post :
  Forall (λ p, ∀ a, origin_of p = Some a → a = peer) post →
  stamped local (Some peer) post = (pair peer <$> post, Some peer).
Proof.
  induction 1 as [|p post Hp _ IH]; [done|]. cbn.
  destruct p as [info| | | |]; cbn; try by rewrite IH.
  rewrite (Hp _ eq_refl), IH. done.
Qed.

Lemma stamped_app local peer p1 p2 :
  stamped local peer (p1 ++ p2) =
    let '(l, p) := stamped local peer p1 in
    let '(l', p') := stamped local p p2 in (l ++ l', p').
Proof.
  revert peer; induction p1 as [|x p1 IH]; intros peer; cbn.
  - by destruct (stamped local peer p2).
  - destruct (stamp local peer x) as [from peer']. rewrite IH. destruct (stamped local peer' p1) as [l p].
    by destruct (stamped local p p2).
Qed.

(** The whole attribution of a link whose [Associate]s name one peer. *)
Lemma stamped_one_peer address peer pre hello post :
  Forall (λ p, origin_of p = None) pre → origin_of hello = Some peer →
  Forall (λ p, ∀ a, origin_of p = Some a → a = peer) post →
  (stamped (Some address) None (pre ++ hello :: post)).1 =
    (pair address <$> pre) ++ (pair peer <$> (hello :: post)).
Proof.
  intros Hpre Hh Hpost. rewrite stamped_app, stamped_before by done.
  destruct hello as [info| | | |]; try done. injection Hh as <-. cbn.
  by rewrite stamped_after.
Qed.

Lemma stamped_payload local peer pdus : (stamped local peer pdus).1.*2 = pdus.
Proof.
  revert peer; induction pdus as [|p pdus IH]; intros peer; [done|]. cbn.
  destruct (stamp local peer p) as [from peer']. specialize (IH peer').
  destruct (stamped local peer' pdus) as [l q]. cbn in *. by rewrite IH.
Qed.

(** C20: in every run of the serial transport, whatever its tasks, the cable and the callers do:
    what a link has written is a prefix of what it was given, in that order and with nothing
    behind a [Disassociate]; the frames it handed on are those it received, in order; and when
    the [Associate]s it received name one peer, the first of them fixes the attribution: it and
    every frame after it carry the address of that peer, the frames before it (all frames, when
    there is none) the local address, and none the peer of an earlier link. *)
Theorem serial_link_ordered policy address s l :
  serial_run policy (listen policy address) s → link s = Some l →
  l_written l `prefix_of` l_sent l ∧ ends_at_disassociate (l_written l) ∧
  (w_alive l = true → l_sent l = l_written l ++ l_queue l) ∧
  (l_delivered l).*2 `prefix_of` l_received l ∧
  (r_alive l = true → (l_delivered l).*2 = l_received l) ∧
  (Forall (λ p, origin_of p = None) (l_received l) →
     l_delivered l `prefix_of` (pair address <$> l_received l)) ∧
  (∀ peer pre hello post, l_received l = pre ++ hello :: post →
     Forall (λ p, origin_of p = None) pre → origin_of hello = Some peer →
     Forall (λ p, ∀ a, origin_of p = Some a → a = peer) post →
     l_delivered l `prefix_of` (pair address <$> pre) ++ (pair peer <$> (hello :: post))).
Proof.
  intros Hr Hl. apply (run_wf policy (Some address)) in Hr; [|apply listen_wf].
  pose proof (wf_link _ _ Hr) as Hw. rewrite Hl in Hw. destruct Hw as [H1 H2 H3 H4 H5 H6].
  split_and!; [done..| | | | |].
  - intros Ha. by apply H2.
  - rewrite <- (stamped_payload (Some address) None (l_received l)).
    destruct H4 as [r ->]. rewrite fmap_app. by eexists.
  - intros Ha. rewrite (H5 Ha). apply stamped_payload.
  - intros Hn. by rewrite stamped_before in H4.
  - intros peer pre hello post E Hpre Hh Hpost. by rewrite <- (stamped_one_peer _ _ _ _ _ Hpre Hh Hpost), <- E.
Qed.

Module SerialDemo.
Definition here : Address := Address_remote "akka.serial" "S" "/dev/ttyACM0" 0.
Definition there : Address := Address_remote "akka.serial" "T" "/dev/ttyGS0" 0.
Definition hello : AkkaPdu := PduAssociate (mkAssociateInfo there 1 None 1).
Definition s1 : SerialState := run_link ReconnectPolicy_default (listen ReconnectPolicy_default here).
Definition l2 : Link := push PduHeartbeat link_new.
Definition s2 : SerialState := set_link l2 s1.
Definition s3 : SerialState := set_link (writer_turn true l2) s2.
Definition s4 : SerialState := reader_turn true PduHeartbeat (writer_turn true l2) s3.
Definition l5 : Link := mkLink [] [PduHeartbeat] [PduHeartbeat] [PduHeartbeat] [(here, PduHeartbeat)] true true.
Definition s5 : SerialState := reader_turn true hello l5 s4.
Definition l6 : Link :=
  mkLink [] [PduHeartbeat] [PduHeartbeat] [PduHeartbeat; hello] [(here, PduHeartbeat); (there, hello)] true true.

Lemma demo_run : serial_run ReconnectPolicy_default (listen ReconnectPolicy_default here) s5.
Proof.
  eapply sr_step; [|apply st_internal, (in_read _ true hello l5 s4); reflexivity].
  eapply sr_step; [|apply st_internal, (in_read _ true PduHeartbeat (writer_turn true l2) s3); reflexivity].
  eapply sr_step; [|apply st_internal, (in_write _ true l2 s2); [reflexivity|reflexivity|discriminate]].
  eapply sr_step; [|exact (st_send _ PduHeartbeat s1)].
  eapply sr_step; [apply sr_start|]. apply st_internal, in_opened. reflexivity.
Defined.

(** The comments say that the first [Associate] fixes the attribution; a second one that names
    another peer changes it. *)
Lemma later_associate_changes_attribution :
  (stamped (Some here) None [hello; PduAssociate (mkAssociateInfo here 2 None 1); PduHeartbeat]).1.*1 =
    [there; here; here].
Proof. reflexivity. Qed.

Lemma serial_link_ordered_witness : l_delivered l6 `prefix_of` [(here, PduHeartbeat); (there, hello)].
Proof.
  destruct (serial_link_ordered ReconnectPolicy_default here s5 l6 demo_run ltac:(reflexivity))
    as (_ & _ & _ & _ & _ & _ & Hone).
  refine (Hone there [PduHeartbeat] hello [] _ _ _ _); [reflexivity| |reflexivity|by constructor].
  by repeat constructor.
Defined.
End SerialDemo.
