(* ===== verification/DocumentStores.v ===== *)
(** * Document and table stores
    ([crates/atomr-persistence-mongodb/src/journal.rs], [documents.rs], [snapshot.rs],
    [crates/atomr-persistence-azure/src/journal.rs], [entities.rs], [rest.rs], [snapshot.rs], and the
    snapshot stores of the Cassandra, DynamoDB and Redis crates)

    A store is a class with one operation per request of the code; [Mongo] has the laws of its
    requests and a journal that is shown to keep one stream per persistence id. *)

From stdpp Require Import gmap strings list sorting.
From Stdlib Require Import NArith ZArith Lia Sorted.
From S2P Require Import Prelude Encoding Journal SqlJournal SqlFacts StoreJournals.

(** ** MongoDB *)

Module Mongo.

Record EventDoc := mkEventDoc {
  ed_pid : string;
  ed_seq : Z;
  ed_payload : Bytes;
  ed_manifest : string;
  ed_writer : string;
  ed_deleted : bool;
  ed_tags : list string;
  ed_created : Z;
}.

Definition from_repr (r : PersistentRepr) (created_at : Z) : EventDoc :=
  mkEventDoc (persistence_id r) (u64_as_i64 (sequence_nr r)) (payload r) (manifest r) (writer_uuid r) (deleted r)
    (tags r) created_at.
Definition into_repr (d : EventDoc) : PersistentRepr :=
  mkPersistentRepr (ed_pid d) (i64_as_u64 (ed_seq d)) (ed_payload d) (ed_manifest d) (ed_writer d) (ed_deleted d)
    (ed_tags d).

(** The requests; [insert_many] is ordered and keeps what it inserted before an error, a limit
    of zero is no limit. *)
Class MongoDb (D : Type) := {
  find_last : string → D → string + option EventDoc;
  insert_many : list EventDoc → D → D * (string + unit);
  set_deleted : string → Z → D → string + D;
  find_range : string → Z → Z → Z → D → string + list EventDoc;
  find_tag : string → Z → Z → D → string + list EventDoc;
}.

Section journal.
Context {D : Type} `{MongoDb D}.
Variable now_millis : Z.

Definition mongo_current_max (pid : string) (d : D) : JournalError + Z :=
  let? v := backend (find_last pid d) in inr (match v with Some doc => ed_seq doc | None => 0%Z end).

(** The loop that checks the numbers of a batch and collects its documents. *)
Fixpoint collect_docs (expected : N) (batch : list PersistentRepr) : JournalError + list EventDoc :=
  match batch with
  | [] => inr []
  | msg :: rest =>
      if negb (sequence_nr msg =? expected)%N
      then inl (SequenceOutOfOrder expected (sequence_nr msg))
      else let? docs := collect_docs (u64_add expected 1) rest in inr (from_repr msg now_millis :: docs)
  end.

Fixpoint mongo_write_batches (bs : list (string * list PersistentRepr)) (d : D) : D * (JournalError + unit) :=
  match bs with
  | [] => (d, inr tt)
  | (pid, batch) :: rest =>
      match mongo_current_max pid d with
      | inl e => (d, inl e)
      | inr v =>
          match collect_docs (u64_add (i64_as_u64 v) 1) batch with
          | inl e => (d, inl e)
          | inr docs =>
              match insert_many docs d with
              | (d', inl e) => (d', inl (JournalBackend e))
              | (d', inr _) => mongo_write_batches rest d'
              end
          end
      end
  end.

Definition mongo_write_messages (ms : list PersistentRepr) (d : D) : D * (JournalError + unit) :=
  match ms with [] => (d, inr tt) | _ => mongo_write_batches (batches ms) d end.

Definition mongo_delete_messages_to (pid : string) (to : N) (d : D) : D * (JournalError + unit) :=
  match backend (set_deleted pid (u64_as_i64 to) d) with
  | inl e => (d, inl e)
  | inr d' => (d', inr tt)
  end.

Definition mongo_replay_messages (pid : string) (from to max : N) (d : D) : JournalError + list PersistentRepr :=
  if (max =? 0)%N then inr []
  else let? docs := backend (find_range pid (u64_as_i64 from) (clamp_i64 to) (clamp_i64 max) d) in
       inr (into_repr <$> docs).

Definition mongo_highest_sequence_nr (pid : string) (d : D) : JournalError + N :=
  let? v := mongo_current_max pid d in inr (i64_as_u64 v).

Definition mongo_events_by_tag (tag : string) (from max : N) (d : D) : JournalError + list PersistentRepr :=
  if (max =? 0)%N then inr []
  else let? docs := backend (find_tag tag (u64_as_i64 from) (clamp_i64 max) d) in inr (into_repr <$> docs).
End journal.

(** *** What the requests do *)

Definition mark_doc (to : Z) (d : EventDoc) : EventDoc :=
  if (ed_seq d <=? to)%Z
  then mkEventDoc (ed_pid d) (ed_seq d) (ed_payload d) (ed_manifest d) (ed_writer d) true (ed_tags d) (ed_created d)
  else d.
Definition doc_between (from to : Z) (d : EventDoc) : Prop :=
  (from ≤ ed_seq d ≤ to)%Z ∧ ed_deleted d = false.
#[export] Instance doc_between_dec from to d : Decision (doc_between from to d) := _.
Definition ascending : list EventDoc → Prop := StronglySorted (λ a b, (ed_seq a < ed_seq b)%Z).

(** The documents of an id in the order of their numbers, which the index keeps unique. *)
Class MongoLaws (D : Type) `{MongoDb D} := {
  docs_of : D → string → list EventDoc;
  mongo_up : D → Prop;
  law_last pid d v : find_last pid d = inr v → v = last (docs_of d pid);
  law_insert_many pid ds d d' :
    insert_many ds d = (d', inr tt) → Forall (λ e, ed_pid e = pid) ds → ascending (docs_of d pid ++ ds) →
    docs_of d' pid = docs_of d pid ++ ds ∧ ∀ q, q ≠ pid → docs_of d' q = docs_of d q;
  law_set_deleted pid to d d' : set_deleted pid to d = inr d' →
    ∀ q, docs_of d' q = if decide (q = pid) then mark_doc to <$> docs_of d q else docs_of d q;
  law_find_range pid from to lim d l : find_range pid from to lim d = inr l → (0 < lim)%Z →
    l = take (Z.to_nat lim) (filter (doc_between from to) (docs_of d pid));
  up_last pid d : mongo_up d → ∃ v, find_last pid d = inr v;
  up_insert_many pid ds d :
    mongo_up d → Forall (λ e, ed_pid e = pid) ds → ascending (docs_of d pid ++ ds) →
    ∃ d', insert_many ds d = (d', inr tt) ∧ mongo_up d';
  up_set_deleted pid to d : mongo_up d → ∃ d', set_deleted pid to d = inr d' ∧ mongo_up d';
  up_find_range pid from to lim d : mongo_up d → ∃ l, find_range pid from to lim d = inr l;
}.
End Mongo.

Module MongoFacts.
Import Mongo.

Lemma batches_one pid ms : ms ≠ [] → Forall (λ m, persistence_id m = pid) ms → batches ms = [(pid, ms)].
Proof.
  intros Hne Hp. assert (by_pid ms = {[pid := ms]}) as E.
  { apply map_eq. intros q. rewrite by_pid_lookup, lookup_singleton. unfold batch_of. case_decide as Hq; [subst q|].
    - rewrite filter_all by done. by destruct ms.
    - rewrite filter_none; [done|]. intros m Hm. eapply Forall_forall in Hp; [|exact Hm]. congruence. }
  pose proof (batches_perm ms) as Hb. rewrite E, map_to_list_singleton in Hb. by apply Permutation_singleton_r in Hb.
Qed.

Section facts.
Context {D : Type} `{HL : MongoLaws D}.
Variable now_millis : Z.
Implicit Types d : D.

(** The documents of an id are the records of its stream, numbered without gaps. *)
Definition in_order (n : nat) (docs : list EventDoc) : Prop :=
  ∀ i doc, docs !! i = Some doc → ed_seq doc = (Z.of_nat (n + i) + 1)%Z.
Record mongo_stream (d : D) (q : string) (l : list PersistentRepr) : Prop := {
  ms_docs : into_repr <$> docs_of d q = l;
  ms_order : in_order 0 (docs_of d q);
}.
Definition mongo_rel (d : D) (S : Streams) : Prop := ∀ q, mongo_stream d q (S q).

Lemma in_order_app n a b : in_order n (a ++ b) ↔ in_order n a ∧ in_order (n + length a) b.
Proof.
  split.
  - intros Hn. split; intros i m Hi.
    + apply Hn. by apply lookup_app_l_Some.
    + rewrite (Hn (length a + i) m); [lia|]. rewrite lookup_app_r by lia.
      by replace (length a + i - length a) with i by lia.
  - intros [Ha Hb] i m Hi. apply lookup_app_Some in Hi as [Hi|[Hl Hi]]; [by apply Ha|].
    rewrite (Hb _ _ Hi). lia.
Qed.

Lemma in_order_ascending n docs : in_order n docs → ascending docs.
Proof.
  revert n. induction docs as [|x docs IH]; intros n Hn; [constructor|].
  apply (in_order_app n [x]) in Hn as [Hx Hd]. constructor; [by eapply IH|].
  apply Forall_forall. intros y [i Hi]%list_elem_of_lookup. rewrite (Hx 0 x) by done. rewrite (Hd _ _ Hi). cbn. lia.
Qed.

Lemma mongo_stream_length d q l : mongo_stream d q l → length (docs_of d q) = length l.
Proof. intros [<- _]. by rewrite length_fmap. Qed.

Lemma mongo_max_ok d q l :
  mongo_up d → mongo_stream d q l → mongo_current_max q d = inr (Z.of_nat (length l)).
Proof.
  intros Hup Hs. unfold mongo_current_max. destruct (up_last q d Hup) as [v Ev]. rewrite Ev. cbn [backend].
  apply law_last in Ev as ->. rewrite <- (mongo_stream_length _ _ _ Hs). destruct Hs as [_ Ho].
  destruct (docs_of d q) as [|x docs _] using rev_ind; [done|]. rewrite last_snoc.
  rewrite (Ho (length docs) x) by by apply list_lookup_middle. rewrite length_app. cbn. f_equal. lia.
Qed.

Lemma collect_docs_ok expected n batch :
  numbered_after n batch → expected = (N.of_nat n + 1)%N → n + length batch < stream_limit →
  collect_docs now_millis expected batch = inr ((λ m, from_repr m now_millis) <$> batch).
Proof.
  revert expected n. induction batch as [|m batch IH]; intros expected n Hn He Hlim; [done|].
  apply numbered_after_cons in Hn as [Hm Hn]. cbn [collect_docs length] in *. rewrite Hm, He, N.eqb_refl. cbn [negb].
  rewrite (IH _ (S n)); [done|done| |lia]. rewrite u64_add_small; [lia|]. unfold stream_limit, u64_modulus in *. lia.
Qed.

Lemma collect_docs_refused expected n batch :
  ¬ numbered_after n batch → expected = (N.of_nat n + 1)%N → n + length batch < stream_limit →
  ∃ e g, collect_docs now_millis expected batch = inl (SequenceOutOfOrder e g).
Proof.
  revert expected n. induction batch as [|m batch IH]; intros expected n Hn He Hlim; [by destruct Hn|].
  rewrite numbered_after_cons in Hn. cbn [collect_docs length] in *.
  destruct (N.eqb_spec (sequence_nr m) expected) as [Hm|]; cbn [negb]; [|by eauto].
  destruct (IH (u64_add expected 1) (S n)) as (e & g & ->); [|..|by eauto].
  - intros Hb. apply Hn. split; [congruence|done].
  - rewrite u64_add_small; [lia|]. unfold stream_limit, u64_modulus in *. lia.
  - lia.
Qed.

Lemma from_repr_order n batch :
  numbered_after n batch → n + length batch < stream_limit →
  in_order n ((λ m, from_repr m now_millis) <$> batch) ∧
  into_repr <$> ((λ m, from_repr m now_millis) <$> batch) = batch.
Proof.
  intros Hn Hlim. assert (∀ i m, batch !! i = Some m → (sequence_nr m < 2 ^ 63)%N) as Hsmall.
  { intros i m Hi. rewrite (Hn _ _ Hi). apply lookup_lt_Some in Hi. unfold stream_limit in *. lia. }
  split.
  - intros i doc Hi. rewrite list_lookup_fmap in Hi. apply fmap_Some in Hi as (m & Hi & ->). cbn.
    rewrite u64_as_i64_small by by eapply Hsmall. rewrite (Hn _ _ Hi). lia.
  - rewrite <- list_fmap_compose. rewrite <- (list_fmap_id batch) at 2. apply list_fmap_ext. intros i m Hi. cbn.
    unfold into_repr, from_repr. cbn. rewrite u64_i64_u64; [by destruct m|].
    pose proof (Hsmall _ _ Hi). unfold u64_modulus. lia.
Qed.

Lemma mongo_write_batches_ok bs S d :
  mongo_up d → mongo_rel d S → batch_wf bs →
  (∀ q, length (S q) + length (added q bs) < stream_limit) → (∀ q, numbered_after (length (S q)) (added q bs)) →
  ∃ d', mongo_write_batches now_millis bs d = (d', inr tt) ∧ mongo_up d' ∧ mongo_rel d' (λ q, S q ++ added q bs).
Proof.
  intros Hup HS Hwf; revert S d Hup HS.
  induction Hwf as [|[p b] bs Hb Hwf IH]; intros S d Hup HS Hlim Hnum; cbn [mongo_write_batches added] in *.
  { exists d. split_and!; [done..|]. intros q. rewrite app_nil_r. apply HS. }
  pose proof (Hlim p) as Hp. pose proof (Hnum p) as Hnp. rewrite decide_True, length_app in Hp by done.
  rewrite decide_True in Hnp by done. apply numbered_after_app in Hnp as [Hnp _].
  rewrite (mongo_max_ok d p (S p)) by (done || apply HS).
  rewrite i64_as_u64_small by (unfold stream_limit in *; lia).
  rewrite u64_add_small by (unfold stream_limit, u64_modulus in *; lia).
  rewrite (collect_docs_ok _ (length (S p))) by (done || lia).
  destruct (from_repr_order (length (S p)) b Hnp ltac:(lia)) as [Ho Hi].
  set (docs := (λ m, from_repr m now_millis) <$> b) in *.
  assert (Forall (λ e, ed_pid e = p) docs) as Hpid by (unfold docs; by rewrite Forall_fmap).
  assert (in_order 0 (docs_of d p ++ docs)) as Hord.
  { apply in_order_app. split; [apply HS|]. cbn. by rewrite (mongo_stream_length _ _ _ (HS p)). }
  pose proof (in_order_ascending _ _ Hord) as Hasc.
  destruct (up_insert_many p docs d Hup Hpid Hasc) as (d1 & E1 & Hup1). rewrite E1.
  destruct (law_insert_many p docs d d1 E1 Hpid Hasc) as [Hd1 Ho1].
  destruct (IH (λ q, S q ++ (if decide (q = p) then b else [])) d1 Hup1) as (d' & E' & Hup' & Hr').
  - intros q. destruct (decide (q = p)) as [->|Hq].
    + split; rewrite Hd1; [|done]. by rewrite fmap_app, Hi, (ms_docs _ _ _ (HS p)).
    + rewrite app_nil_r. destruct (HS q) as [Hq1 Hq2]. by split; rewrite Ho1.
  - intros q. specialize (Hlim q). rewrite !length_app in *. lia.
  - intros q. specialize (Hnum q). apply numbered_after_app in Hnum as [_ Hnum]. by rewrite length_app.
  - exists d'. split_and!; [done..|]. intros q. specialize (Hr' q). cbn in Hr'. by rewrite (assoc_L app).
Qed.

Lemma mark_doc_repr to doc :
  (0 ≤ ed_seq doc < 2 ^ 63)%Z → into_repr (mark_doc (Z.of_N to) doc) = mark_deleted to (into_repr doc).
Proof.
  intros Hs. unfold mark_doc, mark_deleted. change (sequence_nr (into_repr doc)) with (i64_as_u64 (ed_seq doc)).
  rewrite i64_as_u64_small by done.
  destruct (Z.leb_spec (ed_seq doc) (Z.of_N to)), (N.leb_spec (Z.to_N (ed_seq doc)) to); try lia; [|done].
  unfold into_repr. cbn. by rewrite i64_as_u64_small.
Qed.

Lemma stream_doc_range d q l doc :
  mongo_stream d q l → length l < stream_limit → doc ∈ docs_of d q → (0 < ed_seq doc < 2 ^ 63 - 1)%Z.
Proof.
  intros Hs Hl [i Hi]%list_elem_of_lookup. rewrite (ms_order _ _ _ Hs _ _ Hi). apply lookup_lt_Some in Hi.
  rewrite (mongo_stream_length _ _ _ Hs) in Hi. unfold stream_limit in Hl. lia.
Qed.

Lemma mongo_delete_ok d S pid to :
  mongo_up d → mongo_rel d S → (∀ q, length (S q) < stream_limit) → (to < 2 ^ 63)%N →
  ∃ d', mongo_delete_messages_to pid to d = (d', inr tt) ∧ mongo_up d' ∧ mongo_rel d' (spec_op (SqlDelete pid to) S).
Proof.
  intros Hup HS Hlim Hto. unfold mongo_delete_messages_to. rewrite u64_as_i64_small by done.
  destruct (up_set_deleted pid (Z.of_N to) d Hup) as (d' & E & Hup'). rewrite E. cbn [backend].
  exists d'. split_and!; [done..|]. intros q. pose proof (law_set_deleted _ _ _ _ E q) as Hq. cbn.
  destruct (decide (q = pid)) as [->|Hne].
  - split; rewrite Hq.
    + rewrite <- (ms_docs _ _ _ (HS pid)), <- !list_fmap_compose. apply list_fmap_ext. intros i doc Hi. cbn.
      apply mark_doc_repr. pose proof (stream_doc_range _ _ _ doc (HS pid) (Hlim pid)) as Hr.
      assert (doc ∈ docs_of d pid) as Hin by by eapply list_elem_of_lookup_2. specialize (Hr Hin). lia.
    + intros i doc Hi. rewrite list_lookup_fmap in Hi. apply fmap_Some in Hi as (doc' & Hi & ->).
      rewrite <- (ms_order _ _ _ (HS pid) _ _ Hi). unfold mark_doc. by case_match.
  - destruct (HS q) as [H1 H2]. by split; rewrite Hq.
Qed.

Lemma filter_into_repr from to docs :
  Forall (λ e, (0 < ed_seq e < 2 ^ 63 - 1)%Z) docs → (from < 2 ^ 63)%N →
  into_repr <$> filter (doc_between (Z.of_N from) (clamp_i64 to)) docs = filter (replayable from to) (into_repr <$> docs).
Proof.
  intros Hr Hf. induction Hr as [|x docs Hx _ IH]; [done|]. rewrite fmap_cons, !filter_cons.
  assert (doc_between (Z.of_N from) (clamp_i64 to) x ↔ replayable from to (into_repr x)) as Hiff.
  { unfold doc_between, replayable, into_repr. cbn. rewrite i64_as_u64_small, clamp_i64_spec by lia.
    unfold i64_max. split; [intros [[? ?] ?]|intros (? & ? & ?)]; split_and!; try done; lia. }
  destruct (decide (doc_between _ _ x)) as [Hd|Hd], (decide (replayable _ _ (into_repr x))) as [Hp|Hp];
    [by rewrite fmap_cons, IH|tauto|tauto|done].
Qed.

Lemma mongo_replay_ok d q l from to max :
  mongo_up d → mongo_stream d q l → length l < stream_limit → (from < 2 ^ 63)%N →
  mongo_replay_messages q from to max d = inr (take_N max (filter (replayable from to) l)).
Proof.
  intros Hup Hs Hl Hf. unfold mongo_replay_messages. rewrite take_N_take.
  destruct (N.eqb_spec max 0) as [->|Hm]; [done|]. rewrite (u64_as_i64_small from) by done.
  destruct (up_find_range q (Z.of_N from) (clamp_i64 to) (clamp_i64 max) d Hup) as [docs Ed]. rewrite Ed. cbn [backend].
  apply law_find_range in Ed as ->; [|rewrite clamp_i64_spec; unfold i64_max; lia].
  assert (Forall (λ e, (0 < ed_seq e < 2 ^ 63 - 1)%Z) (docs_of d q)) as Hr
    by (apply Forall_forall; intros doc Hin; by eapply stream_doc_range).
  rewrite fmap_take, (filter_into_repr from to _ Hr Hf), (ms_docs _ _ _ Hs). f_equal.
  rewrite clamp_i64_spec. destruct (Z.le_gt_cases (Z.of_N max) i64_max) as [Hle|Hgt].
  - rewrite Z.min_l by done. f_equal. lia.
  - pose proof (length_filter (replayable from to) l) as Hfl. unfold i64_max, stream_limit in *.
    rewrite !take_ge; [done|lia|lia].
Qed.
End facts.
End MongoFacts.

(** On a MongoDB that answers, the journal keeps one stream per persistence id: the highest
    number is the number of records; a write that continues its streams appends it, and one that
    does not is refused with the out-of-order error; a deletion marks the records up to its bound;
    and a replay returns the records of the range that are not deleted, up to the limit. *)
Theorem mongo_journal_streams {D} `{Mongo.MongoLaws D} now (d : D) S :
  Mongo.mongo_up d → MongoFacts.mongo_rel d S → (∀ q, length (S q) < stream_limit) →
  (∀ pid, Mongo.mongo_highest_sequence_nr pid d = inr (N.of_nat (length (S pid)))) ∧
  (∀ ms, accepts S ms → (∀ q, length (S q) + length ms < stream_limit) →
     ∃ d', Mongo.mongo_write_messages now ms d = (d', inr tt) ∧ Mongo.mongo_up d' ∧
       MongoFacts.mongo_rel d' (λ q, S q ++ batch_of q ms)) ∧
  (∀ pid ms, ms ≠ [] → Forall (λ m, persistence_id m = pid) ms → ¬ numbered_after (length (S pid)) ms →
     length (S pid) + length ms < stream_limit →
     ∃ e g, Mongo.mongo_write_messages now ms d = (d, inl (SequenceOutOfOrder e g))) ∧
  (∀ pid to, (to < 2 ^ 63)%N →
     ∃ d', Mongo.mongo_delete_messages_to pid to d = (d', inr tt) ∧ Mongo.mongo_up d' ∧
       MongoFacts.mongo_rel d' (spec_op (SqlDelete pid to) S)) ∧
  (∀ pid from to max, (from < 2 ^ 63)%N →
     Mongo.mongo_replay_messages pid from to max d = inr (take_N max (filter (replayable from to) (S pid)))).
Proof.
  intros Hup HS Hlim. split_and!.
  - intros pid. unfold Mongo.mongo_highest_sequence_nr. rewrite (MongoFacts.mongo_max_ok d pid (S pid)) by (done || apply HS).
    rewrite i64_as_u64_small by (specialize (Hlim pid); unfold stream_limit in *; lia). f_equal. lia.
  - intros ms Ha Hl. unfold Mongo.mongo_write_messages. destruct ms as [|m ms].
    { exists d. split_and!; [done..|]. intros q. rewrite app_nil_r. apply HS. }
    destruct (MongoFacts.mongo_write_batches_ok now (batches (m :: ms)) S d Hup HS (batches_wf _)) as (d' & E & Hup' & Hr).
    + intros q. rewrite added_batches. pose proof (batch_of_length q (m :: ms)). specialize (Hl q). lia.
    + intros q. rewrite added_batches. apply Ha.
    + exists d'. split_and!; [done..|]. intros q. specialize (Hr q). cbn in Hr. by rewrite added_batches in Hr.
  - intros pid ms Hne Hp Hn Hl. unfold Mongo.mongo_write_messages.
    destruct (MongoFacts.collect_docs_refused now (N.of_nat (length (S pid)) + 1) (length (S pid)) ms) as (e & g & E); [done..|].
    exists e, g. replace (match ms with [] => _ | _ => _ end) with (Mongo.mongo_write_batches now (batches ms) d) by by destruct ms.
    rewrite (MongoFacts.batches_one pid) by done. cbn [Mongo.mongo_write_batches].
    rewrite (MongoFacts.mongo_max_ok d pid (S pid)) by (done || apply HS).
    rewrite i64_as_u64_small, u64_add_small by (unfold stream_limit, u64_modulus in *; lia).
    replace (Z.to_N (Z.of_nat (length (S pid))) + 1)%N with (N.of_nat (length (S pid)) + 1)%N by lia. by rewrite E.
  - intros pid to Hto. by apply MongoFacts.mongo_delete_ok.
  - intros pid from to max Hf. by apply MongoFacts.mongo_replay_ok.
Qed.

(** *** A collection of lists *)

Module MongoTable.
Import Mongo.
Record Coll := mkColl { coll : gmap string (list EventDoc) }.
Definition coll_docs (c : Coll) (q : string) : list EventDoc := default [] (coll c !! q).

Fixpoint insert_doc (d : EventDoc) (l : list EventDoc) : list EventDoc :=
  match l with
  | [] => [d]
  | x :: l' => if (ed_seq d <? ed_seq x)%Z then d :: l else x :: insert_doc d l'
  end.
Definition put_doc (d : EventDoc) (c : Coll) : Coll :=
  mkColl (<[ed_pid d := insert_doc d (coll_docs c (ed_pid d))]> (coll c)).

Fixpoint insert_docs (ds : list EventDoc) (c : Coll) : Coll * (string + unit) :=
  match ds with
  | [] => (c, inr tt)
  | d :: ds =>
      if decide (ed_seq d ∈ (ed_seq <$> coll_docs c (ed_pid d))) then (c, inl "E11000 duplicate key error")
      else insert_docs ds (put_doc d c)
  end.

Definition tag_docs (tag : string) (from : Z) (c : Coll) : list EventDoc :=
  filter (λ d, (from ≤ ed_seq d)%Z ∧ ed_deleted d = false ∧ tag ∈ ed_tags d) ((map_to_list (coll c)).*2 ≫= id).
Definition doc_le : relation EventDoc := λ a b,
  String.le (ed_pid a) (ed_pid b) ∧ (ed_pid a = ed_pid b → (ed_seq a ≤ ed_seq b)%Z).
#[export] Instance doc_le_dec : RelDecision doc_le := λ a b, _.

#[export] Instance Coll_Db : MongoDb Coll := {
  find_last pid c := inr (last (coll_docs c pid));
  insert_many := insert_docs;
  set_deleted pid to c := inr (mkColl (<[pid := mark_doc to <$> coll_docs c pid]> (coll c)));
  find_range pid from to lim c :=
    let l := filter (doc_between from to) (coll_docs c pid) in
    inr (if (lim =? 0)%Z then l else take_N (Z.to_N lim) l);
  find_tag tag from lim c := inr (take_N (Z.to_N lim) (merge_sort doc_le (tag_docs tag from c)));
}.

Lemma coll_docs_insert c pid l q :
  coll_docs (mkColl (<[pid := l]> (coll c))) q = if decide (q = pid) then l else coll_docs c q.
Proof.
  unfold coll_docs. cbn. case_decide as Hq; [subst q; by rewrite lookup_insert_eq|by rewrite lookup_insert_ne].
Qed.

Lemma insert_doc_last d l : Forall (λ x, (ed_seq x < ed_seq d)%Z) l → insert_doc d l = l ++ [d].
Proof. induction 1 as [|x l Hx _ IH]; [done|]. cbn. rewrite (proj2 (Z.ltb_ge _ _)) by lia. by rewrite IH. Qed.

Lemma insert_docs_ok pid ds c :
  Forall (λ e, ed_pid e = pid) ds → ascending (coll_docs c pid ++ ds) →
  ∃ c', insert_docs ds c = (c', inr tt) ∧ coll_docs c' pid = coll_docs c pid ++ ds ∧
    ∀ q, q ≠ pid → coll_docs c' q = coll_docs c q.
Proof.
  intros Hp. revert c. induction Hp as [|d ds Hd Hp IH]; intros c Hasc; cbn [insert_docs].
  { exists c. by rewrite app_nil_r. }
  assert (Forall (λ x, (ed_seq x < ed_seq d)%Z) (coll_docs c pid)) as Hlt.
  { apply Forall_forall. intros x Hx. unfold ascending in Hasc.
    apply (StronglySorted_app_1_elem_of _ _ _ x d Hasc Hx). by left. }
  rewrite Hd. rewrite decide_False.
  2:{ intros (x & Hx & Hin)%list_elem_of_fmap. eapply Forall_forall in Hlt; [|exact Hin]. cbn in Hlt. lia. }
  destruct (IH (put_doc d c)) as (c' & E & Hc & Ho).
  - unfold put_doc. rewrite coll_docs_insert, Hd, decide_True, insert_doc_last by done. by rewrite <- (assoc_L app).
  - exists c'. split; [done|]. unfold put_doc in Hc, Ho. rewrite coll_docs_insert, Hd, decide_True, insert_doc_last in Hc by done.
    split; [by rewrite Hc, <- (assoc_L app)|]. intros q Hq. rewrite Ho by done. by rewrite coll_docs_insert, Hd, decide_False.
Qed.

#[export] Program Instance Coll_Laws : MongoLaws Coll := {
  docs_of := coll_docs;
  mongo_up _ := True;
}.
Solve All Obligations with (cbn; intros; simplify_eq; eauto).
Next Obligation.
  cbn. intros pid ds c c' E Hp Hasc. destruct (insert_docs_ok pid ds c Hp Hasc) as (c1 & E1 & H1 & H2). rewrite E in E1. by injection E1 as <-.
Qed.
Next Obligation.
  cbn. intros pid to c c' E q. injection E as <-. rewrite coll_docs_insert. by case_decide as Hq; [subst|].
Qed.
Next Obligation.
  cbn. intros pid from to lim c l E Hl. injection E as <-. rewrite (proj2 (Z.eqb_neq _ _)) by lia.
  by rewrite take_N_take, Z_N_nat.
Qed.
Next Obligation.
  cbn. intros pid ds c _ Hp Hasc. destruct (insert_docs_ok pid ds c Hp Hasc) as (c1 & E1 & _). by exists c1.
Qed.

Definition empty_coll : Coll := mkColl ∅.
Definition mmsg (nr : N) : PersistentRepr := mkPersistentRepr "p" nr [Byte.x61] "m" "w" false ["t"].

Lemma empty_coll_rel : MongoFacts.mongo_rel empty_coll (λ _, []).
Proof. intros q. split; [done|]. by intros i doc. Qed.

Lemma mongo_journal_streams_witness :
  ∃ d', mongo_write_messages 0 [mmsg 1; mmsg 2] empty_coll = (d', inr tt) ∧ mongo_up d' ∧
    MongoFacts.mongo_rel d' (λ q, batch_of q [mmsg 1; mmsg 2]).
Proof.
  refine (proj1 (proj2 (mongo_journal_streams 0 empty_coll (λ _, []) _ _ _)) [mmsg 1; mmsg 2] _ _).
  - exact I.
  - exact empty_coll_rel.
  - intros q. unfold stream_limit. cbn. lia.
  - intros q. unfold batch_of. rewrite !filter_cons. cbn [persistence_id mmsg].
    destruct (decide ("p" = q)); [|by intros i m]. intros [|[|i]] m Hm; cbn in Hm; simplify_eq; reflexivity.
  - intros q. unfold stream_limit. cbn. lia.
Defined.

(** The bound of a deletion is cast: up to [u64::MAX] nothing is deleted; and a replay from a
    number beyond the range of the column starts at the beginning. *)
Example mongo_casts :
  let d := (mongo_write_messages 0 [mmsg 1; mmsg 2] empty_coll).1 in
  mongo_replay_messages "p" 1 u64_max u64_max (mongo_delete_messages_to "p" u64_max d).1 = inr [mmsg 1; mmsg 2] ∧
  mongo_replay_messages "p" u64_max u64_max 10 d = inr [mmsg 1; mmsg 2].
Proof. vm_compute. done. Qed.
End MongoTable.
