(* ===== verification/AzureTables.v ===== *)
(** * Azure tables
    ([crates/atomr-persistence-azure/src/rest.rs], [entities.rs], [journal.rs])

    The client sends its conditions as text: filters in which a string is quoted with its
    quotes doubled, percent-encoded into the URL, and keys that name an entity.  The reader of
    such a text ([read_literal], [url_decode]) is the documented grammar of the service; the
    encodings of the code are proved to be read back.  The journal is a client of requests on
    these texts. *)

From stdpp Require Import gmap strings list sorting.
From Stdlib Require Import Ascii NArith ZArith Lia.
From S2P Require Import Prelude Address Encoding Journal Config RemoteSystem SqlJournal SqlFacts StoreJournals.
Import DynamoKeys.

(** ** Texts *)

Definition quote : ascii := "'".

(** [pid.replace('\'', "''")]: a quote becomes two. *)
Fixpoint escape_pk (pid : string) : string :=
  match pid with
  | EmptyString => EmptyString
  | String c s => if Ascii.eqb c quote then String quote (String quote (escape_pk s)) else String c (escape_pk s)
  end.

Definition partition_filter (pk : string) : string := "PartitionKey eq '" +:+ pk +:+ "'".

Definition safe_char (n : N) : bool :=
  ((65 <=? n) && (n <=? 90) || (97 <=? n) && (n <=? 122) || (48 <=? n) && (n <=? 57) || (n =? 45) || (n =? 95) ||
   (n =? 46) || (n =? 126))%N.
Definition hex_digit (n : N) : ascii := ascii_of_N (if (n <? 10)%N then 48 + n else 55 + n).

Fixpoint urlencoding (s : string) : string :=
  match s with
  | EmptyString => EmptyString
  | String c s =>
      let n := N_of_ascii c in
      (if safe_char n then String c EmptyString
       else if (n =? 32)%N then "%20"
       else String "%" (String (hex_digit (n / 16)) (String (hex_digit (n mod 16)) EmptyString))) +:+ urlencoding s
  end.

(** *** How they are read *)

Definition hex_value (c : ascii) : option N :=
  let n := N_of_ascii c in
  if (48 <=? n)%N && (n <=? 57)%N then Some (n - 48)%N
  else if (65 <=? n)%N && (n <=? 70)%N then Some (n - 55)%N
  else None.

Fixpoint url_decode (s : string) : option string :=
  match s with
  | EmptyString => Some EmptyString
  | String c rest =>
      if Ascii.eqb c "%" then
        match rest with
        | String h (String l rest) =>
            h ← hex_value h; l ← hex_value l; r ← url_decode rest; Some (String (ascii_of_N (16 * h + l)) r)
        | _ => None
        end
      else r ← url_decode rest; Some (String c r)
  end.

(** A string literal behind its opening quote: the value and what follows the closing one. *)
Fixpoint read_literal (s : string) : option (string * string) :=
  match s with
  | EmptyString => None
  | String c rest =>
      if Ascii.eqb c quote then
        match rest with
        | String c' rest' =>
            if Ascii.eqb c' quote then (λ vr, (String quote vr.1, vr.2)) <$> read_literal rest' else Some (EmptyString, rest)
        | EmptyString => Some (EmptyString, EmptyString)
        end
      else (λ vr, (String c vr.1, vr.2)) <$> read_literal rest
  end.

Definition no_quote (rest : string) : Prop := match rest with String c _ => c ≠ quote | EmptyString => True end.

#[local] Arguments Ascii.eqb : simpl never.

Lemma read_escaped pid rest :
  no_quote rest → read_literal (escape_pk pid +:+ String quote rest) = Some (pid, rest).
Proof.
  intros Hr. assert (∀ c s t, String c s +:+ t = String c (s +:+ t)) as Happ by done.
  induction pid as [|c pid IH]; cbn [escape_pk].
  - change (EmptyString +:+ String quote rest) with (String quote rest). cbn. rewrite Ascii.eqb_refl.
    destruct rest as [|c' rest]; [done|]. by rewrite (proj2 (Ascii.eqb_neq _ _)).
  - destruct (Ascii.eqb_spec c quote) as [->|Hc]; rewrite !Happ; cbn.
    + by rewrite Ascii.eqb_refl, IH.
    + rewrite (proj2 (Ascii.eqb_neq _ _)) by done. by rewrite IH.
Qed.

Lemma all_ascii (P : ascii → Prop) : (∀ b0 b1 b2 b3 b4 b5 b6 b7, P (Ascii b0 b1 b2 b3 b4 b5 b6 b7)) → ∀ c, P c.
Proof. intros HP [b0 b1 b2 b3 b4 b5 b6 b7]. apply HP. Qed.

Lemma url_decode_char c s :
  url_decode ((if safe_char (N_of_ascii c) then String c EmptyString
     else if (N_of_ascii c =? 32)%N then "%20"
     else String "%" (String (hex_digit (N_of_ascii c / 16)) (String (hex_digit (N_of_ascii c mod 16)) EmptyString))) +:+ s) =
    r ← url_decode s; Some (String c r).
Proof. revert c. apply all_ascii. intros [] [] [] [] [] [] [] []; reflexivity. Qed.

Lemma url_decode_encode s : url_decode (urlencoding s) = Some s.
Proof. induction s as [|c s IH]; [done|]. cbn [urlencoding]. by rewrite url_decode_char, IH. Qed.

(** ** Entities *)

Record EventEntity := mkEventEntity {
  ee_partition_key : string;
  ee_row_key : string;
  ee_sequence_nr : Z;
  ee_payload_b64 : string;
  ee_manifest : string;
  ee_writer_uuid : string;
  ee_deleted : bool;
  ee_tags_csv : string;
}.

(** [tags.join(",")]. *)
Fixpoint join_comma (ts : list string) : string :=
  match ts with
  | [] => EmptyString
  | [t] => t
  | t :: ts' => t +:+ String "," (join_comma ts')
  end.

(** [i64] printed in decimal. *)
Definition int_to_string (z : Z) : string :=
  if (z <? 0)%Z then String "-" (uint_to_string (Z.to_N (- z))) else uint_to_string (Z.to_N z).

Section azure.
(** The base64 engine of the library. *)
Variable b64_encode : Bytes → string.
Variable b64_decode : string → option Bytes.

Definition entity_from_repr (r : PersistentRepr) : EventEntity :=
  mkEventEntity (persistence_id r) (row_key (sequence_nr r)) (u64_as_i64 (sequence_nr r)) (b64_encode (payload r))
    (manifest r) (writer_uuid r) (deleted r) (join_comma (tags r)).

Definition entity_into_repr (e : EventEntity) : PersistentRepr :=
  mkPersistentRepr (ee_partition_key e) (i64_as_u64 (ee_sequence_nr e)) (default [] (b64_decode (ee_payload_b64 e)))
    (ee_manifest e) (ee_writer_uuid e) (ee_deleted e)
    (match ee_tags_csv e with EmptyString => [] | csv => split_char "," csv end).

Definition set_ee_deleted (e : EventEntity) : EventEntity :=
  mkEventEntity (ee_partition_key e) (ee_row_key e) (ee_sequence_nr e) (ee_payload_b64 e) (ee_manifest e)
    (ee_writer_uuid e) true (ee_tags_csv e).

(** *** The journal *)

(** The requests of [TableClient] on the table of events: the text of the filter with [$top], and
    the resource of the entity that is put. *)
Class AzureDb (D : Type) := {
  az_query : string → option N → D → JournalError + list EventEntity;
  az_insert : EventEntity → D → JournalError + D;
  az_upsert : string → EventEntity → D → JournalError + D;
}.
Context {D : Type} `{AzureDb D}.

Definition entity_resource (table pk rk : string) : string :=
  table +:+ "(PartitionKey='" +:+ pk +:+ "',RowKey='" +:+ rk +:+ "')".
Variable journal_table : string.

(** The id goes into this filter as it is. *)
Definition azure_current_max (pid : string) (d : D) : JournalError + N :=
  match az_query (partition_filter pid) None d with
  | inl e => inl e
  | inr es => inr (foldr N.max 0%N ((λ e, i64_as_u64 (ee_sequence_nr e)) <$> es))
  end.

Fixpoint azure_write_rows (expected : N) (batch : list PersistentRepr) (d : D) : D * (JournalError + unit) :=
  match batch with
  | [] => (d, inr tt)
  | msg :: rest =>
      if negb (sequence_nr msg =? expected)%N
      then (d, inl (SequenceOutOfOrder expected (sequence_nr msg)))
      else match az_insert (entity_from_repr msg) d with
           | inl e => (d, inl e)
           | inr d' => azure_write_rows (u64_add expected 1) rest d'
           end
  end.

Fixpoint azure_write_batches (bs : list (string * list PersistentRepr)) (d : D) : D * (JournalError + unit) :=
  match bs with
  | [] => (d, inr tt)
  | (pid, batch) :: rest =>
      match azure_current_max pid d with
      | inl e => (d, inl e)
      | inr v => match azure_write_rows (u64_add v 1) batch d with
                 | (d', inl e) => (d', inl e)
                 | (d', inr _) => azure_write_batches rest d'
                 end
      end
  end.

Definition azure_write_messages (ms : list PersistentRepr) (d : D) : D * (JournalError + unit) :=
  match ms with [] => (d, inr tt) | _ => azure_write_batches (batches ms) d end.

Fixpoint azure_mark (es : list EventEntity) (d : D) : D * (JournalError + unit) :=
  match es with
  | [] => (d, inr tt)
  | e :: es =>
      match az_upsert (entity_resource journal_table (ee_partition_key e) (ee_row_key e)) (set_ee_deleted e) d with
      | inl er => (d, inl er)
      | inr d' => azure_mark es d'
      end
  end.

Definition azure_delete_messages_to (pid : string) (to : N) (d : D) : D * (JournalError + unit) :=
  let text := partition_filter (escape_pk pid) +:+ " and SequenceNr le " +:+ int_to_string (u64_as_i64 to) in
  match az_query text None d with
  | inl e => (d, inl e)
  | inr es => azure_mark es d
  end.

Definition u32_max : N := 2 ^ 32 - 1.
Definition by_seq : relation EventEntity := λ a b, (ee_sequence_nr a ≤ ee_sequence_nr b)%Z.
#[local] Instance by_seq_dec : RelDecision by_seq := λ a b, decide (ee_sequence_nr a ≤ ee_sequence_nr b)%Z.

Definition azure_replay_messages (pid : string) (from to max : N) (d : D) : JournalError + list PersistentRepr :=
  let to_bound := Z.min (Z.of_N to) i64_max in
  let text := partition_filter (escape_pk pid) +:+ " and SequenceNr ge " +:+ int_to_string (u64_as_i64 from) +:+
    " and SequenceNr le " +:+ int_to_string to_bound +:+ " and Deleted eq false" in
  let top := if (u32_max <? max)%N then None else Some max in
  match az_query text top d with
  | inl e => inl e
  | inr es => inr (entity_into_repr <$> take_N max (merge_sort by_seq es))
  end.

Definition azure_highest_sequence_nr (pid : string) (d : D) : JournalError + N := azure_current_max pid d.
End azure.

(** *** What is stored is read back *)


(** No tag has a comma, and the tags are not the single empty one. *)
Definition csv_tags (ts : list string) : Prop := Forall (λ t, string_has "," t = false) ts ∧ ts ≠ [EmptyString].

Lemma csv_roundtrip ts :
  csv_tags ts → match join_comma ts with EmptyString => [] | csv => split_char "," csv end = ts.
Proof.
  intros [Hf Hne]. assert (ts ≠ [] → split_char "," (join_comma ts) = ts) as Hs.
  { clear Hne. induction Hf as [|t ts Ht Hf IH]; [done|]. intros _. destruct ts as [|t' ts]; [by apply PathFacts.split_char_none|].
    cbn [join_comma]. rewrite PathFacts.split_char_app by done. f_equal. by apply IH. }
  destruct ts as [|t ts]; [done|]. rewrite <- Hs at 2 by done. destruct (join_comma (t :: ts)) eqn:E; [|done].
  destruct ts as [|t' ts]; cbn in E; [by subst|]. by destruct t.
Qed.

Lemma entity_roundtrip b64_encode b64_decode r :
  (∀ b, b64_decode (b64_encode b) = Some b) → (sequence_nr r < u64_modulus)%N → csv_tags (tags r) →
  entity_into_repr b64_decode (entity_from_repr b64_encode r) = r.
Proof.
  intros Hb Hn Ht. unfold entity_into_repr, entity_from_repr. cbn [ee_partition_key ee_sequence_nr ee_payload_b64
    ee_manifest ee_writer_uuid ee_deleted ee_tags_csv]. rewrite Hb, (csv_roundtrip _ Ht), u64_i64_u64 by done.
  by destruct r.
Qed.

(** Whatever the bytes of a persistence id, the service reads the filters of replay and deletion
    back to it: the percent-encoding of a text decodes to the text, the quoted id is read as the id
    with the rest of the condition behind it; and a record whose tags have no comma comes back from
    its entity as it was. *)
Theorem azure_texts_read_back b64_encode b64_decode pid rest r :
  (∀ b, b64_decode (b64_encode b) = Some b) → no_quote rest → (sequence_nr r < u64_modulus)%N → csv_tags (tags r) →
  url_decode (urlencoding (partition_filter (escape_pk pid) +:+ rest)) = Some (partition_filter (escape_pk pid) +:+ rest) ∧
  (strip_prefix "PartitionKey eq '" (partition_filter (escape_pk pid) +:+ rest) ≫= read_literal) = Some (pid, rest) ∧
  entity_into_repr b64_decode (entity_from_repr b64_encode r) = r.
Proof.
  intros Hb Hq Hn Ht. split_and!; [apply url_decode_encode| |by apply entity_roundtrip].
  unfold partition_filter. rewrite !string_app_assoc. unfold strip_prefix. rewrite prefix_app, string_drop_app. cbn [mbind option_bind].
  by apply read_escaped.
Qed.

(** ** A service *)

Module AzureService.

(** Pages of at most [page] entities, of which the client reads the first. *)
Record Tables := mkTables { page : nat; entities : gmap (string * string) EventEntity }.

(** The conditions of a filter. *)
Inductive Cond := CondKey (pk : string) | CondGe (n : Z) | CondLe (n : Z) | CondLive.

Definition parse_signed (s : string) : option Z :=
  match strip_prefix "-" s with
  | Some r => (λ n, - Z.of_N n)%Z <$> parse_uint u64_max r
  | None => Z.of_N <$> parse_uint u64_max s
  end.

(** A number up to the next space. *)
Definition read_number (s : string) : option (Z * string) :=
  match split_once " " s with
  | Some (n, rest) => (λ z, (z, String " " rest)) <$> parse_signed n
  | None => (λ z, (z, EmptyString)) <$> parse_signed s
  end.

Fixpoint parse_conds (fuel : nat) (s : string) : option (list Cond) :=
  match fuel, s with
  | O, _ => None
  | S _, EmptyString => Some []
  | S fuel, _ =>
      match strip_prefix " and SequenceNr ge " s, strip_prefix " and SequenceNr le " s,
            strip_prefix " and Deleted eq false" s with
      | Some r, _, _ => '(z, r) ← read_number r; cs ← parse_conds fuel r; Some (CondGe z :: cs)
      | _, Some r, _ => '(z, r) ← read_number r; cs ← parse_conds fuel r; Some (CondLe z :: cs)
      | _, _, Some r => cs ← parse_conds fuel r; Some (CondLive :: cs)
      | _, _, _ => None
      end
  end.
Definition parse_filter (s : string) : option (list Cond) :=
  r ← strip_prefix "PartitionKey eq '" s; '(pk, r) ← read_literal r; cs ← parse_conds 10 r; Some (CondKey pk :: cs).

Definition holds (c : Cond) (e : EventEntity) : bool :=
  match c with
  | CondKey pk => String.eqb (ee_partition_key e) pk
  | CondGe n => (n <=? ee_sequence_nr e)%Z
  | CondLe n => (ee_sequence_nr e <=? n)%Z
  | CondLive => negb (ee_deleted e)
  end.

Definition row_order : relation EventEntity := λ a b, String.le (ee_row_key a) (ee_row_key b).
#[export] Instance row_order_dec : RelDecision row_order := λ a b, decide (String.le (ee_row_key a) (ee_row_key b)).

Definition read_key (s : string) : option (string * string) :=
  '(_, r) ← split_once "(PartitionKey='" s; '(pk, r) ← read_literal r;
  r ← strip_prefix ",RowKey='" r; '(rk, r) ← read_literal r; if String.eqb r ")" then Some (pk, rk) else None.

#[export] Instance Tables_Db : AzureDb Tables := {
  az_query text top d :=
    match parse_filter text with
    | None => inl (JournalBackend "query: 400 Bad Request")
    | Some cs =>
        let es := merge_sort row_order (filter (λ e, forallb (λ c, holds c e) cs = true) (map_to_list (entities d)).*2) in
        inr (take_N (N.min (default u64_max top) (N.of_nat (page d))) es)
    end;
  az_insert e d :=
    match entities d !! (ee_partition_key e, ee_row_key e) with
    | Some _ => inl (JournalBackend "insert: 409 Conflict")
    | None => inr (mkTables (page d) (<[(ee_partition_key e, ee_row_key e) := e]> (entities d)))
    end;
  az_upsert resource e d :=
    match read_key resource with
    | None => inl (JournalBackend "upsert: 400 Bad Request")
    | Some key => inr (mkTables (page d) (<[key := e]> (entities d)))
    end;
}.

(** A stand-in for base64: the bytes as characters. *)
Definition toy_b64 (b : Bytes) : string := String.string_of_list_byte b.
Definition toy_unb64 (s : string) : option Bytes := Some (String.list_byte_of_string s).
Lemma toy_b64_law b : toy_unb64 (toy_b64 b) = Some b.
Proof. unfold toy_unb64, toy_b64. by rewrite String.list_byte_of_string_of_list_byte. Qed.

Definition azmsg (pid : string) (nr : N) (ts : list string) : PersistentRepr :=
  mkPersistentRepr pid nr [Byte.x61] "m" "w" false ts.
Definition azwrote (page : nat) (ms : list PersistentRepr) : Tables * (JournalError + unit) :=
  azure_write_messages toy_b64 ms (mkTables page ∅).
Definition azreplay (pid : string) (d : Tables) : JournalError + list PersistentRepr :=
  azure_replay_messages toy_unb64 pid 1 u64_max 100 d.

Example azure_round_trip :
  let ms := [azmsg "p" 1 ["a"; "b"]; azmsg "p" 2 []; azmsg "p" 3 ["c"]] in
  azreplay "p" (azwrote 1000 ms).1 = inr ms ∧
  azreplay "p" (azure_delete_messages_to "events" "p" 2 (azwrote 1000 ms).1).1 = inr [azmsg "p" 3 ["c"]] ∧
  azure_highest_sequence_nr "p" (azwrote 1000 ms).1 = inr 3%N.
Proof. vm_compute. done. Qed.

(** An id with a quote cannot be written: the filter of [current_max] is not escaped. *)
Example azure_quote_refused :
  (azwrote 1000 [azmsg "o'brien" 1 []]).2 = inl (JournalBackend "query: 400 Bad Request") ∧
  azreplay "o'brien" (mkTables 1000 ∅) = inr [].
Proof. vm_compute. done. Qed.

(** Only the first page is read: once a stream has more records than a page, its highest
    number no longer grows and every further write is refused. *)
Example azure_page_stops_stream :
  let d := (azwrote 2 [azmsg "p" 1 []; azmsg "p" 2 []; azmsg "p" 3 []]).1 in
  azure_highest_sequence_nr "p" d = inr 2%N ∧
  (azure_write_messages toy_b64 [azmsg "p" 4 []] d).2 = inl (SequenceOutOfOrder 3 4).
Proof. vm_compute. done. Qed.

(** A tag with a comma comes back as two. *)
Example azure_comma_tag :
  azreplay "p" (azwrote 1000 [azmsg "p" 1 ["a,b"]]).1 = inr [azmsg "p" 1 ["a"; "b"]].
Proof. vm_compute. done. Qed.

(** A deletion up to [u64::MAX] compares with -1 and deletes nothing. *)
Example azure_delete_all :
  let d := (azwrote 1000 [azmsg "p" 1 []]).1 in
  azreplay "p" (azure_delete_messages_to "events" "p" u64_max d).1 = inr [azmsg "p" 1 []].
Proof. vm_compute. done. Qed.

Lemma azure_texts_read_back_witness :
  (strip_prefix "PartitionKey eq '" (partition_filter (escape_pk "o'brien") +:+ " and Deleted eq false") ≫= read_literal) =
    Some ("o'brien", " and Deleted eq false").
Proof.
  refine (proj1 (proj2 (azure_texts_read_back toy_b64 toy_unb64 "o'brien" " and Deleted eq false" (azmsg "p" 1 ["a"; "b"]) _ _ _ _))).
  - exact toy_b64_law.
  - discriminate.
  - vm_compute. reflexivity.
  - split; [repeat constructor|discriminate].
Defined.
End AzureService.
