(* ===== verification/TestTime.v ===== *)
(** * Virtual time
    ([crates/atomr-testkit/src/test_scheduler.rs])

    The scheduler of the test kit: time moves only when it is advanced, and the callbacks that
    fall due run in the order of their times.  A callback may use the scheduler while it runs,
    so it is given by the calls it makes.  The loop of [advance_to] has fuel: a callback that
    schedules itself again without a delay never lets it end, and the theorems say when it does. *)

From stdpp Require Import gmap strings list sorting.
From Stdlib Require Import NArith Lia Sorted.
From S2P Require Import Prelude.

Section scheduler.
(** What a callback is, and the calls it makes on the scheduler when it runs. *)
Context {Cb : Type}.
Inductive Call := CallSchedule (delay : N) (cb : Cb) | CallCancel (token : nat).
Variable calls : Cb → list Call.

Record Entry := mkEntry { fire_at : N; cb : option Cb; e_fired : bool; cancelled : bool }.

(** An entry's token is its place: tokens are counted from zero and entries are never removed. *)
Record Inner := mkInner { now : N; next_token : nat; entries : list (nat * Entry) }.

Definition scheduler_new (start : N) : Inner := mkInner start 0 [].

Definition schedule_after (delay : N) (c : Cb) (g : Inner) : Inner * nat :=
  let token := next_token g in
  (mkInner (now g) (S token) (entries g ++ [(token, mkEntry (now g + delay) (Some c) false false)]), token).

Definition is_pending (e : Entry) : bool := negb (e_fired e) && negb (cancelled e).

(** The first entry with the token that has neither fired nor been cancelled. *)
Fixpoint cancel_loop (token : nat) (l : list (nat * Entry)) : list (nat * Entry) * bool :=
  match l with
  | [] => ([], false)
  | (tok, e) :: rest =>
      if (tok =? token) && is_pending e
      then ((tok, mkEntry (fire_at e) (cb e) (e_fired e) true) :: rest, true)
      else let '(rest', r) := cancel_loop token rest in ((tok, e) :: rest', r)
  end.
Definition cancel (token : nat) (g : Inner) : Inner * bool :=
  let '(l, r) := cancel_loop token (entries g) in (mkInner (now g) (next_token g) l, r).

Definition do_call (c : Call) (g : Inner) : Inner :=
  match c with
  | CallSchedule d f => (schedule_after d f g).1
  | CallCancel t => (cancel t g).1
  end.
Definition run_cb (c : option Cb) (g : Inner) : Inner :=
  match c with Some f => foldl (λ g x, do_call x g) g (calls f) | None => g end.

(** The pending entries up to [target], with their places. *)
Definition due (target : N) (g : Inner) : list (nat * N) :=
  (λ x : nat * (nat * Entry), (x.1, fire_at x.2.2)) <$>
    filter (λ x, is_pending x.2.2 = true ∧ (fire_at x.2.2 ≤ target)%N) (imap (λ i x, (i, x)) (entries g)).

(** The first of them after a stable sort by time: the earliest of the least. *)
Definition next_due (target : N) (g : Inner) : option (nat * N) :=
  foldr (λ x best, match best with Some b => if (x.2 <=? b.2)%N then Some x else best | None => Some x end) None
    (due target g).

(** Time moves to the entry, which is marked and gives up its callback. *)
Definition fire (idx : nat) (t : N) (g : Inner) : Inner * option Cb :=
  match entries g !! idx with
  | Some (tok, e) =>
      (mkInner t (next_token g) (<[idx := (tok, mkEntry (fire_at e) None true (cancelled e))]> (entries g)), cb e)
  | None => (mkInner t (next_token g) (entries g), None)
  end.

(** The state at the end and what fired, in order: the place, the time and the callback that ran. *)
Fixpoint advance_to (fuel : nat) (target : N) (g : Inner) : option (Inner * list (nat * N * option Cb)) :=
  match fuel with
  | O => None
  | S fuel =>
      match next_due target g with
      | Some (idx, t) =>
          let '(g, c) := fire idx t g in
          '(g, fired) ← advance_to fuel target (run_cb c g);
          Some (g, (idx, t, c) :: fired)
      | None => Some (mkInner (N.max (now g) target) (next_token g) (entries g), [])
      end
  end.

Definition advance_by (fuel : nat) (delta : N) (g : Inner) : option (Inner * list (nat * N * option Cb)) :=
  advance_to fuel (now g + delta) g.

Definition fired (token : nat) (g : Inner) : bool := existsb (λ x, (x.1 =? token) && e_fired x.2) (entries g).
Definition pending (g : Inner) : nat := length (filter (λ x, is_pending x.2 = true) (entries g)).

(** ** What an advance does *)

Definition pending_at (g : Inner) (i : nat) (t : N) : Prop :=
  ∃ tok e, entries g !! i = Some (tok, e) ∧ is_pending e = true ∧ fire_at e = t.
Definition has_fired (g : Inner) (i : nat) : Prop := ∃ tok e, entries g !! i = Some (tok, e) ∧ e_fired e = true.

(** Nothing pending lies in the past. *)
Definition time_wf (g : Inner) : Prop := ∀ i t, pending_at g i t → (now g ≤ t)%N.

Lemma elem_of_due target g i t : (i, t) ∈ due target g ↔ pending_at g i t ∧ (t ≤ target)%N.
Proof.
  unfold due, pending_at. rewrite list_elem_of_fmap. split.
  - intros ([j [tok e]] & [= -> ->] & Hin). apply list_elem_of_filter in Hin as [[Hp Ht] Hin].
    apply elem_of_lookup_imap in Hin as (j' & x & [= <- <-] & Hj). cbn in *. eauto 10.
  - intros [(tok & e & Hi & Hp & <-) Ht]. exists (i, (tok, e)). split; [done|]. apply list_elem_of_filter.
    split; [done|]. apply elem_of_lookup_imap. by exists i, (tok, e).
Qed.

Lemma next_due_Some target g i t :
  next_due target g = Some (i, t) →
  pending_at g i t ∧ (t ≤ target)%N ∧ ∀ j u, pending_at g j u → (u ≤ target)%N → (t ≤ u)%N.
Proof.
  intros Hn. assert ((i, t) ∈ due target g ∧ ∀ x, x ∈ due target g → (t ≤ x.2)%N) as [Hin Hmin].
  { unfold next_due in Hn. revert i t Hn. induction (due target g) as [|x l IH]; intros i t; [done|]. cbn.
    destruct (foldr _ None l) as [[j u]|] eqn:E.
    - destruct (IH j u eq_refl) as [Hj Hm]. cbn. destruct (N.leb x.2 u) eqn:El; intros [= ->].
      + apply N.leb_le in El. split; [by left|]. intros y [->|Hy]%elem_of_cons; [done|].
        cbn in *. specialize (Hm y Hy). lia.
      + simplify_eq. apply N.leb_gt in El. split; [by right|]. intros y [->|Hy]%elem_of_cons; [lia|auto].
    - intros [= ->]. split; [by left|]. intros y [->|Hy]%elem_of_cons; [done|]. destruct l as [|z l]; [by apply elem_of_nil in Hy|].
      exfalso. cbn in E. by repeat case_match. }
  apply elem_of_due in Hin as [Hp Ht]. split_and!; [done..|]. intros j u Hj Hu. apply (Hmin (j, u)). by apply elem_of_due.
Qed.

Lemma next_due_None target g i t : next_due target g = None → pending_at g i t → (target < t)%N.
Proof.
  intros Hn Hp. destruct (N.lt_ge_cases target t) as [?|Hle]; [done|].
  assert ((i, t) ∈ due target g) as Hin by by apply elem_of_due. unfold next_due in Hn.
  destruct (due target g) as [|x l]; [by apply elem_of_nil in Hin|]. cbn in Hn. by repeat case_match.
Qed.

(** What the calls of a callback may do: add entries, and cancel some. *)
Record extends (g g' : Inner) : Prop := {
  ex_now : now g' = now g;
  ex_keep i tok e : entries g !! i = Some (tok, e) →
    ∃ e', entries g' !! i = Some (tok, e') ∧ fire_at e' = fire_at e ∧ e_fired e' = e_fired e ∧
      (cancelled e = true → cancelled e' = true);
  ex_new i tok e' : entries g' !! i = Some (tok, e') →
    is_Some (entries g !! i) ∨ ((now g ≤ fire_at e')%N ∧ e_fired e' = false);
}.

Lemma extends_refl g : extends g g.
Proof. split; [done| |]; eauto 10. Qed.

Lemma extends_trans g1 g2 g3 : extends g1 g2 → extends g2 g3 → extends g1 g3.
Proof.
  intros [N1 K1 W1] [N2 K2 W2]. split; [congruence| |].
  - intros i tok e Hi. destruct (K1 _ _ _ Hi) as (e2 & H2 & F2 & G2 & C2). destruct (K2 _ _ _ H2) as (e3 & H3 & F3 & G3 & C3).
    exists e3. split_and!; [done|congruence..|auto].
  - intros i tok e3 H3. destruct (W2 _ _ _ H3) as [[[tok2 e2] H2]|Hn]; [|rewrite N1 in Hn; by right].
    destruct (W1 _ _ _ H2) as [?|[Hf He]]; [by left|]. right.
    destruct (K2 _ _ _ H2) as (e3' & H3' & F3 & G3 & _). rewrite H3 in H3'. injection H3' as <- <-. by rewrite F3, G3.
Qed.

Lemma cancel_extends token g : extends g (cancel token g).1.
Proof.
  assert (∀ l, let '(l', _) := cancel_loop token l in length l' = length l ∧ ∀ i tok e, l !! i = Some (tok, e) →
    ∃ e', l' !! i = Some (tok, e') ∧ fire_at e' = fire_at e ∧ e_fired e' = e_fired e ∧
      (cancelled e = true → cancelled e' = true)) as Hl.
  { intros l. induction l as [|[tok e] l IH]; cbn; [done|]. destruct (_ && _) eqn:E.
    - split; [done|]. intros [|i] tok' e' Hi; cbn in *; simplify_eq; eauto 10.
    - destruct (cancel_loop token l) as [l' r]. destruct IH as [IHl IH]. cbn. split; [by rewrite IHl|].
      intros [|i] tok' e' Hi; cbn in *; simplify_eq; eauto 10. }
  unfold cancel. specialize (Hl (entries g)). destruct (cancel_loop token (entries g)) as [l' r]. destruct Hl as [Hlen Hl].
  split; cbn; [done|done|]. intros i tok e' Hi. left. apply lookup_lt_is_Some. rewrite <- Hlen. by eapply lookup_lt_Some.
Qed.

Lemma schedule_extends d c g : extends g (schedule_after d c g).1.
Proof.
  split; cbn; [done| |].
  - intros i tok e Hi. exists e. split_and!; [|done..]. by apply lookup_app_l_Some.
  - intros i tok e' Hi. apply lookup_app_Some in Hi as [Hi|[_ Hi]]; [left; by eexists|].
    right. apply list_lookup_singleton_Some in Hi as [_ [= _ <-]]. cbn. split; [lia|done].
Qed.

Lemma run_cb_extends c g : extends g (run_cb c g).
Proof.
  destruct c as [f|]; cbn; [|apply extends_refl]. generalize (calls f). intros l. revert g.
  induction l as [|x l IH]; intros g; cbn; [apply extends_refl|]. eapply extends_trans; [|apply IH].
  destruct x; [apply schedule_extends|apply cancel_extends].
Qed.

Lemma extends_pending g g' i t : extends g g' → pending_at g' i t → pending_at g i t ∨ (now g ≤ t)%N.
Proof.
  intros [_ K W] (tok & e' & Hi & Hp & <-). destruct (W _ _ _ Hi) as [[[tok' e] He]|[Hn _]]; [|by right]. left.
  destruct (K _ _ _ He) as (e2 & H2 & F2 & G2 & C2). rewrite Hi in H2. injection H2 as <- <-. exists tok, e.
  split_and!; [done| |done]. unfold is_pending in *. rewrite <- G2. destruct (e_fired e'); [done|].
  destruct (cancelled e); [by rewrite C2 in Hp|done].
Qed.

Lemma extends_fired g g' i : extends g g' → has_fired g' i ↔ has_fired g i.
Proof.
  intros [_ K W]. split.
  - intros (tok & e' & Hi & Hf). destruct (W _ _ _ Hi) as [[[tok' e] He]|[_ Hn]]; [|congruence].
    destruct (K _ _ _ He) as (e2 & H2 & _ & G2 & _). rewrite Hi in H2. injection H2 as <- <-. exists tok, e. by rewrite <- G2.
  - intros (tok & e & Hi & Hf). destruct (K _ _ _ Hi) as (e' & H' & _ & G' & _). exists tok, e'. by rewrite G'.
Qed.

Lemma fire_pending i t g j u :
  pending_at g i t → pending_at (fire i t g).1 j u → j ≠ i ∧ pending_at g j u.
Proof.
  intros (tok & e & Hi & _) (tok' & e' & Hj & Hp & Hu). unfold fire in Hj. rewrite Hi in Hj. cbn in Hj.
  apply list_lookup_insert_Some in Hj as [(-> & [= _ <-] & _)|[Hne Hj]]; [done|]. split; [done|]. by exists tok', e'.
Qed.

Lemma fire_fired i t g j : pending_at g i t → has_fired (fire i t g).1 j ↔ j = i ∨ has_fired g j.
Proof.
  intros (tok & e & Hi & Hp & _). unfold fire, has_fired. rewrite Hi. cbn. split.
  - intros (tok' & e' & Hj & Hf). apply list_lookup_insert_Some in Hj as [(-> & _)|[Hne Hj]]; [by left|right; by eauto].
  - intros [->|(tok' & e' & Hj & Hf)].
    + exists tok. eexists. split; [apply list_lookup_insert_eq; by eapply lookup_lt_Some|done].
    + destruct (decide (j = i)) as [->|Hne]; [|exists tok', e'; by rewrite list_lookup_insert_ne].
      exists tok. eexists. split; [apply list_lookup_insert_eq; by eapply lookup_lt_Some|done].
Qed.

(** Time after an entry fired and its callback ran: nothing is left behind. *)
Lemma fire_step target g i t :
  time_wf g → next_due target g = Some (i, t) →
  let g1 := run_cb (fire i t g).2 (fire i t g).1 in
  now g1 = t ∧ time_wf g1 ∧ (∀ j, has_fired g1 j ↔ j = i ∨ has_fired g j).
Proof.
  intros Hwf Hn g1. apply next_due_Some in Hn as (Hp & Ht & Hmin).
  pose proof (run_cb_extends (fire i t g).2 (fire i t g).1) as Hex. fold g1 in Hex.
  assert (now (fire i t g).1 = t) as Hnow by (unfold fire; by destruct (entries g !! i) as [[? ?]|]).
  assert (now g1 = t) as Hg1 by by rewrite (ex_now _ _ Hex). split_and!; [done| |].
  - intros j u Hj. rewrite Hg1. destruct (extends_pending _ _ _ _ Hex Hj) as [Hj'|?]; [|lia].
    apply fire_pending in Hj' as [_ Hj']; [|done]. destruct (N.le_gt_cases u target) as [Hu|?]; [eauto|lia].
  - intros j. by rewrite (extends_fired _ _ _ Hex), (fire_fired _ _ _ _ Hp).
Qed.

Lemma advance_to_spec fuel target g g' tr :
  time_wf g → advance_to fuel target g = Some (g', tr) →
  now g' = N.max (now g) target ∧ (∀ i t, pending_at g' i t → (target < t)%N ∧ (now g' ≤ t)%N) ∧
  StronglySorted N.le tr.*1.*2 ∧ Forall (λ t, (now g ≤ t ≤ target)%N) tr.*1.*2 ∧
  NoDup tr.*1.*1 ∧ (∀ i, has_fired g' i ↔ i ∈ tr.*1.*1 ∨ has_fired g i) ∧ (∀ i, i ∈ tr.*1.*1 → ¬ has_fired g i).
Proof.
  revert g g' tr. induction fuel as [|fuel IH]; intros g g' tr Hwf; cbn [advance_to]; [done|].
  destruct (next_due target g) as [[i t]|] eqn:En.
  - destruct (fire_step target g i t Hwf En) as (Hnow & Hwf1 & Hf1). destruct (fire i t g) as [g0 c] eqn:Ef. cbn [fst snd] in *.
    destruct (advance_to fuel target (run_cb c g0)) as [[g2 tr2]|] eqn:Ea; [|done]. cbn. intros [= <- <-].
    destruct (IH _ _ _ Hwf1 Ea) as (I1 & I2 & I3 & I4 & I5 & I6 & I7). rewrite Hnow in *.
    apply next_due_Some in En as (Hp & Ht & _). pose proof (Hwf _ _ Hp) as Hle.
    assert (¬ has_fired g i) as Hnf.
    { destruct Hp as (tok & e & Hi & Hp & _). intros (tok' & e' & Hi' & He'). rewrite Hi in Hi'. simplify_eq.
      unfold is_pending in Hp. by rewrite He' in Hp. }
    rewrite !fmap_cons. split_and!.
    + rewrite I1. lia.
    + done.
    + constructor; [done|]. eapply Forall_impl; [exact I4|]. cbn. lia.
    + constructor; [cbn; lia|]. eapply Forall_impl; [exact I4|]. cbn. lia.
    + constructor; [|done]. intros Hin. apply (I7 _ Hin). apply Hf1. by left.
    + intros j. rewrite I6, Hf1, elem_of_cons. cbn. tauto.
    + intros j [->|Hj]%elem_of_cons; [done|]. intros Hg. apply (I7 _ Hj). apply Hf1. by right.
  - intros [= <- <-]. cbn. split_and!; [done| |constructor|constructor|constructor| |].
    + intros i t Hp. pose proof (next_due_None _ _ i t En Hp). pose proof (Hwf i t Hp). cbn. lia.
    + intros i. unfold has_fired. cbn. split; [by right|]. intros [Hin|?]; [by apply elem_of_nil in Hin|done].
    + intros i Hin. by apply elem_of_nil in Hin.
Qed.

(** ** The effects of the callbacks *)

(** What was asked for so far: each entry's time and callback, in the order of the tokens. *)
Definition plan (g : Inner) : list (N * option Cb) := (λ x, (fire_at x.2, cb x.2)) <$> entries g.

(** What a callback that runs at [t] asks for. *)
Definition asked_by (t : N) (c : option Cb) : list (N * option Cb) :=
  match c with
  | Some f => omap (λ x, match x with CallSchedule d c' => Some ((t + d)%N, Some c') | CallCancel _ => None end) (calls f)
  | None => []
  end.
Definition asked (tr : list (nat * N * option Cb)) : list (N * option Cb) := tr ≫= λ x, asked_by x.1.2 x.2.

Definition cancelled_at (g : Inner) (i : nat) : Prop := ∃ tok e, entries g !! i = Some (tok, e) ∧ cancelled e = true.
Definition cancels (c : option Cb) (i : nat) : Prop := ∃ f, c = Some f ∧ CallCancel i ∈ calls f.

(** Tokens are places, and what has not fired still has its callback. *)
Record sched_wf (g : Inner) : Prop := {
  wf_time : time_wf g;
  wf_next : next_token g = length (entries g);
  wf_tokens i tok e : entries g !! i = Some (tok, e) → tok = i;
  wf_cb i tok e : entries g !! i = Some (tok, e) → e_fired e = false → is_Some (cb e);
}.

(** Cancelling sets a flag and nothing else. *)
Lemma cancel_loop_spec token l :
  let l' := (cancel_loop token l).1 in
  l'.*1 = l.*1 ∧ ((λ x, (fire_at x.2, cb x.2, e_fired x.2)) <$> l') = ((λ x, (fire_at x.2, cb x.2, e_fired x.2)) <$> l).
Proof.
  cbn zeta. induction l as [|[tok e] l [IH1 IH2]]; [done|]. cbn. destruct (_ && _); [done|].
  destruct (cancel_loop token l) as [l' r]. cbn in *. by rewrite IH1, IH2.
Qed.

Lemma plan_do_call x g :
  plan (do_call x g) = plan g ++ match x with CallSchedule d c => [((now g + d)%N, Some c)] | CallCancel _ => [] end.
Proof.
  destruct x as [d c|t]; cbn; [by unfold plan; cbn; rewrite fmap_app|]. rewrite app_nil_r. unfold plan, cancel.
  pose proof (cancel_loop_spec t (entries g)) as [_ H]. destruct (cancel_loop t (entries g)) as [l r]. cbn in *.
  apply (f_equal (fmap fst)) in H. rewrite <- !list_fmap_compose in H. exact H.
Qed.

Lemma plan_run_cb c g : plan (run_cb c g) = plan g ++ asked_by (now g) c.
Proof.
  destruct c as [f|]; cbn; [|by rewrite app_nil_r]. generalize (calls f). intros l. revert g.
  induction l as [|x l IH]; intros g; cbn; [by rewrite app_nil_r|]. rewrite IH, plan_do_call, <- (assoc_L app). f_equal.
  assert (now (do_call x g) = now g) as -> by by destruct x as [|t]; cbn; [|unfold cancel; destruct (cancel_loop _ _)].
  by destruct x.
Qed.

Lemma plan_fire i t g : pending_at g i t → plan (fire i t g).1 = <[i := (t, None)]> (plan g).
Proof.
  intros (tok & e & Hi & _ & <-). unfold fire, plan. rewrite Hi. cbn. by rewrite list_fmap_insert.
Qed.

Lemma fire_cb i t g : pending_at g i t → ∃ e, plan g !! i = Some (t, (fire i t g).2) ∧ entries g !! i = Some e.
Proof.
  intros (tok & e & Hi & _ & <-). exists (tok, e). unfold fire, plan. by rewrite list_lookup_fmap, Hi.
Qed.

(** *** The invariant *)

Lemma new_wf start : sched_wf (scheduler_new start).
Proof. split; try done. intros i t (tok & e & Hi & _). done. Qed.

Lemma do_call_wf x g : sched_wf g → sched_wf (do_call x g).
Proof.
  intros [Ht Hn Htok Hcb].
  assert (extends g (do_call x g)) as Hex by (destruct x; [apply schedule_extends|apply cancel_extends]).
  assert (time_wf (do_call x g)) as Ht'.
  { intros i t Hp. rewrite (ex_now _ _ Hex). by destruct (extends_pending _ _ _ _ Hex Hp) as [?%Ht|]. }
  destruct x as [d c|t]; cbn in *.
  - split; cbn; [done|by rewrite length_app, Hn, Nat.add_comm| |].
    + intros i tok e [Hi|[Hl Hi]]%lookup_app_Some; [eauto|].
      apply list_lookup_singleton_Some in Hi as [? [= <- _]]. lia.
    + intros i tok e [Hi|[Hl Hi]]%lookup_app_Some; [eauto|].
      apply list_lookup_singleton_Some in Hi as [_ [= _ <-]]. by eexists.
  - unfold cancel in *. pose proof (cancel_loop_spec t (entries g)) as [H1 H2].
    destruct (cancel_loop t (entries g)) as [l r]. cbn in *. split; cbn; [done| | |].
    + rewrite Hn. apply (f_equal length) in H1. by rewrite !length_fmap in H1.
    + intros i tok e Hi. assert (l.*1 !! i = Some tok) as Hk by by rewrite list_lookup_fmap, Hi.
      rewrite H1, list_lookup_fmap in Hk. destruct (entries g !! i) as [[tok' e']|] eqn:E; [|done].
      injection Hk as <-. eauto.
    + intros i tok e Hi Hf. apply (f_equal (lookup i)) in H2. rewrite !list_lookup_fmap, Hi in H2.
      destruct (entries g !! i) as [[tok' e']|] eqn:E; [|done]. injection H2 as _ Hc Hf'. rewrite Hc. eapply Hcb; [done|congruence].
Qed.

Lemma run_cb_wf c g : sched_wf g → sched_wf (run_cb c g).
Proof.
  destruct c as [f|]; cbn; [|done]. generalize (calls f). intros l. revert g.
  induction l as [|x l IH]; intros g Hg; cbn; [done|]. by apply IH, do_call_wf.
Qed.

Lemma fire_wf target g i t :
  sched_wf g → next_due target g = Some (i, t) → sched_wf (fire i t g).1.
Proof.
  intros [Ht Hnx Htok Hcb] Hn. apply next_due_Some in Hn as (Hp & Hle & Hmin). split.
  - intros j u Hj. apply fire_pending in Hj as [_ Hj]; [|done].
    assert (now (fire i t g).1 = t) as -> by (unfold fire; by destruct (entries g !! i) as [[? ?]|]).
    destruct (N.le_gt_cases u target); [eauto|lia].
  - unfold fire. destruct (entries g !! i) as [[tok e]|]; cbn; [by rewrite length_insert|done].
  - intros j tok' e'. unfold fire. destruct (entries g !! i) as [[tok e]|] eqn:E; cbn; [|eauto].
    intros [(<- & [= <- _] & _)|[_ ?]]%list_lookup_insert_Some; eauto.
  - intros j tok' e'. unfold fire. destruct (entries g !! i) as [[tok e]|] eqn:E; cbn; [|eauto].
    intros [(<- & [= _ <-] & _)|[_ ?]]%list_lookup_insert_Some; [done|eauto].
Qed.

(** *** Cancellations *)

Lemma do_call_cancelled x g i : sched_wf g →
  (cancelled_at g i → cancelled_at (do_call x g) i) ∧
  (cancelled_at (do_call x g) i → cancelled_at g i ∨ x = CallCancel i).
Proof.
  intros Hwf.
  assert (extends g (do_call x g)) as Hex by (destruct x; [apply schedule_extends|apply cancel_extends]). split.
  - intros (tok & e & Hi & Hc). destruct (ex_keep _ _ Hex _ _ _ Hi) as (e' & Hi' & _ & _ & Hc'). exists tok, e'. auto.
  - intros (tok & e & Hi & Hc). destruct x as [d c|t]; cbn in Hi.
    + left. apply lookup_app_Some in Hi as [Hi|[_ Hi]]; [by exists tok, e|].
      by apply list_lookup_singleton_Some in Hi as [_ [= _ <-]].
    + unfold cancel in Hi. pose proof (wf_tokens g Hwf) as Htok.
      assert (∀ l k, (∀ j tok e, l !! j = Some (tok, e) → tok = k + j) → ∀ j tok e,
        (cancel_loop t l).1 !! j = Some (tok, e) → cancelled e = true →
        (∃ e', l !! j = Some (tok, e') ∧ cancelled e' = true) ∨ k + j = t) as Hloop.
      { clear. induction l as [|[tk e0] l IH]; intros k Hk j tok e; cbn; [done|].
        destruct ((tk =? t) && is_pending e0) eqn:E.
        - apply andb_true_iff in E as [E%Nat.eqb_eq _]. destruct j as [|j]; cbn.
          + intros [= <- <-] _. right. by rewrite <- (Hk 0 tk e0 eq_refl).
          + intros ? ?. left. eauto.
        - destruct (cancel_loop t l) as [l' r] eqn:El. cbn. destruct j as [|j]; cbn; [intros [= <- <-] ?; left; eauto|].
          intros Hj Hc. destruct (IH (S k) ltac:(intros j' tok' e' Hj'; rewrite (Hk (S j') tok' e' Hj'); lia) j tok e Hj Hc) as [?|?];
            [by left|right; lia]. }
      destruct (cancel_loop t (entries g)) as [l r] eqn:El. cbn in Hi.
      destruct (Hloop (entries g) 0 ltac:(done) i tok e) as [(e' & He & Hc')|Ht]; [by rewrite El|done|left; by exists tok, e'|].
      right. by rewrite <- Ht.
Qed.

(** A cancelled entry that has not fired yet is cancelled by the call. *)
Lemma cancel_now g i : sched_wf g → i < length (entries g) → ¬ has_fired g i → cancelled_at (do_call (CallCancel i) g) i.
Proof.
  intros Hwf [[tok e] Hi]%lookup_lt_is_Some Hnf. cbn. unfold cancel. pose proof (wf_tokens g Hwf) as Htok.
  assert (e_fired e = false) as Hf by (destruct (e_fired e) eqn:E; [|done]; destruct Hnf; by exists tok, e).
  assert (∀ l k j tok e, (∀ j tok e, l !! j = Some (tok, e) → tok = k + j) → l !! j = Some (tok, e) → e_fired e = false →
    ∃ e', (cancel_loop (k + j) l).1 !! j = Some (tok, e') ∧ cancelled e' = true) as Hloop.
  { clear. induction l as [|[tk e0] l IH]; intros k j tok e Hk Hj Hf; [done|]. cbn. pose proof (Hk 0 tk e0 eq_refl) as Hk0.
    destruct j as [|j]; cbn in Hj.
    - injection Hj as -> ->. rewrite (proj2 (Nat.eqb_eq _ _)) by lia. cbn. unfold is_pending. rewrite Hf. cbn.
      destruct (cancelled e) eqn:Ec; cbn; [|by eexists]. destruct (cancel_loop _ l). by exists e.
    - rewrite (proj2 (Nat.eqb_neq _ _)) by lia. cbn.
      destruct (IH (S k) j tok e) as (e' & He & Hc); [|done|done|].
      { intros j' tok' e' Hj'. rewrite (Hk (S j') tok' e' Hj'). lia. }
      replace (k + S j) with (S k + j) by lia. destruct (cancel_loop (S k + j) l) as [l' r]. cbn in *. eauto. }
  destruct (Hloop (entries g) 0 i tok e) as (e' & He & Hc); [done|done|done|]. cbn in He.
  destruct (cancel_loop i (entries g)) as [l r]. exists tok, e'. done.
Qed.

Lemma do_call_length x g : length (entries g) ≤ length (entries (do_call x g)).
Proof.
  destruct x as [d c|t]; cbn; [rewrite length_app; lia|]. unfold cancel. pose proof (cancel_loop_spec t (entries g)) as [H _].
  destruct (cancel_loop t (entries g)) as [l r]. cbn in *. apply (f_equal length) in H. rewrite !length_fmap in H. lia.
Qed.

Lemma do_call_fired x g i : has_fired (do_call x g) i ↔ has_fired g i.
Proof. apply extends_fired. destruct x; [apply schedule_extends|apply cancel_extends]. Qed.

Lemma run_cb_cancelled c g i : sched_wf g →
  (cancelled_at g i → cancelled_at (run_cb c g) i) ∧
  (cancelled_at (run_cb c g) i → cancelled_at g i ∨ cancels c i) ∧
  (cancels c i → i < length (entries g) → ¬ has_fired g i → cancelled_at (run_cb c g) i).
Proof.
  destruct c as [f|]; cbn; [|intros _; split_and!; [done|by left|by intros (f & ? & _)]].
  unfold cancels. intros Hwf.
  assert (∀ l g, sched_wf g →
    let g' := foldl (λ g x, do_call x g) g l in
    (cancelled_at g i → cancelled_at g' i) ∧ (cancelled_at g' i → cancelled_at g i ∨ CallCancel i ∈ l) ∧
    (CallCancel i ∈ l → i < length (entries g) → ¬ has_fired g i → cancelled_at g' i)) as H.
  { clear. intros l. induction l as [|x l IH]; intros g Hwf; cbn.
    { split_and!; [done|by left|]. by intros ?%not_elem_of_nil. }
    destruct (IH (do_call x g) (do_call_wf x g Hwf)) as (K1 & K2 & K3). destruct (do_call_cancelled x g i Hwf) as [C1 C2].
    pose proof (do_call_length x g). split_and!.
    - auto.
    - intros [[?| ->]%C2|?]%K2; [by left|right; by left|right; by right].
    - intros [<-|Hin]%elem_of_cons Hl Hf; [apply K1; by apply cancel_now|].
      apply K3; [done|lia|]. by rewrite do_call_fired. }
  destruct (H (calls f) g Hwf) as (K1 & K2 & K3). split_and!; [done| |].
  - intros [?|?]%K2; eauto.
  - intros (f' & [= <-] & ?). auto.
Qed.

Lemma fire_cancelled i t g j : cancelled_at (fire i t g).1 j ↔ cancelled_at g j.
Proof.
  unfold fire. destruct (entries g !! i) as [[tok e]|] eqn:Hi; [|done]. unfold cancelled_at. cbn.
  destruct (decide (j = i)) as [->|Hne]; [|by rewrite list_lookup_insert_ne].
  rewrite list_lookup_insert_eq, Hi by by eapply lookup_lt_Some. split; intros (tok' & e' & [= <- <-] & Hc); eauto.
Qed.

(** One round of the loop. *)
Lemma round_effects target g i t :
  sched_wf g → next_due target g = Some (i, t) →
  let c := (fire i t g).2 in let g1 := run_cb c (fire i t g).1 in
  sched_wf g1 ∧ plan g !! i = Some (t, c) ∧ plan g1 = <[i := (t, None)]> (plan g) ++ asked_by t c ∧
  (∀ j, cancelled_at g j → cancelled_at g1 j) ∧ (∀ j, cancelled_at g1 j → cancelled_at g j ∨ cancels c j) ∧
  (∀ j, cancels c j → j < length (entries g) → j ≠ i → ¬ has_fired g j → cancelled_at g1 j).
Proof.
  intros Hwf Hn c g1. pose proof (fire_wf _ _ _ _ Hwf Hn) as Hwf0.
  apply next_due_Some in Hn as (Hp & _ & _). destruct (fire_cb i t g Hp) as (x & Hpl & Hx).
  assert (now (fire i t g).1 = t) as Hnow by (unfold fire; by destruct (entries g !! i) as [[? ?]|]).
  split_and!; [by apply run_cb_wf|done| |..].
  - unfold g1. by rewrite plan_run_cb, Hnow, plan_fire.
  - intros j Hj. apply (proj1 (run_cb_cancelled c _ j Hwf0)). by apply fire_cancelled.
  - intros j Hj. apply (proj1 (proj2 (run_cb_cancelled c _ j Hwf0))) in Hj as [Hj|?]; [left|by right].
    by apply fire_cancelled in Hj.
  - intros j Hc Hl Hne Hf. apply (proj2 (proj2 (run_cb_cancelled c _ j Hwf0))); [done| |].
    + unfold fire. rewrite Hx. destruct x. cbn. by rewrite length_insert.
    + rewrite fire_fired by done. tauto.
Qed.

(** A cancelled entry does not fire. *)
Lemma cancelled_not_pending g i t : cancelled_at g i → ¬ pending_at g i t.
Proof.
  intros (tok & e & Hi & Hc) (tok' & e' & Hi' & Hp & _). rewrite Hi in Hi'. injection Hi' as <- <-.
  unfold is_pending in Hp. rewrite Hc in Hp. by destruct (e_fired e).
Qed.

Lemma plan_length g : length (plan g) = length (entries g).
Proof. apply length_fmap. Qed.

(** Each entry that fires has its callback run. *)
Lemma advance_to_some fuel target g g' tr x :
  sched_wf g → advance_to fuel target g = Some (g', tr) → x ∈ tr → is_Some x.2.
Proof.
  revert g g' tr. induction fuel as [|fuel IH]; intros g g' tr Hwf; cbn [advance_to]; [done|].
  destruct (next_due target g) as [[i t]|] eqn:En; [|by intros [= <- <-] ?%not_elem_of_nil].
  destruct (round_effects target g i t Hwf En) as (Hwf1 & _). apply next_due_Some in En as ((tok & e & Hi & Hp & _) & _ & _).
  assert (is_Some (fire i t g).2) as Hc.
  { unfold fire. rewrite Hi. eapply (wf_cb g Hwf); [done|]. unfold is_pending in Hp. by destruct (e_fired e). }
  destruct (fire i t g) as [g0 c]. cbn [fst snd] in *.
  destruct (advance_to fuel target (run_cb c g0)) as [[g2 tr2]|] eqn:Ea; [|done]. cbn. intros [= <- <-].
  intros [->|Hx]%elem_of_cons; [done|]. by eapply IH.
Qed.

(** What an advance makes of the plan, and of the cancelled entries. *)
Lemma advance_to_plan fuel target g g' tr :
  sched_wf g → advance_to fuel target g = Some (g', tr) →
  sched_wf g' ∧ (plan g').*1 = (plan g ++ asked tr).*1 ∧
  (∀ x, x ∈ tr → (plan g ++ asked tr) !! x.1.1 = Some (x.1.2, x.2)).
Proof.
  revert g g' tr. induction fuel as [|fuel IH]; intros g g' tr Hwf; cbn [advance_to]; [done|].
  destruct (next_due target g) as [[i t]|] eqn:En.
  - destruct (round_effects target g i t Hwf En) as (Hwf1 & Hpl & Hpl1 & _). destruct (fire i t g) as [g0 c] eqn:Ef. cbn [fst snd] in *.
    destruct (advance_to fuel target (run_cb c g0)) as [[g2 tr2]|] eqn:Ea; [|done]. cbn. intros [= <- <-].
    destruct (IH _ _ _ Hwf1 Ea) as (I1 & I2 & I3).
    assert (i < length (plan g)) as Hi by by eapply lookup_lt_Some.
    assert (<[i := t]> (plan g).*1 = (plan g).*1) as Hid by (apply list_insert_id; by rewrite list_lookup_fmap, Hpl).
    split_and!; [done| |].
    + rewrite I2, Hpl1. cbn. rewrite !fmap_app, list_fmap_insert. cbn. by rewrite Hid, <- (assoc_L app).
    + intros x [->|Hx]%elem_of_cons; cbn.
      { by apply lookup_app_l_Some. }
      specialize (I3 x Hx). rewrite Hpl1, <- (assoc_L app) in I3.
      destruct (decide (x.1.1 = i)) as [E|Hne].
      * exfalso. rewrite E in I3. rewrite lookup_app_l in I3 by by rewrite length_insert. rewrite list_lookup_insert_eq in I3 by done.
        injection I3 as _ Hn. apply (advance_to_some _ _ _ _ _ _ Hwf1 Ea) in Hx as [? Hx]. congruence.
      * destruct (Nat.lt_ge_cases x.1.1 (length (plan g))) as [Hl|Hl].
        -- rewrite lookup_app_l in I3 |- * by (rewrite ?length_insert; done). by rewrite list_lookup_insert_ne in I3.
        -- rewrite lookup_app_r in I3 |- * by (rewrite ?length_insert; done). by rewrite length_insert in I3.
  - intros [= <- <-]. cbn. rewrite app_nil_r. split_and!; [|done|by intros x ?%not_elem_of_nil].
    destruct Hwf as [Ht Hn Htok Hcb]. split; cbn; try done. intros i t Hp.
    pose proof (next_due_None _ _ i t En Hp). pose proof (Ht i t Hp). cbn. lia.
Qed.

Lemma advance_to_cancelled fuel target g g' tr :
  sched_wf g → advance_to fuel target g = Some (g', tr) →
  (∀ i, cancelled_at g i → cancelled_at g' i ∧ i ∉ tr.*1.*1) ∧
  (∀ i, cancelled_at g' i → cancelled_at g i ∨ ∃ x, x ∈ tr ∧ cancels x.2 i) ∧
  (∀ tr1 x tr2 i, tr = tr1 ++ x :: tr2 → cancels x.2 i → i < length (entries g) → ¬ has_fired g i →
     i ∉ tr1.*1.*1 → i ≠ x.1.1 → cancelled_at g' i ∧ i ∉ tr2.*1.*1).
Proof.
  revert g g' tr. induction fuel as [|fuel IH]; intros g g' tr Hwf; cbn [advance_to]; [done|].
  destruct (next_due target g) as [[i t]|] eqn:En.
  - destruct (round_effects target g i t Hwf En) as (Hwf1 & Hpl & Hpl1 & C1 & C2 & C3).
    destruct (fire_step target g i t (wf_time g Hwf) En) as (_ & _ & Hf1).
    destruct (fire i t g) as [g0 c] eqn:Ef. cbn [fst snd] in *.
    destruct (advance_to fuel target (run_cb c g0)) as [[g2 tr2]|] eqn:Ea; [|done]. cbn. intros [= <- <-].
    destruct (IH _ _ _ Hwf1 Ea) as (I1 & I2 & I3). apply next_due_Some in En as (Hp & _ & _).
    assert (length (entries g) ≤ length (entries (run_cb c g0))) as Hlen.
    { rewrite <- !plan_length, Hpl1, length_app, length_insert. lia. }
    split_and!.
    + intros j Hj. destruct (I1 j (C1 j Hj)) as [? Hn]. split; [done|]. cbn. apply not_elem_of_cons. split; [|done].
      intros ->. by eapply cancelled_not_pending.
    + intros j [Hj|(x & Hx & Hc)]%I2; [|right; exists x; split; [by right|done]].
      apply C2 in Hj as [?|?]; [by left|right]. exists (i, t, c). split; [by left|done].
    + intros [|y tr1] x tr3 j E Hc Hl Hf Hn Hne; injection E as <- ->.
      * apply I1, C3; try done.
      * cbn in Hn. apply not_elem_of_cons in Hn as [Hn1 Hn2]. apply (I3 tr1 x tr3 j); try done; [lia|].
        rewrite Hf1. tauto.
  - intros [= <- <-]. cbn. split_and!; [|by left|by intros [] ? ? ? ?].
    intros i Hi. split; [done|]. apply not_elem_of_nil.
Qed.

(** ** Termination *)

(** A measure of the callbacks by what they schedule bounds the rounds. *)
Section weights.
Variable weight : Cb → nat.

Definition asked_weight (c : Cb) : nat :=
  sum_list (omap (λ x, match x with CallSchedule _ c' => Some (weight c') | CallCancel _ => None end) (calls c)).
Definition entry_load (x : nat * Entry) : nat := if is_pending x.2 then from_option weight 0 (cb x.2) else 0.
Definition load (g : Inner) : nat := sum_list (entry_load <$> entries g).

Lemma cancel_load token l : sum_list (entry_load <$> (cancel_loop token l).1) ≤ sum_list (entry_load <$> l).
Proof.
  induction l as [|[tok e] l IH]; cbn; [done|]. destruct (_ && _); cbn.
  - unfold entry_load at 1. cbn. unfold is_pending. cbn. rewrite andb_false_r. lia.
  - destruct (cancel_loop token l) as [l' r]. cbn in *. lia.
Qed.

Lemma calls_load l g :
  load (foldl (λ g x, do_call x g) g l) ≤
    load g + sum_list (omap (λ x, match x with CallSchedule _ c' => Some (weight c') | CallCancel _ => None end) l).
Proof.
  revert g. induction l as [|x l IH]; intros g; cbn; [lia|]. etrans; [apply IH|]. destruct x as [d c|t]; cbn.
  - unfold load at 1. cbn. rewrite fmap_app, sum_list_with_app. cbn. fold (load g). unfold load. lia.
  - assert (load (cancel t g).1 ≤ load g); [|lia]. unfold load, cancel. pose proof (cancel_load t (entries g)).
    by destruct (cancel_loop t (entries g)).
Qed.

Lemma fire_load i t g : pending_at g i t → load (fire i t g).1 + from_option weight 0 (fire i t g).2 = load g.
Proof.
  intros (tok & e & Hi & Hp & _). unfold fire, load. rewrite Hi. cbn.
  rewrite insert_take_drop by by eapply lookup_lt_Some.
  assert (entry_load (tok, e) = from_option weight 0 (cb e)) as E1 by (unfold entry_load; cbn; by rewrite Hp).
  assert (∀ c, entry_load (tok, mkEntry (fire_at e) c true (cancelled e)) = 0) as E2 by done.
  rewrite <- (take_drop_middle _ _ _ Hi) at 3. rewrite !fmap_app, !fmap_cons, !sum_list_with_app. cbn [sum_list_with].
  unfold id. rewrite E1, E2. lia.
Qed.

Lemma advance_to_ends fuel target g :
  (∀ c, asked_weight c < weight c) → sched_wf g → load g < fuel → is_Some (advance_to fuel target g).
Proof.
  intros Hw. revert g. induction fuel as [|fuel IH]; intros g Hwf Hf; [lia|]. cbn [advance_to].
  destruct (next_due target g) as [[i t]|] eqn:En; [|by eauto].
  destruct (round_effects target g i t Hwf En) as (Hwf1 & _). apply next_due_Some in En as (Hp & _ & _).
  pose proof (fire_load i t g Hp) as Hl.
  assert (is_Some (fire i t g).2) as [c Hc].
  { destruct Hp as (tok & e & Hi & Hp & _). unfold fire. rewrite Hi. eapply (wf_cb g Hwf); [done|].
    unfold is_pending in Hp. by destruct (e_fired e). }
  destruct (fire i t g) as [g0 c0]. cbn [fst snd] in *. subst c0. cbn in Hl.
  destruct (IH (run_cb (Some c) g0) Hwf1) as [[g2 tr] ->]; [|by eauto].
  pose proof (calls_load (calls c) g0) as Hcl. specialize (Hw c). unfold asked_weight in Hw. cbn [run_cb]. lia.
Qed.
End weights.
End scheduler.
Arguments Entry : clear implicits.
Arguments Inner : clear implicits.
Arguments Call : clear implicits.

(** An entry that is due and not pending any more has fired or is cancelled. *)
Lemma due_done {Cb} target (g : Inner Cb) i t :
  (∀ u, pending_at g i u → (target < u)%N) → (∃ tok e, entries g !! i = Some (tok, e) ∧ fire_at e = t) →
  (t ≤ target)%N → has_fired g i ∨ cancelled_at g i.
Proof.
  intros Hp (tok & e & Hi & He) Ht. destruct (e_fired e) eqn:Ef; [left; by exists tok, e|].
  destruct (cancelled e) eqn:Ec; [right; by exists tok, e|]. exfalso.
  assert (target < t)%N; [|lia]. apply Hp. exists tok, e. split_and!; [done| |done]. unfold is_pending. by rewrite Ef, Ec.
Qed.

(** C32: an advance of the virtual time, while nothing but the callbacks uses the scheduler.  Let the
    plan be the entries there were, each with its time and its callback, followed by those the
    callbacks that ran asked for, each at the time its callback ran plus the delay.  Then, whatever
    the callbacks schedule or cancel: the entries at the end are those of the plan; what fired fired
    once, in the order of the times, at the time of the plan, between the start and the target, and
    ran the callback of the plan; what the plan has up to the target has fired, unless it is
    cancelled; an entry that a callback cancels before it fired never fires; only cancelled are those
    that were and those that a callback cancelled; and the time is the target.  And an advance ends,
    within a number of rounds that is bounded by the weight of the pending callbacks, for every
    weight in which a callback weighs more than what it schedules. *)
Theorem virtual_time_advances {Cb} (calls : Cb → list (Call Cb)) target (g : Inner Cb) :
  sched_wf g →
  (∀ fuel g' tr, advance_to calls fuel target g = Some (g', tr) →
     let whole := plan g ++ asked calls tr in
     now g' = N.max (now g) target ∧ sched_wf g' ∧ (plan g').*1 = whole.*1 ∧
     StronglySorted N.le tr.*1.*2 ∧ Forall (λ t, (now g ≤ t ≤ target)%N) tr.*1.*2 ∧ NoDup tr.*1.*1 ∧
     (∀ i t c, (i, t, c) ∈ tr → whole !! i = Some (t, c) ∧ is_Some c ∧ ¬ has_fired g i) ∧
     (∀ i t c, whole !! i = Some (t, c) → (t ≤ target)%N → i ∈ tr.*1.*1 ∨ has_fired g i ∨ cancelled_at g' i) ∧
     (∀ i, cancelled_at g' i → cancelled_at g i ∨ ∃ x, x ∈ tr ∧ cancels calls x.2 i) ∧
     (∀ tr1 x tr2 i, tr = tr1 ++ x :: tr2 → cancels calls x.2 i → i < length (entries g) → ¬ has_fired g i →
        i ∉ tr1.*1.*1 → i ≠ x.1.1 → cancelled_at g' i ∧ i ∉ tr2.*1.*1)) ∧
  (∀ weight, (∀ c, asked_weight calls weight c < weight c) →
     is_Some (advance_to calls (S (load weight g)) target g)).
Proof.
  intros Hwf. split.
  - intros fuel g' tr Ha.
    destruct (advance_to_spec calls fuel target g g' tr (wf_time g Hwf) Ha) as (H1 & H2 & H3 & H4 & H5 & H6 & H7).
    destruct (advance_to_plan calls fuel target g g' tr Hwf Ha) as (P1 & P2 & P3).
    destruct (advance_to_cancelled calls fuel target g g' tr Hwf Ha) as (C1 & C2 & C3).
    split_and!; try done.
    + intros i t c Hin. split_and!; [exact (P3 _ Hin)|exact (advance_to_some calls _ _ _ _ _ _ Hwf Ha Hin)|].
      apply H7, list_elem_of_fmap. exists (i, t). split; [done|]. apply list_elem_of_fmap. by exists (i, t, c).
    + intros i t c Hi Ht. apply (due_done target g' i t) in Ht; [|intros u Hu; by destruct (H2 i u Hu)|].
      * rewrite H6 in Ht. tauto.
      * apply (f_equal (lookup i)) in P2. rewrite !list_lookup_fmap, Hi in P2. unfold plan in P2. rewrite list_lookup_fmap in P2.
        destruct (entries g' !! i) as [[tok e]|]; [|done]. injection P2 as <-. eauto.
  - intros weight Hw. apply (advance_to_ends calls weight); [done..|lia].
Qed.

Module TimeDemo.
(** Callbacks are numbers; the callback [1] schedules another five units later. *)
Definition demo_calls (c : nat) : list (Call nat) := match c with 1 => [CallSchedule 5 2; CallCancel 2] | _ => [] end.
Definition demo : Inner nat :=
  let g := scheduler_new 100 in
  let g := (schedule_after 30 7 g).1 in
  let g := (schedule_after 10 1 g).1 in
  (schedule_after 20 8 g).1.

Lemma demo_wf : sched_wf demo.
Proof. repeat apply (do_call_wf (CallSchedule _ _)). apply new_wf. Qed.

(** The entry of the callback fires, the cancelled one does not. *)
Example demo_advance :
  match advance_by demo_calls 10 30 demo with
  | Some (g, tr) => tr = [(1, 110%N, Some 1); (3, 115%N, Some 2); (0, 130%N, Some 7)] ∧ now g = 130%N ∧ pending g = 0 ∧
      fired 2 g = false ∧ (cancel 2 g).2 = false
  | None => False
  end.
Proof. vm_compute. repeat split. Qed.

(** The weights: the callback [1] schedules one other. *)
Lemma virtual_time_advances_witness :
  is_Some (advance_to demo_calls 5 130 demo) ∧
  ∀ g tr, advance_to demo_calls 5 130 demo = Some (g, tr) →
    now g = 130%N ∧ (plan demo ++ asked demo_calls tr) !! 3 = Some (115%N, Some 2).
Proof.
  destruct (virtual_time_advances demo_calls 130 demo demo_wf) as [Heff Hend]. split.
  - apply (Hend (λ c, if c =? 1 then 2 else 1)). intros [|[|c]]; vm_compute; lia.
  - intros g tr Ha. destruct (Heff _ _ _ Ha) as (Hn & _ & _ & _ & _ & _ & Hf & _). split; [done|].
    apply Hf. vm_compute in Ha. injection Ha as _ <-. right. left.
Defined.
End TimeDemo.
