(* ===== verification/Telemetry.v ===== *)
(** * Telemetry of a node

    The crate [atomr-telemetry]: the probes that record what a node does, the bus they
    publish on, and the merging of several nodes' reports in [atomr-dashboard].

    - [Feed] ([bus.rs]): exporters, receivers and forwarders of one topic.
    - [Actors] ([actor_registry.rs]): the registry of live actors and its tree.
    - [Probes] ([dead_letters.rs], [persistence.rs], [streams.rs], [ddata.rs], [remote.rs],
      [sharding.rs], [cluster.rs]): the other probes.
    - [Extension] ([lib.rs]): the probes of a node over one bus.
    - [Aggregation] ([atomr-dashboard/aggregator.rs]).

    A probe's operation gives its new state and what it publishes; [Extension] publishes
    that on the shared bus.  The time of a call is an argument of it. *)

From stdpp Require Import gmap strings list sorting.
From Stdlib Require Import Ascii NArith ZArith Lia.
From S2P Require Import Prelude VectorClock Address Membership Daemon Association Sharding ShardRegions Replication Replicator.

(** ** Data ([dto.rs]) *)

Record ActorStatus := mkActorStatus {
  st_path : string; st_parent : option string; st_type : string;
  st_depth : N; st_spawned_at : string; st_host : option string;
}.
#[export] Instance ActorStatus_eq_dec : EqDecision ActorStatus.
Proof. solve_decision. Defined.

Inductive ActorTreeNode := mkNode {
  tn_path : string; tn_name : string; tn_type : string;
  tn_depth : N; tn_host : option string; tn_children : list ActorTreeNode;
}.

Record ActorSnapshot := mkActorSnapshot {
  as_total : N; as_roots : list ActorTreeNode; as_flat : list ActorStatus;
}.

Record DeadLetterRecord := mkDeadLetterRecord {
  dl_seq : N; dl_recipient : string; dl_sender : option string;
  dl_message_type : string; dl_preview : string; dl_at : string;
}.

Record ClusterMemberInfo := mkMemberInfo {
  mi_address : string; mi_status : string; mi_roles : list string; mi_reachable : bool; mi_up_number : Z;
}.
#[export] Instance ClusterMemberInfo_eq_dec : EqDecision ClusterMemberInfo.
Proof. solve_decision. Defined.

Record ReachabilityRecord := mkReachRecord { rr_observer : string; rr_subject : string; rr_status : string }.

Record ClusterStateInfo := mkStateInfo {
  ci_self : option string; ci_leader : option string; ci_members : list ClusterMemberInfo;
  ci_unreachable : list string; ci_records : list ReachabilityRecord; ci_version : list (string * N);
}.
Definition ClusterStateInfo_default : ClusterStateInfo := mkStateInfo None None [] [] [] [].

Record ClusterMembershipDiff := mkDiff {
  df_added : list ClusterMemberInfo; df_updated : list ClusterMemberInfo; df_removed : list string;
  df_became_unreachable : list string; df_became_reachable : list string;
}.

Record ShardRegionInfo := mkRegionInfo { ri_region : string; ri_count : nat; ri_shards : list string }.
Record ShardingSnapshot := mkShardingSnapshot { ss_regions : list ShardRegionInfo; ss_allocations : list (string * string) }.
Record ShardingEvent := mkShardingEvent { se_region : string; se_shard : string; se_event : string }.

Record PersistenceIdStat := mkIdStat { ps_id : string; ps_highest : N; ps_count : N }.
Record JournalInfo := mkJournalInfo { ji_name : string; ji_ids : list PersistenceIdStat }.
Record JournalWriteInfo := mkWriteInfo { jw_journal : string; jw_id : string; jw_sequence_nr : N; jw_at : string }.
Record PersistenceSnapshot := mkPersistenceSnapshot {
  pn_journals : list JournalInfo; pn_total : N; pn_recent : list JournalWriteInfo;
}.

Record RemoteAssociationInfo := mkAssociationInfo { ra_address : string; ra_state : string; ra_in : N; ra_out : N }.
Record StreamGraphInfo := mkGraphInfo { sg_id : N; sg_name : string; sg_at : string }.
Record StreamsSnapshot := mkStreamsSnapshot {
  sn_running : N; sn_started : N; sn_finished : N; sn_active : list StreamGraphInfo;
}.
Record DDataSnapshot := mkDDataSnapshot { dn_keys : list string; dn_updates : N }.

Record NodeSnapshot := mkNodeSnapshot {
  ns_node : string; ns_at : string; ns_actors : ActorSnapshot; ns_letters : list DeadLetterRecord;
  ns_cluster : ClusterStateInfo; ns_sharding : ShardingSnapshot; ns_persistence : PersistenceSnapshot;
  ns_remote : list RemoteAssociationInfo; ns_streams : StreamsSnapshot; ns_ddata : DDataSnapshot;
}.

Record OverviewSnapshot := mkOverview {
  ov_node : string; ov_at : string; ov_actors : N; ov_letters : N; ov_members : nat; ov_unreachable : nat;
  ov_associations : nat; ov_graphs : N; ov_events : N; ov_keys : nat;
}.

Inductive TelemetryEvent :=
  | ActorSpawned (s : ActorStatus)
  | ActorStopped (path : string)
  | MailboxSampled (path : string) (depth : N)
  | DeadLetterEv (r : DeadLetterRecord)
  | ClusterChanged (d : ClusterMembershipDiff)
  | ShardingChanged (e : ShardingEvent)
  | JournalWrite (w : JournalWriteInfo)
  | RemoteAssociation (a : RemoteAssociationInfo)
  | StreamsGraphStarted (id : N) (name : string)
  | StreamsGraphFinished (id : N)
  | DDataUpdated (key : string).

Definition topic (e : TelemetryEvent) : string :=
  match e with
  | ActorSpawned _ | ActorStopped _ | MailboxSampled _ _ => "actors"
  | DeadLetterEv _ => "dead_letters"
  | ClusterChanged _ => "cluster"
  | ShardingChanged _ => "sharding"
  | JournalWrite _ => "persistence"
  | RemoteAssociation _ => "remote"
  | StreamsGraphStarted _ _ | StreamsGraphFinished _ => "streams"
  | DDataUpdated _ => "ddata"
  end.

Definition ALL_TOPICS : list string :=
  ["actors"; "dead_letters"; "cluster"; "sharding"; "persistence"; "remote"; "streams"; "ddata"].

Lemma topic_listed e : topic e ∈ ALL_TOPICS.
Proof. destruct e; cbn; set_solver. Qed.

(** ** The bus *)

Module Feed.

(** A channel that keeps the last [room] events for receivers that have not read them; a
    receiver is a position in what was sent.  [room] rounds the capacity asked for. *)
Section feed.
Context (room : nat → nat).

Inductive Recv := Got (e : TelemetryEvent) | Lagged (missed : nat) | Pending.

(** The forwarder task of [subscribe_topic]. *)
Record Forwarder := mkForwarder {
  fw_wanted : string; fw_from : nat; fw_at : nat; fw_running : bool; fw_out : list TelemetryEvent; fw_rx_open : bool;
}.

Record TelemetryBus := mkTelemetryBus {
  tb_capacity : nat;
  tb_sent : list TelemetryEvent;
  tb_exporters : list nat;
  tb_exported : list (nat * TelemetryEvent);  (** calls of [on_event], oldest first *)
  tb_receivers : gmap nat nat;
  tb_forwarders : gmap nat Forwarder;
}.

Definition TelemetryBus_new (capacity : nat) : TelemetryBus :=
  mkTelemetryBus (room (capacity `max` 16)) [] [] [] ∅ ∅.

Definition attach_exporter (x : nat) (b : TelemetryBus) : TelemetryBus :=
  mkTelemetryBus (tb_capacity b) (tb_sent b) (tb_exporters b ++ [x]) (tb_exported b) (tb_receivers b) (tb_forwarders b).

(** The exporters, then the channel. *)
Definition publish (e : TelemetryEvent) (b : TelemetryBus) : TelemetryBus :=
  mkTelemetryBus (tb_capacity b) (tb_sent b ++ [e]) (tb_exporters b)
    (tb_exported b ++ ((λ x, (x, e)) <$> tb_exporters b)) (tb_receivers b) (tb_forwarders b).

Definition subscribe (b : TelemetryBus) : nat * TelemetryBus :=
  let k := fresh (dom (tb_receivers b)) in
  (k, mkTelemetryBus (tb_capacity b) (tb_sent b) (tb_exporters b) (tb_exported b)
        (<[k := length (tb_sent b)]> (tb_receivers b)) (tb_forwarders b)).

(** [Receiver::recv] at a position. *)
Definition recv_at (b : TelemetryBus) (p : nat) : Recv * nat :=
  let n := length (tb_sent b) in
  if (p + tb_capacity b <? n)%nat then (Lagged (n - tb_capacity b - p), n - tb_capacity b)
  else match tb_sent b !! p with Some e => (Got e, S p) | None => (Pending, p) end.

Definition recv (k : nat) (b : TelemetryBus) : option (Recv * TelemetryBus) :=
  p ← tb_receivers b !! k;
  let '(r, p') := recv_at b p in
  Some (r, mkTelemetryBus (tb_capacity b) (tb_sent b) (tb_exporters b) (tb_exported b)
             (<[k := p']> (tb_receivers b)) (tb_forwarders b)).

Definition set_forwarder (k : nat) (f : Forwarder) (b : TelemetryBus) : TelemetryBus :=
  mkTelemetryBus (tb_capacity b) (tb_sent b) (tb_exporters b) (tb_exported b) (tb_receivers b)
    (<[k := f]> (tb_forwarders b)).

Definition subscribe_topic (wanted : string) (b : TelemetryBus) : nat * TelemetryBus :=
  let k := fresh (dom (tb_forwarders b)) in
  let n := length (tb_sent b) in
  (k, set_forwarder k (mkForwarder wanted n n true [] true) b).

(** One turn of [while let Ok(ev) = src.recv().await]. *)
Definition forward (b : TelemetryBus) (f : Forwarder) : Forwarder :=
  if fw_running f then
    match recv_at b (fw_at f) with
    | (Got e, p) =>
        if bool_decide (topic e = fw_wanted f) then
          if fw_rx_open f
          then mkForwarder (fw_wanted f) (fw_from f) p true (fw_out f ++ [e]) true
          else mkForwarder (fw_wanted f) (fw_from f) p false (fw_out f) false
        else mkForwarder (fw_wanted f) (fw_from f) p true (fw_out f) (fw_rx_open f)
    | (Lagged _, p) => mkForwarder (fw_wanted f) (fw_from f) p false (fw_out f) (fw_rx_open f)
    | (Pending, _) => f
    end
  else f.

Definition run_forwarder (k : nat) (b : TelemetryBus) : TelemetryBus :=
  match tb_forwarders b !! k with Some f => set_forwarder k (forward b f) b | None => b end.

Definition drop_receiver (k : nat) (b : TelemetryBus) : TelemetryBus :=
  match tb_forwarders b !! k with
  | Some f => set_forwarder k (mkForwarder (fw_wanted f) (fw_from f) (fw_at f) (fw_running f) (fw_out f) false) b
  | None => b
  end.

(** Receivers of the application and of running forwarders. *)
Definition receiver_count (b : TelemetryBus) : nat :=
  size (tb_receivers b) + size (filter (λ kf, fw_running kf.2 = true) (tb_forwarders b)).
End feed.

(** *** What a forwarder has passed on *)

(** A forwarder that runs, or whose receiver is gone, has passed on exactly the events of
    its topic between its start and its position; it is never behind its start. *)
Definition forwarder_ok (b : TelemetryBus) (f : Forwarder) : Prop :=
  (fw_from f ≤ fw_at f ≤ length (tb_sent b))%nat ∧
  (fw_running f = true → fw_rx_open f = true →
   fw_out f = filter (λ e, topic e = fw_wanted f) (take (fw_at f - fw_from f) (drop (fw_from f) (tb_sent b)))) ∧
  fw_out f `sublist_of` filter (λ e, topic e = fw_wanted f) (drop (fw_from f) (tb_sent b)).

Definition feed_ok (b : TelemetryBus) : Prop := ∀ k f, tb_forwarders b !! k = Some f → forwarder_ok b f.
End Feed.

Module FeedFacts.
Import Feed.
Section facts.
Context (room : nat → nat).
Implicit Types (b : TelemetryBus) (f : Forwarder).

Lemma take_step {A} (l : list A) from p e :
  l !! p = Some e → (from ≤ p)%nat → take (S p - from) (drop from l) = take (p - from) (drop from l) ++ [e].
Proof.
  intros He Hp. replace (S p - from) with (S (p - from)) by lia. apply take_S_r.
  rewrite lookup_drop. by replace (from + (p - from)) with p by lia.
Qed.

Lemma recv_got b p e q :
  recv_at b p = (Got e, q) → q = S p ∧ tb_sent b !! p = Some e ∧ (length (tb_sent b) ≤ p + tb_capacity b)%nat.
Proof.
  unfold recv_at. destruct (Nat.ltb_spec (p + tb_capacity b) (length (tb_sent b))); [done|].
  destruct (tb_sent b !! p) eqn:E; intros [= -> <-]. done.
Qed.

Lemma recv_le b p r q : recv_at b p = (r, q) → (p ≤ length (tb_sent b))%nat → (p ≤ q ≤ length (tb_sent b))%nat.
Proof.
  unfold recv_at. destruct (Nat.ltb_spec (p + tb_capacity b) (length (tb_sent b))).
  - intros [= <- <-]. lia.
  - destruct (tb_sent b !! p) eqn:E; intros [= <- <-] Hp; [|lia]. apply lookup_lt_Some in E. lia.
Qed.

(** What a running forwarder has sent comes before the event it reads next. *)
Lemma out_extends b f e :
  forwarder_ok b f → fw_running f = true → fw_rx_open f = true →
  tb_sent b !! fw_at f = Some e → topic e = fw_wanted f →
  fw_out f ++ [e] `sublist_of` filter (λ e, topic e = fw_wanted f) (drop (fw_from f) (tb_sent b)).
Proof.
  intros (Hle & Hout & _) Hr Ho He Ht. rewrite (Hout Hr Ho).
  rewrite <- (take_drop (S (fw_at f) - fw_from f) (drop (fw_from f) (tb_sent b))) at 2.
  rewrite (take_step _ _ _ e) by (done || lia). rewrite !filter_app, filter_cons_True, filter_nil by done.
  by apply sublist_inserts_r.
Qed.

Lemma forward_ok b f : forwarder_ok b f → forwarder_ok b (forward b f).
Proof.
  intros Hf. pose proof Hf as (Hle & Hout & Hsub). unfold forward. destruct (fw_running f) eqn:Hr; [|done].
  destruct (recv_at b (fw_at f)) as [[e|n|] p] eqn:E; [..|done].
  2: { apply recv_le in E; [|lia]. split_and!; cbn; [lia|lia|done|done]. }
  apply recv_got in E as (-> & He & _). pose proof (lookup_lt_Some _ _ _ He).
  destruct (bool_decide_reflect (topic e = fw_wanted f)) as [Ht|Ht].
  - destruct (fw_rx_open f) eqn:Ho; [|by split_and!; cbn; [lia|lia| |]].
    split_and!; cbn; [lia|lia| |by apply out_extends].
    intros _ _. rewrite Hout, (take_step _ _ _ e) by (done || lia).
    by rewrite filter_app, filter_cons_True, filter_nil.
  - split_and!; cbn; [lia|lia| |done]. intros _ Ho. rewrite (take_step _ _ _ e) by (done || lia).
    rewrite filter_app, filter_cons_False, filter_nil, app_nil_r by done. by apply Hout.
Qed.

Lemma publish_forwarder_ok e b f : forwarder_ok b f → forwarder_ok (publish e b) f.
Proof.
  intros (Hle & Hout & Hsub). split_and!; cbn.
  - lia.
  - rewrite length_app. lia.
  - intros Hr Ho. rewrite Hout by done. rewrite drop_app_le by lia.
    rewrite take_app_le; [done|]. rewrite length_drop. lia.
  - rewrite drop_app_le, filter_app by lia. by apply sublist_inserts_r.
Qed.

Lemma set_forwarder_ok k f b : feed_ok b → forwarder_ok b f → feed_ok (set_forwarder k f b).
Proof.
  intros Hb Hf j g. cbn. intros [[<- <-]|[_ Hj]]%lookup_insert_Some; [exact Hf|exact (Hb _ _ Hj)].
Qed.

Inductive FeedOp := FPublish (e : TelemetryEvent) | FSubscribeTopic (wanted : string) | FRun (k : nat) | FDrop (k : nat)
  | FAttach (x : nat) | FSubscribe | FRecv (k : nat).

Definition feed_op b (op : FeedOp) : TelemetryBus :=
  match op with
  | FPublish e => publish e b
  | FSubscribeTopic wanted => (subscribe_topic wanted b).2
  | FRun k => run_forwarder k b
  | FDrop k => drop_receiver k b
  | FAttach x => attach_exporter x b
  | FSubscribe => (subscribe b).2
  | FRecv k => default b (snd <$> recv k b)
  end.

Lemma feed_op_ok b op : feed_ok b → feed_ok (feed_op b op).
Proof.
  intros Hb. destruct op as [e|wanted|k|k|x| |k]; cbn [feed_op].
  - intros j f Hj. apply publish_forwarder_ok. exact (Hb _ _ Hj).
  - apply set_forwarder_ok; [done|]. split_and!; cbn; [lia|lia| |apply sublist_nil_l]. by rewrite Nat.sub_diag.
  - unfold run_forwarder. destruct (tb_forwarders b !! k) as [f|] eqn:E; [|done].
    apply set_forwarder_ok; [done|]. apply forward_ok. by eapply Hb.
  - unfold drop_receiver. destruct (tb_forwarders b !! k) as [f|] eqn:E; [|done].
    apply set_forwarder_ok; [done|]. destruct (Hb _ _ E) as ([? ?] & ? & ?). split_and!; cbn; done.
  - done.
  - done.
  - unfold recv. destruct (tb_receivers b !! k) as [p|]; [|done]. cbn. by destruct (recv_at b p).
Qed.

Lemma feed_reachable_ok capacity ops : feed_ok (foldl feed_op (TelemetryBus_new room capacity) ops).
Proof.
  assert (∀ b, feed_ok b → feed_ok (foldl feed_op b ops)) as Hgen.
  { induction ops as [|op ops IH]; intros b Hb; [done|]. apply IH. by apply feed_op_ok. }
  apply Hgen. intros k f. cbn. by rewrite lookup_empty.
Qed.

(** A forwarder that is not behind the buffer reads up to the end. *)
Lemma forward_catches_up b f :
  forwarder_ok b f → fw_running f = true → fw_rx_open f = true → (length (tb_sent b) ≤ fw_at f + tb_capacity b)%nat →
  let f' := Nat.iter (length (tb_sent b) - fw_at f) (forward b) f in
  fw_running f' = true ∧ fw_out f' = filter (λ e, topic e = fw_wanted f) (drop (fw_from f) (tb_sent b)).
Proof.
  remember (length (tb_sent b) - fw_at f) as n eqn:Hn. revert f Hn.
  induction n as [|n IH]; intros f Hn Hf Hr Ho Hlag; cbn zeta.
  - cbn. split; [done|]. destruct Hf as (Hle & Hout & _). rewrite Hout by done. f_equal. apply take_ge.
    rewrite length_drop. lia.
  - rewrite Nat.iter_succ_r. destruct (lookup_lt_is_Some_2 (tb_sent b) (fw_at f)) as [e He]; [lia|].
    assert (recv_at b (fw_at f) = (Got e, S (fw_at f))) as E.
    { unfold recv_at. destruct (Nat.ltb_spec (fw_at f + tb_capacity b) (length (tb_sent b))); [lia|]. by rewrite He. }
    pose proof (forward_ok b f Hf) as Hf'.
    assert (fw_wanted (forward b f) = fw_wanted f ∧ fw_from (forward b f) = fw_from f ∧ fw_at (forward b f) = S (fw_at f) ∧
      fw_running (forward b f) = true ∧ fw_rx_open (forward b f) = true) as (Hw & Hfr & Ha & Hr' & Ho').
    { unfold forward. rewrite Hr, E. case_bool_decide; [rewrite Ho|]; done. }
    rewrite <- Hw, <- Hfr. apply IH; [lia|done..|lia].
Qed.

(** A forwarder that is behind stops for good, whatever the receiver does. *)
Lemma lagging_forwarder_stops b f b' :
  (fw_at f + tb_capacity b < length (tb_sent b))%nat →
  fw_running (forward b f) = false ∧ forward b' (forward b f) = forward b f.
Proof.
  intros Hlag. unfold forward at 1 3 4. destruct (fw_running f) eqn:Hr; [|split; [done|unfold forward; by rewrite Hr]].
  unfold recv_at. destruct (Nat.ltb_spec (fw_at f + tb_capacity b) (length (tb_sent b))); [done|lia].
Qed.

(** Each exporter is called with every event published since it was attached, in order. *)
Lemma exporters_see x b es :
  x ∈ tb_exporters b → NoDup (tb_exporters b) →
  (filter (λ c, c.1 = x) (tb_exported (foldl (λ b e, publish e b) b es))).*2 =
  (filter (λ c, c.1 = x) (tb_exported b)).*2 ++ es.
Proof.
  intros Hx Hnd. revert b Hx Hnd; induction es as [|e es IH]; intros b Hx Hnd; [by rewrite app_nil_r|]. cbn [foldl].
  rewrite IH by done. cbn [publish tb_exported]. rewrite filter_app, fmap_app, <- app_assoc. f_equal.
  transitivity ([e] ++ es); [|done]. f_equal. clear -Hx Hnd. induction (tb_exporters b) as [|y l IH]; [set_solver|].
  apply NoDup_cons in Hnd as [Hy Hnd]. cbn [fmap list_fmap]. rewrite filter_cons. cbn [fst].
  apply elem_of_cons in Hx as [<-|Hx].
  - rewrite decide_True by done. cbn. f_equal. rewrite filter_none; [done|]. intros [z e'] (w & [= -> ->] & Hw)%list_elem_of_fmap.
    cbn. by intros ->.
  - rewrite decide_False by (intros ->; done). by apply IH.
Qed.
End facts.

(** Sixteen events of other topics and one more while the task waits: a receiver of
    "ddata" is closed, though no event of its topic was lost. *)
Lemma busy_topic_closes_quiet_one :
  let quiet := (subscribe_topic "ddata" (TelemetryBus_new id 8)) in
  let b := foldl (λ b e, publish e b) quiet.2 (replicate 17 (ActorStopped "/user/a") ++ [DDataUpdated "k"]) in
  let b := run_forwarder quiet.1 (run_forwarder quiet.1 b) in
  fw_running <$> tb_forwarders b !! quiet.1 = Some false ∧ fw_out <$> tb_forwarders b !! quiet.1 = Some [].
Proof. vm_compute. done. Qed.

(** A dropped receiver keeps its forwarder running until the next event of its topic. *)
Lemma dropped_receiver_keeps_task :
  let quiet := (subscribe_topic "ddata" (TelemetryBus_new id 8)) in
  let b := publish (ActorStopped "/user/a") (drop_receiver quiet.1 quiet.2) in
  receiver_count (run_forwarder quiet.1 b) = 1.
Proof. vm_compute. done. Qed.
End FeedFacts.

(** ** The actor registry *)

Module Actors.

Record ActorRegistry := mkRegistry { re_entries : gmap string ActorStatus; re_spawned : N; re_stopped : N }.

Definition ActorRegistry_new : ActorRegistry := mkRegistry ∅ 0 0.

Definition record_spawn (s : ActorStatus) (r : ActorRegistry) : ActorRegistry * list TelemetryEvent :=
  (mkRegistry (<[st_path s := s]> (re_entries r)) (u64_add (re_spawned r) 1) (re_stopped r), [ActorSpawned s]).

Definition set_host (path host : string) (r : ActorRegistry) : ActorRegistry :=
  mkRegistry (alter (λ s, mkActorStatus (st_path s) (st_parent s) (st_type s) (st_depth s) (st_spawned_at s) (Some host))
    path (re_entries r)) (re_spawned r) (re_stopped r).

Definition record_stop (path : string) (r : ActorRegistry) : ActorRegistry * list TelemetryEvent :=
  match re_entries r !! path with
  | Some _ => (mkRegistry (delete path (re_entries r)) (re_spawned r) (u64_add (re_stopped r) 1), [ActorStopped path])
  | None => (r, [])
  end.

Definition set_depth (depth : N) (s : ActorStatus) : ActorStatus :=
  mkActorStatus (st_path s) (st_parent s) (st_type s) depth (st_spawned_at s) (st_host s).

Definition record_mailbox_depth (path : string) (depth : N) (r : ActorRegistry) : ActorRegistry * list TelemetryEvent :=
  (mkRegistry (alter (set_depth depth) path (re_entries r)) (re_spawned r) (re_stopped r), [MailboxSampled path depth]).

Definition live_count (r : ActorRegistry) : N := N.of_nat (size (re_entries r)).

(** The observer of the actor system. *)
Definition on_spawn (now : string) (path : ActorPath) (parent : option ActorPath) (actor_type : string)
    : ActorRegistry → ActorRegistry * list TelemetryEvent :=
  record_spawn (mkActorStatus (ActorPath_to_string path) (ActorPath_to_string <$> parent) actor_type 0 now None).
Definition on_stop (path : ActorPath) : ActorRegistry → ActorRegistry * list TelemetryEvent :=
  record_stop (ActorPath_to_string path).
Definition on_mailbox_depth (path : ActorPath) (depth : N) : ActorRegistry → ActorRegistry * list TelemetryEvent :=
  record_mailbox_depth (ActorPath_to_string path) depth.

(** *** The tree *)

(** What follows the last slash, if there is one. *)
Fixpoint after_last_slash (s : string) : option string :=
  match s with
  | EmptyString => None
  | String c s' =>
      match after_last_slash s' with
      | Some r => Some r
      | None => if bool_decide (c = "/"%char) then Some s' else None
      end
  end.

(** [path.rsplit('/').next().unwrap_or(path)]. *)
Definition last_segment (path : string) : string := default path (after_last_slash path).

Section tree.
Context (flat : list ActorStatus).

Definition known (p : string) : bool := existsb (λ x, bool_decide (st_path x = p)) flat.

Definition group_one (acc : gmap string (list ActorStatus) * list ActorStatus) (s : ActorStatus) :=
  match st_parent s with
  | Some p => if known p then (<[p := default [] (acc.1 !! p) ++ [s]]> acc.1, acc.2) else (acc.1, acc.2 ++ [s])
  | None => (acc.1, acc.2 ++ [s])
  end.

Definition group : gmap string (list ActorStatus) * list ActorStatus := foldl group_one (∅, []) flat.

(** [None]: deeper than the fuel. *)
Fixpoint to_node (fuel : nat) (s : ActorStatus) : option ActorTreeNode :=
  match fuel with
  | O => None
  | S fuel =>
      children ← mapM (to_node fuel) (default [] (group.1 !! st_path s));
      Some (mkNode (st_path s) (last_segment (st_path s)) (st_type s) (st_depth s) (st_host s) children)
  end.

Definition build_tree : option (list ActorTreeNode) := mapM (to_node (length flat)) group.2.
End tree.

(** The entries in the order [flat] of an iteration. *)
Definition snapshot_of (flat : list ActorStatus) : option ActorSnapshot :=
  roots ← build_tree flat; Some (mkActorSnapshot (N.of_nat (length flat)) roots flat).

Definition ActorRegistry_snapshot (r : ActorRegistry) : option ActorSnapshot :=
  snapshot_of (map_to_list (re_entries r)).*2.
End Actors.

Lemma Forall2_impl_in {A B} (P Q : A → B → Prop) l k :
  Forall2 P l k → (∀ x y, x ∈ l → P x y → Q x y) → Forall2 Q l k.
Proof.
  induction 1 as [|x y l k Hxy Hlk IH]; intros HPQ; constructor; [apply HPQ; [left|done]|].
  apply IH. intros x' y' Hx. apply HPQ. by right.
Qed.

(** The paths of a tree, parents before their children. *)
Fixpoint tree_paths (t : ActorTreeNode) : list string := tn_path t :: concat (tree_paths <$> tn_children t).

Module ActorFacts.
Import Actors.
Section tree.
Context (flat : list ActorStatus) (Hnd : NoDup (st_path <$> flat)).

(** The parent of a status among the others. *)
Definition parent_in (s : ActorStatus) : option string :=
  p ← st_parent s; if known flat p then Some p else None.

Definition children (s : ActorStatus) : list ActorStatus := filter (λ c, parent_in c = Some (st_path s)) flat.
Definition tops : list ActorStatus := filter (λ c, parent_in c = None) flat.

Lemma known_spec p : known flat p = true ↔ ∃ x, x ∈ flat ∧ st_path x = p.
Proof.
  unfold known. rewrite existsb_exists. setoid_rewrite list_elem_of_In. setoid_rewrite bool_decide_eq_true. done.
Qed.

Lemma group_one_parent acc s :
  group_one flat acc s = match parent_in s with
    | Some p => (<[p := default [] (acc.1 !! p) ++ [s]]> acc.1, acc.2)
    | None => (acc.1, acc.2 ++ [s])
    end.
Proof. unfold group_one, parent_in. destruct (st_parent s) as [p|]; [|done]. cbn. by destruct (known flat p). Qed.

Lemma group_spec : (∀ p, default [] ((group flat).1 !! p) = filter (λ c, parent_in c = Some p) flat) ∧ (group flat).2 = tops.
Proof.
  unfold group, tops.
  assert (∀ l, (∀ p, default [] ((foldl (group_one flat) (∅, []) l).1 !! p) = filter (λ c, parent_in c = Some p) l) ∧
    (foldl (group_one flat) (∅, []) l).2 = filter (λ c, parent_in c = None) l) as Hgen; [|apply Hgen].
  induction l as [|c l [IH1 IH2]] using rev_ind; [split; [|done]; intros p; cbn; by rewrite lookup_empty|].
  rewrite foldl_app, filter_app. cbn [foldl]. rewrite group_one_parent, filter_cons, filter_nil, <- IH2.
  destruct (parent_in c) as [q|] eqn:Hq; cbn.
  - split; [|by rewrite app_nil_r]. intros p. rewrite filter_app, filter_cons, filter_nil, Hq, <- (IH1 p).
    destruct (decide (q = p)) as [->|Hne].
    + rewrite lookup_insert_eq, decide_True by done. done.
    + rewrite lookup_insert_ne, decide_False, app_nil_r by congruence. done.
  - split; [|done]. intros p. by rewrite filter_app, filter_cons, filter_nil, Hq, decide_False, app_nil_r.
Qed.

Lemma to_node_equation fuel s :
  to_node flat (S fuel) s =
  (cs ← mapM (to_node flat fuel) (children s);
   Some (mkNode (st_path s) (last_segment (st_path s)) (st_type s) (st_depth s) (st_host s) cs)).
Proof. cbn [to_node]. unfold children. by rewrite (proj1 group_spec). Qed.

(** *** Chains of parents

    A status, its parent, and so on up to one without a parent among the others. *)
Inductive chain : list ActorStatus → Prop :=
  | chain_top s : s ∈ flat → parent_in s = None → chain [s]
  | chain_cons s t l : s ∈ flat → parent_in s = Some (st_path t) → chain (t :: l) → chain (s :: t :: l).

Lemma chain_in l : chain l → l ⊆ flat.
Proof. clear Hnd. induction 1; set_solver. Qed.

Lemma same_path s t : s ∈ flat → t ∈ flat → st_path s = st_path t → s = t.
Proof.
  intros [i Hi]%list_elem_of_lookup [j Hj]%list_elem_of_lookup Heq.
  assert (i = j) as ->; [|congruence].
  eapply (NoDup_lookup (st_path <$> flat)); [done|..]; rewrite list_lookup_fmap.
  - by rewrite Hi.
  - by rewrite Hj, Heq.
Qed.

(** There is one way up. *)
Lemma chain_unique s l l' : chain (s :: l) → chain (s :: l') → l = l'.
Proof.
  remember (s :: l) as k eqn:Hk. intros Hc. revert s l l' Hk.
  induction Hc as [u Hu Hp|u t k Hu Hp Hc IH]; intros s l l' [= -> <-] Hc'.
  - inversion Hc' as [|? t' l2 ? Hp']; simplify_eq; congruence.
  - inversion Hc' as [? ? Hp'|? t' l2 ? Hp' Hc2]; simplify_eq.
    assert (t' = t) as ->.
    { apply same_path; [apply (chain_in _ Hc2); left|apply (chain_in _ Hc); left|congruence]. }
    f_equal. by eapply IH.
Qed.

Lemma chain_suffix l1 l2 : chain (l1 ++ l2) → l2 ≠ [] → chain l2.
Proof.
  induction l1 as [|s l1 IH]; [done|]. intros Hc Hne. apply IH; [|done]. cbn in Hc. inversion Hc as [? ? ? Heq|]; simplify_eq.
  - destruct l1, l2; done.
  - congruence.
Qed.

Lemma chain_NoDup l : chain l → NoDup l.
Proof.
  induction 1 as [s|s t l Hs Hp Hc IH]; [apply NoDup_singleton|]. apply NoDup_cons. split; [|done].
  intros (l1 & l2 & Heq)%list_elem_of_split.
  assert (chain (s :: l2)) as Hc2 by (eapply (chain_suffix l1); [by rewrite <- Heq|done]).
  assert (t :: l = l2) as Hl by (eapply (chain_unique s); [by constructor|done]).
  apply (f_equal length) in Heq. rewrite length_app, <- Hl in Heq. cbn in Heq. lia.
Qed.

Lemma chain_length l : chain l → (length l ≤ length flat)%nat.
Proof.
  intros Hc. apply submseteq_length, NoDup_submseteq; [by apply chain_NoDup|].
  intros x. apply (chain_in _ Hc).
Qed.

Lemma chain_child s l c : chain (s :: l) → c ∈ children s → chain (c :: s :: l).
Proof. intros Hc [Hp Hin]%list_elem_of_filter. by constructor. Qed.

Lemma chain_top_in s : s ∈ tops → chain [s].
Proof. intros [Hp Hin]%list_elem_of_filter. by constructor. Qed.

(** *** The tree of a list *)

(** The nodes of a tree are the statuses with their children below them, in the order of
    the list. *)
Inductive mirrors : ActorStatus → ActorTreeNode → Prop :=
  | mirrors_node s ts : Forall2 mirrors (children s) ts →
      mirrors s (mkNode (st_path s) (last_segment (st_path s)) (st_type s) (st_depth s) (st_host s) ts).

(** [y] is a status below the chain [l], or its first one. *)
Definition below (l : list ActorStatus) (y : string) : Prop :=
  ∃ k, chain k ∧ l `suffix_of` k ∧ st_path <$> head k = Some y.

Definition tree_spec (l : list ActorStatus) (s : ActorStatus) (t : ActorTreeNode) : Prop :=
  NoDup (tree_paths t) ∧ ∀ y, y ∈ tree_paths t ↔ below (s :: l) y.

Lemma head_unique k k' y :
  chain k → chain k' → st_path <$> head k = Some y → st_path <$> head k' = Some y → k = k'.
Proof.
  intros Hk Hk'. destruct k as [|u k], k' as [|u' k']; cbn; [done..|]. intros [= Hu] [= Hu'].
  assert (u = u') as ->.
  { apply same_path; [apply (chain_in _ Hk); left|apply (chain_in _ Hk'); left|congruence]. }
  f_equal. by eapply chain_unique.
Qed.

Lemma suffix_cons_eq {A} (c c' : A) l k : c :: l `suffix_of` k → c' :: l `suffix_of` k → c = c'.
Proof.
  intros [m ->] [m' Heq]. rewrite !cons_middle, !app_assoc in Heq.
  apply app_inj_2 in Heq as [Heq _]; [|done]. by apply app_inj_tail in Heq as [_ <-].
Qed.

Lemma forest_spec l cs ts :
  Forall2 (tree_spec l) cs ts → NoDup cs →
  NoDup (concat (tree_paths <$> ts)) ∧ ∀ y, y ∈ concat (tree_paths <$> ts) ↔ ∃ c, c ∈ cs ∧ below (c :: l) y.
Proof.
  induction 1 as [|c t cs ts [Hn Hy] Hts IH]; intros Hcs.
  { split; [constructor|]. cbn. set_solver. }
  apply NoDup_cons in Hcs as [Hc Hcs]. destruct (IH Hcs) as [IHn IHy]. cbn [fmap list_fmap concat]. split.
  - apply NoDup_app. split_and!; [done| |done]. intros y. rewrite Hy, IHy.
    intros (k & Hk & Hs & Hh) (c' & Hc' & k' & Hk' & Hs' & Hh').
    rewrite (head_unique k' k y) in Hs' by done. by rewrite (suffix_cons_eq c c' l k) in Hc.
  - intros y. rewrite elem_of_app, Hy, IHy. set_solver.
Qed.

Lemma flat_NoDup : NoDup flat.
Proof. by apply (NoDup_fmap_1 st_path). Qed.

Lemma to_node_spec fuel s l t :
  chain (s :: l) → to_node flat fuel s = Some t → tree_spec l s t.
Proof.
  revert s l t; induction fuel as [|fuel IH]; intros s l t Hc; [done|]. rewrite to_node_equation.
  intros (ts & Hts%mapM_Some_1 & [= <-])%bind_Some.
  destruct (forest_spec (s :: l) (children s) ts) as [Hn Hy].
  { eapply Forall2_impl_in; [exact Hts|]. cbn. intros c t Hin Ht. apply IH; [by apply chain_child|done]. }
  { apply NoDup_filter, flat_NoDup. }
  split; cbn [tree_paths tn_path tn_children].
  - apply NoDup_cons. split; [|done]. rewrite Hy. intros (c & Hin & k & Hk & Hs & Hh).
    rewrite (head_unique k (s :: l) (st_path s)) in Hs by done.
    apply suffix_length in Hs. cbn in Hs. lia.
  - intros y. rewrite elem_of_cons, Hy. split.
    + intros [->|(c & Hin & k & Hk & Hs & Hh)].
      * by exists (s :: l).
      * exists k. split_and!; [done| |done]. etrans; [|exact Hs]. by apply suffix_cons_r.
    + intros (k & Hk & [m ->] & Hh). destruct m as [|c m _] using rev_ind; [left; by simplify_eq/=|right].
      rewrite <- app_assoc in Hk, Hh. cbn in Hk, Hh. exists c. split.
      * apply chain_suffix in Hk; [|done]. inversion Hk; simplify_eq. by apply list_elem_of_filter.
      * eexists. split_and!; [exact Hk| |exact Hh]. by exists m.
Qed.

Lemma to_node_total fuel s l :
  chain (s :: l) → (length flat ≤ fuel + length l)%nat → is_Some (to_node flat fuel s).
Proof.
  revert s l; induction fuel as [|fuel IH]; intros s l Hc Hle.
  - apply chain_length in Hc. cbn in Hc. lia.
  - rewrite to_node_equation. destruct (mapM_is_Some_2 (to_node flat fuel) (children s)) as [ts Hts].
    { apply Forall_forall. intros c Hin. apply (IH c (s :: l)); [by apply chain_child|cbn; lia]. }
    rewrite Hts. by eexists.
Qed.

Lemma to_node_mirrors fuel s t : to_node flat fuel s = Some t → mirrors s t.
Proof.
  revert s t; induction fuel as [|fuel IH]; intros s t; [done|]. rewrite to_node_equation.
  intros (ts & Hts%mapM_Some_1 & [= <-])%bind_Some. constructor. eapply Forall2_impl; [exact Hts|]. auto.
Qed.

(** If a parent's path is shorter, every status has a way up. *)
Lemma chain_exists s :
  (∀ c p, c ∈ flat → st_parent c = Some p → (String.length p < String.length (st_path c))%nat) →
  s ∈ flat → ∃ l, chain (s :: l).
Proof.
  intros Hlt. remember (String.length (st_path s)) as n eqn:Hn. revert s Hn.
  induction (lt_wf n) as [n _ IH]. intros s -> Hs. destruct (parent_in s) as [p|] eqn:Hp.
  - pose proof Hp as (q & Hq & Hk)%bind_Some. destruct (known flat q) eqn:Ek; [|done]. injection Hk as ->.
    apply known_spec in Ek as (t & Ht & <-).
    destruct (IH (String.length (st_path t)) (Hlt _ _ Hs Hq) t eq_refl Ht) as [l Hl].
    exists (t :: l). by constructor.
  - exists []. by constructor.
Qed.
End tree.
End ActorFacts.

(** The registry's tree is always built, whatever parents the actors name: each node has
    as children the actors that name it, no actor is in it twice, and it has the actors
    that have a way up.  Where a parent's path is shorter than its child's, it has all. *)
Theorem actor_tree_complete (flat : list ActorStatus) :
  NoDup (st_path <$> flat) →
  ∃ roots, Actors.build_tree flat = Some roots ∧
    Forall2 (ActorFacts.mirrors flat) (ActorFacts.tops flat) roots ∧
    NoDup (concat (tree_paths <$> roots)) ∧
    (∀ y, y ∈ concat (tree_paths <$> roots) ↔ ∃ l, ActorFacts.chain flat l ∧ st_path <$> head l = Some y) ∧
    ((∀ c p, c ∈ flat → st_parent c = Some p → (String.length p < String.length (st_path c))%nat) →
     concat (tree_paths <$> roots) ≡ₚ st_path <$> flat).
Proof.
  intros Hnd. unfold Actors.build_tree. rewrite (proj2 (ActorFacts.group_spec flat)).
  destruct (mapM_is_Some_2 (Actors.to_node flat (length flat)) (ActorFacts.tops flat)) as [roots Hr].
  { apply Forall_forall. intros s Hs. apply (ActorFacts.to_node_total flat Hnd _ s []); [|cbn; lia].
    by apply ActorFacts.chain_top_in. }
  exists roots. rewrite Hr. apply mapM_Some_1 in Hr.
  destruct (ActorFacts.forest_spec flat Hnd [] (ActorFacts.tops flat) roots) as [Hn Hy].
  { eapply Forall2_impl_in; [exact Hr|]. cbn. intros c t Hin Ht. eapply ActorFacts.to_node_spec; [done| |exact Ht].
    by apply ActorFacts.chain_top_in. }
  { apply NoDup_filter. by apply ActorFacts.flat_NoDup. }
  assert (∀ y, y ∈ concat (tree_paths <$> roots) ↔ ∃ l, ActorFacts.chain flat l ∧ st_path <$> head l = Some y) as Hall.
  { intros y. rewrite Hy. split; [intros (c & _ & k & ? & _ & ?); eauto|]. intros (k & Hk & Hh).
    destruct k as [|c m _] using rev_ind; [done|]. exists c. split; [|by exists (m ++ [c]); split_and!; [|by exists m|]].
    apply ActorFacts.chain_suffix in Hk; [|done]. inversion Hk; simplify_eq. by apply list_elem_of_filter. }
  split_and!; [done|..|done|].
  - eapply Forall2_impl; [exact Hr|]. intros s t. apply ActorFacts.to_node_mirrors.
  - done.
  - intros Hlt. apply NoDup_Permutation; [done..|]. intros y. rewrite Hall, list_elem_of_fmap. split.
    + intros ([|s l] & Hc & [= <-]). exists s. split; [done|]. apply (ActorFacts.chain_in _ _ Hc). left.
    + intros (s & -> & Hs). destruct (ActorFacts.chain_exists flat s Hlt Hs) as [l Hl]. by exists (s :: l).
Qed.

Definition status_at (path : string) (parent : option string) : ActorStatus := mkActorStatus path parent "Test" 0 "now" None.

Lemma actor_tree_complete_witness :
  ∃ roots, Actors.build_tree [status_at "/user/a/aa" (Some "/user/a"); status_at "/user" None; status_at "/user/a" (Some "/user")] = Some roots ∧
    concat (tree_paths <$> roots) ≡ₚ ["/user/a/aa"; "/user"; "/user/a"].
Proof.
  destruct (actor_tree_complete [status_at "/user/a/aa" (Some "/user/a"); status_at "/user" None; status_at "/user/a" (Some "/user")])
    as (roots & Hr & _ & _ & _ & Hp).
  { apply NoDup_ListNoDup. repeat constructor; cbn; intuition discriminate. }
  exists roots. split; [exact Hr|]. apply Hp.
  intros c p Hc Hp'. rewrite !elem_of_cons in Hc. destruct Hc as [->|[->|[->|Hc]]]; cbn in Hp'; [injection Hp' as <-; cbn; lia|
    discriminate|injection Hp' as <-; cbn; lia|by apply not_elem_of_nil in Hc].
Defined.

(** The path of a child is longer than its parent's, unless the child has no name. *)
Lemma child_path_longer name p :
  name ≠ "" → (String.length (ActorPath_to_string p) < String.length (ActorPath_to_string (ActorPath_child name p)))%nat.
Proof.
  intros Hn. unfold ActorPath_to_string, ActorPath_child. cbn [ap_address]. rewrite !length_string_app.
  apply Nat.add_lt_mono_l. unfold to_string_without_address. cbn [ap_elements]. rewrite foldl_app. cbn [foldl].
  destruct (foldl _ _ _) as [i s]. unfold path_push. cbn [snd]. rewrite length_string_app.
  destruct name as [|c name]; [done|]. cbn [String.length]. destruct (0 <? i)%nat; rewrite ?length_string_app; lia.
Qed.

(** Actors that name each other as parents are missing from the tree. *)
Example parents_in_a_circle :
  Actors.build_tree [status_at "/a" (Some "/b"); status_at "/b" (Some "/a"); status_at "/c" None] =
  Some [mkNode "/c" "c" "Test" 0 None []].
Proof. reflexivity. Qed.
