(* ===== verification/Probes.v ===== *)
(** * The probes of a node and the dashboard's totals

    - [Probes]: the dead-letter feed, the journal, stream, replicated-data, remote, sharding
      and cluster probes of [atomr-telemetry].
    - [Extension] ([lib.rs]): all probes of a node over one bus, and what a client that
      follows the bus knows.
    - [Aggregation] ([atomr-dashboard/aggregator.rs]): the reports of several nodes. *)

From stdpp Require Import gmap strings list sorting.
From Stdlib Require Import NArith ZArith Lia.
From S2P Require Import Prelude Replicator VectorClock Address Membership Daemon Association Sharding ShardRegions Journal Telemetry.

Module Probes.

(** ** Bounded buffers *)

(** [if b.len() == capacity { b.pop_front(); } b.push_back(x)]. *)
Definition ring_push {A} (capacity : nat) (x : A) (b : list A) : list A :=
  (if length b =? capacity then drop 1 b else b) ++ [x].

(** ** Dead letters *)

Record DeadLetterFeed := mkFeed { fd_buf : list DeadLetterRecord; fd_capacity : nat; fd_total : N }.

Definition DeadLetterFeed_new (capacity : nat) : DeadLetterFeed := mkFeed [] (capacity `max` 1) 0.

(** [fetch_add(1) + 1]: the addition of the number is checked in debug builds only. *)
Definition record (now recipient : string) (sender : option string) (message_type preview : string) (d : DeadLetterFeed)
    : DeadLetterFeed * list TelemetryEvent :=
  let seq := u64_add (fd_total d) 1 in
  let rec := mkDeadLetterRecord seq recipient sender message_type preview now in
  (mkFeed (ring_push (fd_capacity d) rec (fd_buf d)) (fd_capacity d) seq, [DeadLetterEv rec]).

Definition recent (limit : nat) (d : DeadLetterFeed) : list DeadLetterRecord := take limit (reverse (fd_buf d)).
Definition buffered (d : DeadLetterFeed) : nat := length (fd_buf d).

Definition on_dead_letter (now : string) (recipient : ActorPath) (sender : option ActorPath) (message_type : string)
    : DeadLetterFeed → DeadLetterFeed * list TelemetryEvent :=
  record now (ActorPath_to_string recipient) (ActorPath_to_string <$> sender) message_type "".

(** ** Journals *)

(** [trait JournalAdmin], with the answers of a journal at the time of the call. *)
Record JournalAdmin := mkAdmin {
  admin_name : string; list_persistence_ids : list string;
  highest_sequence_nr_for : string → N; event_count_for : string → N;
}.

(** [InMemoryJournalAdmin]. *)
Definition event_count (pid : string) (j : InMemoryJournal) : N :=
  match streams j !! pid with
  | Some v => N.of_nat (length (filter (λ r, deleted r = false) v))
  | None => 0
  end.

Definition InMemoryJournalAdmin (name : string) (j : InMemoryJournal) : JournalAdmin :=
  mkAdmin name (map_to_list (streams j)).*1
    (λ pid, match InMemoryJournal_highest_sequence_nr pid 0 j with inr n => n | inl _ => 0%N end)
    (λ pid, event_count pid j).

Record PersistenceProbe := mkPersistence {
  pp_journals : list JournalAdmin; pp_recent : list JournalWriteInfo; pp_total : N; pp_max : nat;
}.
Definition PersistenceProbe_new : PersistenceProbe := mkPersistence [] [] 0 128.

Definition register_journal (a : JournalAdmin) (p : PersistenceProbe) : PersistenceProbe :=
  mkPersistence (pp_journals p ++ [a]) (pp_recent p) (pp_total p) (pp_max p).

Definition record_write (now journal pid : string) (nr : N) (p : PersistenceProbe) : PersistenceProbe * list TelemetryEvent :=
  let info := mkWriteInfo journal pid nr now in
  (mkPersistence (pp_journals p) (ring_push (pp_max p) info (pp_recent p)) (u64_add (pp_total p) 1) (pp_max p), [JournalWrite info]).

Definition PersistenceProbe_snapshot (p : PersistenceProbe) : PersistenceSnapshot :=
  mkPersistenceSnapshot [] (pp_total p) (pp_recent p).

(** Each admin in turn, each of its identifiers in turn. *)
Definition snapshot_async (p : PersistenceProbe) : PersistenceSnapshot :=
  mkPersistenceSnapshot
    ((λ j, mkJournalInfo (admin_name j)
       ((λ id, mkIdStat id (highest_sequence_nr_for j id) (event_count_for j id)) <$> list_persistence_ids j)) <$> pp_journals p)
    (pp_total p) (pp_recent p).

(** ** Streams *)

Record StreamsProbe := mkStreams { sp_active : gmap N StreamGraphInfo; sp_next : N; sp_started : N; sp_finished : N }.
Definition StreamsProbe_new : StreamsProbe := mkStreams ∅ 1 0 0.

Definition start_graph (now name : string) (p : StreamsProbe) : N * (StreamsProbe * list TelemetryEvent) :=
  let id := sp_next p in
  (id, (mkStreams (<[id := mkGraphInfo id name now]> (sp_active p)) (u64_add id 1) (u64_add (sp_started p) 1) (sp_finished p),
        [StreamsGraphStarted id name])).

Definition finish_graph (id : N) (p : StreamsProbe) : StreamsProbe * list TelemetryEvent :=
  match sp_active p !! id with
  | Some _ => (mkStreams (delete id (sp_active p)) (sp_next p) (sp_started p) (u64_add (sp_finished p) 1), [StreamsGraphFinished id])
  | None => (p, [])
  end.

Definition running (p : StreamsProbe) : N := N.of_nat (size (sp_active p)).
Definition StreamsProbe_snapshot (p : StreamsProbe) : StreamsSnapshot :=
  mkStreamsSnapshot (running p) (sp_started p) (sp_finished p) (map_to_list (sp_active p)).*2.

(** ** Replicated data *)

Record DDataProbe := mkDData { dp_keys : gset string; dp_updates : N }.
Definition DDataProbe_new : DDataProbe := mkDData ∅ 0.

Definition record_update (key : string) (p : DDataProbe) : DDataProbe * list TelemetryEvent :=
  (mkDData ({[key]} ∪ dp_keys p) (u64_add (dp_updates p) 1), [DDataUpdated key]).
Definition record_delete (key : string) (p : DDataProbe) : DDataProbe := mkDData (dp_keys p ∖ {[key]}) (dp_updates p).
Definition key_count (p : DDataProbe) : nat := size (dp_keys p).
Definition DDataProbe_snapshot (p : DDataProbe) : DDataSnapshot :=
  mkDDataSnapshot (sort_by_key id (elements (dp_keys p))) (dp_updates p).

(** [Replicator::keys]. *)
Definition replicator_keys {Tag} {CT : Tag → Type} (r : Replicator CT) : list string :=
  sort_by_key id (elements (dom (store r))).

Definition DDataProbe_refresh_from {Tag} {CT : Tag → Type} (r : Replicator CT) (p : DDataProbe) : DDataProbe :=
  let current := dp_keys p in
  let fresh : gset string := list_to_set (replicator_keys r) in
  let keys := foldl (λ ks gone, ks ∖ {[gone]}) (dp_keys p) (elements (current ∖ fresh)) in
  mkDData (foldl (λ ks new, {[new]} ∪ ks) keys (elements (fresh ∖ current))) (dp_updates p).

(** ** Remoting *)

Record AssociationCounters := mkCounters { ac_state : string; ac_in : N; ac_out : N }.
Abbreviation RemoteProbe := (gmap string AssociationCounters).

Definition record_association (addr state : string) (p : RemoteProbe) : RemoteProbe * list TelemetryEvent :=
  (<[addr := mkCounters state 0 0]> p, [RemoteAssociation (mkAssociationInfo addr state 0 0)]).
Definition set_state (addr state : string) (p : RemoteProbe) : RemoteProbe :=
  alter (λ e, mkCounters state (ac_in e) (ac_out e)) addr p.
Definition record_inbound_bytes (addr : string) (n : N) (p : RemoteProbe) : RemoteProbe :=
  alter (λ e, mkCounters (ac_state e) (u64_add (ac_in e) n) (ac_out e)) addr p.
Definition record_outbound_bytes (addr : string) (n : N) (p : RemoteProbe) : RemoteProbe :=
  alter (λ e, mkCounters (ac_state e) (ac_in e) (u64_add (ac_out e) n)) addr p.
Definition remove (addr : string) (p : RemoteProbe) : RemoteProbe := delete addr p.
Definition RemoteProbe_snapshot (p : RemoteProbe) : list RemoteAssociationInfo :=
  (λ e : string * AssociationCounters, mkAssociationInfo e.1 (ac_state e.2) (ac_in e.2) (ac_out e.2)) <$> map_to_list p.

(** [atomr-remote/metrics.rs]. *)
Record PerAddress := mkPerAddress {
  sent_messages : N; sent_bytes : N; received_messages : N; received_bytes : N; errors : N;
}.
Definition PerAddress_default : PerAddress := mkPerAddress 0 0 0 0 0.
Abbreviation RemoteMetrics := (gmap string PerAddress).

Definition record_send (a : Address) (bytes : N) (m : RemoteMetrics) : RemoteMetrics :=
  entry_update PerAddress_default
    (λ e, mkPerAddress (u64_add (sent_messages e) 1) (u64_add (sent_bytes e) bytes) (received_messages e) (received_bytes e) (errors e))
    (Address_to_string a) m.
Definition record_receive (a : Address) (bytes : N) (m : RemoteMetrics) : RemoteMetrics :=
  entry_update PerAddress_default
    (λ e, mkPerAddress (sent_messages e) (sent_bytes e) (u64_add (received_messages e) 1) (u64_add (received_bytes e) bytes) (errors e))
    (Address_to_string a) m.
Definition record_error (a : Address) (m : RemoteMetrics) : RemoteMetrics :=
  entry_update PerAddress_default
    (λ e, mkPerAddress (sent_messages e) (sent_bytes e) (received_messages e) (received_bytes e) (u64_add (errors e) 1))
    (Address_to_string a) m.
Definition RemoteMetrics_snapshot (m : RemoteMetrics) : list (string * PerAddress) := map_to_list m.

Definition adopt_state (p : RemoteProbe) (s : string * string * N) : RemoteProbe :=
  let '(addr, state, _) := s in
  let p := match p !! addr with Some _ => p | None => <[addr := mkCounters state 0 0]> p end in
  set_state addr state p.

Definition adopt_row (p : RemoteProbe) (row : string * PerAddress) : RemoteProbe :=
  alter (λ e, mkCounters (ac_state e) (received_bytes row.2) (sent_bytes row.2)) row.1 p.

Definition refresh_from_endpoint_manager (m : EndpointManager) (metrics : RemoteMetrics) (p : RemoteProbe) : RemoteProbe :=
  let states := peer_states m in
  let live : gset string := list_to_set ((λ s : string * string * N, s.1.1) <$> states) in
  let p := foldl adopt_state p states in
  let p := foldl adopt_row p (RemoteMetrics_snapshot metrics) in
  let stale := filter (λ k, k ∉ live) (map_to_list p).*1 in
  foldl (λ p k, remove k p) p stale.

(** ** Sharding *)

Definition ShardingProbe := ShardingSnapshot.
Definition ShardingProbe_new : ShardingProbe := mkShardingSnapshot [] [].
Definition set_snapshot (s : ShardingSnapshot) (p : ShardingProbe) : ShardingProbe := s.
Definition record_shard_event (region shard event : string) (p : ShardingProbe) : ShardingProbe * list TelemetryEvent :=
  (p, [ShardingChanged (mkShardingEvent region shard event)]).
Definition region_info (r : ShardRegion) : ShardRegionInfo :=
  mkRegionInfo (region_id r) (ShardRegion_shard_count r) (ShardRegion_shard_ids r).
Definition coordinator_allocations (c : ShardCoordinator) : list (string * string) := map_to_list (allocation c).
Definition ShardingProbe_refresh_from (regions : list ShardRegion) (c : ShardCoordinator) (p : ShardingProbe) : ShardingProbe :=
  set_snapshot (mkShardingSnapshot (region_info <$> regions) (coordinator_allocations c)) p.

(** ** Cluster *)

Definition ClusterProbe := ClusterStateInfo.

Definition set_self_address (addr : string) (s : ClusterProbe) : ClusterProbe :=
  mkStateInfo (Some addr) (ci_leader s) (ci_members s) (ci_unreachable s) (ci_records s) (ci_version s).
Definition set_leader (leader : option string) (s : ClusterProbe) : ClusterProbe :=
  mkStateInfo (ci_self s) leader (ci_members s) (ci_unreachable s) (ci_records s) (ci_version s).

(** [members.iter().map(|m| (address, m)).collect()]: a later member replaces an earlier one. *)
Definition by_addr (l : list ClusterMemberInfo) : gmap string ClusterMemberInfo :=
  foldl (λ m i, <[mi_address i := i]> m) ∅ l.

Definition diff_member (prev : gmap string ClusterMemberInfo) (acc : list ClusterMemberInfo * list ClusterMemberInfo)
    (m : ClusterMemberInfo) : list ClusterMemberInfo * list ClusterMemberInfo :=
  match prev !! mi_address m with
  | None => (acc.1 ++ [m], acc.2)
  | Some old =>
      if negb (String.eqb (mi_status old) (mi_status m)) || negb (Bool.eqb (mi_reachable old) (mi_reachable m))
      then (acc.1, acc.2 ++ [m]) else acc
  end.

Definition compute_diff (prev next : ClusterStateInfo) : ClusterMembershipDiff :=
  let '(added, updated) := foldl (diff_member (by_addr (ci_members prev))) ([], []) (ci_members next) in
  let removed := mi_address <$> filter (λ m, by_addr (ci_members next) !! mi_address m = None) (ci_members prev) in
  let prev_unreach : gset string := list_to_set (ci_unreachable prev) in
  let next_unreach : gset string := list_to_set (ci_unreachable next) in
  mkDiff added updated removed (elements (next_unreach ∖ prev_unreach)) (elements (prev_unreach ∖ next_unreach)).

Definition diff_is_empty (d : ClusterMembershipDiff) : bool :=
  match d with mkDiff [] [] [] [] [] => true | _ => false end.

Definition update (next : ClusterStateInfo) (prev : ClusterProbe) : ClusterProbe * list TelemetryEvent :=
  let diff := compute_diff prev next in
  (next, if diff_is_empty diff then [] else [ClusterChanged diff]).

(** [{:?}] of a status. *)
Definition status_name (s : MemberStatus) : string :=
  match s with
  | Joining => "Joining" | WeaklyUp => "WeaklyUp" | Up => "Up" | Leaving => "Leaving"
  | Exiting => "Exiting" | Down => "Down" | Removed => "Removed"
  end.

Definition member_info (s : MembershipState) (m : Member) : ClusterMemberInfo :=
  mkMemberInfo (Address_to_string (m_address m)) (status_name (m_status m)) (m_roles m)
    (is_reachable (m_address m) (reachability s)) (up_number m).

Definition record_status (s : ReachabilityStatus) : string :=
  match s with Reachable => "reachable" | Unreachable => "unreachable" | Terminated => "terminated" end.

Definition from_cluster_state (s : MembershipState) : ClusterStateInfo :=
  let members := member_info s <$> members s in
  mkStateInfo None None members (mi_address <$> filter (λ m, mi_reachable m = false) members)
    ((λ r : Address * Address * ReachabilityStatus,
        mkReachRecord (Address_to_string r.1.1) (Address_to_string r.1.2) (record_status r.2)) <$>
       map_to_list (records (reachability s))) [].

Definition from_gossip (g : Gossip) : ClusterStateInfo :=
  let s := from_cluster_state (g_state g) in
  mkStateInfo (ci_self s) (ci_leader s) (ci_members s) (ci_unreachable s) (ci_records s) (map_to_list (versions (g_version g))).

Definition update_from_gossip (g : Gossip) : ClusterProbe → ClusterProbe * list TelemetryEvent := update (from_gossip g).
Definition update_from_state (s : MembershipState) : ClusterProbe → ClusterProbe * list TelemetryEvent :=
  update (from_cluster_state s).
End Probes.

Module ProbeFacts.
Import Probes.

(** ** Rings keep the end of what was pushed *)

Lemma ring_keeps_end {A} (n : nat) (x : A) (l : list A) :
  (0 < n)%nat → ring_push n x (drop (length l - n) l) = drop (length (l ++ [x]) - n) (l ++ [x]).
Proof.
  intros Hn. unfold ring_push. rewrite length_drop, length_app. cbn [length].
  destruct (Nat.eqb_spec (length l - (length l - n)) n) as [He|He].
  - rewrite drop_drop, drop_app_le by lia. do 2 f_equal. lia.
  - replace (length l - n) with 0 by lia. replace (length l + 1 - n) with 0 by lia. done.
Qed.

Lemma ring_run {A} (n : nat) (l : list A) :
  (0 < n)%nat → foldl (λ b x, ring_push n x b) [] l = drop (length l - n) l.
Proof.
  intros Hn. induction l as [|x l IH] using rev_ind; [done|]. rewrite foldl_app. cbn [foldl].
  by rewrite IH, ring_keeps_end.
Qed.

(** ** Refreshing gives what the source has *)

Lemma foldl_del (l : list string) (ks : gset string) : foldl (λ ks x, ks ∖ {[x]}) ks l = ks ∖ list_to_set l.
Proof. revert ks; induction l as [|x l IH]; intros ks; cbn; [set_solver|]. rewrite IH. set_solver. Qed.

Lemma foldl_add (l : list string) (ks : gset string) : foldl (λ ks x, {[x]} ∪ ks) ks l = list_to_set l ∪ ks.
Proof. revert ks; induction l as [|x l IH]; intros ks; cbn; [set_solver|]. rewrite IH. set_solver. Qed.

Lemma ddata_refresh_exact {Tag} {CT : Tag → Type} (r : Replicator CT) (p : DDataProbe) :
  dp_keys (DDataProbe_refresh_from r p) = dom (store r).
Proof.
  unfold DDataProbe_refresh_from, replicator_keys. cbn [dp_keys]. rewrite foldl_add, foldl_del, !list_to_set_elements_L.
  rewrite (list_to_set_perm_L _ _ (sort_by_key_perm _ _)), list_to_set_elements_L.
  apply set_eq. intros k. destruct (decide (k ∈ dom (store r))), (decide (k ∈ dp_keys p)); set_solver.
Qed.

Lemma adopt_state_lookup p addr state n k :
  adopt_state p (addr, state, n) !! k =
  if decide (k = addr) then Some (mkCounters state (default 0%N (ac_in <$> p !! addr)) (default 0%N (ac_out <$> p !! addr)))
  else p !! k.
Proof.
  unfold adopt_state, set_state. case_decide as Hk; [subst k|].
  - rewrite lookup_alter_eq. destruct (p !! addr) as [e|] eqn:E; [by rewrite E|]. by rewrite lookup_insert_eq.
  - rewrite lookup_alter_ne by done. destruct (p !! addr); [done|]. by rewrite lookup_insert_ne.
Qed.

Lemma adopt_states p l k :
  NoDup ((λ s : string * string * N, s.1.1) <$> l) →
  foldl adopt_state p l !! k =
  match list_find (λ s : string * string * N, s.1.1 = k) l with
  | Some (_, s) => Some (mkCounters s.1.2 (default 0%N (ac_in <$> p !! k)) (default 0%N (ac_out <$> p !! k)))
  | None => p !! k
  end.
Proof.
  revert p; induction l as [|[[addr state] n] l IH]; intros p; [done|]. cbn [fmap list_fmap fst]. intros [Hin Hnd]%NoDup_cons.
  cbn [foldl list_find fst snd]. rewrite IH by done. case_decide as Hk.
  - subst k. replace (list_find (λ s : string * string * N, s.1.1 = addr) l) with (@None (nat * (string * string * N))).
    + rewrite adopt_state_lookup, decide_True by done. done.
    + symmetry. apply list_find_None, Forall_forall. intros s Hs Heq. apply Hin, list_elem_of_fmap. by exists s.
  - rewrite adopt_state_lookup, decide_False by done. destruct (list_find _ l) as [[i s]|]; done.
Qed.

Lemma adopt_rows p l k :
  NoDup l.*1 →
  foldl adopt_row p l !! k =
  match list_find (λ r : string * PerAddress, r.1 = k) l with
  | Some (_, r) => (λ e, mkCounters (ac_state e) (received_bytes r.2) (sent_bytes r.2)) <$> p !! k
  | None => p !! k
  end.
Proof.
  revert p; induction l as [|[addr row] l IH]; intros p; [done|]. cbn [fmap list_fmap fst]. intros [Hin Hnd]%NoDup_cons.
  cbn [foldl list_find fst snd]. rewrite IH by done. unfold adopt_row. cbn [fst snd]. case_decide as Hk.
  - subst k. replace (list_find (λ r : string * PerAddress, r.1 = addr) l) with (@None (nat * (string * PerAddress))).
    + by rewrite lookup_alter_eq.
    + symmetry. apply list_find_None, Forall_forall. intros s Hs Heq. apply Hin, list_elem_of_fmap. by exists s.
  - rewrite lookup_alter_ne by done. destruct (list_find _ l) as [[i s]|]; done.
Qed.

Lemma list_find_map {V} (m : gmap string V) k :
  (list_find (λ r : string * V, r.1 = k) (map_to_list m) : option (nat * (string * V))) =
  match m !! k with
  | Some v => (λ i, (i, (k, v))) <$> (fst <$> list_find (λ r : string * V, r.1 = k) (map_to_list m))
  | None => None
  end.
Proof.
  destruct (list_find _ _) as [[i [k' v']]|] eqn:E.
  - apply list_find_Some in E as (Hi & Hk & _). cbn in Hk. subst k'.
    apply list_elem_of_lookup_2, elem_of_map_to_list in Hi. by rewrite Hi.
  - apply list_find_None in E. destruct (m !! k) as [v|] eqn:Em; [|done]. cbn.
    apply elem_of_map_to_list in Em. rewrite Forall_forall in E. by destruct (E _ Em).
Qed.

Lemma foldl_remove (l : list string) (p : RemoteProbe) k :
  foldl (λ p k, remove k p) p l !! k = if decide (k ∈ l) then None else p !! k.
Proof.
  revert p; induction l as [|x l IH]; intros p; [done|]. cbn [foldl]. rewrite IH. unfold remove.
  destruct (decide (k = x)) as [->|Hne].
  - rewrite lookup_delete_eq. rewrite (decide_True (P := x ∈ x :: l)) by left. by case_decide.
  - rewrite lookup_delete_ne by done. destruct (decide (k ∈ l)).
    + by rewrite decide_True by (by right).
    + rewrite decide_False; [done|]. by intros [?|?]%elem_of_cons.
Qed.

(** After a refresh the probe has the manager's peers and no others, each with its state
    and the bytes of the metrics; a peer without metrics keeps the bytes it had. *)
Lemma remote_refresh_exact (m : EndpointManager) (metrics : RemoteMetrics) (p : RemoteProbe) k :
  refresh_from_endpoint_manager m metrics p !! k =
  (λ e, mkCounters (state_name (pe_state e))
     (default (default 0%N (ac_in <$> p !! k)) (received_bytes <$> metrics !! k))
     (default (default 0%N (ac_out <$> p !! k)) (sent_bytes <$> metrics !! k))) <$> em_peers m !! k.
Proof.
  unfold refresh_from_endpoint_manager, RemoteMetrics_snapshot. cbn zeta. rewrite foldl_remove.
  set (q := foldl adopt_row _ _).
  assert (∀ k, k ∈ ((λ s : string * string * N, s.1.1) <$> peer_states m) ↔ is_Some (em_peers m !! k)) as Hlive.
  { intros j. unfold peer_states. rewrite <- list_fmap_compose, list_elem_of_fmap. split.
    - intros ([j' e] & -> & He%elem_of_map_to_list). by exists e.
    - intros [e He]. exists (j, e). split; [done|]. by apply elem_of_map_to_list. }
  assert (q !! k = match em_peers m !! k with
    | Some e => Some (mkCounters (state_name (pe_state e))
       (default (default 0%N (ac_in <$> p !! k)) (received_bytes <$> metrics !! k))
       (default (default 0%N (ac_out <$> p !! k)) (sent_bytes <$> metrics !! k)))
    | None => q !! k end) as Hq.
  { destruct (em_peers m !! k) as [e|] eqn:Ee; [|done]. unfold q. rewrite adopt_rows by apply NoDup_fst_map_to_list.
    rewrite adopt_states by (unfold peer_states; rewrite <- list_fmap_compose; apply NoDup_fst_map_to_list).
    unfold peer_states. rewrite list_find_fmap.
    change ((λ s : string * string * N, s.1.1 = k) ∘ _) with (λ s : string * PeerEntry, s.1 = k).
    rewrite (list_find_map (em_peers m)), Ee, (list_find_map metrics).
    destruct (list_find (λ r : string * PeerEntry, r.1 = k) (map_to_list (em_peers m))) as [[i r]|] eqn:E1; cbn.
    2: { apply list_find_None in E1. apply elem_of_map_to_list in Ee. rewrite Forall_forall in E1. by destruct (E1 _ Ee). }
    destruct (metrics !! k) as [row|] eqn:Er; cbn; [|done].
    destruct (list_find (λ r : string * PerAddress, r.1 = k) (map_to_list metrics)) as [[j r']|] eqn:E2; cbn; [done|].
    apply list_find_None in E2. apply elem_of_map_to_list in Er. rewrite Forall_forall in E2. by destruct (E2 _ Er). }
  destruct (em_peers m !! k) as [e|] eqn:Ee; cbn.
  - rewrite decide_False; [done|]. intros [Hn _]%list_elem_of_filter. apply Hn, elem_of_list_to_set, Hlive. by rewrite Ee.
  - case_decide as Hin; [done|]. destruct (q !! k) as [c|] eqn:Eq; [|done]. exfalso. apply Hin, list_elem_of_filter. split.
    + rewrite elem_of_list_to_set, Hlive, Ee. by intros [? ?].
    + apply list_elem_of_fmap. exists (k, c). split; [done|]. by apply elem_of_map_to_list.
Qed.

(** ** The difference of two cluster states leads from one to the other *)

Definition member_view (i : ClusterMemberInfo) : string * bool := (mi_status i, mi_reachable i).
Definition view_of (l : list ClusterMemberInfo) : gmap string (string * bool) := member_view <$> by_addr l.

(** A client that keeps the status and the reachability of each member. *)
Definition apply_members (d : ClusterMembershipDiff) (m : gmap string (string * bool)) : gmap string (string * bool) :=
  let m := foldl (λ m a, delete a m) m (df_removed d) in
  foldl (λ m i, <[mi_address i := member_view i]> m) m (df_added d ++ df_updated d).

Definition apply_unreachable (d : ClusterMembershipDiff) (s : gset string) : gset string :=
  (s ∪ list_to_set (df_became_unreachable d)) ∖ list_to_set (df_became_reachable d).

Lemma foldl_put_other {V} (g : ClusterMemberInfo → V) l (m : gmap string V) a :
  (∀ i, i ∈ l → mi_address i ≠ a) → foldl (λ m i, <[mi_address i := g i]> m) m l !! a = m !! a.
Proof.
  revert m; induction l as [|i l IH]; intros m Hl; [done|]. cbn [foldl]. rewrite IH by (intros; apply Hl; by right).
  rewrite lookup_insert_ne; [done|]. apply Hl. left.
Qed.

Lemma foldl_put_in {V} (g : ClusterMemberInfo → V) l (m : gmap string V) i :
  NoDup (mi_address <$> l) → i ∈ l → foldl (λ m i, <[mi_address i := g i]> m) m l !! mi_address i = Some (g i).
Proof.
  revert m; induction l as [|j l IH]; intros m; [set_solver|]. cbn [fmap list_fmap foldl]. intros [Hj Hnd]%NoDup_cons Hi.
  apply elem_of_cons in Hi as [->|Hi]; [|by apply IH]. rewrite foldl_put_other; [by rewrite lookup_insert_eq|].
  intros i' Hi' Heq. apply Hj, list_elem_of_fmap. by exists i'.
Qed.

Lemma foldl_delete_keys {V} (l : list string) (m : gmap string V) a :
  foldl (λ m a, delete a m) m l !! a = if decide (a ∈ l) then None else m !! a.
Proof.
  revert m; induction l as [|x l IH]; intros m; [done|]. cbn [foldl]. rewrite IH. destruct (decide (a = x)) as [->|Hne].
  - rewrite lookup_delete_eq, (decide_True (P := x ∈ x :: l)) by left. by case_decide.
  - rewrite lookup_delete_ne by done. apply decide_ext. set_solver.
Qed.

Definition is_new (prev : gmap string ClusterMemberInfo) (m : ClusterMemberInfo) : Prop := prev !! mi_address m = None.
Definition is_changed (prev : gmap string ClusterMemberInfo) (m : ClusterMemberInfo) : Prop :=
  from_option (λ old, member_view old ≠ member_view m) False (prev !! mi_address m).
#[local] Instance is_new_dec prev m : Decision (is_new prev m) := _.
#[local] Instance is_changed_dec prev m : Decision (is_changed prev m).
Proof. unfold is_changed. destruct (prev !! mi_address m); cbn; apply _. Defined.

Lemma diff_member_fold prev l :
  foldl (diff_member prev) ([], []) l = (filter (is_new prev) l, filter (is_changed prev) l).
Proof.
  induction l as [|m l IH] using rev_ind; [done|]. rewrite foldl_app, !filter_app. cbn [foldl]. rewrite IH.
  rewrite !filter_cons, !filter_nil. unfold diff_member. destruct (prev !! mi_address m) as [old|] eqn:E.
  - rewrite (decide_False (P := is_new prev m)) by (unfold is_new; by rewrite E). rewrite app_nil_r.
    destruct (decide (is_changed prev m)) as [Hc|Hc]; unfold is_changed in Hc; rewrite E in Hc; cbn in Hc.
    + destruct (String.eqb_spec (mi_status old) (mi_status m)), (Bool.eqb_spec (mi_reachable old) (mi_reachable m)); cbn; try done.
      destruct Hc. unfold member_view. congruence.
    + apply dec_stable in Hc. injection Hc as -> ->. rewrite String.eqb_refl, eqb_reflx. cbn. by rewrite app_nil_r.
  - rewrite decide_True by done. rewrite decide_False by (unfold is_changed; rewrite E; auto). by rewrite app_nil_r.
Qed.

Lemma by_addr_None l a : by_addr l !! a = None ↔ ∀ i, i ∈ l → mi_address i ≠ a.
Proof.
  unfold by_addr. split; [|intros Hl; by rewrite foldl_put_other, lookup_empty].
  induction l as [|i l IH] using rev_ind; [set_solver|]. rewrite foldl_app. cbn [foldl].
  destruct (decide (mi_address i = a)) as [<-|Hne]; [by rewrite lookup_insert_eq|]. rewrite lookup_insert_ne by done.
  intros H j [Hj| ->%list_elem_of_singleton]%elem_of_app; [by apply IH|done].
Qed.

Lemma by_addr_Some l a i : by_addr l !! a = Some i → i ∈ l ∧ mi_address i = a.
Proof.
  unfold by_addr. induction l as [|j l IH] using rev_ind; [done|]. rewrite foldl_app. cbn [foldl].
  intros [[<- <-]|[_ H]]%lookup_insert_Some; [set_solver|]. apply IH in H. set_solver.
Qed.

Lemma diff_members (prev next : ClusterStateInfo) :
  NoDup (mi_address <$> ci_members next) →
  apply_members (compute_diff prev next) (view_of (ci_members prev)) = view_of (ci_members next).
Proof.
  intros Hnd. unfold compute_diff. rewrite diff_member_fold. unfold apply_members. cbn [df_removed df_added df_updated].
  set (P := by_addr (ci_members prev)). apply map_eq. intros a. unfold view_of at 2. rewrite lookup_fmap.
  set (l := filter (is_new P) _ ++ filter (is_changed P) _).
  assert (∀ i, i ∈ l ↔ i ∈ ci_members next ∧ (is_new P i ∨ is_changed P i)) as Hl.
  { intros i. unfold l. rewrite elem_of_app, !list_elem_of_filter. tauto. }
  assert (∀ i j, i ∈ ci_members next → j ∈ ci_members next → mi_address i = mi_address j → i = j) as Hinj.
  { intros i j Hi Hj Heq. pose proof (foldl_put_in id (ci_members next) ∅ i Hnd Hi) as H1.
    rewrite Heq, (foldl_put_in id (ci_members next) ∅ j Hnd Hj) in H1. by injection H1. }
  assert (NoDup (mi_address <$> l)) as Hndl.
  { apply NoDup_fmap_2_strong.
    - intros i j [Hi _]%Hl [Hj _]%Hl Heq. by apply Hinj.
    - apply NoDup_app. pose proof (NoDup_fmap_1 _ _ Hnd). split_and!; [by apply NoDup_filter| |by apply NoDup_filter].
      intros i [Hn _]%list_elem_of_filter [Hc _]%list_elem_of_filter. unfold is_new, is_changed in *. by rewrite Hn in Hc. }
  destruct (by_addr (ci_members next) !! a) as [i|] eqn:Ei; cbn.
  - assert (i ∈ ci_members next ∧ mi_address i = a) as [Hi <-]. by (by apply by_addr_Some).
    destruct (decide (i ∈ l)) as [Hil|Hil]; [by apply foldl_put_in|].
    rewrite foldl_put_other. 2: { intros j Hj%Hl Heq. apply Hil, Hl. destruct Hj as [Hj1 Hj2].
      by rewrite <- (Hinj j i) by done. }
    rewrite foldl_delete_keys, decide_False. 2: { intros (j & Heq & [Hn Hj]%list_elem_of_filter)%list_elem_of_fmap. by rewrite <- Heq, Ei in Hn. }
    unfold view_of. rewrite lookup_fmap. fold P. destruct (P !! mi_address i) as [old|] eqn:Ep; cbn.
    + f_equal. apply dec_stable. intros Hc. apply Hil, Hl. split; [done|right]. unfold is_changed. by rewrite Ep.
    + destruct Hil. apply Hl. auto.
  - rewrite foldl_put_other. 2: { intros j [Hj _]%Hl. by apply (proj1 (by_addr_None _ _) Ei). }
    rewrite foldl_delete_keys. case_decide as Hr; [done|]. unfold view_of. rewrite lookup_fmap. fold P.
    destruct (P !! a) as [old|] eqn:Ep; [|done]. apply by_addr_Some in Ep as [Hold <-].
    destruct Hr. apply list_elem_of_fmap. exists old. split; [done|]. by apply list_elem_of_filter.
Qed.
End ProbeFacts.

(** ** The probes of a node *)

Module Extension.
Import Actors Probes Feed.

Record TelemetryExtension := mkExtension {
  te_node : string; te_bus : TelemetryBus; te_actors : ActorRegistry; te_letters : DeadLetterFeed;
  te_cluster : ClusterProbe; te_sharding : ShardingProbe; te_persistence : PersistenceProbe;
  te_remote : RemoteProbe; te_streams : StreamsProbe; te_ddata : DDataProbe; te_exporters : list nat;
}.

Section ext.
Context (room : nat → nat).

Definition TelemetryExtension_new (node : string) (capacity : nat) : TelemetryExtension :=
  mkExtension node (TelemetryBus_new room capacity) ActorRegistry_new (DeadLetterFeed_new 1024) ClusterStateInfo_default
    ShardingProbe_new PersistenceProbe_new ∅ StreamsProbe_new DDataProbe_new [].
End ext.

Definition add_exporter (x : nat) (e : TelemetryExtension) : TelemetryExtension :=
  mkExtension (te_node e) (attach_exporter x (te_bus e)) (te_actors e) (te_letters e) (te_cluster e) (te_sharding e)
    (te_persistence e) (te_remote e) (te_streams e) (te_ddata e) (te_exporters e ++ [x]).

(** [None]: the tree of actors was not built. *)
Definition snapshot (now : string) (e : TelemetryExtension) : option NodeSnapshot :=
  actors ← ActorRegistry_snapshot (te_actors e);
  Some (mkNodeSnapshot (te_node e) now actors (recent 100 (te_letters e)) (te_cluster e) (te_sharding e)
    (PersistenceProbe_snapshot (te_persistence e)) (RemoteProbe_snapshot (te_remote e))
    (StreamsProbe_snapshot (te_streams e)) (DDataProbe_snapshot (te_ddata e))).

Definition publish_all (es : list TelemetryEvent) (b : TelemetryBus) : TelemetryBus := foldl (λ b e, publish e b) b es.

(** Calls of the probes' operations, which all publish on the shared bus. *)
Inductive ProbeOp :=
  | OnActors (f : ActorRegistry → ActorRegistry * list TelemetryEvent)
  | OnLetters (now recipient : string) (sender : option string) (message_type preview : string)
  | OnCluster (next : ClusterStateInfo)
  | OnSelf (addr : string)
  | OnLeader (leader : option string)
  | OnSharding (f : ShardingProbe → ShardingProbe * list TelemetryEvent)
  | OnWrite (now journal pid : string) (nr : N)
  | OnRegister (a : JournalAdmin)
  | OnRemote (f : RemoteProbe → RemoteProbe * list TelemetryEvent)
  | OnStart (now name : string)
  | OnFinish (id : N)
  | OnDData (f : DDataProbe → DDataProbe * list TelemetryEvent).

Definition probe_op (e : TelemetryExtension) (op : ProbeOp) : TelemetryExtension :=
  let 'mkExtension node bus actors letters cluster sharding persistence remote streams ddata exporters := e in
  match op with
  | OnActors f => let '(actors, es) := f actors in
      mkExtension node (publish_all es bus) actors letters cluster sharding persistence remote streams ddata exporters
  | OnLetters now r s t p => let '(letters, es) := record now r s t p letters in
      mkExtension node (publish_all es bus) actors letters cluster sharding persistence remote streams ddata exporters
  | OnCluster next => let '(cluster, es) := update next cluster in
      mkExtension node (publish_all es bus) actors letters cluster sharding persistence remote streams ddata exporters
  | OnSelf a => mkExtension node bus actors letters (set_self_address a cluster) sharding persistence remote streams ddata exporters
  | OnLeader l => mkExtension node bus actors letters (set_leader l cluster) sharding persistence remote streams ddata exporters
  | OnSharding f => let '(sharding, es) := f sharding in
      mkExtension node (publish_all es bus) actors letters cluster sharding persistence remote streams ddata exporters
  | OnWrite now j p n => let '(persistence, es) := record_write now j p n persistence in
      mkExtension node (publish_all es bus) actors letters cluster sharding persistence remote streams ddata exporters
  | OnRegister a => mkExtension node bus actors letters cluster sharding (register_journal a persistence) remote streams ddata exporters
  | OnRemote f => let '(remote, es) := f remote in
      mkExtension node (publish_all es bus) actors letters cluster sharding persistence remote streams ddata exporters
  | OnStart now name => let '(streams, es) := (start_graph now name streams).2 in
      mkExtension node (publish_all es bus) actors letters cluster sharding persistence remote streams ddata exporters
  | OnFinish id => let '(streams, es) := finish_graph id streams in
      mkExtension node (publish_all es bus) actors letters cluster sharding persistence remote streams ddata exporters
  | OnDData f => let '(ddata, es) := f ddata in
      mkExtension node (publish_all es bus) actors letters cluster sharding persistence remote streams ddata exporters
  end.

(** The operations of the probes that the calls are made of. *)
Inductive actor_call : (ActorRegistry → ActorRegistry * list TelemetryEvent) → Prop :=
  | call_spawn s : actor_call (record_spawn s)
  | call_stop path : actor_call (record_stop path)
  | call_depth path d : actor_call (record_mailbox_depth path d)
  | call_host path h : actor_call (λ r, (set_host path h r, [])).

Inductive sharding_call : (ShardingProbe → ShardingProbe * list TelemetryEvent) → Prop :=
  | call_shard_event r s ev : sharding_call (record_shard_event r s ev)
  | call_refresh regions c : sharding_call (λ p, (ShardingProbe_refresh_from regions c p, [])).

Inductive remote_call : (RemoteProbe → RemoteProbe * list TelemetryEvent) → Prop :=
  | call_association a s : remote_call (record_association a s)
  | call_state a s : remote_call (λ p, (set_state a s p, []))
  | call_in a n : remote_call (λ p, (record_inbound_bytes a n p, []))
  | call_out a n : remote_call (λ p, (record_outbound_bytes a n p, []))
  | call_remove a : remote_call (λ p, (remove a p, [])).

Inductive ddata_call : (DDataProbe → DDataProbe * list TelemetryEvent) → Prop :=
  | call_update k : ddata_call (record_update k)
  | call_delete k : ddata_call (λ p, (record_delete k p, [])).

Definition op_ok (op : ProbeOp) : Prop :=
  match op with
  | OnActors f => actor_call f
  | OnCluster next => NoDup (mi_address <$> ci_members next)
  | OnSharding f => sharding_call f
  | OnRemote f => remote_call f
  | OnDData f => ddata_call f
  | _ => True
  end.

(** *** A client of the bus *)

(** What can be known from the events alone. *)
Record Client := mkClient {
  cl_actors : gmap string ActorStatus;
  cl_graphs : gmap N string;
  cl_members : gmap string (string * bool);
  cl_unreachable : gset string;
  cl_letters : list DeadLetterRecord;
  cl_writes : list JournalWriteInfo;
}.
Definition client_new : Client := mkClient ∅ ∅ ∅ ∅ [] [].

Definition client_event (c : Client) (e : TelemetryEvent) : Client :=
  let 'mkClient actors graphs ms unreachable letters writes := c in
  match e with
  | ActorSpawned s => mkClient (<[st_path s := s]> actors) graphs ms unreachable letters writes
  | ActorStopped p => mkClient (delete p actors) graphs ms unreachable letters writes
  | MailboxSampled p d => mkClient (alter (set_depth d) p actors) graphs ms unreachable letters writes
  | StreamsGraphStarted id name => mkClient actors (<[id := name]> graphs) ms unreachable letters writes
  | StreamsGraphFinished id => mkClient actors (delete id graphs) ms unreachable letters writes
  | ClusterChanged d =>
      mkClient actors graphs (ProbeFacts.apply_members d ms) (ProbeFacts.apply_unreachable d unreachable) letters writes
  | DeadLetterEv r => mkClient actors graphs ms unreachable (letters ++ [r]) writes
  | JournalWrite w => mkClient actors graphs ms unreachable letters (writes ++ [w])
  | _ => c
  end.

Definition no_host (s : ActorStatus) : ActorStatus :=
  mkActorStatus (st_path s) (st_parent s) (st_type s) (st_depth s) (st_spawned_at s) None.

(** The client knows what the probes have: hosts apart, the live actors with their mailboxes;
    the running graphs; the members and who is unreachable; the ends of the two logs. *)
Definition agrees (c : Client) (e : TelemetryExtension) : Prop :=
  no_host <$> cl_actors c = no_host <$> re_entries (te_actors e) ∧
  cl_graphs c = sg_name <$> sp_active (te_streams e) ∧
  cl_members c = ProbeFacts.view_of (ci_members (te_cluster e)) ∧
  cl_unreachable c = list_to_set (ci_unreachable (te_cluster e)) ∧
  fd_buf (te_letters e) = drop (length (cl_letters c) - 1024) (cl_letters c) ∧
  fd_capacity (te_letters e) = 1024 ∧
  fd_total (te_letters e) = wrap64 (N.of_nat (length (cl_letters c))) ∧
  pp_recent (te_persistence e) = drop (length (cl_writes c) - 128) (cl_writes c) ∧
  pp_max (te_persistence e) = 128 ∧
  pp_total (te_persistence e) = wrap64 (N.of_nat (length (cl_writes c))).
End Extension.

Module ExtensionFacts.
Import Actors Probes Feed Extension.
Implicit Types (c : Client) (e : TelemetryExtension).

Lemma publish_all_sent es b : tb_sent (publish_all es b) = tb_sent b ++ es.
Proof.
  revert b; induction es as [|x es IH]; intros b; [by rewrite app_nil_r|]. cbn [publish_all foldl]. unfold publish_all in IH.
  rewrite IH. cbn. by rewrite <- app_assoc.
Qed.

Lemma count_next n : u64_add (wrap64 n) 1 = wrap64 (n + 1).
Proof. apply wrap64_add_l. Qed.

(** A change of an entry that the hosts have no part in. *)
Lemma no_host_alter g h (m : gmap string ActorStatus) k :
  (∀ s, no_host (g s) = h (no_host s)) → no_host <$> alter g k m = alter h k (no_host <$> m).
Proof.
  intros Hg. apply map_eq. intros j. rewrite lookup_fmap. destruct (decide (j = k)) as [->|Hne].
  - rewrite !lookup_alter_eq, lookup_fmap. destruct (m !! k); cbn; [|done]. by rewrite Hg.
  - by rewrite !lookup_alter_ne, lookup_fmap by done.
Qed.

Lemma actors_step c e f :
  actor_call f → agrees c e → agrees (foldl client_event c (f (te_actors e)).2) (probe_op e (OnActors f)).
Proof.
  intros Hf. destruct e as [node bus [m sp st] letters cluster sharding persistence remote streams ddata exporters], c as [a g ms u l w].
  unfold agrees. cbn. intros (Ha & Hrest). destruct Hf as [s|path|path d|path h]; cbn.
  - split; [|done]. by rewrite !fmap_insert, Ha.
  - unfold record_stop. cbn. destruct (m !! path); cbn; [|done]. split; [|done]. by rewrite !fmap_delete, Ha.
  - split; [|done]. by rewrite !(no_host_alter (set_depth d) (set_depth d)), Ha.
  - split; [|done]. rewrite (no_host_alter _ id) by done. by rewrite Ha, alter_id.
Qed.

Lemma cluster_step c e next :
  NoDup (mi_address <$> ci_members next) → agrees c e →
  agrees (foldl client_event c (update next (te_cluster e)).2) (probe_op e (OnCluster next)).
Proof.
  intros Hnd. destruct e as [node bus actors letters cluster sharding persistence remote streams ddata exporters], c as [a g ms u l w].
  unfold agrees, update. cbn. intros (Ha & Hg & Hm & Hu & Hrest). pose proof (ProbeFacts.diff_members cluster next Hnd) as Hd.
  assert (ProbeFacts.apply_unreachable (compute_diff cluster next) (list_to_set (ci_unreachable cluster)) =
    list_to_set (ci_unreachable next)) as Hr.
  { unfold ProbeFacts.apply_unreachable, compute_diff. destruct (foldl _ _ _). cbn. rewrite !list_to_set_elements_L.
    apply set_eq. intros x. destruct (decide (x ∈ ci_unreachable next)), (decide (x ∈ ci_unreachable cluster)); set_solver. }
  rewrite <- Hm in Hd. rewrite <- Hu in Hr. destruct (diff_is_empty (compute_diff cluster next)) eqn:E; cbn.
  - destruct (compute_diff cluster next) as [[] [] [] [] []]; try done. cbn in Hd. split_and!; try naive_solver.
    rewrite <- Hr. unfold ProbeFacts.apply_unreachable. cbn. set_solver.
  - split_and!; try naive_solver.
Qed.

Lemma record_step c e now r s t p :
  agrees c e → agrees (foldl client_event c (record now r s t p (te_letters e)).2) (probe_op e (OnLetters now r s t p)).
Proof.
  destruct e as [node bus actors [buf cap total] cluster sharding persistence remote streams ddata exporters], c as [a g ms u l w].
  unfold agrees. cbn. intros (Ha & Hg & Hm & Hu & Hb & -> & -> & Hrest). split_and!; try naive_solver.
  - rewrite Hb. apply ProbeFacts.ring_keeps_end. lia.
  - rewrite count_next, length_app. f_equal. cbn. lia.
Qed.

Lemma write_step c e now j p n :
  agrees c e → agrees (foldl client_event c (record_write now j p n (te_persistence e)).2) (probe_op e (OnWrite now j p n)).
Proof.
  destruct e as [node bus actors letters cluster sharding [js buf total cap] remote streams ddata exporters], c as [a g ms u l w].
  unfold agrees. cbn. intros (Ha & Hg & Hm & Hu & Hb & Hc & Ht & Hw & -> & ->). split_and!; try naive_solver.
  - rewrite Hw. apply ProbeFacts.ring_keeps_end. lia.
  - rewrite count_next, length_app. f_equal. cbn. lia.
Qed.

(** Events that the client has no use for. *)
Definition silent (x : TelemetryEvent) : Prop :=
  match x with ShardingChanged _ | RemoteAssociation _ | DDataUpdated _ => True | _ => False end.

Lemma silent_events c es : Forall silent es → foldl client_event c es = c.
Proof. induction 1 as [|x es Hx Hes IH]; [done|]. cbn. destruct c, x; done. Qed.

Lemma probe_step c e op :
  op_ok op → agrees c e →
  ∃ es, tb_sent (te_bus (probe_op e op)) = tb_sent (te_bus e) ++ es ∧ agrees (foldl client_event c es) (probe_op e op).
Proof.
  intros Hop Hc.
  destruct op as [f|now r s t p|next|a|l|f|now j p n|a|f|now name|id|f].
  - exists (f (te_actors e)).2. split; [|by apply actors_step]. destruct e. cbn. destruct (f _). apply publish_all_sent.
  - exists (record now r s t p (te_letters e)).2. split; [|by apply record_step]. destruct e. apply publish_all_sent.
  - exists (update next (te_cluster e)).2. split; [|by apply cluster_step]. destruct e. apply publish_all_sent.
  - exists []. destruct e. split; [cbn; by rewrite app_nil_r|]. exact Hc.
  - exists []. destruct e. split; [cbn; by rewrite app_nil_r|]. exact Hc.
  - exists (f (te_sharding e)).2. rewrite silent_events by (destruct Hop; by repeat constructor).
    destruct e. cbn in *. destruct (f _). split; [apply publish_all_sent|exact Hc].
  - exists (record_write now j p n (te_persistence e)).2. split; [|by apply write_step]. destruct e. apply publish_all_sent.
  - exists []. destruct e as [????????]. split; [cbn; by rewrite app_nil_r|]. exact Hc.
  - exists (f (te_remote e)).2. rewrite silent_events by (destruct Hop; by repeat constructor).
    destruct e. cbn in *. destruct (f _). split; [apply publish_all_sent|exact Hc].
  - exists [StreamsGraphStarted (sp_next (te_streams e)) name]. destruct e, c. split; [apply publish_all_sent|].
    unfold agrees in *. cbn in *. destruct Hc as (Ha & -> & Hrest). split_and!; try naive_solver. by rewrite fmap_insert.
  - exists (finish_graph id (te_streams e)).2. unfold probe_op, finish_graph. destruct e, c. cbn in *.
    destruct (sp_active _ !! id) eqn:E; cbn; [|split; [by rewrite app_nil_r|exact Hc]]. split; [done|].
    unfold agrees in *. cbn in *. destruct Hc as (Ha & -> & Hrest). split_and!; try naive_solver. by rewrite fmap_delete.
  - exists (f (te_ddata e)).2. rewrite silent_events by (destruct Hop; by repeat constructor).
    destruct e. cbn in *. destruct (f _). split; [apply publish_all_sent|exact Hc].
Qed.
End ExtensionFacts.

(** Whatever the probes of a node record, one that has read every event of the bus knows the
    live actors with their mailboxes, the running graphs, the members of the cluster with
    their status and who is unreachable, and the last records of the two logs and their
    counts. *)
Theorem telemetry_mirrors room node capacity (ops : list Extension.ProbeOp) :
  Forall Extension.op_ok ops →
  let e := foldl Extension.probe_op (Extension.TelemetryExtension_new room node capacity) ops in
  Extension.agrees (foldl Extension.client_event Extension.client_new (Feed.tb_sent (Extension.te_bus e))) e.
Proof.
  intros Hops. cbn zeta. induction ops as [|op ops IH] using rev_ind.
  { split_and!; try done. }
  apply Forall_app in Hops as [Hops Hop]. apply Forall_cons in Hop as [Hop _]. rewrite !foldl_app. cbn [foldl].
  destruct (ExtensionFacts.probe_step _ _ op Hop (IH Hops)) as (es & -> & Ha). by rewrite foldl_app.
Qed.
