(* ===== verification/Dashboard.v ===== *)
(** * The dashboard

    The crate [atomr-dashboard], over the telemetry of a node:

    - [Sockets] ([ws.rs]): a client's connection, which is sent the events of its topics.
    - [Aggregation] ([aggregator.rs], [routes/overview.rs], [routes/cluster_wide.rs]): the
      totals of one node, and those of several nodes merged.

    The HTTP client is a function from an address to the answer, if there is one. *)

From stdpp Require Import gmap strings list sorting.
From Stdlib Require Import Ascii NArith ZArith Lia.
From S2P Require Import Prelude Address Telemetry Probes.

(** ** Connections *)

Module Sockets.
Import Feed.

(** [str::trim] and [split], on ASCII text. *)
Definition is_space (c : ascii) : bool :=
  let n := N_of_ascii c in ((n =? 32) || ((9 <=? n) && (n <=? 13)))%N.
Fixpoint trim_start (s : string) : string :=
  match s with String c s' => if is_space c then trim_start s' else s | EmptyString => s end.
Fixpoint trim_end (s : string) : string :=
  match s with
  | EmptyString => EmptyString
  | String c s' => match trim_end s' with EmptyString => if is_space c then EmptyString else String c EmptyString | t => String c t end
  end.
Definition trim (s : string) : string := trim_end (trim_start s).
Fixpoint split_at (sep : ascii) (s : string) : list string :=
  match s with
  | EmptyString => [EmptyString]
  | String c s' =>
      if bool_decide (c = sep) then EmptyString :: split_at sep s'
      else match split_at sep s' with x :: l => String c x :: l | [] => [String c EmptyString] end
  end.

(** [TopicFilter::matches]. *)
Definition matches (topics : option string) (e : TelemetryEvent) : bool :=
  match topics with
  | None => true
  | Some list =>
      if String.eqb (trim list) EmptyString then true
      else existsb (λ t, String.eqb t (topic e)) (trim <$> split_at "," list)
  end.

Inductive Frame := FrEvent (e : TelemetryEvent) | FrLagged (skipped : nat) | FrPing.

Record Socket := mkSocket {
  so_topics : option string; so_from : nat; so_at : nat; so_open : bool; so_frames : list Frame;
}.

Definition socket_new (topics : option string) (b : TelemetryBus) : Socket :=
  mkSocket topics (length (tb_sent b)) (length (tb_sent b)) true [].

(** What the client sends; the end of its stream is [InEnd]. *)
Inductive Inbound := InClose | InOther | InError | InEnd.

(** The branches of [select!]; [ok] tells whether a frame can be sent. *)
Inductive Turn := TEvent (ok : bool) | TBeat (ok : bool) | TInbound (msg : Inbound).

Definition emit (f : Frame) (ok : bool) (s : Socket) : Socket :=
  if ok then mkSocket (so_topics s) (so_from s) (so_at s) (so_open s) (so_frames s ++ [f]) else s.
Definition close (s : Socket) : Socket := mkSocket (so_topics s) (so_from s) (so_at s) false (so_frames s).
Definition move (p : nat) (s : Socket) : Socket := mkSocket (so_topics s) (so_from s) p (so_open s) (so_frames s).

Definition run_socket (b : TelemetryBus) (s : Socket) (t : Turn) : Socket :=
  if so_open s then
    match t with
    | TEvent ok =>
        match recv_at b (so_at s) with
        | (Got e, p) =>
            let s := move p s in
            if matches (so_topics s) e then if ok then emit (FrEvent e) true s else close s else s
        | (Lagged n, p) => emit (FrLagged n) ok (move p s)
        | (Pending, _) => s
        end
    | TBeat ok => if ok then emit FrPing true s else close s
    | TInbound InOther => s
    | TInbound _ => close s
    end
  else s.

(** *** Nothing is passed over in silence *)

Definition frame_event (f : Frame) : option TelemetryEvent := match f with FrEvent e => Some e | _ => None end.
Definition frame_skipped (f : Frame) : nat := match f with FrLagged n => n | _ => 0 end.
Definition frame_lag (f : Frame) : bool := match f with FrLagged _ => true | _ => false end.

(** While every frame can be sent, an open connection that was never told of a lag has been
    sent the events of its topics from its start to its position. *)
Definition socket_ok (b : TelemetryBus) (s : Socket) : Prop :=
  (so_from s ≤ so_at s ≤ length (tb_sent b))%nat ∧
  (so_open s = true → Forall (λ f, frame_lag f = false) (so_frames s) →
   omap frame_event (so_frames s) =
   filter (λ e, matches (so_topics s) e = true) (take (so_at s - so_from s) (drop (so_from s) (tb_sent b)))).

Lemma socket_publish_ok e b s : socket_ok b s → socket_ok (publish e b) s.
Proof.
  intros (Hle & Hs). split; cbn [publish tb_sent]; [rewrite length_app; lia|]. intros Ho Hf. rewrite (Hs Ho Hf).
  rewrite drop_app_le, take_app_le by (rewrite ?length_drop; lia). done.
Qed.

(** A turn in which what is sent arrives. *)
Definition turn_sent (t : Turn) : Prop := match t with TEvent ok | TBeat ok => ok = true | _ => True end.

Lemma socket_turn_ok b s t : turn_sent t → socket_ok b s → socket_ok b (run_socket b s t).
Proof.
  intros Ht Hok. pose proof Hok as [Hle Hs]. unfold run_socket. destruct (so_open s) eqn:Ho; [|done].
  destruct t as [ok|ok|[]]; cbn in Ht; subst; try (exact Hok); try (by split; cbn; [lia|done]).
  - destruct (recv_at b (so_at s)) as [[e|n|] p] eqn:E; [| |exact Hok].
    + apply FeedFacts.recv_got in E as (-> & He & _). pose proof (lookup_lt_Some _ _ _ He).
      cbn [move so_topics]. destruct (matches (so_topics s) e) eqn:Em; (split; cbn; [lia|]); intros _ Hf.
      * apply Forall_app in Hf as [Hf _]. rewrite omap_app, (Hs eq_refl Hf), (FeedFacts.take_step _ _ _ e) by (done || lia).
        by rewrite filter_app, filter_cons_True, filter_nil.
      * rewrite (Hs eq_refl Hf), (FeedFacts.take_step _ _ _ e) by (done || lia).
        rewrite filter_app, filter_cons_False, filter_nil, app_nil_r by congruence. done.
    + apply FeedFacts.recv_le in E; [|lia]. split; cbn; [lia|]. intros _ [_ Hl%Forall_cons]%Forall_app. by destruct Hl.
  - split; cbn; [lia|]. intros _ [Hf _]%Forall_app. rewrite omap_app. cbn. rewrite app_nil_r. auto.
Qed.

(** Publishing and turns of the connection, in any order. *)
Inductive SocketStep := SPublish (e : TelemetryEvent) | STurn (t : Turn).
Definition socket_step (x : TelemetryBus * Socket) (st : SocketStep) : TelemetryBus * Socket :=
  match st with SPublish e => (publish e x.1, x.2) | STurn t => (x.1, run_socket x.1 x.2 t) end.
Definition step_sent (st : SocketStep) : Prop := match st with STurn t => turn_sent t | _ => True end.

Lemma socket_run_ok topics b steps :
  Forall step_sent steps →
  let '(b', s) := foldl socket_step (b, socket_new topics b) steps in socket_ok b' s.
Proof.
  intros Hst. assert (socket_ok b (socket_new topics b)) as H0 by (split; cbn; [lia|]; by rewrite Nat.sub_diag).
  revert H0. generalize (socket_new topics b). revert b. induction Hst as [|[e|t] steps Ht Hst IH]; intros b s Hs; cbn [foldl socket_step fst snd].
  - done.
  - apply IH. by apply socket_publish_ok.
  - apply IH. by apply socket_turn_ok.
Qed.

(** A lag is told with the number of events that are lost, and the connection goes on. *)
Lemma lag_told b s ok :
  so_open s = true → (so_at s + tb_capacity b < length (tb_sent b))%nat →
  let s' := run_socket b s (TEvent ok) in
  so_open s' = true ∧ so_at s' = so_at s + (length (tb_sent b) - tb_capacity b - so_at s) ∧
  so_frames s' = so_frames s ++ (if ok then [FrLagged (length (tb_sent b) - tb_capacity b - so_at s)] else []).
Proof.
  intros Ho Hlag. unfold run_socket, recv_at. rewrite Ho.
  destruct (Nat.ltb_spec (so_at s + tb_capacity b) (length (tb_sent b))); [|lia].
  destruct ok; cbn; rewrite ?app_nil_r; split_and!; (done || lia).
Qed.

Example topics_trimmed :
  matches (Some " actors, ddata ") (DDataUpdated "k") = true ∧ matches (Some " actors, ddata ") (StreamsGraphFinished 1) = false ∧
  matches (Some "  ") (StreamsGraphFinished 1) = true.
Proof. done. Qed.
End Sockets.

(** ** Totals *)

Module Aggregation.
Import Actors Probes Extension.

(** [peer.trim_end_matches('/')]. *)
Fixpoint trim_slashes (s : string) : string :=
  match s with
  | EmptyString => EmptyString
  | String c s' =>
      match trim_slashes s' with
      | EmptyString => if bool_decide (c = "/"%char) then EmptyString else String c EmptyString
      | t => String c t
      end
  end.

(** The answers of the peers that give one, in their order. *)
Definition fetch {T} (get : string → option T) (peers : list string) (path : string) : list T :=
  omap (λ peer, get (trim_slashes peer +:+ path)) peers.

Definition dead_letters_all (get : string → option (list DeadLetterRecord)) (peers : list string) (limit : N)
    : list DeadLetterRecord :=
  concat (fetch get peers ("/api/dead-letters?limit=" +:+ uint_to_string limit)).

Definition sum64 (l : list N) : N := foldl u64_add 0%N l.
Definition list_max (l : list nat) : nat := foldr Nat.max 0 l.

Definition merge_overviews (now : string) (items : list OverviewSnapshot) : OverviewSnapshot :=
  mkOverview (match items with first :: _ => "cluster[" +:+ ov_node first +:+ "]" | [] => "cluster" end) now
    (sum64 (ov_actors <$> items)) (sum64 (ov_letters <$> items))
    (list_max (ov_members <$> items)) (list_max (ov_unreachable <$> items))
    (sum_list (ov_associations <$> items)) (sum64 (ov_graphs <$> items)) (sum64 (ov_events <$> items))
    (list_max (ov_keys <$> items)).

Definition merge_actor_snapshots (per_node : list (string * ActorSnapshot)) : ActorSnapshot :=
  mkActorSnapshot (sum64 ((λ x, as_total x.2) <$> per_node))
    ((λ x, mkNode ("/node/" +:+ x.1) x.1 "Node" 0 (Some x.1) (as_roots x.2)) <$> per_node)
    (concat ((λ x, as_flat x.2) <$> per_node)).

(** A [BTreeMap] gives its values in the order of their keys. *)
Definition merge_cluster_states (items : list ClusterStateInfo) : ClusterStateInfo :=
  let members_by_addr := by_addr (concat (ci_members <$> items)) in
  let unreachable : gset string := list_to_set (concat (ci_unreachable <$> items)) in
  mkStateInfo None (head (omap ci_leader items))
    (sort_by_key mi_address (map_to_list members_by_addr).*2)
    (sort_by_key id (elements unreachable))
    (concat (ci_records <$> items)) (concat (ci_version <$> items)).

(** [routes/overview.rs]. *)
Definition get_overview (now : string) (t : TelemetryExtension) : OverviewSnapshot :=
  mkOverview (te_node t) now (live_count (te_actors t)) (fd_total (te_letters t)) (length (ci_members (te_cluster t)))
    (length (ci_unreachable (te_cluster t))) (size (te_remote t)) (running (te_streams t)) (pp_total (te_persistence t))
    (key_count (te_ddata t)).

Inductive DashboardMode := Local | Cluster (peers : list string).

Definition aggregator_for (mode : DashboardMode) : option (list string) :=
  match mode with Cluster (p :: ps) => Some (p :: ps) | _ => None end.

(** A cluster-wide route that merges: the local answer if no peer gives one. *)
Definition merged_route {T R} (mode : DashboardMode) (get : string → option T) (path : string)
    (merge : list T → R) (local : R) : R :=
  match aggregator_for mode with
  | Some peers => match fetch get peers path with [] => local | items => merge items end
  | None => local
  end.

(** One that lists the answers of the peers. *)
Definition listed_route {T} (mode : DashboardMode) (get : string → option T) (path : string) (local : T) : list T :=
  match aggregator_for mode with Some peers => fetch get peers path | None => [local] end.

Definition wide_overview (now : string) (mode : DashboardMode) (get : string → option OverviewSnapshot) (t : TelemetryExtension)
    : OverviewSnapshot := merged_route mode get "/api/overview" (merge_overviews now) (get_overview now t).

Definition wide_cluster (mode : DashboardMode) (get : string → option ClusterStateInfo) (t : TelemetryExtension)
    : ClusterStateInfo := merged_route mode get "/api/cluster/state" merge_cluster_states (te_cluster t).

Definition wide_actors (mode : DashboardMode) (get : string → option NodeSnapshot) (local : ActorSnapshot) : ActorSnapshot :=
  merged_route mode get "/api/snapshot" (λ items, merge_actor_snapshots ((λ s, (ns_node s, ns_actors s)) <$> items)) local.

Definition wide_persistence (mode : DashboardMode) (get : string → option PersistenceSnapshot) (t : TelemetryExtension)
    : list PersistenceSnapshot := listed_route mode get "/api/persistence" (PersistenceProbe_snapshot (te_persistence t)).
End Aggregation.

Module AggregationFacts.
Import Actors Probes Extension Aggregation.

Lemma sum64_spec l : sum64 l = wrap64 (foldr N.add 0%N l).
Proof.
  unfold sum64. assert (∀ a, foldl u64_add (wrap64 a) l = wrap64 (a + foldr N.add 0%N l)) as Hgen.
  { induction l as [|x l IH]; intros a; cbn; [by rewrite N.add_0_r|]. unfold u64_add at 2.
    rewrite wrap64_add_l, IH. f_equal. lia. }
  exact (Hgen 0%N).
Qed.

Section sorted.
Context {A : Type} (key : A → string).
#[local] Abbreviation below := (λ x y, String.le (key x) (key y)).

Lemma insert_by_key_sorted x l : StronglySorted below l → StronglySorted below (insert_by_key key x l).
Proof.
  induction 1 as [|y l Hs IH Hy]; cbn; [repeat constructor|]. rewrite string_leb_spec. case_bool_decide as Hle.
  - constructor; [by constructor|]. constructor; [done|]. eapply Forall_impl; [exact Hy|]. intros z Hz. by transitivity (key y).
  - constructor; [done|]. rewrite insert_by_key_perm. constructor; [|done]. by destruct (total String.le (key x) (key y)).
Qed.

Lemma sort_by_key_sorted l : StronglySorted below (sort_by_key key l).
Proof. induction l as [|x l IH]; cbn; [constructor|]. by apply insert_by_key_sorted. Qed.
End sorted.

(** The members of a merged state: one for each address that some node reports, as the last
    node that reports it has it, in the order of the addresses; unreachable is whoever is so
    for some node. *)
Lemma merged_cluster_members items :
  let s := merge_cluster_states items in
  StronglySorted (λ x y, String.le (mi_address x) (mi_address y)) (ci_members s) ∧
  NoDup (mi_address <$> ci_members s) ∧
  (∀ i, i ∈ ci_members s ↔ by_addr (concat (ci_members <$> items)) !! mi_address i = Some i) ∧
  NoDup (ci_unreachable s) ∧
  (∀ a, a ∈ ci_unreachable s ↔ ∃ x, x ∈ items ∧ a ∈ ci_unreachable x).
Proof.
  cbn. set (m := by_addr _).
  assert (∀ k i, m !! k = Some i → mi_address i = k) as Hk by (intros k i Hi; by apply ProbeFacts.by_addr_Some in Hi as [_ ?]).
  split_and!.
  - apply sort_by_key_sorted.
  - rewrite sort_by_key_perm, <- list_fmap_compose.
    rewrite (list_fmap_ext _ fst (map_to_list m)); [apply NoDup_fst_map_to_list|].
    intros j [k i] Hj. cbn. apply Hk. apply elem_of_map_to_list. by eapply list_elem_of_lookup_2.
  - intros i. rewrite sort_by_key_perm, list_elem_of_fmap. split.
    + intros ([k i'] & -> & Hi%elem_of_map_to_list). cbn. by rewrite (Hk _ _ Hi).
    + intros Hi. exists (mi_address i, i). split; [done|]. by apply elem_of_map_to_list.
  - rewrite sort_by_key_perm. apply NoDup_elements.
  - intros a. rewrite sort_by_key_perm, elem_of_elements, elem_of_list_to_set, list_elem_of_In, in_concat.
    setoid_rewrite <- list_elem_of_In. split.
    + intros (l & (x & -> & Hx)%list_elem_of_fmap & Ha). eauto.
    + intros (x & Hx & Ha). exists (ci_unreachable x). split; [|done]. apply list_elem_of_fmap. eauto.
Qed.

(** Every actor of every node is in the merged report once per node, under the node. *)
Lemma merged_actor_paths per_node :
  concat (tree_paths <$> as_roots (merge_actor_snapshots per_node)) =
  concat ((λ x, ("/node/" +:+ x.1) :: concat (tree_paths <$> as_roots x.2)) <$> per_node).
Proof. unfold merge_actor_snapshots. cbn. by rewrite <- list_fmap_compose. Qed.

(** The leader and the own address that the node was told are gone after the next update
    from the cluster. *)
Lemma update_forgets_leader (g : Daemon.Gossip) addr leader p :
  let p := set_leader leader (set_self_address addr p) in
  ci_self (update_from_gossip g p).1 = None ∧ ci_leader (update_from_gossip g p).1 = None.
Proof. done. Qed.

(** The same journals are listed by the node's own route, and missing from the cluster-wide
    route of a node without peers. *)
Lemma wide_persistence_omits_journals t get :
  pn_journals <$> wide_persistence Local get t = [[]] ∧
  ji_name <$> pn_journals (snapshot_async (te_persistence t)) = admin_name <$> pp_journals (te_persistence t).
Proof. split; [done|]. cbn. by rewrite <- list_fmap_compose. Qed.
End AggregationFacts.
