(* ===== verification/SnapshotStores.v ===== *)
(** * Snapshot stores on the other databases
    ([snapshot.rs] of the crates [atomr-persistence-cassandra], [-mongodb], [-azure], [-aws],
    [-redis], and the snapshot parts of their [documents.rs], [entities.rs], [codec.rs])

    A store keeps the snapshots of an id by number.  Each database is a class with one
    operation per statement, and a class of what the statements do while it is available;
    the results of statements that change something are dropped by the code. *)

From stdpp Require Import gmap strings list sorting.
From Stdlib Require Import NArith ZArith Lia.
From S2P Require Import Prelude Address Journal SqlJournal SqlFacts SqlSetup StoreJournals KeyValueJournals AzureTables Conformance.

(** ** What a store keeps *)

Abbreviation SnapRows := (gmap Z (Bytes * Z)).

(** A load returns the row with the highest number. *)
Definition latest (rows : SnapRows) (pid : string) (r : option (SnapshotMetadata * Bytes)) : Prop :=
  match r with
  | None => rows = ∅
  | Some (meta, data) => snap_persistence_id meta = pid ∧
      ∃ seq ts, rows !! seq = Some (data, ts) ∧ snap_sequence_nr meta = i64_as_u64 seq ∧
        timestamp meta = i64_as_u64 ts ∧ ∀ s, is_Some (rows !! s) → (s ≤ seq)%Z
  end.

Definition meta_of (pid : string) (seq ts : Z) : SnapshotMetadata := mkSnapshotMetadata pid (i64_as_u64 seq) (i64_as_u64 ts).

(** What the result of a statement makes of the database. *)
Definition dropped {D} (d : D) (r : string + D) : D := match r with inl _ => d | inr d' => d' end.

(** Saving on top: the snapshot is loaded again, if nothing above it is there. *)
Lemma latest_saved (rows : SnapRows) pid m d r :
  (snap_sequence_nr m < 2 ^ 63)%N → (timestamp m < 2 ^ 63)%N → snap_persistence_id m = pid →
  (∀ s, is_Some (rows !! s) → (s ≤ Z.of_N (snap_sequence_nr m))%Z) →
  latest (<[u64_as_i64 (snap_sequence_nr m) := (d, u64_as_i64 (timestamp m))]> rows) pid r → r = Some (m, d).
Proof.
  intros Hn Ht <- Hall. destruct m as [pid nr ts]. cbn in *. rewrite !u64_as_i64_small by done. destruct r as [[m' d']|].
  - intros (Hp & seq & ts' & Hl & Hs & Ht' & Hmax). destruct (decide (seq = Z.of_N nr)) as [->|Hne].
    + rewrite lookup_insert_eq in Hl. injection Hl as <- <-. destruct m' as [p n t]. cbn in *. subst. do 3 f_equal.
      * unfold i64_as_u64. rewrite Z.mod_small by lia. lia.
      * unfold i64_as_u64. rewrite Z.mod_small by lia. lia.
    + rewrite lookup_insert_ne in Hl by done. pose proof (Hall seq (ex_intro _ _ Hl)).
      pose proof (Hmax (Z.of_N nr)) as Hm. rewrite lookup_insert_eq in Hm. specialize (Hm ltac:(eauto)). lia.
  - cbn. intros H. by apply insert_non_empty in H.
Qed.

(** ** Cassandra *)

Module CassSnapshots.

(** [cs_first] is the query with [LIMIT 1], which the table answers in its clustering order,
    by descending number ([schema.rs]). *)
Class CassSnapDb (D : Type) := {
  cs_insert : string → Z → Bytes → Z → D → string + D;
  cs_first : string → D → string + option (Z * Bytes * Z);
  cs_list_upto : string → Z → D → string + list Z;
  cs_delete_upto : string → Z → D → string + D;
}.

Section store.
Context {D : Type} `{CassSnapDb D}.

Definition cass_snapshot_save (m : SnapshotMetadata) (data : Bytes) (d : D) : D :=
  dropped d (cs_insert (snap_persistence_id m) (u64_as_i64 (snap_sequence_nr m)) data (u64_as_i64 (timestamp m)) d).

Definition cass_snapshot_load (pid : string) (d : D) : option (SnapshotMetadata * Bytes) :=
  match cs_first pid d with
  | inr (Some (seq, data, ts)) => Some (meta_of pid seq ts, data)
  | _ => None
  end.

(** The numbers are listed first, and the deletion up to each of them is sent. *)
Definition cass_snapshot_delete (pid : string) (to : N) (d : D) : D :=
  match cs_list_upto pid (u64_as_i64 to) d with
  | inl _ => d
  | inr seqs => foldl (λ d seq, dropped d (cs_delete_upto pid seq d)) d seqs
  end.
End store.

Class CassSnapLaws (D : Type) `{CassSnapDb D} := {
  cs_rows : D → string → SnapRows;
  cs_up : D → Prop;
  law_cs_insert pid seq data ts d : cs_up d → ∃ d', cs_insert pid seq data ts d = inr d' ∧ cs_up d' ∧
    ∀ q, cs_rows d' q = if decide (q = pid) then <[seq := (data, ts)]> (cs_rows d q) else cs_rows d q;
  law_cs_first pid d : cs_up d → ∃ r, cs_first pid d = inr r ∧
    match r with
    | None => cs_rows d pid = ∅
    | Some (seq, data, ts) => cs_rows d pid !! seq = Some (data, ts) ∧ ∀ s, is_Some (cs_rows d pid !! s) → (s ≤ seq)%Z
    end;
  law_cs_list pid to d : cs_up d → ∃ l, cs_list_upto pid to d = inr l ∧
    ∀ s, s ∈ l ↔ is_Some (cs_rows d pid !! s) ∧ (s ≤ to)%Z;
  law_cs_delete pid to d : cs_up d → ∃ d', cs_delete_upto pid to d = inr d' ∧ cs_up d' ∧
    ∀ q, cs_rows d' q = if decide (q = pid) then filter (λ kv, (to < kv.1)%Z) (cs_rows d q) else cs_rows d q;
}.

Section facts.
Context {D : Type} `{CassSnapLaws D}.
Implicit Types d : D.

Lemma cass_save_spec m data d q :
  cs_up d → cs_up (cass_snapshot_save m data d) ∧
  cs_rows (cass_snapshot_save m data d) q =
    if decide (q = snap_persistence_id m)
    then <[u64_as_i64 (snap_sequence_nr m) := (data, u64_as_i64 (timestamp m))]> (cs_rows d q) else cs_rows d q.
Proof.
  intros Hup. unfold cass_snapshot_save.
  destruct (law_cs_insert (snap_persistence_id m) (u64_as_i64 (snap_sequence_nr m)) data (u64_as_i64 (timestamp m)) d Hup)
    as (d' & -> & Hup' & Hr). by split.
Qed.

Lemma cass_load_spec pid d : cs_up d → latest (cs_rows d pid) pid (cass_snapshot_load pid d).
Proof.
  intros Hup. unfold cass_snapshot_load. destruct (law_cs_first pid d Hup) as (r & -> & Hr).
  destruct r as [[[seq data] ts]|]; [|done]. destruct Hr as [Hl Hm]. split; [done|]. exists seq, ts. by split_and!.
Qed.

(** Every listed number is gone, and nothing above the bound. *)
Lemma cass_delete_run pid l d :
  cs_up d → let d' := foldl (λ d seq, dropped d (cs_delete_upto pid seq d)) d l in
  cs_up d' ∧ ∀ q, cs_rows d' q = if decide (q = pid) then filter (λ kv, Forall (λ t, (t < kv.1)%Z) l) (cs_rows d q) else cs_rows d q.
Proof.
  revert d; induction l as [|t l IH]; intros d Hup; cbn [foldl].
  - split; [done|]. intros q. case_decide; [|done]. symmetry. apply map_filter_id. intros. constructor.
  - destruct (law_cs_delete pid t d Hup) as (d1 & -> & Hup1 & Hr1). cbn [dropped]. destruct (IH d1 Hup1) as [Hup' Hr].
    split; [done|]. intros q. rewrite Hr. case_decide as Hq; [|by rewrite Hr1, decide_False].
    rewrite Hr1, decide_True, map_filter_filter by done. apply map_filter_ext. intros k x _. cbn. rewrite Forall_cons. tauto.
Qed.

Lemma cass_delete_spec pid to d q :
  cs_up d →
  cs_rows (cass_snapshot_delete pid to d) q =
    if decide (q = pid) then filter (λ kv, (u64_as_i64 to < kv.1)%Z) (cs_rows d q) else cs_rows d q.
Proof.
  intros Hup. unfold cass_snapshot_delete. destruct (law_cs_list pid (u64_as_i64 to) d Hup) as (l & -> & Hl).
  destruct (cass_delete_run pid l d Hup) as [_ Hr]. rewrite Hr. case_decide as Hq; [subst q|done].
  apply map_filter_ext. intros k x Hk. cbn. rewrite Forall_forall. split.
  - intros Hall. destruct (decide (k ≤ u64_as_i64 to)%Z) as [Hle|]; [|lia].
    pose proof (Hall k (proj2 (Hl k) (conj (ex_intro _ _ Hk) Hle))). lia.
  - intros Hlt t [_ Ht]%Hl. lia.
Qed.
End facts.

(** *** A table *)

#[export] Instance SnapTable_Cass : CassSnapDb SnapTable := {
  cs_insert pid seq data ts d := inr (mkSnapTable (<[pid := <[seq := (data, ts)]> (snap_of d pid)]> (snap_rows d)));
  cs_first pid d := inr ((λ e : Z * (Bytes * Z), (e.1, e.2.1, e.2.2)) <$> highest_entry (map_to_list (snap_of d pid)));
  cs_list_upto pid to d := inr (filter (λ s, (s ≤ to)%Z) (map_to_list (snap_of d pid)).*1);
  cs_delete_upto pid to d := inr (mkSnapTable (<[pid := filter (λ kv, (to < kv.1)%Z) (snap_of d pid)]> (snap_rows d)));
}.

Lemma snap_of_set (m : gmap string SnapRows) pid r q :
  snap_of (mkSnapTable (<[pid := r]> m)) q = if decide (q = pid) then r else snap_of (mkSnapTable m) q.
Proof.
  unfold snap_of. cbn. case_decide as Hq; [subst; by rewrite lookup_insert_eq|]. by rewrite lookup_insert_ne.
Qed.

Lemma highest_of_map (m : SnapRows) :
  match highest_entry (map_to_list m) with
  | None => m = ∅
  | Some (seq, (data, ts)) => m !! seq = Some (data, ts) ∧ ∀ s, is_Some (m !! s) → (s ≤ seq)%Z
  end.
Proof.
  pose proof (highest_entry_spec (map_to_list m)) as Hs. destruct (highest_entry _) as [[seq [data ts]]|].
  - destruct Hs as [Hin Hall]. split; [by apply elem_of_map_to_list|]. intros s [x Hx].
    rewrite Forall_forall in Hall. apply (Hall (s, x)). by apply elem_of_map_to_list.
  - by apply map_to_list_empty_iff.
Qed.

#[export] Program Instance SnapTable_CassLaws : CassSnapLaws SnapTable := { cs_rows := snap_of; cs_up _ := True }.
Next Obligation.
  cbn. intros pid seq data ts d _. eexists. split_and!; [done..|]. intros q. rewrite snap_of_set. case_decide; [by subst|done].
Qed.
Next Obligation.
  cbn. intros pid d _. eexists. split; [done|]. pose proof (highest_of_map (snap_of d pid)) as Hs.
  by destruct (highest_entry _) as [[seq [data ts]]|].
Qed.
Next Obligation.
  cbn. intros pid to d _. eexists. split; [done|]. intros s. rewrite list_elem_of_filter, list_elem_of_fmap. split.
  - intros [Hle ([s' x] & -> & Hx%elem_of_map_to_list)]. split; [by eexists|done].
  - intros [[x Hx] Hle]. split; [done|]. exists (s, x). split; [done|]. by apply elem_of_map_to_list.
Qed.
Next Obligation.
  cbn. intros pid to d _. eexists. split_and!; [done..|]. intros q. rewrite snap_of_set. case_decide; [by subst|done].
Qed.
End CassSnapshots.

(** ** MongoDB *)

Module MongoSnapshots.

Record SnapshotDoc := mkSnapshotDoc { sd_pid : string; sd_seq : Z; sd_payload : Bytes; sd_timestamp : Z; sd_created_at : Z }.

Definition from_meta (m : SnapshotMetadata) (data : Bytes) (created_at : Z) : SnapshotDoc :=
  mkSnapshotDoc (snap_persistence_id m) (u64_as_i64 (snap_sequence_nr m)) data (u64_as_i64 (timestamp m)) created_at.
Definition into_parts (d : SnapshotDoc) : SnapshotMetadata * Bytes := (meta_of (sd_pid d) (sd_seq d) (sd_timestamp d), sd_payload d).

(** The collection has a unique index on the id and the number. *)
Class MongoSnapDb (D : Type) := {
  ms_insert : SnapshotDoc → D → string + D;
  ms_find_last : string → D → string + option SnapshotDoc;
  ms_delete_upto : string → Z → D → string + D;
}.

Section store.
Context {D : Type} `{MongoSnapDb D}.
Variable now_millis : Z.

Definition mongo_snapshot_save (m : SnapshotMetadata) (data : Bytes) (d : D) : D :=
  dropped d (ms_insert (from_meta m data now_millis) d).
Definition mongo_snapshot_load (pid : string) (d : D) : option (SnapshotMetadata * Bytes) :=
  match ms_find_last pid d with inr (Some doc) => Some (into_parts doc) | _ => None end.
Definition mongo_snapshot_delete (pid : string) (to : N) (d : D) : D := dropped d (ms_delete_upto pid (u64_as_i64 to) d).
End store.

Class MongoSnapLaws (D : Type) `{MongoSnapDb D} := {
  ms_rows : D → string → SnapRows;
  ms_up : D → Prop;
  law_ms_insert doc d : ms_up d → ms_rows d (sd_pid doc) !! sd_seq doc = None →
    ∃ d', ms_insert doc d = inr d' ∧ ms_up d' ∧
    ∀ q, ms_rows d' q = if decide (q = sd_pid doc) then <[sd_seq doc := (sd_payload doc, sd_timestamp doc)]> (ms_rows d q) else ms_rows d q;
  law_ms_taken doc d : is_Some (ms_rows d (sd_pid doc) !! sd_seq doc) → ∃ e, ms_insert doc d = inl e;
  law_ms_find pid d : ms_up d → ∃ r, ms_find_last pid d = inr r ∧
    match r with
    | None => ms_rows d pid = ∅
    | Some doc => sd_pid doc = pid ∧ ms_rows d pid !! sd_seq doc = Some (sd_payload doc, sd_timestamp doc) ∧
        ∀ s, is_Some (ms_rows d pid !! s) → (s ≤ sd_seq doc)%Z
    end;
  law_ms_delete pid to d : ms_up d → ∃ d', ms_delete_upto pid to d = inr d' ∧ ms_up d' ∧
    ∀ q, ms_rows d' q = if decide (q = pid) then filter (λ kv, (to < kv.1)%Z) (ms_rows d q) else ms_rows d q;
}.

Section facts.
Context {D : Type} `{MongoSnapLaws D}.
Implicit Types d : D.

(** A second snapshot of a number is dropped. *)
Lemma mongo_save_spec now m data d q :
  ms_up d → let seq := u64_as_i64 (snap_sequence_nr m) in
  ms_up (mongo_snapshot_save now m data d) ∧
  ms_rows (mongo_snapshot_save now m data d) q =
    if decide (q = snap_persistence_id m ∧ ms_rows d q !! seq = None)
    then <[seq := (data, u64_as_i64 (timestamp m))]> (ms_rows d q) else ms_rows d q.
Proof.
  intros Hup. cbn zeta. unfold mongo_snapshot_save. set (doc := from_meta m data now).
  destruct (ms_rows d (sd_pid doc) !! sd_seq doc) eqn:E.
  - destruct (law_ms_taken doc d) as [e ->]; [by eexists|]. split; [done|]. rewrite decide_False; [done|].
    intros [-> Hn]. change (u64_as_i64 (snap_sequence_nr m)) with (sd_seq doc) in Hn. change (snap_persistence_id m) with (sd_pid doc) in Hn. congruence.
  - destruct (law_ms_insert doc d Hup E) as (d' & -> & Hup' & Hr). split; [done|]. cbn [dropped]. rewrite Hr.
    destruct (decide (q = sd_pid doc)) as [->|Hq].
    + by rewrite decide_True.
    + rewrite decide_False; [done|]. tauto.
Qed.

Lemma mongo_load_spec pid d : ms_up d → latest (ms_rows d pid) pid (mongo_snapshot_load pid d).
Proof.
  intros Hup. unfold mongo_snapshot_load. destruct (law_ms_find pid d Hup) as (r & -> & Hr). destruct r as [doc|]; [|done].
  destruct Hr as (Hp & Hl & Hm). split; [done|]. exists (sd_seq doc), (sd_timestamp doc). by split_and!.
Qed.

Lemma mongo_snapshot_delete_spec pid to d q :
  ms_up d → ms_rows (mongo_snapshot_delete pid to d) q =
    if decide (q = pid) then filter (λ kv, (u64_as_i64 to < kv.1)%Z) (ms_rows d q) else ms_rows d q.
Proof.
  intros Hup. unfold mongo_snapshot_delete. destruct (law_ms_delete pid (u64_as_i64 to) d Hup) as (d' & -> & _ & Hr).
  cbn [dropped]. by rewrite Hr.
Qed.
End facts.

#[export] Instance SnapTable_Mongo : MongoSnapDb SnapTable := {
  ms_insert doc d :=
    match snap_of d (sd_pid doc) !! sd_seq doc with
    | Some _ => inl "E11000 duplicate key"
    | None => inr (mkSnapTable (<[sd_pid doc := <[sd_seq doc := (sd_payload doc, sd_timestamp doc)]> (snap_of d (sd_pid doc))]> (snap_rows d)))
    end;
  ms_find_last pid d :=
    inr ((λ e : Z * (Bytes * Z), mkSnapshotDoc pid e.1 e.2.1 e.2.2 0) <$> highest_entry (map_to_list (snap_of d pid)));
  ms_delete_upto pid to d := inr (mkSnapTable (<[pid := filter (λ kv, (to < kv.1)%Z) (snap_of d pid)]> (snap_rows d)));
}.

#[export] Program Instance SnapTable_MongoLaws : MongoSnapLaws SnapTable := { ms_rows := snap_of; ms_up _ := True }.
Next Obligation.
  cbn. intros doc d _ ->. eexists. split_and!; [done..|]. intros q. rewrite CassSnapshots.snap_of_set. case_decide; [by subst|done].
Qed.
Next Obligation. cbn. intros doc d [x ->]. eauto. Qed.
Next Obligation.
  cbn. intros pid d _. eexists. split; [done|]. pose proof (CassSnapshots.highest_of_map (snap_of d pid)) as Hs.
  by destruct (highest_entry _) as [[seq [data ts]]|].
Qed.
Next Obligation.
  cbn. intros pid to d _. eexists. split_and!; [done..|]. intros q. rewrite CassSnapshots.snap_of_set. case_decide; [by subst|done].
Qed.
End MongoSnapshots.

(** ** DynamoDB *)

Module DynamoSnapshots.
Import DynamoKeys.

(** The attributes of a snapshot's item; a number attribute is text. *)
Record SnapItem := mkSnapItem { si_payload : option Bytes; si_timestamp : option string }.

(** [ds_last]: the item of the highest sort key that begins with the prefix. *)
Class DynamoSnapDb (D : Type) := {
  ds_put : string → string → SnapItem → D → string + D;
  ds_last : string → string → D → string + option (string * SnapItem);
  ds_delete : string → string → D → string + D;
}.

Section store.
Context {D : Type} `{DynamoSnapDb D}.

Definition snap_item (m : SnapshotMetadata) (data : Bytes) : SnapItem := mkSnapItem (Some data) (Some (uint_to_string (timestamp m))).

Definition dynamo_snapshot_save (m : SnapshotMetadata) (data : Bytes) (d : D) : D :=
  dropped d (ds_put (snap_persistence_id m) (snapshot_sk (snap_sequence_nr m)) (snap_item m data) d).

Definition dynamo_snapshot_load (pid : string) (d : D) : option (SnapshotMetadata * Bytes) :=
  match ds_last pid SNAPSHOT_PREFIX d with
  | inr (Some (sk, it)) =>
      seq ← parse_sequence sk;
      data ← si_payload it;
      Some (mkSnapshotMetadata pid seq (default 0%N (s ← si_timestamp it; parse_uint u64_max s)), data)
  | _ => None
  end.

Definition numbers_to (to : N) : list N := N.of_nat <$> seq 1 (N.to_nat to).

(** [for seq in 1..=to_sequence_nr]: one request for each number. *)
Definition dynamo_snapshot_delete (pid : string) (to : N) (d : D) : D :=
  foldl (λ d seq, dropped d (ds_delete pid (snapshot_sk seq) d)) d (numbers_to to).
End store.

Abbreviation Items := (gmap string SnapItem).

(** Deletion of a key that is not there succeeds. *)
Class DynamoSnapLaws (D : Type) `{DynamoSnapDb D} := {
  ds_items : D → string → Items;
  ds_up : D → Prop;
  law_ds_put pid sk it d : ds_up d → ∃ d', ds_put pid sk it d = inr d' ∧ ds_up d' ∧
    ∀ q, ds_items d' q = if decide (q = pid) then <[sk := it]> (ds_items d q) else ds_items d q;
  law_ds_last pid pre d : ds_up d → ∃ r, ds_last pid pre d = inr r ∧
    match r with
    | None => ∀ sk, is_Some (ds_items d pid !! sk) → String.prefix pre sk = false
    | Some (sk, it) => ds_items d pid !! sk = Some it ∧ String.prefix pre sk = true ∧
        ∀ sk', is_Some (ds_items d pid !! sk') → String.prefix pre sk' = true → String.compare sk' sk ≠ Gt
    end;
  law_ds_delete pid sk d : ds_up d → ∃ d', ds_delete pid sk d = inr d' ∧ ds_up d' ∧
    ∀ q, ds_items d' q = if decide (q = pid) then delete sk (ds_items d q) else ds_items d q;
}.

Section facts.
Context {D : Type} `{DynamoSnapLaws D}.
Implicit Types d : D.

(** The snapshots of an id: the keys with the prefix are those of numbers, and the items are
    as saved. *)
Definition dynamo_rows (d : D) (pid : string) (rows : gmap N (Bytes * N)) : Prop :=
  (∀ sk it, ds_items d pid !! sk = Some it → String.prefix SNAPSHOT_PREFIX sk = true →
     ∃ nr data ts, (nr ≤ u64_max)%N ∧ (ts ≤ u64_max)%N ∧ sk = snapshot_sk nr ∧ it = mkSnapItem (Some data) (Some (uint_to_string ts)) ∧
       rows !! nr = Some (data, ts)) ∧
  (∀ nr data ts, rows !! nr = Some (data, ts) →
     (nr ≤ u64_max)%N ∧ ds_items d pid !! snapshot_sk nr = Some (mkSnapItem (Some data) (Some (uint_to_string ts)))).

Lemma snapshot_sk_prefix nr : String.prefix SNAPSHOT_PREFIX (snapshot_sk nr) = true.
Proof. apply prefix_app. Qed.

Lemma snapshot_sk_inj a b : (a ≤ u64_max)%N → (b ≤ u64_max)%N → snapshot_sk a = snapshot_sk b → a = b.
Proof.
  intros Ha Hb Heq. destruct (sort_keys_order a a Ha Ha) as (_ & _ & _ & _ & Hpa), (sort_keys_order b b Hb Hb) as (_ & _ & _ & _ & Hpb).
  congruence.
Qed.

Lemma dynamo_save_spec m data d rows :
  ds_up d → (snap_sequence_nr m ≤ u64_max)%N → (timestamp m ≤ u64_max)%N →
  dynamo_rows d (snap_persistence_id m) rows →
  ds_up (dynamo_snapshot_save m data d) ∧
  dynamo_rows (dynamo_snapshot_save m data d) (snap_persistence_id m) (<[snap_sequence_nr m := (data, timestamp m)]> rows).
Proof.
  intros Hup Hn Ht [H1 H2]. unfold dynamo_snapshot_save.
  destruct (law_ds_put (snap_persistence_id m) (snapshot_sk (snap_sequence_nr m)) (snap_item m data) d Hup) as (d' & -> & Hup' & Hr).
  cbn [dropped]. split; [done|]. unfold dynamo_rows. rewrite Hr, decide_True by done. split.
  - intros sk it [[<- <-]|[Hne Hsk]]%lookup_insert_Some Hp.
    + exists (snap_sequence_nr m), data, (timestamp m). rewrite lookup_insert_eq. by split_and!.
    + destruct (H1 sk it Hsk Hp) as (nr & data' & ts & Hnr & Hts & -> & -> & Hl). exists nr, data', ts. split_and!; try done.
      rewrite lookup_insert_ne; [done|]. by intros <-.
  - intros nr data' ts [[<- [= <- <-]]|[Hne Hl]]%lookup_insert_Some.
    + by rewrite lookup_insert_eq.
    + destruct (H2 nr data' ts Hl) as [Hnr Hi]. split; [done|]. rewrite lookup_insert_ne; [done|].
      intros Heq. apply Hne. by apply snapshot_sk_inj.
Qed.

(** A load returns the highest number of the snapshots, over all numbers of type [u64]. *)
Lemma dynamo_load_spec pid d rows :
  ds_up d → dynamo_rows d pid rows →
  match dynamo_snapshot_load pid d with
  | None => rows = ∅
  | Some (m, data) => snap_persistence_id m = pid ∧ rows !! snap_sequence_nr m = Some (data, timestamp m) ∧
      ∀ n, is_Some (rows !! n) → (n ≤ snap_sequence_nr m)%N
  end.
Proof.
  intros Hup [H1 H2]. unfold dynamo_snapshot_load. destruct (law_ds_last pid SNAPSHOT_PREFIX d Hup) as (r & -> & Hr).
  destruct r as [[sk it]|].
  - destruct Hr as (Hi & Hp & Hmax). destruct (H1 sk it Hi Hp) as (nr & data & ts & Hn & Ht & -> & -> & Hl).
    destruct (sort_keys_order nr nr Hn Hn) as (_ & _ & _ & _ & Hs). rewrite Hs. cbn [mbind option_bind si_payload si_timestamp].
    rewrite parse_uint_to_string by done. cbn. split_and!; [done..|]. intros n [[data' ts'] Hn']. destruct (H2 _ _ _ Hn') as [Hb Hi'].
    specialize (Hmax _ (ex_intro _ _ Hi') (snapshot_sk_prefix n)). destruct (sort_keys_order n nr Hb Hn) as (_ & Hc & _).
    rewrite Hc in Hmax. by apply N.compare_le_iff.
  - apply map_empty. intros nr. destruct (rows !! nr) as [[data ts]|] eqn:E; [|done].
    destruct (H2 nr data ts E) as [_ Hi]. specialize (Hr _ (ex_intro _ _ Hi)). by rewrite snapshot_sk_prefix in Hr.
Qed.

Lemma elem_of_numbers_to n to : n ∈ numbers_to to ↔ (1 ≤ n ≤ to)%N.
Proof.
  unfold numbers_to. rewrite list_elem_of_fmap. setoid_rewrite elem_of_seq. split; [intros (i & -> & Hi); lia|].
  intros Hn. exists (N.to_nat n). lia.
Qed.

(** A deletion removes the numbers from one to the bound; a snapshot of number zero stays. *)
Lemma dynamo_snapshot_delete_spec pid to d rows :
  ds_up d → (to ≤ u64_max)%N → dynamo_rows d pid rows →
  dynamo_rows (dynamo_snapshot_delete pid to d) pid (filter (λ kv, (to < kv.1)%N ∨ kv.1 = 0%N) rows).
Proof.
  intros Hup Hto Hrows. unfold dynamo_snapshot_delete.
  assert (∀ l d rows, ds_up d → Forall (λ n, (n ≤ u64_max)%N) l → dynamo_rows d pid rows →
    dynamo_rows (foldl (λ d seq, dropped d (ds_delete pid (snapshot_sk seq) d)) d l) pid (filter (λ kv, kv.1 ∉ l) rows)) as Hgen.
  { clear. induction l as [|n l IH]; intros d rows Hup Hl Hrows; cbn [foldl].
    - rewrite map_filter_id; [done|]. intros. apply not_elem_of_nil.
    - apply Forall_cons in Hl as [Hn Hl]. destruct (law_ds_delete pid (snapshot_sk n) d Hup) as (d' & -> & Hup' & Hr). cbn [dropped].
      replace (filter (λ kv : N * (Bytes * N), kv.1 ∉ n :: l) rows) with (filter (λ kv : N * (Bytes * N), kv.1 ∉ l) (delete n rows)).
      + apply IH; [done..|]. destruct Hrows as [H1 H2]. unfold dynamo_rows. rewrite Hr, decide_True by done. split.
        * intros sk it [Hne Hsk]%lookup_delete_Some Hp. destruct (H1 sk it Hsk Hp) as (nr & data & ts & ? & ? & -> & -> & ?).
          exists nr, data, ts. split_and!; try done. rewrite lookup_delete_ne; [done|]. by intros <-.
        * intros nr data ts [Hne Hl']%lookup_delete_Some. destruct (H2 nr data ts Hl') as [Hb Hi]. split; [done|].
          rewrite lookup_delete_ne; [done|]. intros Heq. apply Hne. by apply snapshot_sk_inj.
      + apply map_eq. intros k. apply option_eq. intros x.
        rewrite !map_lookup_filter_Some, lookup_delete_Some, not_elem_of_cons. cbn. intuition congruence. }
  replace (filter (λ kv : N * (Bytes * N), (to < kv.1)%N ∨ kv.1 = 0%N) rows) with (filter (λ kv : N * (Bytes * N), kv.1 ∉ numbers_to to) rows).
  - apply Hgen; [done| |done]. apply Forall_forall. intros n Hn%elem_of_numbers_to. lia.
  - apply map_filter_ext. intros k x _. cbn. rewrite elem_of_numbers_to. lia.
Qed.

(** A deletion sends as many requests as its bound says, whatever is stored: the call of the
    conformance suite for an id without snapshots has the bound [u64::MAX]. *)
Lemma dynamo_delete_requests to : N.of_nat (length (numbers_to to)) = to.
Proof. unfold numbers_to. rewrite length_fmap, length_seq. lia. Qed.
End facts.

(** *** A table *)

Record SnapItems := mkSnapItems { sni : gmap string Items }.
Definition items_at (d : SnapItems) (pid : string) : Items := default ∅ (sni d !! pid).

Definition higher_key (a b : option (string * SnapItem)) : option (string * SnapItem) :=
  match a, b with
  | Some (ka, _), Some (kb, _) => if String.leb ka kb then b else a
  | None, _ => b
  | _, None => a
  end.

#[export] Instance SnapItems_Db : DynamoSnapDb SnapItems := {
  ds_put pid sk it d := inr (mkSnapItems (<[pid := <[sk := it]> (items_at d pid)]> (sni d)));
  ds_last pid pre d :=
    inr (foldr (λ e acc, if String.prefix pre e.1 then higher_key (Some e) acc else acc) None (map_to_list (items_at d pid)));
  ds_delete pid sk d := inr (mkSnapItems (<[pid := delete sk (items_at d pid)]> (sni d)));
}.

Lemma items_at_set (m : gmap string Items) pid r q :
  items_at (mkSnapItems (<[pid := r]> m)) q = if decide (q = pid) then r else items_at (mkSnapItems m) q.
Proof.
  unfold items_at. cbn. case_decide as Hq; [subst; by rewrite lookup_insert_eq|]. by rewrite lookup_insert_ne.
Qed.

Lemma last_key_spec pre (l : list (string * SnapItem)) :
  match foldr (λ e acc, if String.prefix pre e.1 then higher_key (Some e) acc else acc) None l with
  | None => Forall (λ e, String.prefix pre e.1 = false) l
  | Some e => e ∈ l ∧ String.prefix pre e.1 = true ∧ Forall (λ e', String.prefix pre e'.1 = true → String.le e'.1 e.1) l
  end.
Proof.
  induction l as [|[k it] l IH]; cbn [foldr fst]; [constructor|].
  destruct (String.prefix pre k) eqn:Ep; destruct (foldr _ _ _) as [[k' it']|]; cbn [higher_key].
  - destruct IH as (Hin & Hp & Hall). rewrite string_leb_spec. case_bool_decide as Hle.
    + split_and!; [by right|done|]. constructor; [done|done].
    + split_and!; [by left|done|]. assert (String.le k' k) by (by destruct (total String.le k' k)).
      constructor; [done|]. eapply Forall_impl; [exact Hall|]. cbn. intros e He Hpe. transitivity k'; auto.
  - split_and!; [by left|done|]. constructor; [done|]. eapply Forall_impl; [exact IH|]. cbn. intros e He. by rewrite He.
  - destruct IH as (Hin & Hp & Hall). split_and!; [by right|done|]. constructor; [|done]. cbn. by rewrite Ep.
  - by constructor.
Qed.

#[export] Program Instance SnapItems_Laws : DynamoSnapLaws SnapItems := { ds_items := items_at; ds_up _ := True }.
Next Obligation.
  cbn. intros pid sk it d _. eexists. split_and!; [done..|]. intros q. rewrite items_at_set. case_decide; [by subst|done].
Qed.
Next Obligation.
  cbn. intros pid pre d _. eexists. split; [done|]. pose proof (last_key_spec pre (map_to_list (items_at d pid))) as Hs.
  destruct (foldr _ _ _) as [[sk it]|].
  - destruct Hs as (Hin & Hp & Hall). split_and!; [by apply elem_of_map_to_list|done|]. intros sk' [it' Hit] Hp'.
    rewrite Forall_forall in Hall. apply elem_of_map_to_list in Hit.
    pose proof (Hall _ Hit Hp') as Hle. unfold String.le, String.leb in Hle. cbn in Hle. intros Hgt. by rewrite Hgt in Hle.
  - intros sk [it Hit%elem_of_map_to_list]. rewrite Forall_forall in Hs. exact (Hs _ Hit).
Qed.
Next Obligation.
  cbn. intros pid sk d _. eexists. split_and!; [done..|]. intros q. rewrite items_at_set. case_decide; [by subst|done].
Qed.

(** A snapshot of number zero is never deleted. *)
Example number_zero_stays :
  let d := dynamo_snapshot_save (mkSnapshotMetadata "p" 0 5) [Byte.x01] (mkSnapItems ∅) in
  dynamo_snapshot_load "p" (dynamo_snapshot_delete "p" 9 d) = Some (mkSnapshotMetadata "p" 0 5, [Byte.x01]).
Proof. vm_compute. reflexivity. Qed.
End DynamoSnapshots.

(** ** Redis *)

Module RedisSnapshots.
Import Redis.

Record StoredSnapshot := mkStored { ss_pid : string; ss_nr : N; ss_ts : N; ss_payload_b64 : string }.

(** A sorted set per id, by number. *)
Class RedisSnapDb (D : Type) := {
  rs_zadd : string → N → string → D → string + D;
  rs_zrange_last : string → D → string + option (string * N);
  rs_zremrangebyscore : string → N → N → D → string + D;
}.

Section store.
Context {D : Type} `{RedisSnapDb D}.
Variable cfg : RedisConfig.
(** The libraries for base64 and JSON. *)
Variable b64_encode : Bytes → string.
Variable b64_decode : string → option Bytes.
Variable to_json : StoredSnapshot → option string.
Variable from_json : string → option StoredSnapshot.

Definition stored_new (m : SnapshotMetadata) (data : Bytes) : StoredSnapshot :=
  mkStored (snap_persistence_id m) (snap_sequence_nr m) (timestamp m) (b64_encode data).
Definition stored_parts (s : StoredSnapshot) : SnapshotMetadata * Bytes :=
  (mkSnapshotMetadata (ss_pid s) (ss_nr s) (ss_ts s), default [] (b64_decode (ss_payload_b64 s))).

Definition redis_snapshot_save (m : SnapshotMetadata) (data : Bytes) (d : D) : D :=
  match to_json (stored_new m data) with
  | None => d
  | Some raw => dropped d (rs_zadd (snapshot_key cfg (snap_persistence_id m)) (snap_sequence_nr m) raw d)
  end.

Definition redis_snapshot_load (pid : string) (d : D) : option (SnapshotMetadata * Bytes) :=
  match rs_zrange_last (snapshot_key cfg pid) d with
  | inr (Some (raw, _)) => stored_parts <$> from_json raw
  | _ => None
  end.

Definition redis_snapshot_delete (pid : string) (to : N) (d : D) : D :=
  dropped d (rs_zremrangebyscore (snapshot_key cfg pid) 0 to d).
End store.

Class RedisSnapLaws (D : Type) `{RedisSnapDb D} := {
  rs_set : D → string → ZSet;
  rs_up : D → Prop;
  law_rs_zadd key s m d : rs_up d → ∃ d', rs_zadd key s m d = inr d' ∧ rs_up d' ∧
    ∀ k, rs_set d' k = if decide (k = key) then z_insert s m (z_remove m (rs_set d k)) else rs_set d k;
  law_rs_last key d : rs_up d → rs_zrange_last key d = inr ((λ e : N * string, (e.2, e.1)) <$> last (rs_set d key));
  law_rs_rem key lo hi d : rs_up d → ∃ d', rs_zremrangebyscore key lo hi d = inr d' ∧ rs_up d' ∧
    ∀ k, rs_set d' k = if decide (k = key) then filter (λ e, ¬ ((lo ≤ e.1)%N ∧ (e.1 ≤ hi)%N)) (rs_set d k) else rs_set d k;
}.

Section facts.
Context {D : Type} `{RedisSnapLaws D} (cfg : RedisConfig).
Context (b64_encode : Bytes → string) (b64_decode : string → option Bytes).
Context (to_json : StoredSnapshot → option string) (from_json : string → option StoredSnapshot).
Hypothesis b64_inv : ∀ b, b64_decode (b64_encode b) = Some b.
Hypothesis json_inv : ∀ s, ∃ raw, to_json s = Some raw ∧ from_json raw = Some s.
Implicit Types d : D.

Lemma z_insert_above s m (l : ZSet) : Forall (λ e, (e.1 < s)%N) l → z_insert s m l = l ++ [(s, m)].
Proof.
  induction 1 as [|[s' m'] l Hs Hl IH]; [done|]. cbn [z_insert fst app] in *. rewrite IH.
  destruct (N.ltb_spec s s'); [lia|]. destruct (N.eqb_spec s s'); [lia|]. done.
Qed.

(** A snapshot above the others is loaded again, and after a deletion below it too. *)
Lemma redis_save_load m data d to :
  rs_up d → Forall (λ e, (e.1 < snap_sequence_nr m)%N) (rs_set d (snapshot_key cfg (snap_persistence_id m))) →
  (to < snap_sequence_nr m)%N →
  let d' := redis_snapshot_save cfg b64_encode to_json m data d in
  redis_snapshot_load cfg b64_decode from_json (snap_persistence_id m) d' = Some (m, data) ∧
  redis_snapshot_load cfg b64_decode from_json (snap_persistence_id m) (redis_snapshot_delete cfg (snap_persistence_id m) to d') = Some (m, data).
Proof.
  intros Hup Hall Hto. cbn zeta. set (key := snapshot_key cfg (snap_persistence_id m)) in *.
  destruct (json_inv (stored_new b64_encode m data)) as (raw & Hj & Hf). unfold redis_snapshot_save. rewrite Hj. fold key.
  destruct (law_rs_zadd key (snap_sequence_nr m) raw d Hup) as (d1 & -> & Hup1 & Hs). cbn [dropped].
  assert (rs_set d1 key = z_remove raw (rs_set d key) ++ [(snap_sequence_nr m, raw)]) as Hs1.
  { rewrite Hs, decide_True by done. apply z_insert_above. apply Forall_forall. intros e [_ He]%list_elem_of_filter.
    rewrite Forall_forall in Hall. by apply Hall. }
  assert (stored_parts b64_decode (stored_new b64_encode m data) = (m, data)) as Hp.
  { unfold stored_parts, stored_new. cbn. rewrite b64_inv. by destruct m. }
  unfold redis_snapshot_load, redis_snapshot_delete. fold key. split.
  - rewrite law_rs_last, Hs1, last_snoc by done. cbn. by rewrite Hf, <- Hp.
  - destruct (law_rs_rem key 0 to d1 Hup1) as (d2 & -> & Hup2 & Hs2). cbn [dropped].
    rewrite law_rs_last, Hs2, decide_True, Hs1, filter_app by done. rewrite filter_cons_True, filter_nil by (cbn; lia).
    rewrite last_snoc. cbn. by rewrite Hf, <- Hp.
Qed.
End facts.

#[export] Instance Sets_SnapDb : RedisSnapDb Sets := {
  rs_zadd key s m d := inr (z_update key (λ l, z_insert s m (z_remove m l)) d);
  rs_zrange_last key d := inr ((λ e : N * string, (e.2, e.1)) <$> last (zset d key));
  rs_zremrangebyscore key lo hi d := inr (z_update key (filter (λ e, ¬ ((lo ≤ e.1)%N ∧ (e.1 ≤ hi)%N))) d);
}.

Lemma zset_update key f d k : zset (z_update key f d) k = if decide (k = key) then f (zset d k) else zset d k.
Proof.
  unfold zset, z_update. cbn. case_decide as Hk; [subst; by rewrite lookup_insert_eq|]. by rewrite lookup_insert_ne.
Qed.

#[export] Program Instance Sets_SnapLaws : RedisSnapLaws Sets := { rs_set := zset; rs_up _ := True }.
Next Obligation. cbn. intros key s m d _. eexists. split_and!; [done..|]. intros k. by rewrite zset_update. Qed.
Next Obligation. done. Qed.
Next Obligation. cbn. intros key lo hi d _. eexists. split_and!; [done..|]. intros k. by rewrite zset_update. Qed.

(** Two snapshots of one number are two members, and the texts decide which one is loaded: here
    the older. *)
Definition toy_json (s : StoredSnapshot) : option string := Some (ss_payload_b64 s).
Definition toy_unjson (raw : string) : option StoredSnapshot := Some (mkStored "p" 7 0 raw).
Definition toy_save (b : Byte.byte) (d : Sets) : Sets :=
  redis_snapshot_save rcfg String.string_of_list_byte toy_json (mkSnapshotMetadata "p" 7 0) [b] d.

Example same_number_by_text :
  snd <$> redis_snapshot_load rcfg (λ s, Some (String.list_byte_of_string s)) toy_unjson "p"
    (toy_save Byte.x41 (toy_save Byte.x42 (mkSets ∅))) = Some [Byte.x42].
Proof. vm_compute. reflexivity. Qed.
End RedisSnapshots.

(** ** Azure tables *)

Module AzureSnapshots.
Import DynamoKeys AzureService.

Record SnapshotEntity := mkSnapshotEntity {
  sn_partition_key : string; sn_row_key : string; sn_sequence_nr : Z; sn_payload_b64 : string; sn_timestamp_ms : Z;
}.

Class AzureSnapDb (D : Type) := {
  as_query : string → D → JournalError + list SnapshotEntity;
  as_upsert : string → SnapshotEntity → D → JournalError + D;
  as_delete : string → D → JournalError + D;
}.

Section store.
Context {D : Type} `{AzureSnapDb D}.
Variable table : string.
Variable b64_encode : Bytes → string.
Variable b64_decode : string → option Bytes.

Definition snap_from_meta (m : SnapshotMetadata) (data : Bytes) : SnapshotEntity :=
  mkSnapshotEntity (snap_persistence_id m) (row_key (snap_sequence_nr m)) (u64_as_i64 (snap_sequence_nr m)) (b64_encode data)
    (u64_as_i64 (timestamp m)).
Definition snap_into_parts (e : SnapshotEntity) : SnapshotMetadata * Bytes :=
  (meta_of (sn_partition_key e) (sn_sequence_nr e) (sn_timestamp_ms e), default [] (b64_decode (sn_payload_b64 e))).

Definition azure_snapshot_save (m : SnapshotMetadata) (data : Bytes) (d : D) : D :=
  let e := snap_from_meta m data in
  match as_upsert (entity_resource table (sn_partition_key e) (sn_row_key e)) e d with inl _ => d | inr d' => d' end.

(** [sort_by_key(Reverse(sequence_nr))], and the first. *)
Definition newest_first : relation SnapshotEntity := λ a b, (sn_sequence_nr b ≤ sn_sequence_nr a)%Z.
#[local] Instance newest_first_dec : RelDecision newest_first := λ a b, decide (sn_sequence_nr b ≤ sn_sequence_nr a)%Z.

Definition azure_snapshot_load (pid : string) (d : D) : option (SnapshotMetadata * Bytes) :=
  match as_query (partition_filter (escape_pk pid)) d with
  | inl _ => None
  | inr es => snap_into_parts <$> head (merge_sort newest_first es)
  end.

Definition azure_snapshot_delete (pid : string) (to : N) (d : D) : D :=
  match as_query (partition_filter (escape_pk pid) +:+ " and SequenceNr le " +:+ int_to_string (u64_as_i64 to)) d with
  | inl _ => d
  | inr es => foldl (λ d e,
      match as_delete (entity_resource table (sn_partition_key e) (sn_row_key e)) d with inl _ => d | inr d' => d' end) d es
  end.

(** A load gives the highest number of what the service answers. *)
Lemma azure_load_answer pid d es :
  as_query (partition_filter (escape_pk pid)) d = inr es →
  match azure_snapshot_load pid d with
  | None => es = []
  | Some r => ∃ e, e ∈ es ∧ r = snap_into_parts e ∧ ∀ e', e' ∈ es → (sn_sequence_nr e' ≤ sn_sequence_nr e)%Z
  end.
Proof.
  intros Hq. unfold azure_snapshot_load. rewrite Hq.
  assert (Transitive newest_first) by (intros a b c; unfold newest_first; lia).
  assert (Total newest_first) by (intros a b; unfold newest_first; lia).
  pose proof (merge_sort_Permutation newest_first es) as Hp. pose proof (StronglySorted_merge_sort newest_first es) as Hs.
  destruct (merge_sort newest_first es) as [|e l]; cbn.
  - by apply Permutation_nil_l in Hp.
  - exists e. split_and!; [rewrite <- Hp; left|done|]. intros e' He'. rewrite <- Hp in He'.
    apply StronglySorted_inv in Hs as [_ Hs]. rewrite Forall_forall in Hs.
    apply elem_of_cons in He' as [->|He']; [lia|]. by apply Hs.
Qed.
End store.

(** *** The service *)

Record SnapService := mkSnapService { sv_page : nat; sv_entities : gmap (string * string) SnapshotEntity }.

Definition snap_holds (c : Cond) (e : SnapshotEntity) : bool :=
  match c with
  | CondKey pk => String.eqb (sn_partition_key e) pk
  | CondGe n => (n <=? sn_sequence_nr e)%Z
  | CondLe n => (sn_sequence_nr e <=? n)%Z
  | CondLive => true
  end.

Definition snap_row_order : relation SnapshotEntity := λ a b, String.le (sn_row_key a) (sn_row_key b).
#[export] Instance snap_row_order_dec : RelDecision snap_row_order := λ a b, decide (String.le (sn_row_key a) (sn_row_key b)).

#[export] Instance SnapService_Db : AzureSnapDb SnapService := {
  as_query text d :=
    match parse_filter text with
    | None => inl (JournalBackend "query: 400 Bad Request")
    | Some cs => inr (take (sv_page d)
        (merge_sort snap_row_order (filter (λ e, forallb (λ c, snap_holds c e) cs = true) (map_to_list (sv_entities d)).*2)))
    end;
  as_upsert resource e d :=
    match read_key resource with
    | None => inl (JournalBackend "upsert: 400 Bad Request")
    | Some key => inr (mkSnapService (sv_page d) (<[key := e]> (sv_entities d)))
    end;
  as_delete resource d :=
    match read_key resource with
    | None => inl (JournalBackend "delete: 400 Bad Request")
    | Some key => inr (mkSnapService (sv_page d) (delete key (sv_entities d)))
    end;
}.

Definition saved_upto (pid : string) (page n : nat) : SnapService :=
  foldl (λ d i, azure_snapshot_save "t" toy_b64 (mkSnapshotMetadata pid (N.of_nat i) 0) [Byte.x61] d)
    (mkSnapService page ∅) (seq 1 n).
Definition loaded_nr (pid : string) (d : SnapService) : option N :=
  snap_sequence_nr ∘ fst <$> azure_snapshot_load toy_unb64 pid d.

Example azure_loads_highest :
  loaded_nr "p" (saved_upto "p" 1000 12) = Some 12%N ∧
  loaded_nr "p" (azure_snapshot_delete "t" "p" 12 (saved_upto "p" 1000 12)) = None.
Proof. vm_compute. done. Qed.

(** The answer is read up to the end of its first page, which has the lowest numbers: past it,
    an old snapshot is loaded. *)
Example azure_loads_old_past_page : loaded_nr "p" (saved_upto "p" 5 12) = Some 5%N.
Proof. vm_compute. done. Qed.

(** The id goes into the address of an entity as it is: one with a quote is never saved. *)
Example azure_quote_not_saved : loaded_nr "o'p" (saved_upto "o'p" 5 1) = None.
Proof. vm_compute. done. Qed.
End AzureSnapshots.

(** ** The conformance suites *)

Module SnapshotRuns.
Import CassSnapshots MongoSnapshots RedisSnapshots AzureSnapshots AzureService.

Definition snap_sched : list bool := replicate 4 false ++ replicate 10 true ++ replicate 6 false.

Definition snap_runs {S} (HS : SnapshotStore S) (s : S) : list bool :=
  let ok (m : Suite S unit) := match m s with Some _ => true | None => false end in
  [ok (snapshot_suite "t"); ok (snapshot_extended_suite snap_sched "t")].

Definition Cassandra_Snapshots : SnapshotStore SnapTable := {|
  snapshot_save := cass_snapshot_save; snapshot_load := cass_snapshot_load; snapshot_delete := cass_snapshot_delete |}.
Definition Mongo_Snapshots : SnapshotStore SnapTable := {|
  snapshot_save := mongo_snapshot_save 0; snapshot_load := mongo_snapshot_load; snapshot_delete := mongo_snapshot_delete |}.
Definition Azure_Snapshots : SnapshotStore SnapService := {|
  snapshot_save := azure_snapshot_save "t" toy_b64; snapshot_load := azure_snapshot_load toy_unb64;
  snapshot_delete := azure_snapshot_delete "t" |}.

Example stores_pass :
  snap_runs Cassandra_Snapshots (mkSnapTable ∅) = [true; true] ∧
  snap_runs Mongo_Snapshots (mkSnapTable ∅) = [true; true] ∧
  snap_runs Azure_Snapshots (mkSnapService 1000 ∅) = [true; true].
Proof. vm_compute. done. Qed.
End SnapshotRuns.

(** Whatever database satisfies the laws of its statements: a snapshot saved above the others of
    its id is what a load returns, on Cassandra, MongoDB and DynamoDB. *)
Theorem snapshot_reloaded {C M Y : Type} `{CassSnapshots.CassSnapLaws C} `{MongoSnapshots.MongoSnapLaws M} `{DynamoSnapshots.DynamoSnapLaws Y}
    (c : C) (mg : M) (dy : Y) (m : SnapshotMetadata) (data : Bytes) (now : Z) (rows : gmap N (Bytes * N)) :
  let pid := snap_persistence_id m in
  let nr := snap_sequence_nr m in
  (nr < 2 ^ 63)%N → (timestamp m < 2 ^ 63)%N →
  CassSnapshots.cs_up c → (∀ s, is_Some (CassSnapshots.cs_rows c pid !! s) → (s < Z.of_N nr)%Z) →
  MongoSnapshots.ms_up mg → (∀ s, is_Some (MongoSnapshots.ms_rows mg pid !! s) → (s < Z.of_N nr)%Z) →
  DynamoSnapshots.ds_up dy → DynamoSnapshots.dynamo_rows dy pid rows → (∀ n, is_Some (rows !! n) → (n < nr)%N) →
  CassSnapshots.cass_snapshot_load pid (CassSnapshots.cass_snapshot_save m data c) = Some (m, data) ∧
  MongoSnapshots.mongo_snapshot_load pid (MongoSnapshots.mongo_snapshot_save now m data mg) = Some (m, data) ∧
  DynamoSnapshots.dynamo_snapshot_load pid (DynamoSnapshots.dynamo_snapshot_save m data dy) = Some (m, data).
Proof.
  intros pid nr Hn Ht Hc Hcl Hm Hml Hd Hrows Hdl. split_and!.
  - destruct (CassSnapshots.cass_save_spec m data c pid Hc) as [Hup Hr]. rewrite decide_True in Hr by done.
    pose proof (CassSnapshots.cass_load_spec pid _ Hup) as Hl. rewrite Hr in Hl.
    eapply latest_saved; [done..| |exact Hl]. intros s Hs. specialize (Hcl s Hs). lia.
  - destruct (MongoSnapshots.mongo_save_spec now m data mg pid Hm) as [Hup Hr]. rewrite decide_True in Hr.
    2: { split; [done|]. destruct (MongoSnapshots.ms_rows mg pid !! _) eqn:E; [|done]. specialize (Hml _ (ex_intro _ _ E)).
      rewrite u64_as_i64_small in Hml by done. lia. }
    pose proof (MongoSnapshots.mongo_load_spec pid _ Hup) as Hl. rewrite Hr in Hl.
    eapply latest_saved; [done..| |exact Hl]. intros s Hs. specialize (Hml s Hs). lia.
  - assert (∀ n, (n < 2 ^ 63)%N → (n ≤ u64_max)%N) as Hu by (intros n Hlt; unfold u64_max; lia).
    destruct (DynamoSnapshots.dynamo_save_spec m data dy rows Hd (Hu _ Hn) (Hu _ Ht) Hrows) as [Hup Hr].
    pose proof (DynamoSnapshots.dynamo_load_spec pid _ _ Hup Hr) as Hl.
    destruct (DynamoSnapshots.dynamo_snapshot_load pid _) as [[m' data']|]; [|by apply insert_non_empty in Hl].
    destruct Hl as (Hp & Hl & Hmax). pose proof (Hmax nr) as Hx. rewrite lookup_insert_eq in Hx. specialize (Hx ltac:(eauto)).
    destruct (decide (snap_sequence_nr m' = nr)) as [Heq|Hne].
    + rewrite Heq, lookup_insert_eq in Hl. injection Hl as <- Hts. destruct m as [p n t], m' as [p' n' t']. cbn in *. by subst.
    + rewrite lookup_insert_ne in Hl by done. specialize (Hdl _ (ex_intro _ _ Hl)). lia.
Qed.

Module ReloadRun.
Import CassSnapshots MongoSnapshots DynamoSnapshots.
Lemma snapshot_reloaded_witness :
  CassSnapshots.cass_snapshot_load "p" (CassSnapshots.cass_snapshot_save (mkSnapshotMetadata "p" 7 1) [Byte.x61] (mkSnapTable ∅)) =
  Some (mkSnapshotMetadata "p" 7 1, [Byte.x61]).
Proof.
  refine (proj1 (snapshot_reloaded (mkSnapTable ∅) (mkSnapTable ∅) (DynamoSnapshots.mkSnapItems ∅) (mkSnapshotMetadata "p" 7 1) [Byte.x61] 0 ∅
    _ _ I _ I _ I _ _)).
  - vm_compute. reflexivity.
  - vm_compute. reflexivity.
  - intros s [x Hx]. discriminate Hx.
  - intros s [x Hx]. discriminate Hx.
  - split; [intros sk it Hx; discriminate Hx|intros nr d ts Hx; discriminate Hx].
  - intros s [x Hx]. discriminate Hx.
Defined.
End ReloadRun.
