(* ===== verification/StreamHubs.v ===== *)
(** * Hubs, stream references and source queues
    ([crates/atomr-streams/src/hub.rs], [stream_ref.rs], [queue.rs])

    - [Lines]: many producers and one consumer over a channel: [MergeHub], [SourceRefHandle],
      [SinkRefHandle] and [SourceQueue], which differ in the bound of the channel and in who
      holds a sender.
    - [Broadcasts]: [BroadcastHub], one channel that every consumer reads at its own pace.

    A producer is a task that pumps its source; the steps of the tasks, of the consumers and
    of the owner of a handle come in any order.  An element in a channel carries the number of
    its producer, for the specification. *)

From stdpp Require Import list.
From Stdlib Require Import NArith Lia.
From S2P Require Import Prelude.

Module Lines.
Section line.
Context {T : Type}.

(** A pumping task: its source, what is left of it, and whether the task has ended, which
    drops its sender. *)
Record Producer := mkProducer { pr_source : list T; pr_left : list T; pr_done : bool }.

(** Where the receiver is: in the handle, with the consumer, or dropped. *)
Inductive Rx := Held | Taken | Gone.

Record Line := mkLine {
  ln_cap : option nat;            (** bound of the channel *)
  ln_producers : list Producer;
  ln_owner : bool;                (** the handle, with its sender *)
  ln_chan : list (nat * T);
  ln_rx : Rx;
  ln_got : list (nat * T);
  ln_ended : bool;                (** the consumer has seen the end *)
}.

(** *** The handles *)

Definition MergeHub_new : Line := mkLine None [] true [] Held [] false.
Definition SinkRef_new (buffer : nat) : Line := mkLine (Some (buffer `max` 1)) [] true [] Held [] false.
(** The task owns the only sender. *)
Definition SourceRef_advertise (source : list T) (buffer : nat) : Line :=
  mkLine (Some (buffer `max` 1)) [mkProducer source source false] false [] Held [] false.

Definition attach (source : list T) (l : Line) : Line :=
  mkLine (ln_cap l) (ln_producers l ++ [mkProducer source source false]) (ln_owner l) (ln_chan l) (ln_rx l) (ln_got l) (ln_ended l).

(** [source] and [take_source]; [false]: an empty source. *)
Definition take_source (l : Line) : bool * Line :=
  match ln_rx l with
  | Held => (true, mkLine (ln_cap l) (ln_producers l) (ln_owner l) (ln_chan l) Taken (ln_got l) (ln_ended l))
  | _ => (false, l)
  end.

(** A receiver that was not taken goes with the handle. *)
Definition drop_handle (l : Line) : Line :=
  mkLine (ln_cap l) (ln_producers l) false
    (match ln_rx l with Held => [] | _ => ln_chan l end) (match ln_rx l with Held => Gone | r => r end) (ln_got l) (ln_ended l).

Definition drop_source (l : Line) : Line :=
  match ln_rx l with
  | Taken => mkLine (ln_cap l) (ln_producers l) (ln_owner l) [] Gone (ln_got l) (ln_ended l)
  | _ => l
  end.

(** *** The tasks *)

Definition full (l : Line) : bool := match ln_cap l with Some c => c <=? length (ln_chan l) | None => false end.

(** One turn of [while let Some(item) = s.next().await]; a task waits at a full channel. *)
Definition pump (i : nat) (l : Line) : Line :=
  match ln_producers l !! i with
  | Some (mkProducer src more false) =>
      match more with
      | [] => mkLine (ln_cap l) (<[i := mkProducer src [] true]> (ln_producers l)) (ln_owner l) (ln_chan l) (ln_rx l) (ln_got l) (ln_ended l)
      | x :: rest =>
          match ln_rx l with
          | Gone => mkLine (ln_cap l) (<[i := mkProducer src rest true]> (ln_producers l)) (ln_owner l) (ln_chan l) (ln_rx l) (ln_got l) (ln_ended l)
          | _ =>
              if full l then l
              else mkLine (ln_cap l) (<[i := mkProducer src rest false]> (ln_producers l)) (ln_owner l) (ln_chan l ++ [(i, x)]) (ln_rx l)
                     (ln_got l) (ln_ended l)
          end
      end
  | _ => l
  end.

(** No sender is left. *)
Definition closed (l : Line) : bool := negb (ln_owner l) && forallb pr_done (ln_producers l).

(** The consumer asks for an element. *)
Definition pull (l : Line) : Line :=
  match ln_rx l, ln_chan l with
  | Taken, x :: c => mkLine (ln_cap l) (ln_producers l) (ln_owner l) c (ln_rx l) (ln_got l ++ [x]) (ln_ended l)
  | Taken, [] => if closed l then mkLine (ln_cap l) (ln_producers l) (ln_owner l) [] (ln_rx l) (ln_got l) true else l
  | _, _ => l
  end.

Inductive LineOp := OpAttach (source : list T) | OpTake | OpDropHandle | OpDropSource | OpPump (i : nat) | OpPull.

Definition line_op (l : Line) (op : LineOp) : Line :=
  match op with
  | OpAttach s => if ln_owner l then attach s l else l
  | OpTake => (take_source l).2
  | OpDropHandle => drop_handle l
  | OpDropSource => drop_source l
  | OpPump i => pump i l
  | OpPull => pull l
  end.

(** *** What the consumer gets *)

Definition of_producer (i : nat) (l : list (nat * T)) : list T := (filter (λ e, e.1 = i) l).*2.

(** The elements of each producer that are with the consumer or on their way, with what the
    producer has left, are its source; nothing came from elsewhere; the channel keeps its
    bound; and the end is seen only when every source is read. *)
Definition line_ok (l : Line) : Prop :=
  (ln_rx l ≠ Gone → ∀ i p, ln_producers l !! i = Some p →
     of_producer i (ln_got l ++ ln_chan l) ++ pr_left p = pr_source p ∧ (pr_done p = true → pr_left p = [])) ∧
  (∀ i p, ln_producers l !! i = Some p → of_producer i (ln_got l) `prefix_of` pr_source p) ∧
  Forall (λ e, e.1 < length (ln_producers l))%nat (ln_got l ++ ln_chan l) ∧
  (∀ c, ln_cap l = Some c → (length (ln_chan l) ≤ c)%nat) ∧
  (ln_ended l = true → ln_chan l = [] ∧ closed l = true ∧
     ∀ i p, ln_producers l !! i = Some p → of_producer i (ln_got l) = pr_source p).

#[local] Arguments of_producer : simpl never.

Lemma of_producer_app i a b : of_producer i (a ++ b) = of_producer i a ++ of_producer i b.
Proof. unfold of_producer. by rewrite filter_app, fmap_app. Qed.

Lemma of_producer_one i j x : of_producer i [(j, x)] = if decide (j = i) then [x] else [].
Proof. unfold of_producer. rewrite filter_cons, filter_nil. cbn. by case_decide. Qed.

Lemma of_producer_fresh i l : Forall (λ e, e.1 < i)%nat l → of_producer i l = [].
Proof.
  intros Hl. unfold of_producer. rewrite filter_none; [done|]. intros e He. rewrite Forall_forall in Hl. specialize (Hl e He). lia.
Qed.

Lemma line_new_ok (l : Line) :
  ln_chan l = [] → ln_got l = [] → ln_ended l = false →
  Forall (λ p, pr_left p = pr_source p ∧ pr_done p = false) (ln_producers l) → line_ok l.
Proof.
  intros Hc Hg He Hp. rewrite Forall_lookup in Hp. unfold line_ok. rewrite Hc, Hg, He. split_and!; try done.
  - intros _ i p Hi. destruct (Hp i p Hi) as [-> ->]. done.
  - intros i p _. apply prefix_nil.
  - cbn. lia.
Qed.

Lemma attach_ok s l : line_ok l → ln_owner l = true → line_ok (attach s l).
Proof.
  intros (H1 & H2 & H3 & H4 & H5) Ho. unfold line_ok, attach. cbn.
  assert (ln_ended l = false) as He.
  { destruct (ln_ended l); [|done]. destruct H5 as (_ & Hc & _); [done|]. unfold closed in Hc. by rewrite Ho in Hc. }
  split_and!; try done.
  - intros Hg i p. rewrite lookup_snoc_Some. intros [[Hi Hp]|[-> <-]]; [by apply H1|]. cbn.
    by rewrite of_producer_fresh.
  - intros i p. rewrite lookup_snoc_Some. intros [[Hi Hp]|[-> <-]]; [by apply H2|]. cbn.
    rewrite of_producer_fresh; [apply prefix_nil|]. by apply Forall_app in H3 as [? _].
  - eapply Forall_impl; [exact H3|]. cbn. rewrite length_app. cbn. lia.
  - rewrite He. done.
Qed.

Lemma take_ok l : line_ok l → line_ok (take_source l).2.
Proof. unfold take_source. destruct (ln_rx l) eqn:E; [|done..]. unfold line_ok, closed. cbn. rewrite E. naive_solver. Qed.

Lemma drop_handle_ok l : line_ok l → line_ok (drop_handle l).
Proof.
  intros (H1 & H2 & H3 & H4 & H5). unfold drop_handle, line_ok, closed. cbn. destruct (ln_rx l) eqn:E; cbn.
  - split_and!; try done; [by rewrite app_nil_r; apply Forall_app in H3 as [? _]|intros; lia|].
    intros He. destruct (H5 He) as (_ & Hc & Hi). split_and!; [done| |done]. unfold closed in Hc. by apply andb_prop in Hc as [_ ?].
  - split_and!; try done. intros He. destruct (H5 He) as (? & Hc & Hi). split_and!; [done| |done].
    unfold closed in Hc. by apply andb_prop in Hc as [_ ?].
  - split_and!; try done. intros He. destruct (H5 He) as (? & Hc & Hi). split_and!; [done| |done].
    unfold closed in Hc. by apply andb_prop in Hc as [_ ?].
Qed.

Lemma drop_source_ok l : line_ok l → line_ok (drop_source l).
Proof.
  intros (H1 & H2 & H3 & H4 & H5). unfold drop_source. destruct (ln_rx l) eqn:E; try (by unfold line_ok; rewrite E).
  unfold line_ok. cbn. split_and!; try done; [by rewrite app_nil_r; apply Forall_app in H3 as [? _]|intros; lia|].
  intros He. destruct (H5 He) as (? & Hc & Hi). done.
Qed.

(** An end that was seen has no producer that could pump. *)
Lemma ended_done l i p : line_ok l → ln_ended l = true → ln_producers l !! i = Some p → pr_done p = true.
Proof.
  intros (_ & _ & _ & _ & H5) He Hi. destruct (H5 He) as (_ & Hc & _). apply andb_prop in Hc as [_ Hc].
  rewrite forallb_forall in Hc. apply Hc, list_elem_of_In. by eapply list_elem_of_lookup_2.
Qed.

(** A turn of one producer, on the list of producers: the others are as they were. *)
Lemma producers_insert (ps : list Producer) i p q (P : nat → Producer → Prop) :
  ps !! i = Some p → P i q → (∀ j r, j ≠ i → ps !! j = Some r → P j r) →
  ∀ j r, <[i := q]> ps !! j = Some r → P j r.
Proof.
  intros Hi Hq Hother j r. rewrite list_lookup_insert_Some. intros [(<- & <- & _)|[Hne Hj]]; [done|]. apply Hother; [congruence|done].
Qed.

Lemma pump_ok i l : line_ok l → line_ok (pump i l).
Proof.
  intros Hok. pose proof Hok as (H1 & H2 & H3 & H4 & H5). unfold pump.
  destruct (ln_producers l !! i) as [[src more []]|] eqn:Ei; [done| |done].
  assert (ln_ended l = false) as He.
  { destruct (ln_ended l) eqn:E; [|done]. by pose proof (ended_done l i _ Hok E Ei). }
  assert (∀ q, pr_source q = src → ∀ j r, <[i := q]> (ln_producers l) !! j = Some r → of_producer j (ln_got l) `prefix_of` pr_source r) as Hpre.
  { intros q Hq. eapply producers_insert; [done| |intros; by apply H2]. rewrite Hq. exact (H2 _ _ Ei). }
  destruct more as [|x rest].
  - unfold line_ok. cbn. rewrite length_insert, He. split_and!; try done; [|by apply Hpre].
    intros Hg. eapply producers_insert; [done| |intros; by apply H1]. destruct (H1 Hg _ _ Ei) as [Hs _]. done.
  - destruct (ln_rx l) eqn:Er.
    3: { unfold line_ok. cbn. rewrite length_insert, He. split_and!; try done. by apply Hpre. }
    all: destruct (full l) eqn:Ef; [done|]; unfold line_ok; cbn; rewrite length_insert, He, ?Er; split_and!; try done;
      try (by apply Hpre).
    all: try (intros _; eapply producers_insert; [done| |]; [destruct (H1 ltac:(done) _ _ Ei) as [Hs _]; cbn in *;
      rewrite app_assoc, of_producer_app, of_producer_one, decide_True, <- app_assoc by done; done|
      intros j r Hne Hj; destruct (H1 ltac:(done) j r Hj) as [Hs Hd];
      rewrite app_assoc, of_producer_app, of_producer_one, decide_False, app_nil_r by congruence; done]).
    all: try (rewrite app_assoc; apply Forall_app; split; [done|]; apply Forall_singleton; cbn; by eapply lookup_lt_Some).
    all: intros c Hc; unfold full in Ef; rewrite Hc in Ef; apply Nat.leb_gt in Ef; rewrite length_app; cbn; lia.
Qed.

Lemma pull_ok l : line_ok l → line_ok (pull l).
Proof.
  intros Hok. pose proof Hok as (H1 & H2 & H3 & H4 & H5). unfold pull. destruct (ln_rx l) eqn:Er; [done| |done].
  destruct (ln_chan l) as [|x c] eqn:Ec.
  - destruct (closed l) eqn:Ecl; [|done]. unfold line_ok, closed in *. cbn. split_and!; try done.
    intros _. split_and!; [done..|]. intros i p Hi. destruct (H1 ltac:(congruence) i p Hi) as [Hs Hd].
    assert (pr_done p = true) as Hp.
    { apply andb_prop in Ecl as [_ Hf]. rewrite forallb_forall in Hf. apply Hf, list_elem_of_In. by eapply list_elem_of_lookup_2. }
    rewrite (Hd Hp), !app_nil_r in Hs. done.
  - assert (ln_ended l = false) as He by (destruct (ln_ended l); [by destruct (H5 eq_refl)|done]).
    unfold line_ok. cbn. rewrite He. split_and!; try done.
    + intros _ i p Hi. rewrite <- app_assoc. by apply H1; [congruence|].
    + intros i p Hi. destruct (H1 ltac:(congruence) i p Hi) as [Hs _].
      replace (ln_got l ++ x :: c) with ((ln_got l ++ [x]) ++ c) in Hs by by rewrite <- app_assoc.
      rewrite (of_producer_app _ (_ ++ _)), <- app_assoc in Hs. rewrite <- Hs. by apply prefix_app_r.
    + by rewrite <- app_assoc.
    + intros n Hn. specialize (H4 n Hn). cbn in H4. lia.
Qed.

Lemma line_op_ok l op : line_ok l → line_ok (line_op l op).
Proof.
  intros Hl. destruct op as [s| | | |i|]; cbn.
  - destruct (ln_owner l) eqn:Ho; [by apply attach_ok|done].
  - by apply take_ok.
  - by apply drop_handle_ok.
  - by apply drop_source_ok.
  - by apply pump_ok.
  - by apply pull_ok.
Qed.

Lemma line_run_ok l ops : line_ok l → line_ok (foldl line_op l ops).
Proof. revert l; induction ops as [|op ops IH]; intros l Hl; [done|]. apply IH. by apply line_op_ok. Qed.

(** *** Every element arrives *)

Definition producer_weight (p : Producer) : nat := 2 * length (pr_left p) + (if pr_done p then 0 else 1).
Definition weight (l : Line) : nat :=
  sum_list (producer_weight <$> ln_producers l) + length (ln_chan l) + (if ln_ended l then 0 else 1).

(** The handle is gone, the source is with a consumer, and the channel has room for one. *)
Definition draining (l : Line) : Prop := ln_rx l = Taken ∧ ln_owner l = false ∧ ln_cap l ≠ Some 0.

Definition task_op (n : nat) (op : LineOp) : Prop := match op with OpPump i => i < n | OpPull => True | _ => False end.

Lemma sum_insert (ps : list Producer) i p q :
  ps !! i = Some p → sum_list (producer_weight <$> <[i := q]> ps) + producer_weight p = sum_list (producer_weight <$> ps) + producer_weight q.
Proof.
  revert i; induction ps as [|r ps IH]; intros [|i] Hi; simplify_eq/=; [lia|]. specialize (IH i Hi). lia.
Qed.

Lemma task_step l op :
  draining l → task_op (length (ln_producers l)) op →
  draining (line_op l op) ∧ length (ln_producers (line_op l op)) = length (ln_producers l) ∧
  (line_op l op = l ∨ weight (line_op l op) < weight l).
Proof.
  intros Hd Hop. pose proof Hd as (Hr & Ho & Hc). destruct op as [s| | | |i|]; try done; cbn [line_op].
  - unfold pump. destruct (ln_producers l !! i) as [[src more []]|] eqn:Ei; [by auto| |by auto].
    destruct more as [|x rest].
    + unfold draining, weight. cbn. rewrite length_insert. pose proof (sum_insert _ i _ (mkProducer src [] true) Ei) as Hs.
      change (producer_weight (mkProducer src [] false)) with 1 in Hs. change (producer_weight (mkProducer src [] true)) with 0 in Hs.
      split_and!; [done..|]. right. lia.
    + rewrite Hr. destruct (full l); [by auto|]. unfold draining, weight. cbn. rewrite length_insert, length_app.
      pose proof (sum_insert _ i _ (mkProducer src rest false) Ei) as Hs.
      change (producer_weight (mkProducer src (x :: rest) false)) with (2 * S (length rest) + 1) in Hs.
      change (producer_weight (mkProducer src rest false)) with (2 * length rest + 1) in Hs. cbn [length].
      split_and!; [done..|]. right. lia.
  - unfold pull. rewrite Hr. destruct (ln_chan l) as [|x c] eqn:Ec.
    + destruct (closed l); [|by auto]. destruct l as [cap ps o ch rx got [|]]; cbn in *; subst; unfold draining, weight; cbn.
      * by auto.
      * split_and!; [done..|]. right. lia.
    + unfold draining, weight. cbn. rewrite Ec. cbn. split_and!; [done..|]. right. lia.
Qed.

(** Until the end is seen, some task or the consumer can go on. *)
Lemma not_stuck l :
  draining l → ln_ended l = false → ∃ op, task_op (length (ln_producers l)) op ∧ line_op l op ≠ l.
Proof.
  intros (Hr & Ho & Hc) He. destruct (ln_chan l) as [|x c] eqn:Ec.
  - destruct (closed l) eqn:Ecl.
    + exists OpPull. split; [done|]. cbn. unfold pull. rewrite Hr, Ec, Ecl. intros Heq. apply (f_equal ln_ended) in Heq. cbn in Heq. congruence.
    + unfold closed in Ecl. rewrite Ho in Ecl. cbn in Ecl.
      assert (∃ i src more, ln_producers l !! i = Some (mkProducer src more false)) as (i & src & more & Hi).
      { clear -Ecl. induction (ln_producers l) as [|[src more d] ps IH]; [done|]. cbn in Ecl. destruct d; cbn in Ecl.
        - destruct (IH Ecl) as (i & ? & ? & ?). by exists (S i), x, x0.
        - by exists 0, src, more. }
      exists (OpPump i). split; [cbn; by eapply lookup_lt_Some|]. cbn. unfold pump. rewrite Hi, Hr. destruct more as [|y rest].
      * intros Heq. apply (f_equal (λ l, ln_producers l !! i)) in Heq. cbn in Heq.
        rewrite list_lookup_insert_eq, Hi in Heq by (by eapply lookup_lt_Some). congruence.
      * assert (full l = false) as ->.
        { unfold full. rewrite Ec. destruct (ln_cap l) as [[|n]|]; done. }
        intros Heq. apply (f_equal (length ∘ ln_chan)) in Heq. cbn in Heq. rewrite length_app in Heq. cbn in Heq. lia.
  - exists OpPull. split; [done|]. cbn. unfold pull. rewrite Hr, Ec. intros Heq. apply (f_equal ln_chan) in Heq. cbn in Heq.
    rewrite Ec in Heq. apply (f_equal length) in Heq. cbn in Heq. lia.
Qed.

(** A round in which each task and the consumer have a turn. *)
Definition round (n : nat) : list LineOp := (OpPump <$> seq 0 n) ++ [OpPull].

Lemma tasks_run l ops :
  draining l → Forall (task_op (length (ln_producers l))) ops →
  let l' := foldl line_op l ops in
  draining l' ∧ length (ln_producers l') = length (ln_producers l) ∧ weight l' ≤ weight l ∧
  (weight l' = weight l → ∀ op, op ∈ ops → line_op l op = l).
Proof.
  revert l; induction ops as [|op ops IH]; intros l Hd Hops; cbn [foldl].
  - split_and!; [done|done|lia|]. intros _ op Hop. by apply not_elem_of_nil in Hop.
  - apply Forall_cons in Hops as [Hop Hops]. destruct (task_step l op Hd Hop) as (Hd1 & Hn1 & Hw1).
    destruct (IH (line_op l op)) as (Hd2 & Hn2 & Hw2 & Heq2); [done|by rewrite Hn1|]. split_and!; [done|by rewrite Hn2| |].
    + assert (weight (line_op l op) ≤ weight l) by (destruct Hw1 as [->|?]; lia). lia.
    + intros Heq. destruct Hw1 as [Hw1|Hw1]; [|lia]. rewrite Hw1 in Heq2, Heq. intros op' [->|Hin]%elem_of_cons; auto.
Qed.

Lemma round_tasks n : Forall (task_op n) (round n).
Proof.
  apply Forall_app. split; [|by repeat constructor]. apply Forall_fmap, Forall_forall. intros i Hi%elem_of_seq. cbn. lia.
Qed.

Lemma pull_ended l : ln_ended l = true → ln_ended (pull l) = true.
Proof. intros He. unfold pull. destruct (ln_rx l), (ln_chan l); cbn; try done. by destruct (closed l). Qed.

Lemma pump_ended i l : ln_ended (pump i l) = ln_ended l.
Proof.
  unfold pump. destruct (ln_producers l !! i) as [[src [|x rest] []]|]; try done. destruct (ln_rx l); try done; by destruct (full l).
Qed.

Lemma tasks_ended n l ops : Forall (task_op n) ops → ln_ended l = true → ln_ended (foldl line_op l ops) = true.
Proof.
  intros Hops. revert l; induction Hops as [|op ops Hop Hops IH]; intros l He; [done|]. apply IH. destruct op; try done; cbn.
  - by rewrite pump_ended.
  - by apply pull_ended.
Qed.

Lemma hub_rounds_end k l :
  draining l → weight l ≤ k →
  let l' := foldl line_op l (concat (replicate k (round (length (ln_producers l))))) in
  ln_ended l' = true ∧ length (ln_producers l') = length (ln_producers l).
Proof.
  revert l; induction k as [|k IH]; intros l Hd Hw; cbn [replicate concat foldl].
  - unfold weight in Hw. destruct (ln_ended l) eqn:E; [done|]. lia.
  - rewrite foldl_app. set (n := length (ln_producers l)).
    destruct (tasks_run l (round n) Hd (round_tasks n)) as (Hd1 & Hn1 & Hw1 & Heq1).
    set (l1 := foldl line_op l (round n)) in *. replace n with (length (ln_producers l1)) by done.
    destruct (ln_ended l) eqn:E.
    + assert (ln_ended l1 = true) as E1 by (apply (tasks_ended n); [apply round_tasks|done]).
      split.
      * apply (tasks_ended (length (ln_producers l1))); [|done]. apply Forall_concat, Forall_replicate, round_tasks.
      * destruct (tasks_run l1 (concat (replicate k (round (length (ln_producers l1)))))) as (_ & -> & _); [done| |done].
        apply Forall_concat, Forall_replicate, round_tasks.
    + destruct (not_stuck l Hd E) as (op & Hop & Hne). assert (weight l1 < weight l).
      { destruct (decide (weight l1 = weight l)) as [Heq|]; [|lia]. exfalso. apply Hne, (Heq1 Heq). unfold round, n.
        destruct op as [s| | | |i|]; try done; apply elem_of_app; [left|right; by left].
        apply list_elem_of_fmap. exists i. split; [done|]. apply elem_of_seq. cbn in Hop. lia. }
      destruct (IH l1 Hd1) as [He Hn]; [lia|]. split; [done|]. by rewrite Hn.
Qed.
End line.
Arguments Line : clear implicits.
Arguments Producer : clear implicits.
Arguments LineOp : clear implicits.
End Lines.

Module LineFacts.
Import Lines.

Lemma line_op_cap {T} (l : Line T) op : ln_cap (line_op l op) = ln_cap l.
Proof.
  destruct op as [s| | | |i|]; cbn.
  - by destruct (ln_owner l).
  - unfold take_source. by destruct (ln_rx l).
  - done.
  - unfold drop_source. by destruct (ln_rx l).
  - unfold pump. destruct (ln_producers l !! i) as [[src [|x rest] []]|]; try done. destruct (ln_rx l); try done; by destruct (full l).
  - unfold pull. destruct (ln_rx l), (ln_chan l); try done. by destruct (closed l).
Qed.

Lemma run_cap {T} (l : Line T) ops : ln_cap (foldl line_op l ops) = ln_cap l.
Proof. revert l; induction ops as [|op ops IH]; intros l; [done|]. cbn. by rewrite IH, line_op_cap. Qed.

(** The handles of the module, when they are made. *)
Inductive new_line {T} : Line T → Prop :=
  | new_merge_hub : new_line MergeHub_new
  | new_sink_ref buffer : new_line (SinkRef_new buffer)
  | new_source_ref source buffer : new_line (SourceRef_advertise source buffer).

Lemma new_line_ok {T} (l : Line T) : new_line l → line_ok l ∧ ln_cap l ≠ Some 0.
Proof.
  intros [| |]; (split; [apply line_new_ok; try done; by repeat constructor|]); cbn; try done; intros [= H]; lia.
Qed.
End LineFacts.

(** Merge hubs and the two kinds of stream references: after any steps of the tasks, the
    consumer and the owner, what the consumer has of a producer is a prefix of its source, and
    the channel keeps its bound; once the source is taken and the handle is gone, the line runs
    dry: with a turn of each task and of the consumer per round, the end is seen after finitely
    many rounds, and the consumer has every element of every producer, in the producer's order. *)
Theorem stream_lines_deliver {T} (l0 : Lines.Line T) (ops : list (Lines.LineOp T)) :
  LineFacts.new_line l0 →
  let l := foldl Lines.line_op l0 ops in
  Lines.line_ok l ∧
  (Lines.ln_rx l = Lines.Taken → Lines.ln_owner l = false →
   let l' := foldl Lines.line_op l (concat (replicate (Lines.weight l) (Lines.round (length (Lines.ln_producers l))))) in
   Lines.ln_ended l' = true ∧
   ∀ i p, Lines.ln_producers l' !! i = Some p → Lines.of_producer i (Lines.ln_got l') = Lines.pr_source p).
Proof.
  intros [Hok Hcap]%LineFacts.new_line_ok. cbn zeta. pose proof (Lines.line_run_ok l0 ops Hok) as Hl. split; [done|].
  intros Hr Ho. set (l := foldl Lines.line_op l0 ops) in *.
  assert (Lines.draining l) as Hd by (split_and!; [done..|]; unfold l; by rewrite LineFacts.run_cap).
  destruct (Lines.hub_rounds_end (Lines.weight l) l Hd (le_n _)) as [He _]. split; [exact He|].
  pose proof (Lines.line_run_ok l (concat (replicate (Lines.weight l) (Lines.round (length (Lines.ln_producers l))))) Hl) as (_ & _ & _ & _ & H5).
  destruct (H5 He) as (_ & _ & Hall). exact Hall.
Qed.

Lemma stream_lines_deliver_witness :
  let l := foldl Lines.line_op Lines.MergeHub_new [Lines.OpAttach [1; 2; 3]; Lines.OpAttach [10; 20]; Lines.OpTake; Lines.OpDropHandle] in
  let l' := foldl Lines.line_op l (concat (replicate (Lines.weight l) (Lines.round (length (Lines.ln_producers l))))) in
  Lines.ln_ended l' = true ∧ Lines.of_producer 0 (Lines.ln_got l') = [1; 2; 3].
Proof.
  pose proof (proj2 (stream_lines_deliver Lines.MergeHub_new
    [Lines.OpAttach [1; 2; 3]; Lines.OpAttach [10; 20]; Lines.OpTake; Lines.OpDropHandle] LineFacts.new_merge_hub) eq_refl eq_refl) as [He Hall].
  split; [exact He|]. exact (Hall 0 (Lines.mkProducer [1; 2; 3] [] true) eq_refl).
Defined.

(** The receiver is given once, and a second source is empty. *)
Lemma second_source_empty {T} (l : Lines.Line T) : (Lines.take_source (Lines.take_source l).2).1 = false.
Proof. unfold Lines.take_source. by destruct (Lines.ln_rx l) eqn:E; cbn; rewrite ?E. Qed.

(** While the handle lives, the end is never seen. *)
Lemma handle_keeps_open {T} (l : Lines.Line T) op :
  Lines.ln_owner l = true → Lines.ln_ended l = false → Lines.ln_ended (Lines.line_op l op) = false.
Proof.
  intros Ho He. destruct op as [s| | | |i|]; cbn.
  - by rewrite Ho.
  - unfold Lines.take_source. by destruct (Lines.ln_rx l).
  - done.
  - unfold Lines.drop_source. by destruct (Lines.ln_rx l).
  - by rewrite Lines.pump_ended.
  - unfold Lines.pull, Lines.closed. rewrite Ho. by destruct (Lines.ln_rx l), (Lines.ln_chan l).
Qed.

(** ** Source queues *)

Module SourceQueues.
Section queue.
Context {T : Type}.

Inductive QueueOfferResult := Enqueued | Dropped | Failure | QueueClosed.

(** What was offered and not read, the two ends of the channel, and what was read. *)
Record SourceQueue := mkQueue { sq_items : list T; sq_tx : bool; sq_rx : bool; sq_read : list T }.
Definition SourceQueue_new : SourceQueue := mkQueue [] true true [].

Definition offer (v : T) (q : SourceQueue) : QueueOfferResult * SourceQueue :=
  if sq_rx q then (Enqueued, mkQueue (sq_items q ++ [v]) (sq_tx q) true (sq_read q)) else (QueueClosed, q).
Definition complete (q : SourceQueue) : SourceQueue := mkQueue (sq_items q) false (sq_rx q) (sq_read q).
Definition is_closed (q : SourceQueue) : bool := negb (sq_rx q).
(** The source asks; [Some None] is the end, [None] that it waits. *)
Definition source_next (q : SourceQueue) : option (option T) * SourceQueue :=
  match sq_items q with
  | x :: l => (Some (Some x), mkQueue l (sq_tx q) (sq_rx q) (sq_read q ++ [x]))
  | [] => if sq_tx q then (None, q) else (Some None, q)
  end.

(** Offers that are accepted are read in order, then the end. *)
Lemma offers_read vs q :
  sq_rx q = true →
  let q' := foldl (λ q v, (offer v q).2) q vs in
  sq_read q' ++ sq_items q' = (sq_read q ++ sq_items q) ++ vs ∧ Forall (λ v, (offer v q').1 = Enqueued) vs.
Proof.
  intros Hr. cbn zeta. assert (∀ vs q, sq_rx q = true → sq_rx (foldl (λ q v, (offer v q).2) q vs) = true ∧
    sq_read (foldl (λ q v, (offer v q).2) q vs) ++ sq_items (foldl (λ q v, (offer v q).2) q vs) = (sq_read q ++ sq_items q) ++ vs) as Hgen.
  { clear. induction vs as [|v vs IH]; intros q Hr; [by rewrite app_nil_r|]. cbn [foldl].
    replace (offer v q).2 with (mkQueue (sq_items q ++ [v]) (sq_tx q) true (sq_read q)) by (unfold offer; by rewrite Hr).
    destruct (IH (mkQueue (sq_items q ++ [v]) (sq_tx q) true (sq_read q)) eq_refl) as [-> ->]. cbn. split; [done|]. by rewrite <- !app_assoc. }
  destruct (Hgen vs q Hr) as [Hr' Heq]. split; [done|]. apply Forall_forall. intros v _. revert Hr'.
  generalize (foldl (λ q v, (offer v q).2) q vs). intros q' Hq'. unfold offer. by rewrite Hq'.
Qed.
End queue.
End SourceQueues.

(** ** Broadcast hubs *)

Module Broadcasts.
Section hub.
Context {T : Type}.
(** The channel's buffer for a size that is asked for. *)
Context (room : nat → nat).

Record Consumer := mkConsumer { co_from : nat; co_at : nat; co_got : list T; co_skipped : nat; co_ended : bool }.

Record BroadcastHub := mkHub {
  hb_room : nat; hb_sent : list T; hb_producers : list (list T * bool); hb_owner : bool; hb_consumers : list Consumer;
}.

(** [None]: the assertion fails. *)
Definition BroadcastHub_new (buffer_size : nat) : option BroadcastHub :=
  if 1 <=? buffer_size then Some (mkHub (room buffer_size) [] [] true []) else None.

Definition hub_attach (source : list T) (h : BroadcastHub) : BroadcastHub :=
  mkHub (hb_room h) (hb_sent h) (hb_producers h ++ [(source, false)]) (hb_owner h) (hb_consumers h).

Definition consumer (h : BroadcastHub) : BroadcastHub :=
  mkHub (hb_room h) (hb_sent h) (hb_producers h) (hb_owner h)
    (hb_consumers h ++ [mkConsumer (length (hb_sent h)) (length (hb_sent h)) [] 0 false]).

Definition drop_hub (h : BroadcastHub) : BroadcastHub := mkHub (hb_room h) (hb_sent h) (hb_producers h) false (hb_consumers h).

(** A send succeeds or finds no receiver; either is ignored. *)
Definition hub_pump (i : nat) (h : BroadcastHub) : BroadcastHub :=
  match hb_producers h !! i with
  | Some (x :: rest, false) =>
      mkHub (hb_room h) (hb_sent h ++ [x]) (<[i := (rest, false)]> (hb_producers h)) (hb_owner h) (hb_consumers h)
  | Some ([], false) => mkHub (hb_room h) (hb_sent h) (<[i := ([], true)]> (hb_producers h)) (hb_owner h) (hb_consumers h)
  | _ => h
  end.

Definition hub_closed (h : BroadcastHub) : bool := negb (hb_owner h) && forallb snd (hb_producers h).

(** The loop of [consumer]: after [Lagged] the position is the oldest element kept, which is
    there to be read. *)
Definition consume (h : BroadcastHub) (c : Consumer) : Consumer :=
  let n := length (hb_sent h) in
  let lag := n - hb_room h - co_at c in
  let p := co_at c + lag in
  match hb_sent h !! p with
  | Some x => mkConsumer (co_from c) (S p) (co_got c ++ [x]) (co_skipped c + lag) (co_ended c)
  | None => if hub_closed h then mkConsumer (co_from c) (co_at c) (co_got c) (co_skipped c) true else c
  end.

Definition hub_pull (k : nat) (h : BroadcastHub) : BroadcastHub :=
  mkHub (hb_room h) (hb_sent h) (hb_producers h) (hb_owner h) (alter (consume h) k (hb_consumers h)).

Definition consumer_count (h : BroadcastHub) : nat := length (hb_consumers h).

Inductive HubOp := HAttach (source : list T) | HConsumer | HDrop | HPump (i : nat) | HPull (k : nat).
Definition hub_op (h : BroadcastHub) (op : HubOp) : BroadcastHub :=
  match op with
  | HAttach s => if hb_owner h then hub_attach s h else h
  | HConsumer => if hb_owner h then consumer h else h
  | HDrop => drop_hub h
  | HPump i => hub_pump i h
  | HPull k => hub_pull k h
  end.

(** *** What a consumer gets *)

(** What was sent since the consumer came is what it got, with gaps of [co_skipped] elements in
    all; without a gap it is that exactly. *)
Definition consumer_ok (sent : list T) (c : Consumer) : Prop :=
  (co_from c ≤ co_at c ≤ length sent)%nat ∧
  co_got c `sublist_of` take (co_at c - co_from c) (drop (co_from c) sent) ∧
  length (co_got c) + co_skipped c = co_at c - co_from c.

Lemma sublist_full (l k : list T) : l `sublist_of` k → length k ≤ length l → l = k.
Proof.
  induction 1 as [|x l k Hlk IH|x l k Hlk IH]; cbn; intros Hlen; [done| |].
  - f_equal. apply IH. lia.
  - apply sublist_length in Hlk. lia.
Qed.

Lemma consumer_no_gap sent c :
  consumer_ok sent c → co_skipped c = 0 → co_got c = take (co_at c - co_from c) (drop (co_from c) sent).
Proof.
  intros (Hle & Hsub & Hlen) Hs. apply sublist_full; [done|]. rewrite length_take, length_drop. lia.
Qed.

Lemma consumer_sent_more sent more c : consumer_ok sent c → consumer_ok (sent ++ more) c.
Proof.
  intros (Hle & Hsub & Hlen). split_and!; [lia|rewrite length_app; lia| |done].
  rewrite drop_app_le, take_app_le by (rewrite ?length_drop; lia). done.
Qed.

Lemma consume_ok h c : consumer_ok (hb_sent h) c → 0 < hb_room h → consumer_ok (hb_sent h) (consume h c).
Proof.
  intros (Hle & Hsub & Hlen) Hroom. unfold consume. set (lag := length (hb_sent h) - hb_room h - co_at c).
  destruct (hb_sent h !! (co_at c + lag)) as [x|] eqn:E; [|by destruct (hub_closed h)].
  pose proof (lookup_lt_Some _ _ _ E). split_and!; cbn; [lia|lia| |rewrite length_app; cbn; lia].
  replace (S (co_at c + lag) - co_from c) with ((co_at c - co_from c) + S lag) by lia.
  rewrite <- take_take_drop. apply sublist_app; [done|].
  apply sublist_cons_l. exists (take lag (drop (co_at c - co_from c) (drop (co_from c) (hb_sent h)))), [].
  split; [|done]. rewrite (take_S_r _ _ x); [done|]. rewrite !lookup_drop. rewrite <- E. f_equal. lia.
Qed.

Definition hub_ok (h : BroadcastHub) : Prop := 0 < hb_room h ∧ Forall (consumer_ok (hb_sent h)) (hb_consumers h).

Lemma hub_op_ok h op : hub_ok h → hub_ok (hub_op h op).
Proof.
  intros [Hroom Hc]. destruct op as [s| | |i|k]; cbn.
  - by destruct (hb_owner h).
  - destruct (hb_owner h); [|done]. split; [done|]. cbn. apply Forall_app. split; [done|]. apply Forall_singleton.
    unfold consumer_ok. cbn. rewrite Nat.sub_diag. split_and!; [lia|lia|apply sublist_nil_l|done].
  - done.
  - unfold hub_pump. destruct (hb_producers h !! i) as [[[|x rest] []]|]; try done. split; [done|]. cbn.
    eapply Forall_impl; [exact Hc|]. intros c. apply consumer_sent_more.
  - split; [done|]. cbn. apply Forall_alter; [done|]. intros c Hk Hok. by apply consume_ok.
Qed.

(** After any steps, a consumer has, in order and once each, elements that were broadcast since
    it came; the ones it has not are counted, and there are none while it never falls behind by
    more than the buffer. *)
Lemma hub_run_ok buffer_size h ops :
  (∀ n, n ≤ room n) → BroadcastHub_new buffer_size = Some h → hub_ok (foldl hub_op h ops).
Proof.
  intros Hroom Hnew. assert (hub_ok h) as Hh.
  { unfold BroadcastHub_new in Hnew. destruct (Nat.leb_spec 1 buffer_size); [|done]. injection Hnew as <-.
    split; [cbn; specialize (Hroom buffer_size); lia|constructor]. }
  clear Hnew. revert h Hh; induction ops as [|op ops IH]; intros h Hh; [done|]. apply IH. by apply hub_op_ok.
Qed.

(** A consumer within the buffer skips nothing and takes the next element. *)
Lemma consume_within h c x :
  length (hb_sent h) ≤ co_at c + hb_room h → hb_sent h !! co_at c = Some x →
  consume h c = mkConsumer (co_from c) (S (co_at c)) (co_got c ++ [x]) (co_skipped c) (co_ended c).
Proof.
  intros Hle Hx. unfold consume. replace (length (hb_sent h) - hb_room h - co_at c) with 0 by lia.
  by rewrite Nat.add_0_r, Hx, Nat.add_0_r.
Qed.
End hub.

(** Three elements through a buffer of two: the first is skipped in silence. *)
Example slow_consumer_skips :
  (λ h, co_got <$> hb_consumers h) <$>
    ((λ h, foldl hub_op h [HConsumer; HAttach [1; 2; 3]; HPump 0; HPump 0; HPump 0; HPull 0; HPull 0]) <$> BroadcastHub_new id 2)
  = Some [[2; 3]].
Proof. reflexivity. Qed.
End Broadcasts.
