(* ===== verification/FloatRules.v ===== *)
(** * Rules that compute with floating-point numbers

    Rust's [f64] is IEEE 754 binary64; the standard's operations are the Standard Library's
    [SpecFloat] at 53 bits, which compute by evaluation.

    - [F64]: the operations of [f64] that the code uses.
    - [Resizing] ([atomr-core/routing/resizer.rs]).
    - [Backoffs] ([atomr-core/pattern/backoff.rs]).
    - [Metrics] ([atomr-cluster-metrics/lib.rs]): metrics of nodes, smoothing and routing.
    - [PhiDetector] ([atomr-remote/phi_accrual.rs], [atomr-cluster/heartbeat.rs]); [exp] and
      [log10], which the standard leaves to the platform, are arguments. *)

From stdpp Require Import gmap strings list sorting.
From Stdlib Require Import NArith ZArith Lia Floats.SpecFloat.
From S2P Require Import Prelude Address RemoteSystem.

(** ** Numbers of type [f64] *)

Module F64.
Abbreviation f64 := spec_float.
Definition prec : Z := 53.
Definition emax : Z := 1024.

Definition of_Z (z : Z) : f64 := binary_normalize prec emax z 0 false.
(** A decimal literal [n / 10^k], rounded once. *)
Definition lit (n : Z) (k : N) : f64 := SFdiv prec emax (of_Z n) (of_Z (10 ^ Z.of_N k)).
Definition zero : f64 := S754_zero false.
Definition one : f64 := of_Z 1.
Definition infinity : f64 := S754_infinity false.

Definition add : f64 → f64 → f64 := SFadd prec emax.
Definition sub : f64 → f64 → f64 := SFsub prec emax.
Definition mul : f64 → f64 → f64 := SFmul prec emax.
Definition div : f64 → f64 → f64 := SFdiv prec emax.
Definition sqrt : f64 → f64 := SFsqrt prec emax.
Definition opp : f64 → f64 := SFopp.
Definition ltb (a b : f64) : bool := SFltb a b.
Definition leb (a b : f64) : bool := SFleb a b.
Definition is_nan (a : f64) : bool := match a with S754_nan => true | _ => false end.

(** [f64::min] and [max] return the other argument for a NaN. *)
Definition fmin (a b : f64) : f64 := if is_nan a then b else if is_nan b then a else if leb a b then a else b.
Definition fmax (a b : f64) : f64 := if is_nan a then b else if is_nan b then a else if leb b a then a else b.
(** [f64::clamp] for bounds in order: a NaN stays. *)
Definition clamp (x lo hi : f64) : f64 := let x := if ltb x lo then lo else x in if ltb hi x then hi else x.

(** The integer below a finite number, and the one above. *)
Definition floorZ (s : bool) (m : positive) (e : Z) : Z :=
  let v := if s then Z.neg m else Z.pos m in
  if (0 <=? e)%Z then (v * 2 ^ e)%Z else (v / 2 ^ (- e))%Z.
Definition ceilZ (s : bool) (m : positive) (e : Z) : Z := (- floorZ (negb s) m e)%Z.

(** [x.ceil() as usize] and [x.floor() as usize]: NaN is zero, and what is out of range is the
    nearest bound. *)
Definition to_usize (int : bool → positive → Z → Z) (x : f64) : N :=
  match x with
  | S754_nan | S754_zero _ | S754_infinity true => 0
  | S754_infinity false => u64_max
  | S754_finite s m e => N.min (Z.to_N (int s m e)) u64_max
  end.
Definition ceil_usize : f64 → N := to_usize ceilZ.
Definition floor_usize : f64 → N := to_usize floorZ.

Definition sum (l : list f64) : f64 := foldl add zero l.
Definition square (x : f64) : f64 := mul x x.

Example lit_tenth : lit 1 1 = S754_finite false 7205759403792794 (-56).
Proof. vm_compute. reflexivity. Qed.
Example ceil_floor :
  (ceil_usize (lit 24 1), floor_usize (lit 24 1), floor_usize (lit (-24) 1), ceil_usize infinity) = (3, 2, 0, u64_max)%N.
Proof. vm_compute. reflexivity. Qed.

(** A number compares with itself, a NaN does not. *)
Lemma compare_refl x : is_nan x = false → SFcompare x x = Some Eq.
Proof. destruct x as [[]|[]| |[] m e]; cbn; try done; intros _; by rewrite Z.compare_refl, Pos.compare_cont_refl. Qed.

Lemma ltb_irrefl x : ltb x x = false.
Proof. unfold ltb, SFltb. destruct (is_nan x) eqn:E; [by destruct x|]. by rewrite compare_refl. Qed.

(** What a clamp returns is not outside the bounds. *)
Lemma clamp_in x lo hi : ltb hi lo = false → ltb (clamp x lo hi) lo = false ∧ ltb hi (clamp x lo hi) = false.
Proof.
  intros Hb. unfold clamp. destruct (ltb x lo) eqn:E1.
  - rewrite Hb. split; [apply ltb_irrefl|done].
  - destruct (ltb hi x) eqn:E2; [|done]. split; [done|apply ltb_irrefl].
Qed.
End F64.

(** ** Resizing a pool *)

Module Resizing.
Import F64.

Record ResizerConfig := mkResizer {
  lower_bound : N; upper_bound : N; pressure_threshold : f64; backoff_threshold : f64;
  rampup_rate : f64; backoff_rate : f64; messages_per_resize : N; backoff_delay : N;
}.
Definition ResizerConfig_default : ResizerConfig :=
  mkResizer 1 10 one (lit 3 1) (lit 2 1) (lit 1 1) 10 10000.

(** [as i32] of a [usize]. *)
Definition usize_as_i32 (n : N) : Z := ((Z.of_N n + 2 ^ 31) mod 2 ^ 32 - 2 ^ 31)%Z.

(** [Ord::clamp]; [None]: it panics when the bounds are not in order. *)
Definition clamp_usize (n lo hi : N) : option N := if (hi <? lo)%N then None else Some (N.max lo (N.min n hi)).

Definition target_size (c : ResizerConfig) (current busy : N) : N :=
  let load := div (of_Z (Z.of_N busy)) (of_Z (Z.of_N current)) in
  if leb (pressure_threshold c) load
  then ceil_usize (mul (of_Z (Z.of_N current)) (add one (rampup_rate c)))
  else if leb load (backoff_threshold c)
  then floor_usize (mul (of_Z (Z.of_N current)) (sub one (backoff_rate c)))
  else current.

Definition compute_delta (c : ResizerConfig) (current busy : N) : option Z :=
  if (current =? 0)%N then Some (usize_as_i32 (lower_bound c))
  else clamped ← clamp_usize (target_size c current busy) (lower_bound c) (upper_bound c);
       Some (usize_as_i32 clamped - usize_as_i32 current)%Z.

Lemma usize_as_i32_small n : (n < 2 ^ 31)%N → usize_as_i32 n = Z.of_N n.
Proof. intros Hn. unfold usize_as_i32. rewrite Z.mod_small by lia. lia. Qed.

(** Whatever the thresholds and rates, NaN and infinities included, a pool that follows the
    advice has a size between the bounds. *)
Lemma resize_in_bounds c current busy :
  (lower_bound c ≤ upper_bound c)%N → (upper_bound c < 2 ^ 31)%N → (current < 2 ^ 31)%N →
  ∃ delta, compute_delta c current busy = Some delta ∧
    (Z.of_N (lower_bound c) ≤ Z.of_N current + delta ≤ Z.of_N (upper_bound c))%Z.
Proof.
  intros Hb Hu Hc. unfold compute_delta. destruct (N.eqb_spec current 0) as [->|Hne].
  - eexists. split; [done|]. rewrite usize_as_i32_small by lia. lia.
  - unfold clamp_usize. destruct (N.ltb_spec (upper_bound c) (lower_bound c)); [lia|]. cbn [mbind option_bind]. eexists. split; [done|].
    rewrite !usize_as_i32_small by lia. lia.
Qed.

(** The advice grows a busy pool and shrinks an idle one. *)
Example resizer_tests :
  compute_delta ResizerConfig_default 2 2 = Some 1%Z ∧
  compute_delta (mkResizer 1 10 one (lit 3 1) (lit 2 1) (lit 5 1) 10 10000) 8 0 = Some (-4)%Z ∧
  compute_delta (mkResizer 1 4 (lit 5 1) (lit 3 1) (of_Z 5) (lit 1 1) 10 10000) 3 3 = Some 1%Z ∧
  compute_delta (mkResizer 2 10 one (lit 5 1) (lit 2 1) (lit 9 1) 10 10000) 3 0 = Some (-1)%Z ∧
  compute_delta (mkResizer 1 10 (lit 9 1) (lit 1 1) (lit 2 1) (lit 1 1) 10 10000) 5 3 = Some 0%Z.
Proof. vm_compute. done. Qed.

(** By default a pool of ten with nobody busy loses one routee, then one again, down to the bound. *)
Fixpoint resize_run (c : ResizerConfig) (busy : N → N) (n : nat) (size : N) : list N :=
  match n with
  | O => [size]
  | S n => size :: match compute_delta c size (busy size) with
                   | Some d => resize_run c busy n (Z.to_N (Z.of_N size + d))
                   | None => [] end
  end.
Example default_backs_off :
  resize_run ResizerConfig_default (λ _, 0%N) 10 10 = [10; 9; 8; 7; 6; 5; 4; 3; 2; 1; 1]%N ∧
  resize_run ResizerConfig_default (λ n, n) 7 1 = [1; 2; 3; 4; 5; 6; 8; 10]%N.
Proof. vm_compute. done. Qed.
End Resizing.

(** ** Back-off *)

Module Backoffs.
Import F64.

(** A duration is a number of nanoseconds. *)
Record BackoffOptions := mkBackoff { min_backoff : N; max_backoff : N; random_factor : f64; max_restarts : option N }.
Definition BackoffOptions_default : BackoffOptions := mkBackoff 200000000 30000000000 (lit 2 1) (Some 10%N).

(** [Duration::as_secs_f64]. *)
Definition as_secs_f64 (nanos : N) : f64 :=
  add (of_Z (Z.of_N (nanos / 1000000000))) (div (of_Z (Z.of_N (nanos mod 1000000000))) (of_Z 1000000000)).

(** [Duration::from_secs_f64]: the nearest nanosecond, ties to even; [None]: it panics. *)
Definition from_secs_f64 (x : f64) : option N :=
  match x with
  | S754_zero _ => Some 0%N
  | S754_finite false m e =>
      let '(num, den) := if (0 <=? e)%Z then (Z.pos m * 2 ^ e * 1000000000, 1)%Z else (Z.pos m * 1000000000, 2 ^ (- e))%Z in
      let q := (num / den)%Z in
      let r := (num mod den)%Z in
      let n := if (den <? 2 * r)%Z || ((2 * r =? den)%Z && Z.odd q) then (q + 1)%Z else q in
      if (n <? 2 ^ 64 * 1000000000)%Z then Some (Z.to_N n) else None
  | _ => None
  end.

(** [2f64.powi(n)]: the powers of two are exact. *)
Definition powi2 (n : Z) : f64 := SFldexp prec emax one n.

(** [attempt as i32]. *)
Definition u32_as_i32 (n : N) : Z := ((Z.of_N n + 2 ^ 31) mod 2 ^ 32 - 2 ^ 31)%Z.

Definition pseudo_random_01 (seed : N) : f64 :=
  div (of_Z (Z.of_N (wrap32 (seed * 2654435761) mod 10000))) (of_Z 10000).

Definition next_delay (o : BackoffOptions) (attempt : N) : option N :=
  let base := mul (as_secs_f64 (min_backoff o)) (powi2 (u32_as_i32 attempt)) in
  let capped := fmin base (as_secs_f64 (max_backoff o)) in
  let jitter := add one (mul (pseudo_random_01 attempt) (random_factor o)) in
  from_secs_f64 (mul capped jitter).

(** The delays by default, in milliseconds: they grow, up to the cap with its jitter. *)
Example default_delays :
  (λ i, (λ d, (d / 1000000)%N) <$> next_delay BackoffOptions_default (N.of_nat i)) <$> seq 0 9 =
  Some <$> [200; 446; 867; 1919; 3740; 7285; 13485; 26185; 34142]%N.
Proof. vm_compute. reflexivity. Qed.

(** Up to the hundredth attempt a delay is between the minimum and the maximum with the jitter. *)
Definition delay_between (lo hi : N) (o : BackoffOptions) (attempt : N) : bool :=
  match next_delay o attempt with Some d => (lo <=? d)%N && (d <=? hi)%N | None => false end.
Example default_delays_bounded :
  forallb (λ i, delay_between 200000000 36000000000 BackoffOptions_default (N.of_nat i)) (seq 0 100) = true.
Proof. vm_compute. reflexivity. Qed.

(** The base overflows to infinity, and the cap holds. *)
Example delay_of_overflow : delay_between 30000000000 36000000000 BackoffOptions_default 1100 = true.
Proof. vm_compute. reflexivity. Qed.
End Backoffs.

(** ** Metrics of the nodes *)

Module Metrics.
Import F64.

Record NodeMetrics := mkMetrics { nm_address : string; nm_timestamp : N; cpu_load : f64; memory_used : N; memory_max : N }.

Definition memory_usage (m : NodeMetrics) : f64 :=
  if (memory_max m =? 0)%N then zero else div (of_Z (Z.of_N (memory_used m))) (of_Z (Z.of_N (memory_max m))).

Abbreviation ClusterMetrics := (gmap string NodeMetrics).
Definition publish_metrics (m : NodeMetrics) (c : ClusterMetrics) : ClusterMetrics := <[nm_address m := m]> c.
Definition metrics_snapshot (c : ClusterMetrics) : list NodeMetrics := (map_to_list c).*2.
Definition get_metrics (a : string) (c : ClusterMetrics) : option NodeMetrics := c !! a.
Definition node_count (c : ClusterMetrics) : nat := size c.

Record StaticProbe := mkProbe { sp_cpu : f64; sp_used : N; sp_max : N }.
Definition sample (p : StaticProbe) (address : string) (ts : N) : NodeMetrics := mkMetrics address ts (sp_cpu p) (sp_used p) (sp_max p).

(** *** Exchange between nodes *)

Inductive MetricsPdu := Push (m : NodeMetrics) | PushBatch (v : list NodeMetrics).

Definition apply_metrics_pdu (c : ClusterMetrics) (pdu : MetricsPdu) : ClusterMetrics :=
  match pdu with
  | Push m => publish_metrics m c
  | PushBatch v => foldl (λ c m, publish_metrics m c) c v
  end.

(** The message handed to the transport, with its target. *)
Definition gossip_local_metrics (p : StaticProbe) (self_address target_node : string) (now : N) : string * MetricsPdu :=
  let m := sample p self_address now in (target_node, Push m).

(** The map that both routers build from a snapshot. *)
Definition by_address (c : ClusterMetrics) : gmap string NodeMetrics :=
  foldl (λ m n, <[nm_address n := n]> m) ∅ (metrics_snapshot c).

(** *** The least loaded node *)

Definition load_of (c : ClusterMetrics) (a : string) : f64 := default infinity (cpu_load <$> by_address c !! a).

(** [partial_cmp(..).unwrap_or(Equal).then_with(|| a.cmp(b))], as "not greater". *)
Definition node_le (c : ClusterMetrics) (a b : string) : bool :=
  match SFcompare (load_of c a) (load_of c b) with
  | Some Lt => true
  | Some Gt => false
  | _ => String.leb a b
  end.

(** The first of a stable sort by an order. *)
Fixpoint insert_node (le : string → string → bool) (x : string) (l : list string) : list string :=
  match l with [] => [x] | y :: l' => if le x y then x :: l else y :: insert_node le x l' end.
Definition sort_nodes (le : string → string → bool) (l : list string) : list string := foldr (insert_node le) [] l.

Definition adaptive_pick (c : ClusterMetrics) (candidates : list string) : option string :=
  match candidates with [] => None | _ => head (sort_nodes (node_le c) candidates) end.

(** *** Smoothing *)

Record Ewma := mkEwma { alpha : f64; ewma_value : f64 }.
(** [None]: the assertion on [alpha] fails. *)
Definition Ewma_new (initial a : f64) : option Ewma := if ltb zero a && leb a one then Some (mkEwma a initial) else None.
(** The power of the half life is the platform's. *)
Definition from_half_life (powf : f64 → f64 → f64) (initial half_life : f64) : option Ewma :=
  if ltb zero half_life then Ewma_new initial (sub one (powf (of_Z 2) (div (opp one) half_life))) else None.
Definition ewma_update (s : f64) (e : Ewma) : f64 * Ewma :=
  let v := add (mul (alpha e) s) (mul (sub one (alpha e)) (ewma_value e)) in (v, mkEwma (alpha e) v).

(** *** Weights *)

Inductive MetricsSelector := Cpu | Heap | Mix.

Definition weight (sel : MetricsSelector) (m : NodeMetrics) : f64 :=
  let cpu := clamp (sub one (cpu_load m)) zero one in
  let heap := clamp (sub one (memory_usage m)) zero one in
  match sel with
  | Cpu => cpu
  | Heap => heap
  | Mix => mul (lit 5 1) (add cpu heap)
  end.

Definition candidate_weights (c : ClusterMetrics) (sel : MetricsSelector) (candidates : list string) : list f64 :=
  (λ a, default (lit 5 1) (weight sel <$> by_address c !! a)) <$> candidates.

(** The loop over the weights: the first candidate whose running total reaches the target. *)
Fixpoint reach (target acc : f64) (ws : list f64) (candidates : list string) : option string :=
  match ws, candidates with
  | w :: ws, a :: cs => let acc := add acc w in if leb target acc then Some a else reach target acc ws cs
  | _, _ => None
  end.

Definition weighted_pick (c : ClusterMetrics) (sel : MetricsSelector) (candidates : list string) (seed : f64) : option string :=
  match candidates with
  | [] => None
  | first :: _ =>
      let ws := candidate_weights c sel candidates in
      let total := sum ws in
      if leb total zero then Some first
      else let target := fmin (mul (clamp seed zero one) total) total in
           match reach target zero ws candidates with Some a => Some a | None => last candidates end
  end.

(** *** Facts *)

Lemma by_address_spec (c : ClusterMetrics) : (∀ k m, c !! k = Some m → nm_address m = k) → by_address c = c.
Proof.
  intros Hk. unfold by_address, metrics_snapshot.
  rewrite <- (foldl_insert_perm (map_to_list c) c) at 2 by done.
  assert (∀ l (m : gmap string NodeMetrics), Forall (λ e, nm_address e.2 = e.1) l →
    foldl (λ m n, <[nm_address n := n]> m) m l.*2 = foldl (λ m e, <[e.1 := e.2]> m) m l) as Hgen.
  { induction l as [|[k n] l IH]; intros m Hl; [done|]. apply Forall_cons in Hl as [Hn Hl]. cbn in *. rewrite Hn. by apply IH. }
  apply Hgen, Forall_forall. intros [k m] Hm%elem_of_map_to_list. by apply Hk.
Qed.

(** The keys of the store are the addresses of its entries. *)
Lemma publish_keys m (c : ClusterMetrics) :
  (∀ k n, c !! k = Some n → nm_address n = k) → ∀ k n, publish_metrics m c !! k = Some n → nm_address n = k.
Proof. unfold publish_metrics. intros Hc k n [[<- <-]|[_ Hn]]%lookup_insert_Some; [done|by apply Hc]. Qed.

Definition pdu_samples (pdu : MetricsPdu) : list NodeMetrics := match pdu with Push m => [m] | PushBatch v => v end.

(** Whatever the messages, the store has for a node the last sample received of it. *)
Lemma apply_pdus_last (pdus : list MetricsPdu) (c : ClusterMetrics) a :
  foldl apply_metrics_pdu c pdus !! a =
  match last (filter (λ m, nm_address m = a) (concat (pdu_samples <$> pdus))) with Some m => Some m | None => c !! a end.
Proof.
  assert (∀ v (c : ClusterMetrics), foldl (λ c m, publish_metrics m c) c v !! a =
    match last (filter (λ m, nm_address m = a) v) with Some m => Some m | None => c !! a end) as Hv.
  { induction v as [|m v IH] using rev_ind; intros c'; [done|].
    rewrite foldl_app, filter_app, filter_cons, filter_nil. cbn [foldl]. unfold publish_metrics at 1.
    destruct (decide (nm_address m = a)) as [<-|Ha]; [by rewrite lookup_insert_eq, last_snoc|].
    rewrite lookup_insert_ne, app_nil_r by done. apply IH. }
  rewrite <- Hv. f_equal. revert c. induction pdus as [|p pdus IH]; intros c; [done|].
  cbn [foldl fmap list_fmap concat]. rewrite foldl_app, IH. by destruct p.
Qed.

(** The time of a sample is not compared: an old sample that arrives late replaces a newer one. *)
Example late_sample_replaces :
  let push t cpu := (gossip_local_metrics (mkProbe cpu 0 1) "a" "b" t).2 in
  nm_timestamp <$> foldl apply_metrics_pdu ∅ [push 2%N one; push 1%N zero] !! "a" = Some 1%N.
Proof. vm_compute. reflexivity. Qed.

Lemma insert_node_elem le x l y : y ∈ insert_node le x l ↔ y = x ∨ y ∈ l.
Proof. induction l as [|z l IH]; cbn; [set_solver|]. destruct (le x z); [set_solver|]. rewrite elem_of_cons, IH. set_solver. Qed.

Lemma sort_nodes_elem le l y : y ∈ sort_nodes le l ↔ y ∈ l.
Proof. induction l as [|x l IH]; cbn; [done|]. rewrite insert_node_elem, IH. set_solver. Qed.

Lemma adaptive_pick_candidate c candidates :
  candidates ≠ [] → ∃ a, adaptive_pick c candidates = Some a ∧ a ∈ candidates.
Proof.
  intros Hne. unfold adaptive_pick. destruct candidates as [|x l]; [done|]. set (k := sort_nodes (node_le c) (x :: l)).
  assert (∀ y, y ∈ k ↔ y ∈ x :: l) as Hk by (intros; apply sort_nodes_elem).
  destruct k as [|a k]; [pose proof (proj2 (Hk x) ltac:(left)) as Hx; by apply not_elem_of_nil in Hx|].
  exists a. split; [done|]. apply Hk. left.
Qed.

(** A weight by processor or by memory is a number between zero and one, or NaN. *)
Lemma weight_range sel m : sel ≠ Mix → ltb (weight sel m) zero = false ∧ ltb one (weight sel m) = false.
Proof. intros Hsel. destruct sel; [apply clamp_in; reflexivity..|done]. Qed.

Lemma reach_candidate target acc ws cs a : reach target acc ws cs = Some a → a ∈ cs.
Proof.
  revert acc cs; induction ws as [|w ws IH]; intros acc [|b cs]; cbn; try done.
  destruct (leb target (add acc w)); [intros [= <-]; left|]. intros Hr. right. by eapply IH.
Qed.

(** Whatever the metrics and the draw, one of the candidates is picked. *)
Lemma weighted_pick_candidate c sel candidates seed :
  candidates ≠ [] → ∃ a, weighted_pick c sel candidates seed = Some a ∧ a ∈ candidates.
Proof.
  intros Hne. unfold weighted_pick. destruct candidates as [|x l]; [done|]. destruct (leb _ zero); [exists x; split; [done|left]|].
  destruct (reach _ _ _ _) as [a|] eqn:E; [exists a; split; [done|by eapply reach_candidate]|].
  destruct (last (x :: l)) as [a|] eqn:El; [|by apply last_None in El]. exists a. split; [done|].
  apply last_Some in El as [l' ->]. apply elem_of_app. right. by left.
Qed.

Definition loaded (a : string) (cpu : f64) : NodeMetrics := mkMetrics a 0 cpu 0 1.
Definition three : ClusterMetrics :=
  publish_metrics (loaded "c" (lit 5 1)) (publish_metrics (loaded "b" (lit 1 1)) (publish_metrics (loaded "a" (lit 9 1)) ∅)).

Example adaptive_picks_lowest : adaptive_pick three ["a"; "b"; "c"] = Some "b" ∧ adaptive_pick ∅ ["c"; "a"; "b"] = Some "a".
Proof. vm_compute. done. Qed.

Example weighted_shares :
  (λ s, weighted_pick three Cpu ["a"; "b"; "c"] (lit s 2)) <$> [0; 5; 10; 60; 70; 99]%Z =
  Some <$> ["a"; "a"; "b"; "b"; "c"; "c"].
Proof. vm_compute. reflexivity. Qed.

(** A draw of zero takes the first candidate, also one of weight zero. *)
Example weight_zero_picked :
  weighted_pick (publish_metrics (loaded "a" one) three) Cpu ["a"; "b"] zero = Some "a".
Proof. vm_compute. reflexivity. Qed.

(** One node without a load makes the total NaN, and the last candidate is picked always. *)
Example nan_load_picks_last :
  (λ s, weighted_pick (publish_metrics (loaded "a" S754_nan) three) Cpu ["a"; "b"; "c"] (lit s 1)) <$> [0; 5; 9]%Z =
  Some <$> ["c"; "c"; "c"].
Proof. vm_compute. reflexivity. Qed.

(** With a NaN the comparison is no order: [b] goes before [a], [a] before [aa], but not [b] before [aa]. *)
Example nan_load_breaks_order :
  let c := publish_metrics (loaded "aa" S754_nan) (publish_metrics (loaded "a" (lit 9 1)) (publish_metrics (loaded "b" (lit 1 1)) ∅)) in
  node_le c "b" "a" = true ∧ node_le c "a" "aa" = true ∧ node_le c "b" "aa" = false.
Proof. vm_compute. done. Qed.
End Metrics.

(** ** The phi-accrual detector *)

Module PhiDetector.
Import F64.

(** Times and durations in milliseconds. *)
Record Detector := mkDetector {
  threshold : f64; max_samples : nat; min_std_deviation : N; acceptable_heartbeat_pause : N; first_heartbeat_estimate : N;
  history : list f64; last_heartbeat : option N;
}.

Definition Detector_new (th : f64) (max : nat) (min_std pause first : N) : Detector := mkDetector th max min_std pause first [] None.

Definition heartbeat (now : N) (d : Detector) : Detector :=
  let h := match last_heartbeat d with
           | Some prev =>
               let h := history d ++ [of_Z (Z.of_N (now - prev))] in
               if (max_samples d <? length h)%nat then drop 1 h else h
           | None => history d
           end in
  mkDetector (threshold d) (max_samples d) (min_std_deviation d) (acceptable_heartbeat_pause d) (first_heartbeat_estimate d) h (Some now).

Definition detector_reset (d : Detector) : Detector :=
  mkDetector (threshold d) (max_samples d) (min_std_deviation d) (acceptable_heartbeat_pause d) (first_heartbeat_estimate d) [] None.

Definition is_monitoring (d : Detector) : bool := match last_heartbeat d with Some _ => true | None => false end.
Definition since_last_heartbeat (now : N) (d : Detector) : option N := (λ t, (now - t)%N) <$> last_heartbeat d.

(** The mean and the deviation of the intervals. *)
Definition estimate (d : Detector) : f64 * f64 :=
  let min_std := of_Z (Z.of_N (min_std_deviation d)) in
  match history d with
  | [] => let m := of_Z (Z.of_N (first_heartbeat_estimate d)) in (m, fmax (mul m (lit 25 2)) min_std)
  | h =>
      let n := of_Z (Z.of_nat (length h)) in
      let mean := div (sum h) n in
      let var := div (sum ((λ x, square (sub x mean)) <$> h)) n in
      (mean, fmax (sqrt var) min_std)
  end.

Section phi.
Context (exp log10 : f64 → f64).

Definition phi_of (adjusted std_dev : f64) : f64 :=
  let y := div adjusted std_dev in
  let e := exp (mul (opp y) (add (lit 15976 4) (mul (mul (lit 70566 6) y) y))) in
  if ltb zero adjusted then opp (log10 (div e (add one e)))
  else opp (log10 (sub one (div one (add one e)))).

Definition phi (now : N) (d : Detector) : f64 :=
  match last_heartbeat d with
  | None => zero
  | Some last =>
      let time_diff_ms := of_Z (Z.of_N (now - last)) in
      let '(mean, std_dev) := estimate d in
      let adjusted := sub (sub time_diff_ms mean) (of_Z (Z.of_N (acceptable_heartbeat_pause d))) in
      phi_of adjusted std_dev
  end.

Definition is_available (now : N) (d : Detector) : bool := ltb (phi now d) (threshold d).

(** What the watchers of remote nodes are verified against. *)
#[local] Instance phi_detector : Detectors.FailureDetector Detector := {
  Detectors.fd_is_available := is_available;
  Detectors.fd_is_monitoring := is_monitoring;
  Detectors.fd_heartbeat := heartbeat;
  Detectors.fd_reset := detector_reset;
  Detectors.fd_since_last_heartbeat := since_last_heartbeat;
}.
End phi.

(** [HeartbeatState] of the cluster: a detector per node, made at its first heartbeat. *)
Definition cluster_detector : Detector := Detector_new (of_Z 8) 1000 100 3000 1000.
Definition HeartbeatState_heartbeat (now : N) (from : Address) (s : gmap Address Detector) : gmap Address Detector :=
  <[from := heartbeat now (default cluster_detector (s !! from))]> s.

(** *** Facts *)

(** The heartbeats at [ts], oldest first. *)
Definition beats (ts : list N) (d : Detector) : Detector := foldl (λ d t, heartbeat t d) d ts.

(** The differences of neighbours. *)
Fixpoint intervals (ts : list N) : list f64 :=
  match ts with
  | t :: (t' :: _) as ts' => of_Z (Z.of_N (t' - t)) :: intervals ts'
  | _ => []
  end.

Lemma intervals_snoc ts t : intervals (ts ++ [t]) = intervals ts ++ match last ts with Some p => [of_Z (Z.of_N (t - p))] | None => [] end.
Proof.
  induction ts as [|a [|b ts] IH]; [done..|]. cbn [app intervals] in *. f_equal. exact IH.
Qed.

(** The detector keeps the last intervals between heartbeats, and the time of the last one. *)
Lemma beats_window th max min_std pause first ts :
  let d := beats ts (Detector_new th max min_std pause first) in
  history d = drop (length (intervals ts) - max) (intervals ts) ∧ last_heartbeat d = last ts ∧ max_samples d = max.
Proof.
  cbn zeta. unfold beats. induction ts as [|t ts (Hh & Hl & Hm)] using rev_ind; [done|]. rewrite foldl_app. cbn [foldl].
  set (d := foldl (λ d t, heartbeat t d) (Detector_new th max min_std pause first) ts) in *. unfold heartbeat. rewrite Hl, Hm, Hh.
  rewrite last_snoc, intervals_snoc. split; [|done]. cbn [history].
  destruct (last ts) as [p|] eqn:E.
  - set (l := intervals ts). set (x := of_Z (Z.of_N (t - p))). rewrite !length_app, length_drop. cbn [length].
    destruct (Nat.ltb_spec max (length l - (length l - max) + 1)) as [Hlt|Hge].
    + rewrite <- drop_app_le, drop_drop by lia. f_equal. lia.
    + rewrite <- drop_app_le by lia. f_equal. lia.
  - by rewrite !app_nil_r.
Qed.

(** A detector that was never told of a heartbeat, or was reset, is available for any threshold
    above zero, and monitors nothing. *)
Lemma fresh_available exp log10 now d :
  last_heartbeat d = None → is_monitoring d = false ∧ is_available exp log10 now d = ltb zero (threshold d).
Proof. intros Hd. unfold is_monitoring, is_available, phi. by rewrite Hd. Qed.

Lemma reset_forgets d : last_heartbeat (detector_reset d) = None ∧ history (detector_reset d) = [].
Proof. done. Qed.

(** Heartbeats each second: the mean, and the minimal deviation. *)
Definition steady : Detector := beats [0; 1000; 2000; 3000]%N cluster_detector.
Example steady_estimate : estimate steady = (of_Z 1000, of_Z 100).
Proof. vm_compute. reflexivity. Qed.

(** Equal intervals and no minimal deviation: the deviation is zero, the quotient at the expected
    time is NaN, and what the functions of the platform make of NaN is not available. *)
Lemma zero_deviation_unavailable exp log10 :
  (∀ x, is_nan x = true → is_nan (exp x) = true) → (∀ x, is_nan x = true → is_nan (log10 x) = true) →
  let d := beats [0; 1000; 2000]%N (Detector_new (of_Z 8) 1000 0 3000 1000) in
  is_available exp log10 (2000 + 1000 + 3000) d = false.
Proof.
  intros Hexp Hlog. cbn zeta.
  set (d := beats _ _). assert (phi exp log10 6000 d = S754_nan) as Hp.
  { unfold phi. change (last_heartbeat d) with (Some 2000%N). cbv iota beta.
    replace (estimate d) with (of_Z 1000, zero) by (vm_compute; reflexivity).
    cbv iota beta zeta. replace (sub _ _) with zero by (vm_compute; reflexivity). unfold phi_of.
    replace (div zero zero) with S754_nan by (vm_compute; reflexivity). cbv zeta.
    replace (ltb zero zero) with false by (vm_compute; reflexivity).
    replace (mul _ _) with S754_nan by (vm_compute; reflexivity).
    pose proof (Hexp S754_nan eq_refl) as He. destruct (exp S754_nan); try done.
    replace (sub _ _) with S754_nan by (vm_compute; reflexivity).
    pose proof (Hlog S754_nan eq_refl) as Hl. by destruct (log10 S754_nan). }
  unfold is_available. replace (2000 + 1000 + 3000)%N with 6000%N by done. by rewrite Hp.
Qed.
End PhiDetector.
