(* ===== verification/Transports.v ===== *)
(** * Transports of the remoting layer
    ([crates/atomr-remote/src/transport], [reader_writer.rs], [error.rs])

    The TCP transport keeps a map from the address of a peer to the channel of a connection;
    each connection has a task that writes and one that reads.  Calls to [send] and
    [associate] suspend, so that a call is a value that goes through its phases, and a run is
    any sequence of steps of calls, tasks and sockets.  The registry of the transport for
    tests, the two adapters around a transport, the reader-writer pair and the typed errors
    follow. *)

From stdpp Require Import gmap strings list sorting.
From Stdlib Require Import NArith Lia.
From S2P Require Import Prelude Address ActorCell Endpoint Association Telemetry Probes SerialLink.

(** ** The TCP transport *)

Module Tcp.

(** The other end of a connection: the address that was dialled, or the origin that the first
    frame of an accepted connection names. *)
Inductive Remote := Dialed (target : Address) | Accepted (origin : option Address).
Definition remote_of (r : Remote) : option Address := match r with Dialed t => Some t | Accepted o => o end.

(** A connection: the channel of its writer, what was put on the wire and what came from it, and
    the tasks that still run.  [c_taken] are the frames the channel took, with the key they
    were sent to; [c_joined] is set when the task of an accepted connection ended. *)
Record Conn := mkConn {
  c_remote : Remote;
  c_queue : list AkkaPdu;
  c_written : list AkkaPdu;
  c_taken : list (string * AkkaPdu);
  c_received : list AkkaPdu;
  c_writer : bool;
  c_reader : bool;
  c_joined : bool;
}.
Definition conn_key (c : Conn) : option string := Address_to_string <$> remote_of (c_remote c).

(** The phases of a call.  [after] is what a [send] that associates goes on to send. *)
Inductive Call :=
  | SendCheck (target : Address) (pdu : AkkaPdu)
  | AssocCheck (target : Address) (after : option AkkaPdu)
  | Dialling (target : Address) (after : option AkkaPdu)
  | Opened (target : Address) (after : option AkkaPdu) (k : nat)
  | Getting (target : Address) (pdu : AkkaPdu)
  | Holding (target : Address) (pdu : AkkaPdu) (k : nat)
  | Done (what : option (string * AkkaPdu)) (r : TransportError + unit).

Record TcpTransport := mkTcp {
  tt_peers : gmap string nat;
  tt_conns : list Conn;
  (** the inbound channel, with the connection each frame came from *)
  tt_inbound : list (nat * (Address * AkkaPdu));
  (** whether the receiver of the inbound channel exists, and whether it was not taken yet *)
  tt_rx_open : bool;
  tt_rx_held : bool;
  tt_accepting : bool;
  tt_local : option Address;
  tt_calls : list Call;
  (** the frames of [disassociate] that a channel took *)
  tt_byes : list (string * AkkaPdu);
}.

Definition TcpTransport_new : TcpTransport := mkTcp ∅ [] [] true true false None [] [].

Definition set_peers (f : gmap string nat → gmap string nat) (s : TcpTransport) : TcpTransport :=
  mkTcp (f (tt_peers s)) (tt_conns s) (tt_inbound s) (tt_rx_open s) (tt_rx_held s) (tt_accepting s) (tt_local s) (tt_calls s) (tt_byes s).
Definition set_conns (l : list Conn) (s : TcpTransport) : TcpTransport :=
  mkTcp (tt_peers s) l (tt_inbound s) (tt_rx_open s) (tt_rx_held s) (tt_accepting s) (tt_local s) (tt_calls s) (tt_byes s).
Definition set_conn (k : nat) (c : Conn) (s : TcpTransport) : TcpTransport := set_conns (<[k := c]> (tt_conns s)) s.
Definition set_call (i : nat) (c : Call) (s : TcpTransport) : TcpTransport :=
  mkTcp (tt_peers s) (tt_conns s) (tt_inbound s) (tt_rx_open s) (tt_rx_held s) (tt_accepting s) (tt_local s) (<[i := c]> (tt_calls s)) (tt_byes s).

(** [listen]: [host] and [port] are those of the bound socket. *)
Definition listen (system_name host : string) (port : N) (advertised : option string) (s : TcpTransport) : TcpTransport :=
  mkTcp (tt_peers s) (tt_conns s) (tt_inbound s) (tt_rx_open s) (tt_rx_held s) true
    (Some (Address_remote "akka.tcp" system_name (default host advertised) port)) (tt_calls s) (tt_byes s).

(** A call begins. *)
Definition call (c : Call) (s : TcpTransport) : TcpTransport :=
  mkTcp (tt_peers s) (tt_conns s) (tt_inbound s) (tt_rx_open s) (tt_rx_held s) (tt_accepting s) (tt_local s) (tt_calls s ++ [c]) (tt_byes s).
Definition send (target : Address) (pdu : AkkaPdu) : TcpTransport → TcpTransport := call (SendCheck target pdu).
Definition associate (target : Address) : TcpTransport → TcpTransport := call (AssocCheck target None).

Definition conn_new (r : Remote) : Conn := mkConn r [] [] [] [] (match r with Dialed _ => true | _ => false end) true false.

(** The channel is closed once its writer ended. *)
Definition take_frame (key : string) (pdu : AkkaPdu) (c : Conn) : option Conn :=
  if c_writer c
  then Some (mkConn (c_remote c) (c_queue c ++ [pdu]) (c_written c) (c_taken c ++ [(key, pdu)]) (c_received c) (c_writer c) (c_reader c) (c_joined c))
  else None.

(** What follows an [associate] that succeeded. *)
Definition resume (target : Address) (after : option AkkaPdu) : Call :=
  match after with None => Done None (inr tt) | Some pdu => Getting target pdu end.
Definition asked (target : Address) (after : option AkkaPdu) : option (string * AkkaPdu) :=
  (λ pdu, (Address_to_string target, pdu)) <$> after.

(** One step of call [i]; [conn] is the result of [TcpStream::connect]. *)
Definition advance (conn : TransportError + unit) (i : nat) (s : TcpTransport) : option TcpTransport :=
  match tt_calls s !! i with
  | Some (SendCheck target pdu) =>
      Some (set_call i (if bool_decide (is_Some (tt_peers s !! Address_to_string target)) then Getting target pdu
                        else AssocCheck target (Some pdu)) s)
  | Some (AssocCheck target after) =>
      let key := Address_to_string target in
      Some (set_call i
        (if bool_decide (is_Some (tt_peers s !! key)) then resume target after
         else match host target, port target with
              | Some _, Some _ => Dialling target after
              | _, _ => Done (asked target after) (inl (TeNotAssociated key))
              end) s)
  | Some (Dialling target after) =>
      match conn with
      | inl e => Some (set_call i (Done (asked target after) (inl e)) s)
      | inr _ => Some (set_call i (Opened target after (length (tt_conns s))) (set_conns (tt_conns s ++ [conn_new (Dialed target)]) s))
      end
  | Some (Opened target after k) => Some (set_call i (resume target after) (set_peers <[Address_to_string target := k]> s))
  | Some (Getting target pdu) =>
      let key := Address_to_string target in
      Some (set_call i (match tt_peers s !! key with
                        | Some k => Holding target pdu k
                        | None => Done (Some (key, pdu)) (inl TeClosed)
                        end) s)
  | Some (Holding target pdu k) =>
      let key := Address_to_string target in
      match tt_conns s !! k with
      | Some c =>
          match take_frame key pdu c with
          | Some c' => Some (set_call i (Done (Some (key, pdu)) (inr tt)) (set_conn k c' s))
          | None => Some (set_call i (Done (Some (key, pdu)) (inl TeClosed)) s)
          end
      | None => None
      end
  | _ => None
  end.

Definition disassociate (target : Address) (s : TcpTransport) : TcpTransport :=
  let key := Address_to_string target in
  match tt_peers s !! key with
  | Some k =>
      let s := set_peers (delete key) s in
      let bye := PduDisassociate DrNormal in
      match tt_conns s !! k ≫= take_frame key bye with
      | Some c => let s := set_conn k c s in
                  mkTcp (tt_peers s) (tt_conns s) (tt_inbound s) (tt_rx_open s) (tt_rx_held s) (tt_accepting s) (tt_local s) (tt_calls s) (tt_byes s ++ [(key, bye)])
      | None => s
      end
  | None => s
  end.

Definition shutdown (s : TcpTransport) : TcpTransport :=
  mkTcp ∅ (tt_conns s) (tt_inbound s) (tt_rx_open s) (tt_rx_held s) false (tt_local s) (tt_calls s) (tt_byes s).

(** [inbound]: whether the caller got the channel of the transport. *)
Definition inbound (s : TcpTransport) : bool * TcpTransport :=
  (tt_rx_held s, mkTcp (tt_peers s) (tt_conns s) (tt_inbound s) (tt_rx_open s) false (tt_accepting s) (tt_local s) (tt_calls s) (tt_byes s)).
(** Only who took the receiver can drop it. *)
Definition drop_inbound (s : TcpTransport) : TcpTransport :=
  if tt_rx_held s then s
  else mkTcp (tt_peers s) (tt_conns s) (tt_inbound s) false false (tt_accepting s) (tt_local s) (tt_calls s) (tt_byes s).

(** *** The tasks *)

Definition accept (s : TcpTransport) : option TcpTransport :=
  if tt_accepting s then Some (set_conns (tt_conns s ++ [conn_new (Accepted None)]) s) else None.

(** Whether a sender of the channel of connection [k] is left. *)
Definition holds (k : nat) (c : Call) : bool := match c with Opened _ _ j | Holding _ _ j => j =? k | _ => false end.
Definition has_sender (k : nat) (s : TcpTransport) : bool :=
  existsb (λ p : string * nat, p.2 =? k) (map_to_list (tt_peers s)) || existsb (holds k) (tt_calls s).

Definition set_writer (b : bool) (c : Conn) : Conn :=
  mkConn (c_remote c) (c_queue c) (c_written c) (c_taken c) (c_received c) b (c_reader c) (c_joined c).
Definition set_reader (b : bool) (c : Conn) : Conn :=
  mkConn (c_remote c) (c_queue c) (c_written c) (c_taken c) (c_received c) (c_writer c) b (c_joined c).

(** One turn of the writer of connection [k]; [ok] is whether the frame could be written. *)
Definition write_turn (ok : bool) (k : nat) (s : TcpTransport) : option TcpTransport :=
  match tt_conns s !! k with
  | Some c =>
      if negb (c_writer c) then None
      else match c_queue c with
      | f :: q =>
          Some (set_conn k
            (if ok then mkConn (c_remote c) q (c_written c ++ [f]) (c_taken c) (c_received c) (negb (is_disassociate f)) (c_reader c) (c_joined c)
             else mkConn (c_remote c) q (c_written c) (c_taken c) (c_received c) false (c_reader c) (c_joined c)) s)
      | [] => if has_sender k s then None else Some (set_conn k (set_writer false c) s)
      end
  | None => None
  end.

Definition deliver (k : nat) (from : Address) (pdu : AkkaPdu) (s : TcpTransport) : TcpTransport :=
  mkTcp (tt_peers s) (tt_conns s) (if tt_rx_open s then tt_inbound s ++ [(k, (from, pdu))] else tt_inbound s)
    (tt_rx_open s) (tt_rx_held s) (tt_accepting s) (tt_local s) (tt_calls s) (tt_byes s).

Definition got (pdu : AkkaPdu) (c : Conn) : Conn :=
  mkConn (c_remote c) (c_queue c) (c_written c) (c_taken c) (c_received c ++ [pdu]) (c_writer c) (c_reader c) (c_joined c).

(** The first frame of an accepted connection: its channel is made and registered. *)
Definition introduced (origin : Address) (pdu : AkkaPdu) (c : Conn) : Conn :=
  mkConn (Accepted (Some origin)) [] [] [] [pdu] true true false.

(** One turn of the reader of connection [k]: a frame, or the end of the connection. *)
Definition read_turn (frame : option AkkaPdu) (k : nat) (s : TcpTransport) : option TcpTransport :=
  match tt_conns s !! k with
  | Some c =>
      if negb (c_reader c) then None
      else match c_remote c, frame with
      | Dialed target, Some pdu => Some (deliver k target pdu (set_conn k (got pdu c) s))
      | Dialed target, None => Some (set_peers (delete (Address_to_string target)) (set_conn k (set_reader false c) s))
      | Accepted None, Some (PduAssociate info as pdu) =>
          let origin := ai_origin info in
          Some (deliver k origin pdu (set_peers <[Address_to_string origin := k]> (set_conn k (introduced origin pdu c) s)))
      | Accepted None, _ => Some (set_conn k (set_reader false c) s)
      | Accepted (Some origin), Some pdu => Some (deliver k origin pdu (set_conn k (got pdu c) s))
      | Accepted (Some _), None => Some (set_conn k (set_reader false c) s)
      end
  | None => None
  end.

(** Both tasks of an accepted connection ended. *)
Definition join (k : nat) (s : TcpTransport) : option TcpTransport :=
  match tt_conns s !! k with
  | Some c =>
      match c_remote c with
      | Accepted (Some origin) =>
          if negb (c_writer c) && negb (c_reader c) && negb (c_joined c)
          then Some (set_peers (delete (Address_to_string origin))
                 (set_conn k (mkConn (c_remote c) (c_queue c) (c_written c) (c_taken c) (c_received c) false false true) s))
          else None
      | _ => None
      end
  | None => None
  end.

(** *** Runs *)

Inductive Step :=
  | StListen (system_name host : string) (port : N) (advertised : option string)
  | StSend (target : Address) (pdu : AkkaPdu) | StAssociate (target : Address)
  | StAdvance (conn : TransportError + unit) (i : nat)
  | StDisassociate (target : Address) | StShutdown | StInbound | StDropInbound
  | StAccept | StWrite (ok : bool) (k : nat) | StRead (frame : option AkkaPdu) (k : nat) | StJoin (k : nat).

Definition step (st : Step) (s : TcpTransport) : option TcpTransport :=
  match st with
  | StListen n h p a => Some (listen n h p a s)
  | StSend t pdu => Some (send t pdu s)
  | StAssociate t => Some (associate t s)
  | StAdvance conn i => advance conn i s
  | StDisassociate t => Some (disassociate t s)
  | StShutdown => Some (shutdown s)
  | StInbound => Some (inbound s).2
  | StDropInbound => Some (drop_inbound s)
  | StAccept => accept s
  | StWrite ok k => write_turn ok k s
  | StRead f k => read_turn f k s
  | StJoin k => join k s
  end.

Definition run (sts : list Step) (s : TcpTransport) : option TcpTransport := foldl (λ o st, o ≫= step st) (Some s) sts.

Inductive reachable : TcpTransport → Prop :=
  | reach_new : reachable TcpTransport_new
  | reach_step st s s' : reachable s → step st s = Some s' → reachable s'.

(** *** The invariant *)

(** The frames that calls of [send] reported as sent. *)
Definition call_sent (c : Call) : list (string * AkkaPdu) := match c with Done (Some f) (inr _) => [f] | _ => [] end.
Definition sent (s : TcpTransport) : list (string * AkkaPdu) := concat (call_sent <$> tt_calls s).

Definition received_from (k : nat) (s : TcpTransport) : list (Address * AkkaPdu) :=
  (filter (λ e, e.1 = k) (tt_inbound s)).*2.

(** Of one connection: what is on the wire is a prefix of what its channel took, with nothing
    behind a [Disassociate]; all of it was sent to the address of the other end, which for an
    accepted connection is the origin that its first frame names. *)
Record conn_core (c : Conn) : Prop := {
  co_prefix : c_written c `prefix_of` (c_taken c).*2;
  co_queue : c_writer c = true → (c_taken c).*2 = c_written c ++ c_queue c;
  co_last : ∀ l1 d l2, c_written c = l1 ++ d :: l2 → is_disassociate d = true → l2 = [] ∧ c_writer c = false;
  co_key : Forall (λ e, conn_key c = Some e.1) (c_taken c);
  co_first : match c_remote c with
             | Dialed _ => True
             | Accepted None => c_received c = [] ∧ c_writer c = false
             | Accepted (Some o) => ∃ info l, c_received c = PduAssociate info :: l ∧ ai_origin info = o
             end;
}.

(** The inbound channel has a connection's frames in order and with its address: all of them
    while the receiver exists. *)
Definition inbound_ok (s : TcpTransport) (k : nat) (c : Conn) : Prop :=
  match remote_of (c_remote c) with
  | Some a => received_from k s `prefix_of` ((a,.) <$> c_received c) ∧
              (tt_rx_open s = true → received_from k s = (a,.) <$> c_received c)
  | None => received_from k s = []
  end.

Definition points (s : TcpTransport) (key : string) (k : nat) : Prop := ∃ c, tt_conns s !! k = Some c ∧ conn_key c = Some key.

Definition call_ok (s : TcpTransport) (c : Call) : Prop :=
  match c with Opened t _ k | Holding t _ k => points s (Address_to_string t) k | _ => True end.

Record tcp_ok (s : TcpTransport) : Prop := {
  to_conns : ∀ k c, tt_conns s !! k = Some c → conn_core c ∧ inbound_ok s k c;
  to_peers : ∀ key k, tt_peers s !! key = Some k → points s key k;
  to_calls : ∀ i c, tt_calls s !! i = Some c → call_ok s c;
  to_new : ∀ k, length (tt_conns s) ≤ k → received_from k s = [];
  to_once : concat (c_taken <$> tt_conns s) ≡ₚ sent s ++ tt_byes s;
}.
End Tcp.

Module TcpFacts.
Import Tcp.

Lemma concat_insert_taken (l : list Conn) k c c' x :
  l !! k = Some c → c_taken c' = c_taken c ++ [x] → concat (c_taken <$> <[k := c']> l) ≡ₚ x :: concat (c_taken <$> l).
Proof.
  revert k; induction l as [|d l IH]; intros [|k] Hk Ht; try done; cbn in *.
  - simplify_eq. rewrite Ht, <- (assoc_L (++)). symmetry. apply Permutation_middle.
  - rewrite (IH k Hk Ht). symmetry. apply Permutation_middle.
Qed.

Lemma concat_insert_same {A B} (f : A → list B) (l : list A) k c c' :
  l !! k = Some c → f c' = f c → concat (f <$> <[k := c']> l) = concat (f <$> l).
Proof. revert k; induction l as [|d l IH]; intros [|k] Hk Ht; try done; cbn in *; [by simplify_eq; rewrite Ht|f_equal; by apply IH]. Qed.

Lemma concat_insert_sent (l : list Call) i c c' x :
  l !! i = Some c → call_sent c = [] → call_sent c' = [x] → concat (call_sent <$> <[i := c']> l) ≡ₚ x :: concat (call_sent <$> l).
Proof.
  revert i; induction l as [|d l IH]; intros [|i] Hi Hc Hc'; try done; cbn in *.
  - simplify_eq. by rewrite Hc, Hc'.
  - rewrite (IH i Hi Hc Hc'). symmetry. apply Permutation_middle.
Qed.

(** *** Pieces of a step *)

Lemma points_set s k c c' key j :
  tt_conns s !! k = Some c → (∀ q, conn_key c = Some q → conn_key c' = Some q) →
  points s key j → points (set_conn k c' s) key j.
Proof.
  intros Hk Hc (d & Hd & Hq). unfold points, set_conn; cbn. destruct (decide (j = k)) as [->|Hj].
  - simplify_eq. exists c'. rewrite list_lookup_insert_eq by (by eapply lookup_lt_Some). auto.
  - exists d. by rewrite list_lookup_insert_ne.
Qed.

Lemma ok_set_call s i c c' :
  tcp_ok s → tt_calls s !! i = Some c → call_ok s c' → call_sent c' = call_sent c → tcp_ok (set_call i c' s).
Proof.
  intros Hs Hi Hok Hsent. destruct Hs as [Hc Hp Ha Hn Ho]. split; cbn; auto.
  - intros j d [(-> & <- & _)|[Hne Hd]]%list_lookup_insert_Some; [done|by apply (Ha j)].
  - unfold sent; cbn. by rewrite (concat_insert_same _ _ _ c).
Qed.

Lemma ok_set_peers s f : tcp_ok s → (∀ key k, f (tt_peers s) !! key = Some k → points s key k) → tcp_ok (set_peers f s).
Proof. intros [Hc Hp Ha Hn Ho] Hf. split; cbn; auto. Qed.

Lemma ok_delete s key : tcp_ok s → tcp_ok (set_peers (delete key) s).
Proof. intros Hs. apply ok_set_peers; [done|]. intros q k [_ Hq]%lookup_delete_Some. by apply to_peers. Qed.

(** A connection changes: its core is kept, and it took what the second equation says. *)
Lemma ok_set_conn s k c c' :
  tcp_ok s → tt_conns s !! k = Some c → conn_core c' → inbound_ok s k c' → c_taken c' = c_taken c →
  (∀ q, conn_key c = Some q → conn_key c' = Some q) → tcp_ok (set_conn k c' s).
Proof.
  intros Hs Hk Hcore Hin Ht Hkey. pose proof (points_set s k c c') as Hpt. destruct Hs as [Hc Hp Ha Hn Ho]. split.
  - intros j d [(-> & <- & _)|[Hne Hd]]%list_lookup_insert_Some; [done|by apply Hc].
  - cbn. intros q j Hq. apply Hpt; auto.
  - cbn. intros i x Hi. pose proof (Ha i x Hi) as Hx. destruct x; cbn in *; auto.
  - cbn. rewrite length_insert. apply Hn.
  - cbn. by rewrite (concat_insert_same _ _ _ c).
Qed.

Lemma ok_new_conn s r : tcp_ok s → conn_core (conn_new r) → tcp_ok (set_conns (tt_conns s ++ [conn_new r]) s).
Proof.
  intros [Hc Hp Ha Hn Ho] Hcore.
  assert (∀ q j, points s q j → points (set_conns (tt_conns s ++ [conn_new r]) s) q j) as Hpt.
  { intros q j (d & Hd & Hq). exists d. split; [by apply lookup_app_l_Some|done]. }
  split; cbn; auto.
  - intros k c [Hk|[Hl Hk]]%lookup_app_Some; [by apply Hc|]. apply list_lookup_singleton_Some in Hk as [Hk <-].
    split; [done|]. unfold inbound_ok. assert (received_from k s = []) as E by (apply Hn; lia).
    change (received_from k (set_conns (tt_conns s ++ [conn_new r]) s)) with (received_from k s). rewrite E.
    destruct r as [t|[o|]]; cbn; try done; split; auto using prefix_nil.
  - intros i x Hi. pose proof (Ha i x Hi) as Hx. destruct x; cbn in *; auto.
  - intros k Hk. apply Hn. rewrite length_app in Hk. cbn in Hk. lia.
  - rewrite fmap_app, concat_app. cbn. destruct r; by rewrite !app_nil_r.
Qed.

(** A frame reaches the channel of a connection. *)
Lemma take_frame_core key pdu c c' :
  take_frame key pdu c = Some c' → conn_key c = Some key → conn_core c → conn_core c'.
Proof.
  unfold take_frame. destruct (c_writer c) eqn:Ew; [|done]. intros [= <-] Hkey [Hp Hq Hl Hk Hf]. rewrite Ew in *. split; cbn; auto.
  - rewrite fmap_app. by apply prefix_app_r.
  - intros _. rewrite fmap_app, Hq by done. by rewrite <- (assoc_L (++)).
  - apply Forall_app. split; [done|]. by repeat constructor.
Qed.

Lemma take_frame_spec key pdu c c' :
  take_frame key pdu c = Some c' → c_taken c' = c_taken c ++ [(key, pdu)] ∧ c_remote c' = c_remote c ∧ c_received c' = c_received c.
Proof. unfold take_frame. destruct (c_writer c); [|done]. by intros [= <-]. Qed.

(** The frame is counted once, in the calls or in the goodbyes. *)
Lemma ok_take s s' k c c' key pdu :
  tcp_ok s → tt_conns s !! k = Some c → conn_key c = Some key → take_frame key pdu c = Some c' →
  tt_peers s' = tt_peers s → tt_conns s' = <[k := c']> (tt_conns s) → tt_inbound s' = tt_inbound s → tt_rx_open s' = tt_rx_open s →
  (∀ i x, tt_calls s' !! i = Some x → call_ok s x) →
  sent s' ++ tt_byes s' ≡ₚ (key, pdu) :: sent s ++ tt_byes s → tcp_ok s'.
Proof.
  intros Hs Hk Hkey Htk Ep Ec Ei Er Hcalls Hcount. destruct (take_frame_spec _ _ _ _ Htk) as (Et & Erem & Erec).
  assert (∀ q j, points s q j → points s' q j) as Hpt.
  { intros q j Hq. destruct (points_set s k c c' q j Hk) as (d & Hd & Hq'); [unfold conn_key; by rewrite Erem|done|].
    exists d. by rewrite Ec. }
  destruct Hs as [Hc Hp Ha Hn Ho].
  assert (∀ j, received_from j s' = received_from j s) as Erf by (intros; unfold received_from; by rewrite Ei).
  split.
  - intros j d Hd. rewrite Ec in Hd. unfold inbound_ok. rewrite Erf, Er.
    apply list_lookup_insert_Some in Hd as [(-> & <- & _)|[Hne Hd]]; [|by apply Hc].
    destruct (Hc _ _ Hk) as [Hcore Hin]. split; [by eapply take_frame_core|]. by rewrite Erem, Erec.
  - intros q j Hq. rewrite Ep in Hq. auto.
  - intros i x Hi. pose proof (Hcalls i x Hi) as Hx. destruct x; cbn in *; auto.
  - intros j Hj. rewrite Erf. apply Hn. rewrite Ec, length_insert in Hj. done.
  - rewrite Ec, Hcount, (concat_insert_taken _ _ c _ (key, pdu)) by done. by rewrite Ho.
Qed.

(** A frame that a connection got is delivered. *)
Lemma received_deliver s k c' j a pdu :
  received_from j (deliver k a pdu (set_conn k c' s)) =
  received_from j s ++ (if tt_rx_open s then if decide (j = k) then [(a, pdu)] else [] else []).
Proof.
  unfold received_from, deliver; cbn. destruct (tt_rx_open s); [|by rewrite app_nil_r].
  rewrite filter_app, fmap_app, filter_cons, filter_nil. cbn. destruct (decide (k = j)), (decide (j = k)); by subst.
Qed.

Lemma ok_deliver s k c c' a pdu :
  tcp_ok s → tt_conns s !! k = Some c → conn_core c' → remote_of (c_remote c') = Some a →
  received_from k s `prefix_of` ((a,.) <$> c_received c) → (tt_rx_open s = true → received_from k s = (a,.) <$> c_received c) →
  c_received c' = c_received c ++ [pdu] → c_taken c' = c_taken c → (∀ q, conn_key c = Some q → conn_key c' = Some q) →
  tcp_ok (deliver k a pdu (set_conn k c' s)).
Proof.
  intros Hs Hk Hcore Hr Hpre Hall Erec Et Hkey. pose proof (λ q j, points_set s k c c' q j Hk Hkey) as Hpt.
  destruct Hs as [Hc Hp Ha Hn Ho]. split.
  - intros j d Hd. cbn in Hd. unfold inbound_ok. rewrite received_deliver. cbn.
    apply list_lookup_insert_Some in Hd as [(-> & <- & _)|[Hne Hd]].
    + split; [done|]. rewrite Hr, Erec, fmap_app, decide_True by done. destruct (tt_rx_open s); cbn.
      * split; [by rewrite Hall|]. intros _. by rewrite Hall.
      * rewrite app_nil_r. split; [by apply prefix_app_r|done].
    + rewrite decide_False by done. destruct (tt_rx_open s) eqn:E; rewrite app_nil_r; destruct (Hc _ _ Hd) as [Hd1 Hd2]; unfold inbound_ok in Hd2; by rewrite E in Hd2.
  - cbn. intros q j Hq. by apply Hpt, Hp.
  - cbn. intros i x Hi. pose proof (Ha i x Hi) as Hx. destruct x; cbn in *; try done; by apply Hpt.
  - intros j Hj. cbn in Hj. rewrite length_insert in Hj. rewrite received_deliver, (Hn j Hj).
    apply lookup_lt_Some in Hk. destruct (tt_rx_open s); [rewrite decide_False by lia|]; done.
  - cbn. rewrite (concat_insert_same _ _ _ c) by done. exact Ho.
Qed.

(** *** Every step *)

Lemma conn_new_core r : r ≠ Accepted (Some (default (Address_local "") (remote_of r))) → conn_core (conn_new r).
Proof.
  intros Hr. split; cbn; auto; try by destruct r.
  - intros [] ? ?; done.
  - destruct r as [t|[o|]]; cbn in *; [done|by destruct Hr|done].
Qed.

Lemma advance_ok conn i s s' : tcp_ok s → advance conn i s = Some s' → tcp_ok s'.
Proof.
  intros Hs. unfold advance. destruct (tt_calls s !! i) as [x|] eqn:Ei; [|done].
  destruct x as [t pdu|t after|t after|t after k|t pdu|t pdu k|w r]; intros E; simplify_eq/=.
  - eapply ok_set_call; [done|done|by case_bool_decide|by case_bool_decide].
  - eapply ok_set_call; [done|done|..]; case_bool_decide; destruct after, (host t), (port t); done.
  - destruct conn as [e|[]]; simplify_eq/=; [eapply ok_set_call; try done; by destruct after|].
    eapply ok_set_call; [by apply ok_new_conn, conn_new_core|exact Ei| |done].
    exists (conn_new (Dialed t)). cbn. split; [|done]. by rewrite lookup_app_r, Nat.sub_diag by lia.
  - eapply ok_set_call; [|exact Ei|by destruct after|by destruct after].
    apply ok_set_peers; [done|]. intros q j [[<- <-]|[_ Hq]]%lookup_insert_Some; [exact (to_calls _ Hs _ _ Ei)|by apply to_peers].
  - eapply ok_set_call; [done|done|..]; destruct (tt_peers s !! _) as [k|] eqn:Ek; try done. by apply to_peers.
  - destruct (to_calls _ Hs _ _ Ei) as (c & Hc & Hkey). rewrite Hc in E.
    destruct (take_frame _ pdu c) as [c'|] eqn:Et; simplify_eq/=; [|by eapply ok_set_call].
    eapply (ok_take s _ k c c' _ pdu Hs Hc Hkey Et); try done.
    + intros j x [(-> & <- & _)|[_ Hx]]%list_lookup_insert_Some; [done|by eapply to_calls].
    + unfold sent; cbn. by rewrite (concat_insert_sent _ i _ _ (Address_to_string t, pdu) Ei).
Qed.

Lemma disassociate_ok t s : tcp_ok s → tcp_ok (disassociate t s).
Proof.
  intros Hs. unfold disassociate. destruct (tt_peers s !! _) as [k|] eqn:Ek; [|done].
  destruct (to_peers _ Hs _ _ Ek) as (c & Hc & Hkey). pose proof (ok_delete s (Address_to_string t) Hs) as Hd.
  cbn [tt_conns set_peers]. rewrite Hc. cbn [mbind option_bind].
  destruct (take_frame _ _ c) as [c'|] eqn:Et; [|done].
  eapply (ok_take (set_peers (delete (Address_to_string t)) s) _ k c c' _ _ Hd Hc Hkey Et); try done.
  - intros i x Hx. exact (to_calls _ Hd _ _ Hx).
  - change (sent s ++ (tt_byes s ++ [(Address_to_string t, PduDisassociate DrNormal)]) ≡ₚ
            (Address_to_string t, PduDisassociate DrNormal) :: sent s ++ tt_byes s).
    rewrite (assoc_L (++)). by rewrite Permutation_app_comm.
Qed.

Lemma write_turn_ok ok k s s' : tcp_ok s → write_turn ok k s = Some s' → tcp_ok s'.
Proof.
  intros Hs. unfold write_turn. destruct (tt_conns s !! k) as [c|] eqn:Ec; [|done].
  destruct (c_writer c) eqn:Ew; [cbn|done]. destruct (to_conns _ Hs _ _ Ec) as [[Hp Hq Hl Hk Hf] Hin].
  specialize (Hq Ew). assert (conn_core (set_writer false c)) as Hoff.
  { split; cbn; try done; [intros l1 d l2 Hw Hd; by destruct (Hl l1 d l2 Hw Hd)|]. destruct (c_remote c) as [|[|]]; naive_solver. }
  assert (∀ l1 d l2, c_written c = l1 ++ d :: l2 → is_disassociate d = true → False) as Hno.
  { intros l1 d l2 Hw Hd. destruct (Hl l1 d l2 Hw Hd) as [_ ?]. congruence. }
  destruct (c_queue c) as [|fr q] eqn:Eq.
  { destruct (has_sender k s); [done|]. intros [= <-]. by eapply ok_set_conn. }
  intros [= <-]. destruct ok; eapply ok_set_conn; try done.
  - split; cbn; auto.
    + rewrite Hq. exists q. by rewrite <- (assoc_L (++)).
    + intros _. by rewrite Hq, <- (assoc_L (++)).
    + intros l1 d l2 Hw Hd. destruct l2 as [|e l2 _] using rev_ind.
      * apply app_inj_tail in Hw as [_ ->]. by rewrite Hd.
      * rewrite app_comm_cons, (assoc_L (++)) in Hw. apply app_inj_tail in Hw as [Hw _]. by destruct (Hno _ _ _ Hw Hd).
    + destruct (c_remote c) as [|[|]]; try done. by destruct Hf as [_ ?]; congruence.
  - destruct Hoff. by split.
Qed.

Lemma read_turn_ok frame k s s' : tcp_ok s → read_turn frame k s = Some s' → tcp_ok s'.
Proof.
  intros Hs. unfold read_turn. destruct (tt_conns s !! k) as [c|] eqn:Ec; [|done].
  destruct (c_reader c); [cbn|done]. destruct (to_conns _ Hs _ _ Ec) as [Hcore Hin].
  assert (tcp_ok (set_conn k (set_reader false c) s)) as Hend.
  { eapply ok_set_conn; try done. destruct Hcore. by split. }
  assert (∀ pdu, c_remote c ≠ Accepted None → conn_core (got pdu c)) as Hgot.
  { intros pdu Hne. destruct Hcore as [? ? ? ? Hf]. split; try done. cbn. destruct (c_remote c) as [|[o|]]; try done.
    destruct Hf as (info & l & E & Ho). exists info, (l ++ [pdu]). by rewrite E. }
  assert (∀ a pdu, remote_of (c_remote c) = Some a → tcp_ok (deliver k a pdu (set_conn k (got pdu c) s))) as Hdel.
  { intros a pdu Hr. unfold inbound_ok in Hin. rewrite Hr in Hin. destruct Hin as [Hpre Hall].
    eapply ok_deliver; try done. apply Hgot. by intros E; rewrite E in Hr. }
  destruct (c_remote c) as [t|[o|]] eqn:Er.
  - destruct frame; intros [= <-]; [by apply Hdel|by apply ok_delete].
  - destruct frame; intros [= <-]; [by apply Hdel|done].
  - destruct Hcore as [_ _ _ Hk Hf]. rewrite Er in Hf. destruct Hf as [Erec Ew].
    destruct frame as [[info|r| |env|ack]|]; intros [= <-]; try done.
    unfold inbound_ok in Hin. rewrite Er in Hin; cbn in Hin.
    assert (c_taken c = []) as Et.
    { destruct (c_taken c) as [|e l]; [done|]. apply Forall_cons in Hk as [Hk _]. unfold conn_key in Hk. by rewrite Er in Hk. }
    set (c' := introduced (ai_origin info) (PduAssociate info) c).
    assert (tcp_ok (deliver k (ai_origin info) (PduAssociate info) (set_conn k c' s))) as Hok.
    { eapply (ok_deliver s k c c'); try done.
      - split; cbn; try done. + intros []; done. + eauto.
      - rewrite Hin. apply prefix_nil.
      - intros _. by rewrite Hin, Erec.
      - by rewrite Erec.
      - unfold conn_key. by rewrite Er. }
    apply (ok_set_peers _ <[Address_to_string (ai_origin info) := k]> Hok).
    intros q j [[<- <-]|[_ Hq]]%lookup_insert_Some; [|exact (to_peers _ Hok _ _ Hq)].
    exists c'. cbn. rewrite list_lookup_insert_eq by (by eapply lookup_lt_Some). done.
Qed.

Lemma tcp_join_ok k s s' : tcp_ok s → join k s = Some s' → tcp_ok s'.
Proof.
  intros Hs. unfold join. destruct (tt_conns s !! k) as [c|] eqn:Ec; [|done]. destruct (c_remote c) as [|[o|]] eqn:Er; try done.
  destruct (c_writer c) eqn:Ew, (c_reader c), (c_joined c); try done. intros [= <-]. apply ok_delete.
  destruct (to_conns _ Hs _ _ Ec) as [[Hp Hq Hl Hk Hf] Hin]. rewrite Er in Hf.
  eapply ok_set_conn; try done; [|unfold inbound_ok in *; cbn; by rewrite Er in Hin|unfold conn_key; cbn; by rewrite Er].
  unfold conn_key in Hk. rewrite Er in Hk. split; cbn; try done. intros l1 d l2 Hw Hd. by destruct (Hl l1 d l2 Hw Hd).
Qed.

Lemma call_begins_ok c s : tcp_ok s → call_ok s c → call_sent c = [] → tcp_ok (call c s).
Proof.
  intros [Hc Hp Ha Hn Ho] Hok Hsent. split; try done.
  - intros i x [Hx|[_ Hx]]%lookup_app_Some; [by apply (Ha i)|]. by apply list_lookup_singleton_Some in Hx as [_ <-].
  - unfold sent; cbn. rewrite fmap_app, concat_app. cbn. by rewrite Hsent, !app_nil_r.
Qed.

(** What is not about calls and connections may change; frames that arrive later may get lost. *)
Lemma ok_frame s s' :
  tcp_ok s → (tt_peers s' = tt_peers s ∨ tt_peers s' = ∅) → tt_conns s' = tt_conns s → tt_inbound s' = tt_inbound s →
  (tt_rx_open s' = true → tt_rx_open s = true) → tt_calls s' = tt_calls s → tt_byes s' = tt_byes s → tcp_ok s'.
Proof.
  intros [Hc Hp Ha Hn Ho] Ep Ec Ei Er El Eb.
  assert (∀ j, received_from j s' = received_from j s) as Erf by (intros; unfold received_from; by rewrite Ei).
  assert (∀ q j, points s q j → points s' q j) as Hpt by (intros q j (d & ? & ?); exists d; by rewrite Ec).
  split.
  - intros k c Hk. rewrite Ec in Hk. destruct (Hc _ _ Hk) as [Hcore Hin]. split; [done|]. unfold inbound_ok in *. rewrite Erf.
    destruct (remote_of _); [|done]. destruct Hin as [H1 H2]. split; auto.
  - intros q j Hq. destruct Ep as [Ep|Ep]; rewrite Ep in Hq; [auto|by rewrite lookup_empty in Hq].
  - intros i x Hx. rewrite El in Hx. specialize (Ha i x Hx). destruct x; cbn in *; auto.
  - intros k Hk. rewrite Erf. apply Hn. by rewrite <- Ec.
  - unfold sent. by rewrite Ec, El, Eb.
Qed.

Lemma step_ok st s s' : tcp_ok s → step st s = Some s' → tcp_ok s'.
Proof.
  intros Hs. destruct st; cbn.
  - intros [= <-]. by eapply ok_frame; try done; left.
  - intros [= <-]. by apply call_begins_ok.
  - intros [= <-]. by apply call_begins_ok.
  - by apply advance_ok.
  - intros [= <-]. by apply disassociate_ok.
  - intros [= <-]. by eapply ok_frame; try done; right.
  - intros [= <-]. by eapply ok_frame; try done; left.
  - intros [= <-]. unfold drop_inbound. destruct (tt_rx_held s); [done|]. by eapply ok_frame; try done; left.
  - unfold accept. destruct (tt_accepting s); [|done]. intros [= <-]. by apply ok_new_conn, conn_new_core.
  - by apply write_turn_ok.
  - by apply read_turn_ok.
  - by apply tcp_join_ok.
Qed.

Lemma reachable_ok s : reachable s → tcp_ok s.
Proof. induction 1 as [|st s s' _ IH Hst]; [|by eapply step_ok]. split; try done. Qed.

Lemma run_reachable sts s s' : reachable s → run sts s = Some s' → reachable s'.
Proof.
  revert s; induction sts as [|st sts IH]; intros s Hs Hr; [by injection Hr as <-|]. unfold run in *. cbn in Hr.
  destruct (step st s) as [t|] eqn:E; [apply (IH t); [by apply (reach_step st s)|done]|].
  exfalso. clear -Hr. induction sts as [|? ? IH]; cbn in *; [done|auto].
Qed.
End TcpFacts.

(** C18: In every run of the TCP transport each frame that a call reported as sent, or that
    [disassociate] put in, is in the channel of exactly one connection, one whose other end
    has the address it was sent to; a connection writes its channel in order, nothing behind a
    [Disassociate]; and the inbound channel has, for every connection, what was read from it,
    in order and stamped with its address, all of it while the receiver exists. *)
Theorem tcp_connections_sound (s : Tcp.TcpTransport) :
  Tcp.reachable s →
  concat (Tcp.c_taken <$> Tcp.tt_conns s) ≡ₚ Tcp.sent s ++ Tcp.tt_byes s ∧
  ∀ k c, Tcp.tt_conns s !! k = Some c →
    Forall (λ e, Tcp.conn_key c = Some e.1) (Tcp.c_taken c) ∧
    Tcp.c_written c `prefix_of` (Tcp.c_taken c).*2 ∧
    (∀ l1 d l2, Tcp.c_written c = l1 ++ d :: l2 → is_disassociate d = true → l2 = []) ∧
    ∀ a, Tcp.remote_of (Tcp.c_remote c) = Some a →
      Tcp.received_from k s `prefix_of` ((a,.) <$> Tcp.c_received c) ∧
      (Tcp.tt_rx_open s = true → Tcp.received_from k s = (a,.) <$> Tcp.c_received c).
Proof.
  intros Hs%TcpFacts.reachable_ok. split; [apply Hs|]. intros k c Hc. destruct (Tcp.to_conns _ Hs _ _ Hc) as [Hcore Hin].
  split; [apply Hcore|]. split; [apply Hcore|]. split; [intros l1 d l2 Hw Hd; by destruct (Tcp.co_last _ Hcore l1 d l2 Hw Hd)|].
  intros a Ha. unfold Tcp.inbound_ok in Hin. by rewrite Ha in Hin.
Qed.

Module TcpRuns.
Import Tcp.

Definition peer_a : Address := Address_remote "akka.tcp" "A" "10.0.0.1" 2552.
Definition me : Address := Address_remote "akka.tcp" "B" "10.0.0.2" 2552.
Definition hello (a : Address) : AkkaPdu := PduAssociate (mkAssociateInfo a 1 None PROTOCOL_VERSION).
Definition ok : TransportError + unit := inr tt.

(** What a run ends in: the calls that ended, and per connection what it took, what it wrote
    and which tasks are left. *)
Definition results (s : TcpTransport) : list (TransportError + unit) :=
  omap (λ c, match c with Done _ r => Some r | _ => None end) (tt_calls s).
Definition lines (s : TcpTransport) : list (nat * nat * bool * bool) :=
  (λ c, (length (c_taken c), length (c_written c), c_writer c, c_reader c)) <$> tt_conns s.

(** A first [send] dials, and the answer comes back over the same connection. *)
Definition exchange : list Step :=
  [StListen "B" "10.0.0.2" 2552 None; StSend peer_a (hello me);
   StAdvance ok 0; StAdvance ok 0; StAdvance ok 0; StAdvance ok 0; StAdvance ok 0; StAdvance ok 0;
   StWrite true 0; StRead (Some (hello peer_a)) 0; StRead (Some PduHeartbeat) 0].

Lemma exchange_reachable : ∃ s, run exchange TcpTransport_new = Some s ∧ reachable s.
Proof.
  destruct (run exchange TcpTransport_new) as [s|] eqn:E; [|by vm_compute in E].
  exists s. split; [done|]. eapply TcpFacts.run_reachable; [apply reach_new|exact E].
Qed.

(** Two calls dial the same peer at once: the second entry replaces the first, so the channel of
    the first connection closes; when its reader ends, it removes the entry of the second. *)
Definition two_dials : list Step :=
  [StAssociate peer_a; StAssociate peer_a; StAdvance ok 0; StAdvance ok 1; StAdvance ok 0; StAdvance ok 1;
   StAdvance ok 0; StAdvance ok 1; StWrite true 0].
Example stale_reader_removes_live_link :
  (λ s, (tt_peers s !! Address_to_string peer_a, lines s)) <$> run two_dials TcpTransport_new =
    Some (Some 1, [(0, 0, false, true); (0, 0, true, true)]) ∧
  (λ s, (tt_peers s !! Address_to_string peer_a, lines s)) <$> run (two_dials ++ [StRead None 0]) TcpTransport_new =
    Some (None, [(0, 0, false, false); (0, 0, true, true)]).
Proof. split; vm_compute; reflexivity. Qed.

(** The peer hangs up before the caller has registered the connection: the entry stays, nothing
    removes it, and after the writer failed every later [send] is refused. *)
Definition early_hangup : list Step :=
  [StSend peer_a PduHeartbeat; StAdvance ok 0; StAdvance ok 0; StAdvance ok 0; StRead None 0;
   StAdvance ok 0; StAdvance ok 0; StAdvance ok 0; StWrite false 0;
   StSend peer_a PduHeartbeat; StAdvance ok 1; StAdvance ok 1; StAdvance ok 1].
Example dead_link_stays :
  (λ s, (tt_peers s !! Address_to_string peer_a, lines s, results s)) <$> run early_hangup TcpTransport_new =
  Some (Some 0, [(1, 0, false, false)], [inr tt; inl TeClosed]).
Proof. vm_compute. reflexivity. Qed.

(** A frame that cannot be written (one that is too large) ends the writer, and the frames
    behind it are lost; the reader goes on, the entry stays and later calls are refused. *)
Definition large_frame : list Step :=
  exchange ++ [StSend peer_a PduHeartbeat; StAdvance ok 1; StAdvance ok 1; StAdvance ok 1; StWrite false 0;
               StSend peer_a PduHeartbeat; StAdvance ok 2; StAdvance ok 2; StAdvance ok 2].
Example large_frame_blocks_peer :
  (λ s, (tt_peers s !! Address_to_string peer_a, lines s, results s)) <$> run large_frame TcpTransport_new =
  Some (Some 0, [(2, 1, false, true)], [inr tt; inr tt; inl TeClosed]).
Proof. vm_compute. reflexivity. Qed.

(** After the peer of an accepted connection hung up, its entry stays until a write fails: a
    frame sent then is reported as sent and lost. *)
Definition hung_up : list Step :=
  [StListen "B" "10.0.0.2" 2552 None; StAccept; StRead (Some (hello peer_a)) 0; StRead None 0;
   StSend peer_a PduHeartbeat; StAdvance ok 0; StAdvance ok 0; StAdvance ok 0; StWrite false 0; StJoin 0].
Example accepted_link_lingers :
  (λ s, (tt_peers s !! Address_to_string peer_a, lines s, results s)) <$> run hung_up TcpTransport_new =
  Some (None, [(1, 0, false, false)], [inr tt]).
Proof. vm_compute. reflexivity. Qed.

(** A connection whose first frame is not [Associate] delivers nothing. *)
Example unknown_peer_ignored :
  (λ s, (tt_inbound s, lines s)) <$> run [StListen "B" "10.0.0.2" 2552 None; StAccept; StRead (Some PduHeartbeat) 0] TcpTransport_new =
  Some ([], [(0, 0, false, false)]).
Proof. vm_compute. reflexivity. Qed.

Lemma tcp_connections_sound_witness : ∃ s, run exchange TcpTransport_new = Some s ∧
  concat (c_taken <$> tt_conns s) ≡ₚ sent s ++ tt_byes s ∧ received_from 0 s = (peer_a,.) <$> [hello peer_a; PduHeartbeat].
Proof.
  destruct exchange_reachable as (s & E & Hs). exists s. split; [exact E|].
  destruct (tcp_connections_sound s Hs) as [Hperm _]. split; [exact Hperm|].
  vm_compute in E. injection E as <-. vm_compute. reflexivity.
Defined.
End TcpRuns.

(** ** The transport interface, and the transport for tests *)

(** The calls of [Transport] that change its state, as functions of it. *)
Class Transport (S : Type) := {
  t_listen : S → S * (TransportError + Address);
  t_associate : Address → S → S * (TransportError + unit);
  t_send : Address → AkkaPdu → S → S * (TransportError + unit);
  t_disassociate : Address → S → S * (TransportError + unit);
  t_shutdown : S → S * (TransportError + unit);
}.

Module TestNet.

(** The registry with the inbound channels it holds; a channel knows whether its receiver exists. *)
Record Channel := mkChannel { ch_frames : list (Address * AkkaPdu); ch_open : bool }.
Record TestRegistry := mkRegistry { rg_peers : gmap string nat; rg_channels : list Channel }.
Definition TestRegistry_new : TestRegistry := mkRegistry ∅ [].

Definition register (address : Address) (k : nat) (r : TestRegistry) : TestRegistry :=
  mkRegistry (<[Address_to_string address := k]> (rg_peers r)) (rg_channels r).
Definition unregister (address : Address) (r : TestRegistry) : TestRegistry :=
  mkRegistry (delete (Address_to_string address) (rg_peers r)) (rg_channels r).

(** [TestTransport::new]: the number of its channel. *)
Definition TestTransport_new (address : Address) (r : TestRegistry) : nat * TestRegistry :=
  let k := length (rg_channels r) in
  (k, register address k (mkRegistry (rg_peers r) (rg_channels r ++ [mkChannel [] true]))).

Definition drop_receiver (k : nat) (r : TestRegistry) : TestRegistry :=
  mkRegistry (rg_peers r) (alter (λ c, mkChannel (ch_frames c) false) k (rg_channels r)).

(** The transport of participant [me]. *)
Section transport.
Variable me : Address.

Definition test_listen (r : TestRegistry) : TestRegistry * (TransportError + Address) := (r, inr me).

Definition test_associate (target : Address) (r : TestRegistry) : TestRegistry * (TransportError + unit) :=
  let key := Address_to_string target in
  if bool_decide (is_Some (rg_peers r !! key)) then (r, inr tt) else (r, inl (TeNotAssociated key)).

Definition test_send (target : Address) (pdu : AkkaPdu) (r : TestRegistry) : TestRegistry * (TransportError + unit) :=
  let key := Address_to_string target in
  match rg_peers r !! key with
  | None => (r, inl (TeNotAssociated key))
  | Some k =>
      match rg_channels r !! k with
      | Some c =>
          if ch_open c
          then (mkRegistry (rg_peers r) (<[k := mkChannel (ch_frames c ++ [(me, pdu)]) true]> (rg_channels r)), inr tt)
          else (r, inl TeClosed)
      | None => (r, inl TeClosed)
      end
  end.

Definition test_disassociate (_target : Address) (r : TestRegistry) : TestRegistry * (TransportError + unit) := (r, inr tt).
Definition test_shutdown (r : TestRegistry) : TestRegistry * (TransportError + unit) := (unregister me r, inr tt).

#[export] Instance TestTransport : Transport TestRegistry := {
  t_listen := test_listen; t_associate := test_associate; t_send := test_send;
  t_disassociate := test_disassociate; t_shutdown := test_shutdown;
}.
End transport.

Definition frames_at (target : Address) (r : TestRegistry) : option (list (Address * AkkaPdu)) :=
  k ← rg_peers r !! Address_to_string target; c ← rg_channels r !! k; if ch_open c then Some (ch_frames c) else None.

(** A [send] that succeeds adds one frame, stamped with the sender, at the end of the channel of
    its target; it fails exactly when the target has no open channel, and then changes nothing. *)
Lemma test_send_spec me target pdu r :
  match frames_at target r with
  | Some l => (test_send me target pdu r).2 = inr tt ∧ frames_at target (test_send me target pdu r).1 = Some (l ++ [(me, pdu)])
  | None => (test_send me target pdu r).1 = r ∧ ∃ e, (test_send me target pdu r).2 = inl e
  end.
Proof.
  unfold frames_at, test_send. destruct (rg_peers r !! _) as [k|] eqn:Ek; cbn; [|eauto].
  destruct (rg_channels r !! k) as [c|] eqn:Ec; cbn; [|eauto]. destruct (ch_open c) eqn:Eo; cbn; [|eauto].
  split; [done|]. rewrite Ek. cbn. rewrite list_lookup_insert_eq by (by eapply lookup_lt_Some). done.
Qed.

(** A second transport of the same address takes its place, and the first, when it is shut down,
    removes the second from the registry. *)
Example stale_shutdown_unregisters :
  let a := TcpRuns.peer_a in
  let r := (TestTransport_new a (TestTransport_new a TestRegistry_new).2).2 in
  rg_peers r !! Address_to_string a = Some 1 ∧ rg_peers (test_shutdown a r).1 !! Address_to_string a = None.
Proof. split; vm_compute; reflexivity. Qed.
End TestNet.

(** ** Adapters around a transport *)

Module Adapters.
Section adapters.
Context {S : Type} {HT : Transport S}.

Inductive InjectionMode := Pass | DropEvery (n : N) | Fail (msg : string).
(** The counter is an atomic [u32]. *)
Record Injector := mkInjector { ij_inner : S; ij_mode : InjectionMode; ij_counter : N }.

Definition set_mode (m : InjectionMode) (j : Injector) : Injector := mkInjector (ij_inner j) m (ij_counter j).

Definition lift {R} (f : S → S * R) (j : Injector) : Injector * R :=
  let '(s, r) := f (ij_inner j) in (mkInjector s (ij_mode j) (ij_counter j), r).

Definition injector_send (target : Address) (pdu : AkkaPdu) (j : Injector) : Injector * (TransportError + unit) :=
  match ij_mode j with
  | Pass => lift (t_send target pdu) j
  | DropEvery n =>
      if (1 <=? n)%N then
        let i := ij_counter j in
        let j := mkInjector (ij_inner j) (ij_mode j) ((i + 1) mod 2 ^ 32)%N in
        if (i mod n =? 0)%N then (j, inr tt) else lift (t_send target pdu) j
      else lift (t_send target pdu) j
  | Fail msg => (j, inl (TeOther msg))
  end.

#[export] Instance FailureInjectorTransport : Transport Injector := {
  t_listen := lift t_listen; t_associate a := lift (t_associate a); t_send := injector_send;
  t_disassociate a := lift (t_disassociate a); t_shutdown := lift t_shutdown;
}.

(** [Latency] waits before the inner transport sends; the wait is time, not state. *)
Inductive ThrottleMode := Unthrottled | Latency (d : N) | Blackhole.
Record Throttle := mkThrottle { th_inner : S; th_mode : ThrottleMode }.

Definition throttle_set_mode (m : ThrottleMode) (t : Throttle) : Throttle := mkThrottle (th_inner t) m.
Definition throttle_lift {R} (f : S → S * R) (t : Throttle) : Throttle * R :=
  let '(s, r) := f (th_inner t) in (mkThrottle s (th_mode t), r).

Definition throttle_send (target : Address) (pdu : AkkaPdu) (t : Throttle) : Throttle * (TransportError + unit) :=
  match th_mode t with
  | Unthrottled | Latency _ => throttle_lift (t_send target pdu) t
  | Blackhole => (t, inr tt)
  end.

#[export] Instance ThrottleTransport : Transport Throttle := {
  t_listen := throttle_lift t_listen; t_associate a := throttle_lift (t_associate a); t_send := throttle_send;
  t_disassociate a := throttle_lift (t_disassociate a); t_shutdown := throttle_lift t_shutdown;
}.

(** *** What reaches the inner transport *)

Definition send_all {X} `{Transport X} (fs : list (Address * AkkaPdu)) (x : X) : X := foldl (λ x f, (t_send f.1 f.2 x).1) x fs.

(** The frames whose number, counted from [i], is no multiple of [n]. *)
Fixpoint kept (n i : N) (fs : list (Address * AkkaPdu)) : list (Address * AkkaPdu) :=
  match fs with
  | [] => []
  | f :: fs => (if (i mod n =? 0)%N then [] else [f]) ++ kept n (i + 1) fs
  end.

Lemma injector_drops n fs j :
  ij_mode j = DropEvery n → (1 ≤ n)%N → (ij_counter j + N.of_nat (length fs) < 2 ^ 32)%N →
  ij_inner (send_all fs j) = send_all (kept n (ij_counter j) fs) (ij_inner j).
Proof.
  revert j; induction fs as [|f fs IH]; intros j Hm Hn Hc; [done|]. cbn [length] in Hc. unfold send_all in *.
  cbn [foldl kept]. rewrite foldl_app. unfold t_send at 2. cbn [FailureInjectorTransport]. unfold injector_send.
  rewrite Hm, (proj2 (N.leb_le 1 n) Hn), (N.mod_small (ij_counter j + 1)) by lia. cbn [ij_counter].
  destruct (ij_counter j mod n =? 0)%N; cbn [foldl fst snd].
  - rewrite IH; cbn [ij_inner ij_counter ij_mode]; [done|done|done|lia].
  - unfold lift. cbn [ij_inner]. destruct (t_send f.1 f.2 (ij_inner j)) as [s r] eqn:E. cbn [fst].
    rewrite IH; cbn [ij_inner ij_counter ij_mode]; [done|done|done|lia].
Qed.

Lemma injector_fails msg target pdu j : ij_mode j = Fail msg → t_send target pdu j = (j, inl (TeOther msg)).
Proof. intros Hm. cbn. unfold injector_send. by rewrite Hm. Qed.

(** A black hole reports every frame as sent and hands none on; otherwise the adapter is the
    inner transport. *)
Lemma throttle_sends fs t :
  th_inner (send_all fs t) = match th_mode t with Blackhole => th_inner t | _ => send_all fs (th_inner t) end ∧ th_mode (send_all fs t) = th_mode t.
Proof.
  revert t; induction fs as [|f fs IH]; intros t; [split; [by destruct (th_mode t)|done]|].
  change (send_all (f :: fs) t) with (send_all fs (throttle_send f.1 f.2 t).1).
  destruct (IH (throttle_send f.1 f.2 t).1) as [E1 E2]. rewrite E1, E2. clear IH E1 E2.
  unfold throttle_send, throttle_lift. destruct (th_mode t) eqn:Em; cbn;
    try (destruct (t_send f.1 f.2 (th_inner t)) as [s r] eqn:E); cbn; rewrite ?Em, ?E; done.
Qed.
End adapters.
Arguments Injector : clear implicits.
Arguments Throttle : clear implicits.

(** The counter wraps: with a period that does not divide [2^32] two frames in a row are dropped. *)
Example injector_wraps :
  let j := mkInjector TestNet.TestRegistry_new (DropEvery 3) (2 ^ 32 - 1) in
  let s := λ j, @injector_send _ (TestNet.TestTransport TcpRuns.me) TcpRuns.peer_a PduHeartbeat j in
  (s j).2 = inr tt ∧ (s (s j).1).2 = inr tt ∧ ij_counter (s (s j).1).1 = 1%N.
Proof. split_and!; vm_compute; reflexivity. Qed.
End Adapters.

(** ** A pair of tasks around a raw transport ([reader_writer.rs]) *)

Module ReaderWriter.
Section pair.
Context {F O : Type}.

(** The outbound channel with what it took, the wire, the inbound channel with what the consumer
    read, the tasks, and the ends of the channels that the handle has. *)
Record Pair := mkPair {
  rw_out : list O; rw_taken : list O; rw_wire : list O;
  rw_in : list F; rw_consumed : list F; rw_read : list F;
  rw_reader : bool; rw_writer : bool; rw_tx : bool; rw_rx : bool;
}.

(** [spawn_reader_writer]: the capacity is clamped and then not used. *)
Definition spawn_reader_writer (_outbound_capacity : nat) : Pair := mkPair [] [] [] [] [] [] true true true true.

Definition rw_offer (o : O) (p : Pair) : bool * Pair :=
  if rw_tx p && rw_writer p
  then (true, mkPair (rw_out p ++ [o]) (rw_taken p ++ [o]) (rw_wire p) (rw_in p) (rw_consumed p) (rw_read p) (rw_reader p) (rw_writer p) (rw_tx p) (rw_rx p))
  else (false, p).

(** A turn of the writer: a frame is sent or refused, or the channel is closed and empty. *)
Definition rw_write (ok : bool) (p : Pair) : Pair :=
  if rw_writer p then
    match rw_out p with
    | o :: q => mkPair q (rw_taken p) (if ok then rw_wire p ++ [o] else rw_wire p) (rw_in p) (rw_consumed p) (rw_read p) (rw_reader p) ok (rw_tx p) (rw_rx p)
    | [] => if rw_tx p then p
            else mkPair [] (rw_taken p) (rw_wire p) (rw_in p) (rw_consumed p) (rw_read p) (rw_reader p) false (rw_tx p) (rw_rx p)
    end
  else p.

(** A turn of the reader; [None] is the end of the stream or an error. *)
Definition rw_receive (frame : option F) (p : Pair) : Pair :=
  if rw_reader p then
    match frame with
    | Some f =>
        if rw_rx p
        then mkPair (rw_out p) (rw_taken p) (rw_wire p) (rw_in p ++ [f]) (rw_consumed p) (rw_read p ++ [f]) true (rw_writer p) (rw_tx p) (rw_rx p)
        else mkPair (rw_out p) (rw_taken p) (rw_wire p) (rw_in p) (rw_consumed p) (rw_read p) false (rw_writer p) (rw_tx p) (rw_rx p)
    | None => mkPair (rw_out p) (rw_taken p) (rw_wire p) (rw_in p) (rw_consumed p) (rw_read p) false (rw_writer p) (rw_tx p) (rw_rx p)
    end
  else p.

Definition rw_consume (p : Pair) : Pair :=
  match rw_in p with
  | f :: q => if rw_rx p
              then mkPair (rw_out p) (rw_taken p) (rw_wire p) q (rw_consumed p ++ [f]) (rw_read p) (rw_reader p) (rw_writer p) (rw_tx p) (rw_rx p)
              else p
  | [] => p
  end.
Definition rw_drop_tx (p : Pair) : Pair :=
  mkPair (rw_out p) (rw_taken p) (rw_wire p) (rw_in p) (rw_consumed p) (rw_read p) (rw_reader p) (rw_writer p) false (rw_rx p).
Definition rw_drop_rx (p : Pair) : Pair :=
  mkPair (rw_out p) (rw_taken p) (rw_wire p) (rw_in p) (rw_consumed p) (rw_read p) (rw_reader p) (rw_writer p) (rw_tx p) false.

Inductive PairOp := PoOffer (o : O) | PoWrite (ok : bool) | PoReceive (frame : option F) | PoConsume | PoDropTx | PoDropRx.
Definition pair_op (p : Pair) (op : PairOp) : Pair :=
  match op with
  | PoOffer o => (rw_offer o p).2 | PoWrite ok => rw_write ok p | PoReceive f => rw_receive f p
  | PoConsume => rw_consume p | PoDropTx => rw_drop_tx p | PoDropRx => rw_drop_rx p
  end.

Definition pair_ok (p : Pair) : Prop :=
  rw_wire p `prefix_of` rw_taken p ∧ (rw_writer p = true → rw_taken p = rw_wire p ++ rw_out p) ∧
  rw_read p = rw_consumed p ++ rw_in p.

Lemma pair_op_ok p op : pair_ok p → pair_ok (pair_op p op).
Proof.
  intros Hp. pose proof Hp as (Hw & Hq & Hr). destruct op as [o|ok|frame| | |]; cbn; [| | | |exact Hp|exact Hp].
  - unfold rw_offer. destruct (rw_tx p); [|exact Hp]. destruct (rw_writer p) eqn:Ew; [|exact Hp].
    split_and!; cbn; [by apply prefix_app_r| |done]. intros _. by rewrite Hq, <- (assoc_L (++)).
  - unfold rw_write. destruct (rw_writer p) eqn:Ew; [|exact Hp]. specialize (Hq eq_refl).
    destruct (rw_out p) as [|o q]; [destruct (rw_tx p); [exact Hp|by split_and!]|]. destruct ok; split_and!; cbn; try done.
    + rewrite Hq. exists q. by rewrite <- (assoc_L (++)).
    + intros _. by rewrite Hq, <- (assoc_L (++)).
  - unfold rw_receive. destruct (rw_reader p); [|exact Hp]. destruct frame; [destruct (rw_rx p)|]; split_and!; cbn; try done.
    by rewrite Hr, <- (assoc_L (++)).
  - unfold rw_consume. destruct (rw_in p) as [|f q]; [exact Hp|]. destruct (rw_rx p); [|exact Hp].
    split_and!; cbn; try done. by rewrite Hr, <- (assoc_L (++)).
Qed.

(** Whatever the order of turns, the wire has a prefix of what was offered, in order, and the
    consumer reads what came from the wire, in order. *)
Lemma pair_run_ok capacity ops : pair_ok (foldl pair_op (spawn_reader_writer capacity) ops).
Proof. assert (pair_ok (spawn_reader_writer capacity)) as H by done. revert H. generalize (spawn_reader_writer capacity). induction ops; cbn; auto using pair_op_ok. Qed.
End pair.
Arguments Pair : clear implicits.

(** The end of one task does not stop the other: after the end of the stream the writer goes on. *)
Example reader_end_keeps_writer :
  let p : Pair nat nat := foldl pair_op (spawn_reader_writer 1) [PoReceive None; PoOffer 1; PoOffer 2; PoWrite true] in
  rw_reader p = false ∧ rw_writer p = true ∧ rw_wire p = [1] ∧ rw_out p = [2].
Proof. done. Qed.
End ReaderWriter.

(** ** Typed errors ([error.rs]) and the registry of factories ([remote_props.rs]) *)

Module Errors.

Inductive RemoteErrorKind :=
  | Handshake | KQuarantined | KTombstoned | UnknownPdu | Codec | KTransport | KClosed | Timeout | BackPressure | Other.

Definition kind_as_str (k : RemoteErrorKind) : string :=
  match k with
  | Handshake => "handshake" | KQuarantined => "quarantined" | KTombstoned => "tombstoned" | UnknownPdu => "unknown_pdu"
  | Codec => "codec" | KTransport => "transport" | KClosed => "closed" | Timeout => "timeout"
  | BackPressure => "back_pressure" | Other => "other"
  end.

Record RemoteError := mkRemoteError { re_kind : RemoteErrorKind; re_message : string }.

Definition transport_error_text (e : TransportError) : string :=
  match e with
  | TeIo m => "io error: " +:+ m
  | TeCodec m => "codec: " +:+ m
  | TeNotAssociated k => "not associated with `" +:+ k +:+ "`"
  | TeClosed => "transport closed"
  | TeHandshakeRejected m => "handshake rejected: " +:+ m
  | TeOther m => "transport-specific: " +:+ m
  end.

Definition RemoteError_quarantined (target : string) : RemoteError := mkRemoteError KQuarantined (target +:+ " is quarantined").
Definition RemoteError_tombstoned (target : string) : RemoteError := mkRemoteError KTombstoned (target +:+ " is tombstoned").

Definition RemoteError_from (e : TransportError) : RemoteError :=
  match e with
  | TeHandshakeRejected s => mkRemoteError Handshake s
  | TeClosed => mkRemoteError KClosed "transport closed"
  | other => mkRemoteError KTransport (transport_error_text other)
  end.

Lemma kind_as_str_inj k k' : kind_as_str k = kind_as_str k' → k = k'.
Proof. by destruct k, k'. Qed.

(** The endpoint manager refuses a quarantined peer with a rejected handshake, so the conversion
    never gives the kind that is meant for it, nor the kind of a codec error. *)
Lemma quarantine_is_handshake target :
  re_kind (RemoteError_from (TeHandshakeRejected (target +:+ " is quarantined"))) = Handshake ∧
  re_message (RemoteError_from (TeHandshakeRejected (target +:+ " is quarantined"))) = re_message (RemoteError_quarantined target) ∧
  ∀ e, re_kind (RemoteError_from e) ∉ [KQuarantined; KTombstoned; Codec; Timeout].
Proof. split_and!; [done|done|]. intros []; cbn; set_solver. Qed.

(** The factories by manifest. *)
Section props.
Context {V : Type}.
Inductive RemotePropsError := UnknownManifest (m : string) | CodecError (msg : string).
Abbreviation Factory := (Bytes → RemotePropsError + V).
Abbreviation RemotePropsRegistry := (gmap string Factory).

Definition props_register (manifest : string) (f : Factory) (r : RemotePropsRegistry) : RemotePropsRegistry := <[manifest := f]> r.
Definition props_instantiate (manifest : string) (bytes : Bytes) (r : RemotePropsRegistry) : RemotePropsError + V :=
  match r !! manifest with Some f => f bytes | None => inl (UnknownManifest manifest) end.
Definition props_manifests (r : RemotePropsRegistry) : list string := merge_sort String.le (elements (dom r)).

(** The last registration of a manifest decides, and others are not affected. *)
Lemma instantiate_register m f bytes m' (r : RemotePropsRegistry) :
  props_instantiate m' bytes (props_register m f r) = if decide (m' = m) then f bytes else props_instantiate m' bytes r.
Proof.
  unfold props_instantiate, props_register. case_decide as H; [subst; by rewrite lookup_insert_eq|by rewrite lookup_insert_ne].
Qed.

Lemma manifests_known m (r : RemotePropsRegistry) : m ∈ props_manifests r ↔ is_Some (r !! m).
Proof. unfold props_manifests. rewrite merge_sort_Permutation, elem_of_elements. apply elem_of_dom. Qed.
End props.
End Errors.

(** ** References to remote actors ([remote_ref.rs]) *)

Module RemoteRefs.

Record SerializedMessage := mkSerialized { sm_serializer_id : N; sm_manifest : string; sm_payload : Bytes; sm_sender : option ActorPath }.
Record RemoteActorRef := mkRemoteRef { rr_path : ActorPath; rr_local_uid : N }.

(** [RemoteEnvelope::user] and [RemoteEnvelope::system_msg] with the arguments of a reference. *)
Definition user_envelope (r : RemoteActorRef) (m : SerializedMessage) : RemoteEnvelope :=
  mkRemoteEnvelope (ActorPath_to_string (rr_path r)) (ActorPath_to_string <$> sm_sender m) (rr_local_uid r) (ap_uid (rr_path r)) 0
    (sm_serializer_id m) (sm_manifest m) false (sm_payload m).
Definition system_envelope (r : RemoteActorRef) (manifest : string) (bytes : Bytes) : RemoteEnvelope :=
  mkRemoteEnvelope (ActorPath_to_string (rr_path r)) None (rr_local_uid r) (ap_uid (rr_path r)) 0 0 manifest true bytes.

(** A task that waits for the endpoint of its target, the commands that endpoints got, what was
    given up, and the counters. *)
Record Task := mkTask { tk_target : Address; tk_env : RemoteEnvelope }.
Record Outgoing := mkOutgoing { sd_tasks : list Task; sd_commands : list (Address * RemoteEnvelope); sd_failed : list Task; sd_metrics : Probes.RemoteMetrics }.
Definition sender_new : Outgoing := mkOutgoing [] [] [] ∅.

Definition spawn_task (t : Task) (s : Outgoing) : Outgoing := mkOutgoing (sd_tasks s ++ [t]) (sd_commands s) (sd_failed s) (sd_metrics s).

Definition tell_serialized (r : RemoteActorRef) (m : SerializedMessage) : Outgoing → Outgoing :=
  spawn_task (mkTask (ap_address (rr_path r)) (user_envelope r m)).

(** [encode] is what the registry makes of the message. *)
Definition tell_system (encode : RemoteSystemMsg → option Bytes) (manifest : string) (r : RemoteActorRef) (m : RemoteSystemMsg) (s : Outgoing) : Outgoing :=
  match encode m with
  | Some bytes => spawn_task (mkTask (ap_address (rr_path r)) (system_envelope r manifest bytes)) s
  | None => s
  end.

(** Task [i] goes on with the result of [endpoint_for]. *)
Definition task_turn (endpoint : TransportError + unit) (i : nat) (s : Outgoing) : Outgoing :=
  match sd_tasks s !! i with
  | Some t =>
      let user := negb (env_system (tk_env t)) in
      let tasks := delete i (sd_tasks s) in
      match endpoint with
      | inr _ =>
          mkOutgoing tasks (sd_commands s ++ [(tk_target t, tk_env t)]) (sd_failed s)
            (if user then Probes.record_send (tk_target t) (N.of_nat (length (env_payload (tk_env t)))) (sd_metrics s) else sd_metrics s)
      | inl _ =>
          mkOutgoing tasks (sd_commands s) (sd_failed s ++ [t]) (if user then Probes.record_error (tk_target t) (sd_metrics s) else sd_metrics s)
      end
  | None => s
  end.

Inductive SenderOp :=
  | SoTell (r : RemoteActorRef) (m : SerializedMessage)
  | SoSystem (manifest : string) (bytes : Bytes) (r : RemoteActorRef) (m : RemoteSystemMsg)
  | SoTurn (endpoint : TransportError + unit) (i : nat).
Definition sender_op (s : Outgoing) (op : SenderOp) : Outgoing :=
  match op with
  | SoTell r m => tell_serialized r m s
  | SoSystem manifest bytes r m => tell_system (λ _, Some bytes) manifest r m s
  | SoTurn e i => task_turn e i s
  end.

(** What a run told. *)
Definition told (op : SenderOp) : list Task :=
  match op with
  | SoTell r m => [mkTask (ap_address (rr_path r)) (user_envelope r m)]
  | SoSystem manifest bytes r m => [mkTask (ap_address (rr_path r)) (system_envelope r manifest bytes)]
  | SoTurn _ _ => []
  end.

Definition handled (s : Outgoing) : list Task := sd_tasks s ++ ((λ c, mkTask c.1 c.2) <$> sd_commands s) ++ sd_failed s.

Lemma sender_op_handled s op : handled (sender_op s op) ≡ₚ told op ++ handled s.
Proof.
  unfold handled. destruct op as [r m|manifest bytes r m|e i]; cbn.
  - rewrite <- (assoc_L (++)). cbn. symmetry. apply Permutation_middle.
  - rewrite <- (assoc_L (++)). cbn. symmetry. apply Permutation_middle.
  - unfold task_turn. destruct (sd_tasks s !! i) as [[a env]|] eqn:Ei; [|done].
    etrans; [|apply Permutation_app_tail; symmetry; exact (delete_Permutation _ _ _ Ei)].
    destruct e; cbn; rewrite ?fmap_app; cbn; rewrite <- ?(assoc_L (++)); cbn; solve_Permutation.
Qed.

(** Every message is, once, with a task that waits, with its endpoint or given up. *)
Lemma told_once ops : handled (foldl sender_op sender_new ops) ≡ₚ concat (told <$> ops).
Proof.
  induction ops as [|op ops IH] using rev_ind; [done|].
  rewrite foldl_app, fmap_app, concat_app. cbn. rewrite sender_op_handled, IH, app_nil_r. apply Permutation_app_comm.
Qed.

(** The tasks run on their own, so two messages of one sender to one actor can reach its endpoint,
    where they get their sequence numbers, in the other order. *)
Example tells_overtake :
  let r := mkRemoteRef (mkActorPath TcpRuns.peer_a ["user"; "x"] 0) 1 in
  let m n := mkSerialized 1 n [] None in
  (λ c, env_manifest c.2) <$> sd_commands (foldl sender_op sender_new [SoTell r (m "first"); SoTell r (m "second"); SoTurn (inr tt) 1; SoTurn (inr tt) 0]) =
  ["second"; "first"].
Proof. vm_compute. reflexivity. Qed.
End RemoteRefs.
